(* ===== verification/_CoqProject ===== *)
-Q . S2P
Prelude.v
Bytes.v
FrameKernel.v
SwipKernel.v
PageHeader.v
PageMutation.v
Slotted.v
SlottedInv.v
SlottedOps.v
SlottedSearch.v
SlottedMutation.v
SlottedSpec.v
BufferFrame.v
BTreeNode.v
BTreeNodeInv.v
BTreePages.v
BTreeMerge.v
BTreeSplitSpec.v
BTreeInnerSpec.v
BTreeRoute.v
BTreeMergeSpec.v
BTreeNodeSpec.v
FreePages.v
FreePagesInv.v
FreePagesSpec.v
HybridLatch.v
LatchSpec.v
Posix.v
PageStore.v
PageStoreInv.v
PageStoreSpec.v
WalFormat.v
WalBatch.v
WalCodec.v
WalPatch.v
WalCodecSpec.v
WalRecovery.v
WalRecoverySpec.v
RecoverySpec.v
WalReplay.v
WalReplaySpec.v
WalSlots.v
WalShard.v
WalApi.v
WalShardInv.v
WalShardSpec.v
WalLogSpec.v
BTreePool.v
BTreeRead.v
BTreeWrite.v
BTreeRemove.v
BTreeTree.v
BTreeGrow.v
BTreeReadSpec.v
BTreeScan.v
BTreeScanSpec.v
BTreeTreeSpec.v
BTreeDescent.v
BTreeWorld.v
BTreePublish.v
BTreeSearchParent.v
BTreeWriteSpec.v
KvStore.v
BTreeEvict.v
BufferPool.v
PoolBase.v
PoolEvict.v
PoolFlush.v
PoolFix.v
PoolInv.v
PoolSteps.v
PoolEvictSpec.v
PoolFlushSpec.v
PoolFixSpec.v
PoolDirtySpec.v
PoolServe.v
PoolStores.v
PoolInner.v
PoolSpec.v
PageProvider.v
