(* ===== verification/Prelude.v ===== *)
(** * Pagebox: a verification of its storage engine

    Pagebox is an embedded storage engine in Rust: a B+tree over slotted
    pages, kept in a buffer pool above a page store, with a write-ahead log
    beside it. This library models the crates under [src/crates] as Rocq
    functions and proves what they promise. It is self-contained; this header
    is its guide.

    ** The program and the files that model it

    Shared vocabulary
    - [Prelude] (this file): build configuration ([Build]: the [page-4k]
      feature and [debug_assertions]), outcomes (a value or a panic), machine
      integers, generic lemmas and tactics. [Bytes]: byte arrays, sub-ranges,
      little- and big-endian fields.
    - [Posix]: the kernel's file interface as a class of promises
      ([PosixFile]), a scripted kernel that keeps them, and the result monad
      of code that performs I/O.

    Kernels
    - [FrameKernel]: [frame-kernel/src/page_id.rs] and [frame.rs], page
      identifiers and the frame lifecycle.
    - [SwipKernel]: [swip-kernel/src], the tagged page reference.
    - [HybridLatch], [LatchSpec]: [hybrid-latch/src], the
      version word, the guards, and threads interleaved at atomic accesses.

    Pages
    - [PageHeader]: [storage/src/page_header.rs]. [PageMutation]: the set of
      changed byte ranges of [storage/src/buffer_pool.rs].
    - [Slotted]: every method of [storage/src/slotted_page.rs] on the page
      bytes. [SlottedInv], [SlottedOps], [SlottedSearch], [SlottedMutation]
      and [SlottedSpec] hold its invariant, its lemmas and its contract.

    B-tree
    - [BufferFrame]: [storage/src/buffer_frame.rs], frame identity, back
      links, and the form of a page that is written.
    - [BTreeNode]: [btree/src/btree/node.rs], [parent_edge.rs] and
      [split_publish.rs], node layout, routing and mutation. [BTreeNodeInv]
      holds its invariant and lemmas.
    - [BTreePages], [BTreeMerge]: what [btree/src/btree.rs] does to the pages
      of its nodes. [BTreeSplitSpec], [BTreeInnerSpec], [BTreeRoute],
      [BTreeMergeSpec] and [BTreeNodeSpec] hold the lemmas and theorems.
    - [BTreePool]: what the tree asks of the buffer pool, as operations and
      laws, and rules for computations that may restart. [BTreeRead],
      [BTreeScan]: the descents, lookups and scans of [btree.rs] over that
      interface. [BTreeTree]: the tree the nodes form and the map it
      represents. [BTreeReadSpec], [BTreeScanSpec] and [BTreeTreeSpec] hold
      the lemmas and theorems, the last also a pool that keeps the laws.
    - [BTreeWrite]: the write side of [btree.rs], with its descents, splits,
      the publication of a split in the parent, [insert] and [upsert].
      [BTreeRemove]: [remove], with merges, separator repair and the collapse
      of the root. [BTreeGrow]: the tree level by level, with splits that are
      not published yet. [BTreeDescent]: what writers ask of the pool
      besides, as laws, and their descents. [BTreeWorld]: a pool that holds a
      tree in growth, what a split costs, and the splits.
      [BTreePublish], [BTreeSearchParent]: a split is published.
      [BTreeWriteSpec] holds the theorems and a pool that keeps the laws.
    - [BTreeEvict]: the callback of [btree.rs] that makes the tree forget a
      frame when the pool evicts it.

    Key-value store
    - [KvStore]: the operations of [kvstore/src/lib.rs] over the tree, and
      sessions of them.

    Page store
    - [FreePages], [FreePagesInv], [FreePagesSpec]:
      [storage/src/free_page_allocator.rs], sequential and interleaved.
    - [PageStore], [PageStoreInv], [PageStoreSpec]:
      [storage/src/page_store.rs] over any kernel that keeps [PosixFile].

    Write-ahead log
    - [WalFormat], [WalBatch]: [wal/src/format.rs], the file format.
    - [WalCodec], [WalPatch], [WalCodecSpec]: the record codecs of
      [wal/src/wal_impl.rs].
    - [WalRecovery], [WalRecoverySpec], [RecoverySpec]: recovery into a page
      store, against an interface that both page stores are shown to keep.
    - [WalReplay], [WalReplaySpec]: opening, scanning and replaying a log
      file.
    - [WalSlots], [WalShard], [WalApi], [WalShardInv],
      [WalShardSpec], [WalLogSpec]: the append side, with sealing, waiting,
      writing and completion, as a machine whose steps come in any order.
      [WalApi] also holds the front end over the shards, with the marks that
      callers wait on.

    Buffer pool
    - [BufferPool]: the data of [storage/src/buffer_pool.rs] and of
      [buffer_frame.rs] (frames, free list, page table, stable edges), and
      what the pool asks of the page store and of the log. [PoolBase]: the
      effects of its methods and their smallest steps. [PoolEvict],
      [PoolFlush], [PoolFix]: its methods, as one thread runs them.
    - [PoolInv], [PoolSteps]: the invariant, the laws the pool relies on, and
      what local changes keep. [PoolEvictSpec], [PoolFlushSpec],
      [PoolFixSpec], [PoolDirtySpec]: what each method does. [PoolServe]: the
      pool as a map of pages. [PoolInner], [PoolStores]: the B-tree's inner
      pages, both page stores and a log keep the laws. [PoolSpec] holds the
      theorems.
    - [PageProvider]: [storage/src/page_provider.rs], the loop that writes
      dirty pages in the background, over the pool.

    ** What the theorems show

    - Slotted page: on sorted keys a page is a finite map; search is correct
      on all three of its paths; insertion succeeds exactly when it fits; the
      recorded mutation covers every changed byte; readers of torn pages
      never leave the page.
    - B-tree nodes: leaf writes update a finite map or ask for a split exactly
      when there is no room; splits and merges keep the sequences of entries,
      children and separators, and merging undoes splitting; routing finds
      the child of a key; no address of a frame is written to disk. The cases
      in which splits and separator updates panic are characterised.
    - B-tree reads: lookups and scans return what the tree holds, whatever
      the pool evicts, tears or refuses, and always end; the refusals after
      which they miss entries are characterised.
    - B-tree writes: [insert] and [upsert] always end and update the map the
      tree represents, through every restart, split and growth of the root,
      when three entries fit in a page and no leaf is empty (a lone root
      excepted). Both conditions matter: with larger keys a split may never be
      published, and a removal may leave an empty leaf behind, at which the
      search that keeps the path stops, so that [remove] misses keys and
      [insert] hides some. The eviction callback ends, and when it succeeds no
      node refers to the frame, provided the slots of every snapshot it reads
      lie within the page; the snapshots on which it panics are characterised.
    - Key-value store: sessions of puts, gets, scans, flushes and checkpoints
      answer as a finite map does, on a tree with no empty leaf; [del] is
      modelled and is no part of these sessions.
    - Page store: a file store is a map from page numbers to pages under
      short transfers, interruptions and failures, and reopens as it was
      synced. Free pages are handed out once (and the race in which they are
      not is exhibited).
    - Buffer pool: whatever is resident, evicted or written back, reads
      return the page last written; eviction loses nothing and touches no
      pinned frame; a flush leaves every dirty page in the store, each after
      its log record; fixing a page takes two rounds at most. Pages are kept
      byte for byte, with two exceptions that the theorems spell out: in an
      inner index page references to frames may become identifiers of the
      pages these hold, and a page of a type with a registered preparer may
      become what the preparer makes of it. With several shards of the log a
      foreground batch keeps the log ahead of the pages exactly when its pages
      belong to one shard or are durable already, and the identity of a frame
      can name two pages. The page provider between the requests changes no
      answer and paces itself as its policy says.
    - Latches: writers exclude each other and readers; an optimistic read
      that validates saw one value.
    - Log: what is appended is replayed in order, a prefix of it after a
      crash and all of it once drained; the durable mark covers what it
      claims; recovery replays the log, twice as well as once.
    - Kernels and codecs: state machines, round trips, bounds.

    ** Assumptions and bounds

    The target is a 64-bit little-endian machine. Code outside the repository
    is a parameter: the kernel ([PosixFile]), the reader/writer lock of
    parking_lot ([RawRwLock] in [HybridLatch]) and CRC-32 ([WalFormat]); the
    witnesses instantiate each. The B-tree is proved against an interface of
    the buffer pool ([BTreePool], [BTreeDescent]), which [BTreeTreeSpec] and
    [BTreeWriteSpec] instantiate, and the store against [KvOps]. Loops that
    are not structural run on fuel that is at least the number of iterations
    (the slots of a page, the bytes of a transfer, the batches of a file; for
    a write to the tree, the failures the pool has left and the entries of the
    tree), and the theorems say that a result is returned, so the fuel is
    enough. Overflow of the widths the code uses is a panic in [uadd] and
    [usub] (checked in the debug profile, ruled out by the theorems in both).

    ** Not modelled

    The io_uring backend and the group-commit timing of the log; the buffer
    pool under several threads, its metrics; the
    constructors of the tree and its prefetch; how a key-value store is
    opened; benchmarks.
    [remove] is modelled, but no theorem is proved of the map it leaves: it
    can miss a key ([BTreeWriteSpec]). Power failure between two fsyncs is
    modelled only as far as the log's valid prefix goes. Readers and writers
    of the tree run against a pool that changes which pages are in memory,
    not against other writers. *)

From Stdlib Require Export ZArith Lia.
From Stdlib.Strings Require Export Byte.
From stdpp Require Export base numbers list gmap sorting.

#[export] Set Default Goal Selector "!".
#[local] Open Scope Z_scope.

(** ** Build configuration

    The two compile-time switches the sources branch on: the [page-4k] cargo
    feature and [cfg(debug_assertions)]. *)

Class Build := {
  page_4k : bool;
  debug_assertions : bool;
}.

(** The default build: 64 KiB pages, optimised profile. *)
Definition release_64k : Build := {| page_4k := false; debug_assertions := false |}.
(** The small-page build under the test profile. *)
Definition debug_4k : Build := {| page_4k := true; debug_assertions := true |}.

(** ** Outcomes

    A Rust computation returns a value or panics. A raw-pointer access that
    leaves its object is undefined behaviour in the source and is a [Panic]
    here, so that a theorem that rules out [Panic] rules out both. *)

Inductive outcome (A : Type) : Type :=
| Ret (a : A)
| Panic.
Arguments Ret {A} a.
Arguments Panic {A}.

#[global] Instance outcome_ret : MRet outcome := @Ret.
#[global] Instance outcome_bind : MBind outcome := λ A B f m,
  match m with
  | Ret a => f a
  | Panic => Panic
  end.
#[global] Instance outcome_eq_dec {A} `{EqDecision A} : EqDecision (outcome A).
Proof. solve_decision. Defined.

(** [assert!(b)]: checked in every build. *)
Definition assert (b : bool) : outcome unit := if b then Ret tt else Panic.

(** [debug_assert!(b)]: checked only when debug assertions are compiled in. *)
Definition debug_assert `{Build} (b : bool) : outcome unit :=
  if debug_assertions then assert b else Ret tt.

(** [Option::expect] / [Option::unwrap]. *)
Definition expect {A} (o : option A) : outcome A :=
  match o with
  | Some a => Ret a
  | None => Panic
  end.

Lemma bind_Ret_inv {A B} (m : outcome A) (f : A → outcome B) b :
  (m ≫= f) = Ret b → ∃ a, m = Ret a ∧ f a = Ret b.
Proof. destruct m as [a|]; [|discriminate]. intros E. by exists a. Qed.

Lemma bind_Ret {A B} (a : A) (f : A → outcome B) : (Ret a ≫= f) = f a.
Proof. reflexivity. Qed.

Lemma assert_true b : b = true → assert b = Ret tt.
Proof. by intros ->. Qed.

Lemma assert_Ret_inv b u : assert b = Ret u → b = true.
Proof. by destruct b. Qed.

Lemma debug_assert_true `{Build} b : b = true → debug_assert b = Ret tt.
Proof. intros ->. unfold debug_assert. by destruct debug_assertions. Qed.

(** [let x = m?; k] in a function that returns [Option]. *)
Definition opt_bind {A B} (m : outcome (option A)) (k : A → outcome (option B))
    : outcome (option B) :=
  r ← m;
  match r with
  | Some a => k a
  | None => Ret None
  end.
Notation "x ←? m ; k" := (opt_bind m (λ x, k))
  (at level 20, m at level 100, k at level 200, right associativity).

(** [outcome_inv H] splits [H : (x ← m; k) = Ret v] into its successful steps. *)
Ltac outcome_inv H :=
  match type of H with
  | mbind _ _ = Ret _ =>
      let a := fresh "r" in let H1 := fresh "Hr" in
      apply bind_Ret_inv in H as (a & H1 & H)
  end.

(** ** I/O results *)

Inductive ErrorKind :=
| InvalidInput | InvalidData | UnexpectedEof | WriteZero | Interrupted | OsError (code : Z).
#[global] Instance ErrorKind_eq_dec : EqDecision ErrorKind.
Proof. solve_decision. Defined.

Inductive io_result (A : Type) : Type :=
| Ok (a : A)
| Err (e : ErrorKind).
Arguments Ok {A} a.
Arguments Err {A} e.
#[global] Instance io_result_eq_dec {A} `{EqDecision A} : EqDecision (io_result A).
Proof. solve_decision. Defined.

#[global] Instance io_result_ret : MRet io_result := @Ok.
#[global] Instance io_result_bind : MBind io_result := λ A B f m,
  match m with
  | Ok a => f a
  | Err e => Err e
  end.

(** ** Machine integers

    A [w]-bit unsigned integer is a [Z]; the operations that can leave the
    range write the wrap-around out. *)

Definition wrap (w : Z) (z : Z) : Z := z mod 2 ^ w.
Definition in_width (w : Z) (z : Z) : bool := (0 <=? z) && (z <? 2 ^ w).
(** [!x] on a [w]-bit word. *)
Definition unot (w : Z) (z : Z) : Z := Z.lxor z (Z.ones w).

Definition u8_max : Z := 2 ^ 8 - 1.
Definition u16_max : Z := 2 ^ 16 - 1.
Definition u32_max : Z := 2 ^ 32 - 1.
Definition u64_max : Z := 2 ^ 64 - 1.

(** [a + b] and [a - b] on [w]-bit operands: overflow panics in a build with
    overflow checks (the profiles with debug assertions) and wraps otherwise. *)
Definition uadd `{Build} (w a b : Z) : outcome Z :=
  if in_width w (a + b) then Ret (a + b)
  else if debug_assertions then Panic else Ret (wrap w (a + b)).
Definition usub `{Build} (w a b : Z) : outcome Z :=
  if in_width w (a - b) then Ret (a - b)
  else if debug_assertions then Panic else Ret (wrap w (a - b)).

(** [checked_add], [saturating_add], [saturating_sub], [saturating_mul]. *)
Definition checked_add (w a b : Z) : option Z :=
  if in_width w (a + b) then Some (a + b) else None.
Definition saturating_add (w a b : Z) : Z := Z.min (a + b) (2 ^ w - 1).
Definition saturating_sub (a b : Z) : Z := Z.max (a - b) 0.
Definition saturating_mul (w a b : Z) : Z := Z.min (a * b) (2 ^ w - 1).

Lemma in_width_spec w z : in_width w z = true ↔ 0 ≤ z < 2 ^ w.
Proof. unfold in_width. rewrite andb_true_iff, Z.leb_le, Z.ltb_lt. lia. Qed.

Lemma wrap_small w z : 0 ≤ z < 2 ^ w → wrap w z = z.
Proof. apply Z.mod_small. Qed.

Lemma wrap_range w z : 0 ≤ w → 0 ≤ wrap w z < 2 ^ w.
Proof. intros. apply Z.mod_pos_bound. lia. Qed.

Lemma uadd_in_range `{Build} w a b : 0 ≤ a + b < 2 ^ w → uadd w a b = Ret (a + b).
Proof. intros Hr. unfold uadd. by rewrite (proj2 (in_width_spec _ _) Hr). Qed.

Lemma usub_in_range `{Build} w a b : 0 ≤ a - b < 2 ^ w → usub w a b = Ret (a - b).
Proof. intros Hr. unfold usub. by rewrite (proj2 (in_width_spec _ _) Hr). Qed.

(** *** Bits

    [bit_eq] proves an equation between words bit by bit: it introduces the
    bit index, rewrites every bitwise operator with the [bits] database and
    leaves the case analysis on the index to the caller. *)

Create Rewrite HintDb bits.

Lemma testbit_above n z i : 0 ≤ z < 2 ^ n → n ≤ i → Z.testbit z i = false.
Proof.
  intros Hz Hi. destruct (decide (0 ≤ n)) as [Hn|Hn].
  - rewrite <-(Z.mod_small z (2 ^ n)) by done. by apply Z.mod_pow2_bits_high.
  - rewrite Z.pow_neg_r in Hz by lia. lia.
Qed.

Lemma testbit_ones_eq n i : 0 ≤ n → 0 ≤ i → Z.testbit (Z.ones n) i = (i <? n).
Proof. intros. rewrite Z.testbit_ones by done. by rewrite (proj2 (Z.leb_le 0 i)) by done. Qed.

Lemma testbit_bit n i : 0 ≤ n → 0 ≤ i → Z.testbit (Z.shiftl 1 n) i = (i =? n).
Proof.
  intros. rewrite Z.shiftl_1_l, Z.pow2_bits_eqb by done. apply Z.eqb_sym.
Qed.

Lemma testbit_unot w z i : 0 ≤ w → 0 ≤ i → Z.testbit (unot w z) i = xorb (Z.testbit z i) (i <? w).
Proof. intros. unfold unot. by rewrite Z.lxor_spec, testbit_ones_eq. Qed.

#[export] Hint Rewrite Z.land_spec Z.lor_spec Z.lxor_spec Z.bits_0 : bits.
#[export] Hint Rewrite testbit_unot testbit_bit testbit_ones_eq using lia : bits.

Lemma bits_range n z : 0 ≤ n → 0 ≤ z → (∀ i, n ≤ i → Z.testbit z i = false) → z < 2 ^ n.
Proof.
  intros Hn Hz Hb. destruct (decide (z = 0)) as [->|Hne]; [lia|].
  apply Z.log2_lt_pow2; [lia|]. apply Z.lt_nge. intros Hge.
  pose proof (Z.bit_log2 z ltac:(lia)). rewrite Hb in *; [done|lia].
Qed.

Ltac bit_eq i :=
  apply Z.bits_inj'; intros i ?; autorewrite with bits.

(** Disjoint words add. *)
Lemma lor_disjoint_add a b : Z.land a b = 0 → Z.lor a b = a + b.
Proof. intros E. rewrite Z.add_nocarry_lxor by done. symmetry. by apply Z.lxor_lor. Qed.

(** ** Lists *)

Lemma StronglySorted_lookup_lt {A} (R : A → A → Prop) l i j x y :
  StronglySorted R l → l !! i = Some x → l !! j = Some y → (i < j)%nat → R x y.
Proof.
  intros Hs Hi Hj Hlt. rewrite <-(take_drop j l) in Hs. apply StronglySorted_app in Hs as (Hx & _).
  apply Hx.
  - apply list_elem_of_lookup. exists i. by rewrite lookup_take_lt by lia.
  - apply list_elem_of_lookup. exists 0%nat. by rewrite lookup_drop, Nat.add_0_r.
Qed.

(** Counting the elements with a property, through an update. *)
Definition count {A} (f : A → bool) (l : list A) : nat := length (filter f l).

Lemma count_insert {A} (f : A → bool) l i x y :
  l !! i = Some x →
  (count f (<[i := y]> l) + (if f x then 1 else 0) = count f l + (if f y then 1 else 0))%nat.
Proof.
  unfold count. revert i. induction l as [|z l IH]; intros [|i] E; simplify_eq/=.
  - rewrite !filter_cons. destruct (f x), (f y); simpl; lia.
  - specialize (IH i E). rewrite !filter_cons. destruct (f z); simpl; lia.
Qed.

Lemma count_pos {A} (f : A → bool) l i x : l !! i = Some x → f x = true → (1 ≤ count f l)%nat.
Proof.
  intros E Hf. pose proof (count_insert f l i x x E). rewrite Hf in *. unfold count.
  rewrite <-(take_drop_middle _ _ _ E), filter_app, filter_cons, Hf, length_app. simpl. lia.
Qed.

Lemma count_two {A} (f : A → bool) l i j x y :
  l !! i = Some x → l !! j = Some y → i ≠ j → f x = true → f y = true → (2 ≤ count f l)%nat.
Proof.
  intros Ei Ej Hne Hx Hy. revert i j Ei Ej Hne. unfold count.
  induction l as [|z l IH]; intros [|i] [|j] Ei Ej Hne; simplify_eq/=.
  - rewrite filter_cons, Hx. simpl. pose proof (count_pos f l j y Ej Hy). unfold count in *. lia.
  - rewrite filter_cons, Hy. simpl. pose proof (count_pos f l i x Ei Hx). unfold count in *. lia.
  - assert (Hij : i ≠ j) by congruence. specialize (IH i j Ei Ej Hij). rewrite filter_cons.
    destruct (f z); simpl; lia.
Qed.

Lemma count_replicate {A} (f : A → bool) n x : f x = false → count f (replicate n x) = 0%nat.
Proof.
  intros Hf. unfold count. induction n as [|n IH]; [done|]. simpl. rewrite filter_cons, Hf. exact IH.
Qed.
