(* ===== verification/Bytes.v ===== *)
(** * Bytes: byte arrays, sub-ranges and fixed-width encodings

    The page images, headers and log records of Pagebox are byte arrays read
    and written at computed offsets. This file models [&[u8]] as
    [list byte] with [Z] offsets: [sub p off n] is [p[off..off + n]],
    [upd p off bs] is [p[off..off + bs.len()].copy_from_slice(bs)], [slice]
    and [copy_from] are the bounds-checked forms that panic, and
    [le_bytes] / [of_le_bytes] are [to_le_bytes] / [from_le_bytes]. The
    targets Pagebox builds for are little-endian, so the native-endian
    accessors of the sources are the same functions. *)

From S2P Require Import Prelude.
#[local] Open Scope Z_scope.

(** ** Bytes as numbers *)

Definition u8 (b : byte) : Z := Z.of_N (Byte.to_N b).
Definition to_u8 (z : Z) : byte := default x00 (Byte.of_N (Z.to_N (z mod 256))).

Lemma u8_range b : 0 ≤ u8 b < 256.
Proof. unfold u8. pose proof (Byte.to_N_bounded b). lia. Qed.

Lemma u8_to_u8 z : u8 (to_u8 z) = z mod 256.
Proof.
  unfold u8, to_u8. pose proof (Z.mod_pos_bound z 256 ltac:(lia)) as Hb.
  destruct (Byte.of_N (Z.to_N (z mod 256))) as [b|] eqn:E.
  - apply Byte.to_of_N in E. simpl. rewrite E. lia.
  - apply Byte.of_N_None_iff in E. lia.
Qed.

Lemma u8_inj b1 b2 : u8 b1 = u8 b2 → b1 = b2.
Proof.
  unfold u8. intros E%N2Z.inj.
  pose proof (Byte.of_to_N b1) as E1. pose proof (Byte.of_to_N b2) as E2. congruence.
Qed.

Lemma to_u8_u8 b : to_u8 (u8 b) = b.
Proof. apply u8_inj. rewrite u8_to_u8. apply Z.mod_small, u8_range. Qed.

#[global] Instance byte_eq_decision : EqDecision byte := Byte.byte_eq_dec.

(** ** Lengths in [Z] *)

Definition zlen {A} (l : list A) : Z := Z.of_nat (length l).

Lemma zlen_nonneg {A} (l : list A) : 0 ≤ zlen l.
Proof. unfold zlen. lia. Qed.
Lemma zlen_nil {A} : zlen (@nil A) = 0.
Proof. reflexivity. Qed.
Lemma zlen_cons {A} (x : A) l : zlen (x :: l) = 1 + zlen l.
Proof. unfold zlen. simpl. lia. Qed.
Lemma zlen_app {A} (l k : list A) : zlen (l ++ k) = zlen l + zlen k.
Proof. unfold zlen. rewrite length_app. lia. Qed.
Lemma zlen_replicate {A} n (x : A) : zlen (replicate n x) = Z.of_nat n.
Proof. unfold zlen. by rewrite length_replicate. Qed.
Lemma zlen_0_nil {A} (l : list A) : zlen l = 0 → l = [].
Proof. unfold zlen. destruct l; simpl; [done|lia]. Qed.

(** ** Sub-ranges *)

Definition sub {A} (p : list A) (off n : Z) : list A :=
  take (Z.to_nat n) (drop (Z.to_nat off) p).
Definition upd {A} (p : list A) (off : Z) (bs : list A) : list A :=
  take (Z.to_nat off) p ++ bs ++ drop (Z.to_nat (off + zlen bs)) p.
(** [vec![b; n]] and [buf.fill(b)]. *)
Definition fill {A} (n : Z) (b : A) : list A := replicate (Z.to_nat n) b.

(** [&p[a..b]]: panics unless [a <= b <= p.len()]. *)
Definition slice {A} (p : list A) (a b : Z) : outcome (list A) :=
  if (0 <=? a) && (a <=? b) && (b <=? zlen p) then Ret (sub p a (b - a)) else Panic.
(** [p.get(a..b)]. *)
Definition get_range {A} (p : list A) (a b : Z) : option (list A) :=
  if (0 <=? a) && (a <=? b) && (b <=? zlen p) then Some (sub p a (b - a)) else None.
(** [p[a..b].copy_from_slice(bs)]: panics out of range or on a length mismatch. *)
Definition copy_from {A} (p : list A) (a b : Z) (bs : list A) : outcome (list A) :=
  if (0 <=? a) && (a <=? b) && (b <=? zlen p) && (zlen bs =? b - a)
  then Ret (upd p a bs) else Panic.

Lemma zlen_fill {A} n (b : A) : 0 ≤ n → zlen (fill n b) = n.
Proof. intros. unfold fill. rewrite zlen_replicate. lia. Qed.

(** [Ord::cmp] on [[u8]]: lexicographic. *)
Fixpoint slice_cmp (a b : list byte) : comparison :=
  match a, b with
  | [], [] => Eq
  | [], _ :: _ => Lt
  | _ :: _, [] => Gt
  | x :: a, y :: b =>
      match u8 x ?= u8 y with
      | Eq => slice_cmp a b
      | c => c
      end
  end.

(** [ptr::copy(base + src, base + dst, n)] (memmove) inside one buffer; an
    access that leaves the buffer is undefined behaviour. *)
Definition ptr_copy {A} (p : list A) (src dst n : Z) : outcome (list A) :=
  if (0 <=? src) && (0 <=? dst) && (0 <=? n) && (src + n <=? zlen p) && (dst + n <=? zlen p)
  then Ret (upd p dst (sub p src n)) else Panic.

Section sub_upd.
Context {A : Type}.
Implicit Types p q bs : list A.

Lemma zlen_sub p off n : 0 ≤ off → 0 ≤ n → off + n ≤ zlen p → zlen (sub p off n) = n.
Proof. unfold zlen, sub. intros. rewrite length_take, length_drop. lia. Qed.

Lemma zlen_sub_le p off n : 0 ≤ n → zlen (sub p off n) ≤ n.
Proof. unfold zlen, sub. intros. rewrite length_take, length_drop. lia. Qed.

Lemma zlen_sub_min p off n :
  0 ≤ off ≤ zlen p → 0 ≤ n → zlen (sub p off n) = Z.min n (zlen p - off).
Proof. unfold zlen, sub. intros. rewrite length_take, length_drop. lia. Qed.

Lemma sub_clip p off n :
  0 ≤ off → zlen p - off ≤ n → sub p off n = sub p off (zlen p - off).
Proof. unfold zlen, sub. intros. rewrite !take_ge; rewrite ?length_drop; [done|lia|lia]. Qed.

Lemma zlen_upd p off bs : 0 ≤ off → off + zlen bs ≤ zlen p → zlen (upd p off bs) = zlen p.
Proof. unfold zlen, upd. intros. rewrite !length_app, length_take, length_drop. unfold zlen. lia. Qed.

Lemma lookup_sub p off n (i : nat) :
  0 ≤ off → (i < Z.to_nat n)%nat → sub p off n !! i = p !! (Z.to_nat off + i)%nat.
Proof. intros. unfold sub. rewrite lookup_take_lt by lia. by rewrite lookup_drop. Qed.

Lemma lookup_sub_ge p off n (i : nat) :
  (Z.to_nat n ≤ i)%nat → sub p off n !! i = None.
Proof. intros. unfold sub. apply lookup_ge_None_2. rewrite length_take. lia. Qed.

Lemma lookup_upd p off bs (i : nat) :
  0 ≤ off → off + zlen bs ≤ zlen p →
  upd p off bs !! i =
    if decide (off ≤ Z.of_nat i < off + zlen bs) then bs !! (i - Z.to_nat off)%nat else p !! i.
Proof.
  unfold zlen, upd. intros. unfold zlen.
  assert (Ht : length (take (Z.to_nat off) p) = Z.to_nat off) by (rewrite length_take; lia).
  destruct (decide (Z.of_nat i < off)) as [Hi|Hi].
  - rewrite lookup_app_l by lia. rewrite lookup_take_lt by lia. by rewrite decide_False by lia.
  - rewrite lookup_app_r by lia. rewrite Ht.
    destruct (decide (Z.of_nat i < off + Z.of_nat (length bs))) as [Hj|Hj].
    + rewrite lookup_app_l by lia. by rewrite decide_True by lia.
    + rewrite lookup_app_r by lia. rewrite lookup_drop, decide_False by lia. f_equal. lia.
Qed.

Lemma sub_all p : sub p 0 (zlen p) = p.
Proof. unfold sub, zlen. simpl. rewrite drop_0. apply take_ge. lia. Qed.

Lemma sub_0 p off : sub p off 0 = [].
Proof. done. Qed.

Lemma sub_nil_le p off n : n ≤ 0 → sub p off n = [].
Proof. intros. unfold sub. by replace (Z.to_nat n) with 0%nat by lia. Qed.

Lemma sub_sub p a n b m :
  0 ≤ a → 0 ≤ b → 0 ≤ m → b + m ≤ n → sub (sub p a n) b m = sub p (a + b) m.
Proof.
  intros. unfold sub. rewrite skipn_firstn_comm, take_take, drop_drop.
  f_equal; [lia|]. f_equal. lia.
Qed.

Lemma sub_app_l p q off n : 0 ≤ off → 0 ≤ n → off + n ≤ zlen p → sub (p ++ q) off n = sub p off n.
Proof.
  unfold zlen, sub. intros. rewrite drop_app_le by lia. apply take_app_le.
  rewrite length_drop. lia.
Qed.

Lemma sub_app_r p q off n : zlen p ≤ off → sub (p ++ q) off n = sub q (off - zlen p) n.
Proof.
  unfold zlen, sub. intros. rewrite drop_app_ge by lia. do 2 f_equal. lia.
Qed.

Lemma sub_split p off n m :
  0 ≤ off → 0 ≤ n → 0 ≤ m → sub p off (n + m) = sub p off n ++ sub p (off + n) m.
Proof.
  intros. unfold sub. rewrite Z2Nat.inj_add, Z2Nat.inj_add by lia.
  rewrite <-drop_drop. symmetry. apply take_take_drop.
Qed.

(** The bytes just written are read back. *)
Lemma sub_upd_inside p off bs off' n :
  0 ≤ off → off + zlen bs ≤ zlen p → off ≤ off' → 0 ≤ n → off' + n ≤ off + zlen bs →
  sub (upd p off bs) off' n = sub bs (off' - off) n.
Proof.
  intros. apply list_eq. intros i.
  destruct (decide (i < Z.to_nat n)%nat).
  - rewrite !lookup_sub, lookup_upd by lia. rewrite decide_True by lia. f_equal. lia.
  - by rewrite !lookup_sub_ge by lia.
Qed.

Lemma sub_upd_eq p off bs n :
  0 ≤ off → off + zlen bs ≤ zlen p → n = zlen bs → sub (upd p off bs) off n = bs.
Proof.
  intros ? ? ->. rewrite sub_upd_inside by (pose proof (zlen_nonneg bs); lia).
  by rewrite Z.sub_diag, sub_all.
Qed.

(** Writes elsewhere are not seen. *)
Lemma sub_upd_ne p off bs off' n :
  0 ≤ off → off + zlen bs ≤ zlen p → 0 ≤ off' →
  off' + n ≤ off ∨ off + zlen bs ≤ off' ∨ zlen bs = 0 →
  sub (upd p off bs) off' n = sub p off' n.
Proof.
  intros. apply list_eq. intros i.
  destruct (decide (i < Z.to_nat n)%nat).
  - rewrite !lookup_sub, lookup_upd by lia. by rewrite decide_False by lia.
  - by rewrite !lookup_sub_ge by lia.
Qed.

Lemma upd_upd_app p off a b :
  0 ≤ off → off + zlen a + zlen b ≤ zlen p → upd (upd p off a) (off + zlen a) b = upd p off (a ++ b).
Proof.
  intros. pose proof (zlen_nonneg a). pose proof (zlen_nonneg b).
  apply list_eq. intros i. rewrite !lookup_upd; rewrite ?zlen_app, ?zlen_upd; try lia.
  unfold zlen in *. repeat case_decide; try done; try lia.
  - rewrite lookup_app_r by lia. f_equal. lia.
  - by rewrite lookup_app_l by lia.
Qed.

Lemma upd_nil p off : 0 ≤ off ≤ zlen p → upd p off [] = p.
Proof.
  intros. unfold upd. rewrite zlen_nil, Z.add_0_r. apply take_drop.
Qed.

Lemma list_eq_zlen p q :
  zlen p = zlen q → (∀ i, 0 ≤ i < zlen p → p !! Z.to_nat i = q !! Z.to_nat i) → p = q.
Proof.
  unfold zlen. intros Hl Hi. apply list_eq. intros i.
  destruct (decide (i < length p)%nat).
  - specialize (Hi (Z.of_nat i) ltac:(lia)). by rewrite Nat2Z.id in Hi.
  - rewrite !lookup_ge_None_2 by lia. done.
Qed.

Lemma slice_Ret p a b : 0 ≤ a → a ≤ b → b ≤ zlen p → slice p a b = Ret (sub p a (b - a)).
Proof. intros. unfold slice. by rewrite !(proj2 (Z.leb_le _ _)) by lia. Qed.

Lemma slice_inv p a b r : slice p a b = Ret r → 0 ≤ a ≤ b ∧ b ≤ zlen p ∧ r = sub p a (b - a).
Proof.
  unfold slice. destruct (_ && _ && _) eqn:E; [|discriminate]. intros [= <-].
  rewrite !andb_true_iff, !Z.leb_le in E. intuition lia.
Qed.

Lemma get_range_Some p a b : 0 ≤ a → a ≤ b → b ≤ zlen p → get_range p a b = Some (sub p a (b - a)).
Proof. intros. unfold get_range. by rewrite !(proj2 (Z.leb_le _ _)) by lia. Qed.

Lemma get_range_inv p a b r :
  get_range p a b = Some r → 0 ≤ a ≤ b ∧ b ≤ zlen p ∧ r = sub p a (b - a).
Proof.
  unfold get_range. destruct (_ && _ && _) eqn:E; [|discriminate]. intros [= <-].
  rewrite !andb_true_iff, !Z.leb_le in E. intuition lia.
Qed.

Lemma copy_from_Ret p a b bs :
  0 ≤ a → a ≤ b → b ≤ zlen p → zlen bs = b - a → copy_from p a b bs = Ret (upd p a bs).
Proof.
  intros. unfold copy_from. rewrite !(proj2 (Z.leb_le _ _)) by lia.
  by rewrite (proj2 (Z.eqb_eq _ _)) by lia.
Qed.

Lemma copy_from_inv p a b bs r :
  copy_from p a b bs = Ret r →
  0 ≤ a ≤ b ∧ b ≤ zlen p ∧ zlen bs = b - a ∧ r = upd p a bs.
Proof.
  unfold copy_from. destruct (_ && _ && _ && _) eqn:E; [|discriminate]. intros [= <-].
  rewrite !andb_true_iff, !Z.leb_le, Z.eqb_eq in E. intuition lia.
Qed.

Lemma ptr_copy_Ret p src dst n :
  0 ≤ src → 0 ≤ dst → 0 ≤ n → src + n ≤ zlen p → dst + n ≤ zlen p →
  ptr_copy p src dst n = Ret (upd p dst (sub p src n)).
Proof. intros. unfold ptr_copy. by rewrite !(proj2 (Z.leb_le _ _)) by lia. Qed.

End sub_upd.

(** ** Fixed-width encodings *)

(** [to_le_bytes] of an [8 * n]-bit integer. *)
Fixpoint le_bytes (n : nat) (z : Z) : list byte :=
  match n with
  | O => []
  | S n => to_u8 z :: le_bytes n (z / 256)
  end.

(** [from_le_bytes]. *)
Fixpoint of_le_bytes (l : list byte) : Z :=
  match l with
  | [] => 0
  | b :: l => u8 b + 256 * of_le_bytes l
  end.

(** [to_be_bytes] and [from_be_bytes]. *)
Definition be_bytes (n : nat) (z : Z) : list byte := rev (le_bytes n z).
Definition of_be_bytes (l : list byte) : Z := of_le_bytes (rev l).

Lemma length_le_bytes n z : length (le_bytes n z) = n.
Proof. revert z. induction n; simpl; auto. Qed.

Lemma zlen_le_bytes n z : zlen (le_bytes n z) = Z.of_nat n.
Proof. unfold zlen. by rewrite length_le_bytes. Qed.

Lemma zlen_be_bytes n z : zlen (be_bytes n z) = Z.of_nat n.
Proof. unfold be_bytes, zlen. by rewrite length_rev, length_le_bytes. Qed.

Lemma pow256_S n : 2 ^ (8 * Z.of_nat (S n)) = 256 * 2 ^ (8 * Z.of_nat n).
Proof. rewrite <-(Z.pow_add_r 2 8) by lia. f_equal. lia. Qed.

Lemma of_le_bytes_le_bytes n z : of_le_bytes (le_bytes n z) = wrap (8 * Z.of_nat n) z.
Proof.
  revert z. induction n as [|n IH]; intros z.
  - simpl. unfold wrap. by rewrite Z.mod_1_r.
  - cbn [le_bytes of_le_bytes]. rewrite IH, u8_to_u8. unfold wrap.
    rewrite pow256_S, Z.rem_mul_r by lia. lia.
Qed.

Lemma of_le_bytes_range l : 0 ≤ of_le_bytes l < 2 ^ (8 * zlen l).
Proof.
  unfold zlen. induction l as [|b l IH]; [simpl; lia|].
  cbn [of_le_bytes length]. rewrite pow256_S. pose proof (u8_range b). lia.
Qed.

Lemma le_bytes_of_le_bytes l : le_bytes (length l) (of_le_bytes l) = l.
Proof.
  induction l as [|b l IH]; [done|]. cbn [length le_bytes of_le_bytes].
  pose proof (u8_range b). f_equal.
  - apply u8_inj. rewrite u8_to_u8, (Z.mul_comm 256), Z.mod_add by lia. by apply Z.mod_small.
  - rewrite (Z.mul_comm 256), Z.div_add by lia. rewrite Z.div_small by lia. by rewrite Z.add_0_l.
Qed.

Lemma of_be_bytes_be_bytes n z : of_be_bytes (be_bytes n z) = wrap (8 * Z.of_nat n) z.
Proof. unfold of_be_bytes, be_bytes. by rewrite rev_involutive, of_le_bytes_le_bytes. Qed.

Lemma be_bytes_of_be_bytes l : be_bytes (length l) (of_be_bytes l) = l.
Proof.
  unfold of_be_bytes, be_bytes. rewrite <-length_rev, le_bytes_of_le_bytes. apply rev_involutive.
Qed.

(** Reading and writing an [n]-byte little-endian field of a buffer. *)
Definition get_le (n : nat) (p : list byte) (off : Z) : Z :=
  of_le_bytes (sub p off (Z.of_nat n)).
Definition set_le (n : nat) (p : list byte) (off v : Z) : list byte :=
  upd p off (le_bytes n v).

Section fields.
Implicit Types p : list byte.

Lemma get_le_range n p off : 0 ≤ get_le n p off < 2 ^ (8 * Z.of_nat n).
Proof.
  unfold get_le. pose proof (of_le_bytes_range (sub p off (Z.of_nat n))) as Hr.
  pose proof (zlen_sub_le p off (Z.of_nat n) ltac:(lia)).
  split; [lia|]. eapply Z.lt_le_trans; [apply Hr|].
  apply Z.pow_le_mono_r; lia.
Qed.

Lemma zlen_set_le n p off v :
  0 ≤ off → off + Z.of_nat n ≤ zlen p → zlen (set_le n p off v) = zlen p.
Proof. intros. unfold set_le. apply zlen_upd; rewrite ?zlen_le_bytes; lia. Qed.

Lemma get_set_le_eq n p off v :
  0 ≤ off → off + Z.of_nat n ≤ zlen p →
  get_le n (set_le n p off v) off = wrap (8 * Z.of_nat n) v.
Proof.
  intros. unfold get_le, set_le. rewrite sub_upd_eq by (rewrite ?zlen_le_bytes; lia).
  apply of_le_bytes_le_bytes.
Qed.

Lemma get_upd_ne n p off bs off' :
  0 ≤ off → off + zlen bs ≤ zlen p → 0 ≤ off' →
  off' + Z.of_nat n ≤ off ∨ off + zlen bs ≤ off' ∨ zlen bs = 0 →
  get_le n (upd p off bs) off' = get_le n p off'.
Proof. intros. unfold get_le. by rewrite sub_upd_ne by lia. Qed.

Lemma get_set_le_ne n m p off v off' :
  0 ≤ off → off + Z.of_nat m ≤ zlen p → 0 ≤ off' →
  off' + Z.of_nat n ≤ off ∨ off + Z.of_nat m ≤ off' →
  get_le n (set_le m p off v) off' = get_le n p off'.
Proof. intros. apply get_upd_ne; rewrite ?zlen_le_bytes; lia. Qed.

Lemma sub_set_le_ne m p off v off' n :
  0 ≤ off → off + Z.of_nat m ≤ zlen p → 0 ≤ off' →
  off' + n ≤ off ∨ off + Z.of_nat m ≤ off' →
  sub (set_le m p off v) off' n = sub p off' n.
Proof. intros. apply sub_upd_ne; rewrite ?zlen_le_bytes; lia. Qed.

Lemma get_le_sub n p a m off :
  0 ≤ a → 0 ≤ off → off + Z.of_nat n ≤ m → get_le n (sub p a m) off = get_le n p (a + off).
Proof. intros. unfold get_le. by rewrite sub_sub by lia. Qed.

End fields.

#[global] Opaque sub upd.
