(* ===== verification/FrameKernel.v ===== *)
(** * Frame kernel: page identifiers, frame lifecycle, frame header

    Models [src/crates/frame-kernel/src/page_id.rs] and [frame.rs]: the page
    size selected by the [page-4k] feature, the page-identifier helpers, the
    four-state frame lifecycle with its transition table, the atomic cell
    that stores it, the pin counter and the header of a free frame. Atomic
    cells are explicit state: an operation takes the cell's contents and
    returns the new contents. *)

From S2P Require Import Prelude Bytes.
From stdpp Require Import relations.
#[local] Open Scope Z_scope.

(** ** Page identifiers *)

Definition PageId := Z.
Definition Lsn := Z.

Definition PAGE_SIZE `{Build} : Z := if page_4k then 4 * 1024 else 64 * 1024.

Lemma PAGE_SIZE_cases `{Build} : PAGE_SIZE = 4096 ∨ PAGE_SIZE = 65536.
Proof. unfold PAGE_SIZE. destruct page_4k; auto. Qed.

Lemma PAGE_SIZE_feature `{Build} : PAGE_SIZE = if page_4k then 4096 else 65536.
Proof. done. Qed.

#[global] Opaque PAGE_SIZE.

(** [page_lia]: [lia] knowing the two page sizes. *)
Ltac page_lia :=
  let H := fresh in pose proof (PAGE_SIZE_cases) as H; lia.

Module InnerParentLink.
Record t := {
  parent_pid : PageId;
  slot_index : Z;
  is_upper : bool;
  dt_id : Z;
}.
End InnerParentLink.

Definition decode_page_id (pid : PageId) : option (unit * Z) :=
  if pid =? 0 then None else Some (tt, pid).

Definition physical_page_number (pid : PageId) : Z := pid.

Definition decoded_page_number (pid : PageId) : outcome Z :=
  _ ← assert (0 <? pid); Ret pid.

Definition page_base_span (_pid : PageId) : Z := 1.

Definition page_size `{Build} (_pid : PageId) : Z := PAGE_SIZE.

Definition page_end_base_page (pid : PageId) : Z := pid.

(** ** Frame lifecycle *)

Inductive FrameState := Free | Loading | Resident | Evicting.
#[global] Instance FrameState_eq_dec : EqDecision FrameState.
Proof. solve_decision. Defined.

(** [state as u8] with the declared discriminants. *)
Definition state_as_u8 (s : FrameState) : Z :=
  match s with
  | Free => 0
  | Loading => 1
  | Resident => 2
  | Evicting => 3
  end.

Definition is_valid_frame_state_tag (v : Z) : bool :=
  (v =? 0) || (v =? 1) || (v =? 2) || (v =? 3).

Definition from_u8 (v : Z) : outcome FrameState :=
  _ ← assert (is_valid_frame_state_tag v);
  match v with
  | 0 => Ret Free
  | 1 => Ret Loading
  | 2 => Ret Resident
  | 3 => Ret Evicting
  | _ => Panic
  end.

Definition is_valid_transition (from to : FrameState) : bool :=
  match from, to with
  | Free, Loading
  | Free, Resident
  | Loading, Resident
  | Loading, Free
  | Resident, Evicting
  | Evicting, Free
  | Evicting, Resident => true
  | _, _ => false
  end.

(** The cell of [AtomicFrameState]: the [u8] it stores. *)
Module AtomicFrameState.

Definition new (state : FrameState) : Z := state_as_u8 state.

Definition load (cell : Z) : outcome FrameState := from_u8 cell.

Definition store (_cell : Z) (state : FrameState) : Z := state_as_u8 state.

Definition transition `{Build} (_cell : Z) (from to : FrameState) : outcome Z :=
  _ ← debug_assert (is_valid_transition from to);
  Ret (state_as_u8 to).

(** [AtomicU8::compare_exchange]: the old value, as [inl] when it matched and
    the cell was replaced, as [inr] when it did not. *)
Definition compare_exchange_raw (cell current new : Z) : Z * (Z + Z) :=
  if cell =? current then (new, inl cell) else (cell, inr cell).

Definition compare_exchange (cell : Z) (expected new : FrameState)
    : outcome (Z * (FrameState + FrameState)) :=
  match compare_exchange_raw cell (state_as_u8 expected) (state_as_u8 new) with
  | (cell', inl old) => s ← from_u8 old; Ret (cell', inl s)
  | (cell', inr cur) => s ← from_u8 cur; Ret (cell', inr s)
  end.

Definition compare_exchange_transition `{Build} (cell : Z) (from to : FrameState)
    : outcome (Z * (FrameState + FrameState)) :=
  _ ← debug_assert (is_valid_transition from to);
  match compare_exchange_raw cell (state_as_u8 from) (state_as_u8 to) with
  | (cell', inl old) => s ← from_u8 old; Ret (cell', inl s)
  | (cell', inr cur) => s ← from_u8 cur; Ret (cell', inr s)
  end.

End AtomicFrameState.

(** ** Pin counter *)

Module PaddedAtomicU32.

Definition new (value : Z) : Z := value.
Definition load (cell : Z) : Z := cell.
Definition store (_cell value : Z) : Z := value.
(** [fetch_add] and [fetch_sub] return the old value and wrap. *)
Definition fetch_add (cell value : Z) : Z * Z := (wrap 32 (cell + value), cell).
Definition fetch_sub (cell value : Z) : Z * Z := (wrap 32 (cell - value), cell).

End PaddedAtomicU32.

(** ** Frame header *)

Module FrameCoreHeader.

Record t := {
  pin_count : Z;
  pid : PageId;
  dirty : bool;
  dirty_generation : Z;
  referenced : bool;
  state : Z;
  page_lsn : Z;
  has_page_image_base : bool;
  wal_buffer_epoch : Z;
  wal_buffer_offset : Z;
}.

Definition new_free : t := {|
  pin_count := PaddedAtomicU32.new 0;
  pid := 0;
  dirty := false;
  dirty_generation := 0;
  referenced := false;
  state := AtomicFrameState.new Free;
  page_lsn := 0;
  has_page_image_base := false;
  wal_buffer_epoch := 0;
  wal_buffer_offset := 0;
|}.

End FrameCoreHeader.

(** ** Properties of the lifecycle *)

Lemma from_u8_as_u8 s : from_u8 (state_as_u8 s) = Ret s.
Proof. by destruct s. Qed.

Lemma from_u8_inv v s : from_u8 v = Ret s → v = state_as_u8 s.
Proof.
  unfold from_u8, is_valid_frame_state_tag, assert. intros H.
  destruct (Z.eqb_spec v 0) as [->|]; [by simplify_eq/=|].
  destruct (Z.eqb_spec v 1) as [->|]; [by simplify_eq/=|].
  destruct (Z.eqb_spec v 2) as [->|]; [by simplify_eq/=|].
  destruct (Z.eqb_spec v 3) as [->|]; [by simplify_eq/=|]. discriminate.
Qed.

(** The lifecycle graph as a relation on states. *)
Definition lifecycle (s s' : FrameState) : Prop := is_valid_transition s s' = true.

(** The states a cell goes through when threads run a sequence of
    [compare_exchange_transition] calls on it, in any order. *)
Fixpoint cas_trace `{Build} (calls : list (FrameState * FrameState)) (cell : Z)
    : outcome (list FrameState) :=
  s ← AtomicFrameState.load cell;
  match calls with
  | [] => Ret [s]
  | (from, to) :: calls =>
      r ← AtomicFrameState.compare_exchange_transition cell from to;
      rest ← cas_trace calls r.1;
      Ret (s :: rest)
  end.

(** Consecutive states of a trace are equal or joined by a lifecycle edge. *)
Fixpoint follows_lifecycle (tr : list FrameState) : Prop :=
  match tr with
  | s :: ((s' :: _) as rest) => (s = s' ∨ lifecycle s s') ∧ follows_lifecycle rest
  | _ => True
  end.

Lemma cas_valid_cell `{Build} s from to :
  lifecycle from to →
  AtomicFrameState.compare_exchange_transition (state_as_u8 s) from to =
    Ret (if decide (s = from) then (state_as_u8 to, inl s) else (state_as_u8 s, inr s)).
Proof.
  intros Hv. unfold AtomicFrameState.compare_exchange_transition, AtomicFrameState.compare_exchange_raw.
  rewrite debug_assert_true by done. rewrite bind_Ret.
  assert ((state_as_u8 s =? state_as_u8 from) = bool_decide (s = from)) as ->.
  { by destruct s, from. }
  case_bool_decide; case_decide; try done; rewrite from_u8_as_u8; done.
Qed.

Lemma cas_trace_starts `{Build} calls s tr :
  cas_trace calls (state_as_u8 s) = Ret tr → head tr = Some s.
Proof.
  destruct calls as [|[from to] calls]; cbn [cas_trace];
    unfold AtomicFrameState.load; rewrite from_u8_as_u8, bind_Ret.
  - by intros [= <-].
  - intros E. outcome_inv E. outcome_inv E. by simplify_eq/=.
Qed.

Lemma cas_trace_follows `{Build} calls s :
  Forall (λ c, lifecycle c.1 c.2) calls →
  ∃ tr, cas_trace calls (state_as_u8 s) = Ret tr ∧ follows_lifecycle tr ∧
        length tr = S (length calls).
Proof.
  intros Hc. revert s. induction Hc as [|[from to] calls Hf Hc IH]; intros s.
  - exists [s]. cbn. unfold AtomicFrameState.load. by rewrite from_u8_as_u8.
  - cbn [cas_trace]. unfold AtomicFrameState.load.
    rewrite from_u8_as_u8, bind_Ret, cas_valid_cell by done. rewrite bind_Ret.
    set (s' := if decide (s = from) then to else s).
    assert ((if decide (s = from) then (state_as_u8 to, inl s) else (state_as_u8 s, inr s)).1
            = state_as_u8 s') as -> by (unfold s'; by case_decide).
    destruct (IH s') as (tr & Htr & Hfol & Hlen). rewrite Htr, bind_Ret.
    exists (s :: tr). split; [done|]. split; [|simpl; lia].
    pose proof (cas_trace_starts _ _ _ Htr) as Hh. destruct tr as [|x tr]; [done|].
    simplify_eq/=. split; [|done]. unfold s'. case_decide; [subst; by right|by left].
Qed.

Lemma follows_lifecycle_evicting tr :
  follows_lifecycle tr → head tr = Some Resident → last tr = Some Free →
  Evicting ∈ tr.
Proof.
  induction tr as [|s tr IH]; [done|]. intros Hf Hh Hl. simplify_eq/=.
  destruct tr as [|s' tr]; [done|]. destruct Hf as [Hs Hf].
  destruct Hs as [<-|Hs].
  - apply list_elem_of_further. by apply IH.
  - destruct s'; try done. apply list_elem_of_further, list_elem_of_here.
Qed.

(** Whatever lifecycle transitions threads attempt on a frame's
    state cell by compare-and-swap, and in whatever order, no call panics,
    every change of the cell is an edge of the transition table, and a frame
    that was resident and ends free went through [Evicting]. *)
Theorem cas_transitions_follow_lifecycle `{Build} calls s :
  Forall (λ c, is_valid_transition c.1 c.2 = true) calls →
  ∃ tr, cas_trace calls (AtomicFrameState.new s) = Ret tr ∧
        length tr = S (length calls) ∧ head tr = Some s ∧ follows_lifecycle tr ∧
        (s = Resident → last tr = Some Free → Evicting ∈ tr).
Proof.
  intros Hc. destruct (cas_trace_follows calls s Hc) as (tr & Htr & Hf & Hlen).
  pose proof (cas_trace_starts _ _ _ Htr) as Hh.
  exists tr. repeat split; try done. intros ->. by apply follows_lifecycle_evicting.
Qed.

Lemma cas_transitions_follow_lifecycle_witness :
  ∃ tr, cas_trace (H := debug_4k)
          [(Loading, Resident); (Resident, Evicting); (Resident, Evicting); (Evicting, Free)]
          (AtomicFrameState.new Resident) = Ret tr ∧
        length tr = 5%nat ∧ head tr = Some Resident ∧ follows_lifecycle tr ∧
        (Resident = Resident → last tr = Some Free → Evicting ∈ tr).
Proof.
  apply (@cas_transitions_follow_lifecycle debug_4k
    [(Loading, Resident); (Resident, Evicting); (Resident, Evicting); (Evicting, Free)] Resident).
  repeat constructor.
Defined.
