(* ===== verification/SwipKernel.v ===== *)
(** * Swip kernel: the tagged page reference

    Models [src/crates/swip-kernel/src/state.rs], [word.rs] and [atomic.rs].
    A swip is a 64-bit word whose two top bits say whether the other bits are
    a frame pointer (hot, cool) or a page identifier (evicted). The word
    operations keep their [debug_assert!]s; an operation on [&mut self] takes
    the word and returns the new one. [Swip] is the abstract reference the
    word stands for, and the theorems show that the word operations implement
    its four transitions. *)

From S2P Require Import Prelude Bytes.
#[local] Open Scope Z_scope.

(** ** Tag bits ([state.rs]) *)

Definition EVICTED_BIT : Z := Z.shiftl 1 63.
Definition COOL_BIT : Z := Z.shiftl 1 62.
Definition STATE_MASK : Z := Z.shiftl 3 62.
Definition PTR_MASK : Z := unot 64 STATE_MASK.

Inductive SwipState := Hot | Cool | Evicted.
#[global] Instance SwipState_eq_dec : EqDecision SwipState.
Proof. solve_decision. Defined.

Definition evicted_mask_is_set (mask : Z) : bool := negb (mask =? 0).
Definition evicted_mask (raw : Z) : Z := Z.land raw EVICTED_BIT.
Definition raw_is_evicted (raw : Z) : bool := evicted_mask_is_set (evicted_mask raw).
Definition state_mask (raw : Z) : Z := Z.land raw STATE_MASK.
Definition is_cool_mask (mask : Z) : bool := mask =? COOL_BIT.
Definition raw_is_cool (raw : Z) : bool :=
  negb (raw_is_evicted raw) && is_cool_mask (state_mask raw).
Definition raw_is_hot (raw : Z) : bool :=
  negb (raw_is_evicted raw) && negb (raw_is_cool raw).
Definition classify_raw (raw : Z) : SwipState :=
  if raw_is_evicted raw then Evicted
  else if raw_is_cool raw then Cool
  else Hot.

(** ** Word operations ([word.rs]) *)

Definition make_hot_ptr_word (ptr : Z) : Z := ptr.
Definition make_evicted_page_word (page_id : Z) : Z := Z.lor page_id EVICTED_BIT.
Definition pointer_bits_of (raw : Z) : Z := Z.land raw PTR_MASK.
Definition page_id_of (raw : Z) : Z := Z.land raw (unot 64 EVICTED_BIT).
Definition cool_word (raw : Z) : Z := Z.lor raw COOL_BIT.
Definition warm_word (raw : Z) : Z := Z.land raw (unot 64 COOL_BIT).
Definition evict_word (_raw page_id : Z) : Z := Z.lor page_id EVICTED_BIT.
Definition resolve_ptr_word (_raw ptr : Z) : Z := ptr.

Module SwipWord.

Definition hot_ptr `{Build} (ptr : Z) : outcome Z :=
  _ ← debug_assert (Z.land ptr STATE_MASK =? 0);
  Ret (make_hot_ptr_word ptr).
Definition hot `{Build} (ptr : Z) : outcome Z := hot_ptr ptr.
Definition evicted_page `{Build} (page_id : Z) : outcome Z :=
  _ ← debug_assert (Z.land page_id STATE_MASK =? 0);
  Ret (make_evicted_page_word page_id).
Definition evicted `{Build} (page_id : Z) : outcome Z := evicted_page page_id.
Definition state (self : Z) : SwipState := classify_raw self.
Definition is_hot (self : Z) : bool := raw_is_hot self.
Definition is_cool (self : Z) : bool := raw_is_cool self.
Definition is_evicted (self : Z) : bool := raw_is_evicted self.
Definition pointer_bits `{Build} (self : Z) : outcome Z :=
  _ ← debug_assert (negb (is_evicted self));
  Ret (pointer_bits_of self).
Definition as_ptr `{Build} (self : Z) : outcome Z := pointer_bits self.
Definition page_id `{Build} (self : Z) : outcome Z :=
  _ ← debug_assert (is_evicted self);
  Ret (page_id_of self).
Definition as_page_id `{Build} (self : Z) : outcome Z := page_id self.
Definition cool `{Build} (self : Z) : outcome Z :=
  _ ← debug_assert (is_hot self);
  Ret (cool_word self).
Definition warm `{Build} (self : Z) : outcome Z :=
  _ ← debug_assert (is_cool self);
  Ret (warm_word self).
Definition evict `{Build} (self page_id : Z) : outcome Z :=
  _ ← debug_assert (is_cool self);
  _ ← debug_assert (Z.land page_id STATE_MASK =? 0);
  Ret (evict_word self page_id).
Definition resolve_ptr `{Build} (self ptr : Z) : outcome Z :=
  _ ← debug_assert (is_evicted self);
  _ ← debug_assert (Z.land ptr STATE_MASK =? 0);
  Ret (resolve_ptr_word self ptr).
Definition resolve `{Build} (self ptr : Z) : outcome Z := resolve_ptr self ptr.
Definition raw (self : Z) : Z := self.
Definition from_raw (raw : Z) : Z := raw.

End SwipWord.

(** ** The atomic cell ([atomic.rs]) *)

Module AtomicSwipWord.

Definition new (swip : Z) : Z := SwipWord.raw swip.
Definition load (cell : Z) : Z := SwipWord.from_raw cell.
Definition store (_cell swip : Z) : Z := SwipWord.raw swip.
Definition compare_exchange (cell current new : Z) : Z * (Z + Z) :=
  if cell =? SwipWord.raw current
  then (SwipWord.raw new, inl (SwipWord.from_raw cell))
  else (cell, inr (SwipWord.from_raw cell)).

End AtomicSwipWord.

(** ** The abstract reference *)

Inductive Swip :=
| HotPtr (ptr : Z)
| CoolPtr (ptr : Z)
| EvictedPage (pid : Z).

(** Payloads leave the tag bits free: user-space pointers and page numbers
    are below [2 ^ 62]. *)
Definition payload_ok (z : Z) : Prop := 0 ≤ z < 2 ^ 62.
Definition swip_ok (s : Swip) : Prop :=
  match s with
  | HotPtr p | CoolPtr p | EvictedPage p => payload_ok p
  end.

(** The word that represents a reference. *)
Definition encode (s : Swip) : Z :=
  match s with
  | HotPtr p => p
  | CoolPtr p => p + 2 ^ 62
  | EvictedPage p => p + 2 ^ 63
  end.

Definition abs_state (s : Swip) : SwipState :=
  match s with
  | HotPtr _ => Hot
  | CoolPtr _ => Cool
  | EvictedPage _ => Evicted
  end.

(** The steps of the reference: cool and warm keep the pointer, evict forgets
    it for a page, resolve installs the pointer of a reloaded page. *)
Inductive swip_step : Swip → Swip → Prop :=
| step_cool p : swip_step (HotPtr p) (CoolPtr p)
| step_warm p : swip_step (CoolPtr p) (HotPtr p)
| step_evict p pid : payload_ok pid → swip_step (CoolPtr p) (EvictedPage pid)
| step_resolve pid p : payload_ok p → swip_step (EvictedPage pid) (HotPtr p).

(** ** Bit-level lemmas *)

Lemma testbit_STATE_MASK i : 0 ≤ i → Z.testbit STATE_MASK i = (i =? 62) || (i =? 63).
Proof.
  intros. unfold STATE_MASK. change 3 with (Z.lor (Z.shiftl 1 0) (Z.shiftl 1 1)).
  rewrite Z.shiftl_lor, !Z.shiftl_shiftl, Z.lor_spec, !testbit_bit by lia. f_equal; f_equal; lia.
Qed.
#[local] Hint Rewrite testbit_STATE_MASK using lia : bits.
Create HintDb swip.
#[local] Hint Unfold EVICTED_BIT COOL_BIT PTR_MASK : swip.

Lemma payload_bits p i : payload_ok p → 62 ≤ i → Z.testbit p i = false.
Proof. intros. by apply (testbit_above 62). Qed.

(** [swip_bits i]: split on the position of bit [i] against the tag bits. *)
Ltac swip_bits i :=
  destruct (decide (i = 62)) as [->|]; [|destruct (decide (i = 63)) as [->|];
    [|rewrite ?(proj2 (Z.eqb_neq i 62)), ?(proj2 (Z.eqb_neq i 63)) by lia;
      destruct (decide (i < 62)); [rewrite ?(proj2 (Z.ltb_lt i 64)) by lia|]]];
  rewrite ?payload_bits by (done || lia); rewrite ?andb_false_r, ?andb_true_r,
    ?orb_false_r, ?xorb_true_r, ?xorb_false_r; try reflexivity.

Lemma payload_land_state_mask p : payload_ok p → Z.land p STATE_MASK = 0.
Proof. intros. bit_eq i. swip_bits i. Qed.

Lemma payload_land_bit p n : payload_ok p → n = 62 ∨ n = 63 → Z.land p (Z.shiftl 1 n) = 0.
Proof. intros ? [-> | ->]; bit_eq i; swip_bits i. Qed.

Lemma payload_lor_cool p : payload_ok p → Z.lor p COOL_BIT = p + 2 ^ 62.
Proof. intros. rewrite lor_disjoint_add; [done|]. apply payload_land_bit; auto. Qed.

Lemma payload_lor_evicted p : payload_ok p → Z.lor p EVICTED_BIT = p + 2 ^ 63.
Proof. intros. rewrite lor_disjoint_add; [done|]. apply payload_land_bit; auto. Qed.

(** Each accessor on each encoding. *)
Lemma encode_lor s : swip_ok s →
  encode s = match s with
             | HotPtr p => p
             | CoolPtr p => Z.lor p COOL_BIT
             | EvictedPage p => Z.lor p EVICTED_BIT
             end.
Proof. destruct s; simpl; intros; by rewrite ?payload_lor_cool, ?payload_lor_evicted. Qed.

Lemma land_encode_evicted s :
  swip_ok s → Z.land (encode s) EVICTED_BIT = if abs_state s is Evicted then EVICTED_BIT else 0.
Proof.
  intros Hs. rewrite encode_lor by done.
  destruct s; simpl in *; autounfold with swip; bit_eq i; swip_bits i.
Qed.

Lemma land_encode_state s :
  swip_ok s →
  Z.land (encode s) STATE_MASK =
    match abs_state s with Hot => 0 | Cool => COOL_BIT | Evicted => EVICTED_BIT end.
Proof.
  intros Hs. rewrite encode_lor by done.
  destruct s; simpl in *; autounfold with swip; bit_eq i; swip_bits i.
Qed.

Lemma classify_encode s : swip_ok s → classify_raw (encode s) = abs_state s.
Proof.
  intros Hs. unfold classify_raw, raw_is_cool, raw_is_evicted, evicted_mask, state_mask,
    evicted_mask_is_set, is_cool_mask.
  rewrite land_encode_evicted, land_encode_state by done. by destruct s.
Qed.

Lemma is_encode s : swip_ok s →
  SwipWord.is_hot (encode s) = bool_decide (abs_state s = Hot) ∧
  SwipWord.is_cool (encode s) = bool_decide (abs_state s = Cool) ∧
  SwipWord.is_evicted (encode s) = bool_decide (abs_state s = Evicted).
Proof.
  intros Hs. unfold SwipWord.is_hot, SwipWord.is_cool, SwipWord.is_evicted, raw_is_hot,
    raw_is_cool, raw_is_evicted, evicted_mask, state_mask, evicted_mask_is_set, is_cool_mask.
  rewrite land_encode_evicted, land_encode_state by done. by destruct s.
Qed.

Lemma pointer_bits_of_encode p : payload_ok p →
  pointer_bits_of (encode (HotPtr p)) = p ∧ pointer_bits_of (encode (CoolPtr p)) = p.
Proof.
  intros Hp. rewrite !encode_lor by done. unfold pointer_bits_of. autounfold with swip.
  split; bit_eq i; swip_bits i.
Qed.

Lemma page_id_of_encode p : payload_ok p → page_id_of (encode (EvictedPage p)) = p.
Proof.
  intros Hp. rewrite encode_lor by done. unfold page_id_of. autounfold with swip.
  bit_eq i; swip_bits i.
Qed.

Lemma warm_word_encode p : payload_ok p → warm_word (encode (CoolPtr p)) = p.
Proof.
  intros Hp. rewrite encode_lor by done. unfold warm_word. autounfold with swip.
  bit_eq i; swip_bits i.
Qed.

(** The transition of the word operations that a reference step names. *)
Definition word_step `{Build} (s s' : Swip) (w : Z) : outcome Z :=
  match s, s' with
  | HotPtr _, CoolPtr _ => SwipWord.cool w
  | CoolPtr _, HotPtr _ => SwipWord.warm w
  | CoolPtr _, EvictedPage pid => SwipWord.evict w pid
  | EvictedPage _, HotPtr p => SwipWord.resolve_ptr w p
  | _, _ => Panic
  end.

Lemma cool_encode `{Build} p :
  payload_ok p → SwipWord.cool (encode (HotPtr p)) = Ret (encode (CoolPtr p)).
Proof.
  intros Hp. destruct (is_encode (HotPtr p) Hp) as (Hh & _ & _). unfold SwipWord.cool.
  rewrite Hh, debug_assert_true, bind_Ret by done.
  unfold cool_word. simpl. by rewrite payload_lor_cool.
Qed.

(** C35: the word operations implement the abstract reference in
    every build: from the word of a well-formed reference, the operation of a
    step succeeds (no debug assertion fires), and yields exactly the word of
    the next reference. *)
Theorem swip_word_refines `{Build} s s' :
  swip_ok s → swip_step s s' →
  word_step s s' (encode s) = Ret (encode s') ∧ swip_ok s'.
Proof.
  intros Hs Hstep. pose proof (is_encode s Hs) as (Hh & Hc & He).
  destruct Hstep as [p|p|p pid Hpid|pid p Hp]; simpl in Hs; split; try done;
    cbn [word_step]; [by apply cool_encode|..];
    unfold SwipWord.warm, SwipWord.evict, SwipWord.resolve_ptr;
    rewrite ?Hc, ?He, ?debug_assert_true, ?bind_Ret
      by (rewrite ?payload_land_state_mask; done).
  - by rewrite warm_word_encode.
  - unfold evict_word. simpl. by rewrite payload_lor_evicted.
  - done.
Qed.

Lemma swip_word_refines_witness :
  word_step (H := debug_4k) (CoolPtr 4096) (EvictedPage 7) (encode (CoolPtr 4096))
    = Ret (encode (EvictedPage 7)) ∧ swip_ok (EvictedPage 7).
Proof.
  apply (@swip_word_refines debug_4k).
  - unfold swip_ok, payload_ok. lia.
  - constructor. unfold payload_ok. lia.
Defined.

(** Decoding a word through the public accessors. *)
Definition decode `{Build} (w : Z) : outcome Swip :=
  match SwipWord.state w with
  | Hot => p ← SwipWord.pointer_bits w; Ret (HotPtr p)
  | Cool => p ← SwipWord.pointer_bits w; Ret (CoolPtr p)
  | Evicted => pid ← SwipWord.page_id w; Ret (EvictedPage pid)
  end.

(** Reading a word back with [state], [pointer_bits] and
    [page_id] recovers the reference it was built from, and the public
    constructors build those words. *)
Theorem swip_word_roundtrip `{Build} s :
  swip_ok s →
  decode (encode s) = Ret s ∧
  match s with
  | HotPtr p => SwipWord.hot p = Ret (encode s)
  | EvictedPage pid => SwipWord.evicted pid = Ret (encode s)
  | CoolPtr p => (w ← SwipWord.hot p; SwipWord.cool w) = Ret (encode s)
  end.
Proof.
  intros Hs. pose proof (is_encode s Hs) as (_ & _ & He). split.
  - unfold decode, SwipWord.state. rewrite classify_encode by done.
    unfold SwipWord.pointer_bits, SwipWord.page_id. rewrite He.
    destruct s as [p|p|p]; cbn [abs_state]; rewrite debug_assert_true by done;
      cbn [mbind outcome_bind]; rewrite ?page_id_of_encode by done;
      by rewrite ?(proj1 (pointer_bits_of_encode p Hs)), ?(proj2 (pointer_bits_of_encode p Hs)).
  - destruct s as [p|p|p]; simpl in Hs;
      unfold SwipWord.hot, SwipWord.hot_ptr, SwipWord.evicted, SwipWord.evicted_page;
      rewrite debug_assert_true by (by rewrite payload_land_state_mask); cbn [mbind outcome_bind].
    + done.
    + by apply cool_encode.
    + unfold make_evicted_page_word. simpl. by rewrite payload_lor_evicted.
Qed.

Lemma swip_word_roundtrip_witness :
  decode (H := debug_4k) (encode (CoolPtr 140737488351232)) = Ret (CoolPtr 140737488351232) ∧
  (w ← SwipWord.hot (H := debug_4k) 140737488351232; SwipWord.cool (H := debug_4k) w)
    = Ret (encode (CoolPtr 140737488351232)).
Proof.
  apply (@swip_word_roundtrip debug_4k (CoolPtr 140737488351232)).
  unfold swip_ok, payload_ok. lia.
Defined.
