(* ===== verification/PageHeader.v ===== *)
(** * Page header: the prefix common to all buffer-managed pages

    Models [src/crates/storage/src/page_header.rs]: the page LSN in bytes
    0..8 and the page type in bits 8..12 of the flags word at bytes 18..20.
    The accessors take any byte slice and do nothing on one that is too
    short. *)

From S2P Require Import Prelude Bytes.
#[local] Open Scope Z_scope.

Inductive PageType :=
| Unknown | Index | Tuple | Delta | Meta | RootMeta | BeTreeInternal | BeTreeLeaf.
#[global] Instance PageType_eq_dec : EqDecision PageType.
Proof. solve_decision. Defined.

(** [pt as u16] with the declared discriminants. *)
Definition page_type_tag (pt : PageType) : Z :=
  match pt with
  | Unknown => 0
  | Index => 1
  | Tuple => 2
  | Delta => 3
  | Meta => 4
  | RootMeta => 5
  | BeTreeInternal => 6
  | BeTreeLeaf => 7
  end.

Module PageType.
Definition from_u8 (v : Z) : PageType :=
  match v with
  | 1 => Index
  | 2 => Tuple
  | 3 => Delta
  | 4 => Meta
  | 5 => RootMeta
  | 6 => BeTreeInternal
  | 7 => BeTreeLeaf
  | _ => Unknown
  end.
End PageType.

Definition FLAGS_OFF : Z := 18.
Definition PAGE_LSN_OFF : Z := 0.
Definition PAGE_LSN_LEN : Z := 8.
Definition PAGE_TYPE_SHIFT : Z := 8.
Definition PAGE_TYPE_MASK : Z := 3840. (* 0x0F00 *)
Definition INDEX_LEAF_FLAG : Z := 2.   (* 0x0002 *)

Definition read_page_lsn (page : list byte) : Z :=
  match get_range page PAGE_LSN_OFF (PAGE_LSN_OFF + PAGE_LSN_LEN) with
  | Some bytes => of_le_bytes bytes
  | None => 0
  end.

Definition write_page_lsn (page : list byte) (lsn : Z) : list byte :=
  match get_range page PAGE_LSN_OFF (PAGE_LSN_OFF + PAGE_LSN_LEN) with
  | Some _ => upd page PAGE_LSN_OFF (le_bytes 8 lsn)
  | None => page
  end.

(** [((flags & PAGE_TYPE_MASK) >> PAGE_TYPE_SHIFT) as u8]. *)
Definition type_bits (flags : Z) : Z :=
  wrap 8 (Z.shiftr (Z.land flags PAGE_TYPE_MASK) PAGE_TYPE_SHIFT).

Definition read_page_type (page : list byte) : PageType :=
  match get_range page FLAGS_OFF (FLAGS_OFF + 2) with
  | Some bytes => PageType.from_u8 (type_bits (of_le_bytes bytes))
  | None => Unknown
  end.

Definition write_page_type (page : list byte) (pt : PageType) : list byte :=
  match get_range page FLAGS_OFF (FLAGS_OFF + 2) with
  | Some bytes =>
      let flags := of_le_bytes bytes in
      let flags :=
        Z.lor (Z.land flags (unot 16 PAGE_TYPE_MASK))
              (wrap 16 (Z.shiftl (page_type_tag pt) PAGE_TYPE_SHIFT)) in
      upd page FLAGS_OFF (le_bytes 2 flags)
  | None => page
  end.

Definition is_inner_index_page (page : list byte) : bool :=
  match get_range page FLAGS_OFF (FLAGS_OFF + 2) with
  | Some bytes =>
      let flags := of_le_bytes bytes in
      (type_bits flags =? page_type_tag Index) && (Z.land flags INDEX_LEAF_FLAG =? 0)
  | None => false
  end.

Definition should_remain_resident (page : list byte) : bool :=
  match read_page_type page with
  | Meta | RootMeta => true
  | _ => false
  end.

Definition classify_loaded_page (page : list byte) : PageType := read_page_type page.

(** ** Lemmas *)

(** The flags word of a page that has one. *)
Definition flags_of (page : list byte) : Z := get_le 2 page FLAGS_OFF.

Lemma flags_of_range page : 0 ≤ flags_of page < 2 ^ 16.
Proof. apply (get_le_range 2). Qed.

Lemma read_page_lsn_get page : 8 ≤ zlen page → read_page_lsn page = get_le 8 page 0.
Proof.
  intros. unfold read_page_lsn, PAGE_LSN_OFF, PAGE_LSN_LEN. by rewrite get_range_Some by lia.
Qed.

Lemma write_page_lsn_set page lsn : 8 ≤ zlen page → write_page_lsn page lsn = set_le 8 page 0 lsn.
Proof.
  intros. unfold write_page_lsn, PAGE_LSN_OFF, PAGE_LSN_LEN. by rewrite get_range_Some by lia.
Qed.

Lemma read_page_type_get page :
  20 ≤ zlen page → read_page_type page = PageType.from_u8 (type_bits (flags_of page)).
Proof. intros. unfold read_page_type, FLAGS_OFF. by rewrite get_range_Some by lia. Qed.

(** The flags word [write_page_type] stores. *)
Definition retyped (flags : Z) (pt : PageType) : Z :=
  Z.lor (Z.land flags (unot 16 PAGE_TYPE_MASK)) (wrap 16 (Z.shiftl (page_type_tag pt) PAGE_TYPE_SHIFT)).

Lemma write_page_type_set page pt :
  20 ≤ zlen page → write_page_type page pt = set_le 2 page FLAGS_OFF (retyped (flags_of page) pt).
Proof. intros. unfold write_page_type, FLAGS_OFF. by rewrite get_range_Some by lia. Qed.

Lemma wrap_shift_tag pt :
  wrap 16 (Z.shiftl (page_type_tag pt) PAGE_TYPE_SHIFT) = 256 * page_type_tag pt.
Proof. by destruct pt. Qed.

Lemma unot_type_mask : unot 16 PAGE_TYPE_MASK = 61695. (* 0xF0FF *)
Proof. reflexivity. Qed.

Lemma retyped_range flags pt : 0 ≤ flags → 0 ≤ retyped flags pt < 2 ^ 16.
Proof.
  intros Hf. unfold retyped. rewrite wrap_shift_tag, unot_type_mask.
  assert (0 ≤ Z.land flags 61695) by (apply Z.land_nonneg; lia).
  assert (0 ≤ 256 * page_type_tag pt < 2 ^ 16) by (destruct pt; simpl; lia).
  split; [apply Z.lor_nonneg; lia|]. apply bits_range; [lia|apply Z.lor_nonneg; lia|].
  intros i Hi. rewrite Z.lor_spec, Z.land_spec.
  rewrite (testbit_above 16 61695), (testbit_above 16 (256 * _)) by lia. by rewrite andb_false_r.
Qed.

Lemma type_bits_retyped flags pt : type_bits (retyped flags pt) = page_type_tag pt.
Proof.
  unfold type_bits, retyped. rewrite wrap_shift_tag, unot_type_mask, Z.land_lor_distr_l.
  rewrite <-Z.land_assoc. change (Z.land 61695 PAGE_TYPE_MASK) with 0.
  rewrite Z.land_0_r, Z.lor_0_l. by destruct pt.
Qed.

(** Bits of the flags word outside the page-type nibble. *)
Lemma retyped_other_bits flags pt i :
  0 ≤ i < 16 → ¬ 8 ≤ i < 12 → Z.testbit (retyped flags pt) i = Z.testbit flags i.
Proof.
  intros Hi Hn. unfold retyped. rewrite wrap_shift_tag, unot_type_mask, Z.lor_spec, Z.land_spec.
  assert (Z.testbit 61695 i = true) as ->.
  { assert (i = 0 ∨ i = 1 ∨ i = 2 ∨ i = 3 ∨ i = 4 ∨ i = 5 ∨ i = 6 ∨ i = 7 ∨
            i = 12 ∨ i = 13 ∨ i = 14 ∨ i = 15) by lia. by destruct_or!; subst. }
  assert (Z.testbit (256 * page_type_tag pt) i = false) as ->.
  { change 256 with (2 ^ 8). rewrite Z.mul_comm, <-Z.shiftl_mul_pow2 by lia.
    rewrite Z.shiftl_spec by lia. destruct (decide (i < 8)).
    - by rewrite Z.testbit_neg_r by lia.
    - apply (testbit_above 4); [by destruct pt|lia]. }
  by rewrite andb_true_r, orb_false_r.
Qed.

(** The page LSN and the page type are independent fields: each is read
    back as written, and writing one leaves the other, the remaining flag
    bits (the leaf and garbage flags among them), the page's length and every
    byte outside the field untouched. *)
Theorem page_header_fields_independent page lsn pt :
  20 ≤ zlen page → 0 ≤ lsn < 2 ^ 64 →
  read_page_lsn (write_page_lsn page lsn) = lsn ∧
  read_page_type (write_page_type page pt) = pt ∧
  read_page_type (write_page_lsn page lsn) = read_page_type page ∧
  read_page_lsn (write_page_type page pt) = read_page_lsn page ∧
  (∀ i, 0 ≤ i < 16 → ¬ 8 ≤ i < 12 →
    Z.testbit (flags_of (write_page_type page pt)) i = Z.testbit (flags_of page) i) ∧
  (∀ i : nat, ¬ (i < 8)%nat → write_page_lsn page lsn !! i = page !! i) ∧
  (∀ i : nat, ¬ (18 ≤ i < 20)%nat → write_page_type page pt !! i = page !! i) ∧
  zlen (write_page_lsn page lsn) = zlen page ∧ zlen (write_page_type page pt) = zlen page.
Proof.
  intros Hlen Hlsn. pose proof (flags_of_range page).
  pose proof (retyped_range (flags_of page) pt ltac:(lia)).
  rewrite write_page_lsn_set, write_page_type_set by lia.
  assert (Hl1 : zlen (set_le 8 page 0 lsn) = zlen page) by (apply zlen_set_le; lia).
  assert (Hl2 : zlen (set_le 2 page FLAGS_OFF (retyped (flags_of page) pt)) = zlen page)
    by (apply zlen_set_le; unfold FLAGS_OFF; lia).
  rewrite !read_page_lsn_get, !read_page_type_get by lia. unfold flags_of at 1 3 4 6.
  rewrite !get_set_le_eq, !(get_set_le_ne 2 8), !(get_set_le_ne 8 2) by (unfold FLAGS_OFF; lia).
  rewrite !wrap_small by lia. rewrite type_bits_retyped. unfold set_le, FLAGS_OFF.
  split_and!; try done.
  - by destruct pt.
  - intros. by apply retyped_other_bits.
  - intros. rewrite lookup_upd by (rewrite ?zlen_le_bytes; lia).
    rewrite decide_False; [done|]. rewrite zlen_le_bytes. lia.
  - intros. rewrite lookup_upd by (rewrite ?zlen_le_bytes; lia).
    rewrite decide_False; [done|]. rewrite zlen_le_bytes. lia.
Qed.

Lemma page_header_fields_independent_witness :
  let page := fill 64 x00 in
  read_page_lsn (write_page_lsn page 77) = 77 ∧
  read_page_type (write_page_type page RootMeta) = RootMeta.
Proof.
  destruct (page_header_fields_independent (fill 64 x00) 77 RootMeta) as (H1 & H2 & _).
  - by rewrite zlen_fill by lia.
  - lia.
  - by split.
Defined.
