(* ===== verification/PageMutation.v ===== *)
(** * Page mutation: the normalised set of changed byte ranges

    Models [PageMutation] of [src/crates/storage/src/buffer_pool.rs]: the
    allocation-free description of the bytes one page mutation changed. The
    initialised prefix [ranges[..len]] of the fixed array is a list; the
    loops of [add_range] are recursions over it. A mutation with more than
    [PAGE_MUTATION_MAX_RANGES] disjoint ranges becomes a full-image request. *)

From S2P Require Import Prelude Bytes FrameKernel.
From stdpp Require Import sorting.
#[local] Open Scope Z_scope.

Definition PAGE_MUTATION_MAX_RANGES : nat := 8.
(** [PAGE_LSN_RANGE.end]. *)
Definition PAGE_LSN_RANGE_end : Z := 8.

Record PageMutationRange := Range { rstart : Z; rend : Z }.
#[global] Instance PageMutationRange_eq_dec : EqDecision PageMutationRange.
Proof. solve_decision. Defined.

Module PageMutation.

Record t := { ranges : list PageMutationRange; full_image : bool }.

Definition new : t := {| ranges := []; full_image := false |}.

(** [while first < len && range(first).end < start { first += 1 }] *)
Fixpoint find_first (rs : list PageMutationRange) (start : Z) : nat :=
  match rs with
  | r :: rs => if rend r <? start then S (find_first rs start) else 0
  | [] => 0
  end.

(** [while after < len && range(after).start <= end { .. after += 1 }] from
    index [after] on, with the running [start] and [end]. *)
Fixpoint absorb (rs : list PageMutationRange) (start end_ : Z) (after : nat) : Z * Z * nat :=
  match rs with
  | r :: rs =>
      if rstart r <=? end_
      then absorb rs (Z.min start (rstart r)) (Z.max end_ (rend r)) (S after)
      else (start, end_, after)
  | [] => (start, end_, after)
  end.

Definition overflow : t := {| ranges := []; full_image := true |}.

Definition add_range `{Build} (self : t) (a b : Z) : outcome t :=
  _ ← assert (a <? b);
  _ ← assert (b <=? PAGE_SIZE);
  _ ← assert (PAGE_LSN_RANGE_end <=? a);
  if full_image self then Ret self else
  let rs := ranges self in
  let len := length rs in
  match last rs with
  | None => Ret {| ranges := [Range a b]; full_image := false |}
  | Some l =>
      if rstart l <=? a then
        if a <=? rend l then
          Ret {| ranges := <[(len - 1)%nat := Range (rstart l) (Z.max b (rend l))]> rs;
                 full_image := false |}
        else if (len =? PAGE_MUTATION_MAX_RANGES)%nat then Ret overflow
        else Ret {| ranges := rs ++ [Range a b]; full_image := false |}
      else
        let first := find_first rs a in
        let '(start, end_, after) := absorb (drop first rs) a b first in
        if (first <? after)%nat then
          let rs := <[first := Range start end_]> rs in
          let removed := (after - first - 1)%nat in
          Ret {| ranges := if (0 <? removed)%nat
                           then take (first + 1) rs ++ drop after rs else rs;
                 full_image := false |}
        else if (len =? PAGE_MUTATION_MAX_RANGES)%nat then Ret overflow
        else Ret {| ranges := take first rs ++ Range start end_ :: drop first rs;
                    full_image := false |}
  end.

Definition is_empty (self : t) : bool := (length (ranges self) =? 0)%nat && negb (full_image self).
Definition uses_full_image (self : t) : bool := full_image self.

(** ** Invariant and meaning *)

(** [r] ends strictly before [s] starts: not even adjacent. *)
Definition before (r s : PageMutationRange) : Prop := rend r < rstart s.
#[global] Instance before_dec r s : Decision (before r s).
Proof. unfold before. apply _. Defined.

Definition range_ok `{Build} (r : PageMutationRange) : Prop :=
  PAGE_LSN_RANGE_end ≤ rstart r ∧ rstart r < rend r ∧ rend r ≤ PAGE_SIZE.

Record ok `{Build} (m : t) : Prop := {
  ok_ranges : Forall range_ok (ranges m);
  ok_sorted : StronglySorted before (ranges m);
  ok_len : (length (ranges m) ≤ PAGE_MUTATION_MAX_RANGES)%nat;
  ok_full : full_image m = true → ranges m = [];
}.

(** Byte [i] is recorded as changed. *)
Definition in_range (r : PageMutationRange) (i : Z) : Prop := rstart r ≤ i < rend r.
Definition covers (m : t) (i : Z) : Prop :=
  full_image m = true ∨ Exists (λ r, in_range r i) (ranges m).

(** ** Sorted, separated ranges *)

Section ranges.
Context `{Build}.
Implicit Types rs : list PageMutationRange.

Lemma sorted_app_inv rs1 rs2 :
  StronglySorted before (rs1 ++ rs2) →
  StronglySorted before rs1 ∧ StronglySorted before rs2 ∧
  Forall (λ r, Forall (before r) rs2) rs1.
Proof.
  induction rs1 as [|r rs1 IH]; simpl; intros Hs.
  - split_and!; [constructor|done|constructor].
  - apply StronglySorted_inv in Hs as [Hs Hr]. apply Forall_app in Hr as [Hr1 Hr2].
    destruct (IH Hs) as (? & ? & ?). split_and!; [by constructor|done|by constructor].
Qed.

Lemma sorted_app rs1 rs2 :
  StronglySorted before rs1 → StronglySorted before rs2 →
  Forall (λ r, Forall (before r) rs2) rs1 → StronglySorted before (rs1 ++ rs2).
Proof.
  induction rs1 as [|r rs1 IH]; simpl; [done|]. intros Hs1 Hs2 Hf.
  apply StronglySorted_inv in Hs1 as [Hs1 Hr]. apply Forall_cons in Hf as [Hf1 Hf2].
  constructor; [by apply IH|]. by apply Forall_app.
Qed.

Lemma find_first_spec rs a :
  Forall range_ok rs → StronglySorted before rs →
  Forall (λ r, rend r < a) (take (find_first rs a) rs) ∧
  Forall (λ r, a ≤ rend r) (drop (find_first rs a) rs).
Proof.
  intros Hok Hs. induction Hs as [|r rs Hs IH Hr]; [done|]. apply Forall_cons in Hok as [Hrok Hok].
  simpl. destruct (Z.ltb_spec (rend r) a).
  - destruct (IH Hok). split; [by constructor|done].
  - split; [constructor|]. constructor; [done|]. simpl in *.
    rewrite Forall_forall in Hr, Hok |- *. intros x Hx. specialize (Hr x Hx).
    destruct (Hok x Hx) as (? & ? & ?). unfold before in Hr. lia.
Qed.

(** [absorb] merges a prefix of the ranges and stops at one that starts after
    the merged end. *)
Lemma absorb_spec rs a b n :
  Forall range_ok rs → StronglySorted before rs → Forall (λ r, a ≤ rend r) rs → a < b →
  ∃ s e k, absorb rs a b n = (s, e, (n + k)%nat) ∧ (k ≤ length rs)%nat ∧
    s ≤ a ∧ b ≤ e ∧
    Forall (λ r, e < rstart r) (drop k rs) ∧
    (∀ i, s ≤ i < e ↔ a ≤ i < b ∨ Exists (λ r, in_range r i) (take k rs)) ∧
    (∀ lo, lo ≤ a → Forall (λ r, lo ≤ rstart r) rs → lo ≤ s) ∧
    (∀ hi, b ≤ hi → Forall (λ r, rend r ≤ hi) rs → e ≤ hi).
Proof.
  intros Hok Hs. revert a b n.
  induction Hs as [|r rs Hs IH Hr]; intros a b n Hge Hab.
  - exists a, b, 0%nat. simpl. rewrite Nat.add_0_r. split_and!; try done; try lia.
    intros i. split; [tauto|]. intros [?|Hx]; [done|]. by apply Exists_nil in Hx.
  - apply Forall_cons in Hok as [Hrok Hok]. apply Forall_cons in Hge as [Hg Hge].
    destruct Hrok as (Hr1 & Hr2 & Hr3). simpl. destruct (Z.leb_spec (rstart r) b) as [Hle|Hgt].
    + destruct (IH Hok (Z.min a (rstart r)) (Z.max b (rend r)) (S n)) as
        (s & e & k & -> & Hk & Hs1 & He1 & Hd & Hcov & Hlo & Hhi).
      { eapply Forall_impl; [exact Hge|]. simpl. lia. }
      { lia. }
      exists s, e, (S k). split_and!; simpl; try lia; try done.
      * f_equal. lia.
      * intros i. rewrite Hcov, Exists_cons. unfold in_range.
        assert (Z.min a (rstart r) ≤ i < Z.max b (rend r) ↔
                a ≤ i < b ∨ rstart r ≤ i < rend r) as -> by lia. tauto.
      * intros lo Hl Hf. apply Forall_cons in Hf as [? ?]. apply Hlo; [lia|done].
      * intros hi Hl Hf. apply Forall_cons in Hf as [? ?]. apply Hhi; [lia|done].
    + exists a, b, 0%nat. rewrite Nat.add_0_r. split_and!; try done; try lia.
      * simpl. constructor; [done|]. eapply Forall_impl; [exact Hr|]. unfold before. simpl. lia.
      * intros i. simpl. rewrite Exists_nil. tauto.
Qed.

Lemma covers_ranges rs i :
  covers {| ranges := rs; full_image := false |} i ↔ Exists (λ r, in_range r i) rs.
Proof. unfold covers. simpl. naive_solver. Qed.

Lemma Exists_take_drop {A} (P : A → Prop) n (l : list A) :
  Exists P l ↔ Exists P (take n l) ∨ Exists P (drop n l).
Proof. rewrite <-Exists_app. by rewrite take_drop. Qed.

(** Replacing a block of ranges by one range that separates the rest. *)
Lemma merged_ok rs1 rs2 s e :
  Forall range_ok rs1 → Forall range_ok rs2 → range_ok (Range s e) →
  StronglySorted before rs1 → StronglySorted before rs2 →
  Forall (λ r, rend r < s) rs1 → Forall (λ r, e < rstart r) rs2 →
  (length rs1 + length rs2 < PAGE_MUTATION_MAX_RANGES)%nat →
  ok {| ranges := rs1 ++ Range s e :: rs2; full_image := false |}.
Proof.
  intros Hok1 Hok2 Hr Hs1 Hs2 H1 H2 Hlen. constructor; simpl.
  - by rewrite Forall_app, Forall_cons.
  - apply sorted_app; [done|constructor; [done|]|].
    + eapply Forall_impl; [exact H2|]. unfold before. simpl. lia.
    + eapply Forall_impl; [exact H1|]. simpl. intros r Hre. constructor; [done|].
      eapply Forall_impl; [exact H2|]. intros q Hq. simpl in Hq. unfold before.
      destruct Hr as (_ & ? & _). simpl in *. lia.
  - rewrite length_app. simpl. unfold PAGE_MUTATION_MAX_RANGES in *. lia.
  - done.
Qed.

(** The list the merging branch builds. *)
Lemma merge_list rs first k R :
  (0 < k)%nat → (first + k ≤ length rs)%nat →
  (if (0 <? first + k - first - 1)%nat
   then take (first + 1) (<[first:=R]> rs) ++ drop (first + k) (<[first:=R]> rs)
   else <[first:=R]> rs) = take first rs ++ R :: drop (first + k) rs.
Proof.
  intros Hk Hlen. rewrite insert_take_drop by lia.
  assert (Hl : length (take first rs) = first) by (rewrite length_take; lia).
  assert (Hd : ∀ j, (0 < j)%nat → drop (first + j) (take first rs ++ R :: drop (S first) rs)
                    = drop (first + j) rs).
  { intros j Hj. rewrite drop_app_ge by lia. rewrite Hl.
    replace (first + j - first)%nat with (S (j - 1)) by lia. simpl. rewrite drop_drop.
    f_equal. lia. }
  destruct (Nat.ltb_spec 0 (first + k - first - 1)).
  - rewrite Hd by lia. rewrite take_app_ge by lia. rewrite Hl.
    replace (first + 1 - first)%nat with 1%nat by lia. simpl. by rewrite <-app_assoc.
  - assert (k = 1)%nat as -> by lia. by replace (first + 1)%nat with (S first) by lia.
Qed.

(** What one [add_range] of a valid range yields. *)
Record added (m : t) (a b : Z) (m' : t) : Prop := {
  added_ok : ok m';
  added_covers : full_image m' = false → ∀ i, covers m' i ↔ covers m i ∨ a ≤ i < b;
  added_full : full_image m' = true →
    full_image m = true ∨
    (length (ranges m) = PAGE_MUTATION_MAX_RANGES ∧
     Forall (λ r, rend r < a ∨ b < rstart r) (ranges m));
}.

Lemma overflow_added m a b :
  length (ranges m) = PAGE_MUTATION_MAX_RANGES →
  Forall (λ r, rend r < a ∨ b < rstart r) (ranges m) → added m a b overflow.
Proof.
  intros Hl Hf. constructor; [|done|by right].
  constructor; simpl; [constructor|constructor|unfold PAGE_MUTATION_MAX_RANGES; lia|done].
Qed.

Lemma merged_added m a b rs1 mid rs2 s e :
  full_image m = false → ok m → ranges m = rs1 ++ mid ++ rs2 → range_ok (Range s e) →
  Forall (λ r, rend r < s) rs1 → Forall (λ r, e < rstart r) rs2 →
  (length rs1 + length rs2 < PAGE_MUTATION_MAX_RANGES)%nat →
  (∀ i, s ≤ i < e ↔ a ≤ i < b ∨ Exists (λ r, in_range r i) mid) →
  added m a b {| ranges := rs1 ++ Range s e :: rs2; full_image := false |}.
Proof.
  intros Hfull [Hok Hs Hlen _] Hm Hr H1 H2 Hl Hc. rewrite Hm in Hok, Hs.
  apply Forall_app in Hok as [Hok1 Hok]. apply Forall_app in Hok as [_ Hok2].
  apply sorted_app_inv in Hs as (Hs1 & Hs & _). apply sorted_app_inv in Hs as (_ & Hs2 & _).
  constructor; [by apply merged_ok| |done].
  intros _ i. rewrite covers_ranges. unfold covers. rewrite Hfull, Hm, !Exists_app, Exists_cons.
  unfold in_range at 2. simpl. rewrite Hc. naive_solver.
Qed.

Lemma add_range_added m a b :
  ok m → range_ok (Range a b) → ∃ m', add_range m a b = Ret m' ∧ added m a b m'.
Proof.
  intros Hm Hr. pose proof Hr as (Hr1 & Hr2 & Hr3). simpl in *.
  pose proof Hm as [Hok Hs Hlen Hfull]. unfold add_range.
  rewrite !assert_true, !bind_Ret by (rewrite ?Z.ltb_lt, ?Z.leb_le; lia).
  destruct (full_image m) eqn:Ef.
  { exists m. split; [done|]. constructor; [done|congruence|by left]. }
  destruct (last (ranges m)) as [l|] eqn:El.
  2:{ apply last_None in El. exists {| ranges := [Range a b]; full_image := false |}.
      split; [done|]. apply (merged_added m a b [] [] []); try done.
      - simpl. unfold PAGE_MUTATION_MAX_RANGES. lia.
      - intros i. rewrite Exists_nil. tauto. }
  apply last_Some in El as [init El]. pose proof Hok as Hokl. pose proof Hs as Hsl.
  rewrite El in Hokl, Hsl. apply Forall_app in Hokl as [Hoki Hokl].
  rewrite Forall_singleton in Hokl. destruct Hokl as (Hl1 & Hl2 & Hl3).
  apply sorted_app_inv in Hsl as (Hsi & _ & Hbl).
  assert (Hil : Forall (λ r, rend r < rstart l) init).
  { eapply Forall_impl; [exact Hbl|]. intros r Hx. by rewrite Forall_singleton in Hx. }
  assert (Hlen' : length (ranges m) = S (length init)).
  { rewrite El, length_app. simpl. lia. }
  destruct (Z.leb_spec (rstart l) a) as [Hla|Hla].
  - destruct (Z.leb_spec a (rend l)) as [Hra|Hra].
    + eexists. split; [done|].
      replace (<[_:=_]> (ranges m)) with (init ++ Range (rstart l) (Z.max b (rend l)) :: []).
      2:{ rewrite El at 2. rewrite insert_app_r_alt by lia.
          by replace (length (ranges m) - 1 - length init)%nat with 0%nat by lia. }
      apply (merged_added m a b init [l] []); try done; try lia.
      * split_and!; simpl; lia.
      * simpl. lia.
      * intros i. rewrite Exists_cons, Exists_nil. unfold in_range. lia.
    + destruct (Nat.eqb_spec (length (ranges m)) PAGE_MUTATION_MAX_RANGES) as [E8|E8].
      * eexists. split; [done|]. apply overflow_added; [done|]. rewrite El. apply Forall_app. split.
        { eapply Forall_impl; [exact Hil|]. simpl. lia. }
        apply Forall_singleton. lia.
      * eexists. split; [done|]. apply (merged_added m a b (ranges m) [] []); try done.
        { by rewrite !app_nil_r. }
        { rewrite El. apply Forall_app. split; [|by apply Forall_singleton].
          eapply Forall_impl; [exact Hil|]. simpl. lia. }
        { simpl. lia. }
        intros i. rewrite Exists_nil. tauto.
  - destruct (find_first_spec (ranges m) a Hok Hs) as [Hff1 Hff2].
    set (first := find_first (ranges m) a) in *.
    assert (Hfl : (first ≤ length (ranges m))%nat).
    { unfold first. clear. induction (ranges m) as [|r rs IH]; simpl; [lia|].
      destruct (_ <? _); lia. }
    destruct (absorb_spec (drop first (ranges m)) a b first) as
      (s & e & k & -> & Hk & Hsa & Hbe & Hd & Hcov & Hlo & Hhi); try done.
    { by apply Forall_drop. }
    { rewrite <-(take_drop first (ranges m)) in Hs. by apply sorted_app_inv in Hs as (_ & ? & _). }
    rewrite length_drop in Hk. rewrite drop_drop in Hd.
    assert (Hsplit : ranges m = take first (ranges m) ++ take k (drop first (ranges m)) ++
                     drop (first + k) (ranges m)).
    { rewrite <-drop_drop. by rewrite !take_drop. }
    destruct (Nat.ltb_spec first (first + k)) as [Hlt|Hge].
    + eexists. split; [done|]. rewrite merge_list by lia.
      apply (merged_added m a b _ _ _ s e Ef Hm Hsplit); try done.
      * split_and!; simpl; [| lia |].
        { apply Hlo; [lia|]. apply Forall_drop. eapply Forall_impl; [exact Hok|]. by intros r (? & _). }
        { apply Hhi; [lia|]. apply Forall_drop. eapply Forall_impl; [exact Hok|]. by intros r (_ & _ & ?). }
      * rewrite Hsplit in Hs. apply sorted_app_inv in Hs as (_ & _ & Hsep).
        rewrite Forall_forall in Hff1, Hsep |- *. intros r Hin.
        specialize (Hff1 r Hin). specialize (Hsep r Hin). simpl in Hff1.
        assert (rend r + 1 ≤ s); [|lia]. apply Hlo; [lia|].
        rewrite <-drop_drop, take_drop in Hsep. eapply Forall_impl; [exact Hsep|]. unfold before. simpl. lia.
      * rewrite length_take, length_drop. unfold PAGE_MUTATION_MAX_RANGES in *. lia.
    + assert (k = 0%nat) as -> by lia. rewrite Nat.add_0_r in *.
      assert (s = a ∧ e = b) as [-> ->].
      { setoid_rewrite Exists_nil in Hcov. pose proof (proj1 (Hcov s) ltac:(lia)).
        pose proof (proj1 (Hcov (e - 1)) ltac:(lia)). lia. }
      destruct (Nat.eqb_spec (length (ranges m)) PAGE_MUTATION_MAX_RANGES) as [E8|E8].
      * eexists. split; [done|]. apply overflow_added; [done|].
        rewrite <-(take_drop first (ranges m)). apply Forall_app. split.
        { eapply Forall_impl; [exact Hff1|]. simpl. lia. }
        { eapply Forall_impl; [exact Hd|]. simpl. lia. }
      * eexists. split; [done|]. apply (merged_added m a b _ [] _ a b Ef Hm); try done.
        rewrite length_take, length_drop. lia.
Qed.

Lemma add_range_panics m a b : ¬ range_ok (Range a b) → add_range m a b = Panic.
Proof.
  intros Hr. unfold add_range, assert. destruct (Z.ltb_spec a b); [|done].
  destruct (Z.leb_spec b PAGE_SIZE); [|done].
  destruct (Z.leb_spec PAGE_LSN_RANGE_end a); [|done].
  destruct Hr. by split_and!.
Qed.

Lemma new_ok : ok new.
Proof.
  constructor; simpl; [constructor|constructor|unfold PAGE_MUTATION_MAX_RANGES; lia|done].
Qed.

(** Recording a sequence of ranges. *)
Fixpoint add_ranges (m : t) (rs : list (Z * Z)) : outcome t :=
  match rs with
  | [] => Ret m
  | (a, b) :: rs => m ← add_range m a b; add_ranges m rs
  end.

Lemma add_range_covers_mono m a b m' i :
  added m a b m' → covers m i ∨ a ≤ i < b → covers m' i.
Proof.
  intros [_ Hc _] Hi. destruct (full_image m') eqn:E; [by left|]. by apply Hc.
Qed.

Lemma add_ranges_covers m (rs : list (Z * Z)) m' :
  ok m → add_ranges m rs = Ret m' →
  ok m' ∧ ∀ i, covers m i ∨ Exists (λ r, r.1 ≤ i < r.2) rs → covers m' i.
Proof.
  revert m. induction rs as [|[a b] rs IH]; intros m Hm E.
  - simplify_eq/=. split; [done|]. intros i [?|Hx]; [done|]. by apply Exists_nil in Hx.
  - cbn [add_ranges] in E. outcome_inv E.
    destruct (decide (range_ok (Range a b))) as [Hr'|Hr'].
    2:{ by rewrite add_range_panics in Hr. }
    destruct (add_range_added m a b Hm Hr') as (m1 & E1 & Ha). rewrite E1 in Hr. injection Hr as <-.
    destruct (IH m1 (added_ok _ _ _ _ Ha) E) as [Hok' Hc]. split; [done|].
    intros i Hi. apply Hc. rewrite Exists_cons in Hi. simpl in Hi.
    destruct Hi as [?|[?|?]]; [left|left|by right]; eapply add_range_covers_mono; eauto.
Qed.

End ranges.

(** [add_range] accepts exactly the non-empty ranges that lie in the page
    and avoid the page-LSN bytes (anything else panics), and keeps the
    recorded ranges sorted, disjoint, non-adjacent and at most eight; while
    they fit they denote exactly the union of all bytes added, and the
    full-image fallback is taken only when eight ranges are present and the
    new one touches none of them. *)
Theorem add_range_normalises `{Build} m a b :
  ok m →
  (¬ range_ok (Range a b) → add_range m a b = Panic) ∧
  (range_ok (Range a b) → ∃ m', add_range m a b = Ret m' ∧ ok m' ∧
    (full_image m' = false → ∀ i, covers m' i ↔ covers m i ∨ a ≤ i < b) ∧
    (full_image m' = true → full_image m = true ∨
      (length (ranges m) = PAGE_MUTATION_MAX_RANGES ∧
       Forall (λ r, rend r < a ∨ b < rstart r) (ranges m)))).
Proof.
  intros Hm. split; [apply add_range_panics|]. intros Hr.
  destruct (add_range_added m a b Hm Hr) as (m' & E & [? ? ?]). eauto.
Qed.

Lemma add_range_normalises_witness :
  let m := {| ranges := [Range 8 24; Range 40 52; Range 60 70]; full_image := false |} in
  ∃ m', add_range (H := debug_4k) m 30 60 = Ret m' ∧ ok (H := debug_4k) m' ∧
    full_image m' = false ∧ (∀ i, covers m' i ↔ covers m i ∨ 30 ≤ i < 60).
Proof.
  set (m := {| ranges := [Range 8 24; Range 40 52; Range 60 70]; full_image := false |}).
  assert (Hm : ok (H := debug_4k) m).
  { constructor; simpl; repeat constructor; simpl; unfold PAGE_LSN_RANGE_end, before; simpl;
      try lia; vm_compute; congruence. }
  destruct (@add_range_normalises debug_4k m 30 60 Hm) as [_ (m' & E & Hok & Hc & _)].
  { repeat split; vm_compute; congruence. }
  exists m'. assert (full_image m' = false) by (vm_compute in E; by simplify_eq). auto.
Defined.

End PageMutation.
