(* ===== verification/Slotted.v ===== *)
(** * Slotted page: the byte layout and its operations

    Models [src/crates/storage/src/slotted_page.rs] at the level of the page
    bytes. A [SlottedPage] is its [PAGE_SIZE] bytes; [header()] and [slot(id)]
    are reads of little-endian fields at the [repr(C)] offsets, and every
    mutating method is a function from page bytes to page bytes. A raw read
    or write outside the page (undefined behaviour), an out-of-range slice and
    a failed assertion are all [Panic].

    Offsets computed from [u16] fields cannot overflow [usize]; the additions
    and subtractions that can are [uadd] and [usub]. *)

From S2P Require Import Prelude Bytes FrameKernel PageMutation.
#[local] Open Scope Z_scope.

Notation page := (list byte) (only parsing).

Definition HEADER_SIZE : Z := 24.
Definition SLOT_SIZE : Z := 12.
Definition FLAG_HAS_GARBAGE : Z := 1.

(** ** The common header, [PageHeader] *)

Module SlottedHeader.

Definition page_lsn (p : page) : Z := get_le 8 p 0.
Definition data_offset (p : page) : Z := get_le 4 p 8.
Definition space_used (p : page) : Z := get_le 4 p 12.
Definition num_slots (p : page) : Z := get_le 2 p 16.
Definition flags (p : page) : Z := get_le 2 p 18.

Definition set_page_lsn (p : page) (v : Z) : page := set_le 8 p 0 v.
Definition set_data_offset (p : page) (v : Z) : page := set_le 4 p 8 v.
Definition set_space_used (p : page) (v : Z) : page := set_le 4 p 12 v.
Definition set_num_slots (p : page) (v : Z) : page := set_le 2 p 16 v.
Definition set_flags (p : page) (v : Z) : page := set_le 2 p 18 v.

End SlottedHeader.

(** ** A slot *)

Module Slot.

Record t := {
  offset : Z;
  key_len : Z;
  val_len : Z;
  _pad : Z;
  head : Z;
}.

(** The [repr(C)] image: four [u16] and one [u32]. *)
Definition decode (p : page) (off : Z) : t := {|
  offset := get_le 2 p off;
  key_len := get_le 2 p (off + 2);
  val_len := get_le 2 p (off + 4);
  _pad := get_le 2 p (off + 6);
  head := get_le 4 p (off + 8);
|}.

Definition encode (s : t) : list byte :=
  le_bytes 2 (offset s) ++ le_bytes 2 (key_len s) ++ le_bytes 2 (val_len s) ++
  le_bytes 2 (_pad s) ++ le_bytes 4 (head s).

End Slot.

Module SlottedPage.
Import SlottedHeader.

(** ** Construction *)

Definition init `{Build} (_page : page) : page :=
  set_data_offset (fill PAGE_SIZE x00) PAGE_SIZE.

Definition as_bytes (p : page) : page := p.

(** ** Internal accessors *)

(** Byte offset of slot [id]. *)
Definition slot_off (id : Z) : Z := HEADER_SIZE + id * SLOT_SIZE.

(** [*(data.as_ptr().add(offset) as *const Slot)]. *)
Definition read_slot `{Build} (p : page) (off : Z) : outcome Slot.t :=
  if off + SLOT_SIZE <=? PAGE_SIZE then Ret (Slot.decode p off) else Panic.
Definition write_slot `{Build} (p : page) (off : Z) (s : Slot.t) : outcome page :=
  if off + SLOT_SIZE <=? PAGE_SIZE then Ret (upd p off (Slot.encode s)) else Panic.

Definition slot `{Build} (p : page) (id : Z) : outcome Slot.t :=
  _ ← debug_assert (id <? num_slots p);
  read_slot p (slot_off id).

(** [*self.slot_mut(id) = s]. *)
Definition set_slot `{Build} (p : page) (id : Z) (s : Slot.t) : outcome page :=
  _ ← debug_assert (id <? num_slots p);
  write_slot p (slot_off id) s.

(** [self.slot_mut(id).offset = off]. *)
Definition set_slot_offset `{Build} (p : page) (id off : Z) : outcome page :=
  _ ← debug_assert (id <? num_slots p);
  if slot_off id + SLOT_SIZE <=? PAGE_SIZE then Ret (set_le 2 p (slot_off id) off) else Panic.

Definition slot_array_end (p : page) : Z := HEADER_SIZE + num_slots p * SLOT_SIZE.

Definition try_slot_copy `{Build} (p : page) (id : Z) : outcome (option Slot.t) :=
  if num_slots p <=? id then Ret None else
  if PAGE_SIZE <? slot_off id + SLOT_SIZE then Ret None else
  s ← read_slot p (slot_off id);
  Ret (Some s).

(** ** Key heads and comparison *)

Definition make_head (key : list byte) : Z :=
  let n := Z.min (zlen key) 4 in
  of_be_bytes (upd (fill 4 x00) 0 (sub key 0 n)).

Definition cmp_keys (a b : list byte) : comparison := slice_cmp a b.

Definition read_be_u64 (bytes : list byte) : outcome Z :=
  buf ← copy_from (fill 8 x00) 0 8 bytes;
  Ret (of_be_bytes buf).

Definition get_key `{Build} (p : page) (slot_id : Z) : outcome (list byte) :=
  s ← slot p slot_id;
  let start := Slot.offset s in
  slice p start (start + Slot.key_len s).

Definition get_value `{Build} (p : page) (slot_id : Z) : outcome (list byte) :=
  s ← slot p slot_id;
  let start := Slot.offset s + Slot.key_len s in
  slice p start (start + Slot.val_len s).

Definition try_get_value `{Build} (p : page) (slot_id : Z) : outcome (option (list byte)) :=
  s ←? try_slot_copy p slot_id;
  let start := Slot.offset s + Slot.key_len s in
  let end_ := start + Slot.val_len s in
  if PAGE_SIZE <? end_ then Ret None else
  v ← slice p start end_;
  Ret (Some v).

Definition try_get_key `{Build} (p : page) (slot_id : Z) : outcome (option (list byte)) :=
  s ←? try_slot_copy p slot_id;
  let start := Slot.offset s in
  let end_ := start + Slot.key_len s in
  if PAGE_SIZE <? end_ then Ret None else
  k ← slice p start end_;
  Ret (Some k).

(** The common tail of [slot_key_u64] and [try_slot_key_u64]. *)
Definition key_u64_of `{Build} (p : page) (s : Slot.t) : outcome (option Z) :=
  if negb (Slot.key_len s =? 8) then Ret None else
  let start := Slot.offset s in
  let end_ := start + 8 in
  if PAGE_SIZE <? end_ then Ret None else
  b ← slice p start end_;
  k ← read_be_u64 b;
  Ret (Some k).

Definition slot_key_u64 `{Build} (p : page) (slot_id : Z) : outcome (option Z) :=
  s ← slot p slot_id;
  key_u64_of p s.

Definition try_slot_key_u64 `{Build} (p : page) (slot_id : Z) : outcome (option Z) :=
  s ←? try_slot_copy p slot_id;
  key_u64_of p s.

(** ** Binary search

    [while lo < hi] runs at most [hi - lo] times: each loop is recursion on a
    fuel that starts above [count]. *)

Fixpoint lower_bound_generic_loop `{Build} (p : page) (key : list byte) (search_head : Z)
    (fuel : nat) (lo hi : Z) : outcome (Z * bool) :=
  match fuel with
  | O => Panic
  | S fuel =>
      if lo <? hi then
        let mid := lo + (hi - lo) / 2 in
        s ← slot p (wrap 16 mid);
        match Slot.head s ?= search_head with
        | Lt => lower_bound_generic_loop p key search_head fuel (mid + 1) hi
        | Gt => lower_bound_generic_loop p key search_head fuel lo mid
        | Eq =>
            slot_key ← get_key p (wrap 16 mid);
            match cmp_keys slot_key key with
            | Lt => lower_bound_generic_loop p key search_head fuel (mid + 1) hi
            | Gt => lower_bound_generic_loop p key search_head fuel lo mid
            | Eq => Ret (wrap 16 mid, true)
            end
        end
      else Ret (wrap 16 lo, false)
  end.

Definition lower_bound_generic `{Build} (p : page) (key : list byte) : outcome (Z * bool) :=
  let count := num_slots p in
  if count =? 0 then Ret (0, false) else
  lower_bound_generic_loop p key (make_head key) (S (Z.to_nat count)) 0 count.

Fixpoint lower_bound_u64_loop `{Build} (p : page) (search_key : Z)
    (fuel : nat) (lo hi : Z) : outcome (Z * bool) :=
  match fuel with
  | O => Panic
  | S fuel =>
      if lo <? hi then
        let mid := lo + (hi - lo) / 2 in
        k ← slot_key_u64 p (wrap 16 mid);
        match k with
        | None => lower_bound_generic p (be_bytes 8 search_key)
        | Some slot_key =>
            match slot_key ?= search_key with
            | Lt => lower_bound_u64_loop p search_key fuel (mid + 1) hi
            | Gt => lower_bound_u64_loop p search_key fuel lo mid
            | Eq => Ret (wrap 16 mid, true)
            end
        end
      else Ret (wrap 16 lo, false)
  end.

Definition lower_bound_u64_be `{Build} (p : page) (search_key : Z) : outcome (Z * bool) :=
  let count := num_slots p in
  if count =? 0 then Ret (0, false) else
  lower_bound_u64_loop p search_key (S (Z.to_nat count)) 0 count.

Definition lower_bound `{Build} (p : page) (key : list byte) : outcome (Z * bool) :=
  if zlen key =? 8 then
    search_key ← read_be_u64 key;
    lower_bound_u64_be p search_key
  else lower_bound_generic p key.

Fixpoint try_lower_bound_generic_loop `{Build} (p : page) (key : list byte) (search_head : Z)
    (fuel : nat) (lo hi : Z) : outcome (option (Z * bool)) :=
  match fuel with
  | O => Panic
  | S fuel =>
      if lo <? hi then
        let mid := lo + (hi - lo) / 2 in
        s ←? try_slot_copy p (wrap 16 mid);
        match Slot.head s ?= search_head with
        | Lt => try_lower_bound_generic_loop p key search_head fuel (mid + 1) hi
        | Gt => try_lower_bound_generic_loop p key search_head fuel lo mid
        | Eq =>
            slot_key ←? try_get_key p (wrap 16 mid);
            match cmp_keys slot_key key with
            | Lt => try_lower_bound_generic_loop p key search_head fuel (mid + 1) hi
            | Gt => try_lower_bound_generic_loop p key search_head fuel lo mid
            | Eq => Ret (Some (wrap 16 mid, true))
            end
        end
      else Ret (Some (wrap 16 lo, false))
  end.

Definition try_lower_bound_generic `{Build} (p : page) (key : list byte)
    : outcome (option (Z * bool)) :=
  let count := num_slots p in
  if count =? 0 then Ret (Some (0, false)) else
  if PAGE_SIZE / 12 <? count then Ret None else
  try_lower_bound_generic_loop p key (make_head key) (S (Z.to_nat count)) 0 count.

Fixpoint try_lower_bound_u64_loop `{Build} (p : page) (search_key : Z)
    (fuel : nat) (lo hi : Z) : outcome (option (Z * bool)) :=
  match fuel with
  | O => Panic
  | S fuel =>
      if lo <? hi then
        let mid := lo + (hi - lo) / 2 in
        k ← try_slot_key_u64 p (wrap 16 mid);
        match k with
        | None => try_lower_bound_generic p (be_bytes 8 search_key)
        | Some slot_key =>
            match slot_key ?= search_key with
            | Lt => try_lower_bound_u64_loop p search_key fuel (mid + 1) hi
            | Gt => try_lower_bound_u64_loop p search_key fuel lo mid
            | Eq => Ret (Some (wrap 16 mid, true))
            end
        end
      else Ret (Some (wrap 16 lo, false))
  end.

Definition try_lower_bound_u64_be `{Build} (p : page) (search_key : Z)
    : outcome (option (Z * bool)) :=
  let count := num_slots p in
  if count =? 0 then Ret (Some (0, false)) else
  if PAGE_SIZE / 12 <? count then Ret None else
  try_lower_bound_u64_loop p search_key (S (Z.to_nat count)) 0 count.

Definition try_lower_bound `{Build} (p : page) (key : list byte) : outcome (option (Z * bool)) :=
  if zlen key =? 8 then
    search_key ← read_be_u64 key;
    try_lower_bound_u64_be p search_key
  else try_lower_bound_generic p key.

(** ** Space accounting and flags *)

Definition free_space (p : page) : Z := saturating_sub (data_offset p) (slot_array_end p).
Definition free_space_after_compaction `{Build} (p : page) : Z :=
  saturating_sub PAGE_SIZE (slot_array_end p + space_used p).
Definition has_garbage (p : page) : bool := negb (Z.land (flags p) FLAG_HAS_GARBAGE =? 0).
Definition has_custom_flag (p : page) (flag : Z) : bool := negb (Z.land (flags p) flag =? 0).
Definition set_flag (p : page) (flag : Z) : page := set_flags p (Z.lor (flags p) flag).
Definition can_insert `{Build} (p : page) (key_len val_len : Z) : bool :=
  let needed := SLOT_SIZE + key_len + val_len in
  (needed <=? free_space p) || (needed <=? free_space_after_compaction p).

Definition reserve_suffix `{Build} (p : page) (n : Z) : outcome page :=
  _ ← debug_assert (num_slots p =? 0);
  d ← usub 32 (data_offset p) (wrap 32 n);
  let p := set_data_offset p d in
  u ← uadd 32 (space_used p) (wrap 32 n);
  Ret (set_space_used p u).

(** ** Compaction *)

(** The scan that validates every slot and sums the live bytes. *)
Fixpoint compactify_scan `{Build} (p : page) (ids : list Z) (live_data : Z) : outcome Z :=
  match ids with
  | [] => Ret live_data
  | i :: ids =>
      s ← slot p (wrap 16 i);
      let data_len := Slot.key_len s + Slot.val_len s in
      let end_ := Slot.offset s + data_len in
      _ ← assert (end_ <=? PAGE_SIZE);
      compactify_scan p ids (live_data + data_len)
  end.

(** Copies the live data into [tmp], from [write_offset] downwards. *)
Fixpoint compactify_gather `{Build} (p : page) (ids : list Z) (tmp : page) (write_offset : Z)
    : outcome page :=
  match ids with
  | [] => Ret tmp
  | i :: ids =>
      s ← slot p (wrap 16 i);
      let data_len := Slot.key_len s + Slot.val_len s in
      let src_start := Slot.offset s in
      write_offset ← usub 64 write_offset data_len;
      src ← slice p src_start (src_start + data_len);
      write_end ← uadd 64 write_offset data_len;
      tmp ← copy_from tmp write_offset write_end src;
      compactify_gather p ids tmp write_offset
  end.

(** [*data_len = s.key_len + s.val_len], in [u16]. *)
Fixpoint compactify_lens `{Build} (p : page) (ids : list Z) : outcome (list (Z * Z)) :=
  match ids with
  | [] => Ret []
  | i :: ids =>
      s ← slot p (wrap 16 i);
      n ← uadd 16 (Slot.key_len s) (Slot.val_len s);
      rest ← compactify_lens p ids;
      Ret ((i, n) :: rest)
  end.

(** Copies the data back and points each slot at its new place. *)
Fixpoint compactify_write `{Build} (p : page) (lens : list (Z * Z)) (tmp : page) (offset : Z)
    : outcome (page * Z) :=
  match lens with
  | [] => Ret (p, offset)
  | (i, data_len) :: lens =>
      offset ← usub 64 offset data_len;
      end_ ← uadd 64 offset data_len;
      src ← slice tmp offset end_;
      p ← copy_from p offset end_ src;
      p ← set_slot_offset p (wrap 16 i) (wrap 16 offset);
      compactify_write p lens tmp offset
  end.

(** [[0u16; (PAGE_SIZE - HEADER_SIZE) / SLOT_SIZE]] has this many entries. *)
Definition data_lens_cap `{Build} : Z := (PAGE_SIZE - HEADER_SIZE) / SLOT_SIZE.

Definition clear_garbage (p : page) : page :=
  set_flags p (Z.land (flags p) (unot 16 FLAG_HAS_GARBAGE)).

Definition compactify `{Build} (p : page) : outcome page :=
  let count := num_slots p in
  if count =? 0 then
    d ← usub 64 PAGE_SIZE (space_used p);
    Ret (clear_garbage (set_data_offset p (wrap 32 d)))
  else
    live_data ← compactify_scan p (seqZ 0 count) 0;
    reserved_suffix ← usub 64 (space_used p) live_data;
    top ← usub 64 PAGE_SIZE reserved_suffix;
    tmp ← compactify_gather p (seqZ 0 count) (fill PAGE_SIZE x00) top;
    lens ← compactify_lens p (seqZ 0 (Z.min count data_lens_cap));
    r ← compactify_write p lens tmp top;
    Ret (clear_garbage (set_data_offset r.1 (wrap 32 r.2))).

(** ** Mutation *)

Definition insert `{Build} (p : page) (slot_id : Z) (key value : list byte) : outcome page :=
  let data_len := zlen key + zlen value in
  let needed := SLOT_SIZE + data_len in
  p ← (if free_space p <? needed
       then _ ← assert (needed <=? free_space_after_compaction p); compactify p
       else Ret p);
  new_data_offset ← usub 64 (data_offset p) data_len;
  p ← copy_from p new_data_offset (new_data_offset + zlen key) key;
  p ← copy_from p (new_data_offset + zlen key) (new_data_offset + data_len) value;
  let count := num_slots p in
  p ← (if slot_id <? count
       then ptr_copy p (slot_off slot_id) (slot_off (slot_id + 1)) ((count - slot_id) * SLOT_SIZE)
       else Ret p);
  new_count ← uadd 16 count 1;
  let p := set_num_slots p new_count in
  p ← set_slot p slot_id {|
    Slot.offset := wrap 16 new_data_offset;
    Slot.key_len := wrap 16 (zlen key);
    Slot.val_len := wrap 16 (zlen value);
    Slot._pad := 0;
    Slot.head := make_head key;
  |};
  let p := set_data_offset p (wrap 32 new_data_offset) in
  used ← uadd 32 (space_used p) (wrap 32 data_len);
  Ret (set_space_used p used).

Definition insert_with_mutation `{Build} (p : page) (slot_id : Z) (key value : list byte)
    (mutation : PageMutation.t) : outcome (page * PageMutation.t) :=
  let count := num_slots p in
  let data_len := zlen key + zlen value in
  let needed := SLOT_SIZE + data_len in
  let compacted := free_space p <? needed in
  p ← insert p slot_id key value;
  mutation ← PageMutation.add_range mutation 8 HEADER_SIZE;
  let first_changed_slot := if compacted then 0 else slot_id in
  mutation ← PageMutation.add_range mutation
    (HEADER_SIZE + first_changed_slot * SLOT_SIZE) (HEADER_SIZE + (count + 1) * SLOT_SIZE);
  let data_start := data_offset p in
  let data_end := if compacted then PAGE_SIZE else data_start + data_len in
  mutation ← (if data_start <? data_end
              then PageMutation.add_range mutation data_start data_end else Ret mutation);
  Ret (p, mutation).

Definition remove `{Build} (p : page) (slot_id : Z) : outcome page :=
  let count := num_slots p in
  _ ← assert (slot_id <? count);
  s ← slot p slot_id;
  let data_len := Slot.key_len s + Slot.val_len s in
  used ← usub 32 (space_used p) (wrap 32 data_len);
  let p := set_space_used p used in
  let remaining := count - slot_id - 1 in
  p ← (if 0 <? remaining
       then ptr_copy p (slot_off (slot_id + 1)) (slot_off slot_id) (remaining * SLOT_SIZE)
       else Ret p);
  let p := set_num_slots p (count - 1) in
  Ret (set_flags p (Z.lor (flags p) FLAG_HAS_GARBAGE)).

Definition remove_with_mutation `{Build} (p : page) (slot_id : Z) (mutation : PageMutation.t)
    : outcome (page * PageMutation.t) :=
  let count := num_slots p in
  p ← remove p slot_id;
  mutation ← PageMutation.add_range mutation 8 HEADER_SIZE;
  let changed_slots_end := HEADER_SIZE + (count - 1) * SLOT_SIZE in
  let changed_slots_start := HEADER_SIZE + slot_id * SLOT_SIZE in
  mutation ← (if changed_slots_start <? changed_slots_end
              then PageMutation.add_range mutation changed_slots_start changed_slots_end
              else Ret mutation);
  Ret (p, mutation).

Definition update_value_if_same_length `{Build} (p : page) (slot_id : Z) (value : list byte)
    : outcome (page * bool) :=
  s ← slot p slot_id;
  if negb (zlen value =? Slot.val_len s) then Ret (p, false) else
  let start := Slot.offset s + Slot.key_len s in
  p ← copy_from p start (start + zlen value) value;
  Ret (p, true).

Definition value_range `{Build} (p : page) (slot_id : Z) : outcome (Z * Z) :=
  s ← slot p slot_id;
  let start := Slot.offset s + Slot.key_len s in
  Ret (start, start + Slot.val_len s).

Definition update_value_with_mutation `{Build} (p : page) (slot_id : Z) (value : list byte)
    (mutation : PageMutation.t) : outcome (page * PageMutation.t * bool) :=
  range ← value_range p slot_id;
  r ← update_value_if_same_length p slot_id value;
  if negb r.2 then Ret (r.1, mutation, false) else
  mutation ← (if range.1 <? range.2
              then PageMutation.add_range mutation range.1 range.2 else Ret mutation);
  Ret (r.1, mutation, true).

(** ** Bulk operations *)

(** [for i in 0..count] of [copy_key_value_range]. *)
Fixpoint copy_loop `{Build} (self dst : page) (src_slot : Z) (ids : list Z) : outcome page :=
  match ids with
  | [] => Ret dst
  | i :: ids =>
      slot ← uadd 16 src_slot i;
      key ← get_key self slot;
      value ← get_value self slot;
      let pos := num_slots dst in
      dst ← insert dst pos key value;
      copy_loop self dst src_slot ids
  end.

Definition copy_key_value_range `{Build} (self dst : page) (dst_slot src_slot count : Z)
    : outcome page :=
  _ ← debug_assert (dst_slot =? num_slots dst);
  copy_loop self dst src_slot (seqZ 0 count).

(** Subtracts the dropped entries from [space_used]. *)
Fixpoint truncate_loop `{Build} (p : page) (ids : list Z) : outcome page :=
  match ids with
  | [] => Ret p
  | i :: ids =>
      s ← slot p i;
      let data_len := Slot.key_len s + Slot.val_len s in
      used ← usub 32 (space_used p) (wrap 32 data_len);
      truncate_loop (set_space_used p used) ids
  end.

Definition truncate `{Build} (p : page) (new_count : Z) : outcome page :=
  let old_count := num_slots p in
  _ ← assert (new_count <=? old_count);
  if new_count =? old_count then Ret p else
  p ← truncate_loop p (seqZ new_count (old_count - new_count));
  let p := set_num_slots p new_count in
  let p := set_flags p (Z.lor (flags p) FLAG_HAS_GARBAGE) in
  compactify p.

End SlottedPage.
