(* ===== verification/SlottedInv.v ===== *)
(** * Key order: lexicographic comparison, key heads and big-endian integers

    The order [Ord::cmp] puts on byte slices is a strict total order, and the
    two shortcuts the slotted page takes (the zero-padded four-byte head and
    the big-endian [u64]) agree with it. *)

From stdpp Require Import sorting.
From S2P Require Import Prelude Bytes FrameKernel PageMutation Slotted.
#[local] Open Scope Z_scope.

Definition key_lt (a b : list byte) : Prop := slice_cmp a b = Lt.
#[global] Instance key_lt_dec a b : Decision (key_lt a b).
Proof. unfold key_lt. apply _. Defined.

Lemma slice_cmp_refl a : slice_cmp a a = Eq.
Proof. induction a as [|x a IH]; simpl; [done|]. by rewrite Z.compare_refl. Qed.

Lemma slice_cmp_eq a b : slice_cmp a b = Eq ↔ a = b.
Proof.
  split; [|intros ->; apply slice_cmp_refl].
  revert b. induction a as [|x a IH]; intros [|y b]; simpl; try done.
  destruct (Z.compare_spec (u8 x) (u8 y)) as [E| |]; try done.
  intros. f_equal; [by apply u8_inj|by apply IH].
Qed.

Lemma slice_cmp_antisym a b : slice_cmp b a = CompOpp (slice_cmp a b).
Proof.
  revert b. induction a as [|x a IH]; intros [|y b]; simpl; try done.
  rewrite Z.compare_antisym. by destruct (u8 x ?= u8 y); simpl.
Qed.

Lemma slice_cmp_gt a b : slice_cmp a b = Gt ↔ key_lt b a.
Proof. unfold key_lt. rewrite slice_cmp_antisym. by destruct (slice_cmp b a). Qed.

#[global] Instance key_lt_trans : Transitive key_lt.
Proof.
  unfold key_lt. intros a. induction a as [|x a IH]; intros [|y b] [|z c]; simpl; try done.
  destruct (Z.compare_spec (u8 x) (u8 y)) as [E1|E1|E1]; try done;
  destruct (Z.compare_spec (u8 y) (u8 z)) as [E2|E2|E2]; try done; intros.
  - rewrite E1, E2, Z.compare_refl. by eapply IH.
  - rewrite (proj2 (Z.compare_lt_iff _ _)) by lia. done.
  - rewrite (proj2 (Z.compare_lt_iff _ _)) by lia. done.
  - rewrite (proj2 (Z.compare_lt_iff _ _)) by lia. done.
Qed.

#[global] Instance key_lt_irrefl : Irreflexive key_lt.
Proof. intros a Ha. unfold key_lt in Ha. by rewrite slice_cmp_refl in Ha. Qed.

(** ** Big-endian numbers *)

Lemma of_le_bytes_app l k : of_le_bytes (l ++ k) = of_le_bytes l + 2 ^ (8 * zlen l) * of_le_bytes k.
Proof.
  unfold zlen. induction l as [|b l IH]; [simpl; lia|].
  cbn [app of_le_bytes length]. rewrite IH, pow256_S. lia.
Qed.

Lemma of_be_bytes_cons x l : of_be_bytes (x :: l) = 2 ^ (8 * zlen l) * u8 x + of_be_bytes l.
Proof.
  unfold of_be_bytes. simpl. rewrite of_le_bytes_app. unfold zlen. rewrite length_rev. simpl. lia.
Qed.

Lemma of_be_bytes_range l : 0 ≤ of_be_bytes l < 2 ^ (8 * zlen l).
Proof.
  unfold of_be_bytes. pose proof (of_le_bytes_range (rev l)) as Hr. unfold zlen in *.
  by rewrite length_rev in Hr.
Qed.

(** On byte strings of one length, numeric order is lexicographic order. *)
Lemma of_be_bytes_compare a b :
  zlen a = zlen b → (of_be_bytes a ?= of_be_bytes b) = slice_cmp a b.
Proof.
  revert b. induction a as [|x a IH]; intros [|y b] Hl; simpl; try done.
  rewrite !zlen_cons in Hl. assert (Hab : zlen a = zlen b) by lia.
  rewrite !of_be_bytes_cons, Hab. pose proof (of_be_bytes_range a) as Ha. rewrite Hab in Ha.
  pose proof (of_be_bytes_range b) as Hb. set (m := 2 ^ (8 * zlen b)) in *.
  destruct (Z.compare_spec (u8 x) (u8 y)) as [E|E|E].
  - rewrite <-(IH b Hab), E. destruct (Z.compare_spec (of_be_bytes a) (of_be_bytes b)).
    + apply Z.compare_eq_iff. lia.
    + apply Z.compare_lt_iff. lia.
    + apply Z.compare_gt_iff. lia.
  - apply Z.compare_lt_iff. nia.
  - apply Z.compare_gt_iff. nia.
Qed.

(** ** Key heads *)

(** The first [n] bytes, zero-padded. *)
Fixpoint pad (n : nat) (k : list byte) : list byte :=
  match n with
  | O => []
  | S n => match k with [] => x00 :: pad n [] | x :: k => x :: pad n k end
  end.

Lemma length_pad n k : length (pad n k) = n.
Proof. revert k. induction n; intros [|x k]; simpl; auto. Qed.

Lemma lookup_pad n k (i : nat) : (i < n)%nat → pad n k !! i = Some (default x00 (k !! i)).
Proof.
  revert k i. induction n as [|n IH]; intros [|x k] [|i] Hi; simpl; try done; try lia.
  - rewrite IH by lia. done.
  - by rewrite IH by lia.
Qed.

Lemma make_head_pad k : SlottedPage.make_head k = of_be_bytes (pad 4 k).
Proof.
  unfold SlottedPage.make_head. f_equal. pose proof (zlen_nonneg k).
  assert (Hf : zlen (fill 4 x00) = 4) by done.
  assert (Hs : zlen (sub k 0 (zlen k `min` 4)) = zlen k `min` 4) by (apply zlen_sub; lia).
  apply list_eq. intros i. destruct (decide (i < 4)%nat).
  - rewrite lookup_pad, lookup_upd by lia. rewrite Hs. case_decide.
    + rewrite lookup_sub by lia. simpl. rewrite Nat.sub_0_r.
      destruct (lookup_lt_is_Some_2 k i) as [x ->]; [unfold zlen in *; lia|done].
    + rewrite (lookup_ge_None_2 k) by (unfold zlen in *; lia). unfold fill.
      rewrite lookup_replicate_2 by (simpl; lia). done.
  - rewrite !lookup_ge_None_2; [done|rewrite length_pad; lia|].
    apply Nat2Z.inj_le. fold (zlen (upd (fill 4 x00) 0 (sub k 0 (zlen k `min` 4)))).
    rewrite zlen_upd; lia.
Qed.

Lemma pad_lt n a b : key_lt (pad n a) (pad n b) → key_lt a b.
Proof.
  unfold key_lt. revert a b. induction n as [|n IH]; intros [|x a] [|y b]; simpl; try done.
  - intros Hp. by apply (IH [] []) in Hp.
  - change (u8 x00) with 0. pose proof (u8_range x).
    destruct (Z.compare_spec (u8 x) 0); [|lia|done].
    intros Hp. apply (IH a []) in Hp. by destruct a.
  - destruct (u8 x ?= u8 y); try done. apply IH.
Qed.

(** Comparing heads never contradicts comparing keys. *)
Lemma make_head_lt a b : SlottedPage.make_head a < SlottedPage.make_head b → key_lt a b.
Proof.
  rewrite !make_head_pad, <-Z.compare_lt_iff.
  rewrite of_be_bytes_compare by (unfold zlen; by rewrite !length_pad). apply pad_lt.
Qed.

(** * Slotted page: representation invariant and accessors

    [wf p R es]: the bytes [p] represent the sequence [es] of key/value
    entries above a reserved suffix of [R] bytes. The invariant talks about
    the decoded slot array, so that each operation is verified by computing
    its effect on [slots]. *)

#[local] Open Scope Z_scope.
Import SlottedHeader SlottedPage.

Notation entry := (list byte * list byte)%type (only parsing).

(** Bytes of heap data an entry occupies. *)
Definition esize (e : entry) : Z := zlen e.1 + zlen e.2.
Fixpoint heap_total (es : list entry) : Z :=
  match es with
  | [] => 0
  | e :: es => esize e + heap_total es
  end.

Definition slot_at (p : page) (i : Z) : Slot.t := Slot.decode p (slot_off i).
Definition slots (p : page) : list Slot.t := slot_at p <$> seqZ 0 (num_slots p).

Definition data_len (s : Slot.t) : Z := Slot.key_len s + Slot.val_len s.

(** Slot [s] describes entry [e], whose bytes lie between [d] and the suffix. *)
Record placed `{Build} (p : page) (R d : Z) (s : Slot.t) (e : entry) : Prop := {
  placed_key_len : Slot.key_len s = zlen e.1;
  placed_val_len : Slot.val_len s = zlen e.2;
  placed_head : Slot.head s = make_head e.1;
  placed_page : 0 ≤ Slot.offset s ∧ Slot.offset s + esize e ≤ PAGE_SIZE;
  placed_heap : esize e = 0 ∨ d ≤ Slot.offset s ∧ Slot.offset s + esize e ≤ PAGE_SIZE - R;
  placed_data : sub p (Slot.offset s) (esize e) = e.1 ++ e.2;
}.

(** The heap extents of two slots do not overlap. *)
Definition apart (s t : Slot.t) : Prop :=
  data_len s = 0 ∨ data_len t = 0 ∨
  Slot.offset s + data_len s ≤ Slot.offset t ∨ Slot.offset t + data_len t ≤ Slot.offset s.

Record wf `{Build} (p : page) (R : Z) (es : list entry) : Prop := {
  wf_len : zlen p = PAGE_SIZE;
  wf_reserved : 0 ≤ R;
  wf_num : num_slots p = zlen es;
  wf_array : slot_array_end p ≤ data_offset p;
  wf_used : space_used p = R + heap_total es;
  wf_heap : data_offset p + space_used p ≤ PAGE_SIZE;
  wf_slots : Forall2 (placed p R (data_offset p)) (slots p) es;
  wf_apart : StronglySorted apart (slots p);
}.

(** The bytes an operation must not touch: the page LSN, the padding word of
    the header and the reserved suffix. *)
Definition frame_kept `{Build} (R : Z) (p p' : page) : Prop :=
  sub p' 0 8 = sub p 0 8 ∧ sub p' 20 4 = sub p 20 4 ∧
  sub p' (PAGE_SIZE - R) R = sub p (PAGE_SIZE - R) R.

(** The flag bits other than the garbage bit. *)
Definition flags_kept (p p' : page) : Prop :=
  ∀ i, 0 < i → Z.testbit (flags p') i = Z.testbit (flags p) i.

#[export] Hint Unfold HEADER_SIZE SLOT_SIZE slot_off slot_array_end : slotted.

Ltac offs := unfold slot_array_end, slot_off, HEADER_SIZE, SLOT_SIZE in *.

(** ** Lengths *)

Lemma PAGE_SIZE_bounds `{Build} : 4096 ≤ PAGE_SIZE ≤ 65536.
Proof. destruct PAGE_SIZE_cases; lia. Qed.

Lemma zlen_encode s : zlen (Slot.encode s) = 12.
Proof. unfold Slot.encode. by rewrite !zlen_app, !zlen_le_bytes. Qed.

Lemma esize_nonneg e : 0 ≤ esize e.
Proof. unfold esize. pose proof (zlen_nonneg e.1). pose proof (zlen_nonneg e.2). lia. Qed.

Lemma heap_total_nonneg es : 0 ≤ heap_total es.
Proof. induction es as [|e es IH]; simpl; [lia|]. pose proof (esize_nonneg e). lia. Qed.

Lemma heap_total_app es1 es2 : heap_total (es1 ++ es2) = heap_total es1 + heap_total es2.
Proof. induction es1 as [|e es1 IH]; simpl; lia. Qed.

Lemma heap_total_take_drop es i : heap_total es = heap_total (take i es) + heap_total (drop i es).
Proof. by rewrite <-heap_total_app, take_drop. Qed.

Lemma heap_total_lookup_le es i e : es !! i = Some e → esize e ≤ heap_total es.
Proof.
  intros E. rewrite <-(take_drop_middle _ _ _ E).
  rewrite heap_total_app. simpl. pose proof (heap_total_nonneg (take i es)). pose proof (heap_total_nonneg (drop (S i) es)). lia.
Qed.

(** [plen] proves bounds on the length of an updated page. *)
Ltac plen :=
  unfold set_page_lsn, set_data_offset, set_space_used, set_num_slots, set_flags in *;
  rewrite ?zlen_app, ?zlen_encode, ?zlen_le_bytes;
  repeat first [rewrite zlen_set_le by plen | rewrite zlen_upd by plen | rewrite zlen_sub by plen];
  rewrite ?zlen_encode, ?zlen_le_bytes;
  solve [lia | offs; lia].

(** [hdr] computes header fields and byte ranges through page updates. *)
Ltac hdr :=
  unfold page_lsn, data_offset, space_used, num_slots, flags,
    set_page_lsn, set_data_offset, set_space_used, set_num_slots, set_flags;
  repeat first
    [ rewrite get_set_le_eq by plen
    | rewrite get_set_le_ne by plen
    | rewrite get_upd_ne by plen ].

(** ** Header fields *)

Lemma num_slots_range p : 0 ≤ num_slots p < 2 ^ 16.
Proof. apply (get_le_range 2). Qed.
Lemma data_offset_range p : 0 ≤ data_offset p < 2 ^ 32.
Proof. apply (get_le_range 4). Qed.
Lemma space_used_range p : 0 ≤ space_used p < 2 ^ 32.
Proof. apply (get_le_range 4). Qed.
Lemma flags_range p : 0 ≤ flags p < 2 ^ 16.
Proof. apply (get_le_range 2). Qed.

(** ** Slots *)

Record slot_range (s : Slot.t) : Prop := {
  range_offset : 0 ≤ Slot.offset s < 2 ^ 16;
  range_key_len : 0 ≤ Slot.key_len s < 2 ^ 16;
  range_val_len : 0 ≤ Slot.val_len s < 2 ^ 16;
  range_pad : 0 ≤ Slot._pad s < 2 ^ 16;
  range_head : 0 ≤ Slot.head s < 2 ^ 32;
}.

Lemma decode_range p off : slot_range (Slot.decode p off).
Proof. constructor; cbn; [apply (get_le_range 2)..|apply (get_le_range 4)]. Qed.

(** A slot is decoded from its twelve bytes. *)
Lemma decode_sub p off q off' :
  0 ≤ off → 0 ≤ off' → sub p off 12 = sub q off' 12 → Slot.decode p off = Slot.decode q off'.
Proof.
  intros ? ? E. unfold Slot.decode.
  assert (G : ∀ n k, 0 ≤ k → k + Z.of_nat n ≤ 12 → get_le n p (off + k) = get_le n q (off' + k)).
  { intros n k ? ?. rewrite <-(get_le_sub n p off 12), <-(get_le_sub n q off' 12) by lia. by rewrite E. }
  pose proof (G 2%nat 0) as G0. rewrite !Z.add_0_r in G0. rewrite G0, !G by lia. done.
Qed.

Lemma get_le_at n p off k l1 v l2 :
  0 ≤ off → sub p off 12 = l1 ++ le_bytes n v ++ l2 → zlen l1 = k → k + Z.of_nat n ≤ 12 →
  get_le n p (off + k) = wrap (8 * Z.of_nat n) v.
Proof.
  intros ? E Hk ?. pose proof (zlen_nonneg l1). rewrite <-(get_le_sub n p off 12) by lia. rewrite E. unfold get_le.
  rewrite sub_app_r by lia. rewrite sub_app_l by (rewrite ?zlen_le_bytes; lia).
  replace (k - zlen l1) with 0 by lia. rewrite <-(zlen_le_bytes n v), sub_all at 1.
  apply of_le_bytes_le_bytes.
Qed.

Lemma decode_encode p off s :
  0 ≤ off → slot_range s → sub p off 12 = Slot.encode s → Slot.decode p off = s.
Proof.
  intros ? [? ? ? ? ?] E. unfold Slot.encode in E. unfold Slot.decode.
  rewrite <-(Z.add_0_r off) at 1.
  rewrite (get_le_at 2 p off 0 [] (Slot.offset s) _ ltac:(lia) E) by (rewrite ?zlen_nil; lia).
  rewrite (get_le_at 2 p off 2 (le_bytes 2 (Slot.offset s)) (Slot.key_len s) _ ltac:(lia) E)
    by (rewrite ?zlen_le_bytes; lia).
  rewrite (get_le_at 2 p off 4 (le_bytes 2 (Slot.offset s) ++ le_bytes 2 (Slot.key_len s))
             (Slot.val_len s) (le_bytes 2 (Slot._pad s) ++ le_bytes 4 (Slot.head s)))
    by (rewrite ?zlen_app, ?zlen_le_bytes; lia || by rewrite E, <-!app_assoc).
  rewrite (get_le_at 2 p off 6 (le_bytes 2 (Slot.offset s) ++ le_bytes 2 (Slot.key_len s) ++
             le_bytes 2 (Slot.val_len s)) (Slot._pad s) (le_bytes 4 (Slot.head s)))
    by (rewrite ?zlen_app, ?zlen_le_bytes; lia || by rewrite E, <-!app_assoc).
  rewrite (get_le_at 4 p off 8 (le_bytes 2 (Slot.offset s) ++ le_bytes 2 (Slot.key_len s) ++
             le_bytes 2 (Slot.val_len s) ++ le_bytes 2 (Slot._pad s)) (Slot.head s) [])
    by (rewrite ?zlen_app, ?zlen_le_bytes; lia || by rewrite E, <-!app_assoc, app_nil_r).
  rewrite !wrap_small by (simpl; lia). by destruct s.
Qed.

Lemma length_slots p : length (slots p) = Z.to_nat (num_slots p).
Proof. unfold slots. by rewrite length_fmap, length_seqZ. Qed.

Lemma lookup_slots p (i : nat) :
  Z.of_nat i < num_slots p → slots p !! i = Some (slot_at p (Z.of_nat i)).
Proof.
  intros Hi. unfold slots. rewrite list_lookup_fmap, lookup_seqZ_lt by lia. simpl.
  by rewrite Z.add_0_l.
Qed.

(** Two pages have the same slots where their slot bytes agree. *)
Lemma slots_ext p q :
  num_slots q = num_slots p →
  (∀ i, 0 ≤ i < num_slots p → sub q (slot_off i) 12 = sub p (slot_off i) 12) →
  slots q = slots p.
Proof.
  intros En Hs. unfold slots. rewrite En. apply list_fmap_ext. intros k i Hi.
  apply lookup_seqZ in Hi as [-> ?]. unfold slot_at. pose proof (num_slots_range p).
  apply decode_sub; offs; [lia..|]. apply Hs. lia.
Qed.

Section accessors.
Context `{Build}.
Implicit Types (p : page) (es : list entry).

Lemma slot_Ret p i :
  0 ≤ i < num_slots p → slot_array_end p ≤ PAGE_SIZE → slot p i = Ret (slot_at p i).
Proof.
  intros Hi Ha. unfold slot. rewrite debug_assert_true by (apply Z.ltb_lt; lia). rewrite bind_Ret.
  unfold read_slot. rewrite (proj2 (Z.leb_le _ _)); [done|]. offs. lia.
Qed.

Lemma wf_bounds p R es :
  wf p R es → 24 + 12 * zlen es ≤ data_offset p ∧
  data_offset p + R + heap_total es ≤ PAGE_SIZE ∧ 0 ≤ R ∧ 0 ≤ heap_total es.
Proof.
  intros [? ? Hn ? ? ? _ _]. offs. rewrite Hn in *. pose proof (heap_total_nonneg es). lia.
Qed.

Lemma wf_slot p R es (i : nat) e :
  wf p R es → es !! i = Some e →
  placed p R (data_offset p) (slot_at p (Z.of_nat i)) e ∧
  slot p (Z.of_nat i) = Ret (slot_at p (Z.of_nat i)).
Proof.
  intros Hwf He. pose proof (lookup_lt_Some _ _ _ He) as Hlt.
  pose proof (wf_bounds _ _ _ Hwf). destruct Hwf as [? ? Hn ? ? ? Hs _].
  unfold zlen in Hn. split.
  - eapply Forall2_lookup_lr; [exact Hs| |exact He]. apply lookup_slots. lia.
  - apply slot_Ret; [lia|]. lia.
Qed.

Lemma placed_key p R d s e : zlen p = PAGE_SIZE → placed p R d s e →
  slice p (Slot.offset s) (Slot.offset s + Slot.key_len s) = Ret e.1.
Proof.
  intros Hl [-> ? ? ? ? Hd]. pose proof (zlen_nonneg e.1). pose proof (zlen_nonneg e.2). unfold esize in *.
  rewrite slice_Ret by lia. f_equal. replace (_ + zlen e.1 - _) with (zlen e.1) by lia.
  rewrite sub_split in Hd by lia. apply (app_inj_1 _ _ _ _) in Hd as [? ?]; [done|].
  apply Nat2Z.inj. fold (zlen (sub p (Slot.offset s) (zlen e.1))). fold (zlen e.1).
  rewrite zlen_sub by lia. done.
Qed.

Lemma placed_value p R d s e : zlen p = PAGE_SIZE → placed p R d s e →
  slice p (Slot.offset s + Slot.key_len s) (Slot.offset s + Slot.key_len s + Slot.val_len s)
  = Ret e.2.
Proof.
  intros Hl [-> -> ? ? ? Hd]. pose proof (zlen_nonneg e.1). pose proof (zlen_nonneg e.2). unfold esize in *.
  rewrite slice_Ret by lia. f_equal. replace (_ + zlen e.2 - _) with (zlen e.2) by lia.
  rewrite sub_split in Hd by lia. apply (app_inj_1 _ _ _ _) in Hd as [? ?]; [done|].
  apply Nat2Z.inj. fold (zlen (sub p (Slot.offset s) (zlen e.1))). fold (zlen e.1).
  rewrite zlen_sub by lia. done.
Qed.

(** Reading an entry of a well-formed page. *)
Lemma get_key_wf p R es (i : nat) e :
  wf p R es → es !! i = Some e → get_key p (Z.of_nat i) = Ret e.1.
Proof.
  intros Hwf He. destruct (wf_slot _ _ _ _ _ Hwf He) as [Hp Hs].
  unfold get_key. rewrite Hs, bind_Ret. eapply placed_key; [apply Hwf|exact Hp].
Qed.

Lemma get_value_wf p R es (i : nat) e :
  wf p R es → es !! i = Some e → get_value p (Z.of_nat i) = Ret e.2.
Proof.
  intros Hwf He. destruct (wf_slot _ _ _ _ _ Hwf He) as [Hp Hs].
  unfold get_value. rewrite Hs, bind_Ret. eapply placed_value; [apply Hwf|exact Hp].
Qed.

(** A slot stays placed when the heap bytes are kept. *)
Lemma placed_frame p p' R d d' s e :
  placed p R d s e → d' ≤ d →
  (∀ off n, d ≤ off → 0 ≤ n → off + n ≤ PAGE_SIZE - R → sub p' off n = sub p off n) →
  placed p' R d' s e.
Proof.
  intros [? ? ? ? Hh Hd] ? Hf. constructor; try done.
  - destruct Hh; [by left|right; lia].
  - destruct Hh as [E|Hh].
    + rewrite E in *. by rewrite sub_0 in *.
    + rewrite Hf; [done|lia| |lia]. apply esize_nonneg.
Qed.

Lemma placed_size p R d s e : placed p R d s e → data_len s = esize e.
Proof. intros [Hk Hv _ _ _ _]. unfold data_len, esize. lia. Qed.

Lemma Forall2_placed_frame p p' R d d' ss es :
  Forall2 (placed p R d) ss es → d' ≤ d →
  (∀ off n, d ≤ off → 0 ≤ n → off + n ≤ PAGE_SIZE - R → sub p' off n = sub p off n) →
  Forall2 (placed p' R d') ss es.
Proof.
  intros Hs Hd Hf. eapply Forall2_impl; [exact Hs|]. intros s e Hp. by eapply placed_frame.
Qed.

End accessors.

#[global] Instance apart_sym : Symmetric apart.
Proof. intros s t. unfold apart. tauto. Qed.
