(* ===== verification/SlottedOps.v ===== *)
(** * Slotted page: initialisation and insertion into the gap

    The empty page, [reserve_suffix], and the part of [insert] that runs once
    the gap between slot array and heap is large enough. *)

From stdpp Require Import sorting.
From S2P Require Import Prelude Bytes FrameKernel PageMutation Slotted SlottedInv.
#[local] Open Scope Z_scope.
Import SlottedHeader SlottedPage.

Section insert.
Context `{Build}.
Implicit Types (p : page) (es : list entry).

Lemma slots_nil p : num_slots p = 0 → slots p = [].
Proof. intros E. unfold slots. by rewrite E. Qed.

Lemma get_le_zeros n m off : get_le n (fill m x00) off = 0.
Proof.
  unfold get_le. assert (Hz : Forall (λ b, b = x00) (sub (fill m x00) off (Z.of_nat n))).
  { with_strategy transparent [sub] unfold sub, fill. apply Forall_take, Forall_drop.
    apply Forall_replicate. done. }
  induction Hz as [|b l -> Hz IH]; simpl; [done|]. rewrite IH. done.
Qed.

(** [init] yields an empty page, whatever the buffer held. *)
Lemma init_wf q : wf (init q) 0 [] ∧ data_offset (init q) = PAGE_SIZE.
Proof.
  pose proof PAGE_SIZE_bounds. unfold init.
  assert (Hl : zlen (fill PAGE_SIZE x00) = PAGE_SIZE) by (apply zlen_fill; lia).
  assert (Hd : data_offset (set_data_offset (fill PAGE_SIZE x00) PAGE_SIZE) = PAGE_SIZE).
  { hdr. apply wrap_small. simpl. lia. }
  assert (Hn : num_slots (set_data_offset (fill PAGE_SIZE x00) PAGE_SIZE) = 0).
  { hdr. apply get_le_zeros. }
  assert (Hu : space_used (set_data_offset (fill PAGE_SIZE x00) PAGE_SIZE) = 0).
  { hdr. apply get_le_zeros. }
  split; [|done]. constructor; rewrite ?Hn, ?Hu, ?Hd, ?slots_nil by done; try done; try lia.
  - plen.
  - offs. lia.
  - constructor.
Qed.

Lemma reserve_suffix_wf p n :
  wf p 0 [] → data_offset p = PAGE_SIZE → 0 ≤ n ≤ PAGE_SIZE - 24 →
  ∃ p', reserve_suffix p n = Ret p' ∧ wf p' n [] ∧ data_offset p' = PAGE_SIZE - n ∧
    flags p' = flags p.
Proof.
  intros Hwf Hd Hn. pose proof PAGE_SIZE_bounds. destruct Hwf as [Hl _ Hnum _ Hu _ _ _].
  rewrite zlen_nil in Hnum. simpl in Hu. unfold reserve_suffix.
  rewrite Hnum, debug_assert_true, bind_Ret by done. rewrite Hd, wrap_small by lia.
  rewrite usub_in_range, bind_Ret by lia.
  assert (Hu' : space_used (set_data_offset p (PAGE_SIZE - n)) = 0) by (hdr; exact Hu).
  rewrite Hu', uadd_in_range, bind_Ret by lia. eexists. split; [done|].
  set (p' := set_space_used _ _).
  assert (num_slots p' = 0) as Hn' by (unfold p'; hdr; exact Hnum).
  assert (space_used p' = n) as Hu2 by (unfold p'; hdr; apply wrap_small; simpl; lia).
  assert (data_offset p' = PAGE_SIZE - n) as Hd2 by (unfold p'; hdr; apply wrap_small; simpl; lia).
  split_and!; [|done|unfold p'; by hdr].
  constructor; rewrite ?Hn', ?Hu2, ?Hd2, ?slots_nil by done; try done; simpl; try lia.
  - unfold p'. plen.
  - offs. lia.
  - constructor.
Qed.

(** ** What [insert] writes when the gap is large enough *)

Definition new_slot (off : Z) (k v : list byte) : Slot.t := {|
  Slot.offset := wrap 16 off;
  Slot.key_len := wrap 16 (zlen k);
  Slot.val_len := wrap 16 (zlen v);
  Slot._pad := 0;
  Slot.head := make_head k;
|}.

Definition shifted p (i : nat) : page :=
  upd p (slot_off (Z.of_nat i + 1))
    (sub p (slot_off (Z.of_nat i)) ((num_slots p - Z.of_nat i) * SLOT_SIZE)).

Definition with_data p (off : Z) (k v : list byte) : page := upd (upd p off k) (off + zlen k) v.

Definition inserted p (i : nat) (k v : list byte) : page :=
  let off := data_offset p - esize (k, v) in
  set_space_used
    (set_data_offset
      (upd (set_num_slots (shifted (with_data p off k v) i) (num_slots p + 1))
         (slot_off (Z.of_nat i)) (Slot.encode (new_slot off k v)))
      off)
    (space_used p + esize (k, v)).

(** Room for one more entry in the gap. *)
Record room p R es (k v : list byte) : Prop := {
  room_wf : wf p R es;
  room_gap : 36 + 12 * zlen es + esize (k, v) ≤ data_offset p;
}.

Lemma make_head_range k : 0 ≤ make_head k < 2 ^ 32.
Proof.
  unfold make_head, of_be_bytes. set (b := upd _ _ _).
  pose proof (of_le_bytes_range (rev b)) as Hr. pose proof (zlen_nonneg k).
  assert (zlen (rev b) = 4) as Hl.
  { trans (zlen b); [unfold zlen; by rewrite length_rev|]. unfold b.
    assert (zlen (fill 4 x00) = 4) by done.
    rewrite zlen_upd; [done|lia|]. rewrite Z.add_0_l.
    pose proof (zlen_sub_le k 0 (zlen k `min` 4) ltac:(lia)). lia. }
  by rewrite Hl in Hr.
Qed.

Section room.
Context {p : page} {R : Z} {es : list entry} {k v : list byte}.
Context (Hroom : room p R es k v).

Lemma room_bounds :
  zlen p = PAGE_SIZE ∧ num_slots p = zlen es ∧ 0 ≤ R ∧ 4096 ≤ PAGE_SIZE ≤ 65536 ∧
  0 ≤ zlen k ∧ 0 ≤ zlen v ∧ 36 + 12 * zlen es + (zlen k + zlen v) ≤ data_offset p ∧
  data_offset p + R + heap_total es ≤ PAGE_SIZE ∧ 0 ≤ heap_total es ∧ 0 ≤ zlen es ∧
  space_used p = R + heap_total es.
Proof.
  destruct Hroom as [Hwf Hg]. pose proof (wf_bounds _ _ _ Hwf). destruct Hwf.
  pose proof PAGE_SIZE_bounds. pose proof (zlen_nonneg k). pose proof (zlen_nonneg v).
  pose proof (zlen_nonneg es). unfold esize in *. simpl in *. split_and!; try done; lia.
Qed.

Context (i : nat) (Hi : (i ≤ length es)%nat).

Lemma insert_id_le : Z.of_nat i ≤ zlen es.
Proof. unfold zlen. lia. Qed.

Lemma num_slots_with_data off :
  24 ≤ off → off + zlen k + zlen v ≤ PAGE_SIZE →
  zlen (with_data p off k v) = PAGE_SIZE ∧ num_slots (with_data p off k v) = num_slots p.
Proof.
  intros. destruct room_bounds as (? & ? & ? & ? & ? & ? & _). unfold with_data. split; [plen|by hdr].
Qed.

(** In the gap, [insert] computes [inserted]. *)
Lemma insert_room_eq :
  free_space p <? SLOT_SIZE + (zlen k + zlen v) = false →
  insert p (Z.of_nat i) k v = Ret (inserted p i k v).
Proof.
  intros Hfree. unfold insert. rewrite Hfree, bind_Ret. pose proof insert_id_le.
  destruct room_bounds as (Hl & Hn & HR & HP & Hk & Hv & Hg & Hd & Ht & Hes & Hu).
  unfold inserted, esize. simpl. set (off := data_offset p - (zlen k + zlen v)).
  rewrite usub_in_range, bind_Ret by lia. fold off.
  rewrite copy_from_Ret, bind_Ret by lia.
  rewrite copy_from_Ret, bind_Ret by (rewrite ?zlen_upd; lia).
  fold (with_data p off k v).
  destruct (num_slots_with_data off) as [Hl1 Hn1]; [lia..|]. rewrite Hn1, Hn.
  assert ((if Z.of_nat i <? zlen es then
             ptr_copy (with_data p off k v) (slot_off (Z.of_nat i)) (slot_off (Z.of_nat i + 1))
               ((zlen es - Z.of_nat i) * SLOT_SIZE)
           else Ret (with_data p off k v)) = Ret (shifted (with_data p off k v) i)) as ->.
  { unfold shifted. rewrite Hn1, Hn. destruct (Z.ltb_spec (Z.of_nat i) (zlen es)).
    - rewrite ptr_copy_Ret; [done|offs; lia..].
    - replace (zlen es - Z.of_nat i) with 0 by lia. rewrite sub_0, upd_nil; [done|offs; lia]. }
  rewrite bind_Ret, uadd_in_range, bind_Ret by lia.
  assert (Hl2 : zlen (shifted (with_data p off k v) i) = PAGE_SIZE).
  { unfold shifted. rewrite Hn1, Hn. plen. }
  unfold set_slot. rewrite debug_assert_true, bind_Ret.
  2:{ apply Z.ltb_lt. hdr. rewrite wrap_small by (simpl; lia). lia. }
  unfold write_slot. rewrite (proj2 (Z.leb_le _ _)) by (offs; lia). rewrite bind_Ret.
  fold (new_slot off k v). rewrite (wrap_small 32 off), (wrap_small 32 (zlen k + zlen v)) by lia.
  set (q := upd _ _ _).
  assert (zlen q = PAGE_SIZE) by (unfold q; plen).
  assert (space_used (set_data_offset q off) = space_used p) as ->.
  { unfold q, shifted. rewrite Hn1, Hn. unfold with_data. hdr. done. }
  rewrite uadd_in_range by lia. done.
Qed.

Lemma zlen_inserted : zlen (inserted p i k v) = PAGE_SIZE.
Proof.
  destruct room_bounds as (Hl & Hn & HR & HP & Hk & Hv & Hg & Hd & Ht & Hes & Hu).
  pose proof insert_id_le. unfold inserted, shifted, esize. simpl.
  destruct (num_slots_with_data (data_offset p - (zlen k + zlen v))) as [? ->]; [lia..|].
  rewrite Hn. plen.
Qed.

Lemma inserted_header :
  num_slots (inserted p i k v) = zlen es + 1 ∧
  data_offset (inserted p i k v) = data_offset p - esize (k, v) ∧
  space_used (inserted p i k v) = space_used p + esize (k, v) ∧
  flags (inserted p i k v) = flags p.
Proof.
  destruct room_bounds as (Hl & Hn & HR & HP & Hk & Hv & Hg & Hd & Ht & Hes & Hu).
  pose proof insert_id_le. unfold inserted, shifted, esize. simpl.
  destruct (num_slots_with_data (data_offset p - (zlen k + zlen v))) as [? ->]; [lia..|].
  rewrite Hn. set (d := data_offset p) in *. unfold with_data. set (u := space_used p) in *.
  split_and!; hdr; rewrite ?wrap_small by (simpl; lia); done.
Qed.

(** Bytes outside the header fields, the moved slots and the new data. *)
Lemma lookup_inserted (j : nat) :
  ¬ 8 ≤ Z.of_nat j < 18 →
  ¬ slot_off (Z.of_nat i) ≤ Z.of_nat j < slot_off (zlen es + 1) →
  ¬ data_offset p - esize (k, v) ≤ Z.of_nat j < data_offset p →
  inserted p i k v !! j = p !! j.
Proof.
  destruct room_bounds as (Hl & Hn & HR & HP & Hk & Hv & Hg & Hd & Ht & Hes & Hu).
  pose proof insert_id_le. unfold inserted, shifted, esize. simpl.
  destruct (num_slots_with_data (data_offset p - (zlen k + zlen v))) as [? ->]; [lia..|].
  rewrite Hn. intros. unfold set_space_used, set_data_offset, set_num_slots, set_le.
  unfold slot_off, HEADER_SIZE, SLOT_SIZE in *.
  repeat (rewrite lookup_upd by plen; rewrite decide_False by
    (rewrite ?zlen_le_bytes, ?zlen_encode, ?zlen_sub by plen; lia)).
  unfold with_data. repeat (rewrite lookup_upd by plen; rewrite decide_False by lia). done.
Qed.

(** Ranges of kept bytes. *)
Lemma sub_inserted off n :
  0 ≤ off → 0 ≤ n → off + n ≤ PAGE_SIZE →
  (off + n ≤ 8 ∨ 18 ≤ off) →
  (off + n ≤ slot_off (Z.of_nat i) ∨ slot_off (zlen es + 1) ≤ off) →
  (off + n ≤ data_offset p - esize (k, v) ∨ data_offset p ≤ off) →
  sub (inserted p i k v) off n = sub p off n.
Proof.
  intros. apply list_eq. intros j. destruct (decide (j < Z.to_nat n)%nat).
  - rewrite !lookup_sub by lia. apply lookup_inserted; lia.
  - by rewrite !lookup_sub_ge by lia.
Qed.

Lemma inserted_data :
  sub (inserted p i k v) (data_offset p - esize (k, v)) (esize (k, v)) = k ++ v.
Proof.
  destruct room_bounds as (Hl & Hn & HR & HP & Hk & Hv & Hg & Hd & Ht & Hes & Hu).
  pose proof insert_id_le. unfold inserted, shifted, esize. simpl.
  set (d := data_offset p) in *. set (off := d - (zlen k + zlen v)).
  destruct (num_slots_with_data off) as [? ->]; [lia..|].
  rewrite Hn. unfold set_space_used, set_data_offset, set_num_slots, set_le.
  repeat (rewrite (sub_upd_ne _ _ _ off)
    by (rewrite ?zlen_le_bytes, ?zlen_encode, ?zlen_sub by plen; first [plen | offs; lia])).
  unfold with_data. rewrite sub_split by lia.
  rewrite (sub_upd_eq _ (off + zlen k)) by plen.
  rewrite (sub_upd_ne _ (off + zlen k)) by plen. by rewrite sub_upd_eq by plen.
Qed.

(** The slot array: slots below [i] stay, slot [i] is new, the rest move up. *)
Lemma inserted_slot_bytes j :
  0 ≤ j ≤ zlen es →
  sub (inserted p i k v) (slot_off j) 12 =
    if decide (j < Z.of_nat i) then sub p (slot_off j) 12
    else if decide (j = Z.of_nat i)
    then Slot.encode (new_slot (data_offset p - esize (k, v)) k v)
    else sub p (slot_off (j - 1)) 12.
Proof.
  intros Hj. destruct room_bounds as (Hl & Hn & HR & HP & Hk & Hv & Hg & Hd & Ht & Hes & Hu).
  pose proof insert_id_le. destruct (decide (j < Z.of_nat i)).
  { apply sub_inserted; unfold esize; simpl; offs; lia. }
  unfold inserted, shifted, esize. simpl. set (d := data_offset p) in *.
  set (off := d - (zlen k + zlen v)).
  destruct (num_slots_with_data off) as [? ->]; [lia..|].
  rewrite Hn. unfold set_space_used, set_data_offset, set_num_slots, set_le.
  do 2 (rewrite (sub_upd_ne _ _ _ (slot_off j)) by (rewrite ?zlen_le_bytes; first [plen | offs; lia])).
  destruct (decide (j = Z.of_nat i)) as [->|].
  { rewrite sub_upd_eq; [done|offs; lia|plen|by rewrite zlen_encode]. }
  do 2 (rewrite (sub_upd_ne _ _ _ (slot_off j)) by
    (rewrite ?zlen_encode, ?zlen_le_bytes; first [plen | offs; lia])).
  assert (Hzs : zlen (sub (with_data p off k v) (slot_off (Z.of_nat i))
                   ((zlen es - Z.of_nat i) * SLOT_SIZE)) = (zlen es - Z.of_nat i) * SLOT_SIZE).
  { apply zlen_sub; offs; lia. }
  rewrite sub_upd_inside by (rewrite ?Hzs; offs; lia).
  rewrite sub_sub by (offs; lia).
  replace (_ + (slot_off j - _)) with (slot_off (j - 1)) by (offs; lia).
  unfold with_data. rewrite !sub_upd_ne by (first [plen | offs; lia]). done.
Qed.

Lemma new_slot_range off : slot_range (new_slot off k v).
Proof.
  constructor; cbn; try apply wrap_range; try lia. apply make_head_range.
Qed.

Lemma slots_inserted :
  slots (inserted p i k v) =
    take i (slots p) ++ new_slot (data_offset p - esize (k, v)) k v :: drop i (slots p).
Proof.
  destruct room_bounds as (Hl & Hn & _ & _ & _ & _ & _ & _ & _ & Hes & _).
  destruct inserted_header as (Hn' & _). pose proof insert_id_le.
  assert (Hlp : length (slots p) = Z.to_nat (zlen es)) by (by rewrite length_slots, Hn).
  assert (Hlt : length (take i (slots p)) = i) by (rewrite length_take; lia).
  apply list_eq_same_length with (n := Z.to_nat (zlen es + 1)).
  { rewrite length_app. simpl. rewrite length_drop. lia. }
  { by rewrite length_slots, Hn'. }
  intros j s t Hj Hs Ht. rewrite lookup_slots in Hs by lia. apply (inj Some) in Hs. subst s.
  pose proof (inserted_slot_bytes (Z.of_nat j) ltac:(lia)) as Hb. unfold slot_at.
  destruct (decide (Z.of_nat j < Z.of_nat i)).
  - rewrite lookup_app_l, lookup_take_lt, lookup_slots in Ht by lia. apply (inj Some) in Ht. subst t.
    apply decode_sub; [offs; lia..|done].
  - rewrite lookup_app_r in Ht by lia. rewrite Hlt in Ht. destruct (decide (Z.of_nat j = Z.of_nat i)).
    + replace (j - i)%nat with 0%nat in Ht by lia. apply (inj Some) in Ht. subst t.
      apply decode_encode; [offs; lia|apply new_slot_range|done].
    + replace (j - i)%nat with (S (j - 1 - i)) in Ht by lia. simpl in Ht.
      rewrite lookup_drop, lookup_slots in Ht by lia. apply (inj Some) in Ht. subst t.
      apply decode_sub; [offs; lia..|]. rewrite Hb. do 3 f_equal. lia.
Qed.

Lemma data_len_new_slot off : data_len (new_slot off k v) = esize (k, v).
Proof.
  destruct room_bounds as (Hl & Hn & HR & HP & Hk & Hv & Hg & Hd & Ht & Hes & Hu).
  unfold data_len, esize. simpl. rewrite !wrap_small by lia. done.
Qed.

(** Inserting into the gap refines inserting into the sequence. *)
Lemma inserted_wf : wf (inserted p i k v) R (take i es ++ (k, v) :: drop i es).
Proof.
  destruct room_bounds as (Hl & Hn & HR & HP & Hk & Hv & Hg & Hd & Ht & Hes & Hu).
  destruct inserted_header as (Hn' & Hd' & Hu' & _). destruct Hroom as [Hwf _].
  destruct Hwf as [_ _ _ _ _ _ Hss Hap]. pose proof insert_id_le.
  assert (Hsz : esize (k, v) = zlen k + zlen v) by done.
  constructor; rewrite ?slots_inserted, ?Hd', ?Hu'.
  - apply zlen_inserted.
  - done.
  - rewrite Hn', zlen_app, zlen_cons. unfold zlen. rewrite length_take, length_drop. lia.
  - offs. rewrite Hn'. lia.
  - rewrite Hu, heap_total_app. simpl. rewrite (heap_total_take_drop es i). lia.
  - lia.
  - assert (Hfr : Forall2 (placed (inserted p i k v) R (data_offset p - esize (k, v))) (slots p) es).
    { eapply Forall2_placed_frame; [exact Hss|lia|]. intros. apply sub_inserted; offs; lia. }
    apply Forall2_app; [by apply Forall2_take|]. constructor; [|by apply Forall2_drop].
    constructor; cbn [new_slot Slot.offset Slot.key_len Slot.val_len Slot.head fst snd].
    + apply wrap_small. lia.
    + apply wrap_small. lia.
    + done.
    + destruct (decide (esize (k, v) = 0)) as [E|E].
      * rewrite E. pose proof (Z.mod_pos_bound (data_offset p - 0) (2 ^ 16) ltac:(lia)).
        pose proof (Z.mod_le (data_offset p - 0) (2 ^ 16) ltac:(lia) ltac:(lia)). unfold wrap. lia.
      * rewrite wrap_small by lia. lia.
    + destruct (decide (esize (k, v) = 0)); [by left|right]. rewrite wrap_small by lia. lia.
    + destruct (decide (esize (k, v) = 0)) as [E|E].
      * rewrite E, sub_0. rewrite Hsz in E. symmetry. apply app_nil.
        split; apply zlen_0_nil; lia.
      * rewrite wrap_small by lia. apply inserted_data.
  - assert (Hnew : Forall (apart (new_slot (data_offset p - esize (k, v)) k v)) (slots p)).
    { rewrite Forall_lookup. intros j s Hs.
      destruct (Forall2_lookup_l _ _ _ _ _ Hss Hs) as (e & _ & He).
      unfold apart. rewrite data_len_new_slot, (placed_size _ _ _ _ _ He).
      destruct (decide (esize (k, v) = 0)); [tauto|]. destruct He as [_ _ _ _ [?|?] _]; [tauto|].
      cbn [new_slot Slot.offset]. rewrite wrap_small by lia. lia. }
    rewrite <-(take_drop i (slots p)) in Hap, Hnew. apply StronglySorted_app in Hap as (Hx & H1 & H2).
    apply Forall_app in Hnew as [Hn1 Hn2].
    apply StronglySorted_app. split_and!; [|done|by constructor].
    intros x y Hxin [->|Hy]%elem_of_cons; [|by apply Hx].
    symmetry. rewrite Forall_forall in Hn1. by apply Hn1.
Qed.

Lemma inserted_frame : frame_kept R p (inserted p i k v).
Proof.
  destruct room_bounds as (Hl & Hn & HR & HP & Hk & Hv & Hg & Hd & Ht & Hes & Hu).
  pose proof insert_id_le. assert (esize (k, v) = zlen k + zlen v) by done.
  unfold frame_kept. rewrite !sub_inserted; [done|..]; offs; lia.
Qed.

End room.
End insert.

(** * Slotted page: compaction

    [compactify] rewrites the live data contiguously below the reserved
    suffix and keeps the entry sequence. *)

#[local] Open Scope Z_scope.
Import SlottedHeader SlottedPage.

(** Where the entries go when they are laid out downwards from [top]. *)
Fixpoint compact_offs (top : Z) (es : list entry) : list Z :=
  match es with
  | [] => []
  | e :: es => (top - esize e) :: compact_offs (top - esize e) es
  end.

(** The slot indices and data lengths of [es], the first at index [i]. *)
Fixpoint indexed_lens (i : Z) (es : list entry) : list (Z * Z) :=
  match es with
  | [] => []
  | e :: es => (i, esize e) :: indexed_lens (i + 1) es
  end.

Definition with_offset (s : Slot.t) (o : Z) : Slot.t := {|
  Slot.offset := wrap 16 o;
  Slot.key_len := Slot.key_len s;
  Slot.val_len := Slot.val_len s;
  Slot._pad := Slot._pad s;
  Slot.head := Slot.head s;
|}.

(** Entry [e] has its bytes at [o] of [q]. *)
Definition holds (q : page) (o : Z) (e : entry) : Prop := sub q o (esize e) = e.1 ++ e.2.

Lemma seqZ_zlen_cons {A} i (x : A) l : seqZ i (zlen (x :: l)) = i :: seqZ (i + 1) (zlen l).
Proof.
  rewrite zlen_cons. pose proof (zlen_nonneg l). rewrite seqZ_cons by lia. do 2 f_equal; lia.
Qed.

Lemma compact_offs_bounds top es :
  Forall2 (λ o e, top - heap_total es ≤ o ∧ o + esize e ≤ top) (compact_offs top es) es.
Proof.
  revert top. induction es as [|e es IH]; intros top; simpl; constructor.
  - pose proof (heap_total_nonneg es). lia.
  - pose proof (esize_nonneg e). eapply Forall2_impl; [apply IH|]. simpl. intros o e' ?. lia.
Qed.

Lemma length_compact_offs top es : length (compact_offs top es) = length es.
Proof. revert top. induction es; intros; simpl; auto. Qed.

Lemma holds_kept q q' top bound os es :
  Forall2 (holds q) os es → Forall2 (λ o e, bound ≤ o ∧ o + esize e ≤ top) os es →
  (∀ o n, bound ≤ o → 0 ≤ n → o + n ≤ top → sub q' o n = sub q o n) →
  Forall2 (holds q') os es.
Proof.
  intros Hh Hb Hk. induction Hh as [|o e os es Ho Hh IH]; [constructor|].
  apply Forall2_cons in Hb as [? Hb]. constructor; [|by apply IH].
  unfold holds. rewrite Hk; [done|lia|apply esize_nonneg|lia].
Qed.

Section compact.
Context `{Build} {p : page} {R : Z} {es : list entry}.
Context (Hwf : wf p R es).

Lemma compact_bounds :
  zlen p = PAGE_SIZE ∧ num_slots p = zlen es ∧ 0 ≤ R ∧ 4096 ≤ PAGE_SIZE ≤ 65536 ∧
  24 + 12 * zlen es ≤ data_offset p ∧ data_offset p + R + heap_total es ≤ PAGE_SIZE ∧
  0 ≤ heap_total es ∧ 0 ≤ zlen es ∧ space_used p = R + heap_total es.
Proof.
  pose proof (wf_bounds _ _ _ Hwf). destruct Hwf. pose proof PAGE_SIZE_bounds.
  pose proof (zlen_nonneg es). split_and!; try done; lia.
Qed.

(** The slot at the position of [e] in [es = es1 ++ e :: es2]. *)
Lemma split_slot es1 e es2 :
  es = es1 ++ e :: es2 →
  placed p R (data_offset p) (slot_at p (zlen es1)) e ∧
  slot p (wrap 16 (zlen es1)) = Ret (slot_at p (zlen es1)).
Proof.
  intros E. destruct compact_bounds as (? & ? & ? & ? & ? & ? & ? & ? & _).
  assert (zlen es1 < zlen es).
  { rewrite E, zlen_app, zlen_cons. pose proof (zlen_nonneg es2). lia. }
  pose proof (zlen_nonneg es1). rewrite wrap_small by lia.
  apply (wf_slot p R es (length es1)); [done|]. rewrite E. by apply list_lookup_middle.
Qed.

Lemma split_total es1 e es2 :
  es = es1 ++ e :: es2 →
  0 ≤ heap_total es1 ∧ 0 ≤ esize e ∧ 0 ≤ heap_total es2 ∧
  heap_total es = heap_total es1 + esize e + heap_total es2.
Proof.
  intros ->. rewrite heap_total_app. simpl. pose proof (heap_total_nonneg es1).
  pose proof (heap_total_nonneg es2). pose proof (esize_nonneg e). lia.
Qed.

Lemma compactify_scan_total es1 es2 acc :
  es = es1 ++ es2 →
  compactify_scan p (seqZ (zlen es1) (zlen es2)) acc = Ret (acc + heap_total es2).
Proof.
  revert es1 acc. induction es2 as [|e es2 IH]; intros es1 acc E.
  { rewrite zlen_nil. simpl. f_equal. lia. }
  rewrite seqZ_zlen_cons. cbn [compactify_scan].
  destruct (split_slot _ _ _ E) as [Hp ->]. rewrite bind_Ret.
  pose proof (placed_size _ _ _ _ _ Hp) as Hs. unfold data_len in Hs. rewrite Hs.
  destruct Hp as [_ _ _ ? _ _]. rewrite assert_true, bind_Ret by (apply Z.leb_le; lia).
  replace (zlen es1 + 1) with (zlen (es1 ++ [e])) by (by rewrite zlen_app).
  rewrite IH by (by rewrite <-app_assoc). simpl. f_equal. lia.
Qed.

Lemma compactify_lens_eq es1 es2 :
  es = es1 ++ es2 →
  compactify_lens p (seqZ (zlen es1) (zlen es2)) = Ret (indexed_lens (zlen es1) es2).
Proof.
  destruct compact_bounds as (? & ? & ? & ? & ? & ? & ? & ? & _).
  revert es1. induction es2 as [|e es2 IH]; intros es1 E; [done|].
  rewrite seqZ_zlen_cons. cbn [compactify_lens indexed_lens].
  destruct (split_slot _ _ _ E) as [Hp ->]. rewrite bind_Ret.
  pose proof (placed_size _ _ _ _ _ Hp) as Hs. unfold data_len in Hs.
  pose proof (split_total _ _ _ E). rewrite uadd_in_range by lia. rewrite bind_Ret, Hs.
  replace (zlen es1 + 1) with (zlen (es1 ++ [e])) by (by rewrite zlen_app).
  by rewrite IH by (by rewrite <-app_assoc).
Qed.

Lemma compactify_gather_spec es1 es2 tmp top :
  es = es1 ++ es2 → zlen tmp = PAGE_SIZE → heap_total es2 ≤ top ≤ PAGE_SIZE →
  ∃ tmp', compactify_gather p (seqZ (zlen es1) (zlen es2)) tmp top = Ret tmp' ∧
    zlen tmp' = PAGE_SIZE ∧
    (∀ o n, top ≤ o → 0 ≤ n → sub tmp' o n = sub tmp o n) ∧
    Forall2 (holds tmp') (compact_offs top es2) es2.
Proof.
  destruct compact_bounds as (Hl & ? & ? & ? & ? & ? & ? & ? & _).
  revert es1 tmp top. induction es2 as [|e es2 IH]; intros es1 tmp top E Ht Htop.
  { exists tmp. split_and!; done. }
  rewrite seqZ_zlen_cons. cbn [compactify_gather compact_offs].
  destruct (split_slot _ _ _ E) as [Hp ->]. rewrite bind_Ret.
  pose proof (placed_size _ _ _ _ _ Hp) as Hs. unfold data_len in Hs. rewrite Hs.
  pose proof (split_total _ _ _ E). simpl in Htop. destruct Hp as [_ _ _ ? _ Hd].
  rewrite usub_in_range, bind_Ret by lia. rewrite slice_Ret, bind_Ret by lia.
  rewrite uadd_in_range, bind_Ret by lia.
  replace (Slot.offset _ + esize e - _) with (esize e) by lia. rewrite Hd.
  assert (Hze : zlen (e.1 ++ e.2) = esize e) by (by rewrite zlen_app).
  rewrite copy_from_Ret, bind_Ret by lia.
  replace (zlen es1 + 1) with (zlen (es1 ++ [e])) by (by rewrite zlen_app).
  destruct (IH (es1 ++ [e]) (upd tmp (top - esize e) (e.1 ++ e.2)) (top - esize e)) as
    (tmp' & -> & Hl' & Hk & Hh).
  { by rewrite <-app_assoc. }
  { rewrite zlen_upd; lia. }
  { lia. }
  exists tmp'. split_and!; [done|done| |].
  - intros o n ? ?. rewrite Hk, sub_upd_ne by lia. done.
  - constructor; [|done]. unfold holds. rewrite Hk by lia. apply sub_upd_eq; lia.
Qed.

(** Pointing one slot of [q] elsewhere. *)
Lemma decode_set_offset q i o j :
  zlen q = PAGE_SIZE → 0 ≤ i → 0 ≤ j → slot_off i + 12 ≤ PAGE_SIZE → slot_off j + 12 ≤ PAGE_SIZE →
  Slot.decode (set_le 2 q (slot_off i) (wrap 16 o)) (slot_off j) =
    if decide (j = i) then with_offset (Slot.decode q (slot_off j)) o
    else Slot.decode q (slot_off j).
Proof.
  intros. case_decide as E.
  - subst j. unfold Slot.decode, with_offset. cbn. rewrite get_set_le_eq by (offs; lia).
    rewrite !get_set_le_ne by (offs; lia). f_equal.
    apply wrap_small, wrap_range. lia.
  - apply decode_sub; [offs; lia..|]. apply sub_set_le_ne; offs; lia.
Qed.

(** What the write-back loop yields from [q], for the entries [es2] whose
    slots start at index [i]. *)
Record written (q : page) (i : Z) (es2 : list entry) (top : Z) (q' : page) : Prop := {
  written_len : zlen q' = PAGE_SIZE;
  written_header : sub q' 0 24 = sub q 0 24;
  written_low : ∀ j, 0 ≤ j < i → slot_at q' j = slot_at q j;
  written_slots : ∀ (j : nat) o, compact_offs top es2 !! j = Some o →
    slot_at q' (i + Z.of_nat j) = with_offset (slot_at q (i + Z.of_nat j)) o;
  written_above : ∀ o n, top ≤ o → 0 ≤ n → sub q' o n = sub q o n;
  written_gap : ∀ o n, slot_off (i + zlen es2) ≤ o → 0 ≤ n → o + n ≤ top - heap_total es2 →
    sub q' o n = sub q o n;
  written_data : Forall2 (holds q') (compact_offs top es2) es2;
}.

Lemma header_field q q' n o :
  sub q' 0 24 = sub q 0 24 → 0 ≤ o → o + Z.of_nat n ≤ 24 → get_le n q' o = get_le n q o.
Proof.
  intros E ? ?. rewrite <-(Z.add_0_l o), <-(get_le_sub n q' 0 24), <-(get_le_sub n q 0 24) by lia.
  by rewrite E.
Qed.

Lemma header_range (q q' : page) o n :
  sub q' 0 24 = sub q 0 24 → 0 ≤ o → 0 ≤ n → o + n ≤ 24 → sub q' o n = sub q o n.
Proof.
  intros E ? ? ?. rewrite <-(Z.add_0_l o), <-(sub_sub q' 0 24), <-(sub_sub q 0 24) by lia. by rewrite E.
Qed.

Lemma num_slots_header q q' : sub q' 0 24 = sub q 0 24 → num_slots q' = num_slots q.
Proof. intros E. apply (header_field _ _ 2 16 E); lia. Qed.

Lemma compactify_write_spec tmp i es2 q top :
  zlen tmp = PAGE_SIZE → Forall2 (holds tmp) (compact_offs top es2) es2 →
  zlen q = PAGE_SIZE → num_slots q = i + zlen es2 → 0 ≤ i →
  slot_off (i + zlen es2) + heap_total es2 ≤ top ≤ PAGE_SIZE →
  ∃ q', compactify_write q (indexed_lens i es2) tmp top = Ret (q', top - heap_total es2) ∧
    written q i es2 top q'.
Proof.
  intros Htmp. pose proof (PAGE_SIZE_bounds). revert i q top.
  induction es2 as [|e es2 IH]; intros i q top Hh Hq Hn Hi Htop.
  { exists q. simpl. rewrite Z.sub_0_r. split; [done|]. constructor; try done. }
  cbn [compactify_write indexed_lens compact_offs heap_total] in *.
  apply Forall2_cons in Hh as [He Hh]. pose proof (esize_nonneg e). pose proof (heap_total_nonneg es2).
  pose proof (zlen_nonneg es2). rewrite zlen_cons in *.
  pose proof (num_slots_range q) as Hnr.
  rewrite usub_in_range, bind_Ret by (offs; lia). rewrite uadd_in_range, bind_Ret by (offs; lia).
  rewrite slice_Ret, bind_Ret by (offs; lia).
  replace (top - esize e + esize e - (top - esize e)) with (esize e) by lia.
  unfold holds in He. rewrite He. assert (Hze : zlen (e.1 ++ e.2) = esize e) by (by rewrite zlen_app).
  rewrite copy_from_Ret, bind_Ret by (offs; lia). rewrite (wrap_small 16 i) by lia.
  set (q1 := upd q (top - esize e) (e.1 ++ e.2)).
  assert (Hq1 : zlen q1 = PAGE_SIZE) by (unfold q1; rewrite zlen_upd; offs; lia).
  assert (Hn1 : num_slots q1 = num_slots q).
  { apply num_slots_header. unfold q1. apply sub_upd_ne; offs; lia. }
  unfold set_slot_offset. rewrite debug_assert_true, bind_Ret by (apply Z.ltb_lt; lia).
  rewrite (proj2 (Z.leb_le _ _)), bind_Ret by (offs; lia).
  set (q2 := set_le 2 q1 (slot_off i) (wrap 16 (top - esize e))).
  assert (Hq2 : zlen q2 = PAGE_SIZE) by (unfold q2; rewrite zlen_set_le; offs; lia).
  assert (Hh2 : sub q2 0 24 = sub q 0 24).
  { unfold q2. rewrite sub_set_le_ne by (offs; lia). unfold q1. apply sub_upd_ne; offs; lia. }
  assert (Hdec : ∀ j, 0 ≤ j < i + 1 + zlen es2 → slot_at q2 j =
                   if decide (j = i) then with_offset (slot_at q j) (top - esize e) else slot_at q j).
  { intros j Hj. unfold slot_at, q2. rewrite decode_set_offset by (offs; lia).
    assert (Slot.decode q1 (slot_off j) = Slot.decode q (slot_off j)) as ->; [|done].
    apply decode_sub; [offs; lia..|]. unfold q1. apply sub_upd_ne; offs; lia. }
  destruct (IH (i + 1) q2 (top - esize e)) as (q' & -> & [Wl Wh Wlow Ws Wa Wg Wd]); try done.
  { rewrite (num_slots_header q q2 Hh2). lia. }
  { lia. }
  { offs. lia. }
  exists q'. split; [do 2 f_equal; lia|]. constructor.
  - done.
  - by rewrite Wh.
  - intros j Hj. rewrite Wlow by lia. rewrite Hdec by lia. by rewrite decide_False by lia.
  - intros [|j] o Hj; simplify_eq/=.
    + rewrite Z.add_0_r, Wlow, Hdec by lia. by rewrite decide_True by done.
    + replace (i + Z.of_nat (S j)) with (i + 1 + Z.of_nat j) by lia.
      assert (j < length es2)%nat.
      { rewrite <-(length_compact_offs (top - esize e)). by eapply lookup_lt_Some. }
      rewrite (Ws j o Hj), Hdec by (unfold zlen; lia). by rewrite decide_False by lia.
  - intros o n ? ?. rewrite Wa by lia. unfold q2.
    rewrite sub_set_le_ne by (offs; lia). unfold q1. by rewrite sub_upd_ne by (offs; lia).
  - intros o n Ho ? Hn'. rewrite zlen_cons in Ho. cbn [heap_total] in Hn'. rewrite Wg by (offs; lia). unfold q2.
    rewrite sub_set_le_ne by (offs; lia). unfold q1. by rewrite sub_upd_ne by (offs; lia).
  - constructor; [|done]. unfold holds. rewrite Wa by lia. unfold q2.
    rewrite sub_set_le_ne by (offs; lia). unfold q1. apply sub_upd_eq; offs; lia.
Qed.

(** ** The whole of [compactify] *)

Definition finished (q : page) : page :=
  clear_garbage (set_data_offset q (PAGE_SIZE - R - heap_total es)).

Lemma compactify_eq :
  ∃ q, compactify p = Ret (finished q) ∧ written p 0 es (PAGE_SIZE - R) q.
Proof.
  destruct compact_bounds as (Hl & Hn & HR & HP & Ha & Hd & Ht & Hes & Hu).
  unfold compactify, finished. rewrite Hn, Hu. destruct (Z.eqb_spec (zlen es) 0) as [E|E].
  { apply zlen_0_nil in E. rewrite E in *. simpl in *. exists p.
    rewrite usub_in_range, bind_Ret by lia. rewrite wrap_small by lia. split; [do 3 f_equal; lia|].
    constructor; try done. }
  rewrite (compactify_scan_total [] es), bind_Ret by done.
  rewrite usub_in_range, bind_Ret by lia.
  replace (R + heap_total es - (0 + heap_total es)) with R by lia.
  rewrite usub_in_range, bind_Ret by lia.
  assert (Hz : zlen (fill PAGE_SIZE x00) = PAGE_SIZE) by (apply zlen_fill; lia).
  destruct (compactify_gather_spec [] es (fill PAGE_SIZE x00) (PAGE_SIZE - R)) as
    (tmp & Hg & Htl & _ & Hh); [done|done|lia|].
  replace (Z.min (zlen es) data_lens_cap) with (zlen es).
  2:{ unfold data_lens_cap. offs. assert (zlen es ≤ (PAGE_SIZE - 24) / 12); [|lia].
      apply Z.div_le_lower_bound; lia. }
  change 0 with (zlen (@nil entry)) at 1 2. rewrite Hg, bind_Ret.
  rewrite (compactify_lens_eq [] es), bind_Ret by done. change (zlen []) with 0.
  destruct (compactify_write_spec tmp 0 es p (PAGE_SIZE - R)) as (q & -> & Hw); try done.
  { offs. lia. }
  exists q. rewrite bind_Ret. cbn [fst snd]. rewrite wrap_small by lia. by split.
Qed.

Context {q : page} (Hw : written p 0 es (PAGE_SIZE - R) q).

Lemma zlen_finished : zlen (finished q) = PAGE_SIZE.
Proof. destruct Hw. pose proof PAGE_SIZE_bounds. unfold finished, clear_garbage. plen. Qed.

Lemma sub_finished o n :
  0 ≤ o → 0 ≤ n → o + n ≤ PAGE_SIZE → (o + n ≤ 8 ∨ 12 ≤ o) → (o + n ≤ 18 ∨ 20 ≤ o) →
  sub (finished q) o n = sub q o n.
Proof.
  intros. destruct Hw. pose proof PAGE_SIZE_bounds.
  unfold finished, clear_garbage, set_flags, set_data_offset.
  rewrite sub_set_le_ne by plen. by rewrite sub_set_le_ne by plen.
Qed.

Lemma land_clear_range f : 0 ≤ f < 2 ^ 16 → 0 ≤ Z.land f (unot 16 FLAG_HAS_GARBAGE) < 2 ^ 16.
Proof.
  intros Hf. assert (0 ≤ Z.land f (unot 16 FLAG_HAS_GARBAGE)) by (apply Z.land_nonneg; lia).
  split; [done|]. apply bits_range; [lia|done|]. intros i ?.
  rewrite Z.land_spec, (testbit_above 16 f) by lia. done.
Qed.

Lemma finished_header :
  num_slots (finished q) = zlen es ∧ space_used (finished q) = space_used p ∧
  data_offset (finished q) = PAGE_SIZE - R - heap_total es ∧
  flags (finished q) = Z.land (flags p) (unot 16 FLAG_HAS_GARBAGE).
Proof.
  destruct compact_bounds as (Hl & Hn & HR & HP & Ha & Hd & Ht & Hes & Hu).
  destruct Hw as [Hql Hqh _ _ _ _ _]. unfold finished, clear_garbage.
  split_and!; hdr.
  - rewrite <-Hn. by apply num_slots_header.
  - apply (header_field _ _ 4 12 Hqh); lia.
  - apply wrap_small. simpl. lia.
  - rewrite (header_field _ _ 2 18 Hqh) by lia. apply wrap_small.
    apply land_clear_range, (get_le_range 2).
Qed.

Lemma finished_slots : slots (finished q) = zip_with with_offset (slots p) (compact_offs (PAGE_SIZE - R) es).
Proof.
  destruct compact_bounds as (Hl & Hn & HR & HP & Ha & Hd & Ht & Hes & Hu).
  destruct finished_header as (Hn' & _).
  apply list_eq_same_length with (n := length es).
  { rewrite length_zip_with, length_slots, length_compact_offs, Hn. unfold zlen. lia. }
  { rewrite length_slots, Hn'. unfold zlen. lia. }
  intros j s t Hj Hs Htt. unfold zlen in Hn, Hn', Ha.
  rewrite lookup_slots in Hs by lia. apply (inj Some) in Hs. subst s.
  apply lookup_zip_with_Some in Htt as (s0 & o & -> & Hs0 & Ho).
  rewrite lookup_slots in Hs0 by lia. apply (inj Some) in Hs0. subst s0.
  pose proof (written_slots _ _ _ _ _ Hw j o Ho) as E. rewrite !Z.add_0_l in E. rewrite <-E.
  unfold slot_at. apply decode_sub; [offs; lia..|]. apply sub_finished; offs; lia.
Qed.

Lemma finished_placed :
  Forall2 (placed (finished q) R (PAGE_SIZE - R - heap_total es)) (slots (finished q)) es.
Proof.
  destruct compact_bounds as (Hl & Hn & HR & HP & Ha & Hd & Ht & Hes & Hu).
  rewrite finished_slots. pose proof (wf_slots _ _ _ Hwf) as Hss.
  pose proof (written_data _ _ _ _ _ Hw) as Hdat.
  pose proof (compact_offs_bounds (PAGE_SIZE - R) es) as Hb.
  assert (Hdat' : Forall2 (holds (finished q)) (compact_offs (PAGE_SIZE - R) es) es).
  { eapply holds_kept; [exact Hdat|exact Hb|]. intros. apply sub_finished; lia. }
  set (os := compact_offs _ _) in *.
  assert (G : Forall2 (λ o e, holds (finished q) o e ∧ PAGE_SIZE - R - heap_total es ≤ o ∧
                                o + esize e ≤ PAGE_SIZE - R) os es).
  { apply Forall2_same_length_lookup_2; [by eapply Forall2_length|].
    intros i o e Ho He. split.
    - apply (Forall2_lookup_lr _ _ _ _ _ _ Hdat' Ho He).
    - pose proof (Forall2_lookup_lr _ _ _ _ _ _ Hb Ho He). simpl in *. lia. }
  assert (Hd0 : 0 ≤ PAGE_SIZE - R - heap_total es) by lia.
  set (d := PAGE_SIZE - R - heap_total es) in *. set (f := finished q) in *.
  clearbody os d f. clear - Hss G Hd0 HP HR. revert os G.
  induction Hss as [|s e ss es' Hp Hss IH]; intros os G; [apply Forall2_nil_inv_r in G as ->; constructor|].
  apply Forall2_cons_inv_r in G as (o & os' & [Hh [Hlo Hhi]] & G & ->). simpl.
  constructor; [|by apply IH]. destruct Hp as [Hk Hv Hhd Hpg Hhp _]. pose proof (esize_nonneg e).
  constructor; try done; cbn [with_offset Slot.offset].
  - destruct (decide (o = 65536)) as [->|].
    + change (wrap 16 65536) with 0. lia.
    + rewrite wrap_small by lia. lia.
  - destruct (decide (esize e = 0)); [by left|right]. rewrite wrap_small by lia. lia.
  - destruct (decide (esize e = 0)) as [E|].
    + unfold holds in Hh. rewrite E, sub_0 in *. done.
    + rewrite wrap_small by lia. done.
Qed.

(** Laid out downwards, no two extents overlap. *)
Lemma compact_offs_apart ss es' top d :
  Forall2 (placed p R d) ss es' → 0 ≤ top - heap_total es' → top ≤ PAGE_SIZE →
  StronglySorted apart (zip_with with_offset ss (compact_offs top es')).
Proof.
  intros Hss. pose proof PAGE_SIZE_bounds. revert top.
  induction Hss as [|s e ss es' Hp Hss IH]; intros top Hlo Hhi; [constructor|].
  pose proof (esize_nonneg e). pose proof (heap_total_nonneg es'). simpl in *.
  constructor; [apply IH; lia|].
  assert (Hsz : ∀ o, data_len (with_offset s o) = esize e) by (intros o; exact (placed_size _ _ _ _ _ Hp)).
  pose proof (compact_offs_bounds (top - esize e) es') as Hb.
  apply Forall_lookup. intros j t Hj. apply lookup_zip_with_Some in Hj as (s' & o & -> & Hs' & Ho).
  destruct (Forall2_lookup_l _ _ _ _ _ Hb Ho) as (e' & He' & Hb1 & Hb2).
  pose proof (Forall2_lookup_lr _ _ _ _ _ _ Hss Hs' He') as Hp'.
  pose proof (placed_size _ _ _ _ _ Hp') as Hs2. unfold apart. rewrite Hsz.
  change (data_len (with_offset s' o)) with (data_len s'). rewrite Hs2.
  destruct (decide (esize e = 0)); [tauto|]. destruct (decide (esize e' = 0)); [tauto|].
  pose proof (esize_nonneg e'). cbn [with_offset Slot.offset]. rewrite !wrap_small by lia. lia.
Qed.

Lemma finished_wf : wf (finished q) R es.
Proof.
  destruct compact_bounds as (Hl & Hn & HR & HP & Ha & Hd & Ht & Hes & Hu).
  destruct finished_header as (Hn' & Hu' & Hd' & _).
  constructor; rewrite ?Hn', ?Hu', ?Hd'; try done.
  - apply zlen_finished.
  - offs. rewrite Hn'. lia.
  - lia.
  - apply finished_placed.
  - rewrite finished_slots. eapply compact_offs_apart; [apply Hwf|lia..].
Qed.

End compact.

(** The effect of [compactify]. *)
Record compacted `{Build} (p : page) (R : Z) (es : list entry) (p' : page) : Prop := {
  compacted_wf : wf p' R es;
  compacted_offset : data_offset p' = PAGE_SIZE - R - heap_total es;
  compacted_frame : frame_kept R p p';
  compacted_flags : flags_kept p p';
  compacted_garbage : has_garbage p' = false;
  compacted_gap : ∀ o n, slot_array_end p ≤ o → 0 ≤ n → o + n ≤ data_offset p' →
    sub p' o n = sub p o n;
}.

Lemma land_clear_bit f i :
  0 ≤ f < 2 ^ 16 → 0 ≤ i →
  Z.testbit (Z.land f (unot 16 FLAG_HAS_GARBAGE)) i = if decide (i = 0) then false else Z.testbit f i.
Proof.
  intros Hf Hi. unfold FLAG_HAS_GARBAGE. rewrite Z.land_spec, testbit_unot by lia.
  case_decide as E; [subst; by rewrite andb_false_r|].
  assert (Z.testbit 1 i = false) as -> by (apply (testbit_above 1); lia).
  destruct (Z.ltb_spec i 16); [by rewrite andb_true_r|].
  by rewrite (testbit_above 16 f) by lia.
Qed.

Lemma compactify_spec `{Build} p R es :
  wf p R es → ∃ p', compactify p = Ret p' ∧ compacted p R es p'.
Proof.
  intros Hwf. destruct (compactify_eq Hwf) as (q & E & Hw). exists (finished (R := R) (es := es) q).
  split; [done|]. destruct (finished_header Hwf Hw) as (Hn & Hu & Hd & Hf).
  destruct (compact_bounds Hwf) as (Hl & Hnp & HR & HP & Ha & Hdp & Ht & Hes & Hup).
  destruct Hw as [Hql Hqh Hlo Hsl Hab Hgap Hda] eqn:EW. pose proof (flags_range p) as Hfr.
  constructor.
  - by apply (finished_wf Hwf Hw).
  - done.
  - unfold frame_kept. rewrite !(sub_finished Hw) by lia.
    rewrite !(header_range _ _ _ _ Hqh) by lia. by rewrite Hab by lia.
  - intros i Hi. rewrite Hf, land_clear_bit by lia. by rewrite decide_False by lia.
  - unfold has_garbage. rewrite Hf. apply negb_false_iff, Z.eqb_eq. apply Z.bits_inj'. intros i ?.
    rewrite Z.land_spec, Z.bits_0, land_clear_bit by lia. case_decide; [done|]. unfold FLAG_HAS_GARBAGE.
    by rewrite (testbit_above 1 1), andb_false_r by lia.
  - intros o n Ho Hno Hon. rewrite Hd in Hon. offs. rewrite Hnp in Ho. rewrite (sub_finished Hw) by lia.
    apply Hgap; offs; lia.
Qed.

(** * Slotted page: the mutating operations refine sequence operations

    Every mutating method of [SlottedPage], applied to bytes that represent a
    sequence of entries, yields bytes that represent the updated sequence. *)

#[local] Open Scope Z_scope.
Import SlottedHeader SlottedPage.

(** There is room for the entry once the page is compact. *)
Definition fits `{Build} (R : Z) (es : list entry) (k v : list byte) : Prop :=
  36 + 12 * zlen es + R + heap_total es + (zlen k + zlen v) ≤ PAGE_SIZE.

#[global] Instance fits_dec `{Build} R es k v : Decision (fits R es k v).
Proof. unfold fits. apply _. Defined.

(** The sequence with [e] at position [i]. *)
Definition insert_at {A} (i : nat) (e : A) (es : list A) : list A := take i es ++ e :: drop i es.

Section ops.
Context `{Build}.
Implicit Types (p : page) (es : list entry).

(** ** Insertion *)

Lemma free_space_wf p R es :
  wf p R es → free_space p = data_offset p - (24 + 12 * zlen es).
Proof.
  intros Hwf. pose proof (wf_bounds _ _ _ Hwf). destruct Hwf as [_ _ Hn _ _ _ _ _].
  unfold free_space, saturating_sub. offs. rewrite Hn. lia.
Qed.

Lemma free_space_after_compaction_wf p R es :
  wf p R es → free_space_after_compaction p = PAGE_SIZE - (24 + 12 * zlen es + R + heap_total es).
Proof.
  intros Hwf. pose proof (wf_bounds _ _ _ Hwf). destruct Hwf as [_ _ Hn _ Hu _ _ _].
  unfold free_space_after_compaction, saturating_sub. offs. rewrite Hn, Hu. lia.
Qed.

Lemma can_insert_wf p R es k v :
  wf p R es → can_insert p (zlen k) (zlen v) = true ↔ fits R es k v.
Proof.
  intros Hwf. pose proof (wf_bounds _ _ _ Hwf). unfold can_insert, fits.
  rewrite (free_space_wf _ _ _ Hwf), (free_space_after_compaction_wf _ _ _ Hwf).
  rewrite orb_true_iff, !Z.leb_le. offs. lia.
Qed.

(** Compacting first gives the same insertion. *)
Lemma insert_after_compaction p p1 i k v :
  free_space p <? SLOT_SIZE + (zlen k + zlen v) = true →
  SLOT_SIZE + (zlen k + zlen v) ≤ free_space_after_compaction p →
  compactify p = Ret p1 →
  free_space p1 <? SLOT_SIZE + (zlen k + zlen v) = false →
  insert p i k v = insert p1 i k v.
Proof.
  intros Hf Ha Hc Hf1. unfold insert. rewrite Hf, Hf1.
  rewrite assert_true, bind_Ret by (by apply Z.leb_le). by rewrite Hc.
Qed.

(** The page [insert] writes into: compacted when the gap is too small. *)
Definition base_page p p1 R es (need : Z) : Prop :=
  if free_space p <? need then compacted p R es p1 else p1 = p.

Lemma insert_base p R es k v (i : nat) :
  wf p R es → (i ≤ length es)%nat → fits R es k v →
  ∃ p1, base_page p p1 R es (SLOT_SIZE + (zlen k + zlen v)) ∧ room p1 R es k v ∧
    insert p (Z.of_nat i) k v = Ret (inserted p1 i k v).
Proof.
  intros Hwf Hi Hfit. unfold base_page, fits in *. pose proof (wf_bounds _ _ _ Hwf).
  destruct (free_space p <? SLOT_SIZE + (zlen k + zlen v)) eqn:Hf.
  - destruct (compactify_spec p R es Hwf) as (p1 & E & Hc). exists p1.
    pose proof (compacted_wf _ _ _ _ Hc) as Hwf1.
    pose proof (compacted_offset _ _ _ _ Hc) as Hd1.
    assert (room p1 R es k v) as Hroom by (constructor; [done|unfold esize; simpl; lia]).
    split_and!; [done|done|].
    assert (Hf1 : free_space p1 <? SLOT_SIZE + (zlen k + zlen v) = false).
    { apply Z.ltb_ge. rewrite (free_space_wf _ _ _ Hwf1). offs. lia. }
    rewrite (insert_after_compaction p p1) by
      (done || (rewrite (free_space_after_compaction_wf _ _ _ Hwf); offs; lia)).
    by apply (insert_room_eq Hroom).
  - exists p. assert (room p R es k v) as Hroom.
    { constructor; [done|]. apply Z.ltb_ge in Hf. rewrite (free_space_wf _ _ _ Hwf) in Hf.
      unfold esize. simpl. offs. lia. }
    split_and!; [done|done|]. by apply (insert_room_eq Hroom).
Qed.

Lemma frame_kept_trans R p p1 p2 : frame_kept R p p1 → frame_kept R p1 p2 → frame_kept R p p2.
Proof. unfold frame_kept. intuition congruence. Qed.

Lemma insert_wf p R es k v (i : nat) :
  wf p R es → (i ≤ length es)%nat → fits R es k v →
  ∃ p', insert p (Z.of_nat i) k v = Ret p' ∧ wf p' R (insert_at i (k, v) es) ∧
    frame_kept R p p' ∧ flags_kept p p'.
Proof.
  intros Hwf Hi Hfit. destruct (insert_base _ _ _ _ _ _ Hwf Hi Hfit) as (p1 & Hb & Hroom & ->).
  exists (inserted p1 i k v). split; [done|]. split; [by apply inserted_wf|].
  pose proof (inserted_frame Hroom i Hi) as Hf. destruct (inserted_header Hroom i Hi) as (_ & _ & _ & Hfl).
  unfold base_page in Hb. unfold flags_kept. rewrite Hfl. destruct (_ <? _).
  - destruct Hb as [_ _ ? ? _ _]. split; [by eapply frame_kept_trans|done].
  - by subst p1.
Qed.

Lemma insert_full p R es k v i :
  wf p R es → ¬ fits R es k v → insert p i k v = Panic.
Proof.
  intros Hwf Hfit. unfold fits in Hfit. pose proof (wf_bounds _ _ _ Hwf). unfold insert.
  rewrite (proj2 (Z.ltb_lt _ _)).
  2:{ rewrite (free_space_wf _ _ _ Hwf). offs. lia. }
  unfold assert. rewrite (proj2 (Z.leb_gt _ _)); [done|].
  rewrite (free_space_after_compaction_wf _ _ _ Hwf). offs. lia.
Qed.

(** ** Removal *)

Definition removed p (i : nat) (n : Z) : page :=
  let q := set_space_used p (space_used p - n) in
  let q := upd q (slot_off (Z.of_nat i))
             (sub q (slot_off (Z.of_nat i + 1)) ((num_slots p - Z.of_nat i - 1) * SLOT_SIZE)) in
  let q := set_num_slots q (num_slots p - 1) in
  set_flags q (Z.lor (flags q) FLAG_HAS_GARBAGE).

Lemma remove_eq p R es (i : nat) e :
  wf p R es → es !! i = Some e → remove p (Z.of_nat i) = Ret (removed p i (esize e)).
Proof.
  intros Hwf He. pose proof (wf_bounds _ _ _ Hwf). pose proof (lookup_lt_Some _ _ _ He) as Hlt.
  pose proof (heap_total_lookup_le _ _ _ He). pose proof (esize_nonneg e).
  pose proof PAGE_SIZE_bounds. destruct (wf_slot _ _ _ _ _ Hwf He) as [Hp Hs].
  pose proof (placed_size _ _ _ _ _ Hp) as Hsz. unfold data_len in Hsz.
  destruct Hwf as [Hl _ Hn _ Hu _ _ _]. unfold remove, removed. rewrite Hn.
  assert (Z.of_nat i < zlen es) by (unfold zlen; lia).
  rewrite assert_true, bind_Ret by (apply Z.ltb_lt; lia). rewrite Hs, bind_Ret, Hsz.
  rewrite wrap_small by lia. rewrite usub_in_range, bind_Ret by lia.
  assert (Hl2 : zlen (set_space_used p (space_used p - esize e)) = PAGE_SIZE) by plen.
  destruct (Z.ltb_spec 0 (zlen es - Z.of_nat i - 1)).
  - rewrite ptr_copy_Ret; [done|offs; lia..].
  - rewrite bind_Ret. replace (zlen es - Z.of_nat i - 1) with 0 by lia.
    rewrite sub_0, upd_nil; [done|offs; lia].
Qed.

Section remove.
Context {p : page} {R : Z} {es : list entry} {i : nat} {e : entry}.
Context (Hwf : wf p R es) (He : es !! i = Some e).

Lemma remove_bounds :
  zlen p = PAGE_SIZE ∧ num_slots p = zlen es ∧ 0 ≤ R ∧ 4096 ≤ PAGE_SIZE ≤ 65536 ∧
  24 + 12 * zlen es ≤ data_offset p ∧ data_offset p + R + heap_total es ≤ PAGE_SIZE ∧
  0 ≤ esize e ≤ heap_total es ∧ Z.of_nat i < zlen es ∧ space_used p = R + heap_total es.
Proof.
  pose proof (wf_bounds _ _ _ Hwf). pose proof (lookup_lt_Some _ _ _ He).
  pose proof (heap_total_lookup_le _ _ _ He). pose proof (esize_nonneg e).
  pose proof PAGE_SIZE_bounds. destruct Hwf. split_and!; try done; unfold zlen in *; lia.
Qed.

Lemma zlen_removed : zlen (removed p i (esize e)) = PAGE_SIZE.
Proof.
  destruct remove_bounds as (Hl & Hn & ? & ? & ? & ? & ? & ? & _). unfold removed. rewrite Hn. plen.
Qed.

(** Bytes outside the header fields and the moved slots. *)
Lemma lookup_removed (j : nat) :
  ¬ 12 ≤ Z.of_nat j < 20 →
  ¬ slot_off (Z.of_nat i) ≤ Z.of_nat j < slot_off (zlen es - 1) →
  removed p i (esize e) !! j = p !! j.
Proof.
  destruct remove_bounds as (Hl & Hn & ? & ? & ? & ? & ? & ? & _). unfold removed. rewrite Hn.
  intros. unfold set_space_used, set_flags, set_num_slots, set_le.
  unfold slot_off, HEADER_SIZE, SLOT_SIZE in *.
  repeat (rewrite lookup_upd by plen; rewrite decide_False by
    (rewrite ?zlen_le_bytes, ?zlen_sub by plen; lia)). done.
Qed.

Lemma sub_removed o n :
  0 ≤ o → 0 ≤ n → (o + n ≤ 12 ∨ 20 ≤ o) →
  (o + n ≤ slot_off (Z.of_nat i) ∨ slot_off (zlen es - 1) ≤ o) →
  sub (removed p i (esize e)) o n = sub p o n.
Proof.
  intros. apply list_eq. intros j. destruct (decide (j < Z.to_nat n)%nat).
  - rewrite !lookup_sub by lia. apply lookup_removed; lia.
  - by rewrite !lookup_sub_ge by lia.
Qed.

Lemma lor_garbage_range f : 0 ≤ f < 2 ^ 16 → 0 ≤ Z.lor f FLAG_HAS_GARBAGE < 2 ^ 16.
Proof.
  intros. assert (0 ≤ Z.lor f FLAG_HAS_GARBAGE) by (apply Z.lor_nonneg; unfold FLAG_HAS_GARBAGE; lia).
  split; [done|]. apply bits_range; [lia|done|]. intros j ?. unfold FLAG_HAS_GARBAGE.
  by rewrite Z.lor_spec, !(testbit_above 16) by lia.
Qed.

Lemma removed_header :
  num_slots (removed p i (esize e)) = zlen es - 1 ∧
  space_used (removed p i (esize e)) = space_used p - esize e ∧
  data_offset (removed p i (esize e)) = data_offset p ∧
  flags (removed p i (esize e)) = Z.lor (flags p) FLAG_HAS_GARBAGE.
Proof.
  destruct remove_bounds as (Hl & Hn & ? & ? & ? & ? & ? & ? & Hu). pose proof (num_slots_range p).
  unfold removed. rewrite Hn. set (u := space_used p) in *. split_and!; hdr.
  - apply wrap_small. simpl. lia.
  - apply wrap_small. simpl. lia.
  - done.
  - apply wrap_small. apply lor_garbage_range, (get_le_range 2).
Qed.

Lemma removed_slot_bytes j :
  0 ≤ j < zlen es - 1 →
  sub (removed p i (esize e)) (slot_off j) 12 =
    if decide (j < Z.of_nat i) then sub p (slot_off j) 12 else sub p (slot_off (j + 1)) 12.
Proof.
  intros Hj. destruct remove_bounds as (Hl & Hn & ? & ? & ? & ? & ? & ? & _).
  case_decide; [apply sub_removed; offs; lia|]. unfold removed. rewrite Hn.
  unfold set_flags, set_num_slots.
  do 2 (rewrite sub_set_le_ne by (first [plen | offs; lia])).
  set (q := set_space_used p _). assert (Hq : zlen q = PAGE_SIZE) by (unfold q; plen).
  rewrite sub_upd_inside by (rewrite ?zlen_sub by (offs; lia); offs; lia).
  rewrite sub_sub by (offs; lia).
  replace (_ + (slot_off j - _)) with (slot_off (j + 1)) by (offs; lia).
  unfold q, set_space_used. apply sub_set_le_ne; offs; lia.
Qed.

Lemma slots_removed : slots (removed p i (esize e)) = delete i (slots p).
Proof.
  destruct remove_bounds as (Hl & Hn & ? & ? & ? & ? & ? & ? & _).
  destruct removed_header as (Hn' & _).
  assert (Hlp : length (slots p) = Z.to_nat (zlen es)) by (by rewrite length_slots, Hn).
  apply list_eq_same_length with (n := Z.to_nat (zlen es - 1)).
  { rewrite length_delete; [lia|]. apply lookup_lt_is_Some_2. lia. }
  { by rewrite length_slots, Hn'. }
  intros j s t Hj Hs Ht. rewrite lookup_slots in Hs by lia. apply (inj Some) in Hs. subst s.
  pose proof (removed_slot_bytes (Z.of_nat j) ltac:(lia)) as Hb.
  destruct (decide (Z.of_nat j < Z.of_nat i)).
  - rewrite list_lookup_delete_lt, lookup_slots in Ht by lia. apply (inj Some) in Ht. subst t.
    apply decode_sub; [offs; lia..|done].
  - rewrite list_lookup_delete_ge, lookup_slots in Ht by lia. apply (inj Some) in Ht. subst t.
    apply decode_sub; [offs; lia..|]. rewrite Hb. do 2 f_equal. lia.
Qed.

Lemma heap_total_delete : heap_total (delete i es) = heap_total es - esize e.
Proof.
  rewrite delete_take_drop, heap_total_app. rewrite <-(take_drop_middle _ _ _ He) at 3.
  rewrite heap_total_app. simpl. lia.
Qed.

Lemma removed_wf : wf (removed p i (esize e)) R (delete i es).
Proof.
  destruct remove_bounds as (Hl & Hn & ? & ? & ? & ? & ? & ? & Hu).
  destruct removed_header as (Hn' & Hu' & Hd' & _). destruct Hwf as [_ _ _ _ _ _ Hss Hap].
  constructor; rewrite ?slots_removed, ?Hd', ?Hu'; try done.
  - apply zlen_removed.
  - rewrite Hn'. unfold zlen. rewrite length_delete by done.
    pose proof (lookup_lt_Some _ _ _ He). lia.
  - offs. rewrite Hn'. lia.
  - rewrite heap_total_delete. lia.
  - lia.
  - rewrite !delete_take_drop.
    apply Forall2_app; [apply Forall2_take|apply Forall2_drop];
      (eapply Forall2_placed_frame; [exact Hss|lia|]; intros; apply sub_removed; offs; lia).
  - rewrite delete_take_drop. rewrite <-(take_drop i (slots p)) in Hap.
    apply StronglySorted_app in Hap as (Hx & HA & HB).
    rewrite <-(take_drop 1 (drop i (slots p))), drop_drop in HB, Hx.
    apply StronglySorted_app in HB as (_ & _ & HB). rewrite Nat.add_1_r in *.
    apply StronglySorted_app. split_and!; [|done|done].
    intros x y Hxi Hy. apply Hx; [done|]. apply elem_of_app. by right.
Qed.

Lemma removed_frame : frame_kept R p (removed p i (esize e)) ∧ flags_kept p (removed p i (esize e)).
Proof.
  destruct remove_bounds as (Hl & Hn & ? & ? & ? & ? & ? & ? & Hu).
  destruct removed_header as (_ & _ & _ & Hf). split.
  - unfold frame_kept. rewrite !sub_removed; [done|..]; offs; lia.
  - intros j Hj. rewrite Hf, Z.lor_spec. unfold FLAG_HAS_GARBAGE.
    by rewrite (testbit_above 1 1), orb_false_r by lia.
Qed.

End remove.

Lemma remove_wf p R es (i : nat) e :
  wf p R es → es !! i = Some e →
  ∃ p', remove p (Z.of_nat i) = Ret p' ∧ wf p' R (delete i es) ∧
    frame_kept R p p' ∧ flags_kept p p' ∧ has_garbage p' = true.
Proof.
  intros Hwf He. exists (removed p i (esize e)). split; [by eapply remove_eq|].
  split; [by apply removed_wf|]. destruct (removed_frame Hwf He). split_and!; [done..|].
  destruct (removed_header Hwf He) as (_ & _ & _ & Hf). unfold has_garbage. rewrite Hf.
  apply negb_true_iff, Z.eqb_neq. intros E. apply (f_equal (λ z, Z.testbit z 0)) in E.
  rewrite Z.land_spec, Z.lor_spec, Z.bits_0 in E. unfold FLAG_HAS_GARBAGE in E.
  change (Z.testbit 1 0) with true in E. by rewrite orb_true_r in E.
Qed.

End ops.

(** * Slotted page: in-place update, truncation and range copy *)

#[local] Open Scope Z_scope.
Import SlottedHeader SlottedPage.

Section bulk.
Context `{Build}.
Implicit Types (p : page) (es : list entry).

(** ** Same-length value update *)

Section update.
Context {p : page} {R : Z} {es : list entry} {i : nat} {k v v' : list byte}.
Context (Hwf : wf p R es) (He : es !! i = Some (k, v)) (Hv : zlen v' = zlen v).

Local Notation s := (slot_at p (Z.of_nat i)).
Local Notation q := (upd p (Slot.offset (slot_at p (Z.of_nat i)) + zlen k) v').

Lemma update_slot : placed p R (data_offset p) s (k, v) ∧
  0 ≤ Slot.offset s ∧ 0 ≤ zlen k ∧ 0 ≤ zlen v ∧
  Slot.offset s + zlen k + zlen v ≤ zlen p ∧ zlen p = PAGE_SIZE ∧
  (zlen k + zlen v = 0 ∨
   24 + 12 * zlen es ≤ Slot.offset s ∧ data_offset p ≤ Slot.offset s ∧
   Slot.offset s + zlen k + zlen v ≤ PAGE_SIZE - R).
Proof.
  destruct (wf_slot _ _ _ _ _ Hwf He) as [Hp _]. pose proof (wf_bounds _ _ _ Hwf).
  pose proof (zlen_nonneg k). pose proof (zlen_nonneg v).
  split; [done|]. destruct Hp as [_ _ _ Hpg Hh _]. pose proof (wf_len _ _ _ Hwf).
  unfold esize in *. simpl in *. split_and!; try done; try lia.
Qed.

(** A byte range that avoids the entry's value. *)
Lemma sub_updated o n :
  0 ≤ o → (o + n ≤ Slot.offset s + zlen k ∨ Slot.offset s + zlen k + zlen v ≤ o ∨ zlen v = 0) →
  sub q o n = sub p o n.
Proof.
  intros. destruct update_slot as (_ & ? & ? & ? & ? & ? & ?).
  apply sub_upd_ne; rewrite ?Hv; lia.
Qed.

Lemma updated_header o n : 0 ≤ o → o + n ≤ 24 + 12 * zlen es → sub q o n = sub p o n.
Proof.
  intros. destruct update_slot as (_ & ? & ? & ? & ? & ? & ?). apply sub_updated; lia.
Qed.

Lemma updated_field n o : 0 ≤ o → o + Z.of_nat n ≤ 24 → get_le n q o = get_le n p o.
Proof.
  intros. pose proof (zlen_nonneg es). unfold get_le. by rewrite updated_header by lia.
Qed.

Lemma updated_slots : slots q = slots p.
Proof.
  pose proof (wf_num _ _ _ Hwf) as Hn. apply slots_ext.
  - apply (updated_field 2 16); lia.
  - intros j Hj. apply updated_header; offs; lia.
Qed.

Lemma updated_wf : wf q R (<[i := (k, v')]> es).
Proof.
  pose proof (wf_bounds _ _ _ Hwf). destruct update_slot as (Hp & ? & ? & ? & ? & ? & Hlay).
  pose proof Hwf as [Hl ? Hn ? Hu ? Hss Hap]. pose proof (lookup_lt_Some _ _ _ He) as Hlt.
  assert (Hd' : data_offset q = data_offset p) by (apply (updated_field 4 8); lia).
  assert (Hu' : space_used q = space_used p) by (apply (updated_field 4 12); lia).
  assert (Hn' : num_slots q = num_slots p) by (apply (updated_field 2 16); lia).
  assert (Ht : heap_total (<[i:=(k, v')]> es) = heap_total es).
  { rewrite insert_take_drop by done. rewrite <-(take_drop_middle _ _ _ He) at 3.
    rewrite !heap_total_app. simpl. unfold esize. simpl. lia. }
  constructor; rewrite ?updated_slots, ?Hd', ?Hu', ?Ht; try done.
  - rewrite zlen_upd; lia.
  - rewrite Hn', Hn. unfold zlen. by rewrite length_insert.
  - unfold slot_array_end in *. by rewrite Hn'.
  - apply Forall2_same_length_lookup_2.
    { rewrite length_insert. by eapply Forall2_length. }
    intros j t e Ht' He'. destruct (decide (j = i)) as [->|Hne].
    + rewrite list_lookup_insert_eq in He' by done. simplify_eq.
      rewrite lookup_slots in Ht' by (rewrite Hn; unfold zlen; lia). simplify_eq.
      destruct Hp as [P1 P2 P3 P4 P5 P6]. unfold esize in *. cbn [fst snd] in *.
      constructor; unfold esize; cbn [fst snd]; rewrite ?Hv; try done.
      rewrite sub_split by lia. rewrite (sub_updated (Slot.offset s) (zlen k)) by lia. rewrite sub_upd_eq by lia. f_equal.
      rewrite sub_split in P6 by lia. apply (app_inj_1 _ _ _ _) in P6 as [? ?]; [done|].
      apply Nat2Z.inj. fold (zlen (sub p (Slot.offset s) (zlen k))). fold (zlen k).
      rewrite zlen_sub by lia. done.
    + rewrite list_lookup_insert_ne in He' by done.
      pose proof (Forall2_lookup_lr _ _ _ _ _ _ Hss Ht' He') as Hpj.
      assert (Ha : apart s t).
      { assert (Hsi : slots p !! i = Some s) by (apply lookup_slots; rewrite Hn; unfold zlen; lia).
        destruct (decide (i < j)%nat).
        - eapply StronglySorted_lookup_lt; [exact Hap|exact Hsi|exact Ht'|lia].
        - symmetry. eapply StronglySorted_lookup_lt; [exact Hap|exact Ht'|exact Hsi|lia]. }
      unfold apart in Ha. rewrite (placed_size _ _ _ _ _ Hp), (placed_size _ _ _ _ _ Hpj) in Ha.
      pose proof (esize_nonneg e). destruct Hpj as [Q1 Q2 Q3 Q4 Q5 Q6].
      constructor; try done. assert (Hkv : esize (k, v) = zlen k + zlen v) by done. rewrite Hkv in Ha.
      destruct (decide (esize e = 0)) as [Ez|]; [rewrite Ez in *; by rewrite sub_0 in *|].
      rewrite sub_updated by lia. done.
Qed.

Lemma updated_frame : frame_kept R p q ∧ flags q = flags p.
Proof.
  pose proof (wf_bounds _ _ _ Hwf). destruct update_slot as (Hp & ? & ? & ? & ? & ? & Hlay).
  pose proof (zlen_nonneg es). split; [|apply (updated_field 2 18); lia]. unfold frame_kept.
  rewrite !updated_header by lia. by rewrite sub_updated by lia.
Qed.

Lemma update_value_eq : update_value_if_same_length p (Z.of_nat i) v' = Ret (q, true).
Proof.
  destruct (wf_slot _ _ _ _ _ Hwf He) as [Hp Hs]. destruct update_slot as (_ & ? & ? & ? & ? & ? & _).
  unfold update_value_if_same_length. rewrite Hs, bind_Ret.
  destruct Hp as [Hk Hvl _ _ _ _]. cbn [fst snd] in Hk, Hvl. rewrite Hk, Hvl, Hv, Z.eqb_refl. cbn [negb].
  by rewrite copy_from_Ret by lia.
Qed.

End update.

Lemma update_value_wf p R es (i : nat) k v v' :
  wf p R es → es !! i = Some (k, v) →
  ∃ p', update_value_if_same_length p (Z.of_nat i) v' = Ret (p', bool_decide (zlen v' = zlen v)) ∧
    (zlen v' = zlen v → wf p' R (<[i := (k, v')]> es) ∧ frame_kept R p p' ∧ flags p' = flags p) ∧
    (zlen v' ≠ zlen v → p' = p).
Proof.
  intros Hwf He. destruct (decide (zlen v' = zlen v)) as [Hv|Hv].
  - rewrite bool_decide_true by done. eexists. split; [by apply (update_value_eq Hwf He Hv)|].
    split; [|done]. intros _. split; [by apply (updated_wf Hwf He Hv)|by apply (updated_frame Hwf He Hv)].
  - rewrite bool_decide_false by done. exists p. split; [|done].
    destruct (wf_slot _ _ _ _ _ Hwf He) as [Hp Hs]. unfold update_value_if_same_length.
    rewrite Hs, bind_Ret. destruct Hp as [_ Hvl _ _ _ _]. cbn [fst snd] in Hvl. rewrite Hvl.
    by rewrite (proj2 (Z.eqb_neq _ _)) by done.
Qed.

(** ** Truncation *)

(** Shrinking the header's counts to a prefix of the entries. *)
Lemma wf_prefix p p' R es (n : nat) :
  wf p R es → (n ≤ length es)%nat → zlen p' = PAGE_SIZE →
  num_slots p' = Z.of_nat n → data_offset p' = data_offset p →
  space_used p' = R + heap_total (take n es) →
  (∀ o m, 24 ≤ o → 0 ≤ m → o + m ≤ PAGE_SIZE → sub p' o m = sub p o m) →
  wf p' R (take n es).
Proof.
  intros Hwf Hn Hl Hnum Hd Hu Hs. pose proof (wf_bounds _ _ _ Hwf). pose proof PAGE_SIZE_bounds.
  pose proof (heap_total_take_drop es n). pose proof (heap_total_nonneg (drop n es)).
  assert (Hle : Z.of_nat n ≤ zlen es) by (unfold zlen; lia).
  destruct Hwf as [? ? Hn0 ? ? ? Hss Hap].
  assert (Hsl : slots p' = take n (slots p)).
  { apply list_eq_same_length with (n := n).
    { rewrite length_take, length_slots. lia. }
    { rewrite length_slots. lia. }
    intros j s t Hj E1 E2. rewrite lookup_slots in E1 by lia.
    rewrite lookup_take_lt, lookup_slots in E2 by lia. simplify_eq.
    apply decode_sub; [offs; lia..|]. apply Hs; offs; lia. }
  constructor; rewrite ?Hsl, ?Hd, ?Hu; try done.
  - unfold zlen. rewrite length_take. lia.
  - offs. lia.
  - lia.
  - apply Forall2_take. eapply Forall2_placed_frame; [exact Hss|lia|]. intros. apply Hs; lia.
  - rewrite <-(take_drop n (slots p)) in Hap. by apply StronglySorted_app in Hap as (_ & ? & _).
Qed.


(** The loop of [truncate] subtracts the dropped entries' bytes. *)
Lemma truncate_loop_spec p R es (es1 es2 : list entry) q X :
  wf p R es → es = es1 ++ es2 → zlen q = PAGE_SIZE → 0 ≤ X →
  (∀ o m, 16 ≤ o → 0 ≤ m → o + m ≤ PAGE_SIZE → sub q o m = sub p o m) →
  space_used q = X + heap_total es2 →
  ∃ q', truncate_loop q (seqZ (zlen es1) (zlen es2)) = Ret q' ∧ zlen q' = PAGE_SIZE ∧
    space_used q' = X ∧ (∀ o m, 0 ≤ o → 0 ≤ m → o + m ≤ PAGE_SIZE →
      o + m ≤ 12 ∨ 16 ≤ o → sub q' o m = sub q o m).
Proof.
  intros Hwf. pose proof (wf_bounds _ _ _ Hwf). pose proof PAGE_SIZE_bounds.
  revert es1 q. induction es2 as [|e es2 IH]; intros es1 q E Hl HX Hs Hu.
  { exists q. simpl in *. rewrite Z.add_0_r in Hu. split_and!; done. }
  rewrite seqZ_zlen_cons. cbn [truncate_loop heap_total] in *.
  destruct (split_slot Hwf _ _ _ E) as [Hp _]. pose proof (split_total Hwf _ _ _ E).
  assert (Hlt : zlen es1 < zlen es).
  { rewrite E, zlen_app, zlen_cons. pose proof (zlen_nonneg es2). lia. }
  pose proof (zlen_nonneg es1). pose proof (wf_num _ _ _ Hwf) as Hn.
  assert (Hsq : ∀ o m, 16 ≤ o → o + Z.of_nat m ≤ PAGE_SIZE → get_le m q o = get_le m p o).
  { intros. unfold get_le. by rewrite Hs by lia. }
  assert (Hnq : num_slots q = zlen es).
  { rewrite <-Hn. apply (Hsq 16 2%nat); lia. }
  assert (slot_at q (zlen es1) = slot_at p (zlen es1)) as Hsl.
  { apply decode_sub; [offs; lia..|]. apply Hs; offs; lia. }
  rewrite slot_Ret, bind_Ret by (offs; lia). rewrite Hsl.
  pose proof (placed_size _ _ _ _ _ Hp) as Hsz. unfold data_len in Hsz. rewrite Hsz.
  pose proof (space_used_range q). rewrite wrap_small by lia. rewrite usub_in_range, bind_Ret by lia.
  assert (Hlq : zlen (set_space_used q (space_used q - esize e)) = PAGE_SIZE) by plen.
  replace (zlen es1 + 1) with (zlen (es1 ++ [e])) by (by rewrite zlen_app).
  destruct (IH (es1 ++ [e]) (set_space_used q (space_used q - esize e))) as
    (q' & -> & Hl' & Hu' & Hs'); try done.
  - by rewrite <-app_assoc.
  - intros. rewrite <-Hs by lia. unfold set_space_used. apply sub_set_le_ne; lia.
  - set (u := space_used q) in *. hdr. rewrite wrap_small by (simpl; lia). lia.
  - exists q'. split_and!; [done..|]. intros. rewrite Hs' by lia.
    unfold set_space_used. apply sub_set_le_ne; lia.
Qed.

Lemma truncate_wf p R es (n : nat) :
  wf p R es → (n ≤ length es)%nat →
  ∃ p', truncate p (Z.of_nat n) = Ret p' ∧ wf p' R (take n es) ∧
    frame_kept R p p' ∧ flags_kept p p'.
Proof.
  intros Hwf Hn. pose proof (wf_bounds _ _ _ Hwf). pose proof PAGE_SIZE_bounds.
  pose proof (wf_num _ _ _ Hwf) as Hnum. pose proof (wf_len _ _ _ Hwf) as Hl.
  assert (Hle : Z.of_nat n ≤ zlen es) by (unfold zlen; lia).
  unfold truncate. rewrite Hnum, assert_true, bind_Ret by (by apply Z.leb_le).
  destruct (Z.eqb_spec (Z.of_nat n) (zlen es)) as [E|E].
  { exists p. rewrite take_ge by (unfold zlen in E; lia). split_and!; done. }
  assert (Hz1 : zlen (take n es) = Z.of_nat n) by (unfold zlen; rewrite length_take; lia).
  assert (Hz2 : zlen (drop n es) = zlen es - Z.of_nat n).
  { pose proof (zlen_app (take n es) (drop n es)) as Hx. rewrite take_drop in Hx. lia. }
  pose proof (heap_total_take_drop es n) as Htd. pose proof (heap_total_nonneg (take n es)).
  pose proof (heap_total_nonneg (drop n es)). pose proof (wf_used _ _ _ Hwf) as Hu.
  destruct (truncate_loop_spec p R es (take n es) (drop n es) p (R + heap_total (take n es)))
    as (q & Hq & Hlq & Huq & Hsq); [done|by rewrite take_drop|done|lia|done|lia|].
  rewrite Hz1, Hz2 in Hq. rewrite Hq, bind_Ret.
  set (q1 := set_num_slots q (Z.of_nat n)).
  set (q2 := set_flags q1 (Z.lor (flags q1) FLAG_HAS_GARBAGE)).
  assert (Hlq1 : zlen q1 = PAGE_SIZE) by (unfold q1; plen).
  assert (Hlq2 : zlen q2 = PAGE_SIZE) by (unfold q2; plen).
  assert (Hs2 : ∀ o m, 0 ≤ o → 0 ≤ m → o + m ≤ PAGE_SIZE → o + m ≤ 12 ∨ 20 ≤ o →
                sub q2 o m = sub p o m).
  { intros. unfold q2, set_flags. rewrite sub_set_le_ne by lia.
    unfold q1, set_num_slots. rewrite sub_set_le_ne by lia. apply Hsq; lia. }
  assert (Hf1 : flags q1 = flags p).
  { unfold q1. hdr. unfold get_le. by rewrite Hsq by lia. }
  assert (Hf2 : flags q2 = Z.lor (flags p) FLAG_HAS_GARBAGE).
  { unfold q2. rewrite Hf1. pose proof (lor_garbage_range _ (flags_range p)). set (f := flags p) in *.
    hdr. by apply wrap_small. }
  assert (Hwf2 : wf q2 R (take n es)).
  { apply (wf_prefix p q2 R es n); try done.
    - unfold q2, q1. hdr. apply wrap_small. pose proof (num_slots_range p). simpl. lia.
    - unfold data_offset, get_le. rewrite Hs2 by lia. done.
    - rewrite <-Huq. unfold q2, q1. set (f := flags _). hdr. done.
    - intros. apply Hs2; lia. }
  destruct (compactify_spec q2 R (take n es) Hwf2) as (p' & -> & [Hc1 _ Hc2 Hc3 _ _]).
  exists p'. split_and!; try done.
  - eapply frame_kept_trans; [|exact Hc2]. unfold frame_kept. by rewrite !Hs2 by lia.
  - intros j Hj. rewrite Hc3, Hf2, Z.lor_spec by done. unfold FLAG_HAS_GARBAGE.
    by rewrite (testbit_above 1 1), orb_false_r by lia.
Qed.

(** ** Copying a range of entries to another page *)

Lemma copy_loop_wf src R1 es1 (a : nat) (es2 rest : list entry) dst R2 (i : nat) :
  wf src R1 es1 → wf dst R2 es2 →
  drop (a + i) es1 = rest ++ drop (a + i + length rest) es1 → Z.of_nat (a + i) + zlen rest < 2 ^ 16 →
  24 + 12 * zlen (es2 ++ rest) + R2 + heap_total (es2 ++ rest) ≤ PAGE_SIZE →
  ∃ dst', copy_loop src dst (Z.of_nat a) (seqZ (Z.of_nat i) (zlen rest)) = Ret dst' ∧
    wf dst' R2 (es2 ++ rest) ∧ frame_kept R2 dst dst' ∧ flags_kept dst dst'.
Proof.
  intros Hsrc. revert es2 dst i. induction rest as [|e rest IH]; intros es2 dst i Hdst Hd Hb Hfit.
  { exists dst. rewrite app_nil_r. split_and!; done. }
  rewrite seqZ_zlen_cons. cbn [copy_loop]. rewrite zlen_cons in Hb. pose proof (zlen_nonneg rest).
  rewrite uadd_in_range, bind_Ret by lia. replace (Z.of_nat a + Z.of_nat i) with (Z.of_nat (a + i)) by lia.
  assert (He : es1 !! (a + i)%nat = Some e).
  { pose proof (lookup_drop es1 (a + i) 0) as Hx. rewrite Hd, Nat.add_0_r in Hx. by rewrite <-Hx. }
  rewrite (get_key_wf _ _ _ _ _ Hsrc He), bind_Ret, (get_value_wf _ _ _ _ _ Hsrc He), bind_Ret.
  rewrite (wf_num _ _ _ Hdst).
  rewrite !zlen_app, zlen_cons, !heap_total_app in Hfit. cbn [heap_total] in Hfit.
  pose proof (heap_total_nonneg rest). destruct e as [k v]. cbn [fst snd].
  change (insert dst (zlen es2) k v) with (insert dst (Z.of_nat (length es2)) k v).
  destruct (insert_wf dst R2 es2 k v (length es2) Hdst) as (d1 & -> & Hd1 & Hfr & Hfl); [lia| |].
  { unfold fits. unfold esize in Hfit. simpl in Hfit. lia. }
  rewrite bind_Ret. unfold insert_at in Hd1. rewrite take_ge, drop_ge in Hd1 by lia.
  replace (Z.of_nat i + 1) with (Z.of_nat (S i)) by lia.
  destruct (IH (es2 ++ [(k, v)]) d1 (S i)) as (d' & -> & Hwf' & Hfr' & Hfl'); try done.
  - replace (a + S i)%nat with (a + i + 1)%nat by lia. rewrite <-(drop_drop es1 1 (a + i)), Hd. simpl.
    rewrite drop_0. do 2 f_equal. lia.
  - lia.
  - rewrite <-app_assoc, !zlen_app, !zlen_cons, ?zlen_nil, !heap_total_app. cbn [heap_total app]. lia.
  - exists d'. split_and!; [done| |by eapply frame_kept_trans|].
    + by rewrite <-app_assoc in Hwf'.
    + intros j Hj. by rewrite Hfl', Hfl.
Qed.

End bulk.
