(* ===== verification/SlottedSearch.v ===== *)
(** * Slotted page: binary search and the optimistic-read variants

    [lower_bound] on a page whose keys are sorted returns the first position
    whose key is not below the search key, on both its paths. The [try_]
    variants never panic on any page bytes and agree with the plain methods
    on well-formed pages. *)

From S2P Require Import Prelude Bytes FrameKernel PageMutation Slotted SlottedInv SlottedOps.
#[local] Open Scope Z_scope.
Import SlottedHeader SlottedPage.

Definition keys_sorted (es : list entry) : Prop := StronglySorted key_lt (es.*1).

(** [(pos, exact)] locates [key] in [es]. *)
Record located (es : list entry) (key : list byte) (pos : Z) (exact : bool) : Prop := {
  located_range : 0 ≤ pos ≤ zlen es;
  located_below : ∀ (j : nat) e, es !! j = Some e → Z.of_nat j < pos → key_lt e.1 key;
  located_above : ∀ (j : nat) e, es !! j = Some e → pos ≤ Z.of_nat j → ¬ key_lt e.1 key;
  located_exact : exact = true ↔ ∃ v, es !! Z.to_nat pos = Some (key, v);
}.

(** ** The search as a bisection

    [B lo hi] is what the loops know of the interval that is left, [L pos ex]
    what they may answer. Any pair closed under the steps of a bisection is
    kept by both loops, whatever order the keys are in. *)

Section bisect.
Context `{Build} {p : page} {R : Z} {es : list entry} (Hwf : wf p R es) (key : list byte).

Lemma mid_between lo hi : lo < hi → lo ≤ lo + (hi - lo) / 2 < hi.
Proof.
  intros. pose proof (Z.div_pos (hi - lo) 2 ltac:(lia) ltac:(lia)).
  pose proof (Z.div_lt (hi - lo) 2 ltac:(lia) ltac:(lia)). lia.
Qed.

(** The probed entry. *)
Lemma probe mid :
  0 ≤ mid < zlen es →
  ∃ e, es !! Z.to_nat mid = Some e ∧ wrap 16 mid = mid ∧ mid = Z.of_nat (Z.to_nat mid) ∧
    placed p R (data_offset p) (slot_at p mid) e ∧ slot p mid = Ret (slot_at p mid) ∧
    get_key p mid = Ret e.1.
Proof.
  intros Hm. destruct (lookup_lt_is_Some_2 es (Z.to_nat mid)) as [e He].
  { unfold zlen in Hm. lia. }
  exists e. pose proof (wf_num _ _ _ Hwf). pose proof (num_slots_range p).
  destruct (wf_slot _ _ _ _ _ Hwf He) as [Hp Hs]. pose proof (get_key_wf _ _ _ _ _ Hwf He) as Hk.
  rewrite Z2Nat.id in * by lia. split_and!; try done. apply wrap_small. lia.
Qed.

Lemma wrap_pos lo : 0 ≤ lo ≤ zlen es → wrap 16 lo = lo.
Proof.
  intros. pose proof (wf_num _ _ _ Hwf). pose proof (num_slots_range p). apply wrap_small. lia.
Qed.

Lemma num_slots_es : num_slots p = zlen es.
Proof. apply Hwf. Qed.

Lemma read_be_u64_8 k : zlen k = 8 → read_be_u64 k = Ret (of_be_bytes k).
Proof.
  intros Hk. unfold read_be_u64. assert (zlen (fill 8 x00) = 8) by done.
  rewrite copy_from_Ret, bind_Ret by lia. do 2 f_equal. rewrite <-(sub_all (upd _ _ _)).
  rewrite zlen_upd by lia. apply sub_upd_eq; lia.
Qed.

Lemma key_u64_of_placed d s e :
  placed p R d s e →
  key_u64_of p s = Ret (if decide (zlen e.1 = 8) then Some (of_be_bytes e.1) else None).
Proof.
  intros Hp. unfold key_u64_of. rewrite (placed_key_len _ _ _ _ _ Hp).
  pose proof (placed_key _ _ _ _ _ (wf_len _ _ _ Hwf) Hp) as Hk.
  rewrite (placed_key_len _ _ _ _ _ Hp) in Hk.
  destruct (Z.eqb_spec (zlen e.1) 8) as [E|E]; cbn [negb]; [|by rewrite decide_False].
  rewrite decide_True by done. rewrite E in Hk. pose proof (slice_inv _ _ _ _ Hk) as (_ & Hb & _).
  rewrite (wf_len _ _ _ Hwf) in Hb.
  rewrite (proj2 (Z.ltb_ge _ _)) by lia. rewrite Hk, bind_Ret, read_be_u64_8 by done. done.
Qed.

Context (B : Z → Z → Prop) (L : Z → bool → Prop).
Context (B_start : B 0 (zlen es)) (B_range : ∀ lo hi, B lo hi → 0 ≤ lo ≤ hi ∧ hi ≤ zlen es).
Context (B_up : ∀ lo hi (mid : nat) e,
  B lo hi → es !! mid = Some e → lo ≤ Z.of_nat mid < hi → key_lt e.1 key → B (Z.of_nat mid + 1) hi).
Context (B_down : ∀ lo hi (mid : nat) e,
  B lo hi → es !! mid = Some e → lo ≤ Z.of_nat mid < hi → key_lt key e.1 → B lo (Z.of_nat mid)).
Context (B_done : ∀ lo hi, B lo hi → hi ≤ lo → L lo false).
Context (B_found : ∀ (mid : nat) v, es !! mid = Some (key, v) → L (Z.of_nat mid) true).

Lemma generic_loop_bisects fuel lo hi :
  B lo hi → hi - lo < Z.of_nat fuel →
  ∃ pos ex, lower_bound_generic_loop p key (make_head key) fuel lo hi = Ret (pos, ex) ∧
    L pos ex.
Proof.
  revert lo hi. induction fuel as [|fuel IH]; intros lo hi Hb Hf.
  { pose proof (B_range _ _ Hb). lia. }
  cbn [lower_bound_generic_loop]. pose proof (B_range _ _ Hb).
  destruct (Z.ltb_spec lo hi) as [Hlt|Hge].
  2:{ rewrite wrap_pos by lia. exists lo, false. split; [done|]. by eapply B_done. }
  pose proof (mid_between lo hi Hlt). set (mid := lo + (hi - lo) / 2) in *.
  destruct (probe mid) as (e & He & -> & Hmid & Hp & -> & ->); [lia|].
  rewrite bind_Ret, (placed_head _ _ _ _ _ Hp), bind_Ret.
  assert (Hup : key_lt e.1 key → B (mid + 1) hi).
  { intros. rewrite Hmid. eapply B_up; [done|done|lia|done]. }
  assert (Hdown : key_lt key e.1 → B lo mid).
  { intros. rewrite Hmid. eapply B_down; [done|done|lia|done]. }
  destruct (Z.compare_spec (make_head e.1) (make_head key)) as [E|E|E].
  - unfold cmp_keys. destruct (slice_cmp e.1 key) eqn:Ec.
    + apply slice_cmp_eq in Ec. destruct e as [k v]. simpl in Ec. subst k.
      exists mid, true. split; [done|]. rewrite Hmid. by eapply B_found.
    + apply IH; [by apply Hup|lia].
    + apply IH; [apply Hdown; by apply slice_cmp_gt|lia].
  - apply make_head_lt in E. apply IH; [by apply Hup|lia].
  - apply make_head_lt in E. apply IH; [by apply Hdown|lia].
Qed.

Lemma empty_done : zlen es = 0 → L 0 false.
Proof. intros E. eapply B_done; [apply B_start|lia]. Qed.

Lemma lower_bound_generic_bisects :
  ∃ pos ex, lower_bound_generic p key = Ret (pos, ex) ∧ L pos ex.
Proof.
  unfold lower_bound_generic. rewrite num_slots_es. pose proof (zlen_nonneg es).
  destruct (Z.eqb_spec (zlen es) 0) as [E|E].
  - exists 0, false. split; [done|]. by apply empty_done.
  - apply generic_loop_bisects; [apply B_start|lia].
Qed.

Lemma u64_loop_bisects fuel lo hi :
  zlen key = 8 → B lo hi → hi - lo < Z.of_nat fuel →
  ∃ pos ex, lower_bound_u64_loop p (of_be_bytes key) fuel lo hi = Ret (pos, ex) ∧
    L pos ex.
Proof.
  intros Hk8. revert lo hi. induction fuel as [|fuel IH]; intros lo hi Hb Hf.
  { pose proof (B_range _ _ Hb). lia. }
  cbn [lower_bound_u64_loop]. pose proof (B_range _ _ Hb).
  destruct (Z.ltb_spec lo hi) as [Hlt|Hge].
  2:{ rewrite wrap_pos by lia. exists lo, false. split; [done|]. by eapply B_done. }
  pose proof (mid_between lo hi Hlt). set (mid := lo + (hi - lo) / 2) in *.
  destruct (probe mid) as (e & He & -> & Hmid & Hp & Hs & _); [lia|].
  unfold slot_key_u64. rewrite Hs, bind_Ret, (key_u64_of_placed _ _ _ Hp), bind_Ret.
  case_decide as E8.
  2:{ replace (be_bytes 8 (of_be_bytes key)) with key; [apply lower_bound_generic_bisects|].
      unfold zlen in Hk8. replace 8%nat with (length key) by lia. by rewrite be_bytes_of_be_bytes. }
  rewrite of_be_bytes_compare by lia. destruct (slice_cmp e.1 key) eqn:Ec.
  - apply slice_cmp_eq in Ec. destruct e as [k v]. simpl in Ec. subst k.
    exists mid, true. split; [done|]. rewrite Hmid. by eapply B_found.
  - apply IH; [|lia]. rewrite Hmid. eapply B_up; [done|done|lia|done].
  - apply IH; [|lia]. rewrite Hmid. eapply B_down; [done|done|lia|by apply slice_cmp_gt].
Qed.

Lemma lower_bound_bisects :
  ∃ pos ex, lower_bound p key = Ret (pos, ex) ∧ L pos ex.
Proof.
  unfold lower_bound. destruct (Z.eqb_spec (zlen key) 8) as [E8|E8]; [|apply lower_bound_generic_bisects].
  rewrite read_be_u64_8, bind_Ret by done. unfold lower_bound_u64_be. rewrite num_slots_es.
  pose proof (zlen_nonneg es). destruct (Z.eqb_spec (zlen es) 0) as [E|E].
  - exists 0, false. split; [done|]. by apply empty_done.
  - apply u64_loop_bisects; [done|apply B_start|lia].
Qed.


End bisect.

(** ** Sorted keys *)

Section search.
Context `{Build} {p : page} {R : Z} {es : list entry}.
Context (Hwf : wf p R es) (Hsorted : keys_sorted es) (key : list byte).

(** Loop invariant: everything below [lo] is smaller, everything from [hi] on larger. *)
Record bracket (lo hi : Z) : Prop := {
  bracket_range : 0 ≤ lo ≤ hi ∧ hi ≤ zlen es;
  bracket_lo : ∀ (j : nat) e, es !! j = Some e → Z.of_nat j < lo → key_lt e.1 key;
  bracket_hi : ∀ (j : nat) e, es !! j = Some e → hi ≤ Z.of_nat j → key_lt key e.1;
}.

Lemma bracket_start : bracket 0 (zlen es).
Proof.
  constructor.
  - pose proof (zlen_nonneg es). lia.
  - lia.
  - intros j e He. apply lookup_lt_Some in He. unfold zlen. lia.
Qed.

Lemma sorted_lt (i j : nat) a b :
  es !! i = Some a → es !! j = Some b → (i < j)%nat → key_lt a.1 b.1.
Proof.
  intros Ha Hb Hij. eapply StronglySorted_lookup_lt; [exact Hsorted| | |exact Hij];
    rewrite list_lookup_fmap; [by rewrite Ha|by rewrite Hb].
Qed.

Lemma bracket_up lo hi (mid : nat) e :
  bracket lo hi → es !! mid = Some e → lo ≤ Z.of_nat mid < hi → key_lt e.1 key →
  bracket (Z.of_nat mid + 1) hi.
Proof.
  intros [? ? ?] He ? Hlt. constructor; [lia| |done].
  intros j e' Hj ?. destruct (decide (j = mid)) as [->|]; [by simplify_eq|].
  transitivity e.1; [|done]. apply (sorted_lt j mid); [done..|lia].
Qed.

Lemma bracket_down lo hi (mid : nat) e :
  bracket lo hi → es !! mid = Some e → lo ≤ Z.of_nat mid < hi → key_lt key e.1 →
  bracket lo (Z.of_nat mid).
Proof.
  intros [? ? ?] He ? Hlt. constructor; [lia|done|].
  intros j e' Hj ?. destruct (decide (j = mid)) as [->|]; [by simplify_eq|].
  transitivity e.1; [done|]. apply (sorted_lt mid j); [done..|lia].
Qed.

Lemma bracket_done lo hi : bracket lo hi → hi ≤ lo → located es key lo false.
Proof.
  intros [? Hlo Hhi] ?. constructor; [lia|done| |].
  - intros j e Hj ? Hlt. specialize (Hhi j e Hj ltac:(lia)).
    apply (irreflexivity key_lt key). by transitivity e.1.
  - split; [done|]. intros [v Hv]. specialize (Hhi _ _ Hv ltac:(lia)). simpl in Hhi.
    by destruct (irreflexivity key_lt key).
Qed.

Lemma bracket_found (mid : nat) v : es !! mid = Some (key, v) → located es key (Z.of_nat mid) true.
Proof.
  intros Hm. pose proof (lookup_lt_Some _ _ _ Hm). constructor.
  - unfold zlen. lia.
  - intros j e Hj ?. apply (sorted_lt j mid e (key, v)); [done..|lia].
  - intros j e Hj ? Hlt. destruct (decide (j = mid)) as [->|].
    + simplify_eq. by destruct (irreflexivity key_lt key).
    + assert (key_lt key e.1) by (apply (sorted_lt mid j (key, v) e); [done..|lia]).
      apply (irreflexivity key_lt key). by transitivity e.1.
  - split; [|done]. intros _. exists v. by rewrite Nat2Z.id.
Qed.

Lemma located_empty : zlen es = 0 → located es key 0 false.
Proof. intros E. eapply bracket_done; [apply bracket_start|lia]. Qed.

Lemma lower_bound_located :
  ∃ pos ex, lower_bound p key = Ret (pos, ex) ∧ located es key pos ex.
Proof.
  apply (lower_bound_bisects Hwf key bracket (located es key)).
  - apply bracket_start.
  - apply bracket_range.
  - apply bracket_up.
  - apply bracket_down.
  - apply bracket_done.
  - apply bracket_found.
Qed.

End search.

(** ** Keys in any order

    Without an order the search still ends where the keys cross [key]. *)

Record crossing (es : list entry) (key : list byte) (pos : Z) (exact : bool) : Prop := {
  crossing_range : 0 ≤ pos ≤ zlen es;
  crossing_below : exact = false → ∀ (j : nat) e, es !! j = Some e → Z.of_nat j + 1 = pos → key_lt e.1 key;
  crossing_above : ∀ e, es !! Z.to_nat pos = Some e → ¬ key_lt e.1 key;
  crossing_exact : exact = true → ∃ v, es !! Z.to_nat pos = Some (key, v);
}.

Section crossing.
Context `{Build} {p : page} {R : Z} {es : list entry} (Hwf : wf p R es) (key : list byte).

Lemma lower_bound_crossing :
  ∃ pos ex, lower_bound p key = Ret (pos, ex) ∧ crossing es key pos ex.
Proof.
  apply (lower_bound_bisects Hwf key (λ lo hi, (0 ≤ lo ≤ hi ∧ hi ≤ zlen es) ∧
    (∀ (j : nat) e, es !! j = Some e → Z.of_nat j + 1 = lo → key_lt e.1 key) ∧
    (∀ e, es !! Z.to_nat hi = Some e → key_lt key e.1)) (crossing es key)).
  - pose proof (zlen_nonneg es). split_and!; [lia..| |].
    + intros. lia.
    + intros e He. apply lookup_lt_Some in He. unfold zlen in He. lia.
  - by intros lo hi [? _].
  - intros lo hi mid e (? & Hl & Hh) He ? Hlt. split_and!; [lia..| |done].
    intros j e' Hj ?. assert (j = mid) as -> by lia. congruence.
  - intros lo hi mid e (? & Hl & Hh) He ? Hlt. split_and!; [lia..|done|].
    rewrite Nat2Z.id, He. by intros ? [= <-].
  - intros lo hi (? & Hl & Hh) ?. assert (hi = lo) as -> by lia. constructor; [lia|done| |done].
    intros e He Hlt. apply (irreflexivity key_lt key). transitivity e.1; [by apply Hh|done].
  - intros mid v Hm. pose proof (lookup_lt_Some _ _ _ Hm). constructor; rewrite ?Nat2Z.id.
    + unfold zlen. lia.
    + done.
    + rewrite Hm. intros ? [= <-]. apply (irreflexivity key_lt).
    + eauto.
Qed.

End crossing.

(** The located position is unique. *)
Lemma located_unique es key pos ex pos' ex' :
  located es key pos ex → located es key pos' ex' → pos = pos' ∧ ex = ex'.
Proof.
  assert (Hpos : ∀ a b x y, located es key a x → located es key b y → a ≤ b).
  { intros a b x y [Ra Ba _ _] [Rb _ Ab _]. apply Z.le_ngt. intros Hlt.
    destruct (lookup_lt_is_Some_2 es (Z.to_nat b)) as [e He]; [unfold zlen in *; lia|].
    apply (Ab _ _ He); [lia|]. apply (Ba _ _ He). lia. }
  intros L1 L2. assert (pos = pos') as ->.
  { apply Z.le_antisymm; [eapply (Hpos pos pos'); eauto|eapply (Hpos pos' pos); eauto]. }
  split; [done|]. destruct L1 as [_ _ _ E1], L2 as [_ _ _ E2]. destruct ex, ex'; naive_solver.
Qed.

(** ** The [try_] variants on arbitrary bytes *)

Section torn.
Context `{Build} {p : page} (Hlen : zlen p = PAGE_SIZE).

Lemma try_slot_copy_total id : ∃ o, try_slot_copy p id = Ret o ∧
  (∀ s, o = Some s → s = slot_at p id ∧ id < num_slots p).
Proof.
  unfold try_slot_copy. destruct (Z.leb_spec (num_slots p) id); [by exists None|].
  destruct (Z.ltb_spec PAGE_SIZE (slot_off id + SLOT_SIZE)); [by exists None|].
  unfold read_slot. rewrite (proj2 (Z.leb_le _ _)) by lia. exists (Some (slot_at p id)).
  split; [done|]. intros s [= <-]. done.
Qed.

Lemma slot_at_range i : slot_range (slot_at p i).
Proof. apply decode_range. Qed.

Lemma try_get_key_total id : ∃ o, try_get_key p id = Ret o.
Proof.
  unfold try_get_key. destruct (try_slot_copy_total id) as ([s|] & -> & Hs); cbn; [|by eexists].
  destruct (Hs s eq_refl) as [-> _]. destruct (slot_at_range id) as [? ? ? _ _].
  destruct (Z.ltb_spec PAGE_SIZE (Slot.offset (slot_at p id) + Slot.key_len (slot_at p id))); [by eexists|].
  rewrite slice_Ret by lia. by eexists.
Qed.

Lemma try_get_value_total id : ∃ o, try_get_value p id = Ret o.
Proof.
  unfold try_get_value. destruct (try_slot_copy_total id) as ([s|] & -> & Hs); cbn; [|by eexists].
  destruct (Hs s eq_refl) as [-> _]. destruct (slot_at_range id) as [? ? ? _ _].
  destruct (Z.ltb_spec PAGE_SIZE (Slot.offset (slot_at p id) + Slot.key_len (slot_at p id) +
    Slot.val_len (slot_at p id))); [by eexists|].
  rewrite slice_Ret by lia. by eexists.
Qed.

Lemma try_slot_key_u64_total id : ∃ o, try_slot_key_u64 p id = Ret o.
Proof.
  unfold try_slot_key_u64. destruct (try_slot_copy_total id) as ([s|] & -> & Hs); cbn; [|by eexists].
  destruct (Hs s eq_refl) as [-> _]. destruct (slot_at_range id) as [? ? _ _ _]. unfold key_u64_of.
  destruct (Slot.key_len (slot_at p id) =? 8); cbn [negb]; [|by eexists].
  destruct (Z.ltb_spec PAGE_SIZE (Slot.offset (slot_at p id) + 8)); [by eexists|].
  rewrite slice_Ret, bind_Ret by lia.
  rewrite read_be_u64_8; [by eexists|]. rewrite zlen_sub; lia.
Qed.

(** What a search over torn bytes can return. *)
Definition torn_result (r : outcome (option (Z * bool))) : Prop :=
  ∃ o, r = Ret o ∧ ∀ pos ex, o = Some (pos, ex) → 0 ≤ pos ≤ num_slots p ∧ (ex = true → pos < num_slots p).

Lemma torn_None : torn_result (Ret None).
Proof. by exists None. Qed.

Lemma torn_Some pos ex :
  0 ≤ pos ≤ num_slots p → (ex = true → pos < num_slots p) → torn_result (Ret (Some (pos, ex))).
Proof. intros. eexists. split; [done|]. intros ? ? [= <- <-]. done. Qed.

Lemma torn_wrap z : 0 ≤ z ≤ num_slots p → wrap 16 z = z.
Proof. intros. pose proof (num_slots_range p). apply wrap_small. lia. Qed.

Lemma try_generic_loop_torn key h fuel lo hi :
  0 ≤ lo ≤ hi → hi ≤ num_slots p → hi - lo < Z.of_nat fuel →
  torn_result (try_lower_bound_generic_loop p key h fuel lo hi).
Proof.
  revert lo hi. induction fuel as [|fuel IH]; intros lo hi ? ? ?; [lia|].
  cbn [try_lower_bound_generic_loop]. destruct (Z.ltb_spec lo hi) as [Hlt|].
  2:{ rewrite torn_wrap by lia. apply torn_Some; [lia|done]. }
  pose proof (mid_between lo hi Hlt). set (mid := lo + (hi - lo) / 2) in *.
  rewrite torn_wrap by lia. destruct (try_slot_copy_total mid) as ([s|] & -> & _); [|apply torn_None].
  unfold opt_bind at 1. rewrite bind_Ret. destruct (Slot.head s ?= h); [|apply IH; lia..].
  destruct (try_get_key_total mid) as [[k|] ->]; [|apply torn_None].
  unfold opt_bind. rewrite bind_Ret. destruct (cmp_keys k key); [|apply IH; lia..].
  apply torn_Some; lia.
Qed.

Lemma try_generic_torn key : torn_result (try_lower_bound_generic p key).
Proof.
  unfold try_lower_bound_generic. pose proof (num_slots_range p).
  destruct (Z.eqb_spec (num_slots p) 0); [by apply torn_Some; lia|].
  destruct (_ <? _); [apply torn_None|]. apply try_generic_loop_torn; lia.
Qed.

Lemma try_u64_loop_torn k fuel lo hi :
  0 ≤ lo ≤ hi → hi ≤ num_slots p → hi - lo < Z.of_nat fuel →
  torn_result (try_lower_bound_u64_loop p k fuel lo hi).
Proof.
  revert lo hi. induction fuel as [|fuel IH]; intros lo hi ? ? ?; [lia|].
  cbn [try_lower_bound_u64_loop]. destruct (Z.ltb_spec lo hi) as [Hlt|].
  2:{ rewrite torn_wrap by lia. apply torn_Some; [lia|done]. }
  pose proof (mid_between lo hi Hlt). set (mid := lo + (hi - lo) / 2) in *.
  rewrite torn_wrap by lia. destruct (try_slot_key_u64_total mid) as [[c|] ->]; rewrite bind_Ret.
  2:{ apply try_generic_torn. }
  destruct (c ?= k); [|apply IH; lia..]. apply torn_Some; lia.
Qed.

Lemma try_lower_bound_torn key : torn_result (try_lower_bound p key).
Proof.
  unfold try_lower_bound. destruct (Z.eqb_spec (zlen key) 8) as [E|E]; [|apply try_generic_torn].
  rewrite read_be_u64_8, bind_Ret by done. unfold try_lower_bound_u64_be.
  pose proof (num_slots_range p).
  destruct (Z.eqb_spec (num_slots p) 0); [by apply torn_Some; lia|].
  destruct (_ <? _); [apply torn_None|]. apply try_u64_loop_torn; lia.
Qed.

End torn.

(** ** The [try_] variants on well-formed pages *)

Section agree.
Context `{Build} {p : page} {R : Z} {es : list entry} (Hwf : wf p R es).

(** The [Option] result of a method that cannot fail. *)
Definition lifted {A} (m : outcome A) : outcome (option A) := x ← m; Ret (Some x).

Lemma try_slot_copy_wf id :
  0 ≤ id < zlen es → try_slot_copy p id = Ret (Some (slot_at p id)).
Proof.
  intros. pose proof (wf_bounds _ _ _ Hwf). unfold try_slot_copy. rewrite (wf_num _ _ _ Hwf).
  rewrite (proj2 (Z.leb_gt _ _)) by lia. pose proof (heap_total_nonneg es).
  rewrite (proj2 (Z.ltb_ge _ _)) by (offs; lia).
  unfold read_slot. by rewrite (proj2 (Z.leb_le _ _)) by (offs; lia).
Qed.

Lemma try_get_key_wf (i : nat) e : es !! i = Some e → try_get_key p (Z.of_nat i) = Ret (Some e.1).
Proof.
  intros He. pose proof (lookup_lt_Some _ _ _ He). destruct (wf_slot _ _ _ _ _ Hwf He) as [Hp _].
  unfold try_get_key. rewrite try_slot_copy_wf by (unfold zlen; lia). unfold opt_bind. rewrite bind_Ret.
  pose proof (placed_key _ _ _ _ _ (wf_len _ _ _ Hwf) Hp) as Hk.
  pose proof (slice_inv _ _ _ _ Hk) as (_ & Hb & _). rewrite (wf_len _ _ _ Hwf) in Hb.
  rewrite (proj2 (Z.ltb_ge _ _)) by lia. by rewrite Hk.
Qed.

Lemma try_get_value_wf (i : nat) e : es !! i = Some e → try_get_value p (Z.of_nat i) = Ret (Some e.2).
Proof.
  intros He. pose proof (lookup_lt_Some _ _ _ He). destruct (wf_slot _ _ _ _ _ Hwf He) as [Hp _].
  unfold try_get_value. rewrite try_slot_copy_wf by (unfold zlen; lia). unfold opt_bind. rewrite bind_Ret.
  pose proof (placed_value _ _ _ _ _ (wf_len _ _ _ Hwf) Hp) as Hk.
  pose proof (slice_inv _ _ _ _ Hk) as (_ & Hb & _). rewrite (wf_len _ _ _ Hwf) in Hb.
  rewrite (proj2 (Z.ltb_ge _ _)) by lia. by rewrite Hk.
Qed.

Lemma try_generic_loop_agree key h fuel lo hi :
  0 ≤ lo ≤ hi → hi ≤ zlen es →
  try_lower_bound_generic_loop p key h fuel lo hi = lifted (lower_bound_generic_loop p key h fuel lo hi).
Proof.
  revert lo hi. induction fuel as [|fuel IH]; intros lo hi ? ?; [done|].
  cbn [try_lower_bound_generic_loop lower_bound_generic_loop].
  destruct (Z.ltb_spec lo hi) as [Hlt|]; [|done].
  pose proof (mid_between lo hi Hlt). set (mid := lo + (hi - lo) / 2) in *.
  destruct (probe Hwf mid) as (e & He & -> & Hmid & _ & -> & ->); [lia|].
  rewrite try_slot_copy_wf by lia. unfold opt_bind at 1. rewrite !bind_Ret.
  destruct (Slot.head (slot_at p mid) ?= h); [|apply IH; lia..].
  rewrite Hmid at 1. rewrite (try_get_key_wf _ _ He). unfold opt_bind. rewrite bind_Ret.
  destruct (cmp_keys e.1 key); [done|apply IH; lia..].
Qed.

Lemma count_ok : (PAGE_SIZE / 12 <? zlen es) = false.
Proof.
  pose proof (wf_bounds _ _ _ Hwf). pose proof (heap_total_nonneg es).
  apply Z.ltb_ge. apply Z.div_le_lower_bound; lia.
Qed.

Lemma try_generic_agree key : try_lower_bound_generic p key = lifted (lower_bound_generic p key).
Proof.
  unfold try_lower_bound_generic, lower_bound_generic. rewrite (wf_num _ _ _ Hwf), count_ok.
  pose proof (zlen_nonneg es). destruct (Z.eqb_spec (zlen es) 0); [done|].
  apply try_generic_loop_agree; lia.
Qed.

Lemma try_u64_loop_agree k fuel lo hi :
  0 ≤ lo ≤ hi → hi ≤ zlen es →
  try_lower_bound_u64_loop p k fuel lo hi = lifted (lower_bound_u64_loop p k fuel lo hi).
Proof.
  revert lo hi. induction fuel as [|fuel IH]; intros lo hi ? ?; [done|].
  cbn [try_lower_bound_u64_loop lower_bound_u64_loop].
  destruct (Z.ltb_spec lo hi) as [Hlt|]; [|done].
  pose proof (mid_between lo hi Hlt). set (mid := lo + (hi - lo) / 2) in *.
  destruct (probe Hwf mid) as (e & He & -> & Hmid & Hp & Hs & _); [lia|].
  unfold try_slot_key_u64, slot_key_u64. rewrite try_slot_copy_wf by lia. unfold opt_bind.
  rewrite Hs, !bind_Ret, (key_u64_of_placed Hwf _ _ _ Hp), !bind_Ret.
  case_decide; [|apply try_generic_agree]. destruct (of_be_bytes e.1 ?= k); [done|apply IH; lia..].
Qed.

Lemma try_lower_bound_agree key : try_lower_bound p key = lifted (lower_bound p key).
Proof.
  unfold try_lower_bound, lower_bound. destruct (Z.eqb_spec (zlen key) 8) as [E|E]; [|apply try_generic_agree].
  rewrite read_be_u64_8, !bind_Ret by done. unfold try_lower_bound_u64_be, lower_bound_u64_be.
  rewrite (wf_num _ _ _ Hwf), count_ok. pose proof (zlen_nonneg es).
  destruct (Z.eqb_spec (zlen es) 0); [done|]. apply try_u64_loop_agree; lia.
Qed.

End agree.
