(* ===== verification/SlottedMutation.v ===== *)
(** * Slotted page: recorded mutations cover every changed byte

    The [_with_mutation] methods report the byte ranges a page patch must
    carry. A byte outside the recorded ranges is unchanged. *)

From S2P Require Import Prelude Bytes FrameKernel PageMutation Slotted SlottedInv SlottedOps.
#[local] Open Scope Z_scope.
Import SlottedHeader SlottedPage.

(** [m'] extends [m] and covers the bytes in which [p] and [p'] differ. *)
Definition records `{Build} (m m' : PageMutation.t) (p p' : page) : Prop :=
  PageMutation.ok m' ∧
  (∀ j, PageMutation.covers m j → PageMutation.covers m' j) ∧
  (∀ j : nat, p' !! j ≠ p !! j → PageMutation.covers m' (Z.of_nat j)).

Section mutation.
Context `{Build}.
Implicit Types (p : page) (es : list entry) (m : PageMutation.t).

Lemma lookup_sub_1 p q (j : nat) : sub p (Z.of_nat j) 1 = sub q (Z.of_nat j) 1 → p !! j = q !! j.
Proof.
  intros E. pose proof (f_equal (λ l, l !! 0%nat) E) as E'. cbn in E'.
  rewrite !lookup_sub in E' by lia. by rewrite Nat2Z.id, Nat.add_0_r in E'.
Qed.

(** One [add_range] inside the page succeeds, extends the mutation and covers
    the range. *)
Lemma add_range_step m a b :
  PageMutation.ok m → 8 ≤ a → a < b → b ≤ PAGE_SIZE →
  ∃ m', PageMutation.add_range m a b = Ret m' ∧ PageMutation.ok m' ∧
    (∀ j, PageMutation.covers m j ∨ a ≤ j < b → PageMutation.covers m' j).
Proof.
  intros Hm ? ? ?. destruct (PageMutation.add_range_added m a b Hm) as (m' & E & Ha); [by split_and!|].
  exists m'. split_and!; [done|apply Ha|]. intros j. by apply PageMutation.add_range_covers_mono.
Qed.

(** The same for a range that may be empty. *)
Lemma add_range_opt m a b :
  PageMutation.ok m → 8 ≤ a → b ≤ PAGE_SIZE →
  ∃ m', (if a <? b then PageMutation.add_range m a b else Ret m) = Ret m' ∧ PageMutation.ok m' ∧
    (∀ j, PageMutation.covers m j ∨ a ≤ j < b → PageMutation.covers m' j).
Proof.
  intros Hm ? ?. destruct (Z.ltb_spec a b); [by apply add_range_step|].
  exists m. split_and!; [done..|]. intros j [?|?]; [done|lia].
Qed.

Lemma records_intro m m' p p' (P : Z → Prop) :
  PageMutation.ok m' → (∀ j, PageMutation.covers m j ∨ P j → PageMutation.covers m' j) →
  (∀ j : nat, ¬ P (Z.of_nat j) → p' !! j = p !! j) → (∀ j, Decision (P j)) →
  records m m' p p'.
Proof.
  intros Hok Hc Hp Hdec. split_and!; [done|auto|]. intros j Hj. apply Hc. right.
  destruct (decide (P (Z.of_nat j))); [done|]. destruct Hj. by apply Hp.
Qed.

Lemma insert_base_bytes p p1 R es k v (i j : nat) :
  wf p R es → (i ≤ length es)%nat → room p1 R es k v →
  base_page p p1 R es (SLOT_SIZE + (zlen k + zlen v)) →
  let d := data_offset p1 - (zlen k + zlen v) in
  let compacted := free_space p <? SLOT_SIZE + (zlen k + zlen v) in
  ¬ 8 ≤ Z.of_nat j < 24 →
  ¬ slot_off (if compacted then 0 else Z.of_nat i) ≤ Z.of_nat j < slot_off (zlen es + 1) →
  ¬ d ≤ Z.of_nat j < (if compacted then PAGE_SIZE else d + (zlen k + zlen v)) →
  inserted p1 i k v !! j = p !! j.
Proof.
  intros Hwf Hi Hroom Hb d comp H1 H2 H3.
  destruct (room_bounds Hroom) as (Hl & Hn & HR & HP & Hk & Hv & Hg & Hd & Ht & Hes & Hu).
  assert (Hile : Z.of_nat i ≤ zlen es) by (unfold zlen; lia).
  assert (Hsz : esize (k, v) = zlen k + zlen v) by done.
  assert (inserted p1 i k v !! j = p1 !! j) as ->.
  { apply (lookup_inserted Hroom i Hi); rewrite ?Hsz; unfold comp in *; destruct (_ <? _); offs; lia. }
  unfold base_page in Hb. unfold comp in *. destruct (_ <? _) eqn:Ef; [|by subst p1].
  destruct Hb as [Hwf1 Hd1 (Hf1 & _ & _) _ _ Hgap]. apply lookup_sub_1.
  destruct (decide (Z.of_nat j < 8)).
  - rewrite <-(Z.add_0_l (Z.of_nat j)), <-(sub_sub p1 0 8), <-(sub_sub p 0 8) by lia. by rewrite Hf1.
  - destruct (decide (Z.of_nat j < PAGE_SIZE)).
    + apply Hgap; [|lia|]; offs; rewrite ?(wf_num _ _ _ Hwf); lia.
    + pose proof (wf_len _ _ _ Hwf) as Hlp. apply list_eq. intros [|x].
      * rewrite !lookup_sub by lia. rewrite !lookup_ge_None_2; [done|unfold zlen in *; lia..].
      * by rewrite !lookup_sub_ge by lia.
Qed.

Lemma insert_with_mutation_records p R es k v (i : nat) m :
  wf p R es → (i ≤ length es)%nat → fits R es k v → PageMutation.ok m →
  ∃ p' m', insert_with_mutation p (Z.of_nat i) k v m = Ret (p', m') ∧
    insert p (Z.of_nat i) k v = Ret p' ∧ records m m' p p'.
Proof.
  intros Hwf Hi Hfit Hm. destruct (insert_base _ _ _ _ _ _ Hwf Hi Hfit) as (p1 & Hb & Hroom & E).
  destruct (room_bounds Hroom) as (Hl & Hn & HR & HP & Hk & Hv & Hg & Hd & Ht & Hes & Hu).
  assert (Hile : Z.of_nat i ≤ zlen es) by (unfold zlen; lia).
  destruct (inserted_header Hroom i Hi) as (_ & Hd' & _). change (esize (k, v)) with (zlen k + zlen v) in Hd'.
  unfold insert_with_mutation. rewrite E, bind_Ret, (wf_num _ _ _ Hwf), Hd'.
  set (comp := free_space p <? _). set (d := data_offset p1 - (zlen k + zlen v)).
  destruct (add_range_step m 8 HEADER_SIZE) as (m1 & -> & Hm1 & C1); [done|offs; lia..|]. rewrite bind_Ret.
  destruct (add_range_step m1 (slot_off (if comp then 0 else Z.of_nat i)) (slot_off (zlen es + 1)))
    as (m2 & E2 & Hm2 & C2); [done|destruct comp; offs; lia..|].
  unfold slot_off in E2 at 1 2. rewrite E2, bind_Ret.
  destruct (add_range_opt m2 d (if comp then PAGE_SIZE else d + (zlen k + zlen v)))
    as (m3 & E3 & Hm3 & C3); [done|unfold d; lia|destruct comp; unfold d; lia|].
  rewrite E3, bind_Ret. exists (inserted p1 i k v), m3. split_and!; [done..|].
  apply (records_intro _ _ _ _ (λ j, 8 ≤ j < 24 ∨
    slot_off (if comp then 0 else Z.of_nat i) ≤ j < slot_off (zlen es + 1) ∨
    d ≤ j < (if comp then PAGE_SIZE else d + (zlen k + zlen v)))); [done| | |apply _].
  - unfold HEADER_SIZE in C1. intros j [?|[?|[?|?]]]; auto 10.
  - intros j Hj. apply (insert_base_bytes p p1 R es); tauto.
Qed.

Lemma remove_with_mutation_records p R es (i : nat) e m :
  wf p R es → es !! i = Some e → PageMutation.ok m →
  ∃ p' m', remove_with_mutation p (Z.of_nat i) m = Ret (p', m') ∧
    remove p (Z.of_nat i) = Ret p' ∧ records m m' p p'.
Proof.
  intros Hwf He Hm. pose proof (remove_eq _ _ _ _ _ Hwf He) as E.
  destruct (remove_bounds Hwf He) as (Hl & Hn & HR & HP & Ha & Hd & Ht & Hi & Hu).
  unfold remove_with_mutation. rewrite E, bind_Ret, Hn.
  destruct (add_range_step m 8 HEADER_SIZE) as (m1 & -> & Hm1 & C1); [done|offs; lia..|]. rewrite bind_Ret.
  destruct (add_range_opt m1 (slot_off (Z.of_nat i)) (slot_off (zlen es - 1)))
    as (m2 & E2 & Hm2 & C2); [done|offs; lia..|].
  unfold slot_off in E2 at 1 2 3 4. rewrite E2, bind_Ret.
  exists (removed p i (esize e)), m2. split_and!; [done..|].
  apply (records_intro _ _ _ _ (λ j, 8 ≤ j < 24 ∨ slot_off (Z.of_nat i) ≤ j < slot_off (zlen es - 1)));
    [done| | |apply _].
  - unfold HEADER_SIZE in C1. intros j [?|[?|?]]; auto 10.
  - intros j Hj. apply (lookup_removed Hwf He); offs; lia.
Qed.

Lemma update_with_mutation_records p R es (i : nat) k v v' m :
  wf p R es → es !! i = Some (k, v) → zlen v' = zlen v → PageMutation.ok m →
  ∃ p' m', update_value_with_mutation p (Z.of_nat i) v' m = Ret (p', m', true) ∧
    update_value_if_same_length p (Z.of_nat i) v' = Ret (p', true) ∧ records m m' p p'.
Proof.
  intros Hwf He Hv Hm. pose proof (update_value_eq Hwf He Hv) as E.
  destruct (wf_slot _ _ _ _ _ Hwf He) as [Hp Hs].
  destruct (update_slot Hwf He) as (_ & ? & ? & ? & ? & ? & ?).
  pose proof (wf_bounds _ _ _ Hwf). pose proof (zlen_nonneg es).
  unfold update_value_with_mutation, value_range. rewrite Hs, bind_Ret.
  destruct Hp as [Hkl Hvl _ _ _ _]. cbn [fst snd] in Hkl, Hvl. rewrite Hkl, Hvl, bind_Ret, E, bind_Ret.
  cbn [fst snd negb]. set (a := Slot.offset (slot_at p (Z.of_nat i)) + zlen k) in *.
  assert (∃ m', (if a <? a + zlen v then PageMutation.add_range m a (a + zlen v) else Ret m) = Ret m' ∧
    PageMutation.ok m' ∧ ∀ j, PageMutation.covers m j ∨ a ≤ j < a + zlen v → PageMutation.covers m' j)
    as (m' & -> & Hm' & C').
  { destruct (decide (zlen v = 0)) as [Ez|].
    - exists m. rewrite (proj2 (Z.ltb_ge _ _)) by lia. split_and!; [done..|]. intros j [?|?]; [done|lia].
    - apply add_range_opt; [done|lia..]. }
  rewrite bind_Ret. eexists _, m'. split_and!; [done..|].
  apply (records_intro _ _ _ _ (λ j, a ≤ j < a + zlen v)); [done|done| |apply _].
  intros j Hj. rewrite lookup_upd by lia. rewrite decide_False by lia. done.
Qed.

End mutation.

(** The [_with_mutation] methods perform exactly the plain operation and
    record it soundly: the resulting mutation is normalised, still covers
    what it covered before, and covers every byte in which the page changed,
    also when the insertion compacted the page. *)
Theorem slotted_mutations_cover_changes `{Build} p R es m :
  wf p R es → PageMutation.ok m →
  (∀ (i : nat) k v, (i ≤ length es)%nat → fits R es k v →
    ∃ p' m', insert_with_mutation p (Z.of_nat i) k v m = Ret (p', m') ∧
      insert p (Z.of_nat i) k v = Ret p' ∧ records m m' p p') ∧
  (∀ (i : nat) e, es !! i = Some e →
    ∃ p' m', remove_with_mutation p (Z.of_nat i) m = Ret (p', m') ∧
      remove p (Z.of_nat i) = Ret p' ∧ records m m' p p') ∧
  (∀ (i : nat) k v v', es !! i = Some (k, v) → zlen v' = zlen v →
    ∃ p' m', update_value_with_mutation p (Z.of_nat i) v' m = Ret (p', m', true) ∧
      update_value_if_same_length p (Z.of_nat i) v' = Ret (p', true) ∧ records m m' p p').
Proof.
  intros Hwf Hm. split_and!; intros.
  - by eapply insert_with_mutation_records.
  - by eapply remove_with_mutation_records.
  - by eapply update_with_mutation_records.
Qed.

Lemma slotted_mutations_cover_changes_witness :
  let p := init (H := debug_4k) [] in
  ∃ p' m', insert_with_mutation (H := debug_4k) p 0 [x01] [x02; x03] PageMutation.new = Ret (p', m') ∧
    insert (H := debug_4k) p 0 [x01] [x02; x03] = Ret p' ∧
    records (H := debug_4k) PageMutation.new m' p p'.
Proof.
  intros p. destruct (@init_wf debug_4k []) as [Hwf _].
  destruct (@slotted_mutations_cover_changes debug_4k p 0 [] PageMutation.new Hwf
    (@PageMutation.new_ok debug_4k)) as (Hi & _ & _).
  apply (Hi 0%nat [x01] [x02; x03]); [done|]. unfold fits. vm_compute. congruence.
Defined.
