(* ===== verification/SlottedSpec.v ===== *)
(** * Slotted page: the contract

    The abstract state of a slotted page is the sequence of its entries, and,
    when the keys are sorted, the finite map they form. The theorems below
    state every public operation against that state. *)

From S2P Require Import Prelude Bytes FrameKernel PageMutation Slotted SlottedInv SlottedOps SlottedSearch.
#[local] Open Scope Z_scope.
Import SlottedHeader SlottedPage.

#[global] Instance byte_countable : Countable byte :=
  inj_countable Byte.to_N Byte.of_N Byte.of_to_N.

(** The map a sequence of entries represents. *)
Definition contents (es : list entry) : gmap (list byte) (list byte) := list_to_map es.

(** ** Sorted sequences as maps *)

Lemma sorted_NoDup es : keys_sorted es → NoDup es.*1.
Proof.
  unfold keys_sorted. induction 1 as [|k ks Hs IH Hk]; constructor; [|done].
  intros Hin. rewrite Forall_forall in Hk. by apply (irreflexivity key_lt k), Hk.
Qed.

Lemma insert_at_perm {A} (i : nat) (e : A) es : insert_at i e es ≡ₚ e :: es.
Proof. unfold insert_at. rewrite <-Permutation_middle. by rewrite take_drop. Qed.

Lemma contents_lookup es k v : keys_sorted es → contents es !! k = Some v ↔ (k, v) ∈ es.
Proof. intros Hs. symmetry. apply elem_of_list_to_map. by apply sorted_NoDup. Qed.

(** Position and key of a failed search: the new entry goes in order. *)
Lemma insert_at_sorted es key v pos :
  keys_sorted es → located es key pos false →
  keys_sorted (insert_at (Z.to_nat pos) (key, v) es) ∧
  contents (insert_at (Z.to_nat pos) (key, v) es) = <[key := v]> (contents es) ∧
  contents es !! key = None.
Proof.
  intros Hs [Hr Hb Ha He].
  assert (Hnone : key ∉ es.*1).
  { intros Hin. apply list_elem_of_lookup in Hin as [j Hj]. rewrite list_lookup_fmap in Hj.
    apply fmap_Some in Hj as ([k w] & Hj & E). simpl in E. subst k.
    destruct (decide (Z.of_nat j < pos)).
    - by apply (irreflexivity key_lt key), (Hb _ _ Hj).
    - assert (Z.to_nat pos ≠ j) as Hne.
      { intros <-. assert (false = true) by (apply He; eauto). done. }
      destruct (lookup_lt_is_Some_2 es (Z.to_nat pos)) as [e0 He0].
      { apply lookup_lt_Some in Hj. lia. }
      apply (Ha _ _ He0); [lia|]. unfold keys_sorted in Hs.
      assert (Hlt : key_lt e0.1 key); [|done].
      eapply (StronglySorted_lookup_lt _ _ (Z.to_nat pos) j); [exact Hs|..];
        rewrite ?list_lookup_fmap, ?He0, ?Hj; [done|done|lia]. }
  assert (Hsort : keys_sorted (insert_at (Z.to_nat pos) (key, v) es)).
  { unfold keys_sorted, insert_at in *. rewrite fmap_app, fmap_cons, fmap_take, fmap_drop. simpl.
    rewrite <-(take_drop (Z.to_nat pos) (es.*1)) in Hs. apply StronglySorted_app in Hs as (Hx & H1 & H2).
    assert (Hbelow : ∀ k, k ∈ take (Z.to_nat pos) es.*1 → key_lt k key).
    { intros k Hk. apply list_elem_of_lookup in Hk as [j Hj]. pose proof (lookup_lt_Some _ _ _ Hj) as Hjl.
      rewrite length_take in Hjl. rewrite lookup_take_lt, list_lookup_fmap in Hj by lia.
      apply fmap_Some in Hj as (e & Hj & ->). apply (Hb j); [done|lia]. }
    assert (Habove : ∀ k, k ∈ drop (Z.to_nat pos) es.*1 → key_lt key k).
    { intros k Hk. assert (k ∈ es.*1).
      { rewrite <-(take_drop (Z.to_nat pos) es.*1). apply elem_of_app. by right. }
      apply list_elem_of_lookup in Hk as [j Hj]. rewrite lookup_drop, list_lookup_fmap in Hj.
      apply fmap_Some in Hj as (e & Hj & ->).
      pose proof (Ha _ _ Hj ltac:(lia)) as Hn. apply slice_cmp_gt. unfold key_lt in Hn.
      destruct (slice_cmp e.1 key) eqn:E; [|done|done].
      apply slice_cmp_eq in E. by rewrite E in *. }
    apply StronglySorted_app. split_and!; [|done|constructor; [done|by apply Forall_forall]].
    intros a b Ha' [->|Hb']%elem_of_cons; [by apply Hbelow|]. etrans; [by apply Hbelow|by apply Habove]. }
  split_and!; [done| |].
  - unfold contents. rewrite (list_to_map_proper _ ((key, v) :: es)); [done| |apply insert_at_perm].
    by apply sorted_NoDup.
  - by apply not_elem_of_list_to_map.
Qed.

Lemma contents_exact es key pos :
  keys_sorted es → located es key pos true →
  ∃ v, es !! Z.to_nat pos = Some (key, v) ∧ contents es !! key = Some v.
Proof.
  intros Hs [_ _ _ [He _]]. destruct (He eq_refl) as [v Hv]. exists v. split; [done|].
  apply contents_lookup; [done|]. by eapply list_elem_of_lookup_2.
Qed.

Lemma update_sorted es (i : nat) k v v' :
  keys_sorted es → es !! i = Some (k, v) →
  keys_sorted (<[i := (k, v')]> es) ∧ contents (<[i := (k, v')]> es) = <[k := v']> (contents es).
Proof.
  intros Hs Hi. assert (Hk : (<[i := (k, v')]> es).*1 = es.*1).
  { rewrite list_fmap_insert. apply list_insert_id. rewrite list_lookup_fmap, Hi. done. }
  assert (Hs' : keys_sorted (<[i := (k, v')]> es)) by (unfold keys_sorted; by rewrite Hk).
  split; [done|]. apply map_eq. intros x. apply option_eq. intros w.
  pose proof (lookup_lt_Some _ _ _ Hi) as Hlt. rewrite contents_lookup by done.
  destruct (decide (x = k)) as [->|Hne].
  - rewrite lookup_insert_eq. split.
    + intros Hin. assert (contents (<[i := (k, v')]> es) !! k = Some v').
      { apply contents_lookup; [done|]. eapply list_elem_of_lookup_2. by apply list_lookup_insert_eq. }
      apply contents_lookup in Hin; [|done]. congruence.
    + intros [= <-]. eapply list_elem_of_lookup_2. by apply list_lookup_insert_eq.
  - rewrite lookup_insert_ne, contents_lookup by done. split.
    + intros (j & Hj)%list_elem_of_lookup. destruct (decide (i = j)) as [->|].
      { rewrite list_lookup_insert_eq in Hj by done. congruence. }
      rewrite list_lookup_insert_ne in Hj by done. by eapply list_elem_of_lookup_2.
    + intros (j & Hj)%list_elem_of_lookup. destruct (decide (i = j)) as [->|]; [congruence|].
      eapply list_elem_of_lookup_2. by rewrite list_lookup_insert_ne.
Qed.

Lemma delete_sorted es (i : nat) k v :
  keys_sorted es → es !! i = Some (k, v) →
  keys_sorted (delete i es) ∧ contents (delete i es) = delete k (contents es).
Proof.
  intros Hs Hi. pose proof (take_drop_middle _ _ _ Hi) as Hsplit.
  assert (Hs' : keys_sorted (delete i es)).
  { unfold keys_sorted in *. rewrite <-Hsplit in Hs. rewrite delete_take_drop.
    rewrite fmap_app, ?fmap_cons in Hs |- *. apply StronglySorted_app in Hs as (Hx & H1 & H2).
    apply StronglySorted_cons in H2 as [_ H2]. apply StronglySorted_app. split_and!; [|done|done].
    intros a b Ha Hb. apply Hx; [done|]. apply elem_of_cons. by right. }
  split; [done|]. assert (Hp : es ≡ₚ (k, v) :: delete i es).
  { rewrite <-Hsplit at 1. rewrite delete_take_drop. by rewrite Permutation_middle. }
  unfold contents. rewrite (list_to_map_proper es ((k, v) :: delete i es));
    [|by apply sorted_NoDup|done]. simpl. rewrite delete_insert_id; [done|].
  apply not_elem_of_list_to_map. pose proof (sorted_NoDup _ Hs) as Hnd.
  rewrite Hp in Hnd. simpl in Hnd. by apply NoDup_cons in Hnd as [? _].
Qed.

(** ** The contract *)

(** [insert] refines inserting into the sequence of entries, in place or
    after compaction, and [can_insert] decides exactly when it succeeds; the
    page LSN, the header padding, the reserved suffix and every flag other
    than the garbage bit survive. When [can_insert] says no, [insert] panics. *)
Theorem slotted_insert_refines `{Build} p R es (i : nat) k v :
  wf p R es → (i ≤ length es)%nat →
  (can_insert p (zlen k) (zlen v) = true →
    ∃ p', insert p (Z.of_nat i) k v = Ret p' ∧ wf p' R (insert_at i (k, v) es) ∧
      frame_kept R p p' ∧ flags_kept p p') ∧
  (can_insert p (zlen k) (zlen v) = false → insert p (Z.of_nat i) k v = Panic).
Proof.
  intros Hwf Hi. split; intros Hc.
  - apply (can_insert_wf _ _ _ _ _ Hwf) in Hc. by apply insert_wf.
  - apply (insert_full _ R es); [done|]. rewrite <-(can_insert_wf _ _ _ _ _ Hwf). by rewrite Hc.
Qed.

(** A 4 KiB page with two entries above a 16-byte reserved suffix. *)
Definition sample : page :=
  match (p ← reserve_suffix (H := debug_4k) (init (H := debug_4k) []) 16;
         p ← insert (H := debug_4k) p 0 [x62] [x01; x02];
         insert (H := debug_4k) p 0 [x61; x61] [x03]) with
  | Ret p => p
  | Panic => []
  end.

Lemma sample_wf : wf (H := debug_4k) sample 16 [([x61; x61], [x03]); ([x62], [x01; x02])].
Proof.
  assert (P : PAGE_SIZE (H := debug_4k) = 4096) by reflexivity.
  destruct (@init_wf debug_4k []) as [Hi Hd].
  destruct (@reserve_suffix_wf debug_4k _ 16 Hi Hd) as (p1 & E1 & W1 & _); [rewrite P; lia|].
  destruct (@insert_wf debug_4k p1 16 [] [x62] [x01; x02] 0 W1) as (p2 & E2 & W2 & _); [done|..].
  { unfold fits. rewrite P. vm_compute. congruence. }
  destruct (@insert_wf debug_4k p2 16 _ [x61; x61] [x03] 0 W2) as (p3 & E3 & W3 & _); [lia|..].
  { unfold fits. rewrite P. vm_compute. congruence. }
  assert (sample = p3) as ->; [|exact W3]. unfold sample. rewrite E1. cbn [mbind outcome_bind].
  change 0 with (Z.of_nat 0). rewrite E2. cbn [mbind outcome_bind]. by rewrite E3.
Qed.

Lemma slotted_insert_refines_witness :
  ∃ p', insert (H := debug_4k) sample 1 [x61; x62] [] = Ret p' ∧
    wf (H := debug_4k) p' 16 [([x61; x61], [x03]); ([x61; x62], []); ([x62], [x01; x02])].
Proof.
  destruct (@slotted_insert_refines debug_4k _ _ _ 1%nat [x61; x62] [] sample_wf) as [Hok _].
  { simpl. lia. }
  destruct Hok as (p' & E & W & _); [vm_compute; reflexivity|]. exists p'. exact (conj E W).
Defined.

(** [remove] deletes exactly the addressed entry (and panics beyond the
    last slot), [update_value_if_same_length] replaces exactly the addressed
    value when the lengths agree and otherwise changes nothing and says so. *)
Theorem slotted_remove_update_refine `{Build} p R es (i : nat) :
  wf p R es →
  (∀ e, es !! i = Some e →
    ∃ p', remove p (Z.of_nat i) = Ret p' ∧ wf p' R (delete i es) ∧
      frame_kept R p p' ∧ flags_kept p p' ∧ has_garbage p' = true) ∧
  (es !! i = None → remove p (Z.of_nat i) = Panic) ∧
  (∀ k v v', es !! i = Some (k, v) →
    ∃ p', update_value_if_same_length p (Z.of_nat i) v' = Ret (p', bool_decide (zlen v' = zlen v)) ∧
      (zlen v' = zlen v → wf p' R (<[i := (k, v')]> es) ∧ frame_kept R p p' ∧ flags p' = flags p) ∧
      (zlen v' ≠ zlen v → p' = p)).
Proof.
  intros Hwf. split_and!.
  - intros. by eapply remove_wf.
  - intros Hn. unfold remove, assert. rewrite (wf_num _ _ _ Hwf).
    apply lookup_ge_None in Hn. rewrite (proj2 (Z.ltb_ge (Z.of_nat i) (zlen es))); [done|].
    unfold zlen. lia.
  - intros. by eapply update_value_wf.
Qed.

Lemma slotted_remove_update_refine_witness :
  (∃ p', remove (H := debug_4k) sample 0 = Ret p' ∧ wf (H := debug_4k) p' 16 [([x62], [x01; x02])]) ∧
  remove (H := debug_4k) sample 2 = Panic ∧
  (∃ p', update_value_if_same_length (H := debug_4k) sample 0 [x07] = Ret (p', true) ∧
    wf (H := debug_4k) p' 16 [([x61; x61], [x07]); ([x62], [x01; x02])]).
Proof.
  destruct (@slotted_remove_update_refine debug_4k _ _ _ 0%nat sample_wf) as (Hr & _ & Hu).
  destruct (@slotted_remove_update_refine debug_4k _ _ _ 2%nat sample_wf) as (_ & Hp & _).
  split_and!.
  - destruct (Hr _ eq_refl) as (p' & E & W & _). exists p'. exact (conj E W).
  - exact (Hp eq_refl).
  - destruct (Hu _ _ [x07] eq_refl) as (p' & E & W & _). exists p'. exact (conj E (proj1 (W eq_refl))).
Defined.

(** [compactify] keeps the sequence of entries, the reserved suffix, the
    page LSN and the other flags, clears the garbage flag and turns every
    dead byte into free space: afterwards the gap is exactly what
    [free_space_after_compaction] promised. *)
Theorem slotted_compactify_preserves `{Build} p R es :
  wf p R es →
  ∃ p', compactify p = Ret p' ∧ wf p' R es ∧ frame_kept R p p' ∧ flags_kept p p' ∧
    has_garbage p' = false ∧
    free_space p' = free_space_after_compaction p ∧
    free_space_after_compaction p' = free_space_after_compaction p ∧
    free_space p ≤ free_space p'.
Proof.
  intros Hwf. destruct (compactify_spec p R es Hwf) as (p' & E & [W D F Fl G _]).
  exists p'. pose proof (wf_bounds _ _ _ Hwf).
  rewrite (free_space_wf _ _ _ Hwf), (free_space_wf _ _ _ W),
    !(free_space_after_compaction_wf _ R es), D by done.
  split_and!; try done; lia.
Qed.

Lemma slotted_compactify_preserves_witness :
  ∃ p', compactify (H := debug_4k) sample = Ret p' ∧
    wf (H := debug_4k) p' 16 [([x61; x61], [x03]); ([x62], [x01; x02])] ∧ has_garbage p' = false.
Proof.
  destruct (@slotted_compactify_preserves debug_4k _ _ _ sample_wf) as (p' & E & W & _ & _ & G & _).
  exists p'. exact (conj E (conj W G)).
Defined.

(** A page split loses nothing: copying the slots from [n] on to an empty
    page with a reserved suffix of its own and truncating the source to [n]
    leaves the first [n] entries on the source and the rest, in order, on
    the destination. *)
Theorem slotted_split_partitions `{Build} p R es dst R2 (n : nat) :
  wf p R es → (n ≤ length es)%nat → wf dst R2 [] →
  24 + 12 * zlen (drop n es) + R2 + heap_total (drop n es) ≤ PAGE_SIZE →
  ∃ p' dst',
    copy_key_value_range p dst 0 (Z.of_nat n) (zlen es - Z.of_nat n) = Ret dst' ∧
    truncate p (Z.of_nat n) = Ret p' ∧
    wf p' R (take n es) ∧ wf dst' R2 (drop n es) ∧
    frame_kept R p p' ∧ frame_kept R2 dst dst' ∧ flags_kept p p' ∧ flags_kept dst dst'.
Proof.
  intros Hwf Hn Hdst Hfit. destruct (truncate_wf p R es n Hwf Hn) as (p' & Et & Wt & Ft & Flt).
  assert (Hz : zlen (drop n es) = zlen es - Z.of_nat n) by (unfold zlen; rewrite length_drop; lia).
  pose proof (wf_num _ _ _ Hwf) as Hnum. pose proof (num_slots_range p).
  destruct (copy_loop_wf p R es n [] (drop n es) dst R2 0%nat Hwf Hdst) as (d' & Ec & Wc & Fc & Flc).
  { rewrite Nat.add_0_r, length_drop. rewrite (drop_ge es (n + _)) by lia. by rewrite app_nil_r. }
  { lia. }
  { exact Hfit. }
  exists p', d'. split_and!; try done. unfold copy_key_value_range.
  rewrite (wf_num _ _ _ Hdst), debug_assert_true, bind_Ret by done. by rewrite <-Hz.
Qed.

Lemma slotted_split_partitions_witness :
  ∃ p' dst', copy_key_value_range (H := debug_4k) sample (init (H := debug_4k) []) 0 1 1 = Ret dst' ∧
    truncate (H := debug_4k) sample 1 = Ret p' ∧
    wf (H := debug_4k) p' 16 [([x61; x61], [x03])] ∧ wf (H := debug_4k) dst' 0 [([x62], [x01; x02])].
Proof.
  destruct (@init_wf debug_4k []) as [Hi _].
  destruct (@slotted_split_partitions debug_4k _ _ _ (init (H := debug_4k) []) 0 1%nat sample_wf)
    as (p' & d' & E1 & E2 & W1 & W2 & _); [simpl; lia|exact Hi|vm_compute; congruence|].
  exists p', d'. exact (conj E1 (conj E2 (conj W1 W2))).
Defined.

(** On a page with sorted keys [lower_bound] returns the first position
    whose key is not below the search key, and whether it is an exact match,
    on the [u64] path, on its fall-back and on the head-comparison path; the
    loops terminate. *)
Theorem lower_bound_correct `{Build} p R es key :
  wf p R es → keys_sorted es →
  ∃ pos exact, lower_bound p key = Ret (pos, exact) ∧
    0 ≤ pos ≤ zlen es ∧
    (∀ (j : nat) e, es !! j = Some e → Z.of_nat j < pos ↔ key_lt e.1 key) ∧
    (exact = true ↔ ∃ v, es !! Z.to_nat pos = Some (key, v)).
Proof.
  intros Hwf Hs. destruct (lower_bound_located Hwf Hs key) as (pos & ex & E & [Hr Hb Ha He]).
  exists pos, ex. split; [done|]. split; [done|]. split; [|done].
  intros j e Hj. split; [by apply Hb|]. intros Hlt. apply Z.lt_nge. intros Hge. by apply (Ha _ _ Hj).
Qed.

Lemma sample_sorted : keys_sorted [([x61; x61], [x03]); ([x62], [x01; x02])].
Proof. repeat constructor. Qed.

Lemma lower_bound_correct_witness :
  ∃ pos exact, lower_bound (H := debug_4k) sample [x62] = Ret (pos, exact) ∧
    exact = true ∧ pos = 1.
Proof.
  destruct (@lower_bound_correct debug_4k _ _ _ [x62] sample_wf sample_sorted)
    as (pos & ex & E & _). exists pos, ex. split; [done|]. vm_compute in E. by simplify_eq.
Defined.

(** The optimistic-read methods never panic, whatever the page bytes:
    on any page [try_get_key], [try_get_value] and [try_lower_bound] return,
    and a returned position is a slot position of the page; on a well-formed
    page they return what [get_key], [get_value] and [lower_bound] return. *)
Theorem try_methods_safe `{Build} p :
  zlen p = PAGE_SIZE →
  (∀ id, ∃ o, try_get_key p id = Ret o) ∧
  (∀ id, ∃ o, try_get_value p id = Ret o) ∧
  (∀ key, ∃ o, try_lower_bound p key = Ret o ∧
    ∀ pos exact, o = Some (pos, exact) →
      0 ≤ pos ≤ num_slots p ∧ (exact = true → pos < num_slots p)) ∧
  (∀ R es, wf p R es →
    (∀ (i : nat) e, es !! i = Some e →
      try_get_key p (Z.of_nat i) = Ret (Some e.1) ∧ get_key p (Z.of_nat i) = Ret e.1 ∧
      try_get_value p (Z.of_nat i) = Ret (Some e.2) ∧ get_value p (Z.of_nat i) = Ret e.2) ∧
    (∀ key, try_lower_bound p key = (r ← lower_bound p key; Ret (Some r)))).
Proof.
  intros Hl. split_and!.
  - intros. by apply try_get_key_total.
  - intros. by apply try_get_value_total.
  - intros key. destruct (try_lower_bound_torn Hl key) as (o & ? & ?). eauto.
  - intros R es Hwf. split.
    + intros i e He. split_and!; [by eapply try_get_key_wf|by eapply get_key_wf|
        by eapply try_get_value_wf|by eapply get_value_wf].
    + intros key. apply (try_lower_bound_agree Hwf).
Qed.

Lemma try_methods_safe_witness :
  (∃ o, try_lower_bound (H := debug_4k) (fill 4096 xff) [x61] = Ret o) ∧
  try_lower_bound (H := debug_4k) sample [x62] = Ret (Some (1, true)).
Proof.
  destruct (@try_methods_safe debug_4k (fill 4096 xff)) as (_ & _ & H3 & _); [reflexivity|].
  destruct (@try_methods_safe debug_4k sample) as (_ & _ & _ & H4); [apply sample_wf|].
  split.
  - destruct (H3 [x61]) as (o & E & _). by exists o.
  - destruct (H4 _ _ sample_wf) as [_ H5]. rewrite H5. vm_compute. reflexivity.
Defined.

(** C2: searching and then updating the page implements a finite map on byte
    strings: [lower_bound] with [get_value] is lookup; inserting at the
    position of a miss, overwriting a hit with a value of the same length and
    removing a hit act on the map as insertion and deletion of the key, and
    keep the keys sorted. *)
Theorem slotted_page_implements_map `{Build} p R es key :
  wf p R es → keys_sorted es →
  ∃ pos exact, lower_bound p key = Ret (pos, exact) ∧
    (exact = true →
      ∃ v, contents es !! key = Some v ∧ get_value p pos = Ret v ∧
        (∃ p', remove p pos = Ret p' ∧
          ∃ es', wf p' R es' ∧ keys_sorted es' ∧ contents es' = delete key (contents es)) ∧
        (∀ v', zlen v' = zlen v →
          ∃ p', update_value_if_same_length p pos v' = Ret (p', true) ∧
            ∃ es', wf p' R es' ∧ keys_sorted es' ∧ contents es' = <[key := v']> (contents es))) ∧
    (exact = false → contents es !! key = None ∧
      ∀ v, can_insert p (zlen key) (zlen v) = true →
        ∃ p', insert p pos key v = Ret p' ∧
          ∃ es', wf p' R es' ∧ keys_sorted es' ∧ contents es' = <[key := v]> (contents es)).
Proof.
  intros Hwf Hs. destruct (lower_bound_located Hwf Hs key) as (pos & ex & E & Hloc).
  exists pos, ex. pose proof (located_range _ _ _ _ Hloc) as Hr.
  assert (Hpos : pos = Z.of_nat (Z.to_nat pos)) by lia. split_and!; [done|..]; intros ->.
  - destruct (contents_exact _ _ _ Hs Hloc) as (v & Hv & Hc). exists v. rewrite Hpos.
    split_and!; [done|by apply (get_value_wf _ _ _ _ _ Hwf Hv)|..].
    + destruct (remove_wf _ _ _ _ _ Hwf Hv) as (p' & Er & W & _). exists p'. split; [done|].
      eexists. split; [done|]. by eapply delete_sorted.
    + intros v' Hl. destruct (update_value_wf _ _ _ _ _ _ v' Hwf Hv) as (p' & Eu & W & _).
      rewrite bool_decide_true in Eu by done. exists p'. split; [done|].
      eexists. split; [by apply W|]. by eapply update_sorted.
  - split; [by eapply (insert_at_sorted es key [] pos)|]. intros v Hc.
    apply (can_insert_wf _ _ _ _ _ Hwf) in Hc.
    destruct (insert_wf p R es key v (Z.to_nat pos) Hwf) as (p' & Ei & W & _);
      [unfold zlen in Hr; lia|done|].
    rewrite Hpos. exists p'. split; [done|]. eexists. split; [done|].
    destruct (insert_at_sorted es key v pos Hs Hloc) as (? & ? & _). done.
Qed.

Lemma slotted_page_implements_map_witness :
  ∃ p' es', insert (H := debug_4k) sample 1 [x61; x62] [x09] = Ret p' ∧ wf (H := debug_4k) p' 16 es' ∧
    contents es' = <[[x61; x62] := [x09]]> (contents [([x61; x61], [x03]); ([x62], [x01; x02])]).
Proof.
  destruct (@slotted_page_implements_map debug_4k _ _ _ [x61; x62] sample_wf sample_sorted)
    as (pos & ex & E & _ & Hmiss).
  assert (pos = 1 ∧ ex = false) as [-> ->] by (vm_compute in E; by simplify_eq).
  destruct (Hmiss eq_refl) as [_ Hi].
  destruct (Hi [x09]) as (p' & Ei & es' & W & _ & C); [vm_compute; reflexivity|].
  exists p', es'. exact (conj Ei (conj W C)).
Defined.
