(* ===== verification/BufferFrame.v ===== *)
(** * Buffer frames: identity, back links and the on-disk form of a page

    Models [src/crates/storage/src/buffer_frame.rs]: the identity of a frame
    as the address a hot reference encodes, the back link a frame keeps to
    the edge that routes to it, and the conversion of the references inside
    an index page to page identifiers before the page is written.

    Frames live in a store from addresses to frames; reading through an
    address that is not in the store is undefined behaviour in the source
    and a [Panic] here. *)

From S2P Require Import Prelude Bytes FrameKernel SwipKernel PageHeader PageMutation Slotted.
#[local] Open Scope Z_scope.
Import SlottedHeader SlottedPage.

#[global] Instance InnerParentLink_eq_dec : EqDecision InnerParentLink.t.
Proof. solve_decision. Defined.

(** [Stable] holds the identity of the edge's owner. *)
Inductive ParentLink :=
| LinkNone
| Unswizzled
| Stable (owner : Z)
| InnerNode (link : InnerParentLink.t).
#[global] Instance ParentLink_eq_dec : EqDecision ParentLink.
Proof. solve_decision. Defined.

Module FrameId.
Record t := { slot : Z; generation : Z }.
Definition new (slot generation : Z) : t := {| slot := slot; generation := generation |}.
End FrameId.

(** The parts of a frame its users read and write under the latch. *)
Module BufferFrame.
Record t := { pid : Z; parent_link : ParentLink; dirty : bool; page : list byte }.

Definition new `{Build} : t :=
  {| pid := 0; parent_link := LinkNone; dirty := false; page := fill PAGE_SIZE x00 |}.

Definition page_bytes (self : t) : list byte := page self.
Definition set_page (self : t) (p : list byte) : t :=
  {| pid := pid self; parent_link := parent_link self; dirty := dirty self; page := p |}.
Definition set_link (self : t) (l : ParentLink) : t :=
  {| pid := pid self; parent_link := l; dirty := dirty self; page := page self |}.

(** [BufferFrameWriteRef]. *)
Definition set_parent_link_none (self : t) : t := set_link self LinkNone.
Definition set_parent_link_stable (self : t) (owner : Z) : t := set_link self (Stable owner).
Definition set_parent_link_inner (self : t) (parent_pid slot_index : Z) (is_upper : bool) (dt_id : Z) : t :=
  set_link self (InnerNode {| InnerParentLink.parent_pid := parent_pid;
    InnerParentLink.slot_index := slot_index; InnerParentLink.is_upper := is_upper;
    InnerParentLink.dt_id := dt_id |}).
Definition mark_header_dirty (self : t) : t :=
  {| pid := pid self; parent_link := parent_link self; dirty := true; page := page self |}.
End BufferFrame.

(** Frames by address. *)
Notation frames := (gmap Z BufferFrame.t) (only parsing).

(** [align_of::<BufferFrame>()]. *)
Definition FRAME_ALIGN : Z := 4096.

Module BufferFrameRef.

Definition from_hot_swip `{Build} (swip : Z) : outcome (option Z) :=
  if negb (SwipWord.is_hot swip || SwipWord.is_cool swip) then Ret None else
  addr ← SwipWord.as_ptr swip;
  if (addr <? PAGE_SIZE) || negb (addr mod FRAME_ALIGN =? 0) then Ret None else
  Ret (Some addr).

Definition same_frame (self other : Z) : bool := self =? other.
Definition pid (heap : frames) (self : Z) : outcome Z :=
  f ← expect (heap !! self);
  Ret (BufferFrame.pid f).
Definition hot_swip `{Build} (self : Z) : outcome Z := SwipWord.hot self.

End BufferFrameRef.

Module EvictingFrame.
Definition matches_swip `{Build} (self swip : Z) : outcome bool :=
  o ← BufferFrameRef.from_hot_swip swip;
  Ret (match o with Some candidate => BufferFrameRef.same_frame candidate self | None => false end).
End EvictingFrame.

(** ** References in a page that is written

    [prepare swip] is [Some w] when the reference is to be replaced by [w]. *)

(** [for i in 0..n] over the slots. *)
Fixpoint convert_loop `{Build} (prepare : Z → outcome (option Z)) (p : page) (ids : list Z) : outcome page :=
  match ids with
  | [] => Ret p
  | i :: ids =>
      val ← get_value p i;
      p ← (if 8 <=? zlen val then
             raw ← slice val 0 8;
             o ← prepare (SwipWord.from_raw (of_le_bytes raw));
             match o with
             | Some w => r ← update_value_if_same_length p i (le_bytes 8 (SwipWord.raw w)); Ret r.1
             | None => Ret p
             end
           else Ret p);
      convert_loop prepare p ids
  end.

(** The body the two conversions share. *)
Definition convert_page `{Build} (prepare : Z → outcome (option Z)) (p : page) : outcome page :=
  if negb (bool_decide (read_page_type p = Index)) then Ret p else
  if has_custom_flag p 2 then Ret p else
  p ← convert_loop prepare p (seqZ 0 (num_slots p));
  let upper_off := PAGE_SIZE - 8 in
  raw ← slice p upper_off (zlen p);
  o ← prepare (SwipWord.from_raw (of_le_bytes raw));
  match o with
  | Some w => copy_from p upper_off (zlen p) (le_bytes 8 (SwipWord.raw w))
  | None => Ret p
  end.

(** The page identifier behind a hot or cool reference, as a word. *)
Definition hot_to_evicted `{Build} (heap : frames) (swip : Z) : outcome (option Z) :=
  if SwipWord.is_hot swip || SwipWord.is_cool swip then
    addr ← SwipWord.as_ptr swip;
    child_pid ← BufferFrameRef.pid heap addr;
    w ← SwipWord.evicted child_pid;
    Ret (Some w)
  else Ret None.

Definition convert_hot_swips_to_evicted `{Build} (heap : frames) (self : BufferFrame.t)
    : outcome BufferFrame.t :=
  p ← convert_page (hot_to_evicted heap) (BufferFrame.page self);
  Ret (BufferFrame.set_page self p).

(** [contains_frame] is the pool's range check on its arena. *)
Definition owned_to_evicted `{Build} (heap : frames) (contains_frame : Z → bool) (swip : Z)
    : outcome (option Z) :=
  o ← BufferFrameRef.from_hot_swip swip;
  match o with
  | Some frame =>
      if contains_frame frame then
        child_pid ← BufferFrameRef.pid heap frame;
        w ← SwipWord.evicted child_pid;
        Ret (Some w)
      else Ret None
  | None => Ret None
  end.

Definition convert_swips_in_buf `{Build} (heap : frames) (contains_frame : Z → bool) (buf : page)
    : outcome page :=
  convert_page (owned_to_evicted heap contains_frame) buf.
