(* ===== verification/BTreeNode.v ===== *)
(** * B-tree nodes: layout, routing and mutation through an exclusive guard

    Models [src/crates/btree/src/btree/node.rs], [parent_edge.rs] and
    [split_publish.rs]. A node is a slotted page: a leaf reserves 16 bytes
    for the page identifiers of its two siblings, an inner node 8 bytes for
    the reference to its rightmost child, and its values are the 8-byte
    references to the children left of the separators. A guard is the page
    it protects, and an [ExclusiveNode] also collects the ranges it changes
    when the pool logs them. *)

From S2P Require Import Prelude Bytes FrameKernel SwipKernel PageHeader PageMutation Slotted BufferFrame.
#[local] Open Scope Z_scope.
Import SlottedHeader SlottedPage.

(** ** Parent edges ([parent_edge.rs]) *)

Module ParentEdge.

Inductive t := Slot (pos : Z) | Upper.
#[global] Instance eq_dec : EqDecision t.
Proof. solve_decision. Defined.

Definition is_upper (edge : t) : bool := if edge is Upper then true else false.
Definition pos (edge : t) (count : Z) : Z :=
  match edge with
  | Slot pos => pos
  | Upper => count
  end.
Definition from_pos (pos count : Z) : t := if pos =? count then Upper else Slot pos.

End ParentEdge.

Definition parent_edge_round_trip_pos (p count : Z) : Z :=
  ParentEdge.pos (ParentEdge.from_pos p count) count.

(** ** Where a split is published ([split_publish.rs]) *)

Definition split_right_parent_uses_upper (pos count : Z) : bool := count <=? pos.
Definition split_separator_insert_pos (pos count : Z) : Z := if pos <? count then pos else count.

(** ** Layout *)

Definition FLAG_IS_LEAF : Z := 2.
Definition UPPER_OFFSET `{Build} : Z := PAGE_SIZE - 8.
Definition LEFT_SIBLING_OFFSET `{Build} : Z := UPPER_OFFSET.
Definition RIGHT_SIBLING_OFFSET `{Build} : Z := PAGE_SIZE - 16.
Definition UNDERFULL_THRESHOLD `{Build} : Z := PAGE_SIZE * 60 / 100.

Module BTreeNode.

Definition init `{Build} (bf : page) (leaf : bool) : outcome page :=
  let sp := SlottedPage.init bf in
  sp ← (if leaf
        then sp ← reserve_suffix sp 16; Ret (set_flag sp FLAG_IS_LEAF)
        else reserve_suffix sp 8);
  let p := write_page_type sp Index in
  let p := upd p UPPER_OFFSET (fill 8 x00) in
  Ret (upd p RIGHT_SIBLING_OFFSET (fill 8 x00)).

Definition is_leaf (bf : page) : bool := has_custom_flag bf FLAG_IS_LEAF.

Definition set_upper `{Build} (bf : page) (swip : Z) : page :=
  set_le 8 bf UPPER_OFFSET (SwipWord.raw swip).
Definition upper_swip `{Build} (bf : page) : Z := SwipWord.from_raw (get_le 8 bf UPPER_OFFSET).

Definition set_leaf_right_pid `{Build} (bf : page) (pid : Z) : page := set_le 8 bf RIGHT_SIBLING_OFFSET pid.
Definition set_leaf_left_pid `{Build} (bf : page) (pid : Z) : page := set_le 8 bf LEFT_SIBLING_OFFSET pid.
Definition leaf_right_pid `{Build} (bf : page) : Z := get_le 8 bf RIGHT_SIBLING_OFFSET.
Definition leaf_left_pid `{Build} (bf : page) : Z := get_le 8 bf LEFT_SIBLING_OFFSET.

Definition child_swip_at `{Build} (bf : page) (pos : Z) : outcome Z :=
  val ← get_value bf pos;
  raw ← slice val 0 8;
  Ret (SwipWord.from_raw (of_le_bytes raw)).

Definition set_child_swip_at `{Build} (bf : page) (pos child_swip : Z) : outcome page :=
  r ← update_value_if_same_length bf pos (le_bytes 8 (SwipWord.raw child_swip));
  _ ← debug_assert r.2;
  Ret r.1.

Definition can_insert_inner `{Build} (bf : page) (key_len : Z) : bool := can_insert bf key_len 8.
Definition is_underfull `{Build} (bf : page) : bool := UNDERFULL_THRESHOLD <? free_space_after_compaction bf.

End BTreeNode.

(** ** Routes *)

Module RoutedChildPublication.
Record t := { edge : ParentEdge.t; slot_index : Z; is_upper : bool }.
End RoutedChildPublication.

Module RoutedChildRef.

Record t := { swip : Z; edge : ParentEdge.t }.

Definition is_resident (self : t) : bool := SwipWord.is_hot (swip self) || SwipWord.is_cool (swip self).
Definition evicted_page_id `{Build} (self : t) : outcome Z :=
  _ ← assert (negb (is_resident self));
  SwipWord.as_page_id (swip self).
Definition page_id_unchecked `{Build} (heap : frames) (self : t) : outcome Z :=
  if is_resident self then
    o ← BufferFrameRef.from_hot_swip (swip self);
    match o with
    | Some frame => BufferFrameRef.pid heap frame
    | None => Ret 0
    end
  else SwipWord.as_page_id (swip self).
Definition slot_index (self : t) (count : Z) : Z := ParentEdge.pos (edge self) count.
Definition is_upper (self : t) : bool := ParentEdge.is_upper (edge self).
Definition into_publication (self : t) (parent_count : Z) : RoutedChildPublication.t := {|
  RoutedChildPublication.edge := edge self;
  RoutedChildPublication.slot_index := slot_index self parent_count;
  RoutedChildPublication.is_upper := is_upper self |}.

End RoutedChildRef.

Module ChildRef.
Record t := { frame : Z; pid : Z }.
Definition from_pid (frame pid : Z) : t := {| frame := frame; pid := pid |}.
Definition matches_swip `{Build} (self : t) (swip : Z) : outcome bool :=
  o ← BufferFrameRef.from_hot_swip swip;
  let matches_hot := match o with Some f => BufferFrameRef.same_frame f (frame self) | None => false end in
  if matches_hot then Ret true else
  if SwipWord.is_evicted swip then
    p ← SwipWord.as_page_id swip;
    Ret (p =? pid self)
  else Ret false.
End ChildRef.

(** ** Reading a node: [ResidentFrame], and the guards that delegate to it *)

Module ResidentFrame.
Import BTreeNode.

Definition try_route_to_child `{Build} (self : page) (key : list byte) : outcome (option RoutedChildRef.t) :=
  let count := num_slots self in
  r ←? try_lower_bound self key;
  let edge := ParentEdge.from_pos r.1 count in
  let slot := parent_edge_round_trip_pos r.1 count in
  match edge with
  | ParentEdge.Upper =>
      Ret (Some {| RoutedChildRef.swip := upper_swip self; RoutedChildRef.edge := edge |})
  | ParentEdge.Slot _ =>
      val ←? try_get_value self slot;
      if zlen val <? 8 then Ret None else
      raw ← slice val 0 8;
      Ret (Some {| RoutedChildRef.swip := SwipWord.from_raw (of_le_bytes raw); RoutedChildRef.edge := edge |})
  end.

Definition is_empty_leaf (self : page) : bool := num_slots self =? 0.

Definition should_chase_right `{Build} (self : page) (key : list byte) : outcome bool :=
  let right_pid := leaf_right_pid self in
  if right_pid =? 0 then Ret false else
  if num_slots self =? 0 then Ret true else
  let last_pos := num_slots self - 1 in
  o ← try_get_key self last_pos;
  Ret (match o with
       | Some last_key => bool_decide (cmp_keys key last_key = Gt)
       | None => false
       end).

(** [set_parent_link_inner] leaves a link that already says so. *)
Definition set_parent_link_inner (self : BufferFrame.t) (parent_pid slot_index : Z) (is_upper : bool) (dt_id : Z)
    : BufferFrame.t :=
  let link := {| InnerParentLink.parent_pid := parent_pid; InnerParentLink.slot_index := slot_index;
                 InnerParentLink.is_upper := is_upper; InnerParentLink.dt_id := dt_id |} in
  if bool_decide (BufferFrame.parent_link self = InnerNode link) then self
  else BufferFrame.set_parent_link_inner self parent_pid slot_index is_upper dt_id.

Definition replace_page (self : page) (p : page) : page := p.
Definition copy_page_to (self : page) : page := self.

End ResidentFrame.

(** [OptimisticNode::route_to_child] repeats [try_route_to_child]. *)
Module OptimisticNode.
Import BTreeNode.

Definition route_to_child `{Build} (self : page) (key : list byte) : outcome (option RoutedChildRef.t) :=
  ResidentFrame.try_route_to_child self key.

(** [for pos in 0..count] of [for_each_child_route]: the routes in the order
    [f] is given them, [None] when a slot cannot be read. *)
Fixpoint routes_loop `{Build} (self : page) (ids : list Z) : outcome (option (list RoutedChildRef.t)) :=
  match ids with
  | [] => Ret (Some [])
  | pos :: ids =>
      val ←? try_get_value self pos;
      if zlen val <? 8 then Ret None else
      raw ← slice val 0 8;
      rest ←? routes_loop self ids;
      Ret (Some ({| RoutedChildRef.swip := SwipWord.from_raw (of_le_bytes raw);
                    RoutedChildRef.edge := ParentEdge.Slot pos |} :: rest))
  end.

Definition for_each_child_route `{Build} (self : page) : outcome (option (list RoutedChildRef.t)) :=
  let count := num_slots self in
  if PAGE_SIZE / 12 <? count then Ret None else
  rs ←? routes_loop self (seqZ 0 count);
  Ret (Some (rs ++ [{| RoutedChildRef.swip := upper_swip self; RoutedChildRef.edge := ParentEdge.Upper |}])).

End OptimisticNode.

(** [for pos in 0..count { if matches(child_swip_at(pos)) .. }]. *)
Fixpoint edge_loop `{Build} (matches : Z → outcome bool) (self : page) (ids : list Z) : outcome (option ParentEdge.t) :=
  match ids with
  | [] => Ret None
  | pos :: ids =>
      w ← BTreeNode.child_swip_at self pos;
      m ← matches w;
      if m : bool then Ret (Some (ParentEdge.Slot pos)) else edge_loop matches self ids
  end.

(** The edge of a node whose reference satisfies [matches]. *)
Definition find_edge `{Build} (matches : Z → outcome bool) (self : page) : outcome (option ParentEdge.t) :=
  o ← edge_loop matches self (seqZ 0 (num_slots self));
  match o with
  | Some e => Ret (Some e)
  | None =>
      m ← matches (BTreeNode.upper_swip self);
      Ret (if m : bool then Some ParentEdge.Upper else None)
  end.

(** [ExclusiveNode::child_edge_for], and [child_edge_for_evicting] of both guards. *)
Definition child_edge_for `{Build} (self : page) (child : ChildRef.t) : outcome (option ParentEdge.t) :=
  find_edge (ChildRef.matches_swip child) self.
Definition child_edge_for_evicting `{Build} (self : page) (child : Z) : outcome (option ParentEdge.t) :=
  find_edge (EvictingFrame.matches_swip child) self.

(** ** Mutation: [ExclusiveNode] *)

Module ExclusiveNode.
Import BTreeNode.

Record t := { logs_dirty_ranges : bool; page : list byte; mutation : PageMutation.t }.

Definition new (logs : bool) (frame : list byte) : t :=
  {| logs_dirty_ranges := logs; page := frame; mutation := PageMutation.new |}.

Definition with_page (self : t) (p : list byte) : t :=
  {| logs_dirty_ranges := logs_dirty_ranges self; page := p; mutation := mutation self |}.
Definition with_mutation (self : t) (p : list byte) (m : PageMutation.t) : t :=
  {| logs_dirty_ranges := logs_dirty_ranges self; page := p; mutation := m |}.

(** What [finish_mutation] tells the pool. *)
Inductive Dirty := MarkDirty | MarkDirtyRanges (m : PageMutation.t) | Unchanged.

Definition finish_mutation (self : t) : t * Dirty :=
  if negb (logs_dirty_ranges self) then (self, MarkDirty) else
  let m := mutation self in
  let self := with_mutation self (page self) PageMutation.new in
  if PageMutation.is_empty m then (self, Unchanged) else (self, MarkDirtyRanges m).

(** [if self.logs_dirty_ranges { self.mutation.add_range(a..b) }] after the
    page became [p]. *)
Definition note_range `{Build} (self : t) (p : list byte) (a b : Z) : outcome t :=
  if logs_dirty_ranges self
  then m ← PageMutation.add_range (mutation self) a b; Ret (with_mutation self p m)
  else Ret (with_page self p).

Definition replace_page `{Build} (self : t) (p : list byte) : outcome t := note_range self p 8 PAGE_SIZE.

(** *** Leaves *)

Definition insert_entry `{Build} (self : t) (pos : Z) (key value : list byte) : outcome t :=
  if logs_dirty_ranges self
  then r ← insert_with_mutation (page self) pos key value (mutation self); Ret (with_mutation self r.1 r.2)
  else p ← insert (page self) pos key value; Ret (with_page self p).

Definition remove_slot `{Build} (self : t) (pos : Z) : outcome t :=
  if logs_dirty_ranges self
  then r ← remove_with_mutation (page self) pos (mutation self); Ret (with_mutation self r.1 r.2)
  else p ← remove (page self) pos; Ret (with_page self p).

Definition update_value_if_same_length `{Build} (self : t) (pos : Z) (value : list byte) : outcome (t * bool) :=
  if logs_dirty_ranges self
  then r ← update_value_with_mutation (page self) pos value (mutation self);
       Ret (with_mutation self r.1.1 r.1.2, r.2)
  else r ← SlottedPage.update_value_if_same_length (page self) pos value;
       Ret (with_page self r.1, r.2).

Definition set_left_pid `{Build} (self : t) (pid : Z) : outcome t :=
  note_range self (set_leaf_left_pid (page self) pid) LEFT_SIBLING_OFFSET (LEFT_SIBLING_OFFSET + 8).

Definition can_insert_entry `{Build} (self : t) (key_len value_len : Z) : bool :=
  can_insert (page self) key_len value_len.

(** *** Inner nodes *)

Definition child_edge_swip `{Build} (self : t) (edge : ParentEdge.t) : outcome Z :=
  match edge with
  | ParentEdge.Slot pos => child_swip_at (page self) pos
  | ParentEdge.Upper => Ret (upper_swip (page self))
  end.

Definition child_edge_matches `{Build} (self : t) (edge : ParentEdge.t) (child : ChildRef.t) : outcome bool :=
  w ← child_edge_swip self edge;
  ChildRef.matches_swip child w.

Fixpoint child_routes_loop `{Build} (self : t) (ids : list Z) : outcome (list RoutedChildRef.t) :=
  match ids with
  | [] => Ret []
  | pos :: ids =>
      w ← child_swip_at (page self) pos;
      rest ← child_routes_loop self ids;
      Ret ({| RoutedChildRef.swip := w; RoutedChildRef.edge := ParentEdge.Slot pos |} :: rest)
  end.

Definition child_routes `{Build} (self : t) : outcome (list RoutedChildRef.t) :=
  rs ← child_routes_loop self (seqZ 0 (num_slots (page self)));
  Ret (rs ++ [{| RoutedChildRef.swip := upper_swip (page self); RoutedChildRef.edge := ParentEdge.Upper |}]).

Fixpoint route_page_ids `{Build} (heap : frames) (rs : list RoutedChildRef.t) : outcome (list Z) :=
  match rs with
  | [] => Ret []
  | r :: rs =>
      pid ← RoutedChildRef.page_id_unchecked heap r;
      rest ← route_page_ids heap rs;
      Ret (pid :: rest)
  end.

Definition child_page_ids `{Build} (heap : frames) (self : t) : outcome (list Z) :=
  rs ← child_routes self;
  route_page_ids heap rs.

Definition set_upper `{Build} (self : t) (swip : Z) : outcome t :=
  note_range self (BTreeNode.set_upper (page self) swip) UPPER_OFFSET PAGE_SIZE.

Definition set_child_edge_swip `{Build} (self : t) (edge : ParentEdge.t) (swip : Z) : outcome t :=
  match edge with
  | ParentEdge.Slot pos =>
      value_range ← (if logs_dirty_ranges self
                     then r ← value_range (page self) pos; Ret (Some r) else Ret None);
      p ← set_child_swip_at (page self) pos swip;
      match value_range with
      | Some (a, b) => m ← PageMutation.add_range (mutation self) a b; Ret (with_mutation self p m)
      | None => Ret (with_page self p)
      end
  | ParentEdge.Upper => set_upper self swip
  end.

Definition can_insert_separator `{Build} (self : t) (key_len : Z) : bool := can_insert_inner (page self) key_len.

Definition insert_separator `{Build} (self : t) (pos : Z) (key : list byte) (child_swip : Z) : outcome t :=
  insert_entry self pos key (le_bytes 8 (SwipWord.raw child_swip)).

Definition set_separator_key `{Build} (self : t) (pos : Z) (key : list byte) : outcome t :=
  child_swip ← child_swip_at (page self) pos;
  self ← remove_slot self pos;
  insert_separator self pos key child_swip.

End ExclusiveNode.
