(* ===== verification/BTreeNodeInv.v ===== *)
(** * B-tree nodes: the two kinds of page and what each mutation does to them

    [leaf_page p l r es] and [inner_page p cs u] say which node the bytes [p]
    are. Every operation of [ExclusiveNode] is specified by the node it leaves
    and by the ranges it notes. *)

From S2P Require Import Prelude Bytes FrameKernel SwipKernel PageHeader PageMutation Slotted SlottedInv SlottedOps SlottedSearch SlottedMutation SlottedSpec BufferFrame BTreeNode.
#[local] Open Scope Z_scope.
Import SlottedHeader SlottedPage.

(** A child left of a separator: the separator key and the reference. *)
Notation child := (list byte * Z)%type (only parsing).

Definition word_ok (w : Z) : Prop := 0 ≤ w < 2 ^ 64.

Definition child_entry (c : child) : entry := (c.1, le_bytes 8 c.2).
Definition inner_entries (cs : list child) : list entry := child_entry <$> cs.

Record leaf_page `{Build} (p : page) (l r : Z) (es : list entry) : Prop := {
  leaf_wf : wf p 16 es;
  leaf_flag : BTreeNode.is_leaf p = true;
  leaf_type : read_page_type p = Index;
  leaf_left : BTreeNode.leaf_left_pid p = l;
  leaf_right : BTreeNode.leaf_right_pid p = r;
}.

Record inner_page `{Build} (p : page) (cs : list child) (u : Z) : Prop := {
  inner_wf : wf p 8 (inner_entries cs);
  inner_flag : BTreeNode.is_leaf p = false;
  inner_type : read_page_type p = Index;
  inner_upper : BTreeNode.upper_swip p = u;
  inner_words : Forall (λ c, word_ok c.2) cs;
}.

(** What a guard notes of the change it made. *)
Record notes `{Build} (n n' : ExclusiveNode.t) : Prop := {
  notes_logs : ExclusiveNode.logs_dirty_ranges n' = ExclusiveNode.logs_dirty_ranges n;
  notes_ok : PageMutation.ok (ExclusiveNode.mutation n');
  notes_records : ExclusiveNode.logs_dirty_ranges n = true →
    records (ExclusiveNode.mutation n) (ExclusiveNode.mutation n') (ExclusiveNode.page n) (ExclusiveNode.page n');
}.

Section inv.
Context `{Build}.
Implicit Types (p q : page) (es : list entry) (cs : list child) (nd : ExclusiveNode.t).

(** ** Flags, types and suffixes *)

Lemma is_leaf_bit p : BTreeNode.is_leaf p = Z.testbit (flags p) 1.
Proof.
  unfold BTreeNode.is_leaf, has_custom_flag, FLAG_IS_LEAF.
  assert (Z.land (flags p) 2 = if Z.testbit (flags p) 1 then 2 else 0) as ->.
  { bit_eq i. change 2 with (Z.shiftl 1 1). destruct (Z.testbit (flags p) 1) eqn:E; autorewrite with bits.
    - destruct (Z.eqb_spec i 1) as [->|]; rewrite ?E, ?andb_false_r; done.
    - destruct (Z.eqb_spec i 1) as [->|]; rewrite ?E, ?andb_false_r; done. }
  by destruct (Z.testbit (flags p) 1).
Qed.

Lemma type_bits_ext f g :
  (∀ i, 8 ≤ i < 12 → Z.testbit f i = Z.testbit g i) → type_bits f = type_bits g.
Proof.
  intros E. unfold type_bits. do 2 f_equal. bit_eq i.
  destruct (decide (8 ≤ i < 12)) as [Hi|Hi]; [by rewrite E|].
  assert (Z.testbit PAGE_TYPE_MASK i = false) as ->; [|by rewrite !andb_false_r].
  destruct (decide (i < 8)).
  - change PAGE_TYPE_MASK with (Z.shiftl 15 8). by rewrite Z.shiftl_spec_low.
  - apply (testbit_above 12); [done|lia].
Qed.

Lemma page_type_flags p q :
  20 ≤ zlen p → 20 ≤ zlen q → (∀ i, 8 ≤ i < 12 → Z.testbit (flags q) i = Z.testbit (flags p) i) →
  read_page_type q = read_page_type p.
Proof.
  intros Hp Hq E. rewrite !read_page_type_get by done. f_equal. by apply type_bits_ext.
Qed.

Lemma suffix_field R p q o :
  frame_kept R p q → PAGE_SIZE - R ≤ o → o + 8 ≤ PAGE_SIZE → 0 ≤ R ≤ PAGE_SIZE →
  get_le 8 q o = get_le 8 p o.
Proof.
  intros (_ & _ & E) ? ? ?. replace o with (PAGE_SIZE - R + (o - (PAGE_SIZE - R))) by lia.
  rewrite <-!(get_le_sub 8 _ (PAGE_SIZE - R) R) by lia. by rewrite E.
Qed.

Lemma leaf_kept p q l r es es' :
  leaf_page p l r es → wf q 16 es' → frame_kept 16 p q → flags_kept p q → leaf_page q l r es'.
Proof.
  intros [W Fl Ty Le Ri] W' Hf Hfl. pose proof PAGE_SIZE_bounds. pose proof (wf_len _ _ _ W). pose proof (wf_len _ _ _ W').
  constructor; [done| | | |].
  - rewrite is_leaf_bit, Hfl, <-is_leaf_bit by lia. done.
  - rewrite <-Ty. apply page_type_flags; [lia..|]. intros. apply Hfl. lia.
  - rewrite <-Le. apply (suffix_field 16); [done|unfold LEFT_SIBLING_OFFSET, UPPER_OFFSET; lia..].
  - rewrite <-Ri. apply (suffix_field 16); [done|unfold RIGHT_SIBLING_OFFSET; lia..].
Qed.

Lemma inner_kept p q cs cs' u :
  inner_page p cs u → wf q 8 (inner_entries cs') → frame_kept 8 p q → flags_kept p q →
  Forall (λ c, word_ok c.2) cs' → inner_page q cs' u.
Proof.
  intros [W Fl Ty Up _] W' Hf Hfl Hw. pose proof PAGE_SIZE_bounds. pose proof (wf_len _ _ _ W). pose proof (wf_len _ _ _ W').
  constructor; [done| | | |done].
  - rewrite is_leaf_bit, Hfl, <-is_leaf_bit by lia. done.
  - rewrite <-Ty. apply page_type_flags; [lia..|]. intros. apply Hfl. lia.
  - rewrite <-Up. unfold BTreeNode.upper_swip. f_equal. apply (suffix_field 8); [done|unfold UPPER_OFFSET; lia..].
Qed.

(** ** Pages that differ outside slots and heap *)

Lemma wf_ext p q R es :
  wf p R es → zlen q = PAGE_SIZE → sub q 8 10 = sub p 8 10 →
  (∀ o n, 24 ≤ o → 0 ≤ n → o + n ≤ PAGE_SIZE - R → sub q o n = sub p o n) → wf q R es.
Proof.
  intros W Hq Hh Hs. pose proof (wf_bounds _ _ _ W) as Hb. destruct W as [Hl HR Hn Ha Hu Hp Hsl Hap].
  assert (F : ∀ n o, 8 ≤ o → o + Z.of_nat n ≤ 18 → get_le n q o = get_le n p o).
  { intros n o ? ?. replace o with (8 + (o - 8)) by lia. rewrite <-!(get_le_sub n _ 8 10) by lia. by rewrite Hh. }
  assert (En : num_slots q = num_slots p) by (apply F; lia).
  assert (Ed : data_offset q = data_offset p) by (apply F; lia).
  assert (Eu : space_used q = space_used p) by (apply F; lia).
  assert (Es : slots q = slots p).
  { apply slots_ext; [done|]. intros i Hi. apply Hs; offs; lia. }
  constructor; [done|done|by rewrite En| | | | |by rewrite Es].
  - unfold slot_array_end in *. by rewrite En, Ed.
  - by rewrite Eu.
  - by rewrite Ed, Eu.
  - rewrite Es, Ed. eapply Forall2_placed_frame; [exact Hsl|done|]. intros o n Ho ? ?. pose proof (zlen_nonneg es); apply Hs; lia.
Qed.

Lemma wf_intro_empty p R :
  zlen p = PAGE_SIZE → 0 ≤ R → num_slots p = 0 → slot_array_end p ≤ data_offset p →
  space_used p = R + 0 → data_offset p + space_used p ≤ PAGE_SIZE → wf p R [].
Proof. intros. constructor; try done; rewrite slots_nil by done; constructor. Qed.

(** A write inside the reserved suffix. *)
Lemma suffix_write p R es o v :
  wf p R es → PAGE_SIZE - R ≤ o → o + 8 ≤ PAGE_SIZE → 24 ≤ PAGE_SIZE - R →
  wf (set_le 8 p o v) R es ∧ flags (set_le 8 p o v) = flags p.
Proof.
  intros W ? ? ?. pose proof PAGE_SIZE_bounds. pose proof (wf_len _ _ _ W). split.
  - apply (wf_ext p); [done|rewrite zlen_set_le; lia|by rewrite sub_set_le_ne by lia|].
    intros. by rewrite sub_set_le_ne by lia.
  - unfold flags. by rewrite get_set_le_ne by lia.
Qed.

(** A new flags word. *)
Lemma flags_write p R es f :
  wf p R es → wf (set_flags p f) R es ∧
  (∀ o, 24 ≤ o → get_le 8 (set_flags p f) o = get_le 8 p o).
Proof.
  intros W. pose proof PAGE_SIZE_bounds. pose proof (wf_len _ _ _ W). unfold set_flags. split.
  - apply (wf_ext p); [done|rewrite zlen_set_le; lia|by rewrite sub_set_le_ne by lia|].
    intros. by rewrite sub_set_le_ne by lia.
  - intros. by rewrite get_set_le_ne by lia.
Qed.

Lemma flags_set_flags p f : zlen p = PAGE_SIZE → 0 ≤ f < 2 ^ 16 → flags (set_flags p f) = f.
Proof.
  intros. pose proof PAGE_SIZE_bounds. unfold flags, set_flags. rewrite get_set_le_eq by lia. apply wrap_small. lia.
Qed.

Lemma write_page_type_flags p pt : 20 ≤ zlen p → write_page_type p pt = set_flags p (retyped (flags p) pt).
Proof. apply write_page_type_set. Qed.

(** The flag bits of a page whose type was just written. *)
Lemma typed_bits p pt :
  zlen p = PAGE_SIZE →
  read_page_type (write_page_type p pt) = pt ∧
  BTreeNode.is_leaf (write_page_type p pt) = BTreeNode.is_leaf p.
Proof.
  intros Hl. pose proof PAGE_SIZE_bounds. pose proof (flags_range p). pose proof (retyped_range (flags p) pt ltac:(lia)).
  rewrite write_page_type_flags by lia. split.
  - rewrite read_page_type_get by (unfold set_flags; rewrite zlen_set_le; lia).
    change flags_of with flags. rewrite flags_set_flags by lia. rewrite type_bits_retyped. by destruct pt.
  - rewrite !is_leaf_bit, flags_set_flags by lia. apply retyped_other_bits; lia.
Qed.

Lemma leaf_flagged p : zlen p = PAGE_SIZE → BTreeNode.is_leaf (set_flag p FLAG_IS_LEAF) = true.
Proof.
  intros Hl. pose proof (flags_range p). unfold set_flag. rewrite is_leaf_bit, flags_set_flags; [|done|].
  - rewrite Z.lor_spec. by rewrite orb_true_r.
  - split; [apply Z.lor_nonneg; unfold FLAG_IS_LEAF; lia|]. apply bits_range; [lia|apply Z.lor_nonneg; unfold FLAG_IS_LEAF; lia|].
    intros i Hi. rewrite Z.lor_spec, (testbit_above 16 (flags p)), (testbit_above 2 FLAG_IS_LEAF) by (unfold FLAG_IS_LEAF; lia). done.
Qed.

(** ** A fresh node *)

Lemma empty_reserved q R :
  0 ≤ R ≤ 16 →
  ∃ p, reserve_suffix (SlottedPage.init q) R = Ret p ∧ wf p R [] ∧ flags p = 0.
Proof.
  intros HR. pose proof PAGE_SIZE_bounds. destruct (init_wf q) as [W Hd].
  destruct (reserve_suffix_wf _ R W Hd) as (p & E & W' & _ & Hf); [lia|]. exists p. split_and!; [done|done|].
  rewrite Hf. unfold flags, SlottedPage.init, set_data_offset.
  rewrite get_set_le_ne by (rewrite ?zlen_fill; lia). apply get_le_zeros.
Qed.

Lemma clear_word p o : upd p o (fill 8 x00) = set_le 8 p o 0.
Proof. reflexivity. Qed.

(** The tail of [init]: type and cleared references. *)
Definition dressed p : page :=
  upd (upd (write_page_type p Index) UPPER_OFFSET (fill 8 x00)) RIGHT_SIBLING_OFFSET (fill 8 x00).

Lemma dressed_spec p R :
  wf p R [] → 0 ≤ R ≤ 16 →
  wf (dressed p) R [] ∧ BTreeNode.is_leaf (dressed p) = BTreeNode.is_leaf p ∧
  read_page_type (dressed p) = Index ∧
  get_le 8 (dressed p) UPPER_OFFSET = 0 ∧ get_le 8 (dressed p) RIGHT_SIBLING_OFFSET = 0.
Proof.
  intros W HR. pose proof PAGE_SIZE_bounds. pose proof (wf_len _ _ _ W) as Hl. unfold dressed.
  destruct (typed_bits p Index Hl) as [Ht Hi]. rewrite write_page_type_flags in * by lia.
  destruct (flags_write p R [] (retyped (flags p) Index) W) as [W1 _].
  set (q := set_flags _ _) in *. pose proof (wf_len _ _ _ W1) as Hq. rewrite !clear_word. unfold UPPER_OFFSET, RIGHT_SIBLING_OFFSET.
  assert (Hz : zlen (set_le 8 q (PAGE_SIZE - 8) 0) = PAGE_SIZE) by (rewrite zlen_set_le; lia).
  assert (Hfl : flags (set_le 8 (set_le 8 q (PAGE_SIZE - 8) 0) (PAGE_SIZE - 16) 0) = flags q).
  { unfold flags. by rewrite !get_set_le_ne by lia. }
  split_and!.
  - apply wf_intro_empty.
    + rewrite zlen_set_le; lia.
    + apply W1.
    + pose proof (wf_num _ _ _ W1). unfold num_slots in *. by rewrite !get_set_le_ne by lia.
    + pose proof (wf_array _ _ _ W1). unfold slot_array_end, data_offset, num_slots in *. by rewrite !get_set_le_ne by lia.
    + pose proof (wf_used _ _ _ W1). unfold space_used in *. by rewrite !get_set_le_ne by lia.
    + pose proof (wf_heap _ _ _ W1). unfold space_used, data_offset in *. by rewrite !get_set_le_ne by lia.
  - by rewrite is_leaf_bit, Hfl, <-is_leaf_bit.
  - rewrite <-Ht. apply page_type_flags; [lia|rewrite zlen_set_le; lia|]. intros. by rewrite Hfl.
  - rewrite get_set_le_ne, get_set_le_eq by lia. done.
  - rewrite get_set_le_eq by lia. done.
Qed.

Lemma init_leaf q : ∃ p, BTreeNode.init q true = Ret p ∧ leaf_page p 0 0 [].
Proof.
  destruct (empty_reserved q 16 ltac:(lia)) as (p & E & W & _). unfold BTreeNode.init. rewrite E, !bind_Ret.
  destruct (flags_write p 16 [] (Z.lor (flags p) FLAG_IS_LEAF) W) as [W1 _].
  change (set_flags p _) with (set_flag p FLAG_IS_LEAF) in W1.
  destruct (dressed_spec _ 16 W1) as (W2 & Hl & Ht & Hu & Hr); [lia|].
  exists (dressed (set_flag p FLAG_IS_LEAF)). split; [done|]. constructor; try done.
  rewrite Hl. apply leaf_flagged. apply W.
Qed.

Lemma init_inner q : ∃ p, BTreeNode.init q false = Ret p ∧ inner_page p [] 0.
Proof.
  destruct (empty_reserved q 8 ltac:(lia)) as (p & E & W & Hf). unfold BTreeNode.init. rewrite E, !bind_Ret.
  destruct (dressed_spec _ 8 W) as (W2 & Hl & Ht & Hu & Hr); [lia|].
  exists (dressed p). split; [done|]. constructor; try done. by rewrite Hl, is_leaf_bit, Hf.
Qed.

(** ** What a guard notes *)

Lemma records_trans m1 m2 m3 p1 p2 p3 : records m1 m2 p1 p2 → records m2 m3 p2 p3 → records m1 m3 p1 p3.
Proof.
  intros (_ & C1 & D1) (O2 & C2 & D2). split_and!; [done|by auto|]. intros j Hj.
  destruct (decide (p2 !! j = p1 !! j)) as [E|E]; [apply D2; congruence|by apply C2, D1].
Qed.

Lemma notes_trans n1 n2 n3 : notes n1 n2 → notes n2 n3 → notes n1 n3.
Proof.
  intros [L1 O1 R1] [L2 O2 R2]. constructor; [congruence|done|]. intros Hl.
  eapply records_trans; [by apply R1|apply R2; congruence].
Qed.

(** A mutation that is not logged. *)
Lemma notes_quiet nd p :
  ExclusiveNode.logs_dirty_ranges nd = false → PageMutation.ok (ExclusiveNode.mutation nd) →
  notes nd (ExclusiveNode.with_page nd p).
Proof. intros Hl Hok. constructor; [done|done|congruence]. Qed.

Lemma notes_logged nd p m :
  records (ExclusiveNode.mutation nd) m (ExclusiveNode.page nd) p → notes nd (ExclusiveNode.with_mutation nd p m).
Proof. intros Hr. constructor; [done|apply Hr|done]. Qed.

Lemma note_range_spec nd p a b :
  PageMutation.ok (ExclusiveNode.mutation nd) → 8 ≤ a → a < b → b ≤ PAGE_SIZE →
  (∀ j : nat, ¬ a ≤ Z.of_nat j < b → p !! j = ExclusiveNode.page nd !! j) →
  ∃ nd', ExclusiveNode.note_range nd p a b = Ret nd' ∧ ExclusiveNode.page nd' = p ∧ notes nd nd'.
Proof.
  intros Hok ? ? ? Hd. unfold ExclusiveNode.note_range. destruct (ExclusiveNode.logs_dirty_ranges nd) eqn:E.
  - destruct (add_range_step _ a b Hok) as (m & -> & Om & Cm); [done..|]. rewrite bind_Ret.
    eexists. split; [done|]. split; [done|]. apply notes_logged.
    eapply (records_intro _ _ _ _ (λ j, a ≤ j < b)); [done|done|done|]. intros. apply _.
  - eexists. split; [done|]. split; [done|]. by apply notes_quiet.
Qed.

Lemma insert_entry_spec nd R es (i : nat) k v :
  wf (ExclusiveNode.page nd) R es → PageMutation.ok (ExclusiveNode.mutation nd) →
  (i ≤ length es)%nat → fits R es k v →
  ∃ nd', ExclusiveNode.insert_entry nd (Z.of_nat i) k v = Ret nd' ∧
    wf (ExclusiveNode.page nd') R (insert_at i (k, v) es) ∧
    frame_kept R (ExclusiveNode.page nd) (ExclusiveNode.page nd') ∧
    flags_kept (ExclusiveNode.page nd) (ExclusiveNode.page nd') ∧ notes nd nd'.
Proof.
  intros W Hok Hi Hf. destruct (insert_wf _ _ _ k v i W Hi Hf) as (p' & E & W' & F' & Fl').
  unfold ExclusiveNode.insert_entry. destruct (ExclusiveNode.logs_dirty_ranges nd) eqn:Hl.
  - destruct (insert_with_mutation_records _ _ _ k v i _ W Hi Hf Hok) as (p2 & m & -> & E2 & Hr).
    rewrite bind_Ret. assert (p2 = p') as -> by congruence. eexists. split; [done|].
    split_and!; [done..|]. by apply notes_logged.
  - rewrite E, bind_Ret. eexists. split; [done|]. split_and!; [done..|]. by apply notes_quiet.
Qed.

Lemma insert_entry_full nd R es i k v :
  wf (ExclusiveNode.page nd) R es → ¬ fits R es k v → ExclusiveNode.insert_entry nd i k v = Panic.
Proof.
  intros W Hf. unfold ExclusiveNode.insert_entry, insert_with_mutation. rewrite (insert_full _ _ _ _ _ _ W Hf).
  by destruct (ExclusiveNode.logs_dirty_ranges nd).
Qed.

Lemma remove_slot_spec nd R es (i : nat) e :
  wf (ExclusiveNode.page nd) R es → PageMutation.ok (ExclusiveNode.mutation nd) → es !! i = Some e →
  ∃ nd', ExclusiveNode.remove_slot nd (Z.of_nat i) = Ret nd' ∧
    wf (ExclusiveNode.page nd') R (delete i es) ∧
    frame_kept R (ExclusiveNode.page nd) (ExclusiveNode.page nd') ∧
    flags_kept (ExclusiveNode.page nd) (ExclusiveNode.page nd') ∧ notes nd nd'.
Proof.
  intros W Hok Hi. destruct (remove_wf _ _ _ i e W Hi) as (p' & E & W' & F' & Fl' & _).
  unfold ExclusiveNode.remove_slot. destruct (ExclusiveNode.logs_dirty_ranges nd) eqn:Hl.
  - destruct (remove_with_mutation_records _ _ _ i e _ W Hi Hok) as (p2 & m & -> & E2 & Hr).
    rewrite bind_Ret. assert (p2 = p') as -> by congruence. eexists. split; [done|].
    split_and!; [done..|]. by apply notes_logged.
  - rewrite E, bind_Ret. eexists. split; [done|]. split_and!; [done..|]. by apply notes_quiet.
Qed.

Lemma update_value_spec nd R es (i : nat) k v v' :
  wf (ExclusiveNode.page nd) R es → PageMutation.ok (ExclusiveNode.mutation nd) →
  es !! i = Some (k, v) → zlen v' = zlen v →
  ∃ nd', ExclusiveNode.update_value_if_same_length nd (Z.of_nat i) v' = Ret (nd', true) ∧
    wf (ExclusiveNode.page nd') R (<[i := (k, v')]> es) ∧
    frame_kept R (ExclusiveNode.page nd) (ExclusiveNode.page nd') ∧
    flags_kept (ExclusiveNode.page nd) (ExclusiveNode.page nd') ∧ notes nd nd'.
Proof.
  intros W Hok Hi Hv. destruct (update_value_wf _ _ _ i k v v' W Hi) as (p' & E & Hy & _).
  destruct (Hy Hv) as (W' & F' & Fl'). rewrite bool_decide_eq_true_2 in E by done.
  assert (Hk : flags_kept (ExclusiveNode.page nd) p') by (intros ? ?; by rewrite Fl').
  unfold ExclusiveNode.update_value_if_same_length. destruct (ExclusiveNode.logs_dirty_ranges nd) eqn:Hl.
  - destruct (update_with_mutation_records _ _ _ i k v v' _ W Hi Hv Hok) as (p2 & m & -> & E2 & Hr).
    rewrite bind_Ret. assert (p2 = p') as -> by congruence. eexists. split; [done|].
    split_and!; [done..|]. by apply notes_logged.
  - rewrite E, bind_Ret. eexists. split; [done|]. split_and!; [done..|]. by apply notes_quiet.
Qed.

End inv.

(** ** Guarded nodes *)

Record leaf_node `{Build} (nd : ExclusiveNode.t) (l r : Z) (es : list entry) : Prop := {
  leaf_node_page : leaf_page (ExclusiveNode.page nd) l r es;
  leaf_node_ok : PageMutation.ok (ExclusiveNode.mutation nd);
}.

Record inner_node `{Build} (nd : ExclusiveNode.t) (cs : list child) (u : Z) : Prop := {
  inner_node_page : inner_page (ExclusiveNode.page nd) cs u;
  inner_node_ok : PageMutation.ok (ExclusiveNode.mutation nd);
}.

(** Room for a separator of key [k]. *)
Definition sep_fits `{Build} (cs : list child) (k : list byte) : Prop :=
  fits 8 (inner_entries cs) k (le_bytes 8 0).

#[global] Instance sep_fits_dec `{Build} cs k : Decision (sep_fits cs k).
Proof. unfold sep_fits. apply _. Defined.

(** * B-tree nodes: the operations of a guarded node

    What each operation of [ExclusiveNode] does to the sequence of entries of
    a leaf, or to the children and separators of an inner node, and when it
    panics. *)

#[local] Open Scope Z_scope.
Import SlottedHeader SlottedPage.

Section leaf.
Context `{Build}.
Implicit Types (nd : ExclusiveNode.t) (es : list entry).

Lemma leaf_insert nd l r es (i : nat) k v :
  leaf_node nd l r es → (i ≤ length es)%nat → fits 16 es k v →
  ∃ nd', ExclusiveNode.insert_entry nd (Z.of_nat i) k v = Ret nd' ∧
    leaf_node nd' l r (insert_at i (k, v) es) ∧ notes nd nd'.
Proof.
  intros [P O] Hi Hf. destruct (insert_entry_spec nd 16 es i k v (leaf_wf _ _ _ _ P) O Hi Hf)
    as (nd' & E & W & F & Fl & N).
  exists nd'. split_and!; [done| |done]. constructor; [by eapply leaf_kept|apply N].
Qed.

Lemma leaf_remove nd l r es (i : nat) e :
  leaf_node nd l r es → es !! i = Some e →
  ∃ nd', ExclusiveNode.remove_slot nd (Z.of_nat i) = Ret nd' ∧
    leaf_node nd' l r (delete i es) ∧ notes nd nd'.
Proof.
  intros [P O] Hi. destruct (remove_slot_spec nd 16 es i e (leaf_wf _ _ _ _ P) O Hi)
    as (nd' & E & W & F & Fl & N).
  exists nd'. split_and!; [done| |done]. constructor; [by eapply leaf_kept|apply N].
Qed.

Lemma leaf_update nd l r es (i : nat) k v v' :
  leaf_node nd l r es → es !! i = Some (k, v) → zlen v' = zlen v →
  ∃ nd', ExclusiveNode.update_value_if_same_length nd (Z.of_nat i) v' = Ret (nd', true) ∧
    leaf_node nd' l r (<[i := (k, v')]> es) ∧ notes nd nd'.
Proof.
  intros [P O] Hi Hv. destruct (update_value_spec nd 16 es i k v v' (leaf_wf _ _ _ _ P) O Hi Hv)
    as (nd' & E & W & F & Fl & N).
  exists nd'. split_and!; [done| |done]. constructor; [by eapply leaf_kept|apply N].
Qed.

(** A new reference in the suffix of a leaf. *)
Lemma leaf_page_set_left p l r es l' :
  leaf_page p l r es → word_ok l' → leaf_page (BTreeNode.set_leaf_left_pid p l') l' r es.
Proof.
  intros [W Fl Ty Le Ri] Hl. pose proof PAGE_SIZE_bounds. pose proof (wf_len _ _ _ W). unfold word_ok in Hl.
  unfold BTreeNode.set_leaf_left_pid, BTreeNode.leaf_left_pid, BTreeNode.leaf_right_pid in *.
  unfold LEFT_SIBLING_OFFSET, UPPER_OFFSET, RIGHT_SIBLING_OFFSET in *.
  destruct (suffix_write p 16 es (PAGE_SIZE - 8) l' W) as [W' F']; [lia..|]. constructor; [done| | | |].
  - by rewrite is_leaf_bit, F', <-is_leaf_bit.
  - rewrite <-Ty. apply page_type_flags; [lia|rewrite zlen_set_le; lia|]. intros. by rewrite F'.
  - unfold BTreeNode.leaf_left_pid. unfold LEFT_SIBLING_OFFSET, RIGHT_SIBLING_OFFSET, UPPER_OFFSET. rewrite get_set_le_eq by lia. apply wrap_small. exact Hl.
  - unfold BTreeNode.leaf_right_pid, RIGHT_SIBLING_OFFSET. by rewrite get_set_le_ne by lia.
Qed.

Lemma leaf_page_set_right p l r es r' :
  leaf_page p l r es → word_ok r' → leaf_page (BTreeNode.set_leaf_right_pid p r') l r' es.
Proof.
  intros [W Fl Ty Le Ri] Hl. pose proof PAGE_SIZE_bounds. pose proof (wf_len _ _ _ W). unfold word_ok in Hl.
  unfold BTreeNode.set_leaf_right_pid, BTreeNode.leaf_left_pid, BTreeNode.leaf_right_pid in *.
  unfold LEFT_SIBLING_OFFSET, UPPER_OFFSET, RIGHT_SIBLING_OFFSET in *.
  destruct (suffix_write p 16 es (PAGE_SIZE - 16) r' W) as [W' F']; [lia..|]. constructor; [done| | | |].
  - by rewrite is_leaf_bit, F', <-is_leaf_bit.
  - rewrite <-Ty. apply page_type_flags; [lia|rewrite zlen_set_le; lia|]. intros. by rewrite F'.
  - unfold BTreeNode.leaf_left_pid, LEFT_SIBLING_OFFSET, UPPER_OFFSET. by rewrite get_set_le_ne by lia.
  - unfold BTreeNode.leaf_right_pid. unfold LEFT_SIBLING_OFFSET, RIGHT_SIBLING_OFFSET, UPPER_OFFSET. rewrite get_set_le_eq by lia. apply wrap_small. exact Hl.
Qed.

Lemma lookup_set_le (n : nat) (p : list byte) o v (j : nat) :
  0 ≤ o → o + Z.of_nat n ≤ zlen p → ¬ o ≤ Z.of_nat j < o + Z.of_nat n → set_le n p o v !! j = p !! j.
Proof.
  intros ? ? Hj. unfold set_le. rewrite lookup_upd by (rewrite ?zlen_le_bytes; lia).
  rewrite zlen_le_bytes. by rewrite decide_False.
Qed.

Lemma leaf_set_left nd l r es l' :
  leaf_node nd l r es → word_ok l' →
  ∃ nd', ExclusiveNode.set_left_pid nd l' = Ret nd' ∧ leaf_node nd' l' r es ∧ notes nd nd'.
Proof.
  intros [P O] Hl. pose proof PAGE_SIZE_bounds. pose proof (wf_len _ _ _ (leaf_wf _ _ _ _ P)).
  destruct (note_range_spec nd (BTreeNode.set_leaf_left_pid (ExclusiveNode.page nd) l')
    LEFT_SIBLING_OFFSET (LEFT_SIBLING_OFFSET + 8) O) as (nd' & E & Ep & N).
  - unfold LEFT_SIBLING_OFFSET, UPPER_OFFSET. lia.
  - lia.
  - unfold LEFT_SIBLING_OFFSET, UPPER_OFFSET. lia.
  - intros j Hj. apply lookup_set_le; [unfold LEFT_SIBLING_OFFSET, UPPER_OFFSET in *; lia..|done].
  - exists nd'. split_and!; [done| |done]. constructor; [rewrite Ep; by eapply leaf_page_set_left|apply N].
Qed.

End leaf.

Section inner.
Context `{Build}.
Implicit Types (nd : ExclusiveNode.t) (cs : list child).

Lemma zlen_inner_entries cs : zlen (inner_entries cs) = zlen cs.
Proof. unfold zlen, inner_entries. by rewrite length_fmap. Qed.

Lemma inner_lookup cs (i : nat) k w : cs !! i = Some (k, w) → inner_entries cs !! i = Some (k, le_bytes 8 w).
Proof. intros E. unfold inner_entries. by rewrite list_lookup_fmap, E. Qed.

Lemma inner_entries_insert_at cs (i : nat) k w :
  inner_entries (insert_at i (k, w) cs) = insert_at i (k, le_bytes 8 w) (inner_entries cs).
Proof. unfold inner_entries, insert_at. by rewrite fmap_app, fmap_cons, fmap_take, fmap_drop. Qed.

Lemma inner_entries_delete cs (i : nat) : inner_entries (delete i cs) = delete i (inner_entries cs).
Proof. unfold inner_entries. by rewrite !delete_take_drop, fmap_app, fmap_take, fmap_drop. Qed.

Lemma fits_value R es k v v' : zlen v = zlen v' → fits R es k v → fits R es k v'.
Proof. unfold fits. lia. Qed.

Lemma sep_fits_word cs k w : sep_fits cs k ↔ fits 8 (inner_entries cs) k (le_bytes 8 w).
Proof. unfold sep_fits. split; apply fits_value; by rewrite !zlen_le_bytes. Qed.

Lemma word_bytes w : word_ok w → of_le_bytes (sub (le_bytes 8 w) 0 8) = w.
Proof.
  intros Hw. unfold word_ok in Hw. rewrite <-(zlen_le_bytes 8 w), sub_all at 1.
  rewrite of_le_bytes_le_bytes. apply wrap_small. exact Hw.
Qed.

Lemma slice_word w : slice (le_bytes 8 w) 0 8 = Ret (sub (le_bytes 8 w) 0 8).
Proof. by rewrite slice_Ret by (rewrite ?zlen_le_bytes; lia). Qed.

Lemma child_swip_at_spec p cs u (i : nat) k w :
  inner_page p cs u → cs !! i = Some (k, w) → BTreeNode.child_swip_at p (Z.of_nat i) = Ret w.
Proof.
  intros [W _ _ _ Hw] Hi. unfold BTreeNode.child_swip_at.
  rewrite (get_value_wf _ _ _ _ _ W (inner_lookup _ _ _ _ Hi)), bind_Ret. cbn [snd].
  rewrite slice_word, bind_Ret. unfold SwipWord.from_raw.
  rewrite word_bytes; [done|]. by apply (proj1 (Forall_lookup _ _) Hw _ _ Hi).
Qed.

Lemma can_insert_separator_spec nd cs u k :
  inner_node nd cs u → ExclusiveNode.can_insert_separator nd (zlen k) = true ↔ sep_fits cs k.
Proof.
  intros [[W _ _ _ _] _]. unfold ExclusiveNode.can_insert_separator, BTreeNode.can_insert_inner.
  change 8 with (zlen (le_bytes 8 0)) at 1. by apply can_insert_wf.
Qed.

Lemma inner_insert nd cs u (i : nat) k w :
  inner_node nd cs u → (i ≤ length cs)%nat → sep_fits cs k → word_ok w →
  ∃ nd', ExclusiveNode.insert_separator nd (Z.of_nat i) k w = Ret nd' ∧
    inner_node nd' (insert_at i (k, w) cs) u ∧ notes nd nd'.
Proof.
  intros [P O] Hi Hf Hw. unfold ExclusiveNode.insert_separator, SwipWord.raw.
  destruct (insert_entry_spec nd 8 (inner_entries cs) i k (le_bytes 8 w) (inner_wf _ _ _ P) O)
    as (nd' & E & W & F & Fl & N).
  { unfold inner_entries. by rewrite length_fmap. }
  { by apply sep_fits_word. }
  exists nd'. split_and!; [done| |done]. constructor; [|apply N]. eapply inner_kept; [exact P|..|].
  - by rewrite inner_entries_insert_at.
  - done.
  - done.
  - rewrite insert_at_perm. constructor; [done|apply P].
Qed.

Lemma inner_insert_full nd cs u i k w :
  inner_node nd cs u → ¬ sep_fits cs k → ExclusiveNode.insert_separator nd i k w = Panic.
Proof.
  intros [P O] Hf. eapply insert_entry_full; [apply P|]. unfold SwipWord.raw. by rewrite <-sep_fits_word.
Qed.

Lemma inner_remove nd cs u (i : nat) c :
  inner_node nd cs u → cs !! i = Some c →
  ∃ nd', ExclusiveNode.remove_slot nd (Z.of_nat i) = Ret nd' ∧ inner_node nd' (delete i cs) u ∧ notes nd nd'.
Proof.
  intros [P O] Hi. destruct c as [k w]. pose proof (inner_lookup _ _ _ _ Hi) as Hi'.
  destruct (remove_slot_spec nd 8 _ i _ (inner_wf _ _ _ P) O Hi') as (nd' & E & W & F & Fl & N).
  exists nd'. split_and!; [done| |done]. constructor; [|apply N]. eapply inner_kept; [exact P|..|].
  - by rewrite inner_entries_delete.
  - done.
  - done.
  - apply Forall_delete, P.
Qed.

(** [set_separator_key] takes the old separator out before the new one goes
    in; it panics exactly when the new one does not fit in what is left. *)
Lemma inner_set_key nd cs u (i : nat) k w k' :
  inner_node nd cs u → cs !! i = Some (k, w) → sep_fits (delete i cs) k' →
  ∃ nd', ExclusiveNode.set_separator_key nd (Z.of_nat i) k' = Ret nd' ∧
    inner_node nd' (<[i := (k', w)]> cs) u ∧ notes nd nd'.
Proof.
  intros Hn Hi Hf. pose proof (lookup_lt_Some _ _ _ Hi) as Hlt. unfold ExclusiveNode.set_separator_key.
  rewrite (child_swip_at_spec _ _ _ _ _ _ (inner_node_page _ _ _ Hn) Hi), bind_Ret.
  destruct (inner_remove _ _ _ _ _ Hn Hi) as (n1 & -> & Hn1 & N1). rewrite bind_Ret.
  destruct (inner_insert n1 (delete i cs) u i k' w Hn1) as (n2 & -> & Hn2 & N2); [|done| |].
  - rewrite length_delete by done. lia.
  - apply (proj1 (Forall_lookup _ _) (inner_words _ _ _ (inner_node_page _ _ _ Hn)) _ _ Hi).
  - exists n2. split_and!; [done| |by eapply notes_trans]. replace (<[i := (k', w)]> cs)
      with (insert_at i (k', w) (delete i cs)); [done|].
    unfold insert_at. rewrite delete_take_drop, take_app_le, drop_app_ge by (rewrite length_take; lia).
    rewrite take_take, length_take, !Nat.min_l by lia. rewrite Nat.sub_diag, drop_0.
    by rewrite insert_take_drop.
Qed.

Lemma inner_set_key_full nd cs u (i : nat) k w k' :
  inner_node nd cs u → cs !! i = Some (k, w) → ¬ sep_fits (delete i cs) k' →
  ExclusiveNode.set_separator_key nd (Z.of_nat i) k' = Panic.
Proof.
  intros Hn Hi Hf. unfold ExclusiveNode.set_separator_key.
  rewrite (child_swip_at_spec _ _ _ _ _ _ (inner_node_page _ _ _ Hn) Hi), bind_Ret.
  destruct (inner_remove _ _ _ _ _ Hn Hi) as (n1 & -> & Hn1 & N1). rewrite bind_Ret.
  by eapply inner_insert_full.
Qed.

Lemma inner_page_set_upper p cs u u' :
  inner_page p cs u → word_ok u' → inner_page (BTreeNode.set_upper p u') cs u'.
Proof.
  intros [W Fl Ty Up Wo] Hl. pose proof PAGE_SIZE_bounds. pose proof (wf_len _ _ _ W). unfold word_ok in Hl.
  unfold BTreeNode.set_upper, SwipWord.raw, UPPER_OFFSET.
  destruct (suffix_write p 8 _ (PAGE_SIZE - 8) u' W) as [W' F']; [lia..|]. constructor; [done| | | |done].
  - by rewrite is_leaf_bit, F', <-is_leaf_bit.
  - rewrite <-Ty. apply page_type_flags; [lia|rewrite zlen_set_le; lia|]. intros. by rewrite F'.
  - unfold BTreeNode.upper_swip, SwipWord.from_raw, UPPER_OFFSET. unfold LEFT_SIBLING_OFFSET, RIGHT_SIBLING_OFFSET, UPPER_OFFSET. rewrite get_set_le_eq by lia. apply wrap_small. exact Hl.
Qed.

Lemma inner_set_upper nd cs u u' :
  inner_node nd cs u → word_ok u' →
  ∃ nd', ExclusiveNode.set_upper nd u' = Ret nd' ∧ inner_node nd' cs u' ∧ notes nd nd'.
Proof.
  intros [P O] Hl. pose proof PAGE_SIZE_bounds. pose proof (wf_len _ _ _ (inner_wf _ _ _ P)).
  destruct (note_range_spec nd (BTreeNode.set_upper (ExclusiveNode.page nd) u')
    UPPER_OFFSET PAGE_SIZE O) as (nd' & E & Ep & N).
  - unfold UPPER_OFFSET. lia.
  - unfold UPPER_OFFSET. lia.
  - lia.
  - intros j Hj. apply lookup_set_le; [unfold UPPER_OFFSET in *; lia..|]. unfold UPPER_OFFSET in *. lia.
  - exists nd'. split_and!; [done| |done]. constructor; [rewrite Ep; by eapply inner_page_set_upper|apply N].
Qed.

(** The value of a slot is where [value_range] says. *)
Lemma set_child_records p cs u (i : nat) k w w' m :
  inner_page p cs u → cs !! i = Some (k, w) → PageMutation.ok m →
  ∃ p' a b m', value_range p (Z.of_nat i) = Ret (a, b) ∧
    BTreeNode.set_child_swip_at p (Z.of_nat i) w' = Ret p' ∧
    PageMutation.add_range m a b = Ret m' ∧ records m m' p p' ∧
    wf p' 8 (inner_entries (<[i := (k, w')]> cs)) ∧ frame_kept 8 p p' ∧ flags_kept p p'.
Proof.
  intros P Hi Hok. pose proof (inner_lookup _ _ _ _ Hi) as Hi'. pose proof (inner_wf _ _ _ P) as W.
  destruct (update_with_mutation_records p 8 _ i k _ (le_bytes 8 w') m W Hi') as (p' & m' & E & Eu & Hr);
    [by rewrite !zlen_le_bytes|done|].
  destruct (update_value_wf p 8 _ i k _ (le_bytes 8 w') W Hi') as (p2 & E2 & Hy & _).
  rewrite bool_decide_eq_true_2 in E2 by (by rewrite !zlen_le_bytes). assert (p2 = p') as -> by congruence.
  destruct Hy as (W' & F' & Fl'); [by rewrite !zlen_le_bytes|].
  destruct (wf_slot _ _ _ _ _ W Hi') as [Hp Hs]. destruct Hp as [Hk Hv _ _ Hh _]. cbn [fst snd] in *.
  rewrite zlen_le_bytes in Hv. pose proof (zlen_nonneg k).
  unfold update_value_with_mutation, value_range in E |- *. rewrite Hs, !bind_Ret in E |- *. rewrite Eu, bind_Ret in E.
  cbn [fst snd negb] in E. rewrite (proj2 (Z.ltb_lt _ _)) in E by lia.
  destruct (PageMutation.add_range _ _ _) as [m2|] eqn:Ea; [|done]. cbn in E. simplify_eq.
  eexists p', _, _, m'. split_and!; [done| |exact Ea|done| |done|intros ? ?; by rewrite Fl'].
  - unfold BTreeNode.set_child_swip_at, SwipWord.raw. rewrite Eu, bind_Ret, debug_assert_true, bind_Ret by done. done.
  - unfold inner_entries. by rewrite list_fmap_insert.
Qed.

Lemma inner_set_child nd cs u (i : nat) k w w' :
  inner_node nd cs u → cs !! i = Some (k, w) → word_ok w' →
  ∃ nd', ExclusiveNode.set_child_edge_swip nd (ParentEdge.Slot (Z.of_nat i)) w' = Ret nd' ∧
    inner_node nd' (<[i := (k, w')]> cs) u ∧ notes nd nd'.
Proof.
  intros [P O] Hi Hw. destruct (set_child_records _ _ _ i k w w' _ P Hi O)
    as (p' & a & b & m' & Ev & Es & Ea & Hr & W' & F' & Fl').
  assert (P' : inner_page p' (<[i := (k, w')]> cs) u).
  { eapply inner_kept; [exact P|done..|]. apply Forall_insert; [apply P|done]. }
  unfold ExclusiveNode.set_child_edge_swip. destruct (ExclusiveNode.logs_dirty_ranges nd) eqn:Hl.
  - rewrite Ev, !bind_Ret, Es, bind_Ret, Ea, bind_Ret. eexists. split; [done|]. split; [|by apply notes_logged].
    constructor; [done|apply Hr].
  - rewrite bind_Ret, Es, bind_Ret. eexists. split; [done|]. split; [|by apply notes_quiet]. by constructor.
Qed.

End inner.
