(* ===== verification/BTreePages.v ===== *)
(** * B-tree: what the tree does to the pages of its nodes

    Models the parts of [src/crates/btree/src/btree.rs] that compute node
    pages: insertion into a leaf, the two halves of every kind of split, the
    publication of a split in the parent, and merging. The frames the pages
    live in, their latches and the retry loops around these steps are not in
    this file: a function takes the pages of the nodes its caller has latched
    and returns the pages it leaves. *)

From S2P Require Import Prelude Bytes FrameKernel SwipKernel PageHeader PageMutation Slotted BufferFrame BTreeNode.
#[local] Open Scope Z_scope.
Import SlottedHeader SlottedPage.

Inductive InsertLeafAction := ReturnFalse | Inserted | SplitRequired.
Inductive UpsertLeafAction := UpdatedExisting | UpsertInserted | UpsertSplitRequired.
#[global] Instance InsertLeafAction_eq_dec : EqDecision InsertLeafAction.
Proof. solve_decision. Defined.
#[global] Instance UpsertLeafAction_eq_dec : EqDecision UpsertLeafAction.
Proof. solve_decision. Defined.

Module PendingLeafEntry.
Record t := { key : list byte; value : list byte }.
End PendingLeafEntry.

Module SplitParentEdges.
Record t := { left : ParentEdge.t; right : ParentEdge.t }.
End SplitParentEdges.

(** [a < b], [a <= b] and [a == b] on keys. *)
Definition key_ltb (a b : list byte) : bool := if slice_cmp a b is Lt then true else false.
Definition key_leb (a b : list byte) : bool := if slice_cmp a b is Gt then false else true.
Definition key_eqb (a b : list byte) : bool := if slice_cmp a b is Eq then true else false.

(** ** Leaf insertion *)

Definition leaf_insert_bound `{Build} (sp : page) (key : list byte) : outcome (Z * bool) :=
  let count := num_slots sp in
  if count =? 0 then Ret (0, false) else
  let last_pos := count - 1 in
  last_key ← get_key sp last_pos;
  if key_ltb last_key key then Ret (count, false) else
  if key_eqb key last_key then Ret (last_pos, true) else
  lower_bound sp key.

Definition try_insert_leaf `{Build} (leaf : ExclusiveNode.t) (key value : list byte)
    : outcome (ExclusiveNode.t * ExclusiveNode.Dirty * InsertLeafAction) :=
  r ← leaf_insert_bound (ExclusiveNode.page leaf) key;
  let '(pos, exact) := r in
  if exact : bool then Ret (leaf, ExclusiveNode.Unchanged, ReturnFalse) else
  if negb (ExclusiveNode.can_insert_entry leaf (zlen key) (zlen value))
  then Ret (leaf, ExclusiveNode.Unchanged, SplitRequired) else
  leaf ← ExclusiveNode.insert_entry leaf pos key value;
  Ret (ExclusiveNode.finish_mutation leaf, Inserted).

Definition try_upsert_leaf `{Build} (leaf : ExclusiveNode.t) (key value : list byte)
    : outcome (ExclusiveNode.t * ExclusiveNode.Dirty * UpsertLeafAction) :=
  r ← leaf_insert_bound (ExclusiveNode.page leaf) key;
  let '(pos, exact) := r in
  if exact : bool then
    old ← get_value (ExclusiveNode.page leaf) pos;
    let old_val_len := zlen old in
    if old_val_len =? zlen value then
      r ← ExclusiveNode.update_value_if_same_length leaf pos value;
      _ ← debug_assert r.2;
      Ret (ExclusiveNode.finish_mutation r.1, UpdatedExisting)
    else
      let old_entry_len := zlen key + old_val_len in
      let new_entry_len := zlen key + zlen value in
      if new_entry_len <=? free_space_after_compaction (ExclusiveNode.page leaf) + old_entry_len then
        leaf ← ExclusiveNode.remove_slot leaf pos;
        leaf ← ExclusiveNode.insert_entry leaf pos key value;
        Ret (ExclusiveNode.finish_mutation leaf, UpdatedExisting)
      else Ret (leaf, ExclusiveNode.Unchanged, UpsertSplitRequired)
  else if negb (ExclusiveNode.can_insert_entry leaf (zlen key) (zlen value))
  then Ret (leaf, ExclusiveNode.Unchanged, UpsertSplitRequired) else
  leaf ← ExclusiveNode.insert_entry leaf pos key value;
  Ret (ExclusiveNode.finish_mutation leaf, UpsertInserted).

(** ** Splits *)

(** How [split_node] divides a node. *)
Inductive SplitPlan :=
| NoSplit
| SplitSingle (sep_key : list byte) (move_existing_to_right : bool)
| SplitAt (split_pos : Z) (sep_key : list byte) (pending : option PendingLeafEntry.t).

(** [usize::from(pending.key >= sp.get_key(1)) as u16], or the middle. *)
Definition split_position `{Build} (sp : page) (pending : option PendingLeafEntry.t) : outcome Z :=
  match pending with
  | Some pending =>
      k1 ← get_key sp 1;
      Ret (if key_leb k1 (PendingLeafEntry.key pending) then 1 else 0)
  | None => Ret (num_slots sp / 2)
  end.

Definition split_plan `{Build} (sp : page) (pending_entry : option PendingLeafEntry.t) : outcome SplitPlan :=
  let is_leaf := BTreeNode.is_leaf sp in
  let count := num_slots sp in
  if count <? 2 then
    if negb is_leaf then Ret NoSplit else
    match pending_entry with
    | None => Ret NoSplit
    | Some pending =>
        existing_key ← get_key sp 0;
        if key_ltb (PendingLeafEntry.key pending) existing_key
        then Ret (SplitSingle (PendingLeafEntry.key pending) true)
        else Ret (SplitSingle existing_key false)
    end
  else
    let pending_small_leaf := if is_leaf && (count =? 2) then pending_entry else None in
    split_pos ← split_position sp pending_small_leaf;
    sep_key ← get_key sp split_pos;
    Ret (SplitAt split_pos sep_key pending_small_leaf).

(** [lower_bound], the assertion and the insertion of a pending entry. *)
Definition insert_pending `{Build} (p : page) (pending : PendingLeafEntry.t) : outcome page :=
  r ← lower_bound p (PendingLeafEntry.key pending);
  _ ← assert (negb r.2);
  insert p r.1 (PendingLeafEntry.key pending) (PendingLeafEntry.value pending).

Definition install_pending `{Build} (left right : page) (sep_key : list byte) (pending : option PendingLeafEntry.t)
    : outcome (page * page) :=
  match pending with
  | None => Ret (left, right)
  | Some pending =>
      if key_leb (PendingLeafEntry.key pending) sep_key
      then left ← insert_pending left pending; Ret (left, right)
      else right ← insert_pending right pending; Ret (left, right)
  end.

(** The left half of a leaf, built in a temporary page. *)
Definition rebuild_left_leaf `{Build} (node : page) (left_count old_left_pid new_sibling_pid : Z) : outcome page :=
  tmp ← reserve_suffix (SlottedPage.init (fill PAGE_SIZE x00)) 16;
  tmp ← copy_key_value_range node tmp 0 0 left_count;
  let tmp := set_flag tmp FLAG_IS_LEAF in
  let tmp := set_le 8 tmp LEFT_SIBLING_OFFSET old_left_pid in
  let tmp := set_le 8 tmp RIGHT_SIBLING_OFFSET new_sibling_pid in
  Ret (write_page_type tmp Index).

(** The leaf arm of [split_node]: the pages of the node and of its new right
    sibling, and the successor whose left link must be moved. *)
Definition split_leaf `{Build} (node sibling : page) (node_pid sibling_pid split_pos : Z) (sep_key : list byte)
    (pending : option PendingLeafEntry.t) : outcome (page * page * Z) :=
  let count := num_slots node in
  sibling ← BTreeNode.init sibling true;
  right_start ← uadd 16 split_pos 1;
  right_count ← usub 16 count right_start;
  let old_left_pid := BTreeNode.leaf_left_pid node in
  let old_right_pid := BTreeNode.leaf_right_pid node in
  sibling ← copy_key_value_range node sibling 0 right_start right_count;
  let sibling := BTreeNode.set_leaf_left_pid sibling node_pid in
  let sibling := BTreeNode.set_leaf_right_pid sibling old_right_pid in
  node ← rebuild_left_leaf node right_start old_left_pid sibling_pid;
  r ← install_pending node sibling sep_key pending;
  Ret (r, old_right_pid).

(** The inner arm of [split_node]: the separator at [split_pos] moves up. *)
Definition split_inner `{Build} (node sibling : page) (split_pos : Z) : outcome (page * page) :=
  let count := num_slots node in
  sibling ← BTreeNode.init sibling false;
  right_sep_start ← uadd 16 split_pos 1;
  right_sep_count ← usub 16 count right_sep_start;
  sibling ← (if 0 <? right_sep_count
             then copy_key_value_range node sibling 0 right_sep_start right_sep_count else Ret sibling);
  let sibling := BTreeNode.set_upper sibling (BTreeNode.upper_swip node) in
  tmp ← reserve_suffix (SlottedPage.init (fill PAGE_SIZE x00)) 8;
  tmp ← (if 0 <? split_pos then copy_key_value_range node tmp 0 0 split_pos else Ret tmp);
  left_upper ← BTreeNode.child_swip_at node split_pos;
  let tmp := write_page_type tmp Index in
  Ret (BTreeNode.set_upper tmp left_upper, sibling).

(** The leaf arm of [split_stable_root]: both halves go to new pages. *)
Definition split_root_leaf `{Build} (root left right : page) (left_pid right_pid split_pos : Z) (sep_key : list byte)
    (pending : option PendingLeafEntry.t) : outcome (page * page * Z) :=
  let count := num_slots root in
  left ← BTreeNode.init left true;
  right ← BTreeNode.init right true;
  right_start ← uadd 16 split_pos 1;
  right_count ← usub 16 count right_start;
  let old_left_pid := BTreeNode.leaf_left_pid root in
  let old_right_pid := BTreeNode.leaf_right_pid root in
  left ← copy_key_value_range root left 0 0 right_start;
  right ← copy_key_value_range root right 0 right_start right_count;
  let left := BTreeNode.set_leaf_right_pid (BTreeNode.set_leaf_left_pid left old_left_pid) right_pid in
  let right := BTreeNode.set_leaf_right_pid (BTreeNode.set_leaf_left_pid right left_pid) old_right_pid in
  r ← install_pending left right sep_key pending;
  Ret (r, old_right_pid).

(** [swip_page_id]. *)
Definition swip_page_id `{Build} (heap : frames) (swip : Z) : outcome Z :=
  if SwipWord.is_hot swip || SwipWord.is_cool swip then
    o ← BufferFrameRef.from_hot_swip swip;
    frame ← expect o;
    BufferFrameRef.pid heap frame
  else SwipWord.as_page_id swip.

Fixpoint unswizzle_loop `{Build} (heap : frames) (node : page) (ids : list Z) : outcome page :=
  match ids with
  | [] => Ret node
  | pos :: ids =>
      w ← BTreeNode.child_swip_at node pos;
      child_pid ← swip_page_id heap w;
      w ← SwipWord.evicted child_pid;
      node ← BTreeNode.set_child_swip_at node pos w;
      unswizzle_loop heap node ids
  end.

Definition unswizzle_copied_inner_edges `{Build} (heap : frames) (node : page) : outcome page :=
  node ← unswizzle_loop heap node (seqZ 0 (num_slots node));
  upper_pid ← swip_page_id heap (BTreeNode.upper_swip node);
  w ← SwipWord.evicted upper_pid;
  Ret (BTreeNode.set_upper node w).

(** The inner arm of [split_stable_root]. *)
Definition split_root_inner `{Build} (heap : frames) (root left right : page) (split_pos : Z) : outcome (page * page) :=
  let count := num_slots root in
  left ← BTreeNode.init left false;
  right ← BTreeNode.init right false;
  right_sep_start ← uadd 16 split_pos 1;
  right_sep_count ← usub 16 count right_sep_start;
  left ← (if 0 <? split_pos then copy_key_value_range root left 0 0 split_pos else Ret left);
  right ← (if 0 <? right_sep_count
           then copy_key_value_range root right 0 right_sep_start right_sep_count else Ret right);
  left_upper ← BTreeNode.child_swip_at root split_pos;
  let left := BTreeNode.set_upper left left_upper in
  let right := BTreeNode.set_upper right (BTreeNode.upper_swip root) in
  left ← unswizzle_copied_inner_edges heap left;
  right ← unswizzle_copied_inner_edges heap right;
  Ret (left, right).

(** The root after either root split: one separator between two children. *)
Definition new_root `{Build} (logs : bool) (root : page) (sep_key : list byte) (left_swip right_swip : Z)
    : outcome ExclusiveNode.t :=
  p ← BTreeNode.init root false;
  root ← ExclusiveNode.insert_separator (ExclusiveNode.new logs p) 0 sep_key left_swip;
  ExclusiveNode.set_child_edge_swip root ParentEdge.Upper right_swip.

(** [split_single_entry_leaf]. *)
Definition split_single_leaf `{Build} (node sibling : page) (node_pid sibling_pid : Z) (move_existing_to_right : bool)
    (pending : PendingLeafEntry.t) : outcome (page * page * Z) :=
  sibling ← BTreeNode.init sibling true;
  let old_left_pid := BTreeNode.leaf_left_pid node in
  let old_right_pid := BTreeNode.leaf_right_pid node in
  r ← (if move_existing_to_right then
         sibling ← copy_key_value_range node sibling 0 0 1;
         tmp ← reserve_suffix (SlottedPage.init (fill PAGE_SIZE x00)) 16;
         let tmp := set_flag tmp FLAG_IS_LEAF in
         let tmp := set_le 8 tmp LEFT_SIBLING_OFFSET old_left_pid in
         let tmp := set_le 8 tmp RIGHT_SIBLING_OFFSET sibling_pid in
         let node := write_page_type tmp Index in
         node ← insert node 0 (PendingLeafEntry.key pending) (PendingLeafEntry.value pending);
         Ret (node, sibling)
       else
         node ← rebuild_left_leaf node 1 old_left_pid sibling_pid;
         sibling ← insert sibling 0 (PendingLeafEntry.key pending) (PendingLeafEntry.value pending);
         Ret (node, sibling));
  let sibling := BTreeNode.set_leaf_right_pid (BTreeNode.set_leaf_left_pid r.2 node_pid) old_right_pid in
  Ret (r.1, sibling, old_right_pid).

(** [split_single_entry_stable_root]. *)
Definition split_single_root `{Build} (root left right : page) (left_pid right_pid : Z) (move_existing_to_right : bool)
    (pending : PendingLeafEntry.t) : outcome (page * page * Z) :=
  let old_left_pid := BTreeNode.leaf_left_pid root in
  let old_right_pid := BTreeNode.leaf_right_pid root in
  left ← BTreeNode.init left true;
  right ← BTreeNode.init right true;
  r ← (if move_existing_to_right then
         right ← copy_key_value_range root right 0 0 1;
         left ← insert left 0 (PendingLeafEntry.key pending) (PendingLeafEntry.value pending);
         Ret (left, right)
       else
         left ← copy_key_value_range root left 0 0 1;
         right ← insert right 0 (PendingLeafEntry.key pending) (PendingLeafEntry.value pending);
         Ret (left, right));
  let left := BTreeNode.set_leaf_right_pid (BTreeNode.set_leaf_left_pid r.1 old_left_pid) right_pid in
  let right := BTreeNode.set_leaf_right_pid (BTreeNode.set_leaf_left_pid r.2 left_pid) old_right_pid in
  Ret (left, right, old_right_pid).

(** ** Publication of a split in the parent *)

Definition apply_split_to_latched_parent `{Build} (parent : ExclusiveNode.t) (sep_key : list byte)
    (left_swip right_swip : Z) (edge : ParentEdge.t) : outcome (ExclusiveNode.t * SplitParentEdges.t) :=
  let count := num_slots (ExclusiveNode.page parent) in
  let pos := ParentEdge.pos edge count in
  let right_uses_upper := split_right_parent_uses_upper pos count in
  let separator_pos := split_separator_insert_pos pos count in
  right_link_edge ← (if right_uses_upper then Ret ParentEdge.Upper
                     else next ← uadd 16 pos 1; Ret (ParentEdge.Slot next));
  parent ← (if negb right_uses_upper then
              parent ← ExclusiveNode.set_child_edge_swip parent (ParentEdge.Slot pos) right_swip;
              ExclusiveNode.insert_separator parent separator_pos sep_key left_swip
            else
              parent ← ExclusiveNode.insert_separator parent separator_pos sep_key left_swip;
              ExclusiveNode.set_child_edge_swip parent ParentEdge.Upper right_swip);
  Ret (parent, {| SplitParentEdges.left := ParentEdge.Slot pos; SplitParentEdges.right := right_link_edge |}).
