(* ===== verification/BTreeMerge.v ===== *)
(** * B-tree: merging and separator repair, on pages

    Models the parts of [src/crates/btree/src/btree.rs] that a deletion
    triggers: whether two siblings can be merged, the merged page, the
    removal of the merged sibling from the parent, and the repair of a
    separator. *)

From S2P Require Import Prelude Bytes FrameKernel SwipKernel PageHeader PageMutation Slotted BufferFrame BTreeNode BTreePages.
#[local] Open Scope Z_scope.
Import SlottedHeader SlottedPage.

(** ** Leaves *)

Fixpoint slots_sane_loop `{Build} (sp : page) (ids : list Z) : outcome bool :=
  match ids with
  | [] => Ret true
  | i :: ids =>
      k ← try_get_key sp i;
      match k with
      | None => Ret false
      | Some _ =>
          v ← try_get_value sp i;
          match v with
          | None => Ret false
          | Some _ => slots_sane_loop sp ids
          end
      end
  end.

Definition leaf_slots_look_sane `{Build} (sp : page) : outcome bool :=
  let count := num_slots sp in
  if PAGE_SIZE / 12 <? count then Ret false else
  slots_sane_loop sp (seqZ 0 count).

(** The comparison of the last left key with the first right key. *)
Definition ranges_in_order `{Build} (left_sp right_sp : page) : outcome bool :=
  let left_count := num_slots left_sp in
  let right_count := num_slots right_sp in
  if (0 <? left_count) && (0 <? right_count) then
    left_max ← try_get_key left_sp (left_count - 1);
    match left_max with
    | None => Ret false
    | Some left_max =>
        right_min ← try_get_key right_sp 0;
        match right_min with
        | None => Ret false
        | Some right_min => Ret (negb (key_ltb right_min left_max))
        end
    end
  else Ret true.

Definition leaf_pair_is_mergeable `{Build} (parent left right : ExclusiveNode.t) (left_ref right_ref : ChildRef.t)
    (left_pos : Z) : outcome bool :=
  if BufferFrameRef.same_frame (ChildRef.frame left_ref) (ChildRef.frame right_ref) then Ret false else
  m ← ExclusiveNode.child_edge_matches parent (ParentEdge.Slot left_pos) left_ref;
  if negb m then Ret false else
  let count := num_slots (ExclusiveNode.page parent) in
  next ← uadd 16 left_pos 1;
  let right_edge := ParentEdge.from_pos next count in
  m ← ExclusiveNode.child_edge_matches parent right_edge right_ref;
  if negb m then Ret false else
  let left_pid := ChildRef.pid left_ref in
  let right_pid := ChildRef.pid right_ref in
  if (left_pid =? right_pid) || negb (BTreeNode.leaf_right_pid (ExclusiveNode.page left) =? right_pid)
  then Ret false else
  sane ← leaf_slots_look_sane (ExclusiveNode.page left);
  if negb sane then Ret false else
  sane ← leaf_slots_look_sane (ExclusiveNode.page right);
  if negb sane then Ret false else
  ranges_in_order (ExclusiveNode.page left) (ExclusiveNode.page right).

(** One of the two loops that append the entries of a leaf to the temporary
    page; [None] when the source cannot be read or the entry does not fit. *)
Fixpoint append_leaf_loop `{Build} (src tmp : page) (ids : list Z) : outcome (option page) :=
  match ids with
  | [] => Ret (Some tmp)
  | i :: ids =>
      key ←? try_get_key src i;
      value ←? try_get_value src i;
      if negb (can_insert tmp (zlen key) (zlen value)) then Ret None else
      tmp ← insert tmp (num_slots tmp) key value;
      append_leaf_loop src tmp ids
  end.

(** Both leaves in a fresh leaf page. *)
Definition concat_leaves `{Build} (left right : page) : outcome (option page) :=
  tmp ← reserve_suffix (SlottedPage.init (fill PAGE_SIZE x00)) 16;
  let tmp := set_flag tmp FLAG_IS_LEAF in
  tmp ←? append_leaf_loop left tmp (seqZ 0 (num_slots left));
  append_leaf_loop right tmp (seqZ 0 (num_slots right)).

Definition leaf_pair_fits `{Build} (left right : page) : outcome bool :=
  o ← concat_leaves left right;
  Ret (if o is Some _ then true else false).

Definition merge_leaf_pages_into_left `{Build} (left : ExclusiveNode.t) (right : page)
    : outcome (ExclusiveNode.t * ExclusiveNode.Dirty * bool) :=
  let left_left := BTreeNode.leaf_left_pid (ExclusiveNode.page left) in
  let new_leaf_right := BTreeNode.leaf_right_pid right in
  o ← concat_leaves (ExclusiveNode.page left) right;
  match o with
  | None => Ret (left, ExclusiveNode.Unchanged, false)
  | Some tmp =>
      let tmp := set_le 8 tmp LEFT_SIBLING_OFFSET left_left in
      let tmp := set_le 8 tmp RIGHT_SIBLING_OFFSET new_leaf_right in
      let tmp := write_page_type tmp Index in
      left ← ExclusiveNode.replace_page left tmp;
      Ret (ExclusiveNode.finish_mutation left, true)
  end.

(** ** Inner nodes *)

Fixpoint append_inner_loop `{Build} (src tmp : page) (ids : list Z) : outcome (option page) :=
  match ids with
  | [] => Ret (Some tmp)
  | i :: ids =>
      key ← get_key src i;
      if negb (can_insert tmp (zlen key) 8) then Ret None else
      value ← get_value src i;
      tmp ← insert tmp (num_slots tmp) key value;
      append_inner_loop src tmp ids
  end.

Definition inner_pair_fits `{Build} (left : page) (boundary_key : list byte) (right : page) : outcome bool :=
  tmp ← reserve_suffix (SlottedPage.init (fill PAGE_SIZE x00)) 8;
  o ← append_inner_loop left tmp (seqZ 0 (num_slots left));
  match o with
  | None => Ret false
  | Some tmp =>
      if negb (can_insert tmp (zlen boundary_key) 8) then Ret false else
      tmp ← insert tmp (num_slots tmp) boundary_key (le_bytes 8 (SwipWord.raw (BTreeNode.upper_swip left)));
      o ← append_inner_loop right tmp (seqZ 0 (num_slots right));
      Ret (if o is Some _ then true else false)
  end.

(** [merge_inner_pages_into_left] without the refresh of back links. *)
Definition merge_inner_pages_into_left `{Build} (left : ExclusiveNode.t) (boundary_key : list byte) (right : page)
    : outcome (ExclusiveNode.t * ExclusiveNode.Dirty) :=
  let left_page := ExclusiveNode.page left in
  let left_count := num_slots left_page in
  let right_count := num_slots right in
  let left_upper := BTreeNode.upper_swip left_page in
  let new_upper := BTreeNode.upper_swip right in
  tmp ← reserve_suffix (SlottedPage.init (fill PAGE_SIZE x00)) 8;
  tmp ← (if 0 <? left_count then copy_key_value_range left_page tmp 0 0 left_count else Ret tmp);
  tmp ← insert tmp (num_slots tmp) boundary_key (le_bytes 8 (SwipWord.raw left_upper));
  tmp ← (if 0 <? right_count then copy_key_value_range right tmp (num_slots tmp) 0 right_count else Ret tmp);
  let tmp := write_page_type tmp Index in
  left ← ExclusiveNode.replace_page left tmp;
  left ← ExclusiveNode.set_upper left new_upper;
  Ret (ExclusiveNode.finish_mutation left).

(** ** The parent of two merged siblings

    Each returns the parent and the edge its back link to the merged child
    records. *)

Definition merged_max `{Build} (merged : page) : outcome (option (list byte)) :=
  try_get_key merged (saturating_sub (num_slots merged) 1).

Definition unlink_merged_right_leaf `{Build} (parent : ExclusiveNode.t) (merged : page) (merged_swip : Z)
    (merged_edge : ParentEdge.t) (removed_slot : Z) : outcome (ExclusiveNode.t * ParentEdge.t) :=
  max ← merged_max merged;
  match merged_edge with
  | ParentEdge.Upper =>
      parent ← ExclusiveNode.set_child_edge_swip parent ParentEdge.Upper merged_swip;
      parent ← ExclusiveNode.remove_slot parent removed_slot;
      Ret (parent, ParentEdge.Upper)
  | ParentEdge.Slot _ =>
      parent ← match max with
               | Some key => ExclusiveNode.set_separator_key parent removed_slot key
               | None => Ret parent
               end;
      next ← uadd 16 removed_slot 1;
      parent ← ExclusiveNode.remove_slot parent next;
      Ret (parent, ParentEdge.Slot removed_slot)
  end.

Definition unlink_merged_left_leaf `{Build} (parent : ExclusiveNode.t) (merged : page) (merged_swip : Z)
    (merged_separator_slot removed_slot : Z) (replacement_key : option (list byte))
    : outcome (ExclusiveNode.t * ParentEdge.t) :=
  max ← merged_max merged;
  match replacement_key with
  | None =>
      parent ← ExclusiveNode.set_child_edge_swip parent ParentEdge.Upper merged_swip;
      parent ← ExclusiveNode.remove_slot parent merged_separator_slot;
      Ret (parent, ParentEdge.Upper)
  | Some _ =>
      parent ← match max with
               | Some key => ExclusiveNode.set_separator_key parent merged_separator_slot key
               | None => Ret parent
               end;
      parent ← ExclusiveNode.remove_slot parent removed_slot;
      Ret (parent, ParentEdge.Slot merged_separator_slot)
  end.

Definition unlink_merged_right_inner `{Build} (parent : ExclusiveNode.t) (merged_swip : Z)
    (merged_edge : ParentEdge.t) (removed_slot : Z) : outcome (ExclusiveNode.t * ParentEdge.t) :=
  parent ← ExclusiveNode.set_child_edge_swip parent merged_edge merged_swip;
  parent ← ExclusiveNode.remove_slot parent removed_slot;
  Ret (parent, merged_edge).

Definition unlink_merged_left_inner `{Build} (parent : ExclusiveNode.t) (merged_swip : Z)
    (merged_separator_slot removed_slot : Z) (replacement_key : option (list byte))
    : outcome (ExclusiveNode.t * ParentEdge.t) :=
  parent ← match replacement_key with
           | Some key => ExclusiveNode.set_separator_key parent merged_separator_slot key
           | None => ExclusiveNode.set_child_edge_swip parent ParentEdge.Upper merged_swip
           end;
  parent ← ExclusiveNode.remove_slot parent removed_slot;
  Ret (parent, if replacement_key is Some _ then ParentEdge.Slot merged_separator_slot else ParentEdge.Upper).

(** [collapse_empty_root_to_child]: the page of the root. *)
Definition collapse_empty_root_to_child `{Build} (heap : frames) (child : page) : outcome page :=
  if negb (BTreeNode.is_leaf child) then unswizzle_copied_inner_edges heap child else Ret child.

(** One turn of [repair_separators_after_delete] at a parent: whether the
    walk goes on to the parent's own parent. *)
Definition repair_separator `{Build} (parent : ExclusiveNode.t) (child : ChildRef.t) (new_max : option (list byte))
    : outcome (ExclusiveNode.t * ExclusiveNode.Dirty * bool) :=
  o ← child_edge_for (ExclusiveNode.page parent) child;
  match o with
  | None => Ret (parent, ExclusiveNode.Unchanged, false)
  | Some edge =>
      let count := num_slots (ExclusiveNode.page parent) in
      let pos := ParentEdge.pos edge count in
      if pos <? count then
        match new_max with
        | None => Ret (parent, ExclusiveNode.Unchanged, false)
        | Some key =>
            k ← get_key (ExclusiveNode.page parent) pos;
            if key_eqb k key then Ret (parent, ExclusiveNode.Unchanged, false) else
            parent ← ExclusiveNode.set_separator_key parent pos key;
            Ret (ExclusiveNode.finish_mutation parent, false)
        end
      else Ret (parent, ExclusiveNode.Unchanged, true)
  end.
