(* ===== verification/BTreeSplitSpec.v ===== *)
(** * B-tree: insertion into a leaf

    [try_insert_leaf] and [try_upsert_leaf] on a sorted leaf are map
    operations, and what they report to the pool covers what they changed. *)

From S2P Require Import Prelude Bytes FrameKernel SwipKernel PageHeader PageMutation Slotted SlottedInv SlottedOps SlottedSearch SlottedMutation SlottedSpec BufferFrame BTreeNode BTreeNodeInv BTreePages.
#[local] Open Scope Z_scope.
Import SlottedHeader SlottedPage.

(** ** Keys *)

Lemma key_ltb_spec a b : key_ltb a b = true ↔ key_lt a b.
Proof. unfold key_ltb, key_lt. by destruct (slice_cmp a b). Qed.

Lemma key_eqb_spec a b : key_eqb a b = true ↔ a = b.
Proof. unfold key_eqb. rewrite <-slice_cmp_eq. by destruct (slice_cmp a b). Qed.

Lemma key_leb_spec a b : key_leb a b = true ↔ ¬ key_lt b a.
Proof. unfold key_leb. rewrite <-slice_cmp_gt. by destruct (slice_cmp a b). Qed.

Lemma key_ltb_false a b : key_ltb a b = false ↔ ¬ key_lt a b.
Proof. rewrite <-not_true_iff_false, key_ltb_spec. done. Qed.

Lemma key_leb_false a b : key_leb a b = false ↔ key_lt b a.
Proof. unfold key_leb. rewrite <-slice_cmp_gt. by destruct (slice_cmp a b). Qed.

Lemma key_trichotomy a b : key_lt a b ∨ a = b ∨ key_lt b a.
Proof.
  destruct (slice_cmp a b) eqn:E; [right; left; by apply slice_cmp_eq|by left|right; right; by apply slice_cmp_gt].
Qed.

Lemma key_le_not_lt a b : ¬ key_lt a b → a = b ∨ key_lt b a.
Proof. destruct (key_trichotomy a b) as [?|[?|?]]; auto; done. Qed.

(** ** What is reported to the pool *)

(** Every byte that differs between [p] and [p'] (the page LSN apart, which
    the pool writes itself) is in the report. *)
Definition dirty_covers `{Build} (d : ExclusiveNode.Dirty) (p p' : page) : Prop :=
  match d with
  | ExclusiveNode.MarkDirty => True
  | ExclusiveNode.MarkDirtyRanges m =>
      PageMutation.ok m ∧ ∀ j : nat, (8 ≤ j)%nat → p' !! j ≠ p !! j → PageMutation.covers m (Z.of_nat j)
  | ExclusiveNode.Unchanged => ∀ j : nat, (8 ≤ j)%nat → p' !! j = p !! j
  end.

(** A guard that has nothing pending. *)
Definition clean (nd : ExclusiveNode.t) : Prop := ExclusiveNode.mutation nd = PageMutation.new.

Section report.
Context `{Build}.
Implicit Types (nd : ExclusiveNode.t).

Lemma empty_covers m j : PageMutation.is_empty m = true → ¬ PageMutation.covers m j.
Proof.
  destruct m as [[|r rs] []]; simpl; try done. intros _ [?|Hx]; [done|]. by apply Exists_nil in Hx.
Qed.

Lemma not_new_covers j : ¬ PageMutation.covers PageMutation.new j.
Proof. by apply empty_covers. Qed.

Lemma finish_mutation_spec nd nd' :
  clean nd → notes nd nd' →
  dirty_covers (ExclusiveNode.finish_mutation nd').2 (ExclusiveNode.page nd) (ExclusiveNode.page nd') ∧
  ExclusiveNode.page (ExclusiveNode.finish_mutation nd').1 = ExclusiveNode.page nd' ∧
  ExclusiveNode.logs_dirty_ranges (ExclusiveNode.finish_mutation nd').1 = ExclusiveNode.logs_dirty_ranges nd ∧
  (ExclusiveNode.logs_dirty_ranges nd = true → clean (ExclusiveNode.finish_mutation nd').1) ∧
  PageMutation.ok (ExclusiveNode.mutation (ExclusiveNode.finish_mutation nd').1).
Proof.
  intros Hc [Hl Ho Hr]. unfold ExclusiveNode.finish_mutation. rewrite Hl.
  destruct (ExclusiveNode.logs_dirty_ranges nd) eqn:El; cbn [negb]; [|by split_and!].
  destruct (Hr eq_refl) as (Hok & _ & Hd). destruct (PageMutation.is_empty _) eqn:Em; cbn [fst snd];
    (split_and!; [|done|done|done|apply PageMutation.new_ok]).
  - intros j _. destruct (decide (ExclusiveNode.page nd' !! j = ExclusiveNode.page nd !! j)) as [|Hne]; [done|].
    by apply Hd, empty_covers in Hne.
  - split; [done|]. intros j _. apply Hd.
Qed.

End report.

(** ** Searching a leaf *)

Section search.
Context `{Build}.
Implicit Types (p : page) (es : list entry).

Lemma get_key_last p R es e :
  wf p R es → last es = Some e → get_key p (zlen es - 1) = Ret e.1.
Proof.
  intros W Hl. rewrite last_lookup in Hl. pose proof (lookup_lt_Some _ _ _ Hl).
  replace (zlen es - 1) with (Z.of_nat (pred (length es))) by (unfold zlen; lia). by eapply get_key_wf.
Qed.

Lemma sorted_below_last es e x :
  keys_sorted es → last es = Some e → x ∈ es → x = e ∨ key_lt x.1 e.1.
Proof.
  intros Hs Hl [j Hj]%list_elem_of_lookup. rewrite last_lookup in Hl. pose proof (lookup_lt_Some _ _ _ Hj).
  destruct (decide (j = pred (length es))) as [->|]; [left; congruence|right].
  apply (StronglySorted_lookup_lt _ _ j (pred (length es)) _ _ Hs); [..|lia];
    by rewrite list_lookup_fmap, ?Hj, ?Hl.
Qed.

(** The search of the leaf's end first gives the same answer. *)
Lemma leaf_insert_bound_eq p R es key :
  wf p R es → keys_sorted es → leaf_insert_bound p key = lower_bound p key.
Proof.
  intros W Hs. destruct (lower_bound_located W Hs key) as (pos & ex & E & Hloc).
  unfold leaf_insert_bound. rewrite (wf_num _ _ _ W). destruct (Z.eqb_spec (zlen es) 0) as [Hz|Hz].
  { destruct (located_unique _ _ _ _ _ _ Hloc (located_empty key Hz)) as [-> ->]. done. }
  assert (∃ e, last es = Some e) as [e Hl].
  { destruct (last es) eqn:El; [eauto|]. apply last_None in El. by rewrite El in Hz. }
  rewrite (get_key_last _ _ _ _ W Hl), bind_Ret.
  destruct (key_ltb e.1 key) eqn:Hlt; [|destruct (key_eqb key e.1) eqn:Heq; [|done]].
  - apply key_ltb_spec in Hlt. rewrite E. f_equal.
    assert (Hx : located es key (zlen es) false).
    { constructor; [pose proof (zlen_nonneg es); lia| | |].
      - intros j x Hj _. destruct (sorted_below_last _ _ _ Hs Hl (list_elem_of_lookup_2 _ _ _ Hj)) as [->|?];
          [done|by etrans].
      - intros j x Hj ?. apply lookup_lt_Some in Hj. unfold zlen in *. lia.
      - split; [done|]. intros [v Hv]. apply lookup_lt_Some in Hv. unfold zlen in *. lia. }
    destruct (located_unique _ _ _ _ _ _ Hloc Hx) as [-> ->]. done.
  - apply key_eqb_spec in Heq as ->. rewrite E. f_equal. rewrite last_lookup in Hl.
    assert (Hx : located es e.1 (Z.of_nat (pred (length es))) true).
    { destruct e as [k v]. by eapply bracket_found. }
    destruct (located_unique _ _ _ _ _ _ Hloc Hx) as [-> ->]. apply lookup_lt_Some in Hl. f_equal. unfold zlen. lia.
Qed.

End search.

(** ** Insertion *)

Section insertion.
Context `{Build}.
Implicit Types (nd : ExclusiveNode.t) (es : list entry).

Lemma can_insert_entry_spec nd l r es k v :
  leaf_node nd l r es → ExclusiveNode.can_insert_entry nd (zlen k) (zlen v) = true ↔ fits 16 es k v.
Proof. intros [[W _ _ _ _] _]. unfold ExclusiveNode.can_insert_entry. by apply can_insert_wf. Qed.

Lemma located_nat es key pos ex : located es key pos ex → ∃ i : nat, pos = Z.of_nat i ∧ (i ≤ length es)%nat.
Proof. intros [Hr _ _ _]. exists (Z.to_nat pos). unfold zlen in Hr. lia. Qed.

(** What a leaf operation leaves, and reports. *)
Record leaf_done nd (l r : Z) (m : gmap (list byte) (list byte)) nd' (d : ExclusiveNode.Dirty) : Prop := {
  done_leaf : ∃ es', leaf_node nd' l r es' ∧ keys_sorted es' ∧ contents es' = m;
  done_covers : dirty_covers d (ExclusiveNode.page nd) (ExclusiveNode.page nd');
}.

Lemma leaf_finished nd nd' l r es :
  clean nd → notes nd nd' → leaf_node nd' l r es →
  leaf_node (ExclusiveNode.finish_mutation nd').1 l r es ∧
  dirty_covers (ExclusiveNode.finish_mutation nd').2 (ExclusiveNode.page nd)
    (ExclusiveNode.page (ExclusiveNode.finish_mutation nd').1).
Proof.
  intros Hc Hn [P O]. destruct (finish_mutation_spec nd nd' Hc Hn) as (Hd & Hp & _ & _ & Ho).
  split; [constructor; [by rewrite Hp|done]|by rewrite Hp].
Qed.

Lemma try_insert_leaf_spec nd l r es k v :
  leaf_node nd l r es → clean nd → keys_sorted es →
  (is_Some (contents es !! k) → try_insert_leaf nd k v = Ret (nd, ExclusiveNode.Unchanged, ReturnFalse)) ∧
  (contents es !! k = None → ¬ fits 16 es k v →
    try_insert_leaf nd k v = Ret (nd, ExclusiveNode.Unchanged, SplitRequired)) ∧
  (contents es !! k = None → fits 16 es k v → ∃ nd' d,
    try_insert_leaf nd k v = Ret (nd', d, Inserted) ∧ leaf_done nd l r (<[k := v]> (contents es)) nd' d).
Proof.
  intros Hn Hc Hs. pose proof (leaf_wf _ _ _ _ (leaf_node_page _ _ _ _ Hn)) as W.
  unfold try_insert_leaf. rewrite (leaf_insert_bound_eq _ _ _ _ W Hs).
  destruct (lower_bound_located W Hs k) as (pos & ex & -> & Hloc). rewrite bind_Ret.
  destruct ex.
  - destruct (contents_exact _ _ _ Hs Hloc) as (w & _ & Hw). rewrite Hw. by split_and!.
  - destruct (insert_at_sorted es k v pos Hs Hloc) as (Hs' & Hc' & Hno). rewrite Hno.
    destruct (located_nat _ _ _ _ Hloc) as (i & -> & Hi). rewrite Nat2Z.id in *.
    pose proof (can_insert_entry_spec _ _ _ _ k v Hn) as Hcan. split_and!; [by intros [? ?]| |].
    + intros _ Hnf. rewrite <-Hcan in Hnf. apply not_true_iff_false in Hnf. by rewrite Hnf.
    + intros _ Hf. apply Hcan in Hf as E. rewrite E. cbn [negb].
      destruct (leaf_insert _ _ _ _ i k v Hn Hi Hf) as (nd' & -> & Hn' & Hno'). rewrite bind_Ret.
      destruct (leaf_finished _ _ _ _ _ Hc Hno' Hn') as [Hl Hd].
      destruct (ExclusiveNode.finish_mutation nd') as [n2 d]. exists n2, d. split; [done|].
      constructor; [|done]. by eexists.
Qed.

(** An entry replaced by one of another size. *)
Lemma replace_sorted es (i : nat) k v w :
  keys_sorted es → es !! i = Some (k, v) →
  insert_at i (k, w) (delete i es) = <[i := (k, w)]> es.
Proof.
  intros Hs Hi. pose proof (lookup_lt_Some _ _ _ Hi). unfold insert_at.
  rewrite delete_take_drop, take_app_le, drop_app_ge by (rewrite length_take; lia).
  rewrite take_take, length_take, !Nat.min_l by lia. rewrite Nat.sub_diag, drop_0. by rewrite insert_take_drop.
Qed.

Lemma fits_replaced es (i : nat) k v w :
  es !! i = Some (k, v) →
  fits 16 (delete i es) k w ↔ zlen k + zlen w ≤ PAGE_SIZE - (24 + 12 * zlen es + 16 + heap_total es) + (zlen k + zlen v).
Proof.
  intros Hi. pose proof (lookup_lt_Some _ _ _ Hi). unfold fits.
  assert (Hz : zlen (delete i es) = zlen es - 1) by (unfold zlen; rewrite length_delete by done; lia).
  pose proof (take_drop_middle _ _ _ Hi) as E. assert (Ht : heap_total es = heap_total (delete i es) + esize (k, v)).
  { rewrite <-E at 1. rewrite delete_take_drop, !heap_total_app. simpl. lia. }
  unfold esize in Ht. simpl in Ht. lia.
Qed.

Lemma try_upsert_leaf_spec nd l r es k v :
  leaf_node nd l r es → clean nd → keys_sorted es →
  match contents es !! k with
  | None =>
      (¬ fits 16 es k v → try_upsert_leaf nd k v = Ret (nd, ExclusiveNode.Unchanged, UpsertSplitRequired)) ∧
      (fits 16 es k v → ∃ nd' d, try_upsert_leaf nd k v = Ret (nd', d, UpsertInserted) ∧
        leaf_done nd l r (<[k := v]> (contents es)) nd' d)
  | Some w =>
      let room := PAGE_SIZE - (24 + 12 * zlen es + 16 + heap_total es) + zlen w in
      (room < zlen v → zlen w ≠ zlen v →
        try_upsert_leaf nd k v = Ret (nd, ExclusiveNode.Unchanged, UpsertSplitRequired)) ∧
      (zlen v ≤ room ∨ zlen w = zlen v → ∃ nd' d, try_upsert_leaf nd k v = Ret (nd', d, UpdatedExisting) ∧
        leaf_done nd l r (<[k := v]> (contents es)) nd' d)
  end.
Proof.
  intros Hn Hc Hs. pose proof (leaf_wf _ _ _ _ (leaf_node_page _ _ _ _ Hn)) as W.
  unfold try_upsert_leaf. rewrite (leaf_insert_bound_eq _ _ _ _ W Hs).
  destruct (lower_bound_located W Hs k) as (pos & ex & -> & Hloc). rewrite bind_Ret.
  destruct (located_nat _ _ _ _ Hloc) as (i & -> & Hi). destruct ex.
  - destruct (contents_exact _ _ _ Hs Hloc) as (w & Hw & ->). rewrite Nat2Z.id in Hw.
    rewrite (get_value_wf _ _ _ _ _ W Hw), bind_Ret. cbn [snd].
    destruct (update_sorted _ _ _ _ v Hs Hw) as [Hs' Hc']. destruct (Z.eqb_spec (zlen w) (zlen v)) as [He|He].
    + split; [done|]. intros _. destruct (leaf_update _ _ _ _ i k w v Hn Hw) as (nd' & -> & Hn' & Hno'); [done|].
      rewrite bind_Ret, debug_assert_true, bind_Ret by done. cbn [fst].
      destruct (leaf_finished _ _ _ _ _ Hc Hno' Hn') as [Hl Hd].
      destruct (ExclusiveNode.finish_mutation nd') as [n2 d]. exists n2, d. split; [done|]. constructor; [|done]. by eexists.
    + rewrite (free_space_after_compaction_wf _ _ _ W). destruct (Z.leb_spec (zlen k + zlen v)
        (PAGE_SIZE - (24 + 12 * zlen es + 16 + heap_total es) + (zlen k + zlen w))) as [Hle|Hle].
      * split; [lia|]. intros _. destruct (leaf_remove _ _ _ _ _ _ Hn Hw) as (n1 & -> & Hn1 & No1). rewrite bind_Ret.
        destruct (leaf_insert n1 l r (delete i es) i k v Hn1) as (n2 & -> & Hn2 & No2).
        { pose proof (lookup_lt_Some _ _ _ Hw). rewrite length_delete by done. lia. }
        { by apply (fits_replaced es i k w v Hw). }
        rewrite bind_Ret. rewrite (replace_sorted es i k w v Hs Hw) in Hn2.
        destruct (leaf_finished _ _ _ _ _ Hc (notes_trans _ _ _ No1 No2) Hn2) as [Hl Hd].
        destruct (ExclusiveNode.finish_mutation n2) as [n3 d]. exists n3, d. split; [done|]. constructor; [|done]. by eexists.
      * split; [done|]. intros [?|?]; [lia|done].
  - destruct (insert_at_sorted es k v _ Hs Hloc) as (Hs' & Hc' & ->). rewrite Nat2Z.id in *.
    pose proof (can_insert_entry_spec _ _ _ _ k v Hn) as Hcan. split.
    + intros Hnf. rewrite <-Hcan in Hnf. apply not_true_iff_false in Hnf. by rewrite Hnf.
    + intros Hf. apply Hcan in Hf as E. rewrite E. cbn [negb].
      destruct (leaf_insert _ _ _ _ i k v Hn Hi Hf) as (nd' & -> & Hn' & Hno'). rewrite bind_Ret.
      destruct (leaf_finished _ _ _ _ _ Hc Hno' Hn') as [Hl Hd].
      destruct (ExclusiveNode.finish_mutation nd') as [n2 d]. exists n2, d. split; [done|]. constructor; [|done]. by eexists.
Qed.

End insertion.

(** * B-tree: splitting a node

    Every split is a partition of the entries (or of the children and
    separators) of the node, with the sibling links of a leaf threaded
    through the new page, and its publication puts the two halves next to
    each other in the parent. *)

#[local] Open Scope Z_scope.
Import SlottedHeader SlottedPage.

(** The entries fit in a page with a reserved suffix of [R] bytes. *)
Definition page_fits `{Build} (R : Z) (es : list entry) : Prop :=
  24 + 12 * zlen es + R + heap_total es ≤ PAGE_SIZE.
#[global] Instance page_fits_dec `{Build} R es : Decision (page_fits R es).
Proof. unfold page_fits. apply _. Defined.

Section pages.
Context `{Build}.
Implicit Types (p q : page) (es : list entry) (cs : list child).

Lemma wf_page_fits p R es : wf p R es → page_fits R es.
Proof. intros W. pose proof (wf_bounds _ _ _ W). unfold page_fits. lia. Qed.

Lemma fits_page_fits R es k v : fits R es k v ↔ page_fits R (es ++ [(k, v)]).
Proof.
  unfold fits, page_fits. rewrite zlen_app, zlen_cons, zlen_nil, heap_total_app. cbn [heap_total].
  unfold esize. simpl. lia.
Qed.

Lemma page_fits_perm R es es' : es ≡ₚ es' → page_fits R es → page_fits R es'.
Proof.
  unfold page_fits. intros Hp. assert (zlen es = zlen es') as -> by (unfold zlen; by rewrite Hp).
  enough (heap_total es = heap_total es') as -> by done.
  clear -Hp. induction Hp; simpl; lia.
Qed.

Lemma page_fits_app_l R es1 es2 : page_fits R (es1 ++ es2) → page_fits R es1 ∧ page_fits R es2.
Proof.
  unfold page_fits. rewrite zlen_app, heap_total_app. pose proof (heap_total_nonneg es1). pose proof (heap_total_nonneg es2).
  pose proof (zlen_nonneg es1). pose proof (zlen_nonneg es2). lia.
Qed.

Lemma page_fits_range R es (a n : nat) : page_fits R es → page_fits R (take n (drop a es)).
Proof.
  intros Hf. rewrite <-(take_drop a es) in Hf. apply page_fits_app_l in Hf as [_ Hf].
  rewrite <-(take_drop n (drop a es)) in Hf. by apply page_fits_app_l in Hf as [Hf _].
Qed.

(** [copy_key_value_range] of [n] entries from [a] on, after those already there. *)
Lemma copy_range_spec src R1 es dst R2 es0 (a n : nat) :
  wf src R1 es → wf dst R2 es0 → (a + n ≤ length es)%nat → page_fits R2 (es0 ++ take n (drop a es)) →
  ∃ dst', copy_key_value_range src dst (zlen es0) (Z.of_nat a) (Z.of_nat n) = Ret dst' ∧
    wf dst' R2 (es0 ++ take n (drop a es)) ∧ frame_kept R2 dst dst' ∧ flags_kept dst dst'.
Proof.
  intros W W0 Hn Hf. unfold copy_key_value_range. rewrite (wf_num _ _ _ W0), debug_assert_true, bind_Ret
    by (by apply Z.eqb_eq).
  assert (Hz : zlen (take n (drop a es)) = Z.of_nat n) by (unfold zlen; rewrite length_take, length_drop; lia).
  pose proof (num_slots_range src) as Hr. rewrite (wf_num _ _ _ W) in Hr. unfold zlen at 2 in Hr.
  destruct (copy_loop_wf src R1 es a es0 (take n (drop a es)) dst R2 0 W W0) as (d & E & Hd).
  - rewrite Nat.add_0_r, length_take, length_drop, Nat.min_l by lia. rewrite <-(drop_drop es n a). by rewrite take_drop.
  - lia.
  - exact Hf.
  - rewrite Hz in E. by exists d.
Qed.

(** ** Dressing a temporary page *)

Lemma wf_flagged p R es f : wf p R es → wf (set_flag p f) R es.
Proof. intros W. by apply flags_write. Qed.

(** Links and type on a page with leaf entries. *)
Lemma dress_links p es l r :
  wf p 16 es → BTreeNode.is_leaf p = true → word_ok l → word_ok r →
  leaf_page (write_page_type (set_le 8 (set_le 8 p LEFT_SIBLING_OFFSET l) RIGHT_SIBLING_OFFSET r) Index) l r es.
Proof.
  intros W Hf Hl Hr. pose proof PAGE_SIZE_bounds. pose proof (wf_len _ _ _ W).
  destruct (suffix_write p 16 es LEFT_SIBLING_OFFSET l W) as [W1 F1];
    [unfold LEFT_SIBLING_OFFSET, UPPER_OFFSET; lia..|].
  destruct (suffix_write _ 16 es RIGHT_SIBLING_OFFSET r W1) as [W2 F2]; [unfold RIGHT_SIBLING_OFFSET; lia..|].
  set (q := set_le 8 (set_le 8 p LEFT_SIBLING_OFFSET l) RIGHT_SIBLING_OFFSET r) in *.
  pose proof (wf_len _ _ _ W1) as Hl1. pose proof (wf_len _ _ _ W2) as Hl2. destruct (typed_bits q Index Hl2) as [Ht Hi].
  rewrite write_page_type_flags in * by lia. destruct (flags_write q 16 es (retyped (flags q) Index) W2) as [W3 Fd].
  unfold LEFT_SIBLING_OFFSET, UPPER_OFFSET, RIGHT_SIBLING_OFFSET in *. constructor; [done| |done| |].
  - by rewrite Hi, is_leaf_bit, F2, F1, <-is_leaf_bit.
  - unfold BTreeNode.leaf_left_pid, LEFT_SIBLING_OFFSET, UPPER_OFFSET. rewrite Fd by lia.
    unfold q. rewrite get_set_le_ne, get_set_le_eq by lia. apply wrap_small. exact Hl.
  - unfold BTreeNode.leaf_right_pid, RIGHT_SIBLING_OFFSET. rewrite Fd by lia.
    unfold q. rewrite get_set_le_eq by lia. apply wrap_small. exact Hr.
Qed.

(** Type and rightmost child on a page with inner entries. *)
Lemma dress_inner p cs u :
  wf p 8 (inner_entries cs) → BTreeNode.is_leaf p = false → Forall (λ c, word_ok c.2) cs → word_ok u →
  inner_page (BTreeNode.set_upper (write_page_type p Index) u) cs u.
Proof.
  intros W Hf Hw Hu. pose proof PAGE_SIZE_bounds. pose proof (wf_len _ _ _ W).
  destruct (typed_bits p Index) as [Ht Hi]; [done|]. rewrite write_page_type_flags in * by lia.
  destruct (flags_write p 8 _ (retyped (flags p) Index) W) as [W1 _].
  eapply (inner_page_set_upper _ _ (BTreeNode.upper_swip (set_flags p (retyped (flags p) Index)))); [|done].
  constructor; [done|congruence|done|done|done].
Qed.

Lemma empty_tmp R :
  0 ≤ R ≤ 16 → ∃ p, reserve_suffix (SlottedPage.init (fill PAGE_SIZE x00)) R = Ret p ∧ wf p R [] ∧ flags p = 0.
Proof. apply empty_reserved. Qed.

Lemma kept_leaf_flag p q : flags_kept p q → BTreeNode.is_leaf q = BTreeNode.is_leaf p.
Proof. intros Hf. rewrite !is_leaf_bit. apply Hf. lia. Qed.

(** ** Leaf halves *)

Lemma rebuild_left_leaf_spec node l r es (n : nat) l' r' :
  leaf_page node l r es → (n ≤ length es)%nat → word_ok l' → word_ok r' →
  ∃ q, rebuild_left_leaf node (Z.of_nat n) l' r' = Ret q ∧ leaf_page q l' r' (take n es).
Proof.
  intros P Hn Hl Hr. pose proof (leaf_wf _ _ _ _ P) as W. destruct (empty_tmp 16) as (t & Et & Wt & Ft); [lia|].
  unfold rebuild_left_leaf. rewrite Et, bind_Ret.
  destruct (copy_range_spec node 16 es t 16 [] 0 n W Wt) as (d & Ed & Wd & _ & Fd); [lia| |].
  { apply (page_fits_range 16 es 0 n). by eapply wf_page_fits. }
  rewrite drop_0 in Wd. rewrite zlen_nil in Ed. change (Z.of_nat 0) with 0 in Ed. rewrite Ed, bind_Ret.
  eexists. split; [done|]. apply dress_links; [by apply wf_flagged|apply leaf_flagged, Wd|done..].
Qed.

(** The entries from [n] on, on a fresh leaf. *)
Lemma copy_right_leaf node l r es sibling (a n : nat) :
  leaf_page node l r es → leaf_page sibling 0 0 [] → (a + n ≤ length es)%nat →
  ∃ q, copy_key_value_range node sibling 0 (Z.of_nat a) (Z.of_nat n) = Ret q ∧ leaf_page q 0 0 (take n (drop a es)).
Proof.
  intros P Ps Hn. pose proof (leaf_wf _ _ _ _ P) as W. pose proof (leaf_wf _ _ _ _ Ps) as Ws.
  destruct (copy_range_spec node 16 es sibling 16 [] a n W Ws) as (d & Ed & Wd & Fd & Fl); [lia| |].
  { apply page_fits_range. by eapply wf_page_fits. }
  exists d. split; [done|]. by eapply leaf_kept.
Qed.

Lemma leaf_links_set p es l r l' r' :
  leaf_page p l r es → word_ok l' → word_ok r' →
  leaf_page (BTreeNode.set_leaf_right_pid (BTreeNode.set_leaf_left_pid p l') r') l' r' es.
Proof. intros. eapply leaf_page_set_right; [|done]. by eapply leaf_page_set_left. Qed.

(** *** The pending entry *)

Lemma insert_pending_spec p l r es e :
  leaf_page p l r es → keys_sorted es →
  let k := PendingLeafEntry.key e in let v := PendingLeafEntry.value e in
  (contents es !! k = None → fits 16 es k v → ∃ p' es', insert_pending p e = Ret p' ∧
    leaf_page p' l r es' ∧ keys_sorted es' ∧ contents es' = <[k := v]> (contents es) ∧ es' ≡ₚ (k, v) :: es) ∧
  (is_Some (contents es !! k) ∨ ¬ fits 16 es k v → insert_pending p e = Panic).
Proof.
  intros P Hs k v. pose proof (leaf_wf _ _ _ _ P) as W. unfold insert_pending.
  destruct (lower_bound_located W Hs k) as (pos & ex & Elb & Hloc). fold k v. rewrite Elb, bind_Ret. cbn [fst snd].
  destruct ex.
  - destruct (contents_exact _ _ _ Hs Hloc) as (w & _ & Hw). split; [congruence|]. done.
  - destruct (insert_at_sorted es k v pos Hs Hloc) as (Hs' & Hc' & Hno).
    destruct (located_nat _ _ _ _ Hloc) as (i & -> & Hi). rewrite Nat2Z.id in *. unfold assert. cbn [negb]. rewrite bind_Ret.
    split.
    + intros _ Hf. destruct (insert_wf _ _ _ k v i W Hi Hf) as (p' & -> & W' & F' & Fl'). exists p', (insert_at i (k, v) es).
      split_and!; [done|by eapply leaf_kept|done|done|apply insert_at_perm].
    + rewrite Hno. intros [[? ?]|Hf]; [done|]. by eapply insert_full.
Qed.

(** ** The split of a leaf with at least two entries *)

Section leaf_split.
Context (node sibling : page) (l r : Z) (es : list entry).
Context (P : leaf_page node l r es) (node_pid sibling_pid : Z).
Context (Hnode : word_ok node_pid) (Hsib : word_ok sibling_pid).

Lemma leaf_links_ok : word_ok l ∧ word_ok r.
Proof.
  rewrite <-(leaf_left _ _ _ _ P), <-(leaf_right _ _ _ _ P). split; apply (get_le_range 8).
Qed.

Lemma leaf_count : num_slots node = zlen es ∧ zlen es < 2 ^ 16.
Proof.
  pose proof (num_slots_range node) as Hr. rewrite (wf_num _ _ _ (leaf_wf _ _ _ _ P)) in *. split; [done|lia].
Qed.

(** Both halves before a pending entry goes in. *)
Lemma split_leaf_halves (pos : nat) sep pending :
  (S pos ≤ length es)%nat →
  ∃ left right,
    leaf_page left l sibling_pid (take (S pos) es) ∧ leaf_page right node_pid r (drop (S pos) es) ∧
    split_leaf node sibling node_pid sibling_pid (Z.of_nat pos) sep pending =
      (x ← install_pending left right sep pending; Ret (x, r)).
Proof.
  intros Hpos. destruct leaf_links_ok as [Hl Hr]. destruct leaf_count as [Hc Hlt].
  destruct (init_leaf sibling) as (s & Es & Ps). unfold split_leaf. rewrite Es, bind_Ret, Hc.
  rewrite uadd_in_range, bind_Ret by (unfold zlen in *; lia). replace (Z.of_nat pos + 1) with (Z.of_nat (S pos)) by lia.
  rewrite usub_in_range, bind_Ret by (unfold zlen in *; lia).
  replace (zlen es - Z.of_nat (S pos)) with (Z.of_nat (length es - S pos)) by (unfold zlen; lia).
  destruct (copy_right_leaf _ _ _ _ _ (S pos) (length es - S pos) P Ps) as (s1 & -> & Ps1); [lia|]. rewrite bind_Ret.
  rewrite take_ge in Ps1 by (rewrite length_drop; lia).
  rewrite (leaf_left _ _ _ _ P), (leaf_right _ _ _ _ P).
  destruct (rebuild_left_leaf_spec _ _ _ _ (S pos) l sibling_pid P Hpos Hl Hsib) as (n1 & -> & Pn1). rewrite bind_Ret.
  eexists n1, _. split; [done|]. split; [by eapply leaf_links_set|done].
Qed.

(** The root's variant leaves the same halves on two new pages. *)
Lemma split_root_leaf_halves (left0 right0 : page) (pos : nat) sep pending :
  (S pos ≤ length es)%nat →
  ∃ left right,
    leaf_page left l sibling_pid (take (S pos) es) ∧ leaf_page right node_pid r (drop (S pos) es) ∧
    split_root_leaf node left0 right0 node_pid sibling_pid (Z.of_nat pos) sep pending =
      (x ← install_pending left right sep pending; Ret (x, r)).
Proof.
  intros Hpos. destruct leaf_links_ok as [Hl Hr]. destruct leaf_count as [Hc Hlt].
  destruct (init_leaf left0) as (a & Ea & Pa). destruct (init_leaf right0) as (b & Eb & Pb).
  unfold split_root_leaf. rewrite Ea, bind_Ret, Eb, bind_Ret, Hc.
  rewrite uadd_in_range, bind_Ret by (unfold zlen in *; lia). replace (Z.of_nat pos + 1) with (Z.of_nat (S pos)) by lia.
  rewrite usub_in_range, bind_Ret by (unfold zlen in *; lia).
  replace (zlen es - Z.of_nat (S pos)) with (Z.of_nat (length es - S pos)) by (unfold zlen; lia).
  destruct (copy_right_leaf _ _ _ _ _ 0 (S pos) P Pa) as (a1 & Ea1 & Pa1); [lia|].
  change (Z.of_nat 0) with 0 in Ea1. rewrite Ea1, bind_Ret. rewrite drop_0 in Pa1.
  destruct (copy_right_leaf _ _ _ _ _ (S pos) (length es - S pos) P Pb) as (b1 & -> & Pb1); [lia|]. rewrite bind_Ret.
  rewrite take_ge in Pb1 by (rewrite length_drop; lia).
  rewrite (leaf_left _ _ _ _ P), (leaf_right _ _ _ _ P).
  eexists _, _. split; [by eapply leaf_links_set|]. split; [by eapply leaf_links_set|done].
Qed.

End leaf_split.
End pages.

(** ** Sorted halves *)

Lemma keys_sorted_app_inv es1 es2 :
  keys_sorted (es1 ++ es2) →
  keys_sorted es1 ∧ keys_sorted es2 ∧ (∀ x y, x ∈ es1 → y ∈ es2 → key_lt x.1 y.1).
Proof.
  unfold keys_sorted. rewrite fmap_app. intros (Hx & H1 & H2)%StronglySorted_app. split_and!; [done..|].
  intros x y Hx1 Hy1. apply Hx; by apply list_elem_of_fmap_2.
Qed.

Lemma keys_sorted_app_intro es1 es2 :
  keys_sorted es1 → keys_sorted es2 → (∀ x y, x ∈ es1 → y ∈ es2 → key_lt x.1 y.1) → keys_sorted (es1 ++ es2).
Proof.
  unfold keys_sorted. intros H1 H2 Hx. rewrite fmap_app. apply StronglySorted_app. split_and!; [|done..].
  intros a b (x & -> & Hxa)%list_elem_of_fmap (y & -> & Hyb)%list_elem_of_fmap. by apply Hx.
Qed.

Lemma contents_None es k : contents es !! k = None ↔ k ∉ es.*1.
Proof. unfold contents. by rewrite not_elem_of_list_to_map. Qed.

Lemma contents_perm_insert es es' k v :
  keys_sorted es' → es' ≡ₚ (k, v) :: es → contents es' = <[k := v]> (contents es).
Proof.
  intros Hs Hp. unfold contents. rewrite (list_to_map_proper es' ((k, v) :: es)); [done|by apply sorted_NoDup|done].
Qed.

(** A page-wide separator: [sep] is the last key of the left half. *)
Definition separates (sep : list byte) (esl esr : list entry) : Prop :=
  (∀ x, x ∈ esl → ¬ key_lt sep x.1) ∧ (∀ y, y ∈ esr → key_lt sep y.1).

Lemma last_separates es1 es2 e :
  keys_sorted (es1 ++ es2) → last es1 = Some e → separates e.1 es1 es2.
Proof.
  intros (H1 & H2 & Hx)%keys_sorted_app_inv Hl. split.
  - intros x Hx1 Hlt. destruct (sorted_below_last _ _ _ H1 Hl Hx1) as [->|Hlt'].
    + by apply (irreflexivity key_lt e.1).
    + apply (irreflexivity key_lt x.1). by etrans.
  - intros y Hy. apply Hx; [|done]. rewrite last_lookup in Hl. by eapply list_elem_of_lookup_2.
Qed.

(** A key on one side of the separator is not on the other. *)
Lemma separates_absent sep esl esr k :
  separates sep esl esr →
  contents (esl ++ esr) !! k = contents (if key_leb k sep then esl else esr) !! k.
Proof.
  intros [Hl Hr]. unfold contents. rewrite list_to_map_app, lookup_union. destruct (key_leb k sep) eqn:Hk.
  - apply key_leb_spec in Hk. rewrite (proj1 (not_elem_of_list_to_map esr k)).
    + by destruct (list_to_map esl !! k).
    + intros (y & -> & Hy)%list_elem_of_fmap. by apply Hk, Hr.
  - apply key_leb_false in Hk. rewrite (proj1 (not_elem_of_list_to_map esl k)).
    + by destruct (list_to_map esr !! k).
    + intros (y & -> & Hy)%list_elem_of_fmap. by apply (Hl y).
Qed.

(** Putting a key on its side keeps the halves sorted and separated. *)
Lemma insert_side sep esl esr es' k v :
  keys_sorted (esl ++ esr) → separates sep esl esr → keys_sorted es' →
  es' ≡ₚ (k, v) :: (if key_leb k sep then esl else esr) →
  let left := if key_leb k sep then es' else esl in
  let right := if key_leb k sep then esr else es' in
  keys_sorted (left ++ right) ∧ separates sep left right ∧
  contents (left ++ right) = <[k := v]> (contents (esl ++ esr)).
Proof.
  intros (Hl & Hr & Hx)%keys_sorted_app_inv [Sl Sr] Hs' Hp left right.
  assert (Hsep : separates sep left right).
  { unfold left, right. destruct (key_leb k sep) eqn:Hk; split; try done; intros z Hz;
      rewrite Hp in Hz; apply elem_of_cons in Hz as [->|Hz]; auto.
    - by apply key_leb_spec.
    - by apply key_leb_false. }
  assert (Hsort : keys_sorted (left ++ right)).
  { apply keys_sorted_app_intro.
    - unfold left. by destruct (key_leb k sep).
    - unfold right. by destruct (key_leb k sep).
    - destruct Hsep as [Hsl Hsr]. intros x y Hxl Hyr. specialize (Hsl x Hxl). specialize (Hsr y Hyr).
      destruct (key_le_not_lt _ _ Hsl) as [<-|Hlt]; [done|by etrans]. }
  split_and!; [done|done|]. apply contents_perm_insert; [done|]. unfold left, right.
  destruct (key_leb k sep); rewrite Hp; [done|]. by rewrite <-Permutation_middle.
Qed.

Section split.
Context `{Build}.
Implicit Types (p q : page) (es : list entry) (cs : list child).

(** The side a pending entry goes to. *)
Definition pending_side (sep : list byte) (esl esr : list entry) (e : PendingLeafEntry.t) : list entry :=
  if key_leb (PendingLeafEntry.key e) sep then esl else esr.

(** Both leaves after the pending entry went in. *)
Definition installed (left right : page) (l m1 m2 r : Z) sep es (e : PendingLeafEntry.t) : Prop :=
  ∃ esl esr, leaf_page left l m1 esl ∧ leaf_page right m2 r esr ∧ keys_sorted (esl ++ esr) ∧
    separates sep esl esr ∧
    contents (esl ++ esr) = <[PendingLeafEntry.key e := PendingLeafEntry.value e]> (contents es).

Lemma install_pending_spec left right l m1 m2 r sep esl esr e :
  leaf_page left l m1 esl → leaf_page right m2 r esr → keys_sorted (esl ++ esr) → separates sep esl esr →
  let side := pending_side sep esl esr e in
  let k := PendingLeafEntry.key e in let v := PendingLeafEntry.value e in
  (contents (esl ++ esr) !! k = None → fits 16 side k v → ∃ left' right',
    install_pending left right sep (Some e) = Ret (left', right') ∧
    installed left' right' l m1 m2 r sep (esl ++ esr) e) ∧
  (is_Some (contents (esl ++ esr) !! k) ∨ ¬ fits 16 side k v →
    install_pending left right sep (Some e) = Panic).
Proof.
  intros Pl Pr Hs Hsep side k v. destruct (keys_sorted_app_inv _ _ Hs) as (Sl & Sr & _).
  rewrite (separates_absent _ _ _ k Hsep). unfold install_pending. fold k. unfold side, pending_side. fold k.
  pose proof (insert_side sep esl esr) as Hins. destruct (key_leb k sep) eqn:Hk.
  - destruct (insert_pending_spec _ _ _ _ e Pl Sl) as [Hok Hno]. fold k v in Hok, Hno. split.
    + intros Hnone Hf. destruct (Hok Hnone Hf) as (p' & es' & -> & Pp & Sp & _ & Hp). rewrite bind_Ret.
      eexists _, _. split; [done|]. exists es', esr. specialize (Hins es' k v Hs Hsep Sp). rewrite Hk in Hins.
      destruct (Hins Hp) as (? & ? & ?). done.
    + intros Hx. by rewrite (Hno Hx).
  - destruct (insert_pending_spec _ _ _ _ e Pr Sr) as [Hok Hno]. fold k v in Hok, Hno. split.
    + intros Hnone Hf. destruct (Hok Hnone Hf) as (p' & es' & -> & Pp & Sp & _ & Hp). rewrite bind_Ret.
      eexists _, _. split; [done|]. exists esl, es'. specialize (Hins es' k v Hs Hsep Sp). rewrite Hk in Hins.
      destruct (Hins Hp) as (? & ? & ?). done.
    + intros Hx. by rewrite (Hno Hx).
Qed.

(** ** The plan of a split *)

Lemma last_take es (i : nat) e : es !! i = Some e → last (take (S i) es) = Some e.
Proof.
  intros Hi. pose proof (lookup_lt_Some _ _ _ Hi). rewrite last_lookup, length_take, Nat.min_l by lia.
  simpl. by rewrite lookup_take_lt by lia.
Qed.

Lemma separates_at es (i : nat) e :
  keys_sorted es → es !! i = Some e → separates e.1 (take (S i) es) (drop (S i) es).
Proof.
  intros Hs Hi. apply last_separates; [by rewrite take_drop|by apply last_take].
Qed.

(** The middle of a node with two entries or more. *)
Lemma split_plan_middle p R es pending :
  wf p R es → (2 ≤ length es)%nat →
  (BTreeNode.is_leaf p = true → length es = 2%nat → pending = None) →
  ∃ (i : nat) e, es !! i = Some e ∧ i = (length es / 2)%nat ∧
    split_plan p pending = Ret (SplitAt (Z.of_nat i) e.1 None).
Proof.
  intros W Hn Hp. assert (Hlt : (length es / 2 < length es)%nat) by (apply Nat.div_lt; lia).
  destruct (lookup_lt_is_Some_2 es (length es / 2) Hlt) as [e He]. exists (length es / 2)%nat, e.
  split_and!; [done|done|]. unfold split_plan. rewrite (wf_num _ _ _ W).
  rewrite (proj2 (Z.ltb_ge _ _)) by (unfold zlen; lia).
  assert ((if BTreeNode.is_leaf p && (zlen es =? 2) then pending else None) = None) as ->.
  { destruct (BTreeNode.is_leaf p); [|done]. simpl. destruct (Z.eqb_spec (zlen es) 2) as [E|]; [|done].
    apply Hp; [done|]. unfold zlen in E. lia. }
  unfold split_position. rewrite (wf_num _ _ _ W), bind_Ret.
  assert (zlen es / 2 = Z.of_nat (length es / 2)) as -> by (unfold zlen; by rewrite Nat2Z.inj_div).
  by rewrite (get_key_wf _ _ _ _ _ W He), bind_Ret.
Qed.

(** A leaf of two entries is divided by the pending key. *)
Lemma split_plan_two p R e0 e1 pending :
  wf p R [e0; e1] → BTreeNode.is_leaf p = true →
  let i := if key_leb e1.1 (PendingLeafEntry.key pending) then 1%nat else 0%nat in
  split_plan p (Some pending) =
    Ret (SplitAt (Z.of_nat i) (if key_leb e1.1 (PendingLeafEntry.key pending) then e1.1 else e0.1) (Some pending)).
Proof.
  intros W Hl. unfold split_plan. rewrite (wf_num _ _ _ W), Hl.
  change (zlen [e0; e1]) with 2. cbn [Z.ltb Z.compare Pos.compare Pos.compare_cont andb negb Z.eqb Pos.eqb].
  unfold split_position. pose proof (get_key_wf _ _ _ 1%nat e1 W eq_refl) as E1. pose proof (get_key_wf _ _ _ 0%nat e0 W eq_refl) as E0.
  change (Z.of_nat 1) with 1 in E1. change (Z.of_nat 0) with 0 in E0. rewrite E1, !bind_Ret.
  destruct (key_leb e1.1 (PendingLeafEntry.key pending)); [rewrite E1|rewrite E0]; by rewrite bind_Ret.
Qed.

(** A leaf of one entry: the smaller key becomes the separator. *)
Lemma split_plan_one p R e0 pending :
  wf p R [e0] → BTreeNode.is_leaf p = true →
  split_plan p (Some pending) =
    Ret (if key_ltb (PendingLeafEntry.key pending) e0.1 then SplitSingle (PendingLeafEntry.key pending) true
         else SplitSingle e0.1 false).
Proof.
  intros W Hl. unfold split_plan. rewrite (wf_num _ _ _ W), Hl. change (zlen [e0]) with 1.
  cbn [Z.ltb Z.compare Pos.compare Pos.compare_cont andb negb Z.eqb Pos.eqb].
  pose proof (get_key_wf _ _ _ 0%nat e0 W eq_refl) as E0. change (Z.of_nat 0) with 0 in E0. rewrite E0, bind_Ret.
  by destruct (key_ltb _ _).
Qed.

(** ** A leaf of one entry *)

Lemma insert_first p l r k v :
  leaf_page p l r [] → page_fits 16 [(k, v)] → ∃ q, insert p 0 k v = Ret q ∧ leaf_page q l r [(k, v)].
Proof.
  intros P Hf. destruct (insert_wf p 16 [] k v 0 (leaf_wf _ _ _ _ P)) as (q & E & W & F & Fl); [done|by apply fits_page_fits|].
  exists q. split; [done|]. by eapply leaf_kept.
Qed.

Lemma split_single_leaf_spec node sibling l r e0 node_pid sibling_pid mv e :
  leaf_page node l r [e0] → word_ok node_pid → word_ok sibling_pid →
  page_fits 16 [(PendingLeafEntry.key e, PendingLeafEntry.value e)] →
  let new := (PendingLeafEntry.key e, PendingLeafEntry.value e) in
  ∃ left right, split_single_leaf node sibling node_pid sibling_pid mv e = Ret (left, right, r) ∧
    leaf_page left l sibling_pid [if mv then new else e0] ∧
    leaf_page right node_pid r [if mv then e0 else new].
Proof.
  intros P Hn Hs Hf new. destruct (leaf_links_ok _ _ _ _ P) as [Hl Hr].
  destruct (init_leaf sibling) as (s & Es & Ps). unfold split_single_leaf. rewrite Es, bind_Ret.
  rewrite (leaf_left _ _ _ _ P), (leaf_right _ _ _ _ P). destruct mv.
  - destruct (copy_right_leaf _ _ _ _ _ 0 1 P Ps) as (s1 & E1 & P1); [simpl; lia|].
    change (Z.of_nat 0) with 0 in E1. change (Z.of_nat 1) with 1 in E1. rewrite E1, bind_Ret.
    destruct (empty_tmp 16) as (t & Et & Wt & _); [lia|]. rewrite Et, bind_Ret.
    pose proof (dress_links (set_flag t FLAG_IS_LEAF) [] l sibling_pid (wf_flagged _ _ _ _ Wt)
      (leaf_flagged _ (wf_len _ _ _ Wt)) Hl Hs) as Pt.
    destruct (insert_first _ _ _ _ _ Pt Hf) as (q & -> & Pq). rewrite !bind_Ret. cbn [fst snd].
    eexists _, _. split; [done|]. split; [done|]. by eapply leaf_links_set.
  - destruct (rebuild_left_leaf_spec _ _ _ _ 1 l sibling_pid P) as (n1 & E1 & P1); [simpl; lia|done..|].
    change (Z.of_nat 1) with 1 in E1. rewrite E1, bind_Ret.
    destruct (insert_first _ _ _ _ _ Ps Hf) as (q & -> & Pq). rewrite !bind_Ret. cbn [fst snd].
    eexists _, _. split; [done|]. split; [done|]. by eapply leaf_links_set.
Qed.

Lemma split_single_root_spec root left0 right0 l r e0 left_pid right_pid mv e :
  leaf_page root l r [e0] → word_ok left_pid → word_ok right_pid →
  page_fits 16 [(PendingLeafEntry.key e, PendingLeafEntry.value e)] →
  let new := (PendingLeafEntry.key e, PendingLeafEntry.value e) in
  ∃ left right, split_single_root root left0 right0 left_pid right_pid mv e = Ret (left, right, r) ∧
    leaf_page left l right_pid [if mv then new else e0] ∧
    leaf_page right left_pid r [if mv then e0 else new].
Proof.
  intros P Hn Hs Hf new. destruct (leaf_links_ok _ _ _ _ P) as [Hl Hr].
  destruct (init_leaf left0) as (a & Ea & Pa). destruct (init_leaf right0) as (b & Eb & Pb).
  unfold split_single_root. rewrite (leaf_left _ _ _ _ P), (leaf_right _ _ _ _ P), Ea, bind_Ret, Eb, bind_Ret.
  destruct mv.
  - destruct (copy_right_leaf _ _ _ _ _ 0 1 P Pb) as (b1 & E1 & P1); [simpl; lia|].
    change (Z.of_nat 0) with 0 in E1. change (Z.of_nat 1) with 1 in E1. rewrite E1, bind_Ret.
    destruct (insert_first _ _ _ _ _ Pa Hf) as (q & -> & Pq). rewrite !bind_Ret. cbn [fst snd].
    eexists _, _. split; [done|]. split; by eapply leaf_links_set.
  - destruct (copy_right_leaf _ _ _ _ _ 0 1 P Pa) as (a1 & E1 & P1); [simpl; lia|].
    change (Z.of_nat 0) with 0 in E1. change (Z.of_nat 1) with 1 in E1. rewrite E1, bind_Ret.
    destruct (insert_first _ _ _ _ _ Pb Hf) as (q & -> & Pq). rewrite !bind_Ret. cbn [fst snd].
    eexists _, _. split; [done|]. split; by eapply leaf_links_set.
Qed.

End split.
