(* ===== verification/BTreeInnerSpec.v ===== *)
(** * B-tree: inner nodes as sequences of children

    An inner node is its children, left to right, with a separator between
    each two. Splitting, publishing a split and unswizzling are operations on
    these sequences. *)

From S2P Require Import Prelude Bytes FrameKernel SwipKernel PageHeader PageMutation Slotted SlottedInv SlottedOps SlottedSearch SlottedMutation SlottedSpec BufferFrame BTreeNode BTreeNodeInv BTreePages BTreeSplitSpec.
#[local] Open Scope Z_scope.
Import SlottedHeader SlottedPage.

(** The references of a node, the rightmost one last, and its separators. *)
Definition children (cs : list child) (u : Z) : list Z := cs.*2 ++ [u].
Definition seps (cs : list child) : list (list byte) := cs.*1.

Lemma length_children cs u : length (children cs u) = S (length cs).
Proof. unfold children. rewrite length_app, length_fmap. simpl. lia. Qed.

Section inner.
Context `{Build}.
Implicit Types (p q : page) (cs : list child) (nd : ExclusiveNode.t).

Lemma inner_count p cs u : inner_page p cs u → num_slots p = zlen cs ∧ zlen cs < 2 ^ 16.
Proof.
  intros P. pose proof (num_slots_range p) as Hr. rewrite (wf_num _ _ _ (inner_wf _ _ _ P)), zlen_inner_entries in *.
  split; [done|lia].
Qed.

Lemma inner_upper_ok p cs u : inner_page p cs u → word_ok u.
Proof. intros P. rewrite <-(inner_upper _ _ _ P). apply (get_le_range 8). Qed.

Lemma children_ok p cs u : inner_page p cs u → Forall word_ok (children cs u).
Proof.
  intros P. unfold children. apply Forall_app. split; [|constructor; [by eapply inner_upper_ok|done]].
  apply Forall_fmap. apply (inner_words _ _ _ P).
Qed.

(** ** Splitting *)

(** A run of children copied to a fresh page, or nothing when it is empty. *)
Lemma copy_children src cs u dst (a n : nat) :
  inner_page src cs u → wf dst 8 [] → (a + n ≤ length cs)%nat →
  ∃ q, (if 0 <? Z.of_nat n then copy_key_value_range src dst 0 (Z.of_nat a) (Z.of_nat n) else Ret dst) = Ret q ∧
    wf q 8 (inner_entries (take n (drop a cs))) ∧ frame_kept 8 dst q ∧ flags_kept dst q.
Proof.
  intros P W Hn. destruct (Z.ltb_spec 0 (Z.of_nat n)) as [Hp|Hz].
  - assert (El : length (inner_entries cs) = length cs) by apply length_fmap.
    destruct (copy_range_spec src 8 (inner_entries cs) dst 8 [] a n (inner_wf _ _ _ P) W) as (q & E & Wq & F & Fl); [lia| |].
    { apply page_fits_range. eapply wf_page_fits, P. }
    exists q. split_and!; [done| |done|done]. unfold inner_entries in *. by rewrite fmap_take, fmap_drop.
  - assert (n = 0%nat) as -> by lia. exists dst. split_and!; done.
Qed.

Lemma wf_inner_flag p q : wf p 8 [] → flags p = 0 → flags_kept p q → BTreeNode.is_leaf q = false.
Proof. intros _ Hf Hk. by rewrite is_leaf_bit, Hk, Hf by lia. Qed.

Lemma split_inner_spec node sibling cs u (i : nat) k w :
  inner_page node cs u → cs !! i = Some (k, w) →
  ∃ left right, split_inner node sibling (Z.of_nat i) = Ret (left, right) ∧
    inner_page left (take i cs) w ∧ inner_page right (drop (S i) cs) u.
Proof.
  intros P Hi. pose proof (lookup_lt_Some _ _ _ Hi) as Hlt. destruct (inner_count _ _ _ P) as [Hc Hb].
  pose proof (inner_words _ _ _ P) as Hw. destruct (init_inner sibling) as (s & Es & Ps).
  unfold split_inner. rewrite Es, bind_Ret, Hc. rewrite uadd_in_range, bind_Ret by (unfold zlen in *; lia).
  replace (Z.of_nat i + 1) with (Z.of_nat (S i)) by lia. rewrite usub_in_range, bind_Ret by (unfold zlen in *; lia).
  replace (zlen cs - Z.of_nat (S i)) with (Z.of_nat (length cs - S i)) by (unfold zlen; lia).
  destruct (copy_children node cs u s (S i) (length cs - S i) P (inner_wf _ _ _ Ps)) as (s1 & -> & Ws1 & F1 & Fl1); [lia|].
  rewrite bind_Ret, (inner_upper _ _ _ P). rewrite take_ge in Ws1 by (rewrite length_drop; lia).
  destruct (empty_tmp 8) as (t & Et & Wt & Ft); [lia|]. rewrite Et, bind_Ret.
  destruct (copy_children node cs u t 0 i P Wt) as (t1 & E1 & Wt1 & _ & Flt1); [lia|].
  change (Z.of_nat 0) with 0 in E1. rewrite E1, bind_Ret. rewrite drop_0 in Wt1.
  rewrite (child_swip_at_spec _ _ _ _ _ _ P Hi), bind_Ret. eexists _, _. split; [done|]. split.
  - apply dress_inner; [done|by eapply wf_inner_flag|by apply Forall_take|]. by apply (proj1 (Forall_lookup _ _) Hw _ _ Hi).
  - eapply inner_page_set_upper; [|by eapply inner_upper_ok]. eapply inner_kept; [exact Ps|done..|by apply Forall_drop].
Qed.

(** Nothing is lost in a split, and the middle separator goes up. *)
Lemma split_children cs u (i : nat) k w :
  cs !! i = Some (k, w) →
  children (take i cs) w ++ children (drop (S i) cs) u = children cs u ∧
  seps (take i cs) ++ k :: seps (drop (S i) cs) = seps cs.
Proof.
  intros Hi. pose proof (take_drop_middle _ _ _ Hi) as E. unfold children, seps. split.
  - rewrite <-E at 3. rewrite fmap_app. simpl. by rewrite <-!app_assoc.
  - rewrite <-E at 3. by rewrite fmap_app.
Qed.

(** ** Publication in the parent *)

Lemma children_insert cs u (i : nat) k w sep :
  cs !! i = Some (k, w) →
  ∀ wl wr, let cs' := insert_at i (sep, wl) (<[i := (k, wr)]> cs) in
  children cs' u = take i (children cs u) ++ wl :: wr :: drop (S i) (children cs u) ∧
  seps cs' = insert_at i sep (seps cs).
Proof.
  intros Hi wl wr. pose proof (lookup_lt_Some _ _ _ Hi) as Hlt. cbn zeta. unfold children, seps, insert_at.
  rewrite take_insert_ge, drop_insert_ge by lia. rewrite Nat.sub_diag.
  rewrite (drop_S _ _ _ Hi). change (<[0%nat := (k, wr)]> ((k, w) :: drop (S i) cs)) with ((k, wr) :: drop (S i) cs).
  rewrite !fmap_app, !fmap_cons. cbn [fst snd].
  rewrite take_app_le, drop_app_le by (rewrite length_fmap; lia). rewrite !fmap_take, !fmap_drop. split.
  - rewrite <-app_assoc. done.
  - f_equal. f_equal. symmetry. apply drop_S. by rewrite list_lookup_fmap, Hi.
Qed.

Lemma sep_fits_set cs (i : nat) k w w' key :
  cs !! i = Some (k, w) → sep_fits cs key → sep_fits (<[i := (k, w')]> cs) key.
Proof.
  intros Hi. unfold sep_fits, fits. rewrite !zlen_inner_entries.
  assert (zlen (<[i := (k, w')]> cs) = zlen cs) as -> by (unfold zlen; by rewrite length_insert).
  enough (heap_total (inner_entries (<[i := (k, w')]> cs)) = heap_total (inner_entries cs)) as -> by done.
  pose proof (lookup_lt_Some _ _ _ Hi). rewrite <-(take_drop_middle _ _ _ Hi) at 2. rewrite insert_take_drop by done.
  unfold inner_entries. rewrite !fmap_app, !fmap_cons, !heap_total_app. cbn [heap_total].
  unfold esize, child_entry. cbn [fst snd]. by rewrite !zlen_le_bytes.
Qed.

(** The two halves take the place of the split child at its position. *)
Definition split_at (pos : nat) (left right : Z) (ws : list Z) : list Z :=
  take pos ws ++ left :: right :: drop (S pos) ws.

Lemma apply_split_spec parent cs u (pos : nat) sep wl wr :
  inner_node parent cs u → (pos ≤ length cs)%nat → sep_fits cs sep → word_ok wl → word_ok wr →
  ∃ parent' cs' u',
    apply_split_to_latched_parent parent sep wl wr (ParentEdge.from_pos (Z.of_nat pos) (zlen cs)) =
      Ret (parent', {| SplitParentEdges.left := ParentEdge.Slot (Z.of_nat pos);
                       SplitParentEdges.right := ParentEdge.from_pos (Z.of_nat (S pos)) (zlen cs + 1) |}) ∧
    inner_node parent' cs' u' ∧ notes parent parent' ∧
    children cs' u' = split_at pos wl wr (children cs u) ∧ seps cs' = insert_at pos sep (seps cs).
Proof.
  intros Hn Hpos Hf Hwl Hwr. pose proof (inner_node_page _ _ _ Hn) as P. destruct (inner_count _ _ _ P) as [Hc Hb].
  unfold apply_split_to_latched_parent, ParentEdge.from_pos. rewrite Hc.
  destruct (Z.eqb_spec (Z.of_nat pos) (zlen cs)) as [He|Hne].
  - assert (pos = length cs) as -> by (unfold zlen in He; lia). cbn [ParentEdge.pos].
    unfold split_right_parent_uses_upper, split_separator_insert_pos. rewrite Z.leb_refl, Z.ltb_irrefl, bind_Ret.
    cbn [negb]. destruct (inner_insert parent cs u (length cs) sep wl Hn) as (n1 & E1 & Hn1 & N1); [lia|done..|].
    change (zlen cs) with (Z.of_nat (length cs)). rewrite E1, bind_Ret. cbn [ExclusiveNode.set_child_edge_swip].
    destruct (inner_set_upper n1 _ u wr Hn1 Hwr) as (n2 & -> & Hn2 & N2). rewrite bind_Ret.
    eexists n2, _, _. split; [|split; [exact Hn2|split; [by eapply notes_trans|]]].
    + rewrite (proj2 (Z.eqb_eq _ _)) by lia. done.
    + unfold split_at, children, seps, insert_at. rewrite !take_ge, !drop_ge by lia.
      rewrite !fmap_app. simpl. rewrite take_app_length', drop_ge, take_ge, drop_ge; rewrite ?length_app, ?length_fmap; simpl; try lia.
      by rewrite <-app_assoc.
  - assert (Hlt : (pos < length cs)%nat) by (unfold zlen in Hne; lia). cbn [ParentEdge.pos].
    unfold split_right_parent_uses_upper, split_separator_insert_pos.
    rewrite (proj2 (Z.leb_gt _ _)), (proj2 (Z.ltb_lt _ _)) by (unfold zlen; lia). cbn [negb].
    rewrite uadd_in_range, !bind_Ret by (unfold zlen in *; lia).
    destruct (lookup_lt_is_Some_2 cs pos Hlt) as [[k w] Hi].
    destruct (inner_set_child parent cs u pos k w wr Hn Hi Hwr) as (n1 & -> & Hn1 & N1). rewrite bind_Ret.
    destruct (inner_insert n1 _ u pos sep wl Hn1) as (n2 & -> & Hn2 & N2);
      [rewrite length_insert; lia|by apply (sep_fits_set _ _ _ w)|done|]. rewrite bind_Ret.
    destruct (children_insert cs u pos k w sep Hi wl wr) as [Ec Es].
    eexists n2, _, _. split; [|split; [exact Hn2|split; [by eapply notes_trans|done]]].
    rewrite (proj2 (Z.eqb_neq _ _)) by (unfold zlen in *; lia). do 4 f_equal. lia.
Qed.

(** ** Walking over the references *)

Section walk.
Context (loop : page → list Z → outcome page) (step : page → Z → outcome page) (Q : Z → Prop) (g : Z → Z).
Context (loop_nil : ∀ p, loop p [] = Ret p).
Context (loop_cons : ∀ p i ids, loop p (i :: ids) = (p ← step p i; loop p ids)).
Context (step_ok : ∀ p cs u (i : nat) k w, inner_page p cs u → cs !! i = Some (k, w) → Q w →
  ∃ p', step p (Z.of_nat i) = Ret p' ∧ inner_page p' (<[i := (k, g w)]> cs) u).

Definition mapped (cs : list child) : list child := (λ c, (c.1, g c.2)) <$> cs.

Lemma walk_slots cs2 : ∀ cs1 p u,
  inner_page p (cs1 ++ cs2) u → Forall (λ c, Q c.2) cs2 →
  ∃ p', loop p (seqZ (zlen cs1) (zlen cs2)) = Ret p' ∧ inner_page p' (cs1 ++ mapped cs2) u.
Proof.
  induction cs2 as [|[k w] cs2 IH]; intros cs1 p u P HQ.
  - exists p. rewrite seqZ_nil by (rewrite zlen_nil; lia). by rewrite loop_nil.
  - apply Forall_cons in HQ as [Hw HQ]. rewrite seqZ_zlen_cons, loop_cons.
    destruct (step_ok p _ u (length cs1) k w P) as (p1 & E & P1); [by rewrite list_lookup_middle|done|].
    assert (E' : step p (zlen cs1) = Ret p1) by exact E. rewrite E', bind_Ret.
    rewrite insert_app_r_alt, Nat.sub_diag in P1 by lia. change (<[0%nat := (k, g w)]> ((k, w) :: cs2)) with ((k, g w) :: cs2) in P1.
    change (cs1 ++ (k, g w) :: cs2) with (cs1 ++ [(k, g w)] ++ cs2) in P1. rewrite app_assoc in P1.
    destruct (IH _ _ _ P1 HQ) as (p2 & E2 & P2). exists p2. rewrite zlen_app in E2.
    change (zlen [(k, g w)]) with 1 in E2. rewrite E2. split; [done|]. unfold mapped in *.
    by rewrite <-app_assoc in P2.
Qed.

Lemma walk_all p cs u :
  inner_page p cs u → Forall (λ c, Q c.2) cs →
  ∃ p', loop p (seqZ 0 (num_slots p)) = Ret p' ∧ inner_page p' (mapped cs) u.
Proof.
  intros P HQ. destruct (inner_count _ _ _ P) as [-> _]. exact (walk_slots cs [] p u P HQ).
Qed.

End walk.

Lemma children_mapped g cs u : children (mapped g cs) (g u) = g <$> children cs u.
Proof. unfold children, mapped. rewrite fmap_app, <-!list_fmap_compose. done. Qed.

Lemma seps_mapped g cs : seps (mapped g cs) = seps cs.
Proof. unfold seps, mapped. rewrite <-list_fmap_compose. done. Qed.

Lemma inner_page_set_child p cs u (i : nat) k w w' :
  inner_page p cs u → cs !! i = Some (k, w) → word_ok w' →
  ∃ p', BTreeNode.set_child_swip_at p (Z.of_nat i) w' = Ret p' ∧ inner_page p' (<[i := (k, w')]> cs) u.
Proof.
  intros P Hi Hw. destruct (set_child_records p cs u i k w w' PageMutation.new P Hi PageMutation.new_ok)
    as (p' & a & b & m' & _ & Es & _ & _ & W' & F' & Fl').
  exists p'. split; [done|]. eapply inner_kept; [exact P|done..|]. apply Forall_insert; [apply P|done].
Qed.

(** ** Unswizzling a copied node *)

Lemma evicted_encode pid : payload_ok pid → SwipWord.evicted pid = Ret (encode (EvictedPage pid)).
Proof.
  intros Hp. unfold SwipWord.evicted, SwipWord.evicted_page. rewrite debug_assert_true, bind_Ret.
  - unfold make_evicted_page_word. by rewrite payload_lor_evicted.
  - apply Z.eqb_eq. by apply payload_land_state_mask.
Qed.

Lemma encode_word_ok s : swip_ok s → word_ok (encode s).
Proof. unfold swip_ok, payload_ok, word_ok. destruct s; simpl; lia. Qed.

(** The page a reference leads to, in a heap of frames. *)
Definition refers (heap : frames) (w pid : Z) : Prop := swip_page_id heap w = Ret pid ∧ payload_ok pid.

(** The reference by page identifier that replaces [w]. *)
Definition unswizzled (heap : frames) (w : Z) : Z :=
  match swip_page_id heap w with
  | Ret pid => encode (EvictedPage pid)
  | Panic => w
  end.

Lemma unswizzle_spec heap p cs u :
  inner_page p cs u → (∀ w, w ∈ children cs u → ∃ pid, refers heap w pid) →
  ∃ p', unswizzle_copied_inner_edges heap p = Ret p' ∧
    inner_page p' (mapped (unswizzled heap) cs) (unswizzled heap u).
Proof.
  intros P Hws. destruct (Hws u) as (pid & Hpid & Hok); [apply elem_of_app; right; by apply list_elem_of_singleton|].
  assert (Hcs : Forall (λ c, ∃ pid, refers heap c.2 pid) cs).
  { apply Forall_forall. intros c Hc. apply Hws, elem_of_app. left. by apply list_elem_of_fmap_2. }
  unfold unswizzle_copied_inner_edges.
  set (step := λ node pos, w ← BTreeNode.child_swip_at node pos; child_pid ← swip_page_id heap w;
    w ← SwipWord.evicted child_pid; BTreeNode.set_child_swip_at node pos w).
  destruct (λ nil cons step_ok, walk_all (unswizzle_loop heap) step (λ w, ∃ pid, refers heap w pid) (unswizzled heap)
    nil cons step_ok p cs u P Hcs) as (p1 & -> & P1).
  - done.
  - intros q i ids. unfold step. cbn [unswizzle_loop]. destruct (BTreeNode.child_swip_at q i); [|done]. cbn.
    destruct (swip_page_id heap a); [|done]. cbn. destruct (SwipWord.evicted a0); done.
  - intros q cs' u' i k w Q Hi (c & Hc & Hcok). unfold step.
    rewrite (child_swip_at_spec _ _ _ _ _ _ Q Hi), bind_Ret, Hc, bind_Ret.
    rewrite evicted_encode, bind_Ret by done. unfold unswizzled. rewrite Hc.
    eapply inner_page_set_child; [done|done|]. by apply encode_word_ok.
  - rewrite bind_Ret, (inner_upper _ _ _ P1), Hpid, bind_Ret, evicted_encode, bind_Ret by done. eexists. split; [done|].
    assert (unswizzled heap u = encode (EvictedPage pid)) as -> by (unfold unswizzled; by rewrite Hpid).
    eapply inner_page_set_upper; [done|]. by apply encode_word_ok.
Qed.

(** ** The root *)

Lemma elem_of_children cs u w : w ∈ children cs u ↔ w = u ∨ ∃ c, c ∈ cs ∧ w = c.2.
Proof.
  unfold children. rewrite elem_of_app, list_elem_of_singleton, list_elem_of_fmap. naive_solver.
Qed.

Lemma copy_inner_fresh src cs u dst0 (a n : nat) w :
  inner_page src cs u → (a + n ≤ length cs)%nat → word_ok w →
  ∃ d q, BTreeNode.init dst0 false = Ret d ∧
    (if 0 <? Z.of_nat n then copy_key_value_range src d 0 (Z.of_nat a) (Z.of_nat n) else Ret d) = Ret q ∧
    inner_page (BTreeNode.set_upper q w) (take n (drop a cs)) w.
Proof.
  intros P Hn Hw. destruct (init_inner dst0) as (d & Ed & Pd).
  destruct (copy_children src cs u d a n P (inner_wf _ _ _ Pd) Hn) as (q & Eq & Wq & Fq & Flq).
  exists d, q. split_and!; [done|done|]. eapply inner_page_set_upper; [|done].
  eapply inner_kept; [exact Pd|done..|]. apply Forall_take, Forall_drop, P.
Qed.

Lemma split_root_inner_spec heap root left0 right0 cs u (i : nat) k w :
  inner_page root cs u → cs !! i = Some (k, w) → (∀ x, x ∈ children cs u → ∃ pid, refers heap x pid) →
  ∃ left right, split_root_inner heap root left0 right0 (Z.of_nat i) = Ret (left, right) ∧
    inner_page left (mapped (unswizzled heap) (take i cs)) (unswizzled heap w) ∧
    inner_page right (mapped (unswizzled heap) (drop (S i) cs)) (unswizzled heap u).
Proof.
  intros P Hi Hr. pose proof (lookup_lt_Some _ _ _ Hi) as Hlt. destruct (inner_count _ _ _ P) as [Hc Hb].
  assert (Hwok : word_ok w) by apply (proj1 (Forall_lookup _ _) (inner_words _ _ _ P) _ _ Hi).
  destruct (split_children cs u i k w Hi) as [Ech _].
  destruct (copy_inner_fresh root cs u left0 0 i w P) as (a & a1 & Ea & Ea1 & Pa); [lia|done|].
  destruct (copy_inner_fresh root cs u right0 (S i) (length cs - S i) u P) as (b & b1 & Eb & Eb1 & Pb);
    [lia|by eapply inner_upper_ok|].
  unfold split_root_inner. rewrite Ea, bind_Ret, Eb, bind_Ret, Hc.
  rewrite uadd_in_range, bind_Ret by (unfold zlen in *; lia).
  replace (Z.of_nat i + 1) with (Z.of_nat (S i)) by lia. rewrite usub_in_range, bind_Ret by (unfold zlen in *; lia).
  replace (zlen cs - Z.of_nat (S i)) with (Z.of_nat (length cs - S i)) by (unfold zlen; lia).
  change (Z.of_nat 0) with 0 in Ea1. rewrite Ea1, bind_Ret, Eb1, bind_Ret. rewrite drop_0 in Pa.
  rewrite take_ge in Pb by (rewrite length_drop; lia).
  rewrite (child_swip_at_spec _ _ _ _ _ _ P Hi), bind_Ret, (inner_upper _ _ _ P).
  destruct (unswizzle_spec heap _ _ _ Pa) as (a2 & -> & Pa2).
  { intros x Hx. apply Hr. rewrite <-Ech. apply elem_of_app. by left. }
  rewrite bind_Ret. destruct (unswizzle_spec heap _ _ _ Pb) as (b2 & -> & Pb2).
  { intros x Hx. apply Hr. rewrite <-Ech. apply elem_of_app. by right. }
  rewrite bind_Ret. by eexists _, _.
Qed.

Lemma new_root_spec logs root sep wl wr :
  page_fits 8 (inner_entries [(sep, wl)]) → word_ok wl → word_ok wr →
  ∃ nd, new_root logs root sep wl wr = Ret nd ∧ inner_node nd [(sep, wl)] wr.
Proof.
  intros Hf Hl Hr. destruct (init_inner root) as (p & Ep & Pp). unfold new_root. rewrite Ep, bind_Ret.
  destruct (inner_insert (ExclusiveNode.new logs p) [] 0 0 sep wl) as (n1 & E1 & Hn1 & _).
  - constructor; [done|apply PageMutation.new_ok].
  - done.
  - apply (sep_fits_word [] sep wl), fits_page_fits. exact Hf.
  - done.
  - change (Z.of_nat 0) with 0 in E1. rewrite E1, bind_Ret. cbn [ExclusiveNode.set_child_edge_swip].
    destruct (inner_set_upper n1 _ 0 wr Hn1 Hr) as (n2 & -> & Hn2 & _). by exists n2.
Qed.

(** ** The form of a page that is written *)

(** [prepare] gives the word written for a reference. *)
Definition prepared (prepare : Z → outcome (option Z)) (w : Z) : Z :=
  match prepare w with
  | Ret (Some w') => w'
  | _ => w
  end.

Lemma convert_page_spec prepare p cs u :
  inner_page p cs u →
  (∀ w, w ∈ children cs u → ∃ o, prepare w = Ret o ∧ ∀ w', o = Some w' → word_ok w') →
  ∃ p', convert_page prepare p = Ret p' ∧ inner_page p' (mapped (prepared prepare) cs) (prepared prepare u).
Proof.
  intros P Hpr. unfold convert_page. rewrite (inner_type _ _ _ P). cbn [negb bool_decide].
  rewrite bool_decide_eq_true_2 by done. cbn [negb]. change 2 with FLAG_IS_LEAF.
  change (has_custom_flag p FLAG_IS_LEAF) with (BTreeNode.is_leaf p). rewrite (inner_flag _ _ _ P).
  set (Q := λ w, ∃ o, prepare w = Ret o ∧ ∀ w', o = Some w' → word_ok w').
  set (step := λ p i, val ← get_value p i;
    if 8 <=? zlen val then
      raw ← slice val 0 8; o ← prepare (SwipWord.from_raw (of_le_bytes raw));
      match o with
      | Some w => r ← update_value_if_same_length p i (le_bytes 8 (SwipWord.raw w)); Ret r.1
      | None => Ret p
      end
    else Ret p).
  destruct (λ nil cons step_ok HQ, walk_all (convert_loop prepare) step Q (prepared prepare)
    nil cons step_ok p cs u P HQ) as (p1 & -> & P1).
  - done.
  - intros q i ids. unfold step. cbn [convert_loop]. by destruct (get_value q i).
  - intros q cs' u' i k w Pq Hi (o & Ho & Hok). unfold step.
    rewrite (get_value_wf _ _ _ _ _ (inner_wf _ _ _ Pq) (inner_lookup _ _ _ _ Hi)), bind_Ret. cbn [snd].
    rewrite zlen_le_bytes. cbn [Z.leb Z.compare]. change (8 <=? Z.of_nat 8) with true. cbn iota.
    rewrite slice_word, bind_Ret. unfold SwipWord.from_raw.
    rewrite word_bytes by (by apply (proj1 (Forall_lookup _ _) (inner_words _ _ _ Pq) _ _ Hi)).
    unfold prepared. rewrite Ho, bind_Ret. destruct o as [w'|].
    + destruct (inner_page_set_child q cs' u' i k w w' Pq Hi (Hok w' eq_refl)) as (q' & E & Pq').
      exists q'. split; [|done]. unfold BTreeNode.set_child_swip_at in E.
      destruct (update_value_if_same_length _ _ _) as [[q1 b]|]; [|done]. rewrite bind_Ret in *.
      cbn [fst snd] in *. destruct (debug_assert b); [|done]. rewrite bind_Ret in E. congruence.
    + exists q. split; [done|]. by rewrite list_insert_id.
  - apply Forall_forall. intros c Hc. apply Hpr, elem_of_children. eauto.
  - rewrite bind_Ret. pose proof PAGE_SIZE_bounds. pose proof (wf_len _ _ _ (inner_wf _ _ _ P1)) as Hl.
    rewrite Hl, slice_Ret, bind_Ret by lia. replace (PAGE_SIZE - (PAGE_SIZE - 8)) with (Z.of_nat 8) by lia.
    change (SwipWord.from_raw (of_le_bytes (sub p1 (PAGE_SIZE - 8) (Z.of_nat 8)))) with (BTreeNode.upper_swip p1).
    rewrite (inner_upper _ _ _ P1). destruct (Hpr u) as (o & Ho & Hok); [apply elem_of_children; by left|].
    unfold prepared at 2. rewrite Ho, bind_Ret. destruct o as [w'|].
    + rewrite copy_from_Ret by (rewrite ?zlen_le_bytes; lia). eexists. split; [done|].
      apply (inner_page_set_upper p1 _ u w' P1). by apply Hok.
    + by exists p1.
Qed.

End inner.
