(* ===== verification/BTreeRoute.v ===== *)
(** * B-tree: routing

    Which child a node routes a key to, when a reader goes on to the right
    sibling of a leaf, and how the edge of a known child is found. *)

From S2P Require Import Prelude Bytes FrameKernel SwipKernel PageHeader PageMutation Slotted SlottedInv SlottedOps SlottedSearch SlottedMutation SlottedSpec BufferFrame BTreeNode BTreeNodeInv BTreePages BTreeSplitSpec BTreeInnerSpec.
#[local] Open Scope Z_scope.
Import SlottedHeader SlottedPage.

(** The edge of the child at position [i] of a node with children [cs]. *)
Definition edge_at (cs : list child) (i : nat) : ParentEdge.t := ParentEdge.from_pos (Z.of_nat i) (zlen cs).

(** [pos] is where [key] crosses the separators: greater than the one before,
    not greater than the one at [pos]; or equal to the one at [pos]. *)
Definition crosses (cs : list child) (key : list byte) (pos : nat) : Prop :=
  (pos ≤ length cs)%nat ∧
  (∀ k, seps cs !! pos = Some k → ¬ key_lt k key) ∧
  (∀ k, seps cs !! pred pos = Some k → (0 < pos)%nat → key_lt k key ∨ seps cs !! pos = Some key).

Section route.
Context `{Build}.
Implicit Types (p : page) (es : list entry) (cs : list child).

Lemma seps_lookup cs (i : nat) : seps cs !! i = fst <$> inner_entries cs !! i.
Proof. unfold seps, inner_entries. rewrite !list_lookup_fmap. by destruct (cs !! i). Qed.

Lemma children_slot cs u (i : nat) c : cs !! i = Some c → children cs u !! i = Some c.2.
Proof. intros Hi. unfold children. apply lookup_app_l_Some. by rewrite list_lookup_fmap, Hi. Qed.

Lemma children_upper cs u : children cs u !! length cs = Some u.
Proof. unfold children. rewrite lookup_app_r by (by rewrite length_fmap). by rewrite length_fmap, Nat.sub_diag. Qed.

(** The reference read from a slot by the optimistic methods. *)
Lemma try_child_word p cs u (i : nat) k w :
  inner_page p cs u → cs !! i = Some (k, w) →
  try_get_value p (Z.of_nat i) = Ret (Some (le_bytes 8 w)) ∧ of_le_bytes (sub (le_bytes 8 w) 0 8) = w.
Proof.
  intros P Hi. rewrite (try_get_value_wf (inner_wf _ _ _ P) i _ (inner_lookup _ _ _ _ Hi)). split; [done|].
  apply word_bytes. by apply (proj1 (Forall_lookup _ _) (inner_words _ _ _ P) _ _ Hi).
Qed.

Lemma route_spec p cs u key :
  inner_page p cs u →
  ∃ (pos : nat) w, ResidentFrame.try_route_to_child p key =
      Ret (Some {| RoutedChildRef.swip := w; RoutedChildRef.edge := edge_at cs pos |}) ∧
    children cs u !! pos = Some w ∧ crosses cs key pos.
Proof.
  intros P. pose proof (inner_wf _ _ _ P) as W. destruct (inner_count _ _ _ P) as [Hc _].
  destruct (lower_bound_crossing W key) as (pos & ex & E & [Hr Hb Ha He]). rewrite zlen_inner_entries in Hr.
  unfold ResidentFrame.try_route_to_child. rewrite (try_lower_bound_agree W key). unfold lifted. rewrite E, bind_Ret.
  unfold opt_bind at 1. rewrite bind_Ret. cbn [fst]. rewrite Hc.
  assert (∃ i : nat, pos = Z.of_nat i ∧ (i ≤ length cs)%nat) as (i & -> & Hi).
  { exists (Z.to_nat pos). unfold zlen in Hr. lia. }
  rewrite Nat2Z.id in *.
  assert (Hx : crosses cs key i).
  { split_and!; [done| |].
    - intros k Hk. rewrite seps_lookup in Hk. apply fmap_Some in Hk as (e & He' & ->). by apply Ha.
    - intros k Hk Hpos. rewrite seps_lookup in Hk. apply fmap_Some in Hk as (e & He' & ->). destruct ex.
      + right. destruct (He eq_refl) as [v Hv]. by rewrite seps_lookup, Hv.
      + left. apply (Hb eq_refl _ _ He'). lia. }
  unfold edge_at, parent_edge_round_trip_pos, ParentEdge.from_pos.
  destruct (Z.eqb_spec (Z.of_nat i) (zlen cs)) as [Hu|Hu]; cbn [ParentEdge.pos].
  - assert (i = length cs) as -> by (unfold zlen in Hu; lia). exists (length cs), u. rewrite (inner_upper _ _ _ P).
    rewrite (proj2 (Z.eqb_eq _ _)) by done. split_and!; [done|apply children_upper|done].
  - destruct (lookup_lt_is_Some_2 cs i) as [[k w] Hk]; [unfold zlen in Hu; lia|].
    destruct (try_child_word _ _ _ _ _ _ P Hk) as [Ev Ew]. rewrite Ev. unfold opt_bind. rewrite bind_Ret.
    change (zlen (le_bytes 8 w) <? 8) with false. rewrite slice_word, bind_Ret. unfold SwipWord.from_raw. rewrite Ew.
    exists i, w. rewrite (proj2 (Z.eqb_neq _ _)) by done. split_and!; [done|by apply (children_slot cs u i (k, w))|done].
Qed.

(** When the separators are in order the position is the count of smaller ones. *)
Lemma crosses_sorted cs key (pos : nat) :
  StronglySorted key_lt (seps cs) → crosses cs key pos →
  ∀ (j : nat) k, seps cs !! j = Some k → (j < pos)%nat ↔ key_lt k key.
Proof.
  intros Hs (Hp & Ha & Hb) j k Hj. split.
  - intros Hlt. destruct (lookup_lt_is_Some_2 (seps cs) (pred pos)) as [kp Hkp].
    { unfold seps in *. rewrite length_fmap. lia. }
    assert (Hkey : key_lt kp key ∨ seps cs !! pos = Some key) by (apply Hb; [done|lia]).
    destruct Hkey as [Hk|Hk].
    + destruct (decide (j = pred pos)) as [->|]; [congruence|].
      transitivity kp; [|done]. eapply (StronglySorted_lookup_lt _ _ j (pred pos)); [done..|lia].
    + eapply (StronglySorted_lookup_lt _ _ j pos); [done..|lia].
  - intros Hlt. apply Nat.lt_nge. intros Hge. destruct (decide (j = pos)) as [->|]; [by apply (Ha k)|].
    destruct (lookup_lt_is_Some_2 (seps cs) pos) as [kp Hkp]; [apply lookup_lt_Some in Hj; lia|].
    apply (Ha kp Hkp). transitivity k; [|done]. eapply (StronglySorted_lookup_lt _ _ pos j); [done..|lia].
Qed.

(** ** Going right *)

Lemma chase_spec p l r es key :
  leaf_page p l r es → keys_sorted es →
  ResidentFrame.should_chase_right p key =
    Ret (bool_decide (r ≠ 0 ∧ Forall (λ e, key_lt e.1 key) es)).
Proof.
  intros P Hs. pose proof (leaf_wf _ _ _ _ P) as W. unfold ResidentFrame.should_chase_right.
  rewrite (leaf_right _ _ _ _ P), (wf_num _ _ _ W). destruct (Z.eqb_spec r 0) as [->|Hr].
  { rewrite bool_decide_eq_false_2; [done|]. by intros [? _]. }
  destruct (Z.eqb_spec (zlen es) 0) as [Hz|Hz].
  { apply zlen_0_nil in Hz as ->. by rewrite bool_decide_eq_true_2. }
  assert (∃ e, last es = Some e) as [e Hl].
  { destruct (last es) eqn:El; [eauto|]. apply last_None in El. by rewrite El in Hz. }
  pose proof Hl as Hl'. rewrite last_lookup in Hl'. pose proof (lookup_lt_Some _ _ _ Hl').
  replace (zlen es - 1) with (Z.of_nat (pred (length es))) by (unfold zlen; lia).
  rewrite (try_get_key_wf W _ _ Hl'), bind_Ret. f_equal. apply bool_decide_ext. unfold cmp_keys. rewrite slice_cmp_gt.
  split.
  - intros Hlt. split; [done|]. apply Forall_forall. intros x Hx.
    destruct (sorted_below_last _ _ _ Hs Hl Hx) as [->|?]; [done|by etrans].
  - intros [_ Hf]. rewrite Forall_forall in Hf. apply Hf. by eapply list_elem_of_lookup_2.
Qed.

(** ** Finding a child by identity *)

(** An address a frame can have. *)
Definition frame_addr (a : Z) : Prop := PAGE_SIZE ≤ a < 2 ^ 62 ∧ a mod FRAME_ALIGN = 0.

(** A reference as the pool makes them. *)
Definition swip_valid (s : Swip) : Prop :=
  match s with
  | HotPtr a | CoolPtr a => frame_addr a
  | EvictedPage pid => payload_ok pid
  end.

Definition is_child (c : ChildRef.t) (s : Swip) : bool :=
  match s with
  | HotPtr a | CoolPtr a => a =? ChildRef.frame c
  | EvictedPage pid => pid =? ChildRef.pid c
  end.

Lemma swip_valid_ok s : swip_valid s → swip_ok s.
Proof.
  pose proof PAGE_SIZE_bounds. unfold swip_valid, swip_ok, frame_addr, payload_ok. destruct s; lia.
Qed.

Lemma from_hot_swip_encode s :
  swip_valid s →
  BufferFrameRef.from_hot_swip (encode s) =
    Ret (match s with HotPtr a | CoolPtr a => Some a | EvictedPage _ => None end).
Proof.
  intros Hv. pose proof (swip_valid_ok _ Hv) as Hok. destruct (is_encode _ Hok) as (Hh & Hc & He).
  unfold BufferFrameRef.from_hot_swip, SwipWord.as_ptr, SwipWord.pointer_bits. rewrite Hh, Hc, He.
  assert (G : ∀ a, frame_addr a → (a <? PAGE_SIZE) || negb (a mod FRAME_ALIGN =? 0) = false).
  { intros a [? E]. rewrite E, (proj2 (Z.ltb_ge _ _)) by lia. done. }
  destruct s as [a|a|pid]; simpl in *; [| |done];
    (destruct (pointer_bits_of_encode a) as [E1 E2]; [by apply (swip_valid_ok (HotPtr a))|]);
    rewrite debug_assert_true, !bind_Ret by done; simpl in E1, E2; rewrite ?E1, ?E2, G by done; done.
Qed.

Lemma matches_encode c s : swip_valid s → ChildRef.matches_swip c (encode s) = Ret (is_child c s).
Proof.
  intros Hv. pose proof (swip_valid_ok _ Hv) as Hok. destruct (is_encode _ Hok) as (_ & _ & He).
  unfold ChildRef.matches_swip. rewrite from_hot_swip_encode, bind_Ret by done.
  rewrite He. destruct s as [a|a|pid]; simpl.
  - unfold BufferFrameRef.same_frame. by destruct (a =? ChildRef.frame c).
  - unfold BufferFrameRef.same_frame. by destruct (a =? ChildRef.frame c).
  - unfold SwipWord.as_page_id, SwipWord.page_id. simpl in He. rewrite He, debug_assert_true, !bind_Ret by done.
    pose proof (page_id_of_encode pid Hok) as Ep. simpl in Ep. by rewrite Ep.
Qed.

(** The first position with a property. *)
Fixpoint first_at {A} (f : A → bool) (l : list A) : option nat :=
  match l with
  | [] => None
  | x :: l => if f x then Some 0%nat else S <$> first_at f l
  end.

Lemma first_at_app {A} (f : A → bool) l x :
  first_at f (l ++ [x]) = match first_at f l with Some i => Some i | None => if f x then Some (length l) else None end.
Proof.
  induction l as [|y l IH]; simpl; [by destruct (f x)|]. destruct (f y); [done|]. rewrite IH.
  destruct (first_at f l); simpl; [done|]. by destruct (f x).
Qed.

Lemma first_at_Some {A} (f : A → bool) l i :
  first_at f l = Some i → ∃ x, l !! i = Some x ∧ f x = true ∧ ∀ j y, (j < i)%nat → l !! j = Some y → f y = false.
Proof.
  revert i. induction l as [|y l IH]; simpl; intros i Hi; [done|]. destruct (f y) eqn:E; simplify_eq.
  - exists y. split_and!; [done|done|]. intros j z ?. lia.
  - apply fmap_Some in Hi as (i' & Hi' & ->). destruct (IH i' Hi') as (x & Hx & Hf & Hlt).
    exists x. split_and!; [done|done|]. intros [|j] z ? Hz; [by simplify_eq/=|]. apply (Hlt j z); [lia|done].
Qed.

Lemma first_at_None {A} (f : A → bool) l x : first_at f l = None → x ∈ l → f x = false.
Proof.
  induction l as [|y l IH]; simpl; intros Hi Hx; [by apply elem_of_nil in Hx|].
  destruct (f y) eqn:E; [done|]. apply elem_of_cons in Hx as [->|Hx]; [done|]. apply IH; [|done].
  by destruct (first_at f l).
Qed.

Lemma edge_loop_spec matches p cs u f cs2 : ∀ cs1,
  inner_page p cs u → cs = cs1 ++ cs2 → (∀ c, c ∈ cs2 → matches c.2 = Ret (f c.2)) →
  edge_loop matches p (seqZ (zlen cs1) (zlen cs2)) =
    Ret ((λ i : nat, ParentEdge.Slot (zlen cs1 + Z.of_nat i)) <$> first_at f (cs2.*2)).
Proof.
  induction cs2 as [|[k w] cs2 IH]; intros cs1 P E Hm.
  - by rewrite seqZ_nil by (rewrite zlen_nil; lia).
  - rewrite seqZ_zlen_cons. cbn [edge_loop].
    assert (Ec : BTreeNode.child_swip_at p (zlen cs1) = Ret w).
    { apply (child_swip_at_spec p cs u (length cs1) k w P). by rewrite E, list_lookup_middle. }
    rewrite Ec, bind_Ret. assert (Hw : matches w = Ret (f w)) by (apply (Hm (k, w)), elem_of_cons; by left).
    rewrite Hw, bind_Ret. rewrite fmap_cons. cbn [first_at snd]. destruct (f w).
    + cbn. do 3 f_equal. lia.
    + pose proof (IH (cs1 ++ [(k, w)]) P) as IH'. rewrite zlen_app in IH'. change (zlen [(k, w)]) with 1 in IH'.
      rewrite IH'; [|by rewrite <-app_assoc|].
      * destruct (first_at f cs2.*2); cbn; [|done]. do 3 f_equal. lia.
      * intros c Hc. apply Hm, elem_of_cons. by right.
Qed.

Lemma find_edge_spec matches p cs u f :
  inner_page p cs u → (∀ w, w ∈ children cs u → matches w = Ret (f w)) →
  find_edge matches p = Ret (edge_at cs <$> first_at f (children cs u)).
Proof.
  intros P Hm. destruct (inner_count _ _ _ P) as [Hc _]. unfold find_edge. rewrite Hc.
  pose proof (edge_loop_spec matches p cs u f cs [] P eq_refl) as El. rewrite zlen_nil in El. rewrite El, bind_Ret.
  2:{ intros c Hcc. apply Hm, elem_of_children. eauto. }
  unfold children. rewrite first_at_app, length_fmap. destruct (first_at f cs.*2) as [i|] eqn:Ef; cbn.
  - unfold edge_at, ParentEdge.from_pos. apply first_at_Some in Ef as (x & Hx & _).
    apply lookup_lt_Some in Hx. rewrite length_fmap in Hx. rewrite (proj2 (Z.eqb_neq _ _)); [done|unfold zlen; lia].
  - rewrite (inner_upper _ _ _ P), Hm, bind_Ret by (apply elem_of_children; by left). destruct (f u); [|done].
    cbn. unfold edge_at, ParentEdge.from_pos. by rewrite (proj2 (Z.eqb_eq _ _)).
Qed.

(** ** All routes of a node *)

Definition routes (cs : list child) (u : Z) : list RoutedChildRef.t :=
  imap (λ i w, {| RoutedChildRef.swip := w; RoutedChildRef.edge := edge_at cs i |}) (children cs u).

(** The routes of the slots from [a] on. *)
Definition slot_routes (a : Z) (cs : list child) : list RoutedChildRef.t :=
  imap (λ i c, {| RoutedChildRef.swip := c.2; RoutedChildRef.edge := ParentEdge.Slot (a + Z.of_nat i) |}) cs.

Lemma slot_routes_cons a c cs :
  slot_routes a (c :: cs) =
    {| RoutedChildRef.swip := c.2; RoutedChildRef.edge := ParentEdge.Slot a |} :: slot_routes (a + 1) cs.
Proof.
  unfold slot_routes. cbn [imap]. f_equal; [by rewrite Z.add_0_r|]. apply imap_ext. intros i x _. simpl.
  do 2 f_equal. lia.
Qed.

Lemma routes_slots cs u :
  routes cs u = slot_routes 0 cs ++ [{| RoutedChildRef.swip := u; RoutedChildRef.edge := ParentEdge.Upper |}].
Proof.
  unfold routes, children. rewrite imap_app. f_equal.
  - unfold slot_routes. rewrite imap_fmap. apply imap_ext. intros i c Hi. simpl. f_equal.
    unfold edge_at, ParentEdge.from_pos. apply lookup_lt_Some in Hi. rewrite (proj2 (Z.eqb_neq _ _)); [done|unfold zlen; lia].
  - simpl. rewrite length_fmap, Nat.add_0_r. unfold edge_at, ParentEdge.from_pos. by rewrite Z.eqb_refl.
Qed.

Lemma child_routes_loop_spec nd cs u cs2 : ∀ cs1,
  inner_page (ExclusiveNode.page nd) cs u → cs = cs1 ++ cs2 →
  ExclusiveNode.child_routes_loop nd (seqZ (zlen cs1) (zlen cs2)) = Ret (slot_routes (zlen cs1) cs2).
Proof.
  induction cs2 as [|[k w] cs2 IH]; intros cs1 P E; [by rewrite seqZ_nil by (rewrite zlen_nil; lia)|].
  rewrite seqZ_zlen_cons, slot_routes_cons. cbn [ExclusiveNode.child_routes_loop].
  assert (Ec : BTreeNode.child_swip_at (ExclusiveNode.page nd) (zlen cs1) = Ret w).
  { apply (child_swip_at_spec _ cs u (length cs1) k w P). by rewrite E, list_lookup_middle. }
  rewrite Ec, bind_Ret. pose proof (IH (cs1 ++ [(k, w)]) P) as IH'. rewrite zlen_app in IH'.
  change (zlen [(k, w)]) with 1 in IH'. rewrite IH' by (by rewrite <-app_assoc). done.
Qed.

Lemma child_routes_spec nd cs u :
  inner_page (ExclusiveNode.page nd) cs u → ExclusiveNode.child_routes nd = Ret (routes cs u).
Proof.
  intros P. destruct (inner_count _ _ _ P) as [Hc _]. unfold ExclusiveNode.child_routes. rewrite Hc.
  pose proof (child_routes_loop_spec nd cs u cs [] P eq_refl) as El. rewrite zlen_nil in El.
  rewrite El, bind_Ret, (inner_upper _ _ _ P). by rewrite routes_slots.
Qed.

Lemma routes_loop_spec p cs u cs2 : ∀ cs1,
  inner_page p cs u → cs = cs1 ++ cs2 →
  OptimisticNode.routes_loop p (seqZ (zlen cs1) (zlen cs2)) = Ret (Some (slot_routes (zlen cs1) cs2)).
Proof.
  induction cs2 as [|[k w] cs2 IH]; intros cs1 P E; [by rewrite seqZ_nil by (rewrite zlen_nil; lia)|].
  rewrite seqZ_zlen_cons, slot_routes_cons. cbn [OptimisticNode.routes_loop].
  destruct (try_child_word p cs u (length cs1) k w P) as [Ev Ew]; [by rewrite E, list_lookup_middle|].
  assert (Ev' : try_get_value p (zlen cs1) = Ret (Some (le_bytes 8 w))) by exact Ev.
  rewrite Ev'. unfold opt_bind. rewrite bind_Ret. change (zlen (le_bytes 8 w) <? 8) with false.
  rewrite slice_word, bind_Ret. unfold SwipWord.from_raw. rewrite Ew.
  pose proof (IH (cs1 ++ [(k, w)]) P) as IH'. rewrite zlen_app in IH'. change (zlen [(k, w)]) with 1 in IH'.
  rewrite IH' by (by rewrite <-app_assoc). done.
Qed.

Lemma for_each_child_route_spec p cs u :
  inner_page p cs u → OptimisticNode.for_each_child_route p = Ret (Some (routes cs u)).
Proof.
  intros P. destruct (inner_count _ _ _ P) as [Hc _]. unfold OptimisticNode.for_each_child_route. rewrite Hc.
  pose proof (count_ok (inner_wf _ _ _ P)) as Ho. rewrite zlen_inner_entries in Ho. rewrite Ho.
  pose proof (routes_loop_spec p cs u cs [] P eq_refl) as El. rewrite zlen_nil in El. rewrite El.
  unfold opt_bind. rewrite bind_Ret, (inner_upper _ _ _ P). by rewrite routes_slots.
Qed.

End route.
