(* ===== verification/BTreeMergeSpec.v ===== *)
(** * B-tree: merging two siblings

    The merged page holds the entries of both, [leaf_pair_fits] and
    [inner_pair_fits] decide exactly when there is room, and the parent loses
    the right one of the two children. *)

From S2P Require Import Prelude Bytes FrameKernel SwipKernel PageHeader PageMutation Slotted SlottedInv SlottedOps SlottedSearch SlottedMutation SlottedSpec BufferFrame BTreeNode BTreeNodeInv BTreePages BTreeMerge BTreeSplitSpec BTreeInnerSpec BTreeRoute.
#[local] Open Scope Z_scope.
Import SlottedHeader SlottedPage.

Lemma opt_bind_Some {A B} (a : A) (k : A → outcome (option B)) : opt_bind (Ret (Some a)) k = k a.
Proof. done. Qed.

Section merge.
Context `{Build}.
Implicit Types (p q : page) (es : list entry) (cs : list child) (nd : ExclusiveNode.t).

(** ** Appending the entries of a page *)

Lemma append_room R es0 e rest tmp :
  wf tmp R es0 → page_fits R (es0 ++ e :: rest) → fits R es0 e.1 e.2.
Proof.
  intros _ Hf. destruct e as [k v]. apply fits_page_fits.
  change (es0 ++ (k, v) :: rest) with (es0 ++ [(k, v)] ++ rest) in Hf. rewrite app_assoc in Hf.
  by apply page_fits_app_l in Hf as [? _].
Qed.

Lemma append_one R es0 e tmp :
  wf tmp R es0 → fits R es0 e.1 e.2 →
  ∃ tmp', insert tmp (num_slots tmp) e.1 e.2 = Ret tmp' ∧ wf tmp' R (es0 ++ [e]) ∧
    frame_kept R tmp tmp' ∧ flags_kept tmp tmp'.
Proof.
  intros W Hf. rewrite (wf_num _ _ _ W). destruct (insert_wf tmp R es0 e.1 e.2 (length es0) W) as (q & E & Wq & F & Fl); [lia|done|].
  exists q. split_and!; [done| |done..]. unfold insert_at in Wq. rewrite take_ge, drop_ge in Wq by lia. by destruct e.
Qed.

Lemma can_append R es0 e tmp : wf tmp R es0 → can_insert tmp (zlen e.1) (zlen e.2) = bool_decide (fits R es0 e.1 e.2).
Proof.
  intros W. apply Bool.eq_iff_eq_true. rewrite bool_decide_eq_true. by apply can_insert_wf.
Qed.

(** What an append loop leaves. *)
Definition appended R es (tmp : page) (r : outcome (option page)) : Prop :=
  (page_fits R es → ∃ tmp', r = Ret (Some tmp') ∧ wf tmp' R es ∧ frame_kept R tmp tmp' ∧ flags_kept tmp tmp') ∧
  (¬ page_fits R es → r = Ret None).

Lemma appended_step R es tmp tmp1 r :
  frame_kept R tmp tmp1 → flags_kept tmp tmp1 → appended R es tmp1 r → appended R es tmp r.
Proof.
  intros F Fl [Hy Hn]. split; [|done]. intros Hf. destruct (Hy Hf) as (t & -> & W & F' & Fl'). exists t.
  split_and!; [done|done|by eapply frame_kept_trans|]. intros i Hi. by rewrite Fl', Fl.
Qed.

Lemma append_leaf_loop_spec src R1 es R rest : ∀ (i : nat) tmp es0,
  wf src R1 es → wf tmp R es0 → drop i es = rest →
  appended R (es0 ++ rest) tmp (append_leaf_loop src tmp (seqZ (Z.of_nat i) (zlen rest))).
Proof.
  induction rest as [|e rest IH]; intros i tmp es0 Ws W Hd.
  - rewrite seqZ_nil by (rewrite zlen_nil; lia). rewrite app_nil_r. split.
    + intros _. exists tmp. by split_and!.
    + intros Hn. by apply wf_page_fits in W.
  - rewrite seqZ_zlen_cons. cbn [append_leaf_loop].
    assert (He : es !! i = Some e).
    { pose proof (lookup_drop es i 0) as Hx. rewrite Hd, Nat.add_0_r in Hx. by rewrite <-Hx. }
    rewrite (try_get_key_wf Ws i e He). rewrite opt_bind_Some. rewrite (try_get_value_wf Ws i e He). rewrite opt_bind_Some.
    rewrite (can_append R es0 e tmp W). destruct (bool_decide_reflect (fits R es0 e.1 e.2)) as [Hf|Hf]; cbn [negb].
    + destruct (append_one R es0 e tmp W Hf) as (t1 & -> & W1 & F1 & Fl1). rewrite bind_Ret.
      eapply appended_step; [done|done|]. change (es0 ++ e :: rest) with (es0 ++ [e] ++ rest). rewrite app_assoc.
      replace (Z.of_nat i + 1) with (Z.of_nat (S i)) by lia. apply IH; [done|done|].
      rewrite (drop_S _ _ _ He) in Hd. congruence.
    + split; [|done]. intros Hp. by apply (append_room R es0 e rest tmp) in Hp.
Qed.

Lemma append_inner_loop_spec src cs u R rest : ∀ (i : nat) tmp es0,
  inner_page src cs u → wf tmp R es0 → drop i (inner_entries cs) = rest →
  appended R (es0 ++ rest) tmp (append_inner_loop src tmp (seqZ (Z.of_nat i) (zlen rest))).
Proof.
  induction rest as [|e rest IH]; intros i tmp es0 Ps W Hd.
  - rewrite seqZ_nil by (rewrite zlen_nil; lia). rewrite app_nil_r. split.
    + intros _. exists tmp. by split_and!.
    + intros Hn. by apply wf_page_fits in W.
  - rewrite seqZ_zlen_cons. cbn [append_inner_loop]. pose proof (inner_wf _ _ _ Ps) as Ws.
    assert (He : inner_entries cs !! i = Some e).
    { pose proof (lookup_drop (inner_entries cs) i 0) as Hx. rewrite Hd, Nat.add_0_r in Hx. by rewrite <-Hx. }
    assert (Hv : zlen e.2 = 8).
    { unfold inner_entries in He. rewrite list_lookup_fmap in He. apply fmap_Some in He as (c & _ & ->).
      apply (zlen_le_bytes 8). }
    rewrite (get_key_wf _ _ _ _ _ Ws He), bind_Ret. pose proof (can_append R es0 e tmp W) as Hc. rewrite Hv in Hc.
    rewrite Hc. destruct (bool_decide_reflect (fits R es0 e.1 e.2)) as [Hf|Hf]; cbn [negb].
    + rewrite (get_value_wf _ _ _ _ _ Ws He), bind_Ret.
      destruct (append_one R es0 e tmp W Hf) as (t1 & -> & W1 & F1 & Fl1). rewrite bind_Ret.
      eapply appended_step; [done|done|]. change (es0 ++ e :: rest) with (es0 ++ [e] ++ rest). rewrite app_assoc.
      replace (Z.of_nat i + 1) with (Z.of_nat (S i)) by lia. apply IH; [done|done|].
      rewrite (drop_S _ _ _ He) in Hd. congruence.
    + split; [|done]. intros Hp. by apply (append_room R es0 e rest tmp) in Hp.
Qed.

(** ** Leaves *)

Lemma concat_leaves_spec left right l r l2 r2 esl esr :
  leaf_page left l r esl → leaf_page right l2 r2 esr →
  (page_fits 16 (esl ++ esr) → ∃ tmp, concat_leaves left right = Ret (Some tmp) ∧
    wf tmp 16 (esl ++ esr) ∧ BTreeNode.is_leaf tmp = true) ∧
  (¬ page_fits 16 (esl ++ esr) → concat_leaves left right = Ret None).
Proof.
  intros Pl Pr. pose proof (leaf_wf _ _ _ _ Pl) as Wl. pose proof (leaf_wf _ _ _ _ Pr) as Wr.
  unfold concat_leaves. destruct (empty_tmp 16) as (t & -> & Wt & _); [lia|]. rewrite bind_Ret.
  rewrite (wf_num _ _ _ Wl), (wf_num _ _ _ Wr). pose proof (wf_flagged t 16 [] FLAG_IS_LEAF Wt) as Wt1.
  pose proof (leaf_flagged t (wf_len _ _ _ Wt)) as Hlf. set (t1 := set_flag t FLAG_IS_LEAF) in *.
  destruct (append_leaf_loop_spec left 16 esl 16 esl 0 t1 [] Wl Wt1 (drop_0 _)) as [Hy _].
  destruct Hy as (t2 & E2 & W2 & F2 & Fl2); [by eapply wf_page_fits|].
  change (Z.of_nat 0) with 0 in E2. rewrite E2. rewrite opt_bind_Some.
  destruct (append_leaf_loop_spec right 16 esr 16 esr 0 t2 esl Wr W2 (drop_0 _)) as [Hy Hn].
  change (Z.of_nat 0) with 0 in Hy, Hn. split.
  - intros Hf. destruct (Hy Hf) as (t3 & -> & W3 & _ & Fl3). exists t3. split_and!; [done|done|].
    by rewrite (kept_leaf_flag t2 t3 Fl3), (kept_leaf_flag t1 t2 Fl2).
  - intros Hf. by rewrite (Hn Hf).
Qed.

Lemma replace_page_spec nd p :
  PageMutation.ok (ExclusiveNode.mutation nd) → zlen (ExclusiveNode.page nd) = PAGE_SIZE → zlen p = PAGE_SIZE →
  ∃ nd', ExclusiveNode.replace_page nd p = Ret nd' ∧ ExclusiveNode.page nd' = p ∧
    PageMutation.ok (ExclusiveNode.mutation nd') ∧
    ExclusiveNode.logs_dirty_ranges nd' = ExclusiveNode.logs_dirty_ranges nd ∧
    (ExclusiveNode.logs_dirty_ranges nd = true →
      ∀ j, 8 ≤ j < PAGE_SIZE → PageMutation.covers (ExclusiveNode.mutation nd') j).
Proof.
  intros Hok Hl Hp. pose proof PAGE_SIZE_bounds. unfold ExclusiveNode.replace_page, ExclusiveNode.note_range.
  destruct (ExclusiveNode.logs_dirty_ranges nd) eqn:E.
  - destruct (add_range_step _ 8 PAGE_SIZE Hok) as (m & -> & Om & Cm); [lia..|]. rewrite bind_Ret.
    eexists. split; [done|]. split_and!; [done|done|done|]. intros _ j Hj. apply Cm. by right.
  - eexists. split; [done|]. by split_and!.
Qed.

(** A page replaced as a whole is reported as a whole. *)
Lemma finish_replaced nd nd' :
  zlen (ExclusiveNode.page nd) = PAGE_SIZE → zlen (ExclusiveNode.page nd') = PAGE_SIZE →
  PageMutation.ok (ExclusiveNode.mutation nd') →
  (ExclusiveNode.logs_dirty_ranges nd' = true →
    ∀ j, 8 ≤ j < PAGE_SIZE → PageMutation.covers (ExclusiveNode.mutation nd') j) →
  dirty_covers (ExclusiveNode.finish_mutation nd').2 (ExclusiveNode.page nd) (ExclusiveNode.page nd') ∧
  ExclusiveNode.page (ExclusiveNode.finish_mutation nd').1 = ExclusiveNode.page nd' ∧
  PageMutation.ok (ExclusiveNode.mutation (ExclusiveNode.finish_mutation nd').1).
Proof.
  intros Hl Hl' Hok Hc. unfold ExclusiveNode.finish_mutation.
  destruct (ExclusiveNode.logs_dirty_ranges nd') eqn:El; cbn [negb fst snd]; [|by split_and!].
  pose proof PAGE_SIZE_bounds. destruct (PageMutation.is_empty _) eqn:Em; cbn [fst snd].
  - by destruct (empty_covers _ 8 Em (Hc eq_refl 8 ltac:(lia))).
  - split_and!; [|done|apply PageMutation.new_ok]. split; [done|]. intros j Hj Hne. apply Hc; [done|].
    split; [lia|]. apply Z.lt_nge. intros Hge. apply Hne.
    rewrite !lookup_ge_None_2; [done|unfold zlen in *; lia..].
Qed.

Lemma merge_leaf_spec left right l r l2 r2 esl esr :
  leaf_node left l r esl → leaf_page right l2 r2 esr →
  (page_fits 16 (esl ++ esr) → ∃ left' d, merge_leaf_pages_into_left left right = Ret (left', d, true) ∧
    leaf_node left' l r2 (esl ++ esr) ∧
    dirty_covers d (ExclusiveNode.page left) (ExclusiveNode.page left')) ∧
  (¬ page_fits 16 (esl ++ esr) →
    merge_leaf_pages_into_left left right = Ret (left, ExclusiveNode.Unchanged, false)).
Proof.
  intros [Pl Ol] Pr. destruct (concat_leaves_spec _ _ _ _ _ _ _ _ Pl Pr) as [Hy Hn].
  unfold merge_leaf_pages_into_left. split; intros Hf.
  - destruct (Hy Hf) as (t & -> & Wt & Ht). rewrite bind_Ret, (leaf_left _ _ _ _ Pl), (leaf_right _ _ _ _ Pr).
    destruct (leaf_links_ok _ _ _ _ Pl) as [Hl _]. destruct (leaf_links_ok _ _ _ _ Pr) as [_ Hr].
    pose proof (dress_links t _ l r2 Wt Ht Hl Hr) as Pt. set (q := write_page_type _ _) in *.
    pose proof (wf_len _ _ _ (leaf_wf _ _ _ _ Pl)) as Ll. pose proof (wf_len _ _ _ (leaf_wf _ _ _ _ Pt)) as Lt.
    destruct (replace_page_spec left q Ol Ll Lt) as (n1 & -> & E1 & O1 & L1 & C1). rewrite bind_Ret.
    rewrite <-L1 in C1. rewrite <-E1 in Lt. destruct (finish_replaced left n1 Ll Lt O1 C1) as (Hd & Hp & Ho).
    destruct (ExclusiveNode.finish_mutation n1) as [n2 d]. cbn [fst snd] in *. exists n2, d. split; [done|].
    split; [|by rewrite Hp]. constructor; [by rewrite Hp, E1|done].
  - by rewrite (Hn Hf).
Qed.

(** ** Inner nodes *)

(** The sequence of the two nodes with the boundary key between them. *)
Definition joined (csl : list child) (ul : Z) (boundary : list byte) (csr : list child) : list child :=
  csl ++ (boundary, ul) :: csr.

Lemma joined_children csl ul boundary csr ur :
  children (joined csl ul boundary csr) ur = children csl ul ++ children csr ur ∧
  seps (joined csl ul boundary csr) = seps csl ++ boundary :: seps csr.
Proof. unfold children, seps, joined. rewrite !fmap_app. simpl. by rewrite <-!app_assoc. Qed.

Lemma inner_pair_fits_spec left right csl ul boundary csr ur :
  inner_page left csl ul → inner_page right csr ur →
  inner_pair_fits left boundary right = Ret (bool_decide (page_fits 8 (inner_entries (joined csl ul boundary csr)))).
Proof.
  intros Pl Pr. unfold inner_pair_fits. destruct (empty_tmp 8) as (t & -> & Wt & _); [lia|]. rewrite bind_Ret.
  rewrite (wf_num _ _ _ (inner_wf _ _ _ Pl)), (wf_num _ _ _ (inner_wf _ _ _ Pr)).
  destruct (append_inner_loop_spec left csl ul 8 (inner_entries csl) 0 t [] Pl Wt (drop_0 _)) as [Hy _].
  destruct Hy as (t1 & E1 & W1 & _); [eapply wf_page_fits, Pl|]. change (Z.of_nat 0) with 0 in E1. rewrite E1, bind_Ret.
  assert (Ej : inner_entries (joined csl ul boundary csr) = (inner_entries csl ++ [(boundary, le_bytes 8 ul)]) ++ inner_entries csr).
  { unfold inner_entries, joined. rewrite fmap_app, fmap_cons, <-app_assoc. done. }
  cbn [app] in W1. pose proof (can_append 8 _ (boundary, le_bytes 8 ul) t1 W1) as Hc. cbn [fst snd] in Hc.
  rewrite zlen_le_bytes in Hc. change (Z.of_nat 8) with 8 in Hc. rewrite Hc.
  destruct (decide (fits 8 (inner_entries csl) boundary (le_bytes 8 ul))) as [Hf|Hf].
  - rewrite (bool_decide_eq_true_2 (fits _ _ _ _)) by done. cbn [negb]. rewrite (inner_upper _ _ _ Pl). unfold SwipWord.raw.
    destruct (append_one 8 _ (boundary, le_bytes 8 ul) t1 W1 Hf) as (t2 & E2 & W2 & _). cbn [fst snd] in E2.
    rewrite E2, bind_Ret.
    destruct (append_inner_loop_spec right csr ur 8 (inner_entries csr) 0 t2 _ Pr W2 (drop_0 _)) as [Hy Hn].
    change (Z.of_nat 0) with 0 in Hy, Hn. rewrite Ej. destruct (bool_decide_reflect (page_fits 8
      ((inner_entries csl ++ [(boundary, le_bytes 8 ul)]) ++ inner_entries csr))) as [Hp|Hp].
    + destruct (Hy Hp) as (t3 & -> & _). done.
    + by rewrite (Hn Hp).
  - rewrite (bool_decide_eq_false_2 (fits _ _ _ _)), bool_decide_eq_false_2; [done| |done]. rewrite Ej. intros [Hp _]%page_fits_app_l. by apply Hf, fits_page_fits.
Qed.

Lemma merge_inner_spec left right csl ul boundary csr ur :
  inner_node left csl ul → inner_page right csr ur → page_fits 8 (inner_entries (joined csl ul boundary csr)) →
  ∃ left' d, merge_inner_pages_into_left left boundary right = Ret (left', d) ∧
    inner_node left' (joined csl ul boundary csr) ur ∧
    dirty_covers d (ExclusiveNode.page left) (ExclusiveNode.page left').
Proof.
  intros [Pl Ol] Pr Hf. destruct (inner_count _ _ _ Pl) as [Cl _]. destruct (inner_count _ _ _ Pr) as [Cr _].
  assert (Ej : inner_entries (joined csl ul boundary csr) = (inner_entries csl ++ [(boundary, le_bytes 8 ul)]) ++ inner_entries csr).
  { unfold inner_entries, joined. rewrite fmap_app, fmap_cons, <-app_assoc. done. }
  unfold merge_inner_pages_into_left. destruct (empty_tmp 8) as (t & -> & Wt & Ft); [lia|]. rewrite bind_Ret, Cl, Cr.
  destruct (copy_children _ csl ul t 0 (length csl) Pl Wt) as (t1 & E1 & W1 & _ & Fl1); [lia|].
  change (Z.of_nat 0) with 0 in E1. change (zlen csl) with (Z.of_nat (length csl)). rewrite E1, bind_Ret.
  rewrite drop_0, take_ge in W1 by done. rewrite (inner_upper _ _ _ Pl), (inner_upper _ _ _ Pr). unfold SwipWord.raw.
  rewrite Ej in Hf. destruct (append_one 8 (inner_entries csl) (boundary, le_bytes 8 ul) t1 W1) as (t2 & E2 & W2 & _ & Fl2).
  { apply page_fits_app_l in Hf as [Hf _]. by apply fits_page_fits. }
  cbn [fst snd] in E2. rewrite E2, bind_Ret.
  assert (∃ t3, (if 0 <? zlen csr then copy_key_value_range right t2 (num_slots t2) 0 (zlen csr) else Ret t2) = Ret t3 ∧
    wf t3 8 (inner_entries (joined csl ul boundary csr)) ∧ flags_kept t2 t3) as (t3 & -> & W3 & Fl3).
  { rewrite Ej. destruct (Z.ltb_spec 0 (zlen csr)) as [Hp|Hz].
    - destruct (copy_range_spec right 8 (inner_entries csr) t2 8 _ 0 (length csr) (inner_wf _ _ _ Pr) W2) as (t3 & E3 & W3 & _ & Fl3).
      + unfold inner_entries. rewrite length_fmap. lia.
      + rewrite drop_0, take_ge; [done|]. unfold inner_entries. by rewrite length_fmap.
      + rewrite drop_0, take_ge in W3 by (unfold inner_entries; by rewrite length_fmap).
        change (Z.of_nat 0) with 0 in E3. rewrite (wf_num _ _ _ W2). by exists t3.
    - assert (csr = []) as -> by (apply zlen_0_nil; pose proof (zlen_nonneg csr); lia).
      exists t2. change (inner_entries []) with (@nil entry). rewrite app_nil_r. by split_and!. }
  rewrite bind_Ret. assert (Hfl : BTreeNode.is_leaf t3 = false).
  { rewrite (kept_leaf_flag t2 t3 Fl3), (kept_leaf_flag t1 t2 Fl2), (kept_leaf_flag t t1 Fl1), is_leaf_bit, Ft. done. }
  assert (Hwords : Forall (λ c, word_ok c.2) (joined csl ul boundary csr)).
  { unfold joined. apply Forall_app. split; [apply Pl|]. constructor; [by eapply inner_upper_ok|apply Pr]. }
  pose proof (inner_upper_ok _ _ _ Pr) as Hur.
  pose proof (wf_len _ _ _ (inner_wf _ _ _ Pl)) as Ll.
  destruct (replace_page_spec left (write_page_type t3 Index) Ol Ll) as (n1 & -> & E4 & O1 & L1 & C1).
  { rewrite write_page_type_flags by (rewrite (wf_len _ _ _ W3); pose proof PAGE_SIZE_bounds; lia).
    by apply (flags_write t3 8 _ (retyped (flags t3) Index) W3). }
  rewrite bind_Ret. pose proof (dress_inner t3 _ (BTreeNode.upper_swip (write_page_type t3 Index)) W3 Hfl Hwords) as P4.
  assert (P1 : inner_page (ExclusiveNode.page n1) (joined csl ul boundary csr) (BTreeNode.upper_swip (write_page_type t3 Index))).
  { rewrite E4. destruct (typed_bits t3 Index) as [Ht Hi]; [by eapply wf_len|]. constructor; [|congruence|done|done|done].
    rewrite write_page_type_flags by (rewrite (wf_len _ _ _ W3); pose proof PAGE_SIZE_bounds; lia). by apply flags_write. }
  destruct (inner_set_upper n1 _ _ ur (Build_inner_node _ _ _ _ P1 O1) Hur) as (n2 & -> & Hn2 & [L2 O2 R2]). rewrite bind_Ret.
  destruct (finish_replaced left n2 Ll) as (Hd & Hp & Ho).
  - eapply wf_len, Hn2.
  - done.
  - intros Hlog j Hj. destruct R2 as (_ & Hmono & _); [congruence|]. apply Hmono, C1; [congruence|done].
  - destruct (ExclusiveNode.finish_mutation n2) as [n3 d]. cbn [fst snd] in *. exists n3, d. split; [done|].
    split; [|by rewrite Hp]. constructor; [rewrite Hp; apply Hn2|done].
Qed.

End merge.

(** * B-tree: the parent of a merge

    The parent of two merged siblings loses the right one of the two
    children and one separator; merging into the left sibling and merging
    the right sibling in leave the parent in the same state. *)

#[local] Open Scope Z_scope.
Import SlottedHeader SlottedPage.

(** ** Sequences *)

Lemma fmap_delete_at {A B} (f : A → B) (l : list A) (i : nat) : f <$> delete i l = delete i (f <$> l).
Proof. by rewrite !delete_take_drop, fmap_app, fmap_take, fmap_drop. Qed.

Lemma delete_insert_next {A} (l : list A) (i : nat) x :
  delete (S i) (<[i := x]> l) = <[i := x]> (delete (S i) l).
Proof.
  revert l. induction i as [|i IH]; intros [|y l]; simpl; try done. f_equal. apply IH.
Qed.

Lemma delete_snoc_l {A} (l : list A) (i : nat) x : (i < length l)%nat → delete i (l ++ [x]) = delete i l ++ [x].
Proof.
  revert i. induction l as [|y l IH]; intros [|i] Hi; simpl in *; [lia|lia|done|]. f_equal. apply IH. lia.
Qed.

Lemma delete_snoc_last {A} (l : list A) x : delete (length l) (l ++ [x]) = l.
Proof. induction l as [|y l IH]; [done|]. simpl. by f_equal. Qed.

Lemma delete_last {A} (l : list A) (i : nat) : S i = length l → delete i l = take i l.
Proof. intros Hi. rewrite delete_take_drop, drop_ge, app_nil_r by lia. done. Qed.

Lemma insert_last {A} (l : list A) (i : nat) x : S i = length l → <[i := x]> l = take i l ++ [x].
Proof. intros Hi. rewrite insert_take_drop, drop_ge by lia. done. Qed.

(** ** What the parent becomes *)

(** The children with the right one of a pair at [pos] taken out; the edge of
    the pair's survivor is rewritten only when it becomes the rightmost one. *)
Definition pair_children (pos : nat) (wm : Z) (cs : list child) (u : Z) : list Z :=
  if decide (S pos = length cs) then <[pos := wm]> (delete (S pos) (children cs u))
  else delete (S pos) (children cs u).

Section unlink.
Context `{Build}.
Implicit Types (p : page) (es : list entry) (cs : list child) (nd : ExclusiveNode.t).

Lemma merged_max_spec p l r es : leaf_page p l r es → merged_max p = Ret (fst <$> last es).
Proof.
  intros P. pose proof (leaf_wf _ _ _ _ P) as W. unfold merged_max. rewrite (wf_num _ _ _ W).
  destruct (last es) as [e|] eqn:El.
  - rewrite last_lookup in El. pose proof (lookup_lt_Some _ _ _ El).
    replace (saturating_sub (zlen es) 1) with (Z.of_nat (pred (length es))) by (unfold saturating_sub, zlen; lia).
    by rewrite (try_get_key_wf W _ _ El).
  - apply last_None in El as ->. unfold try_get_key, try_slot_copy.
    rewrite (wf_num _ _ _ W). done.
Qed.

(** The rightmost pair: the survivor takes over the rightmost edge. *)
Lemma unlink_upper parent cs u (pos : nat) wm :
  inner_node parent cs u → S pos = length cs → word_ok wm →
  ∃ n1 parent', ExclusiveNode.set_child_edge_swip parent ParentEdge.Upper wm = Ret n1 ∧
    ExclusiveNode.remove_slot n1 (Z.of_nat pos) = Ret parent' ∧
    inner_node parent' (delete pos cs) wm ∧ notes parent parent' ∧
    children (delete pos cs) wm = pair_children pos wm cs u ∧ edge_at (delete pos cs) pos = ParentEdge.Upper.
Proof.
  intros Hn Hpos Hw. destruct (inner_set_upper parent cs u wm Hn Hw) as (n1 & E1 & Hn1 & N1).
  destruct (lookup_lt_is_Some_2 cs pos ltac:(lia)) as [c Hc].
  destruct (inner_remove n1 cs wm pos c Hn1 Hc) as (n2 & E2 & Hn2 & N2). exists n1, n2.
  split_and!; [done|done|done|by eapply notes_trans| |].
  - unfold pair_children. rewrite decide_True by done. unfold children.
    rewrite fmap_delete_at, (delete_last cs.*2) by (rewrite length_fmap; lia).
    rewrite (insert_last (delete _ _)); rewrite Hpos, <-(length_fmap snd cs), delete_snoc_last.
    + done.
    + rewrite length_fmap. lia.
  - unfold edge_at, ParentEdge.from_pos. rewrite (proj2 (Z.eqb_eq _ _)); [done|].
    unfold zlen. rewrite length_delete by (by eexists). lia.
Qed.

(** A pair left of the rightmost one: the separator of the survivor may be
    replaced, and the slot of the other goes. *)
Lemma unlink_slot parent cs u (pos : nat) k w wm (key : option (list byte)) :
  inner_node parent cs u → cs !! pos = Some (k, w) → (S pos < length cs)%nat →
  (∀ k', key = Some k' → sep_fits (delete pos cs) k') →
  ∃ n1 parent' cs',
    match key with
    | Some k' => ExclusiveNode.set_separator_key parent (Z.of_nat pos) k'
    | None => Ret parent
    end = Ret n1 ∧
    ExclusiveNode.remove_slot n1 (Z.of_nat (S pos)) = Ret parent' ∧
    inner_node parent' cs' u ∧ notes parent parent' ∧
    children cs' u = pair_children pos wm cs u ∧
    seps cs' = (let ks := delete (S pos) (seps cs) in if key is Some k' then <[pos := k']> ks else ks) ∧
    edge_at cs' pos = ParentEdge.Slot (Z.of_nat pos).
Proof.
  intros Hn Hc Hpos Hf.
  assert (∃ n1, match key with Some k' => ExclusiveNode.set_separator_key parent (Z.of_nat pos) k' | None => Ret parent end = Ret n1 ∧
    inner_node n1 (<[pos := (default k key, w)]> cs) u ∧ notes parent n1) as (n1 & E1 & Hn1 & N1).
  { destruct key as [k'|]; simpl.
    - apply (inner_set_key parent cs u pos k w k' Hn Hc). by apply Hf.
    - exists parent. rewrite list_insert_id by done. split_and!; [done|done|].
      constructor; [done|apply Hn|]. intros _. split_and!; [apply Hn|done|done]. }
  destruct (lookup_lt_is_Some_2 (<[pos := (default k key, w)]> cs) (S pos)) as [c2 Hc2]; [rewrite length_insert; lia|].
  destruct (inner_remove n1 _ u (S pos) c2 Hn1 Hc2) as (n2 & E2 & Hn2 & N2). exists n1, n2, (delete (S pos) (<[pos := (default k key, w)]> cs)).
  split_and!; [done|done|done|by eapply notes_trans|..].
  - unfold pair_children. rewrite decide_False by lia. unfold children.
    rewrite delete_snoc_l by (rewrite length_fmap; lia). f_equal. rewrite delete_insert_next, list_fmap_insert, fmap_delete_at.
    apply list_insert_id. cbn [snd]. rewrite list_lookup_delete_lt by lia. by rewrite list_lookup_fmap, Hc.
  - unfold seps. rewrite delete_insert_next, list_fmap_insert, fmap_delete_at. cbn [fst]. destruct key as [k'|]; simpl; [done|].
    apply list_insert_id. rewrite list_lookup_delete_lt by lia. by rewrite list_lookup_fmap, Hc.
  - unfold edge_at, ParentEdge.from_pos. rewrite (proj2 (Z.eqb_neq _ _)); [done|].
    unfold zlen. rewrite length_delete by (by eexists). rewrite length_insert. lia.
Qed.

(** The separators once a pair of leaves is one. *)
Definition leaf_pair_seps (pos : nat) (max : option (list byte)) (cs : list child) : list (list byte) :=
  if decide (S pos = length cs) then delete pos (seps cs)
  else let ks := delete (S pos) (seps cs) in if max is Some k then <[pos := k]> ks else ks.

(** The new separator, if one is written, fits. *)
Definition pair_room (pos : nat) (max : option (list byte)) (cs : list child) : Prop :=
  (S pos < length cs)%nat → ∀ k, max = Some k → sep_fits (delete pos cs) k.

Lemma unlink_right_leaf_spec parent cs u (pos : nat) merged l r es wm :
  inner_node parent cs u → (pos < length cs)%nat → leaf_page merged l r es → word_ok wm →
  pair_room pos (fst <$> last es) cs →
  ∃ parent' cs' u', unlink_merged_right_leaf parent merged wm (edge_at cs (S pos)) (Z.of_nat pos) =
      Ret (parent', edge_at cs' pos) ∧
    inner_node parent' cs' u' ∧ notes parent parent' ∧
    children cs' u' = pair_children pos wm cs u ∧ seps cs' = leaf_pair_seps pos (fst <$> last es) cs.
Proof.
  intros Hn Hpos Pm Hw Hroom. unfold unlink_merged_right_leaf. rewrite (merged_max_spec _ _ _ _ Pm), bind_Ret.
  destruct (inner_count _ _ _ (inner_node_page _ _ _ Hn)) as [_ Hb].
  unfold leaf_pair_seps. unfold edge_at at 1, ParentEdge.from_pos.
  destruct (Z.eqb_spec (Z.of_nat (S pos)) (zlen cs)) as [He|Hne].
  - assert (Hp : S pos = length cs) by (unfold zlen in He; lia).
    destruct (unlink_upper parent cs u pos wm Hn Hp Hw) as (n1 & n2 & -> & E2 & Hn2 & N2 & Hc & He2).
    rewrite bind_Ret, E2, bind_Ret, decide_True by done. eexists n2, _, wm. rewrite He2. split_and!; [done|done|done|done|].
    unfold seps. by rewrite fmap_delete_at.
  - assert (Hp : (S pos < length cs)%nat) by (unfold zlen in Hne; lia). rewrite decide_False by lia.
    destruct (lookup_lt_is_Some_2 cs pos Hpos) as [[k w] Hc].
    destruct (unlink_slot parent cs u pos k w wm (fst <$> last es) Hn Hc Hp) as (n1 & n2 & cs' & E1 & E2 & Hn2 & N2 & Hch & Hs & He2);
      [by apply Hroom|].
    rewrite E1, bind_Ret, uadd_in_range, bind_Ret by (unfold zlen in *; lia).
    replace (Z.of_nat pos + 1) with (Z.of_nat (S pos)) by lia. rewrite E2, bind_Ret. exists n2, cs', u. rewrite He2. done.
Qed.

(** The call for a merge into the left sibling does the same. *)
Lemma unlink_left_right parent merged wm cs (pos : nat) sep :
  zlen cs < 2 ^ 16 → (pos < length cs)%nat →
  unlink_merged_left_leaf parent merged wm (Z.of_nat pos)
    (if decide (S pos = length cs) then Z.of_nat pos else Z.of_nat (S pos))
    (if decide (S pos = length cs) then None else Some sep) =
  unlink_merged_right_leaf parent merged wm (edge_at cs (S pos)) (Z.of_nat pos).
Proof.
  intros Hb Hpos. unfold unlink_merged_left_leaf, unlink_merged_right_leaf, edge_at, ParentEdge.from_pos.
  destruct (merged_max merged) as [max|]; [|done]. rewrite !bind_Ret. case_decide as Hd.
  - rewrite (proj2 (Z.eqb_eq _ _)) by (unfold zlen; lia). done.
  - rewrite (proj2 (Z.eqb_neq _ _)) by (unfold zlen; lia). rewrite uadd_in_range by (unfold zlen in *; lia).
    replace (Z.of_nat pos + 1) with (Z.of_nat (S pos)) by lia. by destruct max.
Qed.

(** ** Inner nodes *)

Lemma unlink_inner_spec parent cs u (pos : nat) wm k2 :
  inner_node parent cs u → (pos < length cs)%nat → word_ok wm →
  (∀ k, seps cs !! S pos = Some k → k2 = Some k ∧ sep_fits (delete pos cs) k) →
  (seps cs !! S pos = None → k2 = None) →
  ∃ parent' cs' u',
    unlink_merged_left_inner parent wm (Z.of_nat pos)
      (if decide (S pos = length cs) then Z.of_nat pos else Z.of_nat (S pos)) k2 = Ret (parent', edge_at cs' pos) ∧
    inner_node parent' cs' u' ∧ notes parent parent' ∧
    children cs' u' = pair_children pos wm cs u ∧ seps cs' = delete pos (seps cs).
Proof.
  intros Hn Hpos Hw Hk Hk0. unfold unlink_merged_left_inner. destruct (decide (S pos = length cs)) as [Hp|Hp].
  - rewrite Hk0 by (apply lookup_ge_None; unfold seps; rewrite length_fmap; lia).
    destruct (unlink_upper parent cs u pos wm Hn Hp Hw) as (n1 & n2 & -> & E2 & Hn2 & N2 & Hc & He2).
    rewrite bind_Ret, E2, bind_Ret. eexists n2, _, wm. rewrite He2. split_and!; [done|done|done|done|].
    unfold seps. by rewrite fmap_delete_at.
  - destruct (lookup_lt_is_Some_2 cs pos Hpos) as [[k w] Hc].
    destruct (lookup_lt_is_Some_2 (seps cs) (S pos)) as [k' Hk']; [unfold seps; rewrite length_fmap; lia|].
    destruct (Hk k' Hk') as [-> Hf].
    destruct (unlink_slot parent cs u pos k w wm (Some k') Hn Hc) as (n1 & n2 & cs' & E1 & E2 & Hn2 & N2 & Hch & Hs & He2);
      [lia|by intros ? [= <-]|].
    rewrite E1, bind_Ret, E2, bind_Ret. exists n2, cs', u. rewrite He2. split_and!; [done|done|done|done|].
    rewrite Hs. cbn zeta. clear -Hk'. revert pos Hk'. generalize (seps cs) as ks.
    induction ks as [|x ks IH]; intros [|pos] Hl; simpl in *; try done.
    + destruct ks as [|y ks]; simpl in *; [done|]. by simplify_eq.
    + f_equal. by apply IH.
Qed.

Lemma unlink_right_inner_eq parent wm (pos : nat) :
  unlink_merged_right_inner parent wm ParentEdge.Upper (Z.of_nat pos) =
  unlink_merged_left_inner parent wm (Z.of_nat pos) (Z.of_nat pos) None.
Proof. done. Qed.

End unlink.
