(* ===== verification/BTreeNodeSpec.v ===== *)
(** * B-tree nodes: the theorems

    What the page-level steps of the tree do to the sequences of entries and
    of children their pages hold: insertion and upsert in a leaf, splits of
    leaves and inner nodes and their publication in the parent, merges and
    their removal from the parent, separator repair, routing, and the form a
    page takes when it is written. *)

From S2P Require Import Prelude Bytes FrameKernel SwipKernel PageHeader PageMutation Slotted SlottedInv SlottedOps SlottedSearch SlottedMutation SlottedSpec BufferFrame BTreeNode BTreeNodeInv BTreePages BTreeMerge BTreeSplitSpec BTreeInnerSpec BTreeRoute BTreeMergeSpec.
#[local] Open Scope Z_scope.
Import SlottedHeader SlottedPage.

(** ** Pages with given contents *)

(** Appends the entries to a page, in order. *)
Fixpoint fill_page `{Build} (p : page) (es : list entry) : outcome page :=
  match es with
  | [] => Ret p
  | e :: es => p ← insert p (num_slots p) e.1 e.2; fill_page p es
  end.

Definition leaf_of `{Build} (l r : Z) (es : list entry) : page :=
  match (p ← BTreeNode.init (fill PAGE_SIZE x00) true; fill_page p es) with
  | Ret p => BTreeNode.set_leaf_right_pid (BTreeNode.set_leaf_left_pid p l) r
  | Panic => []
  end.

Definition inner_of `{Build} (cs : list child) (u : Z) : page :=
  match (p ← BTreeNode.init (fill PAGE_SIZE x00) false; fill_page p (inner_entries cs)) with
  | Ret p => BTreeNode.set_upper p u
  | Panic => []
  end.

Section samples.
Context `{Build}.
Implicit Types (es : list entry) (cs : list child).

Lemma fill_page_spec R es2 : ∀ es1 p,
  wf p R es1 → page_fits R (es1 ++ es2) →
  ∃ p', fill_page p es2 = Ret p' ∧ wf p' R (es1 ++ es2) ∧ frame_kept R p p' ∧ flags_kept p p'.
Proof.
  induction es2 as [|e es2 IH]; intros es1 p W Hf.
  - exists p. rewrite app_nil_r. split_and!; [done|done|done|done].
  - destruct (append_one R es1 e p W) as (p1 & E1 & W1 & F1 & K1); [by eapply append_room|].
    cbn [fill_page]. rewrite E1, bind_Ret. rewrite cons_middle, app_assoc in Hf |- *.
    destruct (IH _ _ W1 Hf) as (p2 & E2 & W2 & F2 & K2). exists p2.
    split_and!; [done|done|by eapply frame_kept_trans|]. intros i Hi. by rewrite K2, K1.
Qed.

Lemma leaf_of_spec l r es : page_fits 16 es → word_ok l → word_ok r → leaf_page (leaf_of l r es) l r es.
Proof.
  intros Hf Hl Hr. unfold leaf_of. destruct (init_leaf (fill PAGE_SIZE x00)) as (p & -> & P). rewrite bind_Ret.
  destruct (fill_page_spec 16 es [] p (leaf_wf _ _ _ _ P) Hf) as (q & -> & W & F & K).
  eapply leaf_links_set; [|done|done]. by eapply leaf_kept.
Qed.

Lemma inner_of_spec cs u :
  page_fits 8 (inner_entries cs) → Forall (λ c, word_ok c.2) cs → word_ok u → inner_page (inner_of cs u) cs u.
Proof.
  intros Hf Hc Hu. unfold inner_of. destruct (init_inner (fill PAGE_SIZE x00)) as (p & -> & P). rewrite bind_Ret.
  destruct (fill_page_spec 8 (inner_entries cs) [] p (inner_wf _ _ _ P) Hf) as (q & -> & W & F & K).
  eapply inner_page_set_upper; [|done]. by eapply inner_kept.
Qed.

Lemma new_leaf_node logs p l r es : leaf_page p l r es → leaf_node (ExclusiveNode.new logs p) l r es.
Proof. intros P. constructor; [done|]. apply PageMutation.new_ok. Qed.

Lemma new_inner_node logs p cs u : inner_page p cs u → inner_node (ExclusiveNode.new logs p) cs u.
Proof. intros P. constructor; [done|]. apply PageMutation.new_ok. Qed.
End samples.

(** Entries of the examples: two small ones, and large ones that leave a
    4 KiB page with little room. *)
Definition small_entries : list entry := [([x61], [x01]); ([x62], [x02])].
Definition large_entries : list entry := [([x61], fill 600 x01); ([x63], fill 2500 x03)].

Lemma small_entries_sorted : keys_sorted small_entries.
Proof. repeat constructor. Qed.
Lemma large_entries_sorted : keys_sorted large_entries.
Proof. repeat constructor. Qed.

Definition small_leaf : page := leaf_of (H := debug_4k) 3 5 small_entries.
Definition large_leaf : page := leaf_of (H := debug_4k) 3 5 large_entries.

Lemma small_leaf_page : leaf_page (H := debug_4k) small_leaf 3 5 small_entries.
Proof. apply leaf_of_spec; [|done..]. vm_compute. congruence. Qed.
Lemma large_leaf_page : leaf_page (H := debug_4k) large_leaf 3 5 large_entries.
Proof. apply leaf_of_spec; [|done..]. vm_compute. congruence. Qed.

(** ** Writing to a leaf *)

Section leaf_writes.
Context `{Build}.
Implicit Types (nd : ExclusiveNode.t) (es : list entry).

Lemma leaf_untouched nd l r es :
  leaf_node nd l r es → keys_sorted es → leaf_done nd l r (contents es) nd ExclusiveNode.Unchanged.
Proof. intros Hn Hs. constructor; [by exists es|done]. Qed.

(** Room for a value of a key that is there, or for a new entry. *)
Definition room_for es k v : Prop :=
  match contents es !! k with
  | Some w => zlen v ≤ PAGE_SIZE - (24 + 12 * zlen es + 16 + heap_total es) + zlen w
  | None => fits 16 es k v
  end.
End leaf_writes.

(** C25: the write steps of a leaf refine the update of a finite map.
    [try_insert_leaf] adds an absent key that fits, refuses a present key,
    and asks for a split exactly when an absent key does not fit;
    [try_upsert_leaf] binds the key whenever the new value fits in place of
    the old one, and asks for a split exactly when it does not. Neither
    panics, the links and the key order are kept, a refusal changes nothing,
    and every changed byte is in what the pool is told to log. *)
Theorem leaf_writes_refine `{Build} nd l r es k v :
  leaf_node nd l r es → clean nd → keys_sorted es →
  (∃ nd' d a, try_insert_leaf nd k v = Ret (nd', d, a) ∧
    (a = ReturnFalse ↔ is_Some (contents es !! k)) ∧
    (a = Inserted ↔ contents es !! k = None ∧ fits 16 es k v) ∧
    leaf_done nd l r (if a is Inserted then <[k := v]> (contents es) else contents es) nd' d) ∧
  (∃ nd' d a, try_upsert_leaf nd k v = Ret (nd', d, a) ∧
    (a = UpsertSplitRequired ↔ ¬ room_for es k v) ∧
    (a = UpdatedExisting → is_Some (contents es !! k)) ∧
    (a = UpsertInserted → contents es !! k = None) ∧
    leaf_done nd l r (if a is UpsertSplitRequired then contents es else <[k := v]> (contents es)) nd' d).
Proof.
  intros Hn Hc Hs. pose proof (leaf_untouched _ _ _ _ Hn Hs) as Hsame. split.
  - destruct (try_insert_leaf_spec nd l r es k v Hn Hc Hs) as (H1 & H2 & H3).
    destruct (contents es !! k) as [w|] eqn:Ek.
    + exists nd, ExclusiveNode.Unchanged, ReturnFalse. naive_solver.
    + destruct (decide (fits 16 es k v)) as [Hf|Hf].
      * destruct (H3 eq_refl Hf) as (nd' & d & E & D). exists nd', d, Inserted. split_and!; naive_solver.
      * exists nd, ExclusiveNode.Unchanged, SplitRequired. split_and!; naive_solver.
  - pose proof (try_upsert_leaf_spec nd l r es k v Hn Hc Hs) as Hu. unfold room_for.
    pose proof (wf_page_fits _ _ _ (leaf_wf _ _ _ _ (leaf_node_page _ _ _ _ Hn))) as Hfit. unfold page_fits in Hfit.
    destruct (contents es !! k) as [w|] eqn:Ek; destruct Hu as [Hfull Hok].
    + destruct (Z_le_gt_dec (zlen v) (PAGE_SIZE - (24 + 12 * zlen es + 16 + heap_total es) + zlen w)) as [Hr|Hr].
      * destruct Hok as (nd' & d & E & D); [by left|]. exists nd', d, UpdatedExisting. split_and!; naive_solver.
      * exists nd, ExclusiveNode.Unchanged, UpsertSplitRequired.
        split_and!; [apply Hfull; lia|split; [lia|done]|done|done|done].
    + destruct (decide (fits 16 es k v)) as [Hf|Hf].
      * destruct (Hok Hf) as (nd' & d & E & D). exists nd', d, UpsertInserted. split_and!; naive_solver.
      * exists nd, ExclusiveNode.Unchanged, UpsertSplitRequired. split_and!; naive_solver.
Qed.

Lemma leaf_writes_refine_witness :
  (∃ nd' d, try_insert_leaf (H := debug_4k) (ExclusiveNode.new true small_leaf) [x63] [x09] = Ret (nd', d, Inserted) ∧
    leaf_done (H := debug_4k) (ExclusiveNode.new true small_leaf) 3 5
      (<[[x63] := [x09]]> (contents small_entries)) nd' d) ∧
  (∃ nd' d, try_upsert_leaf (H := debug_4k) (ExclusiveNode.new true large_leaf) [x61] (fill 1600 x09) =
    Ret (nd', d, UpsertSplitRequired)).
Proof.
  destruct (@leaf_writes_refine debug_4k (ExclusiveNode.new true small_leaf) 3 5 small_entries [x63] [x09])
    as [(nd' & d & a & E & _ & Hi & D) _];
    [apply new_leaf_node, small_leaf_page|done|exact small_entries_sorted|].
  destruct (@leaf_writes_refine debug_4k (ExclusiveNode.new true large_leaf) 3 5 large_entries [x61] (fill 1600 x09))
    as [_ (nd2 & d2 & a2 & E2 & Hu & _)];
    [apply new_leaf_node, large_leaf_page|done|exact large_entries_sorted|].
  assert (a = Inserted) as -> by (apply Hi; split; [by vm_compute|vm_compute; congruence]).
  assert (a2 = UpsertSplitRequired) as -> by (apply Hu; vm_compute; congruence).
  split; [exists nd', d; exact (conj E D)|exists nd2, d2; exact E2].
Defined.

(** Looking at the last key of a leaf first, as insertion does, gives
    the position and the match that the binary search gives. *)
Theorem leaf_search_equivalent `{Build} p R es key :
  wf p R es → keys_sorted es → leaf_insert_bound p key = lower_bound p key.
Proof. apply leaf_insert_bound_eq. Qed.

Lemma leaf_search_equivalent_witness :
  leaf_insert_bound (H := debug_4k) small_leaf [x61; x62] = lower_bound (H := debug_4k) small_leaf [x61; x62].
Proof.
  apply (@leaf_search_equivalent debug_4k small_leaf 16 small_entries);
    [apply small_leaf_page|exact small_entries_sorted].
Defined.

(** ** Splitting a leaf *)

(** The split of a leaf with at least three entries loses nothing. The
    plan names a key of the leaf; the entries up to it stay left, the others
    go right, neither half is empty, every key of the left half is at most
    the separator and every key of the right half above it, and the sibling
    is linked in between the leaf and its old right neighbour. The split of a
    root leaf leaves the same halves on two new pages. *)
Theorem leaf_split_partitions `{Build} node l r es sibling left0 right0 node_pid sibling_pid pending :
  leaf_page node l r es → keys_sorted es → (3 ≤ length es)%nat → word_ok node_pid → word_ok sibling_pid →
  ∃ (i : nat) e,
    split_plan node pending = Ret (SplitAt (Z.of_nat i) e.1 None) ∧ es !! i = Some e ∧
    let esl := take (S i) es in let esr := drop (S i) es in
    esl ≠ [] ∧ esr ≠ [] ∧ separates e.1 esl esr ∧
    (∃ left right, split_leaf node sibling node_pid sibling_pid (Z.of_nat i) e.1 None = Ret (left, right, r) ∧
      leaf_page left l sibling_pid esl ∧ leaf_page right node_pid r esr) ∧
    (∃ left right, split_root_leaf node left0 right0 node_pid sibling_pid (Z.of_nat i) e.1 None = Ret (left, right, r) ∧
      leaf_page left l sibling_pid esl ∧ leaf_page right node_pid r esr).
Proof.
  intros P Hs Hlen Hn Hb.
  destruct (split_plan_middle node 16 es pending (leaf_wf _ _ _ _ P)) as (i & e & He & Hi & Epl); [lia|lia|].
  assert (S i < length es)%nat by (pose proof (Nat.div_mod_eq (length es) 2); pose proof (Nat.mod_upper_bound (length es) 2); lia).
  exists i, e. cbn zeta. split_and!; [done|done|..].
  - intros E. apply (f_equal length) in E. rewrite length_take in E. cbn [length] in E. lia.
  - intros E. apply (f_equal length) in E. rewrite length_drop in E. cbn [length] in E. lia.
  - by apply separates_at.
  - destruct (split_leaf_halves node sibling l r es P node_pid sibling_pid Hn Hb i e.1 None)
      as (left & right & Pl & Pr & ->); [lia|]. exists left, right. done.
  - destruct (split_root_leaf_halves node l r es P node_pid sibling_pid Hn Hb left0 right0 i e.1 None)
      as (left & right & Pl & Pr & ->); [lia|]. exists left, right. done.
Qed.

Definition three_entries : list entry := [([x61], [x01]); ([x62], [x02]); ([x63], [x03])].
Definition three_leaf : page := leaf_of (H := debug_4k) 3 5 three_entries.
Lemma three_leaf_page : leaf_page (H := debug_4k) three_leaf 3 5 three_entries.
Proof. apply leaf_of_spec; [|done..]. vm_compute. congruence. Qed.
Lemma three_entries_sorted : keys_sorted three_entries.
Proof. repeat constructor. Qed.
Lemma three_leaf_plan : split_plan (H := debug_4k) three_leaf None = Ret (SplitAt 1 [x62] None).
Proof. vm_compute. reflexivity. Qed.

Lemma leaf_split_partitions_witness :
  ∃ left right, split_leaf (H := debug_4k) three_leaf [] 7 8 1 [x62] None = Ret (left, right, 5) ∧
    leaf_page (H := debug_4k) left 3 8 [([x61], [x01]); ([x62], [x02])] ∧
    leaf_page (H := debug_4k) right 7 5 [([x63], [x03])].
Proof.
  destruct (@leaf_split_partitions debug_4k three_leaf 3 5 three_entries [] [] [] 7 8 None)
    as (i & e & Epl & He & _ & _ & _ & (left & right & E & L & R) & _);
    [exact three_leaf_page|exact three_entries_sorted|simpl; lia|by vm_compute|by vm_compute|].
  rewrite three_leaf_plan in Epl. assert (i = 1%nat ∧ e.1 = [x62]) as [-> He1] by (split; [|congruence]; assert (Z.of_nat i = 1) by congruence; lia).
  rewrite He1 in E. exists left, right. exact (conj E (conj L R)).
Defined.

(** What a split with a pending entry leaves. *)
Definition split_small_leaf `{Build} (node sibling : page) (node_pid sibling_pid : Z) (e : PendingLeafEntry.t)
    (plan : SplitPlan) : outcome (page * page * Z) :=
  match plan with
  | SplitSingle _ mv => split_single_leaf node sibling node_pid sibling_pid mv e
  | SplitAt pos sep pending => split_leaf node sibling node_pid sibling_pid pos sep pending
  | NoSplit => Panic
  end.

Definition plan_sep (plan : SplitPlan) : list byte :=
  match plan with
  | SplitSingle sep _ | SplitAt _ sep _ => sep
  | NoSplit => []
  end.

(** The half that gets the pending entry has room for it. *)
Definition pending_room `{Build} (plan : SplitPlan) (es : list entry) (e : PendingLeafEntry.t) : Prop :=
  match plan with
  | SplitAt pos sep _ =>
      fits 16 (pending_side sep (take (S (Z.to_nat pos)) es) (drop (S (Z.to_nat pos)) es) e)
        (PendingLeafEntry.key e) (PendingLeafEntry.value e)
  | _ => page_fits 16 [(PendingLeafEntry.key e, PendingLeafEntry.value e)]
  end.

(** The same for a root leaf, whose halves go to two new pages. *)
Definition split_small_root `{Build} (root left right : page) (left_pid right_pid : Z) (e : PendingLeafEntry.t)
    (plan : SplitPlan) : outcome (page * page * Z) :=
  match plan with
  | SplitSingle _ mv => split_single_root root left right left_pid right_pid mv e
  | SplitAt pos sep pending => split_root_leaf root left right left_pid right_pid pos sep pending
  | NoSplit => Panic
  end.

Section small_split.
Context `{Build} (l r m1 m2 : Z) (e : PendingLeafEntry.t).
Let k := PendingLeafEntry.key e.
Let v := PendingLeafEntry.value e.

Lemma single_installed left right (e0 : entry) (mv : bool) :
  leaf_page left l m1 [if mv then (k, v) else e0] → leaf_page right m2 r [if mv then e0 else (k, v)] →
  mv = key_ltb k e0.1 → contents [e0] !! k = None →
  installed left right l m1 m2 r (if mv then k else e0.1) [e0] e.
Proof.
  intros Pl Pr -> Habs. apply contents_None in Habs. cbn in Habs. rewrite list_elem_of_singleton in Habs.
  assert (Hc : ∀ es', keys_sorted es' → es' ≡ₚ [(k, v); e0] → contents es' = <[k := v]> (contents [e0]))
    by (intros; by apply contents_perm_insert).
  destruct (key_ltb k e0.1) eqn:Hlt.
  - apply key_ltb_spec in Hlt. exists [(k, v)], [e0]. split_and!; [done|done|repeat constructor; done| |].
    + split; intros x ->%list_elem_of_singleton; [|done]. apply key_lt_irrefl.
    + apply Hc; [repeat constructor; done|done].
  - apply key_ltb_false, key_le_not_lt in Hlt as [?|Hlt]; [done|].
    exists [e0], [(k, v)]. split_and!; [done|done|repeat constructor; done| |].
    + split; intros x ->%list_elem_of_singleton; [|done]. apply key_lt_irrefl.
    + apply Hc; [repeat constructor; done|]. apply Permutation_swap.
Qed.

(** The outcome of a split whose halves are known up to the pending entry. *)
Lemma two_installed left right es (i : nat) e0 (x : outcome (page * page * Z)) :
  keys_sorted es → es !! i = Some e0 →
  leaf_page left l m1 (take (S i) es) → leaf_page right m2 r (drop (S i) es) →
  x = (x ← install_pending left right e0.1 (Some e); Ret (x, r)) →
  let room := fits 16 (pending_side e0.1 (take (S i) es) (drop (S i) es) e) k v in
  (contents es !! k = None → room → ∃ left' right', x = Ret (left', right', r) ∧
    installed left' right' l m1 m2 r e0.1 es e) ∧
  (is_Some (contents es !! k) ∨ ¬ room → x = Panic).
Proof.
  intros Hs He Pl Pr ->. pose proof (take_drop (S i) es) as Etd.
  destruct (install_pending_spec left right l m1 m2 r e0.1 (take (S i) es) (drop (S i) es) e Pl Pr) as [Hok Hbad];
    [by rewrite Etd|by apply separates_at|]. rewrite Etd in Hok, Hbad. split.
  - intros Habs Hroom. destruct (Hok Habs Hroom) as (left' & right' & -> & Hi). by exists left', right'.
  - intros Hb. by rewrite (Hbad Hb).
Qed.
End small_split.

(** C24: the split of a leaf of one or two entries, made to take a pending
    entry. The separator is chosen by the pending key, so that an absent key
    that fits in its half ends up there: the two leaves hold the old entries
    and the new one, in order, divided by the separator. In a leaf of two
    entries that is the only way out: a pending key that is present, as when
    an upsert grows its value, or that does not fit in the half it belongs
    to, panics. Splits of a root leaf do the same. *)
Theorem small_leaf_split `{Build} node sibling left0 right0 l r es node_pid sibling_pid e :
  leaf_page node l r es → keys_sorted es → length es = 1%nat ∨ length es = 2%nat →
  word_ok node_pid → word_ok sibling_pid →
  ∃ plan, split_plan node (Some e) = Ret plan ∧
    ∀ run, run = split_small_leaf node sibling node_pid sibling_pid e plan ∨
           run = split_small_root node left0 right0 node_pid sibling_pid e plan →
      (contents es !! PendingLeafEntry.key e = None → pending_room plan es e →
        ∃ left right, run = Ret (left, right, r) ∧
          installed left right l sibling_pid node_pid r (plan_sep plan) es e) ∧
      (length es = 2%nat → is_Some (contents es !! PendingLeafEntry.key e) ∨ ¬ pending_room plan es e → run = Panic).
Proof.
  intros P Hs Hlen Hn Hb. pose proof (leaf_wf _ _ _ _ P) as W. pose proof (leaf_flag _ _ _ _ P) as Hleaf.
  destruct es as [|e0 [|e1 [|]]]; try (simpl in Hlen; lia).
  - pose proof (split_plan_one node 16 e0 e W Hleaf) as Epl.
    set (mv := key_ltb (PendingLeafEntry.key e) e0.1) in *.
    exists (if mv then SplitSingle (PendingLeafEntry.key e) true else SplitSingle e0.1 false). split; [done|].
    intros run Hrun. split; [|simpl; lia]. intros Habs Hroom.
    assert (Hroom' : page_fits 16 [(PendingLeafEntry.key e, PendingLeafEntry.value e)]) by (by destruct mv).
    assert (∃ left right, run = Ret (left, right, r) ∧
      leaf_page left l sibling_pid [if mv then (PendingLeafEntry.key e, PendingLeafEntry.value e) else e0] ∧
      leaf_page right node_pid r [if mv then e0 else (PendingLeafEntry.key e, PendingLeafEntry.value e)])
      as (left & right & -> & Pl & Pr).
    { destruct Hrun as [-> | ->].
      - destruct (split_single_leaf_spec node sibling l r e0 node_pid sibling_pid mv e P Hn Hb Hroom') as (? & ? & ? & ? & ?).
        destruct mv; eauto.
      - destruct (split_single_root_spec node left0 right0 l r e0 node_pid sibling_pid mv e P Hn Hb Hroom') as (? & ? & ? & ? & ?).
        destruct mv; eauto. }
    exists left, right. split; [done|].
    replace (plan_sep _) with (if mv then PendingLeafEntry.key e else e0.1) by (by destruct mv).
    by apply single_installed.
  - pose proof (split_plan_two node 16 e0 e1 e W Hleaf) as Epl. cbn zeta in Epl.
    set (up := key_leb e1.1 (PendingLeafEntry.key e)) in *. set (i := if up then 1%nat else 0%nat) in *.
    set (es := [e0; e1]) in *. set (em := if up then e1 else e0).
    assert (Hem : es !! i = Some em) by (by destruct up).
    replace (if up then e1.1 else e0.1) with em.1 in Epl by (by destruct up).
    eexists. split; [exact Epl|]. intros run Hrun.
    assert (∃ left right, leaf_page left l sibling_pid (take (S i) es) ∧ leaf_page right node_pid r (drop (S i) es) ∧
      run = (x ← install_pending left right em.1 (Some e); Ret (x, r))) as (left & right & Pl & Pr & Er).
    { assert (S i ≤ length es)%nat by (subst i; destruct up; simpl; lia). destruct Hrun as [-> | ->].
      - by apply split_leaf_halves.
      - by apply split_root_leaf_halves. }
    destruct (two_installed l r sibling_pid node_pid e left right es i em run Hs Hem Pl Pr Er) as [Hok Hbad].
    cbn [pending_room plan_sep]. rewrite Nat2Z.id. split; [exact Hok|intros _; exact Hbad].
Qed.

Definition pending_small : PendingLeafEntry.t :=
  {| PendingLeafEntry.key := [x61; x61]; PendingLeafEntry.value := [x09] |}.
Definition pending_large : PendingLeafEntry.t :=
  {| PendingLeafEntry.key := [x62]; PendingLeafEntry.value := fill 1800 x09 |}.

Lemma small_leaf_plan :
  split_plan (H := debug_4k) small_leaf (Some pending_small) = Ret (SplitAt 0 [x61] (Some pending_small)).
Proof. vm_compute. reflexivity. Qed.
Lemma large_leaf_plan :
  split_plan (H := debug_4k) large_leaf (Some pending_large) = Ret (SplitAt 0 [x61] (Some pending_large)).
Proof. vm_compute. reflexivity. Qed.

Lemma word_ok_7 : word_ok 7.
Proof. done. Qed.
Lemma word_ok_8 : word_ok 8.
Proof. done. Qed.

(** In the second case the three entries fit in two leaves, but not with the
    separator the split chooses. *)
Lemma small_leaf_split_witness :
  (∃ left right, split_leaf (H := debug_4k) small_leaf [] 7 8 0 [x61] (Some pending_small) = Ret (left, right, 5) ∧
    installed (H := debug_4k) left right 3 8 7 5 [x61] small_entries pending_small) ∧
  split_leaf (H := debug_4k) large_leaf [] 7 8 0 [x61] (Some pending_large) = Panic ∧
  page_fits (H := debug_4k) 16 [([x61], fill 600 x01); ([x62], fill 1800 x09)].
Proof.
  destruct (@small_leaf_split debug_4k small_leaf [] [] [] 3 5 small_entries 7 8 pending_small)
    as (plan & Epl & Hrun); [exact small_leaf_page|exact small_entries_sorted|right; reflexivity|by vm_compute|by vm_compute|].
  pose proof (@small_leaf_split debug_4k large_leaf [] [] [] 3 5 large_entries 7 8 pending_large large_leaf_page
    large_entries_sorted (or_intror eq_refl) word_ok_7 word_ok_8) as (plan2 & Epl2 & Hrun2).
  rewrite small_leaf_plan in Epl. rewrite large_leaf_plan in Epl2. injection Epl as <-. injection Epl2 as <-.
  destruct (Hrun _ (or_introl eq_refl)) as [Hok _]. destruct (Hrun2 _ (or_introl eq_refl)) as [_ Hbad].
  split_and!; [apply Hok; [by vm_compute|vm_compute; congruence]| |vm_compute; congruence].
  apply Hbad; [reflexivity|]. right. vm_compute. intros Hle. apply Hle. reflexivity.
Defined.

(** ** Splitting an inner node *)

(** C34: the split of an inner node and its publication in the parent. The
    middle separator leaves the node and goes up; the two halves hold the
    node's children in order, with the other separators between them; the
    parent has the two halves in the place of the node, divided by the
    separator, and reports the edges they hang on. [can_insert_separator],
    which callers ask first, says whether the parent has the room. *)
Theorem inner_split_publishes `{Build} node sibling cs u parent pcs pu (pos : nat) wl wr :
  inner_page node cs u → (2 ≤ length cs)%nat →
  inner_node parent pcs pu → (pos ≤ length pcs)%nat → word_ok wl → word_ok wr →
  ∃ (i : nat) k w left right,
    split_plan node None = Ret (SplitAt (Z.of_nat i) k None) ∧ cs !! i = Some (k, w) ∧
    split_inner node sibling (Z.of_nat i) = Ret (left, right) ∧
    (∃ csl csr, inner_page left csl w ∧ inner_page right csr u ∧
      children csl w ++ children csr u = children cs u ∧ seps csl ++ k :: seps csr = seps cs) ∧
    (sep_fits pcs k → ∃ parent' pcs' pu',
      apply_split_to_latched_parent parent k wl wr (edge_at pcs pos) =
        Ret (parent', {| SplitParentEdges.left := edge_at pcs' pos; SplitParentEdges.right := edge_at pcs' (S pos) |}) ∧
      inner_node parent' pcs' pu' ∧ notes parent parent' ∧
      children pcs' pu' = split_at pos wl wr (children pcs pu) ∧ seps pcs' = insert_at pos k (seps pcs)) ∧
    (ExclusiveNode.can_insert_separator parent (zlen k) = true ↔ sep_fits pcs k).
Proof.
  intros P Hlen Hp Hpos Hl Hr. pose proof (inner_wf _ _ _ P) as W.
  destruct (split_plan_middle node 8 (inner_entries cs) None W) as (i & e & He & Hi & Epl);
    [unfold inner_entries; rewrite length_fmap; done|done|].
  unfold inner_entries in He. rewrite list_lookup_fmap in He. apply fmap_Some in He as ([k w] & Hc & ->).
  destruct (split_inner_spec node sibling cs u i k w P Hc) as (left & right & Es & Pl & Pr).
  exists i, k, w, left, right. split_and!; [done|done|done|..].
  - exists (take i cs), (drop (S i) cs). pose proof (split_children cs u i k w Hc) as [? ?]. done.
  - intros Hf. destruct (apply_split_spec parent pcs pu pos k wl wr Hp Hpos Hf Hl Hr)
      as (parent' & pcs' & pu' & E & Hp' & N & Hch & Hs). exists parent', pcs', pu'. split; [|done].
    assert (Hlen' : length pcs' = S (length pcs)).
    { apply (f_equal length) in Hs. unfold seps in Hs. rewrite (Permutation_length (insert_at_perm _ _ _)) in Hs.
      cbn [length] in Hs. by rewrite !length_fmap in Hs. }
    unfold edge_at. rewrite E. unfold ParentEdge.from_pos, zlen. rewrite Hlen'.
    replace (Z.of_nat (S (length pcs))) with (Z.of_nat (length pcs) + 1) by lia.
    by rewrite (proj2 (Z.eqb_neq (Z.of_nat pos) _)) by lia.
  - by eapply can_insert_separator_spec.
Qed.

Definition sample_children : list child := [([x62], 2 ^ 63 + 11); ([x64], 2 ^ 63 + 12); ([x66], 2 ^ 63 + 13)].
Definition sample_inner : page := inner_of (H := debug_4k) sample_children (2 ^ 63 + 14).
Definition sample_parent : page := inner_of (H := debug_4k) [([x70], 2 ^ 63 + 20)] (2 ^ 63 + 21).

Lemma sample_inner_page : inner_page (H := debug_4k) sample_inner sample_children (2 ^ 63 + 14).
Proof. apply inner_of_spec; [vm_compute; congruence|repeat constructor; vm_compute; congruence|done]. Qed.
Lemma sample_parent_page : inner_page (H := debug_4k) sample_parent [([x70], 2 ^ 63 + 20)] (2 ^ 63 + 21).
Proof. apply inner_of_spec; [vm_compute; congruence|repeat constructor; vm_compute; congruence|done]. Qed.
Lemma sample_inner_plan : split_plan (H := debug_4k) sample_inner None = Ret (SplitAt 1 [x64] None).
Proof. vm_compute. reflexivity. Qed.

Lemma inner_split_publishes_witness :
  ∃ left right parent' pcs' pu',
    split_inner (H := debug_4k) sample_inner [] 1 = Ret (left, right) ∧
    apply_split_to_latched_parent (H := debug_4k) (ExclusiveNode.new true sample_parent) [x64] (2 ^ 63 + 20) (2 ^ 63 + 22)
      (ParentEdge.Slot 0) = Ret (parent', {| SplitParentEdges.left := edge_at pcs' 0; SplitParentEdges.right := edge_at pcs' 1 |}) ∧
    inner_node (H := debug_4k) parent' pcs' pu' ∧
    children pcs' pu' = [2 ^ 63 + 20; 2 ^ 63 + 22; 2 ^ 63 + 21] ∧ seps pcs' = [[x64]; [x70]].
Proof.
  destruct (@inner_split_publishes debug_4k sample_inner [] sample_children (2 ^ 63 + 14)
    (ExclusiveNode.new true sample_parent) [([x70], 2 ^ 63 + 20)] (2 ^ 63 + 21) 0 (2 ^ 63 + 20) (2 ^ 63 + 22) sample_inner_page)
    as (i & k & w & left & right & Epl & Hc & Es & _ & Hpub & _);
    [simpl; lia|exact (new_inner_node true _ _ _ sample_parent_page)|lia|done|done|].
  rewrite sample_inner_plan in Epl. assert (i = 1%nat ∧ k = [x64]) as [-> ->]
    by (split; [assert (Z.of_nat i = 1) by congruence; lia|congruence]).
  destruct Hpub as (parent' & pcs' & pu' & E & Hn & _ & Hch & Hs); [vm_compute; congruence|].
  exists left, right, parent', pcs', pu'. exact (conj Es (conj E (conj Hn (conj Hch Hs)))).
Defined.

(** ** Merging leaves *)

(** C23: merging a leaf into its left neighbour. [leaf_pair_fits] says
    exactly whether the entries of both fit in one page. If they do, the
    merge leaves their concatenation on the left page, linked to the right
    page's right neighbour, and the parent loses the right child and one
    separator, the largest merged key taking the place of the other; if they
    do not, the merge changes nothing. Merging to the right does the same to
    the parent as merging to the left. *)
Theorem leaf_merge_concatenates `{Build} left right l r l2 r2 esl esr parent cs u (pos : nat) wm sep :
  leaf_node left l r esl → leaf_page right l2 r2 esr →
  inner_node parent cs u → (pos < length cs)%nat → word_ok wm →
  pair_room pos (fst <$> last (esl ++ esr)) cs →
  let fit := page_fits 16 (esl ++ esr) in
  leaf_pair_fits (ExclusiveNode.page left) right = Ret (bool_decide fit) ∧
  (¬ fit → merge_leaf_pages_into_left left right = Ret (left, ExclusiveNode.Unchanged, false)) ∧
  (fit → ∃ left' d parent' cs' u',
    merge_leaf_pages_into_left left right = Ret (left', d, true) ∧
    leaf_node left' l r2 (esl ++ esr) ∧ dirty_covers d (ExclusiveNode.page left) (ExclusiveNode.page left') ∧
    unlink_merged_right_leaf parent (ExclusiveNode.page left') wm (edge_at cs (S pos)) (Z.of_nat pos) =
      Ret (parent', edge_at cs' pos) ∧
    unlink_merged_left_leaf parent (ExclusiveNode.page left') wm (Z.of_nat pos)
      (if decide (S pos = length cs) then Z.of_nat pos else Z.of_nat (S pos))
      (if decide (S pos = length cs) then None else Some sep) = Ret (parent', edge_at cs' pos) ∧
    inner_node parent' cs' u' ∧ notes parent parent' ∧
    children cs' u' = pair_children pos wm cs u ∧
    seps cs' = leaf_pair_seps pos (fst <$> last (esl ++ esr)) cs).
Proof.
  intros Hl Pr Hn Hpos Hw Hroom fit.
  destruct (concat_leaves_spec _ right l r l2 r2 esl esr (leaf_node_page _ _ _ _ Hl) Pr) as [Hc1 Hc2].
  destruct (merge_leaf_spec left right l r l2 r2 esl esr Hl Pr) as [Hm1 Hm2]. split_and!.
  - unfold leaf_pair_fits. destruct (decide (page_fits 16 (esl ++ esr))) as [Hf|Hf].
    + destruct (Hc1 Hf) as (tmp & -> & _). by rewrite bind_Ret, bool_decide_eq_true_2.
    + rewrite (Hc2 Hf). by rewrite bind_Ret, bool_decide_eq_false_2.
  - done.
  - intros Hf. destruct (Hm1 Hf) as (left' & d & Em & Hl' & D).
    destruct (unlink_right_leaf_spec parent cs u pos _ l r2 (esl ++ esr) wm Hn Hpos (leaf_node_page _ _ _ _ Hl') Hw Hroom)
      as (parent' & cs' & u' & Eu & Hn' & N & Hch & Hs).
    exists left', d, parent', cs', u'. split_and!; try done.
    rewrite unlink_left_right; [done| |done]. by destruct (inner_count _ _ _ (inner_node_page _ _ _ Hn)).
Qed.

(** The parent of the example has two leaves under its first two edges. *)
Lemma leaf_merge_concatenates_witness :
  leaf_pair_fits (H := debug_4k) small_leaf (leaf_of (H := debug_4k) 7 9 [([x63], [x03])]) = Ret true ∧
  ∃ left' d parent' cs' u',
    merge_leaf_pages_into_left (H := debug_4k) (ExclusiveNode.new true small_leaf)
      (leaf_of (H := debug_4k) 7 9 [([x63], [x03])]) = Ret (left', d, true) ∧
    leaf_node (H := debug_4k) left' 3 9 (small_entries ++ [([x63], [x03])]) ∧
    unlink_merged_right_leaf (H := debug_4k) (ExclusiveNode.new true sample_inner) (ExclusiveNode.page left')
      (2 ^ 63 + 11) (ParentEdge.Slot 1) 0 = Ret (parent', edge_at cs' 0) ∧
    children cs' u' = [2 ^ 63 + 11; 2 ^ 63 + 13; 2 ^ 63 + 14] ∧ seps cs' = [[x63]; [x66]].
Proof.
  destruct (@leaf_merge_concatenates debug_4k (ExclusiveNode.new true small_leaf)
    (leaf_of (H := debug_4k) 7 9 [([x63], [x03])]) 3 5 7 9 small_entries [([x63], [x03])]
    (ExclusiveNode.new true sample_inner) sample_children (2 ^ 63 + 14) 0 (2 ^ 63 + 11) [])
    as (Ef & _ & Hm); [apply new_leaf_node, small_leaf_page|apply leaf_of_spec; [vm_compute; congruence|done..]|
      apply new_inner_node, sample_inner_page|simpl; lia|done|intros _ k [= <-]; vm_compute; congruence|].
  split; [exact Ef|].
  destruct Hm as (left' & d & parent' & cs' & u' & Em & Hl & _ & Eu & _ & _ & _ & Hch & Hs); [vm_compute; congruence|].
  exists left', d, parent', cs', u'. exact (conj Em (conj Hl (conj Eu (conj Hch Hs)))).
Defined.

(** ** Merging inner nodes *)

Section inner_merge.
Context `{Build}.
Implicit Types cs : list child.

(** Whether a separator fits depends on the separators only. *)
Lemma sep_fits_seps cs cs' k : seps cs = seps cs' → sep_fits cs k → sep_fits cs' k.
Proof.
  intros E. unfold sep_fits, fits. rewrite !zlen_inner_entries.
  assert (zlen cs = zlen cs' ∧ heap_total (inner_entries cs) = heap_total (inner_entries cs')) as [-> ->]; [|done].
  revert cs' E. induction cs as [|c cs IH]; intros [|c' cs'] [=]; [done|]. destruct (IH cs') as [Hz Hh]; [done|].
  split; [unfold zlen in *; simpl; lia|]. cbn. unfold inner_entries in Hh. rewrite Hh.
  unfold esize, child_entry. cbn [fst snd]. rewrite !zlen_le_bytes. congruence.
Qed.

Lemma children_seps_inj cs cs' u u' : children cs u = children cs' u' → seps cs = seps cs' → cs = cs' ∧ u = u'.
Proof.
  unfold children, seps. intros E0 E1. apply app_inj_2 in E0 as [E [= ->]]; [|done]. split; [|done].
  revert cs' E E1. induction cs as [|[k w] cs IH]; intros [|[k' w'] cs'] [=] [=]; [done|]. subst. f_equal. by apply IH.
Qed.

Lemma delete_split_at (ws : list Z) (pos : nat) wl wr :
  ws !! pos = Some wl → delete (S pos) (split_at pos wl wr ws) = ws.
Proof.
  intros Hw. unfold split_at. pose proof (lookup_lt_Some _ _ _ Hw).
  rewrite delete_take_drop, take_app_ge, drop_app_ge by (rewrite length_take; lia).
  rewrite length_take. replace (S pos - pos `min` length ws)%nat with 1%nat by lia.
  replace (S (S pos) - pos `min` length ws)%nat with 2%nat by lia. cbn [take drop].
  rewrite <-app_assoc. by apply take_drop_middle.
Qed.

Lemma delete_insert_at {A} (l : list A) (pos : nat) x : (pos ≤ length l)%nat → delete pos (insert_at pos x l) = l.
Proof.
  intros Hp. unfold insert_at. rewrite delete_take_drop, take_app_le, take_take, Nat.min_id, drop_app_ge by (rewrite length_take; lia).
  rewrite length_take. replace (S pos - pos `min` length l)%nat with 1%nat by lia. cbn [drop]. rewrite drop_0. apply take_drop.
Qed.
End inner_merge.

(** C12: merging undoes splitting. The two halves of an inner node fit in one
    page, and merging them around the separator that went up gives a node
    with the original children and separators; taking the right half out of
    the parent that the split was published in gives a parent with its
    original children and separators, as long as there is room to rewrite
    the separator that follows. *)
Theorem inner_merge_inverts_split `{Build} node sibling cs u (i : nat) k w logs parent pcs pu (pos : nat) wl wr :
  inner_page node cs u → cs !! i = Some (k, w) →
  inner_node parent pcs pu → children pcs pu !! pos = Some wl → word_ok wr → sep_fits pcs k →
  (∀ k2, seps pcs !! pos = Some k2 → sep_fits pcs k2) →
  ∃ left right parent1 edges left' d parent2,
    split_inner node sibling (Z.of_nat i) = Ret (left, right) ∧
    apply_split_to_latched_parent parent k wl wr (edge_at pcs pos) = Ret (parent1, edges) ∧
    inner_pair_fits left k right = Ret true ∧
    merge_inner_pages_into_left (ExclusiveNode.new logs left) k right = Ret (left', d) ∧
    inner_node left' cs u ∧ dirty_covers d left (ExclusiveNode.page left') ∧
    unlink_merged_left_inner parent1 wl (Z.of_nat pos)
      (if decide (pos = length pcs) then Z.of_nat pos else Z.of_nat (S pos)) (seps pcs !! pos) =
      Ret (parent2, edge_at pcs pos) ∧
    inner_node parent2 pcs pu.
Proof.
  intros P Hc Hp Hwl Hwr Hk Hk2.
  assert (Hpos : (pos ≤ length pcs)%nat) by (apply lookup_lt_Some in Hwl; rewrite length_children in Hwl; lia).
  assert (Hwlok : word_ok wl) by (by eapply (Forall_lookup_1 _ _ _ _ (children_ok _ _ _ (inner_node_page _ _ _ Hp)))).
  destruct (split_inner_spec node sibling cs u i k w P Hc) as (left & right & Es & Pl & Pr).
  destruct (apply_split_spec parent pcs pu pos k wl wr Hp Hpos Hk Hwlok Hwr)
    as (parent1 & pcs1 & pu1 & Ea & Hp1 & _ & Hch & Hs).
  assert (Hj : joined (take i cs) w k (drop (S i) cs) = cs) by (by apply take_drop_middle).
  pose proof (wf_page_fits _ _ _ (inner_wf _ _ _ P)) as Hfit.
  pose proof (inner_pair_fits_spec left right _ w k _ u Pl Pr) as Epf. rewrite Hj, bool_decide_eq_true_2 in Epf by done.
  destruct (merge_inner_spec (ExclusiveNode.new logs left) right _ w k _ u (new_inner_node logs _ _ _ Pl) Pr)
    as (left' & d & Em & Hl' & D); [by rewrite Hj|]. rewrite Hj in Hl'.
  assert (Hlen1 : length pcs1 = S (length pcs)).
  { apply (f_equal length) in Hs. unfold seps in Hs. rewrite (Permutation_length (insert_at_perm _ _ _)) in Hs.
    cbn [length] in Hs. by rewrite !length_fmap in Hs. }
  assert (Hnext : seps pcs1 !! S pos = seps pcs !! pos).
  { rewrite Hs. unfold insert_at. rewrite lookup_app_r by (rewrite length_take; unfold seps; rewrite length_fmap; lia).
    rewrite length_take. unfold seps at 1. rewrite length_fmap. replace (S pos - pos `min` length pcs)%nat with 1%nat by lia.
    change (drop pos (seps pcs) !! 0%nat = seps pcs !! pos). by rewrite lookup_drop, Nat.add_0_r. }
  assert (Hdel : delete pos (seps pcs1) = seps pcs)
    by (rewrite Hs; apply delete_insert_at; unfold seps; by rewrite length_fmap).
  destruct (unlink_inner_spec parent1 pcs1 pu1 pos wl (seps pcs !! pos) Hp1) as (parent2 & pcs2 & pu2 & Eu & Hp2 & _ & Hch2 & Hs2);
    [lia|done| |by rewrite Hnext|].
  { intros k2 E2. rewrite Hnext in E2. split; [done|]. eapply sep_fits_seps; [|by apply Hk2].
    rewrite <-Hdel. unfold seps. by rewrite fmap_delete_at. }
  assert (pcs2 = pcs ∧ pu2 = pu) as [-> ->].
  { apply children_seps_inj; [|congruence]. rewrite Hch2. unfold pair_children. rewrite Hch, (delete_split_at _ _ _ _ Hwl).
    case_decide; [|done]. by apply list_insert_id. }
  exists left, right, parent1. eexists. exists left', d, parent2.
  split_and!; [done|exact Ea|done|done|done|done| |done].
  rewrite <-Eu, Hlen1. destruct (decide (pos = length pcs)), (decide (S pos = S (length pcs))); done || lia.
Qed.

Lemma inner_merge_inverts_split_witness :
  ∃ left right parent1 edges left' d parent2,
    split_inner (H := debug_4k) sample_inner [] 1 = Ret (left, right) ∧
    apply_split_to_latched_parent (H := debug_4k) (ExclusiveNode.new true sample_parent) [x64] (2 ^ 63 + 20)
      (2 ^ 63 + 22) (ParentEdge.Slot 0) = Ret (parent1, edges) ∧
    merge_inner_pages_into_left (H := debug_4k) (ExclusiveNode.new true left) [x64] right = Ret (left', d) ∧
    inner_node (H := debug_4k) left' sample_children (2 ^ 63 + 14) ∧
    unlink_merged_left_inner (H := debug_4k) parent1 (2 ^ 63 + 20) 0 1 (Some [x70]) = Ret (parent2, ParentEdge.Slot 0) ∧
    inner_node (H := debug_4k) parent2 [([x70], 2 ^ 63 + 20)] (2 ^ 63 + 21).
Proof.
  destruct (@inner_merge_inverts_split debug_4k sample_inner [] sample_children (2 ^ 63 + 14) 1 [x64] (2 ^ 63 + 12) true
    (ExclusiveNode.new true sample_parent) [([x70], 2 ^ 63 + 20)] (2 ^ 63 + 21) 0 (2 ^ 63 + 20) (2 ^ 63 + 22)
    sample_inner_page) as (left & right & parent1 & edges & left' & d & parent2 & E1 & E2 & _ & E3 & N3 & _ & E4 & N4);
    [done|exact (new_inner_node true _ _ _ sample_parent_page)|done|done|vm_compute; congruence|
     intros k2 [= <-]; vm_compute; congruence|].
  exists left, right, parent1, edges, left', d, parent2.
  exact (conj E1 (conj E2 (conj E3 (conj N3 (conj E4 N4))))).
Defined.

(** ** Separators *)

(** The references of a node, decoded. *)
Definition decoded `{Build} (ws : list Z) (ss : list Swip) : Prop := ws = encode <$> ss ∧ Forall swip_valid ss.

Section repair.
Context `{Build}.

Lemma first_at_fmap {A B} (f : B → bool) (g : A → B) l : first_at f (g <$> l) = first_at (f ∘ g) l.
Proof. induction l as [|x l IH]; [done|]. cbn. rewrite IH. by destruct (f (g x)). Qed.

Lemma first_at_ext {A} (f g : A → bool) l : (∀ x, x ∈ l → f x = g x) → first_at f l = first_at g l.
Proof.
  induction l as [|x l IH]; intros Hfg; [done|]. cbn. rewrite (Hfg x) by (left; done).
  destruct (g x); [done|]. f_equal. apply IH. intros y Hy. apply Hfg. by right.
Qed.

(** A child is found by its frame or by its page identifier. *)
Lemma child_edge_for_spec p cs u ss c :
  inner_page p cs u → decoded (children cs u) ss →
  child_edge_for p c = Ret (edge_at cs <$> first_at (is_child c) ss).
Proof.
  intros P [Hd Hv]. unfold child_edge_for.
  set (f := λ w, match ChildRef.matches_swip c w with Ret b => b | Panic => false end).
  assert (Hf : ∀ s, s ∈ ss → ChildRef.matches_swip c (encode s) = Ret (is_child c s))
    by (intros s Hs; apply matches_encode; by apply (proj1 (Forall_forall _ _) Hv)).
  rewrite (find_edge_spec _ p cs u f P).
  - rewrite Hd, first_at_fmap. do 2 f_equal. apply first_at_ext. intros s Hs. unfold f. simpl. by rewrite Hf.
  - rewrite Hd. intros w (s & -> & Hs)%list_elem_of_fmap. unfold f. by rewrite Hf.
Qed.
End repair.

(** C29: one turn of separator repair. The child is looked up by identity
    among the references of the parent. When it hangs on a slot, its
    separator becomes the new largest key if it is not already, and the walk
    ends; when it is the rightmost child the walk goes on to the parent's
    parent; nothing else changes. The step panics exactly when the new key
    does not fit once the old separator is taken out: [set_separator_key]
    asks for no room. *)
Theorem separator_repair `{Build} nd cs u ss c new_max :
  inner_node nd cs u → clean nd → decoded (children cs u) ss →
  let same next := repair_separator nd c new_max = Ret (nd, ExclusiveNode.Unchanged, next) in
  match first_at (is_child c) ss with
  | None => same false
  | Some i =>
      match cs !! i, new_max with
      | None, _ => i = length cs ∧ same true
      | Some _, None => same false
      | Some (k, w), Some k' =>
          (k = k' → same false) ∧
          (k ≠ k' → sep_fits (delete i cs) k' → ∃ nd' d,
            repair_separator nd c new_max = Ret (nd', d, false) ∧
            inner_node nd' (<[i := (k', w)]> cs) u ∧
            dirty_covers d (ExclusiveNode.page nd) (ExclusiveNode.page nd')) ∧
          (k ≠ k' → ¬ sep_fits (delete i cs) k' → repair_separator nd c new_max = Panic)
      end
  end.
Proof.
  intros Hn Hcl Hd same. pose proof (inner_node_page _ _ _ Hn) as P. destruct (inner_count _ _ _ P) as [Hnum Hb].
  unfold same, repair_separator. rewrite (child_edge_for_spec _ _ _ _ c P Hd), bind_Ret.
  destruct (first_at (is_child c) ss) as [i|] eqn:Ei; [|done]. cbn [fmap option_fmap option_map].
  assert (Hi : (i ≤ length cs)%nat).
  { apply first_at_Some in Ei as (s & Hs%lookup_lt_Some & _). destruct Hd as [Hd _].
    apply (f_equal length) in Hd. rewrite length_children, length_fmap in Hd. lia. }
  rewrite Hnum. assert (ParentEdge.pos (edge_at cs i) (zlen cs) = Z.of_nat i) as ->.
  { unfold edge_at, ParentEdge.from_pos. by destruct (Z.eqb_spec (Z.of_nat i) (zlen cs)). }
  destruct (cs !! i) as [[k w]|] eqn:Hc.
  - pose proof (lookup_lt_Some _ _ _ Hc). rewrite (proj2 (Z.ltb_lt _ _)) by (unfold zlen; lia).
    destruct new_max as [k'|]; [|done].
    rewrite (get_key_wf _ _ _ _ _ (inner_wf _ _ _ P) (inner_lookup _ _ _ _ Hc)), bind_Ret. cbn [fst].
    split; [intros ->; by rewrite (proj2 (key_eqb_spec _ _) eq_refl)|].
    assert (Hne : k ≠ k' → key_eqb k k' = false) by (intros ?; apply not_true_is_false; by rewrite key_eqb_spec).
    split; intros Hk; rewrite (Hne Hk); intros Hf.
    + destruct (inner_set_key nd cs u i k w k' Hn Hc Hf) as (n1 & -> & Hn1 & N1). rewrite bind_Ret.
      destruct (finish_mutation_spec nd n1 Hcl N1) as (Hd1 & Hp1 & _ & _ & Hok).
      destruct (ExclusiveNode.finish_mutation n1) as [n2 d] eqn:Ef. cbn [fst snd] in *.
      exists n2, d. rewrite Hp1. split_and!; [done| |done]. constructor; [rewrite Hp1; apply Hn1|done].
    + by rewrite (inner_set_key_full nd cs u i k w k' Hn Hc Hf).
  - apply lookup_ge_None in Hc. rewrite (proj2 (Z.ltb_ge _ _)) by (unfold zlen; lia). split; [lia|done].
Qed.

Definition full_children : list child := [([x61], 2 ^ 63 + 11); (fill 3900 x62, 2 ^ 63 + 12)].
Definition full_inner : page := inner_of (H := debug_4k) full_children (2 ^ 63 + 13).
Lemma full_inner_page : inner_page (H := debug_4k) full_inner full_children (2 ^ 63 + 13).
Proof. apply inner_of_spec; [vm_compute; congruence|repeat constructor; vm_compute; congruence|done]. Qed.
Lemma evicted_decoded (ps : list Z) `{Build} :
  Forall payload_ok ps → decoded ((λ p, 2 ^ 63 + p) <$> ps) (EvictedPage <$> ps).
Proof.
  intros Hp. split; [|by apply Forall_fmap].
  rewrite <-list_fmap_compose. apply list_fmap_ext. intros i p _. simpl. lia.
Qed.

Lemma sample_payloads : Forall payload_ok [11; 12; 13; 14] ∧ Forall payload_ok [11; 12; 13].
Proof. unfold payload_ok. split; repeat (apply Forall_cons; split; [lia|]); done. Qed.

Lemma separator_repair_witness :
  (∃ nd' d, repair_separator (H := debug_4k) (ExclusiveNode.new true sample_inner) (ChildRef.from_pid 8192 12)
      (Some [x63]) = Ret (nd', d, false) ∧
    inner_node (H := debug_4k) nd' [([x62], 2 ^ 63 + 11); ([x63], 2 ^ 63 + 12); ([x66], 2 ^ 63 + 13)] (2 ^ 63 + 14)) ∧
  repair_separator (H := debug_4k) (ExclusiveNode.new true full_inner) (ChildRef.from_pid 8192 11)
    (Some (fill 200 x61)) = Panic.
Proof.
  pose proof (@separator_repair debug_4k (ExclusiveNode.new true sample_inner) sample_children (2 ^ 63 + 14)
    (EvictedPage <$> [11; 12; 13; 14]) (ChildRef.from_pid 8192 12) (Some [x63])
    (new_inner_node true _ _ _ sample_inner_page) eq_refl
    (evicted_decoded (H := debug_4k) [11; 12; 13; 14] (proj1 sample_payloads))) as (_ & Hok & _).
  pose proof (@separator_repair debug_4k (ExclusiveNode.new true full_inner) full_children (2 ^ 63 + 13)
    (EvictedPage <$> [11; 12; 13]) (ChildRef.from_pid 8192 11) (Some (fill 200 x61))
    (new_inner_node true _ _ _ full_inner_page) eq_refl
    (evicted_decoded (H := debug_4k) [11; 12; 13] (proj2 sample_payloads))) as (_ & _ & Hbad).
  split.
  - destruct Hok as (nd' & d & E & N & _); [done|vm_compute; congruence|]. exists nd', d. exact (conj E N).
  - apply Hbad; [done|]. vm_compute. intros Hle. apply Hle. reflexivity.
Defined.

(** ** Routing *)

(** Routing through an inner node. On any inner page, sorted or not,
    [try_route_to_child] returns a child of the node and the edge it hangs
    on; when the separators are sorted it is the one whose separator is the
    first not below the key, the rightmost child when there is none.
    [child_edge_for] finds the edge of that child again, or an earlier edge
    with the same child. A leaf is left for its right neighbour exactly when
    it has one and all its keys are below the search key. *)
Theorem route_finds_child `{Build} p cs u ss key :
  inner_page p cs u → decoded (children cs u) ss →
  ∃ (pos : nat) w,
    ResidentFrame.try_route_to_child p key =
      Ret (Some {| RoutedChildRef.swip := w; RoutedChildRef.edge := edge_at cs pos |}) ∧
    OptimisticNode.for_each_child_route p = Ret (Some (routes cs u)) ∧
    children cs u !! pos = Some w ∧ crosses cs key pos ∧
    (StronglySorted key_lt (seps cs) → ∀ (j : nat) k, seps cs !! j = Some k → (j < pos)%nat ↔ key_lt k key) ∧
    (∀ c, (∃ s, ss !! pos = Some s ∧ is_child c s = true) →
      ∃ i : nat, child_edge_for p c = Ret (Some (edge_at cs i)) ∧ (i ≤ pos)%nat ∧
        ∃ s, ss !! i = Some s ∧ is_child c s = true) ∧
    (∀ leaf l r es, leaf_page leaf l r es → keys_sorted es →
      ResidentFrame.should_chase_right leaf key = Ret (bool_decide (r ≠ 0 ∧ Forall (λ e, key_lt e.1 key) es))).
Proof.
  intros P Hd. destruct (route_spec p cs u key P) as (pos & w & E & Hw & Hx). exists pos, w.
  split_and!; [done|by apply for_each_child_route_spec|done|done|by intros; eapply crosses_sorted| |by intros; eapply chase_spec].
  intros c (s & Hs & Hc). rewrite (child_edge_for_spec _ _ _ _ c P Hd).
  destruct (first_at (is_child c) ss) as [i|] eqn:Ei.
  - apply first_at_Some in Ei as (s' & Hs' & Hc' & Hmin). exists i. split_and!; [done| |by exists s'].
    apply Nat.le_ngt. intros Hlt. by rewrite (Hmin pos s Hlt Hs) in Hc.
  - exfalso. assert (is_child c s = false); [|congruence]. eapply first_at_None; [done|]. by eapply list_elem_of_lookup_2.
Qed.

Lemma route_finds_child_witness :
  ∃ (pos : nat) w, ResidentFrame.try_route_to_child (H := debug_4k) sample_inner [x63] =
    Ret (Some {| RoutedChildRef.swip := w; RoutedChildRef.edge := edge_at sample_children pos |}) ∧
    children sample_children (2 ^ 63 + 14) !! pos = Some w.
Proof.
  destruct (@route_finds_child debug_4k sample_inner sample_children (2 ^ 63 + 14) (EvictedPage <$> [11; 12; 13; 14]) [x63]
    sample_inner_page (evicted_decoded (H := debug_4k) [11; 12; 13; 14] (proj1 sample_payloads)))
    as (pos & w & E & _ & Hw & _). exists pos, w. exact (conj E Hw).
Defined.

(** ** The form of a page on disk *)

(** The reference written for [s], when the frames [owned] accepts are this
    pool's. *)
Definition written_ref (heap : frames) (owned : Z → bool) (s : Swip) : Swip :=
  match s with
  | HotPtr a | CoolPtr a =>
      if owned a then match heap !! a with Some f => EvictedPage (BufferFrame.pid f) | None => s end else s
  | EvictedPage _ => s
  end.

(** Every frame a resident reference names is there, and has a page number
    that a reference can hold. *)
Definition frames_present (heap : frames) (ss : list Swip) : Prop :=
  ∀ s a, s ∈ ss → s = HotPtr a ∨ s = CoolPtr a → ∃ f, heap !! a = Some f ∧ payload_ok (BufferFrame.pid f).

Section writeback.
Context `{Build}.

Lemma as_ptr_encode s a : swip_valid s → s = HotPtr a ∨ s = CoolPtr a → SwipWord.as_ptr (encode s) = Ret a.
Proof.
  intros Hv Hs. pose proof (swip_valid_ok _ Hv) as Hok. destruct (is_encode _ Hok) as (Hh & Hc & He).
  unfold SwipWord.as_ptr, SwipWord.pointer_bits.
  assert (Ha : payload_ok a) by (by destruct Hs as [-> | ->]).
  destruct (pointer_bits_of_encode a Ha) as [E1 E2]. rewrite He.
  destruct Hs as [-> | ->]; rewrite debug_assert_true, bind_Ret by done; by f_equal.
Qed.

(** Both conversions of a reference, on a valid one. *)
Lemma prepared_hot heap ss s :
  frames_present heap ss → s ∈ ss → swip_valid s →
  ∃ o, hot_to_evicted heap (encode s) = Ret o ∧ (∀ w', o = Some w' → word_ok w') ∧
    prepared (hot_to_evicted heap) (encode s) = encode (written_ref heap (λ _, true) s).
Proof.
  intros Hf Hs Hv. destruct (is_encode _ (swip_valid_ok _ Hv)) as (Hh & Hc & _).
  unfold prepared, hot_to_evicted. rewrite Hh, Hc. destruct s as [a|a|pid].
  all: simpl orb; cbn iota.
  3: { exists None. split_and!; [done|by intros|done]. }
  all: destruct (Hf _ a Hs) as (f & Ef & Hp); [by eauto|]; rewrite (as_ptr_encode _ a Hv), bind_Ret by eauto;
    unfold BufferFrameRef.pid; rewrite Ef; cbn [expect]; rewrite !bind_Ret, evicted_encode, bind_Ret by done;
    eexists; split_and!; [done| |cbn; by rewrite Ef]; intros w' [= <-]; by apply (encode_word_ok (EvictedPage (BufferFrame.pid f))).
Qed.

Lemma prepared_owned heap owned s :
  (∀ a, owned a = true → s = HotPtr a ∨ s = CoolPtr a → ∃ f, heap !! a = Some f ∧ payload_ok (BufferFrame.pid f)) →
  swip_valid s →
  ∃ o, owned_to_evicted heap owned (encode s) = Ret o ∧ (∀ w', o = Some w' → word_ok w') ∧
    prepared (owned_to_evicted heap owned) (encode s) = encode (written_ref heap owned s).
Proof.
  intros Hf Hv. unfold prepared, owned_to_evicted. rewrite from_hot_swip_encode, bind_Ret by done.
  destruct s as [a|a|pid].
  3: { exists None. split_and!; [done|by intros|done]. }
  all: cbn; destruct (owned a) eqn:Ho; [|exists None; split_and!; [done|by intros|done]];
    destruct (Hf a Ho) as (f & Ef & Hp); [by eauto|]; unfold BufferFrameRef.pid; rewrite Ef; cbn [expect];
    rewrite !bind_Ret, evicted_encode, bind_Ret by done;
    eexists; split_and!; [done| |done]; intros w' [= <-]; by apply (encode_word_ok (EvictedPage (BufferFrame.pid f))).
Qed.

(** A conversion known on every reference, on the page. *)
Lemma convert_decoded prepare g p cs u ss :
  inner_page p cs u → decoded (children cs u) ss →
  (∀ s, s ∈ ss → ∃ o, prepare (encode s) = Ret o ∧ (∀ w', o = Some w' → word_ok w') ∧
    prepared prepare (encode s) = encode (g s)) →
  ∃ p' cs' u', convert_page prepare p = Ret p' ∧ inner_page p' cs' u' ∧ seps cs' = seps cs ∧
    children cs' u' = encode <$> (g <$> ss).
Proof.
  intros P [Hd Hv] Hg. destruct (convert_page_spec prepare p cs u P) as (p' & E & P').
  { rewrite Hd. intros w (s & -> & Hs)%list_elem_of_fmap. destruct (Hg s Hs) as (o & ? & ? & _). eauto. }
  exists p', (mapped (prepared prepare) cs), (prepared prepare u).
  split_and!; [done|done|apply seps_mapped|]. rewrite children_mapped, Hd, <-!list_fmap_compose.
  apply list_fmap_ext. intros i s Hs. apply list_elem_of_lookup_2 in Hs. destruct (Hg s Hs) as (o & _ & _ & Heq). exact Heq.
Qed.
End writeback.

(** C30: no address is written to disk. The conversion of a frame's page
    before it is written replaces every reference to a resident frame of the
    page by the identifier of that frame's page and keeps the separators, the
    references that are identifiers already, and everything else of the
    frame; the conversion of a page copy does so for the frames of the pool
    it is given. Leaves and pages of other types are left as they are. *)
Theorem writeback_unswizzles `{Build} frame heap owned cs u ss :
  inner_page (BufferFrame.page frame) cs u → decoded (children cs u) ss → frames_present heap ss →
  (∃ p' cs' u',
    convert_hot_swips_to_evicted heap frame = Ret (BufferFrame.set_page frame p') ∧
    inner_page p' cs' u' ∧ seps cs' = seps cs ∧
    children cs' u' = encode <$> (written_ref heap (λ _, true) <$> ss) ∧
    (∀ s, s ∈ written_ref heap (λ _, true) <$> ss → ∃ pid, s = EvictedPage pid)) ∧
  (∃ p' cs' u',
    convert_swips_in_buf heap owned (BufferFrame.page frame) = Ret p' ∧
    inner_page p' cs' u' ∧ seps cs' = seps cs ∧ children cs' u' = encode <$> (written_ref heap owned <$> ss)) ∧
  (∀ p, read_page_type p ≠ Index ∨ BTreeNode.is_leaf p = true → convert_swips_in_buf heap owned p = Ret p).
Proof.
  intros P Hd Hf. pose proof Hd as [_ Hv]. rewrite Forall_forall in Hv. split_and!.
  - destruct (convert_decoded (hot_to_evicted heap) (written_ref heap (λ _, true)) _ cs u ss P Hd)
      as (p' & cs' & u' & E & P' & Hs & Hch); [intros s Hs; eapply prepared_hot; eauto|].
    exists p', cs', u'. split_and!; [|done|done|done|].
    + unfold convert_hot_swips_to_evicted. by rewrite E, bind_Ret.
    + intros s' (s & -> & Hin)%list_elem_of_fmap.
      destruct s as [a|a|pid]; [| |by eexists]; (destruct (Hf _ a Hin) as (f & Ef & _); [by eauto|]);
        cbn; rewrite Ef; by eexists.
  - eapply convert_decoded; [done|done|]. intros s Hs. apply prepared_owned; eauto.
  - intros p [Hp|Hp]; unfold convert_swips_in_buf, convert_page.
    + by rewrite bool_decide_eq_false_2.
    + case_bool_decide; [|done]. cbn [negb]. change (has_custom_flag p 2) with (BTreeNode.is_leaf p). by rewrite Hp.
Qed.

(** A page with a hot, a cool and an evicted child. *)
Definition mixed_refs : list Swip := [HotPtr 8192; EvictedPage 12; CoolPtr 12288].
Definition mixed_children : list child := [([x62], 8192); ([x64], 2 ^ 63 + 12)].
Definition mixed_inner : page := inner_of (H := debug_4k) mixed_children (2 ^ 62 + 12288).
Lemma mixed_inner_page : inner_page (H := debug_4k) mixed_inner mixed_children (2 ^ 62 + 12288).
Proof. apply inner_of_spec; [vm_compute; congruence|repeat constructor; vm_compute; congruence|done]. Qed.
Definition mixed_frame (pid : Z) : BufferFrame.t :=
  {| BufferFrame.pid := pid; BufferFrame.parent_link := LinkNone; BufferFrame.dirty := true; BufferFrame.page := mixed_inner |}.
Definition mixed_heap : gmap Z BufferFrame.t := <[8192 := mixed_frame 21]> {[12288 := mixed_frame 22]}.
Lemma mixed_decoded : decoded (H := debug_4k) (children mixed_children (2 ^ 62 + 12288)) mixed_refs.
Proof.
  split; [reflexivity|]. repeat (apply Forall_cons; split; [by vm_compute|]). done.
Qed.
Lemma mixed_present : frames_present mixed_heap mixed_refs.
Proof.
  intros s a Hs Ha. unfold mixed_refs in Hs. rewrite !elem_of_cons, elem_of_nil in Hs.
  destruct Hs as [-> | [-> | [-> | []]]]; destruct Ha as [[= <-] | [= <-]];
    eexists; (split; [reflexivity|vm_compute; split; congruence]).
Qed.

Lemma writeback_unswizzles_witness :
  ∃ p' cs' u', convert_hot_swips_to_evicted (H := debug_4k) mixed_heap (mixed_frame 20) =
      Ret (BufferFrame.set_page (mixed_frame 20) p') ∧
    inner_page (H := debug_4k) p' cs' u' ∧ children cs' u' = [2 ^ 63 + 21; 2 ^ 63 + 12; 2 ^ 63 + 22].
Proof.
  destruct (@writeback_unswizzles debug_4k (mixed_frame 20) mixed_heap (λ _, true) mixed_children (2 ^ 62 + 12288)
    mixed_refs mixed_inner_page mixed_decoded mixed_present) as [(p' & cs' & u' & E & P & _ & Hch & _) _].
  exists p', cs', u'. exact (conj E (conj P Hch)).
Defined.
