(* ===== verification/FreePages.v ===== *)
(** * Free-page allocator

    Models [src/crates/storage/src/free_page_allocator.rs]: the coalescing
    central freelist, the per-shard hot buckets and monotonic reservations,
    and the layered [allocate_page]. Each method is one atomic step here
    (what a single thread sees); the interleaving of the lock-free
    monotonic path is in FreePagesSpec.

    A [BTreeMap] is the list of its entries in key order; a [SegQueue] is the
    list of its elements, oldest first. *)

From S2P Require Import Prelude Bytes FrameKernel.
#[local] Open Scope Z_scope.

Definition HOT_BUCKET_LIMITS : list Z := [1; 2; 4; 8; 16; 32; 64; 128; 256].
Definition HOT_REFILL_BATCH : Z := 8.
Definition MONOTONIC_REFILL_BASE_PAGES : Z := 256.

(** [HOT_BUCKET_LIMITS.iter().position(|&limit| len <= limit)] *)
Fixpoint position_le (len : Z) (limits : list Z) : option nat :=
  match limits with
  | [] => None
  | l :: limits => if len <=? l then Some 0%nat else S <$> position_le len limits
  end.
Definition hot_bucket_for_len (len : Z) : option nat := position_le len HOT_BUCKET_LIMITS.

Module FreeExtent.

Record t := { start_page_number : Z; len : Z }.
#[global] Instance t_eq_dec : EqDecision t.
Proof. solve_decision. Defined.

Definition new (start_page_number len : Z) : outcome t :=
  _ ← assert (0 <? start_page_number);
  _ ← assert (0 <? len);
  Ret {| start_page_number := start_page_number; len := len |}.

Definition end_page_number (self : t) : outcome Z :=
  expect (checked_add 64 (start_page_number self) (len self)).

(** Returns the allocated head and what is left of [self]. *)
Definition split_head `{Build} (self : t) (n : Z) : outcome (t * t) :=
  _ ← assert ((0 <? n) && (n <=? len self));
  allocated ← new (start_page_number self) n;
  s ← uadd 64 (start_page_number self) n;
  l ← usub 64 (len self) n;
  Ret (allocated, {| start_page_number := s; len := l |}).

End FreeExtent.
Import FreeExtent (start_page_number, len).

Notation extent := FreeExtent.t (only parsing).

(** ** [BTreeMap<u64, FreeExtent>] *)

Notation btree_map := (list (Z * FreeExtent.t)) (only parsing).

(** [range(..=k).next_back()] *)
Definition range_to_back (m : btree_map) (k : Z) : option (Z * extent) :=
  last (filter (λ e, e.1 ≤ k) m).
(** [range(k..).next()] *)
Definition range_from_next (m : btree_map) (k : Z) : option (Z * extent) :=
  head (filter (λ e, k ≤ e.1) m).
Definition map_remove (m : btree_map) (k : Z) : btree_map := filter (λ e, e.1 ≠ k) m.
Definition map_insert (m : btree_map) (k : Z) (v : extent) : btree_map :=
  filter (λ e, e.1 < k) m ++ (k, v) :: filter (λ e, k < e.1) m.

(** [min_by_key(|(_, extent)| extent.len)]: the first of the smallest. *)
Fixpoint min_by_len (m : btree_map) : option (Z * extent) :=
  match m with
  | [] => None
  | e :: m =>
      match min_by_len m with
      | None => Some e
      | Some e' => if len e.2 <=? len e'.2 then Some e else Some e'
      end
  end.

Module CentralInner.

Record t := {
  by_start_page_number : btree_map;
  free_base_pages : Z;
}.

Definition new : t := {| by_start_page_number := []; free_base_pages := 0 |}.

(** The neighbour that ends at or before [start]: checked, and taken over
    when it touches. Yields the map, the start and the length. *)
Definition absorb_prev `{Build} (m : btree_map) (start elen : Z) : outcome (btree_map * Z * Z) :=
  match range_to_back m start with
  | Some (prev_start, prev) =>
      prev_end ← FreeExtent.end_page_number prev;
      _ ← assert (prev_end <=? start);
      if prev_end =? start then
        l ← uadd 64 elen (len prev);
        Ret (map_remove m prev_start, start_page_number prev, l)
      else Ret (m, start, elen)
  | None => Ret (m, start, elen)
  end.

(** The neighbour that starts at or after [end]. *)
Definition absorb_next `{Build} (m : btree_map) (start end_ elen : Z) : outcome (btree_map * Z) :=
  match range_from_next m start with
  | Some (next_start, next) =>
      _ ← assert (end_ <=? next_start);
      if end_ =? next_start then
        end_ ← FreeExtent.end_page_number next;
        l ← usub 64 end_ start;
        Ret (map_remove m next_start, l)
      else Ret (m, elen)
  | None => Ret (m, elen)
  end.

Definition insert `{Build} (self : t) (e : extent) : outcome t :=
  let added_len := len e in
  end_ ← FreeExtent.end_page_number e;
  r ← absorb_prev (by_start_page_number self) (start_page_number e) (len e);
  let '(m, start, elen) := r in
  r ← absorb_next m start end_ elen;
  let '(m, elen) := r in
  total ← uadd 64 (free_base_pages self) added_len;
  Ret {| by_start_page_number :=
           map_insert m start {| FreeExtent.start_page_number := start; FreeExtent.len := elen |};
         free_base_pages := total |}.

Definition allocate_best_fit `{Build} (self : t) (n : Z) : outcome (option extent * t) :=
  match min_by_len (filter (λ e, n ≤ len e.2) (by_start_page_number self)) with
  | None => Ret (None, self)
  | Some (start, e) =>
      let m := map_remove (by_start_page_number self) start in
      total ← usub 64 (free_base_pages self) n;
      r ← FreeExtent.split_head e n;
      let '(allocated, remainder) := r in
      let m := if 0 <? len remainder
               then map_insert m (start_page_number remainder) remainder else m in
      Ret (Some allocated, {| by_start_page_number := m; free_base_pages := total |})
  end.

Definition extent_count (self : t) : Z := zlen (by_start_page_number self).

End CentralInner.

Module MonotonicRange.

Record t := {
  next_page_number : Z;
  end_page_number : Z;
}.

Definition new : t := {| next_page_number := 0; end_page_number := 0 |}.

Definition try_allocate `{Build} (self : t) (n : Z) : outcome (option extent * t) :=
  let next := next_page_number self in
  let self := {| next_page_number := wrap 64 (next + n); end_page_number := end_page_number self |} in
  if next =? 0 then Ret (None, self) else
  new_next ← expect (checked_add 64 next n);
  let end_ := end_page_number self in
  if new_next <=? end_ then
    e ← FreeExtent.new next n;
    Ret (Some e, self)
  else Ret (None, self).

Definition install_reserved_tail (_self : t) (next_page_number end_page_number : Z) : t :=
  {| next_page_number := next_page_number; end_page_number := end_page_number |}.

End MonotonicRange.

Module FreePageShard.

Record t := {
  buckets : list (list extent);
  monotonic : MonotonicRange.t;
}.

Definition new : t := {|
  buckets := replicate (length HOT_BUCKET_LIMITS) [];
  monotonic := MonotonicRange.new;
|}.

Definition push (self : t) (e : extent) : outcome (t * (unit + extent)) :=
  match hot_bucket_for_len (len e) with
  | None => Ret (self, inr e)
  | Some b =>
      q ← expect (buckets self !! b);
      Ret ({| buckets := <[b := q ++ [e]]> (buckets self); monotonic := monotonic self |}, inl tt)
  end.

(** The first non-empty queue from [start] on. *)
Fixpoint pop_first (bs : list (list extent)) (skip : nat) : option (extent * list (list extent)) :=
  match bs with
  | [] => None
  | q :: bs =>
      match skip with
      | S skip => r ← pop_first bs skip; Some (r.1, q :: r.2)
      | O =>
          match q with
          | e :: q => Some (e, q :: bs)
          | [] => r ← pop_first bs O; Some (r.1, [] :: r.2)
          end
      end
  end.

Definition pop_at_least `{Build} (self : t) (n : Z) : outcome (option extent * t) :=
  match hot_bucket_for_len n with
  | None => Ret (None, self)
  | Some start_bucket =>
      match pop_first (buckets self) start_bucket with
      | None => Ret (None, self)
      | Some (e, bs) =>
          _ ← debug_assert (n <=? len e);
          Ret (Some e, {| buckets := bs; monotonic := monotonic self |})
      end
  end.

End FreePageShard.

Module FreePageAllocator.

Record t := {
  global_next_page_number : Z;
  shards : list FreePageShard.t;
  central : CentralInner.t;
}.

Definition new (next_page_number shard_count : Z) : outcome t :=
  _ ← assert (0 <? next_page_number);
  let shard_count := Z.max shard_count 1 in
  Ret {| global_next_page_number := next_page_number;
         shards := replicate (Z.to_nat shard_count) FreePageShard.new;
         central := CentralInner.new |}.

Definition with_central (self : t) (c : CentralInner.t) : t :=
  {| global_next_page_number := global_next_page_number self; shards := shards self; central := c |}.
Definition with_shard (self : t) (i : nat) (sh : FreePageShard.t) : t :=
  {| global_next_page_number := global_next_page_number self;
     shards := <[i := sh]> (shards self); central := central self |}.

Definition promote_reusable_extent `{Build} (self : t) (e : extent) : outcome t :=
  c ← CentralInner.insert (central self) e;
  Ret (with_central self c).

Definition return_remainder `{Build} (self : t) (shard_idx : nat) (e : extent) : outcome t :=
  sh ← expect (shards self !! shard_idx);
  r ← FreePageShard.push sh e;
  match r with
  | (_, inr e) => promote_reusable_extent self e
  | (sh, inl _) => Ret (with_shard self shard_idx sh)
  end.

Definition allocate_from_shard `{Build} (self : t) (shard_idx : nat) (n : Z)
    : outcome (option extent * t) :=
  sh ← expect (shards self !! shard_idx);
  r ← FreePageShard.pop_at_least sh n;
  match r with
  | (None, _) => Ret (None, self)
  | (Some e, sh) =>
      let self := with_shard self shard_idx sh in
      r ← FreeExtent.split_head e n;
      let '(allocated, e) := r in
      self ← (if 0 <? len e then return_remainder self shard_idx e else Ret self);
      Ret (Some allocated, self)
  end.

Definition refill_shard `{Build} (self : t) (shard_idx : nat) (n : Z) : outcome t :=
  match hot_bucket_for_len n with
  | None => Ret self
  | Some _ =>
      max_hot_len ← expect (last HOT_BUCKET_LIMITS);
      let refill_len := Z.min (saturating_mul 64 n HOT_REFILL_BATCH) max_hot_len in
      r ← CentralInner.allocate_best_fit (central self) refill_len;
      match r with
      | (Some e, c) => return_remainder (with_central self c) shard_idx e
      | (None, c) =>
          r ← CentralInner.allocate_best_fit c n;
          match r with
          | (None, c) => Ret (with_central self c)
          | (Some e, c) => return_remainder (with_central self c) shard_idx e
          end
      end
  end.

(** [for offset in 1..self.shards.len()]: steal from the siblings. *)
Fixpoint steal `{Build} (self : t) (n : Z) (idxs : list nat) : outcome (option extent * t) :=
  match idxs with
  | [] => Ret (None, self)
  | i :: idxs =>
      r ← allocate_from_shard self i n;
      match r with
      | (Some e, self) => Ret (Some e, self)
      | (None, self) => steal self n idxs
      end
  end.

Definition steal_order (shard_idx count : nat) : list nat :=
  (λ offset, ((shard_idx + offset) mod count)%nat) <$> seq 1 (count - 1).

Definition allocate_extent `{Build} (self : t) (n : Z) (shard_hint : nat)
    : outcome (option extent * t) :=
  let shard_idx := (shard_hint mod length (shards self))%nat in
  r ← allocate_from_shard self shard_idx n;
  match r with
  | (Some e, self) => Ret (Some e, self)
  | (None, self) =>
      self ← refill_shard self shard_idx n;
      r ← allocate_from_shard self shard_idx n;
      match r with
      | (Some e, self) => Ret (Some e, self)
      | (None, self) =>
          r ← steal self n (steal_order shard_idx (length (shards self)));
          match r with
          | (Some e, self) => Ret (Some e, self)
          | (None, self) =>
              r ← CentralInner.allocate_best_fit (central self) n;
              Ret (r.1, with_central self r.2)
          end
      end
  end.

Definition allocate_monotonic_extent `{Build} (self : t) (n : Z) (shard_hint : nat)
    : outcome (extent * t) :=
  let shard_idx := (shard_hint mod length (shards self))%nat in
  sh ← expect (shards self !! shard_idx);
  let put self mono :=
    with_shard self shard_idx {| FreePageShard.buckets := FreePageShard.buckets sh;
                                 FreePageShard.monotonic := mono |} in
  r ← MonotonicRange.try_allocate (FreePageShard.monotonic sh) n;
  match r with
  | (Some e, mono) => Ret (e, put self mono)
  | (None, mono) =>
      r ← MonotonicRange.try_allocate mono n;
      match r with
      | (Some e, mono) => Ret (e, put self mono)
      | (None, mono) =>
          let reserve_len := Z.max MONOTONIC_REFILL_BASE_PAGES n in
          let start_page_number := global_next_page_number self in
          let self := {| global_next_page_number := wrap 64 (start_page_number + reserve_len);
                         shards := shards self; central := central self |} in
          allocated ← FreeExtent.new start_page_number n;
          next_page_number ← expect (checked_add 64 start_page_number n);
          end_page_number ← expect (checked_add 64 start_page_number reserve_len);
          let mono := MonotonicRange.install_reserved_tail mono next_page_number end_page_number in
          Ret (allocated, put self mono)
      end
  end.

Definition allocate_page `{Build} (self : t) (shard_hint : nat) : outcome (PageId * t) :=
  r ← allocate_extent self 1 shard_hint;
  match r with
  | (Some e, self) => Ret (start_page_number e, self)
  | (None, self) =>
      r ← allocate_monotonic_extent self 1 shard_hint;
      Ret (start_page_number r.1, r.2)
  end.

Definition next_page_number (self : t) : Z := global_next_page_number self.
Definition central_free_base_pages (self : t) : Z := CentralInner.free_base_pages (central self).
Definition central_extent_count (self : t) : Z := CentralInner.extent_count (central self).

End FreePageAllocator.
