(* ===== verification/FreePagesInv.v ===== *)
(** * Free-page allocator: occupancy invariant

    A page number is free when it lies in exactly one of the extents the
    allocator holds (central, hot bucket or monotonic tail) or above the
    global cursor. The proofs count, for a page number, the extents that
    contain it; coalescing and splitting leave the count unchanged. *)

From S2P Require Import Prelude Bytes FrameKernel FreePages.
#[local] Open Scope Z_scope.
Import FreeExtent (start_page_number, len).

(** ** Counting *)

Definition inside (x : Z) (e : extent) : Prop :=
  start_page_number e ≤ x < start_page_number e + len e.
#[global] Instance inside_dec x e : Decision (inside x e).
Proof. unfold inside. apply _. Defined.

Definition occ (x : Z) (es : list extent) : nat := length (filter (inside x) es).

#[global] Instance occ_perm x : Proper ((≡ₚ) ==> (=)) (occ x).
Proof. intros es es' E. unfold occ. by rewrite E. Qed.

Lemma occ_nil x : occ x [] = 0%nat.
Proof. done. Qed.
Lemma occ_cons x e es : occ x (e :: es) = ((if decide (inside x e) then 1 else 0) + occ x es)%nat.
Proof. unfold occ. rewrite filter_cons. by case_decide. Qed.
Lemma occ_app x es1 es2 : occ x (es1 ++ es2) = (occ x es1 + occ x es2)%nat.
Proof. unfold occ. by rewrite filter_app, length_app. Qed.
Lemma occ_one x e : occ x [e] = if decide (inside x e) then 1%nat else 0%nat.
Proof. rewrite occ_cons, occ_nil. case_decide; done. Qed.
Lemma occ_elem x e es : e ∈ es → inside x e → (1 ≤ occ x es)%nat.
Proof.
  intros (l1 & l2 & ->)%list_elem_of_split Hin. rewrite occ_app, occ_cons, decide_True by done. lia.
Qed.
Lemma occ_0 x es : Forall (λ e, ¬ inside x e) es → occ x es = 0%nat.
Proof. induction 1; [done|]. rewrite occ_cons, decide_False by done. done. Qed.

(** An extent inside [[1, bound)]. *)
Record valid (bound : Z) (e : extent) : Prop := {
  valid_start : 0 < start_page_number e;
  valid_len : 0 < len e;
  valid_end : start_page_number e + len e ≤ bound;
}.

Lemma valid_mono b b' e : valid b e → b ≤ b' → valid b' e.
Proof. intros [? ? ?] ?. constructor; lia. Qed.

Lemma occ_beyond x b es : Forall (valid b) es → b ≤ x → occ x es = 0%nat.
Proof.
  intros Hv Hx. apply occ_0. eapply Forall_impl; [exact Hv|]. intros e [? ? ?]. unfold inside. lia.
Qed.

(** ** Lists in key order *)

Lemma filter_keep {A} (P : A → Prop) `{∀ x, Decision (P x)} l : Forall P l → filter P l = l.
Proof. induction 1; [done|]. rewrite filter_cons_True by done. by f_equal. Qed.
Lemma filter_none {A} (P : A → Prop) `{∀ x, Decision (P x)} l : Forall (λ x, ¬ P x) l → filter P l = [].
Proof. induction 1; [done|]. by rewrite filter_cons_False by done. Qed.

(** Entries are keyed by their start and separated by at least one page. *)
Definition separated (a b : Z * extent) : Prop := start_page_number a.2 + len a.2 < start_page_number b.2.
Definition keyed (bound : Z) (e : Z * extent) : Prop := e.1 = start_page_number e.2 ∧ valid bound e.2.

Record map_ok (bound : Z) (m : btree_map) : Prop := {
  map_keyed : Forall (keyed bound) m;
  map_sorted : StronglySorted separated m;
}.

Lemma map_ok_app b m1 m2 :
  map_ok b (m1 ++ m2) ↔
  map_ok b m1 ∧ map_ok b m2 ∧ (∀ x y, x ∈ m1 → y ∈ m2 → separated x y).
Proof.
  split.
  - intros [Hk Hs]. apply Forall_app in Hk as [? ?]. apply StronglySorted_app in Hs as (? & ? & ?).
    split_and!; [by constructor..|done].
  - intros ([? ?] & [? ?] & ?). constructor; [by apply Forall_app|by apply StronglySorted_app].
Qed.

Lemma map_ok_cons b e m :
  map_ok b (e :: m) ↔ keyed b e ∧ map_ok b m ∧ (∀ y, y ∈ m → separated e y).
Proof.
  split.
  - intros [Hk Hs]. apply Forall_cons in Hk as [? ?]. apply StronglySorted_cons in Hs as [Hf ?].
    rewrite Forall_forall in Hf. split_and!; [done|by constructor|done].
  - intros (? & [? ?] & ?). constructor; [by constructor|]. apply StronglySorted_cons.
    split; [by apply Forall_forall|done].
Qed.

Lemma keyed_elem b m e : map_ok b m → e ∈ m → keyed b e.
Proof. intros [Hk _]. rewrite Forall_forall in Hk. by apply Hk. Qed.

(** Splitting the map at a key. *)
Lemma map_split b m k :
  map_ok b m →
  m = filter (λ e, e.1 ≤ k) m ++ filter (λ e, k < e.1) m.
Proof.
  induction m as [|e m IH]; [done|]. intros (Hk & Hm & Hs)%map_ok_cons.
  destruct (decide (e.1 ≤ k)).
  - rewrite filter_cons_True, filter_cons_False by lia. simpl. f_equal. by apply IH.
  - rewrite filter_cons_False, (filter_cons_True _ _ m) by lia.
    assert (Hall : Forall (λ y, k < y.1) m).
    { apply Forall_forall. intros y Hy. specialize (Hs y Hy). destruct Hk as [? [? ? ?]].
      destruct (keyed_elem _ _ _ Hm Hy) as [? _]. unfold separated in Hs. lia. }
    rewrite filter_none, (filter_keep _ m) by
      (eapply Forall_impl; [exact Hall|]; simpl; intros; lia). done.
Qed.

(** Around an entry, removal leaves the two sides. *)
Lemma map_remove_middle b m1 e m2 :
  map_ok b (m1 ++ e :: m2) → map_remove (m1 ++ e :: m2) e.1 = m1 ++ m2.
Proof.
  intros (H1 & (Hk & H2 & Hs2)%map_ok_cons & Hs)%map_ok_app. unfold map_remove.
  rewrite filter_app, filter_cons_False by (simpl; tauto).
  destruct Hk as [? [? ? ?]]. rewrite !filter_keep; [done|apply Forall_forall..]; intros y Hy.
  - specialize (Hs2 y Hy). destruct (keyed_elem _ _ _ H2 Hy) as [? _]. unfold separated in Hs2. lia.
  - specialize (Hs y e Hy ltac:(by left)). destruct (keyed_elem _ _ _ H1 Hy) as [? [? ? ?]].
    unfold separated in Hs. lia.
Qed.

(** Inserting between two sides that are separated from the new entry. *)
Lemma map_insert_middle b m1 m2 k v :
  map_ok b (m1 ++ (k, v) :: m2) → map_insert (m1 ++ m2) k v = m1 ++ (k, v) :: m2.
Proof.
  intros (H1 & (Hk & H2 & Hs2)%map_ok_cons & Hs)%map_ok_app. unfold map_insert.
  destruct Hk as [? [? ? ?]]. simpl in *.
  assert (L : Forall (λ e, e.1 < k) m1).
  { apply Forall_forall. intros y Hy. specialize (Hs y (k, v) Hy ltac:(by left)).
    destruct (keyed_elem _ _ _ H1 Hy) as [? [? ? ?]]. unfold separated in Hs. simpl in *. lia. }
  assert (U : Forall (λ e, k < e.1) m2).
  { apply Forall_forall. intros y Hy. specialize (Hs2 y Hy).
    destruct (keyed_elem _ _ _ H2 Hy) as [? _]. unfold separated in Hs2. simpl in *. lia. }
  rewrite !filter_app. rewrite (filter_keep _ m1), (filter_none _ m2), (filter_none _ m1), (filter_keep _ m2);
    [by rewrite app_nil_r|done|..]; try (eapply Forall_impl; [eassumption|]; simpl; intros; lia).
Qed.

(** ** The central freelist *)

Fixpoint sum_len (m : btree_map) : Z :=
  match m with
  | [] => 0
  | e :: m => len e.2 + sum_len m
  end.

Lemma sum_len_app m1 m2 : sum_len (m1 ++ m2) = sum_len m1 + sum_len m2.
Proof. induction m1 as [|e m1 IH]; simpl; lia. Qed.

Record central_ok (bound : Z) (c : CentralInner.t) : Prop := {
  central_map : map_ok bound (CentralInner.by_start_page_number c);
  central_sum : CentralInner.free_base_pages c = sum_len (CentralInner.by_start_page_number c);
}.

Lemma sum_len_bound b lo m :
  map_ok b m → (∀ y, y ∈ m → lo ≤ start_page_number y.2) → lo ≤ b → 0 ≤ sum_len m ≤ b - lo.
Proof.
  revert lo. induction m as [|e m IH]; intros lo Hm Hlo Hb; [simpl; lia|].
  apply map_ok_cons in Hm as ([_ [? ? ?]] & Hm & Hs). cbn [sum_len].
  destruct (IH (start_page_number e.2 + len e.2) Hm) as [? ?]; [|lia|].
  - intros y Hy. specialize (Hs y Hy). unfold separated in Hs. lia.
  - specialize (Hlo e ltac:(by left)). lia.
Qed.

Lemma sum_len_bound_0 b m : map_ok b m → 0 ≤ b → 0 ≤ sum_len m ≤ b.
Proof.
  intros Hm Hb. destruct (sum_len_bound b 0 m Hm) as [? ?]; [|lia|lia].
  intros y Hy. destruct (keyed_elem _ _ _ Hm Hy) as [_ [? ? ?]]. lia.
Qed.

Lemma map_ok_mono b b' m : map_ok b m → b ≤ b' → map_ok b' m.
Proof.
  intros [Hk Hs] ?. constructor; [|done]. eapply Forall_impl; [exact Hk|].
  intros e [? ?]. split; [done|by eapply valid_mono].
Qed.

Section central.
Context `{Build} (bound : Z) (Hbound : 0 ≤ bound < 2 ^ 64).

Lemma end_valid e : valid bound e → FreeExtent.end_page_number e = Ret (start_page_number e + len e).
Proof.
  intros [? ? ?]. unfold FreeExtent.end_page_number, checked_add.
  by rewrite (proj2 (in_width_spec _ _)) by lia.
Qed.

Lemma split_valid e n :
  valid bound e → 0 < n ≤ len e →
  FreeExtent.split_head e n =
    Ret ({| FreeExtent.start_page_number := start_page_number e; FreeExtent.len := n |},
         {| FreeExtent.start_page_number := start_page_number e + n; FreeExtent.len := len e - n |}).
Proof.
  intros [? ? ?] ?. unfold FreeExtent.split_head.
  rewrite (assert_true (_ && _)), bind_Ret by (rewrite andb_true_iff, Z.ltb_lt, Z.leb_le; lia).
  unfold FreeExtent.new.
  rewrite !assert_true, !bind_Ret by (rewrite Z.ltb_lt; lia).
  rewrite uadd_in_range, bind_Ret by lia. by rewrite usub_in_range by lia.
Qed.

(** Splitting an extent splits its pages. *)
Lemma occ_split x e n :
  0 ≤ n ≤ len e →
  occ x [e] = (occ x [{| FreeExtent.start_page_number := start_page_number e; FreeExtent.len := n |}] +
               occ x [{| FreeExtent.start_page_number := start_page_number e + n;
                         FreeExtent.len := len e - n |}])%nat.
Proof. intros ?. rewrite !occ_one. unfold inside. simpl. repeat case_decide; lia. Qed.

(** The two sides of the place where [e] goes. *)
Record place (m : btree_map) (e : extent) (l1 l2 : btree_map) : Prop := {
  place_split : m = l1 ++ l2;
  place_below : ∀ y, y ∈ l1 → start_page_number y.2 + len y.2 ≤ start_page_number e;
  place_above : ∀ y, y ∈ l2 → start_page_number e + len e ≤ start_page_number y.2;
}.

Lemma find_place m e :
  map_ok bound m → valid bound e → (∀ x, inside x e → occ x m.*2 = 0%nat) →
  place m e (filter (λ y, y.1 ≤ start_page_number e) m) (filter (λ y, start_page_number e < y.1) m).
Proof.
  intros Hm He Hd. pose proof He as [? ? ?]. constructor; [by eapply map_split| |].
  - intros y [Hle Hy]%list_elem_of_filter. destruct (keyed_elem _ _ _ Hm Hy) as [Hk [? ? ?]].
    apply Z.le_ngt. intros Hlt. specialize (Hd (start_page_number e)). rewrite Hk in Hle.
    assert (1 ≤ occ (start_page_number e) m.*2)%nat; [|unfold inside in Hd; lia].
    eapply occ_elem; [by apply list_elem_of_fmap_2|]. unfold inside. lia.
  - intros y [Hle Hy]%list_elem_of_filter. destruct (keyed_elem _ _ _ Hm Hy) as [Hk [? ? ?]].
    apply Z.le_ngt. intros Hlt. specialize (Hd (start_page_number y.2)). rewrite Hk in Hle.
    assert (1 ≤ occ (start_page_number y.2) m.*2)%nat; [|unfold inside in Hd; lia].
    eapply occ_elem; [by apply list_elem_of_fmap_2|]. unfold inside. lia.
Qed.

Definition extent_of (a z : Z) : extent :=
  {| FreeExtent.start_page_number := a; FreeExtent.len := z - a |}.

(** The merged middle [a, z) between what is left of the two sides. *)
Record merged (m : btree_map) (e : extent) (l1 l2 : btree_map) (a z : Z) : Prop := {
  merged_range : 0 < a ≤ start_page_number e ∧ start_page_number e + len e ≤ z ≤ bound;
  merged_below : ∀ y, y ∈ l1 → start_page_number y.2 + len y.2 < a;
  merged_above : ∀ y, y ∈ l2 → z < start_page_number y.2;
  merged_left : map_ok bound l1;
  merged_right : map_ok bound l2;
  merged_occ : ∀ x, (occ x m.*2 + occ x [e] =
    occ x l1.*2 + occ x l2.*2 + occ x [extent_of a z])%nat;
  merged_sum : sum_len m + len e = sum_len l1 + sum_len l2 + (z - a);
}.

Lemma merged_map_ok m e l1 l2 a z :
  merged m e l1 l2 a z → valid bound e → map_ok bound (l1 ++ (a, extent_of a z) :: l2).
Proof.
  intros [? Hb Ha ? ? _ _] [? ? ?]. apply map_ok_app. split_and!; [done| |].
  - apply map_ok_cons. split_and!; [|done|].
    + split; [done|]. constructor; simpl; lia.
    + intros y Hy. specialize (Ha y Hy). unfold separated. simpl. lia.
  - intros x y Hx [->|Hy]%elem_of_cons.
    + specialize (Hb x Hx). unfold separated. simpl. lia.
    + specialize (Hb x Hx). specialize (Ha y Hy). unfold separated. lia.
Qed.

(** Below the new extent [e] everything is merged or separated: the map is
    [l1 ++ l2] and the free block around [e] starts at [a]. *)
Record prev_absorbed (m : btree_map) (e : extent) (l1 l2 : btree_map) (a : Z) : Prop := {
  prev_above : ∀ y, y ∈ l2 → start_page_number e + len e ≤ start_page_number y.2 ∧ a ≤ y.1;
  prev_below : ∀ y, y ∈ l1 → start_page_number y.2 + len y.2 < a;
  prev_start : 0 < a ≤ start_page_number e;
  prev_ok : map_ok bound (l1 ++ l2);
  prev_occ : ∀ x, (occ x m.*2 + occ x [e] =
    occ x l1.*2 + occ x l2.*2 + occ x [extent_of a (start_page_number e + len e)])%nat;
  prev_sum : sum_len m + len e = sum_len l1 + sum_len l2 + (start_page_number e + len e - a);
}.

Lemma occ_extent_of x e :
  occ x [extent_of (start_page_number e) (start_page_number e + len e)] = occ x [e].
Proof. rewrite !occ_one. unfold inside. simpl. repeat case_decide; lia. Qed.

Lemma prev_untouched m e l1 l2 :
  map_ok bound m → valid bound e → place m e l1 l2 →
  (∀ y, y ∈ l1 → start_page_number y.2 + len y.2 < start_page_number e) →
  prev_absorbed m e l1 l2 (start_page_number e).
Proof.
  intros Hm [? ? ?] [-> Hb Ha] Hlt. constructor; try done; try lia.
  - intros y Hy. split; [by apply Ha|]. specialize (Ha y Hy).
    destruct (keyed_elem _ _ y Hm) as [-> _]; [apply elem_of_app; by right|]. lia.
  - intros x. rewrite occ_extent_of, fmap_app, occ_app. lia.
  - rewrite sum_len_app. lia.
Qed.

Lemma prev_touching m e init ps prev l2 :
  map_ok bound m → valid bound e → place m e (init ++ [(ps, prev)]) l2 →
  start_page_number prev + len prev = start_page_number e →
  prev_absorbed m e init l2 (start_page_number prev) ∧ map_remove m ps = init ++ l2.
Proof.
  intros Hm [? ? ?] [-> Hb Ha] Ht. rewrite <-app_assoc in *. cbn [app] in *.
  split; [|by apply (map_remove_middle bound init (ps, prev) l2)].
  apply map_ok_app in Hm as (Hi & (Hp & Hl2 & Hs2)%map_ok_cons & Hs).
  destruct Hp as [Hpk [? ? ?]]. simpl in *. constructor; try lia.
  - intros y Hy. specialize (Ha y Hy). destruct (keyed_elem _ _ y Hl2 Hy) as [-> _]. lia.
  - intros y Hy. apply (Hs y (ps, prev) Hy). by left.
  - apply map_ok_app. split_and!; [done..|]. intros x y Hx Hy. apply Hs; [done|]. by right.
  - intros x. rewrite !fmap_app, !occ_app, fmap_cons, !occ_cons, !occ_nil.
    unfold inside. simpl. repeat case_decide; lia.
  - rewrite !sum_len_app. simpl. lia.
Qed.

(** Taking over the neighbour below. *)
Lemma absorb_prev_spec m e :
  map_ok bound m → valid bound e → (∀ x, inside x e → occ x m.*2 = 0%nat) →
  ∃ l1 l2 a, CentralInner.absorb_prev m (start_page_number e) (len e) =
      Ret (l1 ++ l2, a, start_page_number e + len e - a) ∧ prev_absorbed m e l1 l2 a.
Proof.
  intros Hm He Hd. pose proof (find_place m e Hm He Hd) as Hpl. pose proof He as [? ? ?].
  unfold CentralInner.absorb_prev, range_to_back.
  set (l1 := filter (λ y, y.1 ≤ start_page_number e) m) in *.
  set (l2 := filter (λ y, start_page_number e < y.1) m) in *.
  assert (Hstay : (∀ y, y ∈ l1 → start_page_number y.2 + len y.2 < start_page_number e) →
    ∃ k1 k2 a, Ret (m, start_page_number e, len e) = Ret (k1 ++ k2, a, start_page_number e + len e - a) ∧
      prev_absorbed m e k1 k2 a).
  { intros Hlt. exists l1, l2, (start_page_number e). split; [|by apply prev_untouched].
    rewrite <-(place_split _ _ _ _ Hpl). do 3 f_equal. lia. }
  destruct (last l1) as [[ps prev]|] eqn:El.
  2:{ apply last_None in El. apply Hstay. intros y Hy. rewrite El in Hy. by apply not_elem_of_nil in Hy. }
  apply last_Some in El as [init El]. rewrite El in *.
  assert (Hin : (ps, prev) ∈ m).
  { rewrite (place_split _ _ _ _ Hpl). apply elem_of_app. left. apply elem_of_app. right. by left. }
  destruct (keyed_elem _ _ _ Hm Hin) as [Hpk Hpv]. simpl in Hpk, Hpv.
  rewrite (end_valid _ Hpv), bind_Ret. pose proof Hpv as [? ? ?].
  assert (Hpe : start_page_number prev + len prev ≤ start_page_number e).
  { apply (place_below _ _ _ _ Hpl (ps, prev)). apply elem_of_app. right. by left. }
  rewrite assert_true, bind_Ret by (by apply Z.leb_le).
  destruct (Z.eqb_spec (start_page_number prev + len prev) (start_page_number e)) as [Et|Et].
  - rewrite uadd_in_range, bind_Ret by lia.
    destruct (prev_touching m e init ps prev l2 Hm He Hpl Et) as [Hpa ->].
    exists init, l2, (start_page_number prev). split; [|done]. do 2 f_equal. lia.
  - apply Hstay. pose proof Hm as Hm'. rewrite (place_split _ _ _ _ Hpl) in Hm'.
    apply map_ok_app in Hm' as ((_ & _ & Hsi)%map_ok_app & _ & _). intros y [Hy|Hy]%elem_of_app.
    + specialize (Hsi y (ps, prev) Hy ltac:(by left)). unfold separated in Hsi. simpl in Hsi. lia.
    + apply list_elem_of_singleton in Hy as ->. simpl. lia.
Qed.

(** Taking over the neighbour above. *)
Lemma absorb_next_spec m e l1 l2 a :
  valid bound e → prev_absorbed m e l1 l2 a →
  ∃ l3 z, CentralInner.absorb_next (l1 ++ l2) a (start_page_number e + len e)
      (start_page_number e + len e - a) = Ret (l1 ++ l3, z - a) ∧ merged m e l1 l3 a z.
Proof.
  intros [? ? ?] [Habove Hbelow Hst Hok Hocc Hsum].
  pose proof Hok as (Hok1 & Hok2 & Hsep)%map_ok_app.
  unfold CentralInner.absorb_next, range_from_next.
  assert (filter (λ y, a ≤ y.1) (l1 ++ l2) = l2) as ->.
  { rewrite filter_app, filter_none, filter_keep; [done|apply Forall_forall..].
    - intros y Hy. by apply Habove.
    - intros y Hy. specialize (Hbelow y Hy). destruct (keyed_elem _ _ _ Hok1 Hy) as [-> [? ? ?]]. lia. }
  assert (Hstay : (∀ y, y ∈ l2 → start_page_number e + len e < start_page_number y.2) →
    merged m e l1 l2 a (start_page_number e + len e)).
  { intros Hlt. constructor; try done; lia. }
  destruct l2 as [|[ns next] l3]; cbn [head].
  { exists [], (start_page_number e + len e). split; [done|]. apply Hstay. intros y Hy.
    by apply not_elem_of_nil in Hy. }
  destruct (Habove (ns, next)) as [Hne _]; [by left|]. simpl in Hne.
  pose proof Hok2 as ([Hnk Hnv] & Hok3 & Hs3)%map_ok_cons. simpl in Hnk, Hnv. pose proof Hnv as [? ? ?].
  rewrite assert_true, bind_Ret by (apply Z.leb_le; lia).
  destruct (Z.eqb_spec (start_page_number e + len e) ns) as [Et|Et].
  - rewrite (end_valid _ Hnv), bind_Ret, usub_in_range, bind_Ret by lia.
    pose proof (map_remove_middle bound l1 (ns, next) l3 Hok) as Hrm. cbn [fst] in Hrm. rewrite Hrm.
    exists l3, (start_page_number next + len next). split; [done|]. constructor; try done; try lia.
    + intros x. rewrite Hocc, fmap_cons, !occ_cons, !occ_nil. unfold inside. simpl.
      repeat case_decide; lia.
    + rewrite Hsum. simpl. lia.
  - exists ((ns, next) :: l3), (start_page_number e + len e). split; [done|]. apply Hstay.
    intros y [->|Hy]%elem_of_cons; [simpl; lia|]. specialize (Hs3 y Hy). unfold separated in Hs3.
    simpl in Hs3. lia.
Qed.

(** Adding pages no extent holds keeps the freelist sorted, coalesced and
    counted, and adds exactly those pages. *)
Lemma central_insert_ok c e :
  central_ok bound c → valid bound e →
  (∀ x, inside x e → occ x (CentralInner.by_start_page_number c).*2 = 0%nat) →
  ∃ c', CentralInner.insert c e = Ret c' ∧ central_ok bound c' ∧
    CentralInner.free_base_pages c' = CentralInner.free_base_pages c + len e ∧
    ∀ x, occ x (CentralInner.by_start_page_number c').*2 =
         (occ x (CentralInner.by_start_page_number c).*2 + occ x [e])%nat.
Proof.
  intros [Hm Hsum] He Hd. unfold CentralInner.insert. rewrite (end_valid _ He), bind_Ret.
  destruct (absorb_prev_spec _ _ Hm He Hd) as (l1 & l2 & a & -> & Hp). rewrite bind_Ret.
  destruct (absorb_next_spec _ _ _ _ _ He Hp) as (l3 & z & -> & Hmg). rewrite bind_Ret.
  pose proof (merged_map_ok _ _ _ _ _ _ Hmg He) as Hok.
  pose proof (sum_len_bound_0 _ _ Hok ltac:(lia)) as Hsb. rewrite sum_len_app in Hsb. simpl in Hsb.
  pose proof (sum_len_bound_0 _ _ Hm ltac:(lia)). pose proof (merged_sum _ _ _ _ _ _ Hmg).
  destruct He as [? ? ?]. rewrite Hsum, uadd_in_range, bind_Ret by lia.
  eexists. split; [done|]. fold (extent_of a z). rewrite (map_insert_middle bound) by done.
  cbn [CentralInner.by_start_page_number CentralInner.free_base_pages]. split_and!.
  - constructor; [done|]. cbn. rewrite sum_len_app. simpl. lia.
  - done.
  - intros x. rewrite (merged_occ _ _ _ _ _ _ Hmg). rewrite fmap_app, fmap_cons, occ_app, occ_cons, occ_one.
    simpl. lia.
Qed.

Lemma min_by_len_elem m e : min_by_len m = Some e → e ∈ m.
Proof.
  revert e. induction m as [|y m IH]; intros e; simpl; [done|].
  destruct (min_by_len m) as [y'|]; [|intros [= ->]; by left].
  destruct (_ <=? _); intros [= ->]; [by left|right; by apply IH].
Qed.

Lemma min_by_len_None m : min_by_len m = None → m = [].
Proof. destruct m as [|y m]; simpl; [done|]. destruct (min_by_len m); [|done]. by case_match. Qed.

(** What a best-fit allocation takes out. *)
Lemma central_best_fit_ok c n :
  central_ok bound c → 0 < n →
  ∃ r c', CentralInner.allocate_best_fit c n = Ret (r, c') ∧ central_ok bound c' ∧
    match r with
    | None => c' = c ∧ ∀ y, y ∈ CentralInner.by_start_page_number c → len y.2 < n
    | Some e => valid bound e ∧ len e = n ∧
        CentralInner.free_base_pages c' = CentralInner.free_base_pages c - n ∧
        ∀ x, occ x (CentralInner.by_start_page_number c).*2 =
             (occ x (CentralInner.by_start_page_number c').*2 + occ x [e])%nat
    end.
Proof.
  intros [Hm Hsum] Hn. unfold CentralInner.allocate_best_fit.
  destruct (min_by_len _) as [[st e]|] eqn:Emin.
  2:{ exists None, c. split; [done|]. split; [by constructor|]. split; [done|].
      apply min_by_len_None in Emin. intros y Hy. apply Z.lt_nge. intros Hge.
      assert (Hx : y ∈ filter (λ e, n ≤ len e.2) (CentralInner.by_start_page_number c)).
      { by apply list_elem_of_filter. }
      rewrite Emin in Hx. by apply not_elem_of_nil in Hx. }
  apply min_by_len_elem, list_elem_of_filter in Emin as [Hle Hin]. simpl in Hle.
  apply list_elem_of_split in Hin as (m1 & m2 & Em). rewrite Em in *.
  pose proof Hm as (Hm1 & ([Hk Hv] & Hm2 & Hs2)%map_ok_cons & Hs)%map_ok_app. simpl in Hk, Hv.
  pose proof Hv as [? ? ?].
  pose proof (sum_len_bound_0 _ _ Hm ltac:(lia)) as Hsb.
  pose proof (sum_len_bound_0 _ _ Hm1 ltac:(lia)). pose proof (sum_len_bound_0 _ _ Hm2 ltac:(lia)).
  rewrite sum_len_app in Hsb, Hsum. simpl in Hsb, Hsum.
  rewrite usub_in_range, bind_Ret by lia. rewrite (split_valid e n Hv) by lia. rewrite bind_Ret.
  pose proof (map_remove_middle bound m1 (st, e) m2 Hm) as Hrm. cbn [fst] in Hrm. rewrite Hrm.
  cbn [FreeExtent.len FreeExtent.start_page_number].
  set (a := {| FreeExtent.start_page_number := start_page_number e; FreeExtent.len := n |}).
  set (rem := {| FreeExtent.start_page_number := start_page_number e + n; FreeExtent.len := len e - n |}).
  assert (Hva : valid bound a) by (constructor; simpl; lia).
  assert (Hocc : ∀ x, occ x (m1 ++ (st, e) :: m2).*2 =
            (occ x m1.*2 + occ x m2.*2 + occ x [rem] + occ x [a])%nat).
  { intros x. pose proof (occ_split x e n ltac:(lia)) as Hspl. fold a rem in Hspl.
    rewrite fmap_app, fmap_cons, occ_app, occ_cons. rewrite occ_one in Hspl. simpl. lia. }
  destruct (Z.ltb_spec 0 (len e - n)) as [Hpos|Hzero].
  - assert (Hok : map_ok bound (m1 ++ (start_page_number rem, rem) :: m2)).
    { apply map_ok_app. split_and!; [done| |].
      - apply map_ok_cons. split_and!; [|done|].
        + split; [done|]. constructor; simpl; lia.
        + intros y Hy. specialize (Hs2 y Hy). unfold separated in *. simpl in *. lia.
      - intros x y Hx [->|Hy]%elem_of_cons.
        + specialize (Hs x (st, e) Hx ltac:(by left)). unfold separated in *. simpl in *. lia.
        + apply Hs; [done|]. by right. }
    rewrite (map_insert_middle bound) by done. eexists (Some a), _. split; [done|]. split_and!; try done.
    + constructor; [done|]. cbn. rewrite sum_len_app. simpl. lia.
    + intros x. rewrite Hocc. cbn [CentralInner.by_start_page_number]. rewrite fmap_app, fmap_cons, occ_app. cbn [snd]. rewrite (occ_cons x rem m2.*2), (occ_one x rem). lia.
  - eexists (Some a), _. split; [done|]. split_and!; try done.
    + constructor; [|cbn; rewrite sum_len_app; lia]. apply map_ok_app. split_and!; [done..|].
      intros x y Hx Hy. apply Hs; [done|]. by right.
    + intros x. rewrite Hocc. cbn [CentralInner.by_start_page_number]. rewrite fmap_app, occ_app. rewrite (occ_0 x [rem]); [lia|].
      constructor; [|constructor]. unfold inside, rem. simpl. lia.
Qed.

End central.
