(* ===== verification/FreePagesSpec.v ===== *)
(** * Free-page allocator: every page number is handed out once

    The operations of the allocator, run one at a time, conserve pages: a
    page number is held in at most one place, an allocation removes exactly
    the page it returns, and a promotion adds exactly the extent it is given.
    Module [Race] interleaves the accesses of the lock-free monotonic path. *)

From S2P Require Import Prelude Bytes FrameKernel FreePages FreePagesInv.
#[local] Open Scope Z_scope.
Import FreeExtent (start_page_number, len).

(** ** The pages an allocator holds *)

Definition tail_of (m : MonotonicRange.t) : extent :=
  extent_of (MonotonicRange.next_page_number m) (MonotonicRange.end_page_number m).
Definition shard_extents (sh : FreePageShard.t) : list extent :=
  concat (FreePageShard.buckets sh) ++ [tail_of (FreePageShard.monotonic sh)].
Definition central_extents (c : CentralInner.t) : list extent :=
  (CentralInner.by_start_page_number c).*2.
Definition extents (s : FreePageAllocator.t) : list extent :=
  central_extents (FreePageAllocator.central s) ++
  concat (shard_extents <$> FreePageAllocator.shards s).

Record mono_ok (bound : Z) (m : MonotonicRange.t) : Prop := {
  mono_range :
    MonotonicRange.next_page_number m = 0 ∧ MonotonicRange.end_page_number m = 0 ∨
    0 < MonotonicRange.next_page_number m ≤ MonotonicRange.end_page_number m ∧
    MonotonicRange.end_page_number m ≤ bound;
}.

Record shard_ok (bound : Z) (sh : FreePageShard.t) : Prop := {
  shard_buckets : length (FreePageShard.buckets sh) = length HOT_BUCKET_LIMITS;
  shard_valid : Forall (Forall (valid bound)) (FreePageShard.buckets sh);
  shard_mono : mono_ok bound (FreePageShard.monotonic sh);
}.

Notation cursor := FreePageAllocator.global_next_page_number (only parsing).

(** [inv s es]: the allocator is well formed while the caller holds the
    extents [es] that it took out of it. *)
Record inv (s : FreePageAllocator.t) (es : list extent) : Prop := {
  inv_shards : (0 < length (FreePageAllocator.shards s))%nat;
  inv_cursor : 0 < cursor s < 2 ^ 64;
  inv_central : central_ok (cursor s) (FreePageAllocator.central s);
  inv_shard : Forall (shard_ok (cursor s)) (FreePageAllocator.shards s);
  inv_held : Forall (valid (cursor s)) es;
  inv_once : ∀ x, (occ x (extents s) + occ x es ≤ 1)%nat;
}.

(** Page [x] is available: held by the allocator or the caller, or fresh. *)
Definition available (s : FreePageAllocator.t) (es : list extent) (x : Z) : Prop :=
  (occ x (extents s) + occ x es)%nat = 1%nat ∨ cursor s ≤ x.

Definition conserves (s : FreePageAllocator.t) (es : list extent)
    (s' : FreePageAllocator.t) (es' : list extent) : Prop :=
  inv s' es' ∧ length (FreePageAllocator.shards s') = length (FreePageAllocator.shards s) ∧
  cursor s' = cursor s ∧ ∀ x, available s' es' x ↔ available s es x.

Lemma conserves_refl s es : inv s es → conserves s es s es.
Proof. intros. by split. Qed.

Lemma conserves_trans s es s1 es1 s2 es2 :
  conserves s es s1 es1 → conserves s1 es1 s2 es2 → conserves s es s2 es2.
Proof.
  intros (_ & L1 & C1 & A1) (I2 & L2 & C2 & A2). split_and!; [done|congruence|congruence|].
  intros x. by rewrite A2, A1.
Qed.

(** A step that keeps the cursor and the count of every page conserves. *)
Lemma conserves_count s es s' es' :
  inv s es → cursor s' = cursor s →
  length (FreePageAllocator.shards s') = length (FreePageAllocator.shards s) →
  central_ok (cursor s) (FreePageAllocator.central s') →
  Forall (shard_ok (cursor s)) (FreePageAllocator.shards s') →
  Forall (valid (cursor s)) es' →
  (∀ x, (occ x (extents s') + occ x es' = occ x (extents s) + occ x es)%nat) →
  conserves s es s' es'.
Proof.
  intros [? ? _ _ _ Ho] Hc Hl Hce Hsh Hh Hocc. split_and!; [|done|done|].
  - constructor; rewrite ?Hc; try done; [lia|]. intros x. by rewrite Hocc.
  - intros x. unfold available. by rewrite Hocc, Hc.
Qed.

Lemma occ_tail_zero x m : mono_ok 0 m → occ x [tail_of m] = 0%nat.
Proof. intros [Hm]. apply occ_0. constructor; [|constructor]. unfold inside. simpl. lia. Qed.

Lemma occ_shards x i sh sh' (l : list FreePageShard.t) :
  l !! i = Some sh →
  (occ x (concat (shard_extents <$> <[i := sh']> l)) + occ x (shard_extents sh) =
   occ x (concat (shard_extents <$> l)) + occ x (shard_extents sh'))%nat.
Proof.
  revert i. induction l as [|s0 l IH]; intros [|i] Hi; simplify_eq/=.
  - rewrite !occ_app. lia.
  - rewrite !occ_app. specialize (IH i Hi). lia.
Qed.

Section ops.
Context `{Build}.
Implicit Types (s : FreePageAllocator.t) (es : list extent) (e : extent).

Lemma inv_cursor_bound s es : inv s es → 0 ≤ cursor s < 2 ^ 64.
Proof. intros Hi. pose proof (inv_cursor _ _ Hi). lia. Qed.

(** Replacing the central freelist. *)
Lemma occ_with_central s c x :
  (occ x (extents (FreePageAllocator.with_central s c)) +
   occ x (central_extents (FreePageAllocator.central s)) =
   occ x (extents s) + occ x (central_extents c))%nat.
Proof. unfold extents. simpl. rewrite !occ_app. lia. Qed.

Lemma occ_with_shard s i sh sh' x :
  FreePageAllocator.shards s !! i = Some sh →
  (occ x (extents (FreePageAllocator.with_shard s i sh')) + occ x (shard_extents sh) =
   occ x (extents s) + occ x (shard_extents sh'))%nat.
Proof.
  intros Hi. unfold extents. simpl. rewrite !occ_app. pose proof (occ_shards x i sh sh' _ Hi). lia.
Qed.

(** [promote_reusable_extent] takes an extent the caller holds. *)
Lemma promote_ok s e es :
  inv s (e :: es) →
  ∃ s', FreePageAllocator.promote_reusable_extent s e = Ret s' ∧ conserves s (e :: es) s' es.
Proof.
  intros Hi. pose proof (inv_held _ _ Hi) as [Hv Hes]%Forall_cons.
  destruct (central_insert_ok _ (inv_cursor_bound _ _ Hi) _ e (inv_central _ _ Hi) Hv)
    as (c' & E & Hc' & _ & Ho).
  { intros x Hx. pose proof (inv_once _ _ Hi x) as H1. rewrite occ_cons, decide_True in H1 by done.
    unfold extents in H1. rewrite occ_app in H1. unfold central_extents in H1. lia. }
  unfold FreePageAllocator.promote_reusable_extent. rewrite E, bind_Ret. eexists. split; [done|].
  apply conserves_count; try done; [apply Hi|].
  intros x. pose proof (occ_with_central s c' x) as H1. unfold central_extents in H1.
  rewrite Ho in H1. rewrite (occ_cons x e es), <-(occ_one x e). lia.
Qed.

Lemma position_le_bound n limits b : position_le n limits = Some b → (b < length limits)%nat.
Proof.
  revert b. induction limits as [|l ls IH]; intros b; simpl; [done|].
  destruct (_ <=? _); [intros [= <-]; lia|]. destruct (position_le n ls) as [k|]; [|done].
  intros [= <-]. specialize (IH k eq_refl). lia.
Qed.

(** Putting an extent the caller holds into a hot bucket, or back into the
    central freelist when it is too long. *)
Lemma return_remainder_ok s i e es :
  inv s (e :: es) → (i < length (FreePageAllocator.shards s))%nat →
  ∃ s', FreePageAllocator.return_remainder s i e = Ret s' ∧ conserves s (e :: es) s' es.
Proof.
  intros Hi Hlt. unfold FreePageAllocator.return_remainder.
  destruct (lookup_lt_is_Some_2 _ _ Hlt) as [sh Hsh]. rewrite Hsh. cbn [expect]. rewrite bind_Ret.
  pose proof (inv_held _ _ Hi) as [Hv Hes]%Forall_cons.
  pose proof (Forall_lookup_1 _ _ _ _ (inv_shard _ _ Hi) Hsh) as [Hbl Hbv Hm].
  unfold FreePageShard.push. destruct (hot_bucket_for_len (len e)) as [b|] eqn:Eb.
  2:{ rewrite bind_Ret. by apply promote_ok. }
  apply position_le_bound in Eb. destruct (lookup_lt_is_Some_2 (FreePageShard.buckets sh) b) as [q Hq]; [lia|].
  rewrite Hq. cbn [expect]. rewrite !bind_Ret. eexists. split; [done|].
  set (sh' := {| FreePageShard.buckets := _; FreePageShard.monotonic := _ |}).
  apply conserves_count; try done; try apply Hi.
  - simpl. by rewrite length_insert.
  - apply Forall_insert; [apply Hi|]. constructor; simpl; [by rewrite length_insert| |done].
    apply Forall_insert; [done|]. apply Forall_app. split; [|by constructor].
    by apply (Forall_lookup_1 _ _ _ _ Hbv Hq).
  - intros x. pose proof (occ_with_shard s i sh sh' x Hsh) as H1.
    assert (occ x (shard_extents sh') = (occ x (shard_extents sh) + occ x [e])%nat) as H2.
    { unfold shard_extents, sh'. simpl. rewrite !occ_app.
      rewrite insert_take_drop by lia. rewrite <-(take_drop_middle _ _ _ Hq) at 3.
      rewrite !concat_app. simpl. rewrite !occ_app. lia. }
    rewrite (occ_cons x e es), <-(occ_one x e). lia.
Qed.

Lemma pop_first_spec bs k e bs' :
  FreePageShard.pop_first bs k = Some (e, bs') → concat bs ≡ₚ e :: concat bs' ∧ length bs' = length bs.
Proof.
  revert k bs'. induction bs as [|q bs IH]; intros [|k] bs' E; simpl in E; [done|done|..].
  - destruct q as [|e' q].
    + destruct (FreePageShard.pop_first bs 0) as [[e1 b1]|] eqn:E1; [|done]. simplify_eq/=.
      destruct (IH 0%nat b1 E1) as [-> ->]. done.
    + simplify_eq/=. done.
  - destruct (FreePageShard.pop_first bs k) as [[e1 b1]|] eqn:E1; [|done]. simplify_eq/=.
    destruct (IH k b1 E1) as [-> ->]. split; [|done]. by rewrite Permutation_middle.
Qed.

Lemma pop_first_valid b bs k e bs' :
  Forall (Forall (valid b)) bs → FreePageShard.pop_first bs k = Some (e, bs') →
  valid b e ∧ Forall (Forall (valid b)) bs'.
Proof.
  revert k bs'. induction bs as [|q bs IH]; intros [|k] bs' Hv E; simpl in E; [done|done|..];
    apply Forall_cons in Hv as [Hq Hv].
  - destruct q as [|e' q].
    + destruct (FreePageShard.pop_first bs 0) as [[e1 b1]|] eqn:E1; [|done]. simplify_eq/=.
      destruct (IH 0%nat b1 Hv E1) as [? ?]. split; [done|by constructor].
    + simplify_eq/=. apply Forall_cons in Hq as [? ?]. split; [done|by constructor].
  - destruct (FreePageShard.pop_first bs k) as [[e1 b1]|] eqn:E1; [|done]. simplify_eq/=.
    destruct (IH k b1 Hv E1) as [? ?]. split; [done|by constructor].
Qed.

(** The result of a one-page allocation attempt. *)
Definition took s es (r : option extent) s' : Prop :=
  match r with
  | None => conserves s es s' es
  | Some a => len a = 1 ∧ conserves s es s' (a :: es)
  end.

Lemma took_trans s es s1 r s2 : conserves s es s1 es → took s1 es r s2 → took s es r s2.
Proof.
  destruct r as [a|]; simpl; [|by apply conserves_trans].
  intros ? [? ?]. split; [done|by eapply conserves_trans].
Qed.

Lemma allocate_from_shard_ok s i es :
  inv s es → (i < length (FreePageAllocator.shards s))%nat →
  ∃ r s', FreePageAllocator.allocate_from_shard s i 1 = Ret (r, s') ∧ took s es r s'.
Proof.
  intros Hi Hlt. unfold FreePageAllocator.allocate_from_shard.
  destruct (lookup_lt_is_Some_2 _ _ Hlt) as [sh Hsh]. rewrite Hsh. cbn [expect]. rewrite bind_Ret.
  pose proof (Forall_lookup_1 _ _ _ _ (inv_shard _ _ Hi) Hsh) as [Hbl Hbv Hm].
  unfold FreePageShard.pop_at_least. change (hot_bucket_for_len 1) with (Some 0%nat). cbn iota.
  destruct (FreePageShard.pop_first (FreePageShard.buckets sh) 0) as [[e bs]|] eqn:Ep.
  2:{ exists None, s. split; [done|]. by apply conserves_refl. }
  destruct (pop_first_spec _ _ _ _ Ep) as [Hperm Hlen]. destruct (pop_first_valid _ _ _ _ _ Hbv Ep) as [Hv Hbv'].
  pose proof Hv as [? ? ?]. rewrite debug_assert_true, !bind_Ret by (apply Z.leb_le; lia).
  rewrite (split_valid _ (inv_cursor_bound _ _ Hi) e 1 Hv) by lia. rewrite bind_Ret.
  cbn [FreeExtent.len].
  set (sh' := {| FreePageShard.buckets := bs; FreePageShard.monotonic := FreePageShard.monotonic sh |}).
  set (a := {| FreeExtent.start_page_number := start_page_number e; FreeExtent.len := 1 |}).
  set (rem := {| FreeExtent.start_page_number := start_page_number e + 1; FreeExtent.len := len e - 1 |}).
  assert (Hva : valid (cursor s) a) by (constructor; simpl; lia).
  assert (Hcount : ∀ x, (occ x (extents (FreePageAllocator.with_shard s i sh')) + occ x [e] = occ x (extents s))%nat).
  { intros x. pose proof (occ_with_shard s i sh sh' x Hsh) as H1.
    unfold shard_extents in H1. simpl in H1. rewrite !occ_app in H1. rewrite Hperm in H1.
    rewrite (occ_cons x e), <-(occ_one x e) in H1. lia. }
  assert (Hsok : Forall (shard_ok (cursor s)) (<[i := sh']> (FreePageAllocator.shards s))).
  { apply Forall_insert; [apply Hi|]. constructor; [by trans (length (FreePageShard.buckets sh))|done|done]. }
  assert (Hspl : ∀ x, occ x [e] = (occ x [a] + occ x [rem])%nat) by (intros x; apply occ_split; lia).
  assert (Hconsa : ∀ es' x, occ x (a :: es') = (occ x [a] + occ x es')%nat).
  { intros es' x. by rewrite (occ_cons x a es'), <-(occ_one x a). }
  destruct (Z.ltb_spec 0 (len e - 1)) as [Hpos|Hz].
  - assert (Hvr : valid (cursor s) rem) by (constructor; simpl; lia).
    assert (Hc1 : conserves s es (FreePageAllocator.with_shard s i sh') (rem :: a :: es)).
    { apply conserves_count; simpl; try done; try apply Hi.
      - by rewrite length_insert.
      - constructor; [done|]. constructor; [done|apply Hi].
      - intros x. rewrite (occ_cons x rem), <-(occ_one x rem), Hconsa. specialize (Hcount x).
        specialize (Hspl x). lia. }
    destruct (return_remainder_ok (FreePageAllocator.with_shard s i sh') i rem (a :: es)) as (s' & -> & Hc2).
    { apply Hc1. }
    { simpl. by rewrite length_insert. }
    rewrite bind_Ret. exists (Some a), s'. split; [done|]. split; [done|by eapply conserves_trans].
  - rewrite bind_Ret. exists (Some a), (FreePageAllocator.with_shard s i sh'). split; [done|]. split; [done|].
    apply conserves_count; simpl; try done; try apply Hi.
    + by rewrite length_insert.
    + constructor; [done|apply Hi].
    + intros x. rewrite Hconsa. specialize (Hcount x). specialize (Hspl x).
      rewrite (occ_0 x [rem]) in Hspl; [lia|]. constructor; [|constructor]. unfold inside, rem. simpl. lia.
Qed.

(** Taking an extent out of the central freelist. *)
Lemma central_take_ok s es n :
  inv s es → 0 < n →
  ∃ r c', CentralInner.allocate_best_fit (FreePageAllocator.central s) n = Ret (r, c') ∧
    match r with
    | None => c' = FreePageAllocator.central s
    | Some e => len e = n ∧ conserves s es (FreePageAllocator.with_central s c') (e :: es)
    end.
Proof.
  intros Hi Hn. destruct (central_best_fit_ok _ (inv_cursor_bound _ _ Hi) _ n (inv_central _ _ Hi) Hn)
    as (r & c' & E & Hc' & Hr). exists r, c'. split; [done|]. destruct r as [e|]; [|by destruct Hr].
  destruct Hr as (Hv & Hl & _ & Ho). split; [done|].
  apply conserves_count; try done; try apply Hi.
  - constructor; [done|apply Hi].
  - intros x. pose proof (occ_with_central s c' x) as H1. unfold central_extents in H1. rewrite Ho in H1.
    rewrite (occ_cons x e es), <-(occ_one x e). lia.
Qed.

Lemma with_central_same s : FreePageAllocator.with_central s (FreePageAllocator.central s) = s.
Proof. by destruct s. Qed.

Lemma refill_shard_ok s i es :
  inv s es → (i < length (FreePageAllocator.shards s))%nat →
  ∃ s', FreePageAllocator.refill_shard s i 1 = Ret s' ∧ conserves s es s' es.
Proof.
  intros Hi Hlt. unfold FreePageAllocator.refill_shard.
  change (hot_bucket_for_len 1) with (Some 0%nat). cbn iota.
  change (expect (last HOT_BUCKET_LIMITS)) with (Ret 256). rewrite bind_Ret.
  change (Z.min (saturating_mul 64 1 HOT_REFILL_BATCH) 256) with 8.
  assert (Hret : ∀ e c, conserves s es (FreePageAllocator.with_central s c) (e :: es) →
    ∃ s', FreePageAllocator.return_remainder (FreePageAllocator.with_central s c) i e = Ret s' ∧
          conserves s es s' es).
  { intros e c Hc. destruct (return_remainder_ok (FreePageAllocator.with_central s c) i e es) as (s' & E & Hc');
      [apply Hc|done|]. exists s'. split; [done|by eapply conserves_trans]. }
  destruct (central_take_ok s es 8 Hi ltac:(lia)) as ([e|] & c1 & -> & Hr); rewrite bind_Ret.
  { destruct Hr as [_ Hc]. by apply Hret. }
  subst c1. destruct (central_take_ok s es 1 Hi ltac:(lia)) as ([e|] & c2 & -> & Hr); rewrite bind_Ret.
  { destruct Hr as [_ Hc]. by apply Hret. }
  subst c2. rewrite with_central_same. exists s. split; [done|]. by apply conserves_refl.
Qed.

Lemma steal_ok s es idxs :
  inv s es → Forall (λ i, (i < length (FreePageAllocator.shards s))%nat) idxs →
  ∃ r s', FreePageAllocator.steal s 1 idxs = Ret (r, s') ∧ took s es r s'.
Proof.
  revert s. induction idxs as [|i idxs IH]; intros s Hi Hf.
  { exists None, s. split; [done|]. by apply conserves_refl. }
  apply Forall_cons in Hf as [Hlt Hf]. cbn [FreePageAllocator.steal].
  destruct (allocate_from_shard_ok s i es Hi Hlt) as ([a|] & s1 & -> & Ht); rewrite bind_Ret.
  { by exists (Some a), s1. }
  simpl in Ht. pose proof Ht as (Hi1 & Hl1 & _).
  destruct (IH s1 Hi1) as (r & s' & E & Ht'); [by rewrite Hl1|].
  exists r, s'. split; [done|]. by eapply took_trans.
Qed.

Lemma steal_order_bound i n : (0 < n)%nat → Forall (λ j, (j < n)%nat) (FreePageAllocator.steal_order i n).
Proof.
  intros Hn. unfold FreePageAllocator.steal_order. apply Forall_fmap, Forall_forall. intros k _.
  simpl. apply Nat.mod_upper_bound. lia.
Qed.

Lemma allocate_extent_ok s es hint :
  inv s es → ∃ r s', FreePageAllocator.allocate_extent s 1 hint = Ret (r, s') ∧ took s es r s'.
Proof.
  intros Hi. pose proof (inv_shards _ _ Hi) as Hpos. unfold FreePageAllocator.allocate_extent.
  set (i := (hint mod length (FreePageAllocator.shards s))%nat).
  assert (Hlt : (i < length (FreePageAllocator.shards s))%nat) by (apply Nat.mod_upper_bound; lia).
  destruct (allocate_from_shard_ok s i es Hi Hlt) as ([a|] & s1 & -> & T1); rewrite bind_Ret.
  { by exists (Some a), s1. }
  simpl in T1. pose proof T1 as (I1 & L1 & _).
  destruct (refill_shard_ok s1 i es I1 ltac:(lia)) as (s2 & -> & T2). rewrite bind_Ret.
  pose proof T2 as (I2 & L2 & _). pose proof (conserves_trans _ _ _ _ _ _ T1 T2) as T12.
  destruct (allocate_from_shard_ok s2 i es I2 ltac:(lia)) as ([a|] & s3 & -> & T3); rewrite bind_Ret.
  { exists (Some a), s3. split; [done|]. by eapply took_trans. }
  simpl in T3. pose proof T3 as (I3 & L3 & _). pose proof (conserves_trans _ _ _ _ _ _ T12 T3) as T13.
  destruct (steal_ok s3 es (FreePageAllocator.steal_order i (length (FreePageAllocator.shards s3))) I3)
    as ([a|] & s4 & -> & T4); [apply steal_order_bound; lia|rewrite bind_Ret..].
  { exists (Some a), s4. split; [done|]. by eapply took_trans. }
  simpl in T4. pose proof T4 as (I4 & L4 & _). pose proof (conserves_trans _ _ _ _ _ _ T13 T4) as T14.
  destruct (central_take_ok s4 es 1 I4 ltac:(lia)) as ([a|] & c & -> & Hr); rewrite bind_Ret; cbn [fst snd].
  - destruct Hr as [Hl Hc]. exists (Some a), (FreePageAllocator.with_central s4 c). split; [done|].
    split; [done|by eapply conserves_trans].
  - subst c. rewrite with_central_same. by exists None, s4.
Qed.

(** ** Monotonic growth *)

Lemma try_allocate_ok b m :
  mono_ok b m → b + 2 < 2 ^ 64 →
  ∃ r m', MonotonicRange.try_allocate m 1 = Ret (r, m') ∧
    match r with
    | Some e => e = {| FreeExtent.start_page_number := MonotonicRange.next_page_number m; FreeExtent.len := 1 |} ∧
        valid b e ∧ mono_ok b m' ∧ ∀ x, occ x [tail_of m] = (occ x [tail_of m'] + occ x [e])%nat
    | None => (∀ x, occ x [tail_of m] = 0%nat) ∧
        MonotonicRange.next_page_number m' = MonotonicRange.next_page_number m + 1 ∧
        MonotonicRange.end_page_number m' = MonotonicRange.end_page_number m
    end.
Proof.
  intros [Hm] Hb. unfold MonotonicRange.try_allocate.
  destruct (Z.eqb_spec (MonotonicRange.next_page_number m) 0) as [E0|E0].
  { eexists None, _. split; [done|]. split_and!; try done.
    - intros x. apply occ_0. constructor; [|constructor]. unfold inside. simpl. lia.
    - simpl. apply wrap_small. lia. }
  destruct Hm as [?|[Hr Hbb]]; [lia|]. unfold checked_add.
  rewrite (proj2 (in_width_spec _ _)) by lia. cbn [expect]. rewrite bind_Ret.
  cbn [MonotonicRange.end_page_number].
  destruct (Z.leb_spec (MonotonicRange.next_page_number m + 1) (MonotonicRange.end_page_number m)).
  - unfold FreeExtent.new. rewrite !assert_true, !bind_Ret by (apply Z.ltb_lt; lia).
    eexists (Some _), _. split; [done|]. split_and!; [done|by constructor; simpl; lia| |].
    + constructor. simpl. rewrite wrap_small by lia. right. lia.
    + intros x. rewrite !occ_one. unfold inside. simpl. rewrite wrap_small by lia. repeat case_decide; lia.
  - eexists None, _. split; [done|]. split_and!; try done.
    + intros x. apply occ_0. constructor; [|constructor]. unfold inside. simpl. lia.
    + simpl. apply wrap_small. lia.
Qed.

(** The second attempt, under the refill lock, fails as well. *)
Lemma try_allocate_again b m m' :
  mono_ok b m → b + 2 < 2 ^ 64 → (∀ x, occ x [tail_of m] = 0%nat) →
  MonotonicRange.next_page_number m' = MonotonicRange.next_page_number m + 1 →
  MonotonicRange.end_page_number m' = MonotonicRange.end_page_number m →
  ∃ m'', MonotonicRange.try_allocate m' 1 = Ret (None, m'').
Proof.
  intros [Hm] Hb Hz Hn He. unfold MonotonicRange.try_allocate.
  rewrite (proj2 (Z.eqb_neq _ _)) by lia. unfold checked_add.
  rewrite (proj2 (in_width_spec _ _)) by lia. cbn [expect]. rewrite bind_Ret.
  cbn [MonotonicRange.end_page_number]. rewrite (proj2 (Z.leb_gt _ _)); [by eexists|].
  specialize (Hz (MonotonicRange.next_page_number m)). rewrite occ_one in Hz.
  case_decide as Hd; [done|]. unfold inside in Hd. simpl in Hd. lia.
Qed.

(** Nothing at or above the cursor is held. *)
Lemma fresh_unheld s es x : inv s es → cursor s ≤ x → (occ x (extents s) + occ x es)%nat = 0%nat.
Proof.
  intros Hi Hx. rewrite (occ_beyond x (cursor s) es) by (apply Hi || done).
  enough (occ x (extents s) = 0)%nat by lia. unfold extents. rewrite occ_app.
  rewrite (occ_beyond x (cursor s) (central_extents _)); [simpl| |done].
  2:{ apply Forall_fmap. eapply Forall_impl; [apply (map_keyed _ _ (central_map _ _ (inv_central _ _ Hi)))|].
      by intros y [_ ?]. }
  pose proof (inv_shard _ _ Hi) as Hsh. revert Hsh. generalize (cursor s) Hx. clear Hx Hi.
  intros g Hx Hsh. induction Hsh as [|sh l [_ Hv [Hmm]] Hl IH]; [done|].
  rewrite fmap_cons. cbn [concat]. rewrite occ_app, IH.
  unfold shard_extents. rewrite occ_app, (occ_0 x [_]).
  - rewrite (occ_beyond x g); [done| |done]. clear - Hv. induction Hv; simpl; [constructor|].
    by apply Forall_app.
  - constructor; [|constructor]. unfold inside. simpl. lia.
Qed.

Lemma buckets_mono b b' (bs : list (list extent)) :
  Forall (Forall (valid b)) bs → b ≤ b' → Forall (Forall (valid b')) bs.
Proof.
  intros Hv ?. eapply Forall_impl; [exact Hv|]. intros q Hq. eapply Forall_impl; [exact Hq|].
  intros y Hy. by eapply valid_mono.
Qed.

Lemma shard_ok_mono b b' sh : shard_ok b sh → b ≤ b' → shard_ok b' sh.
Proof.
  intros [? Hv [Hm]] ?. constructor; [done|by eapply buckets_mono|]. constructor. lia.
Qed.

(** Growing by one reservation of 256 pages, of which the first is held by
    the caller and the rest by shard [i]. *)
Definition grown s (i : nat) (sh : FreePageShard.t) : FreePageAllocator.t :=
  let g := cursor s in
  FreePageAllocator.with_shard
    {| FreePageAllocator.global_next_page_number := g + 256;
       FreePageAllocator.shards := FreePageAllocator.shards s;
       FreePageAllocator.central := FreePageAllocator.central s |} i
    {| FreePageShard.buckets := FreePageShard.buckets sh;
       FreePageShard.monotonic := {| MonotonicRange.next_page_number := g + 1;
                                     MonotonicRange.end_page_number := g + 256 |} |}.

Definition first_fresh s : extent :=
  {| FreeExtent.start_page_number := cursor s; FreeExtent.len := 1 |}.

(** What an allocation that may grow the file guarantees. *)
Definition granted s es e s' : Prop :=
  len e = 1 ∧ inv s' (e :: es) ∧ cursor s ≤ cursor s' ≤ cursor s + 256 ∧
  ∀ x, available s' (e :: es) x ↔ available s es x.

Lemma grown_granted s es i sh :
  inv s es → cursor s + 256 < 2 ^ 64 → FreePageAllocator.shards s !! i = Some sh →
  (∀ x, occ x [tail_of (FreePageShard.monotonic sh)] = 0%nat) →
  granted s es (first_fresh s) (grown s i sh).
Proof.
  intros Hi Hb Hsh Hz. pose proof (inv_cursor _ _ Hi).
  pose proof (Forall_lookup_1 _ _ _ _ (inv_shard _ _ Hi) Hsh) as [Hbl Hbv Hm].
  assert (Hcount : ∀ x, (occ x (extents (grown s i sh)) + occ x (first_fresh s :: es) =
            occ x (extents s) + occ x es + occ x [extent_of (cursor s) (cursor s + 256)])%nat).
  { intros x. set (sh' := {| FreePageShard.buckets := FreePageShard.buckets sh;
       FreePageShard.monotonic := {| MonotonicRange.next_page_number := cursor s + 1;
                                     MonotonicRange.end_page_number := cursor s + 256 |} |}).
    pose proof (occ_with_shard s i sh sh' x Hsh) as H1. unfold shard_extents in H1. simpl in H1.
    rewrite !occ_app, Hz in H1. rewrite (occ_cons x _ es), <-(occ_one x).
    assert (occ x [extent_of (cursor s) (cursor s + 256)] =
            (occ x [first_fresh s] + occ x [tail_of (FreePageShard.monotonic sh')])%nat) as ->.
    { rewrite !occ_one. unfold inside. simpl. repeat case_decide; lia. }
    unfold grown, extents, sh' in *. simpl in *. lia. }
  split; [done|]. split_and!; [|simpl; lia..|].
  - constructor; simpl; try lia.
    + rewrite length_insert. apply Hi.
    + destruct (inv_central _ _ Hi) as [? ?]. constructor; [|done]. eapply map_ok_mono; [done|lia].
    + apply Forall_insert.
      * eapply Forall_impl; [apply Hi|]. intros sh0 ?. eapply shard_ok_mono; [done|lia].
      * constructor; [done|eapply buckets_mono; [done|lia]|constructor; simpl; lia].
    + constructor; [constructor; simpl; lia|]. eapply Forall_impl; [apply Hi|]. intros y Hy.
      eapply valid_mono; [exact Hy|lia].
    + intros x. pose proof (Hcount x) as Hc. simpl in Hc. rewrite Hc. pose proof (inv_once _ _ Hi x).
      rewrite occ_one. case_decide as Hd; [|lia]. unfold inside in Hd. simpl in Hd.
      rewrite fresh_unheld by (done || lia). lia.
  - intros x. unfold available. rewrite Hcount. simpl. rewrite occ_one. unfold inside. simpl.
    destruct (decide (cursor s ≤ x)) as [Hx|Hx].
    + rewrite fresh_unheld by done. case_decide; lia.
    + rewrite decide_False by lia. rewrite Nat.add_0_r. lia.
Qed.

Lemma monotonic_ok s es hint :
  inv s es → cursor s + 258 < 2 ^ 64 →
  ∃ e s', FreePageAllocator.allocate_monotonic_extent s 1 hint = Ret (e, s') ∧ granted s es e s'.
Proof.
  intros Hi Hb. pose proof (inv_shards _ _ Hi) as Hpos. pose proof (inv_cursor _ _ Hi).
  unfold FreePageAllocator.allocate_monotonic_extent.
  set (i := (hint mod length (FreePageAllocator.shards s))%nat).
  assert (Hlt : (i < length (FreePageAllocator.shards s))%nat) by (apply Nat.mod_upper_bound; lia).
  destruct (lookup_lt_is_Some_2 _ _ Hlt) as [sh Hsh]. rewrite Hsh. cbn [expect]. rewrite bind_Ret.
  pose proof (Forall_lookup_1 _ _ _ _ (inv_shard _ _ Hi) Hsh) as [Hbl Hbv Hm].
  destruct (try_allocate_ok _ _ Hm ltac:(lia)) as ([e|] & m1 & E1 & T1); rewrite E1, bind_Ret.
  - destruct T1 as (-> & Hv & Hm1 & Ho). eexists _, _. split; [done|]. split; [done|].
    set (e := {| FreeExtent.len := 1 |}) in *.
    set (sh' := {| FreePageShard.monotonic := m1 |}).
    assert (Hc : conserves s es (FreePageAllocator.with_shard s i sh') (e :: es)).
    { apply conserves_count; simpl; try done; try apply Hi.
      - by rewrite length_insert.
      - apply Forall_insert; [apply Hi|]. by constructor.
      - constructor; [done|apply Hi].
      - intros x. pose proof (occ_with_shard s i sh sh' x Hsh) as H1. unfold shard_extents in H1. simpl in H1.
        rewrite !occ_app, Ho in H1. rewrite (occ_cons x _ es), <-(occ_one x). unfold extents in *. simpl in *. lia. }
    destruct Hc as (? & _ & _ & ?). split_and!; [done|simpl; lia..|done].
  - destruct T1 as (Hz & Hn1 & He1).
    destruct (try_allocate_again _ _ _ Hm ltac:(lia) Hz Hn1 He1) as [m2 E2]. rewrite E2, bind_Ret.
    change (Z.max MONOTONIC_REFILL_BASE_PAGES 1) with 256. unfold FreeExtent.new.
    rewrite !assert_true, !bind_Ret by (apply Z.ltb_lt; lia). unfold checked_add.
    rewrite !(proj2 (in_width_spec _ _)) by lia. cbn [expect]. rewrite !bind_Ret, wrap_small by lia.
    exists (first_fresh s), (grown s i sh). split; [done|]. apply grown_granted; try done. lia.
Qed.

Lemma granted_trans s es s1 e s2 : conserves s es s1 es → granted s1 es e s2 → granted s es e s2.
Proof.
  intros (_ & _ & C & A) (L & I & B & A'). split_and!; try done; try lia.
  intros x. by rewrite A', A.
Qed.

Lemma allocate_page_granted s es hint :
  inv s es → cursor s + 258 < 2 ^ 64 →
  ∃ e s', FreePageAllocator.allocate_page s hint = Ret (start_page_number e, s') ∧ granted s es e s'.
Proof.
  intros Hi Hb. unfold FreePageAllocator.allocate_page.
  destruct (allocate_extent_ok s es hint Hi) as ([a|] & s1 & -> & T); rewrite bind_Ret; simpl in T.
  - destruct T as (L & I & _ & C & A). exists a, s1. split; [done|]. split_and!; try done; lia.
  - pose proof T as (I1 & L1 & C1 & _).
    destruct (monotonic_ok s1 es hint I1 ltac:(lia)) as (e & s2 & -> & G). rewrite bind_Ret.
    exists e, s2. split; [done|by eapply granted_trans].
Qed.

(** Handing the page out: it stops being available, nothing else changes. *)
Lemma granted_drop s e s' :
  granted s [] e s' →
  inv s' [] ∧ cursor s ≤ cursor s' ≤ cursor s + 256 ∧ 0 < start_page_number e ∧
  available s [] (start_page_number e) ∧ ¬ available s' [] (start_page_number e) ∧
  (∀ x, x ≠ start_page_number e → available s' [] x ↔ available s [] x).
Proof.
  intros (L & [I1 I2 I3 I4 I5 I6] & B & A). apply Forall_cons in I5 as [[V1 V2 V3] _].
  assert (Hin : inside (start_page_number e) e) by (unfold inside; lia).
  split_and!; try lia.
  - constructor; try done. intros x. specialize (I6 x). rewrite occ_nil. lia.
  - apply A. left. specialize (I6 (start_page_number e)). rewrite occ_one, decide_True in * by done. lia.
  - unfold available. specialize (I6 (start_page_number e)). rewrite occ_one, decide_True in I6 by done.
    rewrite occ_nil. lia.
  - intros x Hx. rewrite <-A. unfold available. rewrite occ_one, decide_False, occ_nil; [done|].
    unfold inside. lia.
Qed.

Lemma inv_hold s e :
  inv s [] → valid (cursor s) e → (∀ x, inside x e → ¬ available s [] x) → inv s [e].
Proof.
  intros [I1 I2 I3 I4 I5 I6] Hv Hn. constructor; try done; [by constructor|].
  intros x. rewrite occ_one. specialize (I6 x). rewrite occ_nil in I6. case_decide as Hd; [|lia].
  specialize (Hn x Hd). unfold available in Hn. rewrite occ_nil in Hn. lia.
Qed.

Lemma promote_granted s e :
  inv s [] → valid (cursor s) e → (∀ x, inside x e → ¬ available s [] x) →
  ∃ s', FreePageAllocator.promote_reusable_extent s e = Ret s' ∧ inv s' [] ∧ cursor s' = cursor s ∧
    ∀ x, available s' [] x ↔ available s [] x ∨ inside x e.
Proof.
  intros Hi Hv Hn. destruct (promote_ok s e [] (inv_hold _ _ Hi Hv Hn)) as (s' & E & I & _ & C & A).
  exists s'. split_and!; try done. intros x. rewrite A. unfold available. rewrite occ_one, occ_nil.
  pose proof (inv_once _ _ Hi x) as H1. rewrite occ_nil in H1. case_decide as Hd; [|unfold inside in *; lia].
  specialize (Hn x Hd). unfold available in Hn. rewrite occ_nil in Hn. unfold inside in *; lia.
Qed.

Lemma new_inv n k :
  0 < n < 2 ^ 64 →
  ∃ s, FreePageAllocator.new n k = Ret s ∧ inv s [] ∧ cursor s = n ∧ (∀ x, available s [] x ↔ n ≤ x).
Proof.
  intros Hn. unfold FreePageAllocator.new. rewrite assert_true, bind_Ret by (apply Z.ltb_lt; lia).
  eexists. split; [done|]. set (s := {| FreePageAllocator.global_next_page_number := n |}).
  assert (Ho : ∀ x, occ x (extents s) = 0%nat).
  { intros x. unfold extents. simpl. generalize (Z.to_nat (k `max` 1)). intros m.
    induction m as [|m IH]; [done|]. simpl. rewrite occ_cons, decide_False; [exact IH|].
    unfold inside. simpl. lia. }
  split_and!; [|done|].
  - constructor; simpl; try lia.
    + rewrite length_replicate. lia.
    + constructor; [|done]. constructor; constructor.
    + apply Forall_replicate. constructor; [done| |by constructor; left].
      repeat constructor.
    + constructor.
    + intros x. rewrite Ho, occ_nil. lia.
  - intros x. unfold available. rewrite Ho, occ_nil. simpl. lia.
Qed.

End ops.

(** ** Sequences of allocations and promotions *)

Inductive request :=
| Allocate (shard_hint : nat)
| Promote (e : extent).

(** Runs the requests, tracking the pages that are in use. A promotion is the
    return of pages in use (the buffer pool promotes extents it retired). *)
Fixpoint serve `{Build} (s : FreePageAllocator.t) (live : list Z) (rs : list request)
    : outcome (FreePageAllocator.t * list Z) :=
  match rs with
  | [] => Ret (s, live)
  | Allocate hint :: rs =>
      r ← FreePageAllocator.allocate_page s hint;
      serve r.2 (r.1 :: live) rs
  | Promote e :: rs =>
      if decide (0 < len e ∧ Forall (λ x, x ∈ live) (seqZ (start_page_number e) (len e))) then
        s ← FreePageAllocator.promote_reusable_extent s e;
        serve s (filter (λ x, ¬ inside x e) live) rs
      else serve s live rs
  end.

(** The pages in use are distinct, real and not available. *)
Record tracked (s : FreePageAllocator.t) (live : list Z) : Prop := {
  tracked_inv : inv s [];
  tracked_nodup : NoDup live;
  tracked_used : Forall (λ x, 0 < x ∧ ¬ available s [] x) live;
}.

Lemma serve_tracked `{Build} s live rs :
  tracked s live → cursor s + 256 * zlen rs + 258 < 2 ^ 64 →
  ∃ s' live', serve s live rs = Ret (s', live') ∧ tracked s' live'.
Proof.
  revert s live. induction rs as [|[hint|e] rs IH]; intros s live Ht Hb; cbn [serve].
  { by exists s, live. }
  - rewrite zlen_cons in Hb. pose proof (zlen_nonneg rs). destruct Ht as [Hi Hnd Hu].
    destruct (allocate_page_granted s [] hint Hi ltac:(lia)) as (e & s' & -> & G). rewrite bind_Ret. cbn [fst snd].
    destruct (granted_drop _ _ _ G) as (I & B & P & Av & Nav & Keep). apply IH; [|lia].
    assert (Hni : start_page_number e ∉ live).
    { intros Hin. rewrite Forall_forall in Hu. by destruct (Hu _ Hin). }
    constructor; [done|by constructor|]. constructor; [done|].
    rewrite Forall_forall in Hu |- *. intros x Hx. destruct (Hu x Hx) as [? Hnx]. split; [done|].
    rewrite Keep; [done|]. intros ->. done.
  - rewrite zlen_cons in Hb. pose proof (zlen_nonneg rs). case_decide as Hd; [|apply IH; [done|lia]].
    destruct Hd as [Hl Hin]. destruct Ht as [Hi Hnd Hu]. rewrite Forall_forall in Hu, Hin.
    assert (Hins : ∀ x, inside x e → x ∈ live).
    { intros x Hx. apply Hin. apply elem_of_seqZ. exact Hx. }
    assert (Hlast : inside (start_page_number e + len e - 1) e) by (unfold inside; lia).
    assert (Hfirst : inside (start_page_number e) e) by (unfold inside; lia).
    assert (Hv : valid (cursor s) e).
    { constructor; [by apply Hu, Hins|done|]. destruct (Hu _ (Hins _ Hlast)) as [_ Hna].
      unfold available in Hna. lia. }
    destruct (promote_granted s e Hi Hv) as (s' & -> & I & C & A).
    { intros x Hx. by apply Hu, Hins. }
    rewrite bind_Ret. apply IH; [|lia]. constructor; [done|by apply NoDup_filter|].
    apply Forall_forall. intros x [Hx Hxl]%list_elem_of_filter. split; [by apply Hu|].
    rewrite A. intros [?|?]; [by destruct (Hu x Hxl)|done].
Qed.

(** C22: served one at a time, the allocator never hands a page out twice: from
    a new allocator, every sequence of allocations (with any shard hints) and
    promotions of in-use extents succeeds, the pages in use are pairwise
    distinct and never page 0, and none of them is still held by a freelist,
    a hot bucket or a monotonic reservation, or lies above the cursor. *)
Theorem allocator_pages_unique `{Build} n k rs :
  0 < n → n + 256 * zlen rs + 258 < 2 ^ 64 →
  ∃ s0 s live, FreePageAllocator.new n k = Ret s0 ∧ serve s0 [] rs = Ret (s, live) ∧
    NoDup live ∧
    Forall (λ x, 0 < x < FreePageAllocator.next_page_number s ∧ occ x (extents s) = 0%nat) live ∧
    (∀ x, (occ x (extents s) ≤ 1)%nat).
Proof.
  intros Hn Hb. pose proof (zlen_nonneg rs).
  destruct (new_inv n k ltac:(lia)) as (s0 & E0 & I0 & C0 & _).
  destruct (serve_tracked s0 [] rs) as (s & live & E & [I Nd U]).
  { constructor; [done|constructor|constructor]. }
  { rewrite C0. lia. }
  exists s0, s, live. split_and!; try done.
  - eapply Forall_impl; [exact U|]. intros x [Hx Hav]. unfold available in Hav. rewrite occ_nil in Hav.
    pose proof (inv_once _ _ I x) as H1. rewrite occ_nil in H1. unfold FreePageAllocator.next_page_number. lia.
  - intros x. pose proof (inv_once _ _ I x) as H1. rewrite occ_nil in H1. lia.
Qed.

Lemma allocator_pages_unique_witness :
  ∃ s0 s live, FreePageAllocator.new 1 2 = Ret s0 ∧
    serve (H := debug_4k) s0 [] [Allocate 0; Allocate 1; Allocate 0;
      Promote {| FreeExtent.start_page_number := 1; FreeExtent.len := 2 |}; Allocate 1] = Ret (s, live) ∧
    NoDup live.
Proof.
  destruct (@allocator_pages_unique debug_4k 1 2 [Allocate 0; Allocate 1; Allocate 0;
    Promote {| FreeExtent.start_page_number := 1; FreeExtent.len := 2 |}; Allocate 1])
    as (s0 & s & live & E0 & E & Nd & _); [lia|vm_compute; reflexivity|].
  exists s0, s, live. exact (conj E0 (conj E Nd)).
Defined.

(** The central freelist stays sorted, fully coalesced (no two extents
    overlap or touch) and correctly counted: [insert] of pages it does not
    hold adds exactly those pages, and [allocate_best_fit] either removes a
    block of exactly the requested length, or every extent is too short. *)
Theorem central_freelist_exact `{Build} bound c :
  0 ≤ bound < 2 ^ 64 → central_ok bound c →
  (∀ e, valid bound e → (∀ x, inside x e → occ x (central_extents c) = 0%nat) →
    ∃ c', CentralInner.insert c e = Ret c' ∧ central_ok bound c' ∧
      CentralInner.free_base_pages c' = CentralInner.free_base_pages c + len e ∧
      ∀ x, occ x (central_extents c') = (occ x (central_extents c) + occ x [e])%nat) ∧
  (∀ n, 0 < n →
    ∃ r c', CentralInner.allocate_best_fit c n = Ret (r, c') ∧ central_ok bound c' ∧
      match r with
      | None => c' = c ∧ ∀ y, y ∈ CentralInner.by_start_page_number c → len y.2 < n
      | Some e => valid bound e ∧ len e = n ∧
          CentralInner.free_base_pages c' = CentralInner.free_base_pages c - n ∧
          ∀ x, occ x (central_extents c) = (occ x (central_extents c') + occ x [e])%nat
      end).
Proof.
  intros Hb Hc. split.
  - intros e Hv Hd. by apply central_insert_ok.
  - intros n Hn. by apply central_best_fit_ok.
Qed.

Lemma central_freelist_exact_witness :
  ∃ c', CentralInner.insert (H := debug_4k) CentralInner.new
      {| FreeExtent.start_page_number := 5; FreeExtent.len := 3 |} = Ret c' ∧
    CentralInner.free_base_pages c' = 0 + 3.
Proof.
  destruct (@central_freelist_exact debug_4k 100 CentralInner.new) as [Hi _].
  - lia.
  - constructor; [|reflexivity]. constructor; constructor.
  - destruct (Hi {| FreeExtent.start_page_number := 5; FreeExtent.len := 3 |}) as (c' & E & _ & F & _).
    + constructor; simpl; lia.
    + reflexivity.
    + exists c'. exact (conj E F).
Defined.

(** ** Interleavings of the lock-free monotonic path

    [allocate_monotonic_extent(1, hint)] for the threads that share one
    shard, at the granularity of its atomic accesses. Each thread is a
    program counter; [step i] lets thread [i] perform its next access. The
    refill lock serialises refills, but the first [try_allocate] runs outside
    it, so it can fall between the two stores of [install_reserved_tail]. *)

Module Race.
(** Where a thread is in [allocate_monotonic_extent]. *)
Inductive pc :=
| FetchAdd (** first [try_allocate]: [next_page_number.fetch_add(1)] *)
| LoadEnd (next : Z) (** [end_page_number.load()] and the comparison *)
| Acquire (** [refill_lock.lock()] *)
| FetchAddLocked
| LoadEndLocked (next : Z)
| Reserve (** [global_next_page_number.fetch_add(256)] *)
| StoreEnd (start : Z) (** first store of [install_reserved_tail] *)
| StoreNext (start : Z) (** second store; then the lock is dropped *)
| Done (page : Z).
#[global] Instance pc_eq_dec : EqDecision pc.
Proof. solve_decision. Defined.

Record shared := {
  next_page_number : Z;
  end_page_number : Z;
  refill_locked : bool;
  global_next_page_number : Z;
  threads : list pc;
}.

Definition set_mono (s : shared) (next end_ : Z) : shared :=
  {| next_page_number := next; end_page_number := end_; refill_locked := refill_locked s;
     global_next_page_number := global_next_page_number s; threads := threads s |}.
Definition set_lock (s : shared) (b : bool) : shared :=
  {| next_page_number := next_page_number s; end_page_number := end_page_number s; refill_locked := b;
     global_next_page_number := global_next_page_number s; threads := threads s |}.
Definition goto (s : shared) (i : nat) (p : pc) : shared :=
  {| next_page_number := next_page_number s; end_page_number := end_page_number s;
     refill_locked := refill_locked s; global_next_page_number := global_next_page_number s;
     threads := <[i := p]> (threads s) |}.

(** One atomic access of thread [i]; [None] when it is blocked or finished. *)
Definition step (s : shared) (i : nat) : option shared :=
  p ← threads s !! i;
  match p with
  | FetchAdd =>
      let next := next_page_number s in
      let s := set_mono s (wrap 64 (next + 1)) (end_page_number s) in
      Some (goto s i (if next =? 0 then Acquire else LoadEnd next))
  | LoadEnd next =>
      Some (goto s i (if next + 1 <=? end_page_number s then Done next else Acquire))
  | Acquire => if refill_locked s then None else Some (goto (set_lock s true) i FetchAddLocked)
  | FetchAddLocked =>
      let next := next_page_number s in
      let s := set_mono s (wrap 64 (next + 1)) (end_page_number s) in
      Some (goto s i (if next =? 0 then Reserve else LoadEndLocked next))
  | LoadEndLocked next =>
      Some (if next + 1 <=? end_page_number s then goto (set_lock s false) i (Done next)
            else goto s i Reserve)
  | Reserve =>
      let start := global_next_page_number s in
      Some (goto {| next_page_number := next_page_number s; end_page_number := end_page_number s;
                    refill_locked := refill_locked s;
                    global_next_page_number := wrap 64 (start + MONOTONIC_REFILL_BASE_PAGES);
                    threads := threads s |} i (StoreEnd start))
  | StoreEnd start =>
      Some (goto (set_mono s (next_page_number s) (start + MONOTONIC_REFILL_BASE_PAGES)) i (StoreNext start))
  | StoreNext start =>
      Some (goto (set_lock (set_mono s (start + 1) (end_page_number s)) false) i (Done start))
  | Done _ => None
  end.

(** A schedule names the thread of each access. *)
Fixpoint run (s : shared) (schedule : list nat) : option shared :=
  match schedule with
  | [] => Some s
  | i :: schedule => s ← step s i; run s schedule
  end.

(** [n] threads at the start of the call, on the shard of a new allocator. *)
Definition start (next_page : Z) (n : nat) : shared :=
  {| next_page_number := 0; end_page_number := 0; refill_locked := false;
     global_next_page_number := next_page; threads := replicate n FetchAdd |}.

(** A single thread is served as by the sequential model. *)
Lemma run_alone n :
  0 < n → n + 256 < 2 ^ 64 →
  ∃ s, run (start n 1) [0; 0; 0; 0; 0; 0; 0]%nat = Some s ∧ threads s = [Done n] ∧
    next_page_number s = n + 1 ∧ end_page_number s = n + 256.
Proof. intros. eexists. split; [reflexivity|]. done. Qed.

(** The stale cursor of a fresh shard is [2] when the new end is published. *)
Lemma run_stale n :
  2 < n → n + 256 < 2 ^ 64 →
  ∃ s, run (start n 2) [0; 0; 0; 0; 0; 0; 1; 1]%nat = Some s ∧ threads s !! 1%nat = Some (Done 2).
Proof.
  intros. set (mid := {| next_page_number := 3; end_page_number := n + 256; refill_locked := true;
    global_next_page_number := wrap 64 (n + 256); threads := [StoreNext n; LoadEnd 2] |}).
  exists (goto mid 1 (Done 2)). split; [|done].
  change (run (start n 2) [0; 0; 0; 0; 0; 0; 1; 1]%nat) with (step mid 1 ≫= λ s, run s []).
  unfold step. cbn [threads mid lookup list_lookup mbind option_bind end_page_number].
  by rewrite (proj2 (Z.leb_le (2 + 1) (n + 256))) by lia.
Qed.

(** C36: under concurrency the lock-free path does hand pages out twice. On a
    new allocator three threads sharing a shard can be scheduled so that two
    of them are given page 2; and when the allocator starts at [n > 2] (a
    reopened store whose pages below [n] are in use), a thread can be given
    page 2 although the cursor started above it. The publication order of
    [install_reserved_tail] ([end] before [next]) is what the schedule uses. *)
Theorem monotonic_refill_race :
  (∃ schedule s, run (start 1 3) schedule = Some s ∧
    threads s !! 1%nat = Some (Done 2) ∧ threads s !! 2%nat = Some (Done 2)) ∧
  (∀ n, 2 < n → n + 256 < 2 ^ 64 →
    ∃ schedule s, run (start n 2) schedule = Some s ∧ threads s !! 1%nat = Some (Done 2)).
Proof.
  split.
  - exists [0; 0; 0; 0; 0; 0; 1; 1; 0; 2; 2]%nat. eexists. split; [reflexivity|]. done.
  - intros n H1 H2. eexists. by apply run_stale.
Qed.

Lemma monotonic_refill_race_witness :
  ∃ schedule s, run (start 1000 2) schedule = Some s ∧ threads s !! 1%nat = Some (Done 2).
Proof. apply monotonic_refill_race; lia. Defined.
End Race.
