(* ===== verification/HybridLatch.v ===== *)
(** * Hybrid latch: version word, reader/writer lock and guards

    Models [src/crates/hybrid-latch/src]: the version-word helpers, the
    methods of [HybridLatch] and its guards, and the interleaving of any
    number of threads that use one latch to protect a piece of data.

    The blocking backend ([parking_lot::RawRwLock]) is an interface: a lock
    state with the documented meaning of its operations. An attempt may fail
    at any time; a blocking acquire is an attempt repeated until it succeeds.
    Atomic accesses are interleaved sequentially consistently. *)

From S2P Require Import Prelude.
#[local] Open Scope Z_scope.

(** ** Version-word helpers ([helpers.rs]) *)

Definition EXCLUSIVE_BIT : Z := 1.
Definition CLEAR_EXCLUSIVE_BIT : Z := unot 64 EXCLUSIVE_BIT.
Definition VERSION_STEP : Z := 2.

Definition exclusive_mask (word : Z) : Z := Z.land word EXCLUSIVE_BIT.
Definition exclusive_mask_is_set (mask : Z) : bool := negb (mask =? 0).
Definition version_is_exclusive (word : Z) : bool := exclusive_mask_is_set (exclusive_mask word).
Definition optimistic_snapshot_still_valid (current snapshot : Z) : bool := current =? snapshot.
Definition optimistic_restart_required (current snapshot : Z) : bool :=
  negb (optimistic_snapshot_still_valid current snapshot).
Definition enter_exclusive_version (current : Z) : Z := Z.lor current EXCLUSIVE_BIT.
Definition exclusive_base_version (exclusive_version : Z) : Z :=
  Z.land exclusive_version CLEAR_EXCLUSIVE_BIT.
Definition can_advance_readable_version (version : Z) : bool := version <=? 18446744073709551613.
Definition advance_readable_version_checked (version : Z) : option Z :=
  checked_add 64 version VERSION_STEP.
Definition advance_readable_version (version : Z) : outcome Z :=
  _ ← assert (can_advance_readable_version version);
  expect (advance_readable_version_checked version).
Definition exit_exclusive_version `{Build} (exclusive_version : Z) : outcome Z :=
  _ ← debug_assert (version_is_exclusive exclusive_version);
  let base_version := exclusive_base_version exclusive_version in
  advance_readable_version base_version.
Definition optimistic_read_allowed (version : Z) : bool := negb (version_is_exclusive version).
Definition entered_version_disallows_optimistic_read (current : Z) : bool :=
  optimistic_read_allowed (enter_exclusive_version current).
Definition optimistic_snapshot (version : Z) : option Z :=
  if negb (optimistic_read_allowed version) then None else Some version.

(** ** The blocking backend *)

(** Who holds a reader/writer lock. *)
Inductive Holders := Readers (n : nat) | Writer.

Class RawRwLock := {
  raw : Type;
  INIT : raw;
  holders : raw → Holders;
  raw_try_lock_shared : raw → option raw;
  raw_try_lock_exclusive : raw → option raw;
  unlock_shared : raw → raw;
  unlock_exclusive : raw → raw;
  holders_INIT : holders INIT = Readers 0;
  try_lock_shared_holders l l' : raw_try_lock_shared l = Some l' →
    ∃ n, holders l = Readers n ∧ holders l' = Readers (S n);
  try_lock_exclusive_holders l l' : raw_try_lock_exclusive l = Some l' →
    holders l = Readers 0 ∧ holders l' = Writer;
  unlock_shared_holders l n : holders l = Readers (S n) → holders (unlock_shared l) = Readers n;
  unlock_exclusive_holders l : holders l = Writer → holders (unlock_exclusive l) = Readers 0;
}.

(** The lock that is exactly its holders and never fails spuriously. *)
Definition holders_lock : RawRwLock.
Proof.
  refine {|
    raw := Holders;
    INIT := Readers 0;
    holders l := l;
    raw_try_lock_shared l := match l with Readers n => Some (Readers (S n)) | Writer => None end;
    raw_try_lock_exclusive l := match l with Readers 0 => Some Writer | _ => None end;
    unlock_shared l := match l with Readers (S n) => Readers n | l => l end;
    unlock_exclusive _ := Readers 0;
  |}.
  - done.
  - intros [n|] l' E; simplify_eq. by exists n.
  - intros [[|n]|] l' E; by simplify_eq.
  - intros l n ->. done.
  - done.
Defined.

(** ** [HybridLatch] and its guards ([latch.rs]) *)

(** [Result<T, Restart>]. *)
Inductive restartable (A : Type) : Type :=
| Granted (a : A)
| Restart.
Arguments Granted {A} a.
Arguments Restart {A}.

Module OptimisticGuard.
Record t := { version : Z }.
End OptimisticGuard.
Module SharedGuard.
Record t := { version : Z }.
End SharedGuard.
Module ExclusiveGuard.
Record t := { version : Z }.
End ExclusiveGuard.

Module HybridLatch.
Section latch.
Context `{Build} `{RawRwLock}.

Record t := { version : Z; mutex : raw }.

Definition new : t := {| version := 0; mutex := INIT |}.

Definition set_version (self : t) (v : Z) : t := {| version := v; mutex := mutex self |}.
Definition set_mutex (self : t) (m : raw) : t := {| version := version self; mutex := m |}.
Definition drop_shared (self : t) : t := set_mutex self (unlock_shared (mutex self)).
Definition drop_exclusive (self : t) : t := set_mutex self (unlock_exclusive (mutex self)).

Definition optimistic_or_restart (self : t) : restartable OptimisticGuard.t :=
  match optimistic_snapshot (version self) with
  | None => Restart
  | Some snapshot => Granted {| OptimisticGuard.version := snapshot |}
  end.

(** One turn of the spin loop: [None] while the exclusive bit is set. *)
Definition optimistic_spin (self : t) : option OptimisticGuard.t :=
  if negb (version_is_exclusive (version self))
  then Some {| OptimisticGuard.version := version self |} else None.

(** The part of [lock_exclusive] and [try_lock_exclusive] that runs under the
    writer lock, with [current] the version word it loaded. *)
Definition enter (self : t) (current : Z) : outcome (ExclusiveGuard.t * t) :=
  _ ← assert (can_advance_readable_version current);
  let v := enter_exclusive_version current in
  Ret ({| ExclusiveGuard.version := v |}, set_version self v).

Definition try_lock_exclusive (self : t) : outcome (option ExclusiveGuard.t * t) :=
  match raw_try_lock_exclusive (mutex self) with
  | None => Ret (None, self)
  | Some m =>
      r ← enter (set_mutex self m) (version self);
      Ret (Some r.1, r.2)
  end.

(** The blocking form: [None] while it waits for the writer lock. *)
Definition lock_exclusive (self : t) : option (outcome (ExclusiveGuard.t * t)) :=
  match raw_try_lock_exclusive (mutex self) with
  | None => None
  | Some m => Some (enter (set_mutex self m) (version self))
  end.

Definition try_lock_shared (self : t) : option SharedGuard.t * t :=
  match raw_try_lock_shared (mutex self) with
  | None => (None, self)
  | Some m => (Some {| SharedGuard.version := version self |}, set_mutex self m)
  end.

(** The blocking form: [None] while it waits for the reader lock. *)
Definition lock_shared (self : t) : option (SharedGuard.t * t) :=
  match raw_try_lock_shared (mutex self) with
  | None => None
  | Some m => Some ({| SharedGuard.version := version self |}, set_mutex self m)
  end.

(** [OptimisticGuard::validate]. *)
Definition validate (self : t) (g : OptimisticGuard.t) : restartable unit :=
  if optimistic_restart_required (version self) (OptimisticGuard.version g)
  then Restart else Granted tt.

(** The part of the exclusive upgrades that runs under the writer lock: the
    assertion and the compare-exchange of the version word. *)
Definition upgrade_cas (self : t) (g : OptimisticGuard.t)
    : outcome (restartable ExclusiveGuard.t * t) :=
  let snapshot := OptimisticGuard.version g in
  _ ← assert (can_advance_readable_version snapshot);
  let new_version := enter_exclusive_version snapshot in
  if version self =? snapshot
  then Ret (Granted {| ExclusiveGuard.version := new_version |}, set_version self new_version)
  else Ret (Restart, drop_exclusive self).

Definition upgrade_to_exclusive (self : t) (g : OptimisticGuard.t)
    : option (outcome (restartable ExclusiveGuard.t * t)) :=
  match raw_try_lock_exclusive (mutex self) with
  | None => None
  | Some m => Some (upgrade_cas (set_mutex self m) g)
  end.

Definition try_upgrade_to_exclusive (self : t) (g : OptimisticGuard.t)
    : outcome (restartable ExclusiveGuard.t * t) :=
  match raw_try_lock_exclusive (mutex self) with
  | None => Ret (Restart, self)
  | Some m => upgrade_cas (set_mutex self m) g
  end.

(** The part of the shared upgrades that runs under the reader lock. *)
Definition upgrade_check (self : t) (g : OptimisticGuard.t) : restartable SharedGuard.t * t :=
  let snapshot := OptimisticGuard.version g in
  if negb (optimistic_snapshot_still_valid (version self) snapshot)
  then (Restart, drop_shared self)
  else (Granted {| SharedGuard.version := snapshot |}, self).

Definition upgrade_to_shared (self : t) (g : OptimisticGuard.t)
    : option (restartable SharedGuard.t * t) :=
  match raw_try_lock_shared (mutex self) with
  | None => None
  | Some m => Some (upgrade_check (set_mutex self m) g)
  end.

Definition try_upgrade_to_shared (self : t) (g : OptimisticGuard.t) : restartable SharedGuard.t * t :=
  match raw_try_lock_shared (mutex self) with
  | None => (Restart, self)
  | Some m => upgrade_check (set_mutex self m) g
  end.

(** [Drop for ExclusiveGuard], before the inner guard unlocks. *)
Definition drop_guard (self : t) (g : ExclusiveGuard.t) : outcome t :=
  new_version ← exit_exclusive_version (ExclusiveGuard.version g);
  Ret (set_version self new_version).

End latch.
End HybridLatch.

(** [LatchGuard]: an optimistic or a shared guard. *)
Inductive LatchGuard :=
| OptimisticLatch (g : OptimisticGuard.t)
| SharedLatch (g : SharedGuard.t).

Definition latch_guard_validate `{RawRwLock} (l : HybridLatch.t) (g : LatchGuard) : restartable unit :=
  match g with
  | OptimisticLatch g => HybridLatch.validate l g
  | SharedLatch _ => Granted tt
  end.
