(* ===== verification/LatchSpec.v ===== *)
(** * Hybrid latch: threads

    Any number of threads use one latch to protect a value. Each method of
    the latch is cut at its atomic accesses ([lock] acquisition, version load,
    version store, compare-exchange, unlock), and the threads interleave in
    any order. Optimistic readers record the values they observe. *)

From S2P Require Import Prelude HybridLatch.
#[local] Open Scope Z_scope.

(** ** Version words *)

Lemma land_1 v : Z.land v 1 = v mod 2.
Proof. change 1 with (Z.ones 1). by rewrite Z.land_ones by lia. Qed.

Lemma version_is_exclusive_odd v : version_is_exclusive v = Z.odd v.
Proof.
  unfold version_is_exclusive, exclusive_mask_is_set, exclusive_mask, EXCLUSIVE_BIT.
  rewrite land_1, Zmod_odd. by destruct (Z.odd v).
Qed.

Lemma enter_even v : Z.odd v = false → enter_exclusive_version v = v + 1.
Proof.
  intros Ho. unfold enter_exclusive_version, EXCLUSIVE_BIT. apply lor_disjoint_add.
  rewrite land_1, Zmod_odd. by rewrite Ho.
Qed.

Lemma base_odd v : 0 ≤ v < 2 ^ 64 → Z.odd v = true → exclusive_base_version v = v - 1.
Proof.
  intros Hv Ho. unfold exclusive_base_version, CLEAR_EXCLUSIVE_BIT, EXCLUSIVE_BIT.
  enough (v = Z.land v (unot 64 1) + 1) by lia.
  rewrite <-(lor_disjoint_add (Z.land v (unot 64 1)) 1).
  - bit_eq i. destruct (decide (i = 0)) as [->|].
    + rewrite Z.bit0_odd, Ho. done.
    + assert (Z.testbit 1 i = false) as -> by (apply (testbit_above 1); lia).
      rewrite orb_false_r. destruct (Z.ltb_spec i 64); [by rewrite andb_true_r|].
      by rewrite (testbit_above 64 v) by lia.
  - bit_eq i. destruct (decide (i = 0)) as [->|]; [by rewrite andb_false_r|].
    by rewrite (testbit_above 1 1), !andb_false_r by lia.
Qed.

Lemma exit_odd `{Build} v :
  0 ≤ v < 2 ^ 64 → Z.odd v = true → v - 1 ≤ 18446744073709551613 →
  exit_exclusive_version v = Ret (v + 1).
Proof.
  intros Hv Ho Hb. unfold exit_exclusive_version. rewrite version_is_exclusive_odd, Ho.
  rewrite debug_assert_true, bind_Ret by done. rewrite base_odd by done.
  unfold advance_readable_version, can_advance_readable_version, advance_readable_version_checked.
  rewrite assert_true, bind_Ret by (apply Z.leb_le; lia). unfold checked_add, VERSION_STEP.
  rewrite (proj2 (in_width_spec _ _)) by lia. simpl. f_equal. lia.
Qed.

Lemma odd_succ_even v : Z.odd v = true → Z.odd (v + 1) = false.
Proof. intros Ho. rewrite Z.odd_add, Ho. done. Qed.
Lemma even_succ_odd v : Z.odd v = false → Z.odd (v + 1) = true.
Proof. intros Ho. rewrite Z.odd_add, Ho. done. Qed.

(** ** Threads *)

Section threads.
Context `{Build} `{RawRwLock} {D : Type}.

Inductive thread :=
| Idle
| Optimistic (g : OptimisticGuard.t) (reads : list D)
| ExclusiveLocked (** writer lock held, version word not loaded yet *)
| ExclusiveLoaded (current : Z)
| Exclusive (g : ExclusiveGuard.t)
| ExclusiveDropped (** version word stored, writer lock still held *)
| UpgradingExclusive (g : OptimisticGuard.t) (reads : list D) (** before the CAS *)
| SharedLocked (** reader lock held, version word not loaded yet *)
| Shared (g : SharedGuard.t) (reads : list D)
| UpgradingShared (g : OptimisticGuard.t) (reads : list D) (** before the check *)
| Panicked.

Record world := {
  latch : HybridLatch.t;
  data : D;
  threads : list thread;
}.

(** What a thread can do next. *)
Inductive action :=
| Snapshot (** [optimistic_or_restart], or a turn of [optimistic_spin] *)
| ReadData
| Validate
| AcquireExclusive | LoadVersion | EnterExclusive (** [lock_exclusive] *)
| WriteData (d : D)
| DropExclusive | UnlockExclusive (** [Drop for ExclusiveGuard] *)
| UpgradeExclusive | CompareExchange (** [upgrade_to_exclusive] *)
| AcquireShared | LoadShared (** [lock_shared] *)
| UpgradeShared | CheckShared (** [upgrade_to_shared] *)
| UnlockShared
| Abandon. (** dropping an optimistic guard, also on a failed [try_upgrade_*] *)

Definition put (w : world) (i : nat) (t : thread) (l : HybridLatch.t) : world :=
  {| latch := l; data := data w; threads := <[i := t]> (threads w) |}.

Definition act (w : world) (i : nat) (a : action) : option world :=
  t ← threads w !! i;
  let l := latch w in
  match t, a with
  | Idle, Snapshot =>
      match HybridLatch.optimistic_or_restart l with
      | Granted g => Some (put w i (Optimistic g []) l)
      | Restart => Some w
      end
  | Optimistic g rs, ReadData => Some (put w i (Optimistic g (rs ++ [data w])) l)
  | Optimistic g rs, Validate =>
      match HybridLatch.validate l g with
      | Granted _ => Some w
      | Restart => Some (put w i Idle l)
      end
  | Optimistic _ _, Abandon => Some (put w i Idle l)
  | Idle, AcquireExclusive =>
      m ← raw_try_lock_exclusive (HybridLatch.mutex l);
      Some (put w i ExclusiveLocked (HybridLatch.set_mutex l m))
  | ExclusiveLocked, LoadVersion => Some (put w i (ExclusiveLoaded (HybridLatch.version l)) l)
  | ExclusiveLoaded current, EnterExclusive =>
      match HybridLatch.enter l current with
      | Ret (g, l) => Some (put w i (Exclusive g) l)
      | Panic => Some (put w i Panicked (HybridLatch.drop_exclusive l))
      end
  | Exclusive _, WriteData d => Some {| latch := l; data := d; threads := threads w |}
  | Exclusive g, DropExclusive =>
      match HybridLatch.drop_guard l g with
      | Ret l => Some (put w i ExclusiveDropped l)
      | Panic => Some (put w i Panicked (HybridLatch.drop_exclusive l))
      end
  | ExclusiveDropped, UnlockExclusive => Some (put w i Idle (HybridLatch.drop_exclusive l))
  | Optimistic g rs, UpgradeExclusive =>
      m ← raw_try_lock_exclusive (HybridLatch.mutex l);
      Some (put w i (UpgradingExclusive g rs) (HybridLatch.set_mutex l m))
  | UpgradingExclusive g rs, CompareExchange =>
      match HybridLatch.upgrade_cas l g with
      | Ret (Granted g, l) => Some (put w i (Exclusive g) l)
      | Ret (Restart, l) => Some (put w i Idle l)
      | Panic => Some (put w i Panicked (HybridLatch.drop_exclusive l))
      end
  | Idle, AcquireShared =>
      m ← raw_try_lock_shared (HybridLatch.mutex l);
      Some (put w i SharedLocked (HybridLatch.set_mutex l m))
  | SharedLocked, LoadShared =>
      Some (put w i (Shared {| SharedGuard.version := HybridLatch.version l |} []) l)
  | Shared g rs, ReadData => Some (put w i (Shared g (rs ++ [data w])) l)
  | Optimistic g rs, UpgradeShared =>
      m ← raw_try_lock_shared (HybridLatch.mutex l);
      Some (put w i (UpgradingShared g rs) (HybridLatch.set_mutex l m))
  | UpgradingShared g rs, CheckShared =>
      match HybridLatch.upgrade_check l g with
      | (Granted g, l) => Some (put w i (Shared g rs) l)
      | (Restart, l) => Some (put w i Idle l)
      end
  | Shared _ _, UnlockShared => Some (put w i Idle (HybridLatch.drop_shared l))
  | _, _ => None
  end.

(** One step of some thread. *)
Definition step (w w' : world) : Prop := ∃ i a, act w i a = Some w'.

(** Runs a schedule of (thread, action) pairs. *)
Fixpoint run (w : world) (schedule : list (nat * action)) : option world :=
  match schedule with
  | [] => Some w
  | (i, a) :: schedule => w ← act w i a; run w schedule
  end.

Definition initial (d : D) (n : nat) : world :=
  {| latch := HybridLatch.new; data := d; threads := replicate n Idle |}.

(** ** Invariant *)

Definition holds_exclusive (t : thread) : bool :=
  match t with
  | ExclusiveLocked | ExclusiveLoaded _ | Exclusive _ | ExclusiveDropped | UpgradingExclusive _ _ => true
  | _ => false
  end.
Definition holds_shared (t : thread) : bool :=
  match t with
  | SharedLocked | Shared _ _ | UpgradingShared _ _ => true
  | _ => false
  end.
(** In its critical section: the exclusive bit is set by this thread. *)
Definition is_exclusive (t : thread) : bool :=
  match t with Exclusive _ => true | _ => false end.

(** What an optimistic snapshot [s] with observations [rs] knows. *)
Definition snapshot_ok (v : Z) (d : D) (s : Z) (rs : list D) : Prop :=
  Z.odd s = false ∧ s ≤ v ∧ (v = s → Forall (λ x, x = d) rs).

Definition thread_ok (v : Z) (d : D) (t : thread) : Prop :=
  match t with
  | Idle | Panicked => True
  | Optimistic g rs => snapshot_ok v d (OptimisticGuard.version g) rs
  | ExclusiveLocked | ExclusiveDropped | SharedLocked => Z.odd v = false
  | ExclusiveLoaded c => c = v ∧ Z.odd v = false
  | Exclusive g => ExclusiveGuard.version g = v ∧ Z.odd v = true ∧ v - 1 ≤ 18446744073709551613
  | UpgradingExclusive g rs | UpgradingShared g rs =>
      Z.odd v = false ∧ snapshot_ok v d (OptimisticGuard.version g) rs
  | Shared g rs => SharedGuard.version g = v ∧ Z.odd v = false ∧ Forall (λ x, x = d) rs
  end.

Definition lock_ok (m : raw) (ts : list thread) : Prop :=
  match holders m with
  | Writer => count holds_exclusive ts = 1%nat ∧ count holds_shared ts = 0%nat
  | Readers n => count holds_exclusive ts = 0%nat ∧ count holds_shared ts = n
  end.

Record inv (w : world) : Prop := {
  inv_version : 0 ≤ HybridLatch.version (latch w) < 2 ^ 64;
  inv_lock : lock_ok (HybridLatch.mutex (latch w)) (threads w);
  inv_odd : Z.odd (HybridLatch.version (latch w)) = true → (1 ≤ count is_exclusive (threads w))%nat;
  inv_threads : ∀ i t, threads w !! i = Some t → thread_ok (HybridLatch.version (latch w)) (data w) t;
}.

Lemma initial_inv d n : inv (initial d n).
Proof.
  constructor; simpl.
  - lia.
  - unfold lock_ok. rewrite holders_INIT. by rewrite !count_replicate.
  - done.
  - intros i t Hi. apply lookup_replicate in Hi as [-> _]. done.
Qed.

(** *** Consequences *)

Lemma exclusive_holds t : is_exclusive t = true → holds_exclusive t = true.
Proof. by destruct t. Qed.

Lemma count_exclusive_le ts : (count is_exclusive ts ≤ count holds_exclusive ts)%nat.
Proof.
  unfold count. induction ts as [|t ts IH]; [done|]. rewrite !filter_cons.
  destruct t; simpl; lia.
Qed.

(** While no writer lock is held the word is readable. *)
Lemma unlocked_even w n :
  inv w → holders (HybridLatch.mutex (latch w)) = Readers n → Z.odd (HybridLatch.version (latch w)) = false.
Proof.
  intros [_ Hl Ho _] E. unfold lock_ok in Hl. rewrite E in Hl.
  destruct (Z.odd _); [|done]. specialize (Ho eq_refl). pose proof (count_exclusive_le (threads w)). lia.
Qed.

(** A thread that holds the writer lock is alone. *)
Lemma alone w i t j u :
  inv w → threads w !! i = Some t → holds_exclusive t = true →
  threads w !! j = Some u → j ≠ i → holds_exclusive u = false ∧ holds_shared u = false.
Proof.
  intros [_ Hl _ _] Hi Ht Hj Hne. unfold lock_ok in Hl.
  pose proof (count_pos holds_exclusive _ _ _ Hi Ht). split; apply not_true_iff_false; intros Hu.
  - pose proof (count_two holds_exclusive _ _ _ _ _ Hi Hj (not_eq_sym Hne) Ht Hu). destruct (holders _); lia.
  - pose proof (count_pos holds_shared _ _ _ Hj Hu). destruct (holders _); lia.
Qed.

Lemma writer_locked w i t :
  inv w → threads w !! i = Some t → holds_exclusive t = true →
  holders (HybridLatch.mutex (latch w)) = Writer.
Proof.
  intros [_ Hl _ _] Hi Ht. pose proof (count_pos holds_exclusive _ _ _ Hi Ht). unfold lock_ok in Hl.
  destruct (holders _); [lia|done].
Qed.

Lemma reader_locked w i t :
  inv w → threads w !! i = Some t → holds_shared t = true →
  ∃ n, holders (HybridLatch.mutex (latch w)) = Readers (S n).
Proof.
  intros [_ Hl _ _] Hi Ht. pose proof (count_pos holds_shared _ _ _ Hi Ht). unfold lock_ok in Hl.
  destruct (holders _) as [[|n]|]; [lia|by exists n|lia].
Qed.

(** *** Updating one thread *)

Lemma inv_update w i t t' l' d' :
  inv w → threads w !! i = Some t → 0 ≤ HybridLatch.version l' < 2 ^ 64 →
  lock_ok (HybridLatch.mutex l') (<[i := t']> (threads w)) →
  (Z.odd (HybridLatch.version l') = true → (1 ≤ count is_exclusive (<[i := t']> (threads w)))%nat) →
  thread_ok (HybridLatch.version l') d' t' →
  (∀ j u, j ≠ i → threads w !! j = Some u → thread_ok (HybridLatch.version l') d' u) →
  inv {| latch := l'; data := d'; threads := <[i := t']> (threads w) |}.
Proof.
  intros Hi Ht Hv Hl Ho Hok Hoth. constructor; simpl; try done. intros j u Hj.
  destruct (decide (j = i)) as [->|Hne].
  - rewrite list_lookup_insert_eq in Hj by (by eapply lookup_lt_Some). by simplify_eq.
  - rewrite list_lookup_insert_ne in Hj by done. by eapply Hoth.
Qed.

(** A step that keeps latch, data and lock class of the thread. *)
Lemma inv_local w i t t' :
  inv w → threads w !! i = Some t →
  holds_exclusive t' = holds_exclusive t → holds_shared t' = holds_shared t →
  is_exclusive t' = is_exclusive t →
  thread_ok (HybridLatch.version (latch w)) (data w) t' → inv (put w i t' (latch w)).
Proof.
  intros Hi Ht E1 E2 E3 Hok. pose proof Hi as [Hv Hl Ho Hth].
  pose proof (count_insert holds_exclusive _ _ _ t' Ht) as C1. rewrite E1 in C1.
  pose proof (count_insert holds_shared _ _ _ t' Ht) as C2. rewrite E2 in C2.
  pose proof (count_insert is_exclusive _ _ _ t' Ht) as C3. rewrite E3 in C3.
  eapply inv_update; try done.
  - unfold lock_ok in *. destruct (holders _); lia.
  - intros. specialize (Ho ltac:(done)). lia.
  - intros. by eapply Hth.
Qed.

(** Taking and releasing the lock. *)
Lemma inv_lock_change w i t t' m :
  inv w → threads w !! i = Some t → is_exclusive t = false → is_exclusive t' = false →
  lock_ok m (<[i := t']> (threads w)) →
  thread_ok (HybridLatch.version (latch w)) (data w) t' →
  inv (put w i t' (HybridLatch.set_mutex (latch w) m)).
Proof.
  intros Hi Ht E E' Hl' Hok. pose proof Hi as [Hv Hl Ho Hth].
  pose proof (count_insert is_exclusive _ _ _ t' Ht) as C3. rewrite E, E' in C3.
  eapply inv_update; try done.
  - intros. specialize (Ho ltac:(done)). lia.
  - intros. by eapply Hth.
Qed.

Lemma inv_acquire_exclusive w i t t' m :
  inv w → threads w !! i = Some t → holds_exclusive t = false → holds_shared t = false →
  raw_try_lock_exclusive (HybridLatch.mutex (latch w)) = Some m →
  holds_exclusive t' = true → holds_shared t' = false → is_exclusive t' = false →
  (Z.odd (HybridLatch.version (latch w)) = false → thread_ok (HybridLatch.version (latch w)) (data w) t') →
  inv (put w i t' (HybridLatch.set_mutex (latch w) m)).
Proof.
  intros Hi Ht Hx Hs Hm Hx' Hs' He' Hok. apply try_lock_exclusive_holders in Hm as [Hf Hw].
  pose proof (unlocked_even w _ Hi Hf) as Heven.
  pose proof (count_insert holds_exclusive _ _ _ t' Ht) as C1. rewrite Hx, Hx' in C1.
  pose proof (count_insert holds_shared _ _ _ t' Ht) as C2. rewrite Hs, Hs' in C2.
  eapply inv_lock_change; try done.
  - by destruct t.
  - pose proof (inv_lock _ Hi) as Hl. unfold lock_ok in *. rewrite Hf in Hl. rewrite Hw. lia.
  - by apply Hok.
Qed.

Lemma inv_acquire_shared w i t t' m :
  inv w → threads w !! i = Some t → holds_exclusive t = false → holds_shared t = false →
  raw_try_lock_shared (HybridLatch.mutex (latch w)) = Some m →
  holds_exclusive t' = false → holds_shared t' = true →
  (Z.odd (HybridLatch.version (latch w)) = false → thread_ok (HybridLatch.version (latch w)) (data w) t') →
  inv (put w i t' (HybridLatch.set_mutex (latch w) m)).
Proof.
  intros Hi Ht Hx Hs Hm Hx' Hs' Hok. apply try_lock_shared_holders in Hm as (n & Hf & Hw).
  pose proof (unlocked_even w _ Hi Hf) as Heven.
  pose proof (count_insert holds_exclusive _ _ _ t' Ht) as C1. rewrite Hx, Hx' in C1.
  pose proof (count_insert holds_shared _ _ _ t' Ht) as C2. rewrite Hs, Hs' in C2.
  eapply inv_lock_change; try done.
  - by destruct t.
  - by destruct t'.
  - pose proof (inv_lock _ Hi) as Hl. unfold lock_ok in *. rewrite Hf in Hl. rewrite Hw. lia.
  - by apply Hok.
Qed.

Lemma inv_release_exclusive w i t t' :
  inv w → threads w !! i = Some t → holds_exclusive t = true → is_exclusive t = false →
  t' = Idle ∨ t' = Panicked → inv (put w i t' (HybridLatch.drop_exclusive (latch w))).
Proof.
  intros Hi Ht Hx He Ht'. pose proof (writer_locked w i t Hi Ht Hx) as Hw.
  assert (Hs : holds_shared t = false) by (by destruct t).
  assert (holds_exclusive t' = false ∧ holds_shared t' = false ∧ is_exclusive t' = false) as (E1 & E2 & E3)
    by (by destruct Ht' as [-> | ->]).
  pose proof (count_insert holds_exclusive _ _ _ t' Ht) as C1. rewrite Hx, E1 in C1.
  pose proof (count_insert holds_shared _ _ _ t' Ht) as C2. rewrite Hs, E2 in C2.
  eapply inv_lock_change; try done.
  - pose proof (inv_lock _ Hi) as Hl. unfold lock_ok in *. rewrite Hw in Hl.
    rewrite (unlock_exclusive_holders _ Hw). lia.
  - by destruct Ht' as [-> | ->].
Qed.

Lemma inv_release_shared w i t :
  inv w → threads w !! i = Some t → holds_shared t = true →
  inv (put w i Idle (HybridLatch.drop_shared (latch w))).
Proof.
  intros Hi Ht Hs. destruct (reader_locked w i t Hi Ht Hs) as [n Hw].
  assert (Hx : holds_exclusive t = false) by (by destruct t).
  pose proof (count_insert holds_exclusive _ _ _ Idle Ht) as C1. rewrite Hx in C1.
  pose proof (count_insert holds_shared _ _ _ Idle Ht) as C2. rewrite Hs in C2. simpl in C1, C2.
  eapply inv_lock_change; try done.
  - by destruct t.
  - pose proof (inv_lock _ Hi) as Hl. unfold lock_ok in *. rewrite Hw in Hl.
    rewrite (unlock_shared_holders _ _ Hw). lia.
Qed.

(** A thread that holds no lock is not disturbed by a larger, different word. *)
Lemma unlocked_thread_ok v v' d d' u :
  thread_ok v d u → holds_exclusive u = false → holds_shared u = false → v ≤ v' →
  (∀ s, Z.odd s = false → s ≤ v → v' = s → v = s ∧ d = d') → thread_ok v' d' u.
Proof.
  intros Hok Hx Hs Hle Hne. destruct u; try done. simpl in *.
  destruct Hok as (He & Hsv & Hrs). split_and!; [done|lia|]. intros E.
  destruct (Hne _ He Hsv E) as [Ev <-]. by apply Hrs.
Qed.

(** Changing the version word under the writer lock. *)
Lemma inv_version_change w i t t' v' :
  inv w → threads w !! i = Some t → holds_exclusive t = true → holds_exclusive t' = true →
  0 ≤ v' < 2 ^ 64 → HybridLatch.version (latch w) < v' →
  (Z.odd v' = true → is_exclusive t' = true) → thread_ok v' (data w) t' →
  inv (put w i t' (HybridLatch.set_version (latch w) v')).
Proof.
  intros Hi Ht Hx Hx' Hv' Hlt Ho' Hok. pose proof (inv_lock _ Hi) as Hl.
  assert (Hs : holds_shared t = false) by (by destruct t).
  assert (Hs' : holds_shared t' = false) by (by destruct t').
  pose proof (count_insert holds_exclusive _ _ _ t' Ht) as C1. rewrite Hx, Hx' in C1.
  pose proof (count_insert holds_shared _ _ _ t' Ht) as C2. rewrite Hs, Hs' in C2.
  eapply inv_update; try done; simpl.
  - unfold lock_ok in *. destruct (holders _); lia.
  - intros Ho. eapply (count_pos _ _ i); [|by apply Ho'].
    apply list_lookup_insert_eq. by eapply lookup_lt_Some.
  - intros j u Hne Hj. destruct (alone w i t j u Hi Ht Hx Hj Hne).
    eapply unlocked_thread_ok; [by eapply (inv_threads _ Hi)|done|done|lia|].
    intros s _ Hs0 E. lia.
Qed.

(** Writing the data in a critical section. *)
Lemma inv_write w i g d :
  inv w → threads w !! i = Some (Exclusive g) →
  inv {| latch := latch w; data := d; threads := threads w |}.
Proof.
  intros Hi Ht. pose proof Hi as [Hv Hl Ho Hth]. constructor; try done. intros j u Hj. simpl in *.
  pose proof (Hth _ _ Ht) as (Hg & Hodd & Hb).
  destruct (decide (j = i)) as [->|Hne]; [by simplify_eq|].
  destruct (alone w i _ j u Hi Ht eq_refl Hj Hne).
  eapply unlocked_thread_ok; [by eapply Hth|done|done|lia|]. intros s Hs _ E. congruence.
Qed.
End threads.

(** * Hybrid latch: what the guards promise

    Every step of every thread keeps the invariant of LatchThreads; the
    theorems read off what the three kinds of guard guarantee. *)

#[local] Open Scope Z_scope.

Section steps.
Context `{Build} `{RawRwLock} {D : Type}.
Implicit Types (w : @world _ D) (t : @thread D).

Notation ver w := (HybridLatch.version (latch w)).

Lemma can_advance_le v : can_advance_readable_version v = true → v ≤ 18446744073709551613.
Proof. apply Z.leb_le. Qed.

Lemma step_snapshot w i g :
  inv w → threads w !! i = Some Idle → HybridLatch.optimistic_or_restart (latch w) = Granted g →
  inv (put w i (Optimistic g []) (latch w)).
Proof.
  intros Hi Ht E. eapply inv_local; try done. unfold HybridLatch.optimistic_or_restart in E.
  destruct (optimistic_snapshot _) as [s|] eqn:Es; [|done]. simplify_eq. simpl.
  unfold optimistic_snapshot, optimistic_read_allowed in Es. rewrite negb_involutive in Es.
  rewrite version_is_exclusive_odd in Es. destruct (Z.odd _) eqn:Eo; [done|]. simplify_eq.
  unfold snapshot_ok. split_and!; [done|lia|done].
Qed.

Lemma step_enter w i c :
  inv w → threads w !! i = Some (ExclusiveLoaded c) →
  match HybridLatch.enter (latch w) c with
  | Ret (g, l) => inv (put w i (Exclusive g) l)
  | Panic => inv (put w i Panicked (HybridLatch.drop_exclusive (latch w)))
  end.
Proof.
  intros Hi Ht. pose proof (inv_threads _ Hi _ _ Ht) as [-> He]. simpl in He.
  unfold HybridLatch.enter, assert. destruct (can_advance_readable_version (ver w)) eqn:Ec; simpl.
  - apply can_advance_le in Ec. pose proof (inv_version _ Hi). rewrite enter_even by done.
    eapply inv_version_change; try done; try lia. simpl. split_and!; [done|by apply even_succ_odd|lia].
  - eapply inv_release_exclusive; try done. by right.
Qed.

Lemma step_drop w i g :
  inv w → threads w !! i = Some (Exclusive g) →
  ∃ l, HybridLatch.drop_guard (latch w) g = Ret l ∧ inv (put w i ExclusiveDropped l) ∧
    HybridLatch.version l = ver w + 1.
Proof.
  intros Hi Ht. pose proof (inv_threads _ Hi _ _ Ht) as (Hg & Ho & Hb). simpl in Hg, Ho, Hb.
  unfold HybridLatch.drop_guard. rewrite Hg. pose proof (inv_version _ Hi).
  rewrite exit_odd, bind_Ret by done. eexists. split; [done|]. split; [|done].
  pose proof (odd_succ_even _ Ho) as He. eapply inv_version_change; try done; try lia.
  intros. congruence.
Qed.

Lemma step_cas w i g rs :
  inv w → threads w !! i = Some (UpgradingExclusive g rs) →
  match HybridLatch.upgrade_cas (latch w) g with
  | Ret (Granted g', l) => inv (put w i (Exclusive g') l) ∧ Forall (λ x, x = data w) rs
  | Ret (Restart, l) => inv (put w i Idle l)
  | Panic => inv (put w i Panicked (HybridLatch.drop_exclusive (latch w)))
  end.
Proof.
  intros Hi Ht. pose proof (inv_threads _ Hi _ _ Ht) as (He & Hs0 & Hle & Hrs). simpl in He, Hs0, Hle, Hrs.
  unfold HybridLatch.upgrade_cas, assert.
  destruct (can_advance_readable_version (OptimisticGuard.version g)) eqn:Ec; simpl.
  - destruct (Z.eqb_spec (ver w) (OptimisticGuard.version g)) as [E|E].
    + rewrite <-E in *. apply can_advance_le in Ec. pose proof (inv_version _ Hi). split; [|by apply Hrs].
      rewrite enter_even by done. eapply inv_version_change; try done; try lia.
      simpl. split_and!; [done|by apply even_succ_odd|lia].
    + eapply inv_release_exclusive; try done. by left.
  - eapply inv_release_exclusive; try done. by right.
Qed.

Lemma step_check w i g rs :
  inv w → threads w !! i = Some (UpgradingShared g rs) →
  match HybridLatch.upgrade_check (latch w) g with
  | (Granted g', l) => inv (put w i (Shared g' rs) l)
  | (Restart, l) => inv (put w i Idle l)
  end.
Proof.
  intros Hi Ht. pose proof (inv_threads _ Hi _ _ Ht) as (He & Hs0 & Hle & Hrs). simpl in He, Hs0, Hle, Hrs.
  unfold HybridLatch.upgrade_check, optimistic_snapshot_still_valid.
  destruct (Z.eqb_spec (ver w) (OptimisticGuard.version g)) as [E|E]; simpl.
  - eapply inv_local; try done. simpl. rewrite <-E in *. split_and!; [done|done|by apply Hrs].
  - by eapply inv_release_shared.
Qed.

Lemma Forall_snoc {A} (P : A → Prop) l x : Forall P l → P x → Forall P (l ++ [x]).
Proof. intros. apply Forall_app. split; [done|by constructor]. Qed.

(** Every action keeps the invariant. *)
Lemma act_inv w i a w' : inv w → act w i a = Some w' → inv w'.
Proof.
  intros Hi E. unfold act in E. destruct (threads w !! i) as [t|] eqn:Ht; [|done]. cbn in E.
  pose proof (inv_threads _ Hi _ _ Ht) as Hok.
  destruct t as [|g rs| |c|g| |g rs| |g rs|g rs|], a; try done.
  - destruct (HybridLatch.optimistic_or_restart _) as [g|] eqn:Eg; simplify_eq; [|done].
    by apply step_snapshot.
  - destruct (raw_try_lock_exclusive _) as [m|] eqn:Em; [|done]. simplify_eq/=.
    by eapply inv_acquire_exclusive.
  - destruct (raw_try_lock_shared _) as [m|] eqn:Em; [|done]. simplify_eq/=.
    by eapply inv_acquire_shared.
  - simplify_eq. eapply inv_local; try done. destruct Hok as (? & ? & Hrs).
    split_and!; [done..|]. intros Ev. apply Forall_snoc; [by apply Hrs|done].
  - destruct (HybridLatch.validate _ _); simplify_eq; [done|]. by eapply inv_local.
  - destruct (raw_try_lock_exclusive _) as [m|] eqn:Em; [|done]. simplify_eq/=.
    by eapply inv_acquire_exclusive.
  - destruct (raw_try_lock_shared _) as [m|] eqn:Em; [|done]. simplify_eq/=.
    by eapply inv_acquire_shared.
  - simplify_eq. by eapply inv_local.
  - simplify_eq. by eapply inv_local.
  - pose proof (step_enter w i c Hi Ht) as Hs. destruct (HybridLatch.enter _ _) as [[g l]|]; by simplify_eq.
  - simplify_eq. by eapply inv_write.
  - destruct (step_drop w i g Hi Ht) as (l & E' & Hinv & _). rewrite E' in E. by simplify_eq.
  - simplify_eq. eapply inv_release_exclusive; try done. by left.
  - pose proof (step_cas w i g rs Hi Ht) as Hs.
    destruct (HybridLatch.upgrade_cas _ _) as [[[g'|] l]|]; simplify_eq; [by destruct Hs|done|done].
  - simplify_eq. eapply inv_local; try done.
  - simplify_eq. eapply inv_local; try done. destruct Hok as (? & ? & Hrs).
    split_and!; [done..|]. by apply Forall_snoc.
  - simplify_eq. by eapply inv_release_shared.
  - pose proof (step_check w i g rs Hi Ht) as Hs.
    destruct (HybridLatch.upgrade_check _ _) as [[g'|] l]; by simplify_eq.
Qed.

Lemma run_inv w schedule w' : inv w → run w schedule = Some w' → inv w'.
Proof.
  revert w. induction schedule as [|[i a] sched IH]; intros w Hi E; simplify_eq/=; [done|].
  destruct (act w i a) as [w1|] eqn:Ea; [|done]. simpl in E. eapply IH; [by eapply act_inv|done].
Qed.

Lemma reachable_inv d n schedule w : run (initial d n) schedule = Some w → inv w.
Proof. apply run_inv, initial_inv. Qed.

Lemma validate_granted w g :
  HybridLatch.validate (latch w) g = Granted tt → ver w = OptimisticGuard.version g.
Proof.
  unfold HybridLatch.validate, optimistic_restart_required, optimistic_snapshot_still_valid.
  destruct (Z.eqb_spec (ver w) (OptimisticGuard.version g)); done.
Qed.

(** A valid snapshot rules out a thread in its critical section. *)
Lemma valid_no_writer w i g rs :
  inv w → threads w !! i = Some (Optimistic g rs) → ver w = OptimisticGuard.version g →
  Forall (λ x, x = data w) rs ∧ ∀ j t, threads w !! j = Some t → is_exclusive t = false.
Proof.
  intros Hi Ht E. pose proof (inv_threads _ Hi _ _ Ht) as (Ho & _ & Hrs). split; [by apply Hrs|].
  intros j t Hj. pose proof (inv_threads _ Hi _ _ Hj) as Hok. destruct t; try done.
  destruct Hok as (_ & Hodd & _). congruence.
Qed.

End steps.

(** C4: a validated optimistic section is consistent, in every interleaving of
    any number of threads: if [validate] succeeds, every value the section
    observed since its snapshot equals the current one, and no thread is in
    its critical section; and a successful [upgrade_to_exclusive] enters the
    critical section with those observations still current, so that no write
    was lost in between. *)
Theorem optimistic_reads_consistent `{Build} `{RawRwLock} {D} (d : D) n schedule w i g rs :
  run (initial d n) schedule = Some w →
  (threads w !! i = Some (Optimistic g rs) →
   HybridLatch.validate (latch w) g = Granted tt →
   Forall (λ x, x = data w) rs ∧ ∀ j t, threads w !! j = Some t → is_exclusive t = false) ∧
  (threads w !! i = Some (UpgradingExclusive g rs) →
   ∀ g' l, HybridLatch.upgrade_cas (latch w) g = Ret (Granted g', l) →
   Forall (λ x, x = data w) rs).
Proof.
  intros Hrun. pose proof (reachable_inv _ _ _ _ Hrun) as Hi. split.
  - intros Ht Hval. eapply valid_no_writer; [done|done|by apply validate_granted].
  - intros Ht g' l E. pose proof (step_cas w i g rs Hi Ht) as Hs. rewrite E in Hs. by destruct Hs.
Qed.

(** Two threads: one reads optimistically while the other writes. *)
Definition torn_schedule : list (nat * @action Z) :=
  [(0, Snapshot); (0, ReadData); (1, AcquireExclusive); (1, LoadVersion); (1, EnterExclusive);
   (1, WriteData 7%Z); (1, DropExclusive); (1, UnlockExclusive);
   (0, Validate); (0, Snapshot); (0, ReadData); (0, ReadData)]%nat.

Lemma optimistic_reads_consistent_witness :
  ∃ w g, run (H0 := holders_lock) (H := debug_4k) (initial 5 2) torn_schedule = Some w ∧
    threads w !! 0%nat = Some (Optimistic g [7; 7]) ∧ Forall (λ x, x = 7) [7; 7].
Proof.
  destruct (run (H0 := holders_lock) (H := debug_4k) (initial 5 2) torn_schedule) as [w|] eqn:E;
    [|vm_compute in E; discriminate E].
  exists w, {| OptimisticGuard.version := 2 |}.
  assert (Et : threads w !! 0%nat = Some (Optimistic {| OptimisticGuard.version := 2 |} [7; 7]))
    by (vm_compute in E; by simplify_eq).
  assert (Hd : data w = 7) by (vm_compute in E; by simplify_eq).
  split; [done|]. split; [done|].
  destruct (@optimistic_reads_consistent debug_4k holders_lock Z 5 2 torn_schedule w 0 {| OptimisticGuard.version := 2 |} [7; 7] E) as [Hc _].
  destruct (Hc Et) as [Hf _]; [|by rewrite Hd in Hf]. vm_compute in E. by simplify_eq.
Defined.

(** C21: guards exclude each other: whenever a thread is in its critical
    section, the exclusive bit is set by its own word, no other thread is in
    a critical section or holds the latch shared, optimistic snapshots are
    refused and every snapshot taken before fails validation; while a thread
    holds the latch shared, the version word is its word and everything it
    has read is current. *)
Theorem guards_exclude `{Build} `{RawRwLock} {D} (d : D) n schedule w i :
  run (initial d n) schedule = Some w →
  (∀ g, threads w !! i = Some (Exclusive g) →
    HybridLatch.version (latch w) = ExclusiveGuard.version g ∧
    HybridLatch.optimistic_or_restart (latch w) = Restart ∧
    ∀ j t, threads w !! j = Some t → j ≠ i →
      match t with
      | Exclusive _ | Shared _ _ => False
      | Optimistic g' _ => HybridLatch.validate (latch w) g' = Restart
      | _ => True
      end) ∧
  (∀ g rs, threads w !! i = Some (Shared g rs) →
    HybridLatch.version (latch w) = SharedGuard.version g ∧ Forall (λ x, x = data w) rs ∧
    ∀ j t, threads w !! j = Some t → is_exclusive t = false).
Proof.
  intros Hrun. pose proof (reachable_inv _ _ _ _ Hrun) as Hi. split.
  - intros g Ht. pose proof (inv_threads _ Hi _ _ Ht) as (Hg & Ho & _). split_and!; [done|..].
    { unfold HybridLatch.optimistic_or_restart, optimistic_snapshot, optimistic_read_allowed.
      by rewrite negb_involutive, version_is_exclusive_odd, Ho. }
    intros j t Hj Hne. destruct (alone w i _ j t Hi Ht eq_refl Hj Hne) as [Hx Hs].
    pose proof (inv_threads _ Hi _ _ Hj) as Hok. destruct t; try done.
    destruct Hok as (He & _ & _). unfold HybridLatch.validate, optimistic_restart_required,
      optimistic_snapshot_still_valid. destruct (Z.eqb_spec (HybridLatch.version (latch w)) (OptimisticGuard.version g0)); [congruence|done].
  - intros g rs Ht. pose proof (inv_threads _ Hi _ _ Ht) as (Hg & He & Hrs). split_and!; [done..|].
    intros j t Hj. pose proof (inv_threads _ Hi _ _ Hj) as Hok. destruct t; try done.
    destruct Hok as (_ & Hodd & _). congruence.
Qed.

Lemma guards_exclude_witness :
  ∃ w g, run (H0 := holders_lock) (H := debug_4k) (initial 5 2) (take 5 torn_schedule) = Some w ∧
    threads w !! 1%nat = Some (Exclusive g) ∧
    HybridLatch.optimistic_or_restart (latch w) = Restart.
Proof.
  destruct (run (H0 := holders_lock) (H := debug_4k) (initial 5 2) (take 5 torn_schedule)) as [w|] eqn:E;
    [|vm_compute in E; discriminate E].
  exists w, {| ExclusiveGuard.version := 1 |}.
  assert (Et : threads w !! 1%nat = Some (Exclusive {| ExclusiveGuard.version := 1 |}))
    by (vm_compute in E; by simplify_eq).
  split; [done|]. split; [done|].
  destruct (@guards_exclude debug_4k holders_lock Z 5 2 _ w 1 E) as [Hx _].
  by destruct (Hx _ Et) as (_ & Hr & _).
Defined.

(** The version word never decreases and never overflows: a critical
    section that is entered is left at the readable word two above the one it
    found, dropping an exclusive guard never panics, and [lock_exclusive]
    panics exactly at the last readable word. *)
Theorem version_word_monotonic `{Build} `{RawRwLock} {D} (d : D) n schedule w :
  run (initial d n) schedule = Some w →
  (∀ i a w', act w i a = Some w' →
    HybridLatch.version (latch w) ≤ HybridLatch.version (latch w') < 2 ^ 64) ∧
  (∀ i g, threads w !! i = Some (Exclusive g) →
    ∃ l, HybridLatch.drop_guard (latch w) g = Ret l ∧
      HybridLatch.version l = HybridLatch.version (latch w) + 1) ∧
  (∀ i c, threads w !! i = Some (ExclusiveLoaded c) →
    (HybridLatch.enter (latch w) c = Panic ↔ c = 2 ^ 64 - 2) ∧
    (∀ g l, HybridLatch.enter (latch w) c = Ret (g, l) →
      HybridLatch.version l = HybridLatch.version (latch w) + 1)).
Proof.
  intros Hrun. pose proof (reachable_inv _ _ _ _ Hrun) as Hi. pose proof (inv_version _ Hi) as Hv. split_and!.
  - intros i a w' E. pose proof (inv_version _ (act_inv _ _ _ _ Hi E)) as Hv'. split; [|lia].
    unfold act in E. destruct (threads w !! i) as [t|] eqn:Ht; [|done]. cbn in E.
    destruct t as [|g rs| |c|g| |g rs| |g rs|g rs|], a; try done;
      try (simplify_eq; simpl; lia);
      try (destruct (raw_try_lock_exclusive _); simplify_eq/=; lia);
      try (destruct (raw_try_lock_shared _); simplify_eq/=; lia).
    + destruct (HybridLatch.optimistic_or_restart _); simplify_eq; simpl; lia.
    + destruct (HybridLatch.validate _ _); simplify_eq; simpl; lia.
    + pose proof (inv_threads _ Hi _ _ Ht) as [-> He]. simpl in He. unfold HybridLatch.enter in E.
      rewrite enter_even in E by done. destruct (assert _); simplify_eq/=; lia.
    + destruct (step_drop w i g Hi Ht) as (l & E' & _ & El). rewrite E' in E. simplify_eq/=. lia.
    + unfold HybridLatch.upgrade_cas in E. pose proof (inv_threads _ Hi _ _ Ht) as (_ & He & Hle & _).
      rewrite enter_even in E by done. destruct (assert _); [|simplify_eq/=; lia]. cbn in E.
      destruct (Z.eqb_spec (HybridLatch.version (latch w)) (OptimisticGuard.version g)); simplify_eq/=; lia.
    + unfold HybridLatch.upgrade_check in E. destruct (negb _); simplify_eq/=; lia.
  - intros i g Ht. destruct (step_drop w i g Hi Ht) as (l & E & _ & El). by exists l.
  - intros i c Ht. pose proof (inv_threads _ Hi _ _ Ht) as [-> He]. simpl in He.
    unfold HybridLatch.enter, assert, can_advance_readable_version. rewrite enter_even by done.
    set (v := HybridLatch.version (latch w)) in *.
    assert (v ≠ 2 ^ 64 - 1) by (intros E; rewrite E in He; done).
    destruct (Z.leb_spec v 18446744073709551613); simpl; split.
    + split; [done|lia].
    + intros g l E. by simplify_eq.
    + split; [lia|done].
    + done.
Qed.

Lemma version_word_monotonic_witness :
  ∃ w l g, run (H0 := holders_lock) (H := debug_4k) (initial 5 2) (take 5 torn_schedule) = Some w ∧
    HybridLatch.drop_guard (H := debug_4k) (latch w) g = Ret l ∧ HybridLatch.version l = 1 + 1.
Proof.
  destruct (run (H0 := holders_lock) (H := debug_4k) (initial 5 2) (take 5 torn_schedule)) as [w|] eqn:E;
    [|vm_compute in E; discriminate E].
  assert (Et : threads w !! 1%nat = Some (Exclusive {| ExclusiveGuard.version := 1 |}))
    by (vm_compute in E; by simplify_eq).
  assert (Ev : HybridLatch.version (latch w) = 1) by (vm_compute in E; by simplify_eq).
  destruct (@version_word_monotonic debug_4k holders_lock Z 5 2 _ w E) as (_ & Hd & _).
  destruct (Hd _ _ Et) as (l & El & Hv). exists w, l, {| ExclusiveGuard.version := 1 |}.
  split; [done|]. split; [done|]. by rewrite Hv, Ev.
Defined.
