(* ===== verification/Posix.v ===== *)
(** * Positioned file I/O: the kernel interface and the retry loops

    The page store talks to one file through [pread], [pwrite], [ftruncate]
    and [fsync]. The kernel is an interface: [PosixFile] states what the
    manual pages promise of those calls on a regular file (short transfers,
    interruptions and failures included), and [scripted_file] is a kernel
    that plays any finite script of such replies. On top of it this file
    models [pread_exact_observed] and [pwrite_exact_observed] of
    [src/crates/storage/src/page_store.rs], and the effects its methods are
    written in: a state, an [io::Result], a panic, or no answer. *)

From S2P Require Import Prelude Bytes.
#[local] Open Scope Z_scope.

(** ** Signed arithmetic: [a + b] and [a * b] on [i64], and [x as i64] *)

Definition swrap (w z : Z) : Z := (z + 2 ^ (w - 1)) mod 2 ^ w - 2 ^ (w - 1).
Definition in_swidth (w z : Z) : bool := (- 2 ^ (w - 1) <=? z) && (z <? 2 ^ (w - 1)).
Definition sarith `{Build} (w z : Z) : outcome Z :=
  if in_swidth w z then Ret z else if debug_assertions then Panic else Ret (swrap w z).

Lemma swrap_small w z : 1 ≤ w → - 2 ^ (w - 1) ≤ z < 2 ^ (w - 1) → swrap w z = z.
Proof.
  intros Hw Hz. unfold swrap. replace w with (Z.succ (w - 1)) at 2 by lia.
  rewrite Z.pow_succ_r by lia. rewrite Z.mod_small; lia.
Qed.

Lemma sarith_in_range `{Build} w z : - 2 ^ (w - 1) ≤ z < 2 ^ (w - 1) → sarith w z = Ret z.
Proof.
  intros Hz. unfold sarith, in_swidth.
  by rewrite (proj2 (Z.leb_le _ _)), (proj2 (Z.ltb_lt _ _)) by lia.
Qed.

(** ** Effects *)

(** How a method ends: with a result and a state, with a panic, or not
    within the loop bound. *)
Inductive exec (St A : Type) : Type :=
| Done (r : io_result A) (s : St)
| Panicked
| OutOfFuel.
Arguments Done {St A} r s.
Arguments Panicked {St A}.
Arguments OutOfFuel {St A}.

Definition IO (St A : Type) : Type := St → exec St A.

#[global] Instance IO_ret {St} : MRet (IO St) := λ A a s, Done (Ok a) s.
(** [let x = m?; k]: an error ends the method, with the effects so far. *)
#[global] Instance IO_bind {St} : MBind (IO St) := λ A B k m s,
  match m s with
  | Done (Ok a) s => k a s
  | Done (Err e) s => Done (Err e) s
  | Panicked => Panicked
  | OutOfFuel => OutOfFuel
  end.

Definition fail {St A} (e : ErrorKind) : IO St A := λ s, Done (Err e) s.
Definition ret_result {St A} (r : io_result A) : IO St A := λ s, Done r s.
Definition lift {St A} (o : outcome A) : IO St A := λ s,
  match o with
  | Ret a => Done (Ok a) s
  | Panic => Panicked
  end.
Definition gets {St A} (f : St → A) : IO St A := λ s, Done (Ok (f s)) s.
Definition modify {St} (f : St → St) : IO St unit := λ s, Done (Ok tt) (f s).
(** A method of a field, run in the record that has it. *)
Definition zoom {St F A} (get : St → F) (put : St → F → St) (m : IO F A) : IO St A := λ s,
  match m (get s) with
  | Done r f => Done r (put s f)
  | Panicked => Panicked
  | OutOfFuel => OutOfFuel
  end.
(** [for x in l { f(x)?; }]. *)
Fixpoint for_each {St A} (f : A → IO St unit) (l : list A) : IO St unit :=
  match l with
  | [] => mret tt
  | x :: l => _ ← f x; for_each f l
  end.

Lemma IO_bind_inv {St A B} (m : IO St A) (k : A → IO St B) s r s' :
  (m ≫= k) s = Done r s' →
  (∃ a s1, m s = Done (Ok a) s1 ∧ k a s1 = Done r s') ∨
  (∃ e, m s = Done (Err e) s' ∧ r = Err e).
Proof.
  unfold mbind, IO_bind. destruct (m s) as [[a|e] s1| |]; intros E; simplify_eq; [left|right]; eauto.
Qed.

Lemma IO_bind_Ok {St A B} (m : IO St A) (k : A → IO St B) s a s1 :
  m s = Done (Ok a) s1 → (m ≫= k) s = k a s1.
Proof. unfold mbind, IO_bind. by intros ->. Qed.

Lemma IO_bind_Ok_inv {St A B} (m : IO St A) (k : A → IO St B) s b s' :
  (m ≫= k) s = Done (Ok b) s' → ∃ a s1, m s = Done (Ok a) s1 ∧ k a s1 = Done (Ok b) s'.
Proof. intros [?|(e & _ & E)]%IO_bind_inv; [done|discriminate]. Qed.

(** [io_inv H] splits [H : (x ← m; k) s = Done (Ok v) s'] into its steps. *)
Ltac io_inv H :=
  match type of H with
  | mbind _ _ _ = Done (Ok _) _ =>
      let a := fresh "r" in let s := fresh "s" in let H1 := fresh "Hr" in
      apply IO_bind_Ok_inv in H as (a & s & H1 & H)
  end.

(** ** What a method promises *)

(** [m] returns from [s]: on success with [Q], or with an error that [E]
    allows. *)
Definition returns_or {St A} (E : ErrorKind → Prop) (m : IO St A) (s : St) (Q : A → St → Prop) : Prop :=
  ∃ r s', m s = Done r s' ∧ match r with Ok a => Q a s' | Err e => E e end.
Notation returns := (returns_or (λ _, True)).

Section returns.
Context {St : Type} (E : ErrorKind → Prop).

Lemma returns_bind {A B} (m : IO St A) (k : A → IO St B) s Q :
  returns_or E m s (λ a s', returns_or E (k a) s' Q) → returns_or E (m ≫= k) s Q.
Proof.
  intros ([a|e] & s1 & Em & Hk).
  - destruct Hk as (r & s' & Ek & HQ). exists r, s'. unfold mbind, IO_bind. rewrite Em. done.
  - exists (Err e), s1. unfold mbind, IO_bind. rewrite Em. done.
Qed.

Lemma returns_mono {A} (m : IO St A) s (Q Q' : A → St → Prop) :
  returns_or E m s Q → (∀ a s', Q a s' → Q' a s') → returns_or E m s Q'.
Proof. intros (r & s' & Em & HQ) Himp. exists r, s'. split; [done|]. destruct r; auto. Qed.

Lemma returns_ret {A} (a : A) s (Q : A → St → Prop) : Q a s → returns_or E (mret a) s Q.
Proof. intros. by exists (Ok a), s. Qed.
Lemma returns_modify f s (Q : unit → St → Prop) : Q tt (f s) → returns_or E (modify f) s Q.
Proof. intros. by exists (Ok tt), (f s). Qed.
Lemma returns_gets {A} (f : St → A) s (Q : A → St → Prop) : Q (f s) s → returns_or E (gets f) s Q.
Proof. intros. by exists (Ok (f s)), s. Qed.
Lemma returns_lift {A} (a : A) o s (Q : A → St → Prop) : o = Ret a → Q a s → returns_or E (lift o) s Q.
Proof. intros -> ?. by exists (Ok a), s. Qed.

End returns.

(** More errors allowed. *)
Lemma returns_weaken {St A} (E E' : ErrorKind → Prop) (m : IO St A) s Q :
  returns_or E m s Q → (∀ e, E e → E' e) → returns_or E' m s Q.
Proof. intros ([a|e] & s' & Em & HQ) HE; [by exists (Ok a), s'|exists (Err e), s'; auto]. Qed.

(** ** File contents *)

Definition extend (p : list byte) (n : Z) : list byte := p ++ fill (n - zlen p) x00.
(** A positioned write: a gap before it reads as zeros. *)
Definition write_at (p : list byte) (off : Z) (bs : list byte) : list byte :=
  if zlen bs =? 0 then p else upd (extend p (off + zlen bs)) off bs.
Definition resize (p : list byte) (n : Z) : list byte := extend (sub p 0 n) n.

Lemma zlen_extend p n : zlen (extend p n) = Z.max (zlen p) n.
Proof.
  unfold extend. rewrite zlen_app. unfold fill. rewrite zlen_replicate.
  pose proof (zlen_nonneg p). lia.
Qed.

Lemma lookup_extend p n i :
  extend p n !! i =
    if decide (Z.of_nat i < zlen p) then p !! i
    else if decide (Z.of_nat i < n) then Some x00 else None.
Proof.
  unfold extend, zlen. destruct (decide _); [by rewrite lookup_app_l by lia|].
  rewrite lookup_app_r by lia. unfold fill. destruct (decide _).
  - apply lookup_replicate_2. lia.
  - apply lookup_replicate_None. lia.
Qed.

Lemma zlen_write_at p off bs :
  0 ≤ off → zlen bs ≠ 0 → zlen (write_at p off bs) = Z.max (zlen p) (off + zlen bs).
Proof.
  intros Ho Hb. unfold write_at. rewrite (proj2 (Z.eqb_neq _ _)) by done.
  rewrite zlen_upd, zlen_extend; [done|done|]. rewrite zlen_extend. lia.
Qed.

Lemma lookup_write_at p off bs i :
  0 ≤ off → zlen bs ≠ 0 →
  write_at p off bs !! i =
    if decide (off ≤ Z.of_nat i < off + zlen bs) then bs !! (i - Z.to_nat off)%nat
    else if decide (Z.of_nat i < zlen p) then p !! i
    else if decide (Z.of_nat i < off + zlen bs) then Some x00 else None.
Proof.
  intros Ho Hb. unfold write_at. rewrite (proj2 (Z.eqb_neq _ _)) by done.
  rewrite lookup_upd by (rewrite ?zlen_extend; lia). by rewrite lookup_extend.
Qed.

Lemma write_at_nil p off : write_at p off [] = p.
Proof. done. Qed.

Lemma write_at_app p off a b :
  0 ≤ off → write_at (write_at p off a) (off + zlen a) b = write_at p off (a ++ b).
Proof.
  intros Ho. pose proof (zlen_nonneg a). pose proof (zlen_nonneg b).
  destruct (decide (zlen a = 0)) as [->%zlen_0_nil|Ha]; [by rewrite write_at_nil, zlen_nil, Z.add_0_r|].
  destruct (decide (zlen b = 0)) as [->%zlen_0_nil|Hb]; [by rewrite write_at_nil, app_nil_r|].
  assert (Hab : zlen (a ++ b) ≠ 0) by (rewrite zlen_app; lia).
  apply list_eq. intros i. rewrite !lookup_write_at, !zlen_app, zlen_write_at by (rewrite ?zlen_app; lia).
  unfold zlen in *. repeat case_decide; try done; try lia.
  - rewrite lookup_app_r by lia. f_equal. lia.
  - by rewrite lookup_app_l by lia.
Qed.

Lemma sub_write_at_eq p off bs n :
  0 ≤ off → n = zlen bs → sub (write_at p off bs) off n = bs.
Proof.
  intros Ho ->. destruct (decide (zlen bs = 0)) as [->%zlen_0_nil|Hb].
  { by rewrite zlen_nil, sub_0. }
  apply list_eq. intros i. destruct (decide (i < Z.to_nat (zlen bs))%nat).
  - rewrite lookup_sub, lookup_write_at by lia. rewrite decide_True by lia. f_equal. lia.
  - rewrite lookup_sub_ge by lia. symmetry. apply lookup_ge_None_2. unfold zlen in *. lia.
Qed.

Lemma sub_write_at_ne p off bs off' n :
  0 ≤ off → 0 ≤ off' → 0 ≤ n → off' + n ≤ zlen p → off' + n ≤ off ∨ off + zlen bs ≤ off' →
  sub (write_at p off bs) off' n = sub p off' n.
Proof.
  intros Ho Ho' Hn Hp Hd. destruct (decide (zlen bs = 0)) as [->%zlen_0_nil|Hb]; [done|].
  apply list_eq. intros i. destruct (decide (i < Z.to_nat n)%nat).
  - rewrite !lookup_sub, lookup_write_at by lia. by rewrite decide_False, decide_True by lia.
  - by rewrite !lookup_sub_ge by lia.
Qed.

Lemma zlen_resize p n : 0 ≤ n → zlen (resize p n) = n.
Proof.
  intros. unfold resize. rewrite zlen_extend. pose proof (zlen_sub_le p 0 n). lia.
Qed.

Lemma lookup_resize p n i :
  0 ≤ n → resize p n !! i =
    if decide (Z.of_nat i < n) then Some (default x00 (p !! i)) else None.
Proof.
  intros Hn. unfold resize. rewrite lookup_extend.
  assert (Hl : zlen (sub p 0 n) = Z.min n (zlen p)).
  { pose proof (zlen_nonneg p). rewrite zlen_sub_min; lia. }
  rewrite Hl. repeat case_decide; try done; try lia.
  - rewrite lookup_sub by lia. simpl. destruct (lookup_lt_is_Some_2 p i) as [x Hx]; [unfold zlen in *; lia|].
    by rewrite Hx.
  - rewrite lookup_ge_None_2; [done|]. unfold zlen in *. lia.
Qed.

Lemma sub_resize p n off m :
  0 ≤ off → 0 ≤ m → off + m ≤ n → off + m ≤ zlen p → sub (resize p n) off m = sub p off m.
Proof.
  intros. apply list_eq. intros i. destruct (decide (i < Z.to_nat m)%nat).
  - rewrite !lookup_sub, lookup_resize by lia. rewrite decide_True by lia.
    destruct (lookup_lt_is_Some_2 p (Z.to_nat off + i)) as [x Hx]; [unfold zlen in *; lia|]. by rewrite Hx.
  - by rewrite !lookup_sub_ge by lia.
Qed.

Lemma sub_resize_new p n off m :
  0 ≤ off → 0 ≤ m → off + m ≤ n → zlen p ≤ off → sub (resize p n) off m = fill m x00.
Proof.
  intros. apply list_eq. intros i. destruct (decide (i < Z.to_nat m)%nat).
  - rewrite lookup_sub, lookup_resize by lia. rewrite decide_True by lia.
    rewrite lookup_ge_None_2 by (unfold zlen in *; lia). simpl. symmetry. by apply lookup_replicate_2.
  - rewrite lookup_sub_ge by lia. symmetry. apply lookup_replicate_None. lia.
Qed.

(** ** The kernel *)

Inductive errno := EINTR | EOTHER (code : Z).
(** [io::Error::last_os_error().kind()]: no error number is an end of file. *)
Definition error_kind (e : errno) : ErrorKind :=
  match e with
  | EINTR => Interrupted
  | EOTHER code => OsError code
  end.

(** One open regular file. [pread] returns the bytes it transferred, [pwrite]
    how many. [patience] bounds the interruptions still to come: a signal
    does not interrupt the same call forever. *)
Class PosixFile := {
  os : Type;
  contents : os → list byte;
  patience : os → nat;
  pread : os → Z → Z → (list byte + errno) * os;
  pwrite : os → list byte → Z → (Z + errno) * os;
  ftruncate : os → Z → option errno * os;
  fsync : os → option errno * os;
  fstat : os → (Z + errno) * os;
  pread_ok f n off bs f' : 0 ≤ n → pread f n off = (inl bs, f') →
    0 ≤ off ∧ contents f' = contents f ∧ bs = sub (contents f) off (zlen bs) ∧ zlen bs ≤ n ∧
    (bs = [] → n = 0 ∨ zlen (contents f) ≤ off) ∧ (patience f' ≤ patience f)%nat;
  pread_err f n off e f' : pread f n off = (inr e, f') →
    contents f' = contents f ∧ (e = EINTR → (patience f' < patience f)%nat);
  pwrite_ok f data off k f' : pwrite f data off = (inl k, f') →
    0 ≤ off ∧ 0 ≤ k ≤ zlen data ∧ contents f' = write_at (contents f) off (sub data 0 k) ∧
    (patience f' ≤ patience f)%nat;
  pwrite_err f data off e f' : pwrite f data off = (inr e, f') →
    contents f' = contents f ∧ (e = EINTR → (patience f' < patience f)%nat);
  ftruncate_ok f n f' : ftruncate f n = (None, f') → 0 ≤ n ∧ contents f' = resize (contents f) n;
  ftruncate_err f n e f' : ftruncate f n = (Some e, f') → contents f' = contents f;
  fsync_contents f e f' : fsync f = (e, f') → contents f' = contents f;
  fstat_ok f n f' : fstat f = (inl n, f') → n = zlen (contents f) ∧ contents f' = contents f;
  fstat_err f e f' : fstat f = (inr e, f') → contents f' = contents f;
}.

(** A kernel that plays a script, and serves every call in full after it. *)
Inductive reply := Interrupt | Fails (code : Z) | Transfers (n : Z).

Record script_os := { bytes : list byte; script : list reply }.

Definition interrupts (s : list reply) : nat :=
  count (λ r, match r with Interrupt => true | _ => false end) s.

(** Takes the next reply of the script, [dflt] when there is none. *)
Definition next (f : script_os) (dflt : reply) : reply * script_os :=
  match script f with
  | [] => (dflt, f)
  | r :: s => (r, {| bytes := bytes f; script := s |})
  end.
Definition control (f : script_os) : option errno * script_os :=
  match next f (Transfers 0) with
  | (Interrupt, f) => (Some EINTR, f)
  | (Fails c, f) => (Some (EOTHER c), f)
  | (Transfers _, f) => (None, f)
  end.

Lemma next_bytes f d r f' : next f d = (r, f') → bytes f' = bytes f.
Proof. unfold next. destruct (script f); intros; by simplify_eq. Qed.
Lemma next_interrupts f d r f' :
  next f d = (r, f') → (interrupts (script f') ≤ interrupts (script f))%nat ∧
  (r = Interrupt → d ≠ Interrupt → (interrupts (script f') < interrupts (script f))%nat).
Proof.
  unfold next, interrupts, count. destruct (script f) as [|x s] eqn:E; intros; simplify_eq/=.
  - rewrite E. split; [done|congruence].
  - rewrite filter_cons. destruct r; simpl; split; intros; try done; lia.
Qed.
Lemma control_bytes f e f' : control f = (e, f') → bytes f' = bytes f.
Proof.
  unfold control. destruct (next _ _) as [r g] eqn:E. apply next_bytes in E.
  destruct r; intros; by simplify_eq.
Qed.

Definition script_pread (f : script_os) (n off : Z) : (list byte + errno) * script_os :=
  match next f (Transfers n) with
  | (Interrupt, f) => (inr EINTR, f)
  | (Fails c, f) => (inr (EOTHER c), f)
  | (Transfers k, f) =>
      if (0 <=? off) && (off <=? zlen (bytes f))
      then (inl (sub (bytes f) off (Z.min n (Z.max 1 k))), f)
      else if off <? 0 then (inr (EOTHER 22), f) else (inl [], f)
  end.
Definition script_pwrite (f : script_os) (data : list byte) (off : Z) : (Z + errno) * script_os :=
  match next f (Transfers (zlen data)) with
  | (Interrupt, f) => (inr EINTR, f)
  | (Fails c, f) => (inr (EOTHER c), f)
  | (Transfers k, f) =>
      if 0 <=? off
      then (inl (Z.max 0 (Z.min k (zlen data))),
            {| bytes := write_at (bytes f) off (sub data 0 (Z.max 0 (Z.min k (zlen data))));
               script := script f |})
      else (inr (EOTHER 22), f)
  end.
Definition script_ftruncate (f : script_os) (n : Z) : option errno * script_os :=
  if n <? 0 then (Some (EOTHER 22), f) else
  match control f with
  | (None, f) => (None, {| bytes := resize (bytes f) n; script := script f |})
  | (Some e, f) => (Some e, f)
  end.
Definition script_fstat (f : script_os) : (Z + errno) * script_os :=
  match control f with
  | (None, f) => (inl (zlen (bytes f)), f)
  | (Some e, f) => (inr e, f)
  end.

Lemma script_pread_ok f n off bs f' : 0 ≤ n → script_pread f n off = (inl bs, f') →
  0 ≤ off ∧ bytes f' = bytes f ∧ bs = sub (bytes f) off (zlen bs) ∧ zlen bs ≤ n ∧
  (bs = [] → n = 0 ∨ zlen (bytes f) ≤ off) ∧ (interrupts (script f') ≤ interrupts (script f))%nat.
Proof.
  intros Hn E. unfold script_pread in E. destruct (next _ _) as [r g] eqn:En.
  pose proof (next_bytes _ _ _ _ En) as Eb. apply next_interrupts in En as [Ei _].
  destruct r as [| |k]; simplify_eq. rewrite Eb in E.
  destruct (Z.leb_spec 0 off), (Z.leb_spec off (zlen (bytes f))); simpl in E;
    try (destruct (Z.ltb_spec off 0); simplify_eq; try lia).
  - simplify_eq. assert (Hz : zlen (sub (bytes f) off (Z.min n (Z.max 1 k))) =
      Z.min (Z.min n (Z.max 1 k)) (zlen (bytes f) - off)) by (rewrite zlen_sub_min; lia).
    rewrite Hz. split_and!; [done|done| |lia| |done].
    + destruct (Z.min_spec (Z.min n (Z.max 1 k)) (zlen (bytes f) - off)) as [[? ->]|[? ->]]; [done|].
      apply sub_clip; lia.
    + intros E. rewrite E, zlen_nil in Hz. lia.
  - rewrite sub_0. split_and!; [done..|lia|done].
Qed.

Lemma script_pread_err f n off e f' : script_pread f n off = (inr e, f') →
  bytes f' = bytes f ∧ (e = EINTR → (interrupts (script f') < interrupts (script f))%nat).
Proof.
  unfold script_pread. intros E. destruct (next _ _) as [r g] eqn:En.
  pose proof (next_bytes _ _ _ _ En) as Eb. apply next_interrupts in En as [_ Ei].
  destruct r as [| |k]; simplify_eq; [split; [done|]; intros; by apply Ei|done|].
  destruct (_ && _); [done|]. destruct (_ <? _); by simplify_eq.
Qed.

Lemma script_pwrite_ok f data off k f' : script_pwrite f data off = (inl k, f') →
  0 ≤ off ∧ 0 ≤ k ≤ zlen data ∧ bytes f' = write_at (bytes f) off (sub data 0 k) ∧
  (interrupts (script f') ≤ interrupts (script f))%nat.
Proof.
  unfold script_pwrite. intros E. destruct (next _ _) as [r g] eqn:En.
  pose proof (next_bytes _ _ _ _ En) as Eb. apply next_interrupts in En as [Ei _].
  destruct r as [| |n]; simplify_eq. destruct (Z.leb_spec 0 off); simplify_eq/=.
  pose proof (zlen_nonneg data). rewrite Eb. split_and!; try done; lia.
Qed.

Lemma script_pwrite_err f data off e f' : script_pwrite f data off = (inr e, f') →
  bytes f' = bytes f ∧ (e = EINTR → (interrupts (script f') < interrupts (script f))%nat).
Proof.
  unfold script_pwrite. intros E. destruct (next _ _) as [r g] eqn:En.
  pose proof (next_bytes _ _ _ _ En) as Eb. apply next_interrupts in En as [_ Ei].
  destruct r as [| |k]; simplify_eq; [split; [done|]; intros; by apply Ei|done|].
  destruct (0 <=? off); by simplify_eq.
Qed.

Lemma script_ftruncate_ok f n f' :
  script_ftruncate f n = (None, f') → 0 ≤ n ∧ bytes f' = resize (bytes f) n.
Proof.
  unfold script_ftruncate. intros E. destruct (Z.ltb_spec n 0); [done|].
  destruct (control f) as [[e|] g] eqn:Ec; [done|]. apply control_bytes in Ec. simplify_eq/=. by rewrite Ec.
Qed.

Lemma script_ftruncate_err f n e f' : script_ftruncate f n = (Some e, f') → bytes f' = bytes f.
Proof.
  unfold script_ftruncate. intros E. destruct (_ <? _); [by simplify_eq|].
  destruct (control f) as [[?|] g] eqn:Ec; simplify_eq. by apply control_bytes in Ec.
Qed.

Lemma script_fstat_ok f n f' :
  script_fstat f = (inl n, f') → n = zlen (bytes f) ∧ bytes f' = bytes f.
Proof.
  unfold script_fstat. intros E. destruct (control f) as [[e|] g] eqn:Ec; [done|].
  apply control_bytes in Ec. simplify_eq. by rewrite Ec.
Qed.

Lemma script_fstat_err f e f' : script_fstat f = (inr e, f') → bytes f' = bytes f.
Proof.
  unfold script_fstat. intros E. destruct (control f) as [[?|] g] eqn:Ec; [|done].
  apply control_bytes in Ec. by simplify_eq.
Qed.

Definition scripted_file : PosixFile := {|
  os := script_os;
  contents := bytes;
  patience f := interrupts (script f);
  pread := script_pread;
  pwrite := script_pwrite;
  ftruncate := script_ftruncate;
  fsync := control;
  fstat := script_fstat;
  pread_ok := script_pread_ok;
  pread_err := script_pread_err;
  pwrite_ok := script_pwrite_ok;
  pwrite_err := script_pwrite_err;
  ftruncate_ok := script_ftruncate_ok;
  ftruncate_err := script_ftruncate_err;
  fsync_contents := control_bytes;
  fstat_ok := script_fstat_ok;
  fstat_err := script_fstat_err;
|}.

(** ** The retry loops

    The closure [observe] is called once, before the return, with the bytes
    requested and completed: the model returns that pair with the result. *)

Section loops.
Context `{Build} `{PosixFile}.

(** [pread_exact_observed] from [done] on: the buffer, the result and the
    bytes completed. *)
Fixpoint pread_loop (fuel : nat) (offset : Z) (buf : list byte) (done : Z) (f : os)
    : exec os (list byte * io_result unit * Z) :=
  match fuel with
  | O => OutOfFuel
  | S fuel =>
      if done <? zlen buf then
        let remaining := zlen buf - done in
        match sarith 64 (offset + done) with
        | Panic => Panicked
        | Ret off =>
            match pread f remaining off with
            | (inr EINTR, f) => pread_loop fuel offset buf done f
            | (inr e, f) => Done (Ok (buf, Err (error_kind e), done)) f
            | (inl [], f) => Done (Ok (buf, Err UnexpectedEof, done)) f
            | (inl bs, f) => pread_loop fuel offset (upd buf done bs) (done + zlen bs) f
            end
        end
      else Done (Ok (buf, Ok tt, done)) f
  end.

Definition pread_exact_observed (buf : list byte) (offset : Z)
    : IO os (list byte * io_result unit * (Z * Z)) :=
  let requested := zlen buf in
  fuel ← gets (λ f, S (patience f + length buf));
  r ← (pread_loop fuel offset buf 0 : IO os _);
  let '(buf, res, done) := r in
  mret (buf, res, (requested, done)).

Definition pread_exact (buf : list byte) (offset : Z) : IO os (list byte) :=
  r ← pread_exact_observed buf offset;
  let '(buf, res, _) := r in
  _ ← ret_result res;
  mret buf.

(** [pwrite_exact_observed] from [done] on. *)
Fixpoint pwrite_loop (fuel : nat) (offset : Z) (data : list byte) (done : Z) (f : os)
    : exec os (io_result unit * Z) :=
  match fuel with
  | O => OutOfFuel
  | S fuel =>
      if done <? zlen data then
        let remaining := zlen data - done in
        match sarith 64 (offset + done) with
        | Panic => Panicked
        | Ret off =>
            match pwrite f (sub data done remaining) off with
            | (inr EINTR, f) => pwrite_loop fuel offset data done f
            | (inr e, f) => Done (Ok (Err (error_kind e), done)) f
            | (inl 0, f) => Done (Ok (Err WriteZero, done)) f
            | (inl n, f) => pwrite_loop fuel offset data (done + n) f
            end
        end
      else Done (Ok (Ok tt, done)) f
  end.

Definition pwrite_exact_observed (data : list byte) (offset : Z)
    : IO os (io_result unit * (Z * Z)) :=
  let requested := zlen data in
  fuel ← gets (λ f, S (patience f + length data));
  r ← (pwrite_loop fuel offset data 0 : IO os _);
  let '(res, done) := r in
  mret (res, (requested, done)).

Definition pwrite_exact (data : list byte) (offset : Z) : IO os unit :=
  r ← pwrite_exact_observed data offset;
  let '(res, _) := r in
  ret_result res.

(** What the read loop leaves when it stops after [d] bytes. *)
Definition read_stop (p : list byte) (offset : Z) (len d : Z) (res : io_result unit) : Prop :=
  match res with
  | Ok _ => d = len
  | Err UnexpectedEof => d < len ∧ zlen p ≤ offset + d
  | Err (OsError _) => d < len
  | Err _ => False
  end.

Lemma pread_loop_spec fuel offset buf dn f r f' :
  0 ≤ offset → offset + zlen buf < 2 ^ 63 → 0 ≤ dn ≤ zlen buf →
  pread_loop fuel offset buf dn f = Done r f' →
  contents f' = contents f ∧
  ∃ d res, dn ≤ d ≤ zlen buf ∧ zlen (sub (contents f) (offset + dn) (d - dn)) = d - dn ∧
    r = Ok (upd buf dn (sub (contents f) (offset + dn) (d - dn)), res, d) ∧
    read_stop (contents f) offset (zlen buf) d res.
Proof.
  intros Ho Hlim. revert buf dn f Hlim. induction fuel as [|fuel IH]; intros buf dn f Hlim Hd E; [done|].
  cbn [pread_loop] in E. destruct (Z.ltb_spec dn (zlen buf)) as [Hlt|Hge].
  2:{ injection E as <- <-. split; [done|]. exists dn, (Ok tt). rewrite Z.sub_diag, sub_0, upd_nil, zlen_nil by lia.
      split_and!; try done; simpl; lia. }
  rewrite sarith_in_range in E by lia.
  destruct (pread f (zlen buf - dn) (offset + dn)) as [[bs|e] g] eqn:Ep.
  - apply pread_ok in Ep as (_ & Eg & Hbs & Hlen & Hnil & _); [|lia]. destruct bs as [|b bs].
    + injection E as <- <-. split; [done|]. exists dn, (Err UnexpectedEof).
      rewrite Z.sub_diag, sub_0, upd_nil, zlen_nil by lia. destruct (Hnil eq_refl); [lia|].
      split_and!; try done; simpl; lia.
    + remember (b :: bs) as bs' eqn:Hb. pose proof (zlen_nonneg bs).
      assert (1 ≤ zlen bs') by (subst bs'; rewrite zlen_cons; lia).
      apply IH in E as (Ec & d & res & Hdd & Hz & -> & Hs); rewrite ?zlen_upd in * by lia; try lia.
      rewrite Eg in *. split; [done|]. exists d, res.
      assert (Hsplit : sub (contents f) (offset + dn) (d - dn) =
        bs' ++ sub (contents f) (offset + (dn + zlen bs')) (d - (dn + zlen bs'))).
      { replace (d - dn) with (zlen bs' + (d - (dn + zlen bs'))) by lia.
        rewrite sub_split by lia. rewrite <-Hbs. do 2 f_equal. lia. }
      rewrite Hsplit, zlen_app, Hz. split_and!; [lia|lia|lia| |done].
      by rewrite upd_upd_app by lia.
  - apply pread_err in Ep as [Eg _]. destruct e.
    + apply IH in E; [|done|done]. by rewrite Eg in E.
    + injection E as <- <-. split; [done|]. exists dn, (Err (OsError code)).
      rewrite Z.sub_diag, sub_0, upd_nil, zlen_nil by lia. split_and!; try done; simpl; lia.
Qed.

Lemma pread_loop_returns fuel offset buf dn f :
  0 ≤ offset → offset + zlen buf < 2 ^ 63 → 0 ≤ dn ≤ zlen buf →
  (patience f + Z.to_nat (zlen buf - dn) < fuel)%nat →
  ∃ x f', pread_loop fuel offset buf dn f = Done (Ok x) f'.
Proof.
  intros Ho Hlim. revert buf dn f Hlim. induction fuel as [|fuel IH]; intros buf dn f Hlim Hd Hf; [lia|].
  cbn [pread_loop]. destruct (Z.ltb_spec dn (zlen buf)) as [Hlt|Hge]; [|eauto].
  rewrite sarith_in_range by lia.
  destruct (pread f (zlen buf - dn) (offset + dn)) as [[bs|e] g] eqn:Ep.
  - apply pread_ok in Ep as (_ & _ & _ & Hlen & _ & Hp); [|lia]. destruct bs as [|b bs]; [eauto|].
    pose proof (zlen_nonneg bs). rewrite zlen_cons in *.
    apply IH; rewrite ?zlen_upd by (rewrite ?zlen_cons; lia); lia.
  - apply pread_err in Ep as [_ Hp]. destruct e; [|eauto]. specialize (Hp eq_refl). apply IH; lia.
Qed.

Definition write_stop (len d : Z) (res : io_result unit) : Prop :=
  match res with
  | Ok _ => d = len
  | Err WriteZero | Err (OsError _) => d < len
  | Err _ => False
  end.

Lemma pwrite_loop_spec fuel offset data dn f r f' :
  0 ≤ offset → offset + zlen data < 2 ^ 63 → 0 ≤ dn ≤ zlen data →
  pwrite_loop fuel offset data dn f = Done r f' →
  ∃ d res, dn ≤ d ≤ zlen data ∧ r = Ok (res, d) ∧ write_stop (zlen data) d res ∧
    contents f' = write_at (contents f) (offset + dn) (sub data dn (d - dn)).
Proof.
  intros Ho Hlim. revert dn f. induction fuel as [|fuel IH]; intros dn f Hd E; [done|].
  cbn [pwrite_loop] in E.
  assert (Hstop : write_at (contents f) (offset + dn) (sub data dn (dn - dn)) = contents f)
    by (by rewrite Z.sub_diag, sub_0).
  destruct (Z.ltb_spec dn (zlen data)) as [Hlt|Hge].
  2:{ injection E as <- <-. exists dn, (Ok tt). rewrite Hstop. split_and!; try done; simpl; lia. }
  rewrite sarith_in_range in E by lia.
  destruct (pwrite f (sub data dn (zlen data - dn)) (offset + dn)) as [[k|e] g] eqn:Ep.
  - apply pwrite_ok in Ep as (_ & Hk & Eg & _). rewrite zlen_sub in Hk by lia.
    rewrite sub_sub, Z.add_0_r in Eg by lia. destruct (decide (k = 0)) as [->|Hk0].
    + injection E as <- <-. exists dn, (Err WriteZero). rewrite Hstop, Eg, sub_0.
      split_and!; try done; simpl; lia.
    + assert (E' : pwrite_loop fuel offset data (dn + k) g = Done r f') by (by destruct k).
      apply IH in E' as (d & res & Hdd & -> & Hs & Ec); [|lia]. exists d, res.
      split_and!; [lia|lia|done|done|]. rewrite Ec, Eg.
      replace (d - dn) with (k + (d - (dn + k))) by lia. rewrite sub_split by lia.
      rewrite <-write_at_app by lia. rewrite zlen_sub by lia. f_equal. lia.
  - apply pwrite_err in Ep as [Eg _]. destruct e.
    + apply IH in E; [|done]. by rewrite Eg in E.
    + injection E as <- <-. exists dn, (Err (OsError code)). rewrite Hstop, Eg. split_and!; try done; simpl; lia.
Qed.

Lemma pwrite_loop_returns fuel offset data dn f :
  0 ≤ offset → offset + zlen data < 2 ^ 63 → 0 ≤ dn ≤ zlen data →
  (patience f + Z.to_nat (zlen data - dn) < fuel)%nat →
  ∃ x f', pwrite_loop fuel offset data dn f = Done (Ok x) f'.
Proof.
  intros Ho Hlim. revert dn f. induction fuel as [|fuel IH]; intros dn f Hd Hf; [lia|].
  cbn [pwrite_loop]. destruct (Z.ltb_spec dn (zlen data)) as [Hlt|Hge]; [|eauto].
  rewrite sarith_in_range by lia.
  destruct (pwrite f (sub data dn (zlen data - dn)) (offset + dn)) as [[k|e] g] eqn:Ep.
  - apply pwrite_ok in Ep as (_ & Hk & _ & Hp). rewrite zlen_sub in Hk by lia.
    destruct (decide (k = 0)) as [->|Hk0]; [eauto|].
    assert (He : ∃ x f', pwrite_loop fuel offset data (dn + k) g = Done (Ok x) f') by (apply IH; lia).
    by destruct k.
  - apply pwrite_err in Ep as [_ Hp]. destruct e; [|eauto]. specialize (Hp eq_refl). apply IH; lia.
Qed.

End loops.
