(* ===== verification/PageStore.v ===== *)
(** * Page stores: header page, I/O counters, memory and file backends

    Models [src/crates/storage/src/page_store.rs]: the header page of a store
    file and its validation, the I/O statistics, the methods that
    [PageStore] provides by default, [InMemoryPageStore] and
    [FilePageStore]. A method that reads into [&mut buf] returns the buffer
    with its result, whatever the result is. *)

From S2P Require Import Prelude Bytes FrameKernel Posix.
From Stdlib Require Import Strings.String.
#[local] Open Scope Z_scope.

(** ** Lengths and offsets *)

Definition validate_page_buf_len `{Build} (pid : PageId) (len : Z) : io_result unit :=
  let expected := page_size pid in
  if len =? expected then Ok tt else Err InvalidInput.

Definition page_offset `{Build} (pid : PageId) : outcome Z :=
  sarith 64 (swrap 64 (physical_page_number pid) * PAGE_SIZE).

(** ** Header page *)

Definition HEADER_MAGIC : Z := 1112496212. (* 0x424F5854 *)
Definition HEADER_VERSION : Z := 2.
Definition HEADER_BOOTSTRAP_SIZE : Z := 4 * 1024.
Definition HEADER_MAGIC_OFF : Z := 0.
Definition HEADER_VERSION_OFF : Z := 4.
Definition HEADER_PAGE_COUNT_OFF : Z := 8.
Definition HEADER_CHECKPOINT_LSN_OFF : Z := 16.
Definition HEADER_USER_META_0_OFF : Z := 24.
Definition HEADER_USER_META_1_OFF : Z := 32.
Definition HEADER_USER_META_2_OFF : Z := 40.
Definition HEADER_PAGE_SIZE_OFF : Z := 48.

Definition build_header `{Build} (page_count checkpoint_lsn user_meta_0 user_meta_1 user_meta_2 : Z)
    : list byte :=
  let hdr := fill PAGE_SIZE x00 in
  let hdr := set_le 4 hdr HEADER_MAGIC_OFF HEADER_MAGIC in
  let hdr := set_le 2 hdr HEADER_VERSION_OFF HEADER_VERSION in
  let hdr := set_le 8 hdr HEADER_PAGE_COUNT_OFF page_count in
  let hdr := set_le 8 hdr HEADER_CHECKPOINT_LSN_OFF checkpoint_lsn in
  let hdr := set_le 8 hdr HEADER_USER_META_0_OFF user_meta_0 in
  let hdr := set_le 8 hdr HEADER_USER_META_1_OFF user_meta_1 in
  let hdr := set_le 8 hdr HEADER_USER_META_2_OFF user_meta_2 in
  set_le 4 hdr HEADER_PAGE_SIZE_OFF PAGE_SIZE.

Definition validate_header `{Build} (hdr : list byte) : io_result (Z * Z * Z * Z * Z) :=
  let magic := get_le 4 hdr HEADER_MAGIC_OFF in
  let version := get_le 2 hdr HEADER_VERSION_OFF in
  if negb (magic =? HEADER_MAGIC) then Err InvalidData
  else if negb (version =? HEADER_VERSION) then Err InvalidData
  else
    let stored_page_size := get_le 4 hdr HEADER_PAGE_SIZE_OFF in
    if negb (stored_page_size =? PAGE_SIZE) then Err InvalidData
    else
      let pc := get_le 8 hdr HEADER_PAGE_COUNT_OFF in
      let cl := get_le 8 hdr HEADER_CHECKPOINT_LSN_OFF in
      let tm := get_le 8 hdr HEADER_USER_META_0_OFF in
      let cp := get_le 8 hdr HEADER_USER_META_1_OFF in
      let extra := get_le 8 hdr HEADER_USER_META_2_OFF in
      Ok (pc, cl, tm, cp, extra).

(** ** Statistics *)

Inductive PageReadPurpose := ForegroundRead | PrefetchRead | RecoveryRead.
Inductive PageWritePurpose :=
| ForegroundWrite | BackgroundWrite | CheckpointWrite | RecoveryWrite | MetadataWrite.

Module PageStoreOperationStats.
Record t := { calls : Z; requested_bytes : Z; completed_bytes : Z }.

Definition default : t := {| calls := 0; requested_bytes := 0; completed_bytes := 0 |}.

Definition saturating_add (self other : t) : t := {|
  calls := Prelude.saturating_add 64 (calls self) (calls other);
  requested_bytes := Prelude.saturating_add 64 (requested_bytes self) (requested_bytes other);
  completed_bytes := Prelude.saturating_add 64 (completed_bytes self) (completed_bytes other);
|}.

Definition delta_since (self earlier : t) : t := {|
  calls := saturating_sub (calls self) (calls earlier);
  requested_bytes := saturating_sub (requested_bytes self) (requested_bytes earlier);
  completed_bytes := saturating_sub (completed_bytes self) (completed_bytes earlier);
|}.
End PageStoreOperationStats.

Module PageStoreBatchStats.
Record t := { calls : Z; pages : Z }.

Definition delta_since (self earlier : t) : t := {|
  calls := saturating_sub (calls self) (calls earlier);
  pages := saturating_sub (pages self) (pages earlier);
|}.
End PageStoreBatchStats.

Module PageStoreIoStats.
Record t := {
  reads : PageStoreOperationStats.t;
  writes : PageStoreOperationStats.t;
  direct_reads : PageStoreOperationStats.t;
  direct_writes : PageStoreOperationStats.t;
  buffered_reads : PageStoreOperationStats.t;
  buffered_writes : PageStoreOperationStats.t;
  foreground_reads : PageStoreOperationStats.t;
  prefetch_reads : PageStoreOperationStats.t;
  recovery_reads : PageStoreOperationStats.t;
  foreground_writes : PageStoreOperationStats.t;
  background_writes : PageStoreOperationStats.t;
  checkpoint_writes : PageStoreOperationStats.t;
  recovery_writes : PageStoreOperationStats.t;
  metadata_writes : PageStoreOperationStats.t;
  batched_reads : PageStoreBatchStats.t;
  batched_writes : PageStoreBatchStats.t;
  sync_calls : Z;
  foreground_sync_calls : Z;
  checkpoint_sync_calls : Z;
  recovery_sync_calls : Z;
}.

Definition delta_since (self earlier : t) : t :=
  let op f := PageStoreOperationStats.delta_since (f self) (f earlier) in
  let batch f := PageStoreBatchStats.delta_since (f self) (f earlier) in
  let counter f := saturating_sub (f self) (f earlier) in
  {|
    reads := op reads;
    writes := op writes;
    direct_reads := op direct_reads;
    direct_writes := op direct_writes;
    buffered_reads := op buffered_reads;
    buffered_writes := op buffered_writes;
    foreground_reads := op foreground_reads;
    prefetch_reads := op prefetch_reads;
    recovery_reads := op recovery_reads;
    foreground_writes := op foreground_writes;
    background_writes := op background_writes;
    checkpoint_writes := op checkpoint_writes;
    recovery_writes := op recovery_writes;
    metadata_writes := op metadata_writes;
    batched_reads := batch batched_reads;
    batched_writes := batch batched_writes;
    sync_calls := counter sync_calls;
    foreground_sync_calls := counter foreground_sync_calls;
    checkpoint_sync_calls := counter checkpoint_sync_calls;
    recovery_sync_calls := counter recovery_sync_calls;
  |}.
End PageStoreIoStats.

(** The atomic counters; [fetch_add] wraps. *)
Module AtomicOperationStats.
Record t := {
  successful_calls : Z;
  incomplete_calls : Z;
  incomplete_completed_bytes : Z;
}.

Definition default : t :=
  {| successful_calls := 0; incomplete_calls := 0; incomplete_completed_bytes := 0 |}.

Definition record `{Build} (self : t) (requested completed : Z) : outcome t :=
  _ ← debug_assert (requested =? PAGE_SIZE);
  if completed =? requested then Ret {|
    successful_calls := wrap 64 (successful_calls self + 1);
    incomplete_calls := incomplete_calls self;
    incomplete_completed_bytes := incomplete_completed_bytes self;
  |}
  else Ret {|
    successful_calls := successful_calls self;
    incomplete_calls := wrap 64 (incomplete_calls self + 1);
    incomplete_completed_bytes := wrap 64 (incomplete_completed_bytes self + completed);
  |}.

Definition snapshot `{Build} (self : t) : PageStoreOperationStats.t :=
  let calls := saturating_add 64 (successful_calls self) (incomplete_calls self) in
  {|
    PageStoreOperationStats.calls := calls;
    PageStoreOperationStats.requested_bytes := saturating_mul 64 calls PAGE_SIZE;
    PageStoreOperationStats.completed_bytes :=
      saturating_add 64 (saturating_mul 64 (successful_calls self) PAGE_SIZE)
        (incomplete_completed_bytes self);
  |}.
End AtomicOperationStats.

Module AtomicBatchStats.
Record t := { calls : Z; pages : Z }.

Definition default : t := {| calls := 0; pages := 0 |}.

Definition record (self : t) (n : Z) : t :=
  {| calls := wrap 64 (calls self + 1); pages := wrap 64 (pages self + n) |}.

Definition snapshot (self : t) : PageStoreBatchStats.t :=
  {| PageStoreBatchStats.calls := calls self; PageStoreBatchStats.pages := pages self |}.
End AtomicBatchStats.

Module PageStoreIoCounters.
Record t := {
  foreground_reads : AtomicOperationStats.t;
  prefetch_reads : AtomicOperationStats.t;
  recovery_reads : AtomicOperationStats.t;
  foreground_writes : AtomicOperationStats.t;
  background_writes : AtomicOperationStats.t;
  checkpoint_writes : AtomicOperationStats.t;
  recovery_writes : AtomicOperationStats.t;
  metadata_writes : AtomicOperationStats.t;
  batched_reads : AtomicBatchStats.t;
  batched_writes : AtomicBatchStats.t;
  foreground_sync_calls : Z;
  checkpoint_sync_calls : Z;
  recovery_sync_calls : Z;
}.

Definition default : t := {|
  foreground_reads := AtomicOperationStats.default;
  prefetch_reads := AtomicOperationStats.default;
  recovery_reads := AtomicOperationStats.default;
  foreground_writes := AtomicOperationStats.default;
  background_writes := AtomicOperationStats.default;
  checkpoint_writes := AtomicOperationStats.default;
  recovery_writes := AtomicOperationStats.default;
  metadata_writes := AtomicOperationStats.default;
  batched_reads := AtomicBatchStats.default;
  batched_writes := AtomicBatchStats.default;
  foreground_sync_calls := 0;
  checkpoint_sync_calls := 0;
  recovery_sync_calls := 0;
|}.

(** The three groups of counters, with the others kept. *)
Definition with_reads (self : t) fg pf rc : t := {|
  foreground_reads := fg; prefetch_reads := pf; recovery_reads := rc;
  foreground_writes := foreground_writes self; background_writes := background_writes self;
  checkpoint_writes := checkpoint_writes self; recovery_writes := recovery_writes self;
  metadata_writes := metadata_writes self; batched_reads := batched_reads self;
  batched_writes := batched_writes self; foreground_sync_calls := foreground_sync_calls self;
  checkpoint_sync_calls := checkpoint_sync_calls self; recovery_sync_calls := recovery_sync_calls self;
|}.
Definition with_writes (self : t) fg bg cp rc md : t := {|
  foreground_reads := foreground_reads self; prefetch_reads := prefetch_reads self;
  recovery_reads := recovery_reads self; foreground_writes := fg; background_writes := bg;
  checkpoint_writes := cp; recovery_writes := rc; metadata_writes := md;
  batched_reads := batched_reads self; batched_writes := batched_writes self;
  foreground_sync_calls := foreground_sync_calls self;
  checkpoint_sync_calls := checkpoint_sync_calls self; recovery_sync_calls := recovery_sync_calls self;
|}.
Definition with_syncs (self : t) fg cp rc : t := {|
  foreground_reads := foreground_reads self; prefetch_reads := prefetch_reads self;
  recovery_reads := recovery_reads self; foreground_writes := foreground_writes self;
  background_writes := background_writes self; checkpoint_writes := checkpoint_writes self;
  recovery_writes := recovery_writes self; metadata_writes := metadata_writes self;
  batched_reads := batched_reads self; batched_writes := batched_writes self;
  foreground_sync_calls := fg; checkpoint_sync_calls := cp; recovery_sync_calls := rc;
|}.
Definition with_batched_writes (self : t) bw : t := {|
  foreground_reads := foreground_reads self; prefetch_reads := prefetch_reads self;
  recovery_reads := recovery_reads self; foreground_writes := foreground_writes self;
  background_writes := background_writes self; checkpoint_writes := checkpoint_writes self;
  recovery_writes := recovery_writes self; metadata_writes := metadata_writes self;
  batched_reads := batched_reads self; batched_writes := bw;
  foreground_sync_calls := foreground_sync_calls self;
  checkpoint_sync_calls := checkpoint_sync_calls self; recovery_sync_calls := recovery_sync_calls self;
|}.

Definition record_read `{Build} (self : t) (purpose : PageReadPurpose) (requested completed : Z)
    : outcome t :=
  let fg := foreground_reads self in
  let pf := prefetch_reads self in
  let rc := recovery_reads self in
  match purpose with
  | ForegroundRead => s ← AtomicOperationStats.record fg requested completed; Ret (with_reads self s pf rc)
  | PrefetchRead => s ← AtomicOperationStats.record pf requested completed; Ret (with_reads self fg s rc)
  | RecoveryRead => s ← AtomicOperationStats.record rc requested completed; Ret (with_reads self fg pf s)
  end.

Definition record_write `{Build} (self : t) (purpose : PageWritePurpose) (requested completed : Z)
    : outcome t :=
  let fg := foreground_writes self in
  let bg := background_writes self in
  let cp := checkpoint_writes self in
  let rc := recovery_writes self in
  let md := metadata_writes self in
  match purpose with
  | ForegroundWrite =>
      s ← AtomicOperationStats.record fg requested completed; Ret (with_writes self s bg cp rc md)
  | BackgroundWrite =>
      s ← AtomicOperationStats.record bg requested completed; Ret (with_writes self fg s cp rc md)
  | CheckpointWrite =>
      s ← AtomicOperationStats.record cp requested completed; Ret (with_writes self fg bg s rc md)
  | RecoveryWrite =>
      s ← AtomicOperationStats.record rc requested completed; Ret (with_writes self fg bg cp s md)
  | MetadataWrite =>
      s ← AtomicOperationStats.record md requested completed; Ret (with_writes self fg bg cp rc s)
  end.

Definition record_sync (self : t) (purpose : PageWritePurpose) : t :=
  let fg := foreground_sync_calls self in
  let cp := checkpoint_sync_calls self in
  let rc := recovery_sync_calls self in
  match purpose with
  | CheckpointWrite => with_syncs self fg (wrap 64 (cp + 1)) rc
  | RecoveryWrite => with_syncs self fg cp (wrap 64 (rc + 1))
  | ForegroundWrite | BackgroundWrite | MetadataWrite => with_syncs self (wrap 64 (fg + 1)) cp rc
  end.

Definition snapshot `{Build} (self : t) (direct_io : bool) : PageStoreIoStats.t :=
  let foreground_reads := AtomicOperationStats.snapshot (foreground_reads self) in
  let prefetch_reads := AtomicOperationStats.snapshot (prefetch_reads self) in
  let recovery_reads := AtomicOperationStats.snapshot (recovery_reads self) in
  let reads :=
    PageStoreOperationStats.saturating_add
      (PageStoreOperationStats.saturating_add foreground_reads prefetch_reads) recovery_reads in
  let foreground_writes := AtomicOperationStats.snapshot (foreground_writes self) in
  let background_writes := AtomicOperationStats.snapshot (background_writes self) in
  let checkpoint_writes := AtomicOperationStats.snapshot (checkpoint_writes self) in
  let recovery_writes := AtomicOperationStats.snapshot (recovery_writes self) in
  let metadata_writes := AtomicOperationStats.snapshot (metadata_writes self) in
  let writes :=
    PageStoreOperationStats.saturating_add
      (PageStoreOperationStats.saturating_add
        (PageStoreOperationStats.saturating_add
          (PageStoreOperationStats.saturating_add foreground_writes background_writes)
          checkpoint_writes)
        recovery_writes)
      metadata_writes in
  let none := PageStoreOperationStats.default in
  let '(direct_reads, buffered_reads, direct_writes, buffered_writes) :=
    if direct_io then (reads, none, writes, none) else (none, reads, none, writes) in
  {|
    PageStoreIoStats.reads := reads;
    PageStoreIoStats.writes := writes;
    PageStoreIoStats.direct_reads := direct_reads;
    PageStoreIoStats.direct_writes := direct_writes;
    PageStoreIoStats.buffered_reads := buffered_reads;
    PageStoreIoStats.buffered_writes := buffered_writes;
    PageStoreIoStats.foreground_reads := foreground_reads;
    PageStoreIoStats.prefetch_reads := prefetch_reads;
    PageStoreIoStats.recovery_reads := recovery_reads;
    PageStoreIoStats.foreground_writes := foreground_writes;
    PageStoreIoStats.background_writes := background_writes;
    PageStoreIoStats.checkpoint_writes := checkpoint_writes;
    PageStoreIoStats.recovery_writes := recovery_writes;
    PageStoreIoStats.metadata_writes := metadata_writes;
    PageStoreIoStats.batched_reads := AtomicBatchStats.snapshot (batched_reads self);
    PageStoreIoStats.batched_writes := AtomicBatchStats.snapshot (batched_writes self);
    PageStoreIoStats.sync_calls :=
      saturating_add 64 (saturating_add 64 (foreground_sync_calls self) (checkpoint_sync_calls self))
        (recovery_sync_calls self);
    PageStoreIoStats.foreground_sync_calls := foreground_sync_calls self;
    PageStoreIoStats.checkpoint_sync_calls := checkpoint_sync_calls self;
    PageStoreIoStats.recovery_sync_calls := recovery_sync_calls self;
  |}.
End PageStoreIoCounters.

(** ** Default methods of the [PageStore] trait *)

Section defaults.
Context {St : Type} (write_page : PageId → list byte → IO St unit) (sync : IO St unit).

Definition write_pages (pages : list (PageId * list byte)) : IO St unit :=
  for_each (λ '(pid, data), write_page pid data) pages.

Definition write_pages_and_sync (pages : list (PageId * list byte)) : IO St unit :=
  _ ← write_pages pages;
  sync.
End defaults.

(** ** [InMemoryPageStore] *)

Module InMemoryPageStore.
Section memory.
Context `{Build}.

Definition t := gmap PageId (list byte).

Definition new : t := ∅.

Definition read_page (pid : PageId) (buf : list byte) : IO t (list byte * io_result bool) :=
  match validate_page_buf_len pid (zlen buf) with
  | Err e => mret (buf, Err e)
  | Ok _ =>
      pages ← gets (λ self : t, self);
      match pages !! pid with
      | Some data => buf ← lift (copy_from buf 0 (zlen buf) data); mret (buf, Ok true)
      | None => mret (buf, Ok false)
      end
  end.

Definition write_page (pid : PageId) (data : list byte) : IO t unit :=
  _ ← ret_result (validate_page_buf_len pid (zlen data));
  modify (λ self, <[pid := data]> self).

Definition allocate (pid : PageId) : IO t unit :=
  modify (λ self, <[pid := fill (page_size pid) x00]> self).

Definition sync : IO t unit := mret tt.

(** [keys().map(page_end_base_page).max()]. *)
Definition max_page (self : t) : option Z :=
  foldr (λ pid acc, Some (match acc with
    | Some m => Z.max m (page_end_base_page pid)
    | None => page_end_base_page pid
    end)) None (map fst (map_to_list self)).

Definition len (self : t) : Z := default 0 (max_page self).

Definition next_page_id (self : t) : outcome PageId :=
  match max_page self with
  | Some max => uadd 64 max 1
  | None => Ret 1
  end.

Definition is_empty (self : t) : bool := len self =? 0.

(** [BatchPageStore]: operations are inline, [wait] has nothing to do. *)
Definition submit_read (pid : PageId) (buf : list byte) : IO t (list byte * io_result unit) :=
  r ← read_page pid buf;
  mret (r.1, match r.2 with Ok _ => Ok tt | Err e => Err e end).
Definition submit_write (pid : PageId) (data : list byte) : IO t unit := write_page pid data.
Definition submit_sync : IO t unit := sync.
Definition wait_all : IO t unit := mret tt.

End memory.
End InMemoryPageStore.

(** ** Opening the file *)

(** [page_store_direct_io_enabled], on the value of the environment variable. *)
Definition page_store_direct_io_enabled (var : option string) : bool :=
  match var with
  | Some v =>
      String.eqb v "1" || String.eqb v "true" || String.eqb v "TRUE" || String.eqb v "yes" ||
      String.eqb v "YES"
  | None => false
  end.

(** [open_page_store_fd], on what the two ways to open the path answer. *)
Definition open_page_store_fd {fd} (var : option string) (direct buffered : io_result fd)
    : io_result (fd * bool) :=
  if negb (page_store_direct_io_enabled var) then fd ← buffered; Ok (fd, false)
  else match direct with
       | Ok fd => Ok (fd, true)
       | Err _ => fd ← buffered; Ok (fd, false)
       end.

(** ** [FilePageStore] *)

Module FilePageStore.
Section file.
Context `{Build} `{PosixFile}.

Record t := {
  fd : os;
  direct_io : bool;
  page_count : Z;
  checkpoint_lsn : Z;
  user_meta_0 : Z;
  user_meta_1 : Z;
  user_meta_2 : Z;
  io_counters : PageStoreIoCounters.t;
}.

Definition with_fd (self : t) (fd : os) : t := {|
  fd := fd; direct_io := direct_io self; page_count := page_count self;
  checkpoint_lsn := checkpoint_lsn self; user_meta_0 := user_meta_0 self;
  user_meta_1 := user_meta_1 self; user_meta_2 := user_meta_2 self; io_counters := io_counters self;
|}.
Definition with_counters (self : t) (c : PageStoreIoCounters.t) : t := {|
  fd := fd self; direct_io := direct_io self; page_count := page_count self;
  checkpoint_lsn := checkpoint_lsn self; user_meta_0 := user_meta_0 self;
  user_meta_1 := user_meta_1 self; user_meta_2 := user_meta_2 self; io_counters := c;
|}.
(** The persisted fields: page count, checkpoint LSN and user metadata. *)
Definition with_fields (self : t) (pc cl m0 m1 m2 : Z) : t := {|
  fd := fd self; direct_io := direct_io self; page_count := pc; checkpoint_lsn := cl;
  user_meta_0 := m0; user_meta_1 := m1; user_meta_2 := m2; io_counters := io_counters self;
|}.
Definition set_page_count (self : t) (v : Z) : t :=
  with_fields self v (checkpoint_lsn self) (user_meta_0 self) (user_meta_1 self) (user_meta_2 self).
Definition set_checkpoint_lsn (self : t) (v : Z) : t :=
  with_fields self (page_count self) v (user_meta_0 self) (user_meta_1 self) (user_meta_2 self).
Definition set_user_meta_0 (self : t) (v : Z) : t :=
  with_fields self (page_count self) (checkpoint_lsn self) v (user_meta_1 self) (user_meta_2 self).
Definition set_user_meta_1 (self : t) (v : Z) : t :=
  with_fields self (page_count self) (checkpoint_lsn self) (user_meta_0 self) v (user_meta_2 self).
Definition set_user_meta_2 (self : t) (v : Z) : t :=
  with_fields self (page_count self) (checkpoint_lsn self) (user_meta_0 self) (user_meta_1 self) v.

(** The part of [open] after the file descriptor is open. *)
Definition open_fd (direct : bool) : IO os t :=
  file_size ← (λ f, match fstat f with
                    | (inl n, f) => Done (Ok n) f
                    | (inr e, f) => Done (Err (error_kind e)) f
                    end);
  fields ←
    (if 0 <? file_size then
       if file_size <? HEADER_BOOTSTRAP_SIZE then fail UnexpectedEof
       else
         let hdr_buf := fill PAGE_SIZE x00 in
         head ← pread_exact (sub hdr_buf 0 HEADER_BOOTSTRAP_SIZE) 0;
         ret_result (validate_header (upd hdr_buf 0 head))
     else
       _ ← pwrite_exact (build_header 0 0 0 0 0) 0;
       mret (0, 0, 0, 0, 0));
  let '(pc, cl, m0, m1, m2) := fields in
  gets (λ f, {|
    fd := f; direct_io := direct; page_count := pc; checkpoint_lsn := cl;
    user_meta_0 := m0; user_meta_1 := m1; user_meta_2 := m2;
    io_counters := PageStoreIoCounters.default |}).

(** [open]: a path with a zero byte is not a C string. [direct] and
    [buffered] answer the two [open] system calls. *)
Definition open (var : option string) (path : list byte) (direct buffered : io_result os)
    : exec (option os) t :=
  if existsb (λ b, u8 b =? 0) path then Done (Err InvalidInput) None
  else match open_page_store_fd var direct buffered with
       | Err e => Done (Err e) None
       | Ok (f, d) =>
           match open_fd d f with
           | Done r f => Done r (Some f)
           | Panicked => Panicked
           | OutOfFuel => OutOfFuel
           end
       end.

Definition crash (self : t) : os := fd self.

Definition on_counters (f : PageStoreIoCounters.t → outcome PageStoreIoCounters.t) : IO t unit :=
  self ← gets (λ self, self);
  c ← lift (f (io_counters self));
  modify (λ self, with_counters self c).

Definition pread_exact_for (buf : list byte) (offset : Z) (purpose : PageReadPurpose)
    : IO t (list byte * io_result unit) :=
  r ← zoom fd with_fd (pread_exact_observed buf offset);
  let '(buf, res, (requested, completed)) := r in
  _ ← on_counters (λ c, PageStoreIoCounters.record_read c purpose requested completed);
  mret (buf, res).

Definition pwrite_exact_for (data : list byte) (offset : Z) (purpose : PageWritePurpose) : IO t unit :=
  r ← zoom fd with_fd (pwrite_exact_observed data offset);
  let '(res, (requested, completed)) := r in
  _ ← on_counters (λ c, PageStoreIoCounters.record_write c purpose requested completed);
  ret_result res.

Definition read_page_for_purpose (pid : PageId) (buf : list byte) (purpose : PageReadPurpose)
    : IO t (list byte * io_result bool) :=
  match validate_page_buf_len pid (zlen buf) with
  | Err e => mret (buf, Err e)
  | Ok _ =>
      off ← lift (page_offset pid);
      r ← pread_exact_for buf off purpose;
      let '(buf, res) := r in
      match res with
      | Ok _ => mret (buf, Ok true)
      | Err UnexpectedEof => mret (buf, Ok false)
      | Err e => mret (buf, Err e)
      end
  end.

Definition write_page_for_purpose (pid : PageId) (data : list byte) (purpose : PageWritePurpose)
    : IO t unit :=
  _ ← ret_result (validate_page_buf_len pid (zlen data));
  off ← lift (page_offset pid);
  pwrite_exact_for data off purpose.

Definition sync_header_for (purpose : PageWritePurpose) : IO t unit :=
  hdr_data ← gets (λ self,
    build_header (page_count self) (checkpoint_lsn self) (user_meta_0 self) (user_meta_1 self)
      (user_meta_2 self));
  pwrite_exact_for hdr_data 0 purpose.

Definition sys_fsync : IO t unit := λ self,
  match fsync (fd self) with
  | (None, f) => Done (Ok tt) (with_fd self f)
  | (Some e, f) => Done (Err (error_kind e)) (with_fd self f)
  end.
Definition sys_ftruncate (n : Z) : IO t unit := λ self,
  match ftruncate (fd self) n with
  | (None, f) => Done (Ok tt) (with_fd self f)
  | (Some e, f) => Done (Err (error_kind e)) (with_fd self f)
  end.

Definition sync_for (purpose : PageWritePurpose) : IO t unit :=
  _ ← sync_header_for purpose;
  _ ← on_counters (λ c, Ret (PageStoreIoCounters.record_sync c purpose));
  sys_fsync.

Definition io_stats (self : t) : PageStoreIoStats.t :=
  PageStoreIoCounters.snapshot (io_counters self) (direct_io self).

(** [PageStore for FilePageStore]. *)
Definition read_page (pid : PageId) (buf : list byte) := read_page_for_purpose pid buf ForegroundRead.
Definition write_page (pid : PageId) (data : list byte) := write_page_for_purpose pid data ForegroundWrite.

(** The allocation lock makes the body one step. *)
Definition allocate (pid : PageId) : IO t unit :=
  current ← gets page_count;
  let new_count := page_end_base_page pid in
  if current <? new_count then
    off ← lift (page_offset pid);
    new_end ← lift (sarith 64 (off + page_size pid));
    _ ← sys_ftruncate new_end;
    _ ← modify (λ self, set_page_count self new_count);
    sync_header_for MetadataWrite
  else mret tt.

Definition sync : IO t unit := sync_for ForegroundWrite.

Definition record_batch (pages : list (PageId * list byte)) : IO t unit :=
  on_counters (λ c, Ret (PageStoreIoCounters.with_batched_writes c
    (AtomicBatchStats.record (PageStoreIoCounters.batched_writes c) (zlen pages)))).

Definition write_pages_and_sync (pages : list (PageId * list byte)) : IO t unit :=
  _ ← record_batch pages;
  _ ← for_each (λ '(pid, data), write_page_for_purpose pid data CheckpointWrite) pages;
  sync_for CheckpointWrite.

Definition write_pages (pages : list (PageId * list byte)) : IO t unit :=
  _ ← record_batch pages;
  for_each (λ '(pid, data), write_page_for_purpose pid data BackgroundWrite) pages.

Definition len (self : t) : Z := page_count self.
Definition next_page_id (self : t) : outcome PageId := uadd 64 (page_count self) 1.

(** [BatchPageStore for FilePageStore]. *)
Definition submit_read (pid : PageId) (buf : list byte) : IO t (list byte * io_result unit) :=
  r ← read_page pid buf;
  mret (r.1, match r.2 with Ok _ => Ok tt | Err e => Err e end).
Definition submit_write (pid : PageId) (data : list byte) : IO t unit := write_page pid data.
Definition submit_sync : IO t unit := sync.

(** [Drop]: the header and the sync are attempted, their errors ignored. *)
Definition drop (self : t) : exec os unit :=
  match sync_header_for MetadataWrite self with
  | Done _ self => Done (Ok tt) (fsync (fd self)).2
  | Panicked => Panicked
  | OutOfFuel => OutOfFuel
  end.

(** [RecoveryPageStore for FilePageStore]. *)
Definition recovery_read_page (pid : PageId) (buf : list byte) := read_page_for_purpose pid buf RecoveryRead.
Definition recovery_write_page (pid : PageId) (data : list byte) := write_page_for_purpose pid data RecoveryWrite.
Definition recovery_sync : IO t unit := sync_for RecoveryWrite.

End file.
End FilePageStore.
