(* ===== verification/PageStoreInv.v ===== *)
(** * Page stores: what each step does to the file

    Specifications of the positioned I/O of [FilePageStore] in terms of the
    bytes of the file: every method returns, and what it leaves behind is
    stated for success and for each failure. *)

From S2P Require Import Prelude Bytes FrameKernel Posix PageStore.
#[local] Open Scope Z_scope.

(** [page_cases]: arithmetic with the page size as a factor. *)
Ltac page_cases :=
  let E := fresh in
  destruct PAGE_SIZE_cases as [E|E]; rewrite ?E in *; lia.

(** ** Header page *)

Section header.
Context `{Build}.

Lemma zlen_set_le_to n p off v L :
  zlen p = L → 0 ≤ off → off + Z.of_nat n ≤ L → zlen (set_le n p off v) = L.
Proof. intros <- ? ?. by apply zlen_set_le. Qed.

(** [hdr_side]: the bounds of a header field, also inside written headers. *)
Ltac hdr_len := repeat (apply zlen_set_le_to; [|page_lia..]); first [done|apply zlen_fill; page_lia].
Ltac hdr_side :=
  match goal with
  | |- context [zlen ?p] =>
      let E := fresh in assert (E : zlen p = PAGE_SIZE) by hdr_len; rewrite E; page_lia
  | |- _ => page_lia
  end.
Ltac hdr_unfold :=
  unfold HEADER_MAGIC_OFF, HEADER_VERSION_OFF, HEADER_PAGE_COUNT_OFF, HEADER_CHECKPOINT_LSN_OFF,
    HEADER_USER_META_0_OFF, HEADER_USER_META_1_OFF, HEADER_USER_META_2_OFF, HEADER_PAGE_SIZE_OFF.

Lemma zlen_build_header pc cl m0 m1 m2 : zlen (build_header pc cl m0 m1 m2) = PAGE_SIZE.
Proof. unfold build_header. hdr_unfold. hdr_len. Qed.

Definition u64_fields (pc cl m0 m1 m2 : Z) : Prop :=
  Forall (λ v, 0 ≤ v < 2 ^ 64) [pc; cl; m0; m1; m2].

(** A field of a header page lies in its first 4 KiB. *)
Lemma validate_header_prefix hdr hdr' :
  sub hdr 0 52 = sub hdr' 0 52 → validate_header hdr = validate_header hdr'.
Proof.
  intros E. assert (Hf : ∀ n off, 0 ≤ off → off + Z.of_nat n ≤ 52 → get_le n hdr off = get_le n hdr' off).
  { intros n off ? ?. replace off with (0 + off) by lia.
    rewrite <-(get_le_sub n hdr 0 52), <-(get_le_sub n hdr' 0 52) by lia. by rewrite E. }
  unfold validate_header. hdr_unfold. by rewrite !Hf by lia.
Qed.

Lemma validate_build_header pc cl m0 m1 m2 :
  u64_fields pc cl m0 m1 m2 → validate_header (build_header pc cl m0 m1 m2) = Ok (pc, cl, m0, m1, m2).
Proof.
  unfold u64_fields. rewrite !Forall_cons. intros (? & ? & ? & ? & ? & _).
  unfold validate_header, build_header. hdr_unfold.
  repeat first [rewrite get_set_le_eq by hdr_side|rewrite get_set_le_ne by hdr_side].
  rewrite (wrap_small (8 * Z.of_nat 4) PAGE_SIZE) by page_lia. rewrite (Z.eqb_refl PAGE_SIZE).
  change (wrap (8 * Z.of_nat 4) HEADER_MAGIC) with HEADER_MAGIC.
  change (wrap (8 * Z.of_nat 2) HEADER_VERSION) with HEADER_VERSION.
  by rewrite !wrap_small by (simpl; lia).
Qed.

End header.

(** ** The exact transfers *)

Section exact.
Context `{Build} `{PosixFile}.

Lemma pread_exact_observed_spec buf offset f :
  0 ≤ offset → offset + zlen buf < 2 ^ 63 →
  ∃ d res f', pread_exact_observed buf offset f =
      Done (Ok (upd buf 0 (sub (contents f) offset d), res, (zlen buf, d))) f' ∧
    contents f' = contents f ∧ 0 ≤ d ≤ zlen buf ∧ zlen (sub (contents f) offset d) = d ∧
    read_stop (contents f) offset (zlen buf) d res.
Proof.
  intros Ho Hl. pose proof (zlen_nonneg buf).
  destruct (pread_loop_returns (S (patience f + length buf)) offset buf 0 f) as (x & f' & E);
    [done|done|lia|unfold zlen; lia|].
  pose proof E as E'. apply pread_loop_spec in E' as (Ec & d & res & Hd & Hz & Ex & Hs); [|done|done|lia].
  rewrite Z.add_0_r, Z.sub_0_r in *. injection Ex as ->.
  exists d, res, f'. split_and!; try done; try lia.
  unfold pread_exact_observed. erewrite IO_bind_Ok by done. by erewrite IO_bind_Ok by done.
Qed.

Lemma pwrite_exact_observed_spec data offset f :
  0 ≤ offset → offset + zlen data < 2 ^ 63 →
  ∃ d res f', pwrite_exact_observed data offset f = Done (Ok (res, (zlen data, d))) f' ∧
    contents f' = write_at (contents f) offset (sub data 0 d) ∧ 0 ≤ d ≤ zlen data ∧
    write_stop (zlen data) d res.
Proof.
  intros Ho Hl. pose proof (zlen_nonneg data).
  destruct (pwrite_loop_returns (S (patience f + length data)) offset data 0 f) as (x & f' & E);
    [done|done|lia|unfold zlen; lia|].
  pose proof E as E'. apply pwrite_loop_spec in E' as (d & res & Hd & Ex & Hs & Ec); [|done|done|lia].
  rewrite Z.add_0_r, Z.sub_0_r in *. injection Ex as ->.
  exists d, res, f'. split_and!; try done; try lia.
  unfold pwrite_exact_observed. erewrite IO_bind_Ok by done. by erewrite IO_bind_Ok by done.
Qed.

End exact.

(** ** Pages of a file *)

Section pages.
Context `{Build}.

(** Page [pid] of a store file: [None] beyond the end. *)
Definition page_at (p : list byte) (pid : PageId) : option (list byte) :=
  if (pid + 1) * PAGE_SIZE <=? zlen p then Some (sub p (pid * PAGE_SIZE) PAGE_SIZE) else None.

(** A page number whose byte range fits a file offset. *)
Definition valid_pid (pid : PageId) : Prop := 0 ≤ pid ∧ (pid + 1) * PAGE_SIZE < 2 ^ 63.

Lemma page_offset_ok pid : valid_pid pid → page_offset pid = Ret (pid * PAGE_SIZE).
Proof.
  intros [Hp Hv]. unfold page_offset, physical_page_number.
  assert (0 ≤ pid * PAGE_SIZE < 2 ^ 63) by page_lia.
  assert (pid < 2 ^ 63) by page_lia.
  rewrite swrap_small by lia. apply sarith_in_range. lia.
Qed.

Lemma page_at_zlen p pid d : 0 ≤ pid → page_at p pid = Some d → zlen d = PAGE_SIZE.
Proof.
  unfold page_at. destruct (Z.leb_spec ((pid + 1) * PAGE_SIZE) (zlen p)); [|done].
  intros ? [= <-]. apply zlen_sub; page_lia.
Qed.

(** Writing a page, or a prefix of it, at its place. *)
Lemma page_at_write_at p pid data :
  0 ≤ pid → zlen data = PAGE_SIZE → page_at (write_at p (pid * PAGE_SIZE) data) pid = Some data.
Proof.
  intros Hp Hz. unfold page_at. rewrite zlen_write_at by page_lia.
  rewrite (proj2 (Z.leb_le _ _)) by lia. f_equal. apply sub_write_at_eq; page_lia.
Qed.

Lemma page_at_write_at_ne p pid q data d :
  0 ≤ pid → 0 ≤ q → q ≠ pid → zlen data ≤ PAGE_SIZE →
  page_at p q = Some d → page_at (write_at p (pid * PAGE_SIZE) data) q = Some d.
Proof.
  intros Hp Hq Hne Hz. unfold page_at.
  destruct (Z.leb_spec ((q + 1) * PAGE_SIZE) (zlen p)) as [Hle|]; [|done]. intros [= <-].
  destruct (decide (zlen data = 0)) as [->%zlen_0_nil|Hz0].
  { by rewrite write_at_nil, (proj2 (Z.leb_le _ _)) by done. }
  rewrite zlen_write_at by page_lia. rewrite (proj2 (Z.leb_le _ _)) by lia. f_equal.
  assert (q + 1 ≤ pid ∨ pid + 1 ≤ q) by lia.
  pose proof PAGE_SIZE_cases as [E|E]; rewrite E in *; apply sub_write_at_ne; lia.
Qed.

Lemma zlen_sub_full {A} (p : list A) off n : 0 ≤ off → 0 < n → zlen (sub p off n) = n → off + n ≤ zlen p.
Proof.
  intros Ho Hn Hz. destruct (lookup_lt_is_Some_2 (sub p off n) (Z.to_nat (n - 1))) as [x Hx].
  { unfold zlen in Hz. lia. }
  rewrite lookup_sub in Hx by lia. apply lookup_lt_Some in Hx. unfold zlen. lia.
Qed.

End pages.

(** ** Methods of [FilePageStore] *)

Section methods.
Context `{Build} `{PosixFile}.
Implicit Types self : FilePageStore.t.

(** The bytes of the store's file. *)
Definition file self : list byte := contents (FilePageStore.fd self).

(** [self'] is [self] with another descriptor state and other counters. *)
Definition same_fields self self' : Prop :=
  FilePageStore.page_count self' = FilePageStore.page_count self ∧
  FilePageStore.checkpoint_lsn self' = FilePageStore.checkpoint_lsn self ∧
  FilePageStore.user_meta_0 self' = FilePageStore.user_meta_0 self ∧
  FilePageStore.user_meta_1 self' = FilePageStore.user_meta_1 self ∧
  FilePageStore.user_meta_2 self' = FilePageStore.user_meta_2 self ∧
  FilePageStore.direct_io self' = FilePageStore.direct_io self.

Lemma same_fields_refl self : same_fields self self.
Proof. by unfold same_fields. Qed.
Lemma same_fields_trans s1 s2 s3 : same_fields s1 s2 → same_fields s2 s3 → same_fields s1 s3.
Proof. unfold same_fields. intuition congruence. Qed.
Lemma same_fields_with self f c :
  same_fields self (FilePageStore.with_counters (FilePageStore.with_fd self f) c).
Proof. by unfold same_fields. Qed.
Lemma same_fields_with_fd self f : same_fields self (FilePageStore.with_fd self f).
Proof. by unfold same_fields. Qed.

Lemma record_full_page c completed : ∃ c', AtomicOperationStats.record c PAGE_SIZE completed = Ret c'.
Proof.
  unfold AtomicOperationStats.record. rewrite debug_assert_true by apply Z.eqb_refl.
  rewrite bind_Ret. destruct (_ =? _); eauto.
Qed.

Lemma record_read_Ret c purpose d : ∃ c', PageStoreIoCounters.record_read c purpose PAGE_SIZE d = Ret c'.
Proof.
  unfold PageStoreIoCounters.record_read.
  destruct purpose; edestruct record_full_page as [c' Hc']; rewrite Hc'; eauto.
Qed.
Lemma record_write_Ret c purpose d : ∃ c', PageStoreIoCounters.record_write c purpose PAGE_SIZE d = Ret c'.
Proof.
  unfold PageStoreIoCounters.record_write.
  destruct purpose; edestruct record_full_page as [c' Hc']; rewrite Hc'; eauto.
Qed.

Lemma pread_exact_for_spec buf offset purpose self :
  0 ≤ offset → offset + PAGE_SIZE < 2 ^ 63 → zlen buf = PAGE_SIZE →
  ∃ d res f' c,
    FilePageStore.pread_exact_for buf offset purpose self =
      Done (Ok (upd buf 0 (sub (file self) offset d), res))
        (FilePageStore.with_counters (FilePageStore.with_fd self f') c) ∧
    PageStoreIoCounters.record_read (FilePageStore.io_counters self) purpose PAGE_SIZE d = Ret c ∧
    contents f' = file self ∧ 0 ≤ d ≤ PAGE_SIZE ∧ zlen (sub (file self) offset d) = d ∧
    read_stop (file self) offset PAGE_SIZE d res.
Proof.
  intros Ho Hl Hb.
  destruct (pread_exact_observed_spec buf offset (FilePageStore.fd self)) as (d & res & f' & E & Ec & Hd & Hz & Hs);
    [done|lia|]. rewrite Hb in *.
  destruct (record_read_Ret (FilePageStore.io_counters self) purpose d) as [c Hc].
  exists d, res, f', c. split_and!; try done; try lia.
  unfold FilePageStore.pread_exact_for, zoom, mbind, IO_bind. rewrite E.
  unfold FilePageStore.on_counters, mbind, IO_bind, gets, lift. simpl. by rewrite Hc.
Qed.

Lemma pwrite_exact_for_spec data offset purpose self :
  0 ≤ offset → offset + PAGE_SIZE < 2 ^ 63 → zlen data = PAGE_SIZE →
  ∃ d res f' c,
    FilePageStore.pwrite_exact_for data offset purpose self =
      Done res (FilePageStore.with_counters (FilePageStore.with_fd self f') c) ∧
    PageStoreIoCounters.record_write (FilePageStore.io_counters self) purpose PAGE_SIZE d = Ret c ∧
    contents f' = write_at (file self) offset (sub data 0 d) ∧ 0 ≤ d ≤ PAGE_SIZE ∧
    write_stop PAGE_SIZE d res.
Proof.
  intros Ho Hl Hb.
  destruct (pwrite_exact_observed_spec data offset (FilePageStore.fd self)) as (d & res & f' & E & Ec & Hd & Hs);
    [done|lia|]. rewrite Hb in *.
  destruct (record_write_Ret (FilePageStore.io_counters self) purpose d) as [c Hc].
  exists d, res, f', c. split_and!; try done; try lia.
  unfold FilePageStore.pwrite_exact_for, zoom, mbind, IO_bind. rewrite E.
  unfold FilePageStore.on_counters, mbind, IO_bind, gets, lift. simpl. rewrite Hc. by destruct res.
Qed.

(** An error that comes from the operating system. *)
Definition os_failure (e : ErrorKind) : Prop := e = WriteZero ∨ e = Interrupted ∨ ∃ c, e = OsError c.

Lemma read_page_spec pid buf purpose self :
  valid_pid pid → zlen buf = PAGE_SIZE →
  ∃ buf' res self',
    FilePageStore.read_page_for_purpose pid buf purpose self = Done (Ok (buf', res)) self' ∧
    file self' = file self ∧ same_fields self self' ∧
    match res with
    | Ok true => page_at (file self) pid = Some buf'
    | Ok false => page_at (file self) pid = None
    | Err e => os_failure e
    end.
Proof.
  intros Hv Hb. pose proof Hv as [Hp Hlim]. unfold FilePageStore.read_page_for_purpose, validate_page_buf_len, page_size.
  rewrite Hb, Z.eqb_refl, page_offset_ok by done. cbn -[file].
  destruct (pread_exact_for_spec buf (pid * PAGE_SIZE) purpose self)
    as (d & res & f' & c & E & _ & Ec & Hd & Hz & Hs); [page_lia|page_lia|done|].
  unfold mbind, IO_bind, lift, mret, IO_ret. rewrite E.
  assert (Hself : file (FilePageStore.with_counters (FilePageStore.with_fd self f') c) = file self) by done.
  unfold page_at. destruct res as [[]|e].
  - simpl in Hs. subst d. eexists _, _, _. split_and!; [done|done|apply same_fields_with|].
    apply zlen_sub_full in Hz as Hz'; [|page_lia..]. rewrite (proj2 (Z.leb_le _ _)) by page_lia. f_equal.
    apply list_eq. intros i. rewrite lookup_upd by page_lia. rewrite Hz. case_decide.
    + by rewrite Nat.sub_0_r.
    + rewrite lookup_sub_ge by lia. symmetry. apply lookup_ge_None_2. unfold zlen in Hb. lia.
  - destruct e; try done; eexists _, _, _; (split_and!; [done|done|apply same_fields_with|]).
    + destruct Hs as [Hd' Hz']. destruct (Z.leb_spec ((pid + 1) * PAGE_SIZE) (zlen (file self))); [page_lia|done].
    + right. right. eauto.
Qed.

Lemma write_page_spec pid data purpose self :
  valid_pid pid → zlen data = PAGE_SIZE →
  ∃ d res self',
    FilePageStore.write_page_for_purpose pid data purpose self = Done res self' ∧
    file self' = write_at (file self) (pid * PAGE_SIZE) (sub data 0 d) ∧
    0 ≤ d ≤ PAGE_SIZE ∧ same_fields self self' ∧
    match res with
    | Ok _ => d = PAGE_SIZE
    | Err e => os_failure e
    end.
Proof.
  intros Hv Hb. pose proof Hv as [Hp Hlim]. unfold FilePageStore.write_page_for_purpose, validate_page_buf_len, page_size.
  rewrite Hb, Z.eqb_refl, page_offset_ok by done.
  destruct (pwrite_exact_for_spec data (pid * PAGE_SIZE) purpose self)
    as (d & res & f' & c & E & _ & Ec & Hd & Hs); [page_lia|page_lia|done|].
  exists d, res. eexists. split_and!; [exact E|done|lia|lia|apply same_fields_with|].
  destruct res as [|e]; [done|]. destruct e; try done; [left; done|right; right; eauto].
Qed.

(** The header page of the store's current fields. *)
Definition header_of self : list byte :=
  build_header (FilePageStore.page_count self) (FilePageStore.checkpoint_lsn self)
    (FilePageStore.user_meta_0 self) (FilePageStore.user_meta_1 self) (FilePageStore.user_meta_2 self).

Lemma sync_header_spec purpose self :
  ∃ d res self',
    FilePageStore.sync_header_for purpose self = Done res self' ∧
    file self' = write_at (file self) 0 (sub (header_of self) 0 d) ∧
    0 ≤ d ≤ PAGE_SIZE ∧ same_fields self self' ∧
    match res with
    | Ok _ => d = PAGE_SIZE
    | Err e => os_failure e
    end.
Proof.
  destruct (pwrite_exact_for_spec (header_of self) 0 purpose self)
    as (d & res & f' & c & E & _ & Ec & Hd & Hs); [lia|page_lia|apply zlen_build_header|].
  exists d, res. eexists. split_and!; [exact E|done|lia|lia|apply same_fields_with|].
  destruct res as [|e]; [done|]. destruct e; try done; [left; done|right; right; eauto].
Qed.

Lemma error_kind_failure e : os_failure (error_kind e).
Proof. destruct e; [right; left; done|right; right; eauto]. Qed.

Lemma sync_spec purpose self :
  ∃ d res self',
    FilePageStore.sync_for purpose self = Done res self' ∧
    file self' = write_at (file self) 0 (sub (header_of self) 0 d) ∧
    0 ≤ d ≤ PAGE_SIZE ∧ same_fields self self' ∧
    match res with
    | Ok _ => d = PAGE_SIZE
    | Err e => os_failure e
    end.
Proof.
  destruct (sync_header_spec purpose self) as (d & res & s1 & E & Ef & Hd & Hsf & Hres).
  unfold FilePageStore.sync_for. destruct res as [[]|e].
  2:{ exists d, (Err e), s1. split_and!; try done; try lia. unfold mbind, IO_bind. by rewrite E. }
  erewrite IO_bind_Ok by done. unfold FilePageStore.on_counters.
  unfold FilePageStore.sys_fsync, mbind, IO_bind, gets, lift, modify. simpl.
  destruct (fsync (FilePageStore.fd s1)) as [e f'] eqn:Es. apply fsync_contents in Es.
  destruct e as [e|]; [exists d, (Err (error_kind e))|exists d, (Ok tt)]; eexists;
    (split_and!; [done|rewrite <-Ef; exact Es|lia|lia|
      eapply same_fields_trans; [exact Hsf|by unfold same_fields]|]); [apply error_kind_failure|done].
Qed.

Lemma allocate_skip pid self :
  pid ≤ FilePageStore.page_count self → FilePageStore.allocate pid self = Done (Ok tt) self.
Proof.
  intros Hle. unfold FilePageStore.allocate, mbind, IO_bind, gets, page_end_base_page.
  by rewrite (proj2 (Z.ltb_ge _ _)).
Qed.

(** What [allocate] leaves of the file when it extends the store to [pid] and
    [d] bytes of the new header were written. *)
Definition extended self pid d : list byte :=
  write_at (resize (file self) ((pid + 1) * PAGE_SIZE)) 0
    (sub (header_of (FilePageStore.set_page_count self pid)) 0 d).

Lemma allocate_spec pid self :
  valid_pid pid → FilePageStore.page_count self < pid →
  ∃ res self', FilePageStore.allocate pid self = Done res self' ∧
    match res with
    | Ok _ =>
        same_fields (FilePageStore.set_page_count self pid) self' ∧ file self' = extended self pid PAGE_SIZE
    | Err e =>
        os_failure e ∧
        ((same_fields self self' ∧ file self' = file self) ∨
         (same_fields (FilePageStore.set_page_count self pid) self' ∧
          ∃ d, 0 ≤ d ≤ PAGE_SIZE ∧ file self' = extended self pid d))
    end.
Proof.
  intros Hv Hlt. pose proof Hv as [Hp Hlim].
  unfold FilePageStore.allocate, page_end_base_page, page_size. erewrite IO_bind_Ok by done.
  rewrite (proj2 (Z.ltb_lt _ _)), page_offset_ok by done. erewrite IO_bind_Ok by done.
  rewrite sarith_in_range by page_lia. erewrite IO_bind_Ok by done.
  unfold FilePageStore.sys_ftruncate at 1.
  destruct (ftruncate (FilePageStore.fd self) (pid * PAGE_SIZE + PAGE_SIZE)) as [[e|] f'] eqn:Et.
  - apply ftruncate_err in Et as Ec. exists (Err (error_kind e)), (FilePageStore.with_fd self f').
    split; [unfold mbind, IO_bind; by rewrite Et|]. split; [apply error_kind_failure|]. left. split; [apply same_fields_with_fd|done].
  - apply ftruncate_ok in Et as Ec. destruct Ec as [_ Ec].
    set (s1 := FilePageStore.set_page_count (FilePageStore.with_fd self f') pid).
    destruct (sync_header_spec MetadataWrite s1) as (d & res & s2 & E & Ef & Hd & Hsf & Hres).
    exists res, s2. split; [unfold mbind, IO_bind; rewrite Et; exact E|].
    assert (Hf : file s2 = extended self pid d).
    { rewrite Ef. unfold extended. f_equal. unfold file, s1. simpl. rewrite Ec. f_equal. lia. }
    destruct res as [|e]; [by subst d|]. split; [done|]. right. split; [done|]. exists d. split; [lia|done].
Qed.

(** The persisted fields of a store. *)
Definition fields_of self : Z * Z * Z * Z * Z :=
  (FilePageStore.page_count self, FilePageStore.checkpoint_lsn self, FilePageStore.user_meta_0 self,
   FilePageStore.user_meta_1 self, FilePageStore.user_meta_2 self).

Lemma open_header_read f direct n f1 :
  fstat f = (inl n, f1) → HEADER_BOOTSTRAP_SIZE ≤ zlen (contents f) →
  ∃ r f', FilePageStore.open_fd direct f = Done r f' ∧ contents f' = contents f ∧
    match r with
    | Ok s => FilePageStore.fd s = f' ∧ FilePageStore.direct_io s = direct ∧
        validate_header (contents f) = Ok (fields_of s)
    | Err e => os_failure e ∨ validate_header (contents f) = Err e
    end.
Proof.
  intros Es Hz. apply fstat_ok in Es as Ei. destruct Ei as [-> Ec1].
  unfold HEADER_BOOTSTRAP_SIZE in Hz. unfold FilePageStore.open_fd, HEADER_BOOTSTRAP_SIZE.
  erewrite IO_bind_Ok by (by rewrite Es).
  rewrite (proj2 (Z.ltb_lt 0 _)), (proj2 (Z.ltb_ge _ _)) by lia.
  assert (Hhl : zlen (sub (fill PAGE_SIZE x00) 0 (4 * 1024)) = 4096).
  { rewrite zlen_sub; [done|lia|lia|]. rewrite zlen_fill; page_lia. }
  destruct (pread_exact_observed_spec (sub (fill PAGE_SIZE x00) 0 (4 * 1024)) 0 f1)
    as (d & res & f' & E & Ec & Hd & Hzd & Hs); [lia|rewrite Hhl; lia|]. rewrite Hhl, Ec1 in *.
  destruct res as [[]|e].
  2:{ exists (Err e), f'. split_and!; [|done|].
      - unfold mbind at 1, IO_bind at 1, mbind at 1, IO_bind at 1, pread_exact, mbind at 1, IO_bind at 1.
        by rewrite E.
      - left. destruct e; try done; [destruct Hs; lia|right; right; eauto]. }
  simpl in Hs. subst d.
  assert (Hvh : validate_header (upd (fill PAGE_SIZE x00) 0
      (upd (sub (fill PAGE_SIZE x00) 0 (4 * 1024)) 0 (sub (contents f) 0 4096))) = validate_header (contents f)).
  { apply validate_header_prefix. assert (zlen (fill PAGE_SIZE x00) = PAGE_SIZE) by (apply zlen_fill; page_lia).
    rewrite sub_upd_inside; rewrite ?zlen_upd; rewrite ?Hhl; try page_lia.
    rewrite sub_upd_inside; rewrite ?Hhl; try lia. rewrite sub_sub by lia. done. }
  assert (Eopen : ∀ k : Z * Z * Z * Z * Z → IO os FilePageStore.t,
    ((head ← pread_exact (sub (fill PAGE_SIZE x00) 0 (4 * 1024)) 0;
      ret_result (validate_header (upd (fill PAGE_SIZE x00) 0 head))) ≫= k) f1 =
    match validate_header (contents f) with Ok v => k v f' | Err e => Done (Err e) f' end).
  { intros k. unfold mbind at 1, IO_bind at 1, mbind at 1, IO_bind at 1, pread_exact, mbind at 1, IO_bind at 1.
    rewrite E. cbv beta iota. unfold mbind at 1, IO_bind at 1, ret_result, mret, IO_ret. cbv beta iota. rewrite Hvh. by destruct (validate_header (contents f)). }
  rewrite Eopen. destruct (validate_header (contents f)) as [[[[[pc cl] m0] m1] m2]|e].
  - eexists (Ok _), f'. split; [reflexivity|]. by rewrite Ec.
  - exists (Err e), f'. split_and!; [done|by rewrite Ec|by right].
Qed.

Lemma write_at_empty bs : write_at [] 0 bs = bs.
Proof.
  destruct (decide (zlen bs = 0)) as [->%zlen_0_nil|Hz]; [done|]. pose proof (zlen_nonneg bs).
  rewrite <-(sub_write_at_eq [] 0 bs (zlen bs)) at 2 by lia.
  rewrite <-(sub_all (write_at [] 0 bs)) at 1. f_equal. rewrite zlen_write_at by lia. rewrite zlen_nil. lia.
Qed.

(** Every outcome of opening a store file. *)
Lemma open_fd_spec direct f :
  ∃ r f', FilePageStore.open_fd direct f = Done r f' ∧
    match r with
    | Ok s => FilePageStore.fd s = f' ∧ FilePageStore.direct_io s = direct ∧
        ((zlen (contents f) = 0 ∧ contents f' = build_header 0 0 0 0 0 ∧ fields_of s = (0, 0, 0, 0, 0)) ∨
         (HEADER_BOOTSTRAP_SIZE ≤ zlen (contents f) ∧ contents f' = contents f ∧
          validate_header (contents f) = Ok (fields_of s)))
    | Err e => (zlen (contents f) ≠ 0 → contents f' = contents f) ∧
        (os_failure e ∨ (0 < zlen (contents f) < HEADER_BOOTSTRAP_SIZE ∧ e = UnexpectedEof) ∨
         (HEADER_BOOTSTRAP_SIZE ≤ zlen (contents f) ∧ validate_header (contents f) = Err e))
    end.
Proof.
  pose proof (zlen_nonneg (contents f)) as Hnn.
  destruct (fstat f) as [[n|e] f1] eqn:Es.
  2:{ exists (Err (error_kind e)), f1. apply fstat_err in Es as Ec. split_and!; [|done|left; apply error_kind_failure].
      unfold FilePageStore.open_fd, mbind, IO_bind. by rewrite Es. }
  destruct (decide (HEADER_BOOTSTRAP_SIZE ≤ zlen (contents f))) as [Hbig|Hsmall].
  { destruct (open_header_read f direct n f1 Es Hbig) as (r & f' & E & Ec & Hr).
    exists r, f'. split; [done|]. destruct r as [s|e]; intuition. }
  apply fstat_ok in Es as Ei. destruct Ei as [-> Ec1].
  unfold FilePageStore.open_fd. erewrite IO_bind_Ok by (by rewrite Es).
  destruct (Z.ltb_spec 0 (zlen (contents f))) as [Hpos|Hzero].
  { rewrite (proj2 (Z.ltb_lt _ _)) by lia. exists (Err UnexpectedEof), f1.
    split_and!; [done|done|]. right. left. split; [lia|done]. }
  assert (Hn : contents f = []) by (apply zlen_0_nil; lia).
  destruct (pwrite_exact_observed_spec (build_header 0 0 0 0 0) 0 f1) as (d & res & f' & E & Ec & Hd & Hs);
    [lia|rewrite zlen_build_header; page_lia|]. rewrite Ec1, Hn, write_at_empty, zlen_build_header in *.
  destruct res as [[]|e].
  - eexists (Ok _), f'. split_and!.
    + unfold mbind at 1, IO_bind at 1, mbind at 1, IO_bind at 1, pwrite_exact, mbind at 1, IO_bind at 1.
      rewrite E. reflexivity.
    + done.
    + done.
    + left. simpl in Hs. subst d. split_and!; [done| |done]. rewrite Ec.
      rewrite <-(zlen_build_header 0 0 0 0 0). apply sub_all.
  - exists (Err e), f'. split_and!.
    + unfold mbind at 1, IO_bind at 1, mbind at 1, IO_bind at 1, pwrite_exact, mbind at 1, IO_bind at 1.
      by rewrite E.
    + by rewrite zlen_nil.
    + left. destruct e; try done; [left; done|right; right; eauto].
Qed.

End methods.

(** * Page stores: the I/O counters are exact

    The counters of [FilePageStore] as functions of the history of I/O
    events, the snapshot they yield and the difference of two snapshots. *)

#[local] Open Scope Z_scope.

(** ** Histories *)

(** What [record_read], [record_write], [record_sync] and
    [batched_writes.record] are called with. *)
Inductive io_event :=
| ReadDone (purpose : PageReadPurpose) (completed : Z)
| WriteDone (purpose : PageWritePurpose) (completed : Z)
| SyncDone (purpose : PageWritePurpose)
| BatchWritten (pages : Z).

#[global] Instance PageReadPurpose_eq_dec : EqDecision PageReadPurpose.
Proof. solve_decision. Defined.
#[global] Instance PageWritePurpose_eq_dec : EqDecision PageWritePurpose.
Proof. solve_decision. Defined.

Section stats.
Context `{Build}.

Definition record_event (c : PageStoreIoCounters.t) (e : io_event) : outcome PageStoreIoCounters.t :=
  match e with
  | ReadDone p n => PageStoreIoCounters.record_read c p PAGE_SIZE n
  | WriteDone p n => PageStoreIoCounters.record_write c p PAGE_SIZE n
  | SyncDone p => Ret (PageStoreIoCounters.record_sync c p)
  | BatchWritten n => Ret (PageStoreIoCounters.with_batched_writes c
      (AtomicBatchStats.record (PageStoreIoCounters.batched_writes c) n))
  end.

Fixpoint record_all (c : PageStoreIoCounters.t) (es : list io_event) : outcome PageStoreIoCounters.t :=
  match es with
  | [] => Ret c
  | e :: es => c ← record_event c e; record_all c es
  end.

(** The completed byte counts of the events with a property. *)
Definition reads_with (f : PageReadPurpose → bool) : list io_event → list Z :=
  omap (λ e, match e with ReadDone p n => if f p then Some n else None | _ => None end).
Definition writes_with (f : PageWritePurpose → bool) : list io_event → list Z :=
  omap (λ e, match e with WriteDone p n => if f p then Some n else None | _ => None end).
Definition syncs_with (f : PageWritePurpose → bool) : list io_event → list unit :=
  omap (λ e, match e with SyncDone p => if f p then Some tt else None | _ => None end).
Definition batches : list io_event → list Z :=
  omap (λ e, match e with BatchWritten n => Some n | _ => None end).
Definition total (l : list Z) : Z := foldr Z.add 0 l.

(** A history whose counters stay below [2^64]. *)
Definition event_ok (e : io_event) : Prop :=
  match e with
  | ReadDone _ n | WriteDone _ n => 0 ≤ n ≤ PAGE_SIZE
  | BatchWritten n => 0 ≤ n
  | SyncDone _ => True
  end.
Definition history_ok (es : list io_event) : Prop :=
  Forall event_ok es ∧ zlen es * PAGE_SIZE < 2 ^ 64 ∧ total (batches es) < 2 ^ 64.

(** ** What the counters should say *)

Definition op_stats (cs : list Z) : PageStoreOperationStats.t := {|
  PageStoreOperationStats.calls := zlen cs;
  PageStoreOperationStats.requested_bytes := zlen cs * PAGE_SIZE;
  PageStoreOperationStats.completed_bytes := total cs;
|}.
Definition is_read (p : PageReadPurpose) := λ q, bool_decide (q = p).
Definition is_write (p : PageWritePurpose) := λ q, bool_decide (q = p).
Definition foreground_sync (p : PageWritePurpose) : bool :=
  match p with CheckpointWrite | RecoveryWrite => false | _ => true end.
Definition any_read (_ : PageReadPurpose) := true.
Definition any_write (_ : PageWritePurpose) := true.

Definition stats_of (direct : bool) (es : list io_event) : PageStoreIoStats.t :=
  let r f := op_stats (reads_with f es) in
  let w f := op_stats (writes_with f es) in
  let only (b : bool) s := if b then s else PageStoreOperationStats.default in
  {|
    PageStoreIoStats.reads := r any_read;
    PageStoreIoStats.writes := w any_write;
    PageStoreIoStats.direct_reads := only direct (r any_read);
    PageStoreIoStats.direct_writes := only direct (w any_write);
    PageStoreIoStats.buffered_reads := only (negb direct) (r any_read);
    PageStoreIoStats.buffered_writes := only (negb direct) (w any_write);
    PageStoreIoStats.foreground_reads := r (is_read ForegroundRead);
    PageStoreIoStats.prefetch_reads := r (is_read PrefetchRead);
    PageStoreIoStats.recovery_reads := r (is_read RecoveryRead);
    PageStoreIoStats.foreground_writes := w (is_write ForegroundWrite);
    PageStoreIoStats.background_writes := w (is_write BackgroundWrite);
    PageStoreIoStats.checkpoint_writes := w (is_write CheckpointWrite);
    PageStoreIoStats.recovery_writes := w (is_write RecoveryWrite);
    PageStoreIoStats.metadata_writes := w (is_write MetadataWrite);
    PageStoreIoStats.batched_reads :=
      {| PageStoreBatchStats.calls := 0; PageStoreBatchStats.pages := 0 |};
    PageStoreIoStats.batched_writes :=
      {| PageStoreBatchStats.calls := zlen (batches es); PageStoreBatchStats.pages := total (batches es) |};
    PageStoreIoStats.sync_calls := zlen (syncs_with any_write es);
    PageStoreIoStats.foreground_sync_calls := zlen (syncs_with foreground_sync es);
    PageStoreIoStats.checkpoint_sync_calls := zlen (syncs_with (is_write CheckpointWrite) es);
    PageStoreIoStats.recovery_sync_calls := zlen (syncs_with (is_write RecoveryWrite) es);
  |}.

(** ** The counters *)

Definition ops_of (cs : list Z) : AtomicOperationStats.t := {|
  AtomicOperationStats.successful_calls := zlen (filter (λ n, n = PAGE_SIZE) cs);
  AtomicOperationStats.incomplete_calls := zlen (filter (λ n, n ≠ PAGE_SIZE) cs);
  AtomicOperationStats.incomplete_completed_bytes := total (filter (λ n, n ≠ PAGE_SIZE) cs);
|}.
Definition counters_of (es : list io_event) : PageStoreIoCounters.t := {|
  PageStoreIoCounters.foreground_reads := ops_of (reads_with (is_read ForegroundRead) es);
  PageStoreIoCounters.prefetch_reads := ops_of (reads_with (is_read PrefetchRead) es);
  PageStoreIoCounters.recovery_reads := ops_of (reads_with (is_read RecoveryRead) es);
  PageStoreIoCounters.foreground_writes := ops_of (writes_with (is_write ForegroundWrite) es);
  PageStoreIoCounters.background_writes := ops_of (writes_with (is_write BackgroundWrite) es);
  PageStoreIoCounters.checkpoint_writes := ops_of (writes_with (is_write CheckpointWrite) es);
  PageStoreIoCounters.recovery_writes := ops_of (writes_with (is_write RecoveryWrite) es);
  PageStoreIoCounters.metadata_writes := ops_of (writes_with (is_write MetadataWrite) es);
  PageStoreIoCounters.batched_reads := AtomicBatchStats.default;
  PageStoreIoCounters.batched_writes :=
    {| AtomicBatchStats.calls := zlen (batches es); AtomicBatchStats.pages := total (batches es) |};
  PageStoreIoCounters.foreground_sync_calls := zlen (syncs_with foreground_sync es);
  PageStoreIoCounters.checkpoint_sync_calls := zlen (syncs_with (is_write CheckpointWrite) es);
  PageStoreIoCounters.recovery_sync_calls := zlen (syncs_with (is_write RecoveryWrite) es);
|}.

Lemma total_app a b : total (a ++ b) = total a + total b.
Proof. induction a as [|x a IH]; simpl; lia. Qed.

Lemma total_cons x a : total (x :: a) = x + total a.
Proof. done. Qed.

(** Completed byte counts of page-sized requests, few enough to count. *)
Definition sizes_ok (cs : list Z) : Prop :=
  Forall (λ n, 0 ≤ n ≤ PAGE_SIZE) cs ∧ zlen cs * PAGE_SIZE < 2 ^ 64.

Lemma total_bound cs : Forall (λ n, 0 ≤ n ≤ PAGE_SIZE) cs → 0 ≤ total cs ≤ zlen cs * PAGE_SIZE.
Proof.
  induction 1 as [|n cs Hn Hcs IH]; [unfold zlen; simpl; lia|]. rewrite zlen_cons. simpl. lia.
Qed.

Lemma split_sizes cs :
  Forall (λ n, 0 ≤ n ≤ PAGE_SIZE) cs →
  zlen (filter (λ n, n = PAGE_SIZE) cs) + zlen (filter (λ n, n ≠ PAGE_SIZE) cs) = zlen cs ∧
  zlen (filter (λ n, n = PAGE_SIZE) cs) * PAGE_SIZE + total (filter (λ n, n ≠ PAGE_SIZE) cs) = total cs ∧
  0 ≤ total (filter (λ n, n ≠ PAGE_SIZE) cs).
Proof.
  induction 1 as [|n cs Hn Hcs IH]; [unfold zlen; simpl; lia|].
  rewrite !filter_cons. repeat case_decide; rewrite !zlen_cons; simpl; lia.
Qed.

Lemma record_ops cs n :
  sizes_ok (cs ++ [n]) → AtomicOperationStats.record (ops_of cs) PAGE_SIZE n = Ret (ops_of (cs ++ [n])).
Proof.
  intros [Hf Hb]. rewrite zlen_app, zlen_cons, zlen_nil in Hb. apply Forall_app in Hf as [Hf Hn].
  apply Forall_cons in Hn as [Hn _]. destruct (split_sizes cs Hf) as (Hl & Ht & Hnn).
  pose proof (total_bound cs Hf).
  pose proof (zlen_nonneg (filter (λ n, n = PAGE_SIZE) cs)). pose proof (zlen_nonneg (filter (λ n, n ≠ PAGE_SIZE) cs)).
  unfold AtomicOperationStats.record. rewrite debug_assert_true, bind_Ret by apply Z.eqb_refl.
  unfold ops_of. rewrite !filter_app, !filter_cons, !filter_nil, !zlen_app, !total_app.
  destruct (Z.eqb_spec n PAGE_SIZE) as [->|Hne].
  - rewrite decide_True by done. rewrite decide_False by (intros Hc; by apply Hc).
    rewrite zlen_cons, zlen_nil. simpl. rewrite wrap_small by page_lia. do 2 f_equal; lia.
  - rewrite decide_False, decide_True by done. rewrite zlen_cons, zlen_nil. simpl.
    rewrite !wrap_small by page_lia. do 2 f_equal; lia.
Qed.

Lemma snapshot_ops cs : sizes_ok cs → AtomicOperationStats.snapshot (ops_of cs) = op_stats cs.
Proof.
  intros [Hf Hb]. destruct (split_sizes cs Hf) as (Hl & Ht & Hnn). pose proof (total_bound cs Hf).
  pose proof (zlen_nonneg (filter (λ n, n = PAGE_SIZE) cs)). pose proof (zlen_nonneg (filter (λ n, n ≠ PAGE_SIZE) cs)).
  unfold AtomicOperationStats.snapshot, op_stats, saturating_add, saturating_mul. simpl.
  rewrite Hl. rewrite (Z.min_l (zlen cs)) by page_lia. rewrite (Z.min_l (zlen cs * PAGE_SIZE)) by lia.
  rewrite (Z.min_l (_ * PAGE_SIZE)) by lia. rewrite Ht, Z.min_l by lia. done.
Qed.

Lemma op_stats_add a b :
  sizes_ok (a ++ b) → PageStoreOperationStats.saturating_add (op_stats a) (op_stats b) = op_stats (a ++ b).
Proof.
  intros [Hf Hb]. pose proof (total_bound _ Hf) as Ht. rewrite zlen_app in Hb. rewrite total_app, zlen_app in Ht.
  unfold PageStoreOperationStats.saturating_add, op_stats, saturating_add. simpl.
  rewrite zlen_app, total_app, !Z.min_l by page_lia. f_equal. lia.
Qed.

Lemma op_stats_delta a b :
  Forall (λ n, 0 ≤ n ≤ PAGE_SIZE) b →
  PageStoreOperationStats.delta_since (op_stats (a ++ b)) (op_stats a) = op_stats b.
Proof.
  intros Hf. pose proof (total_bound _ Hf). pose proof (zlen_nonneg b).
  unfold PageStoreOperationStats.delta_since, op_stats, saturating_sub. simpl.
  rewrite zlen_app, total_app. f_equal; page_lia.
Qed.

Lemma op_stats_eq a b : zlen a = zlen b → total a = total b → op_stats a = op_stats b.
Proof. unfold op_stats. by intros -> ->. Qed.

(** ** Histories, event by event *)

#[local] Arguments omap : simpl never.

Lemma omap_cons {A B} (f : A → option B) x l :
  omap f (x :: l) = match f x with Some y => y :: omap f l | None => omap f l end.
Proof. done. Qed.

Lemma omap_nil {A B} (f : A → option B) : omap f [] = [].
Proof. done. Qed.

Lemma zlen_omap_le {A B} (f : A → option B) l : zlen (omap f l) ≤ zlen l.
Proof.
  unfold zlen. induction l as [|x l IH]; [done|]. rewrite omap_cons.
  destruct (f x); simpl; lia.
Qed.

Lemma reads_ok f es : history_ok es → sizes_ok (reads_with f es).
Proof.
  intros (Hf & Hb & _). split.
  - apply Forall_forall. intros n (e & He & Hn)%list_elem_of_omap. rewrite Forall_forall in Hf.
    specialize (Hf e He). destruct e; try done. simpl in *. destruct (f purpose); by simplify_eq.
  - pose proof (zlen_omap_le (λ e, match e with ReadDone p n => if f p then Some n else None | _ => None end) es).
    unfold reads_with. page_lia.
Qed.
Lemma writes_ok f es : history_ok es → sizes_ok (writes_with f es).
Proof.
  intros (Hf & Hb & _). split.
  - apply Forall_forall. intros n (e & He & Hn)%list_elem_of_omap. rewrite Forall_forall in Hf.
    specialize (Hf e He). destruct e; try done. simpl in *. destruct (f purpose); by simplify_eq.
  - pose proof (zlen_omap_le (λ e, match e with WriteDone p n => if f p then Some n else None | _ => None end) es).
    unfold writes_with. page_lia.
Qed.
Lemma syncs_bound f es : history_ok es → 0 ≤ zlen (syncs_with f es) < 2 ^ 64.
Proof.
  intros (_ & Hb & _). split; [apply zlen_nonneg|].
  pose proof (zlen_omap_le (λ e, match e with SyncDone p => if f p then Some tt else None | _ => None end) es).
  pose proof (zlen_nonneg es). unfold syncs_with. page_lia.
Qed.
Lemma batches_nonneg es : Forall event_ok es → 0 ≤ total (batches es).
Proof.
  induction 1 as [|e es He Hes IH]; [done|]. unfold batches in *. rewrite omap_cons.
  destruct e; simpl in *; lia.
Qed.
Lemma batches_bound es : history_ok es → 0 ≤ zlen (batches es) < 2 ^ 64 ∧ 0 ≤ total (batches es) < 2 ^ 64.
Proof.
  intros (Hf & Hb & Ht). pose proof (zlen_nonneg es). split; [split; [apply zlen_nonneg|]|split; [|done]].
  - pose proof (zlen_omap_le (λ e, match e with BatchWritten n => Some n | _ => None end) es). unfold batches. page_lia.
  - by apply batches_nonneg.
Qed.

Lemma history_ok_app es es' : history_ok (es ++ es') → history_ok es ∧ history_ok es'.
Proof.
  intros Hh. pose proof Hh as (Hf & Hb & Ht). apply Forall_app in Hf as [Hf Hf'].
  rewrite zlen_app in Hb. pose proof (zlen_nonneg es). pose proof (zlen_nonneg es').
  unfold batches in Ht. rewrite omap_app, total_app in Ht. fold (batches es) (batches es') in Ht.
  pose proof (batches_nonneg _ Hf). pose proof (batches_nonneg _ Hf'). split; (split_and!; [done|page_lia|lia]).
Qed.

Lemma record_event_step es e :
  history_ok (es ++ [e]) → record_event (counters_of es) e = Ret (counters_of (es ++ [e])).
Proof.
  intros Hh. unfold counters_of, reads_with, writes_with, syncs_with, batches. rewrite !omap_app.
  destruct e as [p n|p n|p|n].
  - pose proof (reads_ok (is_read p) _ Hh) as Hr. unfold reads_with in Hr. rewrite omap_app in Hr.
    destruct p; simpl in *; unfold PageStoreIoCounters.record_read; simpl; rewrite ?app_nil_r;
      by erewrite record_ops by exact Hr.
  - pose proof (writes_ok (is_write p) _ Hh) as Hr. unfold writes_with in Hr. rewrite omap_app in Hr.
    destruct p; simpl in *; unfold PageStoreIoCounters.record_write; simpl; rewrite ?app_nil_r;
      by erewrite record_ops by exact Hr.
  - pose proof (syncs_bound foreground_sync _ Hh) as Hs1. pose proof (syncs_bound (is_write CheckpointWrite) _ Hh) as Hs2.
    pose proof (syncs_bound (is_write RecoveryWrite) _ Hh) as Hs3. unfold syncs_with in *.
    rewrite omap_app, zlen_app in Hs1, Hs2, Hs3. simpl. unfold PageStoreIoCounters.record_sync.
    rewrite !omap_cons, !omap_nil in *. destruct p; simpl in *;
      rewrite ?app_nil_r, ?zlen_app, ?zlen_cons, ?(@zlen_nil unit) in *; by rewrite wrap_small by lia.
  - destruct (batches_bound _ Hh) as [Hb1 Hb2]. unfold batches in *.
    rewrite omap_app, zlen_app in Hb1. rewrite omap_app, total_app in Hb2.
    rewrite !omap_cons, !omap_nil in *. simpl in *. rewrite !app_nil_r.
    unfold PageStoreIoCounters.with_batched_writes, AtomicBatchStats.record. simpl.
    rewrite !zlen_app, !total_app, !zlen_cons, !(@zlen_nil Z) in *. simpl in *. rewrite !Z.add_0_r in *.
    by rewrite !wrap_small by lia.
Qed.

Lemma record_all_spec es es' :
  history_ok (es ++ es') → record_all (counters_of es) es' = Ret (counters_of (es ++ es')).
Proof.
  revert es. induction es' as [|e es' IH]; intros es Hh; [by rewrite app_nil_r|].
  replace (es ++ e :: es') with ((es ++ [e]) ++ es') in * by (by rewrite <-app_assoc).
  cbn [record_all]. rewrite record_event_step by (by apply history_ok_app in Hh as [? _]).
  by apply IH.
Qed.

(** ** Snapshots *)

Lemma reads_with_cons f e es :
  reads_with f (e :: es) =
    match e with ReadDone p n => if f p then [n] else [] | _ => [] end ++ reads_with f es.
Proof. unfold reads_with. rewrite omap_cons. destruct e; try done. by destruct (f purpose). Qed.
Lemma writes_with_cons f e es :
  writes_with f (e :: es) =
    match e with WriteDone p n => if f p then [n] else [] | _ => [] end ++ writes_with f es.
Proof. unfold writes_with. rewrite omap_cons. destruct e; try done. by destruct (f purpose). Qed.
Lemma syncs_with_cons f e es :
  syncs_with f (e :: es) =
    match e with SyncDone p => if f p then [tt] else [] | _ => [] end ++ syncs_with f es.
Proof. unfold syncs_with. rewrite omap_cons. destruct e; try done. by destruct (f purpose). Qed.

Lemma reads_partition es :
  let all := (reads_with (is_read ForegroundRead) es ++ reads_with (is_read PrefetchRead) es) ++
    reads_with (is_read RecoveryRead) es in
  zlen (reads_with any_read es) = zlen all ∧ total (reads_with any_read es) = total all.
Proof.
  cbv zeta. rewrite !zlen_app, !total_app. induction es as [|e es IH]; [done|].
  rewrite !reads_with_cons, !zlen_app, !total_app.
  destruct e as [p n| | |]; [|unfold zlen, total in *; simpl; lia..]. destruct p; unfold zlen, total in *; simpl; lia.
Qed.
Lemma writes_partition es :
  let all := (((writes_with (is_write ForegroundWrite) es ++ writes_with (is_write BackgroundWrite) es) ++
    writes_with (is_write CheckpointWrite) es) ++ writes_with (is_write RecoveryWrite) es) ++
    writes_with (is_write MetadataWrite) es in
  zlen (writes_with any_write es) = zlen all ∧ total (writes_with any_write es) = total all.
Proof.
  cbv zeta. rewrite !zlen_app, !total_app. induction es as [|e es IH]; [done|].
  rewrite !writes_with_cons, !zlen_app, !total_app.
  destruct e as [|p n| |]; [unfold zlen, total in *; simpl; lia| |unfold zlen, total in *; simpl; lia..]. destruct p; unfold zlen, total in *; simpl; lia.
Qed.
Lemma syncs_partition es :
  zlen (syncs_with any_write es) = zlen (syncs_with foreground_sync es) +
    zlen (syncs_with (is_write CheckpointWrite) es) + zlen (syncs_with (is_write RecoveryWrite) es).
Proof.
  induction es as [|e es IH]; [done|]. rewrite !syncs_with_cons, !zlen_app.
  destruct e as [| |p|]; [unfold zlen, total in *; simpl; lia..| |unfold zlen, total in *; simpl; lia]. destruct p; unfold zlen, total in *; simpl; lia.
Qed.

Lemma sizes_ok_zlen a b :
  zlen a = zlen b → Forall (λ n, 0 ≤ n ≤ PAGE_SIZE) b → sizes_ok a → sizes_ok b.
Proof. intros E Hf [_ Hb]. split; [done|]. by rewrite <-E. Qed.
Lemma sizes_ok_app_l a b : sizes_ok (a ++ b) → sizes_ok a.
Proof.
  intros [Hf Hb]. apply Forall_app in Hf as [Hf _]. rewrite zlen_app in Hb. split; [done|].
  pose proof (zlen_nonneg b). page_lia.
Qed.

Lemma snapshot_spec es direct :
  history_ok es → PageStoreIoCounters.snapshot (counters_of es) direct = stats_of direct es.
Proof.
  intros Hh. unfold PageStoreIoCounters.snapshot, counters_of, stats_of. simpl.
  rewrite !snapshot_ops by (by apply reads_ok || by apply writes_ok).
  destruct (reads_partition es) as [Hrl Hrt]. destruct (writes_partition es) as [Hwl Hwt].
  assert (Hr : sizes_ok ((reads_with (is_read ForegroundRead) es ++
    reads_with (is_read PrefetchRead) es) ++ reads_with (is_read RecoveryRead) es)).
  { eapply sizes_ok_zlen; [exact Hrl| |by apply reads_ok].
    rewrite !Forall_app. split_and!; by apply reads_ok. }
  assert (Hw : sizes_ok ((((writes_with (is_write ForegroundWrite) es ++ writes_with (is_write BackgroundWrite) es) ++
    writes_with (is_write CheckpointWrite) es) ++ writes_with (is_write RecoveryWrite) es) ++
    writes_with (is_write MetadataWrite) es)).
  { eapply sizes_ok_zlen; [exact Hwl| |by apply writes_ok].
    rewrite !Forall_app. split_and!; by apply writes_ok. }
  rewrite !op_stats_add by (done || eauto using sizes_ok_app_l).
  rewrite <-(op_stats_eq _ _ Hrl Hrt), <-(op_stats_eq _ _ Hwl Hwt).
  pose proof (syncs_partition es) as Hs. pose proof (syncs_bound any_write _ Hh).
  pose proof (zlen_nonneg (syncs_with (is_write RecoveryWrite) es)).
  unfold saturating_add. rewrite (Z.min_l (_ + zlen (syncs_with (is_write CheckpointWrite) es))) by lia.
  rewrite Z.min_l by lia. rewrite <-Hs. by destruct direct.
Qed.

Lemma stats_delta direct es es' :
  history_ok (es ++ es') →
  PageStoreIoStats.delta_since (stats_of direct (es ++ es')) (stats_of direct es) = stats_of direct es'.
Proof.
  intros Hh. apply history_ok_app in Hh as [_ Hh].
  unfold PageStoreIoStats.delta_since, stats_of. simpl.
  assert (Hr : ∀ f, reads_with f (es ++ es') = reads_with f es ++ reads_with f es') by (intros; apply omap_app).
  assert (Hw : ∀ f, writes_with f (es ++ es') = writes_with f es ++ writes_with f es') by (intros; apply omap_app).
  assert (Hs : ∀ f, zlen (syncs_with f (es ++ es')) = zlen (syncs_with f es) + zlen (syncs_with f es')).
  { intros. unfold syncs_with. by rewrite omap_app, zlen_app. }
  assert (Hsub : ∀ x y, 0 ≤ y → saturating_sub (x + y) x = y) by (unfold saturating_sub; lia).
  unfold batches. rewrite !Hr, !Hw, !Hs, omap_app. fold (batches es) (batches es').
  destruct (batches_bound _ Hh). unfold PageStoreBatchStats.delta_since. simpl. rewrite zlen_app, total_app.
  rewrite !Hsub by (apply zlen_nonneg || lia).
  destruct direct; simpl; rewrite !op_stats_delta by (by apply reads_ok || by apply writes_ok); done.
Qed.

End stats.
