(* ===== verification/PageStoreSpec.v ===== *)
(** * Page stores: properties

    The theorems about the store file: its header page, the exact
    transfers under any kernel behaviour, the pages as a map, allocation,
    reopening, and the counters. *)

From S2P Require Import Prelude Bytes FrameKernel Posix PageStore PageStoreInv.
#[local] Open Scope Z_scope.

(** The header page is read back as it was written, from its first 4 KiB
    alone: [validate_header] returns the five fields [build_header] was given
    for any header that agrees with the built one on the bootstrap block. It
    accepts exactly the headers with the magic number, the format version and
    the page size of the build, and rejects every other one with
    [InvalidData]. *)
Theorem header_page_roundtrip `{Build} pc cl m0 m1 m2 :
  u64_fields pc cl m0 m1 m2 →
  zlen (build_header pc cl m0 m1 m2) = PAGE_SIZE ∧
  (∀ hdr, sub hdr 0 HEADER_BOOTSTRAP_SIZE = sub (build_header pc cl m0 m1 m2) 0 HEADER_BOOTSTRAP_SIZE →
    validate_header hdr = Ok (pc, cl, m0, m1, m2)) ∧
  (∀ hdr, match validate_header hdr with
    | Ok fields => get_le 4 hdr 0 = HEADER_MAGIC ∧ get_le 2 hdr 4 = HEADER_VERSION ∧
        get_le 4 hdr 48 = PAGE_SIZE ∧
        fields = (get_le 8 hdr 8, get_le 8 hdr 16, get_le 8 hdr 24, get_le 8 hdr 32, get_le 8 hdr 40)
    | Err e => e = InvalidData ∧
        (get_le 4 hdr 0 ≠ HEADER_MAGIC ∨ get_le 2 hdr 4 ≠ HEADER_VERSION ∨ get_le 4 hdr 48 ≠ PAGE_SIZE)
    end).
Proof.
  intros Hf. split_and!.
  - apply zlen_build_header.
  - intros hdr E. rewrite <-(validate_build_header pc cl m0 m1 m2 Hf). apply validate_header_prefix.
    unfold HEADER_BOOTSTRAP_SIZE in E.
    apply (f_equal (λ l, sub l 0 52)) in E. rewrite !sub_sub in E by lia. exact E.
  - intros hdr. unfold validate_header.
    destruct (Z.eqb_spec (get_le 4 hdr HEADER_MAGIC_OFF) HEADER_MAGIC) as [E1|E1]; simpl; [|auto].
    destruct (Z.eqb_spec (get_le 2 hdr HEADER_VERSION_OFF) HEADER_VERSION) as [E2|E2]; simpl; [|auto].
    destruct (Z.eqb_spec (get_le 4 hdr HEADER_PAGE_SIZE_OFF) PAGE_SIZE) as [E3|E3]; simpl; [|auto].
    auto.
Qed.

Lemma header_page_roundtrip_witness :
  u64_fields 7 99 3 2 1 ∧
  validate_header (H := release_64k) (build_header (H := release_64k) 7 99 3 2 1) = Ok (7, 99, 3, 2, 1).
Proof.
  assert (Hf : u64_fields 7 99 3 2 1) by (repeat constructor; lia).
  split; [exact Hf|].
  destruct (@header_page_roundtrip release_64k 7 99 3 2 1 Hf) as (_ & Hv & _). by apply Hv.
Defined.

(** The retry loops are exact whatever the kernel does. They return (no
    script of short transfers and interruptions makes them spin), never
    panic for offsets in range, and never surface an interruption. A read
    that succeeds has filled the buffer with the file's bytes at the offset;
    one that reports end of file stopped where the file ends; in every case
    the observed count is the number of bytes placed at the front of the
    buffer and the file is unchanged. A write that succeeds has put the whole
    buffer at the offset; one that fails has put exactly the observed prefix
    there. *)
Theorem exact_io_correct `{Build} `{PosixFile} buf offset f :
  0 ≤ offset → offset + zlen buf < 2 ^ 63 →
  (∃ d res f',
    pread_exact_observed buf offset f =
      Done (Ok (upd buf 0 (sub (contents f) offset d), res, (zlen buf, d))) f' ∧
    contents f' = contents f ∧ 0 ≤ d ≤ zlen buf ∧ zlen (sub (contents f) offset d) = d ∧
    match res with
    | Ok _ => d = zlen buf
    | Err e => d < zlen buf ∧ (e = UnexpectedEof ∧ zlen (contents f) ≤ offset + d ∨ ∃ c, e = OsError c)
    end) ∧
  (∃ d res f',
    pwrite_exact_observed buf offset f = Done (Ok (res, (zlen buf, d))) f' ∧
    contents f' = write_at (contents f) offset (sub buf 0 d) ∧ 0 ≤ d ≤ zlen buf ∧
    match res with
    | Ok _ => d = zlen buf ∧ sub (contents f') offset (zlen buf) = buf
    | Err e => d < zlen buf ∧ (e = WriteZero ∨ ∃ c, e = OsError c)
    end).
Proof.
  intros Ho Hl. split.
  - destruct (pread_exact_observed_spec buf offset f Ho Hl) as (d & res & f' & E & Ec & Hd & Hz & Hs).
    exists d, res, f'. split_and!; [done|done|lia|lia|done|].
    destruct res as [|e]; [done|]. destruct e; try done; [split; [apply Hs|left; split; [done|apply Hs]]|].
    split; [done|]. right. eauto.
  - destruct (pwrite_exact_observed_spec buf offset f Ho Hl) as (d & res & f' & E & Ec & Hd & Hs).
    exists d, res, f'. split_and!; [done|done|lia|lia|]. destruct res as [|e].
    + simpl in Hs. split; [done|]. subst d. rewrite sub_all in Ec. rewrite Ec. by apply sub_write_at_eq.
    + destruct e; try done; (split; [done|]); [by left|right; eauto].
Qed.

(** Three pages of a 4 KiB-page store under a kernel that interrupts, splits
    and then completes the transfer. *)
Definition bumpy : script_os := {|
  bytes := fill 10 x41;
  script := [Interrupt; Transfers 3; Interrupt; Transfers 2] |}.

Lemma exact_io_correct_witness :
  0 ≤ 2 ∧ 2 + zlen (fill 6 x00) < 2 ^ 63 ∧
  ∃ f', pread_exact_observed (H := debug_4k) (H0 := scripted_file) (fill 6 x00) 2 bumpy =
    Done (Ok (fill 6 x41, Ok tt, (6, 6))) f'.
Proof.
  assert (H2 : 2 + zlen (fill 6 x00) < 2 ^ 63) by (vm_compute; done).
  split; [lia|]. split; [exact H2|].
  destruct (@exact_io_correct debug_4k scripted_file (fill 6 x00) 2 bumpy ltac:(lia) H2) as [(d & res & f' & E & _) _].
  exists f'. vm_compute in E. vm_compute. simplify_eq. reflexivity.
Defined.

(** C3: a store file is a map from page numbers to pages. Reading a page
    returns, and answers the page as the file has it, or [false] when the
    file ends before the page does, or an operating-system failure; it
    changes nothing. Writing a page returns; on success the page holds the
    data, and on success and failure alike every other page is untouched.
    A buffer of another length is refused with [InvalidInput] and no effect. *)
Theorem file_store_pages `{Build} `{PosixFile} pid buf data rp wp self :
  valid_pid pid → zlen buf = PAGE_SIZE → zlen data = PAGE_SIZE →
  (∃ buf' res self',
    FilePageStore.read_page_for_purpose pid buf rp self = Done (Ok (buf', res)) self' ∧
    file self' = file self ∧ same_fields self self' ∧
    match res with
    | Ok true => page_at (file self) pid = Some buf'
    | Ok false => page_at (file self) pid = None
    | Err e => os_failure e
    end) ∧
  (∃ res self',
    FilePageStore.write_page_for_purpose pid data wp self = Done res self' ∧ same_fields self self' ∧
    (∀ q d, 0 ≤ q → q ≠ pid → page_at (file self) q = Some d → page_at (file self') q = Some d) ∧
    match res with
    | Ok _ => page_at (file self') pid = Some data
    | Err e => os_failure e
    end) ∧
  (∀ bad, zlen bad ≠ PAGE_SIZE →
    FilePageStore.read_page_for_purpose pid bad rp self = Done (Ok (bad, Err InvalidInput)) self ∧
    FilePageStore.write_page_for_purpose pid bad wp self = Done (Err InvalidInput) self).
Proof.
  intros Hv Hb Hd. pose proof Hv as [Hp _]. split_and!.
  - by apply read_page_spec.
  - destruct (write_page_spec pid data wp self Hv Hd) as (d & res & self' & E & Ef & Hdd & Hsf & Hres).
    exists res, self'. split_and!; [done|done| |].
    + intros q x Hq Hne Hx. rewrite Ef. apply page_at_write_at_ne; try done.
      rewrite zlen_sub; page_lia.
    + destruct res as [|e]; [|done]. subst d. rewrite Ef, <-Hd, sub_all, Hd. by apply page_at_write_at.
  - intros bad Hbad. unfold FilePageStore.read_page_for_purpose, FilePageStore.write_page_for_purpose,
      validate_page_buf_len, page_size. by rewrite (proj2 (Z.eqb_neq _ _)).
Qed.

(** A fresh 4 KiB-page store on a kernel that splits the first page write. *)
#[local] Notation sf := scripted_file (only parsing).
Definition fresh_file : script_os := {| bytes := []; script := [Transfers 0; Interrupt; Transfers 100] |}.
Definition opened : exec script_os FilePageStore.t :=
  FilePageStore.open_fd (H := debug_4k) (H0 := sf) false fresh_file.

Lemma file_store_pages_witness :
  ∃ s f, opened = Done (Ok s) f ∧ zlen (fill 4096 x41) = PAGE_SIZE (H := debug_4k) ∧
    ∃ s', FilePageStore.write_page_for_purpose (H := debug_4k) (H0 := sf) 2 (fill 4096 x41) ForegroundWrite s =
        Done (Ok tt) s' ∧
      page_at (H := debug_4k) (file (H0 := sf) s') 2 = Some (fill 4096 x41).
Proof.
  destruct opened as [[s|]f| |] eqn:E; [|vm_compute in E; discriminate E..].
  exists s, f. split; [reflexivity|].
  assert (Hz : zlen (fill 4096 x41) = PAGE_SIZE (H := debug_4k)) by (vm_compute; reflexivity).
  split; [exact Hz|].
  assert (Hv : valid_pid (H := debug_4k) 2) by (split; [lia|vm_compute; reflexivity]).
  destruct (@file_store_pages debug_4k sf 2 _ _ ForegroundRead ForegroundWrite s Hv Hz Hz)
    as (_ & (res & s' & Ew & _ & _ & Hres) & _).
  assert (Hok : res = Ok tt).
  { vm_compute in E. injection E as <- <-. clear -Ew. vm_compute in Ew. by injection Ew. }
  subst res. exists s'. exact (conj Ew Hres).
Defined.

(** C37: [allocate] extends the store and keeps it readable. A page within the
    page count is already there and nothing happens (its bytes are not
    cleared). Beyond the page count, success makes the file end exactly with
    the new page: pages up to it that were in the file are kept, the pages
    that were not are zero, the page count, the next page id and the header
    on disk move to it. A page beyond the new one, which [write_page] may
    have put there before it was allocated, is cut off. *)
Theorem file_allocate_extends `{Build} `{PosixFile} pid self :
  valid_pid pid → 0 ≤ FilePageStore.page_count self →
  u64_fields pid (FilePageStore.checkpoint_lsn self) (FilePageStore.user_meta_0 self)
    (FilePageStore.user_meta_1 self) (FilePageStore.user_meta_2 self) →
  (pid ≤ FilePageStore.page_count self → FilePageStore.allocate pid self = Done (Ok tt) self) ∧
  (FilePageStore.page_count self < pid →
    ∃ res self', FilePageStore.allocate pid self = Done res self' ∧
    match res with
    | Err e => os_failure e
    | Ok _ =>
        FilePageStore.page_count self' = pid ∧ FilePageStore.next_page_id self' = Ret (pid + 1) ∧
        zlen (file self') = (pid + 1) * PAGE_SIZE ∧
        validate_header (file self') = Ok (fields_of self') ∧
        (∀ q d, 1 ≤ q ≤ pid → page_at (file self) q = Some d → page_at (file self') q = Some d) ∧
        (∀ q, 1 ≤ q ≤ pid → zlen (file self) ≤ q * PAGE_SIZE →
          page_at (file self') q = Some (fill PAGE_SIZE x00)) ∧
        (∀ q, pid < q → page_at (file self') q = None)
    end).
Proof.
  intros Hv Hc Hu. split; [apply allocate_skip|]. intros Hlt. pose proof Hv as [Hp Hlim].
  destruct (allocate_spec pid self Hv Hlt) as (res & s' & E & Hres). exists res, s'. split; [done|].
  destruct res as [|e]; [|by destruct Hres]. destruct Hres as [Hsf Hf].
  pose proof (zlen_build_header pid (FilePageStore.checkpoint_lsn self) (FilePageStore.user_meta_0 self)
    (FilePageStore.user_meta_1 self) (FilePageStore.user_meta_2 self)) as Hh.
  set (hdr := build_header _ _ _ _ _) in Hh.
  assert (Hfile : file s' = write_at (resize (file self) ((pid + 1) * PAGE_SIZE)) 0 hdr).
  { rewrite Hf. unfold extended, header_of. fold hdr. f_equal. rewrite <-Hh at 1. apply sub_all. }
  assert (Hz : zlen (file s') = (pid + 1) * PAGE_SIZE).
  { rewrite Hfile, zlen_write_at, zlen_resize by page_cases. page_cases. }
  assert (Hold : ∀ q, 1 ≤ q ≤ pid → sub (file s') (q * PAGE_SIZE) PAGE_SIZE =
    sub (resize (file self) ((pid + 1) * PAGE_SIZE)) (q * PAGE_SIZE) PAGE_SIZE).
  { intros q Hq. rewrite Hfile. apply sub_write_at_ne; rewrite ?zlen_resize by page_cases; page_cases. }
  destruct Hsf as (Hpc & Hcl & Hm0 & Hm1 & Hm2 & _). simpl in Hpc, Hcl, Hm0, Hm1, Hm2. split_and!.
  - done.
  - unfold FilePageStore.next_page_id. rewrite Hpc. apply uadd_in_range.
    unfold u64_fields in Hu. apply Forall_cons in Hu as [? _]. page_cases.
  - done.
  - unfold fields_of. rewrite Hpc, Hcl, Hm0, Hm1, Hm2. rewrite <-(validate_build_header _ _ _ _ _ Hu).
    apply validate_header_prefix. fold hdr. rewrite Hfile.
    rewrite <-(sub_write_at_eq (resize (file self) ((pid + 1) * PAGE_SIZE)) 0 hdr PAGE_SIZE) at 2 by lia.
    rewrite sub_sub by page_cases. done.
  - intros q d Hq. unfold page_at. rewrite Hz. rewrite (proj2 (Z.leb_le _ ((pid + 1) * PAGE_SIZE))) by page_cases.
    destruct (Z.leb_spec ((q + 1) * PAGE_SIZE) (zlen (file self))); [|done]. intros [= <-].
    rewrite Hold by done. f_equal. apply sub_resize; page_cases.
  - intros q Hq Hend. unfold page_at. rewrite Hz, (proj2 (Z.leb_le _ _)) by page_cases.
    rewrite Hold by done. f_equal. apply sub_resize_new; page_cases.
  - intros q Hq. unfold page_at. rewrite Hz. destruct (Z.leb_spec ((q + 1) * PAGE_SIZE) ((pid + 1) * PAGE_SIZE)); [page_cases|done].
Qed.

(** Page 5 of a fresh store is written before it is allocated, then page 2 is
    allocated: page 5 is gone. *)
Definition lost_page : exec script_os (bool * bool) :=
  match opened with
  | Done (Ok s) f =>
      match FilePageStore.write_page (H := debug_4k) (H0 := sf) 5 (fill 4096 x41) s with
      | Done _ s1 =>
          match FilePageStore.allocate (H := debug_4k) (H0 := sf) 2 s1 with
          | Done _ s2 => Done (Ok (bool_decide (is_Some (page_at (H := debug_4k) (file (H0 := sf) s1) 5)),
                                   bool_decide (is_Some (page_at (H := debug_4k) (file (H0 := sf) s2) 5)))) f
          | _ => Panicked
          end
      | _ => Panicked
      end
  | _ => Panicked
  end.

Lemma file_allocate_extends_witness :
  (∃ f, lost_page = Done (Ok (true, false)) f) ∧
  ∃ s f, opened = Done (Ok s) f ∧
    ∃ res s', FilePageStore.allocate (H := debug_4k) (H0 := sf) 2 s = Done res s' ∧
      page_at (H := debug_4k) (file (H0 := sf) s') 3 = None.
Proof.
  split; [eexists; vm_compute; reflexivity|].
  destruct opened as [[s|]f| |] eqn:E; [|vm_compute in E; discriminate E..].
  exists s, f. split; [reflexivity|].
  assert (Hv : valid_pid (H := debug_4k) 2) by (split; [lia|vm_compute; reflexivity]).
  assert (Hs : fields_of (H0 := sf) s = (0, 0, 0, 0, 0)) by (vm_compute in E; by injection E as <- <-).
  unfold fields_of in Hs. injection Hs as H1 H2 H3 H4 H5.
  destruct (@file_allocate_extends debug_4k sf 2 s Hv) as [_ Ha].
  { rewrite H1. lia. }
  { rewrite H2, H3, H4, H5. repeat constructor; lia. }
  destruct Ha as (res & s' & Ea & Hres); [rewrite H1; lia|].
  assert (Hok : res = Ok tt).
  { vm_compute in E. injection E as <- <-. clear -Ea. vm_compute in Ea. by injection Ea. }
  subst res. exists (Ok tt), s'. split; [exact Ea|]. destruct Hres as (_ & _ & _ & _ & _ & _ & Hn). apply Hn. lia.
Defined.

(** C31: closing and reopening loses nothing. After a successful sync, opening
    the file again returns, leaves the file alone, and yields the page count,
    the checkpoint LSN and the user metadata the store had, with every page
    it had, unless the operating system fails. Opening an empty file makes an
    empty store; a file shorter than the bootstrap block is refused with
    [UnexpectedEof] and one whose header is not valid for this build with
    [InvalidData], and neither is modified. *)
Theorem file_store_reopens `{Build} `{PosixFile} purpose direct self self' f :
  u64_fields (FilePageStore.page_count self) (FilePageStore.checkpoint_lsn self)
    (FilePageStore.user_meta_0 self) (FilePageStore.user_meta_1 self) (FilePageStore.user_meta_2 self) →
  FilePageStore.sync_for purpose self = Done (Ok tt) self' →
  (∃ r f', FilePageStore.open_fd direct (FilePageStore.crash self') = Done r f' ∧
    (∀ q d, 1 ≤ q → page_at (file self) q = Some d → page_at (contents f') q = Some d) ∧
    match r with
    | Ok s => fields_of s = fields_of self ∧ FilePageStore.fd s = f'
    | Err e => os_failure e
    end) ∧
  (∃ r f', FilePageStore.open_fd direct f = Done r f' ∧
    (zlen (contents f) = 0 → match r with
      | Ok s => fields_of s = (0, 0, 0, 0, 0) ∧ contents f' = build_header 0 0 0 0 0
      | Err e => os_failure e
      end) ∧
    (0 < zlen (contents f) → contents f' = contents f) ∧
    (0 < zlen (contents f) < HEADER_BOOTSTRAP_SIZE → ∃ e, r = Err e ∧ (os_failure e ∨ e = UnexpectedEof)) ∧
    (HEADER_BOOTSTRAP_SIZE ≤ zlen (contents f) → ∀ e0, validate_header (contents f) = Err e0 →
      ∃ e, r = Err e ∧ (os_failure e ∨ e = InvalidData))).
Proof.
  intros Hu Es. destruct (sync_spec purpose self) as (d & res & s1 & E & Ef & Hd & Hsf & Hres).
  rewrite Es in E. injection E as <- <-. simpl in Hres. subst d.
  assert (Hh : zlen (header_of self) = PAGE_SIZE) by apply zlen_build_header.
  assert (Hfile : file self' = write_at (file self) 0 (header_of self)).
  { rewrite Ef. f_equal. rewrite <-Hh. apply sub_all. }
  split.
  - destruct (open_fd_spec direct (FilePageStore.crash self')) as (r & f' & Eo & Hr).
    change (contents (FilePageStore.crash self')) with (file self') in Hr.
    assert (Hz : PAGE_SIZE ≤ zlen (file self')) by (rewrite Hfile, zlen_write_at; page_lia).
    assert (Hvh : validate_header (file self') = Ok (fields_of self)).
    { unfold fields_of. rewrite <-(validate_build_header _ _ _ _ _ Hu). apply validate_header_prefix.
      fold (header_of self). rewrite Hfile.
      rewrite <-(sub_write_at_eq (file self) 0 (header_of self) PAGE_SIZE) at 2 by lia.
      rewrite sub_sub by page_lia. done. }
    assert (Hpages : ∀ q x, 1 ≤ q → page_at (file self) q = Some x → page_at (file self') q = Some x).
    { intros q x Hq Hx. rewrite Hfile. apply (page_at_write_at_ne _ 0); [lia|lia|lia|lia|done]. }
    exists r, f'. split; [done|]. destruct r as [s|e].
    + destruct Hr as (Hfd & _ & [(Hz0 & _)|(_ & Hc & Hv)]); [page_lia|]. rewrite Hc. split_and!; [done|congruence|done].
    + destruct Hr as [Hc Hr].
      split. { rewrite Hc by page_lia. done. }
      unfold HEADER_BOOTSTRAP_SIZE in Hr. destruct Hr as [?|[[? _]|[_ Hv]]]; [done|page_lia|congruence].
  - destruct (open_fd_spec direct f) as (r & f' & Eo & Hr). exists r, f'. split; [done|].
    unfold HEADER_BOOTSTRAP_SIZE in *. destruct r as [s|e].
    + destruct Hr as (_ & _ & [(Hz & Hc & Hfs)|(Hz & Hc & Hv)]).
      * split_and!; intros; try lia; done.
      * split_and!; intros; try lia; [done|congruence].
    + destruct Hr as [Hc Hr]. split_and!.
      * intros Hz. destruct Hr as [?|[[? _]|[? _]]]; [done|lia|lia].
      * intros. apply Hc. lia.
      * intros Hz. exists e. split; [done|]. destruct Hr as [?|[[_ ?]|[? _]]]; [by left|by right|lia].
      * intros Hz e0 He0. exists e. split; [done|]. destruct Hr as [?|[[? _]|[_ Hv]]]; [by left|lia|].
        right. unfold validate_header in Hv. repeat destruct (negb _); congruence.
Qed.

(** A store with two pages and user metadata, synced and opened again. *)
Definition used_store : exec FilePageStore.t unit :=
  match opened with
  | Done (Ok s) f =>
      (_ ← FilePageStore.allocate (H := debug_4k) (H0 := sf) 1;
       _ ← FilePageStore.write_page (H := debug_4k) (H0 := sf) 1 (fill 4096 x42);
       _ ← modify (λ s, FilePageStore.set_user_meta_0 (FilePageStore.set_checkpoint_lsn s 77) 1);
       FilePageStore.sync (H := debug_4k) (H0 := sf)) s
  | _ => Panicked
  end.

Lemma file_store_reopens_witness :
  ∃ s s', used_store = Done (Ok tt) s ∧
    FilePageStore.sync_for (H := debug_4k) (H0 := sf) ForegroundWrite s = Done (Ok tt) s' ∧
    ∃ r f', FilePageStore.open_fd (H := debug_4k) (H0 := sf) true (FilePageStore.crash (H0 := sf) s') = Done r f' ∧
      match r with
      | Ok s => fields_of (H0 := sf) s = (1, 77, 1, 0, 0)
      | Err e => os_failure e
      end.
Proof.
  destruct used_store as [[[]|]s| |] eqn:E; [|vm_compute in E; discriminate E..].
  assert (Hs : fields_of (H0 := sf) s = (1, 77, 1, 0, 0)) by (vm_compute in E; by injection E as <-).
  destruct (FilePageStore.sync_for (H := debug_4k) (H0 := sf) ForegroundWrite s) as [r s'| |] eqn:E2;
    [|vm_compute in E; injection E as <-; vm_compute in E2; discriminate E2..].
  assert (Hok : r = Ok tt).
  { vm_compute in E. injection E as <-. clear -E2. vm_compute in E2. by injection E2. }
  subst r. exists s, s'. split; [reflexivity|]. split; [exact E2|].
  pose proof Hs as Hs'. unfold fields_of in Hs'. injection Hs' as H1 H2 H3 H4 H5.
  destruct (@file_store_reopens debug_4k sf ForegroundWrite true s s' fresh_file) as [(r & f' & Eo & _ & Hr) _].
  { rewrite H1, H2, H3, H4, H5. repeat constructor; lia. }
  { exact E2. }
  exists r, f'. split; [exact Eo|]. destruct r as [s2|e]; [|exact Hr]. destruct Hr as [-> _]. exact Hs.
Defined.

(** The counters are exact. Over any history of page-sized transfers,
    syncs and batches (below [2^64] bytes), recording never panics, the
    snapshot counts for every purpose the calls, the requested and the
    completed bytes, the totals add up the purposes, the direct and buffered
    figures split by the open mode, and the difference of the snapshots
    before and after a phase is the snapshot of that phase alone. *)
Theorem io_counters_exact `{Build} direct es es' :
  history_ok (es ++ es') →
  ∃ c1 c2 c, record_all PageStoreIoCounters.default es = Ret c1 ∧ record_all c1 es' = Ret c2 ∧
    record_all PageStoreIoCounters.default es' = Ret c ∧
    PageStoreIoCounters.snapshot c1 direct = stats_of direct es ∧
    PageStoreIoStats.delta_since (PageStoreIoCounters.snapshot c2 direct)
      (PageStoreIoCounters.snapshot c1 direct) = PageStoreIoCounters.snapshot c direct.
Proof.
  intros Hh. destruct (history_ok_app _ _ Hh) as [H1 H2].
  exists (counters_of es), (counters_of (es ++ es')), (counters_of es').
  change PageStoreIoCounters.default with (counters_of []).
  split_and!; try (by apply record_all_spec); rewrite !snapshot_spec by done; [done|by apply stats_delta].
Qed.

Definition phase_one : list io_event :=
  [ReadDone ForegroundRead 4096; ReadDone PrefetchRead 100; WriteDone CheckpointWrite 4096; SyncDone CheckpointWrite].
Definition phase_two : list io_event := [BatchWritten 3; WriteDone BackgroundWrite 4096; ReadDone RecoveryRead 0].

Lemma io_counters_exact_witness :
  history_ok (H := debug_4k) (phase_one ++ phase_two) ∧
  ∃ c, record_all (H := debug_4k) PageStoreIoCounters.default phase_one = Ret c ∧
    PageStoreOperationStats.completed_bytes
      (PageStoreIoStats.reads (PageStoreIoCounters.snapshot (H := debug_4k) c true)) = 4196.
Proof.
  assert (Hh : history_ok (H := debug_4k) (phase_one ++ phase_two)).
  { split; [|split; vm_compute; reflexivity]. repeat constructor; vm_compute; intuition discriminate. }
  split; [exact Hh|].
  destruct (@io_counters_exact debug_4k true phase_one phase_two Hh) as (c1 & c2 & c & E1 & _ & _ & Hs & _).
  exists c1. split; [exact E1|]. rewrite Hs. vm_compute. reflexivity.
Defined.
