(* ===== verification/WalFormat.v ===== *)
(** * Write-ahead log: on-disk format

    Models [src/crates/wal/src/format.rs]: the file header, the batch-meta
    page with its array of entries, the checksums and the sizing of the
    append buffers. The checksum function ([crc_fast] with the ISO-HDLC
    CRC-32) is an interface; [crc32_iso_hdlc] computes it bit by bit. *)

From S2P Require Import Prelude Bytes FrameKernel.
#[local] Open Scope Z_scope.

(** ** Checksums *)

(** [Digest::new(Crc32IsoHdlc)], [update] and [finalize() as u32]: a function
    of the concatenation of the updates. *)
Class Crc32 := {
  crc32 : list byte → Z;
  crc32_range bs : 0 ≤ crc32 bs < 2 ^ 32;
}.

(** The reflected CRC-32 with polynomial [0xEDB88320]. *)
Definition crc_bit (c : Z) : Z :=
  if Z.testbit c 0 then Z.lxor (Z.shiftr c 1) 3988292384 else Z.shiftr c 1.
Definition crc_byte (c : Z) (b : byte) : Z :=
  Nat.iter 8 crc_bit (Z.lxor c (u8 b)).
Definition crc_value (bs : list byte) : Z :=
  wrap 32 (Z.lxor (foldl crc_byte 4294967295 bs) 4294967295).
Lemma crc_value_range bs : 0 ≤ crc_value bs < 2 ^ 32.
Proof. apply wrap_range. lia. Qed.
Definition crc32_iso_hdlc : Crc32 := {| crc32 := crc_value; crc32_range := crc_value_range |}.

(** The check value of the catalogue: the CRC of "123456789". *)
Example crc32_check_value : crc_value [x31; x32; x33; x34; x35; x36; x37; x38; x39] = 3421780262.
Proof. vm_compute. reflexivity. Qed.

(** ** Constants *)

Section constants.
Context `{Build}.

Definition WAL_RECORD_SIZE : Z := PAGE_SIZE.
Definition WAL_HEADER_SIZE : Z := WAL_RECORD_SIZE.
Definition WAL_MAGIC : Z := 1113014604. (* 0x4257414C *)
Definition WAL_VERSION : Z := 4.
Definition WAL_FLAG_DIRECT_IO : Z := Z.shiftl 1 0.
Definition HDR_MAGIC_OFF : Z := 0.
Definition HDR_VERSION_OFF : Z := 4.
Definition HDR_FLAGS_OFF : Z := 6.
Definition HDR_RECORD_SIZE_OFF : Z := 8.
Definition BATCH_META_MAGIC : Z := 1112360276. (* 0x424D4554 *)
Definition BATCH_META_MAGIC_OFF : Z := 0.
Definition BATCH_META_VERSION_OFF : Z := 4.
Definition BATCH_META_COUNT_OFF : Z := 6.
Definition BATCH_META_CRC_OFF : Z := 8.
Definition BATCH_META_HEADER_SIZE : Z := 16.
Definition BATCH_ENTRY_LSN_OFF : Z := 0.
Definition BATCH_ENTRY_ARG_OFF : Z := 8.
Definition BATCH_ENTRY_CRC_OFF : Z := 16.
Definition BATCH_ENTRY_LEN_OFF : Z := 20.
Definition BATCH_ENTRY_KIND_OFF : Z := 24.
Definition BATCH_ENTRY_FLAGS_OFF : Z := 25.
Definition BATCH_ENTRY_SIZE : Z := 28.
Definition BATCH_MAX_RECORDS : Z := (PAGE_SIZE - BATCH_META_HEADER_SIZE) / BATCH_ENTRY_SIZE.
Definition RECORD_KIND_PAGE_IMAGE : Z := 1.
Definition RECORD_KIND_LOGICAL : Z := 2.
Definition RECORD_KIND_LOGICAL_PACKED : Z := 3.
Definition LOGICAL_FLAG_FIRST : Z := Z.shiftl 1 0.
Definition LOGICAL_FLAG_LAST : Z := Z.shiftl 1 1.
Definition LOGICAL_CHUNK_MAX_LEN : Z := PAGE_SIZE.
Definition PACKED_LOGICAL_ENTRY_HEADER_LEN : Z := 20.
Definition PACKED_LOGICAL_MAX_PAYLOAD_LEN : Z := PAGE_SIZE - PACKED_LOGICAL_ENTRY_HEADER_LEN.
Definition WAL_BATCH_BYTES : Z := (BATCH_MAX_RECORDS + 1) * PAGE_SIZE.

(** [usize::next_power_of_two]. *)
Definition next_power_of_two (n : Z) : Z := 2 ^ Z.log2_up n.
Definition WAL_BUF_CAPACITY : Z := next_power_of_two WAL_BATCH_BYTES.

Definition wal_buf_records (capacity : Z) : Z :=
  let full_batch_bytes := (BATCH_MAX_RECORDS + 1) * PAGE_SIZE in
  let full_batches := capacity / full_batch_bytes in
  let records := full_batches * BATCH_MAX_RECORDS in
  let remaining := capacity - full_batches * full_batch_bytes in
  if remaining <? 2 * PAGE_SIZE then records
  else
    let remaining := remaining - PAGE_SIZE in
    let extra := remaining / PAGE_SIZE in
    records + (if BATCH_MAX_RECORDS <? extra then BATCH_MAX_RECORDS else extra).

Definition WAL_BUF_RECORDS : Z := wal_buf_records WAL_BUF_CAPACITY.

(** [a.div_ceil(b)]. *)
Definition div_ceil (a b : Z) : Z := (a + b - 1) / b.

Definition wal_buffer_capacity_for_records (records : Z) : Z :=
  let records :=
    if records <? 1 then 1 else if WAL_BUF_RECORDS <? records then WAL_BUF_RECORDS else records in
  let batches := div_ceil records BATCH_MAX_RECORDS in
  (records + batches) * WAL_RECORD_SIZE.

Definition WAL_DEFAULT_BUFFER_RECORDS : Z := if 256 <? WAL_BUF_RECORDS then 256 else WAL_BUF_RECORDS.

Lemma BATCH_MAX_RECORDS_cases :
  (PAGE_SIZE = 4096 ∧ BATCH_MAX_RECORDS = 145) ∨ (PAGE_SIZE = 65536 ∧ BATCH_MAX_RECORDS = 2340).
Proof. unfold BATCH_MAX_RECORDS. destruct PAGE_SIZE_cases as [E|E]; rewrite E; [left|right]; done. Qed.

Lemma WAL_BUF_RECORDS_cases :
  (PAGE_SIZE = 4096 ∧ WAL_BUF_CAPACITY = 1048576 ∧ WAL_BUF_RECORDS = 254) ∨
  (PAGE_SIZE = 65536 ∧ WAL_BUF_CAPACITY = 268435456 ∧ WAL_BUF_RECORDS = 4094).
Proof.
  unfold WAL_BUF_RECORDS, WAL_BUF_CAPACITY, wal_buf_records, WAL_BATCH_BYTES.
  destruct BATCH_MAX_RECORDS_cases as [[E1 E2]|[E1 E2]]; rewrite E1, E2; [left|right]; vm_compute; auto.
Qed.

End constants.

#[global] Opaque BATCH_MAX_RECORDS.
Ltac wal_cases :=
  let E1 := fresh in let E2 := fresh in
  destruct BATCH_MAX_RECORDS_cases as [[E1 E2]|[E1 E2]]; rewrite ?E1, ?E2 in *.

(** ** File header *)

Section header.
Context `{Build}.

Definition build_wal_header (direct_io : bool) : list byte :=
  let hdr := fill WAL_HEADER_SIZE x00 in
  let hdr := set_le 4 hdr HDR_MAGIC_OFF WAL_MAGIC in
  let hdr := set_le 2 hdr HDR_VERSION_OFF WAL_VERSION in
  let flags := if direct_io then WAL_FLAG_DIRECT_IO else 0 in
  let hdr := set_le 2 hdr HDR_FLAGS_OFF flags in
  set_le 8 hdr HDR_RECORD_SIZE_OFF WAL_RECORD_SIZE.

Definition validate_wal_header (hdr : list byte) : io_result unit :=
  let magic := get_le 4 hdr HDR_MAGIC_OFF in
  if negb (magic =? WAL_MAGIC) then Err InvalidData
  else
    let version := get_le 2 hdr HDR_VERSION_OFF in
    if negb (version =? WAL_VERSION) then Err InvalidData
    else
      let rec_size := get_le 8 hdr HDR_RECORD_SIZE_OFF in
      if negb (rec_size =? WAL_RECORD_SIZE) then Err InvalidData else Ok tt.

End header.

(** ** Batch-meta page *)

(** [buf[off..off + n].copy_from_slice(&v.to_le_bytes())]. *)
Definition put_le (n : nat) (buf : list byte) (off v : Z) : outcome (list byte) :=
  copy_from buf off (off + Z.of_nat n) (le_bytes n v).
(** [uN::from_le_bytes(buf[off..off + n].try_into().unwrap())]. *)
Definition take_le (n : nat) (buf : list byte) (off : Z) : outcome Z :=
  b ← slice buf off (off + Z.of_nat n);
  Ret (of_le_bytes b).

Module BatchEntry.
Record t := { lsn : Z; arg : Z; crc : Z; len : Z; kind : Z; flags : Z }.

#[global] Instance eq_dec : EqDecision t.
Proof. solve_decision. Defined.

Definition page_image `{Build} (lsn pid crc : Z) : t :=
  {| lsn := lsn; arg := pid; crc := crc; kind := RECORD_KIND_PAGE_IMAGE; flags := 0;
     len := wrap 32 PAGE_SIZE |}.

Definition logical_chunk (lsn logical_kind crc flags len : Z) : t :=
  {| lsn := lsn; arg := logical_kind; crc := crc; kind := RECORD_KIND_LOGICAL; flags := flags;
     len := wrap 32 len |}.

Definition packed_logical (max_lsn crc len : Z) : t :=
  {| lsn := max_lsn; arg := 0; crc := crc; kind := RECORD_KIND_LOGICAL_PACKED; flags := 0;
     len := wrap 32 len |}.
End BatchEntry.

Section batch.
Context `{Build} `{Crc32}.

Definition payload_crc (payload : list byte) : Z := crc32 payload.
Definition page_crc (page : list byte) : Z := payload_crc page.

(** The CRC of a meta page, with its own CRC field read as zero. *)
Definition batch_meta_crc (buf : list byte) : Z :=
  crc32 (sub buf 0 BATCH_META_CRC_OFF ++ fill 4 x00 ++
         sub buf (BATCH_META_CRC_OFF + 4) (zlen buf - (BATCH_META_CRC_OFF + 4))).

Definition init_batch_meta (buf : list byte) : outcome (list byte) :=
  _ ← debug_assert (zlen buf =? PAGE_SIZE);
  let buf := fill (zlen buf) x00 in
  buf ← put_le 4 buf BATCH_META_MAGIC_OFF BATCH_META_MAGIC;
  put_le 2 buf BATCH_META_VERSION_OFF WAL_VERSION.

Definition batch_meta_count_unchecked (buf : list byte) : option Z :=
  if negb (zlen buf =? PAGE_SIZE) then None
  else
    let magic := get_le 4 buf BATCH_META_MAGIC_OFF in
    if negb (magic =? BATCH_META_MAGIC) then None
    else
      let version := get_le 2 buf BATCH_META_VERSION_OFF in
      if negb (version =? WAL_VERSION) then None
      else
        let count := get_le 2 buf BATCH_META_COUNT_OFF in
        if (count =? 0) || (BATCH_MAX_RECORDS <? count) then None else Some count.

Definition batch_meta_count (buf : list byte) : option Z :=
  count ← batch_meta_count_unchecked buf;
  let stored := get_le 4 buf BATCH_META_CRC_OFF in
  if negb (stored =? batch_meta_crc buf) then None else Some count.

Definition set_batch_meta_count (buf : list byte) (count : Z) : outcome (list byte) :=
  _ ← debug_assert (zlen buf =? PAGE_SIZE);
  _ ← debug_assert (count <=? BATCH_MAX_RECORDS);
  put_le 2 buf BATCH_META_COUNT_OFF (wrap 16 count).

Definition finalize_batch_meta (buf : list byte) : outcome (list byte) :=
  _ ← debug_assert (zlen buf =? PAGE_SIZE);
  _ ← assert (zlen buf =? PAGE_SIZE);
  let crc := batch_meta_crc buf in
  put_le 4 buf BATCH_META_CRC_OFF crc.

Definition batch_entry_offset (idx : Z) : outcome Z :=
  _ ← debug_assert (idx <? BATCH_MAX_RECORDS);
  Ret (BATCH_META_HEADER_SIZE + idx * BATCH_ENTRY_SIZE).

Definition write_batch_entry (buf : list byte) (idx : Z) (entry : BatchEntry.t) : outcome (list byte) :=
  _ ← debug_assert (zlen buf =? PAGE_SIZE);
  off ← batch_entry_offset idx;
  buf ← put_le 8 buf (off + BATCH_ENTRY_LSN_OFF) (BatchEntry.lsn entry);
  buf ← put_le 8 buf (off + BATCH_ENTRY_ARG_OFF) (BatchEntry.arg entry);
  buf ← put_le 4 buf (off + BATCH_ENTRY_CRC_OFF) (BatchEntry.crc entry);
  buf ← put_le 4 buf (off + BATCH_ENTRY_LEN_OFF) (BatchEntry.len entry);
  buf ← put_le 1 buf (off + BATCH_ENTRY_KIND_OFF) (BatchEntry.kind entry);
  put_le 1 buf (off + BATCH_ENTRY_FLAGS_OFF) (BatchEntry.flags entry).

Definition overwrite_batch_entry_lsn (buf : list byte) (idx lsn : Z) : outcome (list byte) :=
  _ ← debug_assert (zlen buf =? PAGE_SIZE);
  off ← batch_entry_offset idx;
  put_le 8 buf (off + BATCH_ENTRY_LSN_OFF) lsn.

Definition overwrite_batch_entry_crc (buf : list byte) (idx crc : Z) : outcome (list byte) :=
  _ ← debug_assert (zlen buf =? PAGE_SIZE);
  off ← batch_entry_offset idx;
  put_le 4 buf (off + BATCH_ENTRY_CRC_OFF) crc.

Definition read_batch_entry (buf : list byte) (idx : Z) : outcome BatchEntry.t :=
  _ ← debug_assert (zlen buf =? PAGE_SIZE);
  off ← batch_entry_offset idx;
  lsn ← take_le 8 buf (off + BATCH_ENTRY_LSN_OFF);
  arg ← take_le 8 buf (off + BATCH_ENTRY_ARG_OFF);
  crc ← take_le 4 buf (off + BATCH_ENTRY_CRC_OFF);
  len ← take_le 4 buf (off + BATCH_ENTRY_LEN_OFF);
  kind ← take_le 1 buf (off + BATCH_ENTRY_KIND_OFF);
  flags ← take_le 1 buf (off + BATCH_ENTRY_FLAGS_OFF);
  Ret {| BatchEntry.lsn := lsn; BatchEntry.arg := arg; BatchEntry.crc := crc;
         BatchEntry.len := len; BatchEntry.kind := kind; BatchEntry.flags := flags |}.

End batch.
