(* ===== verification/WalBatch.v ===== *)
(** * Write-ahead log: batches are read back as they were written

    Lemmas on the meta page of [WalFormat] and the theorems about it. *)

From S2P Require Import Prelude Bytes FrameKernel WalFormat.
#[local] Open Scope Z_scope.

Lemma put_le_Ret n buf off v :
  0 ≤ off → off + Z.of_nat n ≤ zlen buf → put_le n buf off v = Ret (set_le n buf off v).
Proof. intros. unfold put_le. apply copy_from_Ret; rewrite ?zlen_le_bytes; lia. Qed.

Lemma take_le_Ret n buf off :
  0 ≤ off → off + Z.of_nat n ≤ zlen buf → take_le n buf off = Ret (get_le n buf off).
Proof.
  intros. unfold take_le, get_le. rewrite slice_Ret by lia. rewrite bind_Ret. do 3 f_equal. lia.
Qed.

Section batch.
Context `{Build} `{Crc32}.

Definition entry_ok (e : BatchEntry.t) : Prop :=
  0 ≤ BatchEntry.lsn e < 2 ^ 64 ∧ 0 ≤ BatchEntry.arg e < 2 ^ 64 ∧ 0 ≤ BatchEntry.crc e < 2 ^ 32 ∧
  0 ≤ BatchEntry.len e < 2 ^ 32 ∧ 0 ≤ BatchEntry.kind e < 2 ^ 8 ∧ 0 ≤ BatchEntry.flags e < 2 ^ 8.

Definition entry_pos (idx : Z) : Z := 16 + idx * 28.

Lemma entry_pos_bound idx : 0 ≤ idx < BATCH_MAX_RECORDS → 16 ≤ entry_pos idx ∧ entry_pos idx + 28 ≤ PAGE_SIZE.
Proof. unfold entry_pos. intros. wal_cases; lia. Qed.

Lemma batch_entry_offset_ok idx : idx < BATCH_MAX_RECORDS → batch_entry_offset idx = Ret (entry_pos idx).
Proof. intros. unfold batch_entry_offset. by rewrite debug_assert_true by (by apply Z.ltb_lt). Qed.

(** The entry a meta page holds at a position. *)
Definition entry_at (buf : list byte) (idx : Z) : BatchEntry.t :=
  let off := entry_pos idx in
  {| BatchEntry.lsn := get_le 8 buf off; BatchEntry.arg := get_le 8 buf (off + 8);
     BatchEntry.crc := get_le 4 buf (off + 16); BatchEntry.len := get_le 4 buf (off + 20);
     BatchEntry.kind := get_le 1 buf (off + 24); BatchEntry.flags := get_le 1 buf (off + 25) |}.
(** The page with an entry written. *)
Definition put_entry (buf : list byte) (idx : Z) (e : BatchEntry.t) : list byte :=
  let off := entry_pos idx in
  set_le 1 (set_le 1 (set_le 4 (set_le 4 (set_le 8 (set_le 8 buf off (BatchEntry.lsn e))
    (off + 8) (BatchEntry.arg e)) (off + 16) (BatchEntry.crc e)) (off + 20) (BatchEntry.len e))
    (off + 24) (BatchEntry.kind e)) (off + 25) (BatchEntry.flags e).

(** [meta_side]: bounds inside a meta page, also of written pages. *)
Ltac meta_len := repeat (rewrite zlen_set_le; [|lia|]); try lia.
Ltac meta_side :=
  first [lia | rewrite ?zlen_set_le by (rewrite ?zlen_set_le by (rewrite ?zlen_set_le by
    (rewrite ?zlen_set_le by (rewrite ?zlen_set_le by lia; lia); lia); lia); lia); lia].

Lemma read_batch_entry_ok buf idx :
  zlen buf = PAGE_SIZE → 0 ≤ idx < BATCH_MAX_RECORDS → read_batch_entry buf idx = Ret (entry_at buf idx).
Proof.
  intros Hz Hi. destruct (entry_pos_bound idx Hi). unfold read_batch_entry.
  rewrite debug_assert_true, bind_Ret, batch_entry_offset_ok, bind_Ret by (by apply Z.eqb_eq || lia).
  unfold BATCH_ENTRY_LSN_OFF, BATCH_ENTRY_ARG_OFF, BATCH_ENTRY_CRC_OFF, BATCH_ENTRY_LEN_OFF,
    BATCH_ENTRY_KIND_OFF, BATCH_ENTRY_FLAGS_OFF.
  rewrite !take_le_Ret by lia. unfold entry_at. by rewrite Z.add_0_r.
Qed.

Lemma zlen_put_entry buf idx e :
  zlen buf = PAGE_SIZE → 0 ≤ idx < BATCH_MAX_RECORDS → zlen (put_entry buf idx e) = PAGE_SIZE.
Proof.
  intros Hz Hi. destruct (entry_pos_bound idx Hi). unfold put_entry.
  do 6 (rewrite zlen_set_le; [|lia|meta_side]). done.
Qed.

Lemma write_batch_entry_ok buf idx e :
  zlen buf = PAGE_SIZE → 0 ≤ idx < BATCH_MAX_RECORDS → write_batch_entry buf idx e = Ret (put_entry buf idx e).
Proof.
  intros Hz Hi. destruct (entry_pos_bound idx Hi). unfold write_batch_entry.
  rewrite debug_assert_true, bind_Ret, batch_entry_offset_ok, bind_Ret by (by apply Z.eqb_eq || lia).
  unfold BATCH_ENTRY_LSN_OFF, BATCH_ENTRY_ARG_OFF, BATCH_ENTRY_CRC_OFF, BATCH_ENTRY_LEN_OFF,
    BATCH_ENTRY_KIND_OFF, BATCH_ENTRY_FLAGS_OFF.
  do 5 (rewrite put_le_Ret, bind_Ret by meta_side). rewrite put_le_Ret by meta_side.
  unfold put_entry. by rewrite Z.add_0_r.
Qed.

Lemma entry_at_put_eq buf idx e :
  zlen buf = PAGE_SIZE → 0 ≤ idx < BATCH_MAX_RECORDS → entry_ok e → entry_at (put_entry buf idx e) idx = e.
Proof.
  intros Hz Hi (H1 & H2 & H3 & H4 & H5 & H6). destruct (entry_pos_bound idx Hi). unfold entry_at, put_entry.
  repeat first [rewrite get_set_le_eq by meta_side|rewrite get_set_le_ne by meta_side].
  rewrite !wrap_small by (simpl; lia). by destruct e.
Qed.

(** Bytes outside the entry are untouched. *)
Lemma sub_put_entry_ne buf idx e off n :
  zlen buf = PAGE_SIZE → 0 ≤ idx < BATCH_MAX_RECORDS → 0 ≤ off →
  off + n ≤ entry_pos idx ∨ entry_pos idx + 26 ≤ off → sub (put_entry buf idx e) off n = sub buf off n.
Proof.
  intros Hz Hi Ho Hd. destruct (entry_pos_bound idx Hi). unfold put_entry.
  by do 6 (rewrite sub_set_le_ne by meta_side).
Qed.

Lemma get_put_entry_ne n buf idx e off :
  zlen buf = PAGE_SIZE → 0 ≤ idx < BATCH_MAX_RECORDS → 0 ≤ off →
  off + Z.of_nat n ≤ entry_pos idx ∨ entry_pos idx + 26 ≤ off →
  get_le n (put_entry buf idx e) off = get_le n buf off.
Proof. intros. unfold get_le. by rewrite sub_put_entry_ne. Qed.

Lemma entry_at_put_ne buf idx j e :
  zlen buf = PAGE_SIZE → 0 ≤ idx < BATCH_MAX_RECORDS → 0 ≤ j → j ≠ idx →
  entry_at (put_entry buf idx e) j = entry_at buf j.
Proof.
  intros Hz Hi Hj Hne. unfold entry_at. by rewrite !get_put_entry_ne by (done || unfold entry_pos; lia).
Qed.

(** Writes into the first sixteen bytes keep every entry. *)
Lemma entry_at_header_write buf off n v j :
  0 ≤ off → off + Z.of_nat n ≤ 16 → zlen buf = PAGE_SIZE → 0 ≤ j →
  entry_at (set_le n buf off v) j = entry_at buf j.
Proof.
  intros. unfold entry_at, entry_pos. by rewrite !get_set_le_ne by page_lia.
Qed.

(** ** The header of a meta page *)

(** The page is a meta page of this version with [count] entries. *)
Definition meta_header (buf : list byte) (count : Z) : Prop :=
  zlen buf = PAGE_SIZE ∧ get_le 4 buf 0 = BATCH_META_MAGIC ∧ get_le 2 buf 4 = WAL_VERSION ∧
  get_le 2 buf 6 = count.

Lemma init_batch_meta_ok buf :
  zlen buf = PAGE_SIZE → ∃ buf', init_batch_meta buf = Ret buf' ∧ meta_header buf' 0.
Proof.
  intros Hz. assert (Hf : zlen (fill (zlen buf) x00) = PAGE_SIZE) by (rewrite zlen_fill; page_lia).
  unfold init_batch_meta, BATCH_META_MAGIC_OFF, BATCH_META_VERSION_OFF.
  rewrite debug_assert_true, bind_Ret by (by apply Z.eqb_eq). rewrite put_le_Ret, bind_Ret by page_lia.
  rewrite put_le_Ret by (rewrite ?zlen_set_le; page_lia). eexists. split; [done|].
  assert (Hz1 : zlen (set_le 4 (fill (zlen buf) x00) 0 BATCH_META_MAGIC) = PAGE_SIZE)
    by (rewrite zlen_set_le; page_lia).
  split_and!.
  - rewrite zlen_set_le; page_lia.
  - rewrite get_set_le_ne, get_set_le_eq by page_lia. done.
  - rewrite get_set_le_eq by page_lia. done.
  - rewrite !get_set_le_ne by page_lia. rewrite Hz. unfold get_le. apply (f_equal of_le_bytes (y := [x00; x00])).
    apply list_eq. intros i. destruct (decide (i < 2)%nat).
    + rewrite lookup_sub by lia. unfold fill. rewrite lookup_replicate_2 by page_lia. by destruct i as [|[|]]; [..|lia].
    + rewrite lookup_sub_ge by lia. symmetry. apply lookup_ge_None_2. simpl. lia.
Qed.

Lemma set_batch_meta_count_ok buf c count :
  meta_header buf c → 0 ≤ count ≤ BATCH_MAX_RECORDS →
  set_batch_meta_count buf count = Ret (set_le 2 buf 6 count) ∧ meta_header (set_le 2 buf 6 count) count.
Proof.
  intros (Hz & Hm & Hv & _) Hc. unfold set_batch_meta_count, BATCH_META_COUNT_OFF.
  rewrite !debug_assert_true, !bind_Ret by first [by apply Z.eqb_eq|apply Z.leb_le; lia].
  rewrite wrap_small by (wal_cases; lia). rewrite put_le_Ret by page_lia. split; [done|].
  split_and!.
  - rewrite zlen_set_le; page_lia.
  - by rewrite get_set_le_ne by page_lia.
  - by rewrite get_set_le_ne by page_lia.
  - rewrite get_set_le_eq by page_lia. apply wrap_small. simpl. wal_cases; lia.
Qed.

Lemma meta_header_put_entry buf idx e c :
  meta_header buf c → 0 ≤ idx < BATCH_MAX_RECORDS → meta_header (put_entry buf idx e) c.
Proof.
  intros (Hz & Hm & Hv & Hc) Hi. destruct (entry_pos_bound idx Hi).
  split_and!; [by apply zlen_put_entry|by rewrite get_put_entry_ne by lia..].
Qed.

Lemma batch_meta_crc_field buf v :
  zlen buf = PAGE_SIZE → batch_meta_crc (set_le 4 buf 8 v) = batch_meta_crc buf.
Proof.
  intros Hz. unfold batch_meta_crc, BATCH_META_CRC_OFF.
  rewrite zlen_set_le by page_lia. by rewrite !sub_set_le_ne by page_lia.
Qed.

Lemma batch_meta_count_unchecked_ok buf count :
  meta_header buf count → 1 ≤ count ≤ BATCH_MAX_RECORDS → batch_meta_count_unchecked buf = Some count.
Proof.
  intros (Hz & Hm & Hv & Hc) Hr. unfold batch_meta_count_unchecked, BATCH_META_MAGIC_OFF,
    BATCH_META_VERSION_OFF, BATCH_META_COUNT_OFF.
  rewrite Hz, Z.eqb_refl, Hm, Hv, Hc. simpl.
  rewrite (proj2 (Z.eqb_neq _ _)), (proj2 (Z.ltb_ge _ _)) by lia. done.
Qed.

Lemma finalize_batch_meta_ok buf count :
  meta_header buf count → 1 ≤ count ≤ BATCH_MAX_RECORDS →
  finalize_batch_meta buf = Ret (set_le 4 buf 8 (batch_meta_crc buf)) ∧
  batch_meta_count (set_le 4 buf 8 (batch_meta_crc buf)) = Some count ∧
  zlen (set_le 4 buf 8 (batch_meta_crc buf)) = PAGE_SIZE.
Proof.
  intros Hh Hr. pose proof Hh as (Hz & Hm & Hv & Hc).
  assert (Hz' : zlen (set_le 4 buf 8 (batch_meta_crc buf)) = PAGE_SIZE) by (rewrite zlen_set_le; page_lia).
  split_and!; [| |done].
  - unfold finalize_batch_meta, BATCH_META_CRC_OFF.
    rewrite debug_assert_true, bind_Ret, assert_true, bind_Ret by (by apply Z.eqb_eq).
    by rewrite put_le_Ret by page_lia.
  - unfold batch_meta_count. rewrite (batch_meta_count_unchecked_ok _ count); [|split_and!|done].
    + simpl. unfold BATCH_META_CRC_OFF. rewrite get_set_le_eq, batch_meta_crc_field by page_lia.
      rewrite wrap_small by apply crc32_range. by rewrite Z.eqb_refl.
    + done.
    + by rewrite get_set_le_ne by page_lia.
    + by rewrite get_set_le_ne by page_lia.
    + by rewrite get_set_le_ne by page_lia.
Qed.

End batch.

(** ** A whole batch *)

(** The two calls that [finish_active_record_slot_locked] makes on the meta
    page of the open batch, for records [idx], [idx + 1], ... *)
Fixpoint add_entries `{Build} (buf : list byte) (idx : Z) (es : list BatchEntry.t) : outcome (list byte) :=
  match es with
  | [] => Ret buf
  | e :: es =>
      buf ← write_batch_entry buf idx e;
      buf ← set_batch_meta_count buf (idx + 1);
      add_entries buf (idx + 1) es
  end.

Section whole.
Context `{Build} `{Crc32}.

Lemma add_entries_ok es buf idx :
  meta_header buf idx → 0 ≤ idx → idx + zlen es ≤ BATCH_MAX_RECORDS → Forall entry_ok es →
  ∃ buf', add_entries buf idx es = Ret buf' ∧ meta_header buf' (idx + zlen es) ∧
    (∀ j, 0 ≤ j < idx → entry_at buf' j = entry_at buf j) ∧
    (∀ j e, es !! j = Some e → entry_at buf' (idx + Z.of_nat j) = e).
Proof.
  revert buf idx. induction es as [|e es IH]; intros buf idx Hh Hi Hl Hok.
  { exists buf. rewrite zlen_nil, Z.add_0_r. done. }
  rewrite zlen_cons in Hl. pose proof (zlen_nonneg es). apply Forall_cons in Hok as [He Hok].
  pose proof Hh as (Hz & _). simpl. rewrite write_batch_entry_ok, bind_Ret by (done || lia).
  assert (Hh1 : meta_header (put_entry buf idx e) idx) by (apply meta_header_put_entry; [done|lia]).
  destruct (set_batch_meta_count_ok _ _ (idx + 1) Hh1) as [-> Hh2]; [lia|]. rewrite bind_Ret.
  pose proof (zlen_put_entry buf idx e Hz ltac:(lia)) as Hz1.
  destruct (IH _ (idx + 1) Hh2 ltac:(lia) ltac:(lia) Hok) as (buf' & -> & Hh' & Hold & Hnew).
  exists buf'. split; [done|]. rewrite zlen_cons. split; [by rewrite Z.add_assoc|].
  assert (Hkeep : ∀ j, 0 ≤ j < idx + 1 → entry_at buf' j = entry_at (put_entry buf idx e) j).
  { intros j Hj. rewrite Hold by done. apply entry_at_header_write; [lia|lia|done|lia]. }
  split.
  - intros j Hj. rewrite Hkeep by lia. apply entry_at_put_ne; [done|lia|lia|lia].
  - intros [|j] e' Ej; simpl in Ej; simplify_eq.
    + rewrite Z.add_0_r, Hkeep by lia. apply entry_at_put_eq; [done|lia|done].
    + rewrite <-(Hnew j e' Ej). f_equal. lia.
Qed.

(** What [batch_meta_count] accepts. *)
Lemma batch_meta_count_inv page count :
  batch_meta_count page = Some count →
  zlen page = PAGE_SIZE ∧ get_le 4 page 0 = BATCH_META_MAGIC ∧ get_le 2 page 4 = WAL_VERSION ∧
  get_le 2 page 6 = count ∧ 1 ≤ count ≤ BATCH_MAX_RECORDS ∧ get_le 4 page 8 = batch_meta_crc page.
Proof.
  unfold batch_meta_count, batch_meta_count_unchecked, BATCH_META_MAGIC_OFF,
    BATCH_META_VERSION_OFF, BATCH_META_COUNT_OFF, BATCH_META_CRC_OFF.
  destruct (Z.eqb_spec (zlen page) PAGE_SIZE) as [Hp|]; [simpl|done].
  destruct (Z.eqb_spec (get_le 4 page 0) BATCH_META_MAGIC) as [Hm|]; [simpl|done].
  destruct (Z.eqb_spec (get_le 2 page 4) WAL_VERSION) as [Hv|]; [simpl|done].
  pose proof (get_le_range 2 page 6).
  destruct (Z.eqb_spec (get_le 2 page 6) 0) as [|H0c]; [done|simpl].
  destruct (Z.ltb_spec BATCH_MAX_RECORDS (get_le 2 page 6)) as [|Hmax]; [done|simpl].
  destruct (Z.eqb_spec (get_le 4 page 8) (batch_meta_crc page)) as [Hcrc|]; [simpl|done].
  intros [= <-]. split_and!; try done; lia.
Qed.

End whole.

(** A batch is read back as it was written. Starting from any page,
    initialising it, adding up to [BATCH_MAX_RECORDS] entries one by one and
    finalising it never panics and yields a page whose count [batch_meta_count]
    accepts and whose entries [read_batch_entry] returns in order. In the
    other direction [batch_meta_count] only accepts a page of the page size
    with the magic number, the version, a count of at least one and at most
    [BATCH_MAX_RECORDS], and a stored checksum equal to the computed one; so
    reading the entries it announces never panics. *)
Theorem batch_meta_roundtrip `{Build} `{Crc32} buf es :
  zlen buf = PAGE_SIZE → 1 ≤ zlen es ≤ BATCH_MAX_RECORDS → Forall entry_ok es →
  (∃ page, (b ← init_batch_meta buf; b ← add_entries b 0 es; finalize_batch_meta b) = Ret page ∧
    batch_meta_count page = Some (zlen es) ∧
    ∀ j e, es !! j = Some e → read_batch_entry page (Z.of_nat j) = Ret e) ∧
  (∀ page count, batch_meta_count page = Some count →
    zlen page = PAGE_SIZE ∧ get_le 4 page 0 = BATCH_META_MAGIC ∧ get_le 2 page 4 = WAL_VERSION ∧
    get_le 2 page 6 = count ∧ 1 ≤ count ≤ BATCH_MAX_RECORDS ∧ get_le 4 page 8 = batch_meta_crc page ∧
    ∀ j, 0 ≤ j < count → ∃ e, read_batch_entry page j = Ret e).
Proof.
  intros Hz Hl Hok. split.
  - destruct (init_batch_meta_ok buf Hz) as (b0 & -> & Hh0). rewrite bind_Ret.
    destruct (add_entries_ok es b0 0 Hh0 ltac:(lia) ltac:(lia) Hok) as (b1 & -> & Hh1 & _ & Hnew).
    rewrite bind_Ret, Z.add_0_l in *. pose proof Hh1 as (Hz1 & _).
    destruct (finalize_batch_meta_ok b1 (zlen es) Hh1 Hl) as (-> & Hc & Hz2).
    eexists. split; [done|]. split; [done|]. intros j e Ej.
    assert (Hj : Z.of_nat j < zlen es) by (apply lookup_lt_Some in Ej; unfold zlen; lia).
    rewrite read_batch_entry_ok by (done || lia). f_equal.
    rewrite entry_at_header_write by (done || lia). exact (Hnew j e Ej).
  - intros page count Hc. destruct (batch_meta_count_inv page count Hc) as (Hp & Hm & Hv & Hn & Hb & Hcrc).
    split_and!; try done; try lia. intros j Hj. eexists. apply read_batch_entry_ok; [done|lia].
Qed.

Definition sample_entries : list BatchEntry.t :=
  [BatchEntry.page_image (H := debug_4k) 7 3 12345; BatchEntry.packed_logical 9 99 40;
   BatchEntry.logical_chunk 11 5 77 3 100].

Lemma batch_meta_roundtrip_witness :
  zlen (fill 4096 x41) = PAGE_SIZE (H := debug_4k) ∧ Forall entry_ok sample_entries ∧
  ∃ page, (b ← init_batch_meta (H := debug_4k) (fill 4096 x41);
           b ← add_entries (H := debug_4k) b 0 sample_entries;
           finalize_batch_meta (H := debug_4k) (H0 := crc32_iso_hdlc) b) = Ret page ∧
    batch_meta_count (H := debug_4k) (H0 := crc32_iso_hdlc) page = Some 3.
Proof.
  assert (Hz : zlen (fill 4096 x41) = PAGE_SIZE (H := debug_4k)) by (vm_compute; reflexivity).
  assert (Hok : Forall entry_ok sample_entries) by (repeat constructor; vm_compute; intuition discriminate).
  split; [exact Hz|]. split; [exact Hok|].
  destruct (@batch_meta_roundtrip debug_4k crc32_iso_hdlc (fill 4096 x41) sample_entries Hz) as [(page & E & Hc & _) _].
  { vm_compute. intuition discriminate. }
  { exact Hok. }
  exists page. exact (conj E Hc).
Defined.

Lemma header_valid `{Build} direct :
  validate_wal_header (build_wal_header direct) = Ok tt ∧ zlen (build_wal_header direct) = WAL_HEADER_SIZE.
Proof.
  split; [unfold validate_wal_header, HDR_MAGIC_OFF, HDR_VERSION_OFF, HDR_RECORD_SIZE_OFF|].
  - unfold build_wal_header, HDR_MAGIC_OFF, HDR_VERSION_OFF, HDR_RECORD_SIZE_OFF, HDR_FLAGS_OFF, WAL_HEADER_SIZE, WAL_RECORD_SIZE.
    assert (Hf : zlen (fill PAGE_SIZE x00) = PAGE_SIZE) by (apply zlen_fill; page_lia).
    set (flags := if direct then _ else _).
    assert (H1 : zlen (set_le 4 (fill PAGE_SIZE x00) 0 WAL_MAGIC) = PAGE_SIZE) by (rewrite zlen_set_le; page_lia).
    assert (H2 : zlen (set_le 2 (set_le 4 (fill PAGE_SIZE x00) 0 WAL_MAGIC) 4 WAL_VERSION) = PAGE_SIZE)
      by (rewrite zlen_set_le; page_lia).
    assert (H3 : zlen (set_le 2 (set_le 2 (set_le 4 (fill PAGE_SIZE x00) 0 WAL_MAGIC) 4 WAL_VERSION) 6 flags) = PAGE_SIZE)
      by (rewrite zlen_set_le; page_lia).
    repeat first [rewrite get_set_le_eq by page_lia|rewrite get_set_le_ne by page_lia].
    rewrite (wrap_small (8 * Z.of_nat 8) PAGE_SIZE) by page_lia. by rewrite (Z.eqb_refl PAGE_SIZE).
  - unfold build_wal_header, WAL_HEADER_SIZE, WAL_RECORD_SIZE, HDR_MAGIC_OFF, HDR_VERSION_OFF, HDR_RECORD_SIZE_OFF, HDR_FLAGS_OFF.
    assert (Hf : zlen (fill PAGE_SIZE x00) = PAGE_SIZE) by (apply zlen_fill; page_lia).
    rewrite !zlen_set_le; rewrite ?zlen_set_le; rewrite ?zlen_set_le; rewrite ?zlen_set_le; page_lia.
Qed.

(** A log file header is accepted by the build that wrote it, in both
    open modes, and [validate_wal_header] rejects with [InvalidData] exactly
    the headers whose magic number, version or record size differ. *)
Theorem wal_header_roundtrip `{Build} direct hdr :
  validate_wal_header (build_wal_header direct) = Ok tt ∧
  zlen (build_wal_header direct) = WAL_HEADER_SIZE ∧
  match validate_wal_header hdr with
  | Ok _ => get_le 4 hdr 0 = WAL_MAGIC ∧ get_le 2 hdr 4 = WAL_VERSION ∧ get_le 8 hdr 8 = WAL_RECORD_SIZE
  | Err e => e = InvalidData ∧
      (get_le 4 hdr 0 ≠ WAL_MAGIC ∨ get_le 2 hdr 4 ≠ WAL_VERSION ∨ get_le 8 hdr 8 ≠ WAL_RECORD_SIZE)
  end.
Proof.
  destruct (header_valid direct) as [Hv Hz]. split_and!; [done|done|].
  unfold validate_wal_header, HDR_MAGIC_OFF, HDR_VERSION_OFF, HDR_RECORD_SIZE_OFF.
  destruct (Z.eqb_spec (get_le 4 hdr 0) WAL_MAGIC) as [E1|E1]; simpl; [|auto].
  destruct (Z.eqb_spec (get_le 2 hdr 4) WAL_VERSION) as [E2|E2]; simpl; [|auto].
  destruct (Z.eqb_spec (get_le 8 hdr 8) WAL_RECORD_SIZE) as [E3|E3]; simpl; auto.
Qed.

(** One batch of [k] records, or two with the first one full. *)
Lemma wal_buf_records_exact `{Build} k b :
  (b = 1 ∧ 1 ≤ k ≤ BATCH_MAX_RECORDS) ∨ (b = 2 ∧ BATCH_MAX_RECORDS < k ≤ 2 * BATCH_MAX_RECORDS) →
  wal_buf_records ((k + b) * PAGE_SIZE) = k.
Proof.
  unfold wal_buf_records.
  assert (HM : 1 ≤ BATCH_MAX_RECORDS) by (destruct BATCH_MAX_RECORDS_cases as [[_ ->]|[_ ->]]; lia).
  assert (HP : 0 < PAGE_SIZE) by page_lia.
  generalize dependent BATCH_MAX_RECORDS. generalize dependent PAGE_SIZE. intros P HP M HM Hk.
  rewrite Z.div_mul_cancel_r by lia.
  pose proof (Z.div_mod (k + b) (M + 1) ltac:(lia)) as Hq. pose proof (Z.mod_pos_bound (k + b) (M + 1) ltac:(lia)).
  set (q := (k + b) / (M + 1)) in *. set (m := (k + b) mod (M + 1)) in *. clearbody q m.
  replace ((k + b) * P - q * ((M + 1) * P)) with (m * P) by nia.
  replace (m * P - P) with ((m - 1) * P) by ring. rewrite Z.div_mul by lia.
  assert (Hcase : (q = 0 ∧ m = k + 1 ∧ b = 1) ∨ (q = b ∧ m = 0 ∧ k = b * M) ∨ (q = 1 ∧ b = 2 ∧ m = k + 1 - M)).
  { assert (0 ≤ q ≤ 2) by nia. assert (Hq3 : q = 0 ∨ q = 1 ∨ q = 2) by lia.
    destruct Hq3 as [->|[->| ->]]; lia. }
  destruct (Z.ltb_spec (m * P) (2 * P)); [nia|].
  destruct (Z.ltb_spec M (m - 1)); nia.
Qed.

(** The append buffers are sized exactly. A buffer of
    [wal_buffer_capacity_for_records r] bytes holds, as [wal_buf_records]
    counts them, [r] records clamped between one and the format's maximum;
    it is a whole number of log blocks and never larger than
    [WAL_BUF_CAPACITY]; and the default and maximum record counts are
    themselves attained. *)
Theorem wal_buffer_sizing `{Build} r :
  let cap := wal_buffer_capacity_for_records r in
  wal_buf_records cap = Z.max 1 (Z.min r WAL_BUF_RECORDS) ∧
  cap mod WAL_RECORD_SIZE = 0 ∧ 2 * WAL_RECORD_SIZE ≤ cap ≤ WAL_BUF_CAPACITY ∧
  1 ≤ WAL_DEFAULT_BUFFER_RECORDS ≤ WAL_BUF_RECORDS ∧ WAL_BATCH_BYTES ≤ WAL_BUF_CAPACITY.
Proof.
  cbv zeta. unfold wal_buffer_capacity_for_records, WAL_RECORD_SIZE, WAL_DEFAULT_BUFFER_RECORDS, WAL_BATCH_BYTES, div_ceil.
  set (k := if r <? 1 then 1 else if WAL_BUF_RECORDS <? r then WAL_BUF_RECORDS else r).
  assert (HB : 1 ≤ WAL_BUF_RECORDS ≤ 2 * BATCH_MAX_RECORDS ∧ 0 < PAGE_SIZE ∧
    (WAL_BUF_RECORDS + 2) * PAGE_SIZE = WAL_BUF_CAPACITY ∧ (BATCH_MAX_RECORDS + 1) * PAGE_SIZE ≤ WAL_BUF_CAPACITY ∧
    1 ≤ BATCH_MAX_RECORDS).
  { destruct WAL_BUF_RECORDS_cases as [(E1 & E2 & E3)|(E1 & E2 & E3)],
      BATCH_MAX_RECORDS_cases as [[E4 E5]|[E4 E5]]; rewrite E2, E3, E5, E1; lia. }
  destruct HB as (HB1 & HP & HB2 & HB3 & HM).
  assert (Hk : k = Z.max 1 (Z.min r WAL_BUF_RECORDS)).
  { unfold k. destruct (Z.ltb_spec r 1), (Z.ltb_spec WAL_BUF_RECORDS r); lia. }
  assert (Hb : ∃ b, (k + BATCH_MAX_RECORDS - 1) / BATCH_MAX_RECORDS = b ∧
    ((b = 1 ∧ 1 ≤ k ≤ BATCH_MAX_RECORDS) ∨ (b = 2 ∧ BATCH_MAX_RECORDS < k ≤ 2 * BATCH_MAX_RECORDS))).
  { eexists. split; [done|]. destruct (decide (k ≤ BATCH_MAX_RECORDS)); [left|right]; (split; [|lia]).
    - symmetry. apply (Z.div_unique _ _ _ (k - 1)); lia.
    - symmetry. apply (Z.div_unique _ _ _ (k - 1 - BATCH_MAX_RECORDS)); lia. }
  destruct Hb as (b & -> & Hb). split_and!.
  - rewrite <-Hk. by apply wal_buf_records_exact.
  - apply Z.mod_mul. lia.
  - nia.
  - rewrite <-HB2. nia.
  - destruct (Z.ltb_spec 256 WAL_BUF_RECORDS); lia.
  - destruct (Z.ltb_spec 256 WAL_BUF_RECORDS); lia.
  - lia.
Qed.
