(* ===== verification/WalCodec.v ===== *)
(** * Write-ahead log: record codecs

    Models the pure parts of [src/crates/wal/src/wal_impl.rs]: the reserved
    logical kinds, the handles of buffered records, packed logical records,
    page images and page patches as logical payloads, the check of an entry
    against its data page, the shard of an LSN, the window of submitted
    writes, and record slots with their sealing. *)

From S2P Require Import Prelude Bytes FrameKernel WalFormat.
#[local] Open Scope Z_scope.

(** ** Logical kinds *)

Definition LOGICAL_KIND_PAGE_IMAGE_BYTES : Z := 4780659280213114881. (* 0x4258_5049_4D47_0001 *)
Definition LOGICAL_KIND_PAGE_PATCH : Z := 4780659245970554881.       (* 0x4258_5041_5443_0001 *)
Definition PAGE_IMAGE_BYTES_HEADER_LEN : Z := 16.
Definition PAGE_PATCH_HEADER_LEN : Z := 16.
Definition PAGE_PATCH_RANGE_HEADER_LEN : Z := 8.

Definition is_internal_logical_kind (kind : Z) : bool :=
  (kind =? LOGICAL_KIND_PAGE_IMAGE_BYTES) || (kind =? LOGICAL_KIND_PAGE_PATCH).

Definition validate_caller_logical_kind (kind : Z) : io_result unit :=
  if is_internal_logical_kind kind then Err InvalidInput else Ok tt.

(** ** Handles of buffered records *)

Section offsets.
Context `{Build}.

Definition encode_record_offset (meta_offset slot_idx : Z) : outcome Z :=
  _ ← debug_assert (meta_offset mod WAL_RECORD_SIZE =? 0);
  _ ← debug_assert (slot_idx <? BATCH_MAX_RECORDS);
  let meta_page := meta_offset / WAL_RECORD_SIZE in
  Ret (Z.lor (wrap 32 (Z.shiftl (wrap 32 meta_page) 8)) (wrap 32 slot_idx)).

Definition decode_record_offset (offset : Z) : Z * Z :=
  let slot_idx := Z.land offset 255 in
  let meta_page := Z.shiftr offset 8 in
  (meta_page * WAL_RECORD_SIZE, slot_idx).

Definition chunk_count (payload_len : Z) : Z := Z.max (div_ceil payload_len LOGICAL_CHUNK_MAX_LEN) 1.

End offsets.

(** ** Entries and their data pages *)

Definition validate_entry_data `{Build} `{Crc32} (entry : BatchEntry.t) (data : list byte)
    : option (list byte) :=
  let len := BatchEntry.len entry in
  let flags := BatchEntry.flags entry in
  if BatchEntry.kind entry =? RECORD_KIND_PAGE_IMAGE then
    if negb (flags =? 0) || negb (zlen data =? PAGE_SIZE) then None
    else if page_crc data =? BatchEntry.crc entry then Some data else None
  else if BatchEntry.kind entry =? RECORD_KIND_LOGICAL then
    if (LOGICAL_CHUNK_MAX_LEN <? len) || (zlen data <? len) then None
    else
      let allowed_flags := Z.lor LOGICAL_FLAG_FIRST LOGICAL_FLAG_LAST in
      if negb (Z.land flags (unot 8 allowed_flags) =? 0) then None
      else
        let payload := sub data 0 len in
        if payload_crc payload =? BatchEntry.crc entry then Some payload else None
  else if BatchEntry.kind entry =? RECORD_KIND_LOGICAL_PACKED then
    if negb (flags =? 0) || (zlen data <? len) then None
    else
      let payload := sub data 0 len in
      if payload_crc payload =? BatchEntry.crc entry then Some payload else None
  else None.

(** ** Packed logical records *)

Definition packed_logical_entry_len (payload_len : Z) : option Z :=
  checked_add 64 PACKED_LOGICAL_ENTRY_HEADER_LEN payload_len.

(** The new contents of [dst] and the bytes used. *)
Definition encode_packed_logical_entry (dst : list byte) (lsn kind : Z) (payload : list byte)
    : option (list byte * Z) :=
  if negb (in_width 32 (zlen payload)) then None
  else
    entry_len ← packed_logical_entry_len (zlen payload);
    _ ← get_range dst 0 entry_len;
    let dst := upd dst 0 (le_bytes 8 lsn) in
    let dst := upd dst 8 (le_bytes 8 kind) in
    let dst := upd dst 16 (le_bytes 4 (zlen payload)) in
    let dst := upd dst PACKED_LOGICAL_ENTRY_HEADER_LEN payload in
    Some (dst, entry_len).

(** One logical record: LSN, kind, payload. *)
Notation logical := (Z * Z * list byte)%type.

(** The records handed to the callback, and the returned flag. Every turn of
    the loop consumes a header, so the payload length bounds the turns. *)
Fixpoint packed_loop (fuel : nat) (payload : list byte) (offset : Z) : list logical * bool :=
  match fuel with
  | O => ([], true)
  | S fuel =>
      if offset <? zlen payload then
        match get_range payload offset (offset + PACKED_LOGICAL_ENTRY_HEADER_LEN) with
        | None => ([], false)
        | Some header =>
            let lsn := get_le 8 header 0 in
            let kind := get_le 8 header 8 in
            let len := get_le 4 header 16 in
            let payload_start := offset + PACKED_LOGICAL_ENTRY_HEADER_LEN in
            let payload_end := payload_start + len in
            match get_range payload payload_start payload_end with
            | None => ([], false)
            | Some record_payload =>
                let '(rs, ok) := packed_loop fuel payload payload_end in
                ((lsn, kind, record_payload) :: rs, ok)
            end
        end
      else ([], true)
  end.
Definition for_each_packed_logical_record (payload : list byte) : list logical * bool :=
  packed_loop (S (length payload)) payload 0.

(** ** Page images as logical payloads *)

(** [fill_page] is the caller's closure on the page part of the payload. *)
Definition encode_page_image_bytes_payload `{Build} (page_id page_len : Z)
    (fill_page : list byte → list byte) : outcome (list byte) :=
  _ ← assert (page_len =? page_size page_id);
  let payload := fill (PAGE_IMAGE_BYTES_HEADER_LEN + page_len) x00 in
  let payload := upd payload 0 (le_bytes 8 page_id) in
  let payload := upd payload 8 (le_bytes 8 page_len) in
  let page := fill_page (sub payload PAGE_IMAGE_BYTES_HEADER_LEN page_len) in
  Ret (upd payload PAGE_IMAGE_BYTES_HEADER_LEN page).

Definition decode_page_image_bytes_payload `{Build} (payload : list byte) : option (Z * list byte) :=
  if zlen payload <? PAGE_IMAGE_BYTES_HEADER_LEN then None
  else
    let page_id := get_le 8 payload 0 in
    let page_len := get_le 8 payload 8 in
    page ← get_range payload PAGE_IMAGE_BYTES_HEADER_LEN (zlen payload);
    if negb (zlen page =? page_len) || negb (page_len =? page_size page_id) then None
    else Some (page_id, page).

(** ** Page patches *)

(** A patched range: its start and its bytes. *)
Notation patch_range := (Z * list byte)%type.

Section patch.
Context `{Build}.

(** The bytes of two pages differ at [i]. *)
Definition byte_differs (before after : list byte) (i : Z) : bool :=
  negb (bool_decide (before !! Z.to_nat i = after !! Z.to_nat i)).

(** The inner loop: the end of the run of differing bytes. *)
Fixpoint run_end (fuel : nat) (before after : list byte) (offset : Z) : Z :=
  match fuel with
  | O => offset
  | S fuel =>
      if (offset <? PAGE_SIZE) && byte_differs before after offset
      then run_end fuel before after (offset + 1) else offset
  end.

(** The outer loop: [(start, len)] of every run. *)
Fixpoint changed_ranges (fuel : nat) (before after : list byte) (offset : Z) : list (Z * Z) :=
  match fuel with
  | O => []
  | S fuel =>
      if offset <? PAGE_SIZE then
        if negb (byte_differs before after offset) then changed_ranges fuel before after (offset + 1)
        else
          let stop := run_end (Z.to_nat PAGE_SIZE) before after (offset + 1) in
          (offset, stop - offset) :: changed_ranges fuel before after stop
      else []
  end.

(** The first loop over the ranges: bounds, order, and the payload length. *)
Fixpoint measure_ranges (ranges : list patch_range) (payload_len previous_end : Z) : option Z :=
  match ranges with
  | [] => Some payload_len
  | (start, data) :: ranges =>
      if (zlen data =? 0) || (start <? previous_end) then None
      else
        stop ← checked_add 64 start (zlen data);
        if PAGE_SIZE <? stop then None
        else
          payload_len ← checked_add 64 payload_len PAGE_PATCH_RANGE_HEADER_LEN;
          payload_len ← checked_add 64 payload_len (zlen data);
          measure_ranges ranges payload_len stop
  end.

Fixpoint append_ranges (ranges : list patch_range) (payload : list byte) : option (list byte) :=
  match ranges with
  | [] => Some payload
  | (start, data) :: ranges =>
      if negb (in_width 32 start) then None
      else if negb (in_width 32 (zlen data)) then None
      else append_ranges ranges (payload ++ le_bytes 4 start ++ le_bytes 4 (zlen data) ++ data)
  end.

Definition encode_page_patch_ranges_payload (page_id : Z) (ranges : list patch_range)
    : option (list byte) :=
  if negb (page_size page_id =? PAGE_SIZE) || (zlen ranges =? 0) then None
  else
    payload_len ← measure_ranges ranges PAGE_PATCH_HEADER_LEN 0;
    if PAGE_SIZE <=? payload_len then None
    else if negb (in_width 32 (zlen ranges)) then None
    else append_ranges ranges (le_bytes 8 page_id ++ le_bytes 4 (zlen ranges) ++ le_bytes 4 0).

Definition encode_page_patch_payload (page_id : Z) (before after : list byte) : option (list byte) :=
  let changed := changed_ranges (Z.to_nat PAGE_SIZE) before after 0 in
  let ranges := map (λ '(start, len), (start, sub after start len)) changed in
  encode_page_patch_ranges_payload page_id ranges.

(** The decoding loop, [count] ranges from [offset] on; every turn consumes a
    range header, so the payload length bounds the turns that succeed. *)
Fixpoint decode_ranges (fuel : nat) (payload : list byte) (count offset : Z)
    : option (list patch_range * Z) :=
  if count <=? 0 then Some ([], offset)
  else match fuel with
       | O => None
       | S fuel =>
           header ← get_range payload offset (offset + PAGE_PATCH_RANGE_HEADER_LEN);
           let start := get_le 4 header 0 in
           let len := get_le 4 header 4 in
           let offset := offset + PAGE_PATCH_RANGE_HEADER_LEN in
           stop ← checked_add 64 start len;
           if PAGE_SIZE <? stop then None
           else
             data ← get_range payload offset (offset + len);
             r ← decode_ranges fuel payload (count - 1) (offset + len);
             Some ((start, data) :: r.1, r.2)
       end.

Definition decode_page_patch_payload (payload : list byte) : option (Z * list patch_range) :=
  if zlen payload <? PAGE_PATCH_HEADER_LEN then None
  else
    let page_id := get_le 8 payload 0 in
    if negb (page_size page_id =? PAGE_SIZE) then None
    else
      let range_count := get_le 4 payload 8 in
      r ← decode_ranges (length payload) payload range_count PAGE_PATCH_HEADER_LEN;
      let '(ranges, offset) := r in
      if offset =? zlen payload then Some (page_id, ranges) else None.

(** [for (start, data) in ranges { page_buf[start..][..len].copy_from_slice(data) }]. *)
Fixpoint apply_ranges (page_buf : list byte) (ranges : list patch_range) : outcome (list byte) :=
  match ranges with
  | [] => Ret page_buf
  | (start, data) :: ranges =>
      page_buf ← copy_from page_buf start (start + zlen data) data;
      apply_ranges page_buf ranges
  end.

End patch.

(** ** LSNs and shards *)

Definition align_lsn_to_shard `{Build} (lsn shard_idx shard_count : Z) : outcome Z :=
  _ ← debug_assert (shard_idx <? shard_count);
  let lsn := Z.max lsn 1 in
  let current_shard := (lsn - 1) mod shard_count in
  let delta := (shard_idx + shard_count - current_shard) mod shard_count in
  uadd 64 lsn delta.

(** ** Submitted writes *)

Module SubmittedWrites.
Record entry := { max_lsn : Z; completed : bool }.
Record t := { entries : list entry; high_water_lsn : Z }.

Definition new (high_water_lsn : Z) : t := {| entries := []; high_water_lsn := high_water_lsn |}.

Definition push (self : t) (max_lsn : Z) : t := {|
  entries := entries self ++ [{| max_lsn := max_lsn; completed := false |}];
  high_water_lsn := high_water_lsn self |}.

(** [iter_mut().find(..)] and [entry.completed = true]. *)
Fixpoint mark (es : list entry) (lsn : Z) : option (list entry) :=
  match es with
  | [] => None
  | e :: es =>
      if (max_lsn e =? lsn) && negb (completed e)
      then Some ({| max_lsn := max_lsn e; completed := true |} :: es)
      else es ← mark es lsn; Some (e :: es)
  end.

(** The loop that pops the completed front entries. *)
Fixpoint pop_completed (es : list entry) (high : Z) : list entry * Z :=
  match es with
  | e :: es' => if completed e then pop_completed es' (Z.max high (max_lsn e)) else (es, high)
  | [] => ([], high)
  end.

Definition complete (self : t) (lsn : Z) : outcome (option Z * t) :=
  es ← expect (mark (entries self) lsn);
  let previous_high_water := high_water_lsn self in
  let '(es, high) := pop_completed es previous_high_water in
  Ret (if previous_high_water <? high then Some high else None, {| entries := es; high_water_lsn := high |}).

End SubmittedWrites.

Definition should_submit_sync (pending_sync sync_in_flight : bool) (written_lsn sync_target : Z) : bool :=
  pending_sync && (negb sync_in_flight || (sync_target <? written_lsn)).

Definition can_submit_write (writes_in_progress max_in_flight_writes : Z) : bool :=
  writes_in_progress <? max_in_flight_writes.

(** ** Record slots

    The entry and data page that an append leaves in a record slot, and
    [finalize_buffer_records], which fills in the checksums when a buffer is
    sealed. *)

(** A record slot: its entry and its data page. *)
Notation slot := (BatchEntry.t * list byte)%type.

Section slots.
Context `{Build}.

(** The slot of a page image. *)
Definition page_image_slot (lsn page_id : Z) (page : list byte) : slot :=
  (BatchEntry.page_image lsn page_id 0, page).

(** The slot of chunk [chunk_idx] of a logical record. *)
Definition logical_chunk_slot (lsn kind : Z) (payload : list byte) (chunk_idx : Z) : slot :=
  let chunks := chunk_count (zlen payload) in
  let start := chunk_idx * LOGICAL_CHUNK_MAX_LEN in
  let end_ := Z.min (start + LOGICAL_CHUNK_MAX_LEN) (zlen payload) in
  let chunk := if start <? zlen payload then sub payload start (end_ - start) else [] in
  let page := upd (fill WAL_RECORD_SIZE x00) 0 chunk in
  let flags := 0 in
  let flags := if chunk_idx =? 0 then Z.lor flags LOGICAL_FLAG_FIRST else flags in
  let flags := if chunk_idx + 1 =? chunks then Z.lor flags LOGICAL_FLAG_LAST else flags in
  (BatchEntry.logical_chunk lsn kind 0 flags (zlen chunk), page).

Definition logical_slots (lsn kind : Z) (payload : list byte) : list slot :=
  map (logical_chunk_slot lsn kind payload) (seqZ 0 (chunk_count (zlen payload))).

End slots.

(** *** Sealing *)

Section finalize.
Context `{Build} `{Crc32}.

(** The checksum of a record. *)
Definition record_crc (entry : BatchEntry.t) (page : list byte) : outcome Z :=
  if BatchEntry.kind entry =? RECORD_KIND_PAGE_IMAGE then
    _ ← assert (zlen page =? PAGE_SIZE);
    Ret (page_crc page)
  else if (BatchEntry.kind entry =? RECORD_KIND_LOGICAL) || (BatchEntry.kind entry =? RECORD_KIND_LOGICAL_PACKED) then
    payload ← slice page 0 (BatchEntry.len entry);
    Ret (payload_crc payload)
  else Panic.

(** The loop over the entries of the batch at [offset], from [idx]. *)
Fixpoint stamp_batch (n : nat) (buffer : list byte) (offset idx : Z) : outcome (list byte) :=
  match n with
  | O => Ret buffer
  | S n =>
      let meta_end := offset + WAL_RECORD_SIZE in
      let page_offset := offset + WAL_RECORD_SIZE * (idx + 1) in
      let page_end := page_offset + WAL_RECORD_SIZE in
      meta ← slice buffer offset meta_end;
      entry ← read_batch_entry meta idx;
      page ← slice buffer page_offset page_end;
      crc ← record_crc entry page;
      meta ← overwrite_batch_entry_crc meta idx crc;
      buffer ← copy_from buffer offset meta_end meta;
      stamp_batch n buffer offset (idx + 1)
  end.

(** The loop over the batches; a batch has at least one page. *)
Fixpoint finalize_loop (fuel : nat) (buffer : list byte) (offset len : Z) : outcome (list byte) :=
  match fuel with
  | O => Panic
  | S fuel =>
      if offset <? len then
        let meta_end := offset + WAL_RECORD_SIZE in
        meta ← slice buffer offset meta_end;
        count ← match batch_meta_count_unchecked meta with Some count => Ret count | None => Panic end;
        buffer ← stamp_batch (Z.to_nat count) buffer offset 0;
        meta ← slice buffer offset meta_end;
        meta ← finalize_batch_meta meta;
        buffer ← copy_from buffer offset meta_end meta;
        finalize_loop fuel buffer (meta_end + count * WAL_RECORD_SIZE) len
      else
        _ ← debug_assert (offset =? len);
        Ret buffer
  end.

Definition finalize_buffer_records (buffer : list byte) (len : Z) : outcome (list byte) :=
  finalize_loop (S (Z.to_nat (len / WAL_RECORD_SIZE))) buffer 0 len.

End finalize.
