(* ===== verification/WalPatch.v ===== *)
(** * Write-ahead log: page patches rebuild the page

    Lemmas on the page-patch codec of [WalCodec] and its theorem. *)

From S2P Require Import Prelude Bytes FrameKernel WalFormat WalCodec.
#[local] Open Scope Z_scope.

Lemma get_range_mid {A} (pre x post : list A) a b :
  a = zlen pre → b = zlen pre + zlen x → get_range (pre ++ x ++ post) a b = Some x.
Proof.
  intros -> ->. pose proof (zlen_nonneg pre). pose proof (zlen_nonneg x). pose proof (zlen_nonneg post).
  rewrite get_range_Some by (rewrite ?zlen_app; lia). f_equal.
  rewrite sub_app_r by lia. rewrite sub_app_l by lia.
  rewrite Z.sub_diag. replace (zlen pre + zlen x - zlen pre) with (zlen x) by lia. apply sub_all.
Qed.

Lemma get_le_app_l n (p q : list byte) off :
  0 ≤ off → off + Z.of_nat n ≤ zlen p → get_le n (p ++ q) off = get_le n p off.
Proof. intros. unfold get_le. by rewrite sub_app_l by lia. Qed.
Lemma get_le_app_r n (p q : list byte) off :
  zlen p ≤ off → get_le n (p ++ q) off = get_le n q (off - zlen p).
Proof. intros. unfold get_le. by rewrite sub_app_r by lia. Qed.
Lemma get_le_le_bytes n v : get_le n (le_bytes n v) 0 = wrap (8 * Z.of_nat n) v.
Proof. unfold get_le. rewrite <-(zlen_le_bytes n v) at 1. rewrite sub_all. apply of_le_bytes_le_bytes. Qed.

#[local] Arguments le_bytes : simpl never.
#[local] Opaque le_bytes.

Section patch.
Context `{Build}.

(** ** Ranges *)

(** Non-empty ranges inside the page, in order, from [prev] on. *)
Fixpoint ranges_valid (prev : Z) (rs : list patch_range) : Prop :=
  match rs with
  | [] => True
  | (s, d) :: rs => prev ≤ s ∧ 0 < zlen d ∧ s + zlen d ≤ PAGE_SIZE ∧ ranges_valid (s + zlen d) rs
  end.
(** The bytes the ranges take in a payload. *)
Fixpoint ranges_bytes (rs : list patch_range) : Z :=
  match rs with
  | [] => 0
  | (_, d) :: rs => 8 + zlen d + ranges_bytes rs
  end.
Definition enc_range (r : patch_range) : list byte := le_bytes 4 r.1 ++ le_bytes 4 (zlen r.2) ++ r.2.
Definition enc_ranges (rs : list patch_range) : list byte := concat (map enc_range rs).

Lemma enc_ranges_cons s d rs :
  enc_ranges ((s, d) :: rs) = le_bytes 4 s ++ le_bytes 4 (zlen d) ++ d ++ enc_ranges rs.
Proof. unfold enc_ranges. cbn [map concat]. unfold enc_range at 1. cbn [fst snd]. by rewrite <-!app_assoc. Qed.

Lemma zlen_enc_ranges rs : zlen (enc_ranges rs) = ranges_bytes rs.
Proof.
  induction rs as [|[s d] rs IH]; [done|].
  rewrite enc_ranges_cons, !zlen_app, !zlen_le_bytes, IH. simpl. lia.
Qed.

Lemma ranges_bytes_bound rs prev :
  0 ≤ prev → ranges_valid prev rs → 0 ≤ ranges_bytes rs ≤ 9 * (PAGE_SIZE - prev) ∨ rs = [].
Proof.
  revert prev. induction rs as [|[s d] rs IH]; intros prev Hp; [by right|]. simpl. intros (? & ? & ? & Hv).
  left. pose proof (zlen_nonneg d). destruct (IH (s + zlen d)) as [|]; [lia|done|lia|subst; simpl; lia].
Qed.

(** [measure_ranges] accepts exactly the valid ranges. *)
Lemma measure_ranges_spec rs len prev :
  0 ≤ prev → Forall (λ r, 0 ≤ r.1) rs → 0 ≤ len → len + ranges_bytes rs < 2 ^ 63 →
  (ranges_valid prev rs → measure_ranges rs len prev = Some (len + ranges_bytes rs)) ∧
  (∀ n, measure_ranges rs len prev = Some n → ranges_valid prev rs).
Proof.
  revert len prev. induction rs as [|[s d] rs IH]; intros len prev Hp Hs Hl Hb; simpl in *.
  { by rewrite Z.add_0_r. }
  apply Forall_cons in Hs as [Hs Hss]. simpl in Hs. pose proof (zlen_nonneg d).
  assert (Hrb : ∀ l : list patch_range, 0 ≤ ranges_bytes l).
  { intros l. rewrite <-zlen_enc_ranges. apply zlen_nonneg. }
  pose proof (Hrb rs). unfold PAGE_PATCH_RANGE_HEADER_LEN, checked_add. split.
  - intros (? & ? & ? & Hv).
    destruct (Z.eqb_spec (zlen d) 0); [lia|]. destruct (Z.ltb_spec s prev); [lia|]. simpl.
    repeat (rewrite (proj2 (in_width_spec _ _)) by page_lia; simpl). rewrite (proj2 (Z.ltb_ge _ _)) by lia.
    destruct (IH (len + 8 + zlen d) (s + zlen d)) as [IH1 _]; [lia|done|lia|lia|]. rewrite IH1 by done. f_equal. lia.
  - intros n. destruct (Z.eqb_spec (zlen d) 0); [done|]. destruct (Z.ltb_spec s prev); [done|]. simpl.
    destruct (in_width 64 (s + zlen d)); [|done]. simpl. destruct (Z.ltb_spec PAGE_SIZE (s + zlen d)); [done|].
    destruct (in_width 64 (len + 8)); [|done]. simpl. destruct (in_width 64 (len + 8 + zlen d)); [|done]. simpl.
    intros E. destruct (IH (len + 8 + zlen d) (s + zlen d)) as [_ Hv]; [lia|done|lia|lia|].
    split_and!; [lia|lia|lia|by eapply Hv].
Qed.

Lemma append_ranges_spec rs prev p :
  0 ≤ prev → ranges_valid prev rs → append_ranges rs p = Some (p ++ enc_ranges rs).
Proof.
  revert prev p. induction rs as [|[s d] rs IH]; intros prev p Hp; simpl.
  { intros _. unfold enc_ranges. simpl. by rewrite app_nil_r. }
  intros (? & ? & ? & Hv). rewrite !(proj2 (in_width_spec _ _)) by page_lia. simpl.
  rewrite (IH (s + zlen d)) by (done || lia). by rewrite enc_ranges_cons, <-!app_assoc.
Qed.

Lemma decode_ranges_spec rs prev pre fuel :
  0 ≤ prev → ranges_valid prev rs → (length rs ≤ fuel)%nat →
  decode_ranges fuel (pre ++ enc_ranges rs) (zlen rs) (zlen pre) = Some (rs, zlen pre + ranges_bytes rs).
Proof.
  revert prev pre fuel. induction rs as [|[s d] rs IH]; intros prev pre fuel Hp Hv Hf.
  { rewrite zlen_nil. destruct fuel; simpl; by rewrite Z.add_0_r. }
  simpl in Hv. destruct Hv as (? & ? & ? & Hv). rewrite zlen_cons. pose proof (zlen_nonneg rs).
  destruct fuel as [|fuel]; [simpl in Hf; lia|].
  rewrite enc_ranges_cons, (app_assoc (le_bytes 4 s)). set (hdr := le_bytes 4 s ++ le_bytes 4 (zlen d)).
  assert (Hh : zlen hdr = 8 ∧ get_le 4 hdr 0 = s ∧ get_le 4 hdr 4 = zlen d).
  { unfold hdr. rewrite zlen_app, !zlen_le_bytes. split; [done|].
    rewrite get_le_app_l, get_le_app_r by (rewrite ?zlen_le_bytes; lia). rewrite zlen_le_bytes, Z.sub_diag.
    by rewrite !get_le_le_bytes, !wrap_small by (simpl; page_lia). }
  destruct Hh as (Hh & Hs & Hd). clearbody hdr. unfold decode_ranges; fold decode_ranges.
  rewrite (proj2 (Z.leb_gt _ _)) by lia. unfold PAGE_PATCH_RANGE_HEADER_LEN.
  rewrite get_range_mid by lia. cbn [mbind option_bind]. rewrite Hs, Hd. unfold checked_add.
  rewrite (proj2 (in_width_spec _ _)) by page_lia. cbn [mbind option_bind].
  rewrite (proj2 (Z.ltb_ge _ _)) by lia.
  rewrite (app_assoc pre).
  assert (Hpre : zlen (pre ++ hdr) = zlen pre + 8) by (rewrite zlen_app; lia).
  rewrite get_range_mid by lia. cbn [mbind option_bind]. rewrite app_assoc.
  replace (1 + zlen rs - 1) with (zlen rs) by lia.
  replace (zlen pre + 8 + zlen d) with (zlen ((pre ++ hdr) ++ d)) by (rewrite zlen_app; lia).
  rewrite (IH (s + zlen d)) by (done || simpl in Hf; lia). simpl. do 2 f_equal. rewrite zlen_app. lia.
Qed.

Lemma ranges_valid_starts rs prev : 0 ≤ prev → ranges_valid prev rs → Forall (λ r, 0 ≤ r.1) rs.
Proof.
  revert prev. induction rs as [|[s d] rs IH]; intros prev Hp; [constructor|]. simpl. intros (? & ? & ? & Hv).
  constructor; [simpl; lia|]. apply (IH (s + zlen d)); [lia|done].
Qed.

Lemma length_le_ranges_bytes rs prev : ranges_valid prev rs → Z.of_nat (length rs) ≤ ranges_bytes rs.
Proof.
  revert prev. induction rs as [|[s d] rs IH]; intros prev; [simpl; lia|]. simpl. intros (? & ? & ? & Hv).
  specialize (IH _ Hv). lia.
Qed.

(** Encoding ranges succeeds exactly when they are valid, not empty and small
    enough, and decoding gives them back. *)
Lemma encode_ranges_spec pid rs :
  0 ≤ pid < 2 ^ 64 → Forall (λ r, 0 ≤ r.1) rs → ranges_bytes rs < 2 ^ 32 →
  match encode_page_patch_ranges_payload pid rs with
  | Some payload => rs ≠ [] ∧ ranges_valid 0 rs ∧ zlen payload = 16 + ranges_bytes rs ∧
      zlen payload < PAGE_SIZE ∧ decode_page_patch_payload payload = Some (pid, rs)
  | None => rs = [] ∨ ¬ ranges_valid 0 rs ∨ PAGE_SIZE ≤ 16 + ranges_bytes rs
  end.
Proof.
  intros Hpid Hs Hb. unfold encode_page_patch_ranges_payload, page_size. rewrite Z.eqb_refl. simpl.
  destruct (Z.eqb_spec (zlen rs) 0) as [E|E]; [simpl; left; by apply zlen_0_nil|].
  unfold PAGE_PATCH_HEADER_LEN.
  destruct (measure_ranges_spec rs 16 0) as [Hok Hinv]; [lia|done|lia|lia|].
  destruct (measure_ranges rs 16 0) as [n|] eqn:Em.
  2:{ right. left. intros Hv. by specialize (Hok Hv). }
  specialize (Hinv n eq_refl). specialize (Hok Hinv). injection Hok as ->. simpl.
  destruct (Z.leb_spec PAGE_SIZE (16 + ranges_bytes rs)); [by right; right|].
  pose proof (length_le_ranges_bytes rs 0 Hinv) as Hlen.
  rewrite (proj2 (in_width_spec _ _)) by (unfold zlen; lia). simpl.
  rewrite (append_ranges_spec rs 0) by (done || lia).
  set (pre := le_bytes 8 pid ++ le_bytes 4 (zlen rs) ++ le_bytes 4 0).
  assert (Hpre : zlen pre = 16) by (unfold pre; rewrite !zlen_app, !zlen_le_bytes; done).
  assert (Hz : zlen (pre ++ enc_ranges rs) = 16 + ranges_bytes rs) by (rewrite zlen_app, zlen_enc_ranges; lia).
  split_and!; [by intros ->|done|done|lia|].
  unfold decode_page_patch_payload, PAGE_PATCH_HEADER_LEN. rewrite Hz.
  rewrite (proj2 (Z.ltb_ge _ _)) by (unfold zlen in *; lia). unfold page_size. rewrite Z.eqb_refl. simpl.
  assert (Hcount : get_le 4 (pre ++ enc_ranges rs) 8 = zlen rs).
  { rewrite get_le_app_l by lia. unfold pre. rewrite get_le_app_r by (rewrite zlen_le_bytes; lia).
    rewrite zlen_le_bytes, get_le_app_l by (rewrite ?zlen_le_bytes; lia).
    rewrite get_le_le_bytes. apply wrap_small. unfold zlen. simpl. lia. }
  assert (Hid : get_le 8 (pre ++ enc_ranges rs) 0 = pid).
  { rewrite get_le_app_l by lia. unfold pre. rewrite get_le_app_l by (rewrite ?zlen_le_bytes; lia).
    rewrite get_le_le_bytes. apply wrap_small. simpl. lia. }
  rewrite Hcount, Hid. rewrite <-Hpre at 1. rewrite (decode_ranges_spec rs 0).
  - simpl. rewrite Hpre, Z.eqb_refl. done.
  - lia.
  - done.
  - rewrite length_app. unfold enc_ranges. pose proof (zlen_enc_ranges rs) as He. unfold enc_ranges, zlen in *. lia.
Qed.


(** ** Applying ranges *)

Definition covered (rs : list patch_range) (i : Z) : Prop :=
  Exists (λ r, r.1 ≤ i < r.1 + zlen r.2) rs.

#[local] Instance covered_dec rs i : Decision (covered rs i).
Proof. unfold covered. apply _. Defined.

Lemma covered_lower rs prev i : ranges_valid prev rs → covered rs i → prev ≤ i.
Proof.
  revert prev. induction rs as [|[s d] rs IH]; intros prev Hv; [by intros ?%Exists_nil|].
  simpl in Hv. destruct Hv as (? & ? & ? & Hv). intros [Hi|Hi]%Exists_cons; simpl in *; [lia|].
  specialize (IH _ Hv Hi). lia.
Qed.

(** Ranges that carry bytes of [after] write those bytes and nothing else. *)
Lemma apply_ranges_spec rs prev page after :
  0 ≤ prev → ranges_valid prev rs → zlen page = PAGE_SIZE → zlen after = PAGE_SIZE →
  Forall (λ r, r.2 = sub after r.1 (zlen r.2)) rs →
  ∃ page', apply_ranges page rs = Ret page' ∧ zlen page' = PAGE_SIZE ∧
    ∀ i, page' !! i = if decide (covered rs (Z.of_nat i)) then after !! i else page !! i.
Proof.
  revert prev page. induction rs as [|[s d] rs IH]; intros prev page Hp Hv Hz Ha Hd.
  { exists page. split_and!; [done|done|]. intros i. rewrite decide_False; [done|]. by intros ?%Exists_nil. }
  simpl in Hv. destruct Hv as (? & ? & ? & Hv). apply Forall_cons in Hd as [Hd Hds]. simpl in Hd.
  cbn [apply_ranges]. rewrite copy_from_Ret, bind_Ret by lia.
  destruct (IH (s + zlen d) (upd page s d)) as (page' & E & Hz' & Hl); [lia|done| |done|done|].
  { rewrite zlen_upd; lia. }
  exists page'. split_and!; [done|done|]. intros i. rewrite Hl, lookup_upd by lia.
  unfold covered. destruct (decide (Exists _ rs)) as [Hc|Hc].
  - rewrite decide_True; [done|]. by right.
  - destruct (decide (s ≤ Z.of_nat i < s + zlen d)) as [Hi|Hi].
    + rewrite decide_True by (by left). rewrite Hd, lookup_sub by lia. f_equal. lia.
    + rewrite decide_False; [done|]. intros [?|?]%Exists_cons; [done|by apply Hc].
Qed.

(** ** The runs of differing bytes *)

Lemma run_end_spec fuel before after o :
  o ≤ PAGE_SIZE →
  o ≤ run_end fuel before after o ≤ PAGE_SIZE ∧
  ∀ i, o ≤ i < run_end fuel before after o → byte_differs before after i = true.
Proof.
  revert o. induction fuel as [|fuel IH]; intros o Ho; cbn [run_end]; [split; [|intros]; lia|].
  destruct (Z.ltb_spec o PAGE_SIZE); simpl; [|split; [|intros]; lia].
  destruct (byte_differs before after o) eqn:Ed; [|split; [|intros]; lia].
  destruct (IH (o + 1)) as [Hr Hi]; [lia|]. split; [lia|]. intros i Hi'.
  destruct (decide (i = o)) as [->|]; [done|]. apply Hi. lia.
Qed.

(** The ranges [encode_page_patch_payload] builds from the runs. *)
Definition diff_ranges (after : list byte) (cs : list (Z * Z)) : list patch_range :=
  map (λ '(start, len), (start, sub after start len)) cs.

Lemma changed_ranges_spec fuel before after o :
  0 ≤ o ≤ PAGE_SIZE → (Z.to_nat (PAGE_SIZE - o) ≤ fuel)%nat → zlen after = PAGE_SIZE →
  let rs := diff_ranges after (changed_ranges fuel before after o) in
  ranges_valid o rs ∧ Forall (λ r, r.2 = sub after r.1 (zlen r.2)) rs ∧
  ∀ i, o ≤ i < PAGE_SIZE → covered rs i ↔ byte_differs before after i = true.
Proof.
  cbv zeta. revert o. induction fuel as [|fuel IH]; intros o Ho Hf Hz; cbn [changed_ranges].
  { split_and!; [done|constructor|]. intros i Hi. lia. }
  destruct (Z.ltb_spec o PAGE_SIZE) as [Hlt|]; [|split_and!; [done|constructor|intros; lia]].
  destruct (byte_differs before after o) eqn:Ed; simpl.
  - destruct (run_end_spec (Z.to_nat PAGE_SIZE) before after (o + 1)) as [Hr Hdiff]; [lia|].
    set (stop := run_end _ _ _ _) in *. destruct (IH stop) as (Hv & Hd & Hc); [lia|lia|done|].
    assert (Hlen : zlen (sub after o (stop - o)) = stop - o) by (rewrite zlen_sub; lia).
    rewrite Hlen. split_and!; [lia|lia|lia| | |].
    + by replace (o + (stop - o)) with stop by lia.
    + constructor; [simpl; by rewrite Hlen|done].
    + intros i Hi. unfold covered. rewrite Exists_cons. simpl. rewrite Hlen. split.
      * intros [Hi'|Hi'].
        -- destruct (decide (i = o)) as [->|]; [done|]. apply Hdiff. lia.
        -- destruct (decide (stop ≤ i)) as [|Hlo]; [by apply Hc; [lia|]|].
           destruct (decide (i = o)) as [->|]; [done|]. apply Hdiff. lia.
      * intros Hb. destruct (decide (i < stop)); [left; lia|]. right. apply Hc; [lia|done].
  - destruct (IH (o + 1)) as (Hv & Hd & Hc); [lia|lia|done|]. split_and!; [|done|].
    + destruct (changed_ranges fuel before after (o + 1)) as [|[s l] cs]; [done|]. simpl in *. intuition lia.
    + intros i Hi. destruct (decide (i = o)) as [->|]; [|apply Hc; lia]. rewrite Ed. split; [|done].
      intros Hcov%(covered_lower _ (o + 1)); [lia|done].
Qed.
End patch.

(** A page patch rebuilds the page. Encoding the difference of two pages
    either yields a payload shorter than a page, which decodes to the page id
    and to ranges that cover only bytes that changed and turn the old page
    into the new one; or yields nothing, exactly because the pages are equal
    or the payload would not be shorter than a page. For ranges given by the
    caller, encoding succeeds exactly when there is at least one, they are
    non-empty, in order, disjoint and inside the page, and the payload is
    shorter than a page; and decoding gives them back. *)
Theorem page_patch_rebuilds `{Build} pid before after ranges :
  0 ≤ pid < 2 ^ 64 → zlen before = PAGE_SIZE → zlen after = PAGE_SIZE →
  Forall (λ r, 0 ≤ r.1) ranges → ranges_bytes ranges < 2 ^ 32 →
  match encode_page_patch_payload pid before after with
  | Some payload => zlen payload < PAGE_SIZE ∧ before ≠ after ∧
      ∃ rs, decode_page_patch_payload payload = Some (pid, rs) ∧ apply_ranges before rs = Ret after ∧
        ∀ i, 0 ≤ i < PAGE_SIZE → covered rs i → byte_differs before after i = true
  | None => before = after ∨
      PAGE_SIZE ≤ 16 + ranges_bytes (diff_ranges after (changed_ranges (Z.to_nat PAGE_SIZE) before after 0))
  end ∧
  match encode_page_patch_ranges_payload pid ranges with
  | Some payload => ranges ≠ [] ∧ ranges_valid 0 ranges ∧ zlen payload < PAGE_SIZE ∧
      decode_page_patch_payload payload = Some (pid, ranges)
  | None => ranges = [] ∨ ¬ ranges_valid 0 ranges ∨ PAGE_SIZE ≤ 16 + ranges_bytes ranges
  end.
Proof.
  intros Hpid Hb Ha Hrs Hrb. split.
  2:{ pose proof (encode_ranges_spec pid ranges Hpid Hrs Hrb) as Hspec.
      destruct (encode_page_patch_ranges_payload pid ranges); [intuition|done]. }
  unfold encode_page_patch_payload. fold (diff_ranges after (changed_ranges (Z.to_nat PAGE_SIZE) before after 0)).
  destruct (changed_ranges_spec (Z.to_nat PAGE_SIZE) before after 0) as (Hv & Hd & Hc); [page_lia|lia|done|].
  set (rs := diff_ranges after (changed_ranges (Z.to_nat PAGE_SIZE) before after 0)) in *.
  assert (Hs : Forall (λ r, 0 ≤ r.1) rs) by (by apply (ranges_valid_starts rs 0)).
  assert (Hbytes : ranges_bytes rs < 2 ^ 32).
  { destruct (ranges_bytes_bound rs 0) as [?|E]; [lia|done|page_lia|]. rewrite E. simpl. lia. }
  pose proof (encode_ranges_spec pid rs Hpid Hs Hbytes) as Hspec.
  assert (Hsame : (∀ i, 0 ≤ i < PAGE_SIZE → byte_differs before after i = false) → before = after).
  { intros Hn. apply list_eq_zlen; [lia|]. intros i Hi. specialize (Hn i ltac:(lia)).
    unfold byte_differs in Hn. apply negb_false_iff, bool_decide_eq_true in Hn. done. }
  destruct (encode_page_patch_ranges_payload pid rs) as [payload|].
  - destruct Hspec as (Hne & _ & _ & Hz & Hdec). split_and!; [done| |].
    + intros ->. clearbody rs. destruct rs as [|[s d] rs]; [done|]. simpl in Hv.
      assert (Hx : byte_differs after after s = true).
      { apply Hc; [lia|]. unfold covered. apply Exists_cons. left. simpl. lia. }
      unfold byte_differs in Hx. by rewrite bool_decide_true in Hx.
    + exists rs. split; [done|].
      destruct (apply_ranges_spec rs 0 before after) as (page' & -> & Hz' & Hl); [lia|done|done|done|done|].
      split; [|intros i Hi; by apply Hc]. f_equal. apply list_eq_zlen; [lia|]. intros i Hi. rewrite Hl.
      case_decide as Hcov; [done|]. rewrite Z2Nat.id in Hcov by lia.
      destruct (byte_differs before after i) eqn:Ed; [exfalso; apply Hcov, Hc; [lia|done]|].
      unfold byte_differs in Ed. by apply negb_false_iff, bool_decide_eq_true in Ed.
  - destruct Hspec as [E|[E|E]]; [left|done|by right]. apply Hsame. intros i Hi.
    destruct (byte_differs before after i) eqn:Ed; [|done]. apply Hc in Ed; [|lia]. rewrite E in Ed.
    by apply Exists_nil in Ed.
Qed.

Definition page_before : list byte := fill 4096 x41.
Definition page_after : list byte := upd (upd page_before 10 [x42; x43]) 4000 [x44].

Lemma page_patch_rebuilds_witness :
  zlen page_before = PAGE_SIZE (H := debug_4k) ∧ zlen page_after = PAGE_SIZE (H := debug_4k) ∧
  ∃ payload rs, encode_page_patch_payload (H := debug_4k) 9 page_before page_after = Some payload ∧
    decode_page_patch_payload (H := debug_4k) payload = Some (9, rs) ∧
    apply_ranges page_before rs = Ret page_after.
Proof.
  assert (Hb : zlen page_before = PAGE_SIZE (H := debug_4k)) by (vm_compute; reflexivity).
  assert (Ha : zlen page_after = PAGE_SIZE (H := debug_4k)) by (vm_compute; reflexivity).
  split; [exact Hb|]. split; [exact Ha|].
  destruct (@page_patch_rebuilds debug_4k 9 page_before page_after [] ltac:(lia) Hb Ha (Forall_nil_2 _) ltac:(vm_compute; reflexivity))
    as [Hp _].
  destruct (encode_page_patch_payload (H := debug_4k) 9 page_before page_after) as [payload|] eqn:E;
    [|vm_compute in E; discriminate E].
  destruct Hp as (_ & _ & rs & Hd & Happ & _). exists payload, rs. exact (conj eq_refl (conj Hd Happ)).
Defined.
