(* ===== verification/WalCodecSpec.v ===== *)
(** * Write-ahead log: properties of the record codecs

    Packed logical records, page-image payloads, the handles of buffered
    records, the shard of an LSN and the window of submitted writes. *)

From S2P Require Import Prelude Bytes FrameKernel WalFormat WalCodec WalPatch.
#[local] Open Scope Z_scope.
#[local] Opaque le_bytes.

(** ** Packed logical records *)

Definition enc_logical (r : logical) : list byte :=
  le_bytes 8 r.1.1 ++ le_bytes 8 r.1.2 ++ le_bytes 4 (zlen r.2) ++ r.2.
Definition logical_ok (r : logical) : Prop :=
  0 ≤ r.1.1 < 2 ^ 64 ∧ 0 ≤ r.1.2 < 2 ^ 64 ∧ zlen r.2 < 2 ^ 32.

(** Appending records to a data page from [off] on, each encoded into what is
    left of the page, as [try_append_packed_logical_locked] does. *)
Fixpoint pack (dst : list byte) (off : Z) (rs : list logical) : option (list byte * Z) :=
  match rs with
  | [] => Some (dst, off)
  | (lsn, kind, payload) :: rs =>
      r ← encode_packed_logical_entry (sub dst off (zlen dst - off)) lsn kind payload;
      pack (upd dst off r.1) (off + r.2) rs
  end.

Lemma zlen_enc_logical r : zlen (enc_logical r) = 20 + zlen r.2.
Proof. unfold enc_logical. rewrite !zlen_app, !zlen_le_bytes. lia. Qed.

Lemma encode_packed_spec dst lsn kind payload :
  zlen payload < 2 ^ 32 →
  encode_packed_logical_entry dst lsn kind payload =
    if 20 + zlen payload <=? zlen dst then Some (upd dst 0 (enc_logical (lsn, kind, payload)), 20 + zlen payload)
    else None.
Proof.
  intros Hp. pose proof (zlen_nonneg payload). pose proof (zlen_nonneg dst).
  unfold encode_packed_logical_entry, packed_logical_entry_len, checked_add, PACKED_LOGICAL_ENTRY_HEADER_LEN.
  rewrite (proj2 (in_width_spec 32 _)), (proj2 (in_width_spec 64 _)) by lia. cbn [negb mbind option_bind].
  destruct (Z.leb_spec (20 + zlen payload) (zlen dst)).
  - rewrite get_range_Some by lia. cbn [mbind option_bind]. do 2 f_equal. unfold enc_logical. cbn [fst snd].
    rewrite <-(upd_upd_app dst 0), <-(upd_upd_app _ (0 + 8)), <-(upd_upd_app _ (0 + 8 + 8));
      rewrite ?zlen_upd; rewrite ?zlen_upd; rewrite ?zlen_app, ?zlen_le_bytes; try lia; done.
  - unfold get_range. by rewrite (proj2 (Z.leb_gt (20 + zlen payload) _)), andb_false_r by lia.
Qed.

(** The bytes of a list of packed records. *)
Definition packed_bytes (rs : list logical) : list byte := concat (map enc_logical rs).

Lemma packed_bytes_cons r rs : packed_bytes (r :: rs) = enc_logical r ++ packed_bytes rs.
Proof. done. Qed.

Lemma upd_upd_sub (dst : list byte) off x :
  0 ≤ off → off + zlen x ≤ zlen dst → upd dst off (upd (sub dst off (zlen dst - off)) 0 x) = upd dst off x.
Proof.
  intros Ho Hx. pose proof (zlen_nonneg x).
  assert (Hs : zlen (sub dst off (zlen dst - off)) = zlen dst - off) by (rewrite zlen_sub; lia).
  assert (Hu : zlen (upd (sub dst off (zlen dst - off)) 0 x) = zlen dst - off) by (rewrite zlen_upd; lia).
  apply list_eq. intros i. rewrite !lookup_upd by lia. rewrite Hu.
  repeat case_decide; try lia; [f_equal; lia| |done].
  rewrite lookup_sub by lia. f_equal. lia.
Qed.

Lemma pack_spec dst off rs :
  0 ≤ off ≤ zlen dst → Forall logical_ok rs →
  pack dst off rs = if off + zlen (packed_bytes rs) <=? zlen dst
    then Some (upd dst off (packed_bytes rs), off + zlen (packed_bytes rs)) else None.
Proof.
  revert dst off. induction rs as [|[[lsn kind] payload] rs IH]; intros dst off Ho Hok.
  { simpl. unfold packed_bytes. simpl. rewrite zlen_nil, Z.add_0_r, upd_nil by lia. by rewrite (proj2 (Z.leb_le _ _)) by lia. }
  apply Forall_cons in Hok as [(_ & _ & Hp) Hok]. simpl in Hp. cbn [pack].
  assert (Hs : zlen (sub dst off (zlen dst - off)) = zlen dst - off) by (rewrite zlen_sub; lia).
  rewrite encode_packed_spec, Hs by done. rewrite packed_bytes_cons, zlen_app, zlen_enc_logical. cbn [fst snd].
  pose proof (zlen_nonneg (packed_bytes rs)). pose proof (zlen_nonneg payload).
  destruct (Z.leb_spec (20 + zlen payload) (zlen dst - off)) as [Hfit|Hno]; cbn [mbind option_bind fst snd].
  - rewrite upd_upd_sub by (rewrite ?zlen_enc_logical; simpl; lia).
    set (x := enc_logical (lsn, kind, payload)).
    assert (Hx : zlen x = 20 + zlen payload) by (unfold x; by rewrite zlen_enc_logical).
    rewrite IH by (rewrite ?zlen_upd; done || lia). rewrite zlen_upd by lia.
    replace (off + (20 + zlen payload) + zlen (packed_bytes rs)) with
      (off + (20 + zlen payload + zlen (packed_bytes rs))) by lia.
    destruct (Z.leb_spec (off + (20 + zlen payload + zlen (packed_bytes rs))) (zlen dst)); [|done].
    do 2 f_equal. rewrite <-Hx. apply upd_upd_app; lia.
  - rewrite (proj2 (Z.leb_gt _ _)) by lia. done.
Qed.

Lemma packed_loop_spec rs pre fuel :
  Forall logical_ok rs → (length rs < fuel)%nat →
  packed_loop fuel (pre ++ packed_bytes rs) (zlen pre) = (rs, true).
Proof.
  revert pre fuel. induction rs as [|[[lsn kind] payload] rs IH]; intros pre fuel Hok Hf;
    (destruct fuel as [|fuel]; [simpl in Hf; lia|]); cbn [packed_loop].
  { unfold packed_bytes. simpl. by rewrite app_nil_r, Z.ltb_irrefl. }
  apply Forall_cons in Hok as [(Hl & Hk & Hp) Hok]. simpl in Hl, Hk, Hp. pose proof (zlen_nonneg payload).
  pose proof (zlen_nonneg (packed_bytes rs)). pose proof (zlen_nonneg pre).
  set (hdr := le_bytes 8 lsn ++ le_bytes 8 kind ++ le_bytes 4 (zlen payload)).
  assert (E : pre ++ packed_bytes ((lsn, kind, payload) :: rs) = pre ++ hdr ++ payload ++ packed_bytes rs).
  { rewrite packed_bytes_cons. unfold enc_logical, hdr. cbn [fst snd]. by rewrite <-!app_assoc. }
  assert (Hh : zlen hdr = 20 ∧ get_le 8 hdr 0 = lsn ∧ get_le 8 hdr 8 = kind ∧ get_le 4 hdr 16 = zlen payload).
  { unfold hdr. split; [by rewrite !zlen_app, !zlen_le_bytes|].
    rewrite get_le_app_l by (rewrite ?zlen_le_bytes; lia).
    rewrite !(get_le_app_r _ (le_bytes 8 lsn)) by (rewrite ?zlen_le_bytes; lia). rewrite !zlen_le_bytes.
    rewrite get_le_app_l by (rewrite ?zlen_le_bytes; lia).
    rewrite get_le_app_r by (rewrite ?zlen_le_bytes; lia). rewrite !zlen_le_bytes.
    change (8 - Z.of_nat 8) with 0. change (16 - Z.of_nat 8 - Z.of_nat 8) with 0.
    rewrite !get_le_le_bytes. by rewrite !wrap_small by (simpl; lia). }
  clearbody hdr. destruct Hh as (Hh & Hg1 & Hg2 & Hg3). rewrite E.
  rewrite (proj2 (Z.ltb_lt _ _)) by (rewrite !zlen_app; lia). unfold PACKED_LOGICAL_ENTRY_HEADER_LEN.
  rewrite get_range_mid by lia. rewrite Hg1, Hg2, Hg3.
  rewrite (app_assoc pre). assert (Hph : zlen (pre ++ hdr) = zlen pre + 20) by (rewrite zlen_app; lia).
  rewrite get_range_mid by lia. rewrite app_assoc.
  replace (zlen pre + 20 + zlen payload) with (zlen ((pre ++ hdr) ++ payload)) by (rewrite zlen_app; lia).
  rewrite IH by (done || simpl in Hf; lia). done.
Qed.

Lemma length_packed_bytes rs : Z.of_nat (length rs) ≤ zlen (packed_bytes rs).
Proof.
  induction rs as [|r rs IH]; [done|]. rewrite packed_bytes_cons, zlen_app, zlen_enc_logical. simpl.
  pose proof (zlen_nonneg r.2). lia.
Qed.

(** Every record the loop delivers is a stretch of the payload. *)
Lemma packed_loop_inside fuel payload off rs ok :
  packed_loop fuel payload off = (rs, ok) → 0 ≤ off →
  Forall (λ r, ∃ a, off ≤ a ∧ a + zlen r.2 ≤ zlen payload ∧ r.2 = sub payload a (zlen r.2)) rs.
Proof.
  revert off rs ok. induction fuel as [|fuel IH]; intros off rs ok E Ho; simpl in E; [by simplify_eq|].
  destruct (_ <? _); [|by simplify_eq]. destruct (get_range payload off _) as [h|] eqn:Eh; [|by simplify_eq].
  destruct (get_range payload (off + _) _) as [p|] eqn:Ep; [|by simplify_eq].
  destruct (packed_loop fuel payload _) as [rs' ok'] eqn:El. simplify_eq.
  unfold PACKED_LOGICAL_ENTRY_HEADER_LEN in *. apply get_range_inv in Ep as (Ha & Hb & ->).
  pose proof (get_le_range 4 h 16). constructor.
  - exists (off + 20). simpl. rewrite zlen_sub by lia. split_and!; [lia|lia|done].
  - eapply IH in El; [|lia]. eapply Forall_impl; [exact El|]. intros r (a & ? & ? & ?). exists a. split_and!; [lia|lia|done].
Qed.

(** Packed logical records are read back in order. Appending records to a
    data page succeeds exactly when their headers and payloads fit in what is
    left of the page, and the packed prefix then decodes to those records
    and nothing else. On any bytes at all the decoder stops, and hands over
    only payloads that lie inside what it was given. *)
Theorem packed_logical_roundtrip dst rs payload :
  Forall logical_ok rs →
  match pack dst 0 rs with
  | Some (dst', n) => zlen dst' = zlen dst ∧ n = zlen (packed_bytes rs) ∧ n ≤ zlen dst ∧
      for_each_packed_logical_record (sub dst' 0 n) = (rs, true)
  | None => zlen dst < zlen (packed_bytes rs)
  end ∧
  Forall (λ r, ∃ a, 0 ≤ a ∧ a + zlen r.2 ≤ zlen payload ∧ r.2 = sub payload a (zlen r.2))
    (for_each_packed_logical_record payload).1.
Proof.
  intros Hok. pose proof (zlen_nonneg (packed_bytes rs)). pose proof (zlen_nonneg dst). split.
  - rewrite pack_spec by (done || lia). rewrite Z.add_0_l.
    destruct (Z.leb_spec (zlen (packed_bytes rs)) (zlen dst)) as [Hfit|]; [|done].
    split_and!; [by apply zlen_upd; lia|done|done|]. rewrite sub_upd_eq by lia.
    unfold for_each_packed_logical_record. apply (packed_loop_spec rs [] _ Hok).
    pose proof (length_packed_bytes rs). unfold zlen in *. lia.
  - unfold for_each_packed_logical_record. destruct (packed_loop _ _ _) as [rs' ok'] eqn:E.
    by eapply packed_loop_inside.
Qed.

Lemma packed_logical_roundtrip_witness :
  Forall logical_ok [(7, 1, [x61; x62]); (8, 2, []); (9, 1, [x63])] ∧
  ∃ dst' n, pack (fill 100 xff) 0 [(7, 1, [x61; x62]); (8, 2, []); (9, 1, [x63])] = Some (dst', n) ∧
    for_each_packed_logical_record (sub dst' 0 n) = ([(7, 1, [x61; x62]); (8, 2, []); (9, 1, [x63])], true).
Proof.
  assert (Hok : Forall logical_ok [(7, 1, [x61; x62]); (8, 2, []); (9, 1, [x63])])
    by (repeat constructor; vm_compute; intuition discriminate).
  split; [exact Hok|].
  destruct (packed_logical_roundtrip (fill 100 xff) _ [] Hok) as [Hp _].
  destruct (pack (fill 100 xff) 0 [(7, 1, [x61; x62]); (8, 2, []); (9, 1, [x63])]) as [[dst' n]|] eqn:E;
    [|vm_compute in E; discriminate E].
  exists dst', n. destruct Hp as (_ & _ & _ & Hf). exact (conj eq_refl Hf).
Defined.

(** ** Page images as logical payloads *)

(** A page image written as a logical payload is read back. For a page of
    the page size filled by the caller, the payload decodes to its page id
    and exactly the bytes the caller filled in; any other length panics. The
    decoder accepts only payloads whose page part has the page size. *)
Theorem page_image_payload_roundtrip `{Build} pid page_len fill_page payload :
  0 ≤ pid < 2 ^ 64 → (∀ l, zlen (fill_page l) = zlen l) →
  match encode_page_image_bytes_payload pid page_len fill_page with
  | Ret p => page_len = PAGE_SIZE ∧
      decode_page_image_bytes_payload p = Some (pid, fill_page (fill PAGE_SIZE x00))
  | Panic => page_len ≠ PAGE_SIZE
  end ∧
  (∀ q page, decode_page_image_bytes_payload payload = Some (q, page) →
    zlen page = PAGE_SIZE ∧ payload = le_bytes 8 q ++ le_bytes 8 PAGE_SIZE ++ page).
Proof.
  intros Hpid Hfill. unfold encode_page_image_bytes_payload, decode_page_image_bytes_payload, page_size,
    PAGE_IMAGE_BYTES_HEADER_LEN. split.
  - unfold assert. destruct (Z.eqb_spec page_len PAGE_SIZE) as [->|]; [|done]. rewrite bind_Ret.
    assert (Hz : zlen (fill (16 + PAGE_SIZE) x00) = 16 + PAGE_SIZE) by (apply zlen_fill; page_lia).
    set (p1 := upd (fill (16 + PAGE_SIZE) x00) 0 (le_bytes 8 pid)).
    assert (Hz1 : zlen p1 = 16 + PAGE_SIZE) by (unfold p1; rewrite zlen_upd; rewrite ?zlen_le_bytes; page_lia).
    set (p2 := upd p1 8 (le_bytes 8 PAGE_SIZE)).
    assert (Hz2 : zlen p2 = 16 + PAGE_SIZE) by (unfold p2; rewrite zlen_upd; rewrite ?zlen_le_bytes; page_lia).
    assert (Hpage : sub p2 16 PAGE_SIZE = fill PAGE_SIZE x00).
    { unfold p2. rewrite sub_upd_ne by (rewrite ?zlen_le_bytes; page_lia).
      unfold p1. rewrite sub_upd_ne by (rewrite ?zlen_le_bytes; page_lia).
      apply list_eq. intros i. destruct (decide (i < Z.to_nat PAGE_SIZE)%nat).
      - rewrite lookup_sub by lia. unfold fill. rewrite !lookup_replicate_2 by page_lia. done.
      - rewrite lookup_sub_ge by lia. symmetry. apply lookup_replicate_None. lia. }
    rewrite Hpage. set (page := fill_page (fill PAGE_SIZE x00)).
    assert (Hzp : zlen page = PAGE_SIZE) by (unfold page; rewrite Hfill; apply zlen_fill; page_lia).
    set (p3 := upd p2 16 page).
    assert (Hz3 : zlen p3 = 16 + PAGE_SIZE) by (unfold p3; rewrite zlen_upd; page_lia).
    split; [done|]. rewrite Hz3. rewrite (proj2 (Z.ltb_ge _ _)) by page_lia.
    rewrite get_range_Some by page_lia. cbn [mbind option_bind].
    replace (16 + PAGE_SIZE - 16) with PAGE_SIZE by lia.
    assert (Hsub : sub p3 16 PAGE_SIZE = page) by (apply sub_upd_eq; page_lia). rewrite Hsub, Hzp.
    assert (Hid : get_le 8 p3 0 = pid ∧ get_le 8 p3 8 = PAGE_SIZE).
    { unfold p3. rewrite !(get_upd_ne 8 p2 16) by (rewrite ?Hzp; page_lia). unfold p2.
      rewrite (get_upd_ne 8 p1 8) by (rewrite ?zlen_le_bytes; page_lia). fold (set_le 8 p1 8 PAGE_SIZE).
      unfold p1 at 1. fold (set_le 8 (fill (16 + PAGE_SIZE) x00) 0 pid).
      rewrite !get_set_le_eq by page_lia. by rewrite !wrap_small by (simpl; page_lia). }
    destruct Hid as [-> ->]. by rewrite Z.eqb_refl.
  - intros q page. destruct (Z.ltb_spec (zlen payload) 16); [done|]. rewrite get_range_Some by lia.
    cbn [mbind option_bind]. rewrite zlen_sub by lia.
    destruct (Z.eqb_spec (zlen payload - 16) (get_le 8 payload 8)) as [E1|]; [simpl|done].
    destruct (Z.eqb_spec (get_le 8 payload 8) PAGE_SIZE) as [E2|]; [simpl|done]. intros [= <- <-].
    rewrite zlen_sub by lia. split; [lia|].
    assert (Hle : ∀ off, 0 ≤ off → off + 8 ≤ zlen payload → le_bytes 8 (get_le 8 payload off) = sub payload off 8).
    { intros off ? ?. unfold get_le. change (sub payload off 8) with (sub payload off (Z.of_nat 8)).
      rewrite <-(le_bytes_of_le_bytes (sub payload off (Z.of_nat 8))) at 2. f_equal.
      assert (Hl : zlen (sub payload off (Z.of_nat 8)) = 8) by (rewrite zlen_sub; lia). unfold zlen in Hl. lia. }
    rewrite <-E2, Hle, Hle by lia. rewrite <-(sub_all payload) at 1.
    replace (zlen payload) with (8 + (8 + (zlen payload - 16))) at 1 by lia.
    by rewrite !sub_split by lia.
Qed.

Lemma page_image_payload_roundtrip_witness :
  (∀ l : list byte, zlen (map (λ _, x41) l) = zlen l) ∧
  ∃ p, encode_page_image_bytes_payload (H := debug_4k) 5 4096 (map (λ _, x41)) = Ret p ∧
    decode_page_image_bytes_payload (H := debug_4k) p = Some (5, map (λ _, x41) (fill (PAGE_SIZE (H := debug_4k)) x00)).
Proof.
  assert (Hm : ∀ l : list byte, zlen (map (λ _, x41) l) = zlen l) by (intros l; unfold zlen; by rewrite length_map).
  split; [exact Hm|].
  destruct (@page_image_payload_roundtrip debug_4k 5 4096 (map (λ _, x41)) [] ltac:(lia) Hm) as [Hp _].
  destruct (encode_page_image_bytes_payload (H := debug_4k) 5 4096 (map (λ _, x41))) as [p|] eqn:E;
    [|vm_compute in E; discriminate E].
  exists p. exact (conj eq_refl (proj2 Hp)).
Defined.

(** ** Handles of buffered records *)

(** The high bits of a handle keep 24 bits of the page number. *)
Lemma handle_high meta_page : 0 ≤ meta_page → wrap 32 (Z.shiftl (wrap 32 meta_page) 8) = Z.shiftl (meta_page mod 2 ^ 24) 8.
Proof.
  intros Hm. unfold wrap. rewrite !Z.shiftl_mul_pow2 by lia. change (2 ^ 32) with (2 ^ 24 * 2 ^ 8) at 2.
  rewrite Z.mul_mod_distr_r by lia. f_equal. change (2 ^ 32) with (2 ^ 24 * 2 ^ 8).
  rewrite Z.rem_mul_r, (Z.mul_comm (2 ^ 24)), Z.mod_add, Z.mod_mod by lia. done.
Qed.

(** C38: the handle of a buffered record names its slot exactly when the slot
    index is below 256 and the page number below 2^24. Encoding never panics
    for a slot of a batch; decoding gives the low eight bits of the slot index,
    and the low 24 bits of the page number with the rest of the slot index or-ed
    in. With 4 KiB pages every slot index fits; with 64 KiB pages a batch has
    2,340 slots and the handle of slot 256 is the handle of slot 0 of the next
    block. *)
Theorem record_handle_exact `{Build} meta_page slot :
  0 ≤ meta_page → 0 ≤ slot < BATCH_MAX_RECORDS →
  (∃ offset, encode_record_offset (meta_page * WAL_RECORD_SIZE) slot = Ret offset ∧
    decode_record_offset offset = (Z.lor (meta_page mod 2 ^ 24) (slot / 256) * WAL_RECORD_SIZE, slot mod 256) ∧
    (decode_record_offset offset = (meta_page * WAL_RECORD_SIZE, slot) ↔ slot < 256 ∧ meta_page < 2 ^ 24)) ∧
  (page_4k = true → slot < 256) ∧
  (page_4k = false → encode_record_offset 0 256 = encode_record_offset WAL_RECORD_SIZE 0).
Proof.
  intros Hm Hs. assert (HP : 0 < WAL_RECORD_SIZE) by (unfold WAL_RECORD_SIZE; page_lia).
  assert (Hmax : BATCH_MAX_RECORDS ≤ 2340) by (wal_cases; lia). split_and!.
  - unfold encode_record_offset.
    rewrite !debug_assert_true, !bind_Ret by first [apply Z.eqb_eq, Z.mod_mul; lia|apply Z.ltb_lt; lia].
    rewrite Z.div_mul, handle_high, (wrap_small 32 slot) by lia. eexists. split; [done|].
    assert (Hd : decode_record_offset (Z.lor (Z.shiftl (meta_page mod 2 ^ 24) 8) slot) =
      (Z.lor (meta_page mod 2 ^ 24) (slot / 256) * WAL_RECORD_SIZE, slot mod 256)).
    { unfold decode_record_offset. f_equal.
      - rewrite Z.shiftr_lor, Z.shiftr_shiftl_l, Z.sub_diag, Z.shiftl_0_r by lia. by rewrite (Z.shiftr_div_pow2 slot) by lia.
      - change 255 with (Z.ones 8). rewrite Z.land_lor_distr_l, !Z.land_ones, Z.shiftl_mul_pow2, Z.mod_mul by lia. apply Z.lor_0_l. }
    split; [done|]. rewrite Hd. pose proof (Z.mod_pos_bound meta_page (2 ^ 24)) as Hb. split.
    + intros [= E1 E2]. pose proof (Z.mod_pos_bound slot 256). rewrite (Z.div_small slot) in E1 by lia. rewrite Z.lor_0_r in E1.
      assert (meta_page mod 2 ^ 24 = meta_page) by nia. lia.
    + intros [H1 H2]. by rewrite (Z.div_small slot), Z.lor_0_r, !Z.mod_small by lia.
  - intros H4k. pose proof PAGE_SIZE_feature as EP. rewrite H4k in EP.
    destruct BATCH_MAX_RECORDS_cases as [[_ E]|[E _]]; [rewrite E in *|]; lia.
  - intros H4k. pose proof PAGE_SIZE_feature as EP. rewrite H4k in EP.
    destruct BATCH_MAX_RECORDS_cases as [[E1 _]|[_ E]]; [lia|].
    unfold encode_record_offset.
    rewrite !debug_assert_true by first [apply Z.ltb_lt; lia|apply Z.eqb_eq, Z_mod_same_full|by apply Z.eqb_eq].
    unfold WAL_RECORD_SIZE. rewrite EP. reflexivity.
Qed.

Lemma record_handle_exact_witness :
  BATCH_MAX_RECORDS (H := release_64k) = 2340 ∧
  ∃ offset, encode_record_offset (H := release_64k) (3 * WAL_RECORD_SIZE (H := release_64k)) 300 = Ret offset ∧
    decode_record_offset (H := release_64k) offset ≠ (3 * WAL_RECORD_SIZE (H := release_64k), 300).
Proof.
  assert (HB : BATCH_MAX_RECORDS (H := release_64k) = 2340) by (vm_compute; reflexivity).
  split; [exact HB|].
  destruct (@record_handle_exact release_64k 3 300) as [(offset & E & _ & Hiff) _]; [lia|rewrite HB; lia|].
  exists offset. split; [exact E|]. intros Hd. apply Hiff in Hd. lia.
Defined.

(** ** The shard of an LSN *)

(** [align_lsn_to_shard] returns the first LSN of the shard that is not
    below the given one (or below 1): it lies in the shard, is at least the
    given LSN, and every LSN in between belongs to another shard. *)
Lemma align_lsn_spec `{Build} lsn shard_idx shard_count :
  0 ≤ lsn → 0 ≤ shard_idx < shard_count → shard_count ≤ 256 → lsn + 256 < 2 ^ 64 →
  ∃ l, align_lsn_to_shard lsn shard_idx shard_count = Ret l ∧
    (l - 1) mod shard_count = shard_idx ∧ Z.max lsn 1 ≤ l ∧
    ∀ l', Z.max lsn 1 ≤ l' < l → (l' - 1) mod shard_count ≠ shard_idx.
Proof.
  intros Hl Hi Hc Hb. unfold align_lsn_to_shard. rewrite debug_assert_true, bind_Ret by (apply Z.ltb_lt; lia).
  set (m := Z.max lsn 1). pose proof (Z.mod_pos_bound (m - 1) shard_count ltac:(lia)) as Hr.
  pose proof (Z.div_mod (m - 1) shard_count ltac:(lia)) as Hq.
  set (q := (m - 1) / shard_count) in *. set (r := (m - 1) mod shard_count) in *.
  assert (Hd : ∃ d, (shard_idx + shard_count - r) mod shard_count = d ∧ 0 ≤ d < shard_count ∧
    (d = shard_idx - r ∨ d = shard_idx - r + shard_count)).
  { eexists. split; [done|]. split; [apply Z.mod_pos_bound; lia|].
    destruct (decide (r ≤ shard_idx)); [left|right].
    - symmetry. apply (Z.mod_unique _ _ 1); [lia|]. lia.
    - rewrite Z.mod_small by lia. lia. }
  destruct Hd as (d & -> & Hdr & Hdc). rewrite uadd_in_range by lia.
  eexists. split; [done|]. split_and!; [|lia|].
  - destruct Hdc; symmetry;
      [apply (Z.mod_unique _ _ q); [lia|nia]|apply (Z.mod_unique _ _ (q + 1)); [lia|nia]].
  - intros l' Hl' E.
    assert (Hq' : ∃ k, l' - 1 = k * shard_count + shard_idx).
    { exists ((l' - 1) / shard_count). rewrite <-E. pose proof (Z.div_mod (l' - 1) shard_count ltac:(lia)). lia. }
    destruct Hq' as [k Hk]. assert (k = q ∨ k < q ∨ q < k) by lia. nia.
Qed.

(** ** Submitted writes *)

Module Window.
Import SubmittedWrites.

Inductive op := Push (lsn : Z) | Complete (lsn : Z).

Definition do_op (self : t) (o : op) : outcome t :=
  match o with
  | Push lsn => Ret (push self lsn)
  | Complete lsn => r ← complete self lsn; Ret r.2
  end.
Fixpoint run (self : t) (ops : list op) : outcome t :=
  match ops with
  | [] => Ret self
  | o :: ops => self ← do_op self o; run self ops
  end.

Definition pushed : list op → list Z := omap (λ o, match o with Push l => Some l | _ => None end).
Definition finished : list op → list Z := omap (λ o, match o with Complete l => Some l | _ => None end).

(** The window after [ops]: some first writes are popped, all of them
    finished; the entries are the others, flagged as finished or not; the
    front entry is not finished; the mark is the last popped LSN. *)
Record window_inv (h0 : Z) (ops : list op) (self : t) (popped : list Z) : Prop := {
  win_split : pushed ops = popped ++ map max_lsn (entries self);
  win_popped : Forall (λ l, l ∈ finished ops) popped;
  win_flags : Forall (λ e, completed e = true ↔ max_lsn e ∈ finished ops) (entries self);
  win_front : ∀ e es, entries self = e :: es → completed e = false;
  win_high : high_water_lsn self = default h0 (last popped);
  win_known : Forall (λ l, l ∈ pushed ops) (finished ops);
}.

Lemma mark_spec es lsn es' :
  mark es lsn = Some es' → NoDup (map max_lsn es) →
  map max_lsn es' = map max_lsn es ∧ lsn ∈ map max_lsn es ∧
  ∀ P : Z → Prop, Forall (λ e, completed e = true ↔ P (max_lsn e)) es →
    Forall (λ e, completed e = true ↔ (P (max_lsn e) ∨ max_lsn e = lsn)) es'.
Proof.
  revert es'. induction es as [|e es IH]; intros es' E Hnd; simpl in E; [done|].
  simpl in Hnd. apply NoDup_cons in Hnd as [Hni Hnd].
  destruct (Z.eqb_spec (max_lsn e) lsn) as [Hm|Hm]; simpl in E.
  - destruct (completed e) eqn:Ec; simpl in E.
    + destruct (mark es lsn) as [es1|] eqn:E1; [|done]. simpl in E. injection E as <-.
      destruct (IH _ eq_refl Hnd) as (_ & Hin & _). by rewrite <-Hm in Hin.
    + injection E as <-. split_and!; [done|simpl; rewrite Hm; left|].
      intros P HP. apply Forall_cons in HP as [He HP]. constructor; [simpl; intuition|].
      rewrite Forall_forall in HP |- *. intros x Hx. rewrite (HP x Hx). split; [by left|].
      intros [?|E]; [done|]. exfalso. apply Hni. rewrite Hm, <-E. by apply list_elem_of_fmap_2.
  - destruct (mark es lsn) as [es1|] eqn:E1; [|done]. simpl in E. injection E as <-.
    destruct (IH _ eq_refl Hnd) as (Hmap & Hin & HP1). split_and!; [simpl; by rewrite Hmap|by right|].
    intros P HP. apply Forall_cons in HP as [He HP]. constructor; [|by apply HP1].
    rewrite He. split; [by left|]. intros [?|?]; [done|congruence].
Qed.

Lemma default_last_app h0 (l k : list Z) : default (default h0 (last l)) (last k) = default h0 (last (l ++ k)).
Proof. rewrite last_app. by destruct (last k). Qed.

Lemma pop_completed_spec es high es' high' :
  pop_completed es high = (es', high') → StronglySorted Z.lt (high :: map max_lsn es) →
  ∃ front, es = front ++ es' ∧ Forall (λ e, completed e = true) front ∧
    high' = default high (last (map max_lsn front)) ∧ (∀ e es1, es' = e :: es1 → completed e = false).
Proof.
  revert high. induction es as [|e es IH]; intros high E Hs; simpl in E.
  { simplify_eq. exists []. done. }
  destruct (completed e) eqn:Ec.
  - inversion Hs as [|? ? Hs1 Hlt]. subst. simpl in Hs1. apply Forall_cons in Hlt as [Hlt _].
    rewrite Z.max_r in E by lia. destruct (IH _ E Hs1) as (front & -> & Hf & -> & Hfr).
    exists (e :: front). split_and!; [done|by constructor| |done]. apply (default_last_app high [max_lsn e]).
  - simplify_eq. exists []. split_and!; [done|constructor|done|]. intros e' es1 [= <- <-]. done.
Qed.

Lemma lsns_app_inv (l k : list Z) h0 :
  StronglySorted Z.lt (h0 :: l ++ k) → StronglySorted Z.lt (default h0 (last l) :: k).
Proof.
  revert h0. induction l as [|x l IH]; intros h0 Hs; [done|]. inversion Hs as [|? ? Hs1 _]. subst.
  change (x :: l) with ([x] ++ l). rewrite <-default_last_app. by apply IH.
Qed.

Lemma run_app self ops ops' : run self (ops ++ ops') = (s ← run self ops; run s ops').
Proof.
  revert self. induction ops as [|o ops IH]; intros self; [done|]. simpl. destruct (do_op self o); [|done]. simpl. apply IH.
Qed.

Lemma pushed_app ops ops' : pushed (ops ++ ops') = pushed ops ++ pushed ops'.
Proof. apply omap_app. Qed.
Lemma finished_app ops ops' : finished (ops ++ ops') = finished ops ++ finished ops'.
Proof. apply omap_app. Qed.

Lemma lsns_NoDup (l : list Z) : StronglySorted Z.lt l → NoDup l.
Proof.
  induction 1 as [|x l _ IH Hlt]; constructor; [|done]. intros Hin. rewrite Forall_forall in Hlt.
  specialize (Hlt x Hin). lia.
Qed.

Lemma window_push h0 ops s popped lsn :
  window_inv h0 ops s popped → lsn ∉ pushed ops → window_inv h0 (ops ++ [Push lsn]) (push s lsn) popped.
Proof.
  intros [H1 H2 H3 H4 H5 H6] Hni.
  assert (Ef : finished (ops ++ [Push lsn]) = finished ops) by (rewrite finished_app; apply app_nil_r).
  constructor; rewrite ?Ef; try done.
  - rewrite pushed_app, H1. simpl. by rewrite map_app, app_assoc.
  - simpl. apply Forall_app. split; [done|]. constructor; [|done]. simpl. split; [done|]. intros Hin.
    rewrite Forall_forall in H6. by destruct (Hni (H6 _ Hin)).
  - intros e es Ee. simpl in Ee. destruct (entries s) as [|e1 es1]; simplify_eq/=; [done|]. by eapply H4.
  - rewrite pushed_app. eapply Forall_impl; [exact H6|]. intros l Hl. apply elem_of_app. by left.
Qed.

Lemma window_complete h0 ops s popped lsn r s' :
  window_inv h0 ops s popped → StronglySorted Z.lt (h0 :: pushed ops) → complete s lsn = Ret (r, s') →
  ∃ popped', window_inv h0 (ops ++ [Complete lsn]) s' popped'.
Proof.
  intros [H1 H2 H3 H4 H5 H6] Hs E. unfold complete in E.
  destruct (mark (entries s) lsn) as [es|] eqn:Em; [|done]. simpl in E.
  destruct (pop_completed es (high_water_lsn s)) as [es' high] eqn:Ep. injection E as _ <-.
  rewrite H1 in Hs. pose proof (lsns_app_inv _ _ _ Hs) as Hs2. rewrite <-H5 in Hs2.
  assert (Hnd : NoDup (map max_lsn (entries s))) by (apply lsns_NoDup; by inversion Hs2).
  destruct (mark_spec _ _ _ Em Hnd) as (Hmap & Hin & HP). rewrite <-Hmap in Hs2.
  destruct (pop_completed_spec _ _ _ _ Ep Hs2) as (front & -> & Hfr & -> & Hfront).
  specialize (HP (λ l, l ∈ finished ops) H3).
  assert (Ef : finished (ops ++ [Complete lsn]) = finished ops ++ [lsn]) by apply finished_app.
  assert (Epu : pushed (ops ++ [Complete lsn]) = pushed ops) by (rewrite pushed_app; apply app_nil_r).
  assert (Hflags : Forall (λ e, completed e = true ↔ max_lsn e ∈ finished (ops ++ [Complete lsn])) (front ++ es')).
  { eapply Forall_impl; [exact HP|]. intros e ->. rewrite Ef, elem_of_app, list_elem_of_singleton. done. }
  apply Forall_app in Hflags as [Hff Hfe].
  exists (popped ++ map max_lsn front). constructor; simpl.
  - by rewrite Epu, H1, <-Hmap, map_app, app_assoc.
  - apply Forall_app. split.
    + eapply Forall_impl; [exact H2|]. intros l Hl. rewrite Ef. apply elem_of_app. by left.
    + apply Forall_fmap. rewrite Forall_forall in Hff, Hfr |- *. intros e He. by apply Hff, Hfr.
  - done.
  - done.
  - rewrite H5. apply default_last_app.
  - rewrite Ef, Epu. apply Forall_app. split; [done|]. constructor; [|done]. rewrite H1. apply elem_of_app. by right.
Qed.

Lemma window_invariant h0 ops self :
  run (new h0) ops = Ret self → StronglySorted Z.lt (h0 :: pushed ops) → ∃ popped, window_inv h0 ops self popped.
Proof.
  revert self. induction ops as [|o ops IH] using rev_ind; intros self E Hs.
  { simpl in E. injection E as <-. exists []. by constructor. }
  rewrite run_app in E. destruct (run (new h0) ops) as [s|] eqn:Er; [|done]. simpl in E.
  rewrite pushed_app in Hs. destruct o as [lsn|lsn]; simpl in E, Hs.
  - injection E as <-.
    assert (Hs1 : StronglySorted Z.lt (h0 :: pushed ops) ∧ lsn ∉ pushed ops).
    { split.
      - inversion Hs as [|? ? Hs1 Hall]. subst. apply Forall_app in Hall as [Hall _].
        constructor; [|done]. by apply StronglySorted_app in Hs1 as (_ & ? & _).
      - inversion Hs as [|? ? Hs1 _]. subst. apply lsns_NoDup, NoDup_app in Hs1 as (_ & Hd & _).
        intros Hin. apply (Hd lsn Hin). by left. }
    destruct Hs1 as [Hs1 Hni]. destruct (IH s eq_refl Hs1) as [popped Hi]. exists popped. by apply window_push.
  - rewrite app_nil_r in Hs. destruct (complete s lsn) as [[r s']|] eqn:Ec; [|done]. simpl in E. injection E as <-.
    destruct (IH s eq_refl Hs) as [popped Hi]. by eapply window_complete.
Qed.

Lemma mark_is_Some es lsn : (∃ e, e ∈ es ∧ max_lsn e = lsn ∧ completed e = false) → is_Some (mark es lsn).
Proof.
  induction es as [|e es IH]; intros (x & Hx & Hm & Hc); [by apply not_elem_of_nil in Hx|]. simpl.
  destruct (Z.eqb_spec (max_lsn e) lsn) as [E|E], (completed e) eqn:Ec; simpl; try (by eexists);
    (destruct IH as [es' ->]; [|by eexists]); exists x; (split; [|done]);
    apply elem_of_cons in Hx as [->|]; done || congruence.
Qed.

Lemma pop_completed_mono es high : high ≤ (pop_completed es high).2.
Proof.
  revert high. induction es as [|e es IH]; intros high; simpl; [lia|]. destruct (completed e); [|simpl; lia].
  specialize (IH (Z.max high (max_lsn e))). lia.
Qed.

Lemma last_bound h0 (l : list Z) x : StronglySorted Z.lt (h0 :: l) → x ∈ l → x ≤ default h0 (last l).
Proof.
  intros Hs Hx. destruct (last l) as [y|] eqn:El.
  - apply last_Some in El as [l' ->]. apply elem_of_app in Hx as [Hx|Hx]; [|apply list_elem_of_singleton in Hx; simpl; lia].
    inversion Hs as [|? ? Hs1 _]. subst. apply StronglySorted_app in Hs1 as (Hxy & _).
    specialize (Hxy x y Hx ltac:(by left)). simpl. lia.
  - apply last_None in El. subst. by apply not_elem_of_nil in Hx.
Qed.

End Window.

(** Written progress is exact. After any pushes of increasing LSNs and
    any completions, in any order, the mark has reached a submitted write if
    and only if that write and every write submitted before it have
    completed: it never runs ahead of an unfinished extent and never lags
    behind a finished prefix. Completing a write that is in flight never
    panics, never moves the mark back, and reports the mark exactly when it
    moved. *)
Theorem written_mark_exact h0 ops self :
  Window.run (SubmittedWrites.new h0) ops = Ret self → StronglySorted Z.lt (h0 :: Window.pushed ops) →
  (∀ l, l ∈ Window.pushed ops → l ≤ SubmittedWrites.high_water_lsn self ↔
    ∀ l', l' ∈ Window.pushed ops → l' ≤ l → l' ∈ Window.finished ops) ∧
  (∀ l, l ∈ Window.pushed ops → l ∉ Window.finished ops →
    ∃ r self', SubmittedWrites.complete self l = Ret (r, self') ∧
      SubmittedWrites.high_water_lsn self ≤ SubmittedWrites.high_water_lsn self' ∧
      r = if SubmittedWrites.high_water_lsn self <? SubmittedWrites.high_water_lsn self'
          then Some (SubmittedWrites.high_water_lsn self') else None).
Proof.
  intros E Hs. destruct (Window.window_invariant h0 ops self E Hs) as [popped [Wsplit Wpop Wflags Wfront Whigh Wknown]].
  rewrite Wsplit in *. pose proof (Window.lsns_app_inv _ _ _ Hs) as Hrest. rewrite <-Whigh in Hrest.
  set (rest := map SubmittedWrites.max_lsn (SubmittedWrites.entries self)) in *.
  inversion Hs as [|? ? Hs1 Hh0]. subst.
  assert (Hpop : ∀ x, x ∈ popped → x ≤ SubmittedWrites.high_water_lsn self).
  { intros x Hx. rewrite Whigh. apply Window.last_bound; [|done]. constructor.
    - by apply StronglySorted_app in Hs1 as (_ & ? & _).
    - by apply Forall_app in Hh0 as [? _]. }
  assert (Hres : ∀ x, x ∈ rest → SubmittedWrites.high_water_lsn self < x).
  { intros x Hx. inversion Hrest as [|? ? _ Hall]. rewrite Forall_forall in Hall. by apply Hall. }
  rewrite Forall_forall in Wpop. rewrite Forall_forall in Wflags. split.
  - intros l [Hl|Hl]%elem_of_app.
    + split; [|intros _; by apply Hpop]. intros _ l' [Hl'|Hl']%elem_of_app Hle; [by apply Wpop|].
      specialize (Hres _ Hl'). specialize (Hpop _ Hl). lia.
    + split; [intros Hle; specialize (Hres _ Hl); lia|]. intros Hall. exfalso.
      destruct (SubmittedWrites.entries self) as [|e es] eqn:Ees; [by apply not_elem_of_nil in Hl|].
      assert (Hfront : SubmittedWrites.max_lsn e ∈ Window.finished ops).
      { apply Hall; [apply elem_of_app; right; unfold rest; left|].
        unfold rest in Hl. simpl in Hl. apply elem_of_cons in Hl as [->|Hl]; [lia|].
        unfold rest in Hrest. simpl in Hrest. inversion Hrest as [|? ? Hr _]. subst.
        inversion Hr as [|? ? _ Hlt]. subst. rewrite Forall_forall in Hlt. specialize (Hlt _ Hl). lia. }
      apply Wflags in Hfront; [|by left]. rewrite (Wfront e es eq_refl) in Hfront. done.
  - intros l [Hl|Hl]%elem_of_app Hnf; [by destruct Hnf; apply Wpop|].
    apply list_elem_of_fmap in Hl as (e & -> & He).
    assert (Hc : SubmittedWrites.completed e = false).
    { destruct (SubmittedWrites.completed e) eqn:Ec; [|done]. destruct Hnf. by apply Wflags. }
    destruct (Window.mark_is_Some (SubmittedWrites.entries self) (SubmittedWrites.max_lsn e)) as [es' Em]; [eauto|].
    unfold SubmittedWrites.complete. rewrite Em. simpl.
    pose proof (Window.pop_completed_mono es' (SubmittedWrites.high_water_lsn self)) as Hmono.
    destruct (SubmittedWrites.pop_completed es' _) as [es2 high]. eexists _, _. split; [done|]. split; [done|done].
Qed.

Definition out_of_order : list Window.op :=
  [Window.Push 3; Window.Push 8; Window.Push 12; Window.Complete 8; Window.Complete 3].

Lemma written_mark_exact_witness :
  ∃ self, Window.run (SubmittedWrites.new 0) out_of_order = Ret self ∧
    8 ≤ SubmittedWrites.high_water_lsn self ∧ ¬ 12 ≤ SubmittedWrites.high_water_lsn self.
Proof.
  destruct (Window.run (SubmittedWrites.new 0) out_of_order) as [self|] eqn:E; [|vm_compute in E; discriminate E].
  exists self. split; [reflexivity|].
  destruct (written_mark_exact 0 out_of_order self E) as [Hm _].
  { repeat constructor. }
  change (Window.pushed out_of_order) with [3; 8; 12] in Hm.
  change (Window.finished out_of_order) with [8; 3] in Hm. split.
  - apply Hm; [set_solver|]. intros l' Hl' Hle. rewrite !elem_of_cons in *. intuition lia.
  - intros Hx. assert (H12 : 12 ∈ [8; 3]) by (eapply Hm; [|exact Hx| |]; [set_solver|set_solver|lia]).
    rewrite !elem_of_cons, elem_of_nil in H12. intuition lia.
Defined.
