(* ===== verification/WalRecovery.v ===== *)
(** * Write-ahead log: recovery into a page store

    Models the recovery path of [src/crates/wal/src/wal_impl.rs]: the
    [RecoveryPageStore] interface the log asks of a page store, and the
    replay of collected records (page images, page patches and caller-defined
    logical records) into it. The theorems about recovery are proved against
    the interface; the page stores discharge it in [RecoveryStores]. *)

From S2P Require Import Prelude Bytes FrameKernel Posix WalFormat WalCodec.
#[local] Open Scope Z_scope.

(** ** What recovery asks of a page store *)

(** [page s pid] is the page a reader of the store sees, [next s] the answer
    of [next_page_id]. Pages at and beyond [next] are not there. Every
    operation returns; nothing is promised of a page an operation failed on. *)
Class RecoveryPageStore `{Build} := {
  rps : Type;
  rps_ok : rps → Prop;
  pid_ok : PageId → Prop;
  page : rps → PageId → option (list byte);
  next : rps → PageId;
  read_page : PageId → list byte → IO rps (list byte * io_result bool);
  write_page : PageId → list byte → IO rps unit;
  allocate : PageId → IO rps unit;
  sync : IO rps unit;
  next_page_id : rps → outcome PageId;
  page_below s pid d : rps_ok s → pid_ok pid → page s pid = Some d → pid < next s ∧ zlen d = PAGE_SIZE;
  next_page_id_ok s : rps_ok s → next_page_id s = Ret (next s);
  read_page_ok s pid buf : rps_ok s → pid_ok pid → zlen buf = PAGE_SIZE →
    ∃ buf' res s', read_page pid buf s = Done (Ok (buf', res)) s' ∧
      rps_ok s' ∧ next s' = next s ∧ (∀ q, page s' q = page s q) ∧
      match res with
      | Ok true => page s pid = Some buf'
      | Ok false => page s pid = None
      | Err _ => True
      end;
  write_page_ok s pid data : rps_ok s → pid_ok pid → pid < next s → zlen data = PAGE_SIZE →
    ∃ res s', write_page pid data s = Done res s' ∧
      (res = Ok tt → rps_ok s' ∧ next s' = next s ∧ page s' pid = Some data ∧
        ∀ q, pid_ok q → q ≠ pid → page s' q = page s q);
  allocate_ok s pid : rps_ok s → pid_ok pid → next s ≤ pid →
    ∃ res s', allocate pid s = Done res s' ∧
      (res = Ok tt → rps_ok s' ∧ next s' = pid + 1 ∧ page s' pid = Some (fill PAGE_SIZE x00) ∧
        ∀ q, pid_ok q → q ≠ pid → page s' q = page s q ∨
          (page s q = None ∧ page s' q = Some (fill PAGE_SIZE x00)));
  sync_ok s : rps_ok s →
    ∃ res s', sync s = Done res s' ∧ (res = Ok tt → rps_ok s' ∧ next s' = next s ∧
      ∀ q, pid_ok q → page s' q = page s q);
}.

(** ** Records and the report *)

Inductive OwnedWalReplayRecord :=
| PageImage (lsn page_id : Z) (data : list byte)
| Logical (lsn kind : Z) (payload : list byte).

Definition record_lsn (r : OwnedWalReplayRecord) : Z :=
  match r with PageImage lsn _ _ | Logical lsn _ _ => lsn end.

Module RecoveryReport.
Record t := {
  records_scanned : Z;
  records_applied : Z;
  logical_records_delivered : Z;
  skipped_checkpoint : Z;
  skipped_page_lsn : Z;
  max_lsn : Z;
}.
Definition default : t := {|
  records_scanned := 0; records_applied := 0; logical_records_delivered := 0;
  skipped_checkpoint := 0; skipped_page_lsn := 0; max_lsn := 0 |}.
End RecoveryReport.

(** [records.sort_by_key(lsn)]: a stable sort. *)
Fixpoint insert_by_lsn (r : OwnedWalReplayRecord) (rs : list OwnedWalReplayRecord) :=
  match rs with
  | [] => [r]
  | r' :: rs' => if record_lsn r <=? record_lsn r' then r :: rs else r' :: insert_by_lsn r rs'
  end.
Definition sort_by_lsn (rs : list OwnedWalReplayRecord) : list OwnedWalReplayRecord :=
  foldr insert_by_lsn [] rs.

Section recovery.
Context `{Build} {RPS : RecoveryPageStore}.
(** The caller's callback, with what it keeps, and its LSN reader. *)
Context {C : Type} (apply_logical : Z → Z → list byte → C → io_result unit * C).
Context (checkpoint_lsn : Z) (read_page_lsn : list byte → Z).

(** Everything the recovery loop mutates. *)
Record loop := {
  store : rps;
  report : RecoveryReport.t;
  current_next : PageId;
  page_buf : list byte;
  caller : C;
}.

Definition with_store (l : loop) (s : rps) : loop :=
  {| store := s; report := report l; current_next := current_next l; page_buf := page_buf l; caller := caller l |}.
Definition set_report (f : RecoveryReport.t → RecoveryReport.t) (l : loop) : loop :=
  {| store := store l; report := f (report l); current_next := current_next l; page_buf := page_buf l; caller := caller l |}.
Definition set_next (n : PageId) (l : loop) : loop :=
  {| store := store l; report := report l; current_next := n; page_buf := page_buf l; caller := caller l |}.
Definition set_buf (b : list byte) (l : loop) : loop :=
  {| store := store l; report := report l; current_next := current_next l; page_buf := b; caller := caller l |}.
Definition set_caller (c : C) (l : loop) : loop :=
  {| store := store l; report := report l; current_next := current_next l; page_buf := page_buf l; caller := c |}.

Definition on_store {A} (m : IO rps A) : IO loop A := zoom store with_store m.

Definition count_applied (r : RecoveryReport.t) : RecoveryReport.t := {|
  RecoveryReport.records_scanned := RecoveryReport.records_scanned r;
  RecoveryReport.records_applied := RecoveryReport.records_applied r + 1;
  RecoveryReport.logical_records_delivered := RecoveryReport.logical_records_delivered r;
  RecoveryReport.skipped_checkpoint := RecoveryReport.skipped_checkpoint r;
  RecoveryReport.skipped_page_lsn := RecoveryReport.skipped_page_lsn r;
  RecoveryReport.max_lsn := RecoveryReport.max_lsn r |}.
Definition count_delivered (r : RecoveryReport.t) : RecoveryReport.t := {|
  RecoveryReport.records_scanned := RecoveryReport.records_scanned r;
  RecoveryReport.records_applied := RecoveryReport.records_applied r;
  RecoveryReport.logical_records_delivered := RecoveryReport.logical_records_delivered r + 1;
  RecoveryReport.skipped_checkpoint := RecoveryReport.skipped_checkpoint r;
  RecoveryReport.skipped_page_lsn := RecoveryReport.skipped_page_lsn r;
  RecoveryReport.max_lsn := RecoveryReport.max_lsn r |}.
Definition count_skipped_checkpoint (r : RecoveryReport.t) : RecoveryReport.t := {|
  RecoveryReport.records_scanned := RecoveryReport.records_scanned r;
  RecoveryReport.records_applied := RecoveryReport.records_applied r;
  RecoveryReport.logical_records_delivered := RecoveryReport.logical_records_delivered r;
  RecoveryReport.skipped_checkpoint := RecoveryReport.skipped_checkpoint r + 1;
  RecoveryReport.skipped_page_lsn := RecoveryReport.skipped_page_lsn r;
  RecoveryReport.max_lsn := RecoveryReport.max_lsn r |}.
Definition count_skipped_page_lsn (r : RecoveryReport.t) : RecoveryReport.t := {|
  RecoveryReport.records_scanned := RecoveryReport.records_scanned r;
  RecoveryReport.records_applied := RecoveryReport.records_applied r;
  RecoveryReport.logical_records_delivered := RecoveryReport.logical_records_delivered r;
  RecoveryReport.skipped_checkpoint := RecoveryReport.skipped_checkpoint r;
  RecoveryReport.skipped_page_lsn := RecoveryReport.skipped_page_lsn r + 1;
  RecoveryReport.max_lsn := RecoveryReport.max_lsn r |}.
Definition count_scanned (lsn : Z) (r : RecoveryReport.t) : RecoveryReport.t := {|
  RecoveryReport.records_scanned := RecoveryReport.records_scanned r + 1;
  RecoveryReport.records_applied := RecoveryReport.records_applied r;
  RecoveryReport.logical_records_delivered := RecoveryReport.logical_records_delivered r;
  RecoveryReport.skipped_checkpoint := RecoveryReport.skipped_checkpoint r;
  RecoveryReport.skipped_page_lsn := RecoveryReport.skipped_page_lsn r;
  RecoveryReport.max_lsn := Z.max (RecoveryReport.max_lsn r) lsn |}.

(** [page_buf.resize(n, 0)] keeps what the buffer has. *)
Definition resize_buf (buf : list byte) (n : Z) : list byte := sub buf 0 n ++ fill (n - zlen buf) x00.

(** [store.allocate(pid)?; current_next = store.next_page_id()]. *)
Definition allocate_next (pid : PageId) : IO loop unit :=
  _ ← on_store (allocate pid);
  n ← (λ l, lift (next_page_id (store l)) l);
  modify (set_next n).

(** [store.read_page(pid, page_buf)?] after the resize; the buffer is filled
    also when the answer is [false] or an error. *)
Definition read_into_buf (pid : PageId) (len : Z) : IO loop bool :=
  _ ← modify (λ l, set_buf (resize_buf (page_buf l) len) l);
  buf ← gets page_buf;
  r ← on_store (read_page pid buf);
  _ ← modify (set_buf r.1);
  ret_result r.2.

Definition recover_page_image (lsn pid : Z) (data : list byte) : IO loop unit :=
  if lsn <=? checkpoint_lsn then modify (set_report count_skipped_checkpoint)
  else
    let page_len := page_size pid in
    if negb (zlen data =? page_len) then mret tt
    else
      cur ← gets current_next;
      skip ← (if cur <=? page_end_base_page pid then _ ← allocate_next pid; mret false
              else
                found ← read_into_buf pid page_len;
                if found : bool then
                  buf ← gets page_buf;
                  let on_disk_lsn := read_page_lsn buf in
                  mret (lsn <=? on_disk_lsn)
                else mret false);
      if skip : bool then modify (set_report count_skipped_page_lsn)
      else
        _ ← on_store (write_page pid data);
        modify (set_report count_applied).

Definition recover_page_patch (lsn pid : Z) (ranges : list patch_range) : IO loop unit :=
  if lsn <=? checkpoint_lsn then modify (set_report count_skipped_checkpoint)
  else
    let page_len := page_size pid in
    if negb (page_len =? PAGE_SIZE) then mret tt
    else
      cur ← gets current_next;
      _ ← (if cur <=? page_end_base_page pid then allocate_next pid else mret tt);
      found ← read_into_buf pid PAGE_SIZE;
      skip ← (if found : bool then
                buf ← gets page_buf;
                let on_disk_lsn := read_page_lsn buf in
                mret (lsn <=? on_disk_lsn)
              else mret false);
      if skip : bool then modify (set_report count_skipped_page_lsn)
      else
        buf ← gets page_buf;
        buf ← lift (apply_ranges buf ranges);
        _ ← modify (set_buf buf);
        _ ← on_store (write_page pid buf);
        modify (set_report count_applied).

(** [false] stops recovery: a Pagebox-owned payload that does not decode. *)
Definition recover_logical_payload (lsn kind : Z) (payload : list byte) : IO loop bool :=
  if kind =? LOGICAL_KIND_PAGE_IMAGE_BYTES then
    match decode_page_image_bytes_payload payload with
    | None => mret false
    | Some (pid, page_data) => _ ← recover_page_image lsn pid page_data; mret true
    end
  else if kind =? LOGICAL_KIND_PAGE_PATCH then
    match decode_page_patch_payload payload with
    | None => mret false
    | Some (pid, ranges) => _ ← recover_page_patch lsn pid ranges; mret true
    end
  else if lsn <=? checkpoint_lsn then
    _ ← modify (set_report count_skipped_checkpoint); mret true
  else
    c ← gets caller;
    let '(r, c) := apply_logical lsn kind payload c in
    _ ← modify (set_caller c);
    _ ← ret_result r;
    _ ← modify (set_report count_delivered);
    mret true.

(** The loop over the sorted records; [false] when it stopped early. *)
Fixpoint recover_records (rs : list OwnedWalReplayRecord) : IO loop bool :=
  match rs with
  | [] => mret true
  | r :: rs =>
      _ ← modify (set_report (count_scanned (record_lsn r)));
      go ← match r with
           | PageImage lsn pid data => _ ← recover_page_image lsn pid data; mret true
           | Logical lsn kind payload => recover_logical_payload lsn kind payload
           end;
      if go : bool then recover_records rs else mret false
  end.

(** [recover_merged], on the records collected from the shards. *)
Definition recover_merged (records : list OwnedWalReplayRecord) (s : rps) (c : C)
    : exec loop RecoveryReport.t :=
  let records := sort_by_lsn records in
  match next_page_id s with
  | Panic => Panicked
  | Ret n =>
      (finished ← recover_records records;
       rep ← gets report;
       _ ← (if finished && (0 <? RecoveryReport.records_applied rep) then on_store sync else mret tt);
       gets report)
      {| store := s; report := RecoveryReport.default; current_next := n; page_buf := []; caller := c |}
  end.

End recovery.
