(* ===== verification/WalRecoverySpec.v ===== *)
(** * Write-ahead log: what recovery does to the pages

    Recovery into any page store that keeps the promises of
    [RecoveryPageStore] is related to a replay on a plain map from page
    numbers to pages. *)

From S2P Require Import Prelude Bytes FrameKernel Posix WalFormat WalCodec WalPatch WalRecovery.
#[local] Open Scope Z_scope.

(** ** Replay on a map of pages *)

Notation pages := (PageId → option (list byte)).

Definition set_page (A : pages) (pid : PageId) (d : list byte) : pages :=
  λ q, if decide (q = pid) then Some d else A q.

(** What a record asks for. *)
Inductive demand :=
| WriteImage (lsn pid : Z) (data : list byte)
| PatchPage (lsn pid : Z) (ranges : list patch_range)
| Deliver (lsn kind : Z) (payload : list byte)
| Malformed.

Definition demand_of `{Build} (r : OwnedWalReplayRecord) : demand :=
  match r with
  | PageImage lsn pid data => WriteImage lsn pid data
  | Logical lsn kind payload =>
      if kind =? LOGICAL_KIND_PAGE_IMAGE_BYTES then
        match decode_page_image_bytes_payload payload with
        | Some (pid, data) => WriteImage lsn pid data
        | None => Malformed
        end
      else if kind =? LOGICAL_KIND_PAGE_PATCH then
        match decode_page_patch_payload payload with
        | Some (pid, ranges) => PatchPage lsn pid ranges
        | None => Malformed
        end
      else Deliver lsn kind payload
  end.

Section spec.
Context `{Build} (checkpoint_lsn : Z) (read_page_lsn : list byte → Z).

(** A record newer than the checkpoint and than the page changes the page.
    [None]: a patch for a page nobody wrote. *)
Definition replay_demand (A : pages) (d : demand) : option pages :=
  match d with
  | WriteImage lsn pid data =>
      if (lsn <=? checkpoint_lsn) || negb (zlen data =? PAGE_SIZE) then Some A
      else match A pid with
           | Some p => Some (if lsn <=? read_page_lsn p then A else set_page A pid data)
           | None => Some (set_page A pid data)
           end
  | PatchPage lsn pid ranges =>
      if lsn <=? checkpoint_lsn then Some A
      else match A pid with
           | Some p =>
               if lsn <=? read_page_lsn p then Some A
               else match apply_ranges p ranges with
                    | Ret p' => Some (set_page A pid p')
                    | Panic => None
                    end
           | None => None
           end
  | Deliver _ _ _ | Malformed => Some A
  end.

(** Records in order, up to the first malformed one. *)
Fixpoint replay (A : pages) (rs : list OwnedWalReplayRecord) : option pages :=
  match rs with
  | [] => Some A
  | r :: rs =>
      match demand_of r with
      | Malformed => Some A
      | d => A ← replay_demand A d; replay A rs
      end
  end.

End spec.

(** ** Decoded patches stay inside the page *)

Section bounds.
Context `{Build}.

Definition ranges_inside (rs : list patch_range) : Prop :=
  Forall (λ r, 0 ≤ r.1 ∧ r.1 + zlen r.2 ≤ PAGE_SIZE) rs.

Lemma decode_ranges_inside fuel payload count off rs o :
  decode_ranges fuel payload count off = Some (rs, o) → ranges_inside rs.
Proof.
  revert count off rs o. induction fuel as [|fuel IH]; intros count off rs o E; simpl in E.
  { destruct (count <=? 0); [|done]. injection E as <- <-. constructor. }
  destruct (count <=? 0); [injection E as <- <-; constructor|].
  destruct (get_range payload off _) as [h|] eqn:Eh; [|done]. simpl in E.
  pose proof (get_le_range 4 h 0) as Hs. pose proof (get_le_range 4 h 4) as Hn.
  unfold checked_add in E. destruct (in_width 64 _); [|done]. simpl in E.
  destruct (Z.ltb_spec PAGE_SIZE (get_le 4 h 0 + get_le 4 h 4)); [done|].
  destruct (get_range payload (off + _) _) as [d|] eqn:Ed; [|done]. simpl in E.
  destruct (decode_ranges fuel payload _ _) as [[rs' o']|] eqn:Er; [|done]. simpl in E. injection E as <- <-.
  apply get_range_inv in Ed as (? & ? & ->). constructor; [|by eapply IH]. simpl. rewrite zlen_sub by lia. lia.
Qed.

Lemma decode_patch_inside payload pid rs :
  decode_page_patch_payload payload = Some (pid, rs) → ranges_inside rs.
Proof.
  unfold decode_page_patch_payload. destruct (_ <? _); [done|]. destruct (negb _); [done|].
  destruct (decode_ranges _ _ _ _) as [[rs' o]|] eqn:E; [|done]. simpl.
  destruct (o =? _); [|done]. intros [= _ <-]. by eapply decode_ranges_inside.
Qed.

Lemma apply_ranges_inside rs p :
  ranges_inside rs → zlen p = PAGE_SIZE → ∃ p', apply_ranges p rs = Ret p' ∧ zlen p' = PAGE_SIZE.
Proof.
  revert p. induction rs as [|[s d] rs IH]; intros p Hr Hz; [by exists p|].
  apply Forall_cons in Hr as [[Hs Hd] Hr]. simpl in Hs, Hd. pose proof (zlen_nonneg d). cbn [apply_ranges].
  rewrite copy_from_Ret, bind_Ret by lia. apply IH; [done|]. rewrite zlen_upd; lia.
Qed.

Lemma zlen_apply_ranges rs p p' : apply_ranges p rs = Ret p' → zlen p' = zlen p.
Proof.
  revert p. induction rs as [|[s d] rs IH]; intros p Hp; [by injection Hp as <-|]. cbn [apply_ranges] in Hp.
  destruct (copy_from p s (s + zlen d) d) as [p1|] eqn:E; [|done]. apply IH in Hp as ->.
  apply copy_from_inv in E as (? & ? & ? & ->). apply zlen_upd; lia.
Qed.

Lemma zlen_resize_buf buf n : 0 ≤ n → zlen (resize_buf buf n) = n.
Proof.
  intros Hn. unfold resize_buf. pose proof (zlen_nonneg buf). rewrite zlen_app, zlen_sub_min by lia.
  unfold fill. rewrite zlen_replicate. lia.
Qed.

End bounds.

(** ** The sort *)

Definition lsn_le (r1 r2 : OwnedWalReplayRecord) : Prop := record_lsn r1 ≤ record_lsn r2.

Lemma insert_by_lsn_perm r rs : insert_by_lsn r rs ≡ₚ r :: rs.
Proof.
  induction rs as [|r' rs IH]; [done|]. simpl. destruct (_ <=? _); [done|]. rewrite IH. apply perm_swap.
Qed.

Lemma sort_by_lsn_perm rs : sort_by_lsn rs ≡ₚ rs.
Proof. induction rs as [|r rs IH]; [done|]. simpl. by rewrite insert_by_lsn_perm, IH. Qed.

Lemma insert_by_lsn_sorted r rs : Sorted lsn_le rs → Sorted lsn_le (insert_by_lsn r rs).
Proof.
  induction rs as [|r' rs IH]; intros Hs; [repeat constructor|]. simpl.
  destruct (Z.leb_spec (record_lsn r) (record_lsn r')) as [Hle|Hgt]; [by constructor; [|constructor]|].
  apply Sorted_inv in Hs as [Hs Hhd]. constructor; [by apply IH|]. destruct rs as [|r2 rs]; simpl.
  - constructor. unfold lsn_le. lia.
  - apply HdRel_inv in Hhd. destruct (_ <=? _); constructor; unfold lsn_le in *; lia.
Qed.

Lemma sort_by_lsn_sorted rs : Sorted lsn_le (sort_by_lsn rs).
Proof. induction rs as [|r rs IH]; [constructor|]. by apply insert_by_lsn_sorted. Qed.

(** Records with the same LSN keep their order. *)
Lemma insert_by_lsn_stable n r rs :
  filter (λ x, record_lsn x = n) (insert_by_lsn r rs) = filter (λ x, record_lsn x = n) (r :: rs).
Proof.
  induction rs as [|r' rs IH]; [done|]. simpl insert_by_lsn. destruct (Z.leb_spec (record_lsn r) (record_lsn r')); [done|].
  rewrite filter_cons, IH, !filter_cons. repeat case_decide; try done. lia.
Qed.

Lemma sort_by_lsn_stable n rs :
  filter (λ x, record_lsn x = n) (sort_by_lsn rs) = filter (λ x, record_lsn x = n) rs.
Proof.
  induction rs as [|r rs IH]; [done|]. change (sort_by_lsn (r :: rs)) with (insert_by_lsn r (sort_by_lsn rs)).
  rewrite insert_by_lsn_stable, !filter_cons. by rewrite IH.
Qed.

(** ** Simulation *)

Section simulation.
Context `{Build} {RPS : RecoveryPageStore}.
Context {C : Type} (apply_logical : Z → Z → list byte → C → io_result unit * C).
Context (checkpoint_lsn : Z) (read_page_lsn : list byte → Z).
(** A page of zeros carries no LSN newer than the checkpoint. *)
Context (zeros_old : read_page_lsn (fill PAGE_SIZE x00) ≤ checkpoint_lsn).

Notation loop := (@loop _ _ C).

(** The store shows the pages of [A]; a page [A] does not have may read as
    zeros. *)
Record shows (A : pages) (l : loop) : Prop := {
  shows_ok : rps_ok (store l);
  shows_next : current_next l = next (store l);
  shows_page q : pid_ok q →
    match A q with
    | Some d => page (store l) q = Some d
    | None => page (store l) q = None ∨ page (store l) q = Some (fill PAGE_SIZE x00)
    end;
}.

Lemma shows_report A l f : shows A l → shows A (set_report f l).
Proof. intros [? ? ?]. by constructor. Qed.
Lemma shows_buf A l b : shows A l → shows A (set_buf b l).
Proof. intros [? ? ?]. by constructor. Qed.
Lemma shows_caller A l c : shows A l → shows A (set_caller c l).
Proof. intros [? ? ?]. by constructor. Qed.

Lemma read_into_buf_spec A l pid :
  shows A l → pid_ok pid →
  returns (read_into_buf pid PAGE_SIZE) l (λ found l', shows A l' ∧ report l' = report l ∧
    current_next l' = current_next l ∧
    page (store l) pid = if found : bool then Some (page_buf l') else None).
Proof.
  intros Hs Hp. unfold read_into_buf. apply returns_bind, returns_modify.
  set (l1 := set_buf _ l). assert (Hs1 : shows A l1) by by apply shows_buf.
  apply returns_bind, returns_gets.
  destruct (read_page_ok (store l1) pid (page_buf l1)) as (buf' & res & s' & E & Hok & Hn & Hpg & Hres);
    [apply Hs1|done|apply zlen_resize_buf; page_lia|].
  apply returns_bind. exists (Ok (buf', res)), (with_store l1 s'). split.
  { unfold on_store, zoom. by rewrite E. }
  apply returns_bind, returns_modify. destruct res as [found|e].
  - eexists (Ok found), _. split; [done|]. split_and!; [|done|done|by destruct found].
    destruct Hs1 as [H1 H2 H3]. constructor; simpl; [done|by rewrite Hn|]. intros q Hq. rewrite Hpg. by apply H3.
  - by eexists (Err e), _.
Qed.

Lemma allocate_next_spec A l pid :
  shows A l → pid_ok pid → current_next l ≤ pid →
  returns (allocate_next pid) l (λ _ l', shows A l' ∧ A pid = None ∧ pid < next (store l') ∧ report l' = report l ∧
    page (store l') pid = Some (fill PAGE_SIZE x00)).
Proof.
  intros [H1 H2 H3] Hp Hle. unfold allocate_next.
  destruct (allocate_ok (store l) pid) as (res & s' & E & Hres); [done|done|lia|].
  assert (HA : A pid = None).
  { specialize (H3 pid Hp). destruct (A pid) as [d|]; [|done]. apply page_below in H3; [lia|done|done]. }
  apply returns_bind. exists res, (with_store l s'). split; [unfold on_store, zoom; by rewrite E|].
  destruct res as [[]|]; [|done]. destruct (Hres eq_refl) as (Hok & Hn & Hz & Hother).
  apply returns_bind. exists (Ok (next s')), (with_store l s'). split; [simpl; by rewrite next_page_id_ok|].
  apply returns_modify. simpl. split_and!; [|done|lia|done|done]. constructor; simpl; [done|done|].
  intros q Hq. specialize (H3 q Hq). destruct (decide (q = pid)) as [->|Hne]; [rewrite HA; by right|].
  destruct (Hother q Hq Hne) as [->|[E1 E2]]; [done|]. rewrite E1 in H3. rewrite E2. destruct (A q); [done|by right].
Qed.

Lemma write_spec A l pid data :
  shows A l → pid_ok pid → pid < next (store l) → zlen data = PAGE_SIZE →
  returns (on_store (write_page pid data)) l (λ _ l', shows (set_page A pid data) l' ∧ report l' = report l).
Proof.
  intros [H1 H2 H3] Hp Hlt Hz. destruct (write_page_ok (store l) pid data) as (res & s' & E & Hres); [done..|].
  exists res, (with_store l s'). split; [unfold on_store, zoom; by rewrite E|].
  destruct res as [[]|]; [|done]. destruct (Hres eq_refl) as (Hok & Hn & Hpg & Hother). split; [|done].
  constructor; simpl; [done|by rewrite Hn|]. intros q Hq. unfold set_page. case_decide; subst; [done|].
  rewrite Hother by done. by apply H3.
Qed.

Lemma recover_page_image_spec A l lsn pid data A' :
  shows A l → pid_ok pid → replay_demand checkpoint_lsn read_page_lsn A (WriteImage lsn pid data) = Some A' →
  returns (recover_page_image checkpoint_lsn read_page_lsn lsn pid data) l (λ _ l', shows A' l').
Proof.
  intros Hs Hp HA. unfold recover_page_image, page_size, page_end_base_page. simpl in HA.
  destruct (Z.leb_spec lsn checkpoint_lsn) as [Hck|Hck]; simpl in HA.
  { injection HA as <-. apply returns_modify. by apply shows_report. }
  destruct (Z.eqb_spec (zlen data) PAGE_SIZE) as [Hz|Hz]; simpl in HA |- *; [|injection HA as <-; by apply returns_ret].
  apply returns_bind, returns_gets, returns_bind.
  assert (Hwrite : ∀ l1, shows A l1 → pid < next (store l1) →
    returns (_ ← on_store (write_page pid data); modify (set_report count_applied)) l1
      (λ _ l', shows (set_page A pid data) l')).
  { intros l1 Hs1 Hlt. apply returns_bind. eapply returns_mono; [by apply write_spec|].
    intros _ l' [Hs' _]. apply returns_modify. by apply shows_report. }
  destruct (Z.leb_spec (current_next l) pid) as [Hle|Hgt].
  - apply returns_bind. eapply returns_mono; [by apply (allocate_next_spec A)|].
    intros _ l1 (Hs1 & HAn & Hlt & _). rewrite HAn in HA. injection HA as <-.
    apply returns_ret. by apply Hwrite.
  - apply returns_bind. eapply returns_mono; [by apply (read_into_buf_spec A)|].
    intros found l1 (Hs1 & _ & Hcn & Hpg). pose proof (shows_page _ _ Hs pid Hp) as HAp.
    assert (Hlt : pid < next (store l1)).
    { rewrite <-(shows_next _ _ Hs1), Hcn. lia. }
    destruct found.
    + apply returns_bind, returns_gets, returns_ret. rewrite Hpg in HAp.
      destruct (A pid) as [p|].
      * injection HAp as ->. destruct (Z.leb_spec lsn (read_page_lsn p)); injection HA as <-.
        -- apply returns_modify. by apply shows_report.
        -- by apply Hwrite.
      * destruct HAp as [|[= ->]]; [done|]. rewrite (proj2 (Z.leb_gt _ _)) by lia. injection HA as <-. by apply Hwrite.
    + apply returns_ret. rewrite Hpg in HAp. destruct (A pid); [done|]. injection HA as <-. by apply Hwrite.
Qed.

Lemma recover_page_patch_spec A l lsn pid ranges A' :
  shows A l → pid_ok pid → ranges_inside ranges →
  replay_demand checkpoint_lsn read_page_lsn A (PatchPage lsn pid ranges) = Some A' →
  returns (recover_page_patch checkpoint_lsn read_page_lsn lsn pid ranges) l (λ _ l', shows A' l').
Proof.
  intros Hs Hp Hr HA. unfold recover_page_patch, page_size, page_end_base_page. simpl in HA.
  destruct (Z.leb_spec lsn checkpoint_lsn) as [Hck|Hck].
  { injection HA as <-. apply returns_modify. by apply shows_report. }
  rewrite Z.eqb_refl. simpl. destruct (A pid) as [p|] eqn:HAp; [|done].
  pose proof (shows_page _ _ Hs pid Hp) as Hpg. rewrite HAp in Hpg.
  destruct (page_below _ _ _ (shows_ok _ _ Hs) Hp Hpg) as [Hlt Hzp]. rewrite <-(shows_next _ _ Hs) in Hlt.
  apply returns_bind, returns_gets. rewrite (proj2 (Z.leb_gt _ _)) by lia.
  apply returns_bind, returns_ret, returns_bind.
  eapply returns_mono; [by apply (read_into_buf_spec A)|].
  intros found l1 (Hs1 & _ & Hcn & Hpg1). rewrite Hpg in Hpg1. destruct found; [|done]. injection Hpg1 as Hbuf.
  apply returns_bind, returns_bind, returns_gets, returns_ret. rewrite <-Hbuf.
  destruct (Z.leb_spec lsn (read_page_lsn p)).
  { injection HA as <-. apply returns_modify. by apply shows_report. }
  apply returns_bind, returns_gets, returns_bind. rewrite <-Hbuf.
  destruct (apply_ranges_inside ranges p Hr Hzp) as (p' & Ep & Hz'). rewrite Ep in *. injection HA as <-.
  exists (Ok p'), l1. split; [done|]. apply returns_bind, returns_modify, returns_bind.
  eapply returns_mono; [apply (write_spec A); [by apply shows_buf|done| |done]|].
  { simpl. rewrite <-(shows_next _ _ Hs1), Hcn. done. }
  intros _ l2 [Hs2 _]. apply returns_modify. by apply shows_report.
Qed.

(** The pages a record touches exist for the store. *)
Definition record_ok (r : OwnedWalReplayRecord) : Prop :=
  match demand_of r with
  | WriteImage _ pid _ | PatchPage _ pid _ => pid_ok pid
  | _ => True
  end.

Lemma recover_logical_spec A l lsn kind payload A' :
  shows A l → record_ok (Logical lsn kind payload) →
  replay_demand checkpoint_lsn read_page_lsn A (demand_of (Logical lsn kind payload)) = Some A' →
  returns (recover_logical_payload apply_logical checkpoint_lsn read_page_lsn lsn kind payload) l
    (λ go l', shows A' l' ∧ (go = false ↔ demand_of (Logical lsn kind payload) = Malformed)).
Proof.
  intros Hs Hok HA. unfold recover_logical_payload, record_ok in *. simpl in Hok, HA |- *.
  destruct (kind =? LOGICAL_KIND_PAGE_IMAGE_BYTES).
  { destruct (decode_page_image_bytes_payload payload) as [[pid data]|].
    - apply returns_bind. eapply returns_mono; [by apply (recover_page_image_spec A _ _ _ _ A')|]. intros u l' Hs'. by apply returns_ret.
    - apply returns_ret. simpl in HA. by injection HA as <-. }
  destruct (kind =? LOGICAL_KIND_PAGE_PATCH).
  { destruct (decode_page_patch_payload payload) as [[pid ranges]|] eqn:E.
    - apply returns_bind. eapply returns_mono; [apply (recover_page_patch_spec A _ _ _ _ A'); [done|done| |done]; by eapply decode_patch_inside|].
      intros u l' Hs'. by apply returns_ret.
    - apply returns_ret. simpl in HA. by injection HA as <-. }
  simpl in HA. injection HA as <-. destruct (lsn <=? checkpoint_lsn).
  { apply returns_bind, returns_modify, returns_ret. split; [by apply shows_report|done]. }
  apply returns_bind, returns_gets. destruct (apply_logical lsn kind payload (caller l)) as [r c].
  apply returns_bind, returns_modify, returns_bind. exists r, (set_caller c l). split; [done|].
  destruct r; [|done]. apply returns_bind, returns_modify, returns_ret.
  split; [by apply shows_report, shows_caller|done].
Qed.

Lemma recover_records_spec rs A l A' :
  shows A l → Forall record_ok rs → replay checkpoint_lsn read_page_lsn A rs = Some A' →
  returns (recover_records apply_logical checkpoint_lsn read_page_lsn rs) l (λ _ l', shows A' l').
Proof.
  revert A l. induction rs as [|r rs IH]; intros A l Hs Hok HA.
  { simpl in HA. injection HA as <-. by apply returns_ret. }
  apply Forall_cons in Hok as [Hr Hok]. cbn [recover_records]. apply returns_bind, returns_modify.
  set (l1 := set_report _ l). assert (Hs1 : shows A l1) by by apply shows_report. clearbody l1.
  assert (Hstep : ∃ A1, replay_demand checkpoint_lsn read_page_lsn A (demand_of r) = Some A1 ∧
    (demand_of r ≠ Malformed → replay checkpoint_lsn read_page_lsn A1 rs = Some A') ∧
    (demand_of r = Malformed → A1 = A')).
  { cbn [replay] in HA. destruct (demand_of r) as [? ? ?|? ? ?|? ? ?|] eqn:Ed.
    4:{ exists A. injection HA as <-. done. }
    all: destruct (replay_demand _ _ A _) as [A1|] eqn:E1; [|done]; simpl in HA; by exists A1. }
  destruct Hstep as (A1 & HA1 & Hrest & Hstop). apply returns_bind. destruct r as [lsn pid data|lsn kind payload].
  - apply returns_bind. eapply returns_mono; [apply (recover_page_image_spec A _ _ _ _ A1); [done|exact Hr|exact HA1]|].
    intros u l2 Hs2. apply returns_ret. apply (IH A1); [done|done|]. by apply Hrest.
  - eapply returns_mono; [apply (recover_logical_spec A _ _ _ _ A1); [done|exact Hr|exact HA1]|].
    intros go l2 [Hs2 Hgo]. destruct go.
    + apply (IH A1); [done|done|]. apply Hrest. by intros E%Hgo.
    + apply returns_ret. by rewrite <-Hstop by (by apply Hgo).
Qed.

Lemma recover_merged_spec records s c A' :
  rps_ok s → Forall record_ok records →
  replay checkpoint_lsn read_page_lsn (page s) (sort_by_lsn records) = Some A' →
  ∃ r l', recover_merged apply_logical checkpoint_lsn read_page_lsn records s c = Done r l' ∧
    match r with Ok _ => shows A' l' | Err _ => True end.
Proof.
  intros Hok Hrs HA. rewrite <-sort_by_lsn_perm in Hrs. unfold recover_merged. rewrite next_page_id_ok by done.
  set (l := {| store := s; report := _; current_next := _; page_buf := _; caller := c |}).
  assert (Hs : shows (page s) l).
  { constructor; [done|done|]. intros q Hq. simpl. destruct (page s q); auto. }
  cut (returns (finished ← recover_records apply_logical checkpoint_lsn read_page_lsn (sort_by_lsn records);
    rep ← gets report;
    _ ← (if finished && (0 <? RecoveryReport.records_applied rep) then on_store sync else mret tt);
    gets report) l (λ _ l', shows A' l')); [done|].
  apply returns_bind. eapply returns_mono; [by apply (recover_records_spec _ (page s) _ A')|].
  intros fin l1 Hs1. apply returns_bind, returns_gets, returns_bind.
  destruct (fin && _); [|by apply returns_ret, returns_gets].
  destruct Hs1 as [H1 H2 H3]. destruct (sync_ok (store l1) H1) as (res & s' & E & Hres).
  exists res, (with_store l1 s'). split; [unfold on_store, zoom; by rewrite E|]. destruct res as [[]|]; [|done].
  destruct (Hres eq_refl) as (Hok' & Hn & Hpg). apply returns_gets. constructor; simpl; [done|by rewrite Hn|].
  intros q Hq. rewrite Hpg by done. by apply H3.
Qed.

(** ** Recovering again *)

(** A record whose page carries its LSN, as the appenders of page records
    produce them. *)
Definition stamped (r : OwnedWalReplayRecord) : Prop :=
  match demand_of r with
  | WriteImage lsn _ data => zlen data = PAGE_SIZE → read_page_lsn data = lsn
  | PatchPage lsn _ ranges =>
      ∀ p p', zlen p = PAGE_SIZE → apply_ranges p ranges = Ret p' → read_page_lsn p' = lsn
  | _ => True
  end.

(** A record that has nothing to do on the pages [A]. *)
Definition covered (A : pages) (r : OwnedWalReplayRecord) : Prop :=
  match demand_of r with
  | WriteImage lsn pid data =>
      lsn ≤ checkpoint_lsn ∨ zlen data ≠ PAGE_SIZE ∨ ∃ p, A pid = Some p ∧ lsn ≤ read_page_lsn p
  | PatchPage lsn pid _ => lsn ≤ checkpoint_lsn ∨ ∃ p, A pid = Some p ∧ lsn ≤ read_page_lsn p
  | _ => True
  end.

(** The records before the first malformed one. *)
Fixpoint well_formed_prefix (rs : list OwnedWalReplayRecord) : list OwnedWalReplayRecord :=
  match rs with
  | [] => []
  | r :: rs => match demand_of r with Malformed => [] | _ => r :: well_formed_prefix rs end
  end.

Definition sized (A : pages) : Prop := ∀ q d, pid_ok q → A q = Some d → zlen d = PAGE_SIZE.

(** Pages stay, with LSNs that do not go back. *)
Definition advances (A A' : pages) : Prop :=
  ∀ q p, A q = Some p → ∃ p', A' q = Some p' ∧ read_page_lsn p ≤ read_page_lsn p'.

Lemma advances_refl A : advances A A.
Proof. intros q p Hp. eauto with lia. Qed.

Lemma advances_trans A1 A2 A3 : advances A1 A2 → advances A2 A3 → advances A1 A3.
Proof.
  intros H1 H2 q p Hp. destruct (H1 q p Hp) as (p2 & Hp2 & Hle). destruct (H2 q p2 Hp2) as (p3 & Hp3 & ?). eauto with lia.
Qed.

Lemma covered_advances A A' r : covered A r → advances A A' → covered A' r.
Proof.
  intros Hc Ha. unfold covered in *. destruct (demand_of r); try done.
  - destruct Hc as [?|[?|(p & Hp & ?)]]; [by left|by right; left|]. right. right.
    destruct (Ha _ _ Hp) as (p' & ? & ?). eauto with lia.
  - destruct Hc as [?|(p & Hp & ?)]; [by left|]. right. destruct (Ha _ _ Hp) as (p' & ? & ?). eauto with lia.
Qed.

Lemma set_page_advances A pid d :
  (∀ p, A pid = Some p → read_page_lsn p ≤ read_page_lsn d) → advances A (set_page A pid d).
Proof. intros Hd q p Hp. unfold set_page. case_decide; subst; eauto with lia. Qed.

Lemma set_page_sized A pid d : sized A → zlen d = PAGE_SIZE → sized (set_page A pid d).
Proof. intros HA Hd q e Hq. unfold set_page. case_decide; [by intros [= <-]|by apply HA]. Qed.

Lemma replay_demand_covers A r A' :
  sized A → record_ok r → stamped r → replay_demand checkpoint_lsn read_page_lsn A (demand_of r) = Some A' →
  sized A' ∧ advances A A' ∧ covered A' r.
Proof.
  assert (Hset : ∀ pid d lsn, (∀ p, A pid = Some p → read_page_lsn p < lsn) → read_page_lsn d = lsn →
    sized A → zlen d = PAGE_SIZE →
    sized (set_page A pid d) ∧ advances A (set_page A pid d) ∧
    ∃ p, set_page A pid d pid = Some p ∧ lsn ≤ read_page_lsn p).
  { intros pid d lsn Hold Hd Hs Hz. split_and!; [by apply set_page_sized| |].
    - apply set_page_advances. intros p Hp. apply Hold in Hp. lia.
    - exists d. unfold set_page. rewrite decide_True by done. split; [done|lia]. }
  intros Hs Hok Hst HA. unfold record_ok, stamped, covered in *. destruct (demand_of r) as [lsn pid data|lsn pid ranges|? ? ?|]; simpl in HA.
  3,4: injection HA as <-; split_and!; [done|apply advances_refl|done].
  - destruct (Z.leb_spec lsn checkpoint_lsn); simpl in HA;
      [injection HA as <-; split_and!; [done|apply advances_refl|by left]|].
    destruct (Z.eqb_spec (zlen data) PAGE_SIZE) as [Hz|]; simpl in HA;
      [|injection HA as <-; split_and!; [done|apply advances_refl|by right; left]].
    destruct (A pid) as [p|] eqn:Hp.
    + destruct (Z.leb_spec lsn (read_page_lsn p)); injection HA as <-.
      * split_and!; [done|apply advances_refl|]. right. right. eauto.
      * destruct (Hset pid data lsn) as (? & ? & ?); auto. intros q Hq. congruence.
    + injection HA as <-. destruct (Hset pid data lsn) as (? & ? & ?); auto. congruence.
  - destruct (Z.leb_spec lsn checkpoint_lsn);
      [injection HA as <-; split_and!; [done|apply advances_refl|by left]|].
    destruct (A pid) as [p|] eqn:Hp; [|done]. apply Hs in Hp as Hz; [|done].
    destruct (Z.leb_spec lsn (read_page_lsn p)).
    { injection HA as <-. split_and!; [done|apply advances_refl|]. right. eauto. }
    destruct (apply_ranges p ranges) as [p'|] eqn:Ep; [|done]. injection HA as <-.
    destruct (Hset pid p' lsn) as (? & ? & ?); auto; [congruence|by eapply Hst|].
    by rewrite (zlen_apply_ranges _ _ _ Ep).
Qed.

Lemma replay_covers rs A A' :
  sized A → Forall record_ok rs → Forall stamped rs → replay checkpoint_lsn read_page_lsn A rs = Some A' →
  advances A A' ∧ Forall (covered A') (well_formed_prefix rs).
Proof.
  revert A. induction rs as [|r rs IH]; intros A Hs Hok Hst HA.
  { injection HA as <-. split; [apply advances_refl|constructor]. }
  apply Forall_cons in Hok as [Hr Hok]. apply Forall_cons in Hst as [Hsr Hst].
  pose proof (replay_demand_covers A r) as Hstep. cbn [replay well_formed_prefix] in *.
  destruct (demand_of r) eqn:Ed.
  4: { injection HA as <-. split; [apply advances_refl|constructor]. }
  all: destruct (replay_demand _ _ A _) as [A1|] eqn:E1; [|done]; simpl in HA;
    destruct (Hstep A1 Hs Hr Hsr eq_refl) as (Hs1 & Ha1 & Hc1);
    destruct (IH A1 Hs1 Hok Hst HA) as [Ha Hc];
    (split; [by eapply advances_trans|constructor; [by eapply covered_advances|done]]).
Qed.

(** A step that touches no page. *)
Definition quiet (l l' : loop) : Prop :=
  rps_ok (store l') ∧ current_next l' = next (store l') ∧
  RecoveryReport.records_applied (report l') = RecoveryReport.records_applied (report l) ∧
  ∀ q, page (store l') q = page (store l) q.

Lemma quiet_trans l1 l2 l3 : quiet l1 l2 → quiet l2 l3 → quiet l1 l3.
Proof. intros (? & ? & ? & Hp1) (? & ? & ? & Hp2). split_and!; try done; [congruence|]. intros q. by rewrite Hp2. Qed.

Definition settled (l : loop) : Prop := rps_ok (store l) ∧ current_next l = next (store l).

Lemma quiet_refl l : settled l → quiet l l.
Proof. by intros [? ?]. Qed.
Lemma quiet_settled l l' : quiet l l' → settled l'.
Proof. by intros (? & ? & _). Qed.

Lemma read_into_buf_quiet l pid :
  settled l → pid_ok pid →
  returns (read_into_buf pid PAGE_SIZE) l (λ found l', quiet l l' ∧
    page (store l) pid = if found : bool then Some (page_buf l') else None).
Proof.
  intros [Hok Hn] Hp. unfold read_into_buf. apply returns_bind, returns_modify.
  set (l1 := set_buf _ l). apply returns_bind, returns_gets.
  destruct (read_page_ok (store l1) pid (page_buf l1)) as (buf' & res & s' & E & Hok' & Hn' & Hpg & Hres);
    [done|done|apply zlen_resize_buf; page_lia|].
  apply returns_bind. exists (Ok (buf', res)), (with_store l1 s'). split.
  { unfold on_store, zoom. by rewrite E. }
  apply returns_bind, returns_modify. destruct res as [found|e]; [|by eexists (Err e), _].
  eexists (Ok found), _. split; [done|]. split; [|by destruct found].
  split_and!; simpl; [done|by rewrite Hn'|done|done].
Qed.

(** A record whose page is already as new as the record. *)
Lemma recover_page_image_quiet l lsn pid data :
  settled l → pid_ok pid →
  lsn ≤ checkpoint_lsn ∨ zlen data ≠ PAGE_SIZE ∨ (∃ p, page (store l) pid = Some p ∧ lsn ≤ read_page_lsn p) →
  returns (recover_page_image checkpoint_lsn read_page_lsn lsn pid data) l (λ _ l', quiet l l').
Proof.
  intros Hs Hp Hc. unfold recover_page_image, page_size, page_end_base_page.
  destruct (Z.leb_spec lsn checkpoint_lsn); [apply returns_modify; by destruct Hs|].
  destruct (Z.eqb_spec (zlen data) PAGE_SIZE); simpl; [|by apply returns_ret, quiet_refl].
  destruct Hc as [?|[?|(p & Hpg & Hle)]]; [lia|done|].
  apply returns_bind, returns_gets, returns_bind. destruct (page_below _ _ _ (proj1 Hs) Hp Hpg) as [Hlt _].
  rewrite <-(proj2 Hs) in Hlt. rewrite (proj2 (Z.leb_gt _ _)) by lia. apply returns_bind.
  eapply returns_mono; [by apply read_into_buf_quiet|]. intros found l1 [Hq Hb]. rewrite Hpg in Hb.
  destruct found; [|done]. injection Hb as Hb. apply returns_bind, returns_gets, returns_ret. rewrite <-Hb.
  rewrite (proj2 (Z.leb_le _ _)) by lia. by apply returns_modify.
Qed.

Lemma recover_page_patch_quiet l lsn pid ranges :
  settled l → pid_ok pid →
  lsn ≤ checkpoint_lsn ∨ (∃ p, page (store l) pid = Some p ∧ lsn ≤ read_page_lsn p) →
  returns (recover_page_patch checkpoint_lsn read_page_lsn lsn pid ranges) l (λ _ l', quiet l l').
Proof.
  intros Hs Hp Hc. unfold recover_page_patch, page_size, page_end_base_page.
  destruct (Z.leb_spec lsn checkpoint_lsn); [apply returns_modify; by destruct Hs|].
  rewrite Z.eqb_refl. simpl. destruct Hc as [?|(p & Hpg & Hle)]; [lia|].
  apply returns_bind, returns_gets. destruct (page_below _ _ _ (proj1 Hs) Hp Hpg) as [Hlt _].
  rewrite <-(proj2 Hs) in Hlt. rewrite (proj2 (Z.leb_gt _ _)) by lia. apply returns_bind, returns_ret, returns_bind.
  eapply returns_mono; [by apply read_into_buf_quiet|]. intros found l1 [Hq Hb]. rewrite Hpg in Hb.
  destruct found; [|done]. injection Hb as Hb. apply returns_bind, returns_bind, returns_gets, returns_ret. rewrite <-Hb.
  rewrite (proj2 (Z.leb_le _ _)) by lia. by apply returns_modify.
Qed.

Lemma recover_record_quiet l r :
  settled l → record_ok r → covered (page (store l)) r →
  returns (match r with
           | PageImage lsn pid data =>
               _ ← recover_page_image checkpoint_lsn read_page_lsn lsn pid data; mret true
           | Logical lsn kind payload =>
               recover_logical_payload apply_logical checkpoint_lsn read_page_lsn lsn kind payload
           end) l (λ go l', quiet l l' ∧ (go = true → demand_of r ≠ Malformed)).
Proof.
  intros Hs Hok Hc. unfold record_ok, covered in *. destruct r as [lsn pid data|lsn kind payload]; simpl in *.
  { apply returns_bind. eapply returns_mono; [by apply recover_page_image_quiet|]. intros u l' Hq. by apply returns_ret. }
  unfold recover_logical_payload. destruct (kind =? LOGICAL_KIND_PAGE_IMAGE_BYTES).
  { destruct (decode_page_image_bytes_payload payload) as [[pid data]|]; [|by apply returns_ret; split; [apply quiet_refl|]].
    apply returns_bind. eapply returns_mono; [by apply recover_page_image_quiet|]. intros u l' Hq. by apply returns_ret. }
  destruct (kind =? LOGICAL_KIND_PAGE_PATCH).
  { destruct (decode_page_patch_payload payload) as [[pid ranges]|]; [|by apply returns_ret; split; [apply quiet_refl|]].
    apply returns_bind. eapply returns_mono; [by apply recover_page_patch_quiet|]. intros u l' Hq. by apply returns_ret. }
  destruct Hs as [Hs1 Hs2]. destruct (lsn <=? checkpoint_lsn); [by apply returns_bind, returns_modify, returns_ret|].
  apply returns_bind, returns_gets. destruct (apply_logical lsn kind payload (caller l)) as [r c].
  apply returns_bind, returns_modify, returns_bind. exists r, (set_caller c l). split; [done|].
  destruct r; [|done]. by apply returns_bind, returns_modify, returns_ret.
Qed.

Lemma recover_records_quiet rs l :
  settled l → Forall record_ok rs → Forall (covered (page (store l))) (well_formed_prefix rs) →
  returns (recover_records apply_logical checkpoint_lsn read_page_lsn rs) l (λ _ l', quiet l l').
Proof.
  revert l. induction rs as [|r rs IH]; intros l Hs Hok Hc; [by apply returns_ret, quiet_refl|].
  apply Forall_cons in Hok as [Hr Hok]. cbn [recover_records]. apply returns_bind, returns_modify.
  set (l1 := set_report _ l). assert (Hq1 : quiet l l1) by by destruct Hs.
  apply returns_bind. cbn [well_formed_prefix] in Hc.
  assert (Hcr : covered (page (store l1)) r).
  { destruct (demand_of r) eqn:Ed; try (by apply Forall_cons in Hc as [? _]). unfold covered. by rewrite Ed. }
  eapply returns_mono; [apply recover_record_quiet; [by apply (quiet_settled l)|done|done]|].
  intros go l2 [Hq2 Hgo]. pose proof (quiet_trans _ _ _ Hq1 Hq2) as Hq. destruct go; [|by apply returns_ret].
  eapply returns_mono; [apply IH; [by apply (quiet_settled l)|done|]|intros u l3; by apply quiet_trans].
  specialize (Hgo eq_refl). assert (Hcs : Forall (covered (page (store l))) (well_formed_prefix rs)).
  { destruct (demand_of r); try done; by apply Forall_cons in Hc as [_ ?]. }
  eapply Forall_impl; [exact Hcs|]. intros r' Hc'. apply (covered_advances (page (store l))); [done|].
  intros q p Hp. exists p. rewrite (proj2 (proj2 (proj2 Hq))). split; [done|lia].
Qed.

Lemma well_formed_prefix_Forall (P : OwnedWalReplayRecord → Prop) rs :
  Forall P rs → Forall P (well_formed_prefix rs).
Proof. induction 1 as [|r rs Hr _ IH]; [constructor|]. simpl. destruct (demand_of r); by constructor. Qed.

Lemma covered_shows A l r : shows A l → record_ok r → covered A r → covered (page (store l)) r.
Proof.
  intros [_ _ Hpg] Hr Hc. unfold record_ok, covered in *. destruct (demand_of r) as [? pid ?|? pid ?|? ? ?|]; try done.
  all: specialize (Hpg pid Hr).
  - destruct Hc as [?|[?|(p & Hp & ?)]]; [by left|by right; left|]. rewrite Hp in Hpg. eauto.
  - destruct Hc as [?|(p & Hp & ?)]; [by left|]. rewrite Hp in Hpg. eauto.
Qed.

End simulation.
