(* ===== verification/RecoverySpec.v ===== *)
(** * Page stores as recovery targets

    [InMemoryPageStore] and [FilePageStore]
    ([src/crates/storage/src/page_store.rs]) keep the promises recovery asks
    of a store ([RecoveryPageStore]). For the file store this holds on any
    kernel that behaves as [PosixFile] says, failures and short transfers
    included. *)

From S2P Require Import Prelude Bytes FrameKernel Posix PageStore PageStoreInv WalFormat WalCodec WalRecovery WalRecoverySpec.
#[local] Open Scope Z_scope.

(** ** In memory *)

Section memory.
Context `{Build}.
Implicit Types s : gmap PageId (list byte).

Definition memory_ok s : Prop := ∀ q d, s !! q = Some d → zlen d = PAGE_SIZE ∧ 0 ≤ q < 2 ^ 64 - 1.
Definition memory_pid_ok (pid : PageId) : Prop := 0 ≤ pid < 2 ^ 64 - 1.
Definition memory_next s : PageId :=
  match InMemoryPageStore.max_page s with Some m => m + 1 | None => 1 end.

Lemma max_page_spec s :
  match InMemoryPageStore.max_page s with
  | Some m => is_Some (s !! m) ∧ ∀ q, is_Some (s !! q) → q ≤ m
  | None => s = ∅
  end.
Proof.
  unfold InMemoryPageStore.max_page, page_end_base_page.
  assert (Hdom : ∀ q, q ∈ map fst (map_to_list s) ↔ is_Some (s !! q)).
  { intros q. rewrite list_elem_of_fmap. split.
    - intros ([q' d] & -> & E%elem_of_map_to_list). by exists d.
    - intros [d E]. exists (q, d). split; [done|]. by apply elem_of_map_to_list. }
  assert (Hgen : ∀ l : list PageId, match foldr (λ (pid : PageId) acc, Some (match acc with Some m => Z.max m pid | None => pid end)) None l with
    | Some m => m ∈ l ∧ ∀ q, q ∈ l → q ≤ m | None => l = [] end).
  { induction l as [|x l IH]; [done|]. simpl. destruct (foldr _ None l) as [m|].
    - destruct IH as [Hm Hle]. split.
      + destruct (Z.max_spec m x) as [[_ ->]|[_ ->]]; [by left|by right].
      + intros q [->|Hq]%elem_of_cons; [lia|]. specialize (Hle q Hq). lia.
    - subst l. split; [by left|]. intros q [->|[]%elem_of_nil]%elem_of_cons. lia. }
  specialize (Hgen (map fst (map_to_list s))). destruct (foldr _ None _) as [m|].
  - destruct Hgen as [Hm Hle]. split; [by apply Hdom|]. intros q Hq. by apply Hle, Hdom.
  - apply map_empty. intros q. destruct (s !! q) eqn:E; [|done].
    assert (Hin : q ∈ map fst (map_to_list s)) by (apply Hdom; by rewrite E).
    destruct (map fst (map_to_list s)); [by apply elem_of_nil in Hin|discriminate Hgen].
Qed.

Lemma memory_below s pid : is_Some (s !! pid) → pid < memory_next s.
Proof.
  intros Hp. unfold memory_next. pose proof (max_page_spec s) as Hm. destruct (InMemoryPageStore.max_page s) as [m|].
  - destruct Hm as [_ Hm]. specialize (Hm pid Hp). lia.
  - subst s. rewrite lookup_empty in Hp. by destruct Hp.
Qed.

(** The answer is the only bound of the pages that a page reaches. *)
Lemma memory_next_unique s n :
  (∀ q, is_Some (s !! q) → q < n) → is_Some (s !! (n - 1)) → memory_next s = n.
Proof.
  intros Hub [d Hd]. unfold memory_next. pose proof (max_page_spec s) as Hm. destruct (InMemoryPageStore.max_page s) as [m|].
  - destruct Hm as [Hm Hle]. specialize (Hub m Hm). specialize (Hle (n - 1) (mk_is_Some _ _ Hd)). lia.
  - subst s. by rewrite lookup_empty in Hd.
Qed.

Lemma memory_insert_ok s pid d :
  memory_ok s → memory_pid_ok pid → zlen d = PAGE_SIZE → memory_ok (<[pid := d]> s).
Proof. intros Hs Hp Hd q e [[<- <-]|[_ Hq]]%lookup_insert_Some; [done|]. by apply Hs in Hq. Qed.

Lemma memory_insert_next s pid d :
  memory_pid_ok pid → memory_next (<[pid := d]> s) = Z.max (memory_next s) (pid + 1).
Proof.
  intros Hp. apply memory_next_unique.
  - intros q [e [[<- _]|[_ Hq]]%lookup_insert_Some]; [lia|]. pose proof (memory_below s q (mk_is_Some _ _ Hq)). lia.
  - destruct (Z.max_spec (memory_next s) (pid + 1)) as [[Hlt ->]|[Hle ->]].
    + replace (pid + 1 - 1) with pid by lia. rewrite lookup_insert_eq. by eexists.
    + apply lookup_insert_is_Some. unfold memory_next in *. pose proof (max_page_spec s) as Hm.
      destruct (InMemoryPageStore.max_page s) as [m|]; [|left; unfold memory_pid_ok in Hp; lia].
      destruct (decide (pid = m)) as [->|]; [left; lia|]. right. split; [lia|].
      replace (m + 1 - 1) with m by lia. apply Hm.
Qed.

Lemma memory_next_page_id s : memory_ok s → InMemoryPageStore.next_page_id s = Ret (memory_next s).
Proof.
  intros Hs. unfold InMemoryPageStore.next_page_id, memory_next. pose proof (max_page_spec s) as Hm.
  destruct (InMemoryPageStore.max_page s) as [m|]; [|done]. destruct Hm as [[d Hd] _]. apply Hs in Hd as [_ Hd].
  apply uadd_in_range. lia.
Qed.

Lemma memory_read s pid buf :
  memory_ok s → memory_pid_ok pid → zlen buf = PAGE_SIZE →
  ∃ buf' res s', InMemoryPageStore.read_page pid buf s = Done (Ok (buf', res)) s' ∧
    memory_ok s' ∧ memory_next s' = memory_next s ∧ (∀ q, s' !! q = s !! q) ∧
    match res with
    | Ok true => s !! pid = Some buf'
    | Ok false => s !! pid = None
    | Err _ => True
    end.
Proof.
  intros Hs Hp Hb. unfold InMemoryPageStore.read_page, InMemoryPageStore.t, validate_page_buf_len, page_size. rewrite Hb, Z.eqb_refl.
  erewrite IO_bind_Ok by done. destruct (s !! pid) as [d|] eqn:E.
  - apply Hs in E as Hd. destruct Hd as [Hd _].
    exists d, (Ok true), s. split_and!; try done. rewrite copy_from_Ret by page_lia. erewrite IO_bind_Ok by done.
    replace (upd buf 0 d) with d; [done|]. symmetry. apply list_eq. intros i. rewrite lookup_upd by lia.
    case_decide; [by rewrite Nat.sub_0_r|]. rewrite !lookup_ge_None_2; [done|unfold zlen in *; lia..].
  - by exists buf, (Ok false), s.
Qed.

Lemma memory_write s pid data :
  memory_ok s → memory_pid_ok pid → pid < memory_next s → zlen data = PAGE_SIZE →
  ∃ res s', InMemoryPageStore.write_page pid data s = Done res s' ∧
    (res = Ok tt → memory_ok s' ∧ memory_next s' = memory_next s ∧ s' !! pid = Some data ∧
      ∀ q, memory_pid_ok q → q ≠ pid → s' !! q = s !! q).
Proof.
  intros Hs Hp Hlt Hz. unfold InMemoryPageStore.write_page, validate_page_buf_len, page_size. rewrite Hz, Z.eqb_refl.
  exists (Ok tt), (<[pid := data]> s). split; [done|]. intros _. rewrite memory_insert_next, lookup_insert_eq by done.
  split_and!; [by apply memory_insert_ok|lia|done|]. intros q _ Hne. by apply lookup_insert_ne.
Qed.

Lemma memory_allocate s pid :
  memory_ok s → memory_pid_ok pid → memory_next s ≤ pid →
  ∃ res s', InMemoryPageStore.allocate pid s = Done res s' ∧
    (res = Ok tt → memory_ok s' ∧ memory_next s' = pid + 1 ∧ s' !! pid = Some (fill PAGE_SIZE x00) ∧
      ∀ q, memory_pid_ok q → q ≠ pid → s' !! q = s !! q ∨
        (s !! q = None ∧ s' !! q = Some (fill PAGE_SIZE x00))).
Proof.
  intros Hs Hp Hle. exists (Ok tt), (<[pid := fill PAGE_SIZE x00]> s). split; [done|]. intros _.
  rewrite memory_insert_next, lookup_insert_eq by done.
  split_and!; [apply memory_insert_ok; try done; apply zlen_fill; page_lia|lia|done|].
  intros q _ Hne. left. by apply lookup_insert_ne.
Qed.

Lemma memory_page_below s pid d :
  memory_ok s → memory_pid_ok pid → s !! pid = Some d → pid < memory_next s ∧ zlen d = PAGE_SIZE.
Proof. intros Hs _ Hd. split; [apply memory_below; by eexists|]. by apply Hs in Hd as [? _]. Qed.

Lemma memory_sync s : memory_ok s →
  ∃ res s', InMemoryPageStore.sync s = Done res s' ∧ (res = Ok tt → memory_ok s' ∧ memory_next s' = memory_next s ∧
    ∀ q, memory_pid_ok q → s' !! q = s !! q).
Proof. intros. by exists (Ok tt), s. Qed.

#[export] Instance memory_recovery : RecoveryPageStore := {|
  rps := InMemoryPageStore.t; rps_ok := memory_ok; pid_ok := memory_pid_ok;
  page s pid := s !! pid; next := memory_next;
  read_page := InMemoryPageStore.read_page; write_page := InMemoryPageStore.write_page;
  allocate := InMemoryPageStore.allocate; sync := InMemoryPageStore.sync;
  next_page_id := InMemoryPageStore.next_page_id;
  page_below := memory_page_below; next_page_id_ok := memory_next_page_id;
  read_page_ok := memory_read; write_page_ok := memory_write;
  allocate_ok := memory_allocate; sync_ok := memory_sync |}.

End memory.

(** ** In a file *)

Section file.
Context `{Build} `{PosixFile}.
Implicit Types s : FilePageStore.t.

(** The file ends with the last allocated page. *)
Definition file_ok s : Prop :=
  valid_pid (FilePageStore.page_count s) ∧ zlen (file s) = (FilePageStore.page_count s + 1) * PAGE_SIZE.
(** Page 0 is the header. *)
Definition file_pid_ok (pid : PageId) : Prop := 1 ≤ pid ∧ valid_pid pid.
Definition file_page s (pid : PageId) : option (list byte) := page_at (file s) pid.
Definition file_next s : PageId := FilePageStore.page_count s + 1.

Lemma sub_page_all (d : list byte) : zlen d = PAGE_SIZE → sub d 0 PAGE_SIZE = d.
Proof. intros <-. apply sub_all. Qed.

(** A page-sized write inside the file. *)
Lemma zlen_write_inside p pid data :
  0 ≤ pid → (pid + 1) * PAGE_SIZE ≤ zlen p → zlen data = PAGE_SIZE →
  zlen (write_at p (pid * PAGE_SIZE) data) = zlen p.
Proof. intros Hp Hle Hz. rewrite zlen_write_at by page_lia. lia. Qed.

Lemma page_at_write_inside p pid q data :
  0 ≤ pid → 0 ≤ q → q ≠ pid → (pid + 1) * PAGE_SIZE ≤ zlen p → zlen data = PAGE_SIZE →
  page_at (write_at p (pid * PAGE_SIZE) data) q = page_at p q.
Proof.
  intros Hp Hq Hne Hle Hz. destruct (page_at p q) as [d|] eqn:E; [apply page_at_write_at_ne; page_lia || done|].
  unfold page_at in *. rewrite zlen_write_inside by done. by destruct (_ <=? _).
Qed.

Lemma file_page_below s pid d :
  file_ok s → file_pid_ok pid → file_page s pid = Some d → pid < file_next s ∧ zlen d = PAGE_SIZE.
Proof.
  intros [Hv Hz] [Hp _] E. split; [|eapply page_at_zlen; [|done]; lia].
  unfold file_page, page_at in E. destruct (Z.leb_spec ((pid + 1) * PAGE_SIZE) (zlen (file s))); [|done].
  unfold file_next. page_cases.
Qed.

Lemma file_next_page_id s : file_ok s → FilePageStore.next_page_id s = Ret (file_next s).
Proof. intros [[Hp Hv] _]. apply uadd_in_range. page_cases. Qed.

Lemma file_read s pid buf :
  file_ok s → file_pid_ok pid → zlen buf = PAGE_SIZE →
  ∃ buf' res s', FilePageStore.recovery_read_page pid buf s = Done (Ok (buf', res)) s' ∧
    file_ok s' ∧ file_next s' = file_next s ∧ (∀ q, file_page s' q = file_page s q) ∧
    match res with
    | Ok true => file_page s pid = Some buf'
    | Ok false => file_page s pid = None
    | Err _ => True
    end.
Proof.
  intros Hs [_ Hv] Hb. destruct (read_page_spec pid buf RecoveryRead s Hv Hb) as (buf' & res & s' & E & Ef & Hsf & Hr).
  exists buf', res, s'. destruct Hsf as [Hpc _]. unfold file_ok, file_next, file_page. rewrite Ef, Hpc.
  split_and!; try done; try apply Hs. by destruct res.
Qed.

Lemma file_write s pid data :
  file_ok s → file_pid_ok pid → pid < file_next s → zlen data = PAGE_SIZE →
  ∃ res s', FilePageStore.recovery_write_page pid data s = Done res s' ∧
    (res = Ok tt → file_ok s' ∧ file_next s' = file_next s ∧ file_page s' pid = Some data ∧
      ∀ q, file_pid_ok q → q ≠ pid → file_page s' q = file_page s q).
Proof.
  intros [Hpc Hz] [Hp Hv] Hlt Hd. unfold file_next in Hlt.
  destruct (write_page_spec pid data RecoveryWrite s Hv Hd) as (d & res & s' & E & Ef & _ & Hsf & Hr).
  exists res, s'. split; [done|]. intros ->. subst d. rewrite sub_page_all in Ef by done. destruct Hsf as [Hpc' _].
  assert (Hin : (pid + 1) * PAGE_SIZE ≤ zlen (file s)) by page_cases.
  unfold file_ok, file_next, file_page. rewrite Ef, Hpc', zlen_write_inside by (done || lia).
  split; [done|]. split_and!; [done|apply page_at_write_at; [lia|done]|].
  intros q [Hq _] Hne. apply page_at_write_inside; (done || lia).
Qed.

(** Rewriting the header changes no page but page 0. *)
Lemma file_header s s' :
  file s' = write_at (file s) 0 (sub (header_of s) 0 PAGE_SIZE) →
  FilePageStore.page_count s' = FilePageStore.page_count s →
  file_ok s → file_ok s' ∧ ∀ q, file_pid_ok q → file_page s' q = file_page s q.
Proof.
  intros Ef Hpc [Hv Hz]. pose proof (zlen_build_header (FilePageStore.page_count s) (FilePageStore.checkpoint_lsn s)
    (FilePageStore.user_meta_0 s) (FilePageStore.user_meta_1 s) (FilePageStore.user_meta_2 s)) as Hh.
  change (zlen (header_of s) = PAGE_SIZE) in Hh. rewrite sub_page_all in Ef by done.
  replace 0 with (0 * PAGE_SIZE) in Ef by lia. destruct Hv as [Hp Hv].
  assert (Hin : (0 + 1) * PAGE_SIZE ≤ zlen (file s)) by page_cases.
  unfold file_ok, file_page. rewrite Ef, Hpc, zlen_write_inside by (done || lia). split; [done|].
  intros q [Hq _]. apply page_at_write_inside; (done || lia).
Qed.

Lemma file_sync s : file_ok s →
  ∃ res s', FilePageStore.recovery_sync s = Done res s' ∧ (res = Ok tt → file_ok s' ∧ file_next s' = file_next s ∧
    ∀ q, file_pid_ok q → file_page s' q = file_page s q).
Proof.
  intros Hs. destruct (sync_spec RecoveryWrite s) as (d & res & s' & E & Ef & _ & [Hpc _] & Hr).
  exists res, s'. split; [done|]. intros ->. subst d. destruct (file_header s s') as [Hok Hpg]; [done..|].
  split_and!; [done|unfold file_next; by rewrite Hpc|done].
Qed.

Lemma page_at_resize p n q :
  0 ≤ q → 0 ≤ n → zlen p ≤ n * PAGE_SIZE → (∃ m, zlen p = m * PAGE_SIZE) →
  page_at (resize p (n * PAGE_SIZE)) q = page_at p q ∨
  (page_at p q = None ∧ page_at (resize p (n * PAGE_SIZE)) q = Some (fill PAGE_SIZE x00)).
Proof.
  intros Hq Hn Hle [m Hm]. unfold page_at. rewrite zlen_resize by page_cases.
  destruct (Z.leb_spec ((q + 1) * PAGE_SIZE) (zlen p)) as [Hin|Hout].
  - left. rewrite (proj2 (Z.leb_le _ _)) by lia. f_equal. apply sub_resize; page_cases.
  - destruct (Z.leb_spec ((q + 1) * PAGE_SIZE) (n * PAGE_SIZE)) as [Hin|]; [|by left]. right. split; [done|].
    f_equal. apply sub_resize_new; page_cases.
Qed.

Lemma file_allocate s pid :
  file_ok s → file_pid_ok pid → file_next s ≤ pid →
  ∃ res s', FilePageStore.allocate pid s = Done res s' ∧
    (res = Ok tt → file_ok s' ∧ file_next s' = pid + 1 ∧ file_page s' pid = Some (fill PAGE_SIZE x00) ∧
      ∀ q, file_pid_ok q → q ≠ pid → file_page s' q = file_page s q ∨
        (file_page s q = None ∧ file_page s' q = Some (fill PAGE_SIZE x00))).
Proof.
  intros [Hv Hz] [Hp Hvp] Hle. unfold file_next in Hle.
  destruct (allocate_spec pid s) as (res & s' & E & Hres); [done|lia|].
  exists res, s'. split; [done|]. intros ->. destruct Hres as [[Hpc _] Ef]. simpl in Hpc. unfold extended in Ef.
  set (p := resize (file s) ((pid + 1) * PAGE_SIZE)) in *.
  assert (Hzp : zlen p = (pid + 1) * PAGE_SIZE) by (apply zlen_resize; page_cases).
  assert (Hh : zlen (header_of (FilePageStore.set_page_count s pid)) = PAGE_SIZE) by apply zlen_build_header.
  rewrite sub_page_all in Ef by done. replace 0 with (0 * PAGE_SIZE) in Ef by lia.
  assert (Hin : (0 + 1) * PAGE_SIZE ≤ zlen p) by (rewrite Hzp; page_cases).
  assert (Hother : ∀ q, 1 ≤ q → file_page s' q = page_at p q).
  { intros q Hq. unfold file_page. rewrite Ef. apply page_at_write_inside; (done || lia). }
  split_and!.
  - unfold file_ok. rewrite Hpc. split; [done|]. rewrite Ef, zlen_write_inside; (done || lia).
  - unfold file_next. lia.
  - rewrite Hother by lia. unfold page_at. rewrite (proj2 (Z.leb_le _ _)) by lia. f_equal.
    apply sub_resize_new; page_cases.
  - intros q [Hq _] _. rewrite Hother by lia. apply page_at_resize; [lia|lia|page_cases|]. by eexists.
Qed.

#[export] Instance file_recovery : RecoveryPageStore := {|
  rps := FilePageStore.t; rps_ok := file_ok; pid_ok := file_pid_ok;
  page := file_page; next := file_next;
  read_page := FilePageStore.recovery_read_page; write_page := FilePageStore.recovery_write_page;
  allocate := FilePageStore.allocate; sync := FilePageStore.recovery_sync;
  next_page_id := FilePageStore.next_page_id;
  page_below := file_page_below; next_page_id_ok := file_next_page_id;
  read_page_ok := file_read; write_page_ok := file_write;
  allocate_ok := file_allocate; sync_ok := file_sync |}.

End file.

(** * Recovery: what a store holds afterwards

    The theorems about [recover_merged]: recovery replays the log, recovering
    again changes nothing, and the pages of a recovered file store read back
    as the log says. *)

#[local] Open Scope Z_scope.

(** C18: recovery is a replay of the log, whatever store it recovers into.
    The records are taken in LSN order, records of one LSN in the order they
    were collected. For a store that keeps the promises of the interface,
    recovery returns; and when it succeeds, every page that the replay on a
    plain map of pages determines is in the store, with those bytes. *)
Theorem recovery_replays `{Build} {RPS : RecoveryPageStore} {C} (apply_logical : Z → Z → list byte → C → io_result unit * C)
    checkpoint_lsn read_page_lsn records s c A' :
  read_page_lsn (fill PAGE_SIZE x00) ≤ checkpoint_lsn → rps_ok s → Forall record_ok records →
  replay checkpoint_lsn read_page_lsn (page s) (sort_by_lsn records) = Some A' →
  Sorted lsn_le (sort_by_lsn records) ∧ sort_by_lsn records ≡ₚ records ∧
  (∀ n, filter (λ r, record_lsn r = n) (sort_by_lsn records) = filter (λ r, record_lsn r = n) records) ∧
  ∃ res l', recover_merged apply_logical checkpoint_lsn read_page_lsn records s c = Done res l' ∧
    ∀ rep, res = Ok rep → rps_ok (store l') ∧
      ∀ q d, pid_ok q → A' q = Some d → page (store l') q = Some d.
Proof.
  intros Hz Hs Hr HA. split_and!;
    [apply sort_by_lsn_sorted|apply sort_by_lsn_perm|intros n; apply sort_by_lsn_stable|].
  destruct (recover_merged_spec apply_logical checkpoint_lsn read_page_lsn Hz records s c A' Hs Hr HA)
    as (res & l' & E & Hsh). exists res, l'. split; [done|]. intros rep ->. destruct Hsh as [Hok _ Hpg]. split; [done|].
  intros q d Hq Hd. specialize (Hpg q Hq). by rewrite Hd in Hpg.
Qed.

(** C32: recovery is idempotent. When every page record carries its own LSN
    in the page it produces, running recovery a second time on the recovered
    store (as after a crash before the log was reset) returns, and when it
    succeeds it has applied no record and left every page as it was. *)
Theorem recovery_idempotent `{Build} {RPS : RecoveryPageStore} {C} (apply_logical : Z → Z → list byte → C → io_result unit * C)
    checkpoint_lsn read_page_lsn records s c c2 A' rep l1 :
  read_page_lsn (fill PAGE_SIZE x00) ≤ checkpoint_lsn → rps_ok s → Forall record_ok records →
  Forall (stamped read_page_lsn) records →
  replay checkpoint_lsn read_page_lsn (page s) (sort_by_lsn records) = Some A' →
  recover_merged apply_logical checkpoint_lsn read_page_lsn records s c = Done (Ok rep) l1 →
  ∃ res l2, recover_merged apply_logical checkpoint_lsn read_page_lsn records (store l1) c2 = Done res l2 ∧
    ∀ rep2, res = Ok rep2 →
      RecoveryReport.records_applied rep2 = 0 ∧ ∀ q, page (store l2) q = page (store l1) q.
Proof.
  intros Hz Hs Hr Hst HA E1.
  destruct (recover_merged_spec apply_logical checkpoint_lsn read_page_lsn Hz records s c A' Hs Hr HA)
    as (res1 & l1' & E & Hsh). rewrite E in E1. injection E1 as -> ->. pose proof Hsh as [Hok _ _].
  rewrite <-sort_by_lsn_perm in Hr, Hst.
  destruct (replay_covers checkpoint_lsn read_page_lsn (sort_by_lsn records) (page s) A') as [_ Hcov]; [|done..|].
  { intros q d Hq Hd. by apply (page_below s q d). }
  unfold recover_merged. rewrite next_page_id_ok by done.
  set (l := {| store := store l1; report := _; current_next := _; page_buf := _; caller := c2 |}).
  destruct (recover_records_quiet apply_logical checkpoint_lsn read_page_lsn (sort_by_lsn records) l)
    as (res & l2 & E2 & Hq); [done|done| |].
  { pose proof (proj2 (Forall_and _ _) (conj (well_formed_prefix_Forall _ _ Hr) Hcov)) as Hboth.
    eapply Forall_impl; [exact Hboth|]. intros r [Hrok Hc].
    by apply (covered_shows checkpoint_lsn read_page_lsn A' l1). }
  unfold mbind, IO_bind. rewrite E2. destruct res as [fin|e]; [|by eexists _, _].
  destruct Hq as (_ & _ & Happ & Hsame). simpl in Happ. unfold gets. rewrite Happ, andb_false_r.
  eexists _, _. split; [done|]. intros rep2 [= <-]. done.
Qed.

(** A recovered file reads back as the log says. On any kernel that
    keeps the [PosixFile] contract, when recovery into a [FilePageStore]
    succeeds, reading any page the replay determines returns: with exactly
    the replayed bytes, or with an operating-system failure, and never with
    other bytes or as a missing page. *)
Theorem file_recovery_reads_back `{Build} `{PosixFile} {C} (apply_logical : Z → Z → list byte → C → io_result unit * C)
    checkpoint_lsn read_page_lsn records s c A' rep l' pid d buf purpose :
  read_page_lsn (fill PAGE_SIZE x00) ≤ checkpoint_lsn → file_ok s →
  Forall (record_ok (RPS := file_recovery)) records →
  replay checkpoint_lsn read_page_lsn (file_page s) (sort_by_lsn records) = Some A' →
  recover_merged (RPS := file_recovery) apply_logical checkpoint_lsn read_page_lsn records s c = Done (Ok rep) l' →
  file_pid_ok pid → A' pid = Some d → zlen buf = PAGE_SIZE →
  ∃ buf' res s', FilePageStore.read_page_for_purpose pid buf purpose (store (RPS := file_recovery) l') = Done (Ok (buf', res)) s' ∧
    match res with
    | Ok found => found = true ∧ buf' = d
    | Err e => os_failure e
    end.
Proof.
  intros Hz Hs Hr HA E Hp Hd Hb.
  destruct (recover_merged_spec (RPS := file_recovery) apply_logical checkpoint_lsn read_page_lsn
    Hz records s c A' Hs Hr HA) as (res & l1 & E1 & Hsh). rewrite E in E1. injection E1 as <- <-.
  destruct Hsh as [_ _ Hpg]. specialize (Hpg pid Hp). rewrite Hd in Hpg.
  destruct (read_page_spec pid buf purpose (store l') (proj2 Hp) Hb) as (buf' & r & s' & Er & _ & _ & Hres).
  exists buf', r, s'. split; [exact Er|]. simpl in Hpg. unfold file_page in Hpg. rewrite Hpg in Hres.
  destruct r as [[]|e]; [by injection Hres as ->|done|done].
Qed.

(** ** A log to recover *)

(** The LSN is the page's first eight bytes. *)
Definition first_lsn (p : list byte) : Z := get_le 8 p 0.
Definition image_of (lsn : Z) (b : byte) : list byte := le_bytes 8 lsn ++ fill 4088 b.

(** A newer image, an older one of the same page, an image beyond the end of
    the store, a patch and a caller-defined record, collected out of order. *)
Definition sample_log : list OwnedWalReplayRecord := [
  Logical 9 3 [x01];
  PageImage 7 1 (image_of 7 x41);
  PageImage 5 1 (image_of 5 x42);
  PageImage 6 4 (image_of 6 x43)].

Definition sample_memory : gmap PageId (list byte) := {[ 1 := image_of 4 x44 ]}.

Definition ignore_logical (lsn kind : Z) (payload : list byte) (c : Z) : io_result unit * Z := (Ok tt, c + 1).

Definition succeeds {St A} (r : exec St A) : bool :=
  match r with Done (Ok _) _ => true | _ => false end.

Lemma sample_memory_ok : memory_ok (H := debug_4k) sample_memory.
Proof. intros q d Hq. unfold sample_memory in Hq. apply lookup_singleton_Some in Hq as [<- <-]. split; [vm_compute; reflexivity|lia]. Qed.

Lemma sample_log_ok : Forall (record_ok (H := debug_4k) (RPS := memory_recovery)) sample_log.
Proof. repeat constructor; simpl; unfold memory_pid_ok; lia. Qed.

Lemma sample_log_stamped : Forall (stamped (H := debug_4k) first_lsn) sample_log.
Proof. repeat constructor; intros _; vm_compute; reflexivity. Qed.

Lemma recovery_replays_witness :
  Forall (record_ok (H := debug_4k) (RPS := memory_recovery)) sample_log ∧
  ∃ A' res l', replay (H := debug_4k) 4 first_lsn (λ q, sample_memory !! q) (sort_by_lsn sample_log) = Some A' ∧
    A' 4 = Some (image_of 6 x43) ∧
    recover_merged (H := debug_4k) (RPS := memory_recovery) ignore_logical 4 first_lsn sample_log sample_memory 0 = Done (Ok res) l' ∧
    (∀ q d, memory_pid_ok q → A' q = Some d → (store (RPS := memory_recovery) l' : InMemoryPageStore.t) !! q = Some d).
Proof.
  split; [exact sample_log_ok|].
  destruct (replay (H := debug_4k) 4 first_lsn (λ q, sample_memory !! q) (sort_by_lsn sample_log)) as [A'|] eqn:E;
    [|vm_compute in E; discriminate E].
  destruct (@recovery_replays debug_4k (@memory_recovery debug_4k) Z ignore_logical 4 first_lsn sample_log sample_memory 0 A'
    ltac:(vm_compute; discriminate) sample_memory_ok sample_log_ok E) as (_ & _ & _ & res & l' & Er & Hres).
  assert (Hok : succeeds (recover_merged (H := debug_4k) (RPS := memory_recovery) ignore_logical 4 first_lsn
    sample_log sample_memory 0) = true) by (vm_compute; reflexivity).
  rewrite Er in Hok. destruct res as [rep|e]; [|discriminate Hok].
  exists A', rep, l'. split; [reflexivity|]. split; [vm_compute in E; injection E as <-; vm_compute; reflexivity|].
  split; [exact Er|]. exact (proj2 (Hres rep eq_refl)).
Defined.

Lemma recovery_idempotent_witness :
  Forall (stamped (H := debug_4k) first_lsn) sample_log ∧
  ∃ A' res l1, replay (H := debug_4k) 4 first_lsn (λ q, sample_memory !! q) (sort_by_lsn sample_log) = Some A' ∧
    recover_merged (H := debug_4k) (RPS := memory_recovery) ignore_logical 4 first_lsn sample_log sample_memory 0 = Done (Ok res) l1 ∧
    ∃ res2 l2, recover_merged (H := debug_4k) (RPS := memory_recovery) ignore_logical 4 first_lsn sample_log
        (store (RPS := memory_recovery) l1) 0 = Done res2 l2 ∧
      ∀ rep2, res2 = Ok rep2 → RecoveryReport.records_applied rep2 = 0.
Proof.
  split; [exact sample_log_stamped|].
  destruct (replay (H := debug_4k) 4 first_lsn (λ q, sample_memory !! q) (sort_by_lsn sample_log)) as [A'|] eqn:E;
    [|vm_compute in E; discriminate E].
  assert (Hok : succeeds (recover_merged (H := debug_4k) (RPS := memory_recovery) ignore_logical 4 first_lsn
    sample_log sample_memory 0) = true) by (vm_compute; reflexivity).
  destruct (recover_merged (H := debug_4k) (RPS := memory_recovery) ignore_logical 4 first_lsn sample_log sample_memory 0)
    as [[rep|e] l1| |] eqn:Er; try discriminate Hok.
  exists A', rep, l1. split; [reflexivity|]. split; [reflexivity|].
  destruct (@recovery_idempotent debug_4k (@memory_recovery debug_4k) Z ignore_logical 4 first_lsn sample_log sample_memory 0 0 A' rep l1
    ltac:(vm_compute; discriminate) sample_memory_ok sample_log_ok sample_log_stamped E Er) as (res2 & l2 & E2 & H2).
  exists res2, l2. split; [exact E2|]. intros rep2 Hr. exact (proj1 (H2 rep2 Hr)).
Defined.

(** An empty 4 KiB-page file store on a kernel that interrupts and splits
    transfers. *)
Definition sample_disk : script_os := {|
  bytes := build_header (H := debug_4k) 0 0 0 0 0;
  script := [Transfers 0; Interrupt; Transfers 100] |}.
Definition sample_file : FilePageStore.t (H0 := scripted_file) :=
  FilePageStore.Build_t (H0 := scripted_file) sample_disk false 0 0 0 0 0 PageStoreIoCounters.default.

Lemma sample_file_ok : file_ok (H := debug_4k) sample_file.
Proof. split; [split; [reflexivity|vm_compute; reflexivity]|vm_compute; reflexivity]. Qed.

Lemma sample_log_file_ok : Forall (record_ok (H := debug_4k) (RPS := file_recovery (H0 := scripted_file))) sample_log.
Proof. repeat constructor; simpl; (lia || (vm_compute; (reflexivity || discriminate))). Qed.

Lemma file_recovery_reads_back_witness :
  ∃ A' rep l', replay (H := debug_4k) 4 first_lsn (file_page (H := debug_4k) sample_file) (sort_by_lsn sample_log) = Some A' ∧
    recover_merged (H := debug_4k) (RPS := file_recovery) ignore_logical 4 first_lsn sample_log sample_file 0 = Done (Ok rep) l' ∧
    ∃ buf' res s', FilePageStore.read_page_for_purpose (H := debug_4k) 4 (fill 4096 x00) ForegroundRead
        (store (RPS := file_recovery) l') = Done (Ok (buf', res)) s' ∧
      match res with Ok found => found = true ∧ buf' = image_of 6 x43 | Err e => os_failure e end.
Proof.
  destruct (replay (H := debug_4k) 4 first_lsn (file_page (H := debug_4k) sample_file) (sort_by_lsn sample_log)) as [A'|] eqn:E;
    [|vm_compute in E; discriminate E].
  assert (Hok : succeeds (recover_merged (H := debug_4k) (RPS := file_recovery) ignore_logical 4 first_lsn
    sample_log sample_file 0) = true) by (vm_compute; reflexivity).
  destruct (recover_merged (H := debug_4k) (RPS := file_recovery) ignore_logical 4 first_lsn sample_log sample_file 0)
    as [[rep|e] l'| |] eqn:Er; try discriminate Hok.
  exists A', rep, l'. split; [reflexivity|]. split; [reflexivity|].
  assert (HA : A' 4 = Some (image_of 6 x43)).
  { vm_compute in E. injection E as <-. vm_compute. reflexivity. }
  exact (@file_recovery_reads_back debug_4k scripted_file Z ignore_logical 4 first_lsn sample_log sample_file 0 A' rep l' 4
    (image_of 6 x43) (fill 4096 x00) ForegroundRead ltac:(vm_compute; discriminate) sample_file_ok sample_log_file_ok E Er
    ltac:(split; [lia|split; [lia|vm_compute; reflexivity]]) HA ltac:(vm_compute; reflexivity)).
Defined.
