(* ===== verification/WalReplay.v ===== *)
(** * Write-ahead log: reading a log file

    Models the read side of one log file, from
    [src/crates/wal/src/wal_impl.rs] and [src/crates/wal/src/io.rs]: opening
    ([open_wal_file]), the scan for the end of the valid batches
    ([scan_valid_records]), replay ([replay_records]) and streaming recovery
    ([WalInner::recover]).

    File offsets are those of a file the kernel keeps, below [2^63]: the
    [u64] additions on them do not wrap and are plain additions here. A
    buffer is used only after [pread_all] has filled it, so each read starts
    from a zeroed one. *)

From S2P Require Import Prelude Bytes FrameKernel Posix WalFormat WalCodec WalRecovery.
#[local] Open Scope Z_scope.

(** ** [io.rs] *)

Definition round_up_u64 `{Build} (n align : Z) : outcome Z :=
  n ← uadd 64 n align;
  n ← usub 64 n 1;
  mask ← usub 64 align 1;
  Ret (Z.land n (unot 64 mask)).

Section io.
Context `{Build} `{PosixFile}.

Definition pread_all (buf : list byte) (offset : Z) : IO os (list byte * io_result unit) :=
  fuel ← gets (λ f, S (patience f + length buf));
  r ← (pread_loop fuel offset buf 0 : IO os _);
  let '(buf, res, _) := r in
  mret (buf, res).

Definition pwrite_all (data : list byte) (offset : Z) : IO os unit :=
  fuel ← gets (λ f, S (patience f + length data));
  r ← (pwrite_loop fuel offset data 0 : IO os _);
  ret_result r.1.

Definition fstat_size : IO os Z := λ f,
  match fstat f with
  | (inl n, f) => Done (Ok n) f
  | (inr e, f) => Done (Err (error_kind e)) f
  end.

Definition extend_file (new_size : Z) : IO os unit := λ f,
  match ftruncate f (swrap 64 new_size) with
  | (None, f) => Done (Ok tt) f
  | (Some e, f) => Done (Err (error_kind e)) f
  end.

Definition fdatasync_file : IO os unit := λ f,
  match fsync f with
  | (None, f) => Done (Ok tt) f
  | (Some e, f) => Done (Err (error_kind e)) f
  end.

End io.

(** ** Entries that complete a record *)

Definition has_flag (flags flag : Z) : bool := Z.land flags flag =? flag.

Definition completes_record (entry : BatchEntry.t) : bool :=
  (BatchEntry.kind entry =? RECORD_KIND_PAGE_IMAGE)
  || (BatchEntry.kind entry =? RECORD_KIND_LOGICAL_PACKED)
  || has_flag (BatchEntry.flags entry) LOGICAL_FLAG_LAST.

(** ** The scan for the end of the log *)

Section scan.
Context `{Build} `{Crc32} `{PosixFile}.

(** The loop over the entries of a batch, from [idx] with [n] to go: whether
    the batch is valid, and the largest LSN so far. *)
Fixpoint scan_batch (n : nat) (meta_buf : list byte) (batch_offset idx max_lsn : Z) : IO os (bool * Z) :=
  match n with
  | O => mret (true, max_lsn)
  | S n =>
      let page_offset := batch_offset + WAL_RECORD_SIZE * (idx + 1) in
      r ← pread_all (fill WAL_RECORD_SIZE x00) page_offset;
      match r.2 with
      | Err _ => mret (false, max_lsn)
      | Ok _ =>
          entry ← lift (read_batch_entry meta_buf idx);
          match validate_entry_data entry r.1 with
          | None => mret (false, max_lsn)
          | Some _ =>
              let max_lsn := if completes_record entry then Z.max max_lsn (BatchEntry.lsn entry) else max_lsn in
              scan_batch n meta_buf batch_offset (idx + 1) max_lsn
          end
      end
  end.

(** The loop over the batches. *)
Fixpoint scan_loop (fuel : nat) (file_end batch_offset max_lsn valid_data_bytes : Z) : IO os (Z * Z) :=
  match fuel with
  | O => λ _, OutOfFuel
  | S fuel =>
      if batch_offset + WAL_RECORD_SIZE <=? file_end then
        r ← pread_all (fill WAL_RECORD_SIZE x00) batch_offset;
        match r.2 with
        | Err _ => mret (max_lsn, valid_data_bytes)
        | Ok _ =>
            match batch_meta_count r.1 with
            | None => mret (max_lsn, valid_data_bytes)
            | Some count =>
                let batch_len := WAL_RECORD_SIZE * (count + 1) in
                if file_end <? batch_offset + batch_len then mret (max_lsn, valid_data_bytes)
                else
                  b ← scan_batch (Z.to_nat count) r.1 batch_offset 0 max_lsn;
                  let '(batch_valid, max_lsn) := b in
                  if negb batch_valid then mret (max_lsn, valid_data_bytes)
                  else
                    scan_loop fuel file_end (batch_offset + batch_len) max_lsn
                      (batch_offset + batch_len - WAL_HEADER_SIZE)
            end
        end
      else mret (max_lsn, valid_data_bytes)
  end.

(** The largest LSN and the bytes of valid batches. A batch has at least one
    page, which bounds the turns. *)
Definition scan_valid_records (data_size : Z) : IO os (Z * Z) :=
  scan_loop (S (Z.to_nat (data_size / WAL_RECORD_SIZE))) (WAL_HEADER_SIZE + data_size) WAL_HEADER_SIZE 0 0.

(** ** Opening *)

Record OpenWalFile := { direct_io : bool; file_offset : Z; allocated_size : Z; max_lsn : Z }.

Definition SEGMENT_SIZE : Z := 64 * 1024 * 1024.

(** [open_wal_file] once the descriptor is open; closing it on an error is
    left out. [pre_extend_needs_fsync] is the backend's answer. *)
Definition open_wal_file (direct pre_extend_needs_fsync : bool) : IO os OpenWalFile :=
  file_size ← fstat_size;
  if file_size <? WAL_HEADER_SIZE then
    _ ← pwrite_all (build_wal_header direct) 0;
    _ ← extend_file SEGMENT_SIZE;
    _ ← (if pre_extend_needs_fsync then fdatasync_file else mret tt);
    mret {| direct_io := direct; file_offset := WAL_HEADER_SIZE; allocated_size := SEGMENT_SIZE; max_lsn := 0 |}
  else
    r ← pread_all (fill WAL_HEADER_SIZE x00) 0;
    _ ← ret_result r.2;
    _ ← ret_result (validate_wal_header r.1);
    let data_size := file_size - WAL_HEADER_SIZE in
    s ← scan_valid_records data_size;
    let '(max_lsn, data_valid_end) := s in
    let valid_end := WAL_HEADER_SIZE + data_valid_end in
    _ ← (if valid_end <? file_size then extend_file valid_end else mret tt);
    target ← lift (round_up_u64 valid_end SEGMENT_SIZE);
    let target := Z.max target SEGMENT_SIZE in
    _ ← (if valid_end <? target then
           _ ← extend_file target;
           if pre_extend_needs_fsync then fdatasync_file else mret tt
         else mret tt);
    mret {| direct_io := direct; file_offset := valid_end; allocated_size := target; max_lsn := max_lsn |}.

End scan.

(** ** Walking the entries of a log *)

(** [replay_records] and [recover] share this loop: they differ in what they
    do with an entry. [false] from [handle] is the early [return Ok]. *)
Section walk.
Context `{Build} `{Crc32} `{PosixFile}.
Context {St : Type} (get_fd : St → os) (put_fd : St → os → St).
Context (handle : BatchEntry.t → list byte → IO St bool).

Definition on_fd {A} (m : IO os A) : IO St A := zoom get_fd put_fd m.

Fixpoint walk_batch (n : nat) (meta_buf : list byte) (batch_offset idx : Z) : IO St bool :=
  match n with
  | O => mret true
  | S n =>
      let offset := batch_offset + WAL_RECORD_SIZE * (idx + 1) in
      r ← on_fd (pread_all (fill WAL_RECORD_SIZE x00) offset);
      _ ← ret_result r.2;
      entry ← lift (read_batch_entry meta_buf idx);
      match validate_entry_data entry r.1 with
      | None => mret false
      | Some payload =>
          go ← handle entry payload;
          if go : bool then walk_batch n meta_buf batch_offset (idx + 1) else mret false
      end
  end.

Fixpoint walk (fuel : nat) (end_ batch_offset : Z) : IO St bool :=
  match fuel with
  | O => λ _, OutOfFuel
  | S fuel =>
      if batch_offset + WAL_RECORD_SIZE <=? end_ then
        r ← on_fd (pread_all (fill WAL_RECORD_SIZE x00) batch_offset);
        _ ← ret_result r.2;
        match batch_meta_count r.1 with
        | None => mret true
        | Some count =>
            let batch_len := WAL_RECORD_SIZE * (count + 1) in
            if end_ <? batch_offset + batch_len then mret true
            else
              go ← walk_batch (Z.to_nat count) r.1 batch_offset 0;
              if go : bool then walk fuel end_ (batch_offset + batch_len) else mret false
        end
      else mret true
  end.

Definition walk_log (end_ : Z) : IO St bool :=
  walk (S (Z.to_nat (end_ / WAL_RECORD_SIZE))) end_ WAL_HEADER_SIZE.

End walk.

(** ** Reassembly of chunked records *)

(** The record under assembly. *)
Record chunks := { logical_lsn : Z; logical_kind : Z; logical_payload : list byte }.
Definition no_chunks : chunks := {| logical_lsn := 0; logical_kind := 0; logical_payload := [] |}.

Definition is_empty_payload (c : chunks) : bool := zlen (logical_payload c) =? 0.
(** [if !logical_payload.is_empty() { ... }]: a record without its end. *)
Definition drop_partial (c : chunks) : chunks := if is_empty_payload c then c else no_chunks.

(** A chunk; [None] when it continues no record. *)
Definition add_chunk (c : chunks) (entry : BatchEntry.t) (payload : list byte) : option chunks :=
  let first := has_flag (BatchEntry.flags entry) LOGICAL_FLAG_FIRST in
  c ← (if first then
         Some {| logical_lsn := BatchEntry.lsn entry; logical_kind := BatchEntry.arg entry; logical_payload := [] |}
       else if is_empty_payload c || negb (BatchEntry.lsn entry =? logical_lsn c)
               || negb (BatchEntry.arg entry =? logical_kind c) then None
       else Some c);
  Some {| logical_lsn := logical_lsn c; logical_kind := logical_kind c;
          logical_payload := logical_payload c ++ payload |}.

(** ** Replay *)

Section replay.
Context `{Build} `{Crc32}.

(** The body of the [match] in [replay_records]: the records handed to the
    callback and the state of reassembly, or [None] when replay returns. *)
Definition replay_entry (c : chunks) (entry : BatchEntry.t) (payload : list byte)
    : list OwnedWalReplayRecord * option chunks :=
  if BatchEntry.kind entry =? RECORD_KIND_PAGE_IMAGE then
    ([PageImage (BatchEntry.lsn entry) (BatchEntry.arg entry) payload], Some (drop_partial c))
  else if BatchEntry.kind entry =? RECORD_KIND_LOGICAL then
    let last := has_flag (BatchEntry.flags entry) LOGICAL_FLAG_LAST in
    match add_chunk c entry payload with
    | None => ([], None)
    | Some c =>
        if last then
          if logical_kind c =? LOGICAL_KIND_PAGE_IMAGE_BYTES then
            match decode_page_image_bytes_payload (logical_payload c) with
            | None => ([], None)
            | Some (page_id, page) => ([PageImage (logical_lsn c) page_id page], Some no_chunks)
            end
          else ([Logical (logical_lsn c) (logical_kind c) (logical_payload c)], Some no_chunks)
        else ([], Some c)
    end
  else if BatchEntry.kind entry =? RECORD_KIND_LOGICAL_PACKED then
    let '(rs, ok) := for_each_packed_logical_record payload in
    (map (λ '(lsn, kind, payload), Logical lsn kind payload) rs,
     if ok : bool then Some (drop_partial c) else None)
  else ([], None).

Context `{PosixFile}.

Record replaying := { replay_fd : os; reassembly : chunks; delivered : list OwnedWalReplayRecord }.

Definition replay_handle (entry : BatchEntry.t) (payload : list byte) : IO replaying bool :=
  st ← gets (λ st, st);
  let '(rs, c) := replay_entry (reassembly st) entry payload in
  _ ← modify (λ st, {| replay_fd := replay_fd st; reassembly := default no_chunks c;
                       delivered := delivered st ++ rs |});
  mret (bool_decide (is_Some c)).

Definition put_replay_fd (st : replaying) (f : os) : replaying :=
  {| replay_fd := f; reassembly := reassembly st; delivered := delivered st |}.

(** [replay_records] up to [end_], the [file_offset] of the shard's state:
    what the callback was given is in [delivered], also when it fails. *)
Definition replay_records (end_ : Z) (f : os) : exec replaying unit :=
  (_ ← walk_log replay_fd put_replay_fd replay_handle end_; mret tt)
  {| replay_fd := f; reassembly := no_chunks; delivered := [] |}.

End replay.

(** ** Streaming recovery *)

Section recover.
Context `{Build} `{Crc32} `{PosixFile} {RPS : RecoveryPageStore}.
Context {C : Type} (apply_logical : Z → Z → list byte → C → io_result unit * C).
Context (checkpoint_lsn : Z) (read_page_lsn : list byte → Z).

Notation loop := (@loop _ RPS C).

Record recovering := { log_fd : os; partial : chunks; progress : loop }.

Definition put_log_fd (st : recovering) (f : os) : recovering :=
  {| log_fd := f; partial := partial st; progress := progress st |}.
Definition put_progress (st : recovering) (l : loop) : recovering :=
  {| log_fd := log_fd st; partial := partial st; progress := l |}.
Definition set_partial (f : chunks → chunks) (st : recovering) : recovering :=
  {| log_fd := log_fd st; partial := f (partial st); progress := progress st |}.
Definition on_progress {A} (m : IO loop A) : IO recovering A := zoom progress put_progress m.

(** [records_scanned += 1], and [max_lsn] when the entry completes a record. *)
Definition count_entry (entry : BatchEntry.t) (r : RecoveryReport.t) : RecoveryReport.t := {|
  RecoveryReport.records_scanned := RecoveryReport.records_scanned r + 1;
  RecoveryReport.records_applied := RecoveryReport.records_applied r;
  RecoveryReport.logical_records_delivered := RecoveryReport.logical_records_delivered r;
  RecoveryReport.skipped_checkpoint := RecoveryReport.skipped_checkpoint r;
  RecoveryReport.skipped_page_lsn := RecoveryReport.skipped_page_lsn r;
  RecoveryReport.max_lsn :=
    if completes_record entry then Z.max (RecoveryReport.max_lsn r) (BatchEntry.lsn entry)
    else RecoveryReport.max_lsn r |}.

(** The loop over the records of a packed page. *)
Fixpoint recover_packed (rs : list (Z * Z * list byte)) : IO recovering bool :=
  match rs with
  | [] => mret true
  | (lsn, kind, payload) :: rs =>
      go ← on_progress (recover_logical_payload apply_logical checkpoint_lsn read_page_lsn lsn kind payload);
      if go : bool then recover_packed rs else mret false
  end.

Definition recover_entry (entry : BatchEntry.t) (payload : list byte) : IO recovering bool :=
  _ ← on_progress (modify (set_report (count_entry entry)));
  if BatchEntry.kind entry =? RECORD_KIND_PAGE_IMAGE then
    _ ← modify (set_partial drop_partial);
    _ ← on_progress (recover_page_image checkpoint_lsn read_page_lsn (BatchEntry.lsn entry) (BatchEntry.arg entry) payload);
    mret true
  else if BatchEntry.kind entry =? RECORD_KIND_LOGICAL then
    let last := has_flag (BatchEntry.flags entry) LOGICAL_FLAG_LAST in
    c ← gets partial;
    match add_chunk c entry payload with
    | None => mret false
    | Some c =>
        _ ← modify (set_partial (λ _, c));
        if last then
          go ← on_progress (recover_logical_payload apply_logical checkpoint_lsn read_page_lsn
                 (logical_lsn c) (logical_kind c) (logical_payload c));
          if go : bool then
            _ ← modify (set_partial (λ _, no_chunks));
            mret true
          else mret false
        else mret true
    end
  else if BatchEntry.kind entry =? RECORD_KIND_LOGICAL_PACKED then
    _ ← modify (set_partial drop_partial);
    let '(rs, ok) := for_each_packed_logical_record payload in
    if ok : bool then recover_packed rs else mret false
  else mret false.

(** [WalInner::recover] up to [end_], the [file_offset] of the shard's state. *)
Definition recover (end_ : Z) (f : os) (s : rps) (c : C) : exec recovering RecoveryReport.t :=
  match next_page_id s with
  | Panic => Panicked
  | Ret n =>
      (finished ← walk_log log_fd put_log_fd recover_entry end_;
       rep ← gets (λ st, report (progress st));
       _ ← (if finished && (0 <? RecoveryReport.records_applied rep) then on_progress (on_store sync) else mret tt);
       gets (λ st, report (progress st)))
      {| log_fd := f; partial := no_chunks;
         progress := {| store := s; report := RecoveryReport.default; current_next := n; page_buf := []; caller := c |} |}
  end.

End recover.

(** ** All shards *)

(** [collect_records] on the shards' files, each with its [file_offset]: the
    records in shard order, and the first error. *)
Fixpoint collect_records `{Build} `{Crc32} `{PosixFile} (shards : list (Z * os))
    : exec (list OwnedWalReplayRecord) unit :=
  match shards with
  | [] => Done (Ok tt) []
  | (end_, f) :: shards =>
      match replay_records end_ f with
      | Done (Ok _) st =>
          match collect_records shards with
          | Done res rs => Done res (delivered st ++ rs)
          | Panicked => Panicked
          | OutOfFuel => OutOfFuel
          end
      | Done (Err e) st => Done (Err e) (delivered st)
      | Panicked => Panicked
      | OutOfFuel => OutOfFuel
      end
  end.
