(* ===== verification/WalReplaySpec.v ===== *)
(** * Write-ahead log: the layout of a log file and what the reader does on it

    A log is a sequence of batches: a meta page and the data pages it
    announces. The lemmas here relate the read loops of [WalReplay], over any
    kernel, to that layout. *)

From S2P Require Import Prelude Bytes FrameKernel Posix PageStoreInv WalFormat WalBatch WalCodec WalCodecSpec WalRecovery WalReplay.
#[local] Open Scope Z_scope.

(** ** Bytes at an offset *)

Definition bytes_at (p : list byte) (off : Z) (x : list byte) : Prop := sub p off (zlen x) = x ∧ off + zlen x ≤ zlen p.

Lemma bytes_at_app p off a b :
  0 ≤ off → bytes_at p off (a ++ b) → bytes_at p off a ∧ bytes_at p (off + zlen a) b.
Proof.
  intros Ho [Hs Hle]. rewrite zlen_app in *. pose proof (zlen_nonneg a). pose proof (zlen_nonneg b).
  rewrite sub_split in Hs by lia. apply app_inj_1 in Hs as [Ha Hb].
  - split; split; [done|lia|done|lia].
  - apply Nat2Z.inj. change (zlen (sub p off (zlen a)) = zlen a). rewrite zlen_sub; lia.
Qed.

Lemma bytes_at_here a x b : bytes_at (a ++ x ++ b) (zlen a) x.
Proof.
  pose proof (zlen_nonneg a). pose proof (zlen_nonneg x). pose proof (zlen_nonneg b).
  split; [|rewrite !zlen_app; lia]. apply list_eq. intros i. destruct (decide (i < length x)%nat).
  - rewrite lookup_sub by (unfold zlen; lia). unfold zlen.
    rewrite lookup_app_r by lia. rewrite lookup_app_l by lia. f_equal. lia.
  - rewrite lookup_sub_ge by (unfold zlen; lia). symmetry. apply lookup_ge_None_2. lia.
Qed.

(** ** Reads *)

Section reads.
Context `{Build} `{PosixFile}.

(** From [f] on, no read fails for another reason than an interruption. *)
Definition reads_reliably (f : os) : Prop :=
  ∃ good : os → Prop, good f ∧
    ∀ f n off r f', good f → 0 ≤ n → 0 ≤ off → pread f n off = (r, f') → good f' ∧ ∀ e, r = inr e → e = EINTR.

Lemma pread_loop_reliable (good : os → Prop) fuel offset buf dn f buf' res d f' :
  (∀ f n off r f', good f → 0 ≤ n → 0 ≤ off → pread f n off = (r, f') → good f' ∧ ∀ e, r = inr e → e = EINTR) →
  good f → 0 ≤ offset → offset + zlen buf < 2 ^ 63 → 0 ≤ dn ≤ zlen buf → pread_loop fuel offset buf dn f = Done (Ok (buf', res, d)) f' →
  good f' ∧ ∀ c, res ≠ Err (OsError c).
Proof.
  intros Hg Hf Ho. revert buf dn f Hf. induction fuel as [|fuel IH]; intros buf dn f Hf Hlim Hd E; [done|].
  cbn [pread_loop] in E. destruct (Z.ltb_spec dn (zlen buf)); [|by injection E as <- <- <- <-].
  rewrite sarith_in_range in E by lia. destruct (pread f _ _) as [[bs|e] g] eqn:Ep.
  - destruct (Hg f (zlen buf - dn) (offset + dn) _ _ Hf ltac:(lia) ltac:(lia) Ep) as [Hgg _]. apply pread_ok in Ep as (_ & _ & _ & Hlen & _); [|lia].
    destruct bs as [|x bs]; [by injection E as <- <- <- <-|]. pose proof (zlen_nonneg (x :: bs)).
    eapply IH; [exact Hgg| | |exact E]; rewrite zlen_upd; lia.
  - destruct (Hg f (zlen buf - dn) (offset + dn) _ _ Hf ltac:(lia) ltac:(lia) Ep) as [Hgg He]. specialize (He e eq_refl) as ->. by eapply IH.
Qed.

Lemma pread_all_spec n off f :
  0 ≤ n → 0 ≤ off → off + n ≤ zlen (contents f) → zlen (contents f) < 2 ^ 63 →
  ∃ buf res f', pread_all (fill n x00) off f = Done (Ok (buf, res)) f' ∧ contents f' = contents f ∧
    (reads_reliably f → reads_reliably f' ∧ res = Ok tt) ∧
    match res with Ok _ => buf = sub (contents f) off n | Err e => ∃ c, e = OsError c end.
Proof.
  intros Hn Ho Hle Hlim. pose proof (zlen_fill n x00 Hn) as Hz.
  destruct (pread_loop_returns (S (patience f + length (fill n x00))) off (fill n x00) 0 f) as ([[buf res] d] & f' & E);
    [done|lia|lia|unfold zlen in *; lia|].
  pose proof E as E'. apply pread_loop_spec in E' as (Ec & d' & res' & Hd & Hz' & Ex & Hs); [|done|lia|lia].
  rewrite Z.add_0_r, Z.sub_0_r in *. injection Ex as -> <- ->. rewrite Hz in *.
  exists (upd (fill n x00) 0 (sub (contents f) off d')), res, f'. split_and!; [|done| |].
  - unfold pread_all. erewrite IO_bind_Ok by done. by erewrite IO_bind_Ok by done.
  - intros (good & Hgf & Hg). destruct (pread_loop_reliable good _ off (fill n x00) 0 _ _ _ _ _ Hg Hgf Ho ltac:(rewrite zlen_fill; lia) ltac:(rewrite zlen_fill; lia) E) as [Hg' Hno].
    split; [by exists good|]. destruct res as [[]|e]; [done|]. exfalso.
    destruct e; simpl in Hs; try done; [lia|by apply (Hno code)].
  - destruct res as [[]|e]; simpl in Hs.
    + subst d'. apply list_eq. intros i. rewrite lookup_upd by lia. rewrite Hz', Nat.sub_0_r. case_decide; [done|].
      rewrite lookup_sub_ge by lia. apply lookup_ge_None_2. unfold zlen in Hz. lia.
    + destruct e; try done; [lia|eauto].
Qed.

End reads.

(** ** Batches *)

Record batch := { meta : list byte; data : list (list byte) }.
Definition batch_bytes (b : batch) : list byte := meta b ++ concat (data b).
Definition log_bytes (bs : list batch) : list byte := concat (map batch_bytes bs).

Section batches.
Context `{Build} `{Crc32}.

Notation entries := (list (BatchEntry.t * list byte)).

(** The entries of data pages with their payloads, if all are valid. *)
Fixpoint checked_entries (meta : list byte) (idx : Z) (pages : list (list byte)) : option entries :=
  match pages with
  | [] => Some []
  | page :: pages =>
      payload ← validate_entry_data (entry_at meta idx) page;
      es ← checked_entries meta (idx + 1) pages;
      Some ((entry_at meta idx, payload) :: es)
  end.

Definition page_sized (pages : list (list byte)) : Prop := Forall (λ d, zlen d = PAGE_SIZE) pages.

Record good_batch (b : batch) (es : entries) : Prop := {
  good_count : batch_meta_count (meta b) = Some (zlen (data b));
  good_sized : page_sized (data b);
  good_entries : checked_entries (meta b) 0 (data b) = Some es;
}.

Lemma zlen_concat pages : page_sized pages → zlen (concat pages) = zlen pages * PAGE_SIZE.
Proof.
  induction 1 as [|d pages Hd _ IH]; [done|]. simpl. rewrite zlen_app, zlen_cons, IH, Hd. lia.
Qed.

Lemma good_batch_bounds b es :
  good_batch b es → zlen (meta b) = PAGE_SIZE ∧ 1 ≤ zlen (data b) ≤ BATCH_MAX_RECORDS ∧
  zlen (batch_bytes b) = PAGE_SIZE * (zlen (data b) + 1).
Proof.
  intros [Hc Hs _]. destruct (batch_meta_count_inv _ _ Hc) as (Hz & _ & _ & _ & Hcount & _). split_and!; [done|lia|lia|].
  unfold batch_bytes. rewrite zlen_app, zlen_concat, Hz by done. lia.
Qed.

End batches.

Lemma page_read (p : list byte) `{Build} off d : bytes_at p off d → zlen d = PAGE_SIZE → sub p off PAGE_SIZE = d.
Proof. intros [Hs _] Hz. by rewrite Hz in Hs. Qed.

(** ** The walk *)

(** [I done st] holds after the entries [done]; [Stop st] when the handler
    returned early. *)
Section walk.
Context `{Build} `{Crc32} `{PosixFile}.
Context {St : Type} (get_fd : St → os) (put_fd : St → os → St).
Context (handle : BatchEntry.t → list byte → IO St bool) (E : ErrorKind → Prop).
Context (I : list (BatchEntry.t * list byte) → St → Prop) (Stop : St → Prop) (p : list byte).
Context (es_all : list (BatchEntry.t * list byte)).
(** A file that reads reliably does so throughout; otherwise the walk may end
    with the error of a read. *)
Context (reliable : bool) (E_os : reliable = false → ∀ c, E (OsError c)) (p_limit : zlen p < 2 ^ 63).
Context (I_contents : ∀ es st, I es st → contents (get_fd st) = p ∧ (reliable = true → reads_reliably (get_fd st))).
Context (I_put : ∀ es st f, I es st → contents f = p → (reliable = true → reads_reliably f) → I es (put_fd st f)).
Context (handle_ok : ∀ es e payload rest st, es_all = es ++ (e, payload) :: rest → I es st →
  returns_or E (handle e payload) st (λ go st', if go : bool then I (es ++ [(e, payload)]) st' else Stop st')).

Lemma walk_read es st off :
  I es st → 0 ≤ off → off + PAGE_SIZE ≤ zlen p →
  returns_or E (r ← on_fd get_fd put_fd (pread_all (fill WAL_RECORD_SIZE x00) off); _ ← ret_result r.2; mret r.1) st
    (λ page st', page = sub p off PAGE_SIZE ∧ I es st').
Proof.
  intros HI Ho Hle. pose proof (I_contents _ _ HI) as [Hp Hrel].
  destruct (pread_all_spec WAL_RECORD_SIZE off (get_fd st)) as (buf & res & f' & Er & Hc & Hrel' & Hres);
    [unfold WAL_RECORD_SIZE; page_lia|done|by rewrite Hp|by rewrite Hp|].
  assert (Ez : on_fd get_fd put_fd (pread_all (fill WAL_RECORD_SIZE x00) off) st = Done (Ok (buf, res)) (put_fd st f')).
  { unfold on_fd, zoom. by rewrite Er. }
  apply returns_bind. exists (Ok (buf, res)), (put_fd st f'). split; [done|]. destruct res as [[]|e].
  - exists (Ok buf), (put_fd st f'). split; [done|]. rewrite Hp in Hres, Hc. split; [done|].
    apply I_put; [done|done|]. intros Hr. by apply Hrel', Hrel.
  - exists (Err e), (put_fd st f'). split; [done|]. destruct Hres as [c ->]. simpl.
    destruct reliable; [|by apply E_os]. destruct (Hrel' (Hrel eq_refl)) as [_ [=]].
Qed.

(** The rest of the method sees the page read. *)
Lemma walk_read_bind {A} es st off (k : list byte * io_result unit → IO St A) Q :
  I es st → 0 ≤ off → off + PAGE_SIZE ≤ zlen p →
  (∀ st', I es st' → returns_or E (k (sub p off PAGE_SIZE, Ok tt)) st' Q) →
  returns_or E (r ← on_fd get_fd put_fd (pread_all (fill WAL_RECORD_SIZE x00) off); _ ← ret_result r.2; k r) st Q.
Proof.
  intros HI Ho Hle Hk. pose proof (walk_read es st off HI Ho Hle) as (r & st' & Er & Hr).
  unfold mbind at 1, IO_bind at 1 in Er.
  destruct (on_fd get_fd put_fd (pread_all (fill WAL_RECORD_SIZE x00) off) st) as [[[buf res]|e] st1| |] eqn:Ez; try done.
  - apply returns_bind. exists (Ok (buf, res)), st1. split; [done|]. destruct res as [[]|e].
    + injection Er as <- <-. destruct Hr as [Hb HI']. simpl in Hb. subst buf.
      apply returns_bind. exists (Ok tt), st1. split; [done|]. by apply Hk.
    + injection Er as <- <-. apply returns_bind. by exists (Err e), st1.
  - injection Er as <- <-. apply returns_bind. by exists (Err e), st1.
Qed.

Lemma walk_batch_spec m off pages idx es es' rest st :
  zlen m = PAGE_SIZE → page_sized pages → 0 ≤ idx → idx + zlen pages ≤ BATCH_MAX_RECORDS → 0 ≤ off →
  bytes_at p (off + PAGE_SIZE * (idx + 1)) (concat pages) →
  checked_entries m idx pages = Some es' → es_all = es ++ es' ++ rest → I es st →
  returns_or E (walk_batch get_fd put_fd handle (length pages) m off idx) st
    (λ go st', if go : bool then I (es ++ es') st' else Stop st').
Proof.
  intros Hm Hsz. revert idx es es' st. induction Hsz as [|pg pages Hpg Hsz IH]; intros idx es es' st Hi Hmax Ho Hat Hes Hall HI.
  { injection Hes as <-. apply returns_ret. by rewrite app_nil_r. }
  rewrite zlen_cons in Hmax. pose proof (zlen_nonneg pages). simpl in Hes, Hat.
  destruct (validate_entry_data (entry_at m idx) pg) as [payload|] eqn:Ev; [simpl in Hes|done].
  destruct (checked_entries m (idx + 1) pages) as [es2|] eqn:E2; [injection Hes as <-|done].
  apply bytes_at_app in Hat as [Hat1 Hat2]; [|page_cases]. rewrite Hpg in Hat2.
  pose proof (page_read _ _ _ Hat1 Hpg) as Hread. destruct Hat1 as [_ Hle]. rewrite Hpg in Hle.
  cbn [walk_batch length]. apply (walk_read_bind es); [done|unfold WAL_RECORD_SIZE; page_cases|done|]. intros st1 HI1. cbn [fst].
  apply returns_bind. eapply returns_lift; [apply read_batch_entry_ok; [done|lia]|].
  unfold WAL_RECORD_SIZE. rewrite Hread, Ev. apply returns_bind.
  eapply returns_mono; [apply (handle_ok es _ _ (es2 ++ rest)); [by rewrite Hall|done]|].
  intros go st2 HI2. destruct go; [|by apply returns_ret].
  eapply returns_mono; [apply (IH (idx + 1) (es ++ [(entry_at m idx, payload)]) es2)|]; [lia|lia|done| |done| |done|].
  - replace (off + PAGE_SIZE * (idx + 1 + 1)) with (off + PAGE_SIZE * (idx + 1) + PAGE_SIZE) by lia. done.
  - rewrite Hall, <-app_assoc. done.
  - intros go st3. by rewrite <-app_assoc.
Qed.

Lemma walk_spec bs ess fuel end_ off es st :
  Forall2 good_batch bs ess → 0 ≤ off → bytes_at p off (log_bytes bs) → end_ = off + zlen (log_bytes bs) →
  (length bs < fuel)%nat → es_all = es ++ concat ess → I es st →
  returns_or E (walk get_fd put_fd handle fuel end_ off) st
    (λ go st', if go : bool then I es_all st' else Stop st').
Proof.
  intros Hbs. revert fuel off es st. induction Hbs as [|b es1 bs ess Hb Hbs IH]; intros fuel off es st Ho Hat Hend Hf Hall HI.
  all: destruct fuel as [|fuel]; [simpl in Hf; lia|]; cbn [walk].
  { unfold log_bytes in Hend. simpl in Hend. rewrite zlen_nil in Hend. unfold WAL_RECORD_SIZE.
    rewrite (proj2 (Z.leb_gt _ _)) by page_lia. apply returns_ret. simpl in Hall. by rewrite Hall, app_nil_r. }
  change (log_bytes (b :: bs)) with (batch_bytes b ++ log_bytes bs) in *. rewrite zlen_app in Hend.
  destruct (good_batch_bounds _ _ Hb) as (Hm & Hcount & Hlen). pose proof (zlen_nonneg (log_bytes bs)).
  apply bytes_at_app in Hat as [Hat1 Hat2]; [|done]. unfold batch_bytes in Hat1.
  apply bytes_at_app in Hat1 as [Hatm Hatd]; [|done]. rewrite Hm in Hatd.
  pose proof (page_read _ _ _ Hatm Hm) as Hread. destruct Hatm as [_ Hle]. rewrite Hm in Hle.
  unfold WAL_RECORD_SIZE in *. rewrite (proj2 (Z.leb_le _ _)) by page_cases.
  apply (walk_read_bind es); [done|lia|done|]. intros st1 HI1. cbn [fst]. rewrite Hread, (good_count _ _ Hb).
  rewrite (proj2 (Z.ltb_ge _ _)) by page_cases. apply returns_bind.
  replace (Z.to_nat (zlen (data b))) with (length (data b)) by (unfold zlen; lia). simpl in Hall.
  eapply returns_mono; [apply (walk_batch_spec _ off (data b) 0 es es1 (concat ess))|];
    [done|apply Hb|lia|lia|done|by rewrite Z.add_0_l, Z.mul_1_r|apply Hb|by rewrite Hall|done|].
  intros go st2 HI2. destruct go; [|by apply returns_ret].
  apply (IH fuel _ (es ++ es1)); [page_cases|by rewrite <-Hlen|lia|simpl in Hf; lia|by rewrite Hall, app_assoc|done].
Qed.

Lemma log_bytes_long bs ess : Forall2 good_batch bs ess → Z.of_nat (length bs) * PAGE_SIZE ≤ zlen (log_bytes bs).
Proof.
  induction 1 as [|b es1 bs ess Hb Hbs IH]; [rewrite Z.mul_0_l; apply zlen_nonneg|]. change (log_bytes (b :: bs)) with (batch_bytes b ++ log_bytes bs).
  destruct (good_batch_bounds _ _ Hb) as (_ & Hcount & Hlen). rewrite zlen_app, Hlen. simpl length. page_cases.
Qed.

Lemma walk_log_spec bs ess end_ st :
  Forall2 good_batch bs ess → bytes_at p WAL_HEADER_SIZE (log_bytes bs) →
  end_ = WAL_HEADER_SIZE + zlen (log_bytes bs) → es_all = concat ess → I [] st →
  returns_or E (walk_log get_fd put_fd handle end_) st
    (λ go st', if go : bool then I es_all st' else Stop st').
Proof.
  intros Hbs Hat Hend Hall HI. unfold walk_log. pose proof (log_bytes_long bs ess Hbs) as Hl.
  apply (walk_spec bs ess _ _ _ []); [done| |done|done| |done|done]; unfold WAL_HEADER_SIZE, WAL_RECORD_SIZE in *; [page_lia|].
  assert (Z.of_nat (length bs) ≤ end_ / PAGE_SIZE); [|lia]. apply Z.div_le_lower_bound; page_lia.
Qed.

End walk.

(** * Write-ahead log: what replay delivers

    Replay of a log file is a fold over the entries of its batches; what the
    appenders put into a buffer comes back as the records they were given. *)

#[local] Open Scope Z_scope.

Section replay.
Context `{Build} `{Crc32}.

(** The records the entries of a log stand for. *)
Fixpoint replay_entries (c : chunks) (es : list (BatchEntry.t * list byte)) : list OwnedWalReplayRecord :=
  match es with
  | [] => []
  | (e, payload) :: es =>
      let '(rs, c) := replay_entry c e payload in
      rs ++ match c with Some c => replay_entries c es | None => [] end
  end.

Context `{PosixFile}.

Lemma replay_handle_ok es_all p reliable es e payload rest st :
  let I es st := contents (replay_fd st) = p ∧ (reliable = true → reads_reliably (replay_fd st)) ∧
    ∃ rest, es_all = es ++ rest ∧
      replay_entries no_chunks es_all = delivered st ++ replay_entries (reassembly st) rest in
  es_all = es ++ (e, payload) :: rest → I es st →
  returns_or (λ _, False) (replay_handle e payload) st
    (λ go st', if go : bool then I (es ++ [(e, payload)]) st' else delivered st' = replay_entries no_chunks es_all).
Proof.
  intros I Hall (Hp & Hrel & rest' & Hall' & Hd). rewrite Hall in Hall'. apply app_inv_head in Hall' as <-.
  cbn [replay_entries] in Hd. unfold replay_handle. apply returns_bind, returns_gets.
  destruct (replay_entry (reassembly st) e payload) as [rs c]. apply returns_bind, returns_modify, returns_ret.
  destruct c as [c|]; simpl.
  - split_and!; [done|done|]. exists rest. split; [by rewrite Hall, <-app_assoc|]. rewrite Hd. simpl. by rewrite <-(app_assoc (delivered st)).
  - by rewrite app_nil_r in Hd.
Qed.

Lemma replay_records_spec bs ess hdr rest f :
  Forall2 good_batch bs ess → contents f = hdr ++ log_bytes bs ++ rest → zlen hdr = WAL_HEADER_SIZE →
  zlen (contents f) < 2 ^ 63 →
  ∃ res st, replay_records (WAL_HEADER_SIZE + zlen (log_bytes bs)) f = Done res st ∧
    match res with
    | Ok _ => delivered st = replay_entries no_chunks (concat ess)
    | Err e => os_failure e ∧ ¬ reads_reliably f
    end.
Proof.
  intros Hbs Hc Hh Hlim. unfold replay_records.
  set (st0 := {| replay_fd := f; reassembly := no_chunks; delivered := [] |}).
  set (p := contents f) in *. set (es_all := concat ess).
  assert (Hgen : ∀ (reliable : bool) (E : ErrorKind → Prop), (reliable = false → ∀ c, E (OsError c)) →
    (reliable = true → reads_reliably f) →
    returns_or E (walk_log replay_fd put_replay_fd replay_handle (WAL_HEADER_SIZE + zlen (log_bytes bs))) st0
      (λ _ st, delivered st = replay_entries no_chunks es_all)).
  { intros reliable E HE Hrel. eapply returns_mono.
    - apply (walk_log_spec replay_fd put_replay_fd replay_handle E
        (λ es st, contents (replay_fd st) = p ∧ (reliable = true → reads_reliably (replay_fd st)) ∧
           ∃ rest, es_all = es ++ rest ∧
             replay_entries no_chunks es_all = delivered st ++ replay_entries (reassembly st) rest)
        (λ st, delivered st = replay_entries no_chunks es_all) p es_all reliable) with (bs := bs) (ess := ess);
        [done|done|by intros ? ? (? & ? & _)| | |done| |done|done|].
      + intros es st f' (_ & _ & rs & Hrs) Hf' Hr'. split_and!; [done|done|]. by exists rs.
      + intros es e payload rs st Hall HI.
        destruct (replay_handle_ok es_all p reliable es e payload rs st Hall HI) as (r & st' & Er & Hr).
        exists r, st'. split; [done|]. by destruct r.
      + rewrite <-Hh, Hc. apply bytes_at_here.
      + split_and!; [done|done|]. by exists es_all.
    - intros [] st'; [|done]. intros (_ & _ & rs & Hrs & Hd).
      rewrite <-(app_nil_r es_all) in Hrs at 1. apply app_inv_head in Hrs as <-. by rewrite app_nil_r in Hd. }
  destruct (Hgen false os_failure) as (r & st & Er & Hr); [by right; right; eauto|done|].
  destruct r as [b|e].
  - exists (Ok tt), st. split; [|done]. unfold mbind, IO_bind. by rewrite Er.
  - exists (Err e), st. split; [unfold mbind, IO_bind; by rewrite Er|]. split; [done|]. intros Hrel.
    destruct (Hgen true (λ _, False)) as (r & st' & Er' & Hr'); [done|done|]. rewrite Er in Er'. by injection Er' as <- <-.
Qed.

End replay.
