(* ===== verification/WalSlots.v ===== *)
(** * Write-ahead log: a sealed buffer is a valid log

    [finalize_buffer_records] turns batches with meta pages as the appenders
    leave them into batches the reader accepts, entry by entry. *)

From S2P Require Import Prelude Bytes FrameKernel Posix PageStoreInv WalFormat WalBatch WalCodec WalPatch WalCodecSpec WalRecovery WalReplay WalReplaySpec.
#[local] Open Scope Z_scope.

Section seal.
Context `{Build} `{Crc32}.

(** The bytes of a slot that its checksum covers. *)
Definition slot_payload (s : slot) : list byte :=
  if BatchEntry.kind s.1 =? RECORD_KIND_PAGE_IMAGE then s.2 else sub s.2 0 (BatchEntry.len s.1).

Definition with_crc (e : BatchEntry.t) (crc : Z) : BatchEntry.t :=
  {| BatchEntry.lsn := BatchEntry.lsn e; BatchEntry.arg := BatchEntry.arg e; BatchEntry.crc := crc;
     BatchEntry.len := BatchEntry.len e; BatchEntry.kind := BatchEntry.kind e; BatchEntry.flags := BatchEntry.flags e |}.

Definition stamped_entry (s : slot) : BatchEntry.t := with_crc s.1 (crc32 (slot_payload s)).

(** A slot as the appenders fill it. *)
Record slot_ok (s : slot) : Prop := {
  slot_entry_ok : entry_ok s.1;
  slot_page : zlen s.2 = PAGE_SIZE;
  slot_kind : match BatchEntry.kind s.1 with
    | 1 | 3 => BatchEntry.flags s.1 = 0
    | 2 => BatchEntry.flags s.1 ≤ 3
    | _ => False
    end;
  slot_len : BatchEntry.len s.1 ≤ PAGE_SIZE;
}.

Lemma record_crc_ok s : slot_ok s → record_crc s.1 s.2 = Ret (crc32 (slot_payload s)).
Proof.
  intros [He Hz Hk Hl]. destruct He as (_ & _ & _ & Hlen & _). unfold record_crc, slot_payload.
  destruct (Z.eqb_spec (BatchEntry.kind s.1) RECORD_KIND_PAGE_IMAGE) as [|Hne].
  { rewrite assert_true by (by apply Z.eqb_eq). done. }
  assert (Hk' : (BatchEntry.kind s.1 =? RECORD_KIND_LOGICAL) || (BatchEntry.kind s.1 =? RECORD_KIND_LOGICAL_PACKED) = true).
  { unfold RECORD_KIND_LOGICAL, RECORD_KIND_LOGICAL_PACKED, RECORD_KIND_PAGE_IMAGE in *.
    destruct (BatchEntry.kind s.1) as [|[[]|[]|]|]; try done. }
  rewrite Hk'. rewrite slice_Ret, bind_Ret by lia. by rewrite Z.sub_0_r.
Qed.

(** The reader accepts a stamped slot. *)
Lemma validate_stamped s :
  slot_ok s → validate_entry_data (stamped_entry s) s.2 = Some (slot_payload s).
Proof.
  intros [He Hz Hk Hl]. destruct He as (_ & _ & _ & Hlen & _ & Hfl). unfold validate_entry_data, stamped_entry, with_crc, slot_payload.
  cbn [BatchEntry.kind BatchEntry.flags BatchEntry.len BatchEntry.crc]. unfold page_crc, payload_crc.
  unfold RECORD_KIND_LOGICAL, RECORD_KIND_LOGICAL_PACKED, RECORD_KIND_PAGE_IMAGE in *.
  destruct (Z.eqb_spec (BatchEntry.kind s.1) 1) as [E1|Hn1].
  { rewrite E1 in Hk. by rewrite Hk, Hz, !Z.eqb_refl. }
  destruct (Z.eqb_spec (BatchEntry.kind s.1) 2) as [E2|Hn2].
  { rewrite E2 in Hk. unfold LOGICAL_CHUNK_MAX_LEN. rewrite (proj2 (Z.ltb_ge _ _)), (proj2 (Z.ltb_ge (zlen s.2) _)) by lia.
    assert (Hf : Z.land (BatchEntry.flags s.1) (unot 8 (Z.lor LOGICAL_FLAG_FIRST LOGICAL_FLAG_LAST)) =? 0 = true).
    { assert (Hcases : BatchEntry.flags s.1 = 0 ∨ BatchEntry.flags s.1 = 1 ∨ BatchEntry.flags s.1 = 2 ∨ BatchEntry.flags s.1 = 3) by lia.
      by destruct Hcases as [-> | [-> | [-> | ->]]]. }
    rewrite Hf. simpl. by rewrite Z.eqb_refl. }
  destruct (Z.eqb_spec (BatchEntry.kind s.1) 3) as [E3|Hn3].
  { rewrite E3 in Hk. rewrite Hk, (proj2 (Z.ltb_ge _ _)) by lia. simpl. by rewrite Z.eqb_refl. }
  by destruct (BatchEntry.kind s.1) as [|[[]|[]|]|].
Qed.

(** ** One entry of the meta page *)

Lemma overwrite_crc_ok m idx crc :
  zlen m = PAGE_SIZE → 0 ≤ idx < BATCH_MAX_RECORDS → 0 ≤ crc < 2 ^ 32 →
  ∃ m', overwrite_batch_entry_crc m idx crc = Ret m' ∧ zlen m' = PAGE_SIZE ∧
    (∀ count, meta_header m count → meta_header m' count) ∧ entry_at m' idx = with_crc (entry_at m idx) crc ∧
    ∀ j, 0 ≤ j → j ≠ idx → entry_at m' j = entry_at m j.
Proof.
  intros Hz Hi Hcrc. destruct (entry_pos_bound idx Hi) as [Hp1 Hp2].
  exists (set_le 4 m (entry_pos idx + 16) crc). unfold overwrite_batch_entry_crc, BATCH_ENTRY_CRC_OFF.
  rewrite debug_assert_true, bind_Ret, batch_entry_offset_ok, bind_Ret by (by apply Z.eqb_eq || lia).
  split_and!.
  - rewrite put_le_Ret by lia. done.
  - rewrite zlen_set_le; lia.
  - intros count (_ & Hm & Hv & Hc). split_and!; [rewrite zlen_set_le; lia|by rewrite get_set_le_ne by lia..].
  - unfold entry_at, with_crc. cbn [BatchEntry.lsn BatchEntry.arg BatchEntry.len BatchEntry.kind BatchEntry.flags].
    rewrite get_set_le_eq by lia. rewrite !get_set_le_ne by lia. rewrite wrap_small by (simpl; lia). done.
  - intros j Hj Hne. unfold entry_at. by rewrite !get_set_le_ne by (unfold entry_pos in *; lia).
Qed.

(** ** One batch of a buffer *)

Lemma slice_mid (pre x post : list byte) : slice (pre ++ x ++ post) (zlen pre) (zlen pre + zlen x) = Ret x.
Proof.
  pose proof (zlen_nonneg pre). pose proof (zlen_nonneg x). pose proof (zlen_nonneg post).
  rewrite slice_Ret by (rewrite ?zlen_app; lia). replace (zlen pre + zlen x - zlen pre) with (zlen x) by lia.
  f_equal. apply bytes_at_here.
Qed.

Lemma copy_mid (pre x y post : list byte) :
  zlen x = zlen y → copy_from (pre ++ x ++ post) (zlen pre) (zlen pre + zlen x) y = Ret (pre ++ y ++ post).
Proof.
  intros Hz. pose proof (zlen_nonneg pre). pose proof (zlen_nonneg x). pose proof (zlen_nonneg post).
  rewrite copy_from_Ret by (rewrite ?zlen_app; lia). f_equal. apply list_eq. intros i.
  rewrite lookup_upd by (rewrite ?zlen_app; lia). unfold zlen in *. case_decide as Hin.
  - rewrite lookup_app_r by lia. rewrite lookup_app_l by lia. f_equal. lia.
  - destruct (decide (i < length pre)%nat); [by rewrite !lookup_app_l by lia|].
    rewrite !(lookup_app_r pre) by lia. rewrite !lookup_app_r by lia. f_equal. lia.
Qed.

(** Entries [idx] on get the checksums of their slots. *)
Lemma stamp_batch_spec pre body slots idx m :
  zlen m = PAGE_SIZE → Forall slot_ok slots → 0 ≤ idx → idx + zlen slots ≤ BATCH_MAX_RECORDS →
  bytes_at body (PAGE_SIZE * idx) (concat (map snd slots)) →
  (∀ j s, slots !! j = Some s → entry_at m (idx + Z.of_nat j) = s.1) →
  ∃ m', stamp_batch (length slots) (pre ++ m ++ body) (zlen pre) idx = Ret (pre ++ m' ++ body) ∧
    zlen m' = PAGE_SIZE ∧ (∀ count, meta_header m count → meta_header m' count) ∧
    (∀ j, 0 ≤ j < idx → entry_at m' j = entry_at m j) ∧
    ∀ j s, slots !! j = Some s → entry_at m' (idx + Z.of_nat j) = stamped_entry s.
Proof.
  intros Hz Hok. revert idx m Hz. induction Hok as [|s slots Hs Hok IH]; intros idx m Hz Hi Hmax Hat Hent.
  { exists m. split_and!; done. }
  rewrite zlen_cons in Hmax. pose proof (zlen_nonneg slots). pose proof (zlen_nonneg pre).
  cbn [map concat] in Hat. apply bytes_at_app in Hat as [Hat1 Hat2]; [|page_cases].
  rewrite (slot_page _ Hs) in Hat2. pose proof Hat1 as [_ Hle]. rewrite (slot_page _ Hs) in Hle.
  pose proof (page_read _ _ _ Hat1 (slot_page _ Hs)) as Hread.
  cbn [stamp_batch length]. unfold WAL_RECORD_SIZE in *.
  pose proof (slice_mid pre m body) as Hsl. rewrite Hz in Hsl. rewrite Hsl, bind_Ret.
  rewrite read_batch_entry_ok, bind_Ret by (done || lia).
  pose proof (Hent 0%nat s eq_refl) as He0. rewrite Z.add_0_r in He0. rewrite He0.
  rewrite slice_Ret by (rewrite ?zlen_app; page_cases). rewrite bind_Ret.
  replace (sub (pre ++ m ++ body) _ _) with s.2.
  2:{ rewrite !sub_app_r by page_cases. rewrite <-Hread at 1. f_equal; lia. }
  rewrite record_crc_ok, bind_Ret by done.
  destruct (overwrite_crc_ok m idx (crc32 (slot_payload s))) as (m1 & -> & Hz1 & Hh1 & He1 & Ho1);
    [done|lia|apply crc32_range|]. rewrite bind_Ret.
  pose proof (copy_mid pre m m1 body ltac:(lia)) as Hcp. rewrite Hz in Hcp. rewrite Hcp, bind_Ret.
  destruct (IH (idx + 1) m1) as (m' & Em & Hz' & Hh' & Hold & Hnew); [done|lia|lia| | |].
  { replace (PAGE_SIZE * (idx + 1)) with (PAGE_SIZE * idx + PAGE_SIZE) by lia. done. }
  { intros j s' Hj. rewrite Ho1 by lia. rewrite <-(Hent (S j) s' Hj). f_equal. lia. }
  exists m'. split_and!; [done|done|auto| |].
  - intros j Hj. rewrite Hold by lia. apply Ho1; lia.
  - intros [|j] s' Hj; simpl in Hj; simplify_eq.
    + rewrite Z.add_0_r, Hold by lia. rewrite He1, He0. done.
    + rewrite <-(Hnew j s' Hj). f_equal. lia.
Qed.

(** A batch as the appenders leave it. *)
Record open_batch (b : batch) (slots : list slot) : Prop := {
  open_header : meta_header (meta b) (zlen slots);
  open_count : 1 ≤ zlen slots ≤ BATCH_MAX_RECORDS;
  open_slots : Forall slot_ok slots;
  open_data : data b = map snd slots;
  open_entries : ∀ j s, slots !! j = Some s → entry_at (meta b) (Z.of_nat j) = s.1;
}.

(** The entries of sealed slots, with their payloads. *)
Definition sealed_entries (slots : list slot) : list (BatchEntry.t * list byte) :=
  map (λ s, (stamped_entry s, slot_payload s)) slots.

Lemma checked_sealed m slots idx :
  Forall slot_ok slots → (∀ j s, slots !! j = Some s → entry_at m (idx + Z.of_nat j) = stamped_entry s) →
  checked_entries m idx (map snd slots) = Some (sealed_entries slots).
Proof.
  intros Hok. revert idx. induction Hok as [|s slots Hs Hok IH]; intros idx Hent; [done|]. simpl.
  pose proof (Hent 0%nat s eq_refl) as He0. rewrite Z.add_0_r in He0. rewrite He0, validate_stamped by done. simpl.
  rewrite IH; [done|]. intros j s' Hj. rewrite <-(Hent (S j) s' Hj). f_equal. lia.
Qed.

Lemma open_batch_size b slots :
  open_batch b slots → zlen (meta b) = PAGE_SIZE ∧ page_sized (data b) ∧ zlen (data b) = zlen slots ∧
  zlen (batch_bytes b) = PAGE_SIZE + zlen slots * PAGE_SIZE.
Proof.
  intros [(Hm & _) _ Hs Hd _].
  assert (Hp : page_sized (data b)).
  { rewrite Hd. unfold page_sized. apply Forall_map. eapply Forall_impl; [exact Hs|]. intros s. apply slot_page. }
  assert (Hl : zlen (data b) = zlen slots) by (rewrite Hd; unfold zlen; by rewrite length_map).
  split_and!; try done. unfold batch_bytes. rewrite zlen_app, zlen_concat, Hl by done. lia.
Qed.

(** Sealing one batch. *)
Lemma seal_batch_spec pre b slots post :
  open_batch b slots →
  ∃ m1 m2, stamp_batch (length slots) (pre ++ batch_bytes b ++ post) (zlen pre) 0 =
      Ret (pre ++ m1 ++ concat (data b) ++ post) ∧ zlen m1 = PAGE_SIZE ∧
    finalize_batch_meta m1 = Ret m2 ∧ zlen m2 = PAGE_SIZE ∧
    good_batch {| meta := m2; data := data b |} (sealed_entries slots).
Proof.
  intros Hb. destruct (open_batch_size b slots Hb) as (Hm & Hp & Hl & _). destruct Hb as [Hh Hc Hs Hd He].
  destruct (stamp_batch_spec pre (concat (data b) ++ post) slots 0 (meta b)) as (m1 & E1 & Hz1 & Hh1 & _ & Hn1);
    [done|done|lia|lia| |done|].
  { rewrite Hd, Z.mul_0_r. apply (bytes_at_here []). }
  destruct (finalize_batch_meta_ok m1 (zlen slots) (Hh1 _ Hh) Hc) as (E2 & Hcount & Hz2).
  eexists m1, _. split_and!; [|done|exact E2|done|].
  - unfold batch_bytes. rewrite <-app_assoc. exact E1.
  - constructor; simpl; [by rewrite Hl|done|]. rewrite Hd. apply checked_sealed; [done|].
    intros j s Hj. rewrite entry_at_header_write by (done || lia). by apply Hn1.
Qed.

(** Sealing a buffer: every batch becomes valid, in place. *)
Lemma finalize_loop_spec obs slotss pre post fuel :
  Forall2 open_batch obs slotss → (length obs < fuel)%nat →
  ∃ bs, finalize_loop fuel (pre ++ log_bytes obs ++ post) (zlen pre) (zlen pre + zlen (log_bytes obs)) =
      Ret (pre ++ log_bytes bs ++ post) ∧
    Forall2 good_batch bs (map sealed_entries slotss) ∧ zlen (log_bytes bs) = zlen (log_bytes obs).
Proof.
  intros Hobs. revert pre fuel. induction Hobs as [|b slots obs slotss Hb Hobs IH]; intros pre fuel Hf;
    (destruct fuel as [|fuel]; [simpl in Hf; lia|]); cbn [finalize_loop].
  { exists []. change (log_bytes []) with (@nil byte). rewrite zlen_nil, Z.add_0_r, Z.ltb_irrefl.
    by rewrite debug_assert_true by apply Z.eqb_refl. }
  destruct (open_batch_size b slots Hb) as (Hm & Hp & Hl & Hlen). pose proof Hb as [Hh Hc _ _ _].
  change (log_bytes (b :: obs)) with (batch_bytes b ++ log_bytes obs). rewrite zlen_app.
  pose proof (zlen_nonneg (log_bytes obs)). unfold WAL_RECORD_SIZE.
  rewrite (proj2 (Z.ltb_lt _ _)) by page_cases.
  destruct (seal_batch_spec pre b slots (log_bytes obs ++ post) Hb) as (m1 & m2 & E1 & Hz1 & E2 & Hz2 & Hg).
  rewrite <-(app_assoc (batch_bytes b)).
  assert (Hsl : slice (pre ++ batch_bytes b ++ log_bytes obs ++ post) (zlen pre) (zlen pre + PAGE_SIZE) = Ret (meta b)).
  { unfold batch_bytes. rewrite <-app_assoc, <-Hm. apply slice_mid. }
  rewrite Hsl, bind_Ret, (batch_meta_count_unchecked_ok _ (zlen slots) Hh Hc), bind_Ret.
  replace (Z.to_nat (zlen slots)) with (length slots) by (unfold zlen; lia). rewrite E1, bind_Ret.
  pose proof (slice_mid pre m1 (concat (data b) ++ log_bytes obs ++ post)) as Hsl1. rewrite Hz1 in Hsl1.
  rewrite Hsl1, bind_Ret, E2, bind_Ret.
  pose proof (copy_mid pre m1 m2 (concat (data b) ++ log_bytes obs ++ post) ltac:(lia)) as Hcp. rewrite Hz1 in Hcp.
  rewrite Hcp, bind_Ret. set (b' := {| meta := m2; data := data b |}) in *.
  assert (Hb' : zlen (batch_bytes b') = zlen (batch_bytes b)).
  { unfold batch_bytes, b'. simpl. rewrite !zlen_app. lia. }
  destruct (IH (pre ++ batch_bytes b') fuel) as (bs & Ebs & Hbs & Hlbs); [simpl in Hf; lia|].
  exists (b' :: bs). split_and!; [|by constructor|].
  - change (log_bytes (b' :: bs)) with (batch_bytes b' ++ log_bytes bs).
    replace (pre ++ m2 ++ concat (data b) ++ log_bytes obs ++ post)
      with ((pre ++ batch_bytes b') ++ log_bytes obs ++ post) by (unfold batch_bytes; by rewrite <-!app_assoc).
    replace (zlen pre + PAGE_SIZE + zlen slots * PAGE_SIZE) with (zlen (pre ++ batch_bytes b')) by (rewrite zlen_app; lia).
    replace (zlen pre + (zlen (batch_bytes b) + zlen (log_bytes obs)))
      with (zlen (pre ++ batch_bytes b') + zlen (log_bytes obs)) by (rewrite zlen_app; lia).
    rewrite Ebs. by rewrite <-!app_assoc.
  - change (log_bytes (b' :: bs)) with (batch_bytes b' ++ log_bytes bs). rewrite zlen_app. lia.
Qed.

Lemma open_log_long obs slotss :
  Forall2 open_batch obs slotss → Z.of_nat (length obs) * PAGE_SIZE ≤ zlen (log_bytes obs).
Proof.
  induction 1 as [|b slots obs slotss Hb _ IH]; [rewrite Z.mul_0_l; apply zlen_nonneg|].
  change (log_bytes (b :: obs)) with (batch_bytes b ++ log_bytes obs).
  destruct (open_batch_size b slots Hb) as (_ & _ & _ & Hlen). destruct Hb as [_ Hc _ _ _].
  rewrite zlen_app, Hlen. simpl length. page_cases.
Qed.

Lemma finalize_buffer_records_spec obs slotss post :
  Forall2 open_batch obs slotss →
  ∃ bs, finalize_buffer_records (log_bytes obs ++ post) (zlen (log_bytes obs)) = Ret (log_bytes bs ++ post) ∧
    Forall2 good_batch bs (map sealed_entries slotss) ∧ zlen (log_bytes bs) = zlen (log_bytes obs).
Proof.
  intros Hobs. unfold finalize_buffer_records. pose proof (open_log_long obs slotss Hobs) as Hl.
  apply (finalize_loop_spec obs slotss [] post); [done|]. unfold WAL_RECORD_SIZE.
  assert (Z.of_nat (length obs) ≤ zlen (log_bytes obs) / PAGE_SIZE); [|lia]. apply Z.div_le_lower_bound; page_lia.
Qed.

End seal.

(** * Write-ahead log: the slots of a record and what they replay to

    What each append method places in record slots, read back: a page image
    is one slot, a long logical record a run of chunks, short logical records
    share a packed page. *)

#[local] Open Scope Z_scope.

Section slots.
Context `{Build} `{Crc32}.

(** The record a complete logical payload stands for; [None] when it is a
    page image that does not decode. *)
Definition logical_record (lsn kind : Z) (payload : list byte) : option OwnedWalReplayRecord :=
  if kind =? LOGICAL_KIND_PAGE_IMAGE_BYTES then
    '(pid, page) ← decode_page_image_bytes_payload payload;
    Some (PageImage lsn pid page)
  else Some (Logical lsn kind payload).

Definition chunk_flags (idx chunks : Z) : Z :=
  let flags := if idx =? 0 then 1 else 0 in
  if idx + 1 =? chunks then Z.lor flags 2 else flags.

Lemma chunk_flags_spec idx chunks :
  0 ≤ chunk_flags idx chunks ≤ 3 ∧ has_flag (chunk_flags idx chunks) LOGICAL_FLAG_FIRST = (idx =? 0) ∧
  has_flag (chunk_flags idx chunks) LOGICAL_FLAG_LAST = (idx + 1 =? chunks).
Proof. unfold chunk_flags. destruct (idx =? 0), (idx + 1 =? chunks); vm_compute; intuition congruence. Qed.

Lemma chunk_count_spec n : 0 ≤ n → let k := chunk_count n in
  1 ≤ k ∧ n ≤ k * PAGE_SIZE ∧ (k - 1) * PAGE_SIZE ≤ n ∧ (1 < k → (k - 1) * PAGE_SIZE < n).
Proof.
  intros Hn k. unfold k, chunk_count, div_ceil, LOGICAL_CHUNK_MAX_LEN.
  destruct PAGE_SIZE_cases as [E|E]; rewrite E; Z.to_euclidean_division_equations; lia.
Qed.

(** The bytes of chunk [idx]. *)
Definition chunk_bytes (payload : list byte) (idx : Z) : list byte :=
  sub payload (idx * PAGE_SIZE) (Z.min PAGE_SIZE (zlen payload - idx * PAGE_SIZE)).

Lemma zlen_chunk_bytes payload idx :
  0 ≤ idx < chunk_count (zlen payload) →
  zlen (chunk_bytes payload idx) = Z.min PAGE_SIZE (zlen payload - idx * PAGE_SIZE).
Proof.
  intros Hi. pose proof (zlen_nonneg payload). destruct (chunk_count_spec (zlen payload)) as (Hc1 & Hc2 & Hc3 & Hc4); [done|].
  unfold chunk_bytes. apply zlen_sub; page_cases.
Qed.

(** The slice the append loop takes. *)
Lemma chunk_slice payload idx :
  0 ≤ idx < chunk_count (zlen payload) →
  (if idx * LOGICAL_CHUNK_MAX_LEN <? zlen payload
   then sub payload (idx * LOGICAL_CHUNK_MAX_LEN)
          (Z.min (idx * LOGICAL_CHUNK_MAX_LEN + LOGICAL_CHUNK_MAX_LEN) (zlen payload) - idx * LOGICAL_CHUNK_MAX_LEN)
   else []) = chunk_bytes payload idx.
Proof.
  intros Hi. pose proof (zlen_nonneg payload). destruct (chunk_count_spec (zlen payload)) as (Hc1 & Hc2 & Hc3 & Hc4); [done|].
  unfold chunk_bytes, LOGICAL_CHUNK_MAX_LEN. destruct (Z.ltb_spec (idx * PAGE_SIZE) (zlen payload)).
  - f_equal. lia.
  - rewrite Z.min_r by page_cases. replace (zlen payload - idx * PAGE_SIZE) with 0 by page_cases. by rewrite sub_0.
Qed.

Lemma chunk_slot_eq lsn kind payload idx :
  0 ≤ idx < chunk_count (zlen payload) →
  logical_chunk_slot lsn kind payload idx =
    (BatchEntry.logical_chunk lsn kind 0 (chunk_flags idx (chunk_count (zlen payload))) (zlen (chunk_bytes payload idx)),
     upd (fill PAGE_SIZE x00) 0 (chunk_bytes payload idx)).
Proof. intros Hi. unfold logical_chunk_slot. by rewrite chunk_slice. Qed.

Lemma page_sub_prefix x : zlen x ≤ PAGE_SIZE → sub (upd (fill PAGE_SIZE x00) 0 x) 0 (zlen x) = x.
Proof. intros Hx. apply sub_upd_eq; [lia|rewrite zlen_fill; page_lia|done]. Qed.

Lemma zlen_page_prefix x : zlen x ≤ PAGE_SIZE → zlen (upd (fill PAGE_SIZE x00) 0 x) = PAGE_SIZE.
Proof. intros Hx. rewrite zlen_upd; rewrite ?zlen_fill; page_lia. Qed.

Lemma chunk_slot_ok lsn kind payload idx :
  0 ≤ lsn < 2 ^ 64 → 0 ≤ kind < 2 ^ 64 → 0 ≤ idx < chunk_count (zlen payload) →
  slot_ok (logical_chunk_slot lsn kind payload idx) ∧
  slot_payload (logical_chunk_slot lsn kind payload idx) = chunk_bytes payload idx.
Proof.
  intros Hl Hk Hi. rewrite chunk_slot_eq by done. destruct (chunk_flags_spec idx (chunk_count (zlen payload))) as (Hf & _).
  pose proof (zlen_chunk_bytes payload idx Hi) as Hz. pose proof (zlen_nonneg (chunk_bytes payload idx)).
  assert (Hw : wrap 32 (zlen (chunk_bytes payload idx)) = zlen (chunk_bytes payload idx)) by (apply wrap_small; page_lia).
  split.
  - constructor; simpl; rewrite ?Hw.
    + unfold entry_ok. simpl. rewrite Hw. split_and!; (done || page_lia).
    + apply zlen_page_prefix. lia.
    + lia.
    + lia.
  - unfold slot_payload. simpl. rewrite Hw. apply page_sub_prefix. lia.
Qed.

(** ** Replay of sealed slots *)

Lemma replay_entry_logical c e payload :
  BatchEntry.kind e = RECORD_KIND_LOGICAL →
  replay_entry c e payload =
    match add_chunk c e payload with
    | None => ([], None)
    | Some c =>
        if has_flag (BatchEntry.flags e) LOGICAL_FLAG_LAST then
          match logical_record (logical_lsn c) (logical_kind c) (logical_payload c) with
          | None => ([], None)
          | Some r => ([r], Some no_chunks)
          end
        else ([], Some c)
    end.
Proof.
  intros Hk. unfold replay_entry, logical_record. rewrite Hk. simpl. destruct (add_chunk c e payload) as [c'|]; [|done].
  destruct (has_flag _ _); [|done]. destruct (_ =? _); [|done]. by destruct (decode_page_image_bytes_payload _) as [[]|].
Qed.

(** What is assembled after [idx] chunks. *)
Definition assembled (lsn kind : Z) (payload : list byte) (idx : Z) : chunks :=
  {| logical_lsn := lsn; logical_kind := kind; logical_payload := sub payload 0 (Z.min (idx * PAGE_SIZE) (zlen payload)) |}.

(** Chunk [idx] is added; the first one drops what was assembled. *)
Lemma add_chunk_slot lsn kind payload idx c :
  0 ≤ idx < chunk_count (zlen payload) → (idx ≠ 0 → c = assembled lsn kind payload idx) →
  add_chunk c (stamped_entry (logical_chunk_slot lsn kind payload idx)) (chunk_bytes payload idx) =
    Some (assembled lsn kind payload (idx + 1)).
Proof.
  intros Hi Hc. pose proof (zlen_nonneg payload). set (k := chunk_count (zlen payload)).
  destruct (chunk_count_spec (zlen payload)) as (Hc1 & Hc2 & Hc3 & Hc4); [done|]. fold k in Hi, Hc1, Hc2, Hc3, Hc4.
  destruct (chunk_flags_spec idx k) as (_ & Hfirst & _). rewrite chunk_slot_eq by done. unfold add_chunk.
  cbn [stamped_entry with_crc fst BatchEntry.flags BatchEntry.lsn BatchEntry.arg BatchEntry.logical_chunk]. fold k. rewrite Hfirst.
  unfold assembled, chunk_bytes. destruct (Z.eqb_spec idx 0) as [->|Hne].
  - cbn [mbind option_bind logical_lsn logical_kind logical_payload app]. do 2 f_equal. f_equal. lia.
  - rewrite (Hc Hne). unfold is_empty_payload, assembled. cbn [logical_lsn logical_kind logical_payload].
    rewrite zlen_sub by page_cases. rewrite (proj2 (Z.eqb_neq _ _)), !Z.eqb_refl by page_cases.
    cbn [negb orb mbind option_bind logical_lsn logical_kind logical_payload]. do 2 f_equal.
    rewrite (Z.min_l (idx * PAGE_SIZE)) by page_cases. rewrite <-(sub_split payload 0) by page_cases. f_equal. page_cases.
Qed.

(** Replaying chunk [idx]: the record is complete after the last one. *)
Lemma replay_chunk lsn kind payload idx c :
  0 ≤ lsn < 2 ^ 64 → 0 ≤ kind < 2 ^ 64 → 0 ≤ idx < chunk_count (zlen payload) →
  (idx ≠ 0 → c = assembled lsn kind payload idx) →
  replay_entry c (stamped_entry (logical_chunk_slot lsn kind payload idx)) (slot_payload (logical_chunk_slot lsn kind payload idx)) =
    if idx + 1 =? chunk_count (zlen payload) then
      match logical_record lsn kind payload with None => ([], None) | Some r => ([r], Some no_chunks) end
    else ([], Some (assembled lsn kind payload (idx + 1))).
Proof.
  intros Hl Hk Hi Hc. destruct (chunk_slot_ok lsn kind payload idx Hl Hk Hi) as [_ ->].
  rewrite replay_entry_logical, add_chunk_slot by (done || by rewrite chunk_slot_eq).
  replace (BatchEntry.flags _) with (chunk_flags idx (chunk_count (zlen payload))) by (by rewrite chunk_slot_eq).
  destruct (chunk_flags_spec idx (chunk_count (zlen payload))) as (_ & _ & ->).
  destruct (Z.eqb_spec (idx + 1) (chunk_count (zlen payload))) as [Hlast|]; [|done]. unfold assembled. cbn [logical_lsn logical_kind logical_payload].
  pose proof (zlen_nonneg payload). destruct (chunk_count_spec (zlen payload)) as (Hc1 & Hc2 & _); [done|].
  rewrite Z.min_r by (rewrite Hlast; page_cases). by rewrite sub_all.
Qed.

(** The chunks from [idx] on complete the record. *)
Lemma replay_chunks lsn kind payload r idx c rest :
  logical_record lsn kind payload = Some r → 0 ≤ lsn < 2 ^ 64 → 0 ≤ kind < 2 ^ 64 →
  0 ≤ idx < chunk_count (zlen payload) → (idx ≠ 0 → c = assembled lsn kind payload idx) →
  replay_entries c (sealed_entries
    (map (logical_chunk_slot lsn kind payload) (seqZ idx (chunk_count (zlen payload) - idx))) ++ rest) =
  r :: replay_entries no_chunks rest.
Proof.
  intros Hr Hl Hk. set (k := chunk_count (zlen payload)).
  remember (Z.to_nat (k - 1 - idx)) as n eqn:Hn. revert idx c Hn. induction n as [|n IH]; intros idx c Hn Hi Hc.
  all: rewrite seqZ_cons by lia; cbn [map sealed_entries app replay_entries]; rewrite replay_chunk by done; fold k.
  - rewrite (proj2 (Z.eqb_eq _ _)), Hr by lia. replace (Z.pred (k - idx)) with 0 by lia. by rewrite seqZ_nil by lia.
  - rewrite (proj2 (Z.eqb_neq _ _)) by lia. cbn [app]. replace (Z.pred (k - idx)) with (k - (idx + 1)) by lia.
    change (Z.succ idx) with (idx + 1). by apply IH; [lia|lia|].
Qed.

(** The chunks before [stop] complete nothing. *)
Lemma replay_first_chunks lsn kind payload stop c :
  0 ≤ lsn < 2 ^ 64 → 0 ≤ kind < 2 ^ 64 → 0 ≤ stop < chunk_count (zlen payload) →
  ∃ c', (stop ≠ 0 → c' = assembled lsn kind payload stop) ∧
    ∀ rest, replay_entries c (sealed_entries (map (logical_chunk_slot lsn kind payload) (seqZ 0 stop)) ++ rest) = replay_entries c' rest.
Proof.
  intros Hl Hk Hs. remember (Z.to_nat stop) as n eqn:Hn. revert stop Hn Hs. induction n as [|n IH]; intros stop Hn Hs.
  - exists c. split; [lia|]. by rewrite seqZ_nil by lia.
  - destruct (IH (stop - 1)) as (c1 & Hc1 & Hrep); [lia|lia|]. exists (assembled lsn kind payload stop). split; [done|]. intros rest.
    replace stop with (stop - 1 + 1) at 1 by lia. rewrite seqZ_app by lia. unfold sealed_entries in *.
    rewrite !map_app, <-app_assoc, Hrep. rewrite (seqZ_cons (0 + (stop - 1)) 1), (seqZ_nil _ (Z.pred 1)) by lia.
    cbn [map app replay_entries]. rewrite Z.add_0_l, replay_chunk by (done || lia).
    rewrite (proj2 (Z.eqb_neq _ _)) by lia. cbn [app]. by replace (stop - 1 + 1) with stop by lia.
Qed.

Lemma replay_logical_slots lsn kind payload r c rest :
  logical_record lsn kind payload = Some r → 0 ≤ lsn < 2 ^ 64 → 0 ≤ kind < 2 ^ 64 →
  replay_entries c (sealed_entries (logical_slots lsn kind payload) ++ rest) = r :: replay_entries no_chunks rest.
Proof.
  intros Hr Hl Hk. unfold logical_slots. rewrite <-(Z.sub_0_r (chunk_count (zlen payload))) at 1.
  pose proof (zlen_nonneg payload). destruct (chunk_count_spec (zlen payload)) as (Hc1 & _); [done|].
  apply replay_chunks; (done || lia).
Qed.

Lemma replay_image_slot lsn pid page c rest :
  replay_entries c (sealed_entries [page_image_slot lsn pid page] ++ rest) =
  PageImage lsn pid page :: replay_entries (drop_partial c) rest.
Proof. done. Qed.

(** The largest LSN of packed records. *)
Definition logical_max (rs : list logical) : Z := fold_right Z.max 0 (map (λ r, r.1.1) rs).

Lemma logical_max_snoc rs r : logical_max (rs ++ [r]) = Z.max (logical_max rs) (Z.max r.1.1 0).
Proof. unfold logical_max. induction rs as [|x rs IH]; simpl; [lia|]. rewrite IH. lia. Qed.

(** A packed page holds the records [rs]. *)
Record packed_holds (s : slot) (rs : list logical) : Prop := {
  packed_kind : BatchEntry.kind s.1 = RECORD_KIND_LOGICAL_PACKED;
  packed_len : BatchEntry.len s.1 = zlen (packed_bytes rs);
  packed_page : sub s.2 0 (zlen (packed_bytes rs)) = packed_bytes rs;
  packed_ok : Forall logical_ok rs;
  packed_lsn : BatchEntry.lsn s.1 = logical_max rs;
}.

Lemma replay_packed_slot s rs c rest :
  packed_holds s rs →
  replay_entries c (sealed_entries [s] ++ rest) =
  map (λ '(lsn, kind, payload), Logical lsn kind payload) rs ++ replay_entries (drop_partial c) rest.
Proof.
  intros [Hk Hl Hp Hok _]. cbn [sealed_entries map app replay_entries]. unfold slot_payload. rewrite Hk.
  change (RECORD_KIND_LOGICAL_PACKED =? RECORD_KIND_PAGE_IMAGE) with false. cbv iota. rewrite Hl, Hp.
  unfold replay_entry, stamped_entry, with_crc. cbn [fst BatchEntry.kind]. rewrite Hk.
  change (RECORD_KIND_LOGICAL_PACKED =? RECORD_KIND_PAGE_IMAGE) with false.
  change (RECORD_KIND_LOGICAL_PACKED =? RECORD_KIND_LOGICAL) with false. rewrite Z.eqb_refl. cbv iota.
  unfold for_each_packed_logical_record. rewrite (packed_loop_spec rs [] _ Hok); [done|].
  pose proof (length_packed_bytes rs). unfold zlen in *. lia.
Qed.

End slots.
