(* ===== verification/WalShard.v ===== *)
(** * Write-ahead log: one shard's buffers

    From [src/crates/wal/src/wal_impl.rs] and
    [src/crates/wal/src/backend.rs]: the state a shard keeps under its lock,
    the append methods on it, sealing, the hand-over of sealed buffers to the
    [fdatasync] backend, and the completion that reclaims them.

    A method that finds no spare buffer waits on [flush_done] with the lock
    released; the model returns [Waiting] there, and the method goes on from
    the wait in a later step. Telemetry (event counters, latencies, the
    high-water marks and histograms of [memory_stats]) and the wake-ups of
    condition variables are not part of the model. *)

From S2P Require Import Prelude Bytes FrameKernel Posix WalFormat WalCodec WalRecovery WalReplay.
#[local] Open Scope Z_scope.

(** [expect] on [None]. *)
Definition panicked {St A} : IO St A := λ _, Panicked.

(** ** State *)

Record PackedLogicalSlot := {
  packed_meta_start : Z;
  packed_slot_idx : Z;
  packed_data_start : Z;
  packed_length : Z;
  packed_max_lsn : Z;
}.

Module WalBuffer.
Record t := {
  buffer : list byte;
  used : Z;
  records : Z;
  epoch : Z;
  max_lsn : Z;
  open_batch_meta_offset : option Z;
  open_batch_count : Z;
  max_batch_records : Z;
  packed_logical : option PackedLogicalSlot;
}.

Definition new (epoch capacity : Z) : t := {|
  buffer := fill capacity x00; used := 0; records := 0; epoch := epoch; max_lsn := 0;
  open_batch_meta_offset := None; open_batch_count := 0; max_batch_records := 0; packed_logical := None |}.

(** The bytes stay: they are overwritten when the buffer is filled again. *)
Definition reset (self : t) (epoch : Z) : t := {|
  buffer := buffer self; used := 0; records := 0; epoch := epoch; max_lsn := 0;
  open_batch_meta_offset := None; open_batch_count := 0; max_batch_records := 0; packed_logical := None |}.

Definition set_buffer (self : t) (b : list byte) : t := {|
  buffer := b; used := used self; records := records self; epoch := epoch self; max_lsn := max_lsn self;
  open_batch_meta_offset := open_batch_meta_offset self; open_batch_count := open_batch_count self;
  max_batch_records := max_batch_records self; packed_logical := packed_logical self |}.
Definition set_packed (self : t) (p : option PackedLogicalSlot) : t := {|
  buffer := buffer self; used := used self; records := records self; epoch := epoch self; max_lsn := max_lsn self;
  open_batch_meta_offset := open_batch_meta_offset self; open_batch_count := open_batch_count self;
  max_batch_records := max_batch_records self; packed_logical := p |}.
Definition set_max_lsn (self : t) (lsn : Z) : t := {|
  buffer := buffer self; used := used self; records := records self; epoch := epoch self; max_lsn := lsn;
  open_batch_meta_offset := open_batch_meta_offset self; open_batch_count := open_batch_count self;
  max_batch_records := max_batch_records self; packed_logical := packed_logical self |}.
End WalBuffer.

Record PendingWalWrite := {
  pending_buffer : WalBuffer.t;
  pending_file_offset : Z;
  pending_len : Z;
  pending_max_lsn : Z;
}.

Section shard.
Context `{Build} `{Crc32} `{PosixFile}.


Record WalState := {
  state_fd : os;
  active : WalBuffer.t;
  spare_buffers : list WalBuffer.t;
  pending_writes : list PendingWalWrite;
  submitted_writes : SubmittedWrites.t;
  writes_in_progress : Z;
  state_file_offset : Z;
  state_allocated_size : Z;
  next_buffer_epoch : Z;
  buffer_capacity_bytes : Z;
}.

Definition set_active (st : WalState) (b : WalBuffer.t) : WalState := {|
  state_fd := state_fd st; active := b; spare_buffers := spare_buffers st; pending_writes := pending_writes st;
  submitted_writes := submitted_writes st; writes_in_progress := writes_in_progress st;
  state_file_offset := state_file_offset st; state_allocated_size := state_allocated_size st;
  next_buffer_epoch := next_buffer_epoch st; buffer_capacity_bytes := buffer_capacity_bytes st |}.
Definition put_state_fd (st : WalState) (f : os) : WalState := {|
  state_fd := f; active := active st; spare_buffers := spare_buffers st; pending_writes := pending_writes st;
  submitted_writes := submitted_writes st; writes_in_progress := writes_in_progress st;
  state_file_offset := state_file_offset st; state_allocated_size := state_allocated_size st;
  next_buffer_epoch := next_buffer_epoch st; buffer_capacity_bytes := buffer_capacity_bytes st |}.
Definition set_next_epoch (st : WalState) (e : Z) : WalState := {|
  state_fd := state_fd st; active := active st; spare_buffers := spare_buffers st; pending_writes := pending_writes st;
  submitted_writes := submitted_writes st; writes_in_progress := writes_in_progress st;
  state_file_offset := state_file_offset st; state_allocated_size := state_allocated_size st;
  next_buffer_epoch := e; buffer_capacity_bytes := buffer_capacity_bytes st |}.
Definition set_spare (st : WalState) (bs : list WalBuffer.t) : WalState := {|
  state_fd := state_fd st; active := active st; spare_buffers := bs; pending_writes := pending_writes st;
  submitted_writes := submitted_writes st; writes_in_progress := writes_in_progress st;
  state_file_offset := state_file_offset st; state_allocated_size := state_allocated_size st;
  next_buffer_epoch := next_buffer_epoch st; buffer_capacity_bytes := buffer_capacity_bytes st |}.
Definition set_pending (st : WalState) (ws : list PendingWalWrite) : WalState := {|
  state_fd := state_fd st; active := active st; spare_buffers := spare_buffers st; pending_writes := ws;
  submitted_writes := submitted_writes st; writes_in_progress := writes_in_progress st;
  state_file_offset := state_file_offset st; state_allocated_size := state_allocated_size st;
  next_buffer_epoch := next_buffer_epoch st; buffer_capacity_bytes := buffer_capacity_bytes st |}.
Definition set_submitted (st : WalState) (s : SubmittedWrites.t) (n : Z) : WalState := {|
  state_fd := state_fd st; active := active st; spare_buffers := spare_buffers st; pending_writes := pending_writes st;
  submitted_writes := s; writes_in_progress := n;
  state_file_offset := state_file_offset st; state_allocated_size := state_allocated_size st;
  next_buffer_epoch := next_buffer_epoch st; buffer_capacity_bytes := buffer_capacity_bytes st |}.
Definition set_file_end (st : WalState) (off size : Z) : WalState := {|
  state_fd := state_fd st; active := active st; spare_buffers := spare_buffers st; pending_writes := pending_writes st;
  submitted_writes := submitted_writes st; writes_in_progress := writes_in_progress st;
  state_file_offset := off; state_allocated_size := size;
  next_buffer_epoch := next_buffer_epoch st; buffer_capacity_bytes := buffer_capacity_bytes st |}.

Definition on_state_fd {A} (m : IO os A) : IO WalState A := zoom state_fd put_state_fd m.
(** A change of the active buffer. *)
Definition on_active (f : WalBuffer.t → WalBuffer.t) : IO WalState unit := modify (λ st, set_active st (f (active st))).

(** ** Sealing *)

Definition next_buffer_epoch_locked : IO WalState Z :=
  epoch ← gets next_buffer_epoch;
  _ ← modify (λ st, set_next_epoch st (Z.max (wrap 64 (next_buffer_epoch st + 1)) 1));
  mret epoch.

(** [Vec::pop] takes the last buffer. *)
Definition empty_buffer_locked : IO WalState WalBuffer.t :=
  epoch ← next_buffer_epoch_locked;
  spare ← gets spare_buffers;
  match last spare with
  | None => panicked
  | Some b =>
      _ ← modify (λ st, set_spare st (take (length spare - 1) spare));
      mret (WalBuffer.reset b epoch)
  end.

Definition WAL_PREALLOCATE_SEGMENTS : Z := 8.

(** [false] when there was nothing to seal. *)
Definition seal_active_buffer_locked (pre_extend_needs_fsync : bool) : IO WalState bool :=
  b ← gets active;
  if WalBuffer.used b =? 0 then mret false
  else
    let len := WalBuffer.used b in
    let max_lsn := WalBuffer.max_lsn b in
    file_offset ← gets state_file_offset;
    let write_end := file_offset + len in
    allocated ← gets state_allocated_size;
    _ ← (if allocated <? write_end then
           rounded ← lift (round_up_u64 write_end SEGMENT_SIZE);
           new_size ← lift (uadd 64 rounded (SEGMENT_SIZE * (WAL_PREALLOCATE_SEGMENTS - 1)));
           _ ← on_state_fd (extend_file new_size);
           _ ← (if pre_extend_needs_fsync then on_state_fd fdatasync_file else mret tt);
           modify (λ st, set_file_end st (state_file_offset st) new_size)
         else mret tt);
    _ ← modify (λ st, set_file_end st write_end (state_allocated_size st));
    new_active ← empty_buffer_locked;
    _ ← modify (λ st, set_active st new_active);
    _ ← modify (λ st, set_pending st (pending_writes st ++ [{|
           pending_buffer := b; pending_file_offset := file_offset; pending_len := len;
           pending_max_lsn := max_lsn |}]));
    mret true.

(** ** Record slots *)

Definition needs_new_batch (b : WalBuffer.t) : bool :=
  bool_decide (WalBuffer.open_batch_meta_offset b = None) || (WalBuffer.open_batch_count b =? BATCH_MAX_RECORDS).

(** The active buffer has no room for another record. *)
Definition must_seal (st : WalState) : bool :=
  let needed := if needs_new_batch (active st) then 2 * WAL_RECORD_SIZE else WAL_RECORD_SIZE in
  buffer_capacity_bytes st <? WalBuffer.used (active st) + needed.

(** The second half of [reserve_active_record_slot_locked]: the meta offset,
    the slot index and the data offset of the new record. *)
Definition open_slot : IO WalState (Z * Z * Z) :=
  b ← gets active;
  _ ← (if needs_new_batch b then
         let meta_start := WalBuffer.used b in
         let meta_end := meta_start + WAL_RECORD_SIZE in
         meta ← lift (slice (WalBuffer.buffer b) meta_start meta_end);
         meta ← lift (init_batch_meta meta);
         bytes ← lift (copy_from (WalBuffer.buffer b) meta_start meta_end meta);
         on_active (λ b, {|
           WalBuffer.buffer := bytes; WalBuffer.used := meta_end; WalBuffer.records := WalBuffer.records b;
           WalBuffer.epoch := WalBuffer.epoch b; WalBuffer.max_lsn := WalBuffer.max_lsn b;
           WalBuffer.open_batch_meta_offset := Some meta_start; WalBuffer.open_batch_count := 0;
           WalBuffer.max_batch_records := WalBuffer.max_batch_records b;
           WalBuffer.packed_logical := WalBuffer.packed_logical b |})
       else mret tt);
  b ← gets active;
  match WalBuffer.open_batch_meta_offset b with
  | None => panicked
  | Some meta_start => mret (meta_start, WalBuffer.open_batch_count b, WalBuffer.used b)
  end.

(** [reserve_active_record_slot_locked]; [None] when it waits for a spare
    buffer. [resumed] is true when it goes on from the wait. *)
Definition reserve_active_record_slot_locked (pre_extend_needs_fsync resumed : bool)
    : IO WalState (option (Z * Z * Z)) :=
  _ ← (if resumed then mret tt else on_active (λ b, WalBuffer.set_packed b None));
  st ← gets (λ st, st);
  if resumed || must_seal st then
    match spare_buffers st with
    | [] => mret None
    | _ =>
        _ ← seal_active_buffer_locked pre_extend_needs_fsync;
        r ← open_slot;
        mret (Some r)
    end
  else
    r ← open_slot;
    mret (Some r).

Definition finish_active_record_slot_locked (meta_start slot_idx : Z) (entry : BatchEntry.t) : IO WalState unit :=
  b ← gets active;
  let data_end := WalBuffer.used b + WAL_RECORD_SIZE in
  let meta_end := meta_start + WAL_RECORD_SIZE in
  meta ← lift (slice (WalBuffer.buffer b) meta_start meta_end);
  meta ← lift (write_batch_entry meta slot_idx entry);
  let batch_count := WalBuffer.open_batch_count b + 1 in
  meta ← lift (set_batch_meta_count meta batch_count);
  bytes ← lift (copy_from (WalBuffer.buffer b) meta_start meta_end meta);
  let full := batch_count =? BATCH_MAX_RECORDS in
  on_active (λ b, {|
    WalBuffer.buffer := bytes; WalBuffer.used := data_end; WalBuffer.records := WalBuffer.records b + 1;
    WalBuffer.epoch := WalBuffer.epoch b;
    WalBuffer.max_lsn :=
      if completes_record entry then Z.max (WalBuffer.max_lsn b) (BatchEntry.lsn entry) else WalBuffer.max_lsn b;
    WalBuffer.open_batch_meta_offset := if full then None else WalBuffer.open_batch_meta_offset b;
    WalBuffer.open_batch_count := if full then 0 else batch_count;
    WalBuffer.max_batch_records := Z.max (WalBuffer.max_batch_records b) batch_count;
    WalBuffer.packed_logical := WalBuffer.packed_logical b |}).

(** The data page of a slot is replaced by [f] of it. *)
Definition fill_slot (data_start : Z) (f : list byte → outcome (list byte)) : IO WalState unit :=
  b ← gets active;
  let data_end := data_start + WAL_RECORD_SIZE in
  page ← lift (slice (WalBuffer.buffer b) data_start data_end);
  page ← lift (f page);
  bytes ← lift (copy_from (WalBuffer.buffer b) data_start data_end page);
  on_active (λ b, WalBuffer.set_buffer b bytes).

(** ** Appending *)

(** [pre_extend_needs_fsync] is the backend's answer, fixed for a shard. *)
Context (pre_extend_needs_fsync : bool).

(** A method that returned, or waits for a spare buffer. *)
Inductive progress (A : Type) := Waiting | Finished (a : A).
Arguments Waiting {A}.
Arguments Finished {A} a.

(** The epoch and the encoded offset of a [BufferedWalRecord]. *)
Definition append_page_image_with_lsn (resumed : bool) (lsn page_id : Z) (fill_page : Z → list byte → list byte)
    : IO WalState (progress (Z * Z)) :=
  r ← reserve_active_record_slot_locked pre_extend_needs_fsync resumed;
  match r with
  | None => mret Waiting
  | Some (meta_start, slot_idx, data_start) =>
      _ ← fill_slot data_start (λ page, Ret (fill_page lsn page));
      _ ← finish_active_record_slot_locked meta_start slot_idx (BatchEntry.page_image lsn page_id 0);
      epoch ← gets (λ st, WalBuffer.epoch (active st));
      offset ← lift (encode_record_offset meta_start slot_idx);
      mret (Finished (epoch, offset))
  end.

(** The loop of [append_logical_record_with_lsn] from [chunk_idx] with [n]
    chunks to go; [Some idx] when it waits before chunk [idx]. *)
Fixpoint append_chunks (n : nat) (resumed : bool) (lsn kind : Z) (payload : list byte) (chunk_idx : Z)
    : IO WalState (option Z) :=
  match n with
  | O => mret None
  | S n =>
      let chunks := chunk_count (zlen payload) in
      let start := chunk_idx * LOGICAL_CHUNK_MAX_LEN in
      let end_ := Z.min (start + LOGICAL_CHUNK_MAX_LEN) (zlen payload) in
      let chunk := if start <? zlen payload then sub payload start (end_ - start) else [] in
      r ← reserve_active_record_slot_locked pre_extend_needs_fsync resumed;
      match r with
      | None => mret (Some chunk_idx)
      | Some (meta_start, slot_idx, data_start) =>
          _ ← fill_slot data_start (λ page, copy_from (fill (zlen page) x00) 0 (zlen chunk) chunk);
          let flags := 0 in
          let flags := if chunk_idx =? 0 then Z.lor flags LOGICAL_FLAG_FIRST else flags in
          let flags := if chunk_idx + 1 =? chunks then Z.lor flags LOGICAL_FLAG_LAST else flags in
          _ ← finish_active_record_slot_locked meta_start slot_idx
                (BatchEntry.logical_chunk lsn kind 0 flags (zlen chunk));
          append_chunks n false lsn kind payload (chunk_idx + 1)
      end
  end.

Definition try_append_packed_logical_locked (lsn kind : Z) (payload : list byte) (entry_len : Z) : IO WalState bool :=
  b ← gets active;
  match WalBuffer.packed_logical b with
  | None => mret false
  | Some slot =>
      if negb (WalBuffer.used b =? packed_data_start slot + WAL_RECORD_SIZE) then
        _ ← on_active (λ b, WalBuffer.set_packed b None);
        mret false
      else
        match checked_add 64 (packed_length slot) entry_len with
        | None => mret false
        | Some new_len =>
            if WAL_RECORD_SIZE <? new_len then mret false
            else
              let data_start := packed_data_start slot + packed_length slot in
              let page_end := packed_data_start slot + WAL_RECORD_SIZE in
              rest ← lift (slice (WalBuffer.buffer b) data_start page_end);
              match encode_packed_logical_entry rest lsn kind payload with
              | None => mret false
              | Some (rest, written) =>
                  bytes ← lift (copy_from (WalBuffer.buffer b) data_start page_end rest);
                  _ ← lift (debug_assert (written =? entry_len));
                  let max_lsn := Z.max (packed_max_lsn slot) lsn in
                  let meta_start := packed_meta_start slot in
                  let meta_end := meta_start + WAL_RECORD_SIZE in
                  meta ← lift (slice bytes meta_start meta_end);
                  meta ← lift (write_batch_entry meta (packed_slot_idx slot) (BatchEntry.packed_logical max_lsn 0 new_len));
                  bytes ← lift (copy_from bytes meta_start meta_end meta);
                  _ ← on_active (λ b, WalBuffer.set_max_lsn (WalBuffer.set_packed (WalBuffer.set_buffer b bytes)
                        (Some {| packed_meta_start := meta_start; packed_slot_idx := packed_slot_idx slot;
                                 packed_data_start := packed_data_start slot; packed_length := new_len;
                                 packed_max_lsn := max_lsn |}))
                        (Z.max (WalBuffer.max_lsn b) max_lsn));
                  mret true
              end
        end
  end.

Definition append_packed_logical_with_lsn (resumed : bool) (lsn kind : Z) (payload : list byte)
    : IO WalState (progress unit) :=
  match packed_logical_entry_len (zlen payload) with
  | None => fail InvalidInput
  | Some entry_len =>
      if WAL_RECORD_SIZE <? entry_len then fail InvalidInput
      else
        packed ← (if resumed then mret false else try_append_packed_logical_locked lsn kind payload entry_len);
        if packed : bool then mret (Finished tt)
        else
          r ← reserve_active_record_slot_locked pre_extend_needs_fsync resumed;
          match r with
          | None => mret Waiting
          | Some (meta_start, slot_idx, data_start) =>
              _ ← fill_slot data_start (λ page, Ret (fill (zlen page) x00));
              b ← gets active;
              page ← lift (slice (WalBuffer.buffer b) data_start (data_start + WAL_RECORD_SIZE));
              match encode_packed_logical_entry page lsn kind payload with
              | None => fail InvalidInput
              | Some (page, written) =>
                  _ ← fill_slot data_start (λ _, Ret page);
                  _ ← lift (debug_assert (written =? entry_len));
                  _ ← finish_active_record_slot_locked meta_start slot_idx (BatchEntry.packed_logical lsn 0 entry_len);
                  _ ← on_active (λ b, WalBuffer.set_packed b
                        (Some {| packed_meta_start := meta_start; packed_slot_idx := slot_idx;
                                 packed_data_start := data_start; packed_length := entry_len;
                                 packed_max_lsn := lsn |}));
                  mret (Finished tt)
              end
          end
  end.

(** [append_logical_record_with_lsn] from its start, or from its wait before
    chunk [chunk_idx]: the chunk before which it waits, [None] when it returned. *)
Definition append_logical_record_with_lsn (resumed : bool) (lsn kind : Z) (payload : list byte) (chunk_idx : Z)
    : IO WalState (option Z) :=
  if negb (kind =? LOGICAL_KIND_PAGE_IMAGE_BYTES) && (zlen payload <=? PACKED_LOGICAL_MAX_PAYLOAD_LEN) then
    p ← append_packed_logical_with_lsn resumed lsn kind payload;
    mret (match p with Waiting => Some chunk_idx | Finished _ => None end)
  else
    let chunks := chunk_count (zlen payload) in
    append_chunks (Z.to_nat (chunks - chunk_idx)) resumed lsn kind payload chunk_idx.

(** [overwrite_buffered_page_image_with_lsn] for a record of this shard. *)
Definition overwrite_buffered_page_image_with_lsn (epoch offset lsn page_id : Z)
    (fill_page : Z → list byte → list byte) : IO WalState bool :=
  b ← gets active;
  if negb (WalBuffer.epoch b =? epoch) then mret false
  else
    let '(meta_start, slot_idx) := decode_record_offset offset in
    let meta_end := meta_start + WAL_RECORD_SIZE in
    if WalBuffer.used b <? meta_end then mret false
    else
      meta ← lift (slice (WalBuffer.buffer b) meta_start meta_end);
      match batch_meta_count_unchecked meta with
      | None => mret false
      | Some count =>
          if count <=? slot_idx then mret false
          else
            entry ← lift (read_batch_entry meta slot_idx);
            if negb (BatchEntry.kind entry =? RECORD_KIND_PAGE_IMAGE) || negb (BatchEntry.arg entry =? page_id)
            then mret false
            else
              meta ← lift (overwrite_batch_entry_lsn meta slot_idx lsn);
              meta ← lift (overwrite_batch_entry_crc meta slot_idx 0);
              bytes ← lift (copy_from (WalBuffer.buffer b) meta_start meta_end meta);
              _ ← on_active (λ b, WalBuffer.set_buffer b bytes);
              let data_start := meta_start + WAL_RECORD_SIZE * (slot_idx + 1) in
              _ ← fill_slot data_start (λ page, Ret (fill_page lsn page));
              _ ← on_active (λ b, WalBuffer.set_max_lsn b (Z.max (WalBuffer.max_lsn b) lsn));
              mret true
      end.

(** ** Writing sealed buffers *)

Definition pop_pending_write_locked : IO WalState (option PendingWalWrite) :=
  ws ← gets pending_writes;
  match ws with
  | [] => mret None
  | w :: ws =>
      _ ← modify (λ st, set_pending st ws);
      _ ← modify (λ st, set_submitted st (SubmittedWrites.push (submitted_writes st) (pending_max_lsn w))
                          (writes_in_progress st + 1));
      mret (Some w)
  end.

(** [submit_write] of the [fdatasync] backend: seal, then write the file. *)
Definition submit_write (w : PendingWalWrite) : IO WalState WalBuffer.t :=
  bytes ← lift (finalize_buffer_records (WalBuffer.buffer (pending_buffer w)) (pending_len w));
  data ← lift (slice bytes 0 (pending_len w));
  _ ← on_state_fd (pwrite_all data (pending_file_offset w));
  mret (WalBuffer.set_buffer (pending_buffer w) bytes).

(** The [Written] completion of [handle_completion]: the contiguous written
    LSN, when it advances. *)
Definition handle_written (b : WalBuffer.t) (max_lsn : Z) : IO WalState (option Z) :=
  s ← gets submitted_writes;
  r ← lift (SubmittedWrites.complete s max_lsn);
  _ ← modify (λ st, set_submitted st r.2 (writes_in_progress st));
  epoch ← next_buffer_epoch_locked;
  _ ← modify (λ st, set_spare st (spare_buffers st ++ [WalBuffer.reset b epoch]));
  _ ← modify (λ st, set_submitted st (submitted_writes st) (writes_in_progress st - 1));
  mret r.1.

(** Pop a sealed buffer, write it, complete. *)
Definition write_one : IO WalState (option Z) :=
  w ← pop_pending_write_locked;
  match w with
  | None => mret None
  | Some w =>
      b ← submit_write w;
      handle_written b (pending_max_lsn w)
  end.

(** The part of [driver_loop] that writes, once a write was asked for: with no
    buffer sealed it seals the active one, if there is a spare to go on with. *)
Definition driver_write : IO WalState (option Z) :=
  st ← gets (λ st, st);
  if bool_decide (pending_writes st = []) && bool_decide (spare_buffers st = []) then mret None
  else
    _ ← (if bool_decide (pending_writes st = []) && (0 <? WalBuffer.used (active st))
         then seal_active_buffer_locked pre_extend_needs_fsync else mret false);
    write_one.

(** The state [WalInner::new] starts a shard with. *)
Definition new_state (fd : os) (file : OpenWalFile) (max_in_flight_writes buffer_capacity_bytes : Z) : WalState :=
  let buffer_count_limit := if 1 <? max_in_flight_writes then 3 else 2 in
  {| state_fd := fd;
     active := WalBuffer.new 1 buffer_capacity_bytes;
     spare_buffers := map (λ index, WalBuffer.new (index + 1) buffer_capacity_bytes) (seqZ 1 (buffer_count_limit - 1));
     pending_writes := [];
     submitted_writes := SubmittedWrites.new (WalReplay.max_lsn file);
     writes_in_progress := 0;
     state_file_offset := file_offset file;
     state_allocated_size := allocated_size file;
     next_buffer_epoch := buffer_count_limit + 1;
     buffer_capacity_bytes := buffer_capacity_bytes |}.

End shard.

Arguments Waiting {A}.
Arguments Finished {A} a.
