(* ===== verification/WalApi.v ===== *)
(** * Write-ahead log: claiming LSNs and the public append methods

    From [src/crates/wal/src/wal_impl.rs]: the counter that LSNs are claimed
    from, the shard an LSN belongs to, and the append methods callers use,
    on the shard of their LSN. *)

From S2P Require Import Prelude Bytes FrameKernel Posix WalFormat WalCodec WalCodecSpec WalRecovery WalReplay WalShard.
#[local] Open Scope Z_scope.

(** ** Claiming LSNs *)

Section claims.
Context `{Build}.

(** [saturating_sub(1)], then the remainder. *)
Definition shard_idx_for_lsn (shard_count lsn : Z) : Z :=
  if shard_count =? 1 then 0 else Z.max (lsn - 1) 0 mod shard_count.

(** [claim_lsn] by a thread of shard [shard_idx]: the LSN and the counter
    after it. The compare-exchange loop retries until the counter it read is
    the one it replaces, so a claim is one atomic change of the counter. *)
Definition claim_lsn (shard_count shard_idx next_lsn : Z) : outcome (Z * Z) :=
  if shard_count =? 1 then Ret (next_lsn, wrap 64 (next_lsn + 1))
  else
    lsn ← align_lsn_to_shard next_lsn shard_idx shard_count;
    next ← uadd 64 lsn 1;
    Ret (lsn, next).

(** Claims by threads of the given shards, one after the other. *)
Fixpoint claim_all (shard_count next_lsn : Z) (shards : list Z) : outcome (list Z * Z) :=
  match shards with
  | [] => Ret ([], next_lsn)
  | shard_idx :: shards =>
      c ← claim_lsn shard_count shard_idx next_lsn;
      r ← claim_all shard_count c.2 shards;
      Ret (c.1 :: r.1, r.2)
  end.

Lemma claim_lsn_spec shard_count shard_idx next_lsn :
  1 ≤ next_lsn → 0 ≤ shard_idx < shard_count → shard_count ≤ 256 → next_lsn + 257 < 2 ^ 64 →
  ∃ lsn, claim_lsn shard_count shard_idx next_lsn = Ret (lsn, lsn + 1) ∧ next_lsn ≤ lsn < next_lsn + shard_count ∧
    shard_idx_for_lsn shard_count lsn = shard_idx.
Proof.
  intros Hn Hi Hc Hlim. unfold claim_lsn, shard_idx_for_lsn. destruct (Z.eqb_spec shard_count 1) as [->|Hne].
  - exists next_lsn. rewrite wrap_small by lia. split_and!; [done|lia|lia|lia].
  - destruct (align_lsn_spec next_lsn shard_idx shard_count) as (l & -> & Hs & Hge & Hfirst); [lia..|].
    rewrite bind_Ret. assert (Hub : l < next_lsn + shard_count).
    { apply Z.nle_gt. intros Hle. apply (Hfirst (l - shard_count)); [lia|].
      replace (l - shard_count - 1) with (l - 1 + (-1) * shard_count) by lia. by rewrite Z.mod_add by lia. }
    rewrite uadd_in_range by lia. exists l. split_and!; [done|lia|lia|]. by rewrite Z.max_l by lia.
Qed.

(** LSNs are claimed once, in order, for the claimer's shard. Threads that
    claim one after the other, each for its own shard, get strictly
    increasing LSNs, each of which [shard_idx_for_lsn] routes back to the
    shard of the thread that claimed it, and no claim wraps or panics while
    the counter is below the end of its range. *)
Theorem claims_ordered shard_count next_lsn shards :
  1 ≤ next_lsn → 1 ≤ shard_count ≤ 256 → Forall (λ i, 0 ≤ i < shard_count) shards →
  next_lsn + 256 * (zlen shards + 2) < 2 ^ 64 →
  ∃ lsns next, claim_all shard_count next_lsn shards = Ret (lsns, next) ∧
    StronglySorted Z.lt lsns ∧ Forall (λ l, next_lsn ≤ l < next) lsns ∧
    map (shard_idx_for_lsn shard_count) lsns = shards.
Proof.
  intros Hn Hc Hall. revert next_lsn Hn. induction Hall as [|i shards Hi _ IH]; intros next_lsn Hn Hlim.
  { exists [], next_lsn. split_and!; [done|constructor|done|done]. }
  rewrite zlen_cons in Hlim. pose proof (zlen_nonneg shards).
  destruct (claim_lsn_spec shard_count i next_lsn) as (l & El & Hl & Hs); [lia..|].
  destruct (IH (l + 1)) as (lsns & next & E & Hsort & Hin & Hmap); [lia|lia|].
  exists (l :: lsns), next. cbn [claim_all]. rewrite El, bind_Ret. cbn [fst snd]. rewrite E, bind_Ret. cbn [fst snd].
  assert (Hnext : l < next).
  { destruct lsns as [|x lsns]; [|apply Forall_cons in Hin as [Hx _]; lia].
    destruct shards; [|simpl in Hmap; done]. injection E as <-. lia. }
  split_and!; [done| | |by cbn [map]; rewrite Hs, Hmap].
  - constructor; [done|]. eapply Forall_impl; [exact Hin|]. simpl. lia.
  - constructor; [lia|]. eapply Forall_impl; [exact Hin|]. simpl. lia.
Qed.

End claims.

Lemma claims_ordered_witness :
  ∃ lsns next, claim_all (H := debug_4k) 4 9 [2; 0; 3; 3] = Ret (lsns, next) ∧ StronglySorted Z.lt lsns ∧
    map (shard_idx_for_lsn 4) lsns = [2; 0; 3; 3].
Proof.
  destruct (@claims_ordered debug_4k 4 9 [2; 0; 3; 3]) as (lsns & next & E & Hs & _ & Hm); [lia|lia| |vm_compute; reflexivity|].
  { repeat constructor; lia. }
  exists lsns, next. exact (conj E (conj Hs Hm)).
Defined.

(** ** The public append methods *)

Section append.
Context `{Build} `{PosixFile}.
Context (pre_extend_needs_fsync : bool).

(** The methods that may wait are started here; what they answer when they
    have waited is [append_logical_record_with_lsn]'s and
    [append_page_image_with_lsn]'s. *)
Definition append_logical_with_lsn (lsn kind : Z) (payload : list byte) : IO WalState (option Z) :=
  _ ← ret_result (validate_caller_logical_kind kind);
  append_logical_record_with_lsn pre_extend_needs_fsync false lsn kind payload 0.

(** [false] when the versions of the page need a full image. *)
Definition append_page_patch_with_lsn (lsn page_id : Z) (before after : list byte) : IO WalState (bool * option Z) :=
  match encode_page_patch_payload page_id before after with
  | None => mret (false, None)
  | Some payload =>
      p ← append_logical_record_with_lsn pre_extend_needs_fsync false lsn LOGICAL_KIND_PAGE_PATCH payload 0;
      mret (true, p)
  end.

Definition append_page_patch_ranges_with_lsn (lsn page_id : Z) (ranges : list (Z * list byte))
    : IO WalState (option Z * option Z) :=
  match encode_page_patch_ranges_payload page_id ranges with
  | None => mret (None, None)
  | Some payload =>
      p ← append_logical_record_with_lsn pre_extend_needs_fsync false lsn LOGICAL_KIND_PAGE_PATCH payload 0;
      mret (Some (zlen payload), p)
  end.

Definition append_page_image_bytes_with_lsn (lsn page_id page_len : Z) (fill_page : Z → list byte → list byte)
    : IO WalState (option Z) :=
  payload ← lift (encode_page_image_bytes_payload page_id page_len (fill_page lsn));
  append_logical_record_with_lsn pre_extend_needs_fsync false lsn LOGICAL_KIND_PAGE_IMAGE_BYTES payload 0.

Definition can_overwrite_buffered_page_image (epoch offset page_id : Z) : IO WalState bool :=
  b ← gets active;
  if negb (WalBuffer.epoch b =? epoch) then mret false
  else
    let '(meta_start, slot_idx) := decode_record_offset offset in
    let meta_end := meta_start + WAL_RECORD_SIZE in
    if WalBuffer.used b <? meta_end then mret false
    else
      meta ← lift (slice (WalBuffer.buffer b) meta_start meta_end);
      match batch_meta_count_unchecked meta with
      | None => mret false
      | Some count =>
          if count <=? slot_idx then mret false
          else
            entry ← lift (read_batch_entry meta slot_idx);
            mret ((BatchEntry.kind entry =? RECORD_KIND_PAGE_IMAGE) && (BatchEntry.arg entry =? page_id))
      end.

(** [append_or_overwrite_page_image] with its LSN claimed, for a previous
    record of the same shard: the handle of the record. The lock is released
    between the check and the overwrite. *)
Definition append_or_overwrite_page_image (prev_record : option (Z * Z)) (lsn page_id : Z)
    (fill_page : Z → list byte → list byte) : IO WalState (progress (Z * Z)) :=
  match prev_record with
  | Some (epoch, offset) =>
      can ← can_overwrite_buffered_page_image epoch offset page_id;
      if can : bool then
        _ ← overwrite_buffered_page_image_with_lsn epoch offset lsn page_id fill_page;
        mret (Finished (epoch, offset))
      else append_page_image_with_lsn pre_extend_needs_fsync false lsn page_id fill_page
  | None => append_page_image_with_lsn pre_extend_needs_fsync false lsn page_id fill_page
  end.

End append.

(** * Write-ahead log: the front end over the shards

    From [src/crates/wal/src/wal_impl.rs]: how [Wal] spreads LSNs over its
    shards, which marks a shard keeps for its callers, and what committing,
    flushing and asking for durability do with them. The writer threads of
    the shards are a parameter: [reached target] is the durable mark at which
    a wait for [target] ends. *)

#[local] Open Scope Z_scope.

Inductive CommitMode := Strict | Relaxed.

(** The marks of [WalInner]. *)
Module WalMarks.
Record t := { appended_lsn : Z; durable_lsn : Z; requested_write_lsn : Z; requested_durable_lsn : Z }.
Definition new (max_lsn : Z) : t :=
  {| appended_lsn := max_lsn; durable_lsn := max_lsn; requested_write_lsn := max_lsn; requested_durable_lsn := max_lsn |}.

(** [appended_lsn.fetch_max(lsn)], at the end of every append. *)
Definition note_appended (self : t) (lsn : Z) : t :=
  {| appended_lsn := Z.max (appended_lsn self) lsn; durable_lsn := durable_lsn self;
     requested_write_lsn := requested_write_lsn self; requested_durable_lsn := requested_durable_lsn self |}.
Definition current_flush_target (self : t) : Z := appended_lsn self.
Definition request_durable (self : t) (target_lsn : Z) : t :=
  {| appended_lsn := appended_lsn self; durable_lsn := durable_lsn self;
     requested_write_lsn := Z.max (requested_write_lsn self) target_lsn;
     requested_durable_lsn := Z.max (requested_durable_lsn self) target_lsn |}.
End WalMarks.

(** [shards] are [inner] and [extra_shards]; the thread's shard and last LSN
    are those of the caller. *)
Module Wal.
Record t := {
  next_lsn : Z;
  shards : list WalMarks.t;
  commit_mode : CommitMode;
  thread_shard : Z;
  thread_last_lsn : Z;
}.

Definition with_shards (self : t) (s : list WalMarks.t) : t :=
  {| next_lsn := next_lsn self; shards := s; commit_mode := commit_mode self;
     thread_shard := thread_shard self; thread_last_lsn := thread_last_lsn self |}.
Definition set_commit_mode (self : t) (mode : CommitMode) : t :=
  {| next_lsn := next_lsn self; shards := shards self; commit_mode := mode;
     thread_shard := thread_shard self; thread_last_lsn := thread_last_lsn self |}.

Definition shard_count (self : t) : Z := zlen (shards self).
Definition inner_idx_for_lsn (self : t) (lsn : Z) : nat := Z.to_nat (shard_idx_for_lsn (shard_count self) lsn).
Definition inner_for_lsn (self : t) (lsn : Z) : outcome WalMarks.t := expect (shards self !! inner_idx_for_lsn self lsn).

Definition claim `{Build} (self : t) : outcome (Z * t) :=
  r ← claim_lsn (shard_count self) (thread_shard self) (next_lsn self);
  Ret (r.1, {| next_lsn := r.2; shards := shards self; commit_mode := commit_mode self;
               thread_shard := thread_shard self; thread_last_lsn := Z.max (thread_last_lsn self) r.1 |}).

Definition note_appended (self : t) (lsn : Z) : t :=
  with_shards self (alter (λ s, WalMarks.note_appended s lsn) (inner_idx_for_lsn self lsn) (shards self)).

Definition max_lsn (self : t) (load : WalMarks.t → Z) : Z := foldr (λ s m, Z.max (load s) m) 0 (shards self).
Definition durable_lsn (self : t) : Z := max_lsn self WalMarks.durable_lsn.

Definition is_lsn_durable (self : t) (lsn : Z) : bool :=
  (lsn =? 0) || match inner_for_lsn self lsn with Ret s => lsn <=? WalMarks.durable_lsn s | Panic => false end.

Section waits.
Context (reached : Z → Z).

Definition wait_for_durable (self : WalMarks.t) (target_lsn : Z) : WalMarks.t * Z :=
  let current := WalMarks.durable_lsn self in
  if target_lsn <=? current then (self, current) else
  let self := WalMarks.request_durable self target_lsn in
  ({| WalMarks.appended_lsn := WalMarks.appended_lsn self; WalMarks.durable_lsn := reached target_lsn;
      WalMarks.requested_write_lsn := WalMarks.requested_write_lsn self;
      WalMarks.requested_durable_lsn := WalMarks.requested_durable_lsn self |}, reached target_lsn).

Definition strict_flush_at_least (self : WalMarks.t) (target_lsn : Z) : WalMarks.t * Z :=
  let current := WalMarks.durable_lsn self in
  if target_lsn <=? current then (self, current) else
  wait_for_durable (WalMarks.request_durable self target_lsn) target_lsn.

Definition commit_at_least (mode : CommitMode) (self : WalMarks.t) (target_lsn : Z) : WalMarks.t * Z :=
  let current := WalMarks.durable_lsn self in
  if target_lsn <=? current then (self, current) else
  match mode with
  | Strict => wait_for_durable (WalMarks.request_durable self target_lsn) target_lsn
  | Relaxed => (self, target_lsn)
  end.

(** One shard, by the LSN it owns. *)
Definition on_inner (f : WalMarks.t → Z → WalMarks.t * Z) (self : t) (lsn : Z) : t * Z :=
  match shards self !! inner_idx_for_lsn self lsn with
  | Some s => (with_shards self (<[inner_idx_for_lsn self lsn := (f s lsn).1]> (shards self)), (f s lsn).2)
  | None => (self, 0)
  end.

Definition flush_at_least (self : t) (target_lsn : Z) : t * Z := on_inner strict_flush_at_least self target_lsn.

(** Every shard, up to what it has appended; shards without appends are left. *)
Definition on_targets (f : WalMarks.t → Z → WalMarks.t * Z) (self : t) : t * Z :=
  let step s := let target := WalMarks.current_flush_target s in if target =? 0 then (s, 0) else f s target in
  (with_shards self (map (λ s, (step s).1) (shards self)), foldr (λ s m, Z.max (step s).2 m) 0 (shards self)).

Definition flush (self : t) : t * Z := on_targets strict_flush_at_least self.
Definition commit (self : t) : t * Z := on_targets (commit_at_least (commit_mode self)) self.
Definition commit_current_thread (self : t) : t * Z :=
  let target := thread_last_lsn self in
  if target =? 0 then commit self else on_inner (commit_at_least (commit_mode self)) self target.

(** ** What they promise *)

Context (Hreached : ∀ target, target ≤ reached target).

Lemma strict_flush_durable s target : target ≤ WalMarks.durable_lsn (strict_flush_at_least s target).1 ∧
  WalMarks.durable_lsn s ≤ WalMarks.durable_lsn (strict_flush_at_least s target).1.
Proof using Hreached.
  unfold strict_flush_at_least, wait_for_durable. cbn [WalMarks.request_durable WalMarks.durable_lsn].
  destruct (Z.leb_spec target (WalMarks.durable_lsn s)) as [Hle|Hgt]; cbn; [lia|]. specialize (Hreached target). lia.
Qed.

Lemma zlen_with_shards self s : zlen s = zlen (shards self) → shard_count (with_shards self s) = shard_count self.
Proof. done. Qed.

(** A flush of one LSN makes it durable, and the marks of the other shards
    stay where they are. *)
Lemma flush_at_least_durable self lsn s :
  shards self !! inner_idx_for_lsn self lsn = Some s → is_lsn_durable (flush_at_least self lsn).1 lsn = true ∧
  ∀ i, i ≠ inner_idx_for_lsn self lsn → shards (flush_at_least self lsn).1 !! i = shards self !! i.
Proof using Hreached.
  intros E. unfold flush_at_least, on_inner. rewrite E. cbn [fst]. split.
  - unfold is_lsn_durable, inner_for_lsn. apply orb_true_iff. right.
    assert (inner_idx_for_lsn (with_shards self (<[inner_idx_for_lsn self lsn := (strict_flush_at_least s lsn).1]> (shards self))) lsn
      = inner_idx_for_lsn self lsn) as ->.
    { unfold inner_idx_for_lsn. by rewrite zlen_with_shards by (unfold zlen; by rewrite length_insert). }
    cbn [with_shards shards]. rewrite list_lookup_insert_eq by (by eapply lookup_lt_Some). cbn. apply Z.leb_le, strict_flush_durable.
  - intros i Hi. cbn. by rewrite list_lookup_insert_ne.
Qed.

(** Durability is not lost. *)
Lemma flush_at_least_mono self lsn l : is_lsn_durable self l = true → is_lsn_durable (flush_at_least self lsn).1 l = true.
Proof using Hreached.
  unfold flush_at_least, on_inner. destruct (shards self !! inner_idx_for_lsn self lsn) as [s|] eqn:E; [|done]. cbn [fst].
  unfold is_lsn_durable, inner_for_lsn. rewrite !orb_true_iff. intros [?|Hd]; [by left|right].
  assert (Hi : ∀ sh, zlen sh = zlen (shards self) → inner_idx_for_lsn (with_shards self sh) l = inner_idx_for_lsn self l).
  { intros sh Hz. unfold inner_idx_for_lsn. by rewrite zlen_with_shards. }
  rewrite Hi by (unfold zlen; by rewrite length_insert). cbn [with_shards shards].
  destruct (decide (inner_idx_for_lsn self lsn = inner_idx_for_lsn self l)) as [Eq|Ne].
  - rewrite <-Eq in *. rewrite E in Hd. cbn in Hd. apply Z.leb_le in Hd.
    rewrite list_lookup_insert_eq by (by eapply lookup_lt_Some). cbn. apply Z.leb_le. pose proof (strict_flush_durable s lsn). lia.
  - by rewrite list_lookup_insert_ne.
Qed.

(** A flush makes durable whatever was appended, on every shard. *)
Lemma flush_durable self lsn s :
  shards self !! inner_idx_for_lsn self lsn = Some s → 1 ≤ lsn ≤ WalMarks.appended_lsn s → is_lsn_durable (flush self).1 lsn = true.
Proof using Hreached.
  intros E Hl. unfold flush, on_targets, is_lsn_durable, inner_for_lsn. cbn [fst]. apply orb_true_iff. right.
  assert (Hi : ∀ sh, zlen sh = zlen (shards self) → inner_idx_for_lsn (with_shards self sh) lsn = inner_idx_for_lsn self lsn).
  { intros sh Hz. unfold inner_idx_for_lsn. by rewrite zlen_with_shards. }
  rewrite Hi by (unfold zlen; by rewrite length_map). cbn [with_shards shards]. rewrite list_lookup_fmap, E. cbn.
  unfold WalMarks.current_flush_target. destruct (Z.eqb_spec (WalMarks.appended_lsn s) 0); [lia|].
  apply Z.leb_le. pose proof (strict_flush_durable s (WalMarks.appended_lsn s)). lia.
Qed.

Lemma flush_mono self lsn : is_lsn_durable self lsn = true → is_lsn_durable (flush self).1 lsn = true.
Proof using Hreached.
  unfold flush, on_targets, is_lsn_durable, inner_for_lsn. cbn [fst]. rewrite !orb_true_iff. intros [?|Hd]; [by left|right].
  assert (Hi : ∀ sh, zlen sh = zlen (shards self) → inner_idx_for_lsn (with_shards self sh) lsn = inner_idx_for_lsn self lsn).
  { intros sh Hz. unfold inner_idx_for_lsn. by rewrite zlen_with_shards. }
  rewrite Hi by (unfold zlen; by rewrite length_map). cbn [with_shards shards]. rewrite list_lookup_fmap.
  destruct (shards self !! inner_idx_for_lsn self lsn) as [s|]; [|done]. cbn in *. apply Z.leb_le in Hd. apply Z.leb_le.
  destruct (WalMarks.current_flush_target s =? 0); [done|]. pose proof (strict_flush_durable s (WalMarks.current_flush_target s)). lia.
Qed.
End waits.
End Wal.
