(* ===== verification/WalShardInv.v ===== *)
(** * Write-ahead log: what a shard's buffers hold

    The active buffer, the sealed buffers waiting to be written and the file
    hold one sequence of record slots; every operation of [WalShard] extends
    or moves that sequence, and a finished write makes its part readable. *)

From S2P Require Import Prelude Bytes FrameKernel Posix PageStoreInv WalFormat WalBatch WalCodec WalPatch WalCodecSpec WalRecovery WalReplay WalReplaySpec WalSlots WalShard.
#[local] Open Scope Z_scope.

Section buffers.
Context `{Build} `{Crc32} `{PosixFile}.

(** The largest LSN of a completed record, or [m]. *)
Definition max_completed (m : Z) (ss : list slot) : Z :=
  fold_left (λ m s, if completes_record s.1 then Z.max m (BatchEntry.lsn s.1) else m) ss m.

Lemma max_completed_snoc m ss s :
  max_completed m (ss ++ [s]) = if completes_record s.1 then Z.max (max_completed m ss) (BatchEntry.lsn s.1) else max_completed m ss.
Proof. unfold max_completed. by rewrite fold_left_app. Qed.

Lemma max_completed_bound m ss :
  m ≤ max_completed m ss ∧ (max_completed m ss = m ∨ ∃ s, s ∈ ss ∧ completes_record s.1 = true ∧ max_completed m ss = BatchEntry.lsn s.1).
Proof.
  induction ss as [|s ss [IH1 IH2] _] using rev_ind; [split; [done|by left]|]. rewrite max_completed_snoc.
  destruct (completes_record s.1) eqn:E; [|split; [done|]; destruct IH2 as [|(x & ? & ?)]; [by left|right; exists x; set_solver]].
  split; [lia|]. destruct (Z.max_spec (max_completed m ss) (BatchEntry.lsn s.1)) as [[_ ->]|[_ ->]].
  - right. exists s. split_and!; [set_solver|done|done].
  - destruct IH2 as [|(x & ? & ?)]; [by left|right; exists x; set_solver].
Qed.

Lemma max_completed_app ss1 ss2 : max_completed 0 (ss1 ++ ss2) = Z.max (max_completed 0 ss1) (max_completed 0 ss2).
Proof.
  induction ss2 as [|s ss2 IH] using rev_ind.
  - rewrite app_nil_r. pose proof (max_completed_bound 0 ss1) as [? _]. simpl. lia.
  - rewrite app_assoc, !max_completed_snoc. destruct (completes_record s.1); lia.
Qed.

Lemma max_completed_sealed m ss : max_completed m (sealed_entries ss) = max_completed m ss.
Proof.
  induction ss as [|s ss IH] using rev_ind; [done|]. unfold sealed_entries in *. rewrite map_app. simpl.
  by rewrite !max_completed_snoc, IH.
Qed.

(** The last batch of a sequence of batches. *)
Record last_batch (obs : list batch) (slotss : list (list slot)) (off : Z) (sl : list slot) : Prop := {
  last_split : ∃ obs0 b0 slotss0, obs = obs0 ++ [b0] ∧ slotss = slotss0 ++ [sl] ∧ off = zlen (log_bytes obs0);
}.

Definition open_batch_rep (b : WalBuffer.t) (obs : list batch) (slotss : list (list slot)) : Prop :=
  match WalBuffer.open_batch_meta_offset b with
  | None => WalBuffer.open_batch_count b = 0
  | Some off => ∃ sl, last_batch obs slotss off sl ∧ WalBuffer.open_batch_count b = zlen sl ∧ zlen sl < BATCH_MAX_RECORDS
  end.

Definition packed_rep (b : WalBuffer.t) (obs : list batch) (slotss : list (list slot)) : Prop :=
  match WalBuffer.packed_logical b with
  | None => True
  | Some p => ∃ sl s rs, last_batch obs slotss (packed_meta_start p) (sl ++ [s]) ∧ packed_slot_idx p = zlen sl ∧
      packed_data_start p = WalBuffer.used b - PAGE_SIZE ∧ packed_length p = BatchEntry.len s.1 ∧
      packed_max_lsn p = BatchEntry.lsn s.1 ∧ packed_holds s rs
  end.

(** A buffer of [cap] bytes that holds the slots [ss]. *)
Record holds (cap : Z) (b : WalBuffer.t) (ss : list slot) : Prop := {
  holds_cap : zlen (WalBuffer.buffer b) = cap;
  holds_lsns : WalBuffer.max_lsn b = max_completed 0 ss;
  holds_layout : ∃ obs slotss post, WalBuffer.buffer b = log_bytes obs ++ post ∧ Forall2 open_batch obs slotss ∧
    ss = concat slotss ∧ WalBuffer.used b = zlen (log_bytes obs) ∧
    open_batch_rep b obs slotss ∧ packed_rep b obs slotss;
}.

(** A buffer with the slot at [idx] of the batch at [off] reserved, its data
    page at [data_start]. *)
Record reserved (cap : Z) (b : WalBuffer.t) (ss : list slot) (off idx data_start : Z) (page : list byte) : Prop := {
  reserved_cap : zlen (WalBuffer.buffer b) = cap;
  reserved_lsns : WalBuffer.max_lsn b = max_completed 0 ss;
  reserved_open : WalBuffer.open_batch_meta_offset b = Some off;
  reserved_packed : WalBuffer.packed_logical b = None;
  reserved_page : zlen page = PAGE_SIZE;
  reserved_layout : ∃ obs slotss m sl post,
    WalBuffer.buffer b = log_bytes obs ++ m ++ concat (map snd sl) ++ page ++ post ∧
    Forall2 open_batch obs slotss ∧ ss = concat slotss ++ sl ∧ meta_header m (zlen sl) ∧
    Forall slot_ok sl ∧ zlen sl < BATCH_MAX_RECORDS ∧
    (∀ j s, sl !! j = Some s → entry_at m (Z.of_nat j) = s.1) ∧
    off = zlen (log_bytes obs) ∧ idx = zlen sl ∧ WalBuffer.open_batch_count b = zlen sl ∧
    data_start = WalBuffer.used b ∧ WalBuffer.used b = off + PAGE_SIZE + zlen sl * PAGE_SIZE;
}.

Lemma log_bytes_app bs1 bs2 : log_bytes (bs1 ++ bs2) = log_bytes bs1 ++ log_bytes bs2.
Proof. unfold log_bytes. by rewrite map_app, concat_app. Qed.
Lemma log_bytes_one b : log_bytes [b] = batch_bytes b.
Proof. unfold log_bytes. simpl. by rewrite app_nil_r. Qed.

Lemma zlen_pages sl : Forall slot_ok sl → zlen (concat (map snd sl)) = zlen sl * PAGE_SIZE.
Proof.
  intros Hs. rewrite zlen_concat; [unfold zlen; by rewrite length_map|].
  unfold page_sized. apply Forall_map. eapply Forall_impl; [exact Hs|]. intros s. apply slot_page.
Qed.

(** ** The three steps of an append *)

(** What is after the reserved slots is a page and the rest of the buffer. *)
Lemma split_page (post : list byte) : PAGE_SIZE ≤ zlen post → post = sub post 0 PAGE_SIZE ++ sub post PAGE_SIZE (zlen post - PAGE_SIZE).
Proof. intros Hp. rewrite <-sub_split by page_lia. replace (PAGE_SIZE + (zlen post - PAGE_SIZE)) with (zlen post) by lia. by rewrite sub_all. Qed.

Lemma fill_slot_spec cap st ss off idx data_start page f page' E :
  reserved cap (active st) ss off idx data_start page → f page = Ret page' → zlen page' = PAGE_SIZE →
  returns_or E (fill_slot data_start f) st (λ _ st', ∃ b', st' = set_active st b' ∧
    reserved cap b' ss off idx data_start page').
Proof.
  intros [Hc Hl Ho Hp Hz (obs & slotss & m & sl & post & Hb & Hobs & Hss & Hm & Hs & Hlt & He & Hoff & Hi & Hcnt & Hd & Hu)] Hf Hz'.
  pose proof (zlen_pages sl Hs) as Hzp. pose proof Hm as (Hzm & _).
  unfold fill_slot, WAL_RECORD_SIZE. apply returns_bind, returns_gets.
  set (pre := log_bytes obs ++ m ++ concat (map snd sl)).
  assert (Hpre : zlen pre = data_start) by (unfold pre; rewrite !zlen_app; lia).
  assert (Hbuf : WalBuffer.buffer (active st) = pre ++ page ++ post) by (unfold pre; rewrite Hb, <-!app_assoc; done).
  pose proof (slice_mid pre page post) as Hsl. pose proof (copy_mid pre page page' post ltac:(lia)) as Hcp.
  rewrite Hpre, Hz in Hsl, Hcp. rewrite <-Hbuf in Hsl, Hcp.
  apply returns_bind. eapply returns_lift; [exact Hsl|]. apply returns_bind. eapply returns_lift; [exact Hf|].
  apply returns_bind. eapply returns_lift; [exact Hcp|]. apply returns_modify.
  eexists. split; [done|]. constructor; simpl; try done.
  - rewrite zlen_app, zlen_app, Hz'. rewrite Hbuf, !zlen_app, Hz in Hc. lia.
  - exists obs, slotss, m, sl, post. unfold pre. rewrite <-!app_assoc. split_and!; done.
Qed.

(** The meta page with one more entry. *)
Lemma meta_add_entry m sl e page :
  meta_header m (zlen sl) → Forall slot_ok sl → zlen sl < BATCH_MAX_RECORDS → slot_ok (e, page) →
  (∀ j s, sl !! j = Some s → entry_at m (Z.of_nat j) = s.1) →
  ∃ m2, (m1 ← write_batch_entry m (zlen sl) e; set_batch_meta_count m1 (zlen sl + 1)) = Ret m2 ∧ zlen m2 = PAGE_SIZE ∧
    open_batch {| meta := m2; data := map snd (sl ++ [(e, page)]) |} (sl ++ [(e, page)]).
Proof.
  intros Hm Hs Hlt He Hent. pose proof (zlen_nonneg sl). pose proof Hm as (Hz & _).
  rewrite write_batch_entry_ok, bind_Ret by (done || lia).
  pose proof (meta_header_put_entry m (zlen sl) e _ Hm ltac:(lia)) as Hm1.
  destruct (set_batch_meta_count_ok _ _ (zlen sl + 1) Hm1 ltac:(lia)) as [Eq Hm2].
  pose proof (zlen_put_entry m (zlen sl) e Hz ltac:(lia)) as Hz1.
  eexists. split; [exact Eq|]. pose proof Hm2 as (Hz2 & _). split; [done|].
  assert (Hl : zlen (sl ++ [(e, page)]) = zlen sl + 1) by (by rewrite zlen_app).
  constructor; simpl; [by rewrite Hl|rewrite Hl; lia|apply Forall_app; split; [done|by constructor]|done|].
  intros j s' Hj. rewrite entry_at_header_write by (done || lia).
  apply lookup_app_Some in Hj as [Hj|[Hge Hj]].
  - assert (Z.of_nat j < zlen sl) by (apply lookup_lt_Some in Hj; unfold zlen; lia).
    rewrite entry_at_put_ne by (done || lia). by apply Hent.
  - destruct (j - length sl)%nat eqn:Ej; [|done]. simpl in Hj. injection Hj as <-.
    replace (Z.of_nat j) with (zlen sl) by (unfold zlen; lia). apply entry_at_put_eq; [done|lia|apply He].
Qed.

(** The record is in; it may become the open packed page. *)
Lemma finish_spec cap st ss off idx data_start page e E :
  reserved cap (active st) ss off idx data_start page → slot_ok (e, page) →
  returns_or E (finish_active_record_slot_locked off idx e) st (λ _ st', ∃ b', st' = set_active st b' ∧
    holds cap b' (ss ++ [(e, page)]) ∧ WalBuffer.epoch b' = WalBuffer.epoch (active st) ∧
    ∀ rs, packed_holds (e, page) rs →
      holds cap (WalBuffer.set_packed b' (Some {| packed_meta_start := off; packed_slot_idx := idx;
        packed_data_start := data_start; packed_length := BatchEntry.len e; packed_max_lsn := BatchEntry.lsn e |}))
        (ss ++ [(e, page)])).
Proof.
  intros [Hc Hl Ho Hp Hz (obs & slotss & m & sl & post & Hb & Hobs & Hss & Hm & Hs & Hlt & He & Hoff & Hi & Hcnt & Hd & Hu)] Hok.
  pose proof (zlen_pages sl Hs) as Hzp. pose proof Hm as (Hzm & _). pose proof (zlen_nonneg sl).
  unfold finish_active_record_slot_locked, WAL_RECORD_SIZE. apply returns_bind, returns_gets.
  destruct (meta_add_entry m sl e page Hm Hs Hlt Hok He) as (m2 & Em & Hz2 & Hopen).
  destruct (write_batch_entry m (zlen sl) e) as [m1|] eqn:Ew; [|done]. rewrite bind_Ret in Em.
  pose proof (slice_mid (log_bytes obs) m (concat (map snd sl) ++ page ++ post)) as Hsl.
  pose proof (copy_mid (log_bytes obs) m m2 (concat (map snd sl) ++ page ++ post) ltac:(lia)) as Hcp.
  rewrite Hzm, <-Hb, <-Hoff in Hsl, Hcp.
  apply returns_bind. eapply returns_lift; [exact Hsl|]. apply returns_bind. eapply returns_lift; [by rewrite Hi|].
  apply returns_bind. eapply returns_lift; [by rewrite Hcnt|]. apply returns_bind. eapply returns_lift; [exact Hcp|].
  apply returns_modify. rewrite Hcnt, Hu. set (b2 := {| meta := m2; data := _ |}) in Hopen.
  assert (Hbytes : log_bytes obs ++ m2 ++ concat (map snd sl) ++ page ++ post = log_bytes (obs ++ [b2]) ++ post).
  { rewrite log_bytes_app, log_bytes_one. unfold batch_bytes, b2. simpl.
    rewrite map_app, concat_app. simpl. by rewrite app_nil_r, <-!app_assoc. }
  assert (Hlast : last_batch (obs ++ [b2]) (slotss ++ [sl ++ [(e, page)]]) off (sl ++ [(e, page)])).
  { constructor. by exists obs, b2, slotss. }
  assert (Hlen : zlen (log_bytes (obs ++ [b2])) = off + PAGE_SIZE + zlen sl * PAGE_SIZE + PAGE_SIZE).
  { rewrite log_bytes_app, log_bytes_one, zlen_app. destruct (open_batch_size _ _ Hopen) as (_ & _ & _ & ->).
    rewrite zlen_app. change (zlen [(e, page)]) with 1. lia. }
  assert (Hcap : zlen (log_bytes obs ++ m2 ++ concat (map snd sl) ++ page ++ post) = cap).
  { rewrite <-Hc, Hb, !zlen_app. lia. }
  eexists. split; [done|].
  assert (Hgen : ∀ p, match p with None => True | Some p => ∃ sl' s rs,
        last_batch (obs ++ [b2]) (slotss ++ [sl ++ [(e, page)]]) (packed_meta_start p) (sl' ++ [s]) ∧
        packed_slot_idx p = zlen sl' ∧ packed_data_start p = off + PAGE_SIZE + zlen sl * PAGE_SIZE + PAGE_SIZE - PAGE_SIZE ∧
        packed_length p = BatchEntry.len s.1 ∧ packed_max_lsn p = BatchEntry.lsn s.1 ∧ packed_holds s rs end →
    holds cap {|
      WalBuffer.buffer := log_bytes obs ++ m2 ++ concat (map snd sl) ++ page ++ post;
      WalBuffer.used := off + PAGE_SIZE + zlen sl * PAGE_SIZE + PAGE_SIZE;
      WalBuffer.records := WalBuffer.records (active st) + 1; WalBuffer.epoch := WalBuffer.epoch (active st);
      WalBuffer.max_lsn := if completes_record e then Z.max (WalBuffer.max_lsn (active st)) (BatchEntry.lsn e)
        else WalBuffer.max_lsn (active st);
      WalBuffer.open_batch_meta_offset := if zlen sl + 1 =? BATCH_MAX_RECORDS then None
        else WalBuffer.open_batch_meta_offset (active st);
      WalBuffer.open_batch_count := if zlen sl + 1 =? BATCH_MAX_RECORDS then 0 else zlen sl + 1;
      WalBuffer.max_batch_records := Z.max (WalBuffer.max_batch_records (active st)) (zlen sl + 1);
      WalBuffer.packed_logical := p |} (ss ++ [(e, page)])).
  { intros p Hpk. constructor; simpl; [done| |].
    - by rewrite max_completed_snoc, Hl.
    - exists (obs ++ [b2]), (slotss ++ [sl ++ [(e, page)]]), post. split_and!; [done| | |done| |done].
      + apply Forall2_app; [done|]. by constructor.
      + rewrite Hss, concat_app. simpl. by rewrite app_nil_r, <-app_assoc.
      + unfold open_batch_rep. simpl. destruct (Z.eqb_spec (zlen sl + 1) BATCH_MAX_RECORDS); [done|]. rewrite Ho.
        exists (sl ++ [(e, page)]). split; [done|]. rewrite zlen_app. change (zlen [(e, page)]) with 1. lia. }
  split_and!; [rewrite Hp; by apply Hgen|done|].
  intros rs Hpk. apply Hgen. exists sl, (e, page), rs. split_and!; [done|done|simpl; lia|done|done|done].
Qed.

(** A new batch: its meta page is initialised in place. *)
Lemma open_new_batch cap b ss :
  holds cap b ss → WalBuffer.packed_logical b = None → WalBuffer.used b + 2 * PAGE_SIZE ≤ cap →
  ∃ old m bytes page, slice (WalBuffer.buffer b) (WalBuffer.used b) (WalBuffer.used b + PAGE_SIZE) = Ret old ∧
    init_batch_meta old = Ret m ∧
    copy_from (WalBuffer.buffer b) (WalBuffer.used b) (WalBuffer.used b + PAGE_SIZE) m = Ret bytes ∧
    reserved cap {|
      WalBuffer.buffer := bytes; WalBuffer.used := WalBuffer.used b + PAGE_SIZE; WalBuffer.records := WalBuffer.records b;
      WalBuffer.epoch := WalBuffer.epoch b; WalBuffer.max_lsn := WalBuffer.max_lsn b;
      WalBuffer.open_batch_meta_offset := Some (WalBuffer.used b); WalBuffer.open_batch_count := 0;
      WalBuffer.max_batch_records := WalBuffer.max_batch_records b;
      WalBuffer.packed_logical := WalBuffer.packed_logical b |} ss (WalBuffer.used b) 0 (WalBuffer.used b + PAGE_SIZE) page.
Proof.
  intros [Hc Hl (obs & slotss & post & Hb & Hobs & Hss & Hu & _ & _)] Hp Hroom.
  assert (Hpost : zlen post = cap - WalBuffer.used b) by (rewrite <-Hc, Hb, zlen_app; lia).
  pose proof (split_page post ltac:(page_lia)) as Hsp. set (old := sub post 0 PAGE_SIZE) in *.
  set (post1 := sub post PAGE_SIZE (zlen post - PAGE_SIZE)) in *.
  assert (Ho : zlen old = PAGE_SIZE) by (apply zlen_sub; page_lia).
  assert (Hp1 : zlen post1 = zlen post - PAGE_SIZE) by (apply zlen_sub; page_lia).
  pose proof (split_page post1 ltac:(page_lia)) as Hsp1. set (page := sub post1 0 PAGE_SIZE) in *.
  destruct (init_batch_meta_ok old Ho) as (m & Em & Hm). pose proof Hm as (Hzm & _).
  pose proof (slice_mid (log_bytes obs) old post1) as Hsl.
  pose proof (copy_mid (log_bytes obs) old m post1 ltac:(lia)) as Hcp.
  rewrite Ho, <-Hsp, <-Hb, <-Hu in Hsl, Hcp.
  exists old, m, (log_bytes obs ++ m ++ post1), page. split_and!; [done|done|done|].
  constructor; simpl; [rewrite !zlen_app; lia|done|done|done|apply zlen_sub; page_lia|].
  exists obs, slotss, m, [], (sub post1 PAGE_SIZE (zlen post1 - PAGE_SIZE)). simpl. rewrite <-Hsp1.
  split_and!; try done; [by rewrite app_nil_r|change (zlen (@nil slot)) with 0; wal_cases; lia|change (zlen (@nil slot)) with 0; lia].
Qed.

(** The open batch has room. *)
Lemma open_same_batch cap b ss off :
  holds cap b ss → WalBuffer.packed_logical b = None → WalBuffer.used b + PAGE_SIZE ≤ cap →
  WalBuffer.open_batch_meta_offset b = Some off →
  ∃ page, reserved cap b ss off (WalBuffer.open_batch_count b) (WalBuffer.used b) page.
Proof.
  intros [Hc Hl (obs & slotss & post & Hb & Hobs & Hss & Hu & Hrep & _)] Hp Hroom Ho.
  unfold open_batch_rep in Hrep. rewrite Ho in Hrep.
  destruct Hrep as (sl & [(obs0 & b0 & slotss0 & -> & -> & Hoff)] & Hcnt & Hlt).
  apply Forall2_app_inv in Hobs as [Hobs0 Hb0]; [|apply Forall2_length in Hobs; rewrite !length_app in Hobs; simpl in Hobs; lia].
  apply Forall2_cons in Hb0 as [Hb0 _].
  assert (Hpost : zlen post = cap - WalBuffer.used b) by (rewrite <-Hc, Hb, zlen_app; lia).
  pose proof (split_page post ltac:(page_lia)) as Hsp. exists (sub post 0 PAGE_SIZE).
  pose proof (open_batch_size _ _ Hb0) as (_ & _ & _ & Hlen). destruct Hb0 as [Hm Hcount Hs Hd He].
  constructor; try done; [apply zlen_sub; page_lia|].
  exists obs0, slotss0, (meta b0), sl, (sub post PAGE_SIZE (zlen post - PAGE_SIZE)). rewrite <-Hsp, <-Hd.
  rewrite log_bytes_app, log_bytes_one in Hb, Hu. rewrite zlen_app, Hlen in Hu. unfold batch_bytes in Hb.
  split_and!; try done; [by rewrite Hb, <-!app_assoc|by rewrite Hss, concat_app; simpl; rewrite app_nil_r|lia].
Qed.

Lemma open_slot_spec cap st ss E :
  holds cap (active st) ss → WalBuffer.packed_logical (active st) = None → buffer_capacity_bytes st = cap →
  must_seal st = false →
  returns_or E open_slot st (λ r st', ∃ b' page, st' = set_active st b' ∧ WalBuffer.epoch b' = WalBuffer.epoch (active st) ∧
    reserved cap b' ss r.1.1 r.1.2 r.2 page).
Proof.
  intros Hh Hp Hcap Hroom. unfold must_seal in Hroom. apply Z.ltb_ge in Hroom. unfold open_slot, WAL_RECORD_SIZE in *.
  apply returns_bind, returns_gets, returns_bind. unfold needs_new_batch in *.
  destruct (WalBuffer.open_batch_meta_offset (active st)) as [off|] eqn:Ho.
  - assert (Hn : bool_decide (Some off = None) || (WalBuffer.open_batch_count (active st) =? BATCH_MAX_RECORDS) = false).
    { destruct (holds_layout _ _ _ Hh) as (obs & slotss & post & _ & _ & _ & _ & Hrep & _).
      unfold open_batch_rep in Hrep. rewrite Ho in Hrep. destruct Hrep as (sl & _ & Hcnt & Hlt).
      apply orb_false_intro; [by apply bool_decide_false|apply Z.eqb_neq; lia]. }
    rewrite Hn in *. apply returns_ret, returns_bind, returns_gets. rewrite Ho. apply returns_ret. simpl.
    destruct (open_same_batch cap (active st) ss off) as [page Hr]; [done|done|lia|done|].
    exists (active st), page. split_and!; [by destruct st|done|done].
  - rewrite bool_decide_true in * by done. simpl in Hroom |- *.
    destruct (open_new_batch cap (active st) ss) as (old & m & bytes & page & E1 & E2 & E3 & Hr); [done|done|lia|].
    apply returns_bind. eapply returns_lift; [exact E1|]. apply returns_bind. eapply returns_lift; [exact E2|].
    apply returns_bind. eapply returns_lift; [exact E3|]. apply returns_modify, returns_bind, returns_gets. simpl.
    apply returns_ret. simpl. eexists _, page. split_and!; [done| |exact Hr]. done.
Qed.

End buffers.

(** * Write-ahead log: the operations of a shard

    What sealing, appending and writing do to the sequence of record slots a
    shard holds. *)

#[local] Open Scope Z_scope.

(** ** Rounding to segments *)

Lemma land_unot x m : 0 ≤ x < 2 ^ 64 → Z.land x (unot 64 m) = Z.ldiff x m.
Proof.
  intros Hx. apply Z.bits_inj'. intros n Hn. rewrite Z.land_spec, Z.ldiff_spec.
  destruct (Z.ltb_spec n 64) as [Hlt|Hge].
  - rewrite testbit_unot by lia. rewrite (proj2 (Z.ltb_lt _ _)) by lia. by rewrite xorb_true_r.
  - rewrite (testbit_above 64) by lia. done.
Qed.

Lemma round_up_segment `{Build} n :
  0 ≤ n → n + SEGMENT_SIZE < 2 ^ 64 → ∃ r, round_up_u64 n SEGMENT_SIZE = Ret r ∧ n ≤ r < n + SEGMENT_SIZE.
Proof.
  intros Hn Hlt. unfold round_up_u64, SEGMENT_SIZE in *.
  rewrite uadd_in_range, bind_Ret by lia. rewrite !usub_in_range, !bind_Ret by lia.
  eexists. split; [done|]. rewrite land_unot by lia.
  change (64 * 1024 * 1024 - 1) with (Z.ones 26). rewrite Z.ldiff_ones_r, Z.shiftl_mul_pow2, Z.shiftr_div_pow2 by lia.
  change (2 ^ 26) with (64 * 1024 * 1024). Z.to_euclidean_division_equations. lia.
Qed.

(** ** The shard invariant *)

Section shard.
Context `{Build} `{Crc32} `{PosixFile}.

Record pending_rep (cap : Z) (w : PendingWalWrite) (ss : list slot) : Prop := {
  pending_cap : zlen (WalBuffer.buffer (pending_buffer w)) = cap;
  pending_mark : pending_max_lsn w = max_completed 0 ss;
  pending_layout : ∃ obs slotss post, WalBuffer.buffer (pending_buffer w) = log_bytes obs ++ post ∧
    Forall2 open_batch obs slotss ∧ ss = concat slotss ∧ pending_len w = zlen (log_bytes obs);
}.

(** The sealed buffers, one after the other in the file from [off] to [end_]. *)
Fixpoint pendings (cap off : Z) (ws : list PendingWalWrite) (ps : list (list slot)) (end_ : Z) : Prop :=
  match ws, ps with
  | [], [] => off = end_
  | w :: ws, ss :: ps => pending_rep cap w ss ∧ pending_file_offset w = off ∧ pendings cap (off + pending_len w) ws ps end_
  | _, _ => False
  end.

(** The file holds the entries [es0] it was opened with and the written slots
    [ws], then zeros; the sealed buffers hold [ps] and the active buffer
    [cur]. There is a spare or a sealed buffer, no write is in flight,
    and the written mark is the largest LSN in the file. *)
Record shard_inv (st : WalState) (es0 : list (BatchEntry.t * list byte)) (ws : list slot) (ps : list (list slot))
    (cur : list slot) : Prop := {
  shard_capacity : 2 * PAGE_SIZE ≤ buffer_capacity_bytes st;
  shard_active : holds (buffer_capacity_bytes st) (active st) cur;
  shard_spare : Forall (λ b, zlen (WalBuffer.buffer b) = buffer_capacity_bytes st) (spare_buffers st);
  shard_buffers : (1 ≤ length (spare_buffers st) + length (pending_writes st))%nat;
  shard_window : SubmittedWrites.entries (submitted_writes st) = [];
  shard_mark : SubmittedWrites.high_water_lsn (submitted_writes st) = max_completed 0 (es0 ++ ws);
  shard_file : ∃ hdr bs ess k, contents (state_fd st) = hdr ++ log_bytes bs ++ fill k x00 ∧
    validate_wal_header hdr = Ok tt ∧ zlen hdr = WAL_HEADER_SIZE ∧
    Forall2 good_batch bs ess ∧ concat ess = es0 ++ sealed_entries ws ∧
    pendings (buffer_capacity_bytes st) (WAL_HEADER_SIZE + zlen (log_bytes bs)) (pending_writes st) ps (state_file_offset st);
}.

(** The offsets stay within the width of a file offset when [n] more buffers
    are sealed. *)
Definition room (n : Z) (st : WalState) : Prop :=
  state_file_offset st + n * buffer_capacity_bytes st + 9 * SEGMENT_SIZE < 2 ^ 63.

(** At most [n] buffers were sealed between the states. *)
Definition sealed (n : Z) (st st' : WalState) : Prop :=
  buffer_capacity_bytes st' = buffer_capacity_bytes st ∧
  state_file_offset st ≤ state_file_offset st' ≤ state_file_offset st + n * buffer_capacity_bytes st.

Lemma pendings_snoc cap off ws ps end_ w ss :
  pendings cap off ws ps end_ → pending_rep cap w ss → pending_file_offset w = end_ →
  pendings cap off (ws ++ [w]) (ps ++ [ss]) (end_ + pending_len w).
Proof.
  revert off ps. induction ws as [|w' ws IH]; intros off [|ss' ps] Hp Hw Ho; simpl in *; try done.
  - subst. done.
  - destruct Hp as (? & ? & Hp). split_and!; [done|done|]. by apply IH.
Qed.

Lemma pendings_bounds cap off ws ps end_ :
  pendings cap off ws ps end_ → off ≤ end_.
Proof.
  revert off ps. induction ws as [|w ws IH]; intros off [|ss ps] Hp; simpl in Hp; try done; [lia|].
  destruct Hp as ([_ _ (obs & slotss & post & _ & _ & _ & Hl)] & _ & Hp). apply IH in Hp. pose proof (zlen_nonneg (log_bytes obs)). lia.
Qed.

Lemma pendings_length cap off ws ps end_ : pendings cap off ws ps end_ → length ws = length ps.
Proof.
  revert off ps. induction ws as [|w ws IH]; intros off [|ss ps] Hp; simpl in *; try done. destruct Hp as (_ & _ & Hp).
  f_equal. by eapply IH.
Qed.

Lemma shard_offset_pos st es0 ws ps cur : shard_inv st es0 ws ps cur → 0 ≤ state_file_offset st.
Proof.
  intros [_ _ _ _ _ _ (hdr & bs & ess & k & _ & _ & _ & _ & _ & Hp)]. apply pendings_bounds in Hp.
  pose proof (zlen_nonneg (log_bytes bs)). unfold WAL_HEADER_SIZE, WAL_RECORD_SIZE in *. page_lia.
Qed.

Lemma sealed_refl n st : 0 ≤ n → 0 ≤ buffer_capacity_bytes st → sealed n st st.
Proof. intros Hn Hc. split; [done|]. nia. Qed.

Lemma sealed_trans n m st st' st'' : sealed n st st' → sealed m st' st'' → sealed (n + m) st st''.
Proof. intros [Hc Ho] [Hc' Ho']. rewrite Hc in *. split; [done|lia]. Qed.

Lemma room_sealed n m st st' : sealed n st st' → room (n + m) st → room m st'.
Proof. intros [Hc Ho]. unfold room. rewrite Hc. lia. Qed.

Lemma room_mono n m st : room n st → m ≤ n → 0 ≤ buffer_capacity_bytes st → room m st.
Proof. unfold room. intros Hr Hm Hc. pose proof (Z.mul_le_mono_nonneg_r m n _ Hc Hm). lia. Qed.

Lemma shard_cap_pos st es0 ws ps cur : shard_inv st es0 ws ps cur → 0 ≤ buffer_capacity_bytes st.
Proof. intros Hi. pose proof (shard_capacity _ _ _ _ _ Hi). page_lia. Qed.

Lemma holds_empty cap b ss :
  holds cap b ss → WalBuffer.used b = 0 →
  ss = [] ∧ WalBuffer.open_batch_meta_offset b = None ∧ WalBuffer.packed_logical b = None.
Proof.
  intros [Hc Hl (obs & slotss & post & Hb & Hobs & Hss & Hu & Ho & Hp)] Hu0.
  assert (obs = []) as ->.
  { destruct Hobs as [|b0 sl obs slotss Hb0 Hobs]; [done|]. change (log_bytes (b0 :: obs)) with (batch_bytes b0 ++ log_bytes obs) in Hu.
    rewrite zlen_app in Hu. destruct (open_batch_size _ _ Hb0) as (_ & _ & _ & Hlen).
    pose proof (zlen_nonneg (log_bytes obs)). pose proof (zlen_nonneg sl). page_cases. }
  apply Forall2_nil_inv_l in Hobs as ->. split; [done|]. unfold open_batch_rep, packed_rep in *.
  split.
  - destruct (WalBuffer.open_batch_meta_offset b); [|done]. destruct Ho as (sl & [(obs0 & b0 & slotss0 & Hnil & _)] & _).
    by destruct obs0.
  - destruct (WalBuffer.packed_logical b); [|done]. destruct Hp as (sl & s & rs & [(obs0 & b0 & slotss0 & Hnil & _)] & _).
    by destruct obs0.
Qed.

(** A fresh or reclaimed buffer. *)
Lemma holds_reset cap b epoch : zlen (WalBuffer.buffer b) = cap → holds cap (WalBuffer.reset b epoch) [].
Proof.
  intros Hc. constructor; simpl; [done|constructor|]. exists [], [], (WalBuffer.buffer b). split_and!; done.
Qed.

Lemma resize_zeros (a : list byte) k n : zlen a ≤ n → resize (a ++ fill k x00) n = a ++ fill (n - zlen a) x00.
Proof.
  intros Hn. pose proof (zlen_nonneg a). apply list_eq. intros i. rewrite lookup_resize by lia.
  destruct (decide (i < length a)%nat).
  - rewrite !lookup_app_l by done. rewrite decide_True by (unfold zlen in *; lia).
    by destruct (lookup_lt_is_Some_2 a i) as [x ->].
  - rewrite !lookup_app_r by lia. unfold fill. case_decide.
    + rewrite (lookup_replicate_2 (Z.to_nat (n - zlen a))) by (unfold zlen in *; lia).
      destruct (replicate (Z.to_nat k) x00 !! (i - length a)%nat) eqn:E; [|done].
      by apply lookup_replicate in E as [-> _].
    + symmetry. apply lookup_replicate_None. unfold zlen in *. lia.
Qed.

(** ** Sealing *)

Lemma extend_file_spec n f :
  0 ≤ n < 2 ^ 63 →
  returns_or os_failure (extend_file n) f (λ _ f', contents f' = resize (contents f) n).
Proof.
  intros Hn. destruct (ftruncate f n) as [[e|] f'] eqn:Ef.
  - exists (Err (error_kind e)), f'. unfold extend_file. rewrite swrap_small, Ef by lia. split; [done|apply error_kind_failure].
  - exists (Ok tt), f'. unfold extend_file. rewrite swrap_small, Ef by lia. split; [done|]. by apply ftruncate_ok in Ef as [_ ?].
Qed.

Lemma fdatasync_spec f : returns_or os_failure fdatasync_file f (λ _ f', contents f' = contents f).
Proof.
  destruct (fsync f) as [[e|] f'] eqn:Ef; apply fsync_contents in Ef as Hc.
  - exists (Err (error_kind e)), f'. unfold fdatasync_file. rewrite Ef. split; [done|apply error_kind_failure].
  - exists (Ok tt), f'. unfold fdatasync_file. by rewrite Ef.
Qed.

Lemma on_fd_returns {A} E (m : IO os A) st Q :
  returns_or E m (state_fd st) (λ a f, Q a (put_state_fd st f)) → returns_or E (on_state_fd m) st Q.
Proof.
  intros (r & f & Em & HQ). exists r, (put_state_fd st f). split; [unfold on_state_fd, zoom; by rewrite Em|done].
Qed.

(** The file of a state is changed beyond its log only. *)
Lemma shard_inv_file st es0 ws ps cur f :
  shard_inv st es0 ws ps cur →
  (∀ a k, contents (state_fd st) = a ++ fill k x00 → zlen a ≤ state_file_offset st → ∃ k', contents f = a ++ fill k' x00) →
  shard_inv (put_state_fd st f) es0 ws ps cur.
Proof.
  intros [Hc Ha Hs Hn Hw Hm (hdr & bs & ess & k & Hf & Hv & Hh & Hbs & He & Hp)] Hkeep. constructor; try done.
  destruct (Hkeep (hdr ++ log_bytes bs) k) as [k' Hf'].
  - by rewrite Hf, <-app_assoc.
  - apply pendings_bounds in Hp. rewrite zlen_app. lia.
  - exists hdr, bs, ess, k'. split_and!; try done. simpl. by rewrite Hf', <-app_assoc.
Qed.

(** Growing the file, when the write would pass its allocated end. *)
Definition preallocate (fsync : bool) (write_end : Z) : IO WalState unit :=
  rounded ← lift (round_up_u64 write_end SEGMENT_SIZE);
  new_size ← lift (uadd 64 rounded (SEGMENT_SIZE * (WAL_PREALLOCATE_SEGMENTS - 1)));
  _ ← on_state_fd (extend_file new_size);
  _ ← (if fsync then on_state_fd fdatasync_file else mret tt);
  modify (λ st, set_file_end st (state_file_offset st) new_size).

Lemma preallocate_spec st es0 ws ps cur fsync write_end :
  shard_inv st es0 ws ps cur → state_file_offset st ≤ write_end → 0 ≤ write_end →
  write_end + 9 * SEGMENT_SIZE < 2 ^ 63 →
  returns_or os_failure (preallocate fsync write_end) st (λ _ st', shard_inv st' es0 ws ps cur ∧
    ∃ f size, st' = set_file_end (put_state_fd st f) (state_file_offset st) size).
Proof.
  intros Hi Hle Hpos Hlim. unfold preallocate, WAL_PREALLOCATE_SEGMENTS.
  destruct (round_up_segment write_end) as (r & Er & Hr); [done|unfold SEGMENT_SIZE in *; lia|].
  apply returns_bind. eapply returns_lift; [exact Er|]. apply returns_bind.
  eapply returns_lift; [apply uadd_in_range; unfold SEGMENT_SIZE in *; lia|].
  apply returns_bind, on_fd_returns. eapply returns_mono; [apply extend_file_spec; unfold SEGMENT_SIZE in *; lia|].
  intros u f Hf. assert (Hi1 : shard_inv (put_state_fd st f) es0 ws ps cur).
  { eapply shard_inv_file; [done|]. intros a k Ha Hz. rewrite Hf, Ha. eexists. apply resize_zeros. unfold SEGMENT_SIZE in *; lia. }
  apply returns_bind. destruct fsync.
  - apply on_fd_returns. eapply returns_mono; [apply fdatasync_spec|]. intros u' f' Hf'. apply returns_modify.
    split; [|by eexists f', _].
    assert (Hi2 : shard_inv (put_state_fd (put_state_fd st f) f') es0 ws ps cur).
    { eapply shard_inv_file; [done|]. intros a k Ha _. exists k. by rewrite Hf'. }
    destruct Hi2. by constructor.
  - apply returns_ret, returns_modify. split; [|by eexists f, _]. destruct Hi1. by constructor.
Qed.

Lemma empty_buffer_spec st E :
  spare_buffers st ≠ [] → Forall (λ b, zlen (WalBuffer.buffer b) = buffer_capacity_bytes st) (spare_buffers st) →
  returns_or E empty_buffer_locked st (λ b st', holds (buffer_capacity_bytes st) b [] ∧ WalBuffer.used b = 0 ∧
    ∃ e spare, st' = set_spare (set_next_epoch st e) spare ∧
      length spare = (length (spare_buffers st) - 1)%nat ∧
      Forall (λ b, zlen (WalBuffer.buffer b) = buffer_capacity_bytes st) spare).
Proof.
  intros Hne Hs. unfold empty_buffer_locked, next_buffer_epoch_locked.
  apply returns_bind, returns_bind, returns_gets, returns_bind, returns_modify, returns_ret, returns_bind, returns_gets.
  simpl. destruct (last (spare_buffers st)) as [b|] eqn:El; [|by apply last_None in El].
  apply returns_bind, returns_modify, returns_ret.
  assert (Hb : zlen (WalBuffer.buffer b) = buffer_capacity_bytes st).
  { rewrite Forall_forall in Hs. apply Hs. by apply last_Some_elem_of. }
  split_and!; [by apply holds_reset|done|]. eexists _, _. split_and!; [done|rewrite length_take; lia|]. by apply Forall_take.
Qed.

(** A buffer with records is sealed. *)
Lemma seal_active_spec st es0 ws ps cur fsync :
  shard_inv st es0 ws ps cur → room 1 st → spare_buffers st ≠ [] → WalBuffer.used (active st) ≠ 0 →
  returns_or os_failure (seal_active_buffer_locked fsync) st (λ _ st',
    shard_inv st' es0 ws (ps ++ [cur]) [] ∧ WalBuffer.used (active st') = 0 ∧ sealed 1 st st').
Proof.
  intros Hi Hsm Hne Hu0. pose proof (shard_offset_pos _ _ _ _ _ Hi) as Hpos. pose proof (shard_cap_pos _ _ _ _ _ Hi) as Hcp.
  unfold seal_active_buffer_locked, room in *. apply returns_bind, returns_gets.
  rewrite (proj2 (Z.eqb_neq _ _)) by done.
  pose proof (shard_active _ _ _ _ _ Hi) as [Hc Hl (obs & slotss & post & Hb & Hobs & Hss & Hu & _)].
  assert (Hulen : 0 ≤ WalBuffer.used (active st) ≤ buffer_capacity_bytes st).
  { rewrite Hu. split; [apply zlen_nonneg|]. rewrite <-Hc, Hb, zlen_app. pose proof (zlen_nonneg post). lia. }
  apply returns_bind, returns_gets, returns_bind, returns_gets, returns_bind.
  set (write_end := state_file_offset st + WalBuffer.used (active st)).
  eapply (returns_mono _ _ _ (λ _ st1, shard_inv st1 es0 ws ps cur ∧
    ∃ f size, st1 = set_file_end (put_state_fd st f) (state_file_offset st) size)).
  { destruct (state_allocated_size st <? write_end).
    - apply (preallocate_spec st es0 ws ps cur fsync write_end); (done || lia).
    - apply returns_ret. split; [done|]. exists (state_fd st), (state_allocated_size st). by destruct st. }
  intros u st1 [Hi1 (f & size & Hst1)]. apply returns_bind, returns_modify, returns_bind.
  eapply returns_mono; [apply empty_buffer_spec; [by subst st1|apply (shard_spare _ _ _ _ _ Hi1)]|].
  intros b st2 (Hb2 & Hu2 & e & spare & Hst2 & Hlsp & Hsp).
  apply returns_bind, returns_modify, returns_bind, returns_modify, returns_ret.
  subst st2 st1. simpl in *. split_and!; [|done|by unfold sealed, write_end; simpl; lia].
  destruct Hi1 as [Hc1 Ha1 Hs1 Hn1 Hw1 Hm1 (hdr & bs & ess & k & Hf & Hv & Hh & Hbs & He & Hp)]. simpl in *.
  constructor; simpl; [done|done|done|rewrite length_app; simpl; lia|done|done|]. exists hdr, bs, ess, k. split_and!; try done.
  apply (pendings_snoc _ _ _ _ (state_file_offset st)
    {| pending_buffer := active st; pending_file_offset := state_file_offset st;
       pending_len := WalBuffer.used (active st); pending_max_lsn := WalBuffer.max_lsn (active st) |}); [done| |done].
  constructor; [done|apply Ha1|]. by exists obs, slotss, post.
Qed.

(** An empty buffer is left as it is. *)
Lemma seal_spec st es0 ws ps cur fsync :
  shard_inv st es0 ws ps cur → room 1 st → spare_buffers st ≠ [] →
  returns_or os_failure (seal_active_buffer_locked fsync) st (λ _ st', ∃ ps' cur',
    shard_inv st' es0 ws ps' cur' ∧ concat ps' ++ cur' = concat ps ++ cur ∧ WalBuffer.used (active st') = 0 ∧ sealed 1 st st').
Proof.
  intros Hi Hsm Hne. destruct (decide (WalBuffer.used (active st) = 0)) as [Hu0|Hu0].
  - unfold seal_active_buffer_locked. apply returns_bind, returns_gets. rewrite (proj2 (Z.eqb_eq _ _)) by done.
    apply returns_ret. exists ps, cur. split_and!; [done..|]. by apply sealed_refl; [|eapply shard_cap_pos].
  - eapply returns_mono; [by apply (seal_active_spec st es0 ws ps cur)|]. intros b st' (Hi' & Hu & Hsl).
    exists (ps ++ [cur]), []. split_and!; [done|by rewrite concat_app; simpl; rewrite !app_nil_r|done|done].
Qed.

(** ** Reserving *)

Lemma shard_inv_active st es0 ws ps cur b cur' :
  shard_inv st es0 ws ps cur → holds (buffer_capacity_bytes st) b cur' → shard_inv (set_active st b) es0 ws ps cur'.
Proof. intros [? ? ? ? ? ? ?] Hb. by constructor. Qed.

Lemma holds_clear_packed cap b ss : holds cap b ss → holds cap (WalBuffer.set_packed b None) ss.
Proof.
  intros [Hc Hl (obs & slotss & post & Hb & Hobs & Hss & Hu & Ho & _)]. constructor; [done|done|].
  exists obs, slotss, post. split_and!; done.
Qed.

(** What changed of a shard when a slot is reserved in [b]. *)
Definition slot_reserved (st : WalState) es0 ws ps cur (off idx data_start : Z) (st' : WalState) : Prop :=
  ∃ st1 b ps' cur' page, st' = set_active st1 b ∧ shard_inv st1 es0 ws ps' cur' ∧
    concat ps' ++ cur' = concat ps ++ cur ∧ sealed 1 st st1 ∧
    reserved (buffer_capacity_bytes st1) b cur' off idx data_start page.

Lemma open_slot_reserved st0 st es0 ws ps cur ps' cur' :
  shard_inv st es0 ws ps' cur' → concat ps' ++ cur' = concat ps ++ cur →
  sealed 1 st0 st → WalBuffer.packed_logical (active st) = None → must_seal st = false →
  returns_or os_failure open_slot st (λ r st', slot_reserved st0 es0 ws ps cur r.1.1 r.1.2 r.2 st').
Proof.
  intros Hi Hcat Hsl Hp Hroom.
  eapply returns_mono; [apply (open_slot_spec (buffer_capacity_bytes st) st cur'); [apply Hi|done|done|done]|].
  intros r st' (b' & page & -> & _ & Hr). exists st, b', ps', cur', page. split_and!; done.
Qed.

(** The operation waits: there is no spare buffer, as there was none before. *)
Definition blocked (st st' : WalState) : Prop := spare_buffers st = [] ∧ spare_buffers st' = [].

Lemma reserve_spec st es0 ws ps cur fsync resumed :
  shard_inv st es0 ws ps cur → room 1 st →
  returns_or os_failure (reserve_active_record_slot_locked fsync resumed) st (λ r st', match r with
    | None => shard_inv st' es0 ws ps cur ∧ sealed 0 st st' ∧ blocked st st'
    | Some (off, idx, data_start) => slot_reserved st es0 ws ps cur off idx data_start st'
    end).
Proof.
  intros Hi Hsm. pose proof (shard_cap_pos _ _ _ _ _ Hi) as Hcp. unfold reserve_active_record_slot_locked. apply returns_bind.
  eapply (returns_mono _ _ _ (λ _ st1, shard_inv st1 es0 ws ps cur ∧ sealed 0 st st1 ∧ spare_buffers st1 = spare_buffers st ∧
    (resumed = false → WalBuffer.packed_logical (active st1) = None))).
  { destruct resumed; [apply returns_ret; split_and!; [done|by apply sealed_refl|done|done]|].
    apply returns_modify. split_and!; [|by unfold sealed; simpl; lia|done|done].
    apply (shard_inv_active st es0 ws ps cur); [done|]. by apply holds_clear_packed, Hi. }
  intros u st1 (Hi1 & Hsl1 & Hsp & Hp1). assert (Hsm1 : room 1 st1) by (by eapply room_sealed).
  apply returns_bind, returns_gets. destruct (resumed || must_seal st1) eqn:Hseal.
  - destruct (spare_buffers st1) as [|sp spare] eqn:Esp; [by apply returns_ret; split_and!; [done|done|split; congruence]|].
    apply returns_bind. eapply returns_mono; [apply (seal_spec st1 es0 ws ps cur fsync); [done|done|by rewrite Esp]|].
    intros b st2 (ps' & cur' & Hi2 & Hcat & Hu & Hsl2). apply returns_bind.
    destruct (holds_empty _ _ _ (shard_active _ _ _ _ _ Hi2) Hu) as (_ & Hopen & Hpk).
    eapply returns_mono; [apply (open_slot_reserved st st2 es0 ws ps cur ps' cur'); try done|].
    + by apply (sealed_trans 0 1 st st1 st2).
    + unfold must_seal, needs_new_batch. rewrite Hopen, Hu. rewrite bool_decide_true by done. simpl.
      apply Z.ltb_ge. unfold WAL_RECORD_SIZE. pose proof (shard_capacity _ _ _ _ _ Hi2). lia.
    + intros [[off idx] ds] st3 Hr. by apply returns_ret.
  - apply orb_false_iff in Hseal as [-> Hroom]. apply returns_bind.
    eapply returns_mono; [apply (open_slot_reserved st st1 es0 ws ps cur ps cur); try done|].
    + apply (sealed_trans 0 1 st st1 st1); [done|]. apply sealed_refl; [done|]. by destruct Hsl1 as [-> _].
    + by apply Hp1.
    + intros [[off idx] ds] st3 Hr. by apply returns_ret.
Qed.

(** ** Appending *)

(** The shard holds [new] after what it held, with at most [n] buffers sealed. *)
Definition appended (n : Z) (st : WalState) es0 ws ps cur (new : list slot) (st' : WalState) : Prop :=
  ∃ ps' cur', shard_inv st' es0 ws ps' cur' ∧ concat ps' ++ cur' = (concat ps ++ cur) ++ new ∧ sealed n st st'.

Lemma appended_none n st es0 ws ps cur st' :
  shard_inv st' es0 ws ps cur → sealed n st st' → appended n st es0 ws ps cur [] st'.
Proof. intros Hi Hs. exists ps, cur. by rewrite app_nil_r. Qed.

Lemma slot_reserved_fill st es0 ws ps cur off idx data_start st' f page' :
  slot_reserved st es0 ws ps cur off idx data_start st' →
  (∀ page, zlen page = PAGE_SIZE → f page = Ret page') → zlen page' = PAGE_SIZE →
  returns_or os_failure (fill_slot data_start f) st' (λ _ st2, ∃ st1 b ps' cur', st2 = set_active st1 b ∧
    shard_inv st1 es0 ws ps' cur' ∧ concat ps' ++ cur' = concat ps ++ cur ∧ sealed 1 st st1 ∧
    reserved (buffer_capacity_bytes st1) b cur' off idx data_start page').
Proof.
  intros (st1 & b & ps' & cur' & page & -> & Hi & Hcat & Hsl & Hr) Hf Hz.
  eapply returns_mono; [apply (fill_slot_spec (buffer_capacity_bytes st1) _ cur' off idx data_start page f page');
    [done|by apply Hf, Hr|done]|].
  intros u st2 (b' & -> & Hr'). exists st1, b', ps', cur'. split_and!; done.
Qed.

(** Filling the reserved slot and finishing the record, then [k]. *)
Lemma append_slot_spec {A} st es0 ws ps cur off idx data_start st' f page e (k : IO WalState A) Q :
  slot_reserved st es0 ws ps cur off idx data_start st' →
  (∀ old, zlen old = PAGE_SIZE → f old = Ret page) → slot_ok (e, page) →
  (∀ st2, appended 1 st es0 ws ps cur [(e, page)] st2 → returns_or os_failure k st2 Q) →
  returns_or os_failure (_ ← fill_slot data_start f; _ ← finish_active_record_slot_locked off idx e; k) st' Q.
Proof.
  intros Hr Hf Hok Hk. apply returns_bind.
  eapply returns_mono; [apply (slot_reserved_fill st es0 ws ps cur off idx); [done|done|apply (slot_page _ Hok)]|].
  intros u st2 (st1 & b & ps' & cur' & -> & Hi & Hcat & Hsl & Hr2). apply returns_bind.
  eapply returns_mono; [apply (finish_spec (buffer_capacity_bytes st1) _ cur' off idx data_start page e); done|].
  intros u' st3 (b' & -> & Hh & _). apply Hk.
  exists ps', (cur' ++ [(e, page)]). split_and!; [|by rewrite app_assoc, Hcat|done].
  apply (shard_inv_active st1 es0 ws ps' cur'); done.
Qed.

(** The handle of a reserved slot can be encoded. *)
Lemma open_log_aligned obs slotss : Forall2 open_batch obs slotss → zlen (log_bytes obs) mod PAGE_SIZE = 0.
Proof.
  intros Hobs. apply Z.mod_divide; [page_lia|]. induction Hobs as [|b sl obs slotss Hb _ IH]; [by exists 0|].
  change (log_bytes (b :: obs)) with (batch_bytes b ++ log_bytes obs). rewrite zlen_app.
  apply Z.divide_add_r; [|done]. destruct (open_batch_size _ _ Hb) as (_ & _ & _ & ->). exists (zlen sl + 1). lia.
Qed.

Lemma reserved_handle cap b ss off idx data_start page :
  reserved cap b ss off idx data_start page → ∃ h, encode_record_offset off idx = Ret h.
Proof.
  intros [_ _ _ _ _ (obs & slotss & m & sl & post & _ & Hobs & _ & _ & _ & Hlt & _ & -> & -> & _)].
  unfold encode_record_offset, WAL_RECORD_SIZE. rewrite !debug_assert_true.
  - by eexists.
  - apply Z.eqb_eq. by eapply open_log_aligned.
  - by apply Z.ltb_lt.
Qed.

Lemma image_slot_ok lsn pid page :
  0 ≤ lsn < 2 ^ 64 → 0 ≤ pid < 2 ^ 64 → zlen page = PAGE_SIZE → slot_ok (page_image_slot lsn pid page).
Proof.
  intros Hl Hp Hz. assert (Hw : wrap 32 PAGE_SIZE = PAGE_SIZE) by (apply wrap_small; page_lia).
  constructor; simpl; rewrite ?Hw; try done. unfold entry_ok. simpl. rewrite Hw. split_and!; (done || page_lia).
Qed.

Lemma append_page_image_spec fsync st es0 ws ps cur resumed lsn pid fill_page page :
  shard_inv st es0 ws ps cur → room 1 st →
  0 ≤ lsn < 2 ^ 64 → 0 ≤ pid < 2 ^ 64 → zlen page = PAGE_SIZE →
  (∀ old, zlen old = PAGE_SIZE → fill_page lsn old = page) →
  returns_or os_failure (append_page_image_with_lsn fsync resumed lsn pid fill_page) st (λ r st',
    match r with
    | Finished _ => appended 1 st es0 ws ps cur [page_image_slot lsn pid page] st'
    | Waiting => shard_inv st' es0 ws ps cur ∧ sealed 0 st st' ∧ blocked st st'
    end).
Proof.
  intros Hi Hsm Hl Hp Hz Hf. unfold append_page_image_with_lsn. apply returns_bind.
  eapply returns_mono; [by apply (reserve_spec st es0 ws ps cur)|].
  intros [[[off idx] ds]|] st1 Hr.
  - assert (Hh : ∃ h, encode_record_offset off idx = Ret h).
    { destruct Hr as (? & ? & ? & ? & ? & _ & _ & _ & _ & Hr). by eapply reserved_handle. }
    destruct Hh as [h Hh].
    apply (append_slot_spec st es0 ws ps cur off idx ds st1 _ page); [done|intros; by rewrite Hf|by apply image_slot_ok|].
    intros st2 Ha. apply returns_bind, returns_gets, returns_bind. eapply returns_lift; [exact Hh|]. by apply returns_ret.
  - by apply returns_ret.
Qed.

(** The chunks from [idx] on, up to where the loop waits. *)
Lemma append_chunks_spec fsync lsn kind payload n resumed idx st es0 ws ps cur :
  0 ≤ lsn < 2 ^ 64 → 0 ≤ kind < 2 ^ 64 → 0 ≤ idx → idx + Z.of_nat n = chunk_count (zlen payload) →
  shard_inv st es0 ws ps cur → room (Z.of_nat n) st →
  returns_or os_failure (append_chunks fsync n resumed lsn kind payload idx) st (λ r st',
    let stop := default (chunk_count (zlen payload)) r in idx ≤ stop ≤ chunk_count (zlen payload) ∧
    (is_Some r → stop < chunk_count (zlen payload) ∧ spare_buffers st' = [] ∧ (spare_buffers st ≠ [] → idx < stop)) ∧
    appended (Z.of_nat n) st es0 ws ps cur (map (logical_chunk_slot lsn kind payload) (seqZ idx (stop - idx))) st').
Proof.
  intros Hl Hk. revert resumed idx st ps cur. induction n as [|n IH]; intros resumed idx st ps cur Hpos Hn Hi Hsm.
  { apply returns_ret. simpl. replace (chunk_count (zlen payload) - idx) with 0 by lia.
    split_and!; [lia|lia|by intros [? ?]|]. apply appended_none; [done|]. apply sealed_refl; [lia|by eapply shard_cap_pos]. }
  assert (Hcp := shard_cap_pos _ _ _ _ _ Hi). cbn [append_chunks]. apply returns_bind.
  eapply returns_mono; [apply (reserve_spec st es0 ws ps cur); [done|eapply room_mono; [done|lia|done]]|].
  intros [[[off ix] ds]|] st1 Hr.
  2:{ destruct Hr as (Hi1 & Hsl & Hbl & Hbl'). apply returns_ret. simpl. rewrite Z.sub_diag.
      split_and!; [lia|lia|by intros _; split_and!; [lia|done|]|]. apply appended_none; [done|]. unfold sealed in *. nia. }
  assert (Hidx : 0 ≤ idx < chunk_count (zlen payload)) by lia.
  destruct (chunk_slot_ok lsn kind payload idx Hl Hk Hidx) as [Hok _].
  eapply (append_slot_spec st es0 ws ps cur off ix ds st1 _ (logical_chunk_slot lsn kind payload idx).2); [done| |exact Hok|].
  { intros old Hold. rewrite Hold. unfold logical_chunk_slot. rewrite chunk_slice by done.
    pose proof (zlen_nonneg (chunk_bytes payload idx)). pose proof (zlen_chunk_bytes payload idx Hidx).
    unfold WAL_RECORD_SIZE. apply copy_from_Ret; rewrite ?zlen_fill; page_lia. }
  intros st2 (ps2 & cur2 & Hi2 & Hcat2 & Hsl2).
  eapply returns_mono; [apply (IH false (idx + 1) st2 ps2 cur2); [lia|lia|done|]|].
  { eapply room_sealed; [done|]. by replace (1 + Z.of_nat n) with (Z.of_nat (S n)) by lia. }
  intros r st3 (Hstop & Hsome & ps3 & cur3 & Hi3 & Hcat3 & Hsl3). cbv zeta in *. set (stop := default _ r) in *.
  split_and!; [lia|lia|intros [? [? ?]]%Hsome; split_and!; [done|done|lia]|]. exists ps3, cur3. split_and!; [done| |].
  - rewrite Hcat3, Hcat2, (seqZ_cons idx) by lia. simpl. rewrite <-!app_assoc. simpl.
    replace (Z.pred (stop - idx)) with (stop - (idx + 1)) by lia. done.
  - replace (Z.of_nat (S n)) with (1 + Z.of_nat n) by lia. by eapply sealed_trans.
Qed.

End shard.

(** * Write-ahead log: packed logical records in a shard

    A short logical record is encoded into what is left of the packed page at
    the end of the active buffer, or opens a new packed page. *)

#[local] Open Scope Z_scope.

Section packed.
Context `{Build} `{Crc32} `{PosixFile}.

(** ** The packed page *)

Lemma packed_bytes_app rs rs' : packed_bytes (rs ++ rs') = packed_bytes rs ++ packed_bytes rs'.
Proof. unfold packed_bytes. by rewrite map_app, concat_app. Qed.

Lemma packed_bytes_one r : packed_bytes [r] = enc_logical r.
Proof. unfold packed_bytes. simpl. by rewrite app_nil_r. Qed.

(** The slot of a page that holds [len] packed bytes. *)
Lemma packed_entry_ok lsn len page :
  0 ≤ lsn < 2 ^ 64 → 0 ≤ len ≤ PAGE_SIZE → zlen page = PAGE_SIZE → slot_ok (BatchEntry.packed_logical lsn 0 len, page) ∧
  BatchEntry.len (BatchEntry.packed_logical lsn 0 len) = len.
Proof.
  intros Hl Hn Hz. assert (Hw : wrap 32 len = len) by (apply wrap_small; page_lia).
  split; [|done]. constructor; simpl; rewrite ?Hw; try (done || lia).
  unfold entry_ok. simpl. rewrite Hw. split_and!; (done || page_lia).
Qed.

(** Encoding one more record after [len] bytes. *)
Lemma packed_page_add s rs r lsn' :
  lsn' = Z.max (BatchEntry.lsn s.1) r.1.1 → packed_holds s rs → logical_ok r → zlen s.2 = PAGE_SIZE → BatchEntry.len s.1 + (20 + zlen r.2) ≤ PAGE_SIZE →
  packed_holds (BatchEntry.packed_logical lsn' 0 (BatchEntry.len s.1 + (20 + zlen r.2)),
    upd s.2 (BatchEntry.len s.1) (enc_logical r)) (rs ++ [r]).
Proof.
  intros -> [Hk Hl Hp Hok Hm] Hr Hz Hfit. pose proof (zlen_nonneg (packed_bytes rs)). pose proof (zlen_nonneg r.2).
  assert (Hb : zlen (packed_bytes (rs ++ [r])) = BatchEntry.len s.1 + (20 + zlen r.2)).
  { rewrite packed_bytes_app, packed_bytes_one, zlen_app, zlen_enc_logical. lia. }
  constructor; rewrite ?Hb; simpl; [done|apply wrap_small; page_lia| |apply Forall_app; by split; [|constructor]|].
  2:{ rewrite logical_max_snoc, Hm. destruct Hr as [Hr _]. lia. }
  rewrite sub_split by lia. rewrite packed_bytes_app, packed_bytes_one. f_equal.
  - rewrite sub_upd_ne by (rewrite ?zlen_enc_logical; lia). by rewrite Hl.
  - rewrite Z.add_0_l. apply sub_upd_eq; rewrite ?zlen_enc_logical; lia.
Qed.

Lemma packed_page_new r :
  logical_ok r → 20 + zlen r.2 ≤ PAGE_SIZE →
  packed_holds (BatchEntry.packed_logical r.1.1 0 (20 + zlen r.2), upd (fill PAGE_SIZE x00) 0 (enc_logical r)) [r].
Proof.
  intros Hr Hfit. pose proof (zlen_nonneg r.2).
  assert (Hb : zlen (packed_bytes [r]) = 20 + zlen r.2) by (by rewrite packed_bytes_one, zlen_enc_logical).
  constructor; rewrite ?Hb; simpl; [done|apply wrap_small; page_lia| |by constructor|].
  2:{ destruct Hr as [Hr _]. unfold logical_max. simpl. lia. }
  rewrite packed_bytes_one. apply sub_upd_eq; rewrite ?zlen_enc_logical, ?zlen_fill; page_lia.
Qed.

(** ** Replacing the last slot of a batch *)

Lemma open_batch_replace_last b sl s e' page' :
  open_batch b (sl ++ [s]) → slot_ok (e', page') →
  write_batch_entry (meta b) (zlen sl) e' = Ret (put_entry (meta b) (zlen sl) e') ∧
  open_batch {| meta := put_entry (meta b) (zlen sl) e'; data := map snd (sl ++ [(e', page')]) |} (sl ++ [(e', page')]).
Proof.
  intros [Hm Hc Hs Hd He] Hok. pose proof (zlen_nonneg sl). pose proof Hm as (Hz & _).
  assert (Hl : ∀ x : slot, zlen (sl ++ [x]) = zlen sl + 1) by (intros; by rewrite zlen_app). rewrite Hl in *.
  split; [apply write_batch_entry_ok; [done|lia]|]. apply Forall_app in Hs as [Hs _].
  constructor; simpl; rewrite ?Hl; [by apply meta_header_put_entry; [|lia]|lia|apply Forall_app; by split; [|constructor]|done|].
  intros j x [Hj|[Hge Hj]]%lookup_app_Some.
  - assert (Z.of_nat j < zlen sl) by (apply lookup_lt_Some in Hj; unfold zlen; lia).
    rewrite entry_at_put_ne by (done || lia). apply He. by apply lookup_app_l_Some.
  - destruct (j - length sl)%nat eqn:Ej; [|done]. simpl in Hj. injection Hj as <-.
    replace (Z.of_nat j) with (zlen sl) by (unfold zlen; lia). apply entry_at_put_eq; [done|lia|apply Hok].
Qed.

(** The buffer of a shard, split at its open packed page [p]: the batches
    [obs] before, the batch [b0] with the slots [sl] and the packed slot [s]. *)
Record packed_layout (b : WalBuffer.t) (p : PackedLogicalSlot) (ss : list slot)
    (obs : list batch) (b0 : batch) (slotss : list (list slot)) (sl : list slot) (s : slot) (post : list byte) : Prop := {
  layout_bytes : WalBuffer.buffer b = log_bytes obs ++ meta b0 ++ concat (map snd sl) ++ s.2 ++ post;
  layout_batches : Forall2 open_batch obs slotss;
  layout_last : open_batch b0 (sl ++ [s]);
  layout_slots : ss = concat slotss ++ sl ++ [s];
  layout_open : match WalBuffer.open_batch_meta_offset b with
    | None => WalBuffer.open_batch_count b = 0
    | Some off => off = zlen (log_bytes obs) ∧ WalBuffer.open_batch_count b = zlen sl + 1 ∧ zlen sl + 1 < BATCH_MAX_RECORDS
    end;
  layout_used : WalBuffer.used b = zlen (log_bytes obs) + PAGE_SIZE + zlen sl * PAGE_SIZE + PAGE_SIZE;
  layout_packed : p = {| packed_meta_start := zlen (log_bytes obs); packed_slot_idx := zlen sl;
    packed_data_start := zlen (log_bytes obs) + PAGE_SIZE + zlen sl * PAGE_SIZE;
    packed_length := BatchEntry.len s.1; packed_max_lsn := BatchEntry.lsn s.1 |};
  layout_holds : ∃ rs, packed_holds s rs;
}.

Lemma holds_packed_layout cap b ss p :
  holds cap b ss → WalBuffer.packed_logical b = Some p →
  ∃ obs b0 slotss sl s post, packed_layout b p ss obs b0 slotss sl s post.
Proof.
  intros [Hc Hl (obs & slotss & post & Hb & Hobs & Hss & Hu & Ho & Hrep)] Hp.
  unfold packed_rep in Hrep. rewrite Hp in Hrep.
  destruct Hrep as (sl & s & rs & [(obs0 & b0 & slotss0 & -> & -> & Hoff)] & Hidx & Hds & Hlen & Hmax & Hpk).
  apply Forall2_app_inv in Hobs as [Hobs0 Hb0]; [|apply Forall2_length in Hobs; rewrite !length_app in Hobs; simpl in Hobs; lia].
  apply Forall2_cons in Hb0 as [Hb0 _]. pose proof (open_batch_size _ _ Hb0) as (_ & _ & _ & Hsize).
  rewrite log_bytes_app, log_bytes_one in Hb, Hu. rewrite zlen_app, Hsize, zlen_app in Hu. change (zlen [s]) with 1 in Hu.
  exists obs0, b0, slotss0, sl, s, post. constructor; try done; try lia.
  - rewrite Hb. unfold batch_bytes. rewrite (open_data _ _ Hb0), map_app, concat_app. simpl. by rewrite app_nil_r, <-!app_assoc.
  - rewrite Hss, concat_app. simpl. by rewrite app_nil_r.
  - unfold open_batch_rep in Ho. destruct (WalBuffer.open_batch_meta_offset b) as [off|]; [|done].
    destruct Ho as (sl' & [(obs1 & b1 & slotss1 & [-> _]%app_inj_tail & [_ <-]%app_inj_tail & ->)] & Hcnt & Hlt).
    rewrite zlen_app in *. change (zlen [s]) with 1 in *. done.
  - destruct p. simpl in *. f_equal; lia.
  - by exists rs.
Qed.

Lemma packed_completes s rs : packed_holds s rs → completes_record s.1 = true.
Proof. intros [Hk _ _ _ _]. unfold completes_record. by rewrite Hk. Qed.

(** The layout is one of a buffer that holds the slots. *)
Lemma packed_layout_holds cap b ss p obs b0 slotss sl s post :
  packed_layout b p ss obs b0 slotss sl s post → zlen (WalBuffer.buffer b) = cap →
  WalBuffer.max_lsn b = max_completed 0 ss → WalBuffer.packed_logical b = Some p → holds cap b ss.
Proof.
  intros [Hb Hobs Hb0 Hss Ho Hu Hp [rs Hpk]] Hc Hl Hpl. constructor; [done|done|].
  pose proof (open_batch_size _ _ Hb0) as (_ & _ & _ & Hsize). rewrite zlen_app in Hsize. change (zlen [s]) with 1 in Hsize.
  assert (Hlast : last_batch (obs ++ [b0]) (slotss ++ [sl ++ [s]]) (zlen (log_bytes obs)) (sl ++ [s])).
  { constructor. by exists obs, b0, slotss. }
  exists (obs ++ [b0]), (slotss ++ [sl ++ [s]]), post. split_and!.
  - rewrite log_bytes_app, log_bytes_one. unfold batch_bytes. rewrite (open_data _ _ Hb0), map_app, concat_app. simpl.
    by rewrite app_nil_r, <-!app_assoc.
  - apply Forall2_app; [done|]. by constructor.
  - rewrite Hss, concat_app. simpl. by rewrite app_nil_r.
  - rewrite log_bytes_app, log_bytes_one, zlen_app. lia.
  - unfold open_batch_rep. destruct (WalBuffer.open_batch_meta_offset b) as [off|]; [|done].
    destruct Ho as (-> & Hcnt & Hlt). exists (sl ++ [s]). rewrite zlen_app. change (zlen [s]) with 1. done.
  - unfold packed_rep. rewrite Hpl. subst p. exists sl, s, rs. simpl. split_and!; (done || lia).
Qed.

(** The buffer after a record was added to its open packed page. *)
Lemma replace_packed_slot cap b p ss obs b0 slotss sl s post e' page' M :
  packed_layout b p ss obs b0 slotss sl s post → zlen (WalBuffer.buffer b) = cap →
  WalBuffer.max_lsn b = max_completed 0 ss → M = Z.max (WalBuffer.max_lsn b) (BatchEntry.lsn e') →
  slot_ok (e', page') → BatchEntry.lsn s.1 ≤ BatchEntry.lsn e' → (∃ rs, packed_holds (e', page') rs) →
  holds cap (WalBuffer.set_max_lsn (WalBuffer.set_packed
      (WalBuffer.set_buffer b (log_bytes obs ++ put_entry (meta b0) (zlen sl) e' ++ concat (map snd sl) ++ page' ++ post))
      (Some {| packed_meta_start := packed_meta_start p; packed_slot_idx := packed_slot_idx p;
               packed_data_start := packed_data_start p; packed_length := BatchEntry.len e';
               packed_max_lsn := BatchEntry.lsn e' |})) M)
    (concat slotss ++ sl ++ [(e', page')]).
Proof.
  intros [Hb Hobs Hb0 Hss Ho Hu Hp [rs0 Hpk0]] Hc Hl HM Hok HlM Hpk.
  destruct (open_batch_replace_last b0 sl s e' page' Hb0 Hok) as [_ Hb1].
  set (b1 := {| meta := put_entry (meta b0) (zlen sl) e'; data := _ |}) in Hb1.
  eapply (packed_layout_holds _ _ _ _ obs b1 slotss sl (e', page') post); simpl; [|..|done].
  - by constructor; try done; simpl; subst p.
  - pose proof (open_slots _ _ Hb0) as Hso. apply Forall_app in Hso as [_ Hso]. apply Forall_cons in Hso as [Hso _].
    pose proof (open_batch_size _ _ Hb1) as (Hz1 & _). pose proof (open_batch_size _ _ Hb0) as (Hz0 & _). simpl in Hz1.
    rewrite <-Hc, Hb, !zlen_app, Hz1, Hz0. rewrite (slot_page _ Hso). pose proof (slot_page _ Hok) as Hz. simpl in Hz. lia.
  - subst ss M. rewrite Hl, !app_assoc, !max_completed_snoc. destruct Hpk as [rs Hpk].
    rewrite (packed_completes _ _ Hpk), (packed_completes _ _ Hpk0). simpl. lia.
Qed.

(** ** Adding to the open packed page *)

(** A record was added to the packed slot at the end of the shard. *)
Definition packed_added (st : WalState) es0 ws ps cur (r : logical) (st' : WalState) : Prop :=
  ∃ pre s s', cur = pre ++ [s] ∧ BatchEntry.kind s.1 = RECORD_KIND_LOGICAL_PACKED ∧
    (∀ rs, packed_holds s rs → packed_holds s' (rs ++ [r])) ∧ shard_inv st' es0 ws ps (pre ++ [s']) ∧ sealed 0 st st'.

(** The bytes of the add: the page, then the entry of its slot. *)
Lemma packed_add_bytes b p ss obs b0 slotss sl s post r e' :
  packed_layout b p ss obs b0 slotss sl s post → slot_ok (e', upd s.2 (BatchEntry.len s.1) (enc_logical r)) →
  logical_ok r → 0 ≤ BatchEntry.len s.1 → BatchEntry.len s.1 + (20 + zlen r.2) ≤ PAGE_SIZE →
  let ds := packed_data_start p + packed_length p in let pe := packed_data_start p + PAGE_SIZE in
  let ms := packed_meta_start p in
  ∃ rest rest' bytes, slice (WalBuffer.buffer b) ds pe = Ret rest ∧
    encode_packed_logical_entry rest r.1.1 r.1.2 r.2 = Some (rest', 20 + zlen r.2) ∧
    copy_from (WalBuffer.buffer b) ds pe rest' = Ret bytes ∧
    (meta ← slice bytes ms (ms + PAGE_SIZE); meta ← write_batch_entry meta (packed_slot_idx p) e';
     copy_from bytes ms (ms + PAGE_SIZE) meta) =
      Ret (log_bytes obs ++ put_entry (meta b0) (zlen sl) e' ++ concat (map snd sl) ++
           upd s.2 (BatchEntry.len s.1) (enc_logical r) ++ post).
Proof.
  intros [Hb Hobs Hb0 Hss Ho Hu Hp _] Hok Hr Hpos Hfit ds pe ms. destruct r as [[lsn kind] payload]. simpl fst in *. simpl snd in *.
  pose proof (open_slots _ _ Hb0) as Hso. apply Forall_app in Hso as [Hsl Hso]. apply Forall_cons in Hso as [Hso _].
  pose proof (slot_page _ Hso) as Hz. pose proof (open_batch_size _ _ Hb0) as (Hz0 & _). pose proof (zlen_nonneg payload).
  set (len := BatchEntry.len s.1) in *. set (x := enc_logical (lsn, kind, payload)) in *.
  assert (Hx : zlen x = 20 + zlen payload) by (unfold x; by rewrite zlen_enc_logical).
  set (pre := log_bytes obs ++ meta b0 ++ concat (map snd sl)).
  assert (Hpre : zlen pre = packed_data_start p).
  { unfold pre. rewrite !zlen_app, zlen_pages by done. subst p. simpl. lia. }
  assert (Hbuf : WalBuffer.buffer b = (pre ++ sub s.2 0 len) ++ sub s.2 len (PAGE_SIZE - len) ++ post).
  { rewrite Hb, <-app_assoc, (app_assoc (sub s.2 0 len)), <-sub_split by lia. replace (len + (PAGE_SIZE - len)) with (zlen s.2) by lia.
    rewrite sub_all. unfold pre. by rewrite <-!app_assoc. }
  set (rest := sub s.2 len (PAGE_SIZE - len)) in *. assert (Hrest : zlen rest = PAGE_SIZE - len) by (apply zlen_sub; lia).
  assert (Hpre2 : zlen (pre ++ sub s.2 0 len) = ds).
  { rewrite zlen_app, zlen_sub by lia. unfold ds. subst p. simpl in *. fold len. lia. }
  assert (Hpe : pe = ds + zlen rest) by (unfold pe, ds; subst p; simpl; fold len; lia).
  set (rest' := upd rest 0 x).
  assert (Hrest' : zlen rest' = zlen rest) by (apply zlen_upd; lia).
  exists rest, rest', ((pre ++ sub s.2 0 len) ++ rest' ++ post). split_and!.
  - rewrite Hbuf, Hpe, <-Hpre2. apply slice_mid.
  - rewrite encode_packed_spec by apply Hr. rewrite (proj2 (Z.leb_le _ _)) by lia. done.
  - rewrite Hbuf, Hpe, <-Hpre2. by apply copy_mid.
  - assert (Hpage : sub s.2 0 len ++ rest' = upd s.2 len x).
    { rewrite <-(sub_all (upd s.2 len x)). rewrite zlen_upd by lia. replace (zlen s.2) with (len + (PAGE_SIZE - len)) by lia.
      rewrite sub_split by lia. f_equal; [rewrite sub_upd_ne by lia; done|].
      unfold rest', rest. rewrite Z.add_0_l. replace (PAGE_SIZE - len) with (zlen s.2 - len) by lia.
      rewrite <-(upd_upd_sub s.2 len x) by lia. symmetry. apply sub_upd_eq; rewrite ?zlen_upd; rewrite ?zlen_sub; lia. }
    rewrite <-app_assoc, (app_assoc (sub s.2 0 len)), Hpage. unfold pre. rewrite <-!app_assoc.
    assert (Hms : ms = zlen (log_bytes obs)) by (unfold ms; by subst p). rewrite Hms, <-Hz0, slice_mid, bind_Ret.
    assert (Hidx : packed_slot_idx p = zlen sl) by (by subst p). rewrite Hidx.
    destruct (open_batch_replace_last b0 sl s e' _ Hb0 Hok) as [-> Hb1]. rewrite bind_Ret. apply copy_mid.
    pose proof (open_batch_size _ _ Hb1) as (Hz1 & _). simpl in Hz1. lia.
Qed.

Lemma try_append_packed_spec st es0 ws ps cur lsn kind payload :
  shard_inv st es0 ws ps cur → logical_ok (lsn, kind, payload) →
  returns_or os_failure (try_append_packed_logical_locked lsn kind payload (20 + zlen payload)) st (λ done st',
    if done then packed_added st es0 ws ps cur (lsn, kind, payload) st'
    else shard_inv st' es0 ws ps cur ∧ sealed 0 st st' ∧ spare_buffers st' = spare_buffers st).
Proof.
  intros Hi Hr. pose proof (shard_cap_pos _ _ _ _ _ Hi) as Hcp. pose proof (zlen_nonneg payload).
  assert (Hsame : shard_inv st es0 ws ps cur ∧ sealed 0 st st ∧ spare_buffers st = spare_buffers st) by (split_and!; [done|by apply sealed_refl|done]).
  unfold try_append_packed_logical_locked. apply returns_bind, returns_gets.
  destruct (WalBuffer.packed_logical (active st)) as [p|] eqn:Hp; [|by apply returns_ret].
  pose proof (shard_active _ _ _ _ _ Hi) as Hh.
  destruct (holds_packed_layout _ _ _ _ Hh Hp) as (obs & b0 & slotss & sl & s & post & Hlay).
  pose proof (open_slots _ _ (layout_last _ _ _ _ _ _ _ _ _ Hlay)) as Hso.
  apply Forall_app in Hso as [_ Hso]. apply Forall_cons in Hso as [Hso _].
  destruct (slot_entry_ok _ Hso) as (Hlsn & _ & _ & Hlen & _). pose proof (slot_len _ Hso) as Hlen'.
  pose proof (layout_used _ _ _ _ _ _ _ _ _ Hlay) as Hu. pose proof (layout_packed _ _ _ _ _ _ _ _ _ Hlay) as Hpeq.
  assert (Huse : (WalBuffer.used (active st) =? packed_data_start p + WAL_RECORD_SIZE) = true).
  { apply Z.eqb_eq. unfold WAL_RECORD_SIZE. subst p. simpl. lia. }
  rewrite Huse. simpl negb. cbv iota. assert (Hplen : packed_length p = BatchEntry.len s.1) by (by subst p).
  assert (Hpmax : packed_max_lsn p = BatchEntry.lsn s.1) by (by subst p).
  unfold checked_add. destruct (in_width 64 (packed_length p + (20 + zlen payload))) eqn:Hw; [|by apply returns_ret].
  destruct (Z.ltb_spec WAL_RECORD_SIZE (packed_length p + (20 + zlen payload))) as [|Hfit]; [by apply returns_ret|].
  unfold WAL_RECORD_SIZE in *. rewrite Hplen in Hfit. set (e' := BatchEntry.packed_logical
    (Z.max (packed_max_lsn p) lsn) 0 (packed_length p + (20 + zlen payload))).
  set (page' := upd s.2 (BatchEntry.len s.1) (enc_logical (lsn, kind, payload))).
  destruct (packed_entry_ok (Z.max (packed_max_lsn p) lsn) (packed_length p + (20 + zlen payload)) page') as [Hok Hlen2].
  { destruct Hr as [Hr _]. simpl in Hr. lia. }
  { lia. }
  { unfold page'. rewrite zlen_upd; [apply (slot_page _ Hso)|lia|]. rewrite zlen_enc_logical, (slot_page _ Hso). simpl. lia. }
  destruct (packed_add_bytes _ _ _ _ _ _ _ _ _ (lsn, kind, payload) e' Hlay Hok Hr) as
    (rest & rest' & bytes & E1 & E2 & E3 & E4); [lia|simpl; lia|]. simpl fst in *. simpl snd in *.
  apply returns_bind. eapply returns_lift; [exact E1|]. rewrite E2. apply returns_bind.
  eapply returns_lift; [exact E3|]. apply returns_bind. eapply returns_lift; [by apply debug_assert_true, Z.eqb_refl|].
  destruct (slice bytes _ _) as [m|] eqn:E5; [|done]. rewrite bind_Ret in E4.
  destruct (write_batch_entry m _ _) as [m'|] eqn:E6; [|done]. rewrite bind_Ret in E4.
  apply returns_bind. eapply returns_lift; [reflexivity|]. apply returns_bind. eapply returns_lift; [exact E6|].
  apply returns_bind. eapply returns_lift; [exact E4|]. apply returns_bind, returns_modify, returns_ret.
  exists (concat slotss ++ sl), s, (e', page'). rewrite <-!app_assoc. destruct (layout_holds _ _ _ _ _ _ _ _ _ Hlay) as [rs0 Hrs0].
  assert (Hadd : ∀ rs, packed_holds s rs → packed_holds (e', page') (rs ++ [(lsn, kind, payload)])).
  { intros rs Hrs. unfold e'. rewrite Hplen. apply (packed_page_add s rs (lsn, kind, payload)); [by rewrite Hpmax|done|done|apply (slot_page _ Hso)|simpl; lia]. }
  split_and!; [apply Hlay|apply Hrs0|done| |by unfold sealed; simpl; lia].
  apply (shard_inv_active st es0 ws ps cur); [done|]. rewrite <-Hlen2.
  apply (replace_packed_slot _ _ _ _ _ _ _ _ _ _ e' page' _ Hlay); [apply Hh|apply Hh|done|done|simpl; lia|by eexists; eauto].
Qed.

(** ** A new packed page *)

Definition packed_or_new (st : WalState) es0 ws ps cur (r : logical) (st' : WalState) : Prop :=
  packed_added st es0 ws ps cur r st' ∨ ∃ s, packed_holds s [r] ∧ appended 1 st es0 ws ps cur [s] st'.

Lemma reserved_slice cap b ss off idx data_start page :
  reserved cap b ss off idx data_start page → slice (WalBuffer.buffer b) data_start (data_start + PAGE_SIZE) = Ret page.
Proof.
  intros [_ _ _ _ Hz (obs & slotss & m & sl & post & Hb & _ & _ & (Hm & _) & Hs & _ & _ & Hoff & _ & _ & Hd & Hu)].
  pose proof (slice_mid (log_bytes obs ++ m ++ concat (map snd sl)) page post) as Hsl.
  rewrite <-!app_assoc, <-Hb, !zlen_app, zlen_pages, Hz in Hsl by done.
  replace data_start with (zlen (log_bytes obs) + (zlen m + zlen sl * PAGE_SIZE)) by lia. done.
Qed.

Lemma append_packed_spec fsync st es0 ws ps cur resumed lsn kind payload :
  shard_inv st es0 ws ps cur → room 1 st → logical_ok (lsn, kind, payload) →
  returns_or (λ e, os_failure e ∨ e = InvalidInput ∧ PAGE_SIZE < 20 + zlen payload)
    (append_packed_logical_with_lsn fsync resumed lsn kind payload) st (λ r st',
    match r with
    | Finished _ => packed_or_new st es0 ws ps cur (lsn, kind, payload) st'
    | Waiting => shard_inv st' es0 ws ps cur ∧ sealed 0 st st' ∧ blocked st st'
    end).
Proof.
  intros Hi Hroom Hr. pose proof (zlen_nonneg payload). pose proof (shard_cap_pos _ _ _ _ _ Hi) as Hcp.
  pose proof Hr as (Hlsn & _ & Hp32). simpl in Hlsn, Hp32.
  unfold append_packed_logical_with_lsn, packed_logical_entry_len, checked_add, PACKED_LOGICAL_ENTRY_HEADER_LEN, WAL_RECORD_SIZE.
  rewrite (proj2 (in_width_spec 64 _)) by lia.
  destruct (Z.ltb_spec PAGE_SIZE (20 + zlen payload)) as [Hbig|Hfit]; [exists (Err InvalidInput), st; split; [done|by right]|].
  eapply returns_weaken; [|by intros e He; left].
  apply returns_bind. eapply (returns_mono _ _ _ (λ (done : bool) st1,
    if done then packed_added st es0 ws ps cur (lsn, kind, payload) st1 else shard_inv st1 es0 ws ps cur ∧ sealed 0 st st1 ∧
      spare_buffers st1 = spare_buffers st)).
  { destruct resumed; [apply returns_ret; split_and!; [done|by apply sealed_refl|done]|by apply try_append_packed_spec]. }
  intros [] st1 Hst1; [by apply returns_ret; left|]. destruct Hst1 as (Hi1 & Hsl1 & Hsp1). apply returns_bind.
  eapply returns_mono; [apply (reserve_spec st1 es0 ws ps cur); [done|by eapply room_sealed]|].
  intros [[[off idx] ds]|] st2 Hres.
  2:{ destruct Hres as (Hi2 & Hsl2 & Hb1 & Hb2). apply returns_ret.
      split_and!; [done|by apply (sealed_trans 0 0 st st1 st2)|split; congruence]. }
  apply returns_bind.
  eapply returns_mono; [apply (slot_reserved_fill st1 es0 ws ps cur off idx ds st2 _ (fill PAGE_SIZE x00));
    [done|by intros page ->|apply zlen_fill; page_lia]|].
  intros u st3 (st4 & b & ps' & cur' & -> & Hi4 & Hcat & Hsl4 & Hres4). apply returns_bind, returns_gets, returns_bind.
  eapply returns_lift; [by eapply reserved_slice|]. rewrite encode_packed_spec by done.
  rewrite zlen_fill, (proj2 (Z.leb_le _ _)) by page_lia.
  set (page := upd (fill PAGE_SIZE x00) 0 (enc_logical (lsn, kind, payload))).
  destruct (packed_entry_ok lsn (20 + zlen payload) page) as [Hok Hlen]; [done|lia|apply zlen_page_prefix; rewrite zlen_enc_logical; simpl; lia|].
  apply returns_bind. eapply returns_mono; [apply (fill_slot_spec (buffer_capacity_bytes st4) _ cur' off idx ds
    (fill PAGE_SIZE x00) _ page); [done|done|apply (slot_page _ Hok)]|].
  intros u2 st5 (b2 & -> & Hres5). apply returns_bind. eapply returns_lift; [by apply debug_assert_true, Z.eqb_refl|].
  apply returns_bind. eapply returns_mono; [apply (finish_spec (buffer_capacity_bytes st4) _ cur' off idx ds page); done|].
  intros u3 st6 (b3 & -> & _ & _ & Hpk). apply returns_bind, returns_modify, returns_ret. right.
  assert (Hnew : packed_holds (BatchEntry.packed_logical lsn 0 (20 + zlen payload), page) [(lsn, kind, payload)]).
  { by apply (packed_page_new (lsn, kind, payload)). }
  eexists. split; [exact Hnew|]. exists ps', (cur' ++ [(BatchEntry.packed_logical lsn 0 (20 + zlen payload), page)]).
  split_and!; [|by rewrite app_assoc, Hcat|].
  - apply (shard_inv_active st4 es0 ws ps' cur'); [done|]. specialize (Hpk _ Hnew). rewrite Hlen in Hpk. exact Hpk.
  - by apply (sealed_trans 0 1 st st1 st4).
Qed.

End packed.

(** * Write-ahead log: writing the sealed buffers of a shard

    A sealed buffer is stamped and written after the log in the file, and
    goes back to the spare buffers. *)

#[local] Open Scope Z_scope.

Section write.
Context `{Build} `{Crc32} `{PosixFile}.

Lemma pwrite_all_spec data off f :
  0 ≤ off → off + zlen data < 2 ^ 63 →
  returns_or os_failure (pwrite_all data off) f (λ _ f', contents f' = write_at (contents f) off data).
Proof.
  intros Ho Hlim. pose proof (zlen_nonneg data).
  destruct (pwrite_loop_returns (S (patience f + length data)) off data 0 f) as ([res d] & f' & E);
    [done|done|lia|unfold zlen in *; lia|].
  pose proof E as E'. apply pwrite_loop_spec in E' as (d' & res' & Hd & Ex & Hs & Hc); [|done|done|lia].
  injection Ex as -> ->. rewrite Z.add_0_r, Z.sub_0_r in Hc.
  exists res', f'. split.
  - unfold pwrite_all. erewrite IO_bind_Ok by done. by erewrite IO_bind_Ok by done.
  - destruct res' as [u|e]; simpl in Hs.
    + subst d'. by rewrite sub_all in Hc.
    + unfold os_failure. destruct e; try done; eauto.
Qed.

(** Written after the log, over the zeros that follow it. *)
Lemma write_at_zeros (a data : list byte) k :
  ∃ k', write_at (a ++ fill k x00) (zlen a) data = a ++ data ++ fill k' x00.
Proof.
  pose proof (zlen_nonneg a). pose proof (zlen_nonneg data).
  destruct (decide (zlen data = 0)) as [->%zlen_0_nil|Hd]; [by exists k|].
  exists (Z.max 0 k - zlen data).
  assert (Hzf : zlen (fill k x00) = Z.max 0 k) by (unfold fill; rewrite zlen_replicate; lia).
  apply list_eq. intros i. rewrite lookup_write_at by lia. rewrite zlen_app, Hzf.
  unfold zlen in *. destruct (decide (i < length a)%nat).
  - rewrite !(lookup_app_l a) by done. by rewrite decide_False, decide_True by lia.
  - rewrite !(lookup_app_r a) by lia. destruct (decide (i < length a + length data)%nat).
    + rewrite decide_True, lookup_app_l by lia. f_equal. lia.
    + rewrite decide_False, lookup_app_r by lia. unfold fill. case_decide.
      * rewrite !lookup_replicate_2 by lia. done.
      * rewrite decide_False by lia. symmetry. apply lookup_replicate_None. lia.
Qed.

Lemma complete_only lsn h :
  ∃ r, SubmittedWrites.complete (SubmittedWrites.push {| SubmittedWrites.entries := []; SubmittedWrites.high_water_lsn := h |} lsn) lsn
    = Ret (r, {| SubmittedWrites.entries := []; SubmittedWrites.high_water_lsn := Z.max h lsn |}).
Proof. unfold SubmittedWrites.complete. simpl. rewrite Z.eqb_refl. simpl. by eexists. Qed.

(** The first sealed buffer goes to the file. *)
Lemma write_one_spec st es0 ws p ps cur :
  shard_inv st es0 ws (p :: ps) cur → state_file_offset st < 2 ^ 63 →
  returns_or os_failure write_one st (λ _ st', shard_inv st' es0 (ws ++ p) ps cur ∧ sealed 0 st st' ∧
    spare_buffers st' ≠ [] ∧ WalBuffer.used (active st') = WalBuffer.used (active st)).
Proof.
  intros [Hc Ha Hs Hn Hw Hmk (hdr & bs & ess & k & Hf & Hv & Hh & Hbs & He & Hp)] Hlim. unfold write_one, pop_pending_write_locked.
  destruct (pending_writes st) as [|w pws] eqn:Epw; [done|]. simpl in Hp. destruct Hp as ([Hcap Hmark Hlay] & Hoff & Hp).
  destruct Hlay as (obs & slotss & post & Hb & Hobs & Hss & Hlen).
  apply returns_bind, returns_bind, returns_gets. rewrite Epw.
  apply returns_bind, returns_modify, returns_bind, returns_modify, returns_ret.
  destruct (finalize_buffer_records_spec obs slotss post Hobs) as (bs' & Ef & Hgood & Hzb).
  pose proof (pendings_bounds _ _ _ _ _ Hp) as Hend. pose proof (zlen_nonneg (log_bytes bs)).
  assert (Hsl : slice (log_bytes bs' ++ post) 0 (pending_len w) = Ret (log_bytes bs')).
  { pose proof (slice_mid [] (log_bytes bs') post) as Hm. simpl in Hm. rewrite zlen_nil, Z.add_0_l in Hm. by rewrite Hlen, <-Hzb. }
  apply returns_bind. unfold submit_write. apply returns_bind. eapply returns_lift; [rewrite Hb, Hlen; exact Ef|].
  apply returns_bind. eapply returns_lift; [exact Hsl|]. apply returns_bind, on_fd_returns.
  eapply returns_mono; [apply pwrite_all_spec; [unfold WAL_HEADER_SIZE, WAL_RECORD_SIZE in *; page_lia|lia]|].
  intros u f Hf'. apply returns_ret. unfold handle_written. apply returns_bind, returns_gets. simpl.
  destruct (submitted_writes st) as [es h] eqn:Esub. simpl in Hw. subst es.
  destruct (complete_only (pending_max_lsn w) h) as (r & Er).
  apply returns_bind. eapply returns_lift; [exact Er|]. apply returns_bind, returns_modify.
  unfold next_buffer_epoch_locked.
  apply returns_bind, returns_bind, returns_gets, returns_bind, returns_modify, returns_ret.
  apply returns_bind, returns_modify, returns_bind, returns_modify, returns_ret.
  split_and!; [|by unfold sealed; simpl; lia|simpl; by destruct (spare_buffers st)|done]. constructor; simpl; [done|done| |rewrite length_app; simpl; lia|done| |].
  - apply Forall_app. split; [done|]. constructor; [|done]. simpl. rewrite Hb in Hcap. rewrite zlen_app in *. lia.
  - simpl in Hmk. rewrite Hmk, Hmark, !max_completed_app. lia.
  - destruct (write_at_zeros (hdr ++ log_bytes bs) (log_bytes bs') k) as [k' Hwr].
    exists hdr, (bs ++ bs'), (ess ++ map sealed_entries slotss), k'.
    rewrite log_bytes_app, <-!app_assoc, zlen_app. split_and!; [|done|done|by apply Forall2_app| |].
    + simpl in Hf'. rewrite Hf', Hf, Hoff, <-Hh, <-zlen_app, app_assoc, Hwr. by rewrite <-!app_assoc.
    + rewrite concat_app, He, Hss. unfold sealed_entries. by rewrite map_app, concat_map, app_assoc.
    + by rewrite Hzb, <-Hlen, Z.add_assoc.
Qed.

(** ** The driver's turn *)

Lemma bool_decide_list_nil {A} (l : list A) `{Decision (l = [])} : bool_decide (l = []) = match l with [] => true | _ => false end.
Proof. destruct l; [by apply bool_decide_true|by apply bool_decide_false]. Qed.

Lemma pendings_nil st es0 ws ps cur : shard_inv st es0 ws ps cur → pending_writes st = [] ↔ ps = [].
Proof.
  intros Hi. destruct (shard_file _ _ _ _ _ Hi) as (hdr & bs & ess & k & _ & _ & _ & _ & _ & Hp).
  by destruct (pending_writes st), ps.
Qed.

Lemma write_one_none st : pending_writes st = [] → write_one st = Done (Ok None) st.
Proof. intros E. unfold write_one, pop_pending_write_locked, mbind, IO_bind, gets. by rewrite E. Qed.

(** The shard has nothing that is not in the file. *)
Definition drained (st : WalState) : Prop := pending_writes st = [] ∧ WalBuffer.used (active st) = 0.

Lemma driver_write_spec fsync st es0 ws ps cur :
  shard_inv st es0 ws ps cur → room 1 st →
  returns_or os_failure (driver_write fsync) st (λ _ st', ∃ ws' ps' cur', shard_inv st' es0 ws' ps' cur' ∧
    ws' ++ concat ps' ++ cur' = ws ++ concat ps ++ cur ∧ sealed 1 st st' ∧ spare_buffers st' ≠ [] ∧
    (pending_writes st = [] → drained st') ∧ length (pending_writes st') = (length (pending_writes st) - 1)%nat).
Proof.
  intros Hi Hroom. pose proof (shard_cap_pos _ _ _ _ _ Hi) as Hcp. pose proof (shard_buffers _ _ _ _ _ Hi) as Hn.
  pose proof (shard_offset_pos _ _ _ _ _ Hi) as Hop.
  assert (Hlim : state_file_offset st < 2 ^ 63) by (unfold room, SEGMENT_SIZE in *; lia).
  unfold driver_write. apply returns_bind, returns_gets. rewrite !bool_decide_list_nil.
  destruct (pending_writes st) as [|w pws] eqn:Epw.
  - destruct (spare_buffers st) as [|sp spare] eqn:Esp; [simpl in Hn; lia|]. cbn [andb].
    assert (ps = []) as -> by (by apply (pendings_nil st es0 ws ps cur)).
    apply returns_bind. destruct (Z.ltb_spec 0 (WalBuffer.used (active st))) as [Hu|Hu].
    + eapply returns_mono; [apply (seal_active_spec st es0 ws [] cur fsync); [done|done|by rewrite Esp|lia]|].
      intros b st1 (Hi1 & Hu1 & Hsl1).
      eapply returns_mono; [apply (write_one_spec st1 es0 ws cur [] []); [done|]|].
      { destruct Hsl1 as [_ Ho1]. unfold room, SEGMENT_SIZE in *. lia. }
      intros mark st2 (Hi2 & Hsl2 & Hsp2 & Hu2).
      exists (ws ++ cur), [], []. split_and!; [done|by simpl; rewrite app_nil_r|by apply (sealed_trans 1 0 st st1 st2)|done| |].
      * intros _. split; [by apply (pendings_nil st2 es0 (ws ++ cur) [] [])|congruence].
      * by rewrite (proj2 (pendings_nil st2 es0 (ws ++ cur) [] [] Hi2) eq_refl).
    + apply returns_ret. exists (Ok None), st. rewrite write_one_none by done. split; [done|].
      exists ws, [], cur. split_and!; [done|done|by apply sealed_refl|by rewrite Esp| |by rewrite Epw].
      intros _. split; [done|]. destruct (holds_layout _ _ _ (shard_active _ _ _ _ _ Hi)) as (obs & _ & _ & _ & _ & _ & Hused & _).
      pose proof (zlen_nonneg (log_bytes obs)). lia.
  - cbn [andb]. destruct ps as [|p ps]; [by pose proof (proj2 (pendings_nil _ _ _ _ _ Hi) eq_refl); congruence|].
    apply returns_bind, returns_ret.
    eapply returns_mono; [by apply (write_one_spec st es0 ws p ps cur)|]. intros mark st2 (Hi2 & Hsl2 & Hsp2 & Hu2).
    exists (ws ++ p), ps, cur. split_and!; [done|simpl; by rewrite <-!app_assoc|unfold sealed in *; lia|done|done|].
    destruct (shard_file _ _ _ _ _ Hi) as (? & ? & ? & ? & _ & _ & _ & _ & _ & Hp1).
    destruct (shard_file _ _ _ _ _ Hi2) as (? & ? & ? & ? & _ & _ & _ & _ & _ & Hp2).
    apply pendings_length in Hp1, Hp2. rewrite Epw in Hp1. simpl in *. lia.
Qed.

End write.
