(* ===== verification/WalShardSpec.v ===== *)
(** * Write-ahead log: opening a log file

    On a file that reads reliably the scan of [open_wal_file] finds exactly
    the valid batches, and opening keeps them. *)

From S2P Require Import Prelude Bytes FrameKernel Posix PageStoreInv WalFormat WalBatch WalCodec WalPatch WalCodecSpec WalRecovery WalReplay WalReplaySpec WalSlots WalShard WalShardInv.
#[local] Open Scope Z_scope.

Section scan.
Context `{Build} `{Crc32} `{PosixFile}.

(** The method read only, and the file still reads reliably. *)
Definition reads_only {A} (m : IO os A) (f : os) (a : A) : Prop :=
  ∃ f', m f = Done (Ok a) f' ∧ contents f' = contents f ∧ reads_reliably f'.

Lemma reads_only_bind {A B} (m : IO os A) (k : A → IO os B) f a b :
  reads_only m f a → (∀ f', contents f' = contents f → reads_reliably f' → reads_only (k a) f' b) →
  reads_only (m ≫= k) f b.
Proof.
  intros (f' & E & Hc & Hr) Hk. destruct (Hk f' Hc Hr) as (f2 & E2 & Hc2 & Hr2). exists f2.
  split_and!; [by erewrite IO_bind_Ok|congruence|done].
Qed.

Lemma reads_only_ret {A} (a : A) f : reads_reliably f → reads_only (mret a) f a.
Proof. intros Hr. by exists f. Qed.
Lemma reads_only_lift {A} (a : A) o f : reads_reliably f → o = Ret a → reads_only (lift o) f a.
Proof. intros Hr ->. by exists f. Qed.

Lemma read_page off d f :
  reads_reliably f → 0 ≤ off → bytes_at (contents f) off d → zlen d = PAGE_SIZE → zlen (contents f) < 2 ^ 63 →
  reads_only (pread_all (fill WAL_RECORD_SIZE x00) off) f (d, Ok tt).
Proof.
  intros Hr Ho Hat Hd Hlim. pose proof (page_read _ _ _ Hat Hd) as Hpage. destruct Hat as [_ Hle].
  destruct (pread_all_spec WAL_RECORD_SIZE off f) as (buf & res & f' & E & Hc & Hrel & Hres);
    [unfold WAL_RECORD_SIZE; page_lia|done|unfold WAL_RECORD_SIZE; lia|done|].
  destruct (Hrel Hr) as [Hr' ->]. simpl in Hres. exists f'. split_and!; [|done|done]. rewrite E. unfold WAL_RECORD_SIZE in Hres. congruence.
Qed.

Lemma scan_batch_spec m off pages idx es max f :
  zlen m = PAGE_SIZE → page_sized pages → 0 ≤ idx → idx + zlen pages ≤ BATCH_MAX_RECORDS → 0 ≤ off →
  bytes_at (contents f) (off + PAGE_SIZE * (idx + 1)) (concat pages) → zlen (contents f) < 2 ^ 63 →
  checked_entries m idx pages = Some es → reads_reliably f →
  reads_only (scan_batch (length pages) m off idx max) f (true, max_completed max es).
Proof.
  intros Hm Hsz. revert idx es max f. induction Hsz as [|pg pages Hpg Hsz IH]; intros idx es max f Hi Hmax Ho Hat Hlim Hes Hr.
  { injection Hes as <-. by apply reads_only_ret. }
  rewrite zlen_cons in Hmax. pose proof (zlen_nonneg pages). simpl in Hes, Hat.
  destruct (validate_entry_data (entry_at m idx) pg) as [payload|] eqn:Ev; [simpl in Hes|done].
  destruct (checked_entries m (idx + 1) pages) as [es2|] eqn:E2; [injection Hes as <-|done].
  apply bytes_at_app in Hat as [Hat1 Hat2]; [|page_cases]. rewrite Hpg in Hat2. cbn [scan_batch length].
  eapply reads_only_bind; [by apply (read_page _ pg); [|unfold WAL_RECORD_SIZE; page_cases|..]|].
  intros f' Hc Hr'. cbn [fst snd]. eapply reads_only_bind; [apply reads_only_lift; [done|by apply read_batch_entry_ok; [|lia]]|].
  intros f2 Hc2 Hr2. rewrite Ev. cbn [max_completed fold_left fst]. apply IH; [lia|lia|done| |congruence|done|done].
  rewrite Hc2, Hc. replace (off + PAGE_SIZE * (idx + 1 + 1)) with (off + PAGE_SIZE * (idx + 1) + PAGE_SIZE) by lia. done.
Qed.

(** Zeros are no batch. *)
Lemma zero_meta : batch_meta_count (fill PAGE_SIZE x00) = None.
Proof.
  destruct (batch_meta_count (fill PAGE_SIZE x00)) as [c|] eqn:E; [|done]. exfalso.
  apply batch_meta_count_inv in E as (_ & Hm & _). revert Hm. unfold get_le.
  assert (Hs : sub (fill PAGE_SIZE x00) 0 (Z.of_nat 4) = fill 4 x00).
  { apply list_eq. intros i. destruct (decide (i < 4)%nat).
    - rewrite lookup_sub by lia. unfold fill. rewrite !lookup_replicate_2 by page_lia. done.
    - rewrite lookup_sub_ge by lia. symmetry. apply lookup_replicate_None. lia. }
  rewrite Hs. vm_compute. discriminate.
Qed.

Lemma scan_loop_spec bs ess fuel file_end off max k f :
  Forall2 good_batch bs ess → WAL_HEADER_SIZE ≤ off → bytes_at (contents f) off (log_bytes bs ++ fill k x00) → 0 ≤ k →
  file_end = off + zlen (log_bytes bs) + k → (length bs < fuel)%nat → zlen (contents f) < 2 ^ 63 → reads_reliably f →
  reads_only (scan_loop fuel file_end off max (off - WAL_HEADER_SIZE)) f
    (max_completed max (concat ess), off + zlen (log_bytes bs) - WAL_HEADER_SIZE).
Proof.
  intros Hbs. revert fuel off max f. induction Hbs as [|b es1 bs ess Hb Hbs IH]; intros fuel off max f Ho Hat Hk Hend Hf Hlim Hr.
  all: assert (Hpos : 0 ≤ off) by (unfold WAL_HEADER_SIZE, WAL_RECORD_SIZE in Ho; page_lia).
  all: destruct fuel as [|fuel]; [simpl in Hf; lia|]; cbn [scan_loop]; unfold WAL_RECORD_SIZE at 1.
  - change (log_bytes []) with (@nil byte) in *. rewrite zlen_nil, Z.add_0_r in *. simpl in Hat.
    destruct (Z.leb_spec (off + PAGE_SIZE) file_end); [|by apply reads_only_ret].
    assert (Hsplit : fill k x00 = fill PAGE_SIZE x00 ++ fill (k - PAGE_SIZE) x00).
    { unfold fill. rewrite <-replicate_add. f_equal. page_lia. }
    rewrite Hsplit in Hat. apply bytes_at_app in Hat as [Hat _]; [|done].
    eapply reads_only_bind; [by apply (read_page _ (fill PAGE_SIZE x00)); [|..|apply zlen_fill; page_lia|]|].
    intros f' Hc Hr'. cbn [fst snd]. rewrite zero_meta. by apply reads_only_ret.
  - change (log_bytes (b :: bs)) with (batch_bytes b ++ log_bytes bs) in *. rewrite zlen_app in *.
    destruct (good_batch_bounds _ _ Hb) as (Hm & Hcount & Hlen). pose proof (zlen_nonneg (log_bytes bs)). pose proof (zlen_nonneg (batch_bytes b)).
    rewrite <-app_assoc in Hat. apply bytes_at_app in Hat as [Hat1 Hat2]; [|done]. unfold batch_bytes in Hat1.
    apply bytes_at_app in Hat1 as [Hatm Hatd]; [|done]. rewrite Hm in Hatd.
    rewrite (proj2 (Z.leb_le _ _)) by page_cases.
    eapply reads_only_bind; [by apply (read_page _ (meta b))|]. intros f' Hc Hr'. cbn [fst snd].
    rewrite (good_count _ _ Hb). unfold WAL_RECORD_SIZE. rewrite (proj2 (Z.ltb_ge _ _)) by page_cases.
    eapply reads_only_bind.
    { replace (Z.to_nat (zlen (data b))) with (length (data b)) by (unfold zlen; lia).
      apply (scan_batch_spec _ off (data b) 0 es1); [done|apply Hb|lia|lia|done| |congruence|apply Hb|done].
      by rewrite Hc, Z.add_0_l, Z.mul_1_r. }
    intros f2 Hc2 Hr2. cbn [negb]. rewrite <-Hlen in *. simpl concat. unfold max_completed. rewrite fold_left_app.
    replace (off + (zlen (batch_bytes b) + zlen (log_bytes bs)) - WAL_HEADER_SIZE) with
      (off + zlen (batch_bytes b) + zlen (log_bytes bs) - WAL_HEADER_SIZE) by lia.
    apply IH; [lia|by rewrite Hc2, Hc|done|lia|simpl in Hf; lia|congruence|done].
Qed.

Lemma scan_valid_records_spec hdr bs ess k f :
  Forall2 good_batch bs ess → contents f = hdr ++ log_bytes bs ++ fill k x00 → zlen hdr = WAL_HEADER_SIZE → 0 ≤ k →
  zlen (contents f) < 2 ^ 63 → reads_reliably f →
  reads_only (scan_valid_records (zlen (contents f) - WAL_HEADER_SIZE)) f (max_completed 0 (concat ess), zlen (log_bytes bs)).
Proof.
  intros Hbs Hf Hh Hk Hlim Hr. unfold scan_valid_records.
  assert (Hz : zlen (contents f) = WAL_HEADER_SIZE + zlen (log_bytes bs) + k).
  { rewrite Hf, !zlen_app, Hh, zlen_fill; lia. }
  pose proof (scan_loop_spec bs ess (S (Z.to_nat ((zlen (contents f) - WAL_HEADER_SIZE) / WAL_RECORD_SIZE)))
    (WAL_HEADER_SIZE + (zlen (contents f) - WAL_HEADER_SIZE)) WAL_HEADER_SIZE 0 k f Hbs) as Hscan.
  rewrite Z.sub_diag in Hscan. replace (WAL_HEADER_SIZE + zlen (log_bytes bs) - WAL_HEADER_SIZE) with (zlen (log_bytes bs)) in Hscan by lia.
  apply Hscan; [lia| |done|lia| |done|done].
  - rewrite Hf, <-Hh. pose proof (bytes_at_here hdr (log_bytes bs ++ fill k x00) []) as Hat. by rewrite app_nil_r in Hat.
  - pose proof (log_bytes_long bs ess Hbs). unfold WAL_RECORD_SIZE.
    assert (Z.of_nat (length bs) ≤ (zlen (contents f) - WAL_HEADER_SIZE) / PAGE_SIZE); [|lia].
    apply Z.div_le_lower_bound; page_lia.
Qed.

(** ** Opening *)

(** The file reads reliably once its size was read. *)
Definition opens_reliably (f : os) : Prop := ∀ r f', fstat f = (r, f') → reads_reliably f'.

Lemma fstat_size_spec f :
  returns_or os_failure fstat_size f (λ n f', n = zlen (contents f) ∧ contents f' = contents f ∧ (opens_reliably f → reads_reliably f')).
Proof.
  unfold fstat_size. destruct (fstat f) as [[n|e] f'] eqn:E.
  - exists (Ok n), f'. rewrite E. split; [done|]. apply fstat_ok in E as Hf. destruct Hf as [-> ?].
    split_and!; [done|done|]. intros Ho. by eapply Ho.
  - exists (Err (error_kind e)), f'. rewrite E. split; [done|apply error_kind_failure].
Qed.

Lemma reads_only_returns {A} E (m : IO os A) f a :
  reads_only m f a → returns_or E m f (λ x f', x = a ∧ contents f' = contents f ∧ reads_reliably f').
Proof. intros (f' & Em & Hc & Hr). by exists (Ok a), f'. Qed.

(** A valid log, and zeros to the end of the file. *)
Definition log_file (f : os) (hdr : list byte) (bs : list batch) : Prop :=
  validate_wal_header hdr = Ok tt ∧ zlen hdr = WAL_HEADER_SIZE ∧ ∃ k, 0 ≤ k ∧ contents f = hdr ++ log_bytes bs ++ fill k x00.

Lemma log_file_resize f f' hdr bs n :
  log_file f hdr bs → WAL_HEADER_SIZE + zlen (log_bytes bs) ≤ n → contents f' = resize (contents f) n → log_file f' hdr bs.
Proof.
  intros (Hv & Hh & k & Hk & Hf) Hn Hf'. split_and!; [done|done|]. exists (n - zlen (hdr ++ log_bytes bs)).
  rewrite zlen_app. split; [lia|]. rewrite Hf', Hf, app_assoc, resize_zeros by (rewrite zlen_app; lia).
  by rewrite zlen_app, <-app_assoc.
Qed.

Lemma extend_log_spec f hdr bs n (sync : bool) :
  log_file f hdr bs → WAL_HEADER_SIZE + zlen (log_bytes bs) ≤ n → n < 2 ^ 63 →
  returns_or os_failure (_ ← extend_file n; if sync then fdatasync_file else mret tt) f
    (λ _ f', log_file f' hdr bs ∧ zlen (contents f') = n).
Proof.
  intros Hl Hn Hlim. pose proof (zlen_nonneg (log_bytes bs)). apply returns_bind.
  assert (0 ≤ n) by (unfold WAL_HEADER_SIZE, WAL_RECORD_SIZE in *; page_lia).
  eapply returns_mono; [by apply extend_file_spec|]. intros u f1 Hf1.
  assert (Hl1 : log_file f1 hdr bs) by (by eapply log_file_resize).
  assert (Hz1 : zlen (contents f1) = n) by (rewrite Hf1; by apply zlen_resize).
  destruct sync; [|by apply returns_ret].
  eapply returns_mono; [apply fdatasync_spec|]. intros u2 f2 Hf2. unfold log_file. by rewrite Hf2.
Qed.

(** A log file opens to what it holds. *)
Lemma open_existing_spec direct fsync hdr bs ess f :
  log_file f hdr bs → Forall2 good_batch bs ess → zlen (contents f) + SEGMENT_SIZE < 2 ^ 63 → opens_reliably f →
  returns_or os_failure (open_wal_file direct fsync) f (λ o f', log_file f' hdr bs ∧
    zlen (contents f') = allocated_size o ∧ file_offset o = WAL_HEADER_SIZE + zlen (log_bytes bs) ∧
    max_lsn o = max_completed 0 (concat ess)).
Proof.
  intros Hl Hbs Hlim Hrel. pose proof Hl as (Hv & Hh & k & Hk & Hf). pose proof (zlen_nonneg (log_bytes bs)) as Hlb.
  assert (Hz : zlen (contents f) = WAL_HEADER_SIZE + zlen (log_bytes bs) + k) by (rewrite Hf, !zlen_app, Hh, zlen_fill; lia).
  assert (HH : 0 < WAL_HEADER_SIZE) by (unfold WAL_HEADER_SIZE, WAL_RECORD_SIZE; page_lia).
  unfold SEGMENT_SIZE in Hlim. unfold open_wal_file. apply returns_bind. eapply returns_mono; [apply fstat_size_spec|].
  intros n f1 (-> & Hc1 & Hr1). specialize (Hr1 Hrel). rewrite (proj2 (Z.ltb_ge _ _)) by lia.
  apply returns_bind. eapply returns_mono.
  { apply reads_only_returns, (read_page 0 hdr); [done|done| |done|rewrite Hc1; lia].
    rewrite Hc1, Hf. apply (bytes_at_here []). }
  intros r f2 (-> & Hc2 & Hr2). rewrite Hc1 in Hc2. cbn [fst snd]. rewrite Hv.
  apply returns_bind. exists (Ok tt), f2. split; [done|]. apply returns_bind. exists (Ok tt), f2. split; [done|].
  apply returns_bind. eapply returns_mono.
  { rewrite <-Hc2. apply reads_only_returns, (scan_valid_records_spec hdr bs ess k); [done|by rewrite Hc2|done|done|rewrite Hc2; lia|done]. }
  intros s f3 (-> & Hc3 & Hr3). rewrite Hc2 in Hc3. cbv beta iota. apply returns_bind.
  assert (Hl3 : log_file f3 hdr bs) by (unfold log_file; rewrite Hc3; done).
  set (valid_end := WAL_HEADER_SIZE + zlen (log_bytes bs)) in *.
  eapply (returns_mono _ _ _ (λ _ f4, log_file f4 hdr bs ∧ zlen (contents f4) = valid_end)).
  { destruct (Z.ltb_spec valid_end (zlen (contents f))).
    - eapply returns_mono; [apply extend_file_spec; lia|]. intros u f4 Hf4.
      split; [eapply log_file_resize; [exact Hl3|done|exact Hf4]|]. rewrite Hf4. apply zlen_resize. lia.
    - apply returns_ret. split; [done|]. rewrite Hc3. lia. }
  intros u f4 [Hl4 Hz4]. destruct (round_up_segment valid_end) as (t & Et & Ht); [lia|unfold SEGMENT_SIZE; lia|].
  apply returns_bind. eapply returns_lift; [exact Et|]. apply returns_bind.
  eapply (returns_mono _ _ _ (λ _ f5, log_file f5 hdr bs ∧ zlen (contents f5) = Z.max t SEGMENT_SIZE)).
  { destruct (Z.ltb_spec valid_end (Z.max t SEGMENT_SIZE)).
    - apply (extend_log_spec f4 hdr bs); [done|fold valid_end; lia|unfold SEGMENT_SIZE in *; lia].
    - apply returns_ret. split; [done|lia]. }
  intros u5 f5 [Hl5 Hz5]. by apply returns_ret.
Qed.

(** An empty file, or less than a header, becomes an empty log. *)
Lemma open_fresh_spec direct fsync f :
  zlen (contents f) < WAL_HEADER_SIZE →
  returns_or os_failure (open_wal_file direct fsync) f (λ o f', log_file f' (build_wal_header direct) [] ∧
    zlen (contents f') = allocated_size o ∧ file_offset o = WAL_HEADER_SIZE ∧ max_lsn o = 0).
Proof.
  intros Hshort. destruct (header_valid direct) as [Hv Hh]. unfold open_wal_file. apply returns_bind.
  eapply returns_mono; [apply fstat_size_spec|]. intros n f1 (-> & Hc1 & _). rewrite (proj2 (Z.ltb_lt _ _)) by done.
  assert (HH : 0 < WAL_HEADER_SIZE < 2 ^ 63) by (unfold WAL_HEADER_SIZE, WAL_RECORD_SIZE; page_lia).
  apply returns_bind. eapply returns_mono; [apply pwrite_all_spec; lia|]. intros u f2 Hf2.
  assert (Hl2 : log_file f2 (build_wal_header direct) []).
  { split_and!; [done|done|]. exists 0. split; [done|]. rewrite Hf2, Hc1. simpl. apply list_eq. intros i.
    pose proof (zlen_nonneg (contents f)). rewrite lookup_write_at, app_nil_r by lia. case_decide; [f_equal; lia|].
    rewrite !decide_False by lia. symmetry. apply lookup_ge_None_2. unfold zlen in *. lia. }
  assert (HS : WAL_HEADER_SIZE ≤ SEGMENT_SIZE) by (unfold WAL_HEADER_SIZE, WAL_RECORD_SIZE, SEGMENT_SIZE; page_lia).
  destruct (extend_log_spec f2 (build_wal_header direct) [] SEGMENT_SIZE fsync) as (r & f3 & E3 & H3);
    [done|change (zlen (log_bytes [])) with 0; lia|done|].
  unfold mbind at 1 2, IO_bind at 1 2. unfold mbind at 1, IO_bind at 1 in E3.
  unfold returns_or. destruct (extend_file SEGMENT_SIZE f2) as [[[]|e] f2'| |]; try done.
  - rewrite E3. destruct r as [[]|e]; eexists _, _; (split; [reflexivity|]); [|done]. destruct H3 as [? ?]. done.
  - injection E3 as <- <-. eexists _, _. split; [reflexivity|done].
Qed.

End scan.

(** A kernel that plays no more script reads reliably. *)
Lemma scripted_reads_reliably f : script f = [] → @reads_reliably scripted_file f.
Proof.
  intros Hs. exists (λ g : @os scripted_file, script g = []). split; [done|]. intros g n off r g' Hg Hn Ho.
  change (script_pread g n off = (r, g') → script g' = [] ∧ ∀ e, r = inr e → e = EINTR). cbv beta in Hg. unfold script_pread, Posix.next. rewrite Hg.
  rewrite (proj2 (Z.leb_le 0 off)) by done. destruct (off <=? zlen (bytes g)); simpl; [|rewrite (proj2 (Z.ltb_ge off 0)) by done].
  all: intros [= <- <-]; by split.
Qed.

Lemma scripted_opens_reliably f : script f = [] → @opens_reliably scripted_file f.
Proof.
  intros Hs r f'. change (script_fstat f = (r, f') → @reads_reliably scripted_file f').
  intros E. apply scripted_reads_reliably. revert E. unfold script_fstat, control, Posix.next. rewrite Hs. by intros [= <- <-].
Qed.

(** * Write-ahead log: what is appended comes back

    A shard as a machine: appends start, wait for a buffer and resume, and
    the driver writes sealed buffers, in any order. The machine is related to
    the list of records appended, and reading the file back yields it. *)

#[local] Open Scope Z_scope.

(** ** The records a sequence of slots stands for *)

Section items.
Context `{Build} `{Crc32}.

Notation record := OwnedWalReplayRecord.

Definition packed_record (r : logical) : record := Logical r.1.1 r.1.2 r.2.

(** The slots of one append, or of the appends that share a packed page. *)
Inductive item : list slot → list record → Prop :=
| ImageItem lsn pid page : 0 ≤ lsn → item [page_image_slot lsn pid page] [PageImage lsn pid page]
| LogicalItem lsn kind payload r :
    logical_record lsn kind payload = Some r → 0 ≤ lsn < 2 ^ 64 → 0 ≤ kind < 2 ^ 64 →
    item (logical_slots lsn kind payload) [r]
| PackedItem s rs : packed_holds s rs → item [s] (map packed_record rs).

Inductive recorded : list slot → list record → Prop :=
| RecordedNil : recorded [] []
| RecordedSnoc ss rs s r : recorded ss rs → item s r → recorded (ss ++ s) (rs ++ r).

(** From the chunks [c], the entries [es] replay to [rs], and replay goes on
    after them with [c']. *)
Definition replays (c : chunks) (es : list (BatchEntry.t * list byte)) (rs : list record) (c' : chunks) : Prop :=
  ∀ rest, replay_entries c (es ++ rest) = rs ++ replay_entries c' rest.

Lemma replays_nil c : replays c [] [] c.
Proof. done. Qed.

Lemma replays_app c1 c2 c3 es1 es2 rs1 rs2 :
  replays c1 es1 rs1 c2 → replays c2 es2 rs2 c3 → replays c1 (es1 ++ es2) (rs1 ++ rs2) c3.
Proof. intros Hr1 Hr2 rest. by rewrite <-!app_assoc, Hr1, Hr2. Qed.

Lemma replays_exact c es rs c' : replays c es rs c' → replay_entries c es = rs.
Proof. intros Hr. specialize (Hr []). by rewrite !app_nil_r in Hr. Qed.

(** A page image is replayed from any state. *)
Lemma replay_not_stopped c : ∃ es, replay_entries c es ≠ [].
Proof. exists (sealed_entries [page_image_slot 0 0 []]). by rewrite <-(app_nil_r (sealed_entries _)), replay_image_slot. Qed.

(** What goes on after all entries goes on after the first ones. *)
Lemma replays_prefix c es1 es2 rs c' : replays c (es1 ++ es2) rs c' → ∃ rs1 c1, replays c es1 rs1 c1 ∧ rs1 `prefix_of` rs.
Proof.
  revert c rs. induction es1 as [|[e payload] es1 IH]; intros c rs Hr; [exists [], c; split; [done|apply prefix_nil]|].
  pose proof (replays_exact _ _ _ _ Hr) as Hex. unfold replays in *. simpl in *.
  destruct (replay_entry c e payload) as [r [c2|]] eqn:E.
  - subst rs. destruct (IH c2 (replay_entries c2 (es1 ++ es2))) as (rs1 & c1 & Hr1 & Hp).
    { intros rest. specialize (Hr rest). rewrite <-(app_assoc r) in Hr. by apply app_inv_head in Hr. }
    exists (r ++ rs1), c1. split; [|by apply prefix_app]. intros rest. by rewrite Hr1, <-app_assoc.
  - exfalso. destruct (replay_not_stopped c') as [es Hes]. rewrite app_nil_r in *. specialize (Hr es). subst rs.
    rewrite <-(app_nil_r r) in Hr at 1. by apply app_inv_head in Hr.
Qed.

Lemma item_replays c ss rs : item ss rs → ∃ c', replays c (sealed_entries ss) rs c'.
Proof.
  intros [lsn pid page _|lsn kind payload r Hr Hl Hk|s ls Hp].
  - exists (drop_partial c). intros rest. apply replay_image_slot.
  - exists no_chunks. intros rest. by apply replay_logical_slots.
  - exists (drop_partial c). intros rest. rewrite (replay_packed_slot s ls) by done. f_equal. apply map_ext. by intros [[? ?] ?].
Qed.

Lemma recorded_replays c ss rs : recorded ss rs → ∃ c', replays c (sealed_entries ss) rs c'.
Proof.
  induction 1 as [|ss rs s r _ [c1 IH] Hi]; [exists c; apply replays_nil|]. unfold sealed_entries. rewrite map_app.
  destruct (item_replays c1 s r Hi) as [c2 Hs]. exists c2. by eapply replays_app.
Qed.

Lemma item_last ss rs : item ss rs → ∃ ss0 s, ss = ss0 ++ [s].
Proof.
  intros Hi. destruct ss as [|s ss _] using rev_ind; [|by exists ss, s]. exfalso.
  inversion Hi as [|lsn kind payload r Hr Hl Hk E1 E2|]. clear Hl.
  assert (Hl : length (logical_slots lsn kind payload) = 0%nat) by (by rewrite E1).
  unfold logical_slots in Hl. rewrite length_map, length_seqZ in Hl.
  destruct (chunk_count_spec (zlen payload) (zlen_nonneg _)) as (Hc & _). lia.
Qed.

Lemma item_packed ss s rs :
  item (ss ++ [s]) rs → BatchEntry.kind s.1 = RECORD_KIND_LOGICAL_PACKED →
  ss = [] ∧ ∃ ls, packed_holds s ls ∧ rs = map packed_record ls.
Proof.
  intros Hi Hk. inversion Hi as [lsn pid page Hl E1 E2|lsn kind payload r Hr Hl Hkk E1 E2|s' ls Hp E1 E2].
  - symmetry in E1. apply app_singleton in E1 as [[-> [= ->]]|[_ [=]]]. done.
  - exfalso. assert (Hin : s ∈ logical_slots lsn kind payload) by (rewrite E1; set_solver).
    apply list_elem_of_fmap in Hin as (idx & -> & _). done.
  - symmetry in E1. apply app_singleton in E1 as [[-> [= ->]]|[_ [=]]]. split; [done|]. by exists ls.
Qed.

(** A record joins the packed slot at the end. *)
Lemma recorded_packed_add ss s s' r rs :
  recorded (ss ++ [s]) rs → BatchEntry.kind s.1 = RECORD_KIND_LOGICAL_PACKED →
  (∀ ls, packed_holds s ls → packed_holds s' (ls ++ [r])) → recorded (ss ++ [s']) (rs ++ [packed_record r]).
Proof.
  intros Hr Hk Hadd. inversion Hr as [E|ss1 rs1 s1 r1 Hr1 Hi1 E1 E2]; [by destruct ss|].
  destruct (item_last _ _ Hi1) as (ss0 & x & ->). rewrite app_assoc in E1. apply app_inj_tail in E1 as [<- ->].
  destruct (item_packed _ _ _ Hi1 Hk) as (-> & ls & Hls & ->). rewrite app_nil_r, <-app_assoc.
  apply RecordedSnoc; [done|]. change [packed_record r] with (map packed_record [r]). rewrite <-map_app.
  by apply PackedItem, Hadd.
Qed.

(** ** The largest LSN of the records *)

Definition records_max (rs : list record) : Z := fold_right Z.max 0 (map record_lsn rs).

Lemma records_max_nonneg rs : 0 ≤ records_max rs.
Proof. induction rs as [|r rs IH]; simpl; [done|]. unfold records_max in *. simpl. lia. Qed.

Lemma records_max_app rs1 rs2 : records_max (rs1 ++ rs2) = Z.max (records_max rs1) (records_max rs2).
Proof.
  pose proof (records_max_nonneg rs2). unfold records_max in *. rewrite map_app.
  induction rs1 as [|r rs1 IH]; simpl in *; lia.
Qed.

(** Slots of a record without its end: they replay to nothing. *)
Definition unfinished (ss : list slot) : Prop :=
  (∀ c, ∃ c', replays c (sealed_entries ss) [] c') ∧ max_completed 0 ss = 0.

Lemma unfinished_nil : unfinished [].
Proof. split; [intros c; exists c; apply replays_nil|done]. Qed.

Lemma chunk_completes lsn kind payload idx :
  0 ≤ idx < chunk_count (zlen payload) →
  completes_record (logical_chunk_slot lsn kind payload idx).1 = (idx + 1 =? chunk_count (zlen payload)).
Proof.
  intros Hi. rewrite chunk_slot_eq by done. destruct (chunk_flags_spec idx (chunk_count (zlen payload))) as (_ & _ & Hl).
  unfold completes_record. simpl. exact Hl.
Qed.

Lemma chunks_unfinished lsn kind payload stop :
  0 ≤ lsn < 2 ^ 64 → 0 ≤ kind < 2 ^ 64 → 0 ≤ stop < chunk_count (zlen payload) →
  unfinished (map (logical_chunk_slot lsn kind payload) (seqZ 0 stop)).
Proof.
  intros Hl Hk Hs. split.
  - intros c. destruct (replay_first_chunks lsn kind payload stop c) as (c' & _ & Hr); [done..|]. exists c'. intros rest. by rewrite Hr.
  - assert (Hall : Forall (λ s, completes_record s.1 = false) (map (logical_chunk_slot lsn kind payload) (seqZ 0 stop))).
    { apply Forall_map, Forall_forall. intros idx Hidx%elem_of_seqZ. cbv beta. rewrite chunk_completes by lia. apply Z.eqb_neq. lia. }
    revert Hall. generalize (map (logical_chunk_slot lsn kind payload) (seqZ 0 stop)). intros ss Hall.
    unfold max_completed. induction Hall as [|s ss Hsf _ IH]; [done|]. simpl. by rewrite Hsf.
Qed.

(** A part of a run of chunks is a run of chunks. *)
Lemma seqZ_prefix {A} (f : Z → A) n xs ys :
  0 ≤ n → map f (seqZ 0 n) = xs ++ ys → xs = map f (seqZ 0 (Z.of_nat (length xs))) ∧ Z.of_nat (length xs) + Z.of_nat (length ys) = n.
Proof.
  intros Hn E. assert (Hlen : Z.of_nat (length xs) + Z.of_nat (length ys) = n).
  { apply (f_equal length) in E. rewrite length_map, length_seqZ, length_app in E. lia. }
  split; [|done]. replace n with (Z.of_nat (length xs) + Z.of_nat (length ys)) in E by lia.
  rewrite seqZ_app, map_app in E by lia. apply app_inj_1 in E as [E _]; [done|]. rewrite length_map, length_seqZ. lia.
Qed.

Lemma item_unfinished ss1 ss2 rs : item (ss1 ++ ss2) rs → ss2 ≠ [] → unfinished ss1.
Proof.
  intros Hi Hne. inversion Hi as [lsn pid page Hl E1 E2|lsn kind payload r Hr Hl Hk E1 E2|s ls Hp E1 E2].
  - symmetry in E1. apply app_singleton in E1 as [[-> _]|[_ ->]]; [apply unfinished_nil|done].
  - destruct (chunk_count_spec (zlen payload) (zlen_nonneg _)) as (Hc & _).
    unfold logical_slots in E1. apply seqZ_prefix in E1 as [E Hlen]; [|lia]. rewrite E. apply chunks_unfinished; [done|done|].
    destruct ss2; [done|simpl in Hlen; lia].
  - symmetry in E1. apply app_singleton in E1 as [[-> _]|[_ ->]]; [apply unfinished_nil|done].
Qed.

Lemma item_max ss rs : item ss rs → max_completed 0 ss = records_max rs.
Proof.
  intros [lsn pid page Hl|lsn kind payload r Hr Hl Hk|s ls Hp].
  - unfold records_max, max_completed. simpl. lia.
  - destruct (chunk_count_spec (zlen payload) (zlen_nonneg _)) as (Hc & _). unfold logical_slots.
    replace (chunk_count (zlen payload)) with (chunk_count (zlen payload) - 1 + 1) by lia.
    rewrite seqZ_app, map_app by lia. rewrite (seqZ_cons (0 + _) 1), (seqZ_nil _ (Z.pred 1)) by lia. cbn [map].
    destruct (chunks_unfinished lsn kind payload (chunk_count (zlen payload) - 1)) as [_ Hm]; [done|done|lia|].
    rewrite max_completed_snoc, Hm, chunk_completes, (proj2 (Z.eqb_eq _ _)) by lia.
    rewrite chunk_slot_eq by lia. unfold records_max. simpl.
    assert (Hrec : record_lsn r = lsn); [|lia]. unfold logical_record in Hr.
    destruct (kind =? LOGICAL_KIND_PAGE_IMAGE_BYTES); [|by injection Hr as <-].
    destruct (decode_page_image_bytes_payload payload) as [[pid page]|]; simpl in Hr; [by injection Hr as <-|done].
  - unfold max_completed. simpl. rewrite (packed_completes _ _ Hp), (packed_lsn _ _ Hp). unfold records_max, logical_max.
    rewrite map_map. unfold packed_record. simpl.
    pose proof (records_max_nonneg (map packed_record ls)) as Hn. unfold records_max in Hn. rewrite map_map in Hn. simpl in Hn. lia.
Qed.

Lemma recorded_max ss rs : recorded ss rs → max_completed 0 ss = records_max rs.
Proof.
  induction 1 as [|ss rs s r _ IH Hi]; [done|]. by rewrite max_completed_app, records_max_app, IH, (item_max s r).
Qed.

(** The first slots of a log hold the first records. *)
Definition holds_first (ss : list slot) (rs : list record) : Prop :=
  ∃ rs0, rs0 `prefix_of` rs ∧ (∀ c, ∃ c', replays c (sealed_entries ss) rs0 c') ∧ max_completed 0 ss = records_max rs0.

Lemma holds_first_unfinished ss rs part rs' :
  recorded ss rs → unfinished part → rs `prefix_of` rs' → holds_first (ss ++ part) rs'.
Proof.
  intros Hr [Hu Hm] Hp. exists rs. split_and!; [done| |].
  - intros c. destruct (recorded_replays c ss rs Hr) as [c1 H1]. destruct (Hu c1) as [c2 H2]. exists c2.
    unfold sealed_entries. rewrite map_app. rewrite <-(app_nil_r rs). by eapply replays_app.
  - rewrite max_completed_app, Hm, (recorded_max ss rs Hr). pose proof (records_max_nonneg rs). lia.
Qed.

Lemma recorded_prefix ss rs ss1 ss2 : recorded ss rs → ss = ss1 ++ ss2 → holds_first ss1 rs.
Proof.
  intros Hr. revert ss1 ss2. induction Hr as [|ss rs s r Hr IH Hi]; intros ss1 ss2 E.
  - symmetry in E. apply app_eq_nil in E as [-> _]. apply (holds_first_unfinished [] [] []); [constructor|apply unfinished_nil|done].
  - apply app_eq_inv in E as [(k & -> & ->)|(k & -> & ->)].
    + destruct (IH ss1 k) as (rs0 & Hp & Hrest); [done|]. exists rs0. split; [|done]. by apply prefix_app_r.
    + destruct ss2 as [|x ss2].
      * rewrite app_nil_r in *. rewrite <-(app_nil_r (ss ++ k)). apply (holds_first_unfinished _ (rs ++ r)); [by constructor|apply unfinished_nil|done].
      * apply (holds_first_unfinished _ rs); [done|by apply (item_unfinished k (x :: ss2) r)|by apply prefix_app_r].
Qed.

End items.

(** ** The machine *)

Section machine.
Context `{Build} `{Crc32} `{PosixFile}.
Context (pre_extend_needs_fsync : bool).

Notation record := OwnedWalReplayRecord.

(** A call of an append method. *)
Inductive request :=
| AppendImage (lsn pid : Z) (fill_page : Z → list byte → list byte) (page : list byte)
| AppendLogical (lsn kind : Z) (payload : list byte).

(** The record goes to a packed page. *)
Definition packs (kind : Z) (payload : list byte) : bool :=
  negb (kind =? LOGICAL_KIND_PAGE_IMAGE_BYTES) && (zlen payload <=? PACKED_LOGICAL_MAX_PAYLOAD_LEN).

(** The caller's side: identifiers of their width, a fill that determines the
    page, a payload the record kind can hold. *)
Definition request_ok (r : request) : Prop :=
  match r with
  | AppendImage lsn pid fill_page page => 0 ≤ lsn < 2 ^ 64 ∧ 0 ≤ pid < 2 ^ 64 ∧ zlen page = PAGE_SIZE ∧
      ∀ old, zlen old = PAGE_SIZE → fill_page lsn old = page
  | AppendLogical lsn kind payload => 0 ≤ lsn < 2 ^ 64 ∧ 0 ≤ kind < 2 ^ 64 ∧ is_Some (logical_record lsn kind payload)
  end.

Definition request_record (r : request) : list record :=
  match r with
  | AppendImage lsn pid _ page => [PageImage lsn pid page]
  | AppendLogical lsn kind payload => option_list (logical_record lsn kind payload)
  end.

(** How many slots the request still needs after [done] of them. *)
Definition request_left (r : request) (done : Z) : Z :=
  match r with
  | AppendLogical _ kind payload => if packs kind payload then 1 else chunk_count (zlen payload) - done
  | _ => 1
  end.

(** The slots a waiting request has filled. *)
Definition request_slots (r : request) (done : Z) : list slot :=
  match r with
  | AppendLogical lsn kind payload =>
      if packs kind payload then [] else map (logical_chunk_slot lsn kind payload) (seqZ 0 done)
  | _ => []
  end.

(** The method from its start or from its wait: [None] when it returned, the
    number of slots it has filled when it waits. *)
Definition run_request (r : request) (resumed : bool) (done : Z) : IO WalState (option Z) :=
  match r with
  | AppendImage lsn pid fill_page _ =>
      p ← append_page_image_with_lsn pre_extend_needs_fsync resumed lsn pid fill_page;
      mret (match p with Waiting => Some done | Finished _ => None end)
  | AppendLogical lsn kind payload => append_logical_record_with_lsn pre_extend_needs_fsync resumed lsn kind payload done
  end.

(** The shard, the waiting requests, and the records appended so far. *)
Record machine := { shard : WalState; waiting : list (request * Z); appended_records : list record }.

(** No request waits between two of its slots. *)
Definition between_records (l : list (request * Z)) : Prop := Forall (λ j, j.2 = 0) l.

Definition after_run (r : request) (l : list (request * Z)) (log : list record) (res : option Z) (st : WalState) : machine :=
  match res with
  | None => {| shard := st; waiting := l; appended_records := log ++ request_record r |}
  | Some done => {| shard := st; waiting := (r, done) :: l; appended_records := log |}
  end.

(** A request starts or resumes while no other one is within its record; the
    driver takes its turn. The log stays below the range of file offsets. *)
Inductive step : machine → machine → Prop :=
| StepStart st l log r res st' :
    request_ok r → between_records l → room (request_left r 0) st →
    run_request r false 0 st = Done (Ok res) st' →
    step {| shard := st; waiting := l; appended_records := log |} (after_run r l log res st')
| StepResume st l1 r done l2 log res st' :
    between_records (l1 ++ l2) → room (request_left r done) st →
    run_request r true done st = Done (Ok res) st' →
    step {| shard := st; waiting := l1 ++ (r, done) :: l2; appended_records := log |} (after_run r (l1 ++ l2) log res st')
| StepWrite st l log mark st' :
    room 1 st → driver_write pre_extend_needs_fsync st = Done (Ok mark) st' →
    step {| shard := st; waiting := l; appended_records := log |} {| shard := st'; waiting := l; appended_records := log |}.

(** ** The refinement *)

(** The slots of the request that waits within its record, if there is one. *)
Definition partial_slots (l : list (request * Z)) : list slot := concat (map (λ j, request_slots j.1 j.2) l).

Definition waiting_ok (j : request * Z) : Prop := request_ok j.1 ∧ 0 ≤ j.2 < request_left j.1 0.

Record machine_ok (es0 : list (BatchEntry.t * list byte)) (m : machine) : Prop := {
  ok_waiting : Forall waiting_ok (waiting m);
  ok_partial : ∃ l1 j l2, waiting m = l1 ++ j ++ l2 ∧ between_records (l1 ++ l2) ∧ (length j ≤ 1)%nat;
  ok_slots : ∃ ws ps cur log, shard_inv (shard m) es0 ws ps cur ∧
    ws ++ concat ps ++ cur = log ++ partial_slots (waiting m) ∧ recorded log (appended_records m);
}.

Lemma partial_between l : between_records l → Forall waiting_ok l → partial_slots l = [].
Proof.
  intros Hb. induction Hb as [|[r i] l Hi _ IH]; intros Hok; [done|]. apply Forall_cons in Hok as [_ Hok].
  simpl in Hi. subst i. unfold partial_slots in *. simpl. rewrite IH by done. destruct r as [|lsn kind payload]; [done|]. simpl. by destruct (packs kind payload).
Qed.

Lemma partial_split l1 j l2 :
  between_records (l1 ++ l2) → Forall waiting_ok (l1 ++ j ++ l2) → partial_slots (l1 ++ j ++ l2) = partial_slots j.
Proof.
  unfold between_records. rewrite !Forall_app. intros [Hb1 Hb2] (Hw1 & _ & Hw2). unfold partial_slots.
  rewrite !map_app, !concat_app. fold (partial_slots l1) (partial_slots l2).
  by rewrite (partial_between l1), (partial_between l2), app_nil_r.
Qed.

Lemma partial_one l1 r i l2 :
  between_records (l1 ++ l2) → Forall waiting_ok (l1 ++ (r, i) :: l2) → partial_slots (l1 ++ (r, i) :: l2) = request_slots r i.
Proof.
  intros Hb Hw.
  pose proof (partial_split l1 [(r, i)] l2 Hb Hw) as E. simpl in E. rewrite E. unfold partial_slots. simpl. apply app_nil_r.
Qed.

(** What one run of a request does, whatever it has filled before. *)
Definition run_ok es0 ws rs (r : request) (done : Z) (st : WalState) (res : option Z) (st' : WalState) : Prop :=
  ∃ ps' cur' log', shard_inv st' es0 ws ps' cur' ∧
    match res with
    | None => ws ++ concat ps' ++ cur' = log' ∧ recorded log' (rs ++ request_record r)
    | Some done' => done ≤ done' < request_left r 0 ∧ ws ++ concat ps' ++ cur' = log' ++ request_slots r done' ∧
        recorded log' rs ∧ spare_buffers st' = [] ∧ (spare_buffers st ≠ [] → done < done')
    end.

Lemma run_image_spec st es0 ws ps cur log rs resumed lsn pid fill_page page done :
  let r := AppendImage lsn pid fill_page page in
  shard_inv st es0 ws ps cur → ws ++ concat ps ++ cur = log ++ request_slots r done → recorded log rs →
  request_ok r → 0 ≤ done < request_left r 0 → room (request_left r done) st →
  returns_or os_failure (run_request r resumed done) st (run_ok es0 ws rs r done st).
Proof.
  intros r Hi Hcat Hrec (Hl & Hp & Hz & Hf) Hd Hroom. simpl in *. apply returns_bind.
  eapply returns_mono; [by apply (append_page_image_spec _ st es0 ws ps cur _ lsn pid fill_page page)|].
  intros p st' Hp'. apply returns_ret. rewrite app_nil_r in Hcat. destruct p as [|handle].
  - destruct Hp' as (Hi' & _ & Hb1 & Hb2). exists ps, cur, log. simpl. rewrite app_nil_r. split; [done|]. split_and!; try done; lia.
  - destruct Hp' as (ps' & cur' & Hi' & Hcat' & _). exists ps', cur', (log ++ [page_image_slot lsn pid page]).
    split_and!; [done| |by apply RecordedSnoc; [|constructor; lia]]. by rewrite Hcat', app_assoc, Hcat.
Qed.

Lemma run_packed_spec st es0 ws ps cur log rs resumed lsn kind payload done :
  let r := AppendLogical lsn kind payload in packs kind payload = true →
  shard_inv st es0 ws ps cur → ws ++ concat ps ++ cur = log ++ request_slots r done → recorded log rs →
  request_ok r → 0 ≤ done < request_left r 0 → room (request_left r done) st →
  returns_or os_failure (run_request r resumed done) st (run_ok es0 ws rs r done st).
Proof.
  intros r Hpk Hi Hcat Hrec (Hl & Hk & _) Hd Hroom. unfold run_ok. simpl in *. unfold append_logical_record_with_lsn.
  fold (packs kind payload). rewrite Hpk in *. rewrite app_nil_r in Hcat.
  unfold packs, PACKED_LOGICAL_MAX_PAYLOAD_LEN, WAL_RECORD_SIZE, PACKED_LOGICAL_ENTRY_HEADER_LEN in Hpk.
  apply andb_true_iff in Hpk as [Hkind Hfit%Z.leb_le]. unfold logical_record. apply negb_true_iff in Hkind as ->.
  assert (Hok : logical_ok (lsn, kind, payload)) by (split_and!; simpl; (done || lia || page_lia)). apply returns_bind.
  eapply returns_mono.
  { eapply returns_weaken; [by apply (append_packed_spec _ st es0 ws ps cur _ lsn kind payload)|].
    intros e [He|[_ He]]; [done|lia]. }
  intros p st' Hp'. apply returns_ret. simpl. destruct p as [|u].
  - destruct Hp' as (Hi' & _ & Hb1 & Hb2). exists ps, cur, log. rewrite app_nil_r. split; [done|]. split_and!; try done; lia.
  - destruct Hp' as [(pre & s & s' & -> & Hks & Hadd & Hi' & _)|(s & Hs & ps' & cur' & Hi' & Hcat' & _)].
    + exists ps, (pre ++ [s']), (ws ++ concat ps ++ pre ++ [s']). split_and!; [done|done|].
      rewrite !app_assoc. apply (recorded_packed_add _ s s' (lsn, kind, payload)); [|exact Hks|exact Hadd].
      rewrite <-!app_assoc. by rewrite Hcat.
    + exists ps', cur', (log ++ [s]). split_and!; [done|by rewrite Hcat', app_assoc, Hcat|].
      apply RecordedSnoc; [done|]. by apply (PackedItem s [(lsn, kind, payload)]).
Qed.

Lemma run_chunks_spec st es0 ws ps cur log rs resumed lsn kind payload done :
  let r := AppendLogical lsn kind payload in packs kind payload = false →
  shard_inv st es0 ws ps cur → ws ++ concat ps ++ cur = log ++ request_slots r done → recorded log rs →
  request_ok r → 0 ≤ done < request_left r 0 → room (request_left r done) st →
  returns_or os_failure (run_request r resumed done) st (run_ok es0 ws rs r done st).
Proof.
  intros r Hpk Hi Hcat Hrec (Hl & Hk & rec & Hlr) Hd Hroom. unfold run_ok. simpl in *. unfold append_logical_record_with_lsn.
  fold (packs kind payload). rewrite Hpk in *. eapply returns_mono.
  { apply (append_chunks_spec _ lsn kind payload (Z.to_nat (chunk_count (zlen payload) - done)) resumed
      done st es0 ws ps cur); [done|done|lia|lia|done|by rewrite Z2Nat.id by lia]. }
  intros res st' (Hstop & Hsome & ps' & cur' & Hi' & Hcat' & _). simpl in *.
  assert (Htot : ws ++ concat ps' ++ cur' = log ++ map (logical_chunk_slot lsn kind payload)
    (seqZ 0 (default (chunk_count (zlen payload)) res))).
  { rewrite Hcat', app_assoc, Hcat, <-app_assoc, <-map_app. do 2 f_equal.
    replace (default (chunk_count (zlen payload)) res) with (done + (default (chunk_count (zlen payload)) res - done)) at 2 by lia.
    rewrite seqZ_app by lia. done. }
  destruct res as [stop|]; simpl in *.
  - exists ps', cur', log. destruct Hsome as (? & ? & ?); [done|]. split_and!; try done; lia.
  - exists ps', cur', (log ++ logical_slots lsn kind payload). split_and!; [done|done|].
    rewrite Hlr. simpl. apply RecordedSnoc; [done|]. by apply LogicalItem.
Qed.

Lemma run_request_spec st es0 ws ps cur log rs r resumed done :
  shard_inv st es0 ws ps cur → ws ++ concat ps ++ cur = log ++ request_slots r done → recorded log rs →
  request_ok r → 0 ≤ done < request_left r 0 → room (request_left r done) st →
  returns_or os_failure (run_request r resumed done) st (run_ok es0 ws rs r done st).
Proof.
  intros. destruct r as [|lsn kind payload]; [by eapply run_image_spec|].
  destruct (packs kind payload) eqn:Hpk; [by eapply run_packed_spec|by eapply run_chunks_spec].
Qed.

(** ** Steps keep the relation *)

Lemma after_run_ok es0 st l log0 r done res st' ws ps cur log :
  Forall waiting_ok l → between_records l → waiting_ok (r, done) → room (request_left r done) st →
  shard_inv st es0 ws ps cur → ws ++ concat ps ++ cur = log ++ request_slots r done → recorded log log0 →
  (∃ resumed, run_request r resumed done st = Done (Ok res) st') → machine_ok es0 (after_run r l log0 res st').
Proof.
  intros Hl Hb [Hok Hd] Hroom Hi Hcat Hrec [resumed E].
  destruct (run_request_spec st es0 ws ps cur log log0 r resumed done) as (res' & st2 & E' & Hres); try done.
  rewrite E in E'. injection E' as <- <-. destruct Hres as (ps' & cur' & log' & Hi' & Hres).
  pose proof (partial_between l Hb Hl) as Hpart. destruct res as [done'|]; simpl in *.
  - destruct Hres as (Hd' & Hcat' & Hrec' & _). constructor; simpl.
    + apply Forall_cons. split; [|done]. split; [done|simpl in *; lia].
    + exists [], [(r, done')], l. done.
    + exists ws, ps', cur', log'. unfold partial_slots in *. simpl. rewrite Hpart, app_nil_r. done.
  - destruct Hres as (Hcat' & Hrec'). constructor; simpl; [done|exists [], [], l; split_and!; [done|done|simpl; lia]|].
    exists ws, ps', cur', log'. by rewrite Hpart, app_nil_r.
Qed.

Lemma step_ok es0 m m' : machine_ok es0 m → step m m' → machine_ok es0 m'.
Proof.
  intros [Hw Hp (ws & ps & cur & log & Hi & Hcat & Hrec)] Hstep.
  destruct Hstep as [st l log0 r res st' Hok Hb Hroom E|st l1 r done l2 log0 res st' Hb Hroom E|st l log0 mark st' Hlim E]; simpl in *.
  - assert (Hleft : 0 < request_left r 0).
    { destruct r as [|lsn kind payload]; simpl; [lia|]. destruct (packs kind payload); [lia|].
      destruct (chunk_count_spec (zlen payload) (zlen_nonneg _)). lia. }
    apply (after_run_ok es0 st l log0 r 0 res st' ws ps cur log); try done; [|by exists false].
    rewrite (partial_between l Hb Hw) in Hcat. destruct r as [|lsn kind payload]; [done|]. simpl. by destruct (packs kind payload).
  - rewrite (partial_one l1 r done l2) in Hcat by done. rewrite Forall_app, Forall_cons in Hw. destruct Hw as (Hw1 & Hwr & Hw2).
    apply (after_run_ok es0 st (l1 ++ l2) log0 r done res st' ws ps cur log); try done; [by apply Forall_app|by exists true].
  - destruct (driver_write_spec pre_extend_needs_fsync st es0 ws ps cur Hi Hlim) as (res & st2 & E' & Hres).
    rewrite E in E'. injection E' as <- <-. destruct Hres as (ws' & ps' & cur' & Hi' & Hcat' & _). constructor; [done|done|].
    exists ws', ps', cur', log. simpl in *. by rewrite Hcat'.
Qed.

Lemma steps_ok es0 m m' : machine_ok es0 m → rtc step m m' → machine_ok es0 m'.
Proof. intros Hok Hs. induction Hs as [|m m1 m2 Hstep _ IH]; [done|]. by eapply IH, step_ok. Qed.

(** ** Files *)

(** The file holds a valid log of the records [rs] up to the offset [end_],
    and zeros follow; [mark] is the largest LSN of a record completed in it. *)
Definition log_of (f : os) (end_ mark : Z) (rs : list record) : Prop :=
  ∃ hdr bs ess c, log_file f hdr bs ∧ Forall2 good_batch bs ess ∧ replays no_chunks (concat ess) rs c ∧
    end_ = WAL_HEADER_SIZE + zlen (log_bytes bs) ∧ mark = max_completed 0 (concat ess).

Lemma new_state_ok f file n cap hdr bs ess :
  log_file f hdr bs → Forall2 good_batch bs ess → file_offset file = WAL_HEADER_SIZE + zlen (log_bytes bs) →
  WalReplay.max_lsn file = max_completed 0 (concat ess) → 2 * PAGE_SIZE ≤ cap → shard_inv (new_state f file n cap) (concat ess) [] [] [].
Proof.
  intros (Hv & Hh & k & Hk & Hf) Hbs Hoff Hmark Hcap. assert (Hz : ∀ e, zlen (WalBuffer.buffer (WalBuffer.new e cap)) = cap).
  { intros e. apply zlen_fill. page_lia. }
  assert (Hs : spare_buffers (new_state f file n cap) ≠ []) by (simpl; by destruct (1 <? n)).
  constructor; [done| | | |done|by rewrite app_nil_r|].
  - constructor; simpl; [apply (Hz 1)|constructor|]. exists [], [], (fill cap x00). done.
  - simpl. apply Forall_map, Forall_true. intros i. apply (Hz (i + 1)).
  - destruct (spare_buffers _); [done|simpl; lia].
  - exists hdr, bs, ess, k. simpl. rewrite app_nil_r. done.
Qed.

End machine.
