(* ===== verification/WalLogSpec.v ===== *)
(** * Write-ahead log: the life of a log file

    A log file is opened, records are appended by any number of callers while
    the driver writes, the process ends, and the file is opened and replayed
    again: what comes back are the records that were in the file and a prefix
    of the records appended, all of them once the shard is drained. *)

From S2P Require Import Prelude Bytes FrameKernel Posix PageStoreInv WalFormat WalBatch WalCodec WalPatch WalCodecSpec WalRecovery WalReplay WalReplaySpec WalSlots WalShard WalApi WalShardInv WalShardSpec.
#[local] Open Scope Z_scope.

Section life.
Context `{Build} `{Crc32} `{PosixFile}.
Context (fsync : bool).

Notation record := OwnedWalReplayRecord.

Definition fresh_machine (f : os) (file : OpenWalFile) (n cap : Z) : machine :=
  {| shard := new_state f file n cap; waiting := []; appended_records := [] |}.

(** The slots of requests that wait complete no record. *)
Lemma partial_unfinished l k rest :
  Forall waiting_ok l → (∃ l1 j l2, l = l1 ++ j ++ l2 ∧ between_records (l1 ++ l2) ∧ (length j ≤ 1)%nat) →
  partial_slots l = k ++ rest → unfinished k.
Proof.
  intros Hw (l1 & j & l2 & -> & Hb & Hlen). rewrite partial_split by done. rewrite !Forall_app in Hw. destruct Hw as (_ & Hwj & _).
  assert (Hnil : [] = k ++ rest → unfinished k).
  { intros E. symmetry in E. apply app_eq_nil in E as [-> _]. apply unfinished_nil. }
  destruct j as [|[r i] [|]]; [done| |simpl in Hlen; lia]. unfold partial_slots. simpl. rewrite app_nil_r.
  apply Forall_cons in Hwj as [[Hok Hi] _]. simpl in Hok, Hi. destruct r as [|lsn kind payload]; [done|]. simpl in *.
  destruct (packs kind payload); [done|]. destruct Hok as (Hl & Hk & _). intros E. apply seqZ_prefix in E as [E Hlen2]; [|lia].
  rewrite E. apply chunks_unfinished; [done|done|lia].
Qed.

(** The LSN up to which the shard reports its records written. *)
Definition written_mark (m : machine) : Z := SubmittedWrites.high_water_lsn (submitted_writes (shard m)).

(** What the file of a machine holds. *)
Lemma machine_file es0 m R0 c0 :
  machine_ok es0 m → replays no_chunks es0 R0 c0 →
  ∃ end_ A, log_of (state_fd (shard m)) end_ (written_mark m) (R0 ++ A) ∧ A `prefix_of` appended_records m ∧
    written_mark m = Z.max (max_completed 0 es0) (records_max A) ∧
    (drained (shard m) → between_records (waiting m) →
      end_ = state_file_offset (shard m) ∧ A = appended_records m).
Proof.
  intros [Hw Hpart (ws & ps & cur & log & Hi & Hcat & Hrec)] Hes0.
  assert (Hfirst : holds_first ws (appended_records m)).
  { apply app_eq_inv in Hcat as [(k & -> & E)|(k & -> & E)]; [|by eapply recorded_prefix].
    eapply holds_first_unfinished; [done|by eapply partial_unfinished|done]. }
  destruct Hfirst as (A & Hpre & Hrep & Hmax). destruct (Hrep c0) as [c HA].
  pose proof (replays_app _ _ _ _ _ _ _ Hes0 HA) as Hall.
  pose proof (shard_active _ _ _ _ _ Hi) as Hact. pose proof (pendings_nil _ _ _ _ _ Hi) as Hpn.
  destruct (shard_file _ _ _ _ _ Hi) as (hdr & bs & ess & k & Hf & Hv & Hh & Hbs & He & Hpend).
  assert (Hmark : written_mark m = max_completed 0 (es0 ++ ws)) by apply (shard_mark _ _ _ _ _ Hi).
  exists (WAL_HEADER_SIZE + zlen (log_bytes bs)), A. split_and!; [|done|by rewrite Hmark, max_completed_app, Hmax|].
  - exists hdr, bs, ess, c. split_and!; [|done|by rewrite He|done|].
    2:{ by rewrite Hmark, He, !max_completed_app, max_completed_sealed. }
    split_and!; [done|done|]. exists (Z.max 0 k). split; [lia|]. rewrite Hf. do 2 f_equal. unfold fill. f_equal. lia.
  - intros [Hd1 Hd2] Hb. assert (ps = []) as -> by (by apply Hpn). destruct (holds_empty _ _ _ Hact Hd2) as (-> & _).
    rewrite Hd1 in Hpend. simpl in Hpend, Hcat. split; [done|]. rewrite app_nil_r, partial_between, app_nil_r in Hcat by done. subst log.
    destruct (recorded_replays no_chunks ws _ Hrec) as [c1 Hex]. destruct (Hrep no_chunks) as [c2 Hex2].
    apply replays_exact in Hex, Hex2. congruence.
Qed.

(** ** The driver *)

Fixpoint driver_turns (n : nat) : IO WalState unit :=
  match n with
  | O => mret tt
  | S n => _ ← driver_write fsync; driver_turns n
  end.

Lemma driver_turns_spec n st es0 ws ps cur :
  shard_inv st es0 ws ps cur → room (Z.of_nat n) st →
  returns_or os_failure (driver_turns n) st (λ _ st', ∃ ws' ps' cur', shard_inv st' es0 ws' ps' cur' ∧
    ws' ++ concat ps' ++ cur' = ws ++ concat ps ++ cur ∧ ((length (pending_writes st) < n)%nat → drained st')).
Proof.
  revert st ws ps cur. induction n as [|n IH]; intros st ws ps cur Hi Hroom.
  { apply returns_ret. exists ws, ps, cur. split_and!; [done|done|lia]. }
  pose proof (shard_cap_pos _ _ _ _ _ Hi) as Hcp. cbn [driver_turns]. apply returns_bind.
  eapply returns_mono; [apply (driver_write_spec fsync st es0 ws ps cur); [done|eapply room_mono; [done|lia|done]]|].
  intros mark st1 (ws1 & ps1 & cur1 & Hi1 & Hcat1 & Hsl1 & _ & Hd1 & Hl1).
  destruct n as [|n].
  { apply returns_ret. exists ws1, ps1, cur1. split_and!; [done|done|]. intros Hlt. apply Hd1.
    destruct (pending_writes st); [done|simpl in Hlt; lia]. }
  eapply returns_mono; [apply (IH st1 ws1 ps1 cur1); [done|]|].
  { eapply room_sealed; [done|]. by replace (1 + Z.of_nat (S n)) with (Z.of_nat (S (S n))) by lia. }
  intros u st2 (ws2 & ps2 & cur2 & Hi2 & Hcat2 & Hd2). exists ws2, ps2, cur2. split_and!; [done|by rewrite Hcat2|].
  intros Hlt. apply Hd2. lia.
Qed.

(** ** The claims *)

Lemma fresh_machine_ok f end_ R file n cap :
  log_of f end_ (WalReplay.max_lsn file) R → file_offset file = end_ → 2 * PAGE_SIZE ≤ cap →
  ∃ es0 c0, machine_ok es0 (fresh_machine f file n cap) ∧ replays no_chunks es0 R c0 ∧
    WalReplay.max_lsn file = max_completed 0 es0.
Proof.
  intros (hdr & bs & ess & c & Hl & Hbs & Hr & Hend & Hmark) Hoff Hcap. exists (concat ess), c. split_and!; [|done|done].
  constructor; simpl; [done|by exists [], [], []; split_and!; [|constructor|simpl; lia]|].
  exists [], [], [], []. split_and!; [|done|constructor]. subst end_. by apply (new_state_ok f file n cap hdr bs ess).
Qed.

(** C1: the log of a shard is never behind or ahead of its callers. Start
    from a log file that replays to [R0] and let any number of callers append
    page images, chunked and packed records, waiting for buffers and resuming
    in any order (no two of them within a record at once), while the driver
    seals and writes at any time. At every moment the file is a valid log
    whose replay is a prefix of [R0] and the records appended since, in the
    order their appends returned, and the shard's written mark is the largest
    LSN of the records in it; once the driver has drained the shard it is all
    of them, and the log ends at the shard's file offset. *)
Theorem wal_log_prefix f end_ R0 file n cap m :
  log_of f end_ (WalReplay.max_lsn file) R0 → file_offset file = end_ → 2 * PAGE_SIZE ≤ cap →
  rtc (step fsync) (fresh_machine f file n cap) m →
  ∃ end' A, log_of (state_fd (shard m)) end' (written_mark m) (R0 ++ A) ∧ A `prefix_of` appended_records m ∧
    written_mark m = Z.max (WalReplay.max_lsn file) (records_max A) ∧
    (drained (shard m) → between_records (waiting m) →
      end' = state_file_offset (shard m) ∧ A = appended_records m).
Proof.
  intros Hlog Hoff Hcap Hsteps. destruct (fresh_machine_ok f end_ R0 file n cap) as (es0 & c0 & Hok & Hr & ->); [done..|].
  eapply machine_file; [|exact Hr]. by eapply steps_ok.
Qed.

(** C19: opening a log and replaying it gives its records back. On a file that
    holds a valid log of [R] and reads reliably, [open_wal_file] ends, without
    an error of the system it keeps the log and finds its end and its largest
    LSN, and
    [replay_records] up to that end delivers exactly [R]; it fails only with
    an error of a read. *)
Theorem wal_open_replays f end_ mark R direct :
  log_of f end_ mark R → zlen (contents f) + SEGMENT_SIZE < 2 ^ 63 → opens_reliably f →
  returns_or os_failure (open_wal_file direct fsync) f (λ o f', log_of f' end_ mark R ∧
    file_offset o = end_ ∧ WalReplay.max_lsn o = mark ∧
    (zlen (contents f') < 2 ^ 63 → ∃ res st, replay_records end_ f' = Done res st ∧
      match res with
      | Ok _ => delivered st = R
      | Err e => os_failure e ∧ ¬ reads_reliably f'
      end)).
Proof.
  intros (hdr & bs & ess & c & Hl & Hbs & Hr & -> & ->) Hlim Hrel.
  eapply returns_mono; [by apply (open_existing_spec direct fsync hdr bs ess)|].
  intros o f' (Hl' & _ & Hoff & Hmax). split_and!; [by exists hdr, bs, ess, c|done|done|]. intros Hlim'.
  pose proof Hl' as (_ & Hh & k & _ & Hf).
  destruct (replay_records_spec bs ess hdr (fill k x00) f') as (res & st & E & Hres); [done|done|done|done|].
  exists res, st. split; [done|]. destruct res; [|done]. by rewrite Hres, (replays_exact _ _ _ _ Hr).
Qed.

(** C33: the driver drains a shard. With [k] buffers sealed, [k + 1] turns of
    the driver end, unless the system reports an error, with everything the
    callers appended in the file: the log replays to [R0] and all the records
    appended, and ends at the shard's file offset. *)
Theorem wal_driver_drains f end_ R0 file n cap m :
  log_of f end_ (WalReplay.max_lsn file) R0 → file_offset file = end_ → 2 * PAGE_SIZE ≤ cap →
  rtc (step fsync) (fresh_machine f file n cap) m → between_records (waiting m) →
  let turns := S (length (pending_writes (shard m))) in
  room (Z.of_nat turns) (shard m) →
  returns_or os_failure (driver_turns turns) (shard m) (λ _ st',
    drained st' ∧ ∃ mark, log_of (state_fd st') (state_file_offset st') mark (R0 ++ appended_records m)).
Proof.
  intros Hlog Hoff Hcap Hsteps Hb turns Hroom.
  destruct (fresh_machine_ok f end_ R0 file n cap) as (es0 & c0 & Hok & Hr & _); [done..|].
  destruct (steps_ok fsync es0 _ m Hok Hsteps) as [Hw Hp (ws & ps & cur & log & Hi & Hcat & Hrec)].
  eapply returns_mono; [by apply (driver_turns_spec turns (shard m) es0 ws ps cur)|].
  intros u st' (ws' & ps' & cur' & Hi' & Hcat' & Hd). assert (Hdr : drained st') by (apply Hd; unfold turns; lia).
  split; [done|]. set (m' := {| shard := st'; waiting := waiting m; appended_records := appended_records m |}).
  destruct (machine_file es0 m' R0 c0) as (end' & A & Hl & _ & _ & Hfull); [|done|].
  { constructor; [done|done|]. exists ws', ps', cur', log. by rewrite Hcat'. }
  destruct (Hfull Hdr Hb) as [-> ->]. by eexists.
Qed.

(** A waiting append is not stuck. When an append waits for a buffer, one
    turn of the driver ends, unless the system reports an error, and the
    append, resumed after it, does not wait at the same slot again: it
    returns or has filled at least one slot more. *)
Theorem wal_append_resumes f end_ R0 file n cap m l1 r i l2 :
  log_of f end_ (WalReplay.max_lsn file) R0 → file_offset file = end_ → 2 * PAGE_SIZE ≤ cap →
  rtc (step fsync) (fresh_machine f file n cap) m →
  waiting m = l1 ++ (r, i) :: l2 → between_records (l1 ++ l2) → room (1 + request_left r i) (shard m) →
  returns_or os_failure (driver_write fsync) (shard m) (λ _ st1,
    returns_or os_failure (run_request fsync r true i) st1 (λ res _,
      match res with None => True | Some i' => i < i' < request_left r 0 end)).
Proof.
  intros Hlog Hoff Hcap Hsteps Hwait Hb Hroom.
  destruct (fresh_machine_ok f end_ R0 file n cap) as (es0 & c0 & Hok & Hr & _); [done..|].
  destruct (steps_ok fsync es0 _ m Hok Hsteps) as [Hw Hp (ws & ps & cur & log & Hi & Hcat & Hrec)].
  rewrite Hwait in Hw, Hcat. rewrite (partial_one l1 r i l2) in Hcat by done.
  rewrite Forall_app, Forall_cons in Hw. destruct Hw as (_ & [Hrok Hri] & _). simpl in Hrok, Hri.
  assert (Hleft : 0 ≤ request_left r i).
  { destruct r as [|lsn kind payload]; simpl in *; [lia|]. destruct (packs kind payload); lia. }
  eapply returns_mono; [apply (driver_write_spec fsync (shard m) es0 ws ps cur); [done|]|].
  { eapply room_mono; [done|lia|by eapply shard_cap_pos]. }
  intros mark st1 (ws1 & ps1 & cur1 & Hi1 & Hcat1 & Hsl1 & Hsp1 & _).
  eapply returns_mono; [apply (run_request_spec fsync st1 es0 ws1 ps1 cur1 log (appended_records m) r true i); try done|].
  - by rewrite Hcat1, Hcat.
  - by eapply room_sealed.
  - intros res st2 (ps2 & cur2 & log2 & _ & Hres). destruct res as [i'|]; [|done].
    destruct Hres as (? & _ & _ & _ & Hlt). specialize (Hlt Hsp1). lia.
Qed.

Lemma records_max_elem rs : records_max rs = 0 ∨ ∃ r, r ∈ rs ∧ records_max rs = record_lsn r.
Proof.
  induction rs as [|r rs IH]; [by left|]. unfold records_max in *. simpl.
  destruct (Z.max_spec (record_lsn r) (fold_right Z.max 0 (map record_lsn rs))) as [[_ ->]|[_ ->]].
  - destruct IH as [|(x & ? & ?)]; [by left|right; exists x; set_solver].
  - right. exists r. set_solver.
Qed.

(** C20: the written mark never claims a record that is not in the file, when
    the callers append in the order of their LSNs. A commit of an LSN waits
    until the mark (and a sync after it) has reached it: every record
    appended since the log was opened whose LSN the mark has reached is then
    in the file, and is replayed from it. *)
Theorem wal_mark_covers f end_ R0 file n cap m r :
  log_of f end_ (WalReplay.max_lsn file) R0 → file_offset file = end_ → 2 * PAGE_SIZE ≤ cap →
  rtc (step fsync) (fresh_machine f file n cap) m →
  StronglySorted Z.lt (0 :: map record_lsn (appended_records m)) →
  r ∈ appended_records m → WalReplay.max_lsn file < record_lsn r ≤ written_mark m →
  ∃ end' A, log_of (state_fd (shard m)) end' (written_mark m) (R0 ++ A) ∧ r ∈ A.
Proof.
  intros Hlog Hoff Hcap Hsteps Hsort Hr Hlsn. destruct (fresh_machine_ok f end_ R0 file n cap) as (es0 & c0 & Hok & Hrep & Hm0); [done..|].
  destruct (machine_file es0 m R0 c0) as (end' & A & Hl & [B HB] & Hmark & _); [by eapply steps_ok|done|].
  exists end', A. split; [done|]. rewrite HB in Hr, Hsort. apply elem_of_app in Hr as [Hr|Hr]; [done|exfalso].
  rewrite map_app in Hsort. inversion Hsort as [|? ? Hs Hpos]. subst. rewrite Forall_forall in Hpos.
  assert (H0r : 0 < record_lsn r) by (apply Hpos, elem_of_app; right; by apply list_elem_of_fmap_2).
  apply StronglySorted_app in Hs as (Hab & _ & _).
  destruct (records_max_elem A) as [HA|(a & Ha & HA)]; [lia|].
  assert (record_lsn a < record_lsn r) by (apply Hab; by apply list_elem_of_fmap_2). lia.
Qed.

End life.

(** ** A run *)

(** The machine on a scripted kernel, 4 KiB pages, one spare buffer of two
    pages: every page image fills a buffer. *)
Definition final_state {St A} (e : exec St (option A)) (dflt : St) : St := match e with Done _ s => s | _ => dflt end.
Definition finished {St A} (e : exec St (option A)) : bool := match e with Done (Ok None) _ => true | _ => false end.
Definition waits {St} (e : exec St (option Z)) : bool := match e with Done (Ok (Some i)) _ => i =? 0 | _ => false end.
Definition returned {St A} (e : exec St A) : bool := match e with Done (Ok _) _ => true | _ => false end.

Lemma finished_eq {St A} (e : exec St (option A)) d : finished e = true → e = Done (Ok None) (final_state e d).
Proof. by destruct e as [[[]|]| |]. Qed.
Lemma waits_eq {St} (e : exec St (option Z)) d : waits e = true → e = Done (Ok (Some 0)) (final_state e d).
Proof. destruct e as [[[i|]|]| |]; try done. simpl. by intros ->%Z.eqb_eq. Qed.
Lemma returned_eq {St A} (e : exec St (option A)) d : returned e = true → ∃ a, e = Done (Ok a) (final_state e d).
Proof. destruct e as [[a|]| |]; try done. by exists a. Qed.

Module Run.
#[local] Existing Instances debug_4k crc32_iso_hdlc scripted_file.

Definition fd0 : os := {| bytes := build_wal_header false; script := [] |}.
Definition file0 : OpenWalFile := {| direct_io := false; file_offset := 4096; allocated_size := 2 ^ 30; max_lsn := 0 |}.
Definition image (pid : Z) : list byte := fill 4096 (to_u8 pid).
Definition put (lsn : Z) : request := AppendImage lsn lsn (λ l _, image l) (image lsn).

Definition m0 : machine := fresh_machine fd0 file0 1 8192.
Definition st1 : WalState := final_state (run_request false (put 5) false 0 (shard m0)) (shard m0).
Definition st2 : WalState := final_state (run_request false (put 6) false 0 st1) st1.
Definition st3 : WalState := final_state (run_request false (put 7) false 0 st2) st2.
Definition st4 : WalState := final_state (driver_write false st1) st1.

Lemma run5 : finished (run_request false (put 5) false 0 (shard m0)) = true.
Proof. vm_compute. reflexivity. Qed.
Lemma run6 : finished (run_request false (put 6) false 0 st1) = true.
Proof. vm_compute. reflexivity. Qed.
Lemma run7 : waits (run_request false (put 7) false 0 st2) = true.
Proof. vm_compute. reflexivity. Qed.
Lemma turn1 : returned (driver_write false st1) = true.
Proof. vm_compute. reflexivity. Qed.

Lemma put_ok lsn : 0 ≤ lsn < 2 ^ 64 → request_ok (put lsn).
Proof. intros Hl. split_and!; try done; try lia. Qed.

Lemma empty_log : log_of fd0 4096 0 [].
Proof.
  exists (build_wal_header false), [], [], no_chunks. destruct (header_valid false) as [Hv Hh].
  split_and!; [|done|done|done|done]. split_and!; [done|done|]. by exists 0.
Qed.

Lemma first_step : step false m0 {| shard := st1; waiting := []; appended_records := [PageImage 5 5 (image 5)] |}.
Proof.
  exact (StepStart false (shard m0) [] [] (put 5) None st1 (put_ok 5 ltac:(lia)) (Forall_nil_2 _)
    ltac:(vm_compute; reflexivity) (finished_eq _ (shard m0) run5)).
Qed.

Definition drained_machine : machine :=
  {| shard := st4; waiting := []; appended_records := [PageImage 5 5 (image 5)] |}.
Definition waiting_machine : machine :=
  {| shard := st3; waiting := [(put 7, 0)]; appended_records := [PageImage 5 5 (image 5); PageImage 6 6 (image 6)] |}.

Lemma drained_run : rtc (step false) m0 drained_machine.
Proof.
  eapply rtc_l; [exact first_step|]. apply rtc_once. destruct (returned_eq _ st1 turn1) as [mark E].
  exact (StepWrite false st1 [] _ mark st4 ltac:(vm_compute; reflexivity) E).
Qed.

Lemma waiting_run : rtc (step false) m0 waiting_machine.
Proof.
  eapply rtc_l; [exact first_step|]. eapply rtc_l.
  - exact (StepStart false st1 [] [PageImage 5 5 (image 5)] (put 6) None st2 (put_ok 6 ltac:(lia)) (Forall_nil_2 _)
      ltac:(vm_compute; reflexivity) (finished_eq _ st1 run6)).
  - apply rtc_once. exact (StepStart false st2 [] _ (put 7) (Some 0) st3 (put_ok 7 ltac:(lia)) (Forall_nil_2 _)
      ltac:(vm_compute; reflexivity) (waits_eq _ st2 run7)).
Qed.

Lemma wide_enough : 2 * PAGE_SIZE ≤ 8192.
Proof. vm_compute. discriminate. Qed.
Lemma st4_drained : drained st4.
Proof. split; vm_compute; reflexivity. Qed.

Lemma st4_mark : written_mark drained_machine = 5.
Proof. vm_compute. reflexivity. Qed.

Lemma wal_log_prefix_witness :
  ∃ end', log_of (state_fd st4) end' 5 [PageImage 5 5 (image 5)] ∧ end' = state_file_offset st4.
Proof.
  destruct (wal_log_prefix false fd0 4096 [] file0 1 8192 drained_machine empty_log eq_refl wide_enough drained_run)
    as (end' & A & Hl & _ & _ & Hfull).
  destruct (Hfull st4_drained (Forall_nil_2 _)) as [He HR]. exists end'. split; [|exact He]. rewrite HR, st4_mark in Hl. exact Hl.
Defined.

Lemma wal_driver_drains_witness :
  returns_or os_failure (driver_turns false 1) st1 (λ _ st',
    drained st' ∧ ∃ mark, log_of (state_fd st') (state_file_offset st') mark [PageImage 5 5 (image 5)]).
Proof.
  exact (wal_driver_drains false fd0 4096 [] file0 1 8192 _ empty_log eq_refl wide_enough (rtc_once _ _ first_step)
    (Forall_nil_2 _) ltac:(vm_compute; reflexivity)).
Defined.

Lemma wal_append_resumes_witness :
  returns_or os_failure (driver_write false) st3 (λ _ st, returns_or os_failure (run_request false (put 7) true 0) st
    (λ res _, match res with None => True | Some i' => 0 < i' < 1 end)).
Proof.
  exact (wal_append_resumes false fd0 4096 [] file0 1 8192 waiting_machine [] (put 7) 0 [] empty_log eq_refl wide_enough
    waiting_run eq_refl (Forall_nil_2 _) ltac:(vm_compute; reflexivity)).
Defined.

Lemma wal_open_replays_witness :
  ∃ end_, returns_or os_failure (open_wal_file false false) (state_fd st4) (λ o f',
    file_offset o = end_ ∧ (zlen (contents f') < 2 ^ 63 → ∃ res st, replay_records end_ f' = Done res st ∧
      match res with Ok _ => delivered st = [PageImage 5 5 (image 5)] | Err e => ¬ reads_reliably f' end)).
Proof.
  destruct (fresh_machine_ok fd0 4096 [] file0 1 8192 empty_log eq_refl wide_enough) as (es0 & c0 & Hok & Hr & _).
  destruct (machine_file es0 _ [] c0 (steps_ok false es0 _ _ Hok drained_run) Hr) as (end_ & A & Hl & _ & _ & Hfull).
  destruct (Hfull st4_drained (Forall_nil_2 _)) as [_ HR]. rewrite HR in Hl.
  exists end_. eapply returns_mono.
  - apply (wal_open_replays false _ end_ _ _ false Hl); [vm_compute; reflexivity|].
    apply scripted_opens_reliably. vm_compute. reflexivity.
  - intros o f' (_ & Ho & _ & Hrep). split; [exact Ho|]. intros Hlim. destruct (Hrep Hlim) as (res & st & E & Hres).
    exists res, st. split; [exact E|]. destruct res; [exact Hres|apply Hres].
Defined.

(** ** Two callers within a record *)

(** A record of two chunks waits between them; another caller's image gets
    in, and later images follow. *)
Definition long : request := AppendLogical 6 1 (fill 5000 x61).
Definition lsn_of (r : OwnedWalReplayRecord) : Z := match r with PageImage lsn _ _ | Logical lsn _ _ => lsn end.

Definition then_ {A} (m : IO WalState A) (check : A → bool) (s : option WalState) : option WalState :=
  st ← s;
  match m st with Done (Ok a) st' => if check a then Some st' else None | _ => None end.
Definition is_none (r : option Z) : bool := bool_decide (r = None).

Definition interleaved : option WalState :=
  then_ (driver_turns false 2) (λ _, true)
  (then_ (run_request false (put 10) false 0) is_none
  (then_ (driver_write false) (λ _, true)
  (then_ (run_request false long true 1) is_none
  (then_ (driver_write false) (λ _, true)
  (then_ (run_request false (put 9) false 0) is_none
  (then_ (driver_write false) (λ _, true)
  (then_ (run_request false long false 0) (λ r, bool_decide (r = Some 1))
  (then_ (run_request false (put 5) false 0) is_none (Some (shard m0)))))))))).

Definition replayed_lsns (s : option WalState) : option (list Z) :=
  st ← s;
  match replay_records (state_file_offset st) (state_fd st) with
  | Done (Ok _) r => Some (map lsn_of (delivered r))
  | _ => None
  end.

(** Every append returned and the shard was drained, but the record 6 and the
    image 10 after it are not replayed: the second chunk of 6 continues
    nothing, and replay stops there. *)
Lemma interleaved_chunks_lost :
  option_map (λ st, length (pending_writes st)) interleaved = Some 0%nat ∧
  option_map (λ st, WalBuffer.used (active st)) interleaved = Some 0 ∧ replayed_lsns interleaved = Some [5; 9].
Proof. vm_compute. done. Qed.

(** ** An append behind the mark *)

(** LSN 6 is appended and written before LSN 5, which another caller had
    claimed earlier, is appended. *)
Definition late : option WalState :=
  then_ (run_request false (put 5) false 0) is_none
  (then_ (driver_write false) (λ _, true)
  (then_ (run_request false (put 6) false 0) is_none (Some (shard m0)))).

(** The append of 5 returned and the mark is beyond it, so a commit of 5 has
    nothing to wait for, but the record is not in the file. *)
Lemma late_append_not_covered :
  option_map (λ st, SubmittedWrites.high_water_lsn (submitted_writes st)) late = Some 6 ∧
  replayed_lsns late = Some [6].
Proof. vm_compute. done. Qed.

Lemma wal_mark_covers_witness :
  ∃ end' A, log_of (state_fd st4) end' (written_mark drained_machine) A ∧ PageImage 5 5 (image 5) ∈ A.
Proof.
  destruct (wal_mark_covers false fd0 4096 [] file0 1 8192 drained_machine (PageImage 5 5 (image 5)) empty_log eq_refl wide_enough
    drained_run) as (end' & A & Hl & Hr).
  - repeat constructor.
  - apply list_elem_of_here.
  - rewrite st4_mark. change (0 < 5 ≤ 5). lia.
  - exists end', A. split; [exact Hl|exact Hr].
Defined.

(** ** An overwrite that comes too late *)

(** [append_or_overwrite_page_image] of LSN 8 on the buffered image 5: the
    check succeeds, the driver takes its turn before the overwrite gets the
    lock, and the overwrite is refused. *)
Definition overtaken : option WalState :=
  then_ (overwrite_buffered_page_image_with_lsn 1 0 8 5 (λ _ _, image 8)) negb
  (then_ (driver_write false) (λ _, true)
  (then_ (can_overwrite_buffered_page_image 1 0 5) (λ can, can)
  (then_ (run_request false (put 5) false 0) is_none (Some (shard m0))))).

(** The method does not look at the answer of the overwrite and reports the
    image 8 as logged, but it is neither in the file nor in the buffers. *)
Lemma overtaken_overwrite_lost :
  option_map (λ st, (length (pending_writes st), WalBuffer.used (active st))) overtaken = Some (0%nat, 0) ∧
  replayed_lsns overtaken = Some [5].
Proof. vm_compute. done. Qed.

(** Three interleavings lose records whose methods returned. Another
    caller's append between two chunks of a record that waits ends the replay
    there (the image 10 after it is lost with the record 6); an append of an
    LSN that was claimed before, but appended after, a larger one was written
    is behind the mark a commit waits for, and only in the buffer; and an
    overwrite that the driver overtakes after its check is dropped, though
    its method reports the image as logged. In each case everything else is
    in the file and the shard holds nothing back but the late append. *)
Theorem races_lose_records :
  (option_map (λ st, length (pending_writes st)) interleaved = Some 0%nat ∧
   option_map (λ st, WalBuffer.used (active st)) interleaved = Some 0 ∧ replayed_lsns interleaved = Some [5; 9]) ∧
  (option_map (λ st, SubmittedWrites.high_water_lsn (submitted_writes st)) late = Some 6 ∧ replayed_lsns late = Some [6]) ∧
  (option_map (λ st, (length (pending_writes st), WalBuffer.used (active st))) overtaken = Some (0%nat, 0) ∧
   replayed_lsns overtaken = Some [5]).
Proof. split_and!; first [apply interleaved_chunks_lost|apply late_append_not_covered|apply overtaken_overwrite_lost]. Qed.

End Run.
