(* ===== verification/BTreePool.v ===== *)
(** * B-tree: what the tree asks of the buffer pool

    The operations of [src/crates/storage/src/buffer_pool.rs] that
    [src/crates/btree/src/btree.rs] calls, as an interface: pages by
    identifier, references to them, pins, and optimistic guards. The pool may
    move pages in and out of memory at every call, and so rewrite the
    references inside inner nodes, and may fail every call that is allowed to
    fail; what it promises is that the tree its pages show stays the same and
    that it does not fail for ever.

    A pinned frame is the identifier of its page, and pins last to the end of
    the operation. A guard is the bytes its holder sees: the page itself
    under a latch, and an arbitrary snapshot under an optimistic guard, which
    is the page once the guard validates. *)

From S2P Require Import Prelude Bytes FrameKernel SwipKernel PageHeader PageMutation Slotted SlottedInv SlottedOps SlottedSearch SlottedMutation SlottedSpec BufferFrame BTreeNode BTreeNodeInv BTreePages BTreeSplitSpec BTreeInnerSpec BTreeRoute.
#[local] Open Scope Z_scope.
Import SlottedHeader SlottedPage.

(** ** Operations *)

Class PoolOps := {
  pool : Type;
  (** The bytes of a page, and the page a reference leads to. *)
  page_bytes : pool → Z → page;
  word_target : pool → Z → option Z;
  (** The root's reference, and the address of a pinned frame as a reference. *)
  meta_swip : pool → Z;
  hot_swip : pool → Z → Z;
  contains_frame : pool → Z → bool;
  logs_ranges : pool → bool;
  (** Pins. *)
  fix_stable : pool → pool * Z;
  fix_orphan_frame : pool → Z → pool * Z;
  try_fix_orphan_frame : pool → Z → pool * option Z;
  pin_child : pool → Z → pool * option Z;
  try_pin_child : pool → Z → pool * option Z;
  (** Guards: [None] and [false] are [Err]. *)
  optimistic : pool → Z → pool * option page;
  validate : pool → Z → page → pool * bool;
  try_exclusive : pool → Z → pool * bool;
  upgrade_to_shared : pool → Z → page → pool * bool;
  try_upgrade_to_exclusive : pool → Z → page → pool * bool;
  (** Writes under an exclusive latch. *)
  set_page : pool → Z → page → pool;
  set_parent_link : pool → Z → InnerParentLink.t → pool;
}.

(** ** Computations that may restart

    [Ret (σ, None)] is [Err(Restart)]. *)

Definition R `{PoolOps} (A : Type) : Type := pool → outcome (pool * option A).

Section monad.
Context `{PoolOps}.

Definition R_ret {A} (a : A) : R A := λ σ, Ret (σ, Some a).
Definition R_bind {A B} (m : R A) (k : A → R B) : R B := λ σ,
  match m σ with
  | Ret (σ, Some a) => k a σ
  | Ret (σ, None) => Ret (σ, None)
  | Panic => Panic
  end.
Definition restart {A} : R A := λ σ, Ret (σ, None).
Definition lift {A} (o : outcome A) : R A := λ σ, a ← o; Ret (σ, Some a).
Definition or_restart {A} (o : option A) : R A := λ σ, Ret (σ, o).
Definition guard_restart (b : bool) : R unit := λ σ, Ret (σ, if b then Some tt else None).
(** A call of the pool. *)
Definition call {A} (f : pool → pool * A) : R A := λ σ, Ret ((f σ).1, Some (f σ).2).
Definition update (f : pool → pool) : R unit := λ σ, Ret (f σ, Some tt).
(** [match m { Ok(a) => .., Err(Restart) => .. }]. *)
Definition attempt {A} (m : R A) : R (option A) := λ σ,
  match m σ with
  | Ret (σ, o) => Ret (σ, Some o)
  | Panic => Panic
  end.
(** The page of a latched frame. *)
Definition latched (pid : Z) : R page := λ σ, Ret (σ, Some (page_bytes σ pid)).
End monad.

Declare Scope restart_scope.
Delimit Scope restart_scope with R.
Notation "'let!' x := m 'in' k" := (R_bind m (λ x, k))
  (at level 200, x binder, m at level 100, k at level 200, right associativity) : restart_scope.
Notation "m ;! k" := (R_bind m (λ _, k)) (at level 199, right associativity) : restart_scope.

(** ** What pages show *)

(** A node as the tree sees it: references by the page they lead to. *)
Inductive node_view :=
| LeafView (l r : Z) (es : list entry)
| InnerView (ks : list (list byte)) (cps : list Z)
(** A page that is not part of the tree yet. *)
| BlankView.

Section views.
Context `{Build} `{PoolOps}.

Definition shows (σ : pool) (pid : Z) (v : node_view) : Prop :=
  match v with
  | LeafView l r es => leaf_page (page_bytes σ pid) l r es ∧ keys_sorted es
  | InnerView ks cps => ∃ cs u, inner_page (page_bytes σ pid) cs u ∧ seps cs = ks ∧
      Forall2 (λ w c, word_target σ w = Some c) (children cs u) cps
  | BlankView => zlen (page_bytes σ pid) = PAGE_SIZE
  end.

(** The pool holds the nodes of [V]. *)
Definition holds (σ : pool) (V : gmap Z node_view) : Prop := ∀ pid v, V !! pid = Some v → shows σ pid v.
End views.

(** ** Promises

    [credit] bounds how often pins of nodes can still fail; optimistic guards
    may fail at any time. [spare] is the number of pages that can still be
    allocated. [frame_pin σ w pid]: the
    frame a reference [w] names is pinned, with page [pid] in it; [pinned]
    says so of some frame. Neither changes while the pin lasts, so that a
    reference that is still in a validated parent after its frame was pinned
    leads to the pinned page. *)

Class PoolLaws `{Build} `{PoolOps} := {
  root_pid : pool → Z;
  credit : pool → nat;
  spare : pool → Z;
  pinned : pool → Z → Prop;
  frame_pin : pool → Z → Z → Prop;

  keeps (V : gmap Z node_view) (σ σ' : pool) : Prop :=
    (holds σ V → holds σ' V) ∧ root_pid σ' = root_pid σ ∧ (credit σ' ≤ credit σ)%nat ∧
    (∀ pid, pinned σ pid → pinned σ' pid) ∧ (∀ w pid, frame_pin σ w pid → frame_pin σ' w pid) ∧ spare σ ≤ spare σ';
  (** What a call that pins returns. *)
  pins (V : gmap Z node_view) (σ σ' : pool) (o : option Z) (w : Z) : Prop :=
    keeps V σ σ' ∧ match o with
    | Some pid => frame_pin σ' w pid ∧ ∀ q, word_target σ w = Some q → q = pid
    | None => is_Some (word_target σ w) → (credit σ' < credit σ)%nat
    end;

  word_target_ok σ w pid : word_target σ w = Some pid →
    ∃ s, swip_valid s ∧ w = encode s ∧ (∀ p, s = EvictedPage p → p = pid);
  frame_pin_ok σ w pid : frame_pin σ w pid → pinned σ pid ∧ (∀ q, word_target σ w = Some q → q = pid);
  hot_swip_ok σ pid : pinned σ pid → word_target σ (hot_swip σ pid) = Some pid;
  meta_swip_ok σ : word_target σ (meta_swip σ) = Some (root_pid σ) ∧
    (∀ a, meta_swip σ = encode (HotPtr a) ∨ meta_swip σ = encode (CoolPtr a) → contains_frame σ a = true);

  fix_stable_ok V σ : let '(σ', pid) := fix_stable σ in keeps V σ σ' ∧ pid = root_pid σ ∧ pinned σ' pid;
  fix_orphan_ok V σ pid : holds σ V → is_Some (V !! pid) →
    let '(σ', pid') := fix_orphan_frame σ pid in keeps V σ σ' ∧ pid' = pid ∧ pinned σ' pid;
  try_fix_orphan_ok V σ pid : holds σ V → is_Some (V !! pid) → let '(σ', o) := try_fix_orphan_frame σ pid in
    keeps V σ σ' ∧ match o with Some pid' => pid' = pid ∧ pinned σ' pid | None => (credit σ' < credit σ)%nat end;
  pin_child_ok V σ w : let '(σ', o) := pin_child σ w in pins V σ σ' o w;
  try_pin_child_ok V σ w : let '(σ', o) := try_pin_child σ w in pins V σ σ' o w;

  optimistic_ok V σ pid : let '(σ', o) := optimistic σ pid in
    keeps V σ σ' ∧ match o with Some b => zlen b = PAGE_SIZE | None => True end;
  validate_ok V σ pid b : let '(σ', ok) := validate σ pid b in
    keeps V σ σ' ∧ if ok : bool then page_bytes σ pid = b else True;
  upgrade_to_shared_ok V σ pid b : let '(σ', ok) := upgrade_to_shared σ pid b in
    keeps V σ σ' ∧ if ok : bool then page_bytes σ' pid = b else True;
  try_upgrade_ok V σ pid b : let '(σ', ok) := try_upgrade_to_exclusive σ pid b in
    keeps V σ σ' ∧ if ok : bool then page_bytes σ' pid = b else True;
  try_exclusive_ok V σ pid : let '(σ', ok) := try_exclusive σ pid in keeps V σ σ';

  set_page_ok V σ pid p : holds σ V → is_Some (V !! pid) → zlen p = PAGE_SIZE → let σ' := set_page σ pid p in
    page_bytes σ' pid = p ∧ (∀ q, q ≠ pid → page_bytes σ' q = page_bytes σ q) ∧
    (∀ w, word_target σ' w = word_target σ w) ∧ root_pid σ' = root_pid σ ∧ credit σ' = credit σ ∧
    (∀ q, pinned σ q → pinned σ' q) ∧ (∀ w q, frame_pin σ w q → frame_pin σ' w q) ∧ spare σ' = spare σ;
  set_parent_link_ok V σ pid l : keeps V σ (set_parent_link σ pid l) ∧
    (∀ q, page_bytes (set_parent_link σ pid l) q = page_bytes σ q);
}.

Section keeps.
Context `{PoolLaws}.

#[global] Instance keeps_preorder V : PreOrder (keeps V).
Proof.
  split; [intros σ; repeat split; auto; lia|]. intros σ1 σ2 σ3 (? & ? & ? & ? & ? & ?) (? & ? & ? & ? & ? & ?).
  repeat split; [by auto|congruence|lia|by auto|by auto|lia].
Qed.
End keeps.

(** ** Rules

    [steps V N m σ P]: from [σ], [m] does not panic, keeps the tree [V], and
    returns a value with [P], or restarts in a state with [N]. *)

Section steps.
Context `{PoolLaws} (V : gmap Z node_view) (N : pool → Prop).

Definition steps {A} (m : R A) (σ : pool) (P : A → pool → Prop) : Prop :=
  match m σ with
  | Ret (σ', o) => keeps V σ σ' ∧ match o with Some a => P a σ' | None => N σ' end
  | Panic => False
  end.

Lemma steps_ret {A} (a : A) σ (P : A → pool → Prop) : P a σ → steps (R_ret a) σ P.
Proof. intros. split; [reflexivity|done]. Qed.

Lemma steps_restart {A} σ (P : A → pool → Prop) : N σ → steps restart σ P.
Proof. intros. split; [reflexivity|done]. Qed.

Lemma steps_bind {A B} (m : R A) (k : A → R B) σ (P : A → pool → Prop) Q :
  steps m σ P → (∀ a σ', keeps V σ σ' → P a σ' → steps (k a) σ' Q) → steps (R_bind m k) σ Q.
Proof.
  unfold steps, R_bind. intros Hm Hk. destruct (m σ) as [[σ' [a|]]|]; [|done|done]. destruct Hm as [Hs Hp].
  specialize (Hk a σ' Hs Hp). destruct (k a σ') as [[σ'' o]|]; [|done]. destruct Hk as [Hs' Hq]. split; [by etrans|done].
Qed.

Lemma steps_mono {A} (m : R A) σ (P Q : A → pool → Prop) :
  steps m σ P → (∀ a σ', keeps V σ σ' → P a σ' → Q a σ') → steps m σ Q.
Proof.
  unfold steps. intros Hm Hk. destruct (m σ) as [[σ' [a|]]|]; [|done|done]. destruct Hm as [Hs Hp]. auto.
Qed.

Lemma steps_lift {A} (o : outcome A) a σ (P : A → pool → Prop) : o = Ret a → P a σ → steps (lift o) σ P.
Proof. intros -> Hp. split; [reflexivity|done]. Qed.

Lemma steps_or_restart {A} (o : option A) σ (P : A → pool → Prop) :
  match o with Some a => P a σ | None => N σ end → steps (or_restart o) σ P.
Proof. intros. split; [reflexivity|done]. Qed.

Lemma steps_guard (b : bool) σ (P : unit → pool → Prop) : (if b then P tt σ else N σ) → steps (guard_restart b) σ P.
Proof. intros. split; [reflexivity|by destruct b]. Qed.

Lemma steps_latched pid σ (P : page → pool → Prop) : P (page_bytes σ pid) σ → steps (latched pid) σ P.
Proof. intros. split; [reflexivity|done]. Qed.

(** A step that is known, and what follows it. *)
Lemma steps_lift_bind {A B} (o : outcome A) a (k : A → R B) σ Q :
  o = Ret a → steps (k a) σ Q → steps (R_bind (lift o) k) σ Q.
Proof. by intros ->. Qed.

Lemma steps_latched_bind {B} pid (k : page → R B) σ Q :
  steps (k (page_bytes σ pid)) σ Q → steps (R_bind (latched pid) k) σ Q.
Proof. done. Qed.

(** A read of the pool's state. *)
Lemma steps_get {A} (f : pool → A) σ (P : A → pool → Prop) : P (f σ) σ → steps (call (λ σ, (σ, f σ))) σ P.
Proof. intros. split; [reflexivity|done]. Qed.

(** A call, from its law. *)
Lemma steps_call {A} (f : pool → pool * A) σ (P : A → pool → Prop) :
  (let '(σ', a) := f σ in keeps V σ σ' ∧ P a σ') → steps (call f) σ P.
Proof. unfold steps, call. by destruct (f σ). Qed.

Lemma steps_update (f : pool → pool) σ (P : unit → pool → Prop) : keeps V σ (f σ) → P tt (f σ) → steps (update f) σ P.
Proof. intros. split; done. Qed.

Lemma steps_fix_stable σ : steps (call fix_stable) σ (λ pid σ', pid = root_pid σ ∧ pinned σ' pid).
Proof. apply steps_call. pose proof (fix_stable_ok V σ) as E. by destruct (fix_stable σ). Qed.

Lemma steps_fix_orphan pid σ :
  holds σ V → is_Some (V !! pid) →
  steps (call (λ σ, fix_orphan_frame σ pid)) σ (λ pid' σ', pid' = pid ∧ pinned σ' pid).
Proof. intros. by apply steps_call, fix_orphan_ok. Qed.

Lemma steps_try_fix_orphan pid σ :
  holds σ V → is_Some (V !! pid) →
  steps (call (λ σ, try_fix_orphan_frame σ pid)) σ
    (λ o σ', match o with Some pid' => pid' = pid ∧ pinned σ' pid | None => (credit σ' < credit σ)%nat end).
Proof. intros. by apply steps_call, try_fix_orphan_ok. Qed.

Lemma steps_pin_child w σ : steps (call (λ σ, pin_child σ w)) σ (λ o σ', pins V σ σ' o w).
Proof.
  apply steps_call. pose proof (pin_child_ok V σ w) as E. destruct (pin_child σ w). split; [apply E|done].
Qed.

Lemma steps_try_pin_child w σ : steps (call (λ σ, try_pin_child σ w)) σ (λ o σ', pins V σ σ' o w).
Proof.
  apply steps_call. pose proof (try_pin_child_ok V σ w) as E. destruct (try_pin_child σ w). split; [apply E|done].
Qed.
End steps.
