(* ===== verification/BTreeRead.v ===== *)
(** * B-tree: reading

    Models the read side of [src/crates/btree/src/btree.rs]: the descents to
    a leaf, the lookups with their retries and their latched fallback, and
    the scans. Counters of statistics and the yields to other threads are
    left out. Loops that the source does not bound take fuel; running out of
    it is a [Panic], which the theorems exclude. *)

From S2P Require Import Prelude Bytes FrameKernel SwipKernel PageHeader PageMutation Slotted BufferFrame BTreeNode BTreePages BTreePool.
#[local] Open Scope Z_scope.
Import SlottedHeader SlottedPage.

Definition MAX_OPTIMISTIC_STEPS : nat := 256.
Definition LOOKUP_OPTIMISTIC_RESTART_LIMIT : nat := 64.

(** The tree: what it keeps beside its pages. *)
Module BTree.
Record t := { dt_id : Z }.
End BTree.

Section read.
Context `{Build} `{PoolOps} (self : BTree.t).
#[local] Open Scope restart_scope.

(** ** Guards *)

Definition optimistic_or_restart (pid : Z) : R page :=
  let! o := call (λ σ, optimistic σ pid) in or_restart o.
Definition validate_or_restart (pid : Z) (b : page) : R unit :=
  let! ok := call (λ σ, validate σ pid b) in guard_restart ok.

(** [RoutedChildRef::pin], [try_pin_resident] and [try_resolve_resident]. *)
Definition pin_route (route : RoutedChildRef.t) : R (option Z) :=
  call (λ σ, pin_child σ (RoutedChildRef.swip route)).
Definition try_pin_resident (route : RoutedChildRef.t) : R (option Z) :=
  if negb (RoutedChildRef.is_resident route) then R_ret None
  else call (λ σ, try_pin_child σ (RoutedChildRef.swip route)).
Definition try_resolve_resident (route : RoutedChildRef.t) : R (option Z) :=
  if RoutedChildRef.is_resident route then call (λ σ, try_pin_child σ (RoutedChildRef.swip route))
  else let! pid := lift (SwipWord.as_page_id (RoutedChildRef.swip route)) in
       call (λ σ, try_fix_orphan_frame σ pid).

(** [try_publish_loaded_child], and its variant for the root. *)
Definition try_publish_loaded_child (child parent : Z) (b : page) (publication : RoutedChildPublication.t) : R unit :=
  let! ok := call (λ σ, try_exclusive σ child) in
  if negb ok then R_ret tt else
  let! ok := call (λ σ, try_upgrade_to_exclusive σ parent b) in
  if negb ok then R_ret tt else
  update (λ σ, set_parent_link σ child {|
    InnerParentLink.parent_pid := parent;
    InnerParentLink.slot_index := RoutedChildPublication.slot_index publication;
    InnerParentLink.is_upper := RoutedChildPublication.is_upper publication;
    InnerParentLink.dt_id := BTree.dt_id self |}) ;!
  let! p := latched parent in
  let! w := call (λ σ, (σ, hot_swip σ child)) in
  let! logs := call (λ σ, (σ, logs_ranges σ)) in
  let! node := lift (ExclusiveNode.set_child_edge_swip (ExclusiveNode.new logs p)
                       (RoutedChildPublication.edge publication) w) in
  update (λ σ, set_page σ parent (ExclusiveNode.page node)).

Definition try_publish_loaded_root_child (child root : Z) (b : page) (publication : RoutedChildPublication.t) : R unit :=
  let! ok := call (λ σ, try_exclusive σ child) in
  if negb ok then R_ret tt else
  let! ok := call (λ σ, try_upgrade_to_exclusive σ root b) in
  if negb ok then R_ret tt else
  update (λ σ, set_parent_link σ child {|
    InnerParentLink.parent_pid := root;
    InnerParentLink.slot_index := RoutedChildPublication.slot_index publication;
    InnerParentLink.is_upper := RoutedChildPublication.is_upper publication;
    InnerParentLink.dt_id := BTree.dt_id self |}) ;!
  let! p := latched root in
  let! w := call (λ σ, (σ, hot_swip σ child)) in
  match RoutedChildPublication.edge publication with
  | ParentEdge.Upper => update (λ σ, set_page σ root (BTreeNode.set_upper p w))
  | ParentEdge.Slot pos =>
      let! p := lift (BTreeNode.set_child_swip_at p pos w) in
      update (λ σ, set_page σ root p)
  end.

(** From an inner node, whose guard shows [b], to the routed child. *)
Definition step_to_child (pin : RoutedChildRef.t → R (option Z))
    (publish : Z → Z → page → RoutedChildPublication.t → R unit) (cur : Z) (b : page) (key : list byte) : R Z :=
  let! o := lift (ResidentFrame.try_route_to_child b key) in
  let! route := or_restart o in
  validate_or_restart cur b ;!
  if RoutedChildRef.is_resident route then
    let! o := pin route in
    let! child := or_restart o in
    validate_or_restart cur b ;!
    R_ret child
  else
    let! pid := lift (RoutedChildRef.evicted_page_id route) in
    let! child := call (λ σ, fix_orphan_frame σ pid) in
    validate_or_restart cur b ;!
    publish child cur b (RoutedChildRef.into_publication route (num_slots b)) ;!
    R_ret child.

(** ** Optimistic descent *)

(** The first step, which does not pin a root in memory. *)
Definition start_at_root (pin : RoutedChildRef.t → R (option Z)) (key : list byte) : R Z :=
  let! root_swip := call (λ σ, (σ, meta_swip σ)) in
  if SwipWord.is_hot root_swip || SwipWord.is_cool root_swip then
    let! o := lift (BufferFrameRef.from_hot_swip root_swip) in
    let! frame := or_restart o in
    let! known := call (λ σ, (σ, contains_frame σ frame)) in
    let! _ := lift (debug_assert known) in
    let! root := call (λ σ, (σ, word_target σ root_swip)) in
    let! root := or_restart root in
    let! b := optimistic_or_restart root in
    if BTreeNode.is_leaf b then call fix_stable
    else step_to_child pin try_publish_loaded_root_child root b key
  else call fix_stable.

(** The loop of [find_leaf_optimistic]; [steps] are those left. *)
Fixpoint optimistic_loop (steps : nat) (key : list byte) (cur : Z) : R (Z * page) :=
  match steps with
  | O => restart
  | S steps =>
      let! b := optimistic_or_restart cur in
      if BTreeNode.is_leaf b then
        let! chase := lift (ResidentFrame.should_chase_right b key) in
        if chase then
          validate_or_restart cur b ;!
          let right_pid := BTreeNode.leaf_right_pid b in
          if right_pid =? 0 then restart else
          let! next := call (λ σ, fix_orphan_frame σ right_pid) in
          validate_or_restart cur b ;!
          optimistic_loop steps key next
        else R_ret (cur, b)
      else
        let! child := step_to_child try_pin_resident try_publish_loaded_child cur b key in
        optimistic_loop steps key child
  end.

Definition find_leaf_optimistic (key : list byte) : R (Z * page) :=
  let! cur := start_at_root pin_route key in
  optimistic_loop (MAX_OPTIMISTIC_STEPS - 1) key cur.

Definition try_read_optimistic_leaf {T} (key : list byte) (read : page → Z → bool → R (option T)) : R (option T) :=
  let! leaf := find_leaf_optimistic key in
  let! o := lift (try_lower_bound leaf.2 key) in
  let! r := or_restart o in
  let! result := read leaf.2 r.1 r.2 in
  validate_or_restart leaf.1 leaf.2 ;!
  R_ret result.

(** ** The latched fallback *)

(** [with_lookup_fallback_leaf]: the leaf that is given to [read]. [cur] is
    [None] at the head of the outer loop. *)
Fixpoint fallback_loop (fuel : nat) (key : list byte) (attempts : nat) (cur : option Z) : R (option page) :=
  match fuel with
  | O => λ _, Panic
  | S fuel =>
      match cur with
      | None => let! root := call fix_stable in fallback_loop fuel key attempts (Some root)
      | Some cur =>
          let! p := latched cur in
          if BTreeNode.is_leaf p then
            let! chase := lift (ResidentFrame.should_chase_right p key) in
            if chase then
              let right_pid := BTreeNode.leaf_right_pid p in
              if right_pid =? 0 then R_ret None else
              let! o := call (λ σ, try_fix_orphan_frame σ right_pid) in
              match o with
              | Some next => fallback_loop fuel key attempts (Some next)
              | None =>
                  let! next := call (λ σ, fix_orphan_frame σ right_pid) in
                  fallback_loop fuel key (S attempts) (Some next)
              end
            else R_ret (Some p)
          else
            let! o := lift (ResidentFrame.try_route_to_child p key) in
            match o with
            | None => R_ret None
            | Some route =>
                let! o := try_resolve_resident route in
                match o with
                | Some child => fallback_loop fuel key attempts (Some child)
                | None =>
                    if negb (RoutedChildRef.is_resident route) then
                      let! child_pid := lift (RoutedChildRef.evicted_page_id route) in
                      let! child := call (λ σ, fix_orphan_frame σ child_pid) in
                      let! parent := call (λ σ, fix_orphan_frame σ cur) in
                      let! p := latched parent in
                      let! o := lift (ResidentFrame.try_route_to_child p key) in
                      match o with
                      | Some re_routed =>
                          let! o := try_resolve_resident re_routed in
                          if default 0 o =? child_pid then fallback_loop fuel key attempts (Some child)
                          else fallback_loop fuel key attempts None
                      | None => fallback_loop fuel key attempts None
                      end
                    else if bool_decide (LOOKUP_OPTIMISTIC_RESTART_LIMIT ≤ S attempts)%nat then R_ret None
                    else fallback_loop fuel key (S attempts) None
                end
            end
      end
  end.

Definition with_lookup_fallback_leaf {T} (fuel : nat) (key : list byte) (read : option page → outcome T) : R T :=
  let! leaf := fallback_loop fuel key 0 None in
  lift (read leaf).

(** The value at a key of a latched leaf. *)
Definition read_value (key : list byte) (leaf : option page) : outcome (option (list byte)) :=
  match leaf with
  | None => Ret None
  | Some leaf =>
      r ← lower_bound leaf key;
      if r.2 : bool then v ← get_value leaf r.1; Ret (Some v) else Ret None
  end.

Definition lookup_fallback (fuel : nat) (key : list byte) : R (option (list byte)) :=
  with_lookup_fallback_leaf fuel key (read_value key).

Definition lookup_with {T} (fuel : nat) (key : list byte) (f : option (list byte) → T) : R T :=
  with_lookup_fallback_leaf fuel key (λ leaf, o ← read_value key leaf; Ret (f o)).

(** A value only when it has the length that is asked for. *)
Definition fixed (n : Z) (o : option (list byte)) : option (list byte) :=
  match o with
  | Some v => if zlen v =? n then Some v else None
  | None => None
  end.

Definition lookup_fixed_fallback (fuel : nat) (n : Z) (key : list byte) : R (option (list byte)) :=
  with_lookup_fallback_leaf fuel key (λ leaf, o ← read_value key leaf; Ret (fixed n o)).

(** ** Lookups *)

(** The closures given to [try_read_optimistic_leaf]. *)
Definition read_optimistic (leaf : page) (pos : Z) (exact : bool) : R (option (list byte)) :=
  if negb exact then R_ret None else
  let! o := lift (try_get_value leaf pos) in
  let! v := or_restart o in
  R_ret (Some v).

Definition read_optimistic_fixed (n : Z) (leaf : page) (pos : Z) (exact : bool) : R (option (list byte)) :=
  if negb exact then R_ret None else
  let! o := lift (try_get_value leaf pos) in
  let! v := or_restart o in
  R_ret (if zlen v =? n then Some v else None).

(** The loop of [lookup] and [lookup_fixed], with the attempts left. *)
Fixpoint lookup_loop {T} (tries : nat) (key : list byte) (read : page → Z → bool → R (option T))
    (fallback : R (option T)) : R (option T) :=
  match tries with
  | O => fallback
  | S tries =>
      let! o := attempt (try_read_optimistic_leaf key read) in
      match o with
      | None => lookup_loop tries key read fallback
      | Some None => fallback
      | Some result => R_ret result
      end
  end.

Definition lookup (fuel : nat) (key : list byte) : R (option (list byte)) :=
  lookup_loop LOOKUP_OPTIMISTIC_RESTART_LIMIT key read_optimistic (lookup_fallback fuel key).
Definition lookup_fixed (fuel : nat) (n : Z) (key : list byte) : R (option (list byte)) :=
  lookup_loop LOOKUP_OPTIMISTIC_RESTART_LIMIT key (read_optimistic_fixed n) (lookup_fixed_fallback fuel n key).

End read.
