(* ===== verification/BTreeWrite.v ===== *)
(** * B-tree: writing

    Models the write side of [src/crates/btree/src/btree.rs]: the descents
    that end at an exclusively latched leaf, with and without the path of its
    ancestors, the splits of leaves, inner nodes and the root, the
    publication of a split in the parent with its four ways to find that
    parent, and [insert] and [upsert] with their retries.

    What a node's page becomes is computed by the functions on pages; here
    the pages are read from and written to the pool, in the order the source
    does it. A [Vec] used as a stack is a list with its top first. Loops that
    the source does not bound take fuel; running out of it is a [Panic]. *)

From S2P Require Import Prelude Bytes FrameKernel SwipKernel PageHeader PageMutation Slotted BufferFrame BTreeNode BTreePages BTreePool BTreeRead.
#[local] Open Scope Z_scope.
Import SlottedHeader SlottedPage.

Definition WRITE_FIXED_ROOT_THRESHOLD : nat := 4.
Definition WRITE_BLOCKING_FALLBACK_THRESHOLD : nat := 16.
Definition PUBLISH_ATTEMPTS_MAX : Z := 100000.

(** ** What writers ask of the buffer pool besides *)

Class WriteOps `{PoolOps} := {
  (** The headers of the frames, and the frame of a pinned page. *)
  frames_of : pool → frames;
  frame_ref : pool → Z → Z;
  upgrade_to_exclusive : pool → Z → page → pool * bool;
  (** [NewUnlinkedPage]: a new page, its [drop], and [finish_publication]. *)
  allocate_unlinked : pool → pool * Z;
  drop_unlinked : pool → Z → pool;
  finish_publication : pool → Z → pool;
  mark_dirty : pool → Z → ExclusiveNode.Dirty → pool;
  clear_parent_link : pool → Z → pool;
  (** The counters of the tree. *)
  add_height : pool → Z → pool;
  add_reachable_pages : pool → Z → pool;
}.

Module SplitChild.
Record t := { pid : Z; published : bool }.
End SplitChild.

Section write.
Context `{Build} `{PoolOps} `{!WriteOps} (self : BTree.t).
#[local] Open Scope restart_scope.

(** ** Pool calls *)

Definition get_logs : R bool := call (λ σ, (σ, logs_ranges σ)).
Definition get_hot_swip (pid : Z) : R Z := call (λ σ, (σ, hot_swip σ pid)).
Definition get_child_ref (pid : Z) : R ChildRef.t := call (λ σ, (σ, ChildRef.from_pid (frame_ref σ pid) pid)).
Definition put_page (pid : Z) (p : page) : R unit := update (λ σ, set_page σ pid p).
Definition put_dirty (pid : Z) (d : ExclusiveNode.Dirty) : R unit := update (λ σ, mark_dirty σ pid d).
Definition put_link (pid parent slot_index : Z) (is_upper : bool) : R unit :=
  update (λ σ, set_parent_link σ pid {|
    InnerParentLink.parent_pid := parent; InnerParentLink.slot_index := slot_index;
    InnerParentLink.is_upper := is_upper; InnerParentLink.dt_id := BTree.dt_id self |}).
Definition drop_page (o : option Z) : R unit :=
  match o with
  | Some pid => update (λ σ, drop_unlinked σ pid)
  | None => R_ret tt
  end.
Definition page_or_allocate (o : option Z) : R Z :=
  match o with
  | Some pid => R_ret pid
  | None => call allocate_unlinked
  end.

(** [swip_page_id] on the frames of the pool, and [root_page_id]. *)
Definition page_id_of_swip (w : Z) : R Z :=
  let! heap := call (λ σ, (σ, frames_of σ)) in lift (swip_page_id heap w).
Definition root_page_id : R Z :=
  let! w := call (λ σ, (σ, meta_swip σ)) in page_id_of_swip w.

(** [node.finish_mutation()] after the page of [pid] was changed through it. *)
Definition finish_node (pid : Z) (nd : ExclusiveNode.t) : R unit :=
  put_page pid (ExclusiveNode.page nd) ;!
  put_dirty pid (ExclusiveNode.finish_mutation nd).2.

(** ** Descents *)

(** The loop of [find_leaf_exclusive] and of [find_leaf_exclusive_from_fixed_root]. *)
Fixpoint exclusive_loop (fuel : nat) (key : list byte) (cur : Z) : R Z :=
  match fuel with
  | O => λ _, Panic
  | S fuel =>
      let! b := optimistic_or_restart cur in
      if BTreeNode.is_leaf b then
        let! chase := lift (ResidentFrame.should_chase_right b key) in
        if chase then
          validate_or_restart cur b ;!
          let right_pid := BTreeNode.leaf_right_pid b in
          if right_pid =? 0 then restart else
          let! next := call (λ σ, fix_orphan_frame σ right_pid) in
          exclusive_loop fuel key next
        else
          let! ok := call (λ σ, upgrade_to_exclusive σ cur b) in
          guard_restart ok ;!
          R_ret cur
      else
        let! child := step_to_child pin_route (try_publish_loaded_child self) cur b key in
        exclusive_loop fuel key child
  end.

Definition find_leaf_exclusive (fuel : nat) (key : list byte) : R Z :=
  let! cur := start_at_root self try_pin_resident key in
  exclusive_loop fuel key cur.

Definition find_leaf_exclusive_from_fixed_root (fuel : nat) (key : list byte) : R Z :=
  let! cur := call fix_stable in
  exclusive_loop fuel key cur.

(** The loop of [find_leaf_exclusive_with_path]. *)
Fixpoint path_loop (fuel : nat) (key : list byte) (path : list Z) (cur : Z) : R (list Z * Z) :=
  match fuel with
  | O => λ _, Panic
  | S fuel =>
      let! b := optimistic_or_restart cur in
      if BTreeNode.is_leaf b then
        let! chase := lift (ResidentFrame.should_chase_right b key) in
        (if chase then
           let empty_leaf := ResidentFrame.is_empty_leaf b in
           validate_or_restart cur b ;!
           guard_restart empty_leaf
         else R_ret tt) ;!
        let! ok := call (λ σ, upgrade_to_exclusive σ cur b) in
        guard_restart ok ;!
        R_ret (path, cur)
      else
        let! child := step_to_child pin_route (try_publish_loaded_child self) cur b key in
        path_loop fuel key (cur :: path) child
  end.

Definition find_leaf_exclusive_with_path (fuel : nat) (key : list byte) : R (list Z * Z) :=
  let! cur := call fix_stable in
  path_loop fuel key [] cur.

(** The loop of both latched descents; [find_leaf_exclusive_fallback] does
    not keep the path. *)
Fixpoint exclusive_fallback_loop (fuel : nat) (key : list byte) (path : list Z) (cur : Z) : R (list Z * Z) :=
  match fuel with
  | O => λ _, Panic
  | S fuel =>
      let! p := latched cur in
      if BTreeNode.is_leaf p then
        let! chase := lift (ResidentFrame.should_chase_right p key) in
        if chase then
          let right_pid := BTreeNode.leaf_right_pid p in
          if right_pid =? 0 then restart else
          let! next := call (λ σ, fix_orphan_frame σ right_pid) in
          exclusive_fallback_loop fuel key path next
        else
          let! p := latched cur in
          if negb (BTreeNode.is_leaf p) then restart else
          let! chase := lift (ResidentFrame.should_chase_right p key) in
          if chase then
            let right_pid := BTreeNode.leaf_right_pid p in
            if right_pid =? 0 then restart else
            let! next := call (λ σ, fix_orphan_frame σ right_pid) in
            exclusive_fallback_loop fuel key path next
          else R_ret (path, cur)
      else
        let! o := lift (ResidentFrame.try_route_to_child p key) in
        let! route := or_restart o in
        let! o := try_resolve_resident route in
        let! child := or_restart o in
        exclusive_fallback_loop fuel key (cur :: path) child
  end.

Definition find_leaf_exclusive_fallback (fuel : nat) (key : list byte) : R Z :=
  let! cur := call fix_stable in
  let! r := exclusive_fallback_loop fuel key [] cur in
  R_ret r.2.

Definition find_leaf_exclusive_with_path_fallback (fuel : nat) (key : list byte) : R (list Z * Z) :=
  let! cur := call fix_stable in
  exclusive_fallback_loop fuel key [] cur.

(** ** Links *)

Definition update_leaf_left_sibling (leaf_pid left_pid : Z) : R unit :=
  if leaf_pid =? 0 then R_ret tt else
  let! leaf := call (λ σ, fix_orphan_frame σ leaf_pid) in
  let! p := latched leaf in
  let! logs := get_logs in
  let! nd := lift (ExclusiveNode.set_left_pid (ExclusiveNode.new logs p) left_pid) in
  finish_node leaf nd.

(** [BufferPool::try_pin_resident_child]. *)
Definition try_pin_resident_child (w : Z) : R (option Z) :=
  if negb (SwipWord.is_hot w || SwipWord.is_cool w) then R_ret None
  else call (λ σ, try_pin_child σ w).

(** One child of [refresh_inner_child_parent_links_for_frame]. *)
Definition refresh_link (node w pos : Z) (is_upper : bool) : R unit :=
  let! o := try_pin_resident_child w in
  match o with
  | None => R_ret tt
  | Some child =>
      let! ok := call (λ σ, try_exclusive σ child) in
      if negb ok then R_ret tt else put_link child node pos is_upper
  end.

Fixpoint refresh_loop (node : Z) (ids : list Z) : R unit :=
  match ids with
  | [] => R_ret tt
  | pos :: ids =>
      let! p := latched node in
      let! w := lift (BTreeNode.child_swip_at p pos) in
      refresh_link node w pos false ;!
      refresh_loop node ids
  end.

Definition refresh_inner_child_parent_links_for_frame (node : Z) : R unit :=
  let! p := latched node in
  let count := num_slots p in
  refresh_loop node (seqZ 0 count) ;!
  let! p := latched node in
  refresh_link node (BTreeNode.upper_swip p) count true.

(** ** Root splits *)

(** What both root splits do once the pages of the children are computed. *)
Definition install_new_root (root left right : Z) (sep_key : list byte) (left_page right_page : page) : R unit :=
  put_page left left_page ;!
  put_page right right_page ;!
  put_dirty left ExclusiveNode.MarkDirty ;!
  put_dirty right ExclusiveNode.MarkDirty ;!
  let! left_swip := get_hot_swip left in
  let! right_swip := get_hot_swip right in
  let! p := latched root in
  let! logs := get_logs in
  let! nd := lift (new_root logs p sep_key left_swip right_swip) in
  put_page root (ExclusiveNode.page nd) ;!
  put_dirty root ExclusiveNode.MarkDirty ;!
  update (λ σ, finish_publication σ left) ;!
  update (λ σ, finish_publication σ right).

(** The counters at the end of both root splits. *)
Definition count_new_root (successor right : Z) : R unit :=
  (if negb (successor =? 0) then update_leaf_left_sibling successor right else R_ret tt) ;!
  update (λ σ, add_height σ 1) ;!
  update (λ σ, add_reachable_pages σ 2).

Definition split_stable_root (root split_pos : Z) (sep_key : list byte) (pending_entry : option PendingLeafEntry.t)
    (pre_left pre_right : option Z) : R unit :=
  let! left_pid := page_or_allocate pre_left in
  let! right_pid := page_or_allocate pre_right in
  let! p := latched root in
  let! lp := latched left_pid in
  let! rp := latched right_pid in
  if BTreeNode.is_leaf p then
    let! r := lift (split_root_leaf p lp rp left_pid right_pid split_pos sep_key pending_entry) in
    install_new_root root left_pid right_pid sep_key r.1.1 r.1.2 ;!
    put_link left_pid root 0 false ;!
    put_link right_pid root 1 true ;!
    count_new_root r.2 right_pid
  else
    let! heap := call (λ σ, (σ, frames_of σ)) in
    let! r := lift (split_root_inner heap p lp rp split_pos) in
    install_new_root root left_pid right_pid sep_key r.1 r.2 ;!
    put_link left_pid root 0 false ;!
    refresh_inner_child_parent_links_for_frame left_pid ;!
    put_link right_pid root 1 true ;!
    refresh_inner_child_parent_links_for_frame right_pid ;!
    count_new_root 0 right_pid.

Definition split_single_entry_stable_root (root : Z) (sep_key : list byte) (move_existing_to_right : bool)
    (pending : PendingLeafEntry.t) (pre_left pre_right : option Z) : R unit :=
  let! left_pid := page_or_allocate pre_left in
  let! right_pid := page_or_allocate pre_right in
  let! p := latched root in
  let! lp := latched left_pid in
  let! rp := latched right_pid in
  let! r := lift (split_single_root p lp rp left_pid right_pid move_existing_to_right pending) in
  install_new_root root left_pid right_pid sep_key r.1.1 r.1.2 ;!
  put_link left_pid root 0 false ;!
  put_link right_pid root 1 true ;!
  count_new_root r.2 right_pid.

(** ** Other splits

    [publish] is [publish_leaf_split_to_parent]; it and every function that
    takes the path return what is left of it. *)

Section publish.
Context (publish : list byte → Z → SplitChild.t → list Z → R (list Z)).

(** The whole page but its LSN, as [mark_dirty_ranges] is given it. *)
Definition mark_all_dirty (pid : Z) : R unit :=
  let! m := lift (PageMutation.add_range PageMutation.new 8 PAGE_SIZE) in
  put_dirty pid (ExclusiveNode.MarkDirtyRanges m).

Definition split_single_entry_leaf (node : Z) (path : list Z) (sep_key : list byte) (move_existing_to_right : bool)
    (pending : PendingLeafEntry.t) (pre_sibling : option Z) : R (list Z) :=
  let! sibling := page_or_allocate pre_sibling in
  let! p := latched node in
  let! q := latched sibling in
  let! r := lift (split_single_leaf p q node sibling move_existing_to_right pending) in
  put_page sibling r.1.2 ;!
  put_page node r.1.1 ;!
  put_dirty sibling ExclusiveNode.MarkDirty ;!
  mark_all_dirty node ;!
  update (λ σ, add_reachable_pages σ 1) ;!
  update (λ σ, finish_publication σ sibling) ;!
  (if negb (r.2 =? 0) then update_leaf_left_sibling r.2 sibling else R_ret tt) ;!
  publish sep_key node {| SplitChild.pid := sibling; SplitChild.published := true |} path.

(** The rest of [split_node] when the node is not the root and has two slots
    or more. *)
Definition split_node_below (node : Z) (path : list Z) (split_pos : Z) (sep_key : list byte)
    (pending : option PendingLeafEntry.t) (pre_sibling pre_root : option Z) : R (list Z) :=
  let! sibling := page_or_allocate pre_sibling in
  let! p := latched node in
  let! q := latched sibling in
  let is_leaf := BTreeNode.is_leaf p in
  let! successor :=
    (if is_leaf then
       let! r := lift (split_leaf p q node sibling split_pos sep_key pending) in
       put_page sibling r.1.2 ;!
       put_page node r.1.1 ;!
       R_ret r.2
     else
       let! r := lift (split_inner p q split_pos) in
       put_page sibling r.2 ;!
       put_page node r.1 ;!
       refresh_inner_child_parent_links_for_frame node ;!
       refresh_inner_child_parent_links_for_frame sibling ;!
       R_ret 0) in
  put_dirty sibling ExclusiveNode.MarkDirty ;!
  mark_all_dirty node ;!
  update (λ σ, add_reachable_pages σ 1) ;!
  (if is_leaf then update (λ σ, finish_publication σ sibling) else R_ret tt) ;!
  (if negb (successor =? 0) then update_leaf_left_sibling successor sibling else R_ret tt) ;!
  drop_page pre_root ;!
  publish sep_key node {| SplitChild.pid := sibling; SplitChild.published := is_leaf |} path.

(** The [bool] says that the pending entry was installed. *)
Definition split_node (node : Z) (path : list Z) (pending_entry : option PendingLeafEntry.t)
    (pre_sibling pre_root : option Z) : R (list Z * bool) :=
  let! p := latched node in
  let! root_pid := root_page_id in
  let is_root := root_pid =? node in
  let! plan := lift (split_plan p pending_entry) in
  match plan, pending_entry with
  | SplitSingle sep_key move_existing_to_right, Some pending =>
      if is_root then
        split_single_entry_stable_root node sep_key move_existing_to_right pending pre_root pre_sibling ;!
        R_ret (path, true)
      else
        let! path := split_single_entry_leaf node path sep_key move_existing_to_right pending pre_sibling in
        drop_page pre_root ;!
        R_ret (path, true)
  | SplitAt split_pos sep_key pending, _ =>
      let installed := bool_decide (is_Some pending) in
      if is_root then
        split_stable_root node split_pos sep_key pending pre_root pre_sibling ;!
        R_ret (path, installed)
      else
        let! path := split_node_below node path split_pos sep_key pending pre_sibling pre_root in
        R_ret (path, installed)
  | _, _ =>
      drop_page pre_sibling ;!
      drop_page pre_root ;!
      R_ret (path, false)
  end.

Definition split_full_root_after_release (expected_root_pid : Z) (path : list Z) : R (list Z * bool) :=
  let! pre_sibling := call allocate_unlinked in
  let! pre_root := call allocate_unlinked in
  let! root := call fix_stable in
  if negb (root =? expected_root_pid) then
    drop_page (Some pre_sibling) ;!
    drop_page (Some pre_root) ;!
    R_ret (path, false)
  else
    let! r := split_node root path None (Some pre_sibling) (Some pre_root) in
    R_ret (r.1, true).

Definition split_full_inner_after_release (expected_pid pending_separator_len : Z) (path : list Z) : R (list Z * bool) :=
  let! pre_sibling := call allocate_unlinked in
  let! parent := call (λ σ, fix_orphan_frame σ expected_pid) in
  let! p := latched parent in
  if BTreeNode.is_leaf p || BTreeNode.can_insert_inner p pending_separator_len then
    drop_page (Some pre_sibling) ;!
    R_ret (path, false)
  else
    let! r := split_node parent path None (Some pre_sibling) None in
    R_ret (r.1, true).

(** ** Finding the parent *)

(** [mark_published]. *)
Definition mark_published (right : SplitChild.t) : R unit :=
  if SplitChild.published right then R_ret tt else update (λ σ, finish_publication σ (SplitChild.pid right)).

Definition install_split_parent_hints (left right parent : Z) (edges : SplitParentEdges.t) (parent_count : Z) : R unit :=
  put_link left parent (ParentEdge.pos (SplitParentEdges.left edges) parent_count)
    (ParentEdge.is_upper (SplitParentEdges.left edges)) ;!
  put_link right parent (ParentEdge.pos (SplitParentEdges.right edges) parent_count)
    (ParentEdge.is_upper (SplitParentEdges.right edges)).

(** What follows when a parent with room is latched, in all four searches. *)
Definition publish_in_parent (parent : Z) (sep_key : list byte) (left : Z) (right : SplitChild.t) (edge : ParentEdge.t)
    : R unit :=
  let! p := latched parent in
  let! logs := get_logs in
  let! left_swip := get_hot_swip left in
  let! right_swip := get_hot_swip (SplitChild.pid right) in
  let! r := lift (apply_split_to_latched_parent (ExclusiveNode.new logs p) sep_key left_swip right_swip edge) in
  finish_node parent r.1 ;!
  mark_published right ;!
  install_split_parent_hints left (SplitChild.pid right) parent r.2 (num_slots (ExclusiveNode.page r.1)).

(** The edge of a latched parent, and whether there is room in it: the answer
    of a search when it has found the parent. [is_root] says whether the
    parent is taken for the root. *)
Definition publish_or_split (is_root : Z → R bool) (parent : Z) (p : page) (sep_key : list byte) (left : Z)
    (right : SplitChild.t) (path : list Z) (edge : ParentEdge.t) : R (list Z * bool) :=
  if negb (BTreeNode.can_insert_inner p (zlen sep_key)) then
    let! root := is_root parent in
    let! r := (if root : bool then split_full_root_after_release parent path
               else split_full_inner_after_release parent (zlen sep_key) path) in
    R_ret (r.1, false)
  else
    publish_in_parent parent sep_key left right edge ;!
    R_ret (path, true).

Definition is_root_now (pid : Z) : R bool := let! root := root_page_id in R_ret (root =? pid).

Definition try_publish_leaf_split_via_parent_path (sep_key : list byte) (left : Z) (right : SplitChild.t) (path : list Z)
    : R (list Z * bool) :=
  match path with
  | [] => R_ret ([], false)
  | parent :: path =>
      let! p := latched parent in
      let! child := get_child_ref left in
      let! o := lift (child_edge_for p child) in
      match o with
      | None => R_ret (path, false)
      | Some edge => publish_or_split is_root_now parent p sep_key left right path edge
      end
  end.

Definition try_publish_leaf_split_via_root_blocking (sep_key : list byte) (left : Z) (right : SplitChild.t) : R bool :=
  let! root := call fix_stable in
  let! p := latched root in
  let! child := get_child_ref left in
  let! o := lift (child_edge_for p child) in
  match o with
  | None => R_ret false
  | Some edge =>
      let! r := publish_or_split (λ _, R_ret true) root p sep_key left right [] edge in
      R_ret r.2
  end.

(** The children to visit next, in the order [child_pins] collects them. *)
Fixpoint pin_routes (left_pid : Z) (routes : list RoutedChildRef.t) : R (list Z) :=
  match routes with
  | [] => R_ret []
  | route :: routes =>
      let! pinned :=
        (if RoutedChildRef.is_resident route then
           let! o := try_pin_resident route in
           R_ret (match o with
                  | Some child => if child =? left_pid then [] else [child]
                  | None => []
                  end)
         else
           let! pid := lift (RoutedChildRef.evicted_page_id route) in
           R_ret []) in
      let! rest := pin_routes left_pid routes in
      R_ret (pinned ++ rest)
  end.

Fixpoint nonblocking_loop (fuel : nat) (sep_key : list byte) (left : Z) (right : SplitChild.t) (stack : list Z) : R bool :=
  match fuel with
  | O => λ _, Panic
  | S fuel =>
      match stack with
      | [] => R_ret false
      | cur :: stack =>
          let! o := call (λ σ, optimistic σ cur) in
          match o with
          | None => nonblocking_loop fuel sep_key left right stack
          | Some b =>
              if BTreeNode.is_leaf b then nonblocking_loop fuel sep_key left right stack else
              let! ok := call (λ σ, try_upgrade_to_exclusive σ cur b) in
              if negb ok then nonblocking_loop fuel sep_key left right stack else
              let! p := latched cur in
              let! child := get_child_ref left in
              let! o := lift (child_edge_for p child) in
              match o with
              | Some edge =>
                  let! r := publish_or_split is_root_now cur p sep_key left right [] edge in
                  R_ret r.2
              | None =>
                  let! logs := get_logs in
                  let! routes := lift (ExclusiveNode.child_routes (ExclusiveNode.new logs p)) in
                  let! pins := pin_routes left (reverse routes) in
                  nonblocking_loop fuel sep_key left right (reverse pins ++ stack)
              end
          end
      end
  end.

Definition try_publish_leaf_split_via_nonblocking_search (fuel : nat) (sep_key : list byte) (left : Z) (right : SplitChild.t)
    : R bool :=
  let! root := call fix_stable in
  nonblocking_loop fuel sep_key left right [root].

Fixpoint blocking_loop (fuel : nat) (root_pid : Z) (sep_key : list byte) (left : Z) (right : SplitChild.t) (stack : list Z)
    : R bool :=
  match fuel with
  | O => λ _, Panic
  | S fuel =>
      match stack with
      | [] => R_ret false
      | pid :: stack =>
          if pid =? left then blocking_loop fuel root_pid sep_key left right stack else
          let! cur := call (λ σ, fix_orphan_frame σ pid) in
          let! p := latched cur in
          if BTreeNode.is_leaf p then blocking_loop fuel root_pid sep_key left right stack else
          let! child := get_child_ref left in
          let! o := lift (child_edge_for p child) in
          match o with
          | Some edge =>
              let! r := publish_or_split (λ pid, R_ret (pid =? root_pid)) cur p sep_key left right [] edge in
              R_ret r.2
          | None =>
              let! logs := get_logs in
              let! heap := call (λ σ, (σ, frames_of σ)) in
              let! ids := lift (ExclusiveNode.child_page_ids heap (ExclusiveNode.new logs p)) in
              blocking_loop fuel root_pid sep_key left right (ids ++ stack)
          end
      end
  end.

Definition try_publish_leaf_split_via_blocking_search (fuel : nat) (sep_key : list byte) (left : Z) (right : SplitChild.t)
    : R bool :=
  let! root_pid := root_page_id in
  blocking_loop fuel root_pid sep_key left right [root_pid].

End publish.

(** [search] bounds the nodes a search visits; [attempts] are those made.
    When the source gives up it panics. *)
Fixpoint publish_leaf_split_to_parent (fuel search : nat) (attempts : Z) (sep_key : list byte) (left : Z)
    (right : SplitChild.t) (path : list Z) : R (list Z) :=
  match fuel with
  | O => λ _, Panic
  | S fuel =>
      let publish := publish_leaf_split_to_parent fuel search 0 in
      let attempts := attempts + 1 in
      let! r := (if attempts =? 1 then try_publish_leaf_split_via_parent_path publish sep_key left right path
                 else R_ret (path, false)) in
      if r.2 then R_ret r.1 else
      let path := r.1 in
      let! ok := try_publish_leaf_split_via_root_blocking publish sep_key left right in
      if ok then R_ret path else
      let! ok := try_publish_leaf_split_via_nonblocking_search publish search sep_key left right in
      if ok then R_ret path else
      let! ok := try_publish_leaf_split_via_blocking_search publish search sep_key left right in
      if ok then R_ret path else
      if PUBLISH_ATTEMPTS_MAX <=? attempts then λ _, Panic else
      publish_leaf_split_to_parent fuel search attempts sep_key left right path
  end.

(** ** Insertion *)

(** What [try_insert_leaf] and [try_upsert_leaf] answer, as the result of the
    operation. *)
Inductive LeafWrite := Wrote (result : bool) | NeedsSplit.

Definition insert_leaf (leaf : Z) (key value : list byte) : R LeafWrite :=
  let! p := latched leaf in
  let! logs := get_logs in
  let! r := lift (try_insert_leaf (ExclusiveNode.new logs p) key value) in
  match r.2 with
  | ReturnFalse => R_ret (Wrote false)
  | Inserted => put_page leaf (ExclusiveNode.page r.1.1) ;! put_dirty leaf r.1.2 ;! R_ret (Wrote true)
  | SplitRequired => R_ret NeedsSplit
  end.

Definition upsert_leaf (leaf : Z) (key value : list byte) : R LeafWrite :=
  let! p := latched leaf in
  let! logs := get_logs in
  let! r := lift (try_upsert_leaf (ExclusiveNode.new logs p) key value) in
  match r.2 with
  | UpdatedExisting => put_page leaf (ExclusiveNode.page r.1.1) ;! put_dirty leaf r.1.2 ;! R_ret (Wrote false)
  | UpsertInserted => put_page leaf (ExclusiveNode.page r.1.1) ;! put_dirty leaf r.1.2 ;! R_ret (Wrote true)
  | UpsertSplitRequired => R_ret NeedsSplit
  end.

Definition find_leaf_to_write (fuel attempts : nat) (key : list byte) : R Z :=
  if bool_decide (WRITE_BLOCKING_FALLBACK_THRESHOLD ≤ attempts)%nat then find_leaf_exclusive_fallback fuel key
  else if bool_decide (WRITE_FIXED_ROOT_THRESHOLD ≤ attempts)%nat then find_leaf_exclusive_from_fixed_root fuel key
  else find_leaf_exclusive fuel key.

Definition find_path_to_write (fuel attempts : nat) (key : list byte) : R (list Z * Z) :=
  if bool_decide (WRITE_BLOCKING_FALLBACK_THRESHOLD ≤ attempts)%nat then find_leaf_exclusive_with_path_fallback fuel key
  else find_leaf_exclusive_with_path fuel key.

(** The loop of [insert] and [upsert], which differ in [act]; [fuel] bounds
    its turns, [steps] those of a descent, [depth] and [search] the
    publication of a split. *)
Fixpoint write_loop (act : Z → list byte → list byte → R LeafWrite) (steps depth search : nat)
    (fuel attempts : nat) (key value : list byte) : R bool :=
  match fuel with
  | O => λ _, Panic
  | S fuel =>
      let again := write_loop act steps depth search fuel in
      let! o := attempt (find_leaf_to_write steps attempts key) in
      match o with
      | None => again (S attempts) key value
      | Some leaf =>
          let! w := act leaf key value in
          match w with
          | Wrote result => R_ret result
          | NeedsSplit =>
              let! p := latched leaf in
              if negb (BTreeNode.is_leaf p) then again (S attempts) key value else
              let! chase := lift (ResidentFrame.should_chase_right p key) in
              if chase then again (S attempts) key value else
              let! w := act leaf key value in
              match w with
              | Wrote result => R_ret result
              | NeedsSplit =>
                  let! pre_sibling := call allocate_unlinked in
                  let! root := root_page_id in
                  let! pre_root_child :=
                    (if leaf =? root then let! pid := call allocate_unlinked in R_ret (Some pid) else R_ret None) in
                  let! o := attempt (find_path_to_write steps attempts key) in
                  match o with
                  | None =>
                      drop_page (Some pre_sibling) ;!
                      drop_page pre_root_child ;!
                      again (S attempts) key value
                  | Some (path, leaf) =>
                      let! w := act leaf key value in
                      match w with
                      | Wrote result =>
                          drop_page (Some pre_sibling) ;!
                          drop_page pre_root_child ;!
                          R_ret result
                      | NeedsSplit =>
                          let! r := split_node (publish_leaf_split_to_parent depth search 0) leaf path
                                      (Some {| PendingLeafEntry.key := key; PendingLeafEntry.value := value |})
                                      (Some pre_sibling) pre_root_child in
                          if r.2 : bool then R_ret true else again attempts key value
                      end
                  end
              end
          end
      end
  end.

Definition insert (steps depth search fuel : nat) (key value : list byte) : R bool :=
  write_loop insert_leaf steps depth search fuel 0 key value.
Definition upsert (steps depth search fuel : nat) (key value : list byte) : R bool :=
  write_loop upsert_leaf steps depth search fuel 0 key value.

End write.
