(* ===== verification/BTreeRemove.v ===== *)
(** * B-tree: removal

    Models [remove] of [src/crates/btree/src/btree.rs] with the merging of
    underfull nodes along the path, the collapse of the root and the repair
    of separators. The pages of merged nodes are computed by the functions on
    pages; here they are read from and written to the pool. *)

From S2P Require Import Prelude Bytes FrameKernel SwipKernel PageHeader PageMutation Slotted BufferFrame BTreeNode BTreePages BTreeMerge BTreePool BTreeRead BTreeWrite.
#[local] Open Scope Z_scope.
Import SlottedHeader SlottedPage.

Section remove.
Context `{Build} `{PoolOps} `{!WriteOps} (self : BTree.t).
#[local] Open Scope restart_scope.

Definition try_pin_exclusive_resident_child (w : Z) : R (option Z) :=
  let! o := (if SwipWord.is_hot w || SwipWord.is_cool w then try_pin_resident_child w
             else let! pid := lift (SwipWord.as_page_id w) in call (λ σ, try_fix_orphan_frame σ pid)) in
  match o with
  | None => R_ret None
  | Some child =>
      let! ok := call (λ σ, try_exclusive σ child) in
      R_ret (if ok then Some child else None)
  end.

(** What every [unlink_merged_*] does to the frames: the back link of the
    merged child, by an edge of the changed parent, and that of the removed one. *)
Definition relink_merged (parent : Z) (nd : ExclusiveNode.t) (merged removed : Z) (edge : ParentEdge.t) : R unit :=
  put_page parent (ExclusiveNode.page nd) ;!
  put_link self merged parent (ParentEdge.pos edge (num_slots (ExclusiveNode.page nd))) (ParentEdge.is_upper edge) ;!
  update (λ σ, clear_parent_link σ removed) ;!
  update (λ σ, add_reachable_pages σ (-1)).

(** [collapse_empty_root_to_child], and the mark that follows it. *)
Definition collapse_root (root child : Z) : R unit :=
  let! p := latched child in
  let! heap := call (λ σ, (σ, frames_of σ)) in
  let! p := lift (collapse_empty_root_to_child heap p) in
  put_page root p ;!
  update (λ σ, clear_parent_link σ child) ;!
  update (λ σ, add_height σ (-1)) ;!
  update (λ σ, add_reachable_pages σ (-1)) ;!
  put_dirty root ExclusiveNode.MarkDirty.

(** The end of a merge: the root collapses, or the parent merges in turn with
    [merge_parent], or is done. *)
Definition after_merge (parent : Z) (nd : ExclusiveNode.t) (merged : Z) (merge_parent : R unit) : R unit :=
  let! root := root_page_id in
  let parent_is_root := root =? parent in
  if parent_is_root && (num_slots (ExclusiveNode.page nd) =? 0) then collapse_root parent merged
  else
    put_dirty parent (ExclusiveNode.finish_mutation nd).2 ;!
    if negb parent_is_root && BTreeNode.is_underfull (ExclusiveNode.page nd) then merge_parent else R_ret tt.

(** ** Inner nodes *)

(** The merge of [right] into [left], when both fit. *)
Definition merge_inner_pair (left_pid right_pid : Z) (boundary_key : list byte) : R bool :=
  let! lp := latched left_pid in
  let! rp := latched right_pid in
  let! fits := lift (inner_pair_fits lp boundary_key rp) in
  if negb fits then R_ret false else
  let! logs := get_logs in
  let! r := lift (merge_inner_pages_into_left (ExclusiveNode.new logs lp) boundary_key rp) in
  put_page left_pid (ExclusiveNode.page r.1) ;!
  refresh_inner_child_parent_links_for_frame self left_pid ;!
  put_dirty left_pid r.2 ;!
  R_ret true.

(** The [bool] says that the node was merged; the path is what is left of it. *)
Fixpoint try_merge_inner_with_path (path : list Z) (node : Z) : R (list Z * bool) :=
  match path with
  | [] => R_ret ([], false)
  | parent :: path =>
      let! pp := latched parent in
      if BTreeNode.is_leaf pp then R_ret (path, false) else
      let! child := get_child_ref node in
      let! o := lift (child_edge_for pp child) in
      match o with
      | None => R_ret (path, false)
      | Some edge =>
          let count := num_slots pp in
          let pos := ParentEdge.pos edge count in
          let! logs := get_logs in
          let nd := ExclusiveNode.new logs pp in
          let merge_parent := (let! _ := try_merge_inner_with_path path parent in R_ret tt) in
          (** With the right sibling. *)
          let! done :=
            (if pos <? count then
               let! next := lift (uadd 16 pos 1) in
               let right_edge := ParentEdge.from_pos next count in
               let! w := lift (ExclusiveNode.child_edge_swip nd right_edge) in
               let! o := try_pin_exclusive_resident_child w in
               match o with
               | None => R_ret (Some false)
               | Some right_pid =>
                   let! boundary_key := lift (get_key pp pos) in
                   let! ok := merge_inner_pair node right_pid boundary_key in
                   if negb ok then R_ret None else
                   let! swip := get_hot_swip node in
                   let! r := (if ParentEdge.is_upper right_edge
                              then lift (unlink_merged_right_inner nd swip ParentEdge.Upper pos)
                              else let! k := lift (get_key pp next) in
                                   lift (unlink_merged_left_inner nd swip pos next (Some k))) in
                   relink_merged parent r.1 node right_pid r.2 ;!
                   after_merge parent r.1 node merge_parent ;!
                   R_ret (Some true)
               end
             else R_ret None) in
          match done with
          | Some merged => R_ret (path, merged)
          | None =>
              (** With the left sibling. *)
              if negb (0 <? pos) then R_ret (path, false) else
              let left_pos := pos - 1 in
              let! w := lift (ExclusiveNode.child_edge_swip nd (ParentEdge.Slot left_pos)) in
              let! o := try_pin_exclusive_resident_child w in
              match o with
              | None => R_ret (path, false)
              | Some left_pid =>
                  let! boundary_key := lift (get_key pp left_pos) in
                  let! ok := merge_inner_pair left_pid node boundary_key in
                  if negb ok then R_ret (path, false) else
                  let! swip := get_hot_swip left_pid in
                  let! r := (if pos =? count then lift (unlink_merged_left_inner nd swip left_pos left_pos None)
                             else let! k := lift (get_key pp pos) in
                                  lift (unlink_merged_left_inner nd swip left_pos pos (Some k))) in
                  relink_merged parent r.1 left_pid node r.2 ;!
                  after_merge parent r.1 left_pid merge_parent ;!
                  R_ret (path, true)
              end
          end
      end
  end.

(** ** Leaves *)

(** The merge of [right] into [left] when they are neighbours and fit. *)
Definition merge_leaf_pair (parent left_pid right_pid left_pos : Z) : R bool :=
  let! pp := latched parent in
  let! lp := latched left_pid in
  let! rp := latched right_pid in
  let! logs := get_logs in
  let! lref := get_child_ref left_pid in
  let! rref := get_child_ref right_pid in
  let! mergeable := lift (leaf_pair_is_mergeable (ExclusiveNode.new logs pp) (ExclusiveNode.new logs lp)
                            (ExclusiveNode.new logs rp) lref rref left_pos) in
  if negb mergeable then R_ret false else
  let! fits := lift (leaf_pair_fits lp rp) in
  if negb fits then R_ret false else
  let! r := lift (merge_leaf_pages_into_left (ExclusiveNode.new logs lp) rp) in
  if negb r.2 then R_ret false else
  put_page left_pid (ExclusiveNode.page r.1.1) ;!
  put_dirty left_pid r.1.2 ;!
  R_ret true.

Definition try_merge_leaf_with_path (path : list Z) (leaf : Z) : R (list Z * bool) :=
  match path with
  | [] => R_ret ([], false)
  | parent :: path =>
      let! pp := latched parent in
      if BTreeNode.is_leaf pp then R_ret (path, false) else
      let! child := get_child_ref leaf in
      let! o := lift (child_edge_for pp child) in
      match o with
      | None => R_ret (path, false)
      | Some edge =>
          let count := num_slots pp in
          let pos := ParentEdge.pos edge count in
          let! logs := get_logs in
          let nd := ExclusiveNode.new logs pp in
          let merge_parent := (let! _ := try_merge_inner_with_path path parent in R_ret tt) in
          (** With the right sibling. *)
          let! done :=
            (if pos <? count then
               let! next := lift (uadd 16 pos 1) in
               let right_edge := ParentEdge.from_pos next count in
               let! w := lift (ExclusiveNode.child_edge_swip nd right_edge) in
               let! o := try_pin_exclusive_resident_child w in
               match o with
               | None => R_ret (Some false)
               | Some right_pid =>
                   let! rp := latched right_pid in
                   let successor_pid := BTreeNode.leaf_right_pid rp in
                   let! ok := merge_leaf_pair parent leaf right_pid pos in
                   if negb ok then R_ret None else
                   let! swip := get_hot_swip leaf in
                   let! lp := latched leaf in
                   let! r := lift (unlink_merged_right_leaf nd lp swip right_edge pos) in
                   relink_merged parent r.1 leaf right_pid r.2 ;!
                   after_merge parent r.1 leaf merge_parent ;!
                   update_leaf_left_sibling successor_pid leaf ;!
                   R_ret (Some true)
               end
             else R_ret None) in
          match done with
          | Some merged => R_ret (path, merged)
          | None =>
              (** With the left sibling. *)
              if negb (0 <? pos) then R_ret (path, false) else
              let left_pos := pos - 1 in
              let! w := lift (ExclusiveNode.child_edge_swip nd (ParentEdge.Slot left_pos)) in
              let! o := try_pin_exclusive_resident_child w in
              match o with
              | None => R_ret (path, false)
              | Some left_pid =>
                  let! rp := latched leaf in
                  let successor_pid := BTreeNode.leaf_right_pid rp in
                  let! ok := merge_leaf_pair parent left_pid leaf left_pos in
                  if negb ok then R_ret (path, false) else
                  let! swip := get_hot_swip left_pid in
                  let! lp := latched left_pid in
                  let! replacement_key :=
                    (if pos =? count then R_ret None else let! k := lift (get_key pp pos) in R_ret (Some k)) in
                  let! r := lift (unlink_merged_left_leaf nd lp swip left_pos (if pos =? count then left_pos else pos)
                                    replacement_key) in
                  relink_merged parent r.1 left_pid leaf r.2 ;!
                  update (λ σ, clear_parent_link σ leaf) ;!
                  after_merge parent r.1 left_pid merge_parent ;!
                  update_leaf_left_sibling successor_pid left_pid ;!
                  R_ret (path, true)
              end
          end
      end
  end.

(** ** Separators *)

Fixpoint repair_separators_after_delete (path : list Z) (child : Z) (new_max : option (list byte)) : R unit :=
  match path with
  | [] => R_ret tt
  | parent :: path =>
      let! p := latched parent in
      let! logs := get_logs in
      let! ref := get_child_ref child in
      let! r := lift (repair_separator (ExclusiveNode.new logs p) ref new_max) in
      put_page parent (ExclusiveNode.page r.1.1) ;!
      put_dirty parent r.1.2 ;!
      if r.2 : bool then repair_separators_after_delete path parent new_max else R_ret tt
  end.

Definition rebalance_delete_path (path : list Z) (leaf : Z) (deleted_was_max : bool) (new_max : option (list byte))
    (should_merge : bool) : R unit :=
  let! r := (if should_merge then try_merge_leaf_with_path path leaf else R_ret (path, false)) in
  if deleted_was_max && negb r.2 then repair_separators_after_delete r.1 leaf new_max else R_ret tt.

(** ** [remove] *)

Definition remove_from_leaf (path : list Z) (leaf : Z) (key : list byte) : R bool :=
  let! p := latched leaf in
  let! r := lift (lower_bound p key) in
  let '(pos, exact) := r in
  if negb exact then R_ret false else
  let! next := lift (uadd 16 pos 1) in
  let deleted_was_max := next =? num_slots p in
  let! logs := get_logs in
  let! nd := lift (ExclusiveNode.remove_slot (ExclusiveNode.new logs p) pos) in
  finish_node leaf nd ;!
  let! p := latched leaf in
  let! new_max := (if deleted_was_max && (0 <? num_slots p)
                   then let! k := lift (get_key p (num_slots p - 1)) in R_ret (Some k) else R_ret None) in
  let should_merge := BTreeNode.is_underfull p in
  rebalance_delete_path path leaf deleted_was_max new_max should_merge ;!
  R_ret true.

Fixpoint remove_loop (steps fuel attempts : nat) (key : list byte) : R bool :=
  match fuel with
  | O => λ _, Panic
  | S fuel =>
      let! o := attempt (find_path_to_write self steps attempts key) in
      match o with
      | None => remove_loop steps fuel (S attempts) key
      | Some (path, leaf) => remove_from_leaf path leaf key
      end
  end.

Definition remove (steps fuel : nat) (key : list byte) : R bool := remove_loop steps fuel 0 key.

End remove.
