(* ===== verification/BTreeTree.v ===== *)
(** * B-tree: the tree its nodes form, and the map it represents

    A tree is a set of nodes by page identifier. Its leaves, from left to
    right, form a chain with sorted keys; a separator of an inner node bounds
    the keys of the subtrees left of it. Separators need not be sorted and
    need not bound the subtrees right of them: a search that arrives too far
    left goes on along the chain. *)

From S2P Require Import Prelude Bytes FrameKernel SwipKernel PageHeader PageMutation Slotted SlottedInv SlottedOps SlottedSearch SlottedMutation SlottedSpec BufferFrame BTreeNode BTreeNodeInv BTreePages BTreeSplitSpec BTreeInnerSpec BTreeRoute BTreePool.
#[local] Open Scope Z_scope.
Import SlottedHeader SlottedPage.

(** A leaf of the chain: its page and its entries. *)
Notation leaf := (Z * list entry)%type (only parsing).

Definition entries_of (ls : list leaf) : list entry := concat ls.*2.

(** The [i]th separator bounds the first [i] subtrees from above, strictly
    but for the [i]th. *)
Definition bounded (ks : list (list byte)) (lss : list (list leaf)) : Prop :=
  ∀ (i j : nat) k ls e, ks !! j = Some k → lss !! i = Some ls → e ∈ entries_of ls → (i ≤ j)%nat →
    ¬ key_lt k e.1 ∧ ((i < j)%nat → e.1 ≠ k).

Fixpoint subtree (V : gmap Z node_view) (h : nat) (pid : Z) (ls : list leaf) : Prop :=
  match h with
  | O => ∃ l r es, V !! pid = Some (LeafView l r es) ∧ ls = [(pid, es)]
  | S h => ∃ ks cps lss, V !! pid = Some (InnerView ks cps) ∧ length cps = S (length ks) ∧
      Forall2 (subtree V h) cps lss ∧ ls = concat lss ∧ bounded ks lss
  end.

(** The page of a leaf at a position of the chain, 0 beyond its ends. *)
Definition pid_at (ls : list leaf) (i : nat) : Z := default 0 (fst <$> ls !! i).

Definition chained (V : gmap Z node_view) (ls : list leaf) : Prop :=
  ∀ (i : nat) pid es, ls !! i = Some (pid, es) → pid ≠ 0 ∧
    V !! pid = Some (LeafView (match i with O => 0 | S i => pid_at ls i end) (pid_at ls (S i)) es).

Record tree (V : gmap Z node_view) (root : Z) (h : nat) (ls : list leaf) (m : gmap (list byte) (list byte)) : Prop := {
  tree_nodes : subtree V h root ls;
  tree_chain : chained V ls;
  tree_sorted : keys_sorted (entries_of ls);
  tree_map : m = contents (entries_of ls);
}.

(** ** The chain *)

Lemma entries_of_app ls1 ls2 : entries_of (ls1 ++ ls2) = entries_of ls1 ++ entries_of ls2.
Proof. unfold entries_of. by rewrite fmap_app, concat_app. Qed.

Lemma entries_of_cons pid es ls : entries_of ((pid, es) :: ls) = es ++ entries_of ls.
Proof. done. Qed.

Lemma pid_at_next pre pid es ls : pid_at (pre ++ (pid, es) :: ls) (S (length pre)) = pid_at ls 0.
Proof.
  unfold pid_at. rewrite lookup_app_r by lia. replace (S (length pre) - length pre)%nat with 1%nat by lia. done.
Qed.

(** ** Where a search for a key may be

    [toward V ls key h pre pid]: the node [pid] is part of the tree, at height
    [h], and the entries of the leaves [pre] left of its leftmost one are
    below the key. *)
Definition below (key : list byte) (es : list entry) : Prop := Forall (λ e, key_lt e.1 key) es.

Definition toward (V : gmap Z node_view) (ls : list leaf) (key : list byte) (h : nat) (pre : list leaf) (pid : Z) : Prop :=
  ∃ sub post, subtree V h pid sub ∧ ls = pre ++ sub ++ post ∧ below key (entries_of pre).

Lemma key_le_lt k a key : ¬ key_lt k a → key_lt k key → key_lt a key.
Proof.
  intros Hle Hlt. destruct (slice_cmp k a) eqn:E; [apply slice_cmp_eq in E; by subst|done|].
  apply slice_cmp_gt in E. by transitivity k.
Qed.

Lemma key_le_ne k a : ¬ key_lt k a → a ≠ k → key_lt a k.
Proof.
  intros Hle Hne. destruct (slice_cmp k a) eqn:E; [apply slice_cmp_eq in E; by subst|done|by apply slice_cmp_gt].
Qed.

Lemma below_not key es : below key es → key ∉ es.*1.
Proof. intros Hb (e & -> & He)%list_elem_of_fmap. unfold below in Hb. rewrite Forall_forall in Hb. by apply (key_lt_irrefl e.1), Hb. Qed.

Section search.
Context (V : gmap Z node_view) (root : Z) (h0 : nat) (ls : list leaf) (m : gmap (list byte) (list byte)).
Context (T : tree V root h0 ls m) (key : list byte).

Lemma toward_root : toward V ls key h0 [] root.
Proof. exists ls, []. split_and!; [apply T|by rewrite app_nil_r|constructor]. Qed.

(** Nodes below one are in the tree. *)
Lemma subtree_node h pid sub : subtree V h pid sub → is_Some (V !! pid).
Proof. destruct h; [by intros (? & ? & ? & -> & _)|by intros (? & ? & ? & -> & _)]. Qed.

Lemma toward_node h pre pid : toward V ls key h pre pid → is_Some (V !! pid).
Proof. intros (sub & post & Hs & _). by eapply subtree_node. Qed.

(** A node of the tree at height [S h] is an inner node. *)
Lemma toward_inner h pre pid :
  toward V ls key (S h) pre pid →
  ∃ ks cps, V !! pid = Some (InnerView ks cps) ∧ (∀ c, c ∈ cps → is_Some (V !! c)).
Proof.
  intros (sub & post & (ks & cps & lss & HV & _ & Hf & _) & _). exists ks, cps. split; [done|].
  intros c (i & Hi)%list_elem_of_lookup. destruct (Forall2_lookup_l _ _ _ _ _ Hf Hi) as (s & _ & Hs). by eapply subtree_node.
Qed.

(** Routing by a position that crosses the separators stays toward the key. *)
Lemma toward_child h pre pid ks cps (pos : nat) c :
  toward V ls key (S h) pre pid → V !! pid = Some (InnerView ks cps) → cps !! pos = Some c →
  (∀ k, ks !! pred pos = Some k → (0 < pos)%nat → key_lt k key ∨ ks !! pos = Some key) →
  ∃ pre', toward V ls key h (pre ++ pre') c.
Proof.
  intros (sub & post & (ks' & cps' & lss & HV & Hlen & Hsub & -> & Hb) & Hls & Habs) HV' Hc Hx.
  rewrite HV in HV'. injection HV' as -> ->.
  destruct (Forall2_lookup_l _ _ _ _ _ Hsub Hc) as (sub & Hs & Hsubc).
  exists (concat (take pos lss)), sub, (concat (drop (S pos) lss) ++ post). split_and!; [done| |].
  - rewrite Hls. rewrite <-(take_drop_middle _ _ _ Hs) at 1. rewrite concat_app. simpl. by rewrite <-!app_assoc.
  - unfold below. rewrite entries_of_app, Forall_app. split; [done|]. apply Forall_forall. intros e He.
    unfold entries_of in He.
    assert (∃ (i : nat) li, (i < pos)%nat ∧ lss !! i = Some li ∧ e ∈ entries_of li) as (i & li & Hi & Hli & Hei).
    { clear -He.
      apply list_elem_of_In, in_concat in He as (es & Hes & He).
      apply list_elem_of_In, list_elem_of_fmap in Hes as ([q es'] & -> & Hq).
      apply list_elem_of_In, in_concat in Hq as (li & Hli & Hq).
      apply list_elem_of_In, list_elem_of_lookup in Hli as (i & Hli).
      apply lookup_take_Some in Hli as [Hli Hi]. exists i, li. split_and!; [done|done|].
      unfold entries_of. apply list_elem_of_In, in_concat. exists es'. split; [|done].
      apply list_elem_of_In, list_elem_of_fmap. exists (q, es'). split; [done|by apply list_elem_of_In]. }
    assert (Hpp : (pred pos < length ks)%nat).
    { apply lookup_lt_Some in Hc. lia. }
    destruct (lookup_lt_is_Some_2 ks (pred pos) Hpp) as [k Hk].
    destruct (Hx k Hk) as [Hlt|Heq]; [lia| |].
    + destruct (Hb i (pred pos) k li e Hk Hli Hei) as [Hge _]; [lia|]. by eapply key_le_lt.
    + destruct (Hb i pos key li e Heq Hli Hei) as [Hge Hne]; [lia|]. apply key_le_ne; [done|]. apply Hne. lia.
Qed.

(** ** At a leaf *)

Lemma toward_leaf pre pid :
  toward V ls key 0 pre pid → ∃ l es post,
    ls = pre ++ (pid, es) :: post ∧ below key (entries_of pre) ∧
    V !! pid = Some (LeafView l (pid_at post 0) es).
Proof.
  intros (sub & post & (l & r & es & HV & ->) & Hls & Habs).
  destruct (tree_chain _ _ _ _ _ T (length pre) pid es) as [_ HV2].
  { rewrite Hls. apply list_lookup_middle. done. }
  rewrite Hls in HV2. simpl in HV2. rewrite pid_at_next in HV2. rewrite HV in HV2. injection HV2 as -> -> .
  eexists _, es, post. done.
Qed.

(** Going right keeps the search toward the key. *)
Lemma toward_right pre pid l r es :
  toward V ls key 0 pre pid → V !! pid = Some (LeafView l r es) → r ≠ 0 → below key es →
  toward V ls key 0 (pre ++ [(pid, es)]) r.
Proof.
  intros Ht HV Hr Hlt. destruct (toward_leaf pre pid Ht) as (l' & es' & post & Hls & Habs & HV').
  rewrite HV in HV'. injection HV' as <- -> <-. destruct post as [|[q es2] post]; [done|].
  exists [(q, es2)], post. split_and!.
  - destruct (tree_chain _ _ _ _ _ T (S (length pre)) q es2) as [_ HV2].
    { rewrite Hls, lookup_app_r by lia. by replace (S (length pre) - length pre)%nat with 1%nat by lia. }
    eexists _, _, es2. done.
  - rewrite Hls. by rewrite <-app_assoc.
  - unfold below. rewrite entries_of_app, Forall_app. split; [done|]. by rewrite entries_of_cons, app_nil_r.
Qed.

(** The leaf where the search stops has the answer. *)
Lemma toward_found pre pid l r es :
  toward V ls key 0 pre pid → V !! pid = Some (LeafView l r es) → ¬ (r ≠ 0 ∧ below key es) →
  m !! key = contents es !! key.
Proof.
  intros Ht HV Hstop. destruct (toward_leaf pre pid Ht) as (l' & es' & post & Hls & Habs & HV').
  rewrite HV in HV'. injection HV' as <- -> <-. rewrite (tree_map _ _ _ _ _ T), Hls, entries_of_app, entries_of_cons.
  pose proof (tree_sorted _ _ _ _ _ T) as Hs. rewrite Hls, entries_of_app, entries_of_cons in Hs.
  destruct (keys_sorted_app_inv _ _ Hs) as (_ & Hs2 & _). destruct (keys_sorted_app_inv _ _ Hs2) as (_ & _ & Hlr).
  assert (Hpost : key ∉ (entries_of post).*1).
  { intros (e & Ek & He)%list_elem_of_fmap. destruct post as [|[q es2] post]; [by apply not_elem_of_nil in He|].
    apply Hstop. split.
    - destruct (tree_chain _ _ _ _ _ T (S (length pre)) q es2) as [Hq _]; [|done].
      rewrite Hls, lookup_app_r by lia. by replace (S (length pre) - length pre)%nat with 1%nat by lia.
    - apply Forall_forall. intros x Hx. rewrite Ek. by apply Hlr. }
  apply below_not in Habs. unfold contents. rewrite !list_to_map_app, !lookup_union.
  rewrite (not_elem_of_list_to_map_1 _ _ Habs), (not_elem_of_list_to_map_1 _ _ Hpost).
  fold (contents es). by destruct (contents es !! key).
Qed.
End search.
