(* ===== verification/BTreeGrow.v ===== *)
(** * B-tree: a tree while it grows

    A tree seen level by level, each level a list of nodes from left to right
    with the leaves below them. While a split is not yet published, the new
    right sibling is in its level but below no parent: a map of pending
    splits gives, for the left half, the separator and the right half that
    its parent still has to learn. The steps of a split are then edits of one
    level: a node is divided, a pending right half gets its place in the
    parent, a root becomes two nodes below a new root. *)

From S2P Require Import Prelude Bytes FrameKernel SwipKernel PageHeader PageMutation Slotted SlottedInv SlottedOps SlottedSearch SlottedMutation SlottedSpec BufferFrame BTreeNode BTreeNodeInv BTreePages BTreeSplitSpec BTreeInnerSpec BTreeRoute BTreePool BTreeTree.
#[local] Open Scope Z_scope.
Import SlottedHeader SlottedPage.

(** A node and the leaves below it. *)
Notation cover := (Z * list leaf)%type (only parsing).
(** Separator and right half of a split, by its left half. *)
Notation pending := (gmap Z (list byte * Z)) (only parsing).

Definition base (ls : list leaf) : list cover := (λ f, (f.1, [f])) <$> ls.

(** [hangs D T H]: [H] are the nodes of the level [T] that parents know, each
    with the leaves of its pending right half. *)
Inductive hangs (D : pending) : list cover → list cover → Prop :=
| hangs_nil : hangs D [] []
| hangs_one x l T H : D !! x = None → hangs D T H → hangs D ((x, l) :: T) ((x, l) :: H)
| hangs_two x l1 sep r l2 T H :
    D !! x = Some (sep, r) → D !! r = None → (∀ e, e ∈ entries_of l1 → ¬ key_lt sep e.1) →
    hangs D T H → hangs D ((x, l1) :: (r, l2) :: T) ((x, l1 ++ l2) :: H).

(** A node over the nodes of [seg]. *)
Definition inner_over (V : gmap Z node_view) (t : cover) (seg : list cover) : Prop :=
  ∃ ks, V !! t.1 = Some (InnerView ks seg.*1) ∧ length seg = S (length ks) ∧ t.2 = concat seg.*2 ∧ bounded ks seg.*2.
Definition level (V : gmap Z node_view) (H T : list cover) : Prop :=
  ∃ segs, H = concat segs ∧ Forall2 (inner_over V) T segs.

Record tower (V : gmap Z node_view) (D : pending) (Ts : list (list cover)) (root : Z) (ls : list leaf) : Prop := {
  tw_base : Ts !! 0%nat = Some (base ls);
  tw_step : ∀ k T T', Ts !! k = Some T → Ts !! S k = Some T' → ∃ H, hangs D T H ∧ level V H T';
  tw_top : last Ts = Some [(root, ls)];
  tw_root : D !! root = None;
  tw_nodup : NoDup (concat Ts).*1;
}.

(** ** Covers *)

Lemma hangs_concat D T H : hangs D T H → concat T.*2 = concat H.*2.
Proof. induction 1 as [|x l T H ? _ IH|x l1 sep r l2 T H ? ? ? _ IH]; cbn in *; [done|by rewrite IH|by rewrite IH, app_assoc]. Qed.

Lemma inner_over_concat V T segs : Forall2 (inner_over V) T segs → concat T.*2 = concat (concat segs).*2.
Proof.
  induction 1 as [|t seg T segs (ks & _ & _ & Ht & _) _ IH]; [done|]. cbn. by rewrite Ht, IH, fmap_app, concat_app.
Qed.

Lemma base_concat ls : concat (base ls).*2 = ls.
Proof. unfold base. induction ls as [|f ls IH]; [done|]. cbn. by rewrite IH. Qed.
Lemma base_pids ls : (base ls).*1 = ls.*1.
Proof. unfold base. rewrite <-list_fmap_compose. by apply list_fmap_ext. Qed.

Lemma tower_covers V D Ts root ls : tower V D Ts root ls → ∀ k T, Ts !! k = Some T → concat T.*2 = ls.
Proof.
  intros W. induction k as [|k IH]; intros T HT.
  - rewrite (tw_base _ _ _ _ _ W) in HT. injection HT as <-. apply base_concat.
  - assert (is_Some (Ts !! k)) as [T0 HT0] by (apply lookup_lt_is_Some; apply lookup_lt_Some in HT; lia).
    destruct (tw_step _ _ _ _ _ W k T0 T HT0 HT) as (H & Hh & segs & -> & Hl).
    rewrite (inner_over_concat V T segs Hl), <-(hangs_concat _ _ _ Hh). by apply IH.
Qed.

(** Nodes that parents know are nodes of the level. *)
Lemma hangs_sub D T H : hangs D T H → H.*1 ⊆ T.*1.
Proof.
  induction 1 as [|x l T H ? _ IH|x l1 sep r l2 T H ? ? ? _ IH]; cbn; [done|set_solver|set_solver].
Qed.

Lemma hangs_same D T : (∀ x, x ∈ T.*1 → D !! x = None) → hangs D T T.
Proof.
  induction T as [|[x l] T IH]; intros HD; [constructor|]. constructor; [apply HD; cbn; left|]. apply IH. intros y Hy. apply HD. by right.
Qed.

Lemma hangs_same_inv D T H : hangs D T H → (∀ x, x ∈ T.*1 → D !! x = None) → H = T.
Proof.
  induction 1 as [|x l T H Hx _ IH|x l1 sep r l2 T H Hx ? ? _ IH]; intros HD; [done| |].
  - f_equal. apply IH. intros y Hy. apply HD. by right.
  - rewrite HD in Hx; [done|]. cbn. left.
Qed.

(** Changes of [D] elsewhere. *)
Lemma hangs_ext D D' T H : hangs D T H → (∀ x, x ∈ T.*1 → D' !! x = D !! x) → hangs D' T H.
Proof.
  induction 1 as [|x l T H ? _ IH|x l1 sep r l2 T H ? ? ? _ IH]; intros HD; [constructor| |].
  - constructor; [rewrite HD; [done|cbn; left]|]. apply IH. intros y Hy. apply HD. by right.
  - econstructor; [rewrite HD; [done|cbn; left]|rewrite HD; [done|cbn; right; left]|done|].
    apply IH. intros y Hy. apply HD. cbn. do 2 right. done.
Qed.

Lemma hangs_app D T1 H1 T2 H2 : hangs D T1 H1 → hangs D T2 H2 → hangs D (T1 ++ T2) (H1 ++ H2).
Proof. induction 1; intros H2'; cbn; [done|constructor; auto|econstructor; eauto]. Qed.

Lemma level_ext V V' H T : level V H T → (∀ x, x ∈ T.*1 → V' !! x = V !! x) → level V' H T.
Proof.
  intros (segs & -> & Hf) HV. exists segs. split; [done|].
  assert (HV' : ∀ t, t ∈ T → V' !! t.1 = V !! t.1) by (intros t Ht; by apply HV, list_elem_of_fmap_2). clear HV.
  induction Hf as [|t seg T segs (ks & Hv & Hr) _ IH]; [constructor|]. constructor.
  - exists ks. rewrite HV'; [done|left].
  - apply IH. intros t' Ht'. apply HV'. by right.
Qed.

(** ** Trees and towers *)

(** The nodes of one height, and everything below them. *)
Definition pile (V : gmap Z node_view) (D : pending) (Ts : list (list cover)) (ls : list leaf) (T : list cover) : Prop :=
  Ts !! 0%nat = Some (base ls) ∧ last Ts = Some T ∧
  ∀ k T T', Ts !! k = Some T → Ts !! S k = Some T' → ∃ H, hangs D T H ∧ level V H T'.

Lemma pile_grow V D Ts ls T H T' :
  pile V D Ts ls T → hangs D T H → level V H T' → pile V D (Ts ++ [T']) ls T'.
Proof.
  intros (H0 & Hl & Hs) Hh HL. split_and!.
  - rewrite lookup_app_l; [done|]. by apply lookup_lt_Some in H0.
  - by rewrite last_app.
  - intros k A B HA HB. rewrite last_lookup in Hl. pose proof (lookup_lt_Some _ _ _ Hl) as Hlen.
    assert (Hk : (S k < length Ts ∨ S k = length Ts)%nat) by (apply lookup_lt_Some in HB; rewrite length_app in HB; cbn in HB; lia).
    destruct Hk as [Hk|Hk].
    + rewrite lookup_app_l in HA, HB by lia. by eapply Hs.
    + rewrite lookup_app_l in HA by lia. rewrite lookup_app_r, Hk, Nat.sub_diag in HB by lia. injection HB as <-.
      replace (pred (length Ts)) with k in Hl by lia. rewrite HA in Hl. injection Hl as ->. by exists H.
Qed.

Lemma subtree_pile V h : ∀ cps lss, Forall2 (subtree V h) cps lss →
  ∃ Ts, length Ts = S h ∧ pile V ∅ Ts (concat lss) (zip cps lss).
Proof.
  induction h as [|h IH]; intros cps lss Hf.
  - exists [zip cps lss]. split; [done|]. split_and!; [|done|by intros [|k] ? ? ? ?].
    cbn. f_equal. induction Hf as [|c l cps lss (lf & r & es & _ & ->) _ IH]; [done|]. cbn. by rewrite IH.
  - assert (∃ segs, Forall2 (inner_over V) (zip cps lss) segs ∧ Forall2 (subtree V h) (concat segs).*1 (concat segs).*2)
      as (segs & Ho & Hsub).
    { induction Hf as [|c l cps lss (ks & cs & ll & HV & Hlen & Hff & -> & Hb) _ (segs & Ho & Hs)]; [by exists []|].
      assert (E1 : (zip cs ll).*1 = cs) by (rewrite fst_zip; [done|by rewrite (Forall2_length _ _ _ Hff)]).
      assert (E2 : (zip cs ll).*2 = ll) by (rewrite snd_zip; [done|by rewrite (Forall2_length _ _ _ Hff)]).
      exists (zip cs ll :: segs). split.
      - cbn. constructor; [|done]. exists ks. cbn [fst snd]. rewrite E1, E2. split_and!; [done| |done|done].
        rewrite length_zip_with_l_eq by (by rewrite (Forall2_length _ _ _ Hff)). done.
      - cbn. rewrite !fmap_app, E1, E2. by apply Forall2_app. }
    destruct (IH _ _ Hsub) as (Ts & Hlen & P).
    assert (zip (concat segs).*1 (concat segs).*2 = concat segs) as Ez by (rewrite zip_fst_snd; done).
    rewrite Ez in P. exists (Ts ++ [zip cps lss]). split; [rewrite length_app; cbn; lia|].
    assert (concat (concat segs).*2 = concat lss) as <-.
    { rewrite <-(inner_over_concat V _ _ Ho). by rewrite snd_zip by (by rewrite (Forall2_length _ _ _ Hf)). }
    eapply pile_grow; [exact P|by apply hangs_same|]. by exists segs.
Qed.

Lemma pile_subtree V Ts ls T :
  pile V ∅ Ts ls T → (∀ f, f ∈ ls → ∃ l r, V !! f.1 = Some (LeafView l r f.2)) →
  ∀ k A, Ts !! k = Some A → ∀ t, t ∈ A → subtree V k t.1 t.2.
Proof.
  intros (H0 & _ & Hs) Hls. induction k as [|k IH]; intros A HA t Ht.
  - rewrite H0 in HA. injection HA as <-. apply list_elem_of_fmap in Ht as (f & -> & Hf).
    destruct (Hls f Hf) as (l & r & HV). exists l, r, f.2. cbn. split; [done|by destruct f].
  - assert (is_Some (Ts !! k)) as [B HB] by (apply lookup_lt_is_Some; apply lookup_lt_Some in HA; lia).
    destruct (Hs k B A HB HA) as (H & Hh & segs & -> & Hf).
    assert (EH : concat segs = B) by (by eapply hangs_same_inv).
    apply list_elem_of_lookup in Ht as (i & Hi). destruct (Forall2_lookup_l _ _ _ _ _ Hf Hi) as (seg & Hseg & ks & HV & Hlen & Hc & Hb).
    exists ks, seg.*1, seg.*2. split_and!; [done|by rewrite length_fmap| |done|done].
    apply Forall2_fmap, Forall_Forall2_diag, Forall_forall. intros s Hsx. apply (IH B HB). rewrite <-EH.
    apply list_elem_of_lookup_2 in Hseg. apply list_elem_of_In, in_concat. exists seg. by rewrite <-!list_elem_of_In.
Qed.

(** ** One node, one place *)

Lemma subtree_nonempty V h : ∀ pid ls, subtree V h pid ls → ls ≠ [].
Proof.
  induction h as [|h IH]; intros pid ls; [by intros (? & ? & ? & _ & ->)|]. intros (ks & cps & lss & _ & Hlen & Hf & -> & _).
  destruct Hf as [|c l cps lss Hc _]; [done|]. cbn. intros [Hl _]%app_eq_nil. by eapply IH.
Qed.

Lemma subtree_det V h : ∀ h' pid ls ls', subtree V h pid ls → subtree V h' pid ls' → h = h' ∧ ls = ls'.
Proof.
  induction h as [|h IH]; intros [|h'] pid ls ls'.
  - intros (? & ? & ? & HV & ->) (? & ? & ? & HV' & ->). rewrite HV in HV'. by injection HV' as -> -> ->.
  - intros (? & ? & ? & HV & _) (? & ? & ? & HV' & _). by rewrite HV in HV'.
  - intros (? & ? & ? & HV & _) (? & ? & ? & HV' & _). by rewrite HV in HV'.
  - intros (ks & cps & lss & HV & Hlen & Hf & -> & _) (ks' & cps' & lss' & HV' & _ & Hf' & -> & _).
    rewrite HV in HV'. injection HV' as <- <-.
    assert (h = h') as <-.
    { destruct Hf as [|c l cps lss Hc _]; [done|]. inversion Hf' as [|? l' ? ? Hc']; subst. by destruct (IH _ _ _ _ Hc Hc'). }
    split; [done|]. f_equal. clear -IH Hf Hf'. revert lss' Hf'.
    induction Hf as [|c l cps lss Hc _ IHf]; intros lss' Hf'; inversion Hf' as [|? l' ? lss2 Hc' Hf2]; subst; [done|].
    destruct (IH _ _ _ _ Hc Hc') as [_ ->]. by rewrite (IHf lss2).
Qed.

Lemma NoDup_concat_disjoint {A} (ll : list (list A)) i j l l' x :
  NoDup (concat ll) → ll !! i = Some l → ll !! j = Some l' → x ∈ l → x ∈ l' → i = j.
Proof.
  revert i j. induction ll as [|a ll IH]; intros i j Hn Hi Hj Hx Hx'; [done|].
  cbn in Hn. apply NoDup_app in Hn as (_ & Hd & Hn).
  assert (Hin : ∀ k b, ll !! k = Some b → x ∈ b → x ∈ concat ll).
  { intros k b Hk Hb. apply list_elem_of_In, in_concat. exists b. rewrite <-!list_elem_of_In. split; [by eapply list_elem_of_lookup_2|done]. }
  destruct i as [|i], j as [|j]; cbn in *; [done| | |f_equal; by eapply IH].
  - injection Hi as ->. exfalso. by eapply Hd, Hin.
  - injection Hj as ->. exfalso. by eapply Hd, Hin.
Qed.

Lemma pile_nodup V Ts ls T :
  pile V ∅ Ts ls T → (∀ f, f ∈ ls → ∃ l r, V !! f.1 = Some (LeafView l r f.2)) → NoDup ls →
  (∀ k A, Ts !! k = Some A → concat A.*2 = ls) → NoDup (concat Ts).*1.
Proof.
  intros P Hls Hn Hcov. pose proof (pile_subtree V Ts ls T P Hls) as Hsub.
  assert (Hlev : ∀ k A, Ts !! k = Some A → NoDup A.*1).
  { intros k A HA. apply NoDup_alt. intros i j x Hi Hj. rewrite list_lookup_fmap in Hi, Hj.
    destruct (A !! i) as [t|] eqn:Ei; [|done]. destruct (A !! j) as [t'|] eqn:Ej; [|done]. cbn in Hi, Hj.
    injection Hi as <-. injection Hj as Hx.
    pose proof (Hsub k A HA t ltac:(by eapply list_elem_of_lookup_2)) as S1.
    pose proof (Hsub k A HA t' ltac:(by eapply list_elem_of_lookup_2)) as S2. rewrite Hx in S2.
    destruct (subtree_det _ _ _ _ _ _ S1 S2) as [_ El]. pose proof (subtree_nonempty _ _ _ _ S1) as Hne.
    destruct t.2 as [|f l] eqn:Et; [done|].
    eapply (NoDup_concat_disjoint A.*2 i j (f :: l) (f :: l) f); [by rewrite (Hcov k A HA)|..].
    - by rewrite list_lookup_fmap, Ei; cbn; rewrite Et.
    - rewrite list_lookup_fmap, Ej. cbn. by rewrite <-El.
    - left.
    - left. }
  assert (Hdis : ∀ k k' A A' x, Ts !! k = Some A → Ts !! k' = Some A' → x ∈ A.*1 → x ∈ A'.*1 → k = k').
  { intros k k' A A' x HA HA' (t & -> & Ht)%list_elem_of_fmap (t' & Hx & Ht')%list_elem_of_fmap.
    pose proof (Hsub k A HA t Ht) as S1. pose proof (Hsub k' A' HA' t' Ht') as S2. rewrite <-Hx in S2.
    by destruct (subtree_det _ _ _ _ _ _ S1 S2). }
  clear -Hlev Hdis. induction Ts as [|A Ts IH]; [constructor|]. cbn. rewrite fmap_app. apply NoDup_app. split_and!.
  - by apply (Hlev 0%nat).
  - intros x Hx (t & -> & Ht)%list_elem_of_fmap. apply list_elem_of_In, in_concat in Ht as (B & HB & Ht).
    rewrite <-list_elem_of_In in HB. rewrite <-list_elem_of_In in Ht. apply list_elem_of_lookup in HB as (k & Hk).
    specialize (Hdis 0%nat (S k) A B t.1 eq_refl Hk Hx). discriminate Hdis. by apply list_elem_of_fmap_2.
  - apply IH; [intros k B HB; by apply (Hlev (S k))|]. intros k k' B B' x HB HB' Hx Hx'.
    specialize (Hdis (S k) (S k') B B' x HB HB' Hx Hx'). lia.
Qed.

(** The links of the chain tell its leaves apart. *)
Lemma chained_positions V ls : chained V ls → ∀ i j pid es es',
  ls !! i = Some (pid, es) → ls !! j = Some (pid, es') → i = j.
Proof.
  intros Hc. assert (Hlt : ∀ i j pid es es', (i < j)%nat → ls !! i = Some (pid, es) → ls !! j = Some (pid, es') → False).
  { induction i as [|i IH]; intros [|j] pid es es' Hij Hi Hj; [lia| |lia|].
    - destruct (Hc _ _ _ Hi) as [_ HV]. destruct (Hc _ _ _ Hj) as [_ HV']. rewrite HV in HV'. injection HV' as E _ _.
      assert (is_Some (ls !! j)) as [[q es2] Hq] by (apply lookup_lt_is_Some; apply lookup_lt_Some in Hj; lia).
      unfold pid_at in E. rewrite Hq in E. cbn in E. destruct (Hc _ _ _ Hq) as [Hne _]. done.
    - destruct (Hc _ _ _ Hi) as [_ HV]. destruct (Hc _ _ _ Hj) as [_ HV']. rewrite HV in HV'. injection HV' as E _ _.
      assert (is_Some (ls !! j)) as [[q es2] Hq] by (apply lookup_lt_is_Some; apply lookup_lt_Some in Hj; lia).
      assert (is_Some (ls !! i)) as [[p es1] Hp] by (apply lookup_lt_is_Some; apply lookup_lt_Some in Hi; lia).
      unfold pid_at in E. rewrite Hq, Hp in E. cbn in E. subst. apply (IH j q es1 es2); [lia|done|done]. }
  intros i j pid es es' Hi Hj. destruct (Nat.lt_trichotomy i j) as [?|[?|?]]; [|done|]; exfalso; by eapply Hlt.
Qed.

Lemma chained_nodup V ls : chained V ls → NoDup ls.*1.
Proof.
  intros Hc. apply NoDup_alt. intros i j x Hi Hj. rewrite list_lookup_fmap in Hi, Hj.
  destruct (ls !! i) as [[p es]|] eqn:Ei; [|done]. destruct (ls !! j) as [[q es']|] eqn:Ej; [|done]. cbn in Hi, Hj.
  injection Hi as <-. injection Hj as ->. by eapply chained_positions.
Qed.

Lemma chained_view V ls f : chained V ls → f ∈ ls → ∃ l r, V !! f.1 = Some (LeafView l r f.2).
Proof.
  intros Hc (i & Hi)%list_elem_of_lookup. destruct f as [pid es]. destruct (Hc _ _ _ Hi) as [_ HV]. by eexists _, _.
Qed.

Lemma tower_of_subtree V h root ls :
  subtree V h root ls → chained V ls → ∃ Ts, length Ts = S h ∧ tower V ∅ Ts root ls.
Proof.
  intros Hs Hc. destruct (subtree_pile V h [root] [ls]) as (Ts & Hlen & P); [by repeat constructor|].
  cbn in P. rewrite app_nil_r in P. exists Ts. split; [done|]. destruct P as (H0 & Hl & Hst).
  assert (Hn : NoDup ls) by (eapply NoDup_fmap_1, chained_nodup, Hc).
  assert (Hcov : ∀ k A, Ts !! k = Some A → concat A.*2 = ls).
  { induction k as [|k IH]; intros A HA; [rewrite H0 in HA; injection HA as <-; apply base_concat|].
    assert (is_Some (Ts !! k)) as [B HB] by (apply lookup_lt_is_Some; apply lookup_lt_Some in HA; lia).
    destruct (Hst k B A HB HA) as (H & Hh & segs & -> & Hf).
    rewrite (inner_over_concat V _ _ Hf), <-(hangs_concat _ _ _ Hh). by apply IH. }
  constructor; [done|done|done|apply lookup_empty|].
  eapply pile_nodup; [by split_and!|by intros f Hf; eapply chained_view|done|done].
Qed.

Lemma subtree_of_tower V Ts root ls :
  tower V ∅ Ts root ls → chained V ls → subtree V (pred (length Ts)) root ls.
Proof.
  intros W Hc. pose proof (tw_top _ _ _ _ _ W) as Hl. rewrite last_lookup in Hl.
  apply (pile_subtree V Ts ls [(root, ls)]) with (k := pred (length Ts)) (A := [(root, ls)]) (t := (root, ls)).
  - split_and!; [apply W|apply W|apply W].
  - intros f Hf. by eapply chained_view.
  - done.
  - left.
Qed.

(** ** Leaves replaced in every cover *)

Definition repl (L : Z) (new : list leaf) (l : list leaf) : list leaf := l ≫= λ f, if decide (f.1 = L) then new else [f].
#[global] Arguments repl : simpl never.
Definition recovered (L : Z) (new : list leaf) (t : cover) : cover := (t.1, repl L new t.2).
Definition recovers (L : Z) (new : list leaf) (T : list cover) : list cover := recovered L new <$> T.

Lemma repl_app L new l1 l2 : repl L new (l1 ++ l2) = repl L new l1 ++ repl L new l2.
Proof. apply bind_app. Qed.
Lemma repl_concat L new ll : repl L new (concat ll) = concat (repl L new <$> ll).
Proof. induction ll as [|l ll IH]; [done|]. cbn. by rewrite repl_app, IH. Qed.
Lemma repl_cons L new f l : repl L new (f :: l) = (if decide (f.1 = L) then new else [f]) ++ repl L new l.
Proof. done. Qed.
Lemma repl_same L new l : L ∉ l.*1 → repl L new l = l.
Proof.
  induction l as [|[q es] l IH]; [done|]. cbn. intros [Hne Hn]%not_elem_of_cons. rewrite repl_cons, decide_False by done.
  cbn. f_equal. by apply IH.
Qed.
Lemma repl_middle L new pre es post :
  NoDup (pre ++ (L, es) :: post).*1 → repl L new (pre ++ (L, es) :: post) = pre ++ new ++ post.
Proof.
  rewrite fmap_app. cbn. intros (_ & Hd & [Hn _]%NoDup_cons)%NoDup_app. rewrite repl_app, repl_cons, decide_True by done.
  rewrite !repl_same; [done|done|]. intros Hin. apply (Hd L Hin). left.
Qed.

Lemma recover_pids L new (T : list cover) : (recovered L new <$> T).*1 = T.*1.
Proof. rewrite <-list_fmap_compose. by apply list_fmap_ext. Qed.
Lemma recover_covers L new (T : list cover) : (recovered L new <$> T).*2 = repl L new <$> T.*2.
Proof. by rewrite <-!list_fmap_compose. Qed.

Lemma elem_of_entries e ls : e ∈ entries_of ls ↔ ∃ f, f ∈ ls ∧ e ∈ f.2.
Proof.
  unfold entries_of. rewrite list_elem_of_In, in_concat. split.
  - intros (es & Hes & He). rewrite <-list_elem_of_In in Hes. rewrite <-list_elem_of_In in He.
    apply list_elem_of_fmap in Hes as (f & -> & Hf). by exists f.
  - intros (f & Hf & He). exists f.2. rewrite <-!list_elem_of_In. split; [|done]. by apply list_elem_of_fmap_2.
Qed.

Lemma elem_of_repl L new l e :
  e ∈ entries_of (repl L new l) → e ∈ entries_of l ∨ (L ∈ l.*1 ∧ e ∈ entries_of new).
Proof.
  rewrite !elem_of_entries. intros (f & Hf & He). apply list_elem_of_bind in Hf as (g & Hf & Hg).
  case_decide as HL.
  - right. split; [|by exists f]. rewrite <-HL. by apply list_elem_of_fmap_2.
  - apply list_elem_of_singleton in Hf as ->. left. by exists g.
Qed.

(** Every new entry is at most an old entry of the same leaf. *)
Definition dominated (new : list leaf) (es : list entry) : Prop :=
  ∀ e, e ∈ entries_of new → ∃ e0, e0 ∈ es ∧ ¬ key_lt e0.1 e.1.

Lemma bounded_repl L new es ks (lss : list (list leaf)) :
  (∀ i l, lss !! i = Some l → L ∈ l.*1 → (dominated new es ∧ (L, es) ∈ l) ∨ (length lss ≤ S i)%nat) →
  length lss = S (length ks) → bounded ks lss → bounded ks (repl L new <$> lss).
Proof.
  intros HL Hlen Hb i j k l e Hk Hl He Hij. rewrite list_lookup_fmap in Hl. destruct (lss !! i) as [l0|] eqn:Hl0; [|done].
  injection Hl as <-. destruct (elem_of_repl _ _ _ _ He) as [He0|[Hin Hnew]]; [by eapply Hb|].
  destruct (HL i l0 Hl0 Hin) as [[Hd Hes]|Hlast].
  - destruct (Hd e Hnew) as (e0 & He0 & Hle). destruct (Hb i j k l0 e0 Hk Hl0) as [Hge Hne]; [|done|].
    { apply elem_of_entries. by exists (L, es). }
    destruct (key_le_not_lt _ _ Hge) as [Ek|Hlt].
    + rewrite <-Ek in *. split; [|intros Hlt; by specialize (Hne Hlt)]. done.
    + assert (Hek : key_lt e.1 k). { by eapply key_le_lt. }
      split; [intros Hx; apply (irreflexivity key_lt k); by transitivity e.1|].
      intros _ Ee. rewrite Ee in Hek. by apply (irreflexivity key_lt k).
  - exfalso. apply lookup_lt_Some in Hk. lia.
Qed.

Lemma last_segment {A} (ll : list (list A)) i j l l' x :
  NoDup (concat ll) → last (concat ll) = Some x → ll !! i = Some l → x ∈ l → ll !! j = Some l' → l' ≠ [] → (j ≤ i)%nat.
Proof.
  intros Hn Hl Hi Hx Hj Hne. destruct (decide (j ≤ i)%nat) as [|Hlt]; [done|]. exfalso.
  assert (Hd : drop (S i) ll !! (j - S i)%nat = Some l') by (rewrite lookup_drop; by replace (S i + (j - S i))%nat with j by lia).
  assert (Hne2 : concat (drop (S i) ll) ≠ []).
  { intros E. apply list_elem_of_lookup_2, list_elem_of_In in Hd. destruct l' as [|y l']; [done|].
    assert (In y (concat (drop (S i) ll))) as Hy by (apply in_concat; exists (y :: l'); split; [done|by left]). by rewrite E in Hy. }
  rewrite <-(take_drop_middle ll i l Hi), concat_app in Hl, Hn. cbn in Hl, Hn. rewrite !last_app in Hl.
  destruct (last (concat (drop (S i) ll))) as [y|] eqn:Ey; [|by apply last_None in Ey]. injection Hl as ->.
  apply NoDup_app in Hn as (_ & _ & (_ & Hdis & _)%NoDup_app). apply (Hdis x Hx). by apply last_Some_elem_of.
Qed.

Definition covers_nonempty (T : list cover) : Prop := ∀ t, t ∈ T → t.2 ≠ [].

Lemma hangs_nonempty D T H : hangs D T H → covers_nonempty T → covers_nonempty H.
Proof.
  induction 1 as [|x l T H ? _ IH|x l1 sep r l2 T H ? ? ? _ IH]; intros HT t Ht; [by apply not_elem_of_nil in Ht| |].
  - apply elem_of_cons in Ht as [->|Ht]; [apply HT; left|]. apply IH; [|done]. intros t' ?. apply HT. by right.
  - apply elem_of_cons in Ht as [->|Ht]; [cbn; intros [E _]%app_eq_nil; by apply (HT (x, l1) ltac:(left))|].
    apply IH; [|done]. intros t' ?. apply HT. by do 2 right.
Qed.

Lemma concat_elem {A} (ll : list (list A)) l x : l ∈ ll → x ∈ l → x ∈ concat ll.
Proof. intros Hl Hx. apply list_elem_of_In, in_concat. exists l. by rewrite <-!list_elem_of_In. Qed.

Lemma level_nonempty V H T : level V H T → covers_nonempty H → covers_nonempty T.
Proof.
  intros (segs & -> & Hf) HH t (i & Hi)%list_elem_of_lookup. destruct (Forall2_lookup_l _ _ _ _ _ Hf Hi) as (seg & Hseg & ks & _ & Hlen & -> & _).
  destruct seg as [|s seg]; [done|]. cbn. intros [E _]%app_eq_nil. apply (HH s); [|done].
  eapply concat_elem; [by eapply list_elem_of_lookup_2|left].
Qed.

Lemma tower_nonempty V D Ts root ls : tower V D Ts root ls → ∀ k T, Ts !! k = Some T → covers_nonempty T.
Proof.
  intros W. induction k as [|k IH]; intros T HT.
  - rewrite (tw_base _ _ _ _ _ W) in HT. injection HT as <-. intros t (f & -> & _)%list_elem_of_fmap. done.
  - assert (is_Some (Ts !! k)) as [B HB] by (apply lookup_lt_is_Some; apply lookup_lt_Some in HT; lia).
    destruct (tw_step _ _ _ _ _ W k B T HB HT) as (H & Hh & HL). eapply level_nonempty; [done|]. eapply hangs_nonempty; [done|]. by apply (IH B).
Qed.

(** A level over covers in which a leaf is replaced. *)
Lemma level_recover V V' L new es H T ls :
  level V H T → (∀ x, x ∈ T.*1 → V' !! x = V !! x) → covers_nonempty H → concat H.*2 = ls → NoDup ls.*1 → (L, es) ∈ ls →
  dominated new es ∨ last ls = Some (L, es) → level V' (recovered L new <$> H) (recovered L new <$> T).
Proof.
  intros HL HV Hne Hls Hn Hin Hd. destruct (level_ext V V' H T HL HV) as (segs & -> & Hf). exists (fmap (M := list) (recovered L new) <$> segs).
  split; [clear; induction segs as [|s segs IH]; [done|]; cbn; by rewrite fmap_app, IH|].
  apply Forall2_fmap. eapply Forall2_same_length_lookup. split; [by eapply Forall2_length|]. intros i t seg Ht Hseg.
  destruct (Forall2_lookup_lr _ _ _ _ _ _ Hf Ht Hseg) as (ks & Hv & Hlen & Hc & Hb).
  exists ks. cbn [recovered fst snd]. rewrite recover_pids, recover_covers, length_fmap, Hc, repl_concat. split_and!; [done|done|done|].
  apply bounded_repl with (es := es); [|by rewrite length_fmap|done]. intros j l Hj HLl.
  rewrite list_lookup_fmap in Hj. destruct (seg !! j) as [s|] eqn:Ej; [|done]. injection Hj as <-.
  assert (Hes : (L, es) ∈ s.2).
  { apply list_elem_of_fmap in HLl as ([L' es'] & E & Hs2). cbn in E. subst L'.
    assert (Hin' : (L, es') ∈ ls).
    { rewrite <-Hls. eapply concat_elem; [|exact Hs2]. apply list_elem_of_fmap_2. eapply concat_elem; [by eapply list_elem_of_lookup_2|].
      by eapply list_elem_of_lookup_2. }
    apply list_elem_of_lookup in Hin as (a & Ha). apply list_elem_of_lookup in Hin' as (b & Hb').
    rewrite (NoDup_lookup _ a b L Hn) in Ha; [|by rewrite list_lookup_fmap, Ha|by rewrite list_lookup_fmap, Hb'].
    rewrite Ha in Hb'. by injection Hb' as ->. }
  destruct Hd as [Hd|Hlast]; [by left|right]. rewrite length_fmap. destruct (decide (length seg ≤ S j)%nat) as [|Hlt]; [done|]. exfalso.
  assert (is_Some (seg !! S j)) as [s' Es'] by (apply lookup_lt_is_Some; lia).
  assert (Esegs : concat segs = concat (take i segs) ++ seg ++ concat (drop (S i) segs)).
  { rewrite <-(take_drop_middle segs i seg Hseg) at 1. by rewrite concat_app. }
  assert (Hat : ∀ a b, seg !! a = Some b → (concat segs).*2 !! (length (concat (take i segs)) + a)%nat = Some b.2).
  { intros a b Hab. rewrite list_lookup_fmap, Esegs, lookup_app_r by lia.
    replace (length (concat (take i segs)) + a - length (concat (take i segs)))%nat with a by lia.
    rewrite lookup_app_l by (by apply lookup_lt_Some in Hab). by rewrite Hab. }
  pose proof (last_segment (concat segs).*2 _ _ _ s'.2 (L, es) ltac:(rewrite Hls; by eapply NoDup_fmap_1) ltac:(by rewrite Hls)
    (Hat j s Ej) Hes (Hat (S j) s' Es')) as Hle.
  assert (s'.2 ≠ []) as Hs'. { apply Hne. eapply concat_elem; by eapply list_elem_of_lookup_2. }
  specialize (Hle Hs'). lia.
Qed.


(** The leaves of a tower replaced; a pending split may begin there. *)
Lemma tower_leaves V V' D' Ts root ls L es new :
  tower V ∅ Ts root ls → NoDup ls.*1 → (L, es) ∈ ls → dominated new es ∨ last ls = Some (L, es) →
  (∀ x, x ∈ (concat (tail Ts)).*1 → V' !! x = V !! x ∧ D' !! x = None) → D' !! root = None →
  hangs D' (base (repl L new ls)) (recovered L new <$> base ls) →
  NoDup ((base (repl L new ls)).*1 ++ (concat (tail Ts)).*1) →
  (tail Ts = [] → base (repl L new ls) = [(root, repl L new ls)]) →
  tower V' D' (base (repl L new ls) :: (recovers L new <$> tail Ts)) root (repl L new ls).
Proof.
  intros W Hn Hin Hd HV HD Hh Hnd Htop. destruct Ts as [|B Tt]; [by destruct W|].
  pose proof (tw_base _ _ _ _ _ W) as HB. injection HB as ->. cbn [tail] in *. constructor.
  - done.
  - intros k T T' HT HT'. change ((recovers L new <$> Tt) !! k = Some T') in HT'. rewrite list_lookup_fmap in HT'. destruct (Tt !! k) as [T0'|] eqn:E'; [|done].
    injection HT' as <-.
    assert (∃ T0, (base ls :: Tt) !! k = Some T0 ∧ hangs D' T (recovered L new <$> T0)) as (T0 & E0 & Hh0).
    { destruct k as [|k]; [injection HT as <-; by exists (base ls)|]. change ((recovers L new <$> Tt) !! k = Some T) in HT. rewrite list_lookup_fmap in HT.
      destruct (Tt !! k) as [T0|] eqn:E0; [|done]. injection HT as <-. exists T0. split; [done|].
      apply hangs_same. intros x Hx. unfold recovers in Hx. rewrite recover_pids in Hx. apply (HV x).
      apply list_elem_of_fmap in Hx as (t & -> & Ht). apply list_elem_of_fmap_2.
      apply (concat_elem Tt T0); [by eapply list_elem_of_lookup_2|done]. }
    destruct (tw_step _ _ _ _ _ W k T0 T0' E0 E') as (H & HhH & HL).
    assert (H = T0) as -> by (eapply hangs_same_inv; [done|intros; apply lookup_empty]).
    exists (recovered L new <$> T0). split; [done|]. eapply level_recover; [done| | | |done|done|done].
    + intros x Hx. apply HV. apply list_elem_of_fmap in Hx as (t & -> & Ht). apply list_elem_of_fmap_2.
      apply (concat_elem Tt T0'); [by eapply list_elem_of_lookup_2|done].
    + by eapply tower_nonempty.
    + by eapply tower_covers.
  - pose proof (tw_top _ _ _ _ _ W) as Hl. destruct Tt as [|T1 Tt]; [cbn; by rewrite Htop|].
    rewrite fmap_cons. change (last (base ls :: T1 :: Tt)) with (last (T1 :: Tt)) in Hl.
    change (last (recovers L new <$> T1 :: Tt) = Some [(root, repl L new ls)]).
    rewrite fmap_last, Hl. done.
  - done.
  - cbn. rewrite fmap_app. replace (concat (recovers L new <$> Tt)).*1 with (concat Tt).*1; [done|].
    clear. induction Tt as [|T Tt IH]; [done|]. rewrite fmap_cons. cbn [concat]. rewrite !fmap_app. unfold recovers at 1. by rewrite recover_pids, IH.
Qed.

(** ** A leaf is written *)

Lemma recover_base L new f : recovered L new (f.1, [f]) = (f.1, if decide (f.1 = L) then new else [f]).
Proof. unfold recovered. cbn [fst snd]. rewrite repl_cons. unfold repl. cbn. by rewrite app_nil_r. Qed.

Lemma base_cons f ls : base (f :: ls) = (f.1, [f]) :: base ls.
Proof. done. Qed.
Lemma base_app ls1 ls2 : base (ls1 ++ ls2) = base ls1 ++ base ls2.
Proof. apply fmap_app. Qed.

Lemma base_recover_one L es' ls : base (repl L [(L, es')] ls) = recovered L [(L, es')] <$> base ls.
Proof.
  induction ls as [|f ls IH]; [done|]. rewrite repl_cons, base_app, base_cons, fmap_cons, recover_base, IH.
  case_decide as E; [|done]. by rewrite E.
Qed.

Lemma tower_write V Ts root ls pre L es post l r es' :
  tower V ∅ Ts root ls → NoDup ls.*1 → ls = pre ++ (L, es) :: post →
  dominated [(L, es')] es ∨ post = [] →
  ∃ Ts', length Ts' = length Ts ∧ tower (<[L := LeafView l r es']> V) ∅ Ts' root (pre ++ (L, es') :: post).
Proof.
  intros W Hn Els Hd. assert (Er : repl L [(L, es')] ls = pre ++ (L, es') :: post) by (rewrite Els in *; by apply repl_middle).
  destruct Ts as [|B Tt]; [by destruct W|]. pose proof (tw_base _ _ _ _ _ W) as HB. injection HB as ->.
  rewrite <-Er. eexists. split; [|eapply (tower_leaves V _ ∅ (base ls :: Tt) root ls L es [(L, es')] W Hn)].
  - cbn. by rewrite length_fmap.
  - rewrite Els. apply elem_of_app. right. left.
  - destruct Hd as [Hd| ->]; [by left|right]. rewrite Els. by rewrite last_app.
  - intros x Hx. split; [|apply lookup_empty]. cbn in Hx. rewrite lookup_insert_ne; [done|]. intros <-.
    pose proof (tw_nodup _ _ _ _ _ W) as Hnd. cbn in Hnd. rewrite fmap_app in Hnd. apply NoDup_app in Hnd as (_ & Hdis & _).
    eapply Hdis; [|exact Hx]. rewrite base_pids, Els, fmap_app. apply elem_of_app. right. left.
  - apply lookup_empty.
  - rewrite base_recover_one. apply hangs_same. intros. apply lookup_empty.
  - rewrite base_recover_one, recover_pids. pose proof (tw_nodup _ _ _ _ _ W) as Hnd. cbn in Hnd. by rewrite fmap_app in Hnd.
  - intros E. cbn in E. subst Tt. pose proof (tw_top _ _ _ _ _ W) as Hl. injection Hl as Hl. rewrite base_recover_one, Hl. done.
Qed.

(** ** A leaf is split, below its parent *)

Lemma base_split L es1 sep R es2 ls :
  NoDup ls.*1 → L ≠ R → R ∉ ls.*1 → (∀ e, e ∈ es1 → ¬ key_lt sep e.1) →
  hangs {[L := (sep, R)]} (base (repl L [(L, es1); (R, es2)] ls)) (recovered L [(L, es1); (R, es2)] <$> base ls).
Proof.
  intros Hn HLR HR Hsep. induction ls as [|[q es] ls IH]; [constructor|].
  cbn in Hn, HR. apply NoDup_cons in Hn as [Hq Hn]. apply not_elem_of_cons in HR as [HRq HR]. specialize (IH Hn HR).
  rewrite repl_cons, base_app, base_cons, fmap_cons, recover_base. cbn [fst]. case_decide as E.
  - subst q. cbn. eapply (hangs_two _ L [(L, es1)] sep R [(R, es2)]).
    + by rewrite lookup_singleton_eq.
    + by rewrite lookup_singleton_ne.
    + intros e He. apply Hsep. unfold entries_of in He. cbn in He. by rewrite app_nil_r in He.
    + exact IH.
  - cbn. constructor; [by rewrite lookup_singleton_ne|exact IH].
Qed.

Lemma NoDup_split {A} (a b a' b' : list (Z * A)) x y y' :
  NoDup (a ++ (x, y) :: b).*1 → a ++ (x, y) :: b = a' ++ (x, y') :: b' → a = a' ∧ y = y' ∧ b = b'.
Proof.
  intros Hn E. assert (Hl : length a = length a').
  { rewrite NoDup_alt in Hn. apply (Hn _ _ x).
    - rewrite list_lookup_fmap, list_lookup_middle; done.
    - rewrite E, list_lookup_fmap, list_lookup_middle; done. }
  apply app_inj_1 in E as [-> [= -> ->]]; done.
Qed.

Lemma concat_insert_perm {A} (Ts : list (list A)) k T T' new :
  Ts !! k = Some T → T' ≡ₚ new ++ T → concat (<[k := T']> Ts) ≡ₚ new ++ concat Ts.
Proof.
  intros Hk Hp. assert (Hlt := lookup_lt_Some _ _ _ Hk). rewrite insert_take_drop by done.
  rewrite <-(take_drop_middle Ts k T Hk) at 3. rewrite !concat_app. cbn. rewrite Hp. by solve_Permutation.
Qed.

Lemma tower_level_pids V D Ts root ls k T x :
  tower V D Ts root ls → Ts !! k = Some T → x ∈ T.*1 → x ∈ (concat Ts).*1.
Proof.
  intros W HT (t & -> & Ht)%list_elem_of_fmap. apply list_elem_of_fmap_2. apply (concat_elem Ts T); [by eapply list_elem_of_lookup_2|done].
Qed.

Definition pids (T : list cover) : list Z := T.*1.

Lemma concat_pids (Ts : list (list cover)) : (concat Ts).*1 = concat (pids <$> Ts).
Proof. induction Ts as [|T Ts IH]; [done|]. cbn. by rewrite fmap_app, IH. Qed.

(** A node is in one level only. *)
Lemma tower_level_unique V D Ts root ls j k T T' x :
  tower V D Ts root ls → Ts !! j = Some T → Ts !! k = Some T' → x ∈ T.*1 → x ∈ T'.*1 → j = k.
Proof.
  intros W HT HT' Hx Hx'. pose proof (tw_nodup _ _ _ _ _ W) as Hn.
  rewrite concat_pids in Hn.
  apply (NoDup_concat_disjoint (pids <$> Ts) j k T.*1 T'.*1 x); [done|by rewrite list_lookup_fmap, HT|by rewrite list_lookup_fmap, HT'|done|done].
Qed.

Lemma tower_level_nodup V D Ts root ls k T : tower V D Ts root ls → Ts !! k = Some T → NoDup T.*1.
Proof.
  intros W HT. pose proof (tw_nodup _ _ _ _ _ W) as Hn. rewrite <-(take_drop_middle Ts k T HT), concat_app in Hn. cbn in Hn.
  rewrite !fmap_app in Hn. apply NoDup_app in Hn as (_ & _ & Hn). by apply NoDup_app in Hn as (? & _ & _).
Qed.

(** ** One level is edited

    The level [k] becomes [Tn], which has the nodes [new] besides; the levels
    around it are known, the others see the same nodes. *)
Lemma tower_edit V V' D D' Ts root ls k T Tn new :
  tower V D Ts root ls → Ts !! k = Some T → (0 < k)%nat → (S k < length Ts)%nat →
  Tn.*1 ≡ₚ new ++ T.*1 → NoDup (new ++ (concat Ts).*1) → D' !! root = None →
  (∀ x, x ∈ (concat Ts).*1 → x ∉ T.*1 → V' !! x = V !! x ∧ D' !! x = D !! x) →
  (∀ B, Ts !! pred k = Some B → ∃ H, hangs D B H ∧ level V' H Tn) →
  (∀ H, hangs D T H → hangs D' Tn H) →
  tower V' D' (<[k := Tn]> Ts) root ls.
Proof.
  intros W HT Hk Hlt Hp Hn Hroot Hsame Hbelow Habove. pose proof (lookup_lt_Some _ _ _ HT) as Hkl.
  assert (Hout : ∀ j A, Ts !! j = Some A → j ≠ k → ∀ x, x ∈ A.*1 → V' !! x = V !! x ∧ D' !! x = D !! x).
  { intros j A HA Hj x Hx. apply Hsame; [by eapply tower_level_pids|]. intros Hx'. apply Hj. by eapply (tower_level_unique V D Ts). }
  constructor.
  - rewrite list_lookup_insert_ne by lia. apply W.
  - intros j A B HA HB. destruct (decide (S j = k)) as [<-|Hj].
    + rewrite list_lookup_insert_eq in HB by done. injection HB as <-. rewrite list_lookup_insert_ne in HA by lia.
      destruct (Hbelow A HA) as (H & Hh & HL). exists H. split; [|done].
      eapply hangs_ext; [done|]. intros x Hx. by apply (Hout j A HA ltac:(lia)).
    + rewrite list_lookup_insert_ne in HB by lia. destruct (decide (j = k)) as [->|Hj'].
      * rewrite list_lookup_insert_eq in HA by done. injection HA as <-.
        destruct (tw_step _ _ _ _ _ W k T B HT HB) as (H & Hh & HL). exists H. split; [by apply Habove|].
        eapply level_ext; [done|]. intros x Hx. by apply (Hout (S k) B HB ltac:(lia)).
      * rewrite list_lookup_insert_ne in HA by lia. destruct (tw_step _ _ _ _ _ W j A B HA HB) as (H & Hh & HL). exists H. split.
        -- eapply hangs_ext; [done|]. intros x Hx. by apply (Hout j A HA ltac:(lia)).
        -- eapply level_ext; [done|]. intros x Hx. by apply (Hout (S j) B HB ltac:(lia)).
  - rewrite last_lookup, length_insert, list_lookup_insert_ne by lia. rewrite <-last_lookup. apply W.
  - done.
  - rewrite concat_pids, list_fmap_insert, (concat_insert_perm _ k T.*1 (pids Tn) new); [by rewrite <-concat_pids| |done].
    by rewrite list_lookup_fmap, HT.
Qed.

(** A node of a level, with the nodes below it. *)
Lemma level_node V H A P l B :
  level V H (A ++ (P, l) :: B) → ∃ sA seg sB ks, H = concat sA ++ seg ++ concat sB ∧
    Forall2 (inner_over V) A sA ∧ Forall2 (inner_over V) B sB ∧
    V !! P = Some (InnerView ks seg.*1) ∧ length seg = S (length ks) ∧ l = concat seg.*2 ∧ bounded ks seg.*2.
Proof.
  intros (segs & -> & Hf). apply Forall2_app_inv_l in Hf as (sA & s & HA & Hs & ->).
  apply Forall2_cons_inv_l in Hs as (seg & sB & (ks & HV & Hlen & Hc & Hb) & HB & ->).
  exists sA, seg, sB, ks. rewrite concat_app. done.
Qed.

Lemma level_intro V sA seg sB A P l B ks :
  Forall2 (inner_over V) A sA → Forall2 (inner_over V) B sB →
  V !! P = Some (InnerView ks seg.*1) → length seg = S (length ks) → l = concat seg.*2 → bounded ks seg.*2 →
  level V (concat sA ++ seg ++ concat sB) (A ++ (P, l) :: B).
Proof.
  intros HA HB HV Hlen Hl Hb. exists (sA ++ seg :: sB). split; [by rewrite concat_app|].
  apply Forall2_app; [done|]. constructor; [|done]. by exists ks.
Qed.

Lemma over_ext V V' T segs : Forall2 (inner_over V) T segs → (∀ x, x ∈ T.*1 → V' !! x = V !! x) → Forall2 (inner_over V') T segs.
Proof.
  induction 1 as [|t seg T segs (ks & Hv & Hr) _ IH]; intros HV; [constructor|]. constructor.
  - exists ks. rewrite HV; [done|cbn; left].
  - apply IH. intros x Hx. apply HV. by right.
Qed.

(** Halves of the children. *)
Lemma bounded_take ks (lss : list (list leaf)) (i : nat) : bounded ks lss → bounded (take i ks) (take (S i) lss).
Proof.
  intros Hb a b k l e Hk Hl He Hab. apply lookup_take_Some in Hk as [Hk _]. apply lookup_take_Some in Hl as [Hl _]. by eapply Hb.
Qed.
Lemma bounded_drop ks (lss : list (list leaf)) (i : nat) : bounded ks lss → bounded (drop i ks) (drop i lss).
Proof.
  intros Hb a b k l e Hk Hl He Hab. rewrite lookup_drop in Hk. rewrite lookup_drop in Hl. destruct (Hb _ _ _ _ _ Hk Hl He) as [? Hne]; [lia|].
  split; [done|]. intros. apply Hne. lia.
Qed.
Lemma bounded_left ks (lss : list (list leaf)) (i : nat) sep e :
  bounded ks lss → ks !! i = Some sep → e ∈ entries_of (concat (take (S i) lss)) → ¬ key_lt sep e.1.
Proof.
  intros Hb Hk (f & Hf & He)%elem_of_entries. apply list_elem_of_In, in_concat in Hf as (l & Hl & Hf).
  rewrite <-list_elem_of_In in Hl. rewrite <-list_elem_of_In in Hf. apply list_elem_of_lookup in Hl as (a & Ha).
  apply lookup_take_Some in Ha as [Ha Hai]. destruct (Hb a i sep l e Hk Ha) as [? _]; [|lia|done]. apply elem_of_entries. by exists f.
Qed.

(** ** An inner node is split *)

Definition halved (V : gmap Z node_view) (P Q : Z) (ks : list (list byte)) (cps : list Z) (i : nat) : gmap Z node_view :=
  <[P := InnerView (take i ks) (take (S i) cps)]> (<[Q := InnerView (drop (S i) ks) (drop (S i) cps)]> V).

Lemma tower_split_inner V D Ts root ls k A P l B Q ks cps (i : nat) sep :
  tower V D Ts root ls → Ts !! S k = Some (A ++ (P, l) :: B) → (S (S k) < length Ts)%nat →
  V !! P = Some (InnerView ks cps) → ks !! i = Some sep → Q ∉ (concat Ts).*1 → D !! Q = None →
  (∀ x, x ∈ (A ++ (P, l) :: B).*1 → D !! x = None) → P ≠ root →
  ∃ l1 l2, l = l1 ++ l2 ∧
    tower (halved V P Q ks cps i) (<[P := (sep, Q)]> D) (<[S k := A ++ (P, l1) :: (Q, l2) :: B]> Ts) root ls.
Proof.
  intros W HT Hlt HP Hi HQ HDQ HD Hroot. pose proof (tower_level_nodup _ _ _ _ _ _ _ W HT) as Hn.
  assert (HPin : P ∈ (concat Ts).*1) by (eapply tower_level_pids; [done|exact HT|rewrite fmap_app; apply elem_of_app; right; left]).
  assert (HPQ : P ≠ Q) by (by intros ->).
  assert (is_Some (Ts !! k)) as [T0 HT0] by (apply lookup_lt_is_Some; lia).
  destruct (tw_step _ _ _ _ _ W k T0 _ HT0 HT) as (H & Hh & HL).
  destruct (level_node _ _ _ _ _ _ HL) as (sA & seg & sB & ks' & EH & HA & HB & HP' & Hlen & El & Hb).
  rewrite HP in HP'. injection HP' as <- ->. pose proof (lookup_lt_Some _ _ _ Hi) as Hik.
  assert (HnA : ∀ x, x ∈ A.*1 → x ≠ P). { intros x Hx ->. rewrite fmap_app in Hn. cbn in Hn. apply NoDup_app in Hn as (_ & Hd & _). apply (Hd P Hx). left. }
  assert (HnB : ∀ x, x ∈ B.*1 → x ≠ P). { intros x Hx ->. rewrite fmap_app in Hn. cbn in Hn. apply NoDup_app in Hn as (_ & _ & Hn). by apply NoDup_cons in Hn as [? _]. }
  assert (Hin : ∀ x, x ∈ A.*1 ∨ x ∈ B.*1 → x ≠ Q).
  { intros x Hx ->. apply HQ. eapply tower_level_pids; [done|exact HT|]. rewrite fmap_app. apply elem_of_app. destruct Hx; [by left|right; by right]. }
  assert (HV' : ∀ x, x ≠ P → x ≠ Q → halved V P Q ks seg.*1 i !! x = V !! x)
    by (intros x Hx1 Hx2; unfold halved; by rewrite !lookup_insert_ne).
  exists (concat (take (S i) seg).*2), (concat (drop (S i) seg).*2).
  assert (El' : l = concat (take (S i) seg).*2 ++ concat (drop (S i) seg).*2).
  { by rewrite El, <-concat_app, <-fmap_app, take_drop. }
  split; [done|]. apply (tower_edit V _ D _ Ts root ls (S k) (A ++ (P, l) :: B) _ [Q]); [done|done|lia|done| | | | | |].
  - rewrite !fmap_app. cbn. by solve_Permutation.
  - apply NoDup_cons. split; [done|apply W].
  - rewrite lookup_insert_ne by done. apply W.
  - intros x Hx HxT. assert (x ≠ P) by (intros ->; apply HxT; rewrite fmap_app; apply elem_of_app; right; left).
    split; [apply HV'; [done|by intros ->]|by rewrite lookup_insert_ne].
  - intros B0 HB0. cbn in HB0. rewrite HT0 in HB0. injection HB0 as <-. exists H. split; [done|]. rewrite EH.
    replace (concat sA ++ seg ++ concat sB) with (concat (sA ++ [take (S i) seg]) ++ drop (S i) seg ++ concat sB)
      by (rewrite concat_app; cbn [concat]; by rewrite app_nil_r, <-!app_assoc, (app_assoc (take _ _)), take_drop).
    change ((P, concat (take (S i) seg).*2) :: (Q, concat (drop (S i) seg).*2) :: B)
      with ([(P, concat (take (S i) seg).*2)] ++ (Q, concat (drop (S i) seg).*2) :: B). rewrite (app_assoc A).
    apply (level_intro _ (sA ++ [take (S i) seg]) (drop (S i) seg) sB (A ++ [(P, concat (take (S i) seg).*2)]) Q _ B (drop (S i) ks)).
    + apply Forall2_app; [eapply over_ext; [done|]; intros x Hx; apply HV'; [by apply HnA|by apply Hin; left]|].
      constructor; [|done]. exists (take i ks). cbn [fst snd]. rewrite !length_take, Hlen, !fmap_take.
      split_and!; [unfold halved; by rewrite lookup_insert_eq|lia|done|by apply bounded_take].
    + eapply over_ext; [done|]. intros x Hx. apply HV'; [by apply HnB|by apply Hin; right].
    + unfold halved. rewrite lookup_insert_ne by done. by rewrite lookup_insert_eq, fmap_drop.
    + rewrite !length_drop, Hlen. lia.
    + done.
    + rewrite fmap_drop. by apply bounded_drop.
  - intros H' Hh'. rewrite (hangs_same_inv _ _ _ Hh' HD).
    assert (HDx : ∀ x, x ∈ A.*1 ∨ x ∈ B.*1 → <[P := (sep, Q)]> D !! x = None).
    { intros x Hx. rewrite lookup_insert_ne by (destruct Hx; [symmetry; by apply HnA|symmetry; by apply HnB]). apply HD.
      rewrite fmap_app. apply elem_of_app. destruct Hx; [by left|right; by right]. }
    apply hangs_app; [apply hangs_same; intros; apply HDx; by left|]. rewrite El'. eapply hangs_two.
    + by rewrite lookup_insert_eq.
    + by rewrite lookup_insert_ne.
    + intros e He. eapply bounded_left; [exact Hb|done|]. by rewrite <-fmap_take.
    + apply hangs_same. intros. apply HDx. by right.
Qed.

(** ** A pending right half gets its place in the parent *)

Lemma lookup_insert_at {A} (l : list A) (pos j : nat) x y :
  (pos ≤ length l)%nat → insert_at pos x l !! j = Some y →
  ((j < pos)%nat ∧ l !! j = Some y) ∨ (j = pos ∧ y = x) ∨ ((pos < j)%nat ∧ l !! pred j = Some y).
Proof.
  intros Hp. unfold insert_at. intros Hj. destruct (decide (j < pos)%nat) as [Hjp|Hjp].
  - left. split; [done|]. rewrite lookup_app_l in Hj by (rewrite length_take; lia). by apply lookup_take_Some in Hj as [? _].
  - right. rewrite lookup_app_r in Hj by (rewrite length_take; lia). rewrite length_take, Nat.min_l in Hj by done.
    destruct (j - pos)%nat as [|n] eqn:E; [left; split; [lia|by injection Hj]|right]. split; [lia|]. change (drop pos l !! n = Some y) in Hj.
    rewrite lookup_drop in Hj. by replace (pred j) with (pos + n)%nat by lia.
Qed.

Lemma lookup_split_seg {A} (l : list A) (pos i : nat) a b y :
  (pos < length l)%nat → (take pos l ++ a :: b :: drop (S pos) l) !! i = Some y →
  ((i < pos)%nat ∧ l !! i = Some y) ∨ (i = pos ∧ y = a) ∨ (i = S pos ∧ y = b) ∨ ((S pos < i)%nat ∧ l !! pred i = Some y).
Proof.
  intros Hp Hi. destruct (decide (i < pos)%nat) as [Hip|Hip].
  - left. split; [done|]. rewrite lookup_app_l in Hi by (rewrite length_take; lia). by apply lookup_take_Some in Hi as [? _].
  - right. rewrite lookup_app_r in Hi by (rewrite length_take; lia). rewrite length_take, Nat.min_l in Hi by lia.
    destruct (i - pos)%nat as [|[|n]] eqn:E; [left; split; [lia|by injection Hi]|right; left; split; [lia|by injection Hi]|].
    right. right. split; [lia|]. change (drop (S pos) l !! n = Some y) in Hi. rewrite lookup_drop in Hi. by replace (pred i) with (S pos + n)%nat by lia.
Qed.

Lemma sorted_segments (lss : list (list leaf)) i j a b e x :
  keys_sorted (entries_of (concat lss)) → lss !! i = Some a → lss !! j = Some b → (i < j)%nat →
  e ∈ entries_of a → x ∈ entries_of b → key_lt e.1 x.1.
Proof.
  intros Hs Hi Hj Hij He Hx. rewrite <-(take_drop_middle lss i a Hi), concat_app in Hs. cbn in Hs.
  rewrite !entries_of_app in Hs. destruct (keys_sorted_app_inv _ _ Hs) as (_ & Hs2 & _).
  destruct (keys_sorted_app_inv _ _ Hs2) as (_ & _ & Hlt). apply Hlt; [done|].
  apply elem_of_entries in Hx as (f & Hf & Hxf). apply elem_of_entries. exists f. split; [|done].
  eapply concat_elem; [|done]. apply list_elem_of_lookup. exists (j - S i)%nat. rewrite lookup_drop. by replace (S i + (j - S i))%nat with j by lia.
Qed.

Lemma bounded_insert ks (lss : list (list leaf)) (pos : nat) l1 l2 sep :
  bounded ks lss → lss !! pos = Some (l1 ++ l2) → (pos ≤ length ks)%nat → keys_sorted (entries_of (concat lss)) →
  entries_of l1 ≠ [] → entries_of l2 ≠ [] → (∀ e, e ∈ entries_of l1 → ¬ key_lt sep e.1) →
  bounded (insert_at pos sep ks) (take pos lss ++ l1 :: l2 :: drop (S pos) lss).
Proof.
  intros Hb Hpos Hpk Hs H1 H2 Hsep i j k l e Hk Hl He Hij.
  assert (∃ x1, x1 ∈ entries_of l1) as [x1 Hx1] by (destruct (entries_of l1); [done|eexists; left]).
  assert (∃ x2, x2 ∈ entries_of l2) as [x2 Hx2] by (destruct (entries_of l2); [done|eexists; left]).
  assert (H12 : ∀ a b, a ∈ entries_of l1 → b ∈ entries_of l2 → key_lt a.1 b.1).
  { intros a b Ha Hb'. rewrite <-(take_drop_middle lss pos _ Hpos), concat_app in Hs. cbn in Hs. rewrite !entries_of_app in Hs.
    destruct (keys_sorted_app_inv _ _ Hs) as (_ & Hs2 & _). destruct (keys_sorted_app_inv _ _ Hs2) as (Hs3 & _).
    destruct (keys_sorted_app_inv _ _ Hs3) as (_ & _ & Hlt). by apply Hlt. }
  assert (Hboth : ∀ a, a ∈ entries_of l1 ∨ a ∈ entries_of l2 → a ∈ entries_of (l1 ++ l2)) by (intros a; by rewrite entries_of_app, elem_of_app).
  assert (Hlow : ∀ i' l', (i' < pos)%nat → lss !! i' = Some l' → e ∈ entries_of l' → key_lt e.1 x1.1).
  { intros i' l' Hi' Hl' He'. eapply sorted_segments; [exact Hs|exact Hl'|exact Hpos|done|done|apply Hboth; by left]. }
  apply (lookup_split_seg lss pos i l1 l2 l) in Hl; [|by apply lookup_lt_Some in Hpos].
  apply lookup_insert_at in Hk; [|done].
  destruct Hk as [[Hj Hk]|[[-> ->]|[Hj Hk]]].
  - destruct Hl as [[Hi Hl]|[[-> ->]|[[-> ->]|[Hi Hl]]]]; [by eapply Hb|lia|lia|lia].
  - destruct Hl as [[Hi Hl]|[[-> ->]|[[-> ->]|[Hi Hl]]]]; [|split; [by apply Hsep|lia]|lia|lia].
    pose proof (Hlow i l Hi Hl He) as Hlt. pose proof (Hsep x1 Hx1) as Hx.
    assert (key_lt e.1 sep). { destruct (key_le_not_lt _ _ Hx) as [->|Hxs]; [done|by etrans]. }
    split; [intros ?; apply (irreflexivity key_lt sep); by etrans|]. intros _ E. rewrite E in *. by apply (irreflexivity key_lt sep).
  - destruct Hl as [[Hi Hl]|[[-> ->]|[[-> ->]|[Hi Hl]]]].
    + destruct (Hb i (pred j) k l e Hk Hl He) as [? Hne]; [lia|]. split; [done|]. intros _. apply Hne. lia.
    + destruct (Hb pos (pred j) k (l1 ++ l2) e Hk Hpos) as [Hge Hne]; [apply Hboth; by left|lia|]. split; [done|]. intros _ E.
      destruct (Hb pos (pred j) k (l1 ++ l2) x2 Hk Hpos) as [Hge2 _]; [apply Hboth; by right|lia|]. apply Hge2. rewrite <-E. by apply H12.
    + destruct (Hb pos (pred j) k (l1 ++ l2) e Hk Hpos) as [Hge Hne]; [apply Hboth; by right|lia|]. split; [done|]. intros. apply Hne. lia.
    + destruct (Hb (pred i) (pred j) k l e Hk Hl He) as [? Hne]; [lia|]. split; [done|]. intros. apply Hne. lia.
Qed.

(** Where a pending node is in its level and among the nodes parents know. *)
Lemma hangs_pending D T H X sep Y :
  hangs D T H → X ∈ H.*1 → D !! X = Some (sep, Y) → ∃ A B l1 l2 HA HB,
    T = A ++ (X, l1) :: (Y, l2) :: B ∧ H = HA ++ (X, l1 ++ l2) :: HB ∧ hangs D A HA ∧ hangs D B HB ∧
    D !! Y = None ∧ (∀ e, e ∈ entries_of l1 → ¬ key_lt sep e.1).
Proof.
  induction 1 as [|x l T H Hx Hh IH|x l1 sep' r l2 T H Hx Hr Hb Hh IH]; intros HX HD.
  - by apply not_elem_of_nil in HX.
  - cbn in HX. apply elem_of_cons in HX as [->|HX]; [by rewrite Hx in HD|].
    destruct (IH HX HD) as (A & B & a & b & HA & HB & -> & -> & ? & ? & ? & ?).
    exists ((x, l) :: A), B, a, b, ((x, l) :: HA), HB. split_and!; [done|done|by constructor|done|done|done].
  - cbn in HX. apply elem_of_cons in HX as [->|HX].
    + rewrite Hx in HD. injection HD as -> ->. exists [], T, l1, l2, [], H. split_and!; [done|done|constructor|done|done|done].
    + destruct (IH HX HD) as (A & B & a & b & HA & HB & -> & -> & ? & ? & ? & ?).
      exists ((x, l1) :: (r, l2) :: A), B, a, b, ((x, l1 ++ l2) :: HA), HB. split_and!; [done|done|by econstructor|done|done|done].
Qed.

Lemma hangs_nodup D T H : hangs D T H → NoDup T.*1 → NoDup H.*1.
Proof.
  induction 1 as [|x l T H Hx Hh IH|x l1 sep r l2 T H Hx Hr Hb Hh IH]; cbn; [done| |].
  - intros [Hn HT]%NoDup_cons. apply NoDup_cons. split; [|by apply IH]. intros ?. apply Hn. by eapply hangs_sub.
  - intros [Hn [_ HT]%NoDup_cons]%NoDup_cons. apply NoDup_cons. split; [|by apply IH]. intros ?. apply Hn. right. by eapply hangs_sub.
Qed.

Definition leaves_nonempty (ls : list leaf) : Prop := ∀ f, f ∈ ls → f.2 ≠ [].

Lemma cover_entries (ls l : list leaf) : leaves_nonempty ls → l ≠ [] → (∀ f, f ∈ l → f ∈ ls) → entries_of l ≠ [].
Proof.
  intros Hne Hl Hin. destruct l as [|f l]; [done|]. destruct f as [p es]. rewrite entries_of_cons. intros [E _]%app_eq_nil.
  apply (Hne (p, es)); [apply Hin; left|done].
Qed.

Lemma split_at_fst (seg : list cover) (pos : nat) X Y l1 l2 :
  (take pos seg ++ (X, l1) :: (Y, l2) :: drop (S pos) seg).*1 = split_at pos X Y seg.*1.
Proof. unfold split_at. rewrite fmap_app, fmap_take. cbn. by rewrite fmap_drop. Qed.

Lemma level_publish V H A G lg B (pos : nat) HA HB X l1 l2 sep Y ks cps ls :
  level V H (A ++ (G, lg) :: B) → NoDup (A ++ (G, lg) :: B).*1 → V !! G = Some (InnerView ks cps) → cps !! pos = Some X →
  H = HA ++ (X, l1 ++ l2) :: HB → NoDup H.*1 → concat H.*2 = ls → keys_sorted (entries_of ls) → leaves_nonempty ls →
  l1 ≠ [] → l2 ≠ [] → (∀ e, e ∈ entries_of l1 → ¬ key_lt sep e.1) →
  level (<[G := InnerView (insert_at pos sep ks) (split_at pos X Y cps)]> V) (HA ++ (X, l1) :: (Y, l2) :: HB) (A ++ (G, lg) :: B).
Proof.
  intros HL HnT HG Hpos EH HnH Hcov Hs Hne Hl1 Hl2 Hsep.
  destruct (level_node _ _ _ _ _ _ HL) as (sA & seg & sB & ks' & EH' & HoA & HoB & HG' & Hlen & El & Hb).
  rewrite HG in HG'. injection HG' as <- ->.
  rewrite list_lookup_fmap in Hpos. destruct (seg !! pos) as [[X' lx]|] eqn:Es; [|done]. cbn in Hpos. injection Hpos as ->.
  pose proof (take_drop_middle seg pos _ Es) as Eseg.
  assert (HA = concat sA ++ take pos seg ∧ l1 ++ l2 = lx ∧ HB = drop (S pos) seg ++ concat sB) as (-> & <- & ->).
  { rewrite EH in HnH. apply (NoDup_split HA HB (concat sA ++ take pos seg) (drop (S pos) seg ++ concat sB) X); [done|].
    rewrite <-EH, EH', <-app_assoc. f_equal. rewrite <-Eseg at 1. by rewrite <-app_assoc. }
  pose proof (lookup_lt_Some _ _ _ Es) as Hps.
  assert (HV : ∀ x, x ≠ G → <[G := InnerView (insert_at pos sep ks) (split_at pos X Y seg.*1)]> V !! x = V !! x) by (intros; by rewrite lookup_insert_ne).
  rewrite fmap_app in HnT. cbn in HnT. apply NoDup_app in HnT as (_ & HdT & [HnB _]%NoDup_cons).
  replace ((concat sA ++ take pos seg) ++ (X, l1) :: (Y, l2) :: drop (S pos) seg ++ concat sB)
    with (concat sA ++ (take pos seg ++ (X, l1) :: (Y, l2) :: drop (S pos) seg) ++ concat sB) by (by rewrite <-!app_assoc).
  apply (level_intro _ sA _ sB A G lg B (insert_at pos sep ks)).
  - eapply over_ext; [done|]. intros x Hx. apply HV. intros ->. apply (HdT G Hx). left.
  - eapply over_ext; [done|]. intros x Hx. apply HV. by intros ->.
  - by rewrite lookup_insert_eq, split_at_fst.
  - unfold insert_at. rewrite !length_app. cbn. rewrite !length_take, !length_drop. lia.
  - rewrite El, <-Eseg at 1. rewrite !fmap_app, !concat_app. cbn. by rewrite <-!app_assoc.
  - rewrite fmap_app, fmap_take. cbn. rewrite fmap_drop. apply bounded_insert; [done| | | | | |done].
    + by rewrite list_lookup_fmap, Es.
    + lia.
    + rewrite <-El. rewrite <-Hcov, EH', !fmap_app, !concat_app, !entries_of_app in Hs.
      destruct (keys_sorted_app_inv _ _ Hs) as (_ & Hs2 & _). rewrite El. by destruct (keys_sorted_app_inv _ _ Hs2) as (? & _).
    + apply (cover_entries ls); [done|done|]. intros f Hf. rewrite <-Hcov, EH. rewrite fmap_app, concat_app. apply elem_of_app. right. cbn.
      apply elem_of_app. left. apply elem_of_app. by left.
    + apply (cover_entries ls); [done|done|]. intros f Hf. rewrite <-Hcov, EH. rewrite fmap_app, concat_app. apply elem_of_app. right. cbn.
      apply elem_of_app. left. apply elem_of_app. by right.
Qed.

Lemma in_level (x : Z) (T : list cover) : x ∈ T.*1 → ∃ A l B, T = A ++ (x, l) :: B.
Proof.
  intros ([y l] & -> & Ht)%list_elem_of_fmap. apply list_elem_of_split in Ht as (A & B & ->). by exists A, l, B.
Qed.

Lemma tower_publish V D Ts root ls k T T' G ks cps (pos : nat) X sep Y :
  tower V D Ts root ls → Ts !! k = Some T → Ts !! S k = Some T' → G ∈ T'.*1 → V !! G = Some (InnerView ks cps) →
  cps !! pos = Some X → D !! X = Some (sep, Y) → keys_sorted (entries_of ls) → leaves_nonempty ls →
  tower (<[G := InnerView (insert_at pos sep ks) (split_at pos X Y cps)]> V) (delete X D) Ts root ls.
Proof.
  intros W HT HT' HG HVG Hpos HD Hs Hne. destruct (in_level _ _ HG) as (A' & lg & B' & ->).
  destruct (tw_step _ _ _ _ _ W k T _ HT HT') as (H & Hh & HL).
  pose proof (tower_level_nodup _ _ _ _ _ _ _ W HT) as HnT. pose proof (hangs_nodup _ _ _ Hh HnT) as HnH.
  assert (HXH : X ∈ H.*1).
  { destruct (level_node _ _ _ _ _ _ HL) as (sA & seg & sB & ks' & -> & _ & _ & HG' & _). rewrite HVG in HG'. injection HG' as _ ->.
    rewrite !fmap_app. apply elem_of_app. right. apply elem_of_app. left. by eapply list_elem_of_lookup_2. }
  destruct (hangs_pending _ _ _ _ _ _ Hh HXH HD) as (A & B & l1 & l2 & HA & HB & -> & EH & HhA & HhB & HDY & Hsep).
  assert (HXT : X ∈ (A ++ (X, l1) :: (Y, l2) :: B).*1) by (rewrite fmap_app; apply elem_of_app; right; left).
  pose proof (tower_nonempty _ _ _ _ _ W _ _ HT) as Hnon.
  assert (HDx : ∀ x, x ≠ X → delete X D !! x = D !! x) by (intros; by rewrite lookup_delete_ne).
  constructor; [apply W| |apply W| |apply W].
  - intros j T0 T0' H0 H0'. destruct (decide (j = k)) as [->|Hj].
    + rewrite HT in H0. injection H0 as <-. rewrite HT' in H0'. injection H0' as <-.
      rewrite fmap_app in HnT. cbn in HnT. apply NoDup_app in HnT as (_ & HdA & HnXB). apply NoDup_cons in HnXB as [HXB HnXB].
      exists (HA ++ (X, l1) :: (Y, l2) :: HB). split.
      * apply hangs_app; [eapply hangs_ext; [done|]; intros x Hx; apply HDx; intros ->; apply (HdA X Hx); left|].
        constructor; [by rewrite lookup_delete_eq|].
        constructor; [rewrite HDx; [done|]; intros ->; apply HXB; left|].
        eapply hangs_ext; [done|]. intros x Hx. apply HDx. intros ->. apply HXB. by right.
      * eapply level_publish; [exact HL| |done|done|exact EH|done| |exact Hs|exact Hne| | |done].
        -- by eapply tower_level_nodup.
        -- rewrite <-(hangs_concat _ _ _ Hh). by eapply tower_covers.
        -- apply (Hnon (X, l1)). apply elem_of_app. right. left.
        -- apply (Hnon (Y, l2)). apply elem_of_app. right. right. left.
    + destruct (tw_step _ _ _ _ _ W j T0 T0' H0 H0') as (H1 & Hh1 & HL1). exists H1. split.
      * eapply hangs_ext; [done|]. intros x Hx. apply HDx. intros ->. apply Hj. by eapply (tower_level_unique V D Ts).
      * eapply level_ext; [done|]. intros x Hx. rewrite lookup_insert_ne; [done|]. intros <-. apply Hj.
        pose proof (tower_level_unique V D Ts root ls (S j) (S k) T0' _ G W H0' HT' Hx HG). lia.
  - destruct (decide (root = X)) as [->|?]; [by rewrite lookup_delete_eq|]. rewrite lookup_delete_ne by done. apply W.
Qed.

(** ** A leaf that is not the root is split *)

Lemma tower_split_leaf V V' Ts root ls pre L es1 es2 post sep R :
  tower V ∅ Ts root ls → NoDup ls.*1 → ls = pre ++ (L, es1 ++ es2) :: post → (2 ≤ length Ts)%nat →
  R ∉ (concat Ts).*1 → (∀ e, e ∈ es1 → ¬ key_lt sep e.1) →
  (∀ x, x ∈ (concat (tail Ts)).*1 → V' !! x = V !! x) →
  ∃ Ts', length Ts' = length Ts ∧ pids <$> tail Ts' = pids <$> tail Ts ∧
    tower V' {[L := (sep, R)]} Ts' root (pre ++ (L, es1) :: (R, es2) :: post).
Proof.
  intros W Hn Els Hlen HR Hsep HV. set (new := [(L, es1); (R, es2)]).
  assert (Er : repl L new ls = pre ++ (L, es1) :: (R, es2) :: post) by (rewrite Els in *; by apply repl_middle).
  destruct Ts as [|B Tt]; [by destruct W|]. pose proof (tw_base _ _ _ _ _ W) as HB. injection HB as ->.
  pose proof (tw_nodup _ _ _ _ _ W) as Hnd. cbn in Hnd, HR. rewrite fmap_app in Hnd, HR. rewrite base_pids in Hnd, HR.
  apply NoDup_app in Hnd as (Hn1 & Hdis & Hn2).
  assert (HLin : L ∈ ls.*1) by (rewrite Els, fmap_app; apply elem_of_app; right; left).
  assert (HLR : L ≠ R) by (intros ->; apply HR; apply elem_of_app; by left).
  assert (HLt : L ∉ (concat Tt).*1) by (intros ?; by apply (Hdis L)).
  rewrite <-Er. exists (base (repl L new ls) :: (recovers L new <$> Tt)). split_and!.
  - cbn. by rewrite length_fmap.
  - cbn [tail]. rewrite <-list_fmap_compose. apply list_fmap_ext. intros i T _. cbn. unfold pids, recovers. apply recover_pids.
  - eapply (tower_leaves V V' {[L := (sep, R)]} (base ls :: Tt) root ls L (es1 ++ es2) new W Hn).
    + rewrite Els. apply elem_of_app. right. left.
    + left. intros e He. exists e. split; [|apply (irreflexivity key_lt)]. unfold new, entries_of in He. cbn in He. by rewrite app_nil_r in He.
    + intros x Hx. split; [by apply HV|]. rewrite lookup_singleton_ne; [done|]. by intros <-.
    + rewrite lookup_singleton_ne; [done|]. intros <-. apply HLt. pose proof (tw_top _ _ _ _ _ W) as Hl.
      destruct Tt as [|T1 Tt]; [cbn in Hlen; lia|]. change (last (T1 :: Tt) = Some [(L, ls)]) in Hl. apply last_Some_elem_of in Hl.
      change (L ∈ (concat (T1 :: Tt)).*1). apply list_elem_of_fmap. exists (L, ls). split; [done|]. eapply concat_elem; [exact Hl|left].
    + apply base_split; [done|done| |done]. intros ?. apply HR, elem_of_app. by left.
    + cbn [tail]. rewrite base_pids, Er, fmap_app. cbn. rewrite Els, fmap_app in Hn1, Hdis, HR. cbn in Hn1, Hdis, HR.
      assert (Hp : (pre.*1 ++ L :: R :: post.*1) ++ (concat Tt).*1 ≡ₚ R :: (pre.*1 ++ L :: post.*1) ++ (concat Tt).*1) by solve_Permutation.
      rewrite Hp. apply NoDup_cons. split; [done|]. apply NoDup_app. done.
    + cbn [tail]. intros ->. cbn in Hlen. lia.
Qed.

(** ** The root is split *)

Lemma bounded_two sep l1 l2 : (∀ e, e ∈ entries_of l1 → ¬ key_lt sep e.1) → bounded [sep] [l1; l2].
Proof.
  intros Hs i j k l e Hk Hl He Hij. destruct j as [|j]; [|by destruct j]. injection Hk as <-. destruct i as [|i]; [|lia].
  injection Hl as <-. split; [by apply Hs|lia].
Qed.

Definition root_halved (V : gmap Z node_view) (root A B : Z) (ks : list (list byte)) (cps : list Z) (i : nat) (sep : list byte)
    : gmap Z node_view :=
  <[root := InnerView [sep] [A; B]]> (halved V A B ks cps i).

Lemma tower_root_inner V D Ts0 root ls A B ks cps (i : nat) sep :
  tower V D (Ts0 ++ [[(root, ls)]]) root ls → Ts0 ≠ [] → V !! root = Some (InnerView ks cps) → ks !! i = Some sep →
  A ∉ (concat Ts0).*1 → B ∉ (concat Ts0).*1 → A ≠ B → A ≠ root → B ≠ root → D !! A = None → D !! B = None →
  ∃ l1 l2, ls = l1 ++ l2 ∧
    tower (root_halved V root A B ks cps i sep) D (Ts0 ++ [[(A, l1); (B, l2)]; [(root, ls)]]) root ls.
Proof.
  intros W Hne HV Hi HA HB HAB HAr HBr HDA HDB.
  assert (∃ T0, last Ts0 = Some T0) as [T0 HT0]. { destruct (last Ts0) eqn:E; [by eexists|]. by apply last_None in E. }
  pose proof HT0 as HT0'. rewrite last_lookup in HT0'. pose proof (lookup_lt_Some _ _ _ HT0') as Hlen0.
  destruct (tw_step _ _ _ _ _ W (pred (length Ts0)) T0 [(root, ls)]) as (H & Hh & HL).
  { by rewrite lookup_app_l. }
  { replace (S (pred (length Ts0))) with (length Ts0) by lia. by rewrite lookup_app_r, Nat.sub_diag by lia. }
  destruct (level_node V H [] root ls [] HL) as (sA & seg & sB & ks' & EH & HsA & HsB & HV' & Hlen & El & Hb).
  apply Forall2_nil_inv_l in HsA as ->. apply Forall2_nil_inv_l in HsB as ->. cbn in EH. rewrite app_nil_r in EH. subst H.
  rewrite HV in HV'. injection HV' as <- ->. pose proof (lookup_lt_Some _ _ _ Hi) as Hik.
  pose proof (tw_nodup _ _ _ _ _ W) as Hn. rewrite concat_app, fmap_app in Hn. cbn in Hn. apply NoDup_app in Hn as (Hn0 & Hdis & _).
  assert (Hroot0 : root ∉ (concat Ts0).*1) by (intros ?; apply (Hdis root); [done|left]).
  set (V' := root_halved V root A B ks seg.*1 i sep).
  assert (HVx : ∀ x, x ∈ (concat Ts0).*1 → V' !! x = V !! x).
  { intros x Hx. unfold V', root_halved, halved. rewrite !lookup_insert_ne; [done|..]; by intros <-. }
  assert (El' : ls = concat (take (S i) seg).*2 ++ concat (drop (S i) seg).*2) by (by rewrite El, <-concat_app, <-fmap_app, take_drop).
  exists (concat (take (S i) seg).*2), (concat (drop (S i) seg).*2). split; [done|]. constructor.
  - rewrite lookup_app_l by lia. rewrite <-(tw_base _ _ _ _ _ W). by rewrite lookup_app_l by lia.
  - intros j T T' HT HT'. destruct (decide (S j < length Ts0)%nat) as [Hj|Hj].
    + rewrite lookup_app_l in HT by lia. rewrite lookup_app_l in HT' by lia.
      destruct (tw_step _ _ _ _ _ W j T T') as (H1 & Hh1 & HL1); [by rewrite lookup_app_l by lia..|].
      exists H1. split; [done|]. eapply level_ext; [done|]. intros x Hx. apply HVx.
      apply list_elem_of_fmap in Hx as (t & -> & Ht). apply list_elem_of_fmap_2. apply (concat_elem Ts0 T'); [by eapply list_elem_of_lookup_2|done].
    + destruct (decide (S j = length Ts0)) as [Hj'|Hj'].
      * rewrite lookup_app_l in HT by lia. rewrite lookup_app_r, Hj', Nat.sub_diag in HT' by lia. injection HT' as <-.
        replace (pred (length Ts0)) with j in HT0' by lia. rewrite HT in HT0'. injection HT0' as <-.
        exists seg. split; [done|]. exists [take (S i) seg; drop (S i) seg]. split; [cbn; by rewrite app_nil_r, take_drop|].
        repeat constructor.
        -- exists (take i ks). cbn [fst snd]. rewrite !length_take, Hlen, !fmap_take.
           unfold V', root_halved, halved. rewrite lookup_insert_ne, lookup_insert_eq by done.
           split_and!; [done|lia|done|by apply bounded_take].
        -- exists (drop (S i) ks). cbn [fst snd]. rewrite !length_drop, Hlen, !fmap_drop.
           unfold V', root_halved, halved. rewrite lookup_insert_ne, lookup_insert_ne, lookup_insert_eq by done.
           split_and!; [done|lia|done|by apply bounded_drop].
      * assert (j = length Ts0) as ->.
        { apply lookup_lt_Some in HT'. rewrite length_app in HT'. cbn in HT'. lia. }
        rewrite lookup_app_r, Nat.sub_diag in HT by lia. injection HT as <-.
        rewrite lookup_app_r in HT' by lia. replace (S (length Ts0) - length Ts0)%nat with 1%nat in HT' by lia. injection HT' as <-.
        eexists. split; [apply hangs_same; cbn; intros x; rewrite !elem_of_cons; intros [->|[->|Hx]]; [done|done|by apply not_elem_of_nil in Hx]|].
        eexists [_]. split; [cbn; by rewrite app_nil_r|]. constructor; [|constructor]. exists [sep]. cbn [fst snd].
        split_and!; [unfold V', root_halved; by rewrite lookup_insert_eq|done|cbn; by rewrite app_nil_r|].
        apply bounded_two. intros e He. eapply bounded_left; [exact Hb|done|]. by rewrite <-fmap_take.
  - by rewrite last_app.
  - apply W.
  - rewrite concat_app, fmap_app. cbn. apply NoDup_app. split_and!; [done| |].
    + intros x Hx. rewrite !not_elem_of_cons. split_and!; [by intros ->|by intros ->|by intros ->|apply not_elem_of_nil].
    + repeat (apply NoDup_cons; split; [rewrite ?not_elem_of_cons; split_and?; try done; apply not_elem_of_nil|]). constructor.
Qed.

Lemma tower_root_leaf (V' : gmap Z node_view) (root : Z) (es1 es2 : list (list byte * list byte)) (A B : Z) (sep : list byte) :
  V' !! root = Some (InnerView [sep] [A; B]) → A ≠ B → A ≠ root → B ≠ root → (∀ e, e ∈ es1 → ¬ key_lt sep e.1) →
  let ls' := [(A, es1); (B, es2)] in tower V' ∅ [base ls'; [(root, ls')]] root ls'.
Proof.
  intros HV HAB HAr HBr Hsep ls'. constructor; [done| |done|apply lookup_empty|].
  - intros [|[|k]] T T' HT HT'; [|done|done]. injection HT as <-. injection HT' as <-. exists (base ls').
    split; [apply hangs_same; intros; apply lookup_empty|]. exists [base ls']. split; [cbn; done|]. constructor; [|constructor].
    exists [sep]. split_and!; [done|done|done|]. cbn. apply bounded_two. intros e He. apply Hsep.
    unfold entries_of in He. cbn in He. by rewrite app_nil_r in He.
  - cbn. repeat (apply NoDup_cons; split; [rewrite ?not_elem_of_cons; split_and?; try done; apply not_elem_of_nil|]). constructor.
Qed.
