(* ===== verification/BTreeReadSpec.v ===== *)
(** * B-tree: descents

    Every descent, whatever the pool does to residency and whenever its
    guards fail, ends at the leaf that answers for the key, or restarts. *)

From S2P Require Import Prelude Bytes FrameKernel SwipKernel PageHeader PageMutation Slotted SlottedInv SlottedOps SlottedSearch SlottedMutation SlottedSpec BufferFrame BTreeNode BTreeNodeInv BTreePages BTreeSplitSpec BTreeInnerSpec BTreeRoute BTreePool BTreeRead BTreeTree.
#[local] Open Scope Z_scope.
Import SlottedHeader SlottedPage.

(** ** Reading any bytes *)

Section torn.
Context `{Build}.

Lemma route_total b key : zlen b = PAGE_SIZE → ∃ o, ResidentFrame.try_route_to_child b key = Ret o.
Proof.
  intros Hb. unfold ResidentFrame.try_route_to_child. destruct (try_lower_bound_torn Hb key) as (o & -> & _).
  unfold opt_bind at 1. rewrite bind_Ret. destruct o as [[pos ex]|]; [|by eexists]. cbn [fst].
  destruct (ParentEdge.from_pos pos (num_slots b)); [|by eexists].
  destruct (try_get_value_total Hb (parent_edge_round_trip_pos pos (num_slots b))) as (o & ->).
  unfold opt_bind. rewrite bind_Ret. destruct o as [v|]; [|by eexists].
  destruct (Z.ltb_spec (zlen v) 8); [by eexists|]. rewrite slice_Ret by lia. by eexists.
Qed.

Lemma chase_total b key : zlen b = PAGE_SIZE → ∃ c, ResidentFrame.should_chase_right b key = Ret c.
Proof.
  intros Hb. unfold ResidentFrame.should_chase_right. destruct (_ =? 0); [by eexists|]. destruct (_ =? 0); [by eexists|].
  destruct (try_get_key_total Hb (num_slots b - 1)) as (o & ->). by eexists.
Qed.

(** On an inner page the route is to a child where the key crosses. *)
Lemma route_inner b cs u key :
  inner_page b cs u → ∃ (pos : nat) w, ResidentFrame.try_route_to_child b key =
      Ret (Some {| RoutedChildRef.swip := w; RoutedChildRef.edge := ParentEdge.from_pos (Z.of_nat pos) (num_slots b) |}) ∧
    children cs u !! pos = Some w ∧
    (∀ k, seps cs !! pred pos = Some k → (0 < pos)%nat → key_lt k key ∨ seps cs !! pos = Some key).
Proof.
  intros P. destruct (route_spec b cs u key P) as (pos & w & E & Hw & (_ & _ & Hx)). exists pos, w.
  destruct (inner_count _ _ _ P) as [-> _]. done.
Qed.
End torn.

(** ** One step down *)

Section step.
Context `{Build} `{PoolOps} `{!PoolLaws} (self : BTree.t) (V : gmap Z node_view).
Implicit Types (b : page) (σ : pool).

(** What an inner node of the tree shows. *)
Lemma holds_inner σ cur ks cps :
  holds σ V → V !! cur = Some (InnerView ks cps) →
  ∃ cs u, inner_page (page_bytes σ cur) cs u ∧ seps cs = ks ∧
    Forall2 (λ w c, word_target σ w = Some c) (children cs u) cps.
Proof. intros Hh HV. apply (Hh _ _ HV). Qed.

Lemma holds_leaf σ cur l r es :
  holds σ V → V !! cur = Some (LeafView l r es) → leaf_page (page_bytes σ cur) l r es ∧ keys_sorted es.
Proof. intros Hh HV. apply (Hh _ _ HV). Qed.

Lemma keeps_holds σ σ' : keeps V σ σ' → holds σ V → holds σ' V.
Proof. by intros (? & _). Qed.

(** Another reference to the same child at an edge. *)
Lemma set_page_keeps σ cur ks cps cs cs' u' p' :
  holds σ V → V !! cur = Some (InnerView ks cps) → seps cs = ks → inner_page p' cs' u' → seps cs' = seps cs →
  Forall2 (λ w c, word_target σ w = Some c) (children cs' u') cps → keeps V σ (set_page σ cur p').
Proof.
  intros Hh HV Hks P' Hs Hf.
  destruct (set_page_ok V σ cur p' Hh (mk_is_Some _ _ HV) (wf_len _ _ _ (inner_wf _ _ _ P'))) as (Hp & Hq & Hw & Hr & Hc & Hpin & Hfp & Hsp).
  split_and!; [|done|lia|done|done|lia]. intros _ pid v Hv. destruct (decide (pid = cur)) as [->|Hne].
  - rewrite HV in Hv. injection Hv as <-. exists cs', u'. rewrite Hp. split_and!; [done|congruence|].
    eapply Forall2_impl; [exact Hf|]. intros w c E. cbn in E |- *. by rewrite Hw.
  - specialize (Hh pid v Hv). destruct v as [l r es|ks' cps'|]; cbn in *; [| |by rewrite Hq].
    + by rewrite Hq.
    + destruct Hh as (cs2 & u2 & P2 & E2 & F2). exists cs2, u2. rewrite Hq by done. split_and!; [done|done|].
      eapply Forall2_impl; [exact F2|]. intros w c E. cbn in E |- *. by rewrite Hw.
Qed.

Lemma edge_slot_upper (cs : list child) (pos : nat) (n : Z) :
  (pos ≤ length cs)%nat → n = zlen cs →
  (ParentEdge.from_pos (Z.of_nat pos) n = ParentEdge.Slot (Z.of_nat pos) ∧ (∃ c, cs !! pos = Some c)) ∨
  (ParentEdge.from_pos (Z.of_nat pos) n = ParentEdge.Upper ∧ pos = length cs).
Proof.
  intros Hp ->. unfold ParentEdge.from_pos. destruct (Z.eqb_spec (Z.of_nat pos) (zlen cs)) as [E|E].
  - right. split; [done|]. unfold zlen in E. lia.
  - left. split; [done|]. apply lookup_lt_is_Some_2. unfold zlen in E. lia.
Qed.

(** The children of a node with one reference replaced. *)
Lemma children_replace (cs : list child) u (pos : nat) k w w' :
  cs !! pos = Some (k, w) → children (<[pos := (k, w')]> cs) u = <[pos := w']> (children cs u) ∧
    seps (<[pos := (k, w')]> cs) = seps cs.
Proof.
  intros Hc. unfold children, seps. pose proof (lookup_lt_Some _ _ _ Hc).
  rewrite !list_fmap_insert, insert_app_l by (by rewrite length_fmap). split; [done|]. cbn [fst].
  apply list_insert_id. by rewrite list_lookup_fmap, Hc.
Qed.

Lemma children_replace_upper (cs : list child) u u' : children cs u' = <[length cs := u']> (children cs u).
Proof.
  unfold children. rewrite insert_app_r_alt by (rewrite length_fmap; lia). rewrite length_fmap, Nat.sub_diag. done.
Qed.

Lemma Forall2_replace σ (ws : list Z) cps (pos : nat) w' c :
  Forall2 (λ w c, word_target σ w = Some c) ws cps → cps !! pos = Some c → word_target σ w' = Some c →
  Forall2 (λ w c, word_target σ w = Some c) (<[pos := w']> ws) cps.
Proof.
  intros Hf Hc Hw. rewrite <-(list_insert_id cps pos c Hc). by apply Forall2_insert.
Qed.

Lemma target_word_ok σ w c : word_target σ w = Some c → word_ok w.
Proof.
  intros E. destruct (word_target_ok σ w c E) as (s & Hv & -> & _). by apply encode_word_ok, swip_valid_ok.
Qed.

(** *** Publication of a loaded child *)

(** A publication may be skipped; if it is made, the parent shows the same. *)
Definition publishes (N : pool → Prop) (publish : Z → Z → page → RoutedChildPublication.t → R unit) : Prop :=
  ∀ σ child cur b pub (pos : nat) ks cps,
    holds σ V → pinned σ child → V !! cur = Some (InnerView ks cps) → cps !! pos = Some child →
    RoutedChildPublication.edge pub = ParentEdge.from_pos (Z.of_nat pos) (num_slots b) →
    steps V N (publish child cur b pub) σ (λ _ _, True).

(** What both publications do once they have their latches. *)
Lemma publish_write N σ child cur b pub (pos : nat) ks cps (m : R unit) :
  holds σ V → pinned σ child → V !! cur = Some (InnerView ks cps) → cps !! pos = Some child →
  page_bytes σ cur = b →
  RoutedChildPublication.edge pub = ParentEdge.from_pos (Z.of_nat pos) (num_slots b) →
  (∀ cs u, inner_page b cs u → (pos ≤ length cs)%nat → ∃ p' cs' u',
    m σ = Ret (set_page σ cur p', Some tt) ∧ inner_page p' cs' u' ∧ seps cs' = seps cs ∧
    children cs' u' = <[pos := hot_swip σ child]> (children cs u)) →
  steps V N m σ (λ _ _, True).
Proof.
  intros Hh Hpin HV Hc Hb Hedge Hm. destruct (holds_inner σ cur ks cps Hh HV) as (cs & u & P & Hks & Hf).
  rewrite Hb in P. assert (Hpos : (pos ≤ length cs)%nat).
  { apply Forall2_length in Hf. rewrite length_children in Hf. apply lookup_lt_Some in Hc. lia. }
  destruct (Hm cs u P Hpos) as (p' & cs' & u' & E & P' & Hs & Hch). unfold steps. rewrite E. split; [|done].
  eapply set_page_keeps; [done|done|exact Hks|done|done|]. rewrite Hch.
  eapply Forall2_replace; [done|done|]. by apply hot_swip_ok.
Qed.

(** Replacing the reference at an edge, on the page and through the guard. *)
Lemma replace_ref p cs u (pos : nat) w edge :
  inner_page p cs u → (pos ≤ length cs)%nat → word_ok w → edge = ParentEdge.from_pos (Z.of_nat pos) (num_slots p) →
  ∀ logs, ∃ nd cs' u', ExclusiveNode.set_child_edge_swip (ExclusiveNode.new logs p) edge w = Ret nd ∧
    inner_page (ExclusiveNode.page nd) cs' u' ∧ seps cs' = seps cs ∧ children cs' u' = <[pos := w]> (children cs u).
Proof.
  intros P Hpos Hw -> logs. destruct (inner_count _ _ _ P) as [Hn _].
  assert (Hnode : inner_node (ExclusiveNode.new logs p) cs u) by (constructor; [done|apply PageMutation.new_ok]).
  destruct (edge_slot_upper cs pos (num_slots p) Hpos Hn) as [[-> [[k w0] Hc]]|[-> ->]].
  - destruct (inner_set_child _ cs u pos k w0 w Hnode Hc Hw) as (nd & E & Hnd & _).
    destruct (children_replace cs u pos k w0 w Hc) as [Hch Hs]. exists nd, (<[pos := (k, w)]> cs), u. split_and!; [done|apply Hnd|done|done].
  - destruct (inner_set_upper _ cs u w Hnode Hw) as (nd & E & Hnd & _). exists nd, cs, w.
    split_and!; [done|apply Hnd|done|]. apply children_replace_upper.
Qed.

Lemma replace_ref_root p cs u (pos : nat) w edge :
  inner_page p cs u → (pos ≤ length cs)%nat → word_ok w → edge = ParentEdge.from_pos (Z.of_nat pos) (num_slots p) →
  ∃ p' cs' u', match edge with
    | ParentEdge.Upper => Ret (BTreeNode.set_upper p w)
    | ParentEdge.Slot i => BTreeNode.set_child_swip_at p i w
    end = Ret p' ∧ inner_page p' cs' u' ∧ seps cs' = seps cs ∧ children cs' u' = <[pos := w]> (children cs u).
Proof.
  intros P Hpos Hw ->. destruct (inner_count _ _ _ P) as [Hn _].
  destruct (edge_slot_upper cs pos (num_slots p) Hpos Hn) as [[-> [[k w0] Hc]]|[-> ->]].
  - destruct (inner_page_set_child p cs u pos k w0 w P Hc Hw) as (p' & E & P').
    destruct (children_replace cs u pos k w0 w Hc) as [Hch Hs]. exists p', (<[pos := (k, w)]> cs), u. done.
  - exists (BTreeNode.set_upper p w), cs, w. split_and!; [done|by eapply inner_page_set_upper|done|]. apply children_replace_upper.
Qed.

(** The latches both publications take, and the back link. *)
Lemma publish_latched N σ child cur b link (k : R unit) :
  holds σ V → pinned σ child →
  (∀ σ', holds σ' V → pinned σ' child → page_bytes σ' cur = b → steps V N k σ' (λ _ _, True)) →
  steps V N (let! ok := call (λ σ, try_exclusive σ child) in
             if negb ok then R_ret tt else
             let! ok := call (λ σ, try_upgrade_to_exclusive σ cur b) in
             if negb ok then R_ret tt else
             update (λ σ, set_parent_link σ child link) ;! k)%R σ (λ _ _, True).
Proof.
  intros Hh Hpin Hk. eapply steps_bind.
  { apply (steps_call _ _ _ _ (λ _ _, True)). pose proof (try_exclusive_ok V σ child) as E.
    destruct (try_exclusive σ child). by split. }
  intros ok1 σ1 K1 _. destruct ok1; [|by apply steps_ret]. cbn [negb].
  eapply steps_bind; [apply steps_call, try_upgrade_ok|]. intros ok2 σ2 K2 Hb. destruct ok2; [|by apply steps_ret]. cbn [negb].
  destruct (set_parent_link_ok V σ2 child link) as [K3 Hb3].
  eapply steps_bind; [apply (steps_update _ _ _ _ (λ _ σ', page_bytes σ' cur = b)); [done|by rewrite Hb3]|].
  intros [] σ3 K4 Hb4. assert (K : keeps V σ σ3) by (etrans; [exact K1|]; by etrans).
  apply Hk; [by eapply keeps_holds|by apply K|done].
Qed.

Lemma publish_child_ok N : publishes N (try_publish_loaded_child self).
Proof.
  intros σ child cur b pub pos ks cps Hh Hpin HV Hc Hedge. apply publish_latched; [done|done|].
  intros σ3 Hh3 Hpin3 Hb4. eapply publish_write; [done|done|done|done|done|exact Hedge|]. intros cs u P Hpos.
  destruct (replace_ref b cs u pos (hot_swip σ3 child) _ P Hpos (target_word_ok _ _ _ (hot_swip_ok _ _ Hpin3)) Hedge (logs_ranges σ3))
    as (nd & cs' & u' & E & P' & Hs & Hch).
  exists (ExclusiveNode.page nd), cs', u'. split_and!; [|done|done|done].
  unfold R_bind, latched, call, lift, update. cbn [fst snd]. rewrite Hb4, E. done.
Qed.

Lemma publish_root_child_ok N : publishes N (try_publish_loaded_root_child self).
Proof.
  intros σ child cur b pub pos ks cps Hh Hpin HV Hc Hedge. apply publish_latched; [done|done|].
  intros σ3 Hh3 Hpin3 Hb4. eapply publish_write; [done|done|done|done|done|exact Hedge|]. intros cs u P Hpos.
  destruct (replace_ref_root b cs u pos (hot_swip σ3 child) _ P Hpos (target_word_ok _ _ _ (hot_swip_ok _ _ Hpin3)) Hedge)
    as (p' & cs' & u' & E & P' & Hs & Hch).
  exists p', cs', u'. split_and!; [|done|done|done].
  unfold R_bind, latched, call, lift, update. cbn [fst snd]. rewrite Hb4.
  destruct (RoutedChildPublication.edge pub); [by rewrite E|by injection E as ->].
Qed.

(** *** From a node to a child *)

(** [pos] is a position of a child where the key crosses the separators. *)
Definition crossing_at (ks : list (list byte)) (key : list byte) (pos : nat) : Prop :=
  ∀ k, ks !! pred pos = Some k → (0 < pos)%nat → key_lt k key ∨ ks !! pos = Some key.

(** The route computed from the bytes of an inner node of the tree. *)
Lemma routed σ cur b key ks cps route :
  holds σ V → V !! cur = Some (InnerView ks cps) → page_bytes σ cur = b →
  ResidentFrame.try_route_to_child b key = Ret (Some route) →
  ∃ (pos : nat) q, cps !! pos = Some q ∧ word_target σ (RoutedChildRef.swip route) = Some q ∧
    RoutedChildRef.edge route = ParentEdge.from_pos (Z.of_nat pos) (num_slots b) ∧ crossing_at ks key pos.
Proof.
  intros Hh HV <- E. destruct (holds_inner σ cur ks cps Hh HV) as (cs & u & P & Hks & Hf).
  destruct (route_inner _ cs u key P) as (pos & w & E' & Hw & Hx). rewrite E in E'. injection E' as ->.
  destruct (Forall2_lookup_l _ _ _ _ _ Hf Hw) as (q & Hq & Ht). exists pos, q. split_and!; [done|done|done|].
  rewrite <-Hks. exact Hx.
Qed.

Lemma routed_some σ cur key ks cps :
  holds σ V → V !! cur = Some (InnerView ks cps) →
  ∃ route, ResidentFrame.try_route_to_child (page_bytes σ cur) key = Ret (Some route).
Proof.
  intros Hh HV. destruct (holds_inner σ cur ks cps Hh HV) as (cs & u & P & _).
  destruct (route_inner _ cs u key P) as (pos & w & E' & _). by eexists.
Qed.

(** An evicted reference is the identifier it leads to. *)
Lemma evicted_target σ route q :
  word_target σ (RoutedChildRef.swip route) = Some q → RoutedChildRef.is_resident route = false →
  RoutedChildRef.evicted_page_id route = Ret q ∧
  SwipWord.as_page_id (RoutedChildRef.swip route) = Ret q ∧
  (∀ σ' q', word_target σ' (RoutedChildRef.swip route) = Some q' → q' = q).
Proof.
  intros Ht Hr. destruct (word_target_ok _ _ _ Ht) as (s & Hv & Hw & Hp). pose proof (swip_valid_ok _ Hv) as Hok.
  destruct (is_encode _ Hok) as (Hh & Hc & He). unfold RoutedChildRef.is_resident in *.
  assert (∃ p, s = EvictedPage p) as [p ->].
  { rewrite Hw, Hh, Hc in Hr. destruct s; simpl in Hr; try done. by eexists. }
  rewrite <-(Hp p eq_refl).
  assert (E : SwipWord.as_page_id (RoutedChildRef.swip route) = Ret p).
  { unfold SwipWord.as_page_id, SwipWord.page_id. rewrite Hw, He, debug_assert_true, bind_Ret by done.
    f_equal. by apply page_id_of_encode. }
  split_and!; [|done|].
  - unfold RoutedChildRef.evicted_page_id, RoutedChildRef.is_resident. rewrite Hr, assert_true, bind_Ret by done. exact E.
  - intros σ' q' Ht'. destruct (word_target_ok _ _ _ Ht') as (s' & Hv' & Hw' & Hp'). symmetry. apply Hp'.
    rewrite Hw in Hw'. pose proof (f_equal classify_raw Hw') as Hcl.
    rewrite !classify_encode in Hcl by (done || by apply swip_valid_ok). destruct s' as [a|a|p']; try done.
    f_equal. pose proof (f_equal page_id_of Hw') as Ep.
    rewrite !page_id_of_encode in Ep by (exact Hok || exact (swip_valid_ok _ Hv')). done.
Qed.

Definition pin_ok (pin : RoutedChildRef.t → R (option Z)) : Prop :=
  ∀ N route σ, RoutedChildRef.is_resident route = true →
    steps V N (pin route) σ (λ o σ', pins V σ σ' o (RoutedChildRef.swip route)).

Lemma pin_route_ok : pin_ok pin_route.
Proof. intros N route σ _. apply steps_pin_child. Qed.
Lemma try_pin_resident_ok : pin_ok try_pin_resident.
Proof. intros N route σ E. unfold try_pin_resident. rewrite E. apply steps_try_pin_child. Qed.

(** Restarts are always allowed in what follows. *)
Definition anywhere : pool → Prop := λ _, True.

Lemma validate_step σ cur b : steps V anywhere (validate_or_restart cur b) σ (λ _ _, page_bytes σ cur = b).
Proof.
  unfold validate_or_restart. eapply steps_bind; [apply steps_call, validate_ok|].
  intros ok σ' K E. apply steps_guard. by destruct ok.
Qed.

Lemma step_child_spec pin publish σ cur b key ks cps :
  pin_ok pin → publishes anywhere publish →
  holds σ V → V !! cur = Some (InnerView ks cps) → (∀ c, c ∈ cps → is_Some (V !! c)) → zlen b = PAGE_SIZE →
  steps V anywhere (step_to_child pin publish cur b key) σ
    (λ child σ', pinned σ' child ∧ ∃ pos : nat, cps !! pos = Some child ∧ crossing_at ks key pos).
Proof.
  intros Hpin Hpub Hh HV Hcps Hb. unfold step_to_child. destruct (route_total b key Hb) as (o & Eo).
  eapply steps_bind; [by apply (steps_lift _ _ _ o _ (λ a _, a = o))|]. intros ? σ1 K1 ->.
  destruct o as [route|]; [|by eapply steps_bind; [by apply (steps_or_restart _ _ _ _ (λ _ _, False))|]].
  eapply steps_bind; [by apply (steps_or_restart _ _ _ _ (λ a _, a = route))|]. intros ? σ2 K2 ->.
  eapply steps_bind; [apply validate_step|]. intros [] σ3 K3 Hb2.
  assert (Hh2 : holds σ2 V) by (do 2 (eapply keeps_holds; [done|]); done).
  assert (Hh3 : holds σ3 V) by (by eapply keeps_holds).
  destruct (routed σ2 cur b key ks cps route Hh2 HV Hb2 Eo) as (pos & q & Hq & Ht & He & Hx).
  destruct (RoutedChildRef.is_resident route) eqn:Hr.
  - eapply steps_bind; [by apply Hpin|]. intros o σ4 K4 [_ Ho].
    eapply steps_bind; [apply (steps_or_restart _ _ _ _ (λ a _, frame_pin σ4 (RoutedChildRef.swip route) a)); destruct o; [apply Ho|done]|].
    intros child σ5 K5 Hf. eapply steps_bind; [apply validate_step|]. intros [] σ6 K6 Hb5.
    apply steps_ret. assert (Hh5 : holds σ5 V) by (do 2 (eapply keeps_holds; [done|]); done).
    destruct (routed σ5 cur b key ks cps route Hh5 HV Hb5 Eo) as (pos' & q' & Hq' & Ht' & _ & Hx').
    assert (Hf5 : frame_pin σ5 (RoutedChildRef.swip route) child) by (by apply K5).
    destruct (frame_pin_ok _ _ _ Hf5) as [Hp5 Hq5]. rewrite (Hq5 _ Ht') in Hq'.
    split; [by apply K6|by exists pos'].
  - destruct (evicted_target σ2 route q Ht Hr) as (Eid & _ & Huniq).
    eapply steps_bind; [by apply (steps_lift _ _ _ q _ (λ a _, a = q))|]. intros ? σ4 K4 ->.
    eapply steps_bind; [apply steps_fix_orphan; [by eapply keeps_holds|by eapply Hcps, list_elem_of_lookup_2]|].
    intros ? σ5 K5 [-> Hp5].
    eapply steps_bind; [apply validate_step|]. intros [] σ6 K6 Hb5.
    assert (Hh5 : holds σ5 V) by (do 2 (eapply keeps_holds; [done|]); done).
    destruct (routed σ5 cur b key ks cps route Hh5 HV Hb5 Eo) as (pos' & q' & Hq' & Ht' & He' & Hx').
    rewrite (Huniq _ _ Ht') in Hq'.
    eapply steps_bind; [eapply (Hpub σ6 q cur b _ pos' ks cps); [by eapply keeps_holds|by apply K6|done|done|exact He']|].
    intros [] σ7 K7 _. apply steps_ret. split; [by apply K7, K6|by exists pos'].
Qed.
End step.

(** ** Optimistic descent *)

Section descent.
Context `{Build} `{PoolOps} `{!PoolLaws} (self : BTree.t).
Context (V : gmap Z node_view) (root : Z) (h0 : nat) (ls : list (Z * list entry)) (m : gmap (list byte) (list byte)).
Context (T : tree V root h0 ls m) (key : list byte).
Implicit Types (b : page) (σ : pool).

Lemma leaf_bytes σ cur l r es :
  holds σ V → V !! cur = Some (LeafView l r es) → BTreeNode.is_leaf (page_bytes σ cur) = true.
Proof. intros Hh HV. destruct (holds_leaf V σ cur l r es Hh HV) as [P _]. apply P. Qed.

Lemma inner_bytes σ cur ks cps :
  holds σ V → V !! cur = Some (InnerView ks cps) → BTreeNode.is_leaf (page_bytes σ cur) = false.
Proof. intros Hh HV. destruct (holds_inner V σ cur ks cps Hh HV) as (cs & u & P & _). apply P. Qed.

(** A snapshot that does not look like a leaf, of one. *)
Lemma step_child_torn pin publish σ cur b l r es :
  holds σ V → V !! cur = Some (LeafView l r es) → zlen b = PAGE_SIZE → BTreeNode.is_leaf b = false →
  steps V anywhere (step_to_child pin publish cur b key) σ (λ _ _, False).
Proof.
  intros Hh HV Hb Hl. unfold step_to_child. destruct (route_total b key Hb) as (o & Eo).
  eapply steps_bind; [by apply (steps_lift _ _ _ o _ (λ a _, a = o))|]. intros ? σ1 K1 ->.
  eapply steps_bind; [by apply (steps_or_restart _ _ _ _ (λ _ _, True)); destruct o|]. intros route σ2 K2 _.
  eapply steps_bind; [apply validate_step|]. intros [] σ3 K3 Hb2. exfalso.
  rewrite <-Hb2, (leaf_bytes σ2 cur l r es) in Hl; [done| |done]. do 2 (eapply keeps_holds; [done|]). done.
Qed.

(** Where a descent stops: a guard on a node the search is at, whose bytes
    say that it is a leaf and that the key is not further right. *)
Definition stopped (cur : Z) b : Prop :=
  (∃ h pre, toward V ls key h pre cur) ∧ zlen b = PAGE_SIZE ∧
  BTreeNode.is_leaf b = true ∧ ResidentFrame.should_chase_right b key = Ret false.

(** A step right, from bytes that are the leaf's. *)
Lemma toward_chased σ cur b h pre :
  holds σ V → toward V ls key h pre cur → page_bytes σ cur = b → BTreeNode.is_leaf b = true →
  ResidentFrame.should_chase_right b key = Ret true →
  h = 0%nat ∧ ∃ l es, BTreeNode.leaf_right_pid b ≠ 0 ∧
    V !! cur = Some (LeafView l (BTreeNode.leaf_right_pid b) es) ∧
    toward V ls key 0 (pre ++ [(cur, es)]) (BTreeNode.leaf_right_pid b).
Proof.
  intros Hh Ht Hb Hl Hc. destruct h as [|h].
  - split; [done|]. destruct (toward_leaf _ _ _ _ _ T key pre cur Ht) as (l & es & post & Hls & _ & HV).
    destruct (holds_leaf V σ cur _ _ es Hh HV) as [P Hs]. rewrite Hb in P. rewrite (chase_spec _ _ _ _ _ P Hs) in Hc.
    injection Hc as Hc. apply bool_decide_eq_true_1 in Hc as [Hr Hlt]. rewrite (leaf_right _ _ _ _ P).
    exists l, es. split_and!; [done|done|]. by eapply toward_right.
  - destruct (toward_inner _ _ _ _ _ _ Ht) as (ks & cps & HV & _).
    rewrite <-Hb, (inner_bytes σ cur ks cps Hh HV) in Hl. done.
Qed.

Lemma optimistic_loop_spec n : ∀ h pre cur σ,
  holds σ V → toward V ls key h pre cur →
  steps V anywhere (optimistic_loop self n key cur) σ (λ r _, stopped r.1 r.2).
Proof.
  induction n as [|n IH]; intros h pre cur σ Hh Ht; cbn [optimistic_loop]; [by apply steps_restart|].
  eapply steps_bind.
  { unfold optimistic_or_restart. eapply steps_bind; [apply steps_call, optimistic_ok|]. intros o σ1 K1 Ho.
    by apply (steps_or_restart _ _ _ _ (λ b _, zlen b = PAGE_SIZE)); destruct o. }
  intros b σ1 K1 Hb. assert (Hh1 : holds σ1 V) by (by eapply keeps_holds).
  destruct (BTreeNode.is_leaf b) eqn:Hl.
  - destruct (chase_total b key Hb) as (c & Ec).
    eapply steps_bind; [by apply (steps_lift _ _ _ c _ (λ a _, a = c))|]. intros ? σ2 K2 ->. destruct c.
    + eapply steps_bind; [apply validate_step|]. intros [] σ3 K3 Hb2.
      assert (Hh2 : holds σ2 V) by (by eapply keeps_holds).
      destruct (toward_chased σ2 cur b h pre Hh2 Ht Hb2 Hl Ec) as (_ & l & es & Hr & _ & Ht').
      rewrite (proj2 (Z.eqb_neq _ _) Hr).
      eapply steps_bind; [apply steps_fix_orphan; [by eapply keeps_holds|by eapply toward_node]|]. intros ? σ4 K4 [-> _].
      eapply steps_bind; [apply validate_step|]. intros [] σ5 K5 _. eapply IH; [|exact Ht'].
      do 3 (eapply keeps_holds; [done|]). done.
    + apply steps_ret. split_and!; [by eauto|done|done|done].
  - destruct h as [|h].
    + destruct (toward_leaf _ _ _ _ _ T key pre cur Ht) as (l & es & post & _ & _ & HV).
      eapply steps_bind; [by eapply step_child_torn|]. done.
    + destruct (toward_inner _ _ _ _ _ _ Ht) as (ks & cps & HV & Hcps).
      eapply steps_bind; [eapply step_child_spec; [apply try_pin_resident_ok|apply publish_child_ok|done|done|done|done]|].
      intros child σ2 K2 (_ & pos & Hc & Hx).
      destruct (toward_child V ls key h pre cur ks cps pos child Ht HV Hc Hx) as (pre' & Ht').
      eapply IH; [by eapply keeps_holds|exact Ht'].
Qed.

Lemma start_at_root_spec pin σ :
  pin_ok V pin → holds σ V → root_pid σ = root →
  steps V anywhere (start_at_root self pin key) σ (λ cur _, ∃ h pre, (h ≤ h0)%nat ∧ toward V ls key h pre cur).
Proof.
  intros Hpin Hh Hroot. unfold start_at_root. destruct (meta_swip_ok σ) as [Ht Hin].
  destruct (word_target_ok _ _ _ Ht) as (s & Hv & Hw & _).
  assert (Hfix : ∀ σ', root_pid σ' = root → steps V anywhere (call fix_stable) σ' (λ cur _, ∃ h pre, (h ≤ h0)%nat ∧ toward V ls key h pre cur)).
  { intros σ' Hr. eapply steps_mono; [apply steps_fix_stable|]. intros ? σ'' _ [-> _]. rewrite Hr.
    exists h0, []. split; [done|]. by eapply toward_root. }
  eapply steps_bind; [by apply (steps_get _ _ meta_swip σ (λ w σ', w = meta_swip σ ∧ σ' = σ))|]. intros ? ? _ [-> ->].
  destruct (_ || _) eqn:Hr; [|by apply Hfix].
  destruct (is_encode _ (swip_valid_ok _ Hv)) as (Hhot & Hcool & _).
  assert (∃ a, (s = HotPtr a ∨ s = CoolPtr a)) as [a Ha].
  { rewrite Hw, Hhot, Hcool in Hr. destruct s; [by eauto|by eauto|done]. }
  assert (Ef : BufferFrameRef.from_hot_swip (meta_swip σ) = Ret (Some a))
    by (rewrite Hw, from_hot_swip_encode by done; by destruct Ha as [-> | ->]).
  eapply steps_bind; [by apply (steps_lift _ _ _ _ _ (λ x σ', x = Some a ∧ σ' = σ) Ef)|]. intros ? ? _ [-> ->].
  eapply steps_bind; [by apply (steps_or_restart _ _ _ _ (λ x σ', x = a ∧ σ' = σ))|]. intros ? ? _ [-> ->].
  assert (Hk : contains_frame σ a = true) by (apply Hin; rewrite Hw; by destruct Ha as [-> | ->]; eauto).
  eapply steps_bind; [by apply (steps_get _ _ (λ σ, contains_frame σ a) σ (λ x σ', x = true ∧ σ' = σ))|]. intros ? ? _ [-> ->].
  eapply steps_bind; [by apply (steps_lift _ _ _ tt _ (λ _ σ', σ' = σ)); [by apply debug_assert_true|]|]. intros ? ? _ ->.
  eapply steps_bind; [by apply (steps_get _ _ (λ s, word_target s (meta_swip σ)) σ (λ x σ', x = Some root ∧ σ' = σ)); rewrite Ht, Hroot|].
  intros ? ? _ [-> ->].
  eapply steps_bind; [by apply (steps_or_restart _ _ _ _ (λ x σ', x = root ∧ σ' = σ))|]. intros ? ? _ [-> ->].
  eapply steps_bind.
  { unfold optimistic_or_restart. eapply steps_bind; [apply steps_call, optimistic_ok|]. intros o σ1 K1 Ho.
    by apply (steps_or_restart _ _ _ _ (λ b _, zlen b = PAGE_SIZE)); destruct o. }
  intros b σ1 K1 Hb. assert (Hh1 : holds σ1 V) by (by eapply keeps_holds).
  destruct (BTreeNode.is_leaf b) eqn:Hl; [apply Hfix; destruct K1 as (_ & -> & _); done|].
  pose proof (toward_root _ _ _ _ _ T key) as Htr. destruct h0 as [|h] eqn:Eh.
  - destruct (toward_leaf _ _ _ _ _ T key [] root Htr) as (l & es & post & _ & _ & HV).
    eapply steps_mono; [by eapply step_child_torn|]. done.
  - destruct (toward_inner _ _ _ _ _ _ Htr) as (ks & cps & HV & Hcps).
    eapply steps_mono; [eapply step_child_spec; [done|apply publish_root_child_ok|done|done|done|done]|].
    intros child σ2 K2 (_ & pos & Hc & Hx).
    destruct (toward_child V ls key h [] root ks cps pos child Htr HV Hc Hx) as (pre' & Ht'). exists h, pre'. split; [lia|done].
Qed.

Lemma find_leaf_optimistic_spec σ :
  holds σ V → root_pid σ = root →
  steps V anywhere (find_leaf_optimistic self key) σ (λ r _, stopped r.1 r.2).
Proof.
  intros Hh Hr. unfold find_leaf_optimistic.
  eapply steps_bind; [apply start_at_root_spec; [apply pin_route_ok|done|done]|].
  intros cur σ1 K1 (h & pre & _ & Ht). eapply optimistic_loop_spec; [by eapply keeps_holds|exact Ht].
Qed.

(** The bytes of a validated stop are the leaf that answers for the key. *)
Lemma stopped_leaf σ cur b :
  holds σ V → stopped cur b → page_bytes σ cur = b →
  ∃ l r es, leaf_page b l r es ∧ keys_sorted es ∧ m !! key = contents es !! key.
Proof.
  intros Hh ((h & pre & Ht) & _ & Hl & Hc) Hb. destruct h as [|h].
  - destruct (toward_leaf _ _ _ _ _ T key pre cur Ht) as (l & es & post & Hls & _ & HV).
    destruct (holds_leaf V σ cur _ _ es Hh HV) as [P Hs]. rewrite Hb in P. rewrite (chase_spec _ _ _ _ _ P Hs) in Hc.
    injection Hc as Hc. apply bool_decide_eq_false_1 in Hc. exists l, (pid_at post 0), es. split_and!; [done|done|].
    by eapply toward_found.
  - destruct (toward_inner _ _ _ _ _ _ Ht) as (ks & cps & HV & _).
    rewrite <-Hb, (inner_bytes σ cur ks cps Hh HV) in Hl. done.
Qed.
End descent.

(** * B-tree: lookups

    The latched fallback finds the leaf that answers for a key, and the
    lookups return what the tree binds the key to, unless the pool refuses to
    pin a resident child 64 times. *)

#[local] Open Scope Z_scope.
Import SlottedHeader SlottedPage.

(** No restart. *)
Definition nowhere `{PoolOps} : pool → Prop := λ _, False.

Section latched.
Context `{Build} `{PoolOps} `{!PoolLaws} (V : gmap Z node_view).

Lemma resolve_spec N route σ q :
  holds σ V → is_Some (V !! q) → word_target σ (RoutedChildRef.swip route) = Some q →
  steps V N (try_resolve_resident route) σ
    (λ o σ', match o with Some c => c = q | None => (credit σ' < credit σ)%nat end).
Proof.
  intros Hh Hq Ht. unfold try_resolve_resident. destruct (RoutedChildRef.is_resident route) eqn:Hr.
  - eapply steps_mono; [apply steps_try_pin_child|]. intros [c|] σ' _ [_ Hp]; [symmetry; by apply Hp|]. by eapply Hp.
  - destruct (evicted_target σ route q Ht Hr) as (_ & E & _).
    eapply steps_lift_bind; [exact E|]. eapply steps_mono; [by apply steps_try_fix_orphan|]. intros [c|] σ' _ Hc; [apply Hc|done].
Qed.

(** What is read from a leaf that answers for the key. *)
Lemma read_value_spec p l r es key :
  leaf_page p l r es → keys_sorted es → read_value key (Some p) = Ret (contents es !! key).
Proof.
  intros P Hs. pose proof (leaf_wf _ _ _ _ P) as W. cbn [read_value].
  destruct (lower_bound_located W Hs key) as (pos & ex & -> & Hl). rewrite bind_Ret. cbn [fst snd]. destruct ex.
  - destruct (contents_exact _ _ _ Hs Hl) as (v & Hv & ->). destruct (located_nat _ _ _ _ Hl) as (i & -> & _).
    rewrite Nat2Z.id in Hv. by rewrite (get_value_wf _ _ _ _ _ W Hv).
  - by destruct (insert_at_sorted es key [] pos Hs Hl) as (_ & _ & ->).
Qed.
End latched.

Section fallback.
Context `{Build} `{PoolOps} `{!PoolLaws}.
Context (V : gmap Z node_view) (root : Z) (h0 : nat) (ls : list (Z * list entry)) (m : gmap (list byte) (list byte)).
Context (T : tree V root h0 ls m) (key : list byte).
Implicit Types (σ : pool).

(** The turns of the loop between two failures of the pool. *)
Definition turns : nat := h0 + length ls + 3.

(** Fuel for a search at a node, and for one that starts again. *)
Definition enough (fuel : nat) σ (cur : option Z) : Prop :=
  match cur with
  | None => (credit σ * turns + h0 + length ls + 2 ≤ fuel)%nat
  | Some cur => ∃ h pre, toward V ls key h pre cur ∧
      (credit σ * turns + h + (length ls - length pre) + 1 ≤ fuel)%nat
  end.

(** The leaf that answers, or none after too many failures. *)
Definition answers (attempts : nat) σ (o : option page) σ' : Prop :=
  match o with
  | Some p => ∃ l r es, leaf_page p l r es ∧ keys_sorted es ∧ m !! key = contents es !! key
  | None => (LOOKUP_OPTIMISTIC_RESTART_LIMIT ≤ attempts + (credit σ - credit σ'))%nat
  end.

Lemma credit_turns c c' : ((c' ≤ c)%nat → (c' * turns ≤ c * turns)%nat) ∧ ((c' < c)%nat → (c' * turns + turns ≤ c * turns)%nat).
Proof. split; intros Hc; [by apply Nat.mul_le_mono_r|]. transitivity (S c' * turns)%nat; [simpl; lia|by apply Nat.mul_le_mono_r]. Qed.

Lemma enough_restart fuel σ σ' n :
  (credit σ' < credit σ)%nat → (credit σ * turns + n + 1 ≤ S fuel)%nat → enough fuel σ' None.
Proof.
  intros Hc Hf. destruct (credit_turns (credit σ) (credit σ')) as [_ Ht]. specialize (Ht Hc). unfold enough, turns in *. lia.
Qed.

Lemma enough_step fuel σ σ' h h' (pre pre' : list (Z * list entry)) c :
  (credit σ' ≤ credit σ)%nat → (credit σ * turns + h + (length ls - length pre) + 1 ≤ S fuel)%nat →
  toward V ls key h' pre' c → (h' + (length ls - length pre') < h + (length ls - length pre))%nat →
  enough fuel σ' (Some c).
Proof.
  intros Hc Hf Ht Hlt. destruct (credit_turns (credit σ) (credit σ')) as [Hm _]. specialize (Hm Hc).
  exists h', pre'. split; [done|lia].
Qed.

Lemma answers_mono a a' σ σ1 σ' o :
  (a' + (credit σ1 - credit σ') ≤ a + (credit σ - credit σ'))%nat → answers a' σ1 o σ' → answers a σ o σ'.
Proof. destruct o; simpl; [done|lia]. Qed.

Lemma toward_pre_lt (pre : list (Z * list entry)) cur es r post :
  ls = pre ++ (cur, es) :: post → pid_at post 0 = r → r ≠ 0 → (S (length pre) < length ls)%nat.
Proof. intros -> <- Hr. destruct post; [done|]. rewrite length_app. simpl. lia. Qed.

Lemma fallback_loop_spec fuel : ∀ attempts cur σ,
  holds σ V → root_pid σ = root → enough fuel σ cur →
  steps V nowhere (fallback_loop fuel key attempts cur) σ (answers attempts σ).
Proof.
  induction fuel as [|fuel IH]; intros attempts cur σ Hh Hroot Hf; [exfalso; destruct cur; simpl in Hf; [destruct Hf as (? & ? & _ & ?)|]; lia|].
  assert (Hnext : ∀ a' cur' σ', keeps V σ σ' → (a' + (credit σ' - 0) ≤ attempts + (credit σ - 0))%nat → enough fuel σ' cur' →
    steps V nowhere (fallback_loop fuel key a' cur') σ' (answers attempts σ)).
  { intros a' cur' σ' K Ha He. eapply steps_mono; [apply IH; [by eapply keeps_holds|by destruct K as (_ & -> & _)|done]|].
    intros o σ'' K'. apply answers_mono. destruct K as (_ & _ & ? & _), K' as (_ & _ & ? & _). lia. }
  destruct cur as [cur|]; cbn [fallback_loop].
  2: { eapply steps_bind; [apply steps_fix_stable|]. intros ? σ1 K1 [-> _]. rewrite Hroot.
    pose proof K1 as (_ & _ & Hc & _). apply Hnext; [done|lia|].
    destruct (credit_turns (credit σ) (credit σ1)) as [Hm _]. specialize (Hm Hc). simpl in Hf.
    exists h0, []. split; [by eapply toward_root|]. simpl. lia. }
  destruct Hf as (h & pre & Ht & Hf).
  apply steps_latched_bind.
  destruct (BTreeNode.is_leaf (page_bytes σ cur)) eqn:Hl.
  - destruct h as [|h].
    2: { destruct (toward_inner _ _ _ _ _ _ Ht) as (ks & cps & HV & _). by rewrite (inner_bytes V σ cur ks cps Hh HV) in Hl. }
    destruct (toward_leaf _ _ _ _ _ T key pre cur Ht) as (l & es & post & Hls & _ & HV).
    destruct (holds_leaf V σ cur _ _ es Hh HV) as [P Hs]. pose proof (chase_spec _ _ _ _ key P Hs) as Ec.
    eapply steps_lift_bind; [exact Ec|].
    case_bool_decide as Hc.
    + destruct Hc as [Hr Hlt]. rewrite (leaf_right _ _ _ _ P), (proj2 (Z.eqb_neq _ _) Hr).
      pose proof (toward_right _ _ _ _ _ T key pre cur l _ es Ht HV Hr Hlt) as Ht'.
      pose proof (toward_pre_lt _ _ _ _ _ Hls eq_refl Hr) as Hpre.
      assert (Hen : ∀ σ', keeps V σ σ' → enough fuel σ' (Some (pid_at post 0))).
      { intros σ' (_ & _ & Hcr & _). eapply enough_step; [done|exact Hf|exact Ht'|]. rewrite length_app. simpl. lia. }
      eapply steps_bind; [apply steps_try_fix_orphan; [done|by eapply toward_node]|]. intros [c|] σ1 K1 Ho.
      * destruct Ho as [-> _]. apply Hnext; [done|destruct K1 as (_ & _ & ? & _); lia|by apply Hen].
      * eapply steps_bind; [apply steps_fix_orphan; [by eapply keeps_holds|by eapply toward_node]|]. intros ? σ2 K2 [-> _].
        assert (K : keeps V σ σ2) by (by etrans). apply Hnext; [done|destruct K2 as (_ & _ & ? & _); lia|by apply Hen].
    + apply steps_ret. exists l, (pid_at post 0), es. split_and!; [done|done|]. by eapply toward_found.
  - destruct h as [|h].
    { destruct (toward_leaf _ _ _ _ _ T key pre cur Ht) as (l & es & post & _ & _ & HV). by rewrite (leaf_bytes V σ cur _ _ _ Hh HV) in Hl. }
    destruct (toward_inner _ _ _ _ _ _ Ht) as (ks & cps & HV & Hcps).
    destruct (routed_some V σ cur key ks cps Hh HV) as (route & Er).
    eapply steps_lift_bind; [exact Er|].
    destruct (routed V σ cur _ key ks cps route Hh HV eq_refl Er) as (pos & q & Hq & Htq & _ & Hx).
    destruct (toward_child V ls key h pre cur ks cps pos q Ht HV Hq Hx) as (pre' & Ht').
    assert (Hen : ∀ σ', keeps V σ σ' → enough fuel σ' (Some q)).
    { intros σ' (_ & _ & Hcr & _). eapply enough_step; [done|exact Hf|exact Ht'|]. rewrite length_app. lia. }
    eapply steps_bind; [apply resolve_spec; [done|by eapply Hcps, list_elem_of_lookup_2|done]|]. intros [c|] σ1 K1 Ho.
    { subst c. apply Hnext; [done|destruct K1 as (_ & _ & ? & _); lia|by apply Hen]. }
    destruct (RoutedChildRef.is_resident route) eqn:Hres; cbn [negb].
    + case_bool_decide as Ha.
      * apply steps_ret. simpl. lia.
      * apply Hnext; [done|lia|]. apply (enough_restart _ _ _ (S h + (length ls - length pre)) Ho). lia.
    + destruct (evicted_target σ route q Htq Hres) as (Eid & _ & _).
      eapply steps_lift_bind; [exact Eid|].
      assert (Hh1 : holds σ1 V) by (by eapply keeps_holds).
      eapply steps_bind; [apply steps_fix_orphan; [done|by eapply toward_node]|]. intros ? σ2 K2 [-> _].
      assert (Hh2 : holds σ2 V) by (by eapply keeps_holds).
      eapply steps_bind; [by apply steps_fix_orphan|]. intros ? σ3 K3 [-> _].
      assert (K : keeps V σ σ3) by (etrans; [exact K1|]; by etrans).
      assert (Hc3 : (credit σ3 < credit σ)%nat) by (destruct K2 as (_ & _ & ? & _), K3 as (_ & _ & ? & _); lia).
      assert (Hh3 : holds σ3 V) by (by eapply keeps_holds).
      apply steps_latched_bind.
      destruct (routed_some V σ3 cur key ks cps Hh3 HV) as (route2 & Er2).
      eapply steps_lift_bind; [exact Er2|].
      destruct (routed V σ3 cur _ key ks cps route2 Hh3 HV eq_refl Er2) as (pos2 & q2 & Hq2 & Htq2 & _).
      eapply steps_bind; [apply resolve_spec; [done|by eapply Hcps, list_elem_of_lookup_2|done]|]. intros o σ4 K4 _.
      assert (K' : keeps V σ σ4) by (by etrans).
      assert (Hc4 : (credit σ4 < credit σ)%nat) by (destruct K4 as (_ & _ & ? & _); lia).
      destruct (_ =? q); (apply Hnext; [done|lia|]); [by apply Hen|]. apply (enough_restart _ _ _ (S h + (length ls - length pre)) Hc4). lia.
Qed.
End fallback.

(** ** Lookups *)

Section lookups.
Context `{Build} `{PoolOps} `{!PoolLaws} (self : BTree.t).
Context (V : gmap Z node_view) (root : Z) (h0 : nat) (ls : list (Z * list entry)) (m : gmap (list byte) (list byte)).
Context (T : tree V root h0 ls m) (key : list byte).
Implicit Types (σ : pool).

(** A restart that is caught. *)
Lemma steps_attempt {A} N (c : R A) σ (P : A → pool → Prop) :
  steps V N c σ P → steps V nowhere (attempt c) σ (λ o σ', match o with Some a => P a σ' | None => N σ' end).
Proof. unfold steps, attempt. by destruct (c σ) as [[σ' o]|]. Qed.

(** A reader of optimistic leaves: it does not panic on any bytes, and on a
    leaf it returns [g] of what the leaf binds the key to. *)
Definition reader {A} (read : page → Z → bool → R (option A)) (g : option (list byte) → option A) : Prop :=
  ∀ b pos ex σ, zlen b = PAGE_SIZE → ∃ o, read b pos ex σ = Ret (σ, o) ∧
    ∀ l r es a, leaf_page b l r es → keys_sorted es → located es key pos ex → o = Some a → a = g (contents es !! key).

(** The value that both readers look at. *)
Lemma optimistic_value b pos :
  zlen b = PAGE_SIZE → ∃ o, try_get_value b pos = Ret o ∧
    ∀ l r es, leaf_page b l r es → keys_sorted es → located es key pos true → o = contents es !! key.
Proof.
  intros Hb. destruct (try_get_value_total Hb pos) as (o & Eo). exists o. split; [done|].
  intros l r es P Hs Hl. pose proof (leaf_wf _ _ _ _ P) as W. destruct (contents_exact _ _ _ Hs Hl) as (v & Hv & ->).
  destruct (located_nat _ _ _ _ Hl) as (i & -> & _). rewrite Nat2Z.id in Hv.
  rewrite (try_get_value_wf W _ _ Hv) in Eo. by injection Eo as <-.
Qed.

Lemma contents_inexact es pos : keys_sorted es → located es key pos false → contents es !! key = None.
Proof. intros Hs Hl. by destruct (insert_at_sorted es key [] pos Hs Hl) as (_ & _ & ->). Qed.

Lemma read_optimistic_ok : reader read_optimistic (λ o, o).
Proof.
  intros b pos ex σ Hb. unfold read_optimistic. destruct ex; cbn [negb].
  - destruct (optimistic_value b pos Hb) as (o & Eo & Ho). unfold R_bind, lift, or_restart. rewrite Eo. cbn.
    destruct o as [v|]; cbn; (eexists; split; [done|]).
    + intros l r es a P Hs Hl [= <-]. by eapply Ho.
    + by intros l r es a P Hs Hl.
  - eexists. split; [done|]. intros l r es a P Hs Hl [= <-]. symmetry. by eapply contents_inexact.
Qed.

Lemma read_optimistic_fixed_ok n : reader (read_optimistic_fixed n) (fixed n).
Proof.
  intros b pos ex σ Hb. unfold read_optimistic_fixed. destruct ex; cbn [negb].
  - destruct (optimistic_value b pos Hb) as (o & Eo & Ho). unfold R_bind, lift, or_restart. rewrite Eo. cbn.
    destruct o as [v|]; cbn; (eexists; split; [done|]).
    + intros l r es a P Hs Hl [= <-]. rewrite <-(Ho l r es P Hs Hl). done.
    + by intros l r es a P Hs Hl.
  - eexists. split; [done|]. intros l r es a P Hs Hl [= <-]. by rewrite (contents_inexact es pos Hs Hl).
Qed.

(** A read that validates returns what the tree binds the key to. *)
Lemma try_read_spec {A} (read : page → Z → bool → R (option A)) g σ :
  reader read g → holds σ V → root_pid σ = root →
  steps V anywhere (try_read_optimistic_leaf self key read) σ (λ o _, o = g (m !! key)).
Proof.
  intros Hread Hh Hr. unfold try_read_optimistic_leaf.
  eapply steps_bind; [by apply (find_leaf_optimistic_spec self V root h0 ls m T key)|]. intros [cur b] σ1 K1 Hst. cbn [fst snd] in *.
  assert (Hb : zlen b = PAGE_SIZE) by apply Hst.
  destruct (try_lower_bound_torn Hb key) as (o & Eo & _). eapply steps_lift_bind; [exact Eo|].
  destruct o as [[pos ex]|]; [|by split; [reflexivity|]].
  eapply steps_bind; [by apply (steps_or_restart _ _ _ _ (λ x σ', x = (pos, ex) ∧ σ' = σ1))|]. intros ? ? _ [-> ->]. cbn [fst snd].
  destruct (Hread b pos ex σ1 Hb) as (a & Ea & Ha).
  eapply (steps_bind _ _ _ _ _ (λ x σ', a = Some x ∧ σ' = σ1)).
  { unfold steps. rewrite Ea. split; [reflexivity|by destruct a]. }
  intros x ? _ [-> ->]. eapply steps_bind; [apply validate_step|]. intros [] σ2 K2 Hv.
  apply steps_ret. assert (Hh1 : holds σ1 V) by (by eapply keeps_holds).
  destruct (stopped_leaf V root h0 ls m T key σ1 cur b Hh1 Hst Hv) as (l & r & es & P & Hs & ->).
  apply (Ha l r es x P Hs); [|done]. pose proof (leaf_wf _ _ _ _ P) as W.
  destruct (lower_bound_located W Hs key) as (pos' & ex' & El & Hl).
  rewrite (try_lower_bound_agree W), El in Eo. by injection Eo as -> ->.
Qed.

(** What a lookup returns: [g] of what the tree binds the key to; [g None]
    instead only after the pool has failed 64 times. *)
Definition looks_up {A} (g : option (list byte) → A) σ (a : A) σ' : Prop :=
  a = g (m !! key) ∨ (a = g None ∧ LOOKUP_OPTIMISTIC_RESTART_LIMIT ≤ credit σ - credit σ')%nat.

Lemma looks_up_mono {A} (g : option (list byte) → A) σ σ1 a σ' :
  keeps V σ σ1 → looks_up g σ1 a σ' → looks_up g σ a σ'.
Proof. intros (_ & _ & ? & _) [?|[? ?]]; [by left|]. right. split; [done|lia]. Qed.

(** Fuel for a latched search. *)
Definition fuel_for σ : nat := credit σ * (h0 + length ls + 3) + h0 + length ls + 2.

Lemma with_leaf_spec {A} fuel (g : option (list byte) → A) σ :
  holds σ V → root_pid σ = root → (fuel_for σ ≤ fuel)%nat →
  steps V nowhere (with_lookup_fallback_leaf fuel key (λ leaf, o ← read_value key leaf; Ret (g o))) σ (looks_up g σ).
Proof.
  intros Hh Hr Hf. unfold with_lookup_fallback_leaf.
  eapply steps_bind; [by eapply (fallback_loop_spec V root h0 ls m T key fuel 0 None)|]. intros o σ1 K1 Ho.
  destruct o as [p|]; cbn in Ho.
  - destruct Ho as (l & r & es & P & Hs & E). eapply steps_lift; [by rewrite (read_value_spec p l r es key P Hs), bind_Ret|].
    left. by rewrite E.
  - eapply steps_lift; [done|]. right. split; [done|lia].
Qed.

Lemma fuel_for_mono σ σ' : keeps V σ σ' → (fuel_for σ' ≤ fuel_for σ)%nat.
Proof. intros (_ & _ & Hc & _). unfold fuel_for. pose proof (Nat.mul_le_mono_r _ _ (h0 + length ls + 3) Hc). lia. Qed.

Lemma lookup_loop_spec {A} (read : page → Z → bool → R (option A)) g fuel fallback tries : ∀ σ,
  reader read g →
  (∀ σ', holds σ' V → root_pid σ' = root → (fuel_for σ' ≤ fuel)%nat → steps V nowhere fallback σ' (looks_up g σ')) →
  holds σ V → root_pid σ = root → (fuel_for σ ≤ fuel)%nat →
  steps V nowhere (lookup_loop self tries key read fallback) σ (looks_up g σ).
Proof.
  induction tries as [|tries IH]; intros σ Hread Hfb Hh Hr Hf; cbn [lookup_loop]; [by apply Hfb|].
  eapply steps_bind; [eapply steps_attempt, try_read_spec; done|]. intros o σ1 K1 Ho.
  pose proof (fuel_for_mono _ _ K1) as Hf1.
  assert (Hh1 : holds σ1 V) by (by eapply keeps_holds). assert (Hr1 : root_pid σ1 = root) by (by destruct K1 as (_ & -> & _)).
  destruct o as [[a|]|].
  - apply steps_ret. by left.
  - eapply steps_mono; [apply Hfb; [done|done|lia]|]. intros a σ2 _. by apply looks_up_mono.
  - eapply steps_mono; [apply IH; [done|done|done|done|lia]|]. intros a σ2 _. by apply looks_up_mono.
Qed.

Lemma lookup_fallback_spec fuel σ :
  holds σ V → root_pid σ = root → (fuel_for σ ≤ fuel)%nat →
  steps V nowhere (lookup_fallback fuel key) σ (looks_up (λ o, o) σ).
Proof.
  intros Hh Hr Hf. pose proof (with_leaf_spec fuel (λ o, o) σ Hh Hr Hf) as Hw.
  unfold lookup_fallback, with_lookup_fallback_leaf, steps, R_bind, lift in *.
  destruct (fallback_loop fuel key 0 None σ) as [[σ' [o|]]|]; [|done|done]. by destruct (read_value key o).
Qed.
End lookups.
