(* ===== verification/BTreeScan.v ===== *)
(** * B-tree: scans

    Models the scans of [src/crates/btree/src/btree.rs] and the latched
    descents they start with. A callback is a function on a state of its own;
    the callbacks of the [_until] scans also say whether to go on. Loops the
    source does not bound take fuel, as in the file on reading. *)

From S2P Require Import Prelude Bytes FrameKernel SwipKernel PageHeader PageMutation Slotted BufferFrame BTreeNode BTreePages BTreePool BTreeRead.
#[local] Open Scope Z_scope.
Import SlottedHeader SlottedPage.
#[local] Notation entry := (list byte * list byte)%type (only parsing).

(** [std::ops::Bound]. *)
Inductive Bound := Included (key : list byte) | Excluded (key : list byte) | Unbounded.

Definition starts_with (k prefix : list byte) : bool := bool_decide (take (length prefix) k = prefix).

Definition within_upper (upper : Bound) (key : list byte) : bool :=
  match upper with
  | Unbounded => true
  | Included limit => key_leb key limit
  | Excluded limit => key_ltb key limit
  end.
Definition within_lower (lower : Bound) (key : list byte) : bool :=
  match lower with
  | Unbounded => true
  | Included lo => key_leb lo key
  | Excluded lo => key_ltb lo key
  end.

Section scan.
Context `{Build} `{PoolOps} (self : BTree.t).
#[local] Open Scope restart_scope.

(** ** Latched descents *)

Fixpoint shared_fallback_loop (fuel : nat) (key : list byte) (cur : Z) : R page :=
  match fuel with
  | O => λ _, Panic
  | S fuel =>
      let! p := latched cur in
      if BTreeNode.is_leaf p then
        let! chase := lift (ResidentFrame.should_chase_right p key) in
        if chase then
          let right_pid := BTreeNode.leaf_right_pid p in
          if right_pid =? 0 then restart else
          let! next := call (λ σ, fix_orphan_frame σ right_pid) in
          shared_fallback_loop fuel key next
        else R_ret p
      else
        let! o := lift (ResidentFrame.try_route_to_child p key) in
        let! route := or_restart o in
        if RoutedChildRef.is_resident route then
          let! o := try_pin_resident route in
          let! child := or_restart o in
          shared_fallback_loop fuel key child
        else
          let! child_pid := lift (RoutedChildRef.evicted_page_id route) in
          let! child := call (λ σ, fix_orphan_frame σ child_pid) in
          let! parent := call (λ σ, fix_orphan_frame σ cur) in
          let! p := latched parent in
          let! o := lift (ResidentFrame.try_route_to_child p key) in
          let! re_routed := or_restart o in
          let! o := try_resolve_resident re_routed in
          if negb (default 0 o =? child_pid) then restart
          else shared_fallback_loop fuel key child
  end.

Definition find_leaf_shared_fallback (fuel : nat) (key : list byte) : R page :=
  let! root := call fix_stable in shared_fallback_loop fuel key root.

Fixpoint shared_nonblocking_loop (fuel : nat) (key : list byte) (cur : Z) : R page :=
  match fuel with
  | O => λ _, Panic
  | S fuel =>
      let! p := latched cur in
      if BTreeNode.is_leaf p then
        let! chase := lift (ResidentFrame.should_chase_right p key) in
        if chase then
          let right_pid := BTreeNode.leaf_right_pid p in
          if right_pid =? 0 then restart else
          let! o := call (λ σ, try_fix_orphan_frame σ right_pid) in
          let! next := or_restart o in
          shared_nonblocking_loop fuel key next
        else R_ret p
      else
        let! o := lift (ResidentFrame.try_route_to_child p key) in
        let! route := or_restart o in
        let! o := (if RoutedChildRef.is_resident route then try_pin_resident route
                   else let! pid := lift (RoutedChildRef.evicted_page_id route) in
                        call (λ σ, try_fix_orphan_frame σ pid)) in
        let! child := or_restart o in
        shared_nonblocking_loop fuel key child
  end.

Definition find_leaf_shared_nonblocking (fuel : nat) (key : list byte) : R page :=
  let! root := call fix_stable in shared_nonblocking_loop fuel key root.

Fixpoint rightmost_loop (fuel : nat) (cur : Z) : R page :=
  match fuel with
  | O => λ _, Panic
  | S fuel =>
      let! p := latched cur in
      if BTreeNode.is_leaf p then R_ret p else
      let upper_route := {| RoutedChildRef.swip := BTreeNode.upper_swip p; RoutedChildRef.edge := ParentEdge.Upper |} in
      let! o := try_resolve_resident upper_route in
      let! child := or_restart o in
      rightmost_loop fuel child
  end.

Definition find_rightmost_leaf_shared_fallback (fuel : nat) : R page :=
  let! root := call fix_stable in rightmost_loop fuel root.

(** ** The scan of all entries *)

(** [for i in start_pos..count] of [collect_scan_leaf_entries]. *)
Fixpoint collect_loop (leaf : page) (ids : list Z) : outcome (option (list entry)) :=
  match ids with
  | [] => Ret (Some [])
  | i :: ids =>
      key ←? try_get_key leaf i;
      value ←? try_get_value leaf i;
      rest ←? collect_loop leaf ids;
      Ret (Some ((key, value) :: rest))
  end.

Definition collect_scan_leaf_entries (leaf : page) (current_key : list byte) : outcome (option (list entry)) :=
  let count := num_slots leaf in
  r ←? try_lower_bound leaf current_key;
  collect_loop leaf (seqZ r.1 (count - r.1)).

(** The inner loop of [scan], by the count of attempts. *)
Fixpoint scan_leaf_loop (tries fuel attempts : nat) (current_key : list byte) : R (list entry) :=
  match tries with
  | O => λ _, Panic
  | S tries =>
      let! o := attempt (
        if bool_decide (64 ≤ attempts)%nat then find_leaf_shared_fallback fuel current_key
        else if bool_decide (16 ≤ attempts)%nat then find_leaf_shared_nonblocking fuel current_key
        else let! leaf := find_leaf_optimistic self current_key in
             let! ok := call (λ σ, upgrade_to_shared σ leaf.1 leaf.2) in
             guard_restart ok ;!
             latched leaf.1) in
      match o with
      | None => scan_leaf_loop tries fuel (S attempts) current_key
      | Some leaf =>
          let! o := lift (collect_scan_leaf_entries leaf current_key) in
          match o with
          | Some entries => R_ret entries
          | None => scan_leaf_loop tries fuel 0 current_key
          end
      end
  end.

Fixpoint scan_leaves {A} (leaves tries fuel : nat) (f : A → list byte → list byte → A) (a : A) (current_key : list byte) : R A :=
  match leaves with
  | O => λ _, Panic
  | S leaves =>
      let! entries := scan_leaf_loop tries fuel 0 current_key in
      match last entries with
      | None => R_ret a
      | Some (last_key, _) =>
          let a := foldl (λ a e, f a e.1 e.2) a entries in
          let next_key := last_key ++ [x00] in
          if key_leb next_key current_key then R_ret a
          else scan_leaves leaves tries fuel f a next_key
      end
  end.

Definition scan {A} (leaves tries fuel : nat) (f : A → list byte → list byte → A) (a : A) : R A :=
  scan_leaves leaves tries fuel f a [].

(** ** Ascending scans *)

(** How a pass over a leaf ends: at its last slot, at a key that is not
    wanted, or because the callback says so. *)
Inductive leaf_end := Exhausted | Unwanted | Finished.

Fixpoint leaf_pass {A} (wanted : list byte → bool) (f : A → list byte → list byte → A * bool) (leaf : page)
    (ids : list Z) (a : A) : outcome (A * leaf_end) :=
  match ids with
  | [] => Ret (a, Exhausted)
  | i :: ids =>
      key ← get_key leaf i;
      if negb (wanted key) then Ret (a, Unwanted) else
      value ← get_value leaf i;
      let '(a, more) := f a key value in
      if negb more then Ret (a, Finished) else leaf_pass wanted f leaf ids a
  end.

(** The loop over leaves of [scan_prefix_borrowed_until] and
    [scan_range_until], from a position of the first leaf. *)
Fixpoint ascend {A} (fuel : nat) (wanted : list byte → bool) (f : A → list byte → list byte → A * bool) (leaf : page)
    (start_pos : Z) (a : A) : R A :=
  match fuel with
  | O => λ _, Panic
  | S fuel =>
      let count := num_slots leaf in
      let! r := lift (leaf_pass wanted f leaf (seqZ start_pos (count - start_pos)) a) in
      match r with
      | (a, Finished) => R_ret a
      | (a, ending) =>
          let right_pid := BTreeNode.leaf_right_pid leaf in
          if (if ending is Unwanted then true else false) || (right_pid =? 0) then R_ret a else
          let! right_leaf := call (λ σ, fix_orphan_frame σ right_pid) in
          let! leaf := latched right_leaf in
          ascend fuel wanted f leaf 0 a
      end
  end.

Definition scan_prefix_borrowed_until {A} (fuel : nat) (prefix : list byte) (f : A → list byte → list byte → A * bool)
    (a : A) : R A :=
  let! o := attempt (find_leaf_shared_fallback fuel prefix) in
  match o with
  | None => R_ret a
  | Some leaf =>
      let! r := lift (lower_bound leaf prefix) in
      ascend fuel (λ k, starts_with k prefix) f leaf r.1 a
  end.

Definition scan_prefix {A} (fuel : nat) (prefix : list byte) (f : A → list byte → list byte → A) (a : A) : R A :=
  scan_prefix_borrowed_until fuel prefix (λ a k v, (f a k v, true)) a.
Definition scan_prefix_until {A} (fuel : nat) (prefix : list byte) (f : A → list byte → list byte → A * bool) (a : A) : R A :=
  scan_prefix_borrowed_until fuel prefix f a.

(** The first position of a range in the leaf it starts in. *)
Definition range_start (lower : Bound) (leaf : page) : outcome Z :=
  match lower with
  | Unbounded => Ret 0
  | Included key => r ← lower_bound leaf key; Ret r.1
  | Excluded key => r ← lower_bound leaf key; Ret (if r.2 : bool then r.1 + 1 else r.1)
  end.

Definition scan_range_until {A} (fuel : nat) (lower upper : Bound) (f : A → list byte → list byte → A * bool) (a : A) : R A :=
  let start_key := match lower with Unbounded => [] | Included key | Excluded key => key end in
  let! o := attempt (find_leaf_shared_fallback fuel start_key) in
  match o with
  | None => R_ret a
  | Some leaf =>
      let! start_pos := lift (range_start lower leaf) in
      ascend fuel (within_upper upper) f leaf start_pos a
  end.

Definition scan_range {A} (fuel : nat) (lower upper : Bound) (f : A → list byte → list byte → A) (a : A) : R A :=
  scan_range_until fuel lower upper (λ a k v, (f a k v, true)) a.

(** ** The descending scan *)

(** [for i in (0..=start_pos).rev()]: the entries in the order they are
    pushed, and [hit_lower]. *)
Fixpoint desc_collect (lower : Bound) (leaf : page) (ids : list Z) : outcome (list entry * bool) :=
  match ids with
  | [] => Ret ([], false)
  | i :: ids =>
      k ← get_key leaf i;
      if negb (within_lower lower k) then Ret ([], true) else
      v ← get_value leaf i;
      r ← desc_collect lower leaf ids;
      Ret ((k, v) :: r.1, r.2)
  end.

(** The position the first leaf is read from. *)
Definition desc_start (upper : Bound) (leaf : page) (count : Z) : outcome (option Z) :=
  match upper with
  | Unbounded => Ret (Some (count - 1))
  | Included key =>
      r ← lower_bound leaf key;
      Ret (if r.2 : bool then Some r.1 else if r.1 =? 0 then None else Some (r.1 - 1))
  | Excluded key =>
      r ← lower_bound leaf key;
      Ret (if (r.2 : bool) || (0 <? r.1) then (if r.1 <? 1 then None else Some (r.1 - 1)) else None)
  end.

(** [for (k, v) in &entries { if !f(k, v) { return; } }]. *)
Fixpoint deliver {A} (f : A → list byte → list byte → A * bool) (es : list entry) (a : A) : A * bool :=
  match es with
  | [] => (a, true)
  | (k, v) :: es => let '(a, more) := f a k v in if more then deliver f es a else (a, false)
  end.

Fixpoint descend {A} (fuel : nat) (lower upper : Bound) (f : A → list byte → list byte → A * bool) (leaf : page)
    (first_leaf : bool) (a : A) : R A :=
  match fuel with
  | O => λ _, Panic
  | S fuel =>
      let count := num_slots leaf in
      let! start_pos := lift (if count =? 0 then Ret None
                              else if first_leaf then desc_start upper leaf count
                              else Ret (Some (count - 1))) in
      let! r := lift (match start_pos with
                      | Some start_pos => desc_collect lower leaf (reverse (seqZ 0 (start_pos + 1)))
                      | None => Ret ([], false)
                      end) in
      let '(entries, hit_lower) := r in
      let need_prev_leaf := (if start_pos is None then true else false) in
      let left_pid := BTreeNode.leaf_left_pid leaf in
      let '(a, more) := deliver f entries a in
      if negb more then R_ret a else
      if hit_lower || (left_pid =? 0) then R_ret a else
      if (if entries is [] then true else false) && negb need_prev_leaf then R_ret a else
      let! left_leaf := call (λ σ, fix_orphan_frame σ left_pid) in
      let! leaf := latched left_leaf in
      descend fuel lower upper f leaf false a
  end.

Definition scan_range_desc_until {A} (fuel : nat) (lower upper : Bound) (f : A → list byte → list byte → A * bool) (a : A)
    : R A :=
  let! o := attempt (match upper with
                     | Unbounded => find_rightmost_leaf_shared_fallback fuel
                     | Included key | Excluded key => find_leaf_shared_fallback fuel key
                     end) in
  match o with
  | None => R_ret a
  | Some leaf => descend fuel lower upper f leaf true a
  end.

Definition scan_range_desc {A} (fuel : nat) (lower upper : Bound) (f : A → list byte → list byte → A) (a : A) : R A :=
  scan_range_desc_until fuel lower upper (λ a k v, (f a k v, true)) a.

End scan.
