(* ===== verification/BTreeScanSpec.v ===== *)
(** * B-tree: latched descents

    The descents the scans start with end at the leaf where the scan is to
    start; they restart only when the pool has refused a pin. *)

From S2P Require Import Prelude Bytes FrameKernel SwipKernel PageHeader PageMutation Slotted SlottedInv SlottedOps SlottedSearch SlottedMutation SlottedSpec BufferFrame BTreeNode BTreeNodeInv BTreePages BTreeSplitSpec BTreeInnerSpec BTreeRoute BTreePool BTreeRead BTreeTree BTreeReadSpec BTreeScan.
#[local] Open Scope Z_scope.
Import SlottedHeader SlottedPage.

(** ** A search depends on the keys only

    Not on the values, nor on where keys and values are placed. *)

Section same_keys.
Context `{Build} {p p' : page} {Rp Rp' : Z} {es es' : list entry} (W : wf p Rp es) (W' : wf p' Rp' es').
Context (Hkeys : es.*1 = es'.*1) (key : list byte).

Lemma same_zlen : zlen es' = zlen es.
Proof. unfold zlen. by rewrite <-(length_fmap fst es), Hkeys, length_fmap. Qed.

Lemma same_lookup i e e' : es !! i = Some e → es' !! i = Some e' → e.1 = e'.1.
Proof.
  intros He He'. assert (E : es.*1 !! i = es'.*1 !! i) by (by rewrite Hkeys). rewrite !list_lookup_fmap, He, He' in E. by injection E.
Qed.

Lemma generic_loop_same k h fuel lo hi :
  0 ≤ lo ≤ hi → hi ≤ zlen es → lower_bound_generic_loop p k h fuel lo hi = lower_bound_generic_loop p' k h fuel lo hi.
Proof.
  revert lo hi. induction fuel as [|fuel IH]; intros lo hi ? ?; [done|]. cbn [lower_bound_generic_loop].
  destruct (Z.ltb_spec lo hi) as [Hlt|]; [|done]. pose proof same_zlen. pose proof (mid_between lo hi Hlt).
  set (mid := lo + (hi - lo) / 2) in *.
  destruct (probe W mid) as (e & He & -> & _ & Hp & -> & ->); [lia|].
  destruct (probe W' mid) as (e' & He' & _ & _ & Hp' & -> & ->); [lia|].
  rewrite !bind_Ret, (placed_head _ _ _ _ _ Hp), (placed_head _ _ _ _ _ Hp'), (same_lookup _ _ _ He He').
  destruct (_ ?= h); [|apply IH; lia..]. destruct (cmp_keys e'.1 k); [done|apply IH; lia..].
Qed.

Lemma generic_same k : lower_bound_generic p k = lower_bound_generic p' k.
Proof.
  unfold lower_bound_generic. rewrite (wf_num _ _ _ W), (wf_num _ _ _ W'), same_zlen. pose proof (zlen_nonneg es).
  destruct (_ =? 0); [done|]. apply generic_loop_same; lia.
Qed.

Lemma u64_loop_same k fuel lo hi :
  0 ≤ lo ≤ hi → hi ≤ zlen es → lower_bound_u64_loop p k fuel lo hi = lower_bound_u64_loop p' k fuel lo hi.
Proof.
  revert lo hi. induction fuel as [|fuel IH]; intros lo hi ? ?; [done|]. cbn [lower_bound_u64_loop].
  destruct (Z.ltb_spec lo hi) as [Hlt|]; [|done]. pose proof same_zlen. pose proof (mid_between lo hi Hlt).
  set (mid := lo + (hi - lo) / 2) in *.
  destruct (probe W mid) as (e & He & -> & _ & Hp & Hs & _); [lia|].
  destruct (probe W' mid) as (e' & He' & _ & _ & Hp' & Hs' & _); [lia|].
  unfold slot_key_u64. rewrite Hs, Hs', !bind_Ret, (key_u64_of_placed W _ _ _ Hp), (key_u64_of_placed W' _ _ _ Hp'), !bind_Ret.
  rewrite (same_lookup _ _ _ He He'). case_decide; [|apply generic_same].
  destruct (of_be_bytes e'.1 ?= k); [done|apply IH; lia..].
Qed.

Lemma lower_bound_same : lower_bound p key = lower_bound p' key.
Proof.
  unfold lower_bound. destruct (_ =? 8); [|apply generic_same]. destruct (read_be_u64 key) as [k|]; [|done]. rewrite !bind_Ret.
  unfold lower_bound_u64_be. rewrite (wf_num _ _ _ W), (wf_num _ _ _ W'), same_zlen. pose proof (zlen_nonneg es).
  destruct (_ =? 0); [done|]. apply u64_loop_same; lia.
Qed.
End same_keys.

Section same_route.
Context `{Build}.

Lemma inner_entries_keys cs : (inner_entries cs).*1 = seps cs.
Proof. apply list_eq. intros i. by rewrite seps_lookup, list_lookup_fmap. Qed.

(** Two inner pages with the same separators route a key to the same edge. *)
Lemma route_same p cs u p' cs' u' key r r' :
  inner_page p cs u → inner_page p' cs' u' → seps cs = seps cs' →
  ResidentFrame.try_route_to_child p key = Ret (Some r) → ResidentFrame.try_route_to_child p' key = Ret (Some r') →
  RoutedChildRef.edge r = RoutedChildRef.edge r'.
Proof.
  intros P P' Hs. pose proof (inner_wf _ _ _ P) as W. pose proof (inner_wf _ _ _ P') as W'.
  unfold ResidentFrame.try_route_to_child. rewrite (try_lower_bound_agree W), (try_lower_bound_agree W').
  rewrite (lower_bound_same W W') by (by rewrite !inner_entries_keys). rewrite (wf_num _ _ _ W), (wf_num _ _ _ W').
  rewrite (same_zlen (es := inner_entries cs) (es' := inner_entries cs')) by (by rewrite !inner_entries_keys).
  unfold lifted. destruct (lower_bound p' key) as [[pos ex]|]; [|done]. unfold opt_bind. rewrite !bind_Ret. cbn [fst].
  destruct (ParentEdge.from_pos pos _) as [i|] eqn:E.
  2: { by intros [= <-] [= <-]. }
  destruct (try_get_value p _) as [[v|]|]; try done. destruct (try_get_value p' _) as [[v'|]|]; try done. rewrite !bind_Ret.
  destruct (_ <? 8); [done|]. destruct (slice v 0 8); [|done]. destruct (zlen v' <? 8); [done|]. destruct (slice v' 0 8); [|done].
  rewrite !bind_Ret. by intros [= <-] [= <-].
Qed.
End same_route.

(** ** The chain of leaves *)

Section chain.
Context `{Build} `{PoolOps}.
Context (V : gmap Z node_view) (root : Z) (h0 : nat) (ls : list (Z * list entry)) (m : gmap (list byte) (list byte)).
Context (T : tree V root h0 ls m).

(** The page of the last leaf of a part of the chain, 0 if there is none. *)
Definition prev_pid (pre : list (Z * list entry)) : Z := default 0 (fst <$> last pre).

(** The bytes [p] of a leaf, between the leaves left and right of it. *)
Record at_leaf (p : page) (pre : list (Z * list entry)) (pid : Z) (es : list entry) (post : list (Z * list entry)) : Prop := {
  at_chain : ls = pre ++ (pid, es) :: post;
  at_page : leaf_page p (prev_pid pre) (pid_at post 0) es;
  at_sorted : keys_sorted es;
}.

Lemma chain_node pre pid es post :
  ls = pre ++ (pid, es) :: post → pid ≠ 0 ∧ V !! pid = Some (LeafView (prev_pid pre) (pid_at post 0) es).
Proof.
  intros Hls. destruct (tree_chain _ _ _ _ _ T (length pre) pid es) as [Hne HV].
  { rewrite Hls. by apply list_lookup_middle. }
  split; [done|]. rewrite HV, Hls, pid_at_next. f_equal. f_equal. destruct pre as [|x pre' _] using rev_ind; [done|].
  unfold prev_pid, pid_at. rewrite last_snoc, length_app, Nat.add_1_r, <-app_assoc. cbn [app].
  by rewrite list_lookup_middle.
Qed.

Lemma chain_at σ pre pid es post :
  holds σ V → ls = pre ++ (pid, es) :: post → at_leaf (page_bytes σ pid) pre pid es post.
Proof.
  intros Hh Hls. destruct (chain_node _ _ _ _ Hls) as [_ HV]. destruct (holds_leaf V σ pid _ _ es Hh HV). by constructor.
Qed.

(** A link to the right or left, and the leaf it leads to. *)
Lemma chain_right pre pid es post :
  ls = pre ++ (pid, es) :: post → pid_at post 0 ≠ 0 →
  ∃ es' post', post = (pid_at post 0, es') :: post' ∧ ls = (pre ++ [(pid, es)]) ++ (pid_at post 0, es') :: post' ∧
    is_Some (V !! pid_at post 0).
Proof.
  intros Hls Hne. destruct post as [|[q es'] post']; [done|]. exists es', post'.
  assert (Hls' : ls = (pre ++ [(pid, es)]) ++ (q, es') :: post') by (by rewrite <-app_assoc).
  destruct (chain_node _ _ _ _ Hls') as [_ HV]. split_and!; [done|done|]. by eexists.
Qed.

Lemma chain_left pre pid es post :
  ls = pre ++ (pid, es) :: post → prev_pid pre ≠ 0 →
  ∃ pre' es', pre = pre' ++ [(prev_pid pre, es')] ∧ ls = pre' ++ (prev_pid pre, es') :: (pid, es) :: post ∧
    is_Some (V !! prev_pid pre).
Proof.
  intros Hls Hne. destruct pre as [|[q es'] pre' _] using rev_ind; [done|]. exists pre', es'.
  assert (Hp : prev_pid (pre' ++ [(q, es')]) = q) by (unfold prev_pid; by rewrite last_snoc). rewrite Hp.
  assert (Hls' : ls = pre' ++ (q, es') :: (pid, es) :: post) by (rewrite Hls, <-app_assoc; done).
  destruct (chain_node _ _ _ _ Hls') as [_ HV]. split_and!; [done|done|]. by eexists.
Qed.

(** An end of the chain. *)
Lemma chain_end pre pid es post : ls = pre ++ (pid, es) :: post → pid_at post 0 = 0 → post = [].
Proof.
  intros Hls E. destruct post as [|[q es'] post']; [done|].
  assert (Hls' : ls = (pre ++ [(pid, es)]) ++ (q, es') :: post') by (by rewrite <-app_assoc).
  by destruct (chain_node _ _ _ _ Hls') as [Hne _].
Qed.

Lemma chain_start pre pid es post : ls = pre ++ (pid, es) :: post → prev_pid pre = 0 → pre = [].
Proof.
  intros Hls E. destruct pre as [|[q es'] pre' _] using rev_ind; [done|].
  assert (Hls' : ls = pre' ++ (q, es') :: (pid, es) :: post) by (rewrite Hls, <-app_assoc; done).
  destruct (chain_node _ _ _ _ Hls') as [Hne _]. unfold prev_pid in E. by rewrite last_snoc in E.
Qed.

(** ** Descents *)

Context `{!PoolLaws} (self : BTree.t) (key : list byte).

(** Where a search for a key ends. *)
Definition found (p : page) : Prop :=
  ∃ pre pid es post, at_leaf p pre pid es post ∧ below key (entries_of pre) ∧ (post = [] ∨ ¬ below key es).

(** A restart after a failure of the pool. *)
Definition fewer (c : nat) (σ : pool) : Prop := (credit σ < c)%nat.

Lemma toward_stop σ pre cur :
  holds σ V → toward V ls key 0 pre cur →
  ∃ es post, at_leaf (page_bytes σ cur) pre cur es post ∧
    ResidentFrame.should_chase_right (page_bytes σ cur) key = Ret (bool_decide (pid_at post 0 ≠ 0 ∧ below key es)) ∧
    (pid_at post 0 ≠ 0 → below key es → toward V ls key 0 (pre ++ [(cur, es)]) (pid_at post 0) ∧ (S (length pre) < length ls)%nat) ∧
    (¬ (pid_at post 0 ≠ 0 ∧ below key es) → found (page_bytes σ cur)).
Proof.
  intros Hh Ht. destruct (toward_leaf _ _ _ _ _ T key pre cur Ht) as (l & es & post & Hls & Hb & HV).
  pose proof (chain_at σ _ _ _ _ Hh Hls) as A. exists es, post. split_and!; [done|by eapply chase_spec; apply A| |].
  - intros Hr Hbe. split; [by eapply toward_right|]. by eapply toward_pre_lt.
  - intros Hs. exists pre, cur, es, post. split_and!; [done|done|]. destruct (decide (pid_at post 0 = 0)) as [E|E].
    + left. by eapply chain_end.
    + right. intros Hbe. by apply Hs.
Qed.

Lemma try_pin_resident_spec N route σ q :
  RoutedChildRef.is_resident route = true → word_target σ (RoutedChildRef.swip route) = Some q →
  steps V N (try_pin_resident route) σ (λ o σ', match o with Some c => c = q | None => (credit σ' < credit σ)%nat end).
Proof.
  intros Hr Ht. unfold try_pin_resident. rewrite Hr. cbn [negb]. eapply steps_mono; [apply steps_try_pin_child|].
  intros [c|] σ' _ [_ Hp]; [symmetry; by apply Hp|by eapply Hp].
Qed.

(** A child that is resolved, or a restart. *)
Lemma steps_resolved {A} c (mo : R (option Z)) (k : Z → R A) q σ Q :
  (credit σ ≤ c)%nat →
  steps V (fewer c) mo σ (λ o σ', match o with Some x => x = q | None => (credit σ' < credit σ)%nat end) →
  (∀ σ', keeps V σ σ' → steps V (fewer c) (k q) σ' Q) →
  steps V (fewer c) (let! o := mo in let! x := or_restart o in k x)%R σ Q.
Proof.
  intros Hc Hm Hk. eapply steps_bind; [exact Hm|]. intros [x|] σ1 K1 Ho; [subst x; by apply Hk|].
  split; [reflexivity|]. unfold fewer. lia.
Qed.

(** What routing at a node above the leaves gives. *)
Lemma toward_route σ h pre cur :
  holds σ V → toward V ls key (S h) pre cur →
  ∃ route q, ResidentFrame.try_route_to_child (page_bytes σ cur) key = Ret (Some route) ∧
    word_target σ (RoutedChildRef.swip route) = Some q ∧ is_Some (V !! q) ∧
    (∃ pre', toward V ls key h (pre ++ pre') q) ∧
    (∀ σ', holds σ' V → ∃ route', ResidentFrame.try_route_to_child (page_bytes σ' cur) key = Ret (Some route') ∧
       word_target σ' (RoutedChildRef.swip route') = Some q).
Proof.
  intros Hh Ht. destruct (toward_inner _ _ _ _ _ _ Ht) as (ks & cps & HV & Hcps).
  destruct (routed_some V σ cur key ks cps Hh HV) as (route & Er).
  destruct (routed V σ cur _ key ks cps route Hh HV eq_refl Er) as (pos & q & Hq & Htq & He & Hx).
  exists route, q. split_and!; [done|done|by eapply Hcps, list_elem_of_lookup_2|by eapply toward_child|].
  intros σ' Hh'. destruct (routed_some V σ' cur key ks cps Hh' HV) as (route' & Er').
  destruct (routed V σ' cur _ key ks cps route' Hh' HV eq_refl Er') as (pos' & q' & Hq' & Htq' & He' & _).
  exists route'. split; [done|]. rewrite Htq'. f_equal.
  destruct (holds_inner V σ cur ks cps Hh HV) as (cs & u & P & Hks & Hf).
  destruct (holds_inner V σ' cur ks cps Hh' HV) as (cs' & u' & P' & Hks' & Hf').
  pose proof (route_same _ _ _ _ _ _ key route route' P P' ltac:(congruence) Er Er') as E.
  rewrite He, He' in E. destruct (inner_count _ _ _ P) as [Hn _], (inner_count _ _ _ P') as [Hn' _].
  assert (Hl : length cs' = length cs) by (rewrite <-(length_fmap fst cs), <-(length_fmap fst cs'); unfold seps in *; congruence).
  apply Forall2_length in Hf. rewrite length_children in Hf. apply lookup_lt_Some in Hq as Hlt. apply lookup_lt_Some in Hq' as Hlt'.
  assert (Hnn : num_slots (page_bytes σ' cur) = num_slots (page_bytes σ cur)) by (rewrite Hn, Hn'; unfold zlen; lia).
  rewrite Hnn, Hn in E. unfold ParentEdge.from_pos, zlen in E. assert (pos' = pos) as ->; [|congruence].
  destruct (Z.eqb_spec (Z.of_nat pos) (Z.of_nat (length cs))), (Z.eqb_spec (Z.of_nat pos') (Z.of_nat (length cs))); try done; [lia|].
  injection E. lia.
Qed.

Lemma shared_fallback_loop_spec fuel : ∀ h pre cur c σ,
  holds σ V → toward V ls key h pre cur → (credit σ ≤ c)%nat → (h + (length ls - length pre) < fuel)%nat →
  steps V (fewer c) (shared_fallback_loop fuel key cur) σ (λ p _, found p).
Proof.
  induction fuel as [|fuel IH]; intros h pre cur c σ Hh Ht Hc Hf; [lia|]. cbn [shared_fallback_loop].
  apply steps_latched_bind. destruct h as [|h].
  - destruct (toward_stop σ pre cur Hh Ht) as (es & post & A & Ec & Hgo & Hstop).
    rewrite (leaf_flag _ _ _ _ (at_page _ _ _ _ _ A)). eapply steps_lift_bind; [exact Ec|]. case_bool_decide as Hcase.
    + destruct Hcase as [Hr Hb]. rewrite (leaf_right _ _ _ _ (at_page _ _ _ _ _ A)), (proj2 (Z.eqb_neq _ _) Hr).
      destruct (Hgo Hr Hb) as [Ht' Hl]. eapply steps_bind; [apply steps_fix_orphan; [done|by eapply toward_node]|].
      intros ? σ1 K1 [-> _]. eapply IH; [by eapply keeps_holds|exact Ht'| |rewrite length_app; simpl; lia].
      destruct K1 as (_ & _ & ? & _). lia.
    + apply steps_ret. by apply Hstop.
  - destruct (toward_inner _ _ _ _ _ _ Ht) as (ks & cps & HV & _). rewrite (inner_bytes V σ cur ks cps Hh HV).
    destruct (toward_route σ h pre cur Hh Ht) as (route & q & Er & Htq & Hq & (pre' & Ht') & Hre).
    assert (Hnext : ∀ σ', keeps V σ σ' → steps V (fewer c) (shared_fallback_loop fuel key q) σ' (λ p _, found p)).
    { intros σ' K. eapply IH; [by eapply keeps_holds|exact Ht'| |rewrite length_app; lia]. destruct K as (_ & _ & ? & _). lia. }
    eapply steps_lift_bind; [exact Er|]. eapply steps_bind; [by apply (steps_or_restart _ _ _ _ (λ x σ', x = route ∧ σ' = σ))|].
    intros ? ? _ [-> ->]. destruct (RoutedChildRef.is_resident route) eqn:Hres.
    + by eapply steps_resolved; [done|by apply try_pin_resident_spec|].
    + destruct (evicted_target σ route q Htq Hres) as (Eid & _ & _). eapply steps_lift_bind; [exact Eid|].
      eapply steps_bind; [by apply steps_fix_orphan|]. intros ? σ1 K1 [-> _].
      assert (Hh1 : holds σ1 V) by (by eapply keeps_holds).
      eapply steps_bind; [apply steps_fix_orphan; [done|by rewrite HV]|]. intros ? σ2 K2 [-> _].
      assert (K : keeps V σ σ2) by (by etrans). assert (Hh2 : holds σ2 V) by (by eapply keeps_holds).
      apply steps_latched_bind. destruct (Hre σ2 Hh2) as (route2 & Er2 & Htq2). eapply steps_lift_bind; [exact Er2|].
      eapply steps_bind; [by apply (steps_or_restart _ _ _ _ (λ x σ', x = route2 ∧ σ' = σ2))|]. intros ? ? _ [-> ->].
      eapply steps_bind; [by apply resolve_spec|]. intros o σ3 K3 Ho. assert (K' : keeps V σ σ3) by (by etrans).
      destruct (Z.eqb_spec (default 0 o) q) as [E|E]; cbn [negb]; [by apply Hnext|]. destruct o as [x|]; [by subst|].
      apply steps_restart. unfold fewer. destruct K as (_ & _ & ? & _). lia.
Qed.

Lemma find_leaf_shared_fallback_spec fuel c σ :
  holds σ V → root_pid σ = root → (credit σ ≤ c)%nat → (h0 + length ls < fuel)%nat →
  steps V (fewer c) (find_leaf_shared_fallback fuel key) σ (λ p _, found p).
Proof.
  intros Hh Hr Hc Hf. unfold find_leaf_shared_fallback. eapply steps_bind; [apply steps_fix_stable|].
  intros ? σ1 K1 [-> _]. rewrite Hr. eapply shared_fallback_loop_spec; [by eapply keeps_holds|by eapply toward_root| |simpl; lia].
  destruct K1 as (_ & _ & ? & _). lia.
Qed.

Lemma shared_nonblocking_loop_spec fuel : ∀ h pre cur c σ,
  holds σ V → toward V ls key h pre cur → (credit σ ≤ c)%nat → (h + (length ls - length pre) < fuel)%nat →
  steps V (fewer c) (shared_nonblocking_loop fuel key cur) σ (λ p _, found p).
Proof.
  induction fuel as [|fuel IH]; intros h pre cur c σ Hh Ht Hc Hf; [lia|]. cbn [shared_nonblocking_loop].
  apply steps_latched_bind. destruct h as [|h].
  - destruct (toward_stop σ pre cur Hh Ht) as (es & post & A & Ec & Hgo & Hstop).
    rewrite (leaf_flag _ _ _ _ (at_page _ _ _ _ _ A)). eapply steps_lift_bind; [exact Ec|]. case_bool_decide as Hcase.
    + destruct Hcase as [Hr Hb]. rewrite (leaf_right _ _ _ _ (at_page _ _ _ _ _ A)), (proj2 (Z.eqb_neq _ _) Hr).
      destruct (Hgo Hr Hb) as [Ht' Hl]. eapply steps_resolved; [done| |].
      * eapply steps_mono; [apply steps_try_fix_orphan; [done|by eapply toward_node]|]. intros [x|] σ1 _ Hx; [apply Hx|done].
      * intros σ1 K1. eapply IH; [by eapply keeps_holds|exact Ht'| |rewrite length_app; simpl; lia].
        destruct K1 as (_ & _ & ? & _). lia.
    + apply steps_ret. by apply Hstop.
  - destruct (toward_inner _ _ _ _ _ _ Ht) as (ks & cps & HV & _). rewrite (inner_bytes V σ cur ks cps Hh HV).
    destruct (toward_route σ h pre cur Hh Ht) as (route & q & Er & Htq & Hq & (pre' & Ht') & _).
    eapply steps_lift_bind; [exact Er|]. eapply steps_bind; [by apply (steps_or_restart _ _ _ _ (λ x σ', x = route ∧ σ' = σ))|].
    intros ? ? _ [-> ->]. eapply steps_resolved; [done| |].
    + destruct (RoutedChildRef.is_resident route) eqn:Hres; [by apply try_pin_resident_spec|].
      destruct (evicted_target σ route q Htq Hres) as (Eid & _ & _). eapply steps_lift_bind; [exact Eid|].
      eapply steps_mono; [by apply steps_try_fix_orphan|]. intros [x|] σ1 _ Hx; [apply Hx|done].
    + intros σ1 K1. eapply IH; [by eapply keeps_holds|exact Ht'| |rewrite length_app; lia]. destruct K1 as (_ & _ & ? & _). lia.
Qed.

Lemma find_leaf_shared_nonblocking_spec fuel c σ :
  holds σ V → root_pid σ = root → (credit σ ≤ c)%nat → (h0 + length ls < fuel)%nat →
  steps V (fewer c) (find_leaf_shared_nonblocking fuel key) σ (λ p _, found p).
Proof.
  intros Hh Hr Hc Hf. unfold find_leaf_shared_nonblocking. eapply steps_bind; [apply steps_fix_stable|].
  intros ? σ1 K1 [-> _]. rewrite Hr. eapply shared_nonblocking_loop_spec; [by eapply keeps_holds|by eapply toward_root| |simpl; lia].
  destruct K1 as (_ & _ & ? & _). lia.
Qed.

(** The bytes an optimistic descent stops at, once they are the leaf's. *)
Lemma stopped_found σ cur b : holds σ V → stopped V ls key cur b → page_bytes σ cur = b → found b.
Proof.
  intros Hh ((h & pre & Ht) & _ & Hl & Hc) Hb. destruct h as [|h].
  - destruct (toward_stop σ pre cur Hh Ht) as (es & post & _ & Ec & _ & Hstop). rewrite Hb in *. rewrite Hc in Ec.
    injection Ec as Ec. apply Hstop. symmetry in Ec. by apply bool_decide_eq_false_1 in Ec.
  - destruct (toward_inner _ _ _ _ _ _ Ht) as (ks & cps & HV & _). by rewrite <-Hb, (inner_bytes V σ cur ks cps Hh HV) in Hl.
Qed.

(** *** The rightmost leaf *)

(** A node whose leaves are the last ones. *)
Definition rightmost (h : nat) (pid : Z) : Prop := ∃ pre sub, subtree V h pid sub ∧ ls = pre ++ sub.

Lemma rightmost_child h pid ks cps :
  rightmost (S h) pid → V !! pid = Some (InnerView ks cps) → ∃ q, cps !! length ks = Some q ∧ rightmost h q ∧ is_Some (V !! q).
Proof.
  intros (pre & sub & (ks' & cps' & lss & HV & Hlen & Hsub & -> & _) & Hls) HV'. rewrite HV in HV'. injection HV' as -> ->.
  destruct (lookup_lt_is_Some_2 cps (length ks)) as [q Hq]; [lia|]. exists q. split; [done|].
  destruct (Forall2_lookup_l _ _ _ _ _ Hsub Hq) as (sub & Hs & Hsubq). split; [|by eapply subtree_node].
  exists (pre ++ concat (take (length ks) lss)), sub. split; [done|]. rewrite Hls, <-app_assoc. f_equal.
  rewrite <-(take_drop_middle _ _ _ Hs) at 1. rewrite concat_app. cbn [concat]. f_equal.
  rewrite drop_ge by (apply Forall2_length in Hsub; lia). by rewrite app_nil_r.
Qed.

Definition found_last (p : page) : Prop := ∃ pre pid es, at_leaf p pre pid es [].

Lemma rightmost_loop_spec fuel : ∀ h cur c σ,
  holds σ V → rightmost h cur → (credit σ ≤ c)%nat → (h < fuel)%nat →
  steps V (fewer c) (rightmost_loop fuel cur) σ (λ p _, found_last p).
Proof.
  induction fuel as [|fuel IH]; intros h cur c σ Hh Hr Hc Hf; [lia|]. cbn [rightmost_loop]. apply steps_latched_bind.
  destruct h as [|h].
  - destruct Hr as (pre & sub & (l & r & es & HV & ->) & Hls). pose proof (chain_at σ pre cur es [] Hh Hls) as A.
    rewrite (leaf_flag _ _ _ _ (at_page _ _ _ _ _ A)). apply steps_ret. by exists pre, cur, es.
  - destruct Hr as (pre & sub & Hsub & Hls). destruct (Hsub) as (ks & cps & lss & HV & Hlen & _).
    rewrite (inner_bytes V σ cur ks cps Hh HV).
    destruct (rightmost_child h cur ks cps) as (q & Hq & Hrq & HVq); [by exists pre, sub|done|].
    eapply steps_resolved; [done| |].
    + apply resolve_spec; [done|done|]. cbn [RoutedChildRef.swip].
      destruct (holds_inner V σ cur ks cps Hh HV) as (cs & u & P & Hks & Hcs). rewrite (inner_upper _ _ _ P).
      destruct (Forall2_lookup_r _ _ _ _ _ Hcs Hq) as (w & Hw & Htw).
      assert (Hl : length ks = length cs) by (rewrite <-Hks; unfold seps; by rewrite length_fmap).
      rewrite Hl, children_upper in Hw. by injection Hw as ->.
    + intros σ1 K1. eapply IH; [by eapply keeps_holds|exact Hrq| |lia]. destruct K1 as (_ & _ & ? & _). lia.
Qed.

Lemma find_rightmost_spec fuel c σ :
  holds σ V → root_pid σ = root → (credit σ ≤ c)%nat → (h0 < fuel)%nat →
  steps V (fewer c) (find_rightmost_leaf_shared_fallback fuel) σ (λ p _, found_last p).
Proof.
  intros Hh Hr Hc Hf. unfold find_rightmost_leaf_shared_fallback. eapply steps_bind; [apply steps_fix_stable|].
  intros ? σ1 K1 [-> _]. rewrite Hr. eapply rightmost_loop_spec; [by eapply keeps_holds| | |exact Hf].
  - exists [], ls. split; [apply T|done].
  - destruct K1 as (_ & _ & ? & _). lia.
Qed.
End chain.

(** * B-tree: what scans deliver, on lists

    The parts of a sorted list of entries that scans select, as the runs
    their loops cut out and as filters, and the delivery of a list to a
    callback that may stop it. *)

#[local] Open Scope Z_scope.
Import SlottedHeader SlottedPage.

(** ** Runs *)

Section runs.
Context (P : list byte → bool).

(** The entries up to the first whose key is not wanted. *)
Fixpoint while (es : list entry) : list entry :=
  match es with
  | [] => []
  | e :: es => if P e.1 then e :: while es else []
  end.

Definition every (es : list entry) : bool := forallb (λ e, P e.1) es.

Lemma while_app es1 es2 : while (es1 ++ es2) = if every es1 then es1 ++ while es2 else while es1.
Proof.
  unfold every. induction es1 as [|e es1 IH]; [done|]. simpl. destruct (P e.1); [|done]. simpl. rewrite IH. by destruct (forallb _ es1).
Qed.

Lemma while_every es : every es = true → while es = es.
Proof. unfold every. induction es as [|e es IH]; [done|]. simpl. destruct (P e.1); [|done]. intros. by rewrite IH. Qed.

(** On a list where the predicate fails for good, the run is the filter. *)
Lemma while_filter es :
  (∀ (i j : nat) a b, es !! i = Some a → es !! j = Some b → (i < j)%nat → P b.1 = true → P a.1 = true) →
  while es = filter (λ e, P e.1 = true) es.
Proof.
  induction es as [|e es IH]; intros Hmono; [done|]. cbn [while]. destruct (P e.1) eqn:E.
  - rewrite filter_cons_True by done. f_equal. apply IH. intros i j a b Hi Hj Hlt. apply (Hmono (S i) (S j)); [done|done|lia].
  - rewrite filter_cons_False by (by rewrite E). assert (Hn : Forall (λ b, P b.1 ≠ true) es).
    { apply Forall_lookup. intros j b Hj Hb. specialize (Hmono 0%nat (S j) e b eq_refl Hj ltac:(lia) Hb). congruence. }
    symmetry. clear -Hn. induction Hn as [|b es Hb _ IH]; [done|]. by rewrite filter_cons_False.
Qed.
End runs.

Section deliver.
Context {A : Type} (f : A → list byte → list byte → A * bool).

Lemma deliver_app es1 es2 a :
  deliver f (es1 ++ es2) a = let '(a, more) := deliver f es1 a in if more then deliver f es2 a else (a, false).
Proof.
  revert a. induction es1 as [|[k v] es1 IH]; intros a; [done|]. cbn [app deliver]. destruct (f a k v) as [a' []]; [apply IH|done].
Qed.
End deliver.

(** A callback that never stops gets everything. *)
Lemma deliver_all {A} (f : A → list byte → list byte → A) es a :
  deliver (λ a k v, (f a k v, true)) es a = (foldl (λ a e, f a e.1 e.2) a es, true).
Proof. revert a. induction es as [|[k v] es IH]; intros a; [done|]. apply IH. Qed.

(** ** Order *)

Lemma key_ltb_lt a b : key_ltb a b = true ↔ key_lt a b.
Proof. unfold key_ltb, key_lt. by destruct (slice_cmp a b). Qed.
Lemma key_leb_le a b : key_leb a b = true ↔ ¬ key_lt b a.
Proof. rewrite <-slice_cmp_gt. unfold key_leb. by destruct (slice_cmp a b). Qed.

Lemma key_lt_le_trans a b c : key_lt a b → ¬ key_lt c b → key_lt a c.
Proof.
  intros Hab Hcb. destruct (slice_cmp b c) eqn:E; [apply slice_cmp_eq in E; by subst|by transitivity b|].
  by apply slice_cmp_gt in E.
Qed.

Lemma key_lt_asym a b : key_lt a b → ¬ key_lt b a.
Proof. intros Hab Hba. apply (key_lt_irrefl a). by transitivity b. Qed.

(** The keys a bound admits are closed under going away from it. *)
Lemma within_upper_mono upper a b : key_lt a b → within_upper upper b = true → within_upper upper a = true.
Proof.
  destruct upper as [l|l|]; simpl; [rewrite !key_leb_le|rewrite !key_ltb_lt|done]; intros Hab Hb.
  - intros Hla. apply Hb. by transitivity a.
  - by transitivity b.
Qed.

Lemma within_lower_mono lower a b : key_lt a b → within_lower lower a = true → within_lower lower b = true.
Proof.
  destruct lower as [l|l|]; simpl; [rewrite !key_leb_le|rewrite !key_ltb_lt|done]; intros Hab Ha.
  - intros Hbl. apply Ha. by transitivity b.
  - by transitivity a.
Qed.

(** The successor of a key. *)
Lemma key_lt_snoc a b : key_lt a (b ++ [x00]) ↔ ¬ key_lt b a.
Proof.
  unfold key_lt. revert b. induction a as [|x a IH]; intros [|y b]; cbn [app slice_cmp]; [done|done| |].
  - pose proof (u8_range x). change (u8 x00) with 0. destruct (Z.compare_spec (u8 x) 0); [by destruct a|lia|done].
  - rewrite (Z.compare_antisym (u8 x) (u8 y)). destruct (Z.compare_spec (u8 x) (u8 y)); cbn [CompOpp]; [apply IH|done|done].
Qed.

(** ** Prefixes *)

Lemma starts_with_cons k x prefix : starts_with k (x :: prefix) = true ↔ ∃ k', k = x :: k' ∧ starts_with k' prefix = true.
Proof.
  unfold starts_with. rewrite bool_decide_eq_true. destruct k as [|y k]; simpl; [split; [done|by intros (? & ? & _)]|]. split.
  - intros [= -> E]. exists k. by rewrite bool_decide_eq_true.
  - intros (k' & [= -> ->] & E%bool_decide_eq_true_1). by rewrite E.
Qed.

Lemma starts_with_ge k prefix : starts_with k prefix = true → ¬ key_lt k prefix.
Proof.
  unfold key_lt. revert k. induction prefix as [|x prefix IH]; intros k; [by destruct k|].
  intros (k' & -> & Hk)%starts_with_cons. cbn [slice_cmp]. rewrite Z.compare_refl. by apply IH.
Qed.

(** Keys between the prefix and a key that starts with it start with it. *)
Lemma starts_with_between prefix a b :
  ¬ key_lt a prefix → key_lt a b → starts_with b prefix = true → starts_with a prefix = true.
Proof.
  unfold key_lt. revert a b. induction prefix as [|x prefix IH]; intros a b Ha Hab; [by destruct a|].
  intros (b' & -> & Hb)%starts_with_cons. apply starts_with_cons. destruct a as [|y a]; [done|]. cbn [slice_cmp] in *.
  destruct (Z.compare_spec (u8 y) (u8 x)) as [E| |]; [|done|done]. apply u8_inj in E as ->. exists a. split; [done|]. by eapply IH.
Qed.

(** ** The entries from a key on *)

Definition from (key : list byte) (es : list entry) : list entry := filter (λ e, ¬ key_lt e.1 key) es.

Lemma from_app key es1 es2 : from key (es1 ++ es2) = from key es1 ++ from key es2.
Proof. apply filter_app. Qed.

Lemma from_below key es : below key es → from key es = [].
Proof.
  unfold from. induction 1 as [|e es He _ IH]; [done|]. rewrite filter_cons_False; [done|]. intros Hn. by apply Hn.
Qed.

Lemma from_nil_below key es : from key es = [] → below key es.
Proof.
  unfold from. induction es as [|e es IH]; [constructor|]. destruct (decide (key_lt e.1 key)) as [Hlt|Hge].
  - rewrite filter_cons_False by (intros Hn; by apply Hn). intros. constructor; [done|by apply IH].
  - by rewrite filter_cons_True.
Qed.

Lemma from_all key es : Forall (λ e, ¬ key_lt e.1 key) es → from key es = es.
Proof. unfold from. induction 1 as [|e es He _ IH]; [done|]. rewrite filter_cons_True by done. by rewrite IH. Qed.

(** What a search locates. *)
Lemma located_split es key pos ex :
  located es key pos ex → below key (take (Z.to_nat pos) es) ∧ Forall (λ e, ¬ key_lt e.1 key) (drop (Z.to_nat pos) es) ∧
    (Z.to_nat pos ≤ length es)%nat.
Proof.
  intros [Hr Hb Ha _]. split_and!.
  - apply Forall_lookup. intros i e (He & Hi)%lookup_take_Some. apply (Hb i); [done|lia].
  - apply Forall_lookup. intros i e He. rewrite lookup_drop in He. eapply Ha; [exact He|]. lia.
  - unfold zlen in Hr. lia.
Qed.

Lemma located_from es key pos ex : located es key pos ex → from key es = drop (Z.to_nat pos) es.
Proof.
  intros (Hb & Ha & _)%located_split. rewrite <-(take_drop (Z.to_nat pos) es) at 1.
  by rewrite from_app, (from_below _ _ Hb), (from_all _ _ Ha).
Qed.

Lemma keys_sorted_sublist es es' : es `sublist_of` es' → keys_sorted es' → keys_sorted es.
Proof.
  unfold keys_sorted. induction 1 as [|e es es' Hsub IH|e es es' _ IH]; cbn [fmap list_fmap]; [done| |].
  - intros [Hs Hf]%StronglySorted_inv. constructor; [by apply IH|]. rewrite Forall_fmap, Forall_forall in *.
    intros x Hx. apply Hf. by apply (sublist_subseteq _ _ Hsub).
  - intros [Hs _]%StronglySorted_inv. by apply IH.
Qed.

Lemma sorted_lookup es (i j : nat) a b :
  keys_sorted es → es !! i = Some a → es !! j = Some b → (i < j)%nat → key_lt a.1 b.1.
Proof.
  intros Hs Ha Hb Hij. eapply StronglySorted_lookup_lt; [exact Hs| | |exact Hij]; rewrite list_lookup_fmap; [by rewrite Ha|by rewrite Hb].
Qed.

(** Beyond an entry that is not below the key, nothing is. *)
Lemma beyond key es post :
  keys_sorted (es ++ post) → post = [] ∨ ¬ below key es → Forall (λ e, key_lt key e.1 ∧ ¬ key_lt e.1 key) post.
Proof.
  intros Hs [->|Hn]; [constructor|]. destruct (keys_sorted_app_inv _ _ Hs) as (_ & _ & Hlt). apply Forall_forall. intros b Hb.
  unfold below in Hn. apply not_Forall_Exists in Hn; [|apply _]. apply Exists_exists in Hn as (a & Ha & Hge).
  specialize (Hlt a b Ha Hb). assert (key_lt key b.1) by (apply (key_le_lt a.1); [exact Hge|done]). split; [done|]. by apply key_lt_asym.
Qed.

(** The position after a key. *)
Definition after (pos : Z) (ex : bool) : nat := Z.to_nat pos + (if ex then 1 else 0).

Lemma located_after es key pos ex :
  keys_sorted es → located es key pos ex → (after pos ex ≤ length es)%nat ∧
    Forall (λ e, ¬ key_lt key e.1) (take (after pos ex) es) ∧ Forall (λ e, key_lt key e.1) (drop (after pos ex) es).
Proof.
  intros Hs Hl. destruct (located_split _ _ _ _ Hl) as (Hb & Ha & Hle). unfold below in Hb. rewrite !Forall_lookup in *. unfold after.
  destruct Hl as [Hr _ _ He]. destruct ex.
  - destruct (proj1 He eq_refl) as [v Hv]. pose proof (lookup_lt_Some _ _ _ Hv) as Hlt. split_and!; [lia| |].
    + intros i e (Hi & Hlti)%lookup_take_Some. destruct (decide (i = Z.to_nat pos)) as [->|].
      * rewrite Hv in Hi. injection Hi as <-. apply key_lt_irrefl.
      * apply key_lt_asym, (Hb i). apply lookup_take_Some. split; [done|lia].
    + intros i e Hi. rewrite lookup_drop in Hi. apply (sorted_lookup es (Z.to_nat pos) (Z.to_nat pos + 1 + i) (key, v) e Hs Hv Hi). lia.
  - rewrite Nat.add_0_r. split_and!; [done| |].
    + intros i e Hi. by apply key_lt_asym, (Hb i).
    + intros i e Hi. destruct (decide (e.1 = key)) as [E|E]; [|apply key_le_ne; [by apply (Ha i)|done]].
      exfalso. assert (Hno : ¬ ∃ v, es !! Z.to_nat pos = Some (key, v)) by (intros Hv; by apply He in Hv). destruct i as [|i].
      * rewrite lookup_drop, Nat.add_0_r in Hi. apply Hno. exists e.2. rewrite Hi, <-E. by destruct e.
      * destruct (lookup_lt_is_Some_2 (drop (Z.to_nat pos) es) 0) as [e0 H0]; [apply lookup_lt_Some in Hi; lia|].
        apply (Ha 0%nat e0 H0). rewrite <-E. eapply (sorted_lookup (drop (Z.to_nat pos) es) 0 (S i)); [|done|done|lia].
        eapply keys_sorted_sublist; [apply sublist_drop|done].
Qed.

Lemma filter_all (P : entry → Prop) `{!∀ e, Decision (P e)} es : Forall P es → filter P es = es.
Proof. induction 1 as [|e es He _ IH]; [done|]. rewrite filter_cons_True by done. by rewrite IH. Qed.

Lemma filter_out (P : entry → Prop) `{!∀ e, Decision (P e)} es : Forall (λ e, ¬ P e) es → filter P es = [].
Proof. induction 1 as [|e es He _ IH]; [done|]. by rewrite filter_cons_False. Qed.

(** * B-tree: scans deliver the entries they are asked for

    Every scan gives its callback the entries of the tree in its range, in
    order, until the callback stops it. The full scan retries until it has
    read every leaf; the others give nothing when their first descent
    restarts. *)

#[local] Open Scope Z_scope.
Import SlottedHeader SlottedPage.

(** ** Passes over a leaf *)

Section pass.
Context `{Build} {p : page} {Rp : Z} {es : list entry} (W : wf p Rp es).

Lemma collect_loop_wf es1 es2 : es = es1 ++ es2 → collect_loop p (seqZ (zlen es1) (zlen es2)) = Ret (Some es2).
Proof.
  revert es1. induction es2 as [|e es2 IH]; intros es1 He; [done|]. rewrite seqZ_zlen_cons. cbn [collect_loop].
  assert (Hl : es !! length es1 = Some e) by (rewrite He; by apply list_lookup_middle).
  pose proof (try_get_key_wf W _ _ Hl) as Ek. pose proof (try_get_value_wf W _ _ Hl) as Ev.
  change (Z.of_nat (length es1)) with (zlen es1) in Ek, Ev. rewrite Ek, Ev.
  unfold opt_bind. rewrite !bind_Ret. replace (zlen es1 + 1) with (zlen (es1 ++ [e])) by (rewrite zlen_app; done).
  rewrite IH by (rewrite He, <-app_assoc; done). rewrite bind_Ret. by destruct e.
Qed.

Context {A : Type} (f : A → list byte → list byte → A * bool).

Definition ending (r : A * bool) (all : bool) : A * leaf_end := (r.1, if r.2 then if all then Exhausted else Unwanted else Finished).

Lemma leaf_pass_wf wanted es1 es2 a :
  es = es1 ++ es2 →
  leaf_pass wanted f p (seqZ (zlen es1) (zlen es2)) a = Ret (ending (deliver f (while wanted es2) a) (every wanted es2)).
Proof.
  revert es1 a. induction es2 as [|e es2 IH]; intros es1 a He; [done|]. rewrite seqZ_zlen_cons. cbn [leaf_pass while].
  assert (Hl : es !! length es1 = Some e) by (rewrite He; by apply list_lookup_middle).
  pose proof (get_key_wf _ _ _ _ _ W Hl) as Ek. pose proof (get_value_wf _ _ _ _ _ W Hl) as Ev.
  change (Z.of_nat (length es1)) with (zlen es1) in Ek, Ev. rewrite Ek, Ev.
  rewrite !bind_Ret. unfold every. cbn [forallb]. destruct (wanted e.1); cbn [negb andb]; [|done].
  destruct e as [k v]. cbn [fst snd deliver]. destruct (f a k v) as [a' []]; cbn [negb]; [|done].
  replace (zlen es1 + 1) with (zlen (es1 ++ [(k, v)])) by (rewrite zlen_app; done).
  apply IH. by rewrite He, <-app_assoc.
Qed.

Lemma desc_collect_wf lower es1 es2 :
  es = es1 ++ es2 →
  desc_collect lower p (reverse (seqZ 0 (zlen es1))) =
    Ret (while (within_lower lower) (reverse es1), negb (every (within_lower lower) (reverse es1))).
Proof.
  revert es2. induction es1 as [|e es1 IH] using rev_ind; intros es2 He; [done|].
  assert (Hl : es !! length es1 = Some e) by (rewrite He, <-app_assoc; by apply list_lookup_middle).
  rewrite zlen_app, seqZ_app by (pose proof (zlen_nonneg es1); unfold zlen; simpl; lia).
  change (zlen [e]) with 1. rewrite Z.add_0_l. assert (E1 : seqZ (zlen es1) 1 = [zlen es1]) by (rewrite seqZ_cons by lia; done). rewrite E1.
  rewrite !reverse_app. cbn [reverse app rev_append desc_collect while]. unfold every. cbn [forallb].
  pose proof (get_key_wf _ _ _ _ _ W Hl) as Ek. pose proof (get_value_wf _ _ _ _ _ W Hl) as Ev.
  change (Z.of_nat (length es1)) with (zlen es1) in Ek, Ev. rewrite Ek, Ev.
  rewrite !bind_Ret. destruct (within_lower lower e.1); cbn [negb andb]; [|done].
  rewrite (IH (e :: es2)) by (rewrite He, <-app_assoc; done). rewrite !bind_Ret. by destruct e.
Qed.
End pass.

Section scans.
Context `{Build} `{PoolOps} `{!PoolLaws} (self : BTree.t).
Context (V : gmap Z node_view) (root : Z) (h0 : nat) (ls : list (Z * list entry)) (m : gmap (list byte) (list byte)).
Context (T : tree V root h0 ls m).
Implicit Types (σ : pool).

Notation all := (entries_of ls).

Lemma chain_entries pre pid es post : ls = pre ++ (pid, es) :: post → all = entries_of pre ++ es ++ entries_of post.
Proof. intros ->. by rewrite entries_of_app, entries_of_cons. Qed.

(** The entries from a key on, seen from the leaf where a search for it ends. *)
Lemma from_chain key pre pid es post :
  ls = pre ++ (pid, es) :: post → below key (entries_of pre) → post = [] ∨ ¬ below key es →
  from key all = from key es ++ entries_of post ∧ Forall (λ e, key_lt key e.1) (entries_of post).
Proof.
  intros Hls Hpre Hend. rewrite (chain_entries _ _ _ _ Hls), !from_app, (from_below _ _ Hpre).
  assert (Hb : Forall (λ e, key_lt key e.1 ∧ ¬ key_lt e.1 key) (entries_of post)).
  { destruct Hend as [->|Hend]; [constructor|]. apply (beyond key es); [|by right].
    pose proof (tree_sorted _ _ _ _ _ T) as Hs. rewrite (chain_entries _ _ _ _ Hls) in Hs. by apply keys_sorted_app_inv in Hs as (_ & ? & _). }
  apply Forall_and in Hb as [Hb1 Hb2]. by rewrite (from_all _ _ Hb2).
Qed.

(** *** The full scan *)

Lemma collect_spec p pre pid es post key :
  at_leaf ls p pre pid es post → collect_scan_leaf_entries p key = Ret (Some (from key es)).
Proof.
  intros [_ P Hs]. pose proof (leaf_wf _ _ _ _ P) as W. unfold collect_scan_leaf_entries. rewrite (try_lower_bound_agree W).
  destruct (lower_bound_located W Hs key) as (pos & ex & E & Hl). unfold lifted. rewrite E, bind_Ret. unfold opt_bind.
  rewrite bind_Ret. cbn [fst]. rewrite (located_from _ _ _ _ Hl), (wf_num _ _ _ W).
  destruct (located_split _ _ _ _ Hl) as (_ & _ & Hle). destruct (located_nat _ _ _ _ Hl) as (i & -> & _). rewrite Nat2Z.id in *.
  replace (seqZ (Z.of_nat i) (zlen es - Z.of_nat i)) with (seqZ (zlen (take i es)) (zlen (drop i es))).
  - apply (collect_loop_wf W). by rewrite take_drop.
  - unfold zlen. rewrite length_take, length_drop. f_equal; lia.
Qed.

(** What one turn of the scan reads. *)
Definition batch (key : list byte) (es : list entry) : Prop :=
  ∃ rest, from key all = es ++ rest ∧ (es = [] → rest = []).

Lemma found_batch key p : found ls key p → ∃ es, collect_scan_leaf_entries p key = Ret (Some es) ∧ batch key es.
Proof.
  intros (pre & pid & es & post & A & Hpre & Hend). exists (from key es). split; [by eapply collect_spec|].
  destruct (from_chain key pre pid es post (at_chain _ _ _ _ _ _ A) Hpre Hend) as [E _].
  exists (entries_of post). split; [done|]. intros Hn%from_nil_below. by destruct Hend as [->|].
Qed.

(** The fuel of a descent. *)
Definition deep (fuel : nat) : Prop := (h0 + length ls < fuel)%nat.

Lemma scan_leaf_loop_spec fuel key tries : ∀ attempts σ,
  holds σ V → root_pid σ = root → deep fuel → ((16 - attempts) + credit σ < tries)%nat →
  steps V nowhere (scan_leaf_loop self tries fuel attempts key) σ (λ es _, batch key es).
Proof.
  induction tries as [|tries IH]; intros attempts σ Hh Hr Hd Hf; [lia|]. cbn [scan_leaf_loop].
  eapply (steps_bind _ _ _ _ _ (λ o σ', match o with
    | Some p => found ls key p
    | None => ((16 - S attempts) + credit σ' < tries)%nat
    end)).
  - case_bool_decide as H64.
    { eapply steps_mono; [eapply steps_attempt, (find_leaf_shared_fallback_spec V root h0 ls m T key fuel (credit σ)); done|].
      intros [p|] σ' _ Hp; [done|]. unfold fewer in Hp. lia. }
    case_bool_decide as H16.
    { eapply steps_mono; [eapply steps_attempt, (find_leaf_shared_nonblocking_spec V root h0 ls m T key fuel (credit σ)); done|].
      intros [p|] σ' _ Hp; [done|]. unfold fewer in Hp. lia. }
    eapply steps_mono.
    { eapply (steps_attempt _ anywhere _ _ (λ p _, found ls key p)).
      eapply steps_bind; [by apply (find_leaf_optimistic_spec self V root h0 ls m T key)|]. intros [cur b] σ1 K1 Hst. cbn [fst snd] in *.
      eapply steps_bind; [apply steps_call, upgrade_to_shared_ok|]. intros ok σ2 K2 Hok.
      eapply (steps_bind _ _ _ _ _ (λ _ σ', σ' = σ2 ∧ page_bytes σ2 cur = b)); [by apply steps_guard; destruct ok|].
      intros [] ? _ [-> Hb]. apply steps_latched. rewrite Hb. eapply (stopped_found _ root h0 _ m T); [|done|exact Hb].
      eapply keeps_holds; [exact K2|]. by eapply keeps_holds. }
    intros [p|] σ' (_ & _ & Hc & _) Hp; [done|]. lia.
  - intros [p|] σ1 K1 Hp.
    + destruct (found_batch key p Hp) as (es & E & Hb). eapply steps_lift_bind; [exact E|]. by apply steps_ret.
    + apply IH; [by eapply keeps_holds|by destruct K1 as (_ & -> & _)|done|lia].
Qed.

(** Past the last key of a batch. *)
Lemma from_next key es k v rest :
  from key all = es ++ rest → last es = Some (k, v) →
  from (k ++ [x00]) all = rest ∧ (length rest < length (from key all))%nat ∧ key_leb (k ++ [x00]) key = false.
Proof.
  intros E Hl. pose proof (tree_sorted _ _ _ _ _ T) as Hs. apply last_Some in Hl as [es' ->].
  assert (Hk : ¬ key_lt k key).
  { assert (Hin : (k, v) ∈ from key all) by (rewrite E; set_solver). unfold from in Hin. by apply list_elem_of_filter in Hin as [? _]. }
  assert (Hkk : key_lt key (k ++ [x00])) by (by apply key_lt_snoc).
  split_and!.
  - assert (Hff : from (k ++ [x00]) all = from (k ++ [x00]) (from key all)).
    { unfold from. rewrite list_filter_filter. apply list_filter_iff. intros e. split; [|by intros [? _]].
      intros Hn. split; [done|]. intros Hlt. apply Hn. by transitivity key. }
    rewrite Hff, E, from_app. assert (Hsf : keys_sorted ((es' ++ [(k, v)]) ++ rest)).
    { rewrite <-E. eapply keys_sorted_sublist; [apply sublist_filter|done]. }
    destruct (keys_sorted_app_inv _ _ Hsf) as (Hs1 & _ & Hlr). destruct (keys_sorted_app_inv _ _ Hs1) as (_ & _ & Hl1).
    rewrite (from_below _ (es' ++ _)), from_all; [done| |].
    + apply Forall_forall. intros e He. rewrite key_lt_snoc. intros Hn. apply Hn. apply (Hlr (k, v) e); [set_solver|done].
    + apply Forall_app. split; [|constructor; [|constructor]; apply key_lt_snoc; apply key_lt_irrefl].
      apply Forall_forall. intros e He. apply key_lt_snoc. apply key_lt_asym. apply (Hl1 e (k, v)); [done|set_solver].
  - rewrite E, !length_app. simpl. lia.
  - destruct (key_leb _ _) eqn:El; [|done]. by apply key_leb_le in El.
Qed.

Lemma scan_leaves_spec {A} (f : A → list byte → list byte → A) tries fuel leaves : ∀ a key σ,
  holds σ V → root_pid σ = root → deep fuel → (16 + credit σ < tries)%nat → (length (from key all) < leaves)%nat →
  steps V nowhere (scan_leaves self leaves tries fuel f a key) σ (λ a' _, a' = foldl (λ a e, f a e.1 e.2) a (from key all)).
Proof.
  induction leaves as [|leaves IH]; intros a key σ Hh Hr Hd Ht Hl; [lia|]. cbn [scan_leaves].
  eapply steps_bind; [apply scan_leaf_loop_spec; [done|done|done|lia]|]. intros es σ1 K1 (rest & E & Hnil).
  destruct (last es) as [[k v]|] eqn:Elast.
  - destruct (from_next key es k v rest E Elast) as (En & Hlen & ->). rewrite E, foldl_app. rewrite <-En.
    apply IH; [by eapply keeps_holds|by destruct K1 as (_ & -> & _)|done|destruct K1 as (_ & _ & ? & _); lia|rewrite En; lia].
  - apply last_None in Elast as ->. rewrite E, Hnil by done. by apply steps_ret.
Qed.

Lemma scan_spec {A} (f : A → list byte → list byte → A) leaves tries fuel a σ :
  holds σ V → root_pid σ = root → deep fuel → (16 + credit σ < tries)%nat → (length all < leaves)%nat →
  steps V nowhere (scan self leaves tries fuel f a) σ (λ a' _, a' = foldl (λ a e, f a e.1 e.2) a all).
Proof.
  intros Hh Hr Hd Ht Hl. assert (E : from [] all = all) by (apply from_all, Forall_forall; intros e _; by destruct e.1).
  unfold scan. rewrite <-E. apply scan_leaves_spec; [done|done|done|done|by rewrite E].
Qed.

(** *** Ascending scans *)

Context {A : Type} (f : A → list byte → list byte → A * bool).

Lemma ascend_spec wanted fuel : ∀ p pre pid es post (i : nat) a σ,
  holds σ V → at_leaf ls p pre pid es post → (i ≤ length es)%nat → (length post < fuel)%nat →
  steps V nowhere (ascend fuel wanted f p (Z.of_nat i) a) σ
    (λ a' _, a' = (deliver f (while wanted (drop i es ++ entries_of post)) a).1).
Proof.
  induction fuel as [|fuel IH]; intros p pre pid es post i a σ Hh At Hi Hf; [lia|]. cbn [ascend].
  destruct At as [Hls P Hs]. pose proof (leaf_wf _ _ _ _ P) as W. rewrite (wf_num _ _ _ W), (leaf_right _ _ _ _ P).
  replace (seqZ (Z.of_nat i) (zlen es - Z.of_nat i)) with (seqZ (zlen (take i es)) (zlen (drop i es)))
    by (unfold zlen; rewrite length_take, length_drop; f_equal; lia).
  eapply steps_lift_bind; [apply (leaf_pass_wf W f wanted); by rewrite take_drop|].
  rewrite while_app. destruct (deliver f (while wanted (drop i es)) a) as [a1 more] eqn:Ed. unfold ending. cbn [fst snd].
  destruct more.
  2: { apply steps_ret. destruct (every wanted (drop i es)) eqn:Ee; [|by rewrite Ed].
    rewrite deliver_app. rewrite (while_every _ _ Ee) in Ed. by rewrite Ed. }
  destruct (every wanted (drop i es)) eqn:Ee; cbn [orb]; [|apply steps_ret; by rewrite Ed].
  rewrite (while_every _ _ Ee) in Ed. rewrite deliver_app, Ed.
  destruct (Z.eqb_spec (pid_at post 0) 0) as [E|E].
  - apply steps_ret. by rewrite (chain_end V root h0 ls m T _ _ _ _ Hls E).
  - destruct (chain_right V root h0 ls m T _ _ _ _ Hls E) as (es' & post' & Hpost & Hls' & HV).
    eapply steps_bind; [by apply steps_fix_orphan|]. intros ? σ1 K1 [-> _]. apply steps_latched_bind.
    assert (Hh1 : holds σ1 V) by (by eapply keeps_holds).
    eapply steps_mono; [apply (IH _ _ _ _ _ 0%nat a1 σ1 Hh1 (chain_at V root h0 ls m T σ1 _ _ _ _ Hh1 Hls'))|].
    + lia.
    + rewrite Hpost in Hf. simpl in Hf. lia.
    + intros a' σ2 _ ->. by rewrite Hpost.
Qed.

(** A scan whose descent may restart: the entries of [es], or nothing after a
    failure of the pool. *)
Definition delivers (es : list entry) σ (a a' : A) σ' : Prop :=
  a' = (deliver f es a).1 ∨ (a' = a ∧ credit σ' < credit σ)%nat.

Lemma steps_first (d : R page) (k : page → R A) (Q : page → Prop) es σ a :
  steps V (fewer (credit σ)) d σ (λ p _, Q p) →
  (∀ p σ', holds σ' V → Q p → steps V nowhere (k p) σ' (λ a' _, a' = (deliver f es a).1)) →
  holds σ V →
  steps V nowhere (let! o := attempt d in match o with None => R_ret a | Some p => k p end)%R σ (delivers es σ a).
Proof.
  intros Hd Hk Hh. eapply steps_bind; [by apply steps_attempt|]. intros [p|] σ1 K1 Hp.
  - eapply steps_mono; [apply Hk; [by eapply keeps_holds|done]|]. intros a' σ2 _ ->. by left.
  - apply steps_ret. by right.
Qed.

(** The entries from the position of a key on. *)
Lemma from_found key p :
  found ls key p → ∃ pre pid es post pos ex, at_leaf ls p pre pid es post ∧ lower_bound p key = Ret (pos, ex) ∧
    located es key pos ex ∧ 0 ≤ pos ∧ (Z.to_nat pos ≤ length es)%nat ∧
    from key all = drop (Z.to_nat pos) es ++ entries_of post ∧ (length post < length ls)%nat ∧
    Forall (λ e, key_lt key e.1) (entries_of post) ∧ below key (entries_of pre).
Proof.
  intros (pre & pid & es & post & At & Hpre & Hend). pose proof (at_page _ _ _ _ _ _ At) as P. pose proof (leaf_wf _ _ _ _ P) as W.
  destruct (lower_bound_located W (at_sorted _ _ _ _ _ _ At) key) as (pos & ex & E & Hl).
  destruct (from_chain key pre pid es post (at_chain _ _ _ _ _ _ At) Hpre Hend) as [Ef Hpost].
  destruct (located_split _ _ _ _ Hl) as (_ & _ & Hle). rewrite (located_from _ _ _ _ Hl) in Ef.
  exists pre, pid, es, post, pos, ex. split_and!; try done; [apply Hl|].
  rewrite (at_chain _ _ _ _ _ _ At), length_app. simpl. lia.
Qed.

Lemma all_sorted_lookup es (i j : nat) a b :
  es `sublist_of` all → es !! i = Some a → es !! j = Some b → (i < j)%nat → key_lt a.1 b.1.
Proof.
  intros Hsub. eapply sorted_lookup, keys_sorted_sublist; [exact Hsub|apply T].
Qed.

Lemma scan_prefix_spec fuel prefix a σ :
  holds σ V → root_pid σ = root → deep fuel →
  steps V nowhere (scan_prefix_borrowed_until fuel prefix f a) σ
    (delivers (filter (λ e, starts_with e.1 prefix = true) all) σ a).
Proof.
  intros Hh Hr Hd. unfold scan_prefix_borrowed_until. eapply steps_first; [|  |done].
  - by apply (find_leaf_shared_fallback_spec V root h0 ls m T prefix fuel (credit σ)).
  - intros p σ1 Hh1 Hp. destruct (from_found prefix p Hp) as (pre & pid & es & post & pos & ex & At & E & Hl & Hpos & Hle & Ef & Hlen & _).
    eapply steps_lift_bind; [exact E|]. cbn [fst]. rewrite <-(Z2Nat.id pos) by done.
    eapply steps_mono; [eapply ascend_spec; [done|done|done|unfold deep in Hd; lia]|]. intros a' σ2 _ ->. do 2 f_equal.
    rewrite <-Ef, while_filter.
    + unfold from. rewrite list_filter_filter. apply list_filter_iff. intros e. split; [by intros [? _]|].
      intros Hs. split; [done|]. by apply starts_with_ge.
    + intros i j x y Hi Hj Hlt. apply starts_with_between.
      * apply list_elem_of_lookup_2 in Hi. unfold from in Hi. by apply list_elem_of_filter in Hi as [? _].
      * eapply all_sorted_lookup; [|exact Hi|exact Hj|exact Hlt]. apply sublist_filter.
Qed.

(** The key a range starts from, and where. *)
Definition start_key (lower : Bound) : list byte := match lower with Unbounded => [] | Included key | Excluded key => key end.

Lemma range_start_spec lower p :
  found ls (start_key lower) p → ∃ pre pid es post (i : nat), at_leaf ls p pre pid es post ∧
    range_start lower p = Ret (Z.of_nat i) ∧ (i ≤ length es)%nat ∧ (length post < length ls)%nat ∧
    filter (λ e, within_lower lower e.1 = true) all = drop i es ++ entries_of post.
Proof.
  intros (pre & pid & es & post & pos & ex & At & E & Hl & Hpos & Hle & Ef & Hlen & Hpost & Hpre)%from_found.
  pose proof (at_sorted _ _ _ _ _ _ At) as Hs. exists pre, pid, es, post.
  destruct lower as [key|key|]; cbn [start_key range_start] in *.
  - exists (Z.to_nat pos). rewrite E, bind_Ret. cbn [fst]. rewrite Z2Nat.id by done. split_and!; try done.
    rewrite <-Ef. unfold from. apply list_filter_iff. intros e. apply key_leb_le.
  - exists (after pos ex). destruct (located_after _ _ _ _ Hs Hl) as (Hle' & Hb & Ha). rewrite E, bind_Ret. cbn [fst snd].
    split_and!; [done| |done|done|].
    + unfold after. destruct ex; f_equal; lia.
    + rewrite (chain_entries _ _ _ _ (at_chain _ _ _ _ _ _ At)), !filter_app.
      rewrite <-(take_drop (after pos ex) es) at 1. rewrite filter_app.
      rewrite (filter_out _ (entries_of pre)), (filter_out _ (take _ es)), (filter_all _ (drop _ es)), (filter_all _ (entries_of post)).
      * done.
      * eapply Forall_impl; [exact Hpost|]. intros e He. by apply key_ltb_lt.
      * eapply Forall_impl; [exact Ha|]. intros e He. by apply key_ltb_lt.
      * eapply Forall_impl; [exact Hb|]. intros e He Hn. by apply He, key_ltb_lt.
      * eapply Forall_impl; [exact Hpre|]. intros e He Hn. cbn in Hn. apply key_ltb_lt in Hn. by eapply key_lt_asym.
  - exists 0%nat. split_and!; [done|done|lia|done|]. rewrite filter_all by (by apply Forall_forall).
    rewrite (chain_entries _ _ _ _ (at_chain _ _ _ _ _ _ At)). assert (entries_of pre = []) as ->; [|done].
    destruct (entries_of pre) as [|e x]; [done|]. apply Forall_inv in Hpre. by destruct e.1.
Qed.

(** A key is in the range of a scan. *)
Definition in_range (lower upper : Bound) (e : entry) : Prop :=
  within_lower lower e.1 = true ∧ within_upper upper e.1 = true.

Lemma scan_range_spec fuel lower upper a σ :
  holds σ V → root_pid σ = root → deep fuel →
  steps V nowhere (scan_range_until fuel lower upper f a) σ (delivers (filter (in_range lower upper) all) σ a).
Proof.
  intros Hh Hr Hd. unfold scan_range_until. eapply steps_first; [|  |done].
  - by apply (find_leaf_shared_fallback_spec V root h0 ls m T (start_key lower) fuel (credit σ)).
  - intros p σ1 Hh1 Hp. destruct (range_start_spec lower p Hp) as (pre & pid & es & post & i & At & E & Hi & Hlen & Ef).
    eapply steps_lift_bind; [exact E|].
    eapply steps_mono; [eapply ascend_spec; [done|done|done|unfold deep in Hd; lia]|]. intros a' σ2 _ ->. do 2 f_equal.
    rewrite <-Ef, while_filter.
    + rewrite list_filter_filter. apply list_filter_iff. intros e. unfold in_range. tauto.
    + intros j k x y Hj Hk Hlt. apply within_upper_mono. eapply all_sorted_lookup; [|exact Hj|exact Hk|exact Hlt]. apply sublist_filter.
Qed.

(** *** The descending scan *)

(** Reading backwards from before position [i]. *)
Definition start_before (i : nat) : option Z := if decide (i = 0%nat) then None else Some (Z.of_nat i - 1).

Lemma descend_spec lower upper fuel : ∀ p pre pid es post (i : nat) first a σ,
  holds σ V → at_leaf ls p pre pid es post → (i ≤ length es)%nat → (length pre < fuel)%nat →
  (if zlen es =? 0 then Ret None else if first : bool then desc_start upper p (zlen es) else Ret (Some (zlen es - 1))) =
    Ret (start_before i) →
  steps V nowhere (descend fuel lower upper f p first a) σ
    (λ a' _, a' = (deliver f (while (within_lower lower) (reverse (entries_of pre ++ take i es))) a).1).
Proof.
  induction fuel as [|fuel IH]; intros p pre pid es post i first a σ Hh At Hi Hf Hst; [lia|]. cbn [descend].
  destruct At as [Hls P Hs]. pose proof (leaf_wf _ _ _ _ P) as W. rewrite (wf_num _ _ _ W), (leaf_left _ _ _ _ P).
  eapply steps_lift_bind; [exact Hst|].
  assert (Ec : match start_before i with
    | Some start_pos => desc_collect lower p (reverse (seqZ 0 (start_pos + 1)))
    | None => Ret ([], false)
    end = Ret (while (within_lower lower) (reverse (take i es)), negb (every (within_lower lower) (reverse (take i es))))).
  { unfold start_before. case_decide as Hi0; [by subst|]. rewrite <-(desc_collect_wf W lower (take i es) (drop i es)) by (by rewrite take_drop).
    do 3 f_equal. unfold zlen. rewrite length_take. lia. }
  eapply steps_lift_bind; [exact Ec|]. rewrite reverse_app, while_app.
  destruct (deliver f (while (within_lower lower) (reverse (take i es))) a) as [a1 more] eqn:Ed.
  destruct more; cbn [negb].
  2: { apply steps_ret. destruct (every (within_lower lower) (reverse (take i es))) eqn:Ee; [|by rewrite Ed].
    rewrite deliver_app. rewrite (while_every _ _ Ee) in Ed. by rewrite Ed. }
  destruct (every (within_lower lower) (reverse (take i es))) eqn:Ee; cbn [negb orb]; [|apply steps_ret; by rewrite Ed].
  rewrite (while_every _ _ Ee) in *. rewrite deliver_app, Ed.
  destruct (Z.eqb_spec (prev_pid pre) 0) as [E|E].
  { apply steps_ret. by rewrite (chain_start V root h0 ls m T _ _ _ _ Hls E). }
  assert (Hgo : (match reverse (take i es) with [] => true | _ => false end && negb (match start_before i with None => true | _ => false end)) = false).
  { unfold start_before. case_decide as Hi0; [apply andb_false_r|]. destruct (reverse (take i es)) eqn:Er; [|done].
    apply (f_equal length) in Er. rewrite length_reverse, length_take in Er. simpl in Er. lia. }
  rewrite Hgo. destruct (chain_left V root h0 ls m T _ _ _ _ Hls E) as (pre' & es' & Hpre & Hls' & HV).
  eapply steps_bind; [by apply steps_fix_orphan|]. intros ? σ1 K1 [-> _]. apply steps_latched_bind.
  assert (Hh1 : holds σ1 V) by (by eapply keeps_holds). pose proof (chain_at V root h0 ls m T σ1 _ _ _ _ Hh1 Hls') as At'.
  eapply steps_mono; [apply (IH _ pre' _ es' _ (length es') false a1 σ1 Hh1 At'); [done| |]|].
  - rewrite Hpre, length_app in Hf. simpl in Hf. lia.
  - unfold start_before, zlen. case_decide as E0; [by rewrite E0|]. by rewrite (proj2 (Z.eqb_neq _ _)) by lia.
  - intros a' σ2 _ ->. rewrite firstn_all. do 3 f_equal. rewrite Hpre. by rewrite entries_of_app, entries_of_cons, app_nil_r.
Qed.

Lemma desc_start_spec upper p pre pid es post :
  at_leaf ls p pre pid es post → match upper with Unbounded => post = [] | Included key | Excluded key =>
    below key (entries_of pre) ∧ (post = [] ∨ ¬ below key es) end →
  ∃ i : nat, (i ≤ length es)%nat ∧
    (if zlen es =? 0 then Ret None else desc_start upper p (zlen es)) = Ret (start_before i) ∧
    filter (λ e, within_upper upper e.1 = true) all = entries_of pre ++ take i es.
Proof.
  intros At Hu. pose proof (at_page _ _ _ _ _ _ At) as P. pose proof (leaf_wf _ _ _ _ P) as W. pose proof (at_sorted _ _ _ _ _ _ At) as Hs.
  assert (Hall : all = entries_of pre ++ es ++ entries_of post) by (eapply chain_entries, At).
  assert (Hfin : ∀ i : nat, (i ≤ length es)%nat →
    Forall (λ e, within_upper upper e.1 = true) (entries_of pre) → Forall (λ e, within_upper upper e.1 = true) (take i es) →
    Forall (λ e, within_upper upper e.1 ≠ true) (drop i es) → Forall (λ e, within_upper upper e.1 ≠ true) (entries_of post) →
    filter (λ e, within_upper upper e.1 = true) all = entries_of pre ++ take i es).
  { intros i Hi F1 F2 F3 F4. rewrite Hall, !filter_app. rewrite <-(take_drop i es) at 1. rewrite filter_app.
    rewrite (filter_all _ _ F1), (filter_all _ _ F2), (filter_out _ _ F3), (filter_out _ _ F4). by rewrite !app_nil_r. }
  assert (Hkey : ∀ key, below key (entries_of pre) ∧ (post = [] ∨ ¬ below key es) → ∃ pos ex, lower_bound p key = Ret (pos, ex) ∧
    located es key pos ex ∧ 0 ≤ pos ∧ Forall (λ e, key_lt key e.1) (entries_of post)).
  { intros key [Hpre Hend]. destruct (lower_bound_located W Hs key) as (pos & ex & E & Hl). exists pos, ex. split_and!; [done|done|apply Hl|].
    eapply from_chain; [apply At|done|done]. }
  destruct upper as [key|key|].
  - destruct (Hkey key Hu) as (pos & ex & E & Hl & Hpos & Hpost). destruct (located_after _ _ _ _ Hs Hl) as (Hle & Hb & Ha).
    exists (after pos ex). split_and!; [done| |].
    + destruct (Z.eqb_spec (zlen es) 0) as [E0|E0].
      * unfold start_before. rewrite decide_True; [done|]. unfold zlen in E0. lia.
      * cbn [desc_start]. rewrite E, bind_Ret. cbn [fst snd]. unfold start_before, after. destruct ex.
        -- rewrite decide_False by lia. do 2 f_equal. lia.
        -- destruct (Z.eqb_spec pos 0); case_decide; try lia; [done|]. do 2 f_equal. lia.
    + apply Hfin; [done| |eapply Forall_impl; [exact Hb|]|eapply Forall_impl; [exact Ha|]|eapply Forall_impl; [exact Hpost|]].
      * eapply Forall_impl; [apply Hu|]. intros e He. by apply key_leb_le, key_lt_asym.
      * intros e He. by apply key_leb_le.
      * intros e He Hn. by apply key_leb_le in Hn.
      * intros e He Hn. by apply key_leb_le in Hn.
  - destruct (Hkey key Hu) as (pos & ex & E & Hl & Hpos & Hpost). destruct (located_split _ _ _ _ Hl) as (Hb & Ha & Hle).
    exists (Z.to_nat pos). split_and!; [done| |].
    + destruct (Z.eqb_spec (zlen es) 0) as [E0|E0].
      * unfold start_before. rewrite decide_True; [done|]. unfold zlen in E0. lia.
      * cbn [desc_start]. rewrite E, bind_Ret. cbn [fst snd]. unfold start_before.
        destruct (Z.ltb_spec pos 1); destruct (Z.ltb_spec 0 pos); case_decide; try lia.
        -- by rewrite orb_false_r; destruct ex.
        -- rewrite orb_true_r. do 2 f_equal. lia.
    + apply Hfin; [done| |eapply Forall_impl; [exact Hb|]|eapply Forall_impl; [exact Ha|]|eapply Forall_impl; [exact Hpost|]].
      * eapply Forall_impl; [apply Hu|]. intros e He. by apply key_ltb_lt.
      * intros e He. by apply key_ltb_lt.
      * intros e He Hn. by apply key_ltb_lt in Hn.
      * intros e He Hn. apply key_ltb_lt in Hn. by eapply key_lt_asym.
  - exists (length es). split_and!; [done| |].
    + unfold start_before, zlen. case_decide as E0; [by rewrite E0|]. by rewrite (proj2 (Z.eqb_neq _ _)) by lia.
    + rewrite firstn_all. subst post. rewrite Hall, app_nil_r. by apply filter_all, Forall_forall.
Qed.

Lemma scan_range_desc_spec fuel lower upper a σ :
  holds σ V → root_pid σ = root → deep fuel →
  steps V nowhere (scan_range_desc_until fuel lower upper f a) σ (delivers (reverse (filter (in_range lower upper) all)) σ a).
Proof.
  intros Hh Hr Hd. unfold scan_range_desc_until.
  eapply (steps_first _ _ (λ p, ∃ pre pid es post, at_leaf ls p pre pid es post ∧ match upper with Unbounded => post = []
    | Included key | Excluded key => below key (entries_of pre) ∧ (post = [] ∨ ¬ below key es) end)); [| |done].
  - assert (Hkey : ∀ key, steps V (fewer (credit σ)) (find_leaf_shared_fallback fuel key) σ (λ p _, found ls key p))
      by (intros key; by apply (find_leaf_shared_fallback_spec V root h0 ls m T key fuel (credit σ))).
    destruct upper as [key|key|]; [by apply Hkey|by apply Hkey|].
    eapply steps_mono; [apply (find_rightmost_spec V root h0 ls m T fuel (credit σ)); [done|done|done|unfold deep in Hd; lia]|].
    intros p σ' _ (pre & pid & es & At). by exists pre, pid, es, [].
  - intros p σ1 Hh1 (pre & pid & es & post & At & Hu). destruct (desc_start_spec upper p pre pid es post At Hu) as (i & Hi & Est & Ef).
    eapply steps_mono; [eapply descend_spec; [done|done|done| |exact Est]|].
    + unfold deep in Hd. rewrite (at_chain _ _ _ _ _ _ At), length_app in Hd. simpl in Hd. lia.
    + intros a' σ2 _ ->. do 2 f_equal. rewrite <-Ef, while_filter.
      * rewrite filter_reverse. f_equal. rewrite list_filter_filter. apply list_filter_iff. intros e. unfold in_range. tauto.
      * intros j k x y Hj Hk Hlt. apply within_lower_mono. apply reverse_lookup_Some in Hj as [Hj ?], Hk as [Hk ?].
        eapply all_sorted_lookup; [|exact Hk|exact Hj|lia]. apply sublist_filter.
Qed.
End scans.
