(* ===== verification/BTreeTreeSpec.v ===== *)
(** * B-tree: a pool that keeps the promises

    A pool in memory, to show that the promises the tree relies on can be
    kept together, and to run the tree on: every page has a frame of its own,
    and a list of turns says which calls the pool grants, refuses, or answers
    with bytes that are not the page's. *)

From S2P Require Import Prelude Bytes FrameKernel SwipKernel PageHeader PageMutation Slotted SlottedInv SlottedOps SlottedSearch SlottedMutation SlottedSpec BufferFrame BTreeNode BTreeNodeInv BTreePages BTreeSplitSpec BTreeInnerSpec BTreeRoute BTreeNodeSpec BTreePool BTreeRead BTreeTree BTreeReadSpec BTreeScan BTreeScanSpec.
#[local] Open Scope Z_scope.
Import SlottedHeader SlottedPage.

Inductive turn := Granted | Refused | Torn.

Module MemPool.
Record t := { pages : gmap Z page; hot_root : bool; turns : list turn }.

Definition valid (pid : Z) : bool := (0 <? pid) && (pid <? 2 ^ 40).
Definition frame_of (pid : Z) : Z := pid * 65536.

Definition bytes (σ : t) (pid : Z) : page := if valid pid then default [] (pages σ !! pid) else [].

Definition target (w : Z) : option Z :=
  let pid := if 2 ^ 63 <=? w then w - 2 ^ 63 else w / 65536 in
  if valid pid && ((2 ^ 63 <=? w) || (w mod 65536 =? 0)) then Some pid else None.

Definition next (σ : t) : t * turn :=
  match turns σ with
  | [] => (σ, Granted)
  | r :: rs => ({| pages := pages σ; hot_root := hot_root σ; turns := rs |}, r)
  end.

Definition refused (r : turn) : bool := if r is Refused then true else false.

(** A call that may be refused. *)
Definition may {A} (σ : t) (yes no : A) : t * A := let '(σ, r) := next σ in (σ, if refused r then no else yes).

Definition pin (σ : t) (w : Z) : t * option Z :=
  match target w with
  | Some pid => may σ (Some pid) None
  | None => (σ, None)
  end.

Definition snapshot `{Build} (σ : t) (pid : Z) : t * option page :=
  let '(σ, r) := next σ in
  (σ, match r with
      | Granted => if zlen (bytes σ pid) =? PAGE_SIZE then Some (bytes σ pid) else None
      | Refused => None
      | Torn => Some (fill PAGE_SIZE x00)
      end).

Definition check (σ : t) (pid : Z) (b : page) : t * bool := may σ (bool_decide (bytes σ pid = b)) false.

Definition write (σ : t) (pid : Z) (p : page) : t :=
  {| pages := <[pid := p]> (pages σ); hot_root := hot_root σ; turns := turns σ |}.

(** The highest page, and what is left above it. *)
Definition top (σ : t) : Z := set_fold Z.max 0 (dom (pages σ)).
Definition room (σ : t) : Z := 2 ^ 40 - 1 - top σ.

Definition refusals (rs : list turn) : nat := length (filter (λ r, refused r = true) rs).
End MemPool.

#[global] Instance mem_ops `{Build} : PoolOps := {|
  pool := MemPool.t;
  page_bytes := MemPool.bytes;
  word_target _ := MemPool.target;
  meta_swip σ := if MemPool.hot_root σ then MemPool.frame_of 1 else 2 ^ 63 + 1;
  hot_swip _ := MemPool.frame_of;
  contains_frame _ _ := true;
  logs_ranges _ := true;
  fix_stable σ := (σ, 1);
  fix_orphan_frame σ pid := (σ, pid);
  try_fix_orphan_frame σ pid := MemPool.may σ (Some pid) None;
  pin_child := MemPool.pin;
  try_pin_child := MemPool.pin;
  optimistic := MemPool.snapshot;
  validate := MemPool.check;
  try_exclusive σ _ := MemPool.may σ true false;
  upgrade_to_shared := MemPool.check;
  try_upgrade_to_exclusive := MemPool.check;
  set_page := MemPool.write;
  set_parent_link σ _ _ := σ;
|}.

Section laws.
Context `{Build}.
Import MemPool.
Implicit Types σ : MemPool.t.

Lemma next_ok σ : let '(σ', r) := next σ in
  pages σ' = pages σ ∧ hot_root σ' = hot_root σ ∧
  refusals (turns σ) = ((if refused r then 1 else 0) + refusals (turns σ'))%nat.
Proof. unfold next, refusals. destruct (turns σ) as [|r rs] eqn:E; [simpl; by rewrite E|]. simpl. by destruct r. Qed.

Lemma valid_range pid : valid pid = true ↔ 0 < pid < 2 ^ 40.
Proof. unfold valid. lia. Qed.

Lemma target_frame pid : valid pid = true → target (frame_of pid) = Some pid.
Proof.
  intros Hv%valid_range. unfold target, frame_of. rewrite (proj2 (Z.leb_gt _ _)) by lia. rewrite Z.div_mul, Z.mod_mul by done.
  by rewrite (proj2 (valid_range pid)).
Qed.

Lemma target_word w pid :
  target w = Some pid → valid pid = true ∧ ∃ s, swip_valid s ∧ w = encode s ∧ (∀ p, s = EvictedPage p → p = pid).
Proof.
  unfold target. destruct (Z.leb_spec (2 ^ 63) w) as [Hle|Hlt]; cbn [orb].
  - rewrite andb_true_r. destruct (valid _) eqn:Hv; [|done]. intros [= <-]. split; [done|]. apply valid_range in Hv.
    exists (EvictedPage (w - 2 ^ 63)). split_and!; [unfold swip_valid, payload_ok; lia|simpl; lia|by intros p [= ->]].
  - destruct (valid _) eqn:Hv; [|done]. cbn [andb]. destruct (Z.eqb_spec (w mod 65536) 0) as [E|E]; [|done]. intros [= <-].
    split; [done|]. apply valid_range in Hv. exists (HotPtr w). split_and!; [|done|done].
    pose proof (Z.div_mod w 65536 ltac:(lia)) as Hw. unfold swip_valid, frame_addr, FRAME_ALIGN. split; [page_lia|].
    rewrite Hw, E, Z.add_0_r. change 65536 with (16 * 4096). rewrite <-Z.mul_assoc, (Z.mul_comm 4096), Z.mul_assoc. by apply Z.mod_mul.
Qed.

(** A change of turns keeps every tree. *)
Lemma keep_pages σ σ' V : pages σ' = pages σ → holds (H0 := mem_ops) σ V → holds (H0 := mem_ops) σ' V.
Proof.
  intros E Hh pid v HV. specialize (Hh pid v HV). destruct v as [l r es|ks cps|]; cbn in *; unfold bytes in *; by rewrite E.
Qed.

Lemma holds_valid σ V pid : holds (H0 := mem_ops) σ V → is_Some (V !! pid) → valid pid = true.
Proof.
  intros Hh [v HV]. specialize (Hh pid v HV). destruct (valid pid) eqn:E; [done|]. exfalso.
  assert (Hz : zlen (bytes σ pid) = PAGE_SIZE).
  { destruct v as [l r es|ks cps|]; cbn in Hh; [destruct Hh as [P _]; apply (wf_len _ _ _ (leaf_wf _ _ _ _ P))| |done].
    destruct Hh as (cs & u & P & _). apply (wf_len _ _ _ (inner_wf _ _ _ P)). }
  unfold bytes in Hz. rewrite E in Hz. change (zlen (A := byte) []) with 0 in Hz. page_lia.
Qed.

(** The highest page. *)
Lemma top_ge σ k : k ∈ dom (pages σ) → k ≤ top σ.
Proof.
  unfold top, set_fold. cbn. rewrite <-elem_of_elements. generalize (elements (dom (pages σ))). intros ks.
  induction ks as [|a ks IH]; [by intros ?%not_elem_of_nil|]. cbn. intros [->|Hk]%elem_of_cons; [lia|]. specialize (IH Hk). lia.
Qed.

Lemma top_le σ b : 0 ≤ b → (∀ k, k ∈ dom (pages σ) → k ≤ b) → top σ ≤ b.
Proof.
  unfold top, set_fold. cbn. intros Hb Hk. assert (Hk' : ∀ k, k ∈ elements (dom (pages σ)) → k ≤ b) by (intros k; rewrite elem_of_elements; apply Hk).
  clear Hk. induction (elements (dom (pages σ))) as [|a ks IH]; [done|]. cbn.
  pose proof (Hk' a ltac:(by left)). assert (foldr Z.max 0 ks ≤ b) by (apply IH; intros k ?; apply Hk'; by right). lia.
Qed.

Lemma top_nonneg σ : 0 ≤ top σ.
Proof. unfold top, set_fold. cbn. generalize (elements (dom (pages σ))). intros ks. induction ks; cbn; lia. Qed.

Lemma holds_page σ V pid : holds (H0 := mem_ops) σ V → is_Some (V !! pid) → pid ∈ dom (pages σ).
Proof.
  intros Hh HV. pose proof (holds_valid σ V pid Hh HV) as Hv. destruct HV as [v HV]. specialize (Hh pid v HV).
  assert (Hz : zlen (bytes σ pid) = PAGE_SIZE).
  { destruct v as [l r es|ks cps|]; cbn in Hh; [destruct Hh as [P _]; apply (wf_len _ _ _ (leaf_wf _ _ _ _ P))| |done].
    destruct Hh as (cs & u & P & _). apply (wf_len _ _ _ (inner_wf _ _ _ P)). }
  unfold bytes in Hz. rewrite Hv in Hz. apply elem_of_dom. destruct (pages σ !! pid); [by eexists|].
  change (zlen (A := byte) (default [] None)) with 0 in Hz. page_lia.
Qed.

(** What every call does to the state at most. *)
Definition spends σ σ' : Prop := pages σ' = pages σ ∧ (refusals (turns σ') ≤ refusals (turns σ))%nat.

Lemma may_ok {A} σ (yes no : A) : let '(σ', x) := may σ yes no in
  spends σ σ' ∧ (x = yes ∨ x = no ∧ (refusals (turns σ') < refusals (turns σ))%nat).
Proof.
  unfold may, spends. pose proof (next_ok σ) as E. destruct (next σ) as [σ' r]. destruct E as (? & _ & E).
  destruct (refused r); (split; [split; [done|lia]|]); [right; split; [done|lia]|by left].
Qed.

Lemma spends_keeps V σ σ' : spends σ σ' →
  (holds (H0 := mem_ops) σ V → holds (H0 := mem_ops) σ' V) ∧ 1 = 1 ∧ (refusals (turns σ') ≤ refusals (turns σ))%nat ∧
  (∀ pid, valid pid = true → valid pid = true) ∧ (∀ w pid, target w = Some pid → target w = Some pid) ∧ room σ ≤ room σ'.
Proof. intros [E Hc]. split_and!; [by apply keep_pages|done|done|done|done|]. unfold room, top. rewrite E. lia. Qed.

Lemma pin_spends σ w : let '(σ', o) := pin σ w in spends σ σ' ∧
  match o with
  | Some pid => target w = Some pid ∧ (∀ q, target w = Some q → q = pid)
  | None => is_Some (target w) → (refusals (turns σ') < refusals (turns σ))%nat
  end.
Proof.
  unfold pin. destruct (target w) as [pid|] eqn:E; [|split; [done|by intros [? ?]]].
  pose proof (may_ok σ (Some pid) None) as M. destruct (may σ (Some pid) None) as [σ' o]. destruct M as [Hs [->|[-> Hc]]]; [|done].
  split; [done|]. split; [done|]. by intros q [= ->].
Qed.

Lemma check_spends σ pid b : let '(σ', ok) := check σ pid b in spends σ σ' ∧ (ok = true → bytes σ pid = b ∧ bytes σ' pid = b).
Proof.
  unfold check. pose proof (may_ok σ (bool_decide (bytes σ pid = b)) false) as M.
  destruct (may σ _ false) as [σ' ok]. destruct M as [Hs Hok]. split; [done|]. intros ->. destruct Hok as [Hok|[? _]]; [|done].
  symmetry in Hok. apply bool_decide_eq_true_1 in Hok. split; [done|]. destruct Hs as [Hs _]. unfold bytes in *. by rewrite Hs.
Qed.

#[global] Program Instance mem_laws : PoolLaws := {|
  root_pid _ := 1;
  credit σ := refusals (turns σ);
  spare := room;
  pinned _ pid := valid pid = true;
  frame_pin _ w pid := target w = Some pid;
|}.
Next Obligation. intros σ w pid E. by apply target_word in E as [_ ?]. Qed.
Next Obligation.
  intros σ w pid E. split; [by apply target_word in E as [? _]|]. intros q Eq. cbn in E, Eq. rewrite E in Eq. by injection Eq.
Qed.
Next Obligation. intros σ pid E. by apply target_frame. Qed.
Next Obligation. intros σ. split; [cbn; by destruct (hot_root σ)|done]. Qed.
Next Obligation. intros V σ. cbn. split; [by apply spends_keeps|done]. Qed.
Next Obligation. intros V σ pid Hh HV. cbn. split; [by apply spends_keeps|]. split; [done|by eapply holds_valid]. Qed.
Next Obligation.
  intros V σ pid Hh HV. cbn. pose proof (may_ok σ (Some pid) None) as M. destruct (may σ (Some pid) None) as [σ' o].
  destruct M as [Hs Ho]. split; [by apply spends_keeps|]. destruct Ho as [->|[-> ?]]; [|done]. split; [done|by eapply holds_valid].
Qed.
Next Obligation.
  intros V σ w. cbn. pose proof (pin_spends σ w) as M. destruct (pin σ w) as [σ' o]. destruct M as [Hs Ho].
  split; [by apply spends_keeps|by destruct o].
Qed.
Next Obligation.
  intros V σ w. cbn. pose proof (pin_spends σ w) as M. destruct (pin σ w) as [σ' o]. destruct M as [Hs Ho].
  split; [by apply spends_keeps|by destruct o].
Qed.
Next Obligation.
  intros V σ pid. cbn. unfold snapshot. pose proof (next_ok σ) as E. destruct (next σ) as [σ' r]. destruct E as (Ep & _ & E).
  split; [apply spends_keeps; split; [done|lia]|]. destruct r; [|done|apply zlen_fill; page_lia].
  destruct (Z.eqb_spec (zlen (bytes σ' pid)) PAGE_SIZE); done.
Qed.
Next Obligation.
  intros V σ pid b. cbn. pose proof (check_spends σ pid b) as M. destruct (check σ pid b) as [σ' ok]. destruct M as [Hs Ho].
  split; [by apply spends_keeps|]. destruct ok; [by apply Ho|done].
Qed.
Next Obligation.
  intros V σ pid b. cbn. pose proof (check_spends σ pid b) as M. destruct (check σ pid b) as [σ' ok]. destruct M as [Hs Ho].
  split; [by apply spends_keeps|]. destruct ok; [by apply Ho|done].
Qed.
Next Obligation.
  intros V σ pid b. cbn. pose proof (check_spends σ pid b) as M. destruct (check σ pid b) as [σ' ok]. destruct M as [Hs Ho].
  split; [by apply spends_keeps|]. destruct ok; [by apply Ho|done].
Qed.
Next Obligation.
  intros V σ pid. cbn. pose proof (may_ok σ true false) as M. destruct (may σ true false) as [σ' ok]. destruct M as [Hs _].
  by apply spends_keeps.
Qed.
Next Obligation.
  intros V σ pid p Hh HV _. cbn. pose proof (holds_valid σ V pid Hh HV) as Hv. unfold bytes, write. cbn [pages turns]. split_and!; try done.
  - by rewrite Hv, lookup_insert_eq.
  - intros q Hq. destruct (valid q); [|done]. by rewrite lookup_insert_ne.
  - unfold room, top. cbn [pages]. rewrite dom_insert_lookup_L; [done|]. by eapply elem_of_dom, holds_page.
Qed.
Next Obligation. intros V σ pid l. cbn. split; [by apply spends_keeps|done]. Qed.
End laws.

(** * B-tree: what reading guarantees

    The properties of lookups and scans, over every pool that keeps its
    promises and every tree it holds, and runs of them on a pool in memory. *)

#[local] Open Scope Z_scope.
Import SlottedHeader SlottedPage.

(** A computation that returns, and what it returns. *)
Definition returns `{PoolLaws} {A} (V : gmap Z node_view) (c : R A) (σ : pool) (P : A → pool → Prop) : Prop :=
  ∃ σ' a, c σ = Ret (σ', Some a) ∧ keeps V σ σ' ∧ P a σ'.

Lemma steps_returns `{PoolLaws} {A} V (c : R A) σ (P : A → pool → Prop) : steps V nowhere c σ P → returns V c σ P.
Proof. unfold steps, returns. destruct (c σ) as [[σ' [a|]]|]; [|by intros [_ []]|done]. intros [K Hp]. by exists σ', a. Qed.

(** ** A tree of three nodes *)

Definition left_entries : list entry := [([x61], [x01]); ([x62], [x02; x03])].
Definition right_entries : list entry := [([x64], [x04])].

(** The root refers to its leaves by page or by frame. *)
Definition sample_pages (w2 w3 : Z) : gmap Z page :=
  {[ 1 := inner_of (H := debug_4k) [([x62], w2)] w3;
     2 := leaf_of (H := debug_4k) 0 3 left_entries; 3 := leaf_of (H := debug_4k) 2 0 right_entries ]}.
Definition sample_view : gmap Z node_view :=
  {[ 1 := InnerView [[x62]] [2; 3]; 2 := LeafView 0 3 left_entries; 3 := LeafView 2 0 right_entries ]}.
Definition sample_leaves : list (Z * list entry) := [(2, left_entries); (3, right_entries)].
Definition sample_map : gmap (list byte) (list byte) := contents (left_entries ++ right_entries).

Lemma sample_tree : tree sample_view 1 1 sample_leaves sample_map.
Proof.
  constructor.
  - exists [[x62]], [2; 3], [[(2, left_entries)]; [(3, right_entries)]]. split_and!; [done|done| |done|].
    + repeat constructor; [by exists 0, 3, left_entries|by exists 2, 0, right_entries].
    + intros i j k ls e Hk Hls He Hij. destruct j as [|j]; [|by destruct j]. injection Hk as <-.
      destruct i as [|i]; [|lia]. injection Hls as <-. split; [|lia].
      apply list_elem_of_In in He. destruct He as [<-|[<-|[]]]; by vm_compute.
  - intros i pid es Hi. destruct i as [|[|i]]; [injection Hi as <- <-|injection Hi as <- <-|done]; done.
  - repeat constructor.
  - done.
Qed.

(** Evicted leaves, a refused pin and a torn read; and resident leaves that
    the pool refuses to pin. *)
Definition calm : MemPool.t :=
  {| MemPool.pages := sample_pages (2 ^ 63 + 2) (2 ^ 63 + 3); MemPool.hot_root := true; MemPool.turns := [Torn; Refused; Torn] |}.
Definition stubborn : MemPool.t :=
  {| MemPool.pages := sample_pages (MemPool.frame_of 2) (MemPool.frame_of 3); MemPool.hot_root := true;
     MemPool.turns := replicate 128 Refused |}.

Lemma sample_holds w2 w3 hot rs :
  word_ok w2 → word_ok w3 → MemPool.target w2 = Some 2 → MemPool.target w3 = Some 3 →
  holds (H := debug_4k) (H0 := mem_ops (H := debug_4k))
    {| MemPool.pages := sample_pages w2 w3; MemPool.hot_root := hot; MemPool.turns := rs |} sample_view.
Proof.
  intros H2 H3 T2 T3 pid v HV. unfold sample_view in HV.
  apply lookup_insert_Some in HV as [[<- <-]|[_ HV]].
  - exists [([x62], w2)], w3. split_and!; [|done|by repeat constructor].
    apply (inner_of_spec (H := debug_4k)); [vm_compute; congruence|by apply Forall_singleton|done].
  - apply lookup_insert_Some in HV as [[<- <-]|[_ HV]].
    + split; [|repeat constructor]. apply (leaf_of_spec (H := debug_4k)); [vm_compute; congruence|done|done].
    + apply lookup_singleton_Some in HV as [<- <-].
      split; [|repeat constructor]. apply (leaf_of_spec (H := debug_4k)); [vm_compute; congruence|done|done].
Qed.

(** ** Lookups *)

(** C9: a lookup always returns, whatever the pool refuses, tears or evicts
    on the way, and leaves the pool holding the same tree. [lookup] returns
    the value the tree binds the key to and [lookup_fixed] that value when it
    has the length asked for; [lookup_with] gives its callback that value. An
    answer of no value for a bound key is possible only when the pool has
    refused 64 pins during the lookup. The fuel that suffices is bounded by
    the height, the number of leaves and the failures the pool has left. *)
Theorem lookups_find `{PoolLaws} (self : BTree.t) V root h ls m key σ fuel :
  tree V root h ls m → holds σ V → root_pid σ = root → (fuel_for h ls σ ≤ fuel)%nat →
  returns V (lookup self fuel key) σ (λ o σ',
    o = m !! key ∨ (o = None ∧ 64 ≤ credit σ - credit σ')%nat) ∧
  (∀ n, returns V (lookup_fixed self fuel n key) σ (λ o σ',
    o = fixed n (m !! key) ∨ (o = None ∧ 64 ≤ credit σ - credit σ')%nat)) ∧
  (∀ A (f : option (list byte) → A), returns V (lookup_with fuel key f) σ (λ a σ',
    a = f (m !! key) ∨ (a = f None ∧ 64 ≤ credit σ - credit σ')%nat)).
Proof.
  intros T Hh Hr Hf. split_and!.
  - apply steps_returns. apply (lookup_loop_spec self V root h ls m T key read_optimistic (λ o, o) fuel); [apply read_optimistic_ok| |done|done|done].
    intros. by apply (lookup_fallback_spec V root h ls m T key).
  - intros n. apply steps_returns.
    apply (lookup_loop_spec self V root h ls m T key (read_optimistic_fixed n) (fixed n) fuel); [apply read_optimistic_fixed_ok| |done|done|done].
    intros. by apply (with_leaf_spec V root h ls m T key fuel (fixed n)).
  - intros A f. apply steps_returns. by apply (with_leaf_spec V root h ls m T key fuel f).
Qed.

Lemma calm_holds : holds (H := debug_4k) (H0 := mem_ops (H := debug_4k)) calm sample_view.
Proof. by apply sample_holds. Qed.
Lemma stubborn_holds : holds (H := debug_4k) (H0 := mem_ops (H := debug_4k)) stubborn sample_view.
Proof. by apply sample_holds. Qed.

Lemma lookups_find_witness :
  ∃ σ', lookup (H := debug_4k) (H0 := mem_ops (H := debug_4k)) {| BTree.dt_id := 7 |} 20 [x64] calm = Ret (σ', Some (Some [x04])).
Proof.
  destruct (lookups_find (H := debug_4k) (H0 := mem_ops (H := debug_4k)) (H1 := mem_laws (H := debug_4k))
    {| BTree.dt_id := 7 |} sample_view 1 1 sample_leaves sample_map [x64] calm 20) as [(σ' & o & E & K & Ho) _];
    [exact sample_tree|exact calm_holds|reflexivity|vm_compute; lia|].
  exists σ'. rewrite E. destruct Ho as [->|[_ Hc]]; [reflexivity|]. exfalso.
  assert (Hcr : (credit (H := debug_4k) (H0 := mem_ops (H := debug_4k)) calm = 1)%nat) by reflexivity. rewrite Hcr in Hc. lia.
Defined.

(** ** Scans *)

(** C10: [scan] always returns and calls back once for every entry of the
    tree, in key order: it goes on through refused pins and torn reads. The
    fuel is bounded by the height, the leaves, the entries and the failures
    the pool has left. *)
Theorem scan_visits_all `{PoolLaws} (self : BTree.t) V root h ls m σ {A} (f : A → list byte → list byte → A) a leaves tries fuel :
  tree V root h ls m → holds σ V → root_pid σ = root →
  (h + length ls < fuel)%nat → (16 + credit σ < tries)%nat → (length (entries_of ls) < leaves)%nat →
  returns V (scan self leaves tries fuel f a) σ (λ a' _, a' = foldl (λ a e, f a e.1 e.2) a (entries_of ls)).
Proof. intros T Hh Hr Hf Ht Hl. apply steps_returns. by apply (scan_spec self V root h ls m T f). Qed.

(** Keys and values in the order of the calls. *)
Definition log (es : list entry) (k v : list byte) : list entry := es ++ [(k, v)].

Lemma scan_visits_all_witness :
  ∃ σ', scan (H := debug_4k) (H0 := mem_ops (H := debug_4k)) {| BTree.dt_id := 7 |} 5 20 5 log [] calm =
    Ret (σ', Some (left_entries ++ right_entries)).
Proof.
  destruct (scan_visits_all (H := debug_4k) (H0 := mem_ops (H := debug_4k)) (H1 := mem_laws (H := debug_4k))
    {| BTree.dt_id := 7 |} sample_view 1 1 sample_leaves sample_map calm log [] 5 20 5) as (σ' & o & E & _ & ->);
    [exact sample_tree|exact calm_holds|reflexivity|simpl; lia|vm_compute; lia|vm_compute; lia|].
  exists σ'. exact E.
Defined.

(** C11: the range scans always return. The entries they call back for are
    those whose keys start with the prefix, or lie between the bounds, in
    ascending or descending order, up to the one at which the callback asks
    to stop; unless the pool refuses a pin while the first leaf is searched,
    when they may return without any call. *)
Theorem range_scans_deliver `{PoolLaws} V root h ls m σ {A} (f : A → list byte → list byte → A * bool) a fuel :
  tree V root h ls m → holds σ V → root_pid σ = root → (h + length ls < fuel)%nat →
  (∀ prefix, returns V (scan_prefix_borrowed_until fuel prefix f a) σ (λ a' σ',
    a' = (deliver f (filter (λ e, starts_with e.1 prefix = true) (entries_of ls)) a).1 ∨ (a' = a ∧ credit σ' < credit σ)%nat)) ∧
  (∀ lower upper, returns V (scan_range_until fuel lower upper f a) σ (λ a' σ',
    a' = (deliver f (filter (in_range lower upper) (entries_of ls)) a).1 ∨ (a' = a ∧ credit σ' < credit σ)%nat)) ∧
  (∀ lower upper, returns V (scan_range_desc_until fuel lower upper f a) σ (λ a' σ',
    a' = (deliver f (reverse (filter (in_range lower upper) (entries_of ls))) a).1 ∨ (a' = a ∧ credit σ' < credit σ)%nat)).
Proof.
  intros T Hh Hr Hf. split_and!.
  - intros prefix. apply steps_returns. by apply (scan_prefix_spec V root h ls m T f).
  - intros lower upper. apply steps_returns. by apply (scan_range_spec V root h ls m T f).
  - intros lower upper. apply steps_returns. by apply (scan_range_desc_spec V root h ls m T f).
Qed.

(** The same tree, and a pool that grants everything. *)
Definition willing : MemPool.t :=
  {| MemPool.pages := sample_pages (2 ^ 63 + 2) (MemPool.frame_of 3); MemPool.hot_root := false; MemPool.turns := [] |}.

Lemma range_scans_deliver_witness :
  ∃ σ', scan_range_desc_until (H := debug_4k) (H0 := mem_ops (H := debug_4k)) 5 (Excluded [x61]) (Included [x64])
      (λ es k v, (log es k v, true)) [] willing =
    Ret (σ', Some [([x64], [x04]); ([x62], [x02; x03])]).
Proof.
  destruct (range_scans_deliver (H := debug_4k) (H0 := mem_ops (H := debug_4k)) (H1 := mem_laws (H := debug_4k))
    sample_view 1 1 sample_leaves sample_map willing (λ es k v, (log es k v, true)) [] 5) as (_ & _ & Hd);
    [exact sample_tree|by apply sample_holds|reflexivity|simpl; lia|].
  destruct (Hd (Excluded [x61]) (Included [x64])) as (σ' & es & E & _ & [->|[_ Hc]]); [by exists σ'|].
  exfalso. assert (Hcr : (credit (H := debug_4k) (H0 := mem_ops (H := debug_4k)) willing = 0)%nat) by reflexivity.
  rewrite Hcr in Hc. lia.
Defined.

(** Reads can miss keys that are there. The pool holds a tree that binds
    the key and does nothing but refuse pins: after 64 restarts of the
    optimistic search and 64 refusals to pin the resident child, [lookup]
    answers that there is no value (with one refusal less it finds the
    value); and after a single refusal, a scan of everything returns without
    a call. *)
Theorem reads_give_up :
  sample_map !! [x61] = Some [x01] ∧
  holds (H := debug_4k) (H0 := mem_ops (H := debug_4k)) stubborn sample_view ∧
  (∃ σ', lookup (H := debug_4k) (H0 := mem_ops (H := debug_4k)) {| BTree.dt_id := 7 |} 200 [x61] stubborn = Ret (σ', Some None)) ∧
  (∃ σ', lookup (H := debug_4k) (H0 := mem_ops (H := debug_4k)) {| BTree.dt_id := 7 |} 200 [x61]
    {| MemPool.pages := MemPool.pages stubborn; MemPool.hot_root := true; MemPool.turns := replicate 127 Refused |} =
    Ret (σ', Some (Some [x01]))) ∧
  ∃ σ', scan_range_until (H := debug_4k) (H0 := mem_ops (H := debug_4k)) 5 Unbounded Unbounded (λ es k v, (log es k v, true)) []
      {| MemPool.pages := MemPool.pages stubborn; MemPool.hot_root := true; MemPool.turns := [Refused] |} =
    Ret (σ', Some []).
Proof.
  split; [reflexivity|]. split; [exact stubborn_holds|]. split; [|split]; eexists; vm_compute; reflexivity.
Qed.
