(* ===== verification/BTreeDescent.v ===== *)
(** * B-tree: what writers rely on, and their descents

    The promises of the buffer pool to writers, besides those to readers: new
    pages are fresh, a frame is told from the frames of other pages, and the
    calls that log, count or link leave the tree as it is. [does] is the
    judgement for computations that return, with rules for the calls that
    writers make.

    Every descent of a writer ends at the leaf the key belongs to, or
    restarts: the optimistic ones at any time, the latched ones only when the
    pool has refused a pin. The descents that keep the path return ancestors
    of the leaf. *)

From S2P Require Import Prelude Bytes FrameKernel SwipKernel PageHeader PageMutation Slotted SlottedInv SlottedOps SlottedSearch SlottedMutation SlottedSpec BufferFrame BTreeNode BTreeNodeInv BTreePages BTreeSplitSpec BTreeInnerSpec BTreeRoute BTreePool BTreeRead BTreeTree BTreeGrow BTreeReadSpec BTreeWrite.
#[local] Open Scope Z_scope.
Import SlottedHeader SlottedPage.

(** What a step may do to the pool besides the pages: [n] pages may be
    allocated by it. *)
Definition goes `{PoolLaws} (n : Z) (σ σ' : pool) : Prop :=
  root_pid σ' = root_pid σ ∧ (credit σ' ≤ credit σ)%nat ∧
  (∀ pid, pinned σ pid → pinned σ' pid) ∧ (∀ w pid, frame_pin σ w pid → frame_pin σ' w pid) ∧ spare σ - n ≤ spare σ'.

Class WriteLaws `{Build} `{PoolOps} `{!PoolLaws} `{!WriteOps} := {
  (** A page of the tree: its identifier and the references to it. *)
  held_ok V σ q : holds σ V → is_Some (V !! q) → q ≠ 0 ∧ payload_ok q ∧
    word_target σ (encode (EvictedPage q)) = Some q ∧
    ∀ w, word_target σ w = Some q → swip_page_id (frames_of σ) w = Ret q;
  (** The frame of a pinned page. *)
  frame_ref_ok σ pid s a q : pinned σ pid → swip_valid s → s = HotPtr a ∨ s = CoolPtr a → word_target σ (encode s) = Some q →
    a = frame_ref σ pid ↔ q = pid;
  (** The pin of a resident child, under the latch of its parent, moves no page. *)
  pin_targets σ w w' q : word_target σ w' = Some q → word_target (try_pin_child σ w).1 w' = Some q;
  upgrade_ok V σ pid b : let '(σ', ok) := upgrade_to_exclusive σ pid b in
    keeps V σ σ' ∧ if ok : bool then page_bytes σ' pid = b else True;
  allocate_ok V σ : holds σ V → 0 < spare σ → let '(σ', pid) := allocate_unlinked σ in
    V !! pid = None ∧ pinned σ' pid ∧ holds σ' (<[pid := BlankView]> V) ∧ goes 1 σ σ';
  drop_ok V σ pid : V !! pid = None → let σ' := drop_unlinked σ pid in
    (holds σ V → holds σ' V) ∧ root_pid σ' = root_pid σ ∧ (credit σ' ≤ credit σ)%nat ∧ spare σ ≤ spare σ';
  finish_publication_ok V σ pid : keeps V σ (finish_publication σ pid);
  mark_dirty_ok V σ pid d : keeps V σ (mark_dirty σ pid d);
  add_height_ok V σ d : keeps V σ (add_height σ d);
  add_reachable_pages_ok V σ d : keeps V σ (add_reachable_pages σ d);
}.

(** ** Computations that return *)

Section does.
Context `{Build} `{PoolOps} `{!PoolLaws}.

Definition does {A} (m : R A) (σ : pool) (Q : A → pool → Prop) : Prop :=
  match m σ with
  | Ret (σ', Some a) => Q a σ'
  | _ => False
  end.

Lemma does_mono {A} (m : R A) σ (P Q : A → pool → Prop) : does m σ P → (∀ a σ', P a σ' → Q a σ') → does m σ Q.
Proof. unfold does. destruct (m σ) as [[σ' [a|]]|]; auto. Qed.

Lemma does_ret {A} (a : A) σ (Q : A → pool → Prop) : Q a σ → does (R_ret a) σ Q.
Proof. done. Qed.

Lemma does_bind {A B} (m : R A) (k : A → R B) σ (P : A → pool → Prop) Q :
  does m σ P → (∀ a σ', P a σ' → does (k a) σ' Q) → does (R_bind m k) σ Q.
Proof. unfold does, R_bind. intros Hm Hk. destruct (m σ) as [[σ' [a|]]|]; [|done|done]. by apply Hk. Qed.

Lemma does_then {A B} (m : R A) (k : A → R B) σ Q : does m σ (λ a σ', does (k a) σ' Q) → does (R_bind m k) σ Q.
Proof. intros Hm. eapply does_bind; [exact Hm|auto]. Qed.

Lemma does_steps {A} V (m : R A) σ (P Q : A → pool → Prop) :
  steps V nowhere m σ P → (∀ a σ', keeps V σ σ' → P a σ' → Q a σ') → does m σ Q.
Proof. unfold steps, does. destruct (m σ) as [[σ' [a|]]|]; [|by intros [_ []]|done]. intros [K Hp] HQ. by apply HQ. Qed.

Lemma does_call {A} (f : pool → pool * A) σ (Q : A → pool → Prop) : (let '(σ', a) := f σ in Q a σ') → does (call f) σ Q.
Proof. unfold does, call. by destruct (f σ). Qed.

Lemma does_latched {B} pid (k : page → R B) σ Q : does (k (page_bytes σ pid)) σ Q → does (R_bind (latched pid) k) σ Q.
Proof. done. Qed.

Lemma does_get {A B} (f : pool → A) (k : A → R B) σ Q : does (k (f σ)) σ Q → does (R_bind (call (λ σ, (σ, f σ))) k) σ Q.
Proof. done. Qed.

Lemma does_lift_bind {A B} (o : outcome A) a (k : A → R B) σ Q : o = Ret a → does (k a) σ Q → does (R_bind (lift o) k) σ Q.
Proof. by intros ->. Qed.

(** ** What a step leaves *)

Lemma goes_refl σ : goes 0 σ σ.
Proof. split_and!; [done|done|auto|auto|lia]. Qed.

Lemma goes_trans n n' σ1 σ2 σ3 : goes n σ1 σ2 → goes n' σ2 σ3 → goes (n + n') σ1 σ3.
Proof.
  intros (? & ? & ? & ? & ?) (? & ? & ? & ? & ?). split_and!; [congruence|lia|auto|auto|lia].
Qed.

Lemma goes_le n n' σ σ' : goes n σ σ' → n ≤ n' → goes n' σ σ'.
Proof. intros (? & ? & ? & ? & ?) ?. split_and!; [done|done|auto|auto|lia]. Qed.

Lemma keeps_goes V σ σ' : keeps V σ σ' → goes 0 σ σ'.
Proof. intros (? & ? & ? & ? & ? & ?). split_and!; [done|done|done|done|lia]. Qed.

(** ** Pages and what they show *)

Definition shown (σ : pool) (p : page) (v : node_view) : Prop :=
  match v with
  | LeafView l r es => leaf_page p l r es ∧ keys_sorted es
  | InnerView ks cps => ∃ cs u, inner_page p cs u ∧ seps cs = ks ∧ Forall2 (λ w c, word_target σ w = Some c) (children cs u) cps
  | BlankView => zlen p = PAGE_SIZE
  end.

Lemma shown_len σ p v : shown σ p v → zlen p = PAGE_SIZE.
Proof.
  destruct v as [l r es|ks cps|]; cbn; [intros [P _]; apply (wf_len _ _ _ (leaf_wf _ _ _ _ P))| |done].
  intros (cs & u & P & _). apply (wf_len _ _ _ (inner_wf _ _ _ P)).
Qed.

Lemma shown_target σ σ' p v : (∀ w, word_target σ' w = word_target σ w) → shown σ p v → shown σ' p v.
Proof.
  intros Hw. destruct v as [l r es|ks cps|]; cbn; [done| |done]. intros (cs & u & P & E & F). exists cs, u. split_and!; [done|done|].
  eapply Forall2_impl; [exact F|]. intros w c Hc. cbn in Hc |- *. by rewrite Hw.
Qed.

Lemma holds_shown σ V pid v : holds σ V → V !! pid = Some v → shown σ (page_bytes σ pid) v.
Proof. intros Hh HV. specialize (Hh pid v HV). by destruct v. Qed.

Lemma set_page_view V σ pid p v :
  holds σ V → is_Some (V !! pid) → shown σ p v → let σ' := set_page σ pid p in
  holds σ' (<[pid := v]> V) ∧ goes 0 σ σ' ∧ (∀ w, word_target σ' w = word_target σ w) ∧
  (∀ q, q ≠ pid → page_bytes σ' q = page_bytes σ q).
Proof.
  intros Hh HV Hs. cbn.
  destruct (set_page_ok V σ pid p Hh HV (shown_len _ _ _ Hs)) as (Hp & Hq & Hw & Hr & Hc & Hpin & Hfp & Hsp).
  split_and!; [|split_and!; [done|lia|done|done|lia]|done|done].
  intros q v'. destruct (decide (q = pid)) as [->|Hne].
  - rewrite lookup_insert_eq. intros [= <-]. pose proof (shown_target σ (set_page σ pid p) p v Hw Hs) as Hs'.
    destruct v; cbn in *; by rewrite Hp.
  - rewrite lookup_insert_ne by done. intros Hv. pose proof (holds_shown σ V q v' Hh Hv) as Hs'.
    apply (shown_target _ (set_page σ pid p)) in Hs'; [|done]. destruct v'; cbn in *; by rewrite Hq.
Qed.

Lemma holds_delete σ V pid v : V !! pid = None → holds σ (<[pid := v]> V) → holds σ V.
Proof. intros HN Hh q w Hq. apply Hh. rewrite lookup_insert_ne; [done|]. intros ->. by rewrite HN in Hq. Qed.

End does.

(** ** Calls of writers *)

Section calls.
Context `{Build} `{PoolOps} `{!PoolLaws} `{!WriteOps} `{!WriteLaws} (self : BTree.t).
Implicit Types σ : pool.

Lemma does_put_page V σ pid p v (Q : unit → pool → Prop) :
  holds σ V → is_Some (V !! pid) → shown σ p v →
  (∀ σ', holds σ' (<[pid := v]> V) → goes 0 σ σ' → (∀ w, word_target σ' w = word_target σ w) →
    (∀ q, q ≠ pid → page_bytes σ' q = page_bytes σ q) → Q tt σ') →
  does (put_page pid p) σ Q.
Proof. intros Hh HV Hs HQ. unfold put_page, does, update. destruct (set_page_view V σ pid p v Hh HV Hs) as (? & ? & ? & ?). by apply HQ. Qed.

Lemma does_update V (f : pool → pool) σ (Q : unit → pool → Prop) :
  keeps V σ (f σ) → (∀ σ', keeps V σ σ' → Q tt σ') → does (update f) σ Q.
Proof. intros K HQ. by apply HQ. Qed.

Lemma does_put_dirty V σ pid d (Q : unit → pool → Prop) :
  (∀ σ', keeps V σ σ' → Q tt σ') → does (put_dirty pid d) σ Q.
Proof. apply does_update, mark_dirty_ok. Qed.

Lemma does_put_link V σ pid parent slot upper (Q : unit → pool → Prop) :
  (∀ σ', keeps V σ σ' → Q tt σ') → does (put_link self pid parent slot upper) σ Q.
Proof. apply does_update, set_parent_link_ok. Qed.

Lemma does_finish V σ pid (Q : unit → pool → Prop) :
  (∀ σ', keeps V σ σ' → Q tt σ') → does (update (λ σ, finish_publication σ pid)) σ Q.
Proof. apply (does_update V (λ σ, finish_publication σ pid)), finish_publication_ok. Qed.

Lemma does_height V σ n (Q : unit → pool → Prop) :
  (∀ σ', keeps V σ σ' → Q tt σ') → does (update (λ σ, add_height σ n)) σ Q.
Proof. apply (does_update V (λ σ, add_height σ n)), add_height_ok. Qed.

Lemma does_reachable V σ n (Q : unit → pool → Prop) :
  (∀ σ', keeps V σ σ' → Q tt σ') → does (update (λ σ, add_reachable_pages σ n)) σ Q.
Proof. apply (does_update V (λ σ, add_reachable_pages σ n)), add_reachable_pages_ok. Qed.

Lemma does_allocate V σ (Q : Z → pool → Prop) :
  holds σ V → 0 < spare σ →
  (∀ pid σ', V !! pid = None → pinned σ' pid → holds σ' (<[pid := BlankView]> V) → goes 1 σ σ' → Q pid σ') →
  does (call allocate_unlinked) σ Q.
Proof.
  intros Hh Hs HQ. apply does_call. pose proof (allocate_ok V σ Hh Hs) as E. destruct (allocate_unlinked σ).
  destruct E as (? & ? & ? & ?). by apply HQ.
Qed.

Lemma does_fix_stable V σ (Q : Z → pool → Prop) :
  (∀ σ', keeps V σ σ' → pinned σ' (root_pid σ) → Q (root_pid σ) σ') → does (call fix_stable) σ Q.
Proof.
  intros HQ. apply does_call. pose proof (fix_stable_ok V σ) as E. destruct (fix_stable σ) as [σ' pid]. destruct E as (? & -> & ?). by apply HQ.
Qed.

Lemma does_fix_orphan V σ pid (Q : Z → pool → Prop) :
  holds σ V → is_Some (V !! pid) → (∀ σ', keeps V σ σ' → pinned σ' pid → Q pid σ') →
  does (call (λ σ, fix_orphan_frame σ pid)) σ Q.
Proof.
  intros Hh HV HQ. apply does_call. pose proof (fix_orphan_ok V σ pid Hh HV) as E. destruct (fix_orphan_frame σ pid) as [σ' q].
  destruct E as (? & -> & ?). by apply HQ.
Qed.

Lemma does_root_page_id V σ (Q : Z → pool → Prop) :
  holds σ V → is_Some (V !! root_pid σ) → Q (root_pid σ) σ → does root_page_id σ Q.
Proof.
  intros Hh HV HQ. destruct (held_ok V σ _ Hh HV) as (_ & _ & _ & Hw). destruct (meta_swip_ok σ) as [Ht _].
  unfold does, root_page_id, page_id_of_swip, R_bind, call, lift. cbn. rewrite (Hw _ Ht). done.
Qed.
End calls.

(** ** Places in the tree *)


(** A node of the level [h]. *)
Definition placed (Ts : list (list (Z * list (Z * list entry)))) (h : nat) (pid : Z) : Prop :=
  ∃ T, Ts !! h = Some T ∧ pid ∈ T.*1.

(** The leaf a key belongs to: the leaves before it are below the key, and it
    is not, unless it is the last one. *)
Definition leaf_for (ls : list (Z * list entry)) (key : list byte) (pid : Z) : Prop :=
  ∃ pre es post, ls = pre ++ (pid, es) :: post ∧ below key (entries_of pre) ∧ (post = [] ∨ ¬ below key es).

(** No leaf is empty, but for a tree of one leaf. *)
Definition filled (ls : list (Z * list entry)) : Prop := leaves_nonempty ls ∨ length ls = 1%nat.

Lemma placed_child V D Ts root ls h P ks cps c :
  tower V D Ts root ls → placed Ts (S h) P → V !! P = Some (InnerView ks cps) → c ∈ cps → placed Ts h c.
Proof.
  intros W (T' & HT' & HP) HV Hc. destruct (Ts !! h) as [T|] eqn:HT.
  2: { apply lookup_ge_None in HT. apply lookup_lt_Some in HT'. lia. }
  destruct (tw_step _ _ _ _ _ W h T T' HT HT') as (H & Hh & HL). apply in_level in HP as (A & l & B & ->).
  destruct (level_node V H A P l B HL) as (sA & seg & sB & ks' & EH & _ & _ & HV' & _).
  rewrite HV in HV'. injection HV' as <- ->. exists T. split; [done|]. apply (hangs_sub _ _ _ Hh). rewrite EH, !fmap_app.
  rewrite !elem_of_app. auto.
Qed.

Section descent.
Context `{Build} `{PoolOps} `{!PoolLaws} `{!WriteOps} `{!WriteLaws} (self : BTree.t).
Context (V : gmap Z node_view) (root : Z) (h0 : nat) (ls : list (Z * list entry)) (m : gmap (list byte) (list byte)).
Context (T : tree V root h0 ls m) (key : list byte).
Implicit Types (b : page) (σ : pool).

(** ** Stops *)

Lemma optimistic_step σ pid : steps V anywhere (optimistic_or_restart pid) σ (λ b _, zlen b = PAGE_SIZE).
Proof.
  unfold optimistic_or_restart. eapply steps_bind; [apply steps_call, optimistic_ok|]. intros o σ1 K1 Ho.
  by apply (steps_or_restart _ _ _ _ (λ b _, zlen b = PAGE_SIZE)); destruct o.
Qed.

(** The leaf at which a search stops. *)
Lemma stops_at σ cur h pre :
  holds σ V → toward V ls key h pre cur → BTreeNode.is_leaf (page_bytes σ cur) = true →
  ResidentFrame.should_chase_right (page_bytes σ cur) key = Ret false → leaf_for ls key cur.
Proof.
  intros Hh Ht Hl Hc. destruct h as [|h].
  2: { destruct (toward_inner _ _ _ _ _ _ Ht) as (ks & cps & HV & _). by rewrite (inner_bytes V σ cur ks cps Hh HV) in Hl. }
  destruct (toward_leaf _ _ _ _ _ T key pre cur Ht) as (l & es & post & Hls & Hpre & HV).
  destruct (holds_leaf V σ cur _ _ es Hh HV) as [P Hs]. rewrite (chase_spec _ _ _ _ _ P Hs) in Hc. injection Hc as Hc.
  apply bool_decide_eq_false_1 in Hc. exists pre, es, post. split_and!; [done|done|].
  destruct post as [|[q es2] post]; [by left|]. right. intros Hb. apply Hc. split; [|done].
  destruct (tree_chain _ _ _ _ _ T (S (length pre)) q es2) as [Hq _]; [|done].
  rewrite Hls, lookup_app_r by lia. by replace (S (length pre) - length pre)%nat with 1%nat by lia.
Qed.

Lemma chased_pre σ cur h pre :
  holds σ V → toward V ls key h pre cur → BTreeNode.is_leaf (page_bytes σ cur) = true →
  ResidentFrame.should_chase_right (page_bytes σ cur) key = Ret true →
  h = 0%nat ∧ ∃ es, BTreeNode.leaf_right_pid (page_bytes σ cur) ≠ 0 ∧ num_slots (page_bytes σ cur) = zlen es ∧
    (S (length pre) < length ls)%nat ∧ (cur, es) ∈ ls ∧
    toward V ls key 0 (pre ++ [(cur, es)]) (BTreeNode.leaf_right_pid (page_bytes σ cur)).
Proof.
  intros Hh Ht Hl Hc. destruct (toward_chased V root h0 ls m T key σ cur _ h pre Hh Ht eq_refl Hl Hc) as (-> & l & es & Hr & HV & Ht').
  split; [done|]. exists es. destruct (toward_leaf _ _ _ _ _ T key pre cur Ht) as (l' & es' & post & Hls & _ & HV').
  rewrite HV in HV'. injection HV' as -> Ep <-. destruct (holds_leaf V σ cur _ _ es Hh HV) as [P _].
  split_and!; [done|apply (leaf_wf _ _ _ _ P)| | |done].
  - eapply toward_pre_lt; [exact T|exact Hls|symmetry; exact Ep|done].
  - rewrite Hls. apply elem_of_app. right. left.
Qed.

(** ** Optimistic descents *)

Lemma exclusive_loop_spec fuel : ∀ h pre cur σ,
  holds σ V → toward V ls key h pre cur → (h + (length ls - length pre) < fuel)%nat →
  steps V anywhere (exclusive_loop self fuel key cur) σ (λ leaf _, leaf_for ls key leaf).
Proof.
  induction fuel as [|fuel IH]; intros h pre cur σ Hh Ht Hf; [lia|]. cbn [exclusive_loop].
  eapply steps_bind; [apply optimistic_step|]. intros b σ1 K1 Hb. assert (Hh1 : holds σ1 V) by (by eapply keeps_holds).
  destruct (BTreeNode.is_leaf b) eqn:Hl.
  - destruct (chase_total b key Hb) as (c & Ec). eapply steps_lift_bind; [exact Ec|]. destruct c.
    + eapply steps_bind; [apply validate_step|]. intros [] σ3 K3 <-.
      destruct (chased_pre σ1 cur h pre Hh1 Ht Hl Ec) as (-> & es & Hr & _ & Hpre & _ & Ht').
      rewrite (proj2 (Z.eqb_neq _ _) Hr).
      eapply steps_bind; [apply steps_fix_orphan; [by eapply keeps_holds|by eapply toward_node]|]. intros ? σ4 K4 [-> _].
      eapply IH; [|exact Ht'|rewrite length_app; cbn; lia]. do 2 (eapply keeps_holds; [done|]). done.
    + eapply steps_bind; [apply steps_call, upgrade_ok|]. intros ok σ2 K2 Hok.
      eapply steps_bind; [apply (steps_guard _ _ ok _ (λ _ σ, σ = σ2 ∧ ok = true)); by destruct ok|].
      intros [] ? _ [-> ->]. apply steps_ret. subst b. eapply stops_at; [by eapply keeps_holds|exact Ht|done|done].
  - destruct h as [|h].
    + destruct (toward_leaf _ _ _ _ _ T key pre cur Ht) as (l & es & post & _ & _ & HV).
      eapply steps_bind; [by eapply step_child_torn|]. done.
    + destruct (toward_inner _ _ _ _ _ _ Ht) as (ks & cps & HV & Hcps).
      eapply steps_bind; [eapply step_child_spec; [apply pin_route_ok|apply publish_child_ok|done|done|done|done]|].
      intros child σ2 K2 (_ & pos & Hc & Hx).
      destruct (toward_child V ls key h pre cur ks cps pos child Ht HV Hc Hx) as (pre' & Ht').
      eapply IH; [by eapply keeps_holds|exact Ht'|]. rewrite length_app. lia.
Qed.

Lemma find_leaf_exclusive_spec fuel σ :
  holds σ V → root_pid σ = root → (h0 + length ls < fuel)%nat →
  steps V anywhere (find_leaf_exclusive self fuel key) σ (λ leaf _, leaf_for ls key leaf).
Proof.
  intros Hh Hr Hf. eapply steps_bind; [by eapply start_at_root_spec; [exact T|apply try_pin_resident_ok|..]|].
  intros cur σ1 K1 (h & pre & Hle & Ht). eapply exclusive_loop_spec; [by eapply keeps_holds|exact Ht|lia].
Qed.

Lemma find_leaf_fixed_root_spec fuel σ :
  holds σ V → root_pid σ = root → (h0 + length ls < fuel)%nat →
  steps V anywhere (find_leaf_exclusive_from_fixed_root self fuel key) σ (λ leaf _, leaf_for ls key leaf).
Proof.
  intros Hh Hr Hf. eapply steps_bind; [apply steps_fix_stable|]. intros ? σ1 K1 [-> _]. rewrite Hr.
  eapply exclusive_loop_spec; [by eapply keeps_holds|by eapply toward_root|cbn; lia].
Qed.
(** ** Descents with the path *)

Section path.
Context (Ts : list (list (Z * list (Z * list entry)))) (W : tower V ∅ Ts root ls) (Hfill : filled ls) (Hlen : length Ts = S h0).

Definition on_path (path : list Z) : Prop := Forall (λ x, ∃ h, placed Ts (S h) x) path.

Lemma placed_root : placed Ts h0 root.
Proof.
  exists [(root, ls)]. pose proof (tw_top _ _ _ _ _ W) as E. rewrite last_lookup, Hlen in E. split; [done|left].
Qed.

Lemma chased_not_empty es (pre : list (Z * list entry)) cur :
  (S (length pre) < length ls)%nat → (cur, es) ∈ ls → zlen es =? 0 = false.
Proof.
  intros Hl He. destruct Hfill as [Hne|Hone]; [|lia]. apply Z.eqb_neq. specialize (Hne _ He). cbn in Hne.
  destruct es; [done|]. rewrite zlen_cons. pose proof (zlen_nonneg es). lia.
Qed.

Lemma path_loop_spec fuel : ∀ h pre path cur σ,
  holds σ V → toward V ls key h pre cur → placed Ts h cur → pinned σ cur → on_path path →
  (h + (length ls - length pre) < fuel)%nat →
  steps V anywhere (path_loop self fuel key path cur) σ (λ r σ', leaf_for ls key r.2 ∧ on_path r.1 ∧ pinned σ' r.2).
Proof.
  induction fuel as [|fuel IH]; intros h pre path cur σ Hh Ht Hpl Hpin Hpath Hf; [lia|]. cbn [path_loop].
  eapply steps_bind; [apply optimistic_step|]. intros b σ1 K1 Hb. assert (Hh1 : holds σ1 V) by (by eapply keeps_holds).
  destruct (BTreeNode.is_leaf b) eqn:Hl.
  - destruct (chase_total b key Hb) as (c & Ec). eapply steps_lift_bind; [exact Ec|].
    eapply (steps_bind _ _ _ _ _ (λ _ σ', c = false)).
    { destruct c; [|by apply steps_ret]. eapply steps_bind; [apply validate_step|]. intros [] σ2 K2 <-.
      destruct (chased_pre σ1 cur h pre Hh1 Ht Hl Ec) as (-> & es & _ & Hn & Hpre & He & _).
      apply steps_guard. unfold ResidentFrame.is_empty_leaf. by rewrite Hn, (chased_not_empty es pre cur). }
    intros _ σ2 K2 ->. eapply steps_bind; [apply steps_call, upgrade_ok|]. intros ok σ3 K3 Hok.
    eapply steps_bind; [apply (steps_guard _ _ ok _ (λ _ σ, σ = σ3 ∧ ok = true)); by destruct ok|].
    intros [] ? _ [-> ->]. apply steps_ret. subst b. split_and!; [|done|by apply K3, K2, K1].
    eapply stops_at; [|exact Ht|done|done]. do 2 (eapply keeps_holds; [done|]). done.
  - destruct h as [|h].
    + destruct (toward_leaf _ _ _ _ _ T key pre cur Ht) as (l & es & post & _ & _ & HV).
      eapply steps_bind; [by eapply step_child_torn|]. done.
    + destruct (toward_inner _ _ _ _ _ _ Ht) as (ks & cps & HV & Hcps).
      eapply steps_bind; [eapply step_child_spec; [apply pin_route_ok|apply publish_child_ok|done|done|done|done]|].
      intros child σ2 K2 (Hp & pos & Hc & Hx).
      destruct (toward_child V ls key h pre cur ks cps pos child Ht HV Hc Hx) as (pre' & Ht').
      eapply IH; [by eapply keeps_holds|exact Ht'| |done| |rewrite length_app; lia].
      * by eapply placed_child, list_elem_of_lookup_2.
      * constructor; [by exists h|done].
Qed.

Lemma find_path_spec fuel σ :
  holds σ V → root_pid σ = root → (h0 + length ls < fuel)%nat →
  steps V anywhere (find_leaf_exclusive_with_path self fuel key) σ (λ r σ', leaf_for ls key r.2 ∧ on_path r.1 ∧ pinned σ' r.2).
Proof.
  intros Hh Hr Hf. eapply steps_bind; [apply steps_fix_stable|]. intros ? σ1 K1 [-> Hp]. rewrite Hr in Hp |- *.
  eapply path_loop_spec; [by eapply keeps_holds|by eapply toward_root|apply placed_root|done|constructor|cbn; lia].
Qed.

(** ** Latched descents

    These restart only when the pool has refused something. *)

Lemma resolve_pins N route σ q :
  holds σ V → is_Some (V !! q) → word_target σ (RoutedChildRef.swip route) = Some q →
  steps V N (try_resolve_resident route) σ
    (λ o σ', match o with Some c => c = q ∧ pinned σ' q | None => (credit σ' < credit σ)%nat end).
Proof.
  intros Hh Hq Ht. unfold try_resolve_resident. destruct (RoutedChildRef.is_resident route) eqn:Hr.
  - eapply steps_mono; [apply steps_try_pin_child|]. intros [c|] σ' _ [_ Hp]; [|by eapply Hp].
    destruct Hp as [Hf Hc]. rewrite (Hc q Ht) in *. split; [done|]. by apply frame_pin_ok in Hf as [? _].
  - destruct (evicted_target σ route q Ht Hr) as (_ & E & _).
    eapply steps_lift_bind; [exact E|]. by apply steps_try_fix_orphan.
Qed.

Lemma exclusive_fallback_loop_spec N c0 fuel : ∀ h pre path cur σ,
  (∀ σ', (credit σ' < c0)%nat → N σ') → (credit σ ≤ c0)%nat →
  holds σ V → toward V ls key h pre cur → placed Ts h cur → pinned σ cur → on_path path →
  (h + (length ls - length pre) < fuel)%nat →
  steps V N (exclusive_fallback_loop fuel key path cur) σ (λ r σ', leaf_for ls key r.2 ∧ on_path r.1 ∧ pinned σ' r.2).
Proof.
  induction fuel as [|fuel IH]; intros h pre path cur σ HN Hc0 Hh Ht Hpl Hpin Hpath Hf; [lia|]. cbn [exclusive_fallback_loop].
  apply steps_latched_bind. destruct (BTreeNode.is_leaf (page_bytes σ cur)) eqn:Hl.
  - destruct (chase_total (page_bytes σ cur) key) as (c & Ec).
    { destruct (toward_node _ _ _ _ _ _ Ht) as [v HV]. by eapply shown_len, holds_shown. }
    eapply steps_lift_bind; [exact Ec|]. destruct c.
    + destruct (chased_pre σ cur h pre Hh Ht Hl Ec) as (-> & es & Hr & _ & Hpre & _ & Ht').
      rewrite (proj2 (Z.eqb_neq _ _) Hr).
      eapply steps_bind; [apply steps_fix_orphan; [done|by eapply toward_node]|]. intros ? σ1 K1 [-> Hp].
      eapply IH; [done|etrans; [apply K1|done]|by eapply keeps_holds|exact Ht'| |done|done|rewrite length_app; cbn; lia].
      destruct (toward_leaf _ _ _ _ _ T key _ _ Ht') as (? & es' & post & Hls & _ & _).
      exists (base ls). split; [apply W|]. rewrite base_pids, Hls, fmap_app. apply elem_of_app. right. left.
    + apply steps_latched_bind. rewrite Hl. cbn [negb]. eapply steps_lift_bind; [exact Ec|]. apply steps_ret.
      split_and!; [by eapply stops_at|done|done].
  - destruct h as [|h].
    { destruct (toward_leaf _ _ _ _ _ T key pre cur Ht) as (l & es & post & _ & _ & HV). by rewrite (leaf_bytes V σ cur _ _ _ Hh HV) in Hl. }
    destruct (toward_inner _ _ _ _ _ _ Ht) as (ks & cps & HV & Hcps).
    destruct (routed_some V σ cur key ks cps Hh HV) as (route & Er). eapply steps_lift_bind; [exact Er|].
    eapply steps_bind; [by apply (steps_or_restart _ _ _ _ (λ x σ', x = route ∧ σ' = σ))|]. intros ? ? _ [-> ->].
    destruct (routed V σ cur _ key ks cps route Hh HV eq_refl Er) as (pos & q & Hq & Htq & _ & Hx).
    destruct (toward_child V ls key h pre cur ks cps pos q Ht HV Hq Hx) as (pre' & Ht').
    eapply steps_bind; [apply resolve_pins; [done|by eapply Hcps, list_elem_of_lookup_2|done]|]. intros o σ1 K1 Ho.
    eapply (steps_bind _ _ _ _ _ (λ c σ', c = q ∧ pinned σ' q)).
    { apply steps_or_restart. destruct o as [c|]; [done|]. apply HN. lia. }
    intros ? σ2 K2 [-> Hp]. assert (Hh2 : holds σ2 V) by (do 2 (eapply keeps_holds; [done|]); done).
    eapply IH; [done| |done|exact Ht'|by eapply placed_child, list_elem_of_lookup_2|done|constructor; [by exists h|done]|rewrite length_app; lia].
    destruct K1 as (_ & _ & ? & _), K2 as (_ & _ & ? & _). lia.
Qed.

Lemma find_path_fallback_spec fuel σ :
  holds σ V → root_pid σ = root → (h0 + length ls < fuel)%nat →
  steps V (λ σ', (credit σ' < credit σ)%nat) (find_leaf_exclusive_with_path_fallback fuel key) σ
    (λ r σ', leaf_for ls key r.2 ∧ on_path r.1 ∧ pinned σ' r.2).
Proof.
  intros Hh Hr Hf. eapply steps_bind; [apply steps_fix_stable|]. intros ? σ1 K1 [-> Hp]. rewrite Hr in Hp |- *.
  eapply (exclusive_fallback_loop_spec _ (credit σ)); [done|apply K1|by eapply keeps_holds|by eapply toward_root|apply placed_root|done|constructor|cbn; lia].
Qed.

Lemma find_leaf_fallback_spec fuel σ :
  holds σ V → root_pid σ = root → (h0 + length ls < fuel)%nat →
  steps V (λ σ', (credit σ' < credit σ)%nat) (find_leaf_exclusive_fallback fuel key) σ (λ leaf _, leaf_for ls key leaf).
Proof.
  intros Hh Hr Hf. unfold find_leaf_exclusive_fallback.
  eapply steps_bind; [apply steps_fix_stable|]. intros ? σ1 K1 [-> Hp]. rewrite Hr in Hp |- *.
  eapply steps_bind; [eapply (exclusive_fallback_loop_spec _ (credit σ)); [by auto|apply K1|by eapply keeps_holds|by eapply toward_root|apply placed_root|done|constructor|cbn; lia]|].
  intros [path leaf] σ2 K2 (Hl & _). by apply steps_ret.
Qed.

(** ** The descents of a write

    From the sixteenth attempt on, a restart means that the pool has refused
    something. *)

Definition restarted (attempts : nat) σ σ' : Prop :=
  (WRITE_BLOCKING_FALLBACK_THRESHOLD ≤ attempts)%nat → (credit σ' < credit σ)%nat.

Lemma steps_weaken {A} (N N' : pool → Prop) (c : R A) σ P :
  steps V N c σ P → (∀ σ', N σ' → N' σ') → steps V N' c σ P.
Proof. unfold steps. destruct (c σ) as [[σ' [a|]]|]; [done| |done]. intros [K Hn] Hw. auto. Qed.

Lemma find_leaf_to_write_spec fuel attempts σ :
  holds σ V → root_pid σ = root → (h0 + length ls < fuel)%nat →
  steps V (restarted attempts σ) (find_leaf_to_write self fuel attempts key) σ (λ leaf _, leaf_for ls key leaf).
Proof.
  intros Hh Hr Hf. unfold find_leaf_to_write, restarted. case_bool_decide as H16.
  { eapply steps_weaken; [by apply find_leaf_fallback_spec|]. auto. }
  case_bool_decide; (eapply steps_weaken; [first [by apply find_leaf_fixed_root_spec|by apply find_leaf_exclusive_spec]|by intros]).
Qed.

Lemma find_path_to_write_spec fuel attempts σ :
  holds σ V → root_pid σ = root → (h0 + length ls < fuel)%nat →
  steps V (restarted attempts σ) (find_path_to_write self fuel attempts key) σ
    (λ r σ', leaf_for ls key r.2 ∧ on_path r.1 ∧ pinned σ' r.2).
Proof.
  intros Hh Hr Hf. unfold find_path_to_write, restarted. case_bool_decide as H16.
  - eapply steps_weaken; [by apply find_path_fallback_spec|]. auto.
  - eapply steps_weaken; [by apply find_path_spec|by intros].
Qed.
End path.
End descent.
