(* ===== verification/BTreeWorld.v ===== *)
(** * B-tree: splits on the pool

    The state of a pool that holds a tree in growth, what a split costs, and
    the splits of [BTreeWrite] as steps of it: each divides a node and leaves
    its new right half pending, or grows the tree at its root. *)

From S2P Require Import Prelude Bytes FrameKernel SwipKernel PageHeader PageMutation Slotted SlottedInv SlottedOps SlottedSearch SlottedMutation SlottedSpec BufferFrame BTreeNode BTreeNodeInv BTreePages BTreeSplitSpec BTreeInnerSpec BTreeRoute BTreePool BTreeRead BTreeTree BTreeGrow BTreeReadSpec BTreeWrite BTreeDescent.
#[local] Open Scope Z_scope.
Import SlottedHeader SlottedPage.

(** ** Links of the chain *)

(** The chain with the links at both ends of it given. *)
Fixpoint linked (V : gmap Z node_view) (l : Z) (ls : list (Z * list entry)) (r : Z) : Prop :=
  match ls with
  | [] => True
  | (pid, es) :: ls' => pid ≠ 0 ∧ V !! pid = Some (LeafView l (default r (fst <$> head ls')) es) ∧ linked V pid ls' r
  end.

Lemma linked_app V ls1 : ∀ l ls2 r,
  linked V l (ls1 ++ ls2) r ↔ linked V l ls1 (default r (fst <$> head ls2)) ∧ linked V (default l (fst <$> last ls1)) ls2 r.
Proof.
  induction ls1 as [|[pid es] ls1 IH]; intros l ls2 r; cbn [app linked]; [cbn; tauto|]. rewrite IH.
  assert (Eh : default r (fst <$> head (ls1 ++ ls2)) = default (default r (fst <$> head ls2)) (fst <$> head ls1)) by (by destruct ls1).
  assert (El : default l (fst <$> last ((pid, es) :: ls1)) = default pid (fst <$> last ls1)).
  { rewrite last_cons. by destruct (last ls1). }
  rewrite Eh, El. tauto.
Qed.

Lemma linked_ext V V' ls : ∀ l r, linked V l ls r → (∀ x, x ∈ ls.*1 → V' !! x = V !! x) → linked V' l ls r.
Proof.
  induction ls as [|[pid es] ls IH]; intros l r; cbn; [done|]. intros (Hp & HV & Hl) Hx. split_and!; [done| |].
  - rewrite Hx; [done|left].
  - apply IH; [done|]. intros x ?. apply Hx. by right.
Qed.

Lemma chained_linked V ls : chained V ls ↔ linked V 0 ls 0.
Proof.
  assert (Hgen : ∀ l, (∀ (i : nat) pid es, ls !! i = Some (pid, es) → pid ≠ 0 ∧
    V !! pid = Some (LeafView (match i with O => l | S i => pid_at ls i end) (pid_at ls (S i)) es)) ↔ linked V l ls 0).
  { induction ls as [|[pid es] ls IH]; intros l; [split; [done|by intros _ [|i]]|]. cbn [linked]. rewrite <-(IH pid). split.
    - intros Hc. destruct (Hc 0%nat pid es eq_refl) as [Hp HV]. split_and!; [done|by destruct ls|].
      intros i p e Hi. destruct (Hc (S i) p e Hi) as [Hp' HV']. split; [done|]. by destruct i.
    - intros (Hp & HV & Hc) [|i] p e Hi; [injection Hi as <- <-; split; [done|by destruct ls]|].
      destruct (Hc i p e Hi) as [Hp' HV']. split; [done|]. by destruct i. }
  apply Hgen.
Qed.

(** The head of the chain gets another left link. *)
Definition relinked (V : gmap Z node_view) (left : Z) (ls : list (Z * list entry)) : gmap Z node_view :=
  match ls with
  | [] => V
  | (pid, es) :: ls => <[pid := LeafView left (pid_at ls 0) es]> V
  end.

Lemma linked_relinked V l left ls : linked V l ls 0 → NoDup ls.*1 → linked (relinked V left ls) left ls 0.
Proof.
  destruct ls as [|[pid es] ls]; [done|]. cbn. intros (Hp & _ & Hl) [Hn _]%NoDup_cons. split_and!; [done| |].
  - rewrite lookup_insert_eq. by destruct ls.
  - eapply linked_ext; [done|]. intros x Hx. rewrite lookup_insert_ne; [done|]. by intros ->.
Qed.

Lemma relinked_other V left ls x : x ∉ ls.*1 → relinked V left ls !! x = V !! x.
Proof. destruct ls as [|[pid es] ls]; [done|]. cbn. intros [Hx _]%not_elem_of_cons. by rewrite lookup_insert_ne. Qed.

(** A leaf becomes two. *)
Definition leaf_halved (V : gmap Z node_view) (L R l : Z) (es1 es2 : list entry) (post : list (Z * list entry)) : gmap Z node_view :=
  relinked (<[L := LeafView l R es1]> (<[R := LeafView L (pid_at post 0) es2]> V)) R post.

Lemma chain_split V pre L l es es1 es2 post R :
  chained V (pre ++ (L, es) :: post) → V !! L = Some (LeafView l (pid_at post 0) es) → R ≠ 0 →
  R ∉ (pre ++ (L, es) :: post).*1 → chained (leaf_halved V L R l es1 es2 post) (pre ++ (L, es1) :: (R, es2) :: post).
Proof.
  intros Hc HV HR0 HR. pose proof (chained_nodup _ _ Hc) as Hn. apply chained_linked in Hc. apply chained_linked.
  rewrite fmap_app in Hn, HR. cbn in Hn, HR. apply NoDup_app in Hn as (Hn1 & Hdis & Hn2). apply NoDup_cons in Hn2 as [HL Hn2].
  rewrite not_elem_of_app, not_elem_of_cons in HR. destruct HR as (HRp & HRL & HRq).
  apply linked_app in Hc as [Hpre Hc]. cbn in Hpre, Hc. destruct Hc as (HL0 & HVL & Hpost).
  rewrite HV in HVL. injection HVL as -> HVr. unfold leaf_halved.
  set (V1 := <[L := _]> (<[R := _]> V)).
  assert (HV1 : ∀ x, x ≠ L → x ≠ R → V1 !! x = V !! x) by (intros x ? ?; unfold V1; by rewrite !lookup_insert_ne).
  apply linked_app. split; cbn.
  - eapply linked_ext; [exact Hpre|]. intros x Hx. rewrite relinked_other; [apply HV1|].
    + intros ->. apply (Hdis L Hx). left.
    + intros ->. done.
    + intros Hq. apply (Hdis x Hx). by right.
  - split_and!; [done| |done| |].
    + rewrite relinked_other by done. unfold V1. by rewrite lookup_insert_eq.
    + rewrite relinked_other by done. unfold V1. rewrite lookup_insert_ne, lookup_insert_eq by done. by destruct post.
    + apply (linked_relinked _ L); [|done]. eapply linked_ext; [exact Hpost|]. intros x Hx. apply HV1; by intros ->.
Qed.

(** A leaf gets other entries. *)
Lemma chain_write V pre L l es es' post :
  chained V (pre ++ (L, es) :: post) → V !! L = Some (LeafView l (pid_at post 0) es) →
  chained (<[L := LeafView l (pid_at post 0) es']> V) (pre ++ (L, es') :: post).
Proof.
  intros Hc HV. pose proof (chained_nodup _ _ Hc) as Hn. apply chained_linked in Hc. apply chained_linked.
  rewrite fmap_app in Hn. cbn in Hn. apply NoDup_app in Hn as (Hn1 & Hdis & Hn2). apply NoDup_cons in Hn2 as [HL Hn2].
  apply linked_app in Hc as [Hpre Hc]. cbn in Hpre, Hc. destruct Hc as (HL0 & HVL & Hpost).
  rewrite HV in HVL. injection HVL as -> HVr. apply linked_app. split; cbn.
  - eapply linked_ext; [exact Hpre|]. intros x Hx. rewrite lookup_insert_ne; [done|]. intros <-. apply (Hdis L Hx). left.
  - split_and!; [done|rewrite lookup_insert_eq; by rewrite HVr|]. eapply linked_ext; [exact Hpost|].
    intros x Hx. rewrite lookup_insert_ne; [done|]. by intros <-.
Qed.

(** ** What a split costs

    Two for every entry of a leaf after the first, one for every separator of
    an inner node after the first, and one for every pending split: a split
    that is published costs at least one. *)

Definition weight (v : node_view) : nat :=
  match v with
  | LeafView _ _ es => 2 * (length es - 1)
  | InnerView ks _ => length ks - 1
  | BlankView => 0
  end.
Definition weigh (V : gmap Z node_view) : nat := map_fold (λ _ v n, (weight v + n)%nat) 0%nat V.
Definition cost (V : gmap Z node_view) (D : gmap Z (list byte * Z)) : nat := (weigh V + size D)%nat.

Lemma weigh_fresh V i v : V !! i = None → weigh (<[i := v]> V) = (weight v + weigh V)%nat.
Proof. intros Hi. unfold weigh. rewrite map_fold_insert_L; [done| |done]. intros. lia. Qed.

Lemma weigh_insert V i v : (weigh (<[i := v]> V) + default 0 (weight <$> V !! i) = weigh V + weight v)%nat.
Proof.
  destruct (V !! i) as [w|] eqn:Hi; cbn; [|rewrite weigh_fresh by done; lia].
  rewrite <-(insert_delete_id V i w Hi) at 2. rewrite <-(insert_delete_eq V i v).
  rewrite !weigh_fresh by apply lookup_delete_eq. lia.
Qed.

Lemma weigh_same V i v w : V !! i = Some w → weight v = weight w → weigh (<[i := v]> V) = weigh V.
Proof. intros Hi Hw. pose proof (weigh_insert V i v) as E. rewrite Hi in E. cbn in E. lia. Qed.

Lemma weigh_relinked V left ls l r : linked V l ls r → weigh (relinked V left ls) = weigh V.
Proof.
  destruct ls as [|[pid es] ls]; [done|]. cbn. intros (_ & HV & _). by eapply weigh_same.
Qed.

(** ** Entries small enough

    Three of them fit in a page, and three of their keys in an inner node. *)

Section small.
Context `{Build}.

Definition key_small (k : list byte) : Prop := 32 + 3 * (20 + zlen k) ≤ PAGE_SIZE.
Definition entry_small (e : entry) : Prop := key_small e.1 ∧ 40 + 3 * (12 + zlen e.1 + zlen e.2) ≤ PAGE_SIZE.
#[global] Instance key_small_dec k : Decision (key_small k).
Proof. unfold key_small. apply _. Defined.
#[global] Instance entry_small_dec e : Decision (entry_small e).
Proof. unfold entry_small. apply _. Defined.

Definition view_small (v : node_view) : Prop :=
  match v with
  | LeafView _ _ es => Forall entry_small es
  | InnerView ks _ => Forall key_small ks
  | BlankView => True
  end.
Definition all_small (V : gmap Z node_view) : Prop := ∀ pid v, V !! pid = Some v → view_small v.

Lemma all_small_insert V pid v : all_small V → view_small v → all_small (<[pid := v]> V).
Proof. intros Hs Hv q w. destruct (decide (q = pid)) as [->|Hq]; [rewrite lookup_insert_eq; by intros [= <-]|rewrite lookup_insert_ne by done; apply Hs]. Qed.

Lemma small_two es (b : Z) :
  Forall entry_small es → (length es ≤ 2)%nat → 12 * zlen es + heap_total es + b ≤ PAGE_SIZE - 40 ∨ PAGE_SIZE < 40 + 3 * b.
Proof.
  intros Hs Hl. destruct es as [|a [|c [|d es]]]; [| | |cbn in Hl; lia].
  - cbn. unfold zlen. cbn. page_lia.
  - apply Forall_inv in Hs as [_ Ha]. unfold heap_total, esize, zlen in *. cbn in *. page_lia.
  - apply Forall_cons in Hs as [[_ Ha] Hs]. apply Forall_inv in Hs as [_ Hc]. unfold heap_total, esize, zlen in *. cbn in *. page_lia.
Qed.

Lemma full_leaf es k v : Forall entry_small es → entry_small (k, v) → ¬ fits 16 es k v → (3 ≤ length es)%nat.
Proof.
  intros Hs [_ He] Hf. destruct (decide (3 ≤ length es)%nat) as [|Hl]; [done|]. exfalso. apply Hf. unfold fits. cbn in He.
  destruct (small_two es (12 + zlen k + zlen v) Hs); [lia|page_lia|page_lia].
Qed.

Lemma full_inner cs k : Forall key_small (seps cs) → key_small k → ¬ sep_fits cs k → (3 ≤ length cs)%nat.
Proof.
  intros Hs Hk Hf. destruct (decide (3 ≤ length cs)%nat) as [|Hl]; [done|]. exfalso. apply Hf. unfold sep_fits, fits, key_small in *.
  change (zlen (le_bytes 8 0)) with 8.
  destruct cs as [|a [|c [|d cs]]]; [| | |cbn in Hl; lia].
  - unfold heap_total, esize, zlen in *. cbn. page_lia.
  - apply Forall_inv in Hs. unfold heap_total, esize, inner_entries, child_entry, zlen in *. cbn in *. page_lia.
  - apply Forall_cons in Hs as [Ha Hs]. apply Forall_inv in Hs as Hc. unfold heap_total, esize, inner_entries, child_entry, zlen in *. cbn in *. page_lia.
Qed.
End small.

(** ** A pool that holds a tree in growth *)

Record world `{PoolLaws} (σ : pool) (V : gmap Z node_view) (D : gmap Z (list byte * Z))
    (Ts : list (list (Z * list (Z * list entry)))) (root : Z) (ls : list (Z * list entry)) : Prop := {
  w_holds : holds σ V;
  w_root : root_pid σ = root;
  w_tower : tower V D Ts root ls;
  w_chain : chained V ls;
  w_sorted : keys_sorted (entries_of ls);
  w_filled : filled ls;
  w_small : all_small V;
}.

Lemma tower_ext V V' D Ts root ls :
  tower V D Ts root ls → (∀ x, x ∈ (concat Ts).*1 → V' !! x = V !! x) → tower V' D Ts root ls.
Proof.
  intros [Hb Hs Ht Hr Hn] Hx. constructor; [done| |done|done|done]. intros k T T' HT HT'.
  destruct (Hs k T T' HT HT') as (H & Hh & HL). exists H. split; [done|]. eapply level_ext; [done|].
  intros x (t & -> & Hin)%list_elem_of_fmap. apply Hx, list_elem_of_fmap_2. eapply concat_elem; [by eapply list_elem_of_lookup_2|done].
Qed.

(** A node of the tower is a leaf or an inner node. *)
Lemma tower_node V D Ts root ls h x :
  tower V D Ts root ls → chained V ls → placed Ts h x →
  match h with
  | O => ∃ l r es, V !! x = Some (LeafView l r es) ∧ (x, es) ∈ ls
  | S _ => ∃ ks cps, V !! x = Some (InnerView ks cps) ∧ length cps = S (length ks)
  end.
Proof.
  intros W Hc (T & HT & Hx). destruct h as [|h].
  - pose proof (tw_base _ _ _ _ _ W) as Hb. rewrite HT in Hb. injection Hb as ->. rewrite base_pids in Hx.
    apply list_elem_of_fmap in Hx as ([y es] & -> & Hf). destruct (chained_view _ _ _ Hc Hf) as (l & r & HV). by exists l, r, es.
  - destruct (Ts !! h) as [B|] eqn:HB; [|apply lookup_ge_None in HB; apply lookup_lt_Some in HT; lia].
    destruct (tw_step _ _ _ _ _ W h B T HB HT) as (H & _ & HL). apply in_level in Hx as (A & l & C & ->).
    destruct (level_node V H A x l C HL) as (_ & seg & _ & ks & _ & _ & _ & HV & Hl & _). exists ks, seg.*1.
    split; [done|by rewrite length_fmap].
Qed.

Lemma in_tower Ts x : x ∈ (concat Ts).*1 ↔ ∃ h, placed Ts h x.
Proof.
  rewrite concat_pids. split.
  - intros (T & HT & Hx)%list_elem_of_In%in_concat. apply list_elem_of_In, list_elem_of_fmap in HT as (B & -> & HB).
    apply list_elem_of_lookup in HB as [h HB]. exists h, B. split; [done|by apply list_elem_of_In].
  - intros (h & T & HT & Hx). apply list_elem_of_In, in_concat. exists (pids T). split; [|by apply list_elem_of_In].
    apply list_elem_of_In, list_elem_of_fmap. exists T. split; [done|by eapply list_elem_of_lookup_2].
Qed.

Lemma tower_shown V D Ts root ls x :
  tower V D Ts root ls → chained V ls → x ∈ (concat Ts).*1 → ∃ v, V !! x = Some v ∧ v ≠ BlankView.
Proof.
  intros W Hc (h & Hp)%in_tower. pose proof (tower_node _ _ _ _ _ _ _ W Hc Hp) as E. destruct h.
  - destruct E as (l & r & es & -> & _). by eexists.
  - destruct E as (ks & cps & -> & _). by eexists.
Qed.

Section world.
Context `{Build} `{PoolOps} `{!PoolLaws} `{!WriteOps} `{!WriteLaws} (self : BTree.t).
Implicit Types σ : pool.

Lemma world_keeps σ σ' V D Ts root ls : keeps V σ σ' → world σ V D Ts root ls → world σ' V D Ts root ls.
Proof. intros K []. constructor; try done; [by eapply keeps_holds|]. destruct K as (_ & -> & _). done. Qed.

(** A page that is not a node comes or goes. *)
Lemma world_ext σ σ' V V' D Ts root ls :
  world σ V D Ts root ls → holds σ' V' → root_pid σ' = root_pid σ → all_small V' →
  (∀ x, x ∈ (concat Ts).*1 → V' !! x = V !! x) → world σ' V' D Ts root ls.
Proof.
  intros [Hh Hr W Hc Hs Hf Hm] Hh' Hr' Hm' Hx. constructor; try done; [congruence|by eapply tower_ext|].
  apply chained_linked. apply chained_linked in Hc. eapply linked_ext; [done|]. intros x Hin. apply Hx.
  apply in_tower. exists 0%nat, (base ls). split; [apply W|by rewrite base_pids].
Qed.

Lemma world_blank σ σ' V D Ts root ls R :
  world σ V D Ts root ls → V !! R = None → holds σ' (<[R := BlankView]> V) → root_pid σ' = root_pid σ →
  world σ' (<[R := BlankView]> V) D Ts root ls.
Proof.
  intros Hw HR Hh Hr. eapply world_ext; [done|done|done|by apply all_small_insert; [apply Hw|]|].
  intros x Hx. destruct (tower_shown _ _ _ _ _ _ (w_tower _ _ _ _ _ _ Hw) (w_chain _ _ _ _ _ _ Hw) Hx) as (v & HV & _).
  rewrite lookup_insert_ne; [done|]. intros ->. by rewrite HR in HV.
Qed.

Lemma blank_outside σ V D Ts root ls R : world σ V D Ts root ls → V !! R = Some BlankView → R ∉ (concat Ts).*1.
Proof.
  intros Hw HR Hx. destruct (tower_shown _ _ _ _ _ _ (w_tower _ _ _ _ _ _ Hw) (w_chain _ _ _ _ _ _ Hw) Hx) as (v & HV & Hv).
  rewrite HR in HV. by injection HV as <-.
Qed.

Lemma weigh_blank V R : V !! R = None → weigh (<[R := BlankView]> V) = weigh V.
Proof. intros HR. by rewrite weigh_fresh. Qed.

(** ** Steps of a split *)

Lemma does_finish_node V σ pid nd v (Q : unit → pool → Prop) :
  holds σ V → is_Some (V !! pid) → shown σ (ExclusiveNode.page nd) v →
  (∀ σ', holds σ' (<[pid := v]> V) → goes 0 σ σ' → Q tt σ') → does (finish_node pid nd) σ Q.
Proof.
  intros Hh HV Hs HQ. apply does_then. eapply (does_put_page V); [done|done|done|]. intros σ1 Hh1 G1 _ _.
  eapply (does_put_dirty (<[pid := v]> V)). intros σ2 K2. apply HQ; [by eapply keeps_holds|].
  eapply (goes_trans 0 0); [done|by eapply keeps_goes].
Qed.

Lemma guard_leaf logs p l r es : leaf_page p l r es → leaf_node (ExclusiveNode.new logs p) l r es.
Proof. intros P. constructor; [done|apply PageMutation.new_ok]. Qed.
Lemma guard_inner logs p cs u : inner_page p cs u → inner_node (ExclusiveNode.new logs p) cs u.
Proof. intros P. constructor; [done|apply PageMutation.new_ok]. Qed.

Lemma head_pid_at (ls : list (Z * list entry)) : default 0 (fst <$> head ls) = pid_at ls 0.
Proof. by destruct ls. Qed.

Lemma does_relink V σ l post left (Q : unit → pool → Prop) :
  holds σ V → linked V l post 0 → word_ok left →
  (∀ σ', holds σ' (relinked V left post) → goes 0 σ σ' → Q tt σ') →
  does (if negb (pid_at post 0 =? 0) then update_leaf_left_sibling (pid_at post 0) left else R_ret tt) σ Q.
Proof.
  intros Hh Hl Hw HQ. destruct post as [|[pid es] post]; [apply does_ret, HQ; [done|apply goes_refl]|].
  cbn [linked relinked] in *. change (pid_at ((pid, es) :: post) 0) with pid. destruct Hl as (Hp & HV & _). rewrite head_pid_at in HV.
  rewrite (proj2 (Z.eqb_neq pid 0) Hp). cbn [negb]. unfold update_leaf_left_sibling. rewrite (proj2 (Z.eqb_neq pid 0) Hp).
  apply does_then. eapply (does_fix_orphan V); [done|by eexists|]. intros σ1 K1 _.
  assert (Hh1 : holds σ1 V) by (by eapply keeps_holds). destruct (holds_leaf V σ1 pid _ _ es Hh1 HV) as [P Hs].
  apply does_latched, does_get.
  destruct (leaf_set_left _ _ _ _ left (guard_leaf (logs_ranges σ1) _ _ _ _ P) Hw) as (nd & En & Ln & _).
  eapply does_lift_bind; [exact En|]. eapply (does_finish_node V _ _ _ (LeafView left (pid_at post 0) es)); [done|by eexists|by split; [apply Ln|]|].
  intros σ2 Hh2 G2. apply HQ; [done|]. eapply (goes_trans 0 0); [by eapply keeps_goes|done].
Qed.
End world.

(** ** Links of the children of a node *)

Section refresh.
Context `{Build} `{PoolOps} `{!PoolLaws} `{!WriteOps} `{!WriteLaws} (self : BTree.t).
Context (V : gmap Z node_view) (node : Z) (ks : list (list byte)) (cps : list Z) (HV : V !! node = Some (InnerView ks cps)).
Implicit Types σ : pool.

Lemma refresh_link_spec w pos up σ : steps V nowhere (refresh_link self node w pos up) σ (λ _ _, True).
Proof.
  eapply (steps_bind _ _ _ _ _ (λ _ _, True)).
  { unfold try_pin_resident_child. destruct (negb _); [by apply steps_ret|]. eapply steps_mono; [apply steps_try_pin_child|done]. }
  intros [child|] σ1 K1 _; [|by apply steps_ret]. eapply (steps_bind _ _ _ _ _ (λ _ _, True)).
  { apply steps_call. pose proof (try_exclusive_ok V σ1 child) as E. by destruct (try_exclusive σ1 child). }
  intros [] σ2 K2 _; [|by apply steps_ret]. by apply steps_update; [apply set_parent_link_ok|].
Qed.

Lemma refresh_loop_spec ids : ∀ σ,
  holds σ V → Forall (λ i, 0 ≤ i < Z.of_nat (length ks)) ids → steps V nowhere (refresh_loop self node ids) σ (λ _ _, True).
Proof.
  induction ids as [|pos ids IH]; intros σ Hh Hi; cbn [refresh_loop]; [by apply steps_ret|]. apply Forall_cons in Hi as [Hp Hi].
  apply steps_latched_bind. destruct (holds_inner V σ node ks cps Hh HV) as (cs & u & P & Es & _).
  assert (∃ c, cs !! Z.to_nat pos = Some c) as [[k w] Hc].
  { apply lookup_lt_is_Some. rewrite <-Es in Hp. unfold seps in Hp. rewrite length_fmap in Hp. lia. }
  pose proof (child_swip_at_spec _ _ _ _ _ _ P Hc) as Ew. rewrite Z2Nat.id in Ew by lia.
  eapply steps_lift_bind; [exact Ew|]. eapply steps_bind; [apply refresh_link_spec|]. intros _ σ1 K1 _.
  apply IH; [by eapply keeps_holds|done].
Qed.

Lemma refresh_spec σ : holds σ V → steps V nowhere (refresh_inner_child_parent_links_for_frame self node) σ (λ _ _, True).
Proof.
  intros Hh. apply steps_latched_bind. destruct (holds_inner V σ node ks cps Hh HV) as (cs & u & P & Es & _).
  destruct (inner_count _ _ _ P) as [En _]. rewrite En.
  eapply steps_bind.
  { apply refresh_loop_spec; [done|]. apply Forall_forall. intros i Hi%elem_of_seqZ. rewrite <-Es. unfold seps. rewrite length_fmap.
    unfold zlen in Hi. lia. }
  intros _ σ1 K1 _. apply steps_latched_bind. apply refresh_link_spec.
Qed.
End refresh.

(** ** Leaves below the root *)

Section splits.
Context `{Build} `{PoolOps} `{!PoolLaws} `{!WriteOps} `{!WriteLaws} (self : BTree.t).
Implicit Types σ : pool.

Lemma does_mark_all V σ pid (Q : unit → pool → Prop) :
  (∀ σ', keeps V σ σ' → Q tt σ') → does (mark_all_dirty pid) σ Q.
Proof.
  intros HQ. unfold mark_all_dirty.
  destruct (PageMutation.add_range_added PageMutation.new 8 PAGE_SIZE PageMutation.new_ok) as (m & Em & _).
  { unfold PageMutation.range_ok, PAGE_LSN_RANGE_end. cbn. page_lia. }
  eapply does_lift_bind; [exact Em|]. by eapply does_put_dirty.
Qed.

(** The leaves are apart from the inner nodes. *)
Lemma leaf_apart V D Ts root ls x y :
  tower V D Ts root ls → x ∈ ls.*1 → y ∈ (concat (tail Ts)).*1 → x ≠ y.
Proof.
  intros W Hx Hy ->. pose proof (tw_nodup _ _ _ _ _ W) as Hn. pose proof (tw_base _ _ _ _ _ W) as Hb.
  destruct Ts as [|B Ts]; [done|]. injection Hb as ->. cbn in Hn, Hy. rewrite fmap_app, base_pids in Hn.
  apply NoDup_app in Hn as (_ & Hd & _). by apply (Hd y Hx).
Qed.

Lemma tail_in_tower (Ts : list (list (Z * list (Z * list entry)))) x : x ∈ (concat (tail Ts)).*1 → x ∈ (concat Ts).*1.
Proof. destruct Ts; [done|]. cbn. rewrite fmap_app, elem_of_app. auto. Qed.

Lemma leaf_halved_other V L R l es1 es2 post x :
  x ≠ L → x ≠ R → x ∉ post.*1 → leaf_halved V L R l es1 es2 post !! x = V !! x.
Proof. intros. unfold leaf_halved. rewrite relinked_other by done. by rewrite !lookup_insert_ne. Qed.

Lemma leaf_halved_small V L R l r es (i : nat) post :
  all_small V → V !! L = Some (LeafView l r es) → linked V L post 0 →
  all_small (leaf_halved V L R l (take i es) (drop i es) post).
Proof.
  intros Hs HL Hp. pose proof (Hs _ _ HL) as He. cbn in He. unfold leaf_halved.
  assert (Hb : all_small (<[L := LeafView l R (take i es)]> (<[R := LeafView L (pid_at post 0) (drop i es)]> V))).
  { repeat apply all_small_insert; cbn; [done|by apply Forall_drop|by apply Forall_take]. }
  destruct post as [|[q qs] post]; [done|]. cbn [relinked]. apply all_small_insert; [done|].
  cbn in Hp. destruct Hp as (_ & HV & _). apply (Hs _ _ HV).
Qed.

Lemma leaf_halved_cost V L R l r es (i : nat) post sep :
  V !! L = Some (LeafView l r es) → V !! R = Some BlankView → linked V L post 0 → L ∉ post.*1 → R ∉ post.*1 →
  (0 < i < length es)%nat →
  (cost (leaf_halved V L R l (take i es) (drop i es) post) {[L := (sep, R)]} < cost V ∅)%nat.
Proof.
  intros HL HR Hp HLp HRp Hi. unfold cost, leaf_halved. rewrite map_size_singleton, map_size_empty.
  erewrite (weigh_relinked _ _ post L 0).
  2: { eapply linked_ext; [exact Hp|]. intros x Hx. rewrite !lookup_insert_ne; [done|..]; by intros ->. }
  assert (HLR : L ≠ R) by (intros ->; congruence).
  pose proof (weigh_insert (<[R := LeafView L (pid_at post 0) (drop i es)]> V) L (LeafView l R (take i es))) as E1.
  pose proof (weigh_insert V R (LeafView L (pid_at post 0) (drop i es))) as E2.
  rewrite lookup_insert_ne, HL in E1 by done. rewrite HR in E2. cbn in E1, E2. rewrite length_take, length_drop in *. lia.
Qed.

Lemma world_split_leaf σ σ' V Ts root ls pre L l es post R (i : nat) e :
  world σ V ∅ Ts root ls → ls = pre ++ (L, es) :: post → V !! L = Some (LeafView l (pid_at post 0) es) →
  V !! R = Some BlankView → R ≠ 0 → (2 ≤ length Ts)%nat → es !! i = Some e → (S i < length es)%nat →
  holds σ' (leaf_halved V L R l (take (S i) es) (drop (S i) es) post) → root_pid σ' = root →
  ∃ Ts', length Ts' = length Ts ∧ pids <$> tail Ts' = pids <$> tail Ts ∧
    world σ' (leaf_halved V L R l (take (S i) es) (drop (S i) es) post) {[L := (e.1, R)]} Ts' root
      (pre ++ (L, take (S i) es) :: (R, drop (S i) es) :: post).
Proof.
  intros Hw Els HL HR HR0 Hlen He Hi Hh' Hr'. pose proof (blank_outside _ _ _ _ _ _ _ Hw HR) as HRo.
  destruct Hw as [Hh Hr W Hc Hs Hf Hm]. pose proof (chained_nodup _ _ Hc) as Hn.
  assert (HRls : R ∉ ls.*1).
  { intros Hx. apply HRo, in_tower. exists 0%nat, (base ls). split; [apply W|by rewrite base_pids]. }
  assert (Hes : keys_sorted es).
  { rewrite Els, entries_of_app, entries_of_cons in Hs. apply keys_sorted_app_inv in Hs as (_ & Hs & _).
    by apply keys_sorted_app_inv in Hs as (Hs & _). }
  destruct (tower_split_leaf V (leaf_halved V L R l (take (S i) es) (drop (S i) es) post) Ts root ls pre L
    (take (S i) es) (drop (S i) es) post e.1 R W Hn) as (Ts' & Hl' & Hp' & W'); [by rewrite take_drop|done|done| | |].
  { intros x Hx. by apply (separates_at es i e Hes He). }
  { intros x Hx. assert (Hap : ∀ y, y ∈ ls.*1 → y ≠ x) by (intros y Hy; by eapply leaf_apart).
    apply leaf_halved_other.
    - symmetry. apply Hap. rewrite Els, fmap_app. apply elem_of_app. right. left.
    - intros ->. by apply HRo, tail_in_tower.
    - intros Hp. apply (Hap x); [|done]. rewrite Els, fmap_app. apply elem_of_app. right. by right. }
  exists Ts'. split_and!; [done|done|]. constructor; [done|done|done| | | |].
  - rewrite Els in Hc, HRls. by eapply chain_split.
  - rewrite Els, entries_of_app, entries_of_cons in Hs. rewrite entries_of_app, !entries_of_cons.
    by rewrite (app_assoc (take _ _)), take_drop.
  - left. intros f [Hin|[->|[->|Hin]%elem_of_cons]%elem_of_cons]%elem_of_app; cbn.
    + destruct Hf as [Hf|Ho]; [apply Hf; rewrite Els; apply elem_of_app; by left|]. rewrite Els, length_app in Ho. cbn in Ho.
      destruct pre; [by apply not_elem_of_nil in Hin|]. cbn in Ho. lia.
    + destruct es; [done|]. done.
    + intros Ed. apply (f_equal length) in Ed. rewrite length_drop in Ed. cbn in Ed. lia.
    + destruct Hf as [Hf|Ho]; [apply Hf; rewrite Els; apply elem_of_app; right; by right|]. rewrite Els, length_app in Ho. cbn in Ho.
      destruct post; [by apply not_elem_of_nil in Hin|]. cbn in Ho. lia.
  - eapply leaf_halved_small; [done|done|]. apply chained_linked in Hc. rewrite Els in Hc. by apply linked_app in Hc as [_ (_ & _ & Hp)].
Qed.

Lemma payload_word q : payload_ok q → word_ok q.
Proof. unfold payload_ok, word_ok. lia. Qed.

Lemma leaf_at V ls pre L es post :
  chained V ls → ls = pre ++ (L, es) :: post →
  ∃ l, V !! L = Some (LeafView l (pid_at post 0) es) ∧ linked V L post 0 ∧ L ∉ post.*1.
Proof.
  intros Hc ->. pose proof (chained_nodup _ _ Hc) as Hn. rewrite fmap_app in Hn. cbn in Hn.
  apply NoDup_app in Hn as (_ & _ & [HL _]%NoDup_cons). apply chained_linked, linked_app in Hc as [_ (_ & HV & Hl)].
  rewrite head_pid_at in HV. by eexists.
Qed.

(** The steps after both pages of a divided leaf are written. *)
Lemma split_leaf_tail {A} V σ L R post (k : BTreePool.R A) (Q : A → pool → Prop) :
  holds σ V → linked V L post 0 → word_ok R →
  (∀ σ', holds σ' (relinked V R post) → goes 0 σ σ' → does k σ' Q) →
  does (put_dirty R ExclusiveNode.MarkDirty ;!
        mark_all_dirty L ;!
        update (λ σ, add_reachable_pages σ 1) ;!
        update (λ σ, finish_publication σ R) ;!
        (if negb (pid_at post 0 =? 0) then update_leaf_left_sibling (pid_at post 0) R else R_ret tt) ;! k)%R σ Q.
Proof.
  intros Hh Hl HR HQ. apply does_then, (does_put_dirty V). intros σ1 K1. apply does_then, (does_mark_all V). intros σ2 K2.
  apply does_then, (does_reachable V). intros σ3 K3. apply does_then, (does_finish V). intros σ4 K4.
  assert (K : keeps V σ σ4) by (etrans; [exact K1|etrans; [exact K2|by etrans]]).
  apply does_then. eapply (does_relink V); [by eapply keeps_holds|done|done|]. intros σ5 Hh5 G5. apply HQ; [done|].
  eapply (goes_trans 0 0); [by eapply keeps_goes|done].
Qed.

Lemma split_leaf_below publish σ V Ts root ls pre L es post R path (i : nat) e (Q : list Z → pool → Prop) :
  world σ V ∅ Ts root ls → ls = pre ++ (L, es) :: post → V !! R = Some BlankView → (2 ≤ length Ts)%nat →
  es !! i = Some e → (S i < length es)%nat →
  (∀ σ' V' Ts' ls', world σ' V' {[L := (e.1, R)]} Ts' root ls' →
    ls' = pre ++ (L, take (S i) es) :: (R, drop (S i) es) :: post → length Ts' = length Ts →
    pids <$> tail Ts' = pids <$> tail Ts → (cost V' {[L := (e.1, R)]} < cost V ∅)%nat → goes 0 σ σ' →
    does (publish e.1 L {| SplitChild.pid := R; SplitChild.published := true |} path) σ' Q) →
  does (split_node_below self publish L path (Z.of_nat i) e.1 None (Some R) None) σ Q.
Proof.
  intros Hw Els HR Hlen He Hi HQ. pose proof Hw as [Hh Hr W Hc Hs Hf Hm].
  destruct (leaf_at _ _ _ _ _ _ Hc Els) as (l & HL & Hlk & HLp).
  destruct (holds_leaf V σ L _ _ es Hh HL) as [P Hes].
  destruct (held_ok V σ L Hh) as (_ & HLw%payload_word & _); [by eexists|].
  destruct (held_ok V σ R Hh) as (HR0 & HRw%payload_word & _); [by eexists|].
  assert (HRp : R ∉ post.*1).
  { intros Hx. apply (blank_outside _ _ _ _ _ _ _ Hw HR), in_tower. exists 0%nat, (base ls). split; [apply W|].
    rewrite base_pids, Els, fmap_app. apply elem_of_app. right. by right. }
  destruct (split_leaf_halves (page_bytes σ L) (page_bytes σ R) l (pid_at post 0) es P L R HLw HRw i e.1 None) as (pl & pr & Pl & Pr & Es); [lia|].
  cbn [install_pending] in Es. rewrite bind_Ret in Es.
  destruct (keys_sorted_app_inv (take (S i) es) (drop (S i) es)) as (Hs1 & Hs2 & _); [by rewrite take_drop|].
  unfold split_node_below, page_or_allocate. apply does_then, does_ret, does_latched, does_latched.
  rewrite (leaf_flag _ _ _ _ P). apply does_then. eapply does_lift_bind; [exact Es|]. cbn [fst snd].
  apply does_then. eapply (does_put_page V _ _ _ (LeafView L (pid_at post 0) (drop (S i) es))); [done|by eexists|done|].
  intros σ1 Hh1 G1 _ _. apply does_then.
  eapply (does_put_page _ _ _ _ (LeafView l R (take (S i) es))); [done|rewrite lookup_insert_ne; [by eexists|congruence]|done|].
  intros σ2 Hh2 G2 _ _. apply does_ret.
  set (V1 := <[L := _]> (<[R := _]> V)) in Hh2. apply (split_leaf_tail V1 σ2 L R post); [done| |done|].
  { eapply linked_ext; [exact Hlk|]. intros x Hx. unfold V1. rewrite !lookup_insert_ne; [done|..]; by intros ->. }
  intros σ' Hh' G'. assert (G : goes 0 σ σ') by (eapply (goes_trans 0 0); [eapply (goes_trans 0 0); [exact G1|exact G2]|exact G']).
  apply does_then. cbn [drop_page]. apply does_ret.
  destruct (world_split_leaf σ σ' V Ts root ls pre L l es post R i e Hw Els HL HR HR0 Hlen He Hi Hh') as (Ts' & Hl' & Hp' & Hw').
  { destruct G as (-> & _). done. }
  eapply HQ; [exact Hw'|done|done|done| |done]. eapply leaf_halved_cost; [done|done|done|done|done|lia].
Qed.

(** ** Inner nodes below the root *)

Lemma Forall2_halves {A B} (P : A → B → Prop) l1 l2 ks :
  Forall2 P (l1 ++ l2) ks → Forall2 P l1 (take (length l1) ks) ∧ Forall2 P l2 (drop (length l1) ks).
Proof.
  intros (k1 & k2 & H1' & H2' & ->)%Forall2_app_inv_l. pose proof (Forall2_length _ _ _ H1') as E. rewrite E.
  by rewrite take_app_length, drop_app_length.
Qed.

(** Both halves of an inner node. *)
Lemma halves_shown σ cs u ks cps (i : nat) k w pl pr :
  seps cs = ks → Forall2 (λ w c, word_target σ w = Some c) (children cs u) cps → cs !! i = Some (k, w) →
  inner_page pl (take i cs) w → inner_page pr (drop (S i) cs) u →
  ks !! i = Some k ∧ shown σ pl (InnerView (take i ks) (take (S i) cps)) ∧ shown σ pr (InnerView (drop (S i) ks) (drop (S i) cps)).
Proof.
  intros Es Hf Hi Pl Pr. destruct (split_children cs u i k w Hi) as [Ec _]. rewrite <-Ec in Hf.
  assert (Hl : length (children (take i cs) w) = S i).
  { rewrite length_children, length_take. apply lookup_lt_Some in Hi. lia. }
  apply Forall2_halves in Hf as [Hf1 Hf2]. rewrite Hl in Hf1, Hf2. split_and!.
  - rewrite <-Es. unfold seps. by rewrite list_lookup_fmap, Hi.
  - exists (take i cs), w. split_and!; [done| |done]. rewrite <-Es. unfold seps. by rewrite fmap_take.
  - exists (drop (S i) cs), u. split_and!; [done| |done]. rewrite <-Es. unfold seps. by rewrite fmap_drop.
Qed.

Lemma halved_small V P Q ks cps i :
  all_small V → V !! P = Some (InnerView ks cps) → all_small (halved V P Q ks cps i).
Proof.
  intros Hs HP. pose proof (Hs _ _ HP) as Hk. cbn in Hk.
  repeat apply all_small_insert; cbn; [done|by apply Forall_drop|by apply Forall_take].
Qed.

Lemma halved_weigh V P Q ks cps (i : nat) :
  V !! P = Some (InnerView ks cps) → V !! Q = Some BlankView → (0 < i)%nat → (S i < length ks)%nat →
  (weigh (halved V P Q ks cps i) + 2 = weigh V)%nat.
Proof.
  intros HP HQ H0' Hi. assert (P ≠ Q) by (intros ->; congruence). unfold halved.
  pose proof (weigh_insert (<[Q := InnerView (drop (S i) ks) (drop (S i) cps)]> V) P (InnerView (take i ks) (take (S i) cps))) as E1.
  pose proof (weigh_insert V Q (InnerView (drop (S i) ks) (drop (S i) cps))) as E2.
  rewrite lookup_insert_ne, HP in E1 by done. rewrite HQ in E2. cbn in E1, E2. rewrite length_take, length_drop in *. lia.
Qed.

Lemma cost_pending V D P x : D !! P = None → cost V (<[P := x]> D) = S (cost V D).
Proof. intros HP. unfold cost. rewrite map_size_insert_None by done. lia. Qed.

(** The leaves do not see a change of other pages. *)
Lemma world_inner σ σ' V V' D D' Ts Ts' root ls :
  world σ V D Ts root ls → holds σ' V' → root_pid σ' = root → tower V' D' Ts' root ls → all_small V' →
  (∀ x, x ∈ ls.*1 → V' !! x = V !! x) → world σ' V' D' Ts' root ls.
Proof.
  intros [] Hh' Hr' W' Hm' Hx. constructor; try done. apply chained_linked. eapply linked_ext; [by apply chained_linked|done].
Qed.

Lemma leaf_placed V D Ts root ls x : tower V D Ts root ls → x ∈ ls.*1 → placed Ts 0 x.
Proof. intros W Hx. exists (base ls). split; [apply W|by rewrite base_pids]. Qed.

Lemma placed_unique V D Ts root ls j k x : tower V D Ts root ls → placed Ts j x → placed Ts k x → j = k.
Proof. intros W (T & HT & Hx) (T' & HT' & Hx'). by eapply tower_level_unique. Qed.

Lemma split_inner_below publish σ V D Ts root ls (k : nat) A P l B Q ks cps path (i : nat) sep (Post : list Z → pool → Prop) :
  world σ V D Ts root ls → Ts !! S k = Some (A ++ (P, l) :: B) → (S (S k) < length Ts)%nat →
  V !! P = Some (InnerView ks cps) → V !! Q = Some BlankView → D !! Q = None →
  (∀ x, x ∈ (A ++ (P, l) :: B).*1 → D !! x = None) → P ≠ root →
  ks !! i = Some sep → (0 < i)%nat → (S i < length ks)%nat →
  (∀ σ' l1 l2, l = l1 ++ l2 →
    world σ' (halved V P Q ks cps i) (<[P := (sep, Q)]> D) (<[S k := A ++ (P, l1) :: (Q, l2) :: B]> Ts) root ls →
    goes 0 σ σ' → does (publish sep P {| SplitChild.pid := Q; SplitChild.published := false |} path) σ' Post) →
  does (split_node_below self publish P path (Z.of_nat i) sep None (Some Q) None) σ Post.
Proof.
  intros Hw HT Hlen HP HQ HDQ HD Hroot Hi H0i Hil HK. pose proof Hw as [Hh Hr W Hc Hs Hf Hm].
  assert (HPQ : P ≠ Q) by (intros ->; congruence).
  destruct (holds_inner V σ P ks cps Hh HP) as (cs & u & Pg & Es & Hfc).
  assert (∃ w, cs !! i = Some (sep, w)) as [w Hci].
  { rewrite <-Es in Hi. unfold seps in Hi. rewrite list_lookup_fmap in Hi. destruct (cs !! i) as [[k' w]|]; [|done].
    injection Hi as ->. by exists w. }
  destruct (split_inner_spec (page_bytes σ P) (page_bytes σ Q) cs u i sep w Pg Hci) as (pl & pr & Ep & Pl & Pr).
  destruct (halves_shown σ cs u ks cps i sep w pl pr Es Hfc Hci Pl Pr) as (_ & Sl & Sr).
  unfold split_node_below, page_or_allocate. apply does_then, does_ret, does_latched, does_latched.
  rewrite (inner_flag _ _ _ Pg). apply does_then. eapply does_lift_bind; [exact Ep|]. cbn [fst snd].
  apply does_then. eapply (does_put_page V); [done|by eexists|exact Sr|]. intros σ1 Hh1 G1 Hw1 _.
  apply does_then. eapply (does_put_page _ _ _ _ (InnerView (take i ks) (take (S i) cps)));
    [exact Hh1|rewrite lookup_insert_ne by done; by eexists|by eapply shown_target|].
  intros σ2 Hh2 G2 _ _. change (holds σ2 (halved V P Q ks cps i)) in Hh2. set (V' := halved V P Q ks cps i) in *.
  assert (HP' : V' !! P = Some (InnerView (take i ks) (take (S i) cps))) by (unfold V', halved; by rewrite lookup_insert_eq).
  assert (HQ' : V' !! Q = Some (InnerView (drop (S i) ks) (drop (S i) cps)))
    by (unfold V', halved; by rewrite lookup_insert_ne, lookup_insert_eq).
  apply does_then. eapply (does_steps V'); [by eapply refresh_spec|]. intros _ σ3 K3 _.
  apply does_then. eapply (does_steps V'); [eapply refresh_spec; [exact HQ'|by eapply keeps_holds]|]. intros _ σ4 K4 _.
  apply does_ret, does_then, (does_put_dirty V'). intros σ5 K5. apply does_then, (does_mark_all V'). intros σ6 K6.
  apply does_then, (does_reachable V'). intros σ7 K7. apply does_then, does_ret, does_then, does_ret, does_then, does_ret.
  assert (K : keeps V' σ2 σ7) by (etrans; [exact K3|etrans; [exact K4|etrans; [exact K5|by etrans]]]).
  assert (G : goes 0 σ σ7).
  { eapply (goes_trans 0 0); [eapply (goes_trans 0 0); [exact G1|exact G2]|by eapply keeps_goes]. }
  destruct (tower_split_inner V D Ts root ls k A P l B Q ks cps i sep W HT Hlen HP Hi) as (l1 & l2 & El & W');
    [by eapply blank_outside|done|done|done|].
  eapply HK; [exact El| |done]. eapply world_inner; [exact Hw|by eapply keeps_holds| |exact W'|by apply halved_small|].
  - destruct G as (-> & _). done.
  - intros x Hx. unfold V', halved. rewrite !lookup_insert_ne; [done|..].
    + intros <-. apply (blank_outside _ _ _ _ _ _ _ Hw HQ), in_tower. exists 0%nat. by eapply leaf_placed.
    + intros <-. assert (0%nat = S k); [|done]. eapply (placed_unique V D Ts root ls); [done|by eapply leaf_placed|].
      exists (A ++ (P, l) :: B). split; [done|]. rewrite fmap_app. apply elem_of_app. right. left.
Qed.

(** ** The root *)

Lemma hot_target σ pid : pinned σ pid → word_target σ (hot_swip σ pid) = Some pid ∧ word_ok (hot_swip σ pid).
Proof. intros Hp. pose proof (hot_swip_ok σ pid Hp) as E. split; [done|by eapply target_word_ok]. Qed.

Lemma does_install {A} V σ root a b sep pl pr va vb (k : BTreePool.R A) (Q : A → pool → Prop) :
  holds σ V → is_Some (V !! a) → is_Some (V !! b) → is_Some (V !! root) → a ≠ b → a ≠ root → b ≠ root →
  pinned σ a → pinned σ b → shown σ pl va → shown σ pr vb → key_small sep →
  (∀ σ', holds σ' (<[root := InnerView [sep] [a; b]]> (<[a := va]> (<[b := vb]> V))) → goes 0 σ σ' → does k σ' Q) →
  does (install_new_root root a b sep pl pr ;! k)%R σ Q.
Proof.
  intros Hh Ha Hb Hr Hab Har Hbr Hpa Hpb Sl Sr Hk HQ. apply does_then.
  apply does_then. eapply (does_put_page V); [done|done|exact Sl|]. intros σ1 Hh1 G1 Hw1 _.
  apply does_then. eapply (does_put_page _ _ _ _ vb); [exact Hh1|by rewrite lookup_insert_ne|by eapply shown_target|].
  intros σ2 Hh2 G2 _ _. rewrite insert_insert_ne in Hh2 by done. set (V1 := <[a := va]> _) in Hh2.
  apply does_then, (does_put_dirty V1). intros σ3 K3. apply does_then, (does_put_dirty V1). intros σ4 K4.
  assert (K : keeps V1 σ2 σ4) by (by etrans). assert (Hh4 : holds σ4 V1) by (by eapply keeps_holds).
  assert (G4 : goes 0 σ σ4) by (eapply (goes_trans 0 0); [by eapply (goes_trans 0 0)|by eapply keeps_goes]).
  assert (Hpa' : pinned σ4 a) by (by apply G4). assert (Hpb' : pinned σ4 b) by (by apply G4).
  destruct (hot_target σ4 a Hpa') as [Ta Wa]. destruct (hot_target σ4 b Hpb') as [Tb Wb].
  apply does_get, does_get, does_latched, does_get.
  destruct (new_root_spec (logs_ranges σ4) (page_bytes σ4 root) sep (hot_swip σ4 a) (hot_swip σ4 b)) as (nd & En & Nd); [|exact Wa|exact Wb|].
  { unfold page_fits, inner_entries, child_entry, heap_total, esize, key_small in *. cbn in *. unfold zlen in *. cbn. lia. }
  eapply does_lift_bind; [exact En|]. apply does_then.
  eapply (does_put_page V1 _ _ _ (InnerView [sep] [a; b])); [done| | |].
  { unfold V1. by rewrite !lookup_insert_ne. }
  { exists [(sep, hot_swip σ4 a)], (hot_swip σ4 b). split_and!; [apply Nd|done|]. repeat constructor; done. }
  intros σ5 Hh5 G5 _ _. set (V2 := <[root := _]> V1) in Hh5.
  apply does_then, (does_put_dirty V2). intros σ6 K6. apply does_then, (does_finish V2). intros σ7 K7.
  apply (does_finish V2). intros σ8 K8. assert (K' : keeps V2 σ5 σ8) by (etrans; [exact K6|by etrans]).
  apply HQ; [by eapply keeps_holds|]. eapply (goes_trans 0 0); [by eapply (goes_trans 0 0)|by eapply keeps_goes].
Qed.

Lemma does_count_root V σ right (Q : unit → pool → Prop) :
  (∀ σ', keeps V σ σ' → Q tt σ') → does (count_new_root 0 right) σ Q.
Proof.
  intros HQ. apply does_then, does_ret, does_then, (does_height V). intros σ1 K1. apply (does_reachable V). intros σ2 K2.
  apply HQ. by etrans.
Qed.

Lemma split_root_leaf_world σ V root ls es l r a b (i : nat) e (Post : unit → pool → Prop) :
  world σ V ∅ [base ls] root ls → ls = [(root, es)] → V !! root = Some (LeafView l r es) →
  V !! a = Some BlankView → V !! b = Some BlankView → a ≠ b →
  pinned σ a → pinned σ b → es !! i = Some e → (S i < length es)%nat →
  (∀ σ' V', let ls' := [(a, take (S i) es); (b, drop (S i) es)] in
    world σ' V' ∅ [base ls'; [(root, ls')]] root ls' → (cost V' ∅ + 2 = cost V ∅)%nat → goes 0 σ σ' → Post tt σ') →
  does (split_stable_root self root (Z.of_nat i) e.1 None (Some a) (Some b)) σ Post.
Proof.
  intros Hw Els HVr Ha Hb Hab Hpa Hpb He Hi HK. pose proof Hw as [Hh Hr W Hc Hs Hf Hm].
  destruct (leaf_at V ls [] root es [] Hc Els) as (l' & HVr' & _). rewrite HVr in HVr'. injection HVr' as <- ->. cbn in HVr.
  assert (l = 0) as ->.
  { destruct (Hc 0%nat root es) as [_ E]; [by rewrite Els|]. rewrite HVr in E. by injection E as ->. }
  assert (Har : a ≠ root) by congruence. assert (Hbr : b ≠ root) by congruence.
  destruct (holds_leaf V σ root _ _ es Hh HVr) as [P Hes].
  destruct (held_ok V σ a Hh) as (Ha0 & HLw%payload_word & _); [by eexists|].
  destruct (held_ok V σ b Hh) as (Hb0 & HRw%payload_word & _); [by eexists|].
  destruct (split_root_leaf_halves (page_bytes σ root) 0 0 es P a b HLw HRw (page_bytes σ a) (page_bytes σ b) i e.1 None) as (pl & pr & Pl & Pr & Es); [lia|].
  cbn [install_pending] in Es. rewrite bind_Ret in Es.
  destruct (keys_sorted_app_inv (take (S i) es) (drop (S i) es)) as (Hs1 & Hs2 & _); [by rewrite take_drop|].
  unfold split_stable_root, page_or_allocate. apply does_then, does_ret, does_then, does_ret, does_latched, does_latched, does_latched.
  rewrite (leaf_flag _ _ _ _ P). eapply does_lift_bind; [exact Es|]. cbn [fst snd].
  pose proof (Hm _ _ HVr) as Hsm. cbn in Hsm.
  eapply (does_install V _ _ _ _ _ _ _ (LeafView 0 b (take (S i) es)) (LeafView a 0 (drop (S i) es)));
    [done|by eexists|by eexists|by eexists|done|done|done|done|done|done|done| |].
  { apply (proj1 (Forall_lookup _ _) Hsm i e He). }
  intros σ1 Hh1 G1. set (V' := <[root := _]> _) in Hh1.
  apply does_then, (does_put_link self V'). intros σ2 K2. apply does_then, (does_put_link self V'). intros σ3 K3.
  apply (does_count_root V'). intros σ4 K4. assert (K : keeps V' σ1 σ4) by (etrans; [exact K2|by etrans]).
  assert (G : goes 0 σ σ4) by (eapply (goes_trans 0 0); [done|by eapply keeps_goes]).
  eapply (HK σ4 V'); [|unfold cost; rewrite !map_size_empty|done].
  - constructor; [by eapply keeps_holds|destruct G as (-> & _); done| | | | |].
    + apply (tower_root_leaf V' root (take (S i) es) (drop (S i) es) a b e.1); [unfold V'; by rewrite lookup_insert_eq|done|done|done|]. intros x Hx. by apply (separates_at es i e Hes He).
    + apply chained_linked. unfold V'. cbn. split_and!; [done| |done| |done].
      * by rewrite lookup_insert_ne, lookup_insert_eq.
      * by rewrite lookup_insert_ne, lookup_insert_ne, lookup_insert_eq.
    + unfold entries_of. cbn. rewrite app_nil_r. by rewrite take_drop.
    + left. intros f [->|[->|[]%not_elem_of_nil]%elem_of_cons]%elem_of_cons; cbn; [by destruct es|].
      intros Ed. apply (f_equal length) in Ed. rewrite length_drop in Ed. cbn in Ed. lia.
    + unfold V'. repeat apply all_small_insert; cbn; [done|by apply Forall_drop|by apply Forall_take|].
      constructor; [|done]. apply (proj1 (Forall_lookup _ _) Hsm i e He).
  - unfold V'.
    pose proof (weigh_insert (<[a := LeafView 0 b (take (S i) es)]> (<[b := LeafView a 0 (drop (S i) es)]> V)) root (InnerView [e.1] [a; b])) as E1.
    pose proof (weigh_insert (<[b := LeafView a 0 (drop (S i) es)]> V) a (LeafView 0 b (take (S i) es))) as E2.
    pose proof (weigh_insert V b (LeafView a 0 (drop (S i) es))) as E3.
    rewrite !lookup_insert_ne, HVr in E1 by done. rewrite lookup_insert_ne, Ha in E2 by done. rewrite Hb in E3.
    cbn in E1, E2, E3. rewrite length_take, length_drop in *. lia.
Qed.

(** References by page identifier lead where those they replace led. *)
Lemma unswizzled_targets V σ ws cps :
  holds σ V → Forall (λ c, is_Some (V !! c)) cps → Forall2 (λ w c, word_target σ w = Some c) ws cps →
  (∀ w, w ∈ ws → ∃ pid, refers (frames_of σ) w pid) ∧
  Forall2 (λ w c, word_target σ w = Some c) (unswizzled (frames_of σ) <$> ws) cps.
Proof.
  intros Hh Hc Hf. induction Hf as [|w c ws cps Hw Hf IH]; [split; [by intros ? ?%not_elem_of_nil|constructor]|].
  apply Forall_cons in Hc as [Hc Hcs]. destruct (IH Hcs) as [IH1 IH2]. destruct (held_ok V σ c Hh Hc) as (_ & Hp & He & Hs). split.
  - intros x [->|Hx]%elem_of_cons; [|by apply IH1]. exists c. split; [by apply Hs|done].
  - cbn. constructor; [|done]. unfold unswizzled. by rewrite (Hs w Hw).
Qed.

Lemma root_halved_cost V D root a b ks cps (i : nat) sep :
  V !! root = Some (InnerView ks cps) → V !! a = Some BlankView → V !! b = Some BlankView → a ≠ b →
  (0 < i)%nat → (S i < length ks)%nat → (cost (root_halved V root a b ks cps i sep) D + 2 = cost V D)%nat.
Proof.
  intros Hr Ha Hb Hab H0i Hi. assert (a ≠ root) by congruence. assert (b ≠ root) by congruence.
  unfold cost, root_halved, halved.
  pose proof (weigh_insert (<[a := InnerView (take i ks) (take (S i) cps)]> (<[b := InnerView (drop (S i) ks) (drop (S i) cps)]> V))
    root (InnerView [sep] [a; b])) as E1.
  pose proof (weigh_insert (<[b := InnerView (drop (S i) ks) (drop (S i) cps)]> V) a (InnerView (take i ks) (take (S i) cps))) as E2.
  pose proof (weigh_insert V b (InnerView (drop (S i) ks) (drop (S i) cps))) as E3.
  rewrite !lookup_insert_ne, Hr in E1 by done. rewrite lookup_insert_ne, Ha in E2 by done. rewrite Hb in E3.
  cbn in E1, E2, E3. rewrite length_take, length_drop in *. lia.
Qed.

Lemma root_halved_small V root a b ks cps (i : nat) sep :
  all_small V → V !! root = Some (InnerView ks cps) → ks !! i = Some sep → all_small (root_halved V root a b ks cps i sep).
Proof.
  intros Hs HP Hi. pose proof (Hs _ _ HP) as Hk. cbn in Hk.
  repeat apply all_small_insert; cbn; [done|by apply Forall_drop|by apply Forall_take|].
  constructor; [|done]. by apply (proj1 (Forall_lookup _ _) Hk i sep).
Qed.

(** The pages of both halves of the root. *)
Lemma root_halves_shown V σ root ks cps a b (i : nat) sep :
  holds σ V → V !! root = Some (InnerView ks cps) → Forall (λ c, is_Some (V !! c)) cps → ks !! i = Some sep →
  BTreeNode.is_leaf (page_bytes σ root) = false ∧ ∃ pl pr,
    split_root_inner (frames_of σ) (page_bytes σ root) a b (Z.of_nat i) = Ret (pl, pr) ∧
    shown σ pl (InnerView (take i ks) (take (S i) cps)) ∧ shown σ pr (InnerView (drop (S i) ks) (drop (S i) cps)).
Proof.
  intros Hh HP Hc Hi. destruct (holds_inner V σ root ks cps Hh HP) as (cs & u & Pg & Es & Hfc). split; [apply Pg|].
  assert (∃ w, cs !! i = Some (sep, w)) as [w Hci].
  { rewrite <-Es in Hi. unfold seps in Hi. rewrite list_lookup_fmap in Hi. destruct (cs !! i) as [[k' w]|]; [|done].
    injection Hi as ->. by exists w. }
  destruct (unswizzled_targets V σ (children cs u) cps Hh Hc Hfc) as [Href Hf'].
  destruct (split_root_inner_spec (frames_of σ) (page_bytes σ root) a b cs u i sep w Pg Hci Href) as (pl & pr & Ep & Pl & Pr).
  exists pl, pr. split; [done|]. set (g := unswizzled (frames_of σ)) in *.
  rewrite <-children_mapped in Hf'.
  assert (Hm : mapped g cs !! i = Some (sep, g w)) by (unfold mapped; by rewrite list_lookup_fmap, Hci).
  destruct (halves_shown σ (mapped g cs) (g u) ks cps i sep (g w) pl pr) as (_ & ? & ?); [by rewrite seps_mapped|done|done| | |done].
  - unfold mapped. by rewrite <-fmap_take.
  - unfold mapped. by rewrite <-fmap_drop.
Qed.

Lemma split_root_inner_world σ V D Ts0 root ls ks cps a b (i : nat) sep (Post : unit → pool → Prop) :
  world σ V D (Ts0 ++ [[(root, ls)]]) root ls → Ts0 ≠ [] → V !! root = Some (InnerView ks cps) →
  V !! a = Some BlankView → V !! b = Some BlankView → a ≠ b → D !! a = None → D !! b = None →
  pinned σ a → pinned σ b → ks !! i = Some sep → (0 < i)%nat → (S i < length ks)%nat →
  (∀ σ' l1 l2, ls = l1 ++ l2 →
    world σ' (root_halved V root a b ks cps i sep) D (Ts0 ++ [[(a, l1); (b, l2)]; [(root, ls)]]) root ls →
    goes 0 σ σ' → Post tt σ') →
  does (split_stable_root self root (Z.of_nat i) sep None (Some a) (Some b)) σ Post.
Proof.
  intros Hw Hne HP Ha Hb Hab HDa HDb Hpa Hpb Hi H0i Hil HK. pose proof Hw as [Hh Hr W Hc Hs Hf Hm].
  assert (Har : a ≠ root) by congruence. assert (Hbr : b ≠ root) by congruence.
  pose proof (blank_outside _ _ _ _ _ _ _ Hw Ha) as Hoa. pose proof (blank_outside _ _ _ _ _ _ _ Hw Hb) as Hob.
  assert (HT : placed (Ts0 ++ [[(root, ls)]]) (length Ts0) root).
  { exists [(root, ls)]. split; [by rewrite lookup_app_r, Nat.sub_diag by lia|left]. }
  assert (Hcps : Forall (λ c, is_Some (V !! c)) cps).
  { apply Forall_forall. intros c Hin. destruct Ts0 as [|B0 Ts1]; [done|]. pose proof (placed_child _ _ _ _ _ _ _ _ _ _ W HT HP Hin) as Hpc.
    destruct (tower_shown _ _ _ _ _ c W Hc) as (v & -> & _); [apply in_tower; by eexists|by eexists]. }
  destruct (root_halves_shown V σ root ks cps (page_bytes σ a) (page_bytes σ b) i sep Hh HP Hcps Hi) as (Hl & pl & pr & Ep & Sl & Sr).
  unfold split_stable_root, page_or_allocate. apply does_then, does_ret, does_then, does_ret, does_latched, does_latched, does_latched.
  rewrite Hl. apply does_get. eapply does_lift_bind; [exact Ep|]. cbn [fst snd].
  eapply (does_install V); [done|by eexists|by eexists|by eexists|done|done|done|done|done|exact Sl|exact Sr| |].
  { pose proof (Hm _ _ HP) as Hk. by apply (proj1 (Forall_lookup _ _) Hk i sep). }
  intros σ1 Hh1 G1. change (holds σ1 (root_halved V root a b ks cps i sep)) in Hh1. set (V' := root_halved _ _ _ _ _ _ _ _) in *.
  assert (HA' : V' !! a = Some (InnerView (take i ks) (take (S i) cps)))
    by (unfold V', root_halved, halved; by rewrite lookup_insert_ne, lookup_insert_eq).
  assert (HB' : V' !! b = Some (InnerView (drop (S i) ks) (drop (S i) cps)))
    by (unfold V', root_halved, halved; by rewrite lookup_insert_ne, lookup_insert_ne, lookup_insert_eq).
  apply does_then, (does_put_link self V'). intros σ2 K2.
  apply does_then. eapply (does_steps V'); [eapply refresh_spec; [exact HA'|by eapply keeps_holds]|]. intros _ σ3 K3 _.
  assert (K23 : keeps V' σ1 σ3) by (by etrans). apply does_then, (does_put_link self V'). intros σ4 K4.
  assert (K24 : keeps V' σ1 σ4) by (by etrans).
  apply does_then. eapply (does_steps V'); [eapply refresh_spec; [exact HB'|by eapply keeps_holds]|]. intros _ σ5 K5 _.
  apply (does_count_root V'). intros σ6 K6. assert (K : keeps V' σ1 σ6) by (etrans; [exact K24|by etrans]).
  assert (G : goes 0 σ σ6) by (eapply (goes_trans 0 0); [done|by eapply keeps_goes]).
  rewrite concat_app, fmap_app, not_elem_of_app in Hoa, Hob.
  destruct (tower_root_inner V D Ts0 root ls a b ks cps i sep W Hne HP Hi) as (l1 & l2 & El & W'); [by apply Hoa|by apply Hob|done|done|done|done|done|].
  eapply HK; [exact El| |done]. eapply world_inner; [exact Hw|by eapply keeps_holds| |exact W'|by apply root_halved_small|].
  - destruct G as (-> & _). done.
  - intros x Hx. assert (Hp0 : placed (Ts0 ++ [[(root, ls)]]) 0 x) by (by eapply leaf_placed).
    unfold V', root_halved, halved. rewrite !lookup_insert_ne; [done|..]; intros <-.
    + pose proof (blank_outside _ _ _ _ _ _ _ Hw Hb) as Ho. apply Ho, in_tower. by eexists.
    + pose proof (blank_outside _ _ _ _ _ _ _ Hw Ha) as Ho. apply Ho, in_tower. by eexists.
    + assert (0%nat = length Ts0) as E by exact (placed_unique V D _ root ls _ _ _ W Hp0 HT). by destruct Ts0.
Qed.

End splits.
