(* ===== verification/BTreePublish.v ===== *)
(** * B-tree: a split is published

    The publication of a split finds the parent of the divided node and puts
    the right half next to it, splitting the parent first when it is full,
    and so on up to the root. It always returns, and what it leaves is the
    tree with one pending split less; nodes at and below the level of the
    divided node are not touched. *)

From S2P Require Import Prelude Bytes FrameKernel SwipKernel PageHeader PageMutation Slotted SlottedInv SlottedOps SlottedSearch SlottedMutation SlottedSpec BufferFrame BTreeNode BTreeNodeInv BTreePages BTreeSplitSpec BTreeInnerSpec BTreeRoute BTreePool BTreeRead BTreeTree BTreeGrow BTreeReadSpec BTreeWrite BTreeDescent BTreeWorld.
#[local] Open Scope Z_scope.
Import SlottedHeader SlottedPage.

Notation levels := (list (list (Z * list (Z * list entry)))) (only parsing).

(** ** Growth above a level *)

Record grown (k : nat) (V : gmap Z node_view) (Ts : levels) (V' : gmap Z node_view) (Ts' : levels) : Prop := {
  g_same : ∀ j, (j ≤ k)%nat → Ts' !! j = Ts !! j;
  g_view : ∀ j x, (j ≤ k)%nat → placed Ts j x → V' !! x = V !! x;
  g_inner : ∀ j x, placed Ts (S j) x → ∃ j', placed Ts' (S j') x;
}.


Lemma grown_same k V Ts : grown k V Ts V Ts.
Proof. constructor; [done|done|by eauto]. Qed.

Lemma grown_placed k V Ts V' Ts' j x : grown k V Ts V' Ts' → (j ≤ k)%nat → placed Ts' j x ↔ placed Ts j x.
Proof. intros G Hj. unfold placed. by rewrite (g_same _ _ _ _ _ G j Hj). Qed.

Lemma grown_trans k V1 Ts1 V2 Ts2 V3 Ts3 : grown k V1 Ts1 V2 Ts2 → grown k V2 Ts2 V3 Ts3 → grown k V1 Ts1 V3 Ts3.
Proof.
  intros G G'. constructor.
  - intros j Hj. by rewrite (g_same _ _ _ _ _ G' j Hj), (g_same _ _ _ _ _ G j Hj).
  - intros j x Hj Hx. rewrite (g_view _ _ _ _ _ G' j x Hj); [by eapply g_view|]. by eapply grown_placed.
  - intros j x (j' & Hx)%(g_inner _ _ _ _ _ G). by apply (g_inner _ _ _ _ _ G') in Hx.
Qed.

Lemma grown_le k k' V Ts V' Ts' : grown k V Ts V' Ts' → (k' ≤ k)%nat → grown k' V Ts V' Ts'.
Proof. intros [Gs Gv Gi] Hk. constructor; [intros; apply Gs; lia|intros j x ?; apply (Gv j x); lia|done]. Qed.

Lemma on_path_grown k V Ts V' Ts' path : grown k V Ts V' Ts' → on_path Ts path → on_path Ts' path.
Proof. intros G Hp. eapply Forall_impl; [exact Hp|]. intros x (j & Hx). by apply (g_inner _ _ _ _ _ G) in Hx. Qed.

(** ** A pending split *)

Record pub `{PoolLaws} (σ : pool) (V : gmap Z node_view) (D : gmap Z (list byte * Z)) (Ts : levels) (root : Z)
    (ls : list (Z * list entry)) (k : nat) (X : Z) (sep : list byte) (R : Z) (n : nat) : Prop := {
  p_world : world σ V D Ts root ls;
  p_full : leaves_nonempty ls;
  p_at : placed Ts k X;
  p_pending : D !! X = Some (sep, R);
  p_alone : ∀ x, placed Ts k x → x ≠ X → D !! x = None;
  p_deep : ∀ x, is_Some (D !! x) → ∃ j, (j ≤ k)%nat ∧ placed Ts j x;
  p_pin : pinned σ X;
  p_pin_right : pinned σ R;
  p_key : key_small sep;
  p_parent : ∃ G ks cps, placed Ts (S k) G ∧ V !! G = Some (InnerView ks cps) ∧ X ∈ cps ∧ length ks = n;
}.

Section pub.
Context `{Build} `{PoolOps} `{!PoolLaws} `{!WriteOps} `{!WriteLaws} (self : BTree.t).
Context (root : Z) (ls : list (Z * list entry)) (D : gmap Z (list byte * Z)) (k : nat) (X : Z) (sep : list byte) (R : Z).
Implicit Types (σ : pool) (V : gmap Z node_view) (Ts : levels).

Lemma pub_above σ V Ts n x j : pub σ V D Ts root ls k X sep R n → placed Ts j x → (k < j)%nat → D !! x = None.
Proof.
  intros P Hx Hj. destruct (D !! x) as [p|] eqn:E; [|done]. destruct (p_deep _ _ _ _ _ _ _ _ _ _ _ P x) as (j' & Hj' & Hx'); [by eexists|].
  pose proof (placed_unique _ _ _ _ _ _ _ _ (w_tower _ _ _ _ _ _ (p_world _ _ _ _ _ _ _ _ _ _ _ P)) Hx Hx'). lia.
Qed.

(** The parent of the divided node. *)
Lemma pub_parent σ V Ts n G ks cps j :
  pub σ V D Ts root ls k X sep R n → placed Ts (S j) G → V !! G = Some (InnerView ks cps) → X ∈ cps → j = k.
Proof.
  intros P HG HV HX. pose proof (w_tower _ _ _ _ _ _ (p_world _ _ _ _ _ _ _ _ _ _ _ P)) as W.
  eapply (placed_unique _ _ _ _ _ _ _ X W); [by eapply placed_child|apply P].
Qed.

Lemma hangs_children V (Hs : list (Z * list (Z * list entry))) T G G' ks cps ks' cps' x :
  level V Hs T → NoDup Hs.*1 → NoDup T.*1 → G ∈ T.*1 → G' ∈ T.*1 →
  V !! G = Some (InnerView ks cps) → V !! G' = Some (InnerView ks' cps') → x ∈ cps → x ∈ cps' → G = G'.
Proof.
  intros (segs & -> & Hf) Hn _ HG HG' HV HV' Hx Hx'.
  assert (Hseg : ∀ g kg cg, g ∈ T.*1 → V !! g = Some (InnerView kg cg) → ∃ i l seg, T !! i = Some (g, l) ∧ segs !! i = Some seg ∧ cg = seg.*1).
  { intros g kg cg ([y l] & -> & Hg)%list_elem_of_fmap Hvg. apply list_elem_of_lookup in Hg as [i Hi].
    destruct (Forall2_lookup_l _ _ _ _ _ Hf Hi) as (seg & Hsi & (kk & Hk & _)). cbn in *. rewrite Hvg in Hk. injection Hk as -> ->. by exists i, l, seg. }
  destruct (Hseg G ks cps HG HV) as (i & l & seg & Hi & Hsi & ->). destruct (Hseg G' ks' cps' HG' HV') as (i' & l' & seg' & Hi' & Hsi' & ->).
  assert (i = i') as <-; [|congruence]. rewrite (concat_pids segs) in Hn.
  eapply (NoDup_concat_disjoint (pids <$> segs) i i'); [done|by rewrite list_lookup_fmap, Hsi|by rewrite list_lookup_fmap, Hsi'|done|done].
Qed.

Lemma parent_unique σ V Ts n G G' ks cps ks' cps' :
  pub σ V D Ts root ls k X sep R n → placed Ts (S k) G → placed Ts (S k) G' →
  V !! G = Some (InnerView ks cps) → V !! G' = Some (InnerView ks' cps') → X ∈ cps → X ∈ cps' → G = G'.
Proof.
  intros P (T' & HT' & HG) (T2 & HT2 & HG') HV HV' HX HX'. rewrite HT' in HT2. injection HT2 as <-.
  pose proof (w_tower _ _ _ _ _ _ (p_world _ _ _ _ _ _ _ _ _ _ _ P)) as W. destruct (p_at _ _ _ _ _ _ _ _ _ _ _ P) as (T & HT & _).
  destruct (tw_step _ _ _ _ _ W k T T' HT HT') as (Hs & Hh & HL).
  eapply (hangs_children V Hs T'); [done| |by eapply tower_level_nodup|done|done|done|done|done|done].
  eapply hangs_nodup; [done|by eapply tower_level_nodup].
Qed.

Lemma parent_count σ V Ts n G ks cps j :
  pub σ V D Ts root ls k X sep R n → placed Ts (S j) G → V !! G = Some (InnerView ks cps) → X ∈ cps → j = k ∧ length ks = n.
Proof.
  intros P HG HV HX. assert (j = k) as -> by (by eapply pub_parent). split; [done|].
  destruct (p_parent _ _ _ _ _ _ _ _ _ _ _ P) as (G' & ks' & cps' & HG' & HV' & HX' & <-).
  assert (G = G') as <- by (by eapply parent_unique). congruence.
Qed.
Lemma pub_next σ σ' V V' Ts Ts' n n' :
  pub σ V D Ts root ls k X sep R n → world σ' V' D Ts' root ls → grown k V Ts V' Ts' →
  (∀ q, pinned σ q → pinned σ' q) →
  (∃ G ks cps, placed Ts' (S k) G ∧ V' !! G = Some (InnerView ks cps) ∧ X ∈ cps ∧ length ks = n') →
  pub σ' V' D Ts' root ls k X sep R n'.
Proof.
  intros [Pw Pf Pa Pp Pl Pd Px Pr Pk _] Hw G Hpin Hpar. constructor; try done; [| | |by apply Hpin|by apply Hpin].
  - by apply (grown_placed _ _ _ _ _ k X G).
  - intros x Hx. apply Pl. by apply (grown_placed _ _ _ _ _ k x G).
  - intros x Hx. destruct (Pd x Hx) as (j & Hj & Hp). exists j. split; [done|]. by apply (grown_placed _ _ _ _ _ j x G).
Qed.

Lemma pub_keeps σ σ' V Ts n : keeps V σ σ' → pub σ V D Ts root ls k X sep R n → pub σ' V D Ts root ls k X sep R n.
Proof.
  intros K P. eapply pub_next; [exact P|eapply world_keeps; [exact K|apply P]|apply grown_same|apply K|apply P].
Qed.

(** ** The edge of the divided node in a parent *)

Lemma child_edge V σ G ks cps :
  holds σ V → V !! G = Some (InnerView ks cps) → pinned σ X →
  ∃ cs u, inner_page (page_bytes σ G) cs u ∧ seps cs = ks ∧
    Forall2 (λ w c, word_target σ w = Some c) (children cs u) cps ∧
    match child_edge_for (page_bytes σ G) (ChildRef.from_pid (frame_ref σ X) X) with
    | Ret None => X ∉ cps
    | Ret (Some edge) => ∃ pos : nat, cps !! pos = Some X ∧ edge = edge_at cs pos
    | Panic => False
    end.
Proof.
  intros Hh HV Hp. destruct (holds_inner V σ G ks cps Hh HV) as (cs & u & P & Es & Hf). exists cs, u. split_and!; [done|done|done|].
  set (f := λ w, bool_decide (word_target σ w = Some X)).
  assert (Hm : ∀ w, w ∈ children cs u → ChildRef.matches_swip (ChildRef.from_pid (frame_ref σ X) X) w = Ret (f w)).
  { intros w (i & Hi)%list_elem_of_lookup. destruct (Forall2_lookup_l _ _ _ _ _ Hf Hi) as (q & _ & Hq).
    destruct (word_target_ok _ _ _ Hq) as (s & Hs & -> & He). rewrite matches_encode by done. f_equal. unfold f. rewrite Hq.
    destruct s as [a|a|p]; cbn [is_child ChildRef.from_pid ChildRef.frame ChildRef.pid].
    - destruct (frame_ref_ok σ X (HotPtr a) a q Hp Hs ltac:(by left) Hq) as [H1' H2'].
      case_bool_decide as E; [apply Z.eqb_eq, H2'; congruence|apply Z.eqb_neq; intros Ea; apply E; f_equal; by apply H1'].
    - destruct (frame_ref_ok σ X (CoolPtr a) a q Hp Hs ltac:(by right) Hq) as [H1' H2'].
      case_bool_decide as E; [apply Z.eqb_eq, H2'; congruence|apply Z.eqb_neq; intros Ea; apply E; f_equal; by apply H1'].
    - rewrite (He p eq_refl). case_bool_decide as E; [apply Z.eqb_eq; congruence|apply Z.eqb_neq; congruence]. }
  unfold child_edge_for. rewrite (find_edge_spec _ _ _ _ f P Hm). destruct (first_at f (children cs u)) as [pos|] eqn:E; cbn.
  - apply first_at_Some in E as (w & Hw & Hfw & _). exists pos. split; [|done].
    destruct (Forall2_lookup_l _ _ _ _ _ Hf Hw) as (q & Hq & Ht). unfold f in Hfw. apply bool_decide_eq_true_1 in Hfw. congruence.
  - intros (i & Hi)%list_elem_of_lookup. destruct (Forall2_lookup_r _ _ _ _ _ Hf Hi) as (w & Hw & Ht).
    pose proof (first_at_None f _ w E ltac:(by eapply list_elem_of_lookup_2)) as Hn. unfold f in Hn.
    by apply bool_decide_eq_false_1 in Hn.
Qed.

(** ** A parent with room *)

(** Two ends of a step: the split was published, or it was not and the tree
    above it may have grown; [s] of the cost and of the separators of the
    parent are used up then. *)
Definition published (path : list Z) V Ts σ σ' : Prop := ∃ V' Ts',
  world σ' V' (delete X D) Ts' root ls ∧ grown k V Ts V' Ts' ∧ on_path Ts' path ∧ (cost V' (delete X D) ≤ cost V D)%nat ∧
  (length Ts' + cost V' (delete X D) ≤ length Ts + cost V D)%nat ∧
  goes (Z.of_nat (cost V D) - Z.of_nat (cost V' (delete X D))) σ σ'.
Definition postponed (s : nat) (path : list Z) V Ts n σ σ' : Prop := ∃ V' Ts' n',
  pub σ' V' D Ts' root ls k X sep R n' ∧ grown k V Ts V' Ts' ∧ on_path Ts' path ∧ (cost V' D + s ≤ cost V D)%nat ∧ (n' + s ≤ n)%nat ∧
  (length Ts' + cost V' D ≤ length Ts + cost V D)%nat ∧
  goes (Z.of_nat (cost V D) - Z.of_nat (cost V' D)) σ σ'.

Lemma published_views σ σ' V Ts n G ks cps (pos : nat) path :
  pub σ V D Ts root ls k X sep R n → on_path Ts path → placed Ts (S k) G → V !! G = Some (InnerView ks cps) → cps !! pos = Some X →
  holds σ' (<[G := InnerView (insert_at pos sep ks) (split_at pos X R cps)]> V) → goes 0 σ σ' → published path V Ts σ σ'.
Proof.
  intros P Hpath HG HV Hpos Hh' Gs. pose proof (p_world _ _ _ _ _ _ _ _ _ _ _ P) as Hw. pose proof Hw as [Hh Hr W Hc Hs Hf Hm].
  destruct (p_at _ _ _ _ _ _ _ _ _ _ _ P) as (T & HT & HXT). destruct HG as (T' & HT' & HGT).
  exists (<[G := InnerView (insert_at pos sep ks) (split_at pos X R cps)]> V), Ts.
  assert (Hlow : ∀ j x, (j ≤ k)%nat → placed Ts j x → x ≠ G).
  { intros j x Hj Hx ->. assert (j = S k) by (eapply (placed_unique V D Ts root ls); [done|done|by exists T']). lia. }
  assert (Hcost : (cost (<[G := InnerView (insert_at pos sep ks) (split_at pos X R cps)]> V) (delete X D) ≤ cost V D)%nat).
  { unfold cost. pose proof (weigh_insert V G (InnerView (insert_at pos sep ks) (split_at pos X R cps))) as E. rewrite HV in E. cbn in E.
    assert (Hli : length (insert_at pos sep ks) = S (length ks)).
    { unfold insert_at. rewrite length_app. cbn. rewrite length_take, length_drop. lia. }
    rewrite Hli in E. pose proof (p_pending _ _ _ _ _ _ _ _ _ _ _ P) as HX. rewrite map_size_delete, HX. cbn.
    assert (size D ≠ 0)%nat; [|lia]. intros E0. apply map_size_empty_inv in E0. by rewrite E0, lookup_empty in HX. }
  split_and!; [| |done|done|lia|by eapply goes_le; [done|lia]].
  - eapply world_inner; [exact Hw|done|destruct Gs as (-> & _); done| | |].
    + eapply tower_publish; [done|exact HT|exact HT'|done|done|done|apply P|done|apply P].
    + apply all_small_insert; [done|]. cbn. pose proof (Hm _ _ HV) as Hk. cbn in Hk. unfold insert_at.
      apply Forall_app. split; [by apply Forall_take|]. constructor; [apply P|by apply Forall_drop].
    + intros x Hx. rewrite lookup_insert_ne; [done|]. symmetry. apply (Hlow 0%nat); [lia|by eapply leaf_placed].
  - constructor; [done| |by eauto]. intros j x Hj Hx. rewrite lookup_insert_ne; [done|]. symmetry. by eapply Hlow.
Qed.

Lemma publish_in_parent_spec σ V Ts n G ks cps (pos : nat) cs u pb path (Q : unit → pool → Prop) :
  pub σ V D Ts root ls k X sep R n → on_path Ts path → placed Ts (S k) G → V !! G = Some (InnerView ks cps) → cps !! pos = Some X →
  inner_page (page_bytes σ G) cs u → seps cs = ks → Forall2 (λ w c, word_target σ w = Some c) (children cs u) cps → sep_fits cs sep →
  (∀ σ', published path V Ts σ σ' → Q tt σ') →
  does (publish_in_parent self G sep X {| SplitChild.pid := R; SplitChild.published := pb |} (edge_at cs pos)) σ Q.
Proof.
  intros P Hpath HG HV Hpos Pg Es Hf Hfit HQ. destruct (hot_target σ X) as [TX WX]; [apply P|].
  destruct (hot_target σ R) as [TR WR]; [apply P|].
  assert (Hpl : (pos ≤ length cs)%nat).
  { pose proof (lookup_lt_Some _ _ _ Hpos) as Hl. rewrite <-(Forall2_length _ _ _ Hf), length_children in Hl. lia. }
  destruct (apply_split_spec (ExclusiveNode.new (logs_ranges σ) (page_bytes σ G)) cs u pos sep (hot_swip σ X) (hot_swip σ R)
    (guard_inner _ _ _ _ Pg) Hpl Hfit WX WR) as (nd & cs' & u' & Ea & Nd & _ & Ec & Ese).
  apply does_latched, does_get, does_get, does_get. eapply does_lift_bind; [exact Ea|]. cbn [fst snd SplitChild.pid].
  set (V' := <[G := InnerView (insert_at pos sep ks) (split_at pos X R cps)]> V).
  apply does_then. eapply (does_finish_node V _ _ _ (InnerView (insert_at pos sep ks) (split_at pos X R cps))); [apply P|by eexists| |].
  { exists cs', u'. split_and!; [apply Nd|by rewrite Ese, Es|]. rewrite Ec. unfold split_at.
    apply Forall2_app; [by apply Forall2_take|]. constructor; [done|]. constructor; [done|]. by apply Forall2_drop. }
  intros σ1 Hh1 G1. change (holds σ1 V') in Hh1.
  apply does_then. assert (Hmp : does (mark_published {| SplitChild.pid := R; SplitChild.published := pb |}) σ1 (λ _ σ2, keeps V' σ1 σ2)).
  { destruct pb; [apply does_ret; reflexivity|]. by apply (does_finish V'). }
  eapply does_mono; [exact Hmp|]. intros [] σ2 K2. cbv beta in K2. apply does_then, (does_put_link self V'). intros σ3 K3.
  apply (does_put_link self V'). intros σ4 K4. assert (K : keeps V' σ1 σ4) by (etrans; [exact K2|by etrans]).
  apply HQ. eapply (published_views σ σ4 V Ts n G ks cps pos); [done|done|done|done|done|by eapply keeps_holds|].
  eapply (goes_trans 0 0); [done|by eapply keeps_goes].
Qed.
End pub.

(** ** Full parents *)

Lemma parent_known V D Ts root ls k T x :
  tower V D Ts root ls → Ts !! k = Some T → x ∈ T.*1 → (S k < length Ts)%nat →
  is_Some (D !! x) ∨ (∀ y, y ∈ T.*1 → D !! y = None) →
  ∃ G ks cps, placed Ts (S k) G ∧ V !! G = Some (InnerView ks cps) ∧ x ∈ cps.
Proof.
  intros W HT Hx Hlen Hd. destruct (lookup_lt_is_Some_2 Ts (S k) Hlen) as [T' HT'].
  destruct (tw_step _ _ _ _ _ W k T T' HT HT') as (Hs & Hh & (segs & -> & Hf)).
  assert (HxH : x ∈ (concat segs).*1).
  { clear -Hh Hx Hd. revert Hd. induction Hh as [|y l T Hs Hy Hh IH|y l1 sep r l2 T Hs Hy Hr _ Hh IH]; cbn in *; intros Hd; [done| |]; rewrite !elem_of_cons in *.
    - destruct Hx as [->|Hx]; [by left|]. right. apply IH; [done|]. destruct Hd as [|Hd]; [by left|]. right. intros z Hz. apply Hd. by right.
    - destruct Hd as [Hd|Hd]; [|rewrite (Hd y) in Hy; [done|left]]. destruct Hx as [->|[->|Hx]]; [by left|rewrite Hr in Hd; by destruct Hd|].
      right. apply IH; [done|by left]. }
  rewrite concat_pids in HxH. apply list_elem_of_In, in_concat in HxH as (cps & Hc & Hin).
  apply list_elem_of_In, list_elem_of_fmap in Hc as (seg & -> & Hseg). apply list_elem_of_lookup in Hseg as [i Hi].
  destruct (Forall2_lookup_r _ _ _ _ _ Hf Hi) as ([G l] & HG & (ks & HV & _)). cbn in HV. exists G, ks, seg.*1.
  split_and!; [|done|by apply list_elem_of_In]. exists T'. split; [done|]. apply list_elem_of_fmap. exists (G, l). split; [done|by eapply list_elem_of_lookup_2].
Qed.

Lemma parent_exists V D Ts root ls k x :
  tower V D Ts root ls → placed Ts k x → (S k < length Ts)%nat → is_Some (D !! x) →
  ∃ G ks cps, placed Ts (S k) G ∧ V !! G = Some (InnerView ks cps) ∧ x ∈ cps.
Proof. intros W (T & HT & Hx) Hlen Hd. eapply parent_known; [done|done|done|done|by left]. Qed.

Lemma weigh_ge V x v : V !! x = Some v → (weight v ≤ weigh V)%nat.
Proof. intros HV. pose proof (weigh_insert V x BlankView) as E. rewrite HV in E. cbn in E. lia. Qed.

(** The plan for a node that is not small. *)
Lemma split_plan_inner `{Build} p cs u ks :
  inner_page p cs u → seps cs = ks → (3 ≤ length ks)%nat →
  ∃ (i : nat) sep, split_plan p None = Ret (SplitAt (Z.of_nat i) sep None) ∧ ks !! i = Some sep ∧ (0 < i)%nat ∧ (S i < length ks)%nat.
Proof.
  intros P Es Hl. assert (El : length (inner_entries cs) = length ks).
  { rewrite <-Es. unfold inner_entries, seps. by rewrite !length_fmap. }
  destruct (split_plan_middle p 8 (inner_entries cs) None) as (i & e & He & Hi & Ep); [apply P|lia|done|].
  exists i, e.1. rewrite El in Hi.
  assert (0 < i)%nat by (subst i; apply Nat.div_str_pos; lia).
  assert (S i < length ks)%nat.
  { subst i. pose proof (Nat.div_mod (length ks) 2 ltac:(lia)). pose proof (Nat.mod_upper_bound (length ks) 2 ltac:(lia)). lia. }
  split_and!; [done| |done|done]. rewrite <-Es, seps_lookup, He. done.
Qed.

Section full.
Context `{Build} `{PoolOps} `{!PoolLaws} `{!WriteOps} `{!WriteLaws} (self : BTree.t).
Context (search : nat) (publish : list byte → Z → SplitChild.t → list Z → R (list Z)).
Implicit Types (σ : pool) (V : gmap Z node_view) (Ts : levels).

Definition searchable V D Ts (ls : list (Z * list entry)) : Prop := ((length Ts + cost V D) * length ls < search)%nat.

(** [publish] publishes splits whose cost is less than [c]. *)
Definition publishes_below (c : nat) : Prop :=
  ∀ σ V D Ts root ls k X sep R n path pb,
    pub σ V D Ts root ls k X sep R n → on_path Ts path → (cost V D < c)%nat → searchable V D Ts ls →
    Z.of_nat (cost V D) ≤ spare σ →
    does (publish sep X {| SplitChild.pid := R; SplitChild.published := pb |} path) σ
      (λ path' σ', published root ls D k X path' V Ts σ σ').

Lemma halved_grown V D Ts root ls k A P l B Q ks cps i l1 l2 :
  tower V D Ts root ls → Ts !! S k = Some (A ++ (P, l) :: B) → Q ∉ (concat Ts).*1 →
  grown k V Ts (halved V P Q ks cps i) (<[S k := A ++ (P, l1) :: (Q, l2) :: B]> Ts).
Proof.
  intros W HT HQ. assert (HP : placed Ts (S k) P).
  { exists (A ++ (P, l) :: B). split; [done|]. rewrite fmap_app. apply elem_of_app. right. left. }
  constructor.
  - intros j Hj. apply list_lookup_insert_ne. lia.
  - intros j x Hj Hx. unfold halved. rewrite !lookup_insert_ne; [done|..]; intros <-.
    + apply HQ, in_tower. by eexists.
    + assert (j = S k) by exact (placed_unique _ _ _ _ _ _ _ _ W Hx HP). lia.
  - intros j x (T & HTj & Hx). exists j. destruct (decide (j = k)) as [->|Hj].
    + rewrite HT in HTj. injection HTj as <-. exists (A ++ (P, l1) :: (Q, l2) :: B).
      split; [apply list_lookup_insert_eq; by apply lookup_lt_Some in HT|]. rewrite fmap_app, elem_of_app in *. cbn in *.
      rewrite !elem_of_cons in *. tauto.
    + exists T. split; [|done]. rewrite list_lookup_insert_ne by lia. done.
Qed.

(** The split of a full parent is pending one level up. *)
Lemma pub_split σ σ' V D Ts root ls k X sep R n G A l B Q ks cps (i : nat) sep' l1 l2 :
  pub σ V D Ts root ls k X sep R n → Ts !! S k = Some (A ++ (G, l) :: B) → (S (S k) < length Ts)%nat →
  V !! G = Some (InnerView ks cps) → D !! Q = None → ks !! i = Some sep' →
  let Ts' := <[S k := A ++ (G, l1) :: (Q, l2) :: B]> Ts in
  world σ' (halved V G Q ks cps i) (<[G := (sep', Q)]> D) Ts' root ls → pinned σ' G → pinned σ' Q →
  ∃ n2, pub σ' (halved V G Q ks cps i) (<[G := (sep', Q)]> D) Ts' root ls (S k) G sep' Q n2.
Proof.
  intros P HT Hlen HG HDQ Hi Ts' Hw HpG HpQ. pose proof (p_world _ _ _ _ _ _ _ _ _ _ _ P) as Hw0.
  assert (HT' : Ts' !! S k = Some (A ++ (G, l1) :: (Q, l2) :: B)) by (apply list_lookup_insert_eq; by apply lookup_lt_Some in HT).
  assert (HG' : placed Ts' (S k) G) by (eexists; split; [exact HT'|]; rewrite fmap_app; apply elem_of_app; right; left).
  destruct (parent_exists _ _ _ _ _ _ _ (w_tower _ _ _ _ _ _ Hw) HG') as (G2 & ks2 & cps2 & Hp2 & HV2 & Hin2).
  { unfold Ts'. by rewrite length_insert. }
  { rewrite lookup_insert_eq. by eexists. }
  exists (length ks2). constructor; [done|apply P|done|by rewrite lookup_insert_eq| | |done|done| |by eauto 10].
  - intros x (T & HTx & Hx) Hne. rewrite HT' in HTx. injection HTx as <-. rewrite lookup_insert_ne by done.
    rewrite fmap_app, elem_of_app in Hx. cbn in Hx. rewrite !elem_of_cons in Hx. destruct (decide (x = Q)) as [->|HxQ]; [done|].
    eapply (pub_above root ls D k X sep R σ V Ts n x (S k)); [done| |lia]. exists (A ++ (G, l) :: B). split; [done|].
    rewrite fmap_app, elem_of_app. cbn. rewrite elem_of_cons. destruct Hx as [?|[?|[?|?]]]; tauto.
  - intros x Hx. destruct (decide (x = G)) as [->|Hne]; [by exists (S k)|]. rewrite lookup_insert_ne in Hx by done.
    destruct (p_deep _ _ _ _ _ _ _ _ _ _ _ P x Hx) as (j & Hj & (T & HTj & HxT)). exists j. split; [lia|]. exists T.
    split; [|done]. unfold Ts'. rewrite list_lookup_insert_ne by lia. done.
  - pose proof (w_small _ _ _ _ _ _ Hw0 _ _ HG) as Hk. by apply (proj1 (Forall_lookup _ _) Hk i).
Qed.

(** Where the divided node is found after its parent was divided. *)
Lemma child_side (ks : list (list byte)) (cps : list Z) (i : nat) x : x ∈ cps → x ∈ take (S i) cps ∨ x ∈ drop (S i) cps.
Proof. rewrite <-(take_drop (S i) cps) at 1. by rewrite elem_of_app. Qed.

Lemma blank_not_pending σ V D Ts root ls k X sep R n Q :
  pub σ V D Ts root ls k X sep R n → Q ∉ (concat Ts).*1 → D !! Q = None.
Proof.
  intros P HQ. destruct (D !! Q) as [p|] eqn:E; [|done]. exfalso. apply HQ.
  destruct (p_deep _ _ _ _ _ _ _ _ _ _ _ P Q) as (j & _ & Hp); [by eexists|]. apply in_tower. by eexists.
Qed.

Lemma pub_blank σ σ' V D Ts root ls k X sep R n Q :
  pub σ V D Ts root ls k X sep R n → V !! Q = None → holds σ' (<[Q := BlankView]> V) → root_pid σ' = root_pid σ →
  (∀ q, pinned σ q → pinned σ' q) → pub σ' (<[Q := BlankView]> V) D Ts root ls k X sep R n.
Proof.
  intros P HQ Hh Hr Hp. pose proof (p_world _ _ _ _ _ _ _ _ _ _ _ P) as Hw.
  assert (Hne : ∀ x h, placed Ts h x → x ≠ Q).
  { intros x h Hx ->. destruct (tower_shown _ _ _ _ _ Q (w_tower _ _ _ _ _ _ Hw) (w_chain _ _ _ _ _ _ Hw)) as (v & HV & _);
      [apply in_tower; by eexists|congruence]. }
  eapply pub_next; [exact P|by eapply world_blank| |done|].
  - constructor; [done| |by eauto]. intros j x _ Hx. rewrite lookup_insert_ne; [done|]. symmetry. by eapply Hne.
  - destruct (p_parent _ _ _ _ _ _ _ _ _ _ _ P) as (G & ks & cps & HG & HV & HX & Hn). exists G, ks, cps. split_and!; [done| |done|done].
    rewrite lookup_insert_ne; [done|]. symmetry. by eapply Hne.
Qed.

(** What follows when a parent [G] was divided into [G] and [Q] and that was published. *)
Lemma postponed_split σ σ1 σ2 V D Ts root ls k X sep R n G A l B Q ks cps (i : nat) sep' l1 l2 path :
  pub σ V D Ts root ls k X sep R n → V !! Q = None → let V1 := <[Q := BlankView]> V in
  Ts !! S k = Some (A ++ (G, l) :: B) → V !! G = Some (InnerView ks cps) → X ∈ cps → (0 < i)%nat → (S i < length ks)%nat →
  D !! G = None →
  let Ts' := <[S k := A ++ (G, l1) :: (Q, l2) :: B]> Ts in let V' := halved V1 G Q ks cps i in
  goes 1 σ σ1 → published root ls (<[G := (sep', Q)]> D) (S k) G path V' Ts' σ1 σ2 →
  postponed root ls D k X sep R 1 path V Ts n σ σ2.
Proof.
  intros P HQ V1 HT HG HX H0i Hil HDG Ts' V' G1 (V2 & Ts2 & Hw2 & Gr & Hpath & Hc2 & Hl2 & G2).
  pose proof (p_world _ _ _ _ _ _ _ _ _ _ _ P) as Hw. rewrite delete_insert_id in * by done.
  assert (HQG : G ≠ Q) by congruence.
  assert (HGp : placed Ts (S k) G) by (eexists; split; [exact HT|]; rewrite fmap_app; apply elem_of_app; right; left).
  assert (HQo : Q ∉ (concat Ts).*1).
  { intros Hin. destruct (tower_shown _ _ _ _ _ Q (w_tower _ _ _ _ _ _ Hw) (w_chain _ _ _ _ _ _ Hw) Hin) as (v & HV & _). congruence. }
  assert (Hcost : (cost V' (<[G := (sep', Q)]> D) + 1 = cost V D)%nat).
  { unfold V'. rewrite cost_pending by done. unfold cost.
    pose proof (halved_weigh V1 G Q ks cps i) as E. unfold V1 in E at 4. rewrite weigh_blank in E by done.
    rewrite <-E; [lia| |by apply lookup_insert_eq|done|done]. unfold V1. by rewrite lookup_insert_ne. }
  assert (Gk : grown k V Ts V2 Ts2).
  { eapply grown_trans; [|eapply grown_le; [exact Gr|lia]].
    eapply (grown_trans _ _ _ V1 Ts).
    - constructor; [done| |by eauto]. intros j x _ Hx. unfold V1. rewrite lookup_insert_ne; [done|]. intros <-. apply HQo, in_tower. by eexists.
    - eapply (halved_grown V1 D Ts root ls); [|exact HT|done]. eapply tower_ext; [apply Hw|]. intros x Hx. unfold V1.
      rewrite lookup_insert_ne; [done|]. by intros <-. }
  assert (Hlt : length Ts' = length Ts) by (unfold Ts'; by rewrite length_insert).
  destruct (parent_count root ls D k X sep R σ V Ts n G ks cps k P HGp HG HX) as [_ Hn].
  assert (HT' : Ts' !! S k = Some (A ++ (G, l1) :: (Q, l2) :: B)) by (apply list_lookup_insert_eq; by apply lookup_lt_Some in HT).
  assert (HG' : placed Ts' (S k) G) by (eexists; split; [exact HT'|]; rewrite fmap_app; apply elem_of_app; right; left).
  assert (HQ' : placed Ts' (S k) Q) by (eexists; split; [exact HT'|]; rewrite fmap_app; apply elem_of_app; right; right; left).
  assert (∃ n', (n' + 1 ≤ n)%nat ∧ ∃ G' ks' cps', placed Ts2 (S k) G' ∧ V2 !! G' = Some (InnerView ks' cps') ∧ X ∈ cps' ∧ length ks' = n')
    as (n' & Hn' & Hpar).
  { destruct (child_side ks cps i X HX) as [Hs|Hs].
    - exists i. split; [lia|]. exists G, (take i ks), (take (S i) cps).
      rewrite (g_view _ _ _ _ _ Gr (S k) G) by done. split_and!; [by apply (grown_placed _ _ _ _ _ (S k) G Gr)| |done|rewrite length_take; lia].
      unfold V', halved. by rewrite lookup_insert_eq.
    - exists (length ks - S i)%nat. split; [lia|]. exists Q, (drop (S i) ks), (drop (S i) cps).
      rewrite (g_view _ _ _ _ _ Gr (S k) Q) by done. split_and!; [by apply (grown_placed _ _ _ _ _ (S k) Q Gr)| |done|by rewrite length_drop].
      unfold V', halved. by rewrite lookup_insert_ne, lookup_insert_eq. }
  exists V2, Ts2, n'. split_and!; [|done|done|lia|done|lia|].
  - eapply pub_next; [exact P|done|exact Gk| |done]. intros q Hq. apply G2, G1, Hq.
  - eapply goes_le; [eapply goes_trans; [exact G1|exact G2]|]. lia.
Qed.

Lemma level_of (Ts : levels) (k : nat) G : placed Ts k G → ∃ A l B, Ts !! k = Some (A ++ (G, l) :: B).
Proof. intros (T & HT & (A & l & B & ->)%in_level). by exists A, l, B. Qed.

Lemma below_root V D Ts root ls k G :
  tower V D Ts root ls → placed Ts k G → G ≠ root → (S k < length Ts)%nat.
Proof.
  intros W (T & HT & Hx) Hne. pose proof (lookup_lt_Some _ _ _ HT) as Hl. destruct (decide (S k = length Ts)) as [E|]; [|lia].
  pose proof (tw_top _ _ _ _ _ W) as Htop. rewrite last_lookup, <-E in Htop. cbn in Htop. rewrite HT in Htop. injection Htop as ->.
  cbn in Hx. apply list_elem_of_singleton in Hx. done.
Qed.

Lemma split_full_inner_spec c σ V D Ts root ls k X sep R n G ks cps path (Q : list Z * bool → pool → Prop) :
  publishes_below c → pub σ V D Ts root ls k X sep R n → on_path Ts path → (cost V D ≤ c)%nat → searchable V D Ts ls →
  Z.of_nat (cost V D) ≤ spare σ →
  placed Ts (S k) G → V !! G = Some (InnerView ks cps) → X ∈ cps → G ≠ root → (∀ cs, seps cs = ks → ¬ sep_fits cs sep) →
  (∀ path' b σ', postponed root ls D k X sep R 1 path' V Ts n σ σ' → Q (path', b) σ') →
  does (split_full_inner_after_release self publish G (zlen sep) path) σ Q.
Proof.
  intros Hpub P Hpath Hc Hsearch Hsp HGp HG HX Hne Hfull HQ. pose proof (p_world _ _ _ _ _ _ _ _ _ _ _ P) as Hw.
  assert (Hks : (3 ≤ length ks)%nat).
  { destruct (holds_inner V σ G ks cps (w_holds _ _ _ _ _ _ Hw) HG) as (cs & u & _ & Es & _).
    rewrite <-Es. unfold seps. rewrite length_fmap. apply (full_inner cs sep); [|apply P|by apply Hfull].
    rewrite Es. apply (w_small _ _ _ _ _ _ Hw _ _ HG). }
  pose proof (weigh_ge V G _ HG) as Hwt. cbn in Hwt. unfold split_full_inner_after_release.
  apply does_then. eapply (does_allocate V); [apply Hw|unfold cost in Hsp; lia|]. intros sib σ1 HS HpS Hh1 G1.
  set (V1 := <[sib := BlankView]> V) in *. assert (P1 : pub σ1 V1 D Ts root ls k X sep R n) by (eapply pub_blank; [done|done|done|apply G1|apply G1]).
  assert (HG1 : V1 !! G = Some (InnerView ks cps)) by (unfold V1; rewrite lookup_insert_ne; [done|congruence]).
  apply does_then. eapply (does_fix_orphan V1); [done|by eexists|]. intros σ2 K2 HpG.
  assert (P2 : pub σ2 V1 D Ts root ls k X sep R n) by (by eapply pub_keeps). pose proof (p_world _ _ _ _ _ _ _ _ _ _ _ P2) as Hw2.
  destruct (holds_inner V1 σ2 G ks cps (w_holds _ _ _ _ _ _ Hw2) HG1) as (cs & u & Pg & Es & Hfc).
  assert (Hcan : BTreeNode.can_insert_inner (page_bytes σ2 G) (zlen sep) = false).
  { destruct (BTreeNode.can_insert_inner _ _) eqn:E; [|done]. exfalso. apply (Hfull cs Es).
    by apply (can_insert_separator_spec (ExclusiveNode.new true (page_bytes σ2 G)) cs u sep (guard_inner true _ _ _ Pg)). }
  apply does_latched. rewrite (inner_flag _ _ _ Pg), Hcan. cbn [orb].
  destruct (split_plan_inner _ cs u ks Pg Es Hks) as (i & sep' & Ep & Hi & H0i & Hil).
  assert (Hrs : is_Some (V1 !! root_pid σ2)).
  { rewrite (w_root _ _ _ _ _ _ Hw2). destruct (tower_shown _ _ _ _ _ root (w_tower _ _ _ _ _ _ Hw2) (w_chain _ _ _ _ _ _ Hw2)) as (v & -> & _); [|by eexists].
    apply in_tower. exists (pred (length Ts)), [(root, ls)]. split; [rewrite <-last_lookup; apply Hw2|left]. }
  apply does_then. apply does_latched, does_then. apply (does_root_page_id V1); [apply Hw2|done|].
  rewrite (w_root _ _ _ _ _ _ Hw2). rewrite (proj2 (Z.eqb_neq root G)) by congruence.
  eapply does_lift_bind; [exact Ep|]. cbv beta iota.
  destruct (level_of Ts (S k) G HGp) as (A & l & B & HT).
  pose proof (below_root _ _ _ _ _ _ _ (w_tower _ _ _ _ _ _ Hw) HGp Hne) as Hlen.
  assert (HDS : D !! sib = None) by (eapply blank_not_pending; [exact P2|]; eapply blank_outside; [exact Hw2|by apply lookup_insert_eq]).
  assert (HDG : D !! G = None) by (eapply (pub_above root ls D k X sep R σ V Ts n G (S k)); [done|done|lia]).
  apply does_then. eapply (split_inner_below self publish σ2 V1 D Ts root ls k A G l B sib ks cps path i sep'); try done.
  { by apply lookup_insert_eq. }
  { intros x Hx. eapply (pub_above root ls D k X sep R σ V Ts n x (S k)); [done|by eexists|lia]. }
  intros σ3 l1 l2 El Hw3 G3. assert (HpG3 : pinned σ3 G) by (by apply G3). assert (HpS3 : pinned σ3 sib) by (by apply G3, K2).
  destruct (pub_split σ2 σ3 V1 D Ts root ls k X sep R n G A l B sib ks cps i sep' l1 l2 P2 HT Hlen HG1 HDS Hi Hw3 HpG3 HpS3) as (n2 & P3).
  assert (Hcost : (cost (halved V1 G sib ks cps i) (<[G := (sep', sib)]> D) + 1 = cost V D)%nat).
  { rewrite cost_pending by done. unfold cost. pose proof (halved_weigh V1 G sib ks cps i HG1) as E. unfold V1 in E at 3. rewrite weigh_blank in E by done.
    rewrite <-E; [lia|by apply lookup_insert_eq|done|done]. }
  assert (G13 : goes 1 σ σ3).
  { eapply goes_le; [eapply goes_trans; [exact G1|eapply goes_trans; [by eapply keeps_goes|exact G3]]|lia]. }
  eapply does_mono; [eapply (Hpub _ _ _ _ _ _ _ _ _ _ _ path false P3)|].
  - eapply on_path_grown; [|exact Hpath]. eapply (halved_grown V1 D Ts root ls k A G l B sib ks cps i); [apply Hw2|exact HT|]. eapply blank_outside; [exact Hw2|by apply lookup_insert_eq].
  - lia.
  - unfold searchable in *. rewrite length_insert. nia.
  - destruct G13 as (_ & _ & _ & _ & ?). lia.
  - intros path' σ4 Hp4. cbv beta in Hp4. apply does_ret. cbn [fst]. apply does_ret. apply HQ.
    eapply (postponed_split σ σ3 σ4 V D Ts root ls k X sep R n G A l B sib ks cps i sep' l1 l2); done.
Qed.

Lemma root_top V D Ts root ls k :
  tower V D Ts root ls → placed Ts k root → ∃ Ts0, Ts = Ts0 ++ [[(root, ls)]] ∧ length Ts0 = k.
Proof.
  intros W Hp. pose proof (tw_top _ _ _ _ _ W) as Ht. destruct Ts as [|T Ts _] using rev_ind; [done|].
  rewrite last_snoc in Ht. injection Ht as ->. exists Ts. split; [done|].
  eapply (placed_unique _ _ _ _ _ _ _ root W); [|exact Hp]. exists [(root, ls)].
  split; [by rewrite lookup_app_r, Nat.sub_diag by lia|left].
Qed.

(** The levels below the root stay when it is divided. *)
Lemma root_grown V D Ts0 root ls a b ks cps (i : nat) sep l1 l2 k :
  tower V D (Ts0 ++ [[(root, ls)]]) root ls → length Ts0 = S k →
  a ∉ (concat (Ts0 ++ [[(root, ls)]])).*1 → b ∉ (concat (Ts0 ++ [[(root, ls)]])).*1 →
  grown k V (Ts0 ++ [[(root, ls)]]) (root_halved V root a b ks cps i sep) (Ts0 ++ [[(a, l1); (b, l2)]; [(root, ls)]]).
Proof.
  intros W Hl Ha Hb. constructor.
  - intros j Hj. by rewrite !lookup_app_l by lia.
  - intros j x Hj Hx. unfold root_halved, halved. rewrite !lookup_insert_ne; [done|..]; intros <-.
    + apply Hb, in_tower. by eexists.
    + apply Ha, in_tower. by eexists.
    + assert (placed (Ts0 ++ [[(root, ls)]]) (S k) root).
      { exists [(root, ls)]. rewrite lookup_app_r, <-Hl, Nat.sub_diag by lia. split; [done|left]. }
      assert (j = S k) by (by eapply (placed_unique _ _ _ _ _ _ _ root W)). lia.
  - intros j x (T & HT & Hx). destruct (decide (S j < length Ts0)%nat) as [Hj|Hj].
    + exists j, T. rewrite lookup_app_l in HT by lia. by rewrite lookup_app_l by lia.
    + pose proof (lookup_lt_Some _ _ _ HT) as Hlt. rewrite length_app in Hlt. cbn in Hlt. assert (S j = length Ts0) as E by lia.
      rewrite lookup_app_r, E, Nat.sub_diag in HT by lia. injection HT as <-.
      exists (S j), [(root, ls)]. split; [|done]. rewrite lookup_app_r, E by lia. by replace (S (length Ts0) - length Ts0)%nat with 1%nat by lia.
Qed.

Lemma postponed_root σ σ1 V D Ts0 root ls k X sep R n a b ks cps (i : nat) sep' l1 l2 path :
  let Ts := Ts0 ++ [[(root, ls)]] in
  pub σ V D Ts root ls k X sep R n → length Ts0 = S k → on_path Ts path → V !! a = None → V !! b = None → a ≠ b →
  let V2 := <[b := BlankView]> (<[a := BlankView]> V) in
  V !! root = Some (InnerView ks cps) → X ∈ cps → (0 < i)%nat → (S i < length ks)%nat →
  world σ1 (root_halved V2 root b a ks cps i sep') D (Ts0 ++ [[(b, l1); (a, l2)]; [(root, ls)]]) root ls → goes 2 σ σ1 →
  postponed root ls D k X sep R 1 path V Ts n σ σ1.
Proof.
  intros Ts P Hl Hpath Ha Hb Hab V2 HG HX H0i Hil Hw1 G1. pose proof (p_world _ _ _ _ _ _ _ _ _ _ _ P) as Hw.
  assert (Hout : ∀ q, V !! q = None → q ∉ (concat Ts).*1).
  { intros q Hq Hin. destruct (tower_shown _ _ _ _ _ q (w_tower _ _ _ _ _ _ Hw) (w_chain _ _ _ _ _ _ Hw) Hin) as (v & HV & _). congruence. }
  assert (HV2 : ∀ x, x ∈ (concat Ts).*1 → V2 !! x = V !! x).
  { intros x Hx. unfold V2. rewrite !lookup_insert_ne; [done|..]; intros <-; [exact (Hout _ Ha Hx)|exact (Hout _ Hb Hx)]. }
  assert (Hrp : placed Ts (S k) root) by (exists [(root, ls)]; unfold Ts; rewrite lookup_app_r, <-Hl, Nat.sub_diag by lia; split; [done|left]).
  assert (HG2 : V2 !! root = Some (InnerView ks cps)) by (rewrite HV2; [done|apply in_tower; by eexists]).
  assert (Gk : grown k V Ts (root_halved V2 root b a ks cps i sep') (Ts0 ++ [[(b, l1); (a, l2)]; [(root, ls)]])).
  { eapply (grown_trans _ _ _ V2 Ts).
    - constructor; [done| |by eauto]. intros j x _ Hx. apply HV2, in_tower. by eexists.
    - eapply (root_grown V2 D); [|done|by apply Hout|by apply Hout]. eapply tower_ext; [apply Hw|done]. }
  assert (Hcost : (cost (root_halved V2 root b a ks cps i sep') D + 2 = cost V D)%nat).
  { rewrite (root_halved_cost V2 D root b a ks cps i sep'); [|done| | |done|done|done].
    - unfold cost, V2. rewrite !weigh_blank; [done|done|]. by rewrite lookup_insert_ne.
    - unfold V2. by apply lookup_insert_eq.
    - unfold V2. rewrite lookup_insert_ne by done. by apply lookup_insert_eq. }
  destruct (parent_count root ls D k X sep R σ V Ts n root ks cps k P Hrp HG HX) as [_ Hn].
  assert (HTk : (Ts0 ++ [[(b, l1); (a, l2)]; [(root, ls)]]) !! S k = Some [(b, l1); (a, l2)]) by (by rewrite lookup_app_r, Hl, Nat.sub_diag by lia).
  assert (Hbr : root ≠ b) by congruence. assert (Har : root ≠ a) by congruence.
  assert (∃ n', (n' + 1 ≤ n)%nat ∧ ∃ G' ks' cps', placed (Ts0 ++ [[(b, l1); (a, l2)]; [(root, ls)]]) (S k) G' ∧
    root_halved V2 root b a ks cps i sep' !! G' = Some (InnerView ks' cps') ∧ X ∈ cps' ∧ length ks' = n') as (n' & Hn' & Hpar).
  { destruct (child_side ks cps i X HX) as [Hs|Hs].
    - exists i. split; [lia|]. exists b, (take i ks), (take (S i) cps). split_and!; [eexists; split; [exact HTk|left]| |done|rewrite length_take; lia].
      unfold root_halved, halved. by rewrite lookup_insert_ne, lookup_insert_eq.
    - exists (length ks - S i)%nat. split; [lia|]. exists a, (drop (S i) ks), (drop (S i) cps).
      split_and!; [eexists; split; [exact HTk|right; left]| |done|by rewrite length_drop].
      unfold root_halved, halved. by rewrite lookup_insert_ne, lookup_insert_ne, lookup_insert_eq. }
  exists (root_halved V2 root b a ks cps i sep'), (Ts0 ++ [[(b, l1); (a, l2)]; [(root, ls)]]), n'. split_and!; [|done| |lia|done| |].
  - eapply pub_next; [exact P|done|exact Gk|apply G1|done].
  - by eapply on_path_grown.
  - unfold Ts. rewrite !length_app. cbn. lia.
  - eapply goes_le; [exact G1|]. lia.
Qed.

Lemma split_full_root_spec σ V D Ts root ls k X sep R n ks cps path (Q : list Z * bool → pool → Prop) :
  pub σ V D Ts root ls k X sep R n → on_path Ts path → Z.of_nat (cost V D) ≤ spare σ →
  placed Ts (S k) root → V !! root = Some (InnerView ks cps) → X ∈ cps → (∀ cs, seps cs = ks → ¬ sep_fits cs sep) →
  (∀ path' b σ', postponed root ls D k X sep R 1 path' V Ts n σ σ' → Q (path', b) σ') →
  does (split_full_root_after_release self publish root path) σ Q.
Proof.
  intros P Hpath Hsp HGp HG HX Hfull HQ. pose proof (p_world _ _ _ _ _ _ _ _ _ _ _ P) as Hw.
  assert (Hks : (3 ≤ length ks)%nat).
  { destruct (holds_inner V σ root ks cps (w_holds _ _ _ _ _ _ Hw) HG) as (cs & u & _ & Es & _).
    rewrite <-Es. unfold seps. rewrite length_fmap. apply (full_inner cs sep); [|apply P|by apply Hfull].
    rewrite Es. apply (w_small _ _ _ _ _ _ Hw _ _ HG). }
  pose proof (weigh_ge V root _ HG) as Hwt. cbn in Hwt. unfold split_full_root_after_release.
  apply does_then. eapply (does_allocate V); [apply Hw|unfold cost in Hsp; lia|]. intros a σ1 Ha Hpa Hh1 G1.
  assert (P1 : pub σ1 (<[a := BlankView]> V) D Ts root ls k X sep R n) by (eapply pub_blank; [done|done|done|apply G1|apply G1]).
  apply does_then. eapply does_allocate; [apply P1|destruct G1 as (_ & _ & _ & _ & ?); unfold cost in Hsp; lia|]. intros b σ2 Hb Hpb Hh2 G2.
  set (V2 := <[b := BlankView]> _) in *. assert (Hab : b ≠ a) by (intros ->; by rewrite lookup_insert_eq in Hb).
  assert (P2 : pub σ2 V2 D Ts root ls k X sep R n) by (eapply pub_blank; [exact P1|done|done|apply G2|apply G2]).
  rewrite lookup_insert_ne in Hb by done.
  assert (HG2 : V2 !! root = Some (InnerView ks cps)) by (unfold V2; rewrite !lookup_insert_ne; [done|congruence|congruence]).
  apply does_then, (does_fix_stable V2). intros σ3 K3 _. rewrite (w_root _ _ _ _ _ _ (p_world _ _ _ _ _ _ _ _ _ _ _ P2)).
  assert (P3 : pub σ3 V2 D Ts root ls k X sep R n) by (by eapply pub_keeps). pose proof (p_world _ _ _ _ _ _ _ _ _ _ _ P3) as Hw3.
  rewrite Z.eqb_refl. cbn [negb].
  destruct (holds_inner V2 σ3 root ks cps (w_holds _ _ _ _ _ _ Hw3) HG2) as (cs & u & Pg & Es & Hfc).
  destruct (split_plan_inner _ cs u ks Pg Es Hks) as (i & sep' & Ep & Hi & H0i & Hil).
  apply does_then. apply does_latched, does_then. apply (does_root_page_id V2); [apply Hw3|rewrite (w_root _ _ _ _ _ _ Hw3); by eexists|].
  rewrite (w_root _ _ _ _ _ _ Hw3), Z.eqb_refl. eapply does_lift_bind; [exact Ep|]. cbv beta iota.
  destruct (root_top _ _ _ _ _ _ (w_tower _ _ _ _ _ _ Hw) HGp) as (Ts0 & -> & Hl0).
  assert (Hva : V2 !! a = Some BlankView) by (unfold V2; rewrite lookup_insert_ne by done; by apply lookup_insert_eq).
  assert (Hvb : V2 !! b = Some BlankView) by (unfold V2; by apply lookup_insert_eq).
  apply does_then. eapply (split_root_inner_world self σ3 V2 D Ts0 root ls ks cps b a i sep'); try done.
  { by destruct Ts0. }
  { eapply blank_not_pending; [exact P3|by eapply blank_outside]. }
  { eapply blank_not_pending; [exact P3|by eapply blank_outside]. }
  { by apply K3. }
  { by apply K3, G2. }
  intros σ4 l1 l2 El Hw4 G4. apply does_ret. cbn [fst]. apply does_ret, HQ.
  eapply (postponed_root σ σ4 V D Ts0 root ls k X sep R n a b); try done.
  eapply goes_le; [eapply goes_trans; [exact G1|eapply goes_trans; [exact G2|eapply goes_trans; [by eapply keeps_goes|exact G4]]]|lia].
Qed.
End full.
