(* ===== verification/BTreeSearchParent.v ===== *)
(** * B-tree: the searches for a parent

    The four ways in which the publication of a split looks for the parent.
    The last one, which waits for every latch, always finds it. *)

From S2P Require Import Prelude Bytes FrameKernel SwipKernel PageHeader PageMutation Slotted SlottedInv SlottedOps SlottedSearch SlottedMutation SlottedSpec BufferFrame BTreeNode BTreeNodeInv BTreePages BTreeSplitSpec BTreeInnerSpec BTreeRoute BTreeNodeSpec BTreePool BTreeRead BTreeTree BTreeGrow BTreeReadSpec BTreeWrite BTreeDescent BTreeWorld BTreePublish.
#[local] Open Scope Z_scope.
Import SlottedHeader SlottedPage.

(** ** How much there is to visit

    A node counts for the leaves below it, once for every level from it
    down. *)

Definition load (Ts : levels) (x : Z) (w : nat) : Prop := ∃ j T l, Ts !! j = Some T ∧ (x, l) ∈ T ∧ w = (S j * length l)%nat.
Definition loads (Ts : levels) (xs : list Z) (w : nat) : Prop := ∃ ws, Forall2 (load Ts) xs ws ∧ sum_list ws = w.

Lemma load_placed Ts x w : load Ts x w → ∃ j, placed Ts j x.
Proof. intros (j & T & l & HT & Hx & _). exists j, T. split; [done|]. apply list_elem_of_fmap. by exists (x, l). Qed.

Lemma load_pos V D Ts root ls x w : tower V D Ts root ls → load Ts x w → (0 < w)%nat.
Proof.
  intros W (j & T & l & HT & Hx & ->). pose proof (tower_nonempty _ _ _ _ _ W j T HT _ Hx) as Hne. cbn in Hne. destruct l; [done|]. cbn. lia.
Qed.

Lemma hangs_cover D T Hs x l : hangs D T Hs → (x, l) ∈ Hs → ∃ l', (x, l') ∈ T ∧ (length l' ≤ length l)%nat.
Proof.
  induction 1 as [|y m T Hs _ _ IH|y m1 sep r m2 T Hs _ _ _ _ IH]; [by intros ?%not_elem_of_nil| |];
    intros [[= -> ->]|Hin]%elem_of_cons.
  - exists m. split; [left|done].
  - destruct (IH Hin) as (l' & ? & ?). exists l'. split; [by right|done].
  - exists m1. split; [left|]. rewrite length_app. lia.
  - destruct (IH Hin) as (l' & ? & ?). exists l'. split; [by do 2 right|done].
Qed.

Lemma seg_loads D Ts j T Hs (seg : list (Z * list (Z * list entry))) :
  Ts !! j = Some T → hangs D T Hs → (∀ t, t ∈ seg → t ∈ Hs) →
  ∃ ws, Forall2 (load Ts) seg.*1 ws ∧ (sum_list ws ≤ S j * length (concat seg.*2))%nat.
Proof.
  intros HT Hh. induction seg as [|[x l] seg IH]; intros Hin; [exists []; split; [constructor|cbn; lia]|].
  destruct IH as (ws & Hf & Hs'); [intros t ?; apply Hin; by right|].
  destruct (hangs_cover _ _ _ _ _ Hh (Hin (x, l) ltac:(left))) as (l' & Hx & Hl).
  exists ((S j * length l') :: ws)%nat. split; [constructor; [by exists j, T, l'|done]|]. rewrite fmap_cons. cbn [concat snd].
  change (sum_list ((S j * length l')%nat :: ws)) with (S j * length l' + sum_list ws)%nat. rewrite length_app, Nat.mul_add_distr_l.
  apply Nat.add_le_mono; [by apply Nat.mul_le_mono_l|done].
Qed.

Lemma children_load V D Ts root ls G w ks cps :
  tower V D Ts root ls → chained V ls → load Ts G w → V !! G = Some (InnerView ks cps) →
  ∃ ws, Forall2 (load Ts) cps ws ∧ (sum_list ws < w)%nat.
Proof.
  intros W Hc HL HV. pose proof (load_pos _ _ _ _ _ _ _ W HL) as Hpos. destruct HL as (j & T' & l & HT' & Hx & ->). destruct j as [|j].
  { assert (placed Ts 0 G) as Hp by (exists T'; split; [done|]; apply list_elem_of_fmap; by exists (G, l)).
    destruct (tower_node _ _ _ _ _ _ _ W Hc Hp) as (l' & r & es & HV' & _). congruence. }
  destruct (Ts !! j) as [T|] eqn:HT; [|apply lookup_ge_None in HT; apply lookup_lt_Some in HT'; lia].
  destruct (tw_step _ _ _ _ _ W j T T' HT HT') as (Hs & Hh & HLv). apply list_elem_of_split in Hx as (A & B & ->).
  destruct (level_node V Hs A G l B HLv) as (sA & seg & sB & ks' & EH & _ & _ & HV' & _ & El & _).
  rewrite HV in HV'. injection HV' as <- ->.
  destruct (seg_loads D Ts j T Hs seg HT Hh) as (ws & Hf & Hs').
  { intros t Ht. rewrite EH, !elem_of_app. auto. }
  exists ws. split; [done|]. rewrite <-El in Hs'. rewrite (Nat.mul_succ_l (S j)) in *. destruct l as [|f l]; [cbn in Hpos; lia|]. cbn [length] in *. lia.
Qed.

Lemma loads_cons Ts x xs w : loads Ts (x :: xs) w ↔ ∃ w1 w2, load Ts x w1 ∧ loads Ts xs w2 ∧ w = (w1 + w2)%nat.
Proof.
  split.
  - intros (ws & Hf & <-). apply Forall2_cons_inv_l in Hf as (w1 & ws' & Hx & Hf & ->). exists w1, (sum_list ws'). split_and!; [done|by exists ws'|done].
  - intros (w1 & w2 & Hx & (ws & Hf & <-) & ->). exists (w1 :: ws). split; [by constructor|done].
Qed.

Lemma loads_app Ts xs ys w1 w2 : loads Ts xs w1 → loads Ts ys w2 → loads Ts (xs ++ ys) (w1 + w2).
Proof. intros (ws1 & Hf1 & <-) (ws2 & Hf2 & <-). exists (ws1 ++ ws2). split; [by apply Forall2_app|by rewrite sum_list_with_app]. Qed.

Lemma sublist_reversed {A} (l1 l2 : list A) : l1 `sublist_of` l2 → reverse l1 `sublist_of` reverse l2.
Proof.
  induction 1 as [|x l1 l2 _ IH|x l1 l2 _ IH]; [done| |]; rewrite ?reverse_cons; [by apply sublist_app|by apply sublist_inserts_r].
Qed.

Lemma loads_sublist Ts xs ys w : xs `sublist_of` ys → loads Ts ys w → ∃ w', loads Ts xs w' ∧ (w' ≤ w)%nat.
Proof.
  intros Hs. revert w. induction Hs as [|x xs ys Hs IH|x xs ys Hs IH]; intros w.
  - intros Hl. by exists w.
  - intros (w1 & w2 & Hx & Hl & ->)%loads_cons. destruct (IH w2 Hl) as (w' & Hl' & Hle). exists (w1 + w')%nat. split; [|lia].
    apply loads_cons. by exists w1, w'.
  - intros (w1 & w2 & Hx & Hl & ->)%loads_cons. destruct (IH w2 Hl) as (w' & Hl' & Hle). exists w'. split; [done|lia].
Qed.

Section tries.
Context `{Build} `{PoolOps} `{!PoolLaws} `{!WriteOps} `{!WriteLaws} (self : BTree.t).
Context (search : nat) (publish : list byte → Z → SplitChild.t → list Z → R (list Z)) (c : nat).
Context (Hpub : publishes_below search publish c).
Context (root : Z) (ls : list (Z * list entry)) (D : gmap Z (list byte * Z)) (k : nat) (X : Z) (sep : list byte) (R : Z) (pb : bool).
Implicit Types (σ : pool) (V : gmap Z node_view) (Ts : levels).

#[local] Notation right := {| SplitChild.pid := R; SplitChild.published := pb |}.

(** The state in which a search starts. *)
Record ready σ V Ts (n : nat) (path : list Z) : Prop := {
  r_pub : pub σ V D Ts root ls k X sep R n;
  r_path : on_path Ts path;
  r_cost : (cost V D ≤ c)%nat;
  r_search : searchable search V D Ts ls;
  r_spare : Z.of_nat (cost V D) ≤ spare σ;
}.

Definition tried (s : nat) (path : list Z) V Ts n (done : bool) σ σ' : Prop :=
  if done then published root ls D k X path V Ts σ σ' else postponed root ls D k X sep R s path V Ts n σ σ'.

Lemma ready_keeps σ σ' V Ts n path : keeps V σ σ' → ready σ V Ts n path → ready σ' V Ts n path.
Proof. intros K [P Hp Hc Hs Hsp]. constructor; [by eapply pub_keeps|done|done|done|]. destruct K as (_ & _ & _ & _ & _ & ?). lia. Qed.

Lemma ready_path σ V Ts n path path' : ready σ V Ts n path → on_path Ts path' → ready σ V Ts n path'.
Proof. by intros []. Qed.

Lemma ready_postponed s σ σ' V Ts n path path' :
  ready σ V Ts n path → postponed root ls D k X sep R s path' V Ts n σ σ' →
  ∃ V' Ts' n', ready σ' V' Ts' n' path' ∧ grown k V Ts V' Ts' ∧ (cost V' D + s ≤ cost V D)%nat ∧ (n' + s ≤ n)%nat ∧
    (length Ts' + cost V' D ≤ length Ts + cost V D)%nat ∧ goes (Z.of_nat (cost V D) - Z.of_nat (cost V' D)) σ σ'.
Proof.
  intros [P Hp Hc Hs Hsp] (V' & Ts' & n' & P' & G & Hp' & Hc' & Hn' & Hl' & G'). exists V', Ts', n'. split_and!; [|done|done|done|done|done].
  constructor; [done|done|lia|unfold searchable in *; nia|]. destruct G' as (_ & _ & _ & _ & ?). lia.
Qed.

Lemma postponed_keeps σ σ' V Ts n path : keeps V σ σ' → ready σ V Ts n path → postponed root ls D k X sep R 0 path V Ts n σ σ'.
Proof.
  intros K [P Hp _ _ _]. exists V, Ts, n. split_and!; [by eapply pub_keeps|apply grown_same|done|lia|lia|done|].
  eapply goes_le; [by eapply keeps_goes|lia].
Qed.

Lemma postponed_weaken s σ σ' V Ts n path :
  postponed root ls D k X sep R s path V Ts n σ σ' → postponed root ls D k X sep R 0 path V Ts n σ σ'.
Proof. intros (V' & Ts' & n' & P' & G & Hp' & Hc' & Hn' & Hl' & G'). exists V', Ts', n'. split_and!; [done|done|done|lia|lia|done|done]. Qed.

Lemma tried_weaken s path V Ts n b σ σ' : tried s path V Ts n b σ σ' → tried 0 path V Ts n b σ σ'.
Proof. destruct b; [done|]. apply postponed_weaken. Qed.

(** A step that keeps the tree, before a search. *)
Lemma postponed_after s σ σ1 σ' V Ts n path :
  keeps V σ σ1 → postponed root ls D k X sep R s path V Ts n σ1 σ' → postponed root ls D k X sep R s path V Ts n σ σ'.
Proof.
  intros K (V' & Ts' & n' & P' & G & Hp' & Hc' & Hn' & Hl' & G'). exists V', Ts', n'. split_and!; try done.
  eapply goes_le; [eapply goes_trans; [by eapply keeps_goes|exact G']|lia].
Qed.
Lemma published_after σ σ1 σ' V Ts path :
  keeps V σ σ1 → published root ls D k X path V Ts σ1 σ' → published root ls D k X path V Ts σ σ'.
Proof.
  intros K (V' & Ts' & Hw & G & Hp' & Hc' & Hl' & G'). exists V', Ts'. split_and!; try done.
  eapply goes_le; [eapply goes_trans; [by eapply keeps_goes|exact G']|lia].
Qed.
Lemma tried_after s σ σ1 σ' V Ts n path b : keeps V σ σ1 → tried s path V Ts n b σ1 σ' → tried s path V Ts n b σ σ'.
Proof. intros K. destruct b; [by apply published_after|by apply postponed_after]. Qed.

(** ** A parent that was found *)

Lemma root_shown σ V Ts n : pub σ V D Ts root ls k X sep R n → ∃ ks cps j, V !! root = Some (InnerView ks cps) ∧ placed Ts (S j) root.
Proof.
  intros P. pose proof (p_world _ _ _ _ _ _ _ _ _ _ _ P) as Hw. destruct (p_parent _ _ _ _ _ _ _ _ _ _ _ P) as (G & _ & _ & (T & HT & _) & _).
  pose proof (lookup_lt_Some _ _ _ HT) as Hl. pose proof (tw_top _ _ _ _ _ (w_tower _ _ _ _ _ _ Hw)) as Ht. rewrite last_lookup in Ht.
  assert (Hp : placed Ts (S (length Ts - 2)) root).
  { exists [(root, ls)]. split; [|left]. by replace (S (length Ts - 2)) with (pred (length Ts)) by lia. }
  destruct (tower_node _ _ _ _ _ _ _ (w_tower _ _ _ _ _ _ Hw) (w_chain _ _ _ _ _ _ Hw) Hp) as (ks & cps & HV & _). by exists ks, cps, (length Ts - 2)%nat.
Qed.

Lemma publish_or_split_spec is_root σ V Ts n G ks cps cs u (pos : nat) path (Q : list Z * bool → pool → Prop) :
  ready σ V Ts n path → (∃ j, placed Ts (S j) G) → V !! G = Some (InnerView ks cps) → cps !! pos = Some X →
  inner_page (page_bytes σ G) cs u → seps cs = ks → Forall2 (λ w c, word_target σ w = Some c) (children cs u) cps →
  does (is_root G) σ (λ r σ', r = (root =? G) ∧ σ' = σ) →
  (∀ path' b σ', tried 1 path' V Ts n b σ σ' → Q (path', b) σ') →
  does (publish_or_split self publish is_root G (page_bytes σ G) sep X right path (edge_at cs pos)) σ Q.
Proof.
  intros [P Hp Hc Hs Hsp] (j & HGp) HG Hpos Pg Es Hf Hroot HQ. assert (HX : X ∈ cps) by (by eapply list_elem_of_lookup_2).
  assert (j = k) as -> by (by eapply (pub_parent root ls D k X sep R)). unfold publish_or_split.
  pose proof (can_insert_separator_spec (ExclusiveNode.new true (page_bytes σ G)) cs u sep (guard_inner true _ _ _ Pg)) as Hcan.
  unfold ExclusiveNode.can_insert_separator in Hcan. cbn [ExclusiveNode.page ExclusiveNode.new] in Hcan.
  destruct (BTreeNode.can_insert_inner (page_bytes σ G) (zlen sep)) eqn:E; cbn [negb].
  - apply does_then. eapply (publish_in_parent_spec self root ls D k X sep R); [exact P|exact Hp|done|done|done|done|done|done|by apply Hcan|].
    intros σ' Hd. apply does_ret. by apply HQ.
  - assert (Hfull : ∀ cs', seps cs' = ks → ¬ sep_fits cs' sep).
    { intros cs' Es' Hfit. assert (false = true); [|done]. apply Hcan. apply (sep_fits_seps cs' cs); [congruence|done]. }
    apply does_then. eapply does_mono; [exact Hroot|]. intros r ? [-> ->]. apply does_then.
    destruct (Z.eqb_spec root G) as [<-|Hne].
    + eapply (split_full_root_spec self publish); [exact P|exact Hp|done|done|done|done|done|].
      intros path' b σ' Hd. apply does_ret. by apply HQ.
    + eapply (split_full_inner_spec self search publish); [exact Hpub|exact P|exact Hp|done|done|done|done|done|done|congruence|done|].
      intros path' b σ' Hd. apply does_ret. by apply HQ.
Qed.

Lemma is_root_now_spec σ V Ts n G :
  pub σ V D Ts root ls k X sep R n → does (is_root_now G) σ (λ r σ', r = (root =? G) ∧ σ' = σ).
Proof.
  intros P. pose proof (p_world _ _ _ _ _ _ _ _ _ _ _ P) as Hw. destruct (root_shown _ _ _ _ P) as (ks & cps & _ & HV & _).
  apply does_then, (does_root_page_id V); [apply Hw|rewrite (w_root _ _ _ _ _ _ Hw); by eexists|].
  apply does_ret. by rewrite (w_root _ _ _ _ _ _ Hw).
Qed.

(** ** The parent on the path, and the root *)

Lemma via_parent_path_spec σ V Ts n path (Q : list Z * bool → pool → Prop) :
  ready σ V Ts n path → (∀ path' b σ', tried 0 path' V Ts n b σ σ' → Q (path', b) σ') →
  does (try_publish_leaf_split_via_parent_path self publish sep X right path) σ Q.
Proof.
  intros Hr HQ. pose proof Hr as [P Hp _ _ _]. pose proof (p_world _ _ _ _ _ _ _ _ _ _ _ P) as Hw.
  destruct path as [|G path]; [apply does_ret, HQ, postponed_keeps; [reflexivity|done]|].
  apply Forall_cons in Hp as [[j HG] Hp]. destruct (tower_node _ _ _ _ _ _ _ (w_tower _ _ _ _ _ _ Hw) (w_chain _ _ _ _ _ _ Hw) HG) as (ks & cps & HV & _).
  destruct (child_edge X V σ G ks cps (w_holds _ _ _ _ _ _ Hw) HV) as (cs & u & Pg & Es & Hf & He); [apply P|].
  apply does_latched, does_get.
  destruct (child_edge_for _ _) as [[edge|]|] eqn:Ee; [| |done].
  - destruct He as (pos & Hpos & ->). eapply does_lift_bind; [reflexivity|]. cbv beta iota.
    eapply publish_or_split_spec; [by eapply ready_path|by eexists|done|done|done|done|done|by eapply is_root_now_spec|].
    intros path' b σ' Ht. by apply HQ, (tried_weaken 1).
  - eapply does_lift_bind; [reflexivity|]. cbv beta iota. apply does_ret, HQ, postponed_keeps; [reflexivity|by eapply ready_path].
Qed.

Lemma via_root_spec σ V Ts n path (Q : bool → pool → Prop) :
  ready σ V Ts n path → (∀ path' b σ', tried 0 path' V Ts n b σ σ' → Q b σ') →
  does (try_publish_leaf_split_via_root_blocking self publish sep X right) σ Q.
Proof.
  intros Hr HQ. unfold try_publish_leaf_split_via_root_blocking. apply does_then, (does_fix_stable V). intros σ1 K1 _.
  rewrite (w_root _ _ _ _ _ _ (p_world _ _ _ _ _ _ _ _ _ _ _ (r_pub _ _ _ _ _ Hr))).
  assert (Hr1 : ready σ1 V Ts n []) by (eapply ready_path; [by eapply ready_keeps|constructor]).
  pose proof Hr1 as [P _ _ _ _]. pose proof (p_world _ _ _ _ _ _ _ _ _ _ _ P) as Hw.
  destruct (root_shown _ _ _ _ P) as (ks & cps & j & HV & Hj).
  destruct (child_edge X V σ1 root ks cps (w_holds _ _ _ _ _ _ Hw) HV) as (cs & u & Pg & Es & Hf & He); [apply P|].
  apply does_latched, does_get.
  destruct (child_edge_for _ _) as [[edge|]|] eqn:Ee; [| |done].
  - destruct He as (pos & Hpos & ->). eapply does_lift_bind; [reflexivity|]. cbv beta iota. apply does_then.
    eapply publish_or_split_spec; [exact Hr1|by eexists|done|done|done|done|done|apply does_ret; by rewrite Z.eqb_refl|].
    intros path' b σ' Ht. apply does_ret. eapply HQ, tried_after; [exact K1|by apply (tried_weaken 1)].
  - eapply does_lift_bind; [reflexivity|]. cbv beta iota. apply does_ret. apply (HQ path). cbn.
    apply postponed_keeps; done.
Qed.
(** ** The search that does not wait *)

Lemma try_pin_resident_step V σ route q :
  RoutedChildRef.is_resident route = true → word_target σ (RoutedChildRef.swip route) = Some q →
  steps V nowhere (try_pin_resident route) σ (λ o σ', (∀ x, o = Some x → x = q) ∧
    ∀ w' q', word_target σ w' = Some q' → word_target σ' w' = Some q').
Proof.
  intros Hr Hq. unfold try_pin_resident. rewrite Hr. cbn [negb]. apply steps_call.
  pose proof (try_pin_child_ok V σ (RoutedChildRef.swip route)) as E.
  assert (Ht : ∀ w' q', word_target σ w' = Some q' → word_target (try_pin_child σ (RoutedChildRef.swip route)).1 w' = Some q')
    by (intros; by apply pin_targets).
  destruct (try_pin_child σ (RoutedChildRef.swip route)) as [σ' o]. destruct E as [K Ho]. split; [done|]. split; [|done].
  intros x ->. symmetry. by apply Ho.
Qed.

Lemma pin_routes_spec V routes : ∀ qs σ,
  Forall2 (λ r q, word_target σ (RoutedChildRef.swip r) = Some q) routes qs →
  steps V nowhere (pin_routes X routes) σ (λ pins _, pins `sublist_of` qs).
Proof.
  induction routes as [|route routes IH]; intros qs σ Hf; cbn [pin_routes].
  { apply Forall2_nil_inv_l in Hf as ->. by apply steps_ret. }
  apply Forall2_cons_inv_l in Hf as (q & qs' & Hq & Hf & ->).
  eapply (steps_bind _ _ _ _ _ (λ pinned σ', pinned `sublist_of` [q] ∧
    Forall2 (λ r q, word_target σ' (RoutedChildRef.swip r) = Some q) routes qs')).
  - destruct (RoutedChildRef.is_resident route) eqn:Hr.
    + eapply steps_bind; [by apply try_pin_resident_step|]. intros o σ1 _ [Ho Ht]. apply steps_ret. split.
      * destruct o as [x|]; [rewrite (Ho x eq_refl); destruct (_ =? _); [apply sublist_nil_l|done]|apply sublist_nil_l].
      * eapply Forall2_impl; [exact Hf|]. intros r q'. apply Ht.
    + destruct (evicted_target σ route q Hq Hr) as (E & _). eapply steps_lift_bind; [exact E|]. apply steps_ret. split; [apply sublist_nil_l|done].
  - intros pinned σ1 _ [Hp Hf1]. eapply steps_bind; [by apply IH|]. intros rest σ2 _ Hr. apply steps_ret.
    change (q :: qs') with ([q] ++ qs'). by apply sublist_app.
Qed.

Lemma routes_targets σ (cs : list child) u cps :
  Forall2 (λ w c, word_target σ w = Some c) (children cs u) cps →
  Forall2 (λ r q, word_target σ (RoutedChildRef.swip r) = Some q) (routes cs u) cps.
Proof.
  unfold routes. assert (Hgen : ∀ ws qs g, Forall2 (λ w q, word_target σ w = Some q) ws qs → (∀ i w, RoutedChildRef.swip (g i w) = w) →
    Forall2 (λ r q, word_target σ (RoutedChildRef.swip r) = Some q) (imap g ws) qs).
  { intros ws qs g Hf. revert g. induction Hf as [|w q ws qs Hw _ IH]; intros g Hg; cbn; constructor; [by rewrite Hg|].
    apply IH. intros i w'. apply Hg. }
  intros Hf. by apply Hgen.
Qed.

(** Steps of a search, from its start. *)
Lemma search_step {A} V σ (m : BTreePool.R A) (P : A → pool → Prop) {B} (k' : A → BTreePool.R B) Q :
  steps V nowhere m σ P → (∀ a σ', keeps V σ σ' → P a σ' → does (k' a) σ' Q) → does (R_bind m k') σ Q.
Proof. intros Hm Hk. apply does_then. eapply does_steps; [exact Hm|]. intros. by apply Hk. Qed.

Lemma nonblocking_loop_spec σ0 V Ts n path fuel : ∀ stack w σ,
  keeps V σ0 σ → ready σ0 V Ts n path → loads Ts stack w → (w < fuel)%nat →
  does (nonblocking_loop self publish fuel sep X right stack) σ (λ b σ', ∃ path', tried 0 path' V Ts n b σ0 σ').
Proof.
  induction fuel as [|fuel IH]; intros stack w σ K Hr Hl Hf; [lia|]. cbn [nonblocking_loop].
  destruct stack as [|cur stack]; [apply does_ret; exists path; by apply postponed_keeps|].
  apply loads_cons in Hl as (w1 & w2 & Hcur & Hl & ->).
  pose proof (p_world _ _ _ _ _ _ _ _ _ _ _ (r_pub _ _ _ _ _ Hr)) as Hw0. pose proof (load_pos _ _ _ _ _ _ _ (w_tower _ _ _ _ _ _ Hw0) Hcur) as Hpos.
  assert (Hskip : ∀ σ', keeps V σ σ' → does (nonblocking_loop self publish fuel sep X right stack) σ' (λ b σ', ∃ path', tried 0 path' V Ts n b σ0 σ')).
  { intros σ' K'. eapply IH; [by etrans|done|exact Hl|lia]. }
  eapply (search_step V); [apply steps_call, optimistic_ok|]. intros o σ1 K1 Hb. destruct o as [b|]; [|by apply Hskip].
  destruct (BTreeNode.is_leaf b) eqn:Hlf; [by apply Hskip|].
  eapply (search_step V); [apply steps_call, try_upgrade_ok|]. intros ok σ2 K2 Hok. destruct ok; cbn [negb]; [|apply Hskip; by etrans].
  assert (K02 : keeps V σ0 σ2) by (etrans; [exact K|by etrans]). assert (Hr2 : ready σ2 V Ts n path) by (by eapply ready_keeps).
  pose proof (r_pub _ _ _ _ _ Hr2) as P. pose proof (p_world _ _ _ _ _ _ _ _ _ _ _ P) as Hw.
  destruct (load_placed _ _ _ Hcur) as [j Hj]. pose proof (tower_node _ _ _ _ _ _ _ (w_tower _ _ _ _ _ _ Hw) (w_chain _ _ _ _ _ _ Hw) Hj) as Hn.
  destruct j as [|j].
  { destruct Hn as (l & r & es & HV & _). rewrite <-Hok in Hlf. by rewrite (leaf_bytes V σ2 cur _ _ _ (w_holds _ _ _ _ _ _ Hw) HV) in Hlf. }
  destruct Hn as (ks & cps & HV & _).
  destruct (child_edge X V σ2 cur ks cps (w_holds _ _ _ _ _ _ Hw) HV) as (cs & u & Pg & Es & Hfc & He); [apply P|].
  apply does_latched, does_get. destruct (child_edge_for _ _) as [[edge|]|] eqn:Ee; [| |done]; (eapply does_lift_bind; [reflexivity|]); cbv beta iota.
  - destruct He as (pos & Hps & ->). apply does_then.
    eapply publish_or_split_spec; [eapply ready_path; [exact Hr2|constructor]|by eexists|done|done|done|done|done|by eapply is_root_now_spec|].
    intros path' b' σ' Ht. apply does_ret. exists path'. eapply tried_after; [exact K02|by apply (tried_weaken 1)].
  - apply does_get. eapply does_lift_bind; [apply (child_routes_spec _ cs u); apply Pg|].
    eapply (search_step V); [apply pin_routes_spec, Forall2_reverse, routes_targets, Hfc|]. intros pins σ3 K3 Hp.
    destruct (children_load _ _ _ _ _ _ _ _ _ (w_tower _ _ _ _ _ _ Hw) (w_chain _ _ _ _ _ _ Hw) Hcur HV) as (ws & Hfw & Hws).
    assert (Hsub : reverse pins `sublist_of` cps) by (rewrite <-(reverse_involutive cps); by apply sublist_reversed).
    destruct (loads_sublist Ts _ _ (sum_list ws) Hsub) as (w' & Hl' & Hle); [by exists ws|].
    eapply IH; [by etrans|done|by eapply loads_app|lia].
Qed.

Lemma root_load σ V Ts n : pub σ V D Ts root ls k X sep R n → loads Ts [root] (length Ts * length ls).
Proof.
  intros P. pose proof (tw_top _ _ _ _ _ (w_tower _ _ _ _ _ _ (p_world _ _ _ _ _ _ _ _ _ _ _ P))) as Ht. rewrite last_lookup in Ht.
  pose proof (lookup_lt_Some _ _ _ Ht) as Hlt. exists [(length Ts * length ls)%nat]. split; [|cbn; lia]. constructor; [|constructor].
  exists (pred (length Ts)), [(root, ls)], ls. split_and!; [done|left|]. f_equal. lia.
Qed.

Lemma via_nonblocking_spec σ V Ts n path :
  ready σ V Ts n path →
  does (try_publish_leaf_split_via_nonblocking_search self publish search sep X right) σ (λ b σ', ∃ path', tried 0 path' V Ts n b σ σ').
Proof.
  intros Hr. apply does_then, (does_fix_stable V). intros σ1 K1 _.
  rewrite (w_root _ _ _ _ _ _ (p_world _ _ _ _ _ _ _ _ _ _ _ (r_pub _ _ _ _ _ Hr))).
  eapply nonblocking_loop_spec; [exact K1|exact Hr|eapply root_load, Hr|]. destruct Hr as [_ _ _ Hs _]. unfold searchable in Hs. nia.
Qed.

(** ** The search that waits

    [leads V m x]: from [x] it is [S m] steps down to the divided node. *)

Fixpoint leads V (m : nat) (x : Z) : Prop :=
  ∃ ks cps, V !! x = Some (InnerView ks cps) ∧
    match m with
    | O => X ∈ cps
    | S m => ∃ c', c' ∈ cps ∧ leads V m c'
    end.

Lemma leads_up σ V Ts n m : ∀ x,
  pub σ V D Ts root ls k X sep R n → placed Ts (S (k + m)) x → leads V m x →
  ∃ y m', leads V m' y ∧ placed Ts (S (k + m')) y ∧ S (S (k + m')) = length Ts.
Proof.
  intros x P Hx Hl. pose proof (w_tower _ _ _ _ _ _ (p_world _ _ _ _ _ _ _ _ _ _ _ P)) as W. remember (length Ts - S (S (k + m)))%nat as d eqn:Ed.
  revert m x Hx Hl Ed. induction d as [|d IH]; intros m x Hx Hl Ed.
  - exists x, m. split_and!; [done|done|]. destruct Hx as (T & HT & _). apply lookup_lt_Some in HT. lia.
  - pose proof Hx as (T & HT & HxT).
    destruct (parent_known V D Ts root ls (S (k + m)) T x W HT HxT) as (G & ks & cps & HG & HV & Hin); [lia| |].
    { right. intros y Hy. eapply (pub_above root ls D k X sep R); [exact P|by exists T|lia]. }
    eapply (IH (S m) G); [by replace (k + S m)%nat with (S (k + m))%nat by lia| |lia]. cbn [leads]. exists ks, cps. split; [done|]. by exists x.
Qed.

Lemma root_leads σ V Ts n : pub σ V D Ts root ls k X sep R n → ∃ m, leads V m root ∧ placed Ts (S (k + m)) root.
Proof.
  intros P. destruct (p_parent _ _ _ _ _ _ _ _ _ _ _ P) as (G & ks & cps & HG & HV & HX & _).
  destruct (leads_up σ V Ts n 0 G P) as (y & m & Hl & Hy & Hlen); [by rewrite Nat.add_0_r|by exists ks, cps|].
  pose proof (tw_top _ _ _ _ _ (w_tower _ _ _ _ _ _ (p_world _ _ _ _ _ _ _ _ _ _ _ P))) as Ht. rewrite last_lookup, <-Hlen in Ht. cbn in Ht.
  pose proof Hy as (T & HT & HyT). rewrite HT in Ht. injection Ht as ->. cbn in HyT. apply list_elem_of_singleton in HyT as ->. by exists m.
Qed.

(** The identifiers of the children. *)
Lemma child_ids V σ G cps cs u logs :
  holds σ V → inner_page (page_bytes σ G) cs u → Forall2 (λ w c, word_target σ w = Some c) (children cs u) cps →
  Forall (λ c, is_Some (V !! c)) cps →
  ExclusiveNode.child_page_ids (frames_of σ) (ExclusiveNode.new logs (page_bytes σ G)) = Ret cps.
Proof.
  intros Hh Pg Hf Hc. unfold ExclusiveNode.child_page_ids. rewrite (child_routes_spec _ cs u) by apply Pg. rewrite bind_Ret.
  pose proof (routes_targets σ cs u cps Hf) as Hr. clear Hf. revert Hc. induction Hr as [|r q rs qs Hq _ IH]; intros Hc; [done|].
  apply Forall_cons in Hc as [Hcq Hc]. cbn [ExclusiveNode.route_page_ids].
  assert (E : RoutedChildRef.page_id_unchecked (frames_of σ) r = Ret q).
  { destruct (held_ok V σ q Hh Hcq) as (_ & _ & _ & Hs). specialize (Hs _ Hq). unfold swip_page_id in Hs. unfold RoutedChildRef.page_id_unchecked, RoutedChildRef.is_resident.
    destruct (_ || _); [|done]. destruct (BufferFrameRef.from_hot_swip _) as [[fr|]|]; cbn in *; done. }
  rewrite E, bind_Ret, (IH Hc), bind_Ret. done.
Qed.

Lemma blocking_loop_spec σ0 V Ts n path fuel : ∀ stack w σ,
  keeps V σ0 σ → ready σ0 V Ts n path → loads Ts stack w → (w < fuel)%nat →
  (∃ x m, x ∈ stack ∧ leads V m x ∧ placed Ts (S (k + m)) x) →
  does (blocking_loop self publish fuel root sep X right stack) σ (λ b σ', ∃ path', tried 1 path' V Ts n b σ0 σ').
Proof.
  induction fuel as [|fuel IH]; intros stack w σ K Hr Hl Hf (x & m & Hx & Hlead & Hpl); [lia|]. cbn [blocking_loop].
  destruct stack as [|cur stack]; [by apply not_elem_of_nil in Hx|].
  apply loads_cons in Hl as (w1 & w2 & Hcur & Hl & ->).
  pose proof (p_world _ _ _ _ _ _ _ _ _ _ _ (r_pub _ _ _ _ _ Hr)) as Hw0. pose proof (load_pos _ _ _ _ _ _ _ (w_tower _ _ _ _ _ _ Hw0) Hcur) as Hpos.
  assert (Hskip : ∀ σ', keeps V σ σ' → x ≠ cur →
    does (blocking_loop self publish fuel root sep X right stack) σ' (λ b σ', ∃ path', tried 1 path' V Ts n b σ0 σ')).
  { intros σ' K' Hne. eapply IH; [by etrans|done|exact Hl|lia|]. exists x, m. apply elem_of_cons in Hx as [?|Hx]; done. }
  destruct (load_placed _ _ _ Hcur) as [j Hj].
  assert (Hxc : x = cur → j = S (k + m)) by (intros ->; exact (placed_unique _ _ _ _ _ _ _ _ (w_tower _ _ _ _ _ _ Hw0) Hj Hpl)).
  destruct (Z.eqb_spec cur X) as [->|HcX].
  { apply Hskip; [reflexivity|]. intros E. specialize (Hxc E). pose proof (p_at _ _ _ _ _ _ _ _ _ _ _ (r_pub _ _ _ _ _ Hr)) as Hat.
    pose proof (placed_unique _ _ _ _ _ _ _ _ (w_tower _ _ _ _ _ _ Hw0) Hj Hat). lia. }
  assert (Hh : holds σ V) by (eapply keeps_holds; [exact K|apply Hw0]).
  destruct (tower_shown _ _ _ _ _ cur (w_tower _ _ _ _ _ _ Hw0) (w_chain _ _ _ _ _ _ Hw0)) as (v & Hv & _); [apply in_tower; by eexists|].
  apply does_then. eapply (does_fix_orphan V); [done|by eexists|]. intros σ1 K1 _.
  assert (K01 : keeps V σ0 σ1) by (by etrans). assert (Hr1 : ready σ1 V Ts n path) by (by eapply ready_keeps).
  pose proof (r_pub _ _ _ _ _ Hr1) as P. pose proof (p_world _ _ _ _ _ _ _ _ _ _ _ P) as Hw. apply does_latched.
  pose proof (tower_node _ _ _ _ _ _ _ (w_tower _ _ _ _ _ _ Hw) (w_chain _ _ _ _ _ _ Hw) Hj) as Hn. destruct j as [|j].
  { destruct Hn as (l & r & es & HV & _). rewrite (leaf_bytes V σ1 cur _ _ _ (w_holds _ _ _ _ _ _ Hw) HV).
    apply Hskip; [done|]. intros E. specialize (Hxc E). lia. }
  destruct Hn as (ks & cps & HV & _). rewrite (inner_bytes V σ1 cur _ _ (w_holds _ _ _ _ _ _ Hw) HV).
  destruct (child_edge X V σ1 cur ks cps (w_holds _ _ _ _ _ _ Hw) HV) as (cs & u & Pg & Es & Hfc & He); [apply P|].
  apply does_get. destruct (child_edge_for _ _) as [[edge|]|] eqn:Ee; [| |done]; (eapply does_lift_bind; [reflexivity|]); cbv beta iota.
  - destruct He as (pos & Hps & ->). apply does_then.
    eapply publish_or_split_spec; [eapply ready_path; [exact Hr1|constructor]|by eexists|done|done|done|done|done| |].
    { apply does_ret. by rewrite Z.eqb_sym. }
    intros path' b' σ' Ht. apply does_ret. exists path'. by eapply tried_after.
  - apply does_get, does_get.
    assert (Hcps : Forall (λ c, is_Some (V !! c)) cps).
    { apply Forall_forall. intros c' Hin. destruct (tower_shown _ _ _ _ _ c' (w_tower _ _ _ _ _ _ Hw) (w_chain _ _ _ _ _ _ Hw)) as (v' & -> & _); [|by eexists].
      apply in_tower. exists j. by eapply placed_child; [apply Hw|..]. }
    eapply does_lift_bind; [apply (child_ids V σ1 cur cps cs u); [apply Hw|done|done|done]|].
    destruct (children_load _ _ _ _ _ _ _ _ _ (w_tower _ _ _ _ _ _ Hw) (w_chain _ _ _ _ _ _ Hw) Hcur HV) as (ws & Hfw & Hws).
    eapply IH; [exact K01|done|eapply loads_app; [by exists ws|exact Hl]|lia|].
    destruct (decide (x = cur)) as [->|Hne].
    + specialize (Hxc eq_refl). destruct m as [|m]; cbn [leads] in Hlead; destruct Hlead as (ks' & cps' & HV' & Hd); rewrite HV in HV'; injection HV' as <- <-; [done|].
      destruct Hd as (c' & Hc' & Hlc). exists c', m. split_and!; [apply elem_of_app; by left|done|].
      replace (S (k + m)) with j by lia. by eapply placed_child; [apply Hw|..].
    + exists x, m. split_and!; [|done|done]. apply elem_of_app. right. apply elem_of_cons in Hx as [?|Hx]; done.
Qed.

Lemma via_blocking_spec σ V Ts n path :
  ready σ V Ts n path →
  does (try_publish_leaf_split_via_blocking_search self publish search sep X right) σ (λ b σ', ∃ path', tried 1 path' V Ts n b σ σ').
Proof.
  intros Hr. pose proof (r_pub _ _ _ _ _ Hr) as P. pose proof (p_world _ _ _ _ _ _ _ _ _ _ _ P) as Hw.
  destruct (root_shown _ _ _ _ P) as (ks & cps & j & HV & _).
  apply does_then, (does_root_page_id V); [apply Hw|rewrite (w_root _ _ _ _ _ _ Hw); by eexists|]. rewrite (w_root _ _ _ _ _ _ Hw).
  eapply blocking_loop_spec; [reflexivity|exact Hr|eapply root_load, Hr| |].
  - destruct Hr as [_ _ _ Hs _]. unfold searchable in Hs. nia.
  - destruct (root_leads _ _ _ _ P) as (m & Hl & Hp). exists root, m. split_and!; [left|done|done].
Qed.
End tries.

(** ** Publication *)

Section publication.
Context `{Build} `{PoolOps} `{!PoolLaws} `{!WriteOps} `{!WriteLaws} (self : BTree.t) (search : nat).
Implicit Types (σ : pool) (V : gmap Z node_view) (Ts : levels).

(** Searches without a result, one after another. *)
Record later (D : gmap Z (list byte * Z)) (k s : nat) V Ts (n : nat) σ V' Ts' (n' : nat) σ' : Prop := {
  l_grown : grown k V Ts V' Ts';
  l_cost : (cost V' D + s ≤ cost V D)%nat;
  l_count : (n' + s ≤ n)%nat;
  l_size : (length Ts' + cost V' D ≤ length Ts + cost V D)%nat;
  l_goes : goes (Z.of_nat (cost V D) - Z.of_nat (cost V' D)) σ σ';
}.

Lemma later_refl D k V Ts n σ : later D k 0 V Ts n σ V Ts n σ.
Proof. constructor; [apply grown_same|lia|lia|done|]. eapply goes_le; [apply goes_refl|lia]. Qed.

Lemma later_trans D k s s' V Ts n σ V1 Ts1 n1 σ1 V2 Ts2 n2 σ2 :
  later D k s V Ts n σ V1 Ts1 n1 σ1 → later D k s' V1 Ts1 n1 σ1 V2 Ts2 n2 σ2 → later D k (s + s') V Ts n σ V2 Ts2 n2 σ2.
Proof.
  intros [G C N S' Go] [G2 C2 N2 S2 Go2]. constructor; [by eapply grown_trans|lia|lia|lia|].
  eapply goes_le; [eapply goes_trans; [exact Go|exact Go2]|lia].
Qed.

Lemma published_later root ls D k X s V Ts n σ V1 Ts1 n1 σ1 path σ' :
  later D k s V Ts n σ V1 Ts1 n1 σ1 → published root ls D k X path V1 Ts1 σ1 σ' → published root ls D k X path V Ts σ σ'.
Proof.
  intros [G C N S' Go] (V' & Ts' & Hw & G' & Hp & Hc & Hl & Go'). exists V', Ts'. split_and!; [done|by eapply grown_trans|done|lia|lia|].
  eapply goes_le; [eapply goes_trans; [exact Go|exact Go']|lia].
Qed.

Lemma published_path root ls D k X V Ts σ path path' σ' :
  on_path Ts path → published root ls D k X path' V Ts σ σ' → published root ls D k X path V Ts σ σ'.
Proof. intros Hp (V' & Ts' & Hw & G' & _ & Hc & Hl & Go'). exists V', Ts'. split_and!; try done. by eapply on_path_grown. Qed.

(** One search in a sequence of them. *)
Lemma tried_later c root ls D k X sep R s s' V Ts n σ V1 Ts1 n1 σ1 path path' b σ2 :
  later D k s V Ts n σ V1 Ts1 n1 σ1 → ready search c root ls D k X sep R σ1 V1 Ts1 n1 path →
  tried root ls D k X sep R s' path' V1 Ts1 n1 b σ1 σ2 →
  if b : bool then published root ls D k X path V Ts σ σ2
  else ∃ V2 Ts2 n2, later D k (s + s') V Ts n σ V2 Ts2 n2 σ2 ∧ ready search c root ls D k X sep R σ2 V2 Ts2 n2 path.
Proof.
  intros L Hr Ht. destruct b; [eapply published_later; [exact L|eapply published_path; [apply Hr|exact Ht]]|].
  destruct (ready_postponed search c root ls D k X sep R s' σ1 σ2 V1 Ts1 n1 path path' Hr Ht) as (V2 & Ts2 & n2 & Hr2 & G & C & N & S' & Go).
  exists V2, Ts2, n2. split; [eapply later_trans; [exact L|by constructor]|]. eapply ready_path; [exact Hr2|]. eapply on_path_grown; [exact G|apply Hr].
Qed.

Lemma count_bound σ V D Ts root ls k X sep R n : pub σ V D Ts root ls k X sep R n → Z.of_nat n < 2 ^ 16.
Proof.
  intros P. destruct (p_parent _ _ _ _ _ _ _ _ _ _ _ P) as (G & ks & cps & _ & HV & _ & <-).
  destruct (holds_inner V σ G ks cps) as (cs & u & Pg & <- & _); [apply P|done|].
  destruct (inner_count _ _ _ Pg) as [_ Hc]. unfold seps. rewrite length_fmap. unfold zlen in Hc. lia.
Qed.

Lemma publish_spec fuel : ∀ attempts σ V D Ts root ls k X sep R n path pb,
  pub σ V D Ts root ls k X sep R n → on_path Ts path → (cost V D < fuel)%nat → searchable search V D Ts ls →
  Z.of_nat (cost V D) ≤ spare σ → 0 ≤ attempts → attempts + Z.of_nat n < PUBLISH_ATTEMPTS_MAX →
  does (publish_leaf_split_to_parent self fuel search attempts sep X {| SplitChild.pid := R; SplitChild.published := pb |} path) σ
    (λ path' σ', published root ls D k X path' V Ts σ σ').
Proof.
  induction fuel as [|fuel IH]; intros attempts σ V D Ts root ls k X sep R n path pb P Hp Hc Hs Hsp Ha Hn; [lia|].
  cbn [publish_leaf_split_to_parent]. set (publish := publish_leaf_split_to_parent self fuel search 0).
  assert (Hpub : publishes_below search publish fuel).
  { intros σ' V' D' Ts' root' ls' k' X' sep' R' n' path' pb' P' Hp' Hc' Hs' Hsp'. eapply IH; [exact P'|done|done|done|done|lia|].
    pose proof (count_bound _ _ _ _ _ _ _ _ _ _ _ P'). unfold PUBLISH_ATTEMPTS_MAX. lia. }
  assert (Hr : ready search fuel root ls D k X sep R σ V Ts n path) by (constructor; [done|done|lia|done|done]).
  apply does_then.
  assert (Hfirst : does (if attempts + 1 =? 1 then try_publish_leaf_split_via_parent_path self publish sep X {| SplitChild.pid := R; SplitChild.published := pb |} path
      else R_ret (path, false)) σ (λ r σ1, if r.2 : bool then published root ls D k X r.1 V Ts σ σ1
      else ∃ V1 Ts1 n1, later D k 0 V Ts n σ V1 Ts1 n1 σ1 ∧ ready search fuel root ls D k X sep R σ1 V1 Ts1 n1 r.1)).
  { destruct (_ =? _).
    - eapply via_parent_path_spec; [exact Hpub|exact Hr|]. intros path' b σ' Ht. cbn [fst snd]. destruct b; [exact Ht|].
      destruct (ready_postponed search fuel root ls D k X sep R 0 σ σ' V Ts n path path' Hr Ht) as (V2 & Ts2 & n2 & Hr2 & G & C & N & S' & Go).
      exists V2, Ts2, n2. split; [by constructor|done].
    - apply does_ret. cbn. exists V, Ts, n. split; [apply later_refl|done]. }
  eapply does_mono; [exact Hfirst|]. clear Hfirst. intros [path1 b1] σ1 H1'. cbn [fst snd] in *. destruct b1; [by apply does_ret|].
  destruct H1' as (V1 & Ts1 & n1 & L1 & Hr1). apply does_then.
  eapply via_root_spec; [exact Hpub|exact Hr1|]. intros p2 b2 σ2 Ht2. apply (tried_later _ _ _ _ _ _ _ _ _ _ _ _ _ _ _ _ _ _ _ _ _ _ L1 Hr1) in Ht2.
  destruct b2; [by apply does_ret|]. destruct Ht2 as (V2 & Ts2 & n2 & L2 & Hr2). apply does_then.
  eapply does_mono; [eapply via_nonblocking_spec; [exact Hpub|exact Hr2]|]. intros b3 σ3 (p3 & Ht3).
  apply (tried_later _ _ _ _ _ _ _ _ _ _ _ _ _ _ _ _ _ _ _ _ _ _ L2 Hr2) in Ht3.
  destruct b3; [by apply does_ret|]. destruct Ht3 as (V3 & Ts3 & n3 & L3 & Hr3). apply does_then.
  eapply does_mono; [eapply via_blocking_spec; [exact Hpub|exact Hr3]|]. intros b4 σ4 (p4 & Ht4).
  apply (tried_later _ _ _ _ _ _ _ _ _ _ _ _ _ _ _ _ _ _ _ _ _ _ L3 Hr3) in Ht4.
  destruct b4; [by apply does_ret|]. destruct Ht4 as (V4 & Ts4 & n4 & L4 & Hr4). cbn [plus] in L4.
  destruct L4 as [G4 C4 N4 S4 Go4]. rewrite (proj2 (Z.leb_gt _ _)) by lia.
  destruct Hr4 as [P4 Hp4 Hc4 Hs4 Hsp4].
  eapply does_mono; [eapply (IH (attempts + 1)); [exact P4|exact Hp4|lia|done|done|lia|lia]|].
  intros path' σ' Hpb. eapply (published_later _ _ _ _ _ 1); [by constructor|exact Hpb].
Qed.
End publication.
