(* ===== verification/BTreeWriteSpec.v ===== *)
(** * B-tree: what writing guarantees

    [insert] and [upsert] over every pool that keeps its promises and every
    tree it holds whose entries are small enough. The leaf the key belongs to
    takes the entry, or is divided, with the separator published up to the
    root, until it does; every restart is paid by a failure of the pool, and
    every split by the weight of the tree. A pool in memory keeps the
    promises, and runs of the writers on it show two cases that they do not
    handle. *)

From S2P Require Import Prelude Bytes FrameKernel SwipKernel PageHeader PageMutation Slotted SlottedInv SlottedOps SlottedSearch SlottedMutation SlottedSpec BufferFrame BTreeNode BTreeNodeInv BTreePages BTreeSplitSpec BTreeInnerSpec BTreeRoute BTreeNodeSpec BTreePool BTreeRead BTreeTree BTreeGrow BTreeReadSpec BTreeScan BTreeScanSpec BTreeTreeSpec BTreeWrite BTreeMerge BTreeRemove BTreeDescent BTreeWorld BTreePublish BTreeSearchParent.
#[local] Open Scope Z_scope.
Import SlottedHeader SlottedPage.

(** ** A write into the leaf of a key *)

Lemma written_elem es es' k v e :
  keys_sorted es → keys_sorted es' → contents es' = <[k := v]> (contents es) → e ∈ es' → e = (k, v) ∨ e ∈ es.
Proof.
  intros Hs Hs' E He. destruct e as [k' v']. apply (contents_lookup _ _ _ Hs') in He. rewrite E in He.
  destruct (decide (k' = k)) as [->|Hne]; [rewrite lookup_insert_eq in He; left; by injection He as ->|].
  rewrite lookup_insert_ne in He by done. right. by apply contents_lookup.
Qed.

Lemma sorted_size es : keys_sorted es → length es = size (contents es).
Proof. intros Hs. unfold contents. rewrite map_size_list_to_map; [done|]. by apply sorted_NoDup. Qed.

Lemma written_length es es' k v :
  keys_sorted es → keys_sorted es' → contents es' = <[k := v]> (contents es) → (length es' ≤ S (length es))%nat.
Proof.
  intros Hs Hs' E. rewrite (sorted_size _ Hs), (sorted_size _ Hs'), E, map_size_insert. destruct (contents es !! k); cbn; lia.
Qed.

Lemma entries_middle pre L es post : entries_of (pre ++ (L, es) :: post) = entries_of pre ++ es ++ entries_of post.
Proof. by rewrite entries_of_app, entries_of_cons. Qed.

Section at_leaf.
Context (pre : list (Z * list entry)) (L : Z) (es : list entry) (post : list (Z * list entry)) (key : list byte).
Context (Hs : keys_sorted (entries_of (pre ++ (L, es) :: post))) (Hpre : below key (entries_of pre)) (Hstop : post = [] ∨ ¬ below key es).

Lemma parts_sorted :
  keys_sorted (entries_of pre) ∧ keys_sorted es ∧ keys_sorted (entries_of post) ∧
  (∀ x y, x ∈ entries_of pre → y ∈ es → key_lt x.1 y.1) ∧ (∀ x y, x ∈ es → y ∈ entries_of post → key_lt x.1 y.1) ∧
  (∀ x y, x ∈ entries_of pre → y ∈ entries_of post → key_lt x.1 y.1).
Proof.
  rewrite entries_middle in Hs. apply keys_sorted_app_inv in Hs as (H1 & H2 & H12). apply keys_sorted_app_inv in H2 as (H2 & H3 & H23).
  split_and!; [done|done|done| |done|]; intros x y Hx Hy; apply H12; try done; apply elem_of_app; auto.
Qed.

Lemma key_above y : y ∈ entries_of post → key_lt key y.1.
Proof.
  intros Hy. destruct parts_sorted as (_ & _ & _ & _ & Hlt & _). destruct Hstop as [->|Hb]; [by apply not_elem_of_nil in Hy|].
  unfold below in Hb. apply not_Forall_Exists in Hb; [|apply _]. apply Exists_exists in Hb as (e0 & He0 & Hk).
  eapply key_le_lt; [exact Hk|by apply Hlt].
Qed.

(** The leaf answers for the key. *)
Lemma leaf_binds : contents (entries_of (pre ++ (L, es) :: post)) !! key = contents es !! key.
Proof.
  rewrite entries_middle. unfold contents. rewrite !list_to_map_app, !lookup_union.
  rewrite (not_elem_of_list_to_map_1 (entries_of pre)) by (by apply below_not).
  rewrite (not_elem_of_list_to_map_1 (entries_of post)).
  - fold (contents es). by destruct (contents es !! key).
  - intros (y & Ey & Hy)%list_elem_of_fmap. apply (key_lt_irrefl key). rewrite Ey at 2. by apply key_above.
Qed.

Context (es' : list entry) (value : list byte) (Hs' : keys_sorted es') (E : contents es' = <[key := value]> (contents es)).

Lemma written_sorted : keys_sorted (entries_of (pre ++ (L, es') :: post)).
Proof.
  destruct parts_sorted as (H1 & H2 & H3 & H12 & H23 & H13). rewrite entries_middle.
  apply keys_sorted_app_intro; [done|apply keys_sorted_app_intro; [done|done|]|].
  - intros x y Hx Hy. destruct (written_elem _ _ _ _ _ H2 Hs' E Hx) as [->|Hx']; [by apply key_above|by apply H23].
  - intros x y Hx [Hy|Hy]%elem_of_app; [|by apply H13].
    destruct (written_elem _ _ _ _ _ H2 Hs' E Hy) as [->|Hy']; [|by apply H12].
    unfold below in Hpre. rewrite Forall_forall in Hpre. by apply Hpre.
Qed.

Lemma written_contents :
  contents (entries_of (pre ++ (L, es') :: post)) = <[key := value]> (contents (entries_of (pre ++ (L, es) :: post))).
Proof.
  rewrite !entries_middle. unfold contents in *. rewrite !list_to_map_app, E, insert_union_r, <-insert_union_l; [done|].
  apply not_elem_of_list_to_map_1. by apply below_not.
Qed.

Lemma written_dominated : dominated [(L, es')] es ∨ post = [].
Proof.
  destruct Hstop as [->|Hb]; [by right|]. left. intros e He. destruct parts_sorted as (_ & H2 & _).
  unfold entries_of in He. cbn in He. rewrite app_nil_r in He. destruct (written_elem _ _ _ _ _ H2 Hs' E He) as [->|He'].
  - unfold below in Hb. apply not_Forall_Exists in Hb; [|apply _]. apply Exists_exists in Hb as (e0 & He0 & Hk). by exists e0.
  - exists e. split; [done|]. apply key_lt_irrefl.
Qed.

Lemma written_nonempty : es' ≠ [].
Proof. intros ->. assert (contents [] !! key = Some value) by (rewrite E; apply lookup_insert_eq). done. Qed.
End at_leaf.

Lemma world_write `{Build} `{PoolOps} `{!PoolLaws} (σ σ' : pool) V Ts root ls pre L l es post es' key value :
  world σ V ∅ Ts root ls → ls = pre ++ (L, es) :: post → below key (entries_of pre) → post = [] ∨ ¬ below key es →
  V !! L = Some (LeafView l (pid_at post 0) es) → keys_sorted es' → contents es' = <[key := value]> (contents es) →
  entry_small (key, value) → holds σ' (<[L := LeafView l (pid_at post 0) es']> V) → root_pid σ' = root →
  ∃ Ts', length Ts' = length Ts ∧ world σ' (<[L := LeafView l (pid_at post 0) es']> V) ∅ Ts' root (pre ++ (L, es') :: post) ∧
    contents (entries_of (pre ++ (L, es') :: post)) = <[key := value]> (contents (entries_of ls)).
Proof.
  intros [Hh Hr W Hc Hs Hf Hm] Els Hpre Hstop HV Hs' E Hsm Hh' Hr'. pose proof (chained_nodup _ _ Hc) as Hn.
  destruct (tower_write V Ts root ls pre L es post l (pid_at post 0) es' W Hn Els) as (Ts' & Hlen & W').
  { rewrite Els in Hs. by eapply written_dominated. }
  rewrite Els in Hs, Hc. exists Ts'. split; [done|]. split; [constructor; try done|].
  - by eapply chain_write.
  - by eapply written_sorted.
  - destruct Hf as [Hf|Ho]; [left|right; rewrite Els, length_app in Ho; by rewrite length_app].
    intros f [Hin|[->|Hin]%elem_of_cons]%elem_of_app; [| |]; [|by eapply written_nonempty|]; apply Hf; rewrite Els; apply elem_of_app; [by left|right; by right].
  - apply all_small_insert; [done|]. apply Forall_forall. intros e He. destruct (holds_leaf V σ L _ _ es Hh HV) as [_ Hes].
    destruct (written_elem _ _ _ _ _ Hes Hs' E He) as [->|He']; [done|]. pose proof (Hm _ _ HV) as Hfe. cbn in Hfe.
    rewrite Forall_forall in Hfe. by apply Hfe.
  - rewrite Els. by eapply written_contents.
Qed.

(** ** The leaf takes the entry or is full *)

(** A key that is bound stays as it is. *)
Definition bind_new (key value : list byte) (m : gmap (list byte) (list byte)) : gmap (list byte) (list byte) :=
  if decide (m !! key = None) then <[key := value]> m else m.

Section acts.
Context `{Build} `{PoolOps} `{!PoolLaws} `{!WriteOps} `{!WriteLaws} (self : BTree.t).
Implicit Types (σ : pool) (V : gmap Z node_view) (Ts : levels).

(** The bound of everything a round does: a split never raises it. *)
Definition bound V Ts (ls : list (Z * list entry)) : nat := (length Ts + length ls + cost V ∅)%nat.

(** What a write at a leaf leaves: the tree with the map [m] and one entry
    more at most, and pages that are not of the tree as they were. *)
Definition written V Ts (root : Z) (ls : list (Z * list entry)) (m : gmap (list byte) (list byte)) σ σ' : Prop := ∃ V' Ts' ls',
  world σ' V' ∅ Ts' root ls' ∧ contents (entries_of ls') = m ∧ (∀ x, V !! x = Some BlankView → V' !! x = Some BlankView) ∧
  (cost V' ∅ ≤ cost V ∅ + 2)%nat ∧ (bound V' Ts' ls' ≤ bound V Ts ls + 2)%nat ∧ goes 0 σ σ'.

Definition act_done V Ts (root : Z) (ls : list (Z * list entry)) (key : list byte) (m : gmap (list byte) (list byte)) (leaf : Z)
    σ (w : LeafWrite) σ' : Prop :=
  match w with
  | Wrote r => r = bool_decide (contents (entries_of ls) !! key = None) ∧ written V Ts root ls m σ σ'
  | NeedsSplit => σ' = σ ∧ ∃ pre es post, ls = pre ++ (leaf, es) :: post ∧ (3 ≤ length es)%nat
  end.

(** [act] binds the key the way [upd] says. *)
Definition acts (act : Z → list byte → list byte → R LeafWrite) (key value : list byte)
    (upd : gmap (list byte) (list byte) → gmap (list byte) (list byte)) : Prop :=
  ∀ σ V Ts root ls leaf, world σ V ∅ Ts root ls → leaf_for ls key leaf →
    does (act leaf key value) σ (act_done V Ts root ls key (upd (contents (entries_of ls))) leaf σ).

(** The page of the leaf is replaced. *)
Lemma does_write_leaf σ V Ts root ls pre L l es post key value nd nd' d r :
  world σ V ∅ Ts root ls → ls = pre ++ (L, es) :: post → below key (entries_of pre) → post = [] ∨ ¬ below key es →
  V !! L = Some (LeafView l (pid_at post 0) es) → entry_small (key, value) →
  leaf_done nd l (pid_at post 0) (<[key := value]> (contents es)) nd' d → r = bool_decide (contents (entries_of ls) !! key = None) →
  does (put_page L (ExclusiveNode.page nd') ;! put_dirty L d ;! R_ret (Wrote r))%R σ
    (act_done V Ts root ls key (<[key := value]> (contents (entries_of ls))) L σ).
Proof.
  intros Hw Els Hpre Hstop HV Hsm [(es' & Hn & Hs' & E) _] Er. apply does_then.
  eapply (does_put_page V _ _ _ (LeafView l (pid_at post 0) es')); [apply Hw|by eexists|split; [apply Hn|done]|].
  intros σ1 Hh1 G1 _ _. apply does_then. eapply (does_put_dirty (<[L := LeafView l (pid_at post 0) es']> V)). intros σ2 K2. apply does_ret.
  split; [done|]. assert (Hr2 : root_pid σ2 = root).
  { destruct K2 as (_ & -> & _), G1 as (-> & _). apply Hw. }
  destruct (world_write σ σ2 V Ts root ls pre L l es post es' key value Hw Els Hpre Hstop HV Hs' E Hsm) as (Ts' & Hlen & Hw' & Hc); [by eapply keeps_holds|done|].
  assert (Hcost : (cost (<[L := LeafView l (pid_at post 0) es']> V) ∅ ≤ cost V ∅ + 2)%nat).
  { unfold cost. pose proof (weigh_insert V L (LeafView l (pid_at post 0) es')) as E1. rewrite HV in E1. cbn in E1.
    assert (Hes : keys_sorted es) by (apply (holds_leaf V σ L l (pid_at post 0) es); [apply Hw|done]).
    pose proof (written_length _ _ _ _ Hes Hs' E). lia. }
  exists (<[L := LeafView l (pid_at post 0) es']> V), Ts', (pre ++ (L, es') :: post). split_and!; [done|done| |done| |].
  - intros x Hx. rewrite lookup_insert_ne; [done|]. congruence.
  - unfold bound. rewrite Hlen, Els, !length_app. cbn. lia.
  - eapply (goes_trans 0 0); [done|by eapply keeps_goes].
Qed.

Lemma leaf_for_view σ V Ts root ls key leaf :
  world σ V ∅ Ts root ls → leaf_for ls key leaf → ∃ pre l es post,
    ls = pre ++ (leaf, es) :: post ∧ below key (entries_of pre) ∧ (post = [] ∨ ¬ below key es) ∧
    V !! leaf = Some (LeafView l (pid_at post 0) es) ∧ leaf_page (page_bytes σ leaf) l (pid_at post 0) es ∧ keys_sorted es ∧
    contents (entries_of ls) !! key = contents es !! key.
Proof.
  intros Hw (pre & es & post & Els & Hpre & Hstop). destruct (leaf_at V ls pre leaf es post (w_chain _ _ _ _ _ _ Hw) Els) as (l & HV & _).
  destruct (holds_leaf V σ leaf _ _ es (w_holds _ _ _ _ _ _ Hw) HV) as [P Hs]. exists pre, l, es, post. split_and!; try done.
  rewrite Els. apply leaf_binds; [|done|done]. rewrite <-Els. apply Hw.
Qed.

Lemma world_same σ V Ts root ls : world σ V ∅ Ts root ls → written V Ts root ls (contents (entries_of ls)) σ σ.
Proof. intros Hw. exists V, Ts, ls. split_and!; try done; [lia|lia|apply goes_refl]. Qed.

Lemma full_now V leaf l r es key value :
  all_small V → V !! leaf = Some (LeafView l r es) → entry_small (key, value) → ¬ fits 16 es key value → (3 ≤ length es)%nat.
Proof. intros Hm HV Hsm Hf. eapply full_leaf; [|exact Hsm|exact Hf]. apply (Hm _ _ HV). Qed.

Lemma insert_leaf_acts key value :
  entry_small (key, value) → acts insert_leaf key value (bind_new key value).
Proof.
  intros Hsm σ V Ts root ls leaf Hw Hl.
  destruct (leaf_for_view _ _ _ _ _ _ _ Hw Hl) as (pre & l & es & post & Els & Hpre & Hstop & HV & P & Hs & Hk).
  apply does_latched, does_get.
  destruct (try_insert_leaf_spec _ _ _ _ key value (guard_leaf (logs_ranges σ) _ _ _ _ P) eq_refl Hs) as (Hin & Hfull & Hroom).
  unfold bind_new. destruct (contents es !! key) as [v0|] eqn:Ek.
  - rewrite decide_False by (by rewrite Hk). eapply does_lift_bind; [apply Hin; by eexists|]. apply does_ret.
    split; [by rewrite Hk|]. by eapply world_same.
  - rewrite decide_True by done. destruct (decide (fits 16 es key value)) as [Hf|Hf].
    + destruct (Hroom eq_refl Hf) as (nd' & d & E & Hd). eapply does_lift_bind; [exact E|]. cbn [fst snd].
      eapply does_write_leaf; [done|done|done|done|done|done|exact Hd|by rewrite Hk].
    + eapply does_lift_bind; [by apply Hfull|]. apply does_ret. split; [done|]. exists pre, es, post. split; [done|].
      eapply full_now; [apply Hw|done|done|done].
Qed.

(** A value that does not fit in the place of another. *)
Lemma full_replace es key value w :
  Forall entry_small es → entry_small (key, value) → contents es !! key = Some w → keys_sorted es →
  PAGE_SIZE - (24 + 12 * zlen es + 16 + heap_total es) + zlen w < zlen value → (3 ≤ length es)%nat.
Proof.
  intros Hs [_ Hv] Hk Hso Hlt. destruct (decide (3 ≤ length es)%nat) as [|Hl]; [done|]. exfalso.
  pose proof (zlen_nonneg w). pose proof (zlen_nonneg key). cbn in Hv.
  destruct (small_two es (12 + zlen key + zlen value) Hs); [lia|lia|lia].
Qed.

Lemma upsert_leaf_acts key value : entry_small (key, value) → acts upsert_leaf key value (λ m, <[key := value]> m).
Proof.
  intros Hsm σ V Ts root ls leaf Hw Hl.
  destruct (leaf_for_view _ _ _ _ _ _ _ Hw Hl) as (pre & l & es & post & Els & Hpre & Hstop & HV & P & Hs & Hk).
  apply does_latched, does_get.
  pose proof (try_upsert_leaf_spec _ _ _ _ key value (guard_leaf (logs_ranges σ) _ _ _ _ P) eq_refl Hs) as Hu.
  assert (Hse : Forall entry_small es) by apply (w_small _ _ _ _ _ _ Hw _ _ HV).
  destruct (contents es !! key) as [w|] eqn:Ek; destruct Hu as [Hfull Hroom].
  - destruct (decide (zlen value ≤ PAGE_SIZE - (24 + 12 * zlen es + 16 + heap_total es) + zlen w ∨ zlen w = zlen value)) as [Hr|Hr].
    + destruct (Hroom Hr) as (nd' & d & E & Hd). eapply does_lift_bind; [exact E|]. cbn [fst snd].
      eapply does_write_leaf; [done|done|done|done|done|done|exact Hd|by rewrite Hk].
    + eapply does_lift_bind; [apply Hfull; lia|]. apply does_ret. split; [done|]. exists pre, es, post. split; [done|].
      eapply full_replace; [done|exact Hsm|done|done|lia].
  - destruct (decide (fits 16 es key value)) as [Hf|Hf].
    + destruct (Hroom Hf) as (nd' & d & E & Hd). eapply does_lift_bind; [exact E|]. cbn [fst snd].
      eapply does_write_leaf; [done|done|done|done|done|done|exact Hd|by rewrite Hk].
    + eapply does_lift_bind; [by apply Hfull|]. apply does_ret. split; [done|]. exists pre, es, post. split; [done|].
      eapply full_now; [apply Hw|done|done|done].
Qed.
End acts.

(** ** A round of a write *)

Section rounds.
Context `{Build} `{PoolOps} `{!PoolLaws} `{!WriteOps} `{!WriteLaws} (self : BTree.t).
Implicit Types (σ : pool) (V : gmap Z node_view) (Ts : levels).

Lemma world_tree σ V Ts root ls :
  world σ V ∅ Ts root ls → length Ts = S (pred (length Ts)) ∧ tree V root (pred (length Ts)) ls (contents (entries_of ls)).
Proof.
  intros [Hh Hr W Hc Hs Hf Hm]. split; [|constructor; [by apply subtree_of_tower|done|done|done]].
  pose proof (tw_base _ _ _ _ _ W) as E. apply lookup_lt_Some in E. lia.
Qed.

(** A page that was allocated and not used is given back. *)
Lemma does_drop σ V Ts root ls o (Q : unit → pool → Prop) :
  world σ V ∅ Ts root ls → (∀ R, o = Some R → V !! R = Some BlankView) →
  (∀ σ' V', world σ' V' ∅ Ts root ls → cost V' ∅ = cost V ∅ → (∀ x, o ≠ Some x → V' !! x = V !! x) →
    (credit σ' ≤ credit σ)%nat → spare σ ≤ spare σ' → Q tt σ') →
  does (drop_page o) σ Q.
Proof.
  intros Hw Ho HQ. destruct o as [R|]; [|by apply does_ret, (HQ σ V)]. specialize (Ho R eq_refl).
  assert (Hd : delete R V !! R = None) by apply lookup_delete_eq.
  destruct (drop_ok (delete R V) σ R Hd) as (Hh & Hr & Hc & Hs). apply (HQ _ (delete R V)).
  - eapply world_ext; [exact Hw| |done| |].
    + apply Hh. apply (holds_delete _ _ R BlankView); [done|]. rewrite insert_delete_id; [apply Hw|done].
    + intros q v. rewrite lookup_delete_Some. intros [_ HV]. by apply (w_small _ _ _ _ _ _ Hw q).
    + intros x Hx. rewrite lookup_delete_ne; [done|]. intros ->. by apply (blank_outside _ _ _ _ _ _ _ Hw Ho).
  - unfold cost. rewrite <-(insert_delete_id V R BlankView Ho) at 2. by rewrite weigh_blank.
  - intros x Hx. rewrite lookup_delete_ne; [done|]. congruence.
  - done.
  - done.
Qed.

(** A leaf was divided: the tree binds what it did, and some of its cost is used up. *)
Definition divided V Ts (root : Z) (ls : list (Z * list entry)) σ σ' : Prop := ∃ V' Ts' ls',
  world σ' V' ∅ Ts' root ls' ∧ entries_of ls' = entries_of ls ∧ (cost V' ∅ < cost V ∅)%nat ∧
  (bound V' Ts' ls' ≤ bound V Ts ls)%nat ∧ (credit σ' ≤ credit σ)%nat ∧
  spare σ - (Z.of_nat (cost V ∅) - Z.of_nat (cost V' ∅)) ≤ spare σ'.

Lemma leaf_plan p l r es pending :
  leaf_page p l r es → (3 ≤ length es)%nat → ∃ (i : nat) e,
    split_plan p pending = Ret (SplitAt (Z.of_nat i) e.1 None) ∧ es !! i = Some e ∧ (S i < length es)%nat.
Proof.
  intros P Hl. destruct (split_plan_middle p 16 es pending (leaf_wf _ _ _ _ P)) as (i & e & He & Hi & Ep); [lia|lia|].
  exists i, e. split_and!; [done|done|]. pose proof (Nat.div_mod (length es) 2 ltac:(lia)).
  pose proof (Nat.mod_upper_bound (length es) 2 ltac:(lia)). lia.
Qed.

(** The only leaf is the root, or no leaf is. *)
Lemma root_or_below V Ts root ls L es :
  tower V ∅ Ts root ls → (L, es) ∈ ls → root = L ∧ Ts = [base ls] ∧ ls = [(root, es)] ∨ root ≠ L ∧ (2 ≤ length Ts)%nat.
Proof.
  intros W HL. pose proof (tw_base _ _ _ _ _ W) as Hb. pose proof (tw_top _ _ _ _ _ W) as Ht.
  destruct Ts as [|B [|B' Ts]]; [done| |].
  - injection Hb as ->. injection Ht as Ht. left. unfold base in Ht. destruct ls as [|[x e] [|f ls]]; [done| |done].
    injection Ht as <-. apply list_elem_of_singleton in HL. by injection HL as -> ->.
  - right. split; [|cbn; lia]. intros ->.
    assert (Hp : placed (B :: B' :: Ts) 0 L) by (eapply leaf_placed; [done|]; by apply list_elem_of_fmap_2 with (f := fst) in HL).
    assert (Hp' : placed (B :: B' :: Ts) (S (length Ts)) L).
    { rewrite last_lookup in Ht. exists [(L, ls)]. split; [exact Ht|left]. }
    pose proof (placed_unique _ _ _ _ _ _ _ _ W Hp Hp'). lia.
Qed.

Lemma on_path_tail Ts Ts' path : pids <$> tail Ts' = pids <$> tail Ts → on_path Ts path → on_path Ts' path.
Proof.
  intros E Hp. eapply Forall_impl; [exact Hp|]. intros x (h & T & HT & Hx). exists h.
  assert (Hl : (pids <$> tail Ts') !! h = Some (pids T)) by (rewrite E, list_lookup_fmap, lookup_tail, HT; done).
  rewrite list_lookup_fmap, lookup_tail in Hl. destruct (Ts' !! S h) as [T'|] eqn:HT'; [|done].
  exists T'. split; [done|]. injection Hl as Hl. change (x ∈ pids T'). by rewrite Hl.
Qed.

Lemma leaf_pub σ V Ts root ls pre L es1 es2 post R sep :
  world σ V {[L := (sep, R)]} Ts root ls → ls = pre ++ (L, es1) :: (R, es2) :: post → (2 ≤ length Ts)%nat →
  pinned σ L → pinned σ R → key_small sep → ∃ n, pub σ V {[L := (sep, R)]} Ts root ls 0 L sep R n.
Proof.
  intros Hw Els Hlen HpL HpR Hk. assert (Hat : placed Ts 0 L).
  { eapply leaf_placed; [apply Hw|]. rewrite Els, fmap_app. apply elem_of_app. right. left. }
  destruct (parent_exists V _ Ts root ls 0 L (w_tower _ _ _ _ _ _ Hw) Hat) as (G & ks & cps & HG & HV & Hin); [lia|by rewrite lookup_singleton_eq|].
  exists (length ks). constructor; try done.
  - destruct (w_filled _ _ _ _ _ _ Hw) as [|Ho]; [done|]. rewrite Els, length_app in Ho. cbn in Ho. lia.
  - apply lookup_singleton_eq.
  - intros x _ Hx. by apply lookup_singleton_ne.
  - intros x [? [<- _]%lookup_singleton_Some]. by exists 0%nat.
  - by exists G, ks, cps.
Qed.

Lemma publish_divided depth search σ σ' V V' Ts Ts' root ls ls' pre L es1 es2 post R sep path (Q : list Z → pool → Prop) :
  world σ' V' {[L := (sep, R)]} Ts' root ls' → ls' = pre ++ (L, es1) :: (R, es2) :: post → ls = pre ++ (L, es1 ++ es2) :: post →
  (2 ≤ length Ts')%nat → length Ts' = length Ts → on_path Ts' path → pinned σ' L → pinned σ' R → key_small sep →
  (cost V' {[L := (sep, R)]} < cost V ∅)%nat → goes 0 σ σ' → (bound V Ts ls < depth)%nat →
  (bound V Ts ls * bound V Ts ls < search)%nat → Z.of_nat (cost V ∅) ≤ spare σ →
  (∀ path' σ'', divided V Ts root ls σ σ'' → Q path' σ'') →
  does (publish_leaf_split_to_parent self depth search 0 sep L {| SplitChild.pid := R; SplitChild.published := true |} path) σ' Q.
Proof.
  intros Hw Els' Els Hlen El Hp HpL HpR Hk Hc G Hd Hs Hsp HQ. unfold bound in *.
  destruct (leaf_pub σ' V' Ts' root ls' pre L es1 es2 post R sep Hw Els' Hlen HpL HpR Hk) as (n & P).
  assert (Hll : length ls' = S (length ls)) by (rewrite Els', Els, !length_app; cbn; lia).
  eapply does_mono; [eapply publish_spec; [exact P|exact Hp|lia| | |done|]|].
  - unfold searchable. nia.
  - destruct G as (_ & _ & _ & _ & ?). lia.
  - pose proof (count_bound _ _ _ _ _ _ _ _ _ _ _ P). unfold PUBLISH_ATTEMPTS_MAX. lia.
  - intros path' σ'' (V2 & Ts2 & Hw2 & _ & _ & Hc2 & Hl2 & G2). rewrite delete_singleton_eq in *. apply HQ.
    destruct G as (_ & Hcr & _ & _ & Hsp1), G2 as (_ & Hcr2 & _ & _ & Hsp2).
    exists V2, Ts2, ls'. split_and!; [done| |lia|unfold bound; lia|lia|lia].
    rewrite Els', Els, !entries_of_app, !entries_of_cons. by rewrite app_assoc, app_assoc, <-(app_assoc (entries_of pre)), <-app_assoc.
Qed.

(** What was allocated for the split of a leaf. *)
Definition prepared V root σ (L sib : Z) (rc : option Z) : Prop :=
  V !! sib = Some BlankView ∧ pinned σ sib ∧
  match rc with
  | Some r => L = root ∧ V !! r = Some BlankView ∧ r ≠ sib ∧ pinned σ r
  | None => L ≠ root
  end.

Lemma split_leaf_spec depth search σ V Ts root ls pre L es post pending sib rc path :
  world σ V ∅ Ts root ls → ls = pre ++ (L, es) :: post → (3 ≤ length es)%nat → prepared V root σ L sib rc → pinned σ L → on_path Ts path →
  (bound V Ts ls < depth)%nat → (bound V Ts ls * bound V Ts ls < search)%nat → Z.of_nat (cost V ∅) ≤ spare σ →
  does (split_node self (publish_leaf_split_to_parent self depth search 0) L path pending (Some sib) rc) σ
    (λ r σ', r.2 = false ∧ divided V Ts root ls σ σ').
Proof.
  intros Hw Els H3es (HVs & Hps & Hrc) HpL Hpath Hd Hs Hsp. pose proof Hw as [Hh Hr W Hc Hso Hf Hm].
  destruct (leaf_at _ _ _ _ _ _ Hc Els) as (l & HL & _). destruct (holds_leaf V σ L _ _ es Hh HL) as [P Hes].
  destruct (leaf_plan _ _ _ _ pending P H3es) as (i & e & Ep & He & Hi).
  assert (HLin : (L, es) ∈ ls) by (rewrite Els; apply elem_of_app; right; left).
  assert (Hke : key_small e.1).
  { pose proof (Hm _ _ HL) as Hsm. cbn in Hsm. apply (proj1 (Forall_lookup _ _) Hsm i e He). }
  apply does_latched, does_then. eapply (does_root_page_id V); [done| |].
  { destruct (tower_shown _ _ _ _ _ root W Hc) as (v & HV & _); [apply in_tower|rewrite Hr; by eexists].
    pose proof (tw_top _ _ _ _ _ W) as Ht. rewrite last_lookup in Ht. exists (pred (length Ts)), [(root, ls)]. split; [done|left]. }
  rewrite Hr. eapply does_lift_bind; [exact Ep|]. cbv beta iota. rewrite bool_decide_eq_false_2 by (by intros [? ?]).
  destruct (root_or_below V Ts root ls L es W HLin) as [(-> & -> & Els1)|[Hne Hlen]].
  - rewrite Z.eqb_refl. destruct rc as [rc|]; [|done]. destruct Hrc as (_ & HVr & Hrs & Hpr). apply does_then.
    eapply (split_root_leaf_world self σ V L ls es l _ rc sib i e); [exact Hw|exact Els1|exact HL|done|done|done|done|done|done|done|].
    intros σ' V' ls' Hw' Hcost G. apply does_ret. split; [done|]. destruct G as (_ & Hcr & _ & _ & Hsp1).
    exists V', [base ls'; [(L, ls')]], ls'. split_and!; [done| |lia| |done|lia].
    + rewrite Els1. unfold ls', entries_of. cbn. by rewrite !app_nil_r, take_drop.
    + unfold bound. rewrite Els1. unfold ls'. cbn. lia.
  - rewrite (proj2 (Z.eqb_neq root L) Hne). destruct rc as [rc|]; [by destruct Hrc as [-> _]|]. apply does_then.
    eapply (split_leaf_below self _ σ V Ts root ls pre L es post sib path i e); [exact Hw|done|done|done|done|done|].
    intros σ' V' Ts' ls' Hw' Els' Hl' Hp' Hcost G.
    eapply (publish_divided depth search σ σ' V V' Ts Ts' root ls ls' pre L (take (S i) es) (drop (S i) es) post sib e.1 path);
      [done|done|by rewrite take_drop|lia|done|by eapply on_path_tail|by apply G|by apply G|done|done|done|done|done|done|].
    intros path' σ'' Hdv. apply does_ret. done.
Qed.

Lemma root_held σ V Ts root ls : world σ V ∅ Ts root ls → is_Some (V !! root_pid σ).
Proof.
  intros [Hh Hr W Hc Hso Hf Hm]. destruct (tower_shown _ _ _ _ _ root W Hc) as (v & HV & _); [apply in_tower|rewrite Hr; by eexists].
  pose proof (tw_top _ _ _ _ _ W) as Ht. rewrite last_lookup in Ht. exists (pred (length Ts)), [(root, ls)]. split; [done|left].
Qed.

Lemma does_prepare {A} σ V Ts root ls leaf (k : Z → option Z → R A) (Q : A → pool → Prop) :
  world σ V ∅ Ts root ls → 2 ≤ spare σ →
  (∀ σ' V' sib rc, world σ' V' ∅ Ts root ls → prepared V' root σ' leaf sib rc → cost V' ∅ = cost V ∅ →
    (credit σ' ≤ credit σ)%nat → spare σ - 2 ≤ spare σ' → does (k sib rc) σ' Q) →
  does (let! pre_sibling := call allocate_unlinked in
        let! root := root_page_id in
        let! pre_root_child :=
          (if leaf =? root then let! pid := call allocate_unlinked in R_ret (Some pid) else R_ret None) in
        k pre_sibling pre_root_child)%R σ Q.
Proof.
  intros Hw Hsp HQ. apply does_then, (does_allocate V); [apply Hw|lia|]. intros sib σ1 HVs Hps Hh1 (Hr1 & Hc1 & _ & _ & Hs1).
  pose proof (world_blank σ σ1 V ∅ Ts root ls sib Hw HVs Hh1 Hr1) as Hw1. set (V1 := <[sib := BlankView]> V) in *.
  assert (HV1s : V1 !! sib = Some BlankView) by apply lookup_insert_eq.
  assert (Hcost1 : cost V1 ∅ = cost V ∅) by (unfold cost, V1; by rewrite weigh_blank).
  apply does_then, (does_root_page_id V1); [done|by eapply root_held|]. rewrite (w_root _ _ _ _ _ _ Hw1).
  destruct (Z.eqb_spec leaf root) as [->|Hne].
  - apply does_then, does_then, (does_allocate V1); [done|lia|]. intros r σ2 HVr Hpr Hh2 (Hr2 & Hc2 & Hp2 & _ & Hs2). apply does_ret.
    pose proof (world_blank σ1 σ2 V1 ∅ Ts root ls r Hw1 HVr Hh2 Hr2) as Hw2.
    assert (Hrs : r ≠ sib) by congruence.
    eapply HQ; [exact Hw2| | |lia|lia].
    + split_and!; [by rewrite lookup_insert_ne|by apply Hp2|done|apply lookup_insert_eq|done|done].
    + rewrite <-Hcost1. unfold cost. by rewrite weigh_blank.
  - apply does_then, does_ret. eapply HQ; [exact Hw1|done|done|lia|lia].
Qed.

Lemma prepared_other σ V Ts root ls L es L' es' sib rc :
  tower V ∅ Ts root ls → (L, es) ∈ ls → (L', es') ∈ ls → prepared V root σ L sib rc → prepared V root σ L' sib rc.
Proof.
  intros W HL HL' (Hs & Hp & Hrc). split_and!; [done|done|].
  destruct (root_or_below V Ts root ls L es W HL) as [(E & ET & _)|[E Hlen]],
    (root_or_below V Ts root ls L' es' W HL') as [(E' & ET' & _)|[E' Hlen']].
  - by subst.
  - rewrite ET in Hlen'. cbn in Hlen'. lia.
  - rewrite ET' in Hlen. cbn in Hlen. lia.
  - destruct rc as [r|]; [by destruct Hrc as [-> _]|done].
Qed.

(** Both pages are given back. *)
Lemma does_drop_both {A} σ V Ts root ls sib rc (k : R A) (Q : A → pool → Prop) :
  world σ V ∅ Ts root ls → V !! sib = Some BlankView → (∀ r, rc = Some r → r ≠ sib ∧ V !! r = Some BlankView) →
  (∀ σ' V', world σ' V' ∅ Ts root ls → cost V' ∅ = cost V ∅ → (credit σ' ≤ credit σ)%nat → spare σ ≤ spare σ' → does k σ' Q) →
  does (drop_page (Some sib) ;! drop_page rc ;! k)%R σ Q.
Proof.
  intros Hw Hs Hr HQ. apply does_then, (does_drop σ V Ts root ls); [done|by intros R [= <-]|]. intros σ1 V1 Hw1 Hc1 HV1 Hcr1 Hsp1.
  apply does_then, (does_drop σ1 V1 Ts root ls); [done| |].
  { intros r E. destruct (Hr r E) as [Hne HV]. rewrite HV1; [done|congruence]. }
  intros σ2 V2 Hw2 Hc2 _ Hcr2 Hsp2. eapply HQ; [exact Hw2|lia|lia|lia].
Qed.

Lemma prepared_blank V root σ L sib rc r : prepared V root σ L sib rc → rc = Some r → r ≠ sib ∧ V !! r = Some BlankView.
Proof. intros (_ & _ & Hrc) ->. by destruct Hrc as (_ & ? & ? & _). Qed.

(** ** The loop *)

Section loop.
Context (act : Z → list byte → list byte → R LeafWrite) (key value : list byte) (upd : gmap (list byte) (list byte) → gmap (list byte) (list byte)).
Context (Hact : acts act key value upd) (steps depth search : nat).
Context (cmax bmax kmax : nat) (smin : Z) (Hsmin : 0 ≤ smin).

(** Turns of the loop that are left, at most. *)
Definition turns_left (attempts : nat) σ V : nat := (WRITE_BLOCKING_FALLBACK_THRESHOLD - attempts + credit σ + cost V ∅)%nat.

(** Enough for the rest of the loop, and what it leaves at the end: the cost,
    the bound, the failures and the pages. *)
Record affords (fuel attempts : nat) σ V Ts (ls : list (Z * list entry)) : Prop := {
  a_steps : (bound V Ts ls < steps)%nat;
  a_depth : (bound V Ts ls < depth)%nat;
  a_search : (bound V Ts ls * bound V Ts ls < search)%nat;
  a_fuel : (turns_left attempts σ V < fuel)%nat;
  a_spare : smin + 2 * Z.of_nat (S (turns_left attempts σ V)) + Z.of_nat (cost V ∅) ≤ spare σ;
  a_cost : (cost V ∅ + 2 ≤ cmax)%nat;
  a_bound : (bound V Ts ls + 2 ≤ bmax)%nat;
  a_credit : (credit σ ≤ kmax)%nat;
}.

Lemma affords_restart fuel attempts σ σ' V V' Ts ls :
  affords (S fuel) attempts σ V Ts ls → cost V' ∅ = cost V ∅ → (credit σ' ≤ credit σ)%nat → restarted attempts σ σ' →
  spare σ - 2 ≤ spare σ' → affords fuel (S attempts) σ' V' Ts ls.
Proof.
  intros [Hst Hd Hs Hf Hsp Hcm Hbm Hkm] Hc Hcr Hre Hsp'. unfold bound, turns_left, restarted in *.
  constructor; try (unfold bound; rewrite Hc; done); try lia.
  - unfold turns_left. destruct (decide (WRITE_BLOCKING_FALLBACK_THRESHOLD ≤ attempts)%nat) as [Hle|Hlt]; [specialize (Hre Hle)|]; lia.
  - unfold turns_left. rewrite Hc. destruct (decide (WRITE_BLOCKING_FALLBACK_THRESHOLD ≤ attempts)%nat) as [Hle|Hlt]; [specialize (Hre Hle)|]; lia.
Qed.

Lemma affords_divided fuel attempts σ σ1 σ2 V V1 V2 Ts Ts2 root ls ls2 :
  affords (S fuel) attempts σ V Ts ls → cost V1 ∅ = cost V ∅ → (credit σ1 ≤ credit σ)%nat → spare σ - 2 ≤ spare σ1 →
  world σ2 V2 ∅ Ts2 root ls2 → (cost V2 ∅ < cost V1 ∅)%nat → (bound V2 Ts2 ls2 ≤ bound V1 Ts ls)%nat → (credit σ2 ≤ credit σ1)%nat →
  spare σ1 - (Z.of_nat (cost V1 ∅) - Z.of_nat (cost V2 ∅)) ≤ spare σ2 → affords fuel attempts σ2 V2 Ts2 ls2.
Proof.
  intros [Hst Hd Hs Hf Hsp Hcm Hbm Hkm] Hc Hcr Hsp1 _ Hc2 Hb Hcr2 Hsp2.
  assert (Hb' : (bound V2 Ts2 ls2 ≤ bound V Ts ls)%nat) by (unfold bound in *; lia). clear Hb.
  unfold turns_left in *. constructor; [lia|lia|nia|..]; unfold turns_left; lia.
Qed.

(** What a write ends with. *)
Definition finished (root : Z) (m : gmap (list byte) (list byte)) (r : bool) σ' : Prop :=
  r = bool_decide (m !! key = None) ∧ ∃ V' Ts' ls', world σ' V' ∅ Ts' root ls' ∧ contents (entries_of ls') = upd m ∧
    (cost V' ∅ ≤ cmax)%nat ∧ (bound V' Ts' ls' ≤ bmax)%nat ∧ (credit σ' ≤ kmax)%nat ∧ smin ≤ spare σ'.

Lemma written_finished fuel attempts root ls m σ σ1 σ2 V Ts :
  affords fuel attempts σ V Ts ls → (credit σ1 ≤ credit σ)%nat → spare σ - 2 ≤ spare σ1 →
  written V Ts root ls (upd m) σ1 σ2 → finished root m (bool_decide (m !! key = None)) σ2.
Proof.
  intros [Hst Hd Hs Hf Hsp Hcm Hbm Hkm] Hcr Hsp1 (V' & Ts' & ls' & Hw & E & _ & Hc & Hb & (_ & Hcr2 & _ & _ & Hsp2)). split; [done|].
  exists V', Ts', ls'. split_and!; [done|done|lia|lia|lia|lia].
Qed.

Section turn.
Context (fuel : nat) (again : nat → list byte → list byte → R bool) (root : Z) (m : gmap (list byte) (list byte)).
Context (Hagain : ∀ attempts σ V Ts ls, world σ V ∅ Ts root ls → contents (entries_of ls) = m → affords fuel attempts σ V Ts ls →
  does (again attempts key value) σ (finished root m)).

(** The second half of a turn, when the leaf has been found to be full. *)
Definition split_turn (attempts : nat) (leaf : Z) : R bool :=
  (let! pre_sibling := call allocate_unlinked in
   let! root := root_page_id in
   let! pre_root_child :=
     (if leaf =? root then let! pid := call allocate_unlinked in R_ret (Some pid) else R_ret None) in
   let! o := attempt (find_path_to_write self steps attempts key) in
   match o with
   | None =>
       drop_page (Some pre_sibling) ;!
       drop_page pre_root_child ;!
       again (S attempts) key value
   | Some (path, leaf) =>
       let! w := act leaf key value in
       match w with
       | Wrote result =>
           drop_page (Some pre_sibling) ;!
           drop_page pre_root_child ;!
           R_ret result
       | NeedsSplit =>
           let! r := split_node self (publish_leaf_split_to_parent self depth search 0) leaf path
                       (Some {| PendingLeafEntry.key := key; PendingLeafEntry.value := value |})
                       (Some pre_sibling) pre_root_child in
           if r.2 : bool then R_ret true else again attempts key value
       end
   end)%R.

Lemma split_turn_spec attempts σ V Ts ls leaf es :
  world σ V ∅ Ts root ls → contents (entries_of ls) = m → affords (S fuel) attempts σ V Ts ls → (leaf, es) ∈ ls →
  does (split_turn attempts leaf) σ (finished root m).
Proof.
  intros Hw Em Ha Hleaf. unfold split_turn. eapply (does_prepare σ V Ts root ls leaf); [done|destruct Ha; lia|].
  intros σ1 V1 sib rc Hw1 Hpre Hc1 Hcr1 Hsp1. destruct (world_tree _ _ _ _ _ Hw1) as [Hlen T].
  apply does_then. eapply (does_steps V1).
  { apply steps_attempt. eapply (find_path_to_write_spec self V1 root _ ls _ T key Ts); [apply Hw1|apply Hw1|done|apply Hw1|apply Hw1|].
    destruct Ha. unfold bound in *. lia. }
  intros [[path leaf']|] σ2 K2 Ho.
  - destruct Ho as (Hl & Hp & Hpin). cbn [fst snd] in Hl, Hp, Hpin. assert (Hw2 : world σ2 V1 ∅ Ts root ls) by (by eapply world_keeps).
    assert (Hpre2 : ∃ es', (leaf', es') ∈ ls ∧ prepared V1 root σ2 leaf' sib rc).
    { destruct Hl as (pre & es' & post & Els & _). assert (Hin : (leaf', es') ∈ ls) by (rewrite Els; apply elem_of_app; right; left).
      exists es'. split; [done|]. eapply (prepared_other σ2 V1 Ts root ls leaf es leaf' es'); [apply Hw1|done|done|].
      destruct Hpre as (Hs & Hps & Hrc). destruct K2 as (_ & _ & _ & Hpk & _). split_and!; [done|by apply Hpk|].
      destruct rc; [|done]. naive_solver. }
    clear Hpre. destruct Hpre2 as (es' & Hin & Hpre). apply does_then. eapply does_mono; [by apply (Hact σ2 V1 Ts root ls leaf')|].
    intros [r|] σ3 Hd; cbn [act_done] in Hd.
    + destruct Hd as [-> Hwr]. rewrite Em in Hwr |- *.
      destruct Hwr as (V3 & Ts3 & ls3 & Hw3 & E3 & Hb3 & Hc3 & Hbd3 & (_ & Hcr3 & _ & _ & Hsp3)).
      eapply (does_drop_both σ3 V3 Ts3 root ls3); [done|apply Hb3, Hpre| |].
      { intros r E. destruct (prepared_blank _ _ _ _ _ _ _ Hpre E). split; [done|by apply Hb3]. }
      intros σ4 V4 Hw4 Hc4 Hcr4 Hsp4. apply does_ret. split; [done|]. exists V4, Ts3, ls3.
      destruct K2 as (_ & _ & Hcr2 & _ & _ & Hsp2), Ha as [_ _ _ _ Hsp Hcm Hbm Hkm].
      unfold bound in *. split_and!; [done|done|lia|lia|lia|lia].
    + destruct Hd as (-> & pre & es2 & post & Els & Hlong). apply does_then.
      eapply does_mono; [eapply (split_leaf_spec depth search σ2 V1 Ts root ls pre leaf' es2 post); [done|done|done|done|done|done|..]|].
      * destruct Ha. unfold bound in *. lia.
      * destruct Ha. unfold bound in *. by rewrite Hc1.
      * destruct Ha. destruct K2 as (_ & _ & _ & _ & _ & ?). lia.
      * intros [path' b] σ3 [Hb (V3 & Ts3 & ls3 & Hw3 & E3 & Hc3 & Hb3 & Hcr3 & Hsp3)]. cbn [snd] in Hb |- *. rewrite Hb.
        destruct K2 as (_ & _ & Hcr2 & _ & _ & Hsp2).
        eapply Hagain; [exact Hw3|by rewrite E3|]. eapply (affords_divided fuel attempts σ σ2 σ3 V V1); [done|done|lia|lia|done|done|done|done|done].
  - assert (Hw2 : world σ2 V1 ∅ Ts root ls) by (by eapply world_keeps).
    eapply (does_drop_both σ2 V1 Ts root ls); [done|apply Hpre|intros r E; by eapply prepared_blank|].
    intros σ4 V4 Hw4 Hc4 Hcr4 Hsp4. eapply Hagain; [exact Hw4|done|]. destruct K2 as (_ & _ & Hcr2 & _ & _ & Hsp2).
    eapply (affords_restart fuel attempts σ σ4 V V4); [done|congruence|lia| |lia].
    unfold restarted in *. intros H16. specialize (Ho H16). lia.
Qed.
End turn.

Lemma write_loop_spec root m fuel : ∀ attempts σ V Ts ls,
  world σ V ∅ Ts root ls → contents (entries_of ls) = m → affords fuel attempts σ V Ts ls →
  does (write_loop self act steps depth search fuel attempts key value) σ (finished root m).
Proof.
  induction fuel as [|fuel IH]; intros attempts σ V Ts ls Hw Em Ha; [destruct Ha; lia|]. cbn [write_loop].
  set (again := write_loop self act steps depth search fuel). destruct (world_tree _ _ _ _ _ Hw) as [Hlen T].
  apply does_then. eapply (does_steps V).
  { apply steps_attempt. eapply (find_leaf_to_write_spec self V root _ ls _ T key Ts); [apply Hw|done|apply Hw|apply Hw|].
    destruct Ha. unfold bound in *. lia. }
  intros [leaf|] σ1 K1 Ho; assert (Hw1 : world σ1 V ∅ Ts root ls) by (by eapply world_keeps); destruct K1 as (_ & _ & Hcr1 & _ & _ & Hsp1).
  - apply does_then. eapply does_mono; [by apply (Hact σ1 V Ts root ls leaf)|]. intros [r|] σ2 Hd; cbn [act_done] in Hd.
    { destruct Hd as [-> Hwr]. apply does_ret. rewrite Em in *. eapply written_finished; [exact Ha|exact Hcr1|lia|exact Hwr]. }
    destruct Hd as (-> & _). destruct (leaf_for_view _ _ _ _ _ _ _ Hw1 Ho) as (pre & l & es & post & Els & _ & Hstop & HV & P & Hs & _).
    apply does_latched. rewrite (leaf_flag _ _ _ _ P). cbn [negb]. eapply does_lift_bind; [apply (chase_spec _ _ _ _ _ P Hs)|].
    rewrite bool_decide_eq_false_2 by (intros [Hp Hb]; destruct Hstop as [->|Hstop]; [done|by apply Hstop]).
    apply does_then. eapply does_mono; [by apply (Hact σ1 V Ts root ls leaf)|]. intros [r|] σ2 Hd; cbn [act_done] in Hd.
    { destruct Hd as [-> Hwr]. apply does_ret. rewrite Em in *. eapply written_finished; [exact Ha|exact Hcr1|lia|exact Hwr]. }
    destruct Hd as (-> & _). eapply (split_turn_spec fuel again root m); [exact IH|exact Hw1|done| |rewrite Els; apply elem_of_app; right; left].
    destruct Ha. constructor; try done; unfold turns_left in *; lia.
  - eapply IH; [exact Hw1|done|]. eapply (affords_restart fuel attempts σ σ1 V V); [done|done|done|done|lia].
Qed.
End loop.
End rounds.

(** ** A pool in memory, for writers

    A page that is allocated is the next one above the highest. *)

Module MemWrite.
(** The frame of a page. *)
Definition frame (pid : Z) (p : page) : BufferFrame.t := {|
  BufferFrame.pid := pid; BufferFrame.parent_link := LinkNone; BufferFrame.dirty := false; BufferFrame.page := p |}.
Definition frames_of (σ : MemPool.t) : frames :=
  list_to_map ((λ kp, (MemPool.frame_of kp.1, frame kp.1 kp.2)) <$> map_to_list (MemPool.pages σ)).
Definition allocate `{Build} (σ : MemPool.t) : MemPool.t * Z :=
  let pid := MemPool.top σ + 1 in (MemPool.write σ pid (fill PAGE_SIZE x00), pid).
Definition free (σ : MemPool.t) (pid : Z) : MemPool.t := {|
  MemPool.pages := delete pid (MemPool.pages σ); MemPool.hot_root := MemPool.hot_root σ; MemPool.turns := MemPool.turns σ |}.
End MemWrite.

#[global] Instance mem_wops (B : Build) : @WriteOps (@mem_ops B) := @Build_WriteOps (@mem_ops B)
  MemWrite.frames_of (λ _, MemPool.frame_of) MemPool.check MemWrite.allocate MemWrite.free
  (λ σ _, σ) (λ σ _ _, σ) (λ σ _, σ) (λ σ _, σ) (λ σ _, σ).

Section mem_writes.
Context `{Build}.
Import MemPool.
Implicit Types σ : MemPool.t.

#[local] Instance frame_of_inj : Inj (=) (=) frame_of.
Proof. intros x y E. unfold frame_of in E. lia. Qed.

Lemma frames_of_page σ pid p : pages σ !! pid = Some p → MemWrite.frames_of σ !! frame_of pid = Some (MemWrite.frame pid p).
Proof.
  intros Hp. unfold MemWrite.frames_of. apply elem_of_list_to_map_1.
  - rewrite <-list_fmap_compose. change (NoDup ((frame_of ∘ fst) <$> map_to_list (pages σ))). rewrite list_fmap_compose.
    apply NoDup_fmap_2; [apply _|apply NoDup_fst_map_to_list].
  - apply list_elem_of_fmap. exists (pid, p). split; [done|by apply elem_of_map_to_list].
Qed.

Lemma target_cases w q : target w = Some q → valid q = true ∧ (w = frame_of q ∨ w = encode (EvictedPage q)).
Proof.
  unfold target, frame_of. cbn [encode]. destruct (Z.leb_spec (2 ^ 63) w) as [Hle|Hlt]; cbn [orb].
  - rewrite andb_true_r. destruct (valid _) eqn:Hv; [|done]. intros [= <-]. split; [done|]. right. lia.
  - destruct (valid _) eqn:Hv; [|done]. cbn [andb]. destruct (Z.eqb_spec (w mod 65536) 0) as [E|E]; [|done]. intros [= <-].
    split; [done|]. left. pose proof (Z.div_mod w 65536 ltac:(lia)). lia.
Qed.

Lemma frame_valid q : valid q = true → swip_valid (HotPtr (frame_of q)).
Proof.
  intros Hv%valid_range. unfold swip_valid, frame_addr, FRAME_ALIGN, frame_of. split; [page_lia|].
  change 65536 with (16 * 4096). rewrite Z.mul_assoc. by apply Z.mod_mul.
Qed.

Lemma target_resolves σ q w : is_Some (pages σ !! q) → target w = Some q → swip_page_id (MemWrite.frames_of σ) w = Ret q.
Proof.
  intros [p Hp] [Hv Hw]%target_cases. unfold swip_page_id. destruct Hw as [->| ->].
  - pose proof (frame_valid q Hv) as Hs. pose proof (swip_valid_ok _ Hs) as Hok. destruct (is_encode _ Hok) as (Eh & _).
    change (frame_of q) with (encode (HotPtr (frame_of q))). rewrite Eh. cbn [bool_decide orb].
    rewrite (from_hot_swip_encode _ Hs), bind_Ret. cbn [expect]. rewrite bind_Ret. unfold BufferFrameRef.pid.
    by rewrite (frames_of_page _ _ _ Hp).
  - apply valid_range in Hv. assert (Hok : swip_ok (EvictedPage q)) by (unfold swip_ok, payload_ok; lia).
    destruct (is_encode _ Hok) as (Eh & Ec & Ee). rewrite Eh, Ec. cbn [orb]. unfold SwipWord.as_page_id, SwipWord.page_id.
    rewrite Ee, debug_assert_true, !bind_Ret by done. by rewrite (page_id_of_encode q Hok).
Qed.

Lemma holds_some σ V q : holds (H0 := mem_ops) σ V → is_Some (V !! q) → is_Some (pages σ !! q).
Proof. intros Hh HV. by eapply elem_of_dom, holds_page. Qed.

(** Pages that are not of the tree may change. *)
Lemma holds_other σ σ' V :
  holds (H0 := mem_ops) σ V → (∀ q, is_Some (V !! q) → pages σ' !! q = pages σ !! q) → holds (H0 := mem_ops) σ' V.
Proof.
  intros Hh Hq pid v HV. specialize (Hh pid v HV). specialize (Hq pid (mk_is_Some _ _ HV)).
  destruct v as [l r es|ks cps|]; cbn in *; unfold bytes in *; by rewrite Hq.
Qed.

Lemma top_write σ p : let '(σ', pid) := (write σ (top σ + 1) p, top σ + 1) in top σ' = pid.
Proof.
  cbn. apply Z.le_antisymm.
  - apply top_le; [pose proof (top_nonneg σ); lia|]. intros k Hk. cbn in Hk. rewrite dom_insert in Hk.
    apply elem_of_union in Hk as [->%elem_of_singleton|Hk]; [lia|]. pose proof (top_ge σ k Hk). lia.
  - apply top_ge. cbn. rewrite dom_insert. apply elem_of_union. left. by apply elem_of_singleton.
Qed.

Lemma fresh_page σ : pages σ !! (top σ + 1) = None.
Proof.
  destruct (pages σ !! _) as [p|] eqn:E; [|done]. assert (top σ + 1 ∈ dom (pages σ)) as Hk by (apply elem_of_dom; by eexists).
  pose proof (top_ge σ _ Hk). lia.
Qed.

Lemma mem_frame_ref σ pid s a q :
  swip_valid s → s = HotPtr a ∨ s = CoolPtr a → target (encode s) = Some q → a = frame_of pid ↔ q = pid.
Proof.
  intros Hv Hs [Hq Hw]%target_cases. apply swip_valid_ok in Hv. apply valid_range in Hq.
  assert (Ha : a = frame_of q); [|rewrite Ha; split; [apply (inj frame_of)|by intros ->]].
  destruct Hs as [-> | ->]; unfold swip_ok, payload_ok, frame_of in *; cbn [encode] in Hw; destruct Hw as [Hw|Hw]; lia.
Qed.

Lemma mem_allocate V σ : holds (H0 := mem_ops) σ V → 0 < room σ → let '(σ', pid) := MemWrite.allocate σ in
  V !! pid = None ∧ valid pid = true ∧ holds (H0 := mem_ops) σ' (<[pid := BlankView]> V) ∧ goes (H0 := mem_ops) 1 σ σ'.
Proof.
  intros Hh Hr. pose proof (fresh_page σ) as Hf. pose proof (top_write σ (fill PAGE_SIZE x00)) as Ht. pose proof (top_nonneg σ) as Hn.
  unfold MemWrite.allocate. cbn zeta. set (pid := top σ + 1) in *. set (σ' := write σ pid _) in *. cbn in Ht.
  assert (HV : V !! pid = None).
  { destruct (V !! pid) as [v|] eqn:E; [|done]. destruct (holds_some σ V pid Hh (mk_is_Some _ _ E)) as [p Hp]. congruence. }
  assert (Hv : valid pid = true) by (apply valid_range; unfold room in Hr; lia).
  split_and!; [done|done| |].
  - intros q v. destruct (decide (q = pid)) as [->|Hne].
    + rewrite lookup_insert_eq. intros [= <-]. cbn. unfold bytes, σ'. cbn. rewrite Hv, lookup_insert_eq. apply zlen_fill. page_lia.
    + rewrite lookup_insert_ne by done. intros E. assert (Hh' : holds (H0 := mem_ops) σ' V); [|by apply Hh'].
      eapply holds_other; [exact Hh|]. intros x [w Hx]. unfold σ'. cbn. rewrite lookup_insert_ne; [done|]. congruence.
  - split_and!; [done|done|done|done|]. cbn. unfold room. rewrite Ht. lia.
Qed.

Lemma mem_drop V σ pid : V !! pid = None → let σ' := MemWrite.free σ pid in
  (holds (H0 := mem_ops) σ V → holds (H0 := mem_ops) σ' V) ∧ room σ ≤ room σ'.
Proof.
  intros HV. cbn. split.
  - intros Hh. eapply holds_other; [exact Hh|]. intros q [v Hq]. cbn. rewrite lookup_delete_ne; [done|]. congruence.
  - unfold room. assert (top (MemWrite.free σ pid) ≤ top σ); [|lia]. apply top_le; [apply top_nonneg|]. intros k Hk. apply top_ge.
    cbn in Hk. rewrite dom_delete in Hk. set_solver.
Qed.

#[global] Instance mem_wlaws : @WriteLaws _ mem_ops mem_laws (mem_wops _).
Proof.
  constructor; try done.
  - intros V σ q Hh HV. pose proof (holds_valid σ V q Hh HV) as Hv. pose proof (proj1 (valid_range q) Hv).
    split_and!; [lia|unfold payload_ok; lia| |intros w Hw; apply target_resolves; [by eapply holds_some|done]].
    cbn. unfold target. rewrite (proj2 (Z.leb_le _ _)) by lia. replace (q + 2 ^ 63 - 2 ^ 63) with q by lia. by rewrite Hv.
  - intros σ pid s a q _ Hv Hs Ht. by eapply mem_frame_ref.
  - intros V σ pid b. cbn. pose proof (check_spends σ pid b) as M. destruct (check σ pid b) as [σ' ok]. destruct M as [Hs Ho].
    split; [by apply spends_keeps|]. destruct ok; [by apply Ho|done].
  - intros V σ Hh Hs. by apply mem_allocate.
  - intros V σ pid HV. destruct (mem_drop V σ pid HV) as [? ?]. done.
Qed.
End mem_writes.

(** ** Insertion *)

(** The pool holds a tree that binds what [m] says, whose leaves are not
    empty (but for a lone root) and whose entries are small. *)
Record store `{PoolLaws} (σ : pool) (V : gmap Z node_view) (root : Z) (h : nat) (ls : list (Z * list entry))
    (m : gmap (list byte) (list byte)) : Prop := {
  s_tree : tree V root h ls m;
  s_holds : holds σ V;
  s_root : root_pid σ = root;
  s_filled : filled ls;
  s_small : all_small V;
}.

(** The height, the leaves and the entries bound what one turn of a write
    does, the entries and the failures the pool has left bound the turns, and
    both the pages it may allocate. *)
Definition extent (V : gmap Z node_view) (h : nat) (ls : list (Z * list entry)) : nat := (S h + length ls + cost V ∅)%nat.
Definition turns_of `{PoolLaws} (σ : pool) (V : gmap Z node_view) : nat := (16 + credit σ + cost V ∅)%nat.
Definition pages_of `{PoolLaws} (σ : pool) (V : gmap Z node_view) : Z := 2 * (Z.of_nat (turns_of σ V) + 1) + Z.of_nat (cost V ∅).

(** Enough fuel and enough pages. *)
Definition roomy `{PoolLaws} (steps depth search fuel : nat) (σ : pool) (V : gmap Z node_view) (h : nat) (ls : list (Z * list entry)) : Prop :=
  (extent V h ls < steps)%nat ∧ (extent V h ls < depth)%nat ∧ (extent V h ls * extent V h ls < search)%nat ∧
  (turns_of σ V < fuel)%nat ∧ pages_of σ V ≤ spare σ.

(** What a write uses up. *)
Record uses `{PoolLaws} (σ : pool) (V : gmap Z node_view) (h : nat) (ls : list (Z * list entry))
    (σ' : pool) (V' : gmap Z node_view) (h' : nat) (ls' : list (Z * list entry)) : Prop := {
  u_cost : (cost V' ∅ ≤ cost V ∅ + 2)%nat;
  u_extent : (extent V' h' ls' ≤ extent V h ls + 2)%nat;
  u_credit : (credit σ' ≤ credit σ)%nat;
  u_spare : spare σ - pages_of σ V ≤ spare σ';
}.

Section insertion.
Context `{Build} `{PoolOps} `{!PoolLaws} `{!WriteOps} `{!WriteLaws} (self : BTree.t).

Lemma writes_refine act key value upd steps depth search fuel (σ : pool) V root h ls m :
  acts act key value upd → store σ V root h ls m → roomy steps depth search fuel σ V h ls →
  ∃ σ' V' h' ls', write_loop self act steps depth search fuel 0 key value σ = Ret (σ', Some (bool_decide (m !! key = None))) ∧
    store σ' V' root h' ls' (upd m) ∧ uses σ V h ls σ' V' h' ls'.
Proof.
  intros Hact [T Hh Hr Hf Hm] (Hst & Hd & Hse & Hfu & Hsp). unfold extent, pages_of, turns_of in *.
  destruct (tower_of_subtree V h root ls (tree_nodes _ _ _ _ _ T) (tree_chain _ _ _ _ _ T)) as (Ts & Hlen & W).
  assert (Hw : world σ V ∅ Ts root ls) by (constructor; [done|done|done|apply T|apply T|done|done]).
  pose proof (tree_map _ _ _ _ _ T) as Em.
  assert (Hdo : does (write_loop self act steps depth search fuel 0 key value) σ
    (finished key upd (cost V ∅ + 2) (bound V Ts ls + 2) (credit σ) (spare σ - pages_of σ V) root m)).
  { eapply write_loop_spec; [done| |exact Hw|done|]; [unfold pages_of, turns_of; lia|]. constructor; try done;
      unfold bound, turns_left, pages_of, turns_of, WRITE_BLOCKING_FALLBACK_THRESHOLD; rewrite ?Hlen; try done; lia. }
  unfold does in Hdo. destruct (write_loop _ _ _ _ _ _ _ _ _ _) as [[σ' [r|]]|]; [|done|done].
  destruct Hdo as [-> (V' & Ts' & ls' & Hw' & E & Hc & Hb & Hcr & Hs')]. destruct (world_tree _ _ _ _ _ Hw') as [Hl' T'].
  exists σ', V', (pred (length Ts')), ls'. split_and!; [done| |].
  - rewrite <-E. constructor; [done|apply Hw'..].
  - constructor; [done| |done|done]. unfold bound, extent in *. lia.
Qed.
End insertion.

(** C7: [insert] refines insertion into a finite map, on trees with no empty
    leaf (a lone root excepted), which [remove] need not keep. On every pool
    that keeps its promises and holds such a tree of small entries, and whatever
    the pool refuses, tears or evicts on the way, [insert] returns; it answers
    whether the key was absent, and then the pool holds such a tree that binds
    the key to the value when it was absent, and is as before otherwise. Leaves
    that are full are split, the separators published in their parents and full parents
    split up to the root, the tree growing there; no split fails to be
    published. *)
Theorem insert_refines `{Build} `{PoolOps} `{!PoolLaws} `{!WriteOps} `{!WriteLaws} (self : BTree.t) steps depth search fuel (σ : pool) V root h ls m key value :
  store σ V root h ls m → entry_small (key, value) → roomy steps depth search fuel σ V h ls →
  ∃ σ' V' h' ls', BTreeWrite.insert self steps depth search fuel key value σ = Ret (σ', Some (bool_decide (m !! key = None))) ∧
    store σ' V' root h' ls' (bind_new key value m).
Proof.
  intros Hs He Hr.
  destruct (writes_refine self insert_leaf key value (bind_new key value) steps depth search fuel σ V root h ls m)
    as (σ' & V' & h' & ls' & E & Hs' & _); [by apply insert_leaf_acts|done|done|]. by exists σ', V', h', ls'.
Qed.

(** A root that is full, of three large entries. *)
Definition big_entries : list entry := [([x61], fill 1300 x01); ([x63], fill 1300 x03); ([x65], fill 1300 x05)].
Definition full_root : MemPool.t := {|
  MemPool.pages := {[ 1 := leaf_of (H := debug_4k) 0 0 big_entries ]}; MemPool.hot_root := true; MemPool.turns := [Refused; Torn] |}.

Lemma big_fits : page_fits (H := debug_4k) 16 big_entries.
Proof. vm_compute. congruence. Qed.

Lemma full_root_store :
  store (H := debug_4k) (H0 := mem_ops (H := debug_4k)) (H1 := mem_laws (H := debug_4k))
    full_root {[ 1 := LeafView 0 0 big_entries ]} 1 0 [(1, big_entries)] (contents big_entries).
Proof.
  assert (Hs : keys_sorted big_entries) by repeat constructor. constructor.
  - constructor; [by exists 0, 0, big_entries| |by unfold entries_of; cbn; repeat constructor|done].
    intros [|i] pid es Hi; [injection Hi as <- <-; by split|done].
  - intros pid v [<- <-]%lookup_singleton_Some. split; [|done]. by apply (leaf_of_spec (H := debug_4k)); [exact big_fits|..].
  - done.
  - by right.
  - intros pid v [<- <-]%lookup_singleton_Some. cbn [view_small]. refine (bool_decide_unpack _ _). vm_compute. exact I.
Qed.

Lemma insert_refines_witness :
  ∃ σ' V' h' ls',
    BTreeWrite.insert (H := debug_4k) (H0 := mem_ops (H := debug_4k)) (H1 := mem_wops debug_4k) {| BTree.dt_id := 7 |} 20 20 200 30
      [x62] (fill 1200 x02) full_root = Ret (σ', Some true) ∧
    store (H := debug_4k) (H0 := mem_ops (H := debug_4k)) (H1 := mem_laws (H := debug_4k)) σ' V' 1 h' ls'
      (<[[x62] := fill 1200 x02]> (contents big_entries)).
Proof.
  destruct (insert_refines (H := debug_4k) (H0 := mem_ops (H := debug_4k)) (H1 := mem_laws (H := debug_4k)) (H2 := mem_wops debug_4k) (H3 := mem_wlaws (H := debug_4k))
    {| BTree.dt_id := 7 |} 20 20 200 30 full_root _ 1 0 [(1, big_entries)] _ [x62] (fill 1200 x02) full_root_store)
    as (σ' & V' & h' & ls' & E & Hs).
  - refine (bool_decide_unpack _ _). vm_compute. exact I.
  - split_and!; vm_compute; first [lia|congruence].
  - exists σ', V', h', ls'. split; [exact E|exact Hs].
Defined.

(** C8: [upsert] refines the update of a finite map: under the same conditions,
    on a tree with no empty leaf (a lone root excepted), it returns, answers
    whether the key was absent, and leaves such a tree that binds the key to the
    value and every other key to what it was bound to. *)
Theorem upsert_refines `{Build} `{PoolOps} `{!PoolLaws} `{!WriteOps} `{!WriteLaws} (self : BTree.t) steps depth search fuel (σ : pool) V root h ls m key value :
  store σ V root h ls m → entry_small (key, value) → roomy steps depth search fuel σ V h ls →
  ∃ σ' V' h' ls', BTreeWrite.upsert self steps depth search fuel key value σ = Ret (σ', Some (bool_decide (m !! key = None))) ∧
    store σ' V' root h' ls' (<[key := value]> m).
Proof.
  intros Hs He Hr.
  destruct (writes_refine self upsert_leaf key value (λ m, <[key := value]> m) steps depth search fuel σ V root h ls m)
    as (σ' & V' & h' & ls' & E & Hs' & _); [by apply upsert_leaf_acts|done|done|]. by exists σ', V', h', ls'.
Qed.

Lemma calm_store :
  store (H := debug_4k) (H0 := mem_ops (H := debug_4k)) (H1 := mem_laws (H := debug_4k)) calm sample_view 1 1 sample_leaves sample_map.
Proof.
  constructor; [exact sample_tree|by apply sample_holds|done| |].
  - left. intros f [->|[->|[]%not_elem_of_nil]%elem_of_cons]%elem_of_cons; done.
  - intros pid v HV. unfold sample_view in HV. apply lookup_insert_Some in HV as [[<- <-]|[_ HV]];
      [|apply lookup_insert_Some in HV as [[<- <-]|[_ [<- <-]%lookup_singleton_Some]]];
      cbn [view_small]; refine (bool_decide_unpack _ _); vm_compute; exact I.
Qed.

Lemma upsert_refines_witness :
  ∃ σ' V' h' ls',
    BTreeWrite.upsert (H := debug_4k) (H0 := mem_ops (H := debug_4k)) (H1 := mem_wops debug_4k) {| BTree.dt_id := 7 |} 10 10 50 30
      [x62] [x09] calm = Ret (σ', Some false) ∧
    store (H := debug_4k) (H0 := mem_ops (H := debug_4k)) (H1 := mem_laws (H := debug_4k)) σ' V' 1 h' ls'
      (<[[x62] := [x09]]> sample_map).
Proof.
  destruct (upsert_refines (H := debug_4k) (H0 := mem_ops (H := debug_4k)) (H1 := mem_laws (H := debug_4k)) (H2 := mem_wops debug_4k) (H3 := mem_wlaws (H := debug_4k))
    {| BTree.dt_id := 7 |} 10 10 50 30 calm _ 1 1 sample_leaves _ [x62] [x09] calm_store) as (σ' & V' & h' & ls' & E & Hs).
  - refine (bool_decide_unpack _ _). vm_compute. exact I.
  - split_and!; vm_compute; first [lia|congruence].
  - exists σ', V', h', ls'. split; [exact E|exact Hs].
Defined.

(** ** What writers do not handle *)

(** *** The search that keeps the path *)

Section empty_leaf.
Context `{Build} `{PoolOps} `{!PoolLaws} `{!WriteOps} `{!WriteLaws} (self : BTree.t).
Context (V : gmap Z node_view) (root : Z) (h0 : nat) (ls : list (Z * list entry)) (m : gmap (list byte) (list byte)).
Context (T : tree V root h0 ls m) (key : list byte).
Implicit Types σ : pool.

(** Where the search ends: the leaves before it are below the key, and it is
    the leaf of the key, unless it is empty. *)
Definition stopped_at (leaf : Z) : Prop := ∃ pre es post, ls = pre ++ (leaf, es) :: post ∧ below key (entries_of pre) ∧
  (es = [] ∨ leaf_for ls key leaf).

Lemma path_loop_stops fuel : ∀ h pre path cur σ,
  holds σ V → toward V ls key h pre cur → (h + (length ls - length pre) < fuel)%nat →
  steps V anywhere (path_loop self fuel key path cur) σ (λ r _, stopped_at r.2).
Proof using All.
  induction fuel as [|fuel IH]; intros h pre path cur σ Hh Ht Hf; [lia|]. cbn [path_loop].
  eapply steps_bind; [apply optimistic_step|]. intros b σ1 K1 Hb. assert (Hh1 : holds σ1 V) by (by eapply keeps_holds).
  destruct h as [|h].
  - destruct (toward_leaf _ _ _ _ _ T key pre cur Ht) as (l & es & post & Hls & Hpre & HV).
    destruct (BTreeNode.is_leaf b) eqn:Hl; [|eapply steps_bind; [by eapply step_child_torn|done]].
    destruct (chase_total b key Hb) as (c & Ec). eapply steps_lift_bind; [exact Ec|].
    eapply (steps_bind _ _ _ _ _ (λ _ _, c = true → es = [])).
    { destruct c; [|by apply steps_ret]. eapply steps_bind; [apply validate_step|]. intros [] σ2 K2 <-.
      destruct (holds_leaf V σ1 cur _ _ es Hh1 HV) as [P _]. apply steps_guard. unfold ResidentFrame.is_empty_leaf.
      rewrite (wf_num _ _ _ (leaf_wf _ _ _ _ P)). destruct (Z.eqb_spec (zlen es) 0) as [E|]; [|done]. intros _.
      destruct es; [done|]. rewrite zlen_cons in E. pose proof (zlen_nonneg es). lia. }
    intros _ σ2 K2 Hemp. eapply steps_bind; [apply steps_call, upgrade_ok|]. intros ok σ3 K3 Hok.
    eapply steps_bind; [apply (steps_guard _ _ ok _ (λ _ σ, σ = σ3 ∧ ok = true)); by destruct ok|].
    intros [] ? _ [-> ->]. apply steps_ret. subst b. exists pre, es, post. split_and!; [done|done|].
    destruct c; [left; auto|right]. eapply stops_at; [exact T| |exact Ht|done|done]. do 2 (eapply keeps_holds; [done|]). done.
  - destruct (toward_inner _ _ _ _ _ _ Ht) as (ks & cps & HV & Hcps). destruct (BTreeNode.is_leaf b) eqn:Hl.
    { destruct (chase_total b key Hb) as (c & Ec). eapply steps_lift_bind; [exact Ec|].
      eapply (steps_bind _ _ _ _ _ (λ _ _, True)).
      { destruct c; [|by apply steps_ret]. eapply steps_bind; [apply validate_step|]. intros [] σ2 K2 _.
        apply steps_guard. by case_match. }
      intros _ σ2 K2 _. eapply steps_bind; [apply steps_call, upgrade_ok|]. intros ok σ3 K3 Hok.
      eapply steps_bind; [apply (steps_guard _ _ ok _ (λ _ σ, σ = σ3 ∧ ok = true)); by destruct ok|].
      intros [] ? _ [-> ->]. subst b. assert (Hh3 : holds σ3 V) by (do 2 (eapply keeps_holds; [done|]); done).
      by rewrite (inner_bytes V σ3 cur ks cps Hh3 HV) in Hl. }
    eapply steps_bind; [eapply step_child_spec; [apply pin_route_ok|apply publish_child_ok|done|done|done|done]|].
    intros child σ2 K2 (_ & pos & Hc & Hx).
    destruct (toward_child V ls key h pre cur ks cps pos child Ht HV Hc Hx) as (pre' & Ht').
    eapply IH; [by eapply keeps_holds|exact Ht'|rewrite length_app; lia].
Qed.

Lemma find_path_stops fuel σ :
  holds σ V → root_pid σ = root → (h0 + length ls < fuel)%nat →
  steps V anywhere (find_leaf_exclusive_with_path self fuel key) σ (λ r _, stopped_at r.2).
Proof using All.
  intros Hh Hr Hf. eapply steps_bind; [apply steps_fix_stable|]. intros ? σ1 K1 [-> _]. rewrite Hr.
  eapply path_loop_stops; [by eapply keeps_holds|by eapply toward_root|cbn; lia].
Qed.

(** In an empty leaf there is nothing to remove. *)
Lemma remove_from_empty path leaf l r σ :
  holds σ V → V !! leaf = Some (LeafView l r []) → remove_from_leaf self path leaf key σ = Ret (σ, Some false).
Proof.
  intros Hh HV. destruct (holds_leaf V σ leaf l r [] Hh HV) as [P Hs].
  destruct (lower_bound_located (leaf_wf _ _ _ _ P) Hs key) as (pos & ex & El & Hl).
  unfold remove_from_leaf, R_bind, latched, lift. rewrite El. cbn. destruct ex; [|done].
  destruct (contents_exact _ _ _ Hs Hl) as (v & Hv & _). done.
Qed.
End empty_leaf.

(** C26: [remove] can miss a key that is there. On every pool that keeps its
    promises and every tree it holds, the search that keeps the path, when
    no step of it is turned away, ends at the leaf of the key, except that it
    does not go on from an empty leaf to the right neighbours as [lookup] and
    [insert] do. When it ends at an empty leaf, [remove] answers that the key
    is not there and leaves the tree as it is, whether or not the tree binds
    the key. *)
Theorem remove_misses_keys `{Build} `{PoolOps} `{!PoolLaws} `{!WriteOps} `{!WriteLaws} (self : BTree.t)
    V root h ls m key (steps fuel : nat) (σ σ1 : pool) path leaf :
  tree V root h ls m → holds σ V → root_pid σ = root → (h + length ls < steps)%nat →
  find_leaf_exclusive_with_path self steps key σ = Ret (σ1, Some (path, leaf)) →
  ∃ pre es post, ls = pre ++ (leaf, es) :: post ∧ below key (entries_of pre) ∧
    if decide (es = []) then BTreeRemove.remove self steps (S fuel) key σ = Ret (σ1, Some false) ∧ holds σ1 V ∧ root_pid σ1 = root
    else leaf_for ls key leaf.
Proof.
  intros T Hh Hr Hf E. pose proof (find_path_stops self V root h ls m T key steps σ Hh Hr Hf) as S. unfold BTreePool.steps in S.
  rewrite E in S. destruct S as [K (pre & es & post & Hls & Hpre & Hs)]. cbn [snd] in *. exists pre, es, post. split_and!; [done|done|].
  case_decide as D; [|by destruct Hs]. subst es. pose proof (keeps_holds _ _ _ K Hh) as Hh1.
  split_and!; [|done|destruct K as (_ & -> & _); done]. unfold BTreeRemove.remove. cbn [remove_loop]. unfold R_bind at 1, attempt, find_path_to_write.
  rewrite bool_decide_eq_false_2 by (unfold WRITE_BLOCKING_FALLBACK_THRESHOLD; lia). rewrite E.
  destruct (tree_chain _ _ _ _ _ T (length pre) leaf []) as [_ HV]; [by rewrite Hls, list_lookup_middle|].
  by eapply remove_from_empty.
Qed.

(** An empty leaf, whose right neighbour has a key that belongs before the
    separator. *)
Definition behind_entries : list entry := [([x61], [x09]); ([x64], [x04])].
Definition behind_view : gmap Z node_view :=
  <[1 := InnerView [[x62]] [2; 3]]> (<[2 := LeafView 0 3 []]> {[3 := LeafView 2 0 behind_entries]}).
Definition behind_leaves : list (Z * list entry) := [(2, []); (3, behind_entries)].
Definition behind : MemPool.t := {|
  MemPool.pages := {[ 1 := inner_of (H := debug_4k) [([x62], MemPool.frame_of 2)] (MemPool.frame_of 3);
    2 := leaf_of (H := debug_4k) 0 3 []; 3 := leaf_of (H := debug_4k) 2 0 behind_entries ]};
  MemPool.hot_root := true; MemPool.turns := [] |}.

Lemma behind_tree : tree behind_view 1 1 behind_leaves (contents behind_entries).
Proof.
  constructor.
  - exists [[x62]], [2; 3], [[(2, [])]; [(3, behind_entries)]]. split_and!; [done|done| |done|].
    + repeat constructor; [by exists 0, 3, []|by exists 2, 0, behind_entries].
    + intros i j k ls e Hk Hls He Hij. destruct j as [|j]; [|by destruct j]. destruct i as [|i]; [|lia]. injection Hls as <-.
      cbn in He. by apply not_elem_of_nil in He.
  - intros i pid es Hi. destruct i as [|[|i]]; [injection Hi as <- <-|injection Hi as <- <-|done]; done.
  - repeat constructor.
  - done.
Qed.

Lemma behind_holds : holds (H := debug_4k) (H0 := mem_ops (H := debug_4k)) behind behind_view.
Proof.
  intros pid v HV. unfold behind_view in HV. apply lookup_insert_Some in HV as [[<- <-]|[_ HV]].
  - exists [([x62], MemPool.frame_of 2)], (MemPool.frame_of 3). split_and!; [|done|by repeat constructor].
    apply (inner_of_spec (H := debug_4k)); [vm_compute; congruence|by apply Forall_singleton|done].
  - apply lookup_insert_Some in HV as [[<- <-]|[_ HV]]; [|apply lookup_singleton_Some in HV as [<- <-]];
      (split; [|repeat constructor]); (apply (leaf_of_spec (H := debug_4k)); [vm_compute; congruence|done|done]).
Qed.

Definition behind_search : outcome (MemPool.t * option (list Z * Z)) :=
  find_leaf_exclusive_with_path (H := debug_4k) (H0 := mem_ops (H := debug_4k)) (H1 := mem_wops debug_4k) {| BTree.dt_id := 7 |} 10 [x61] behind.

Lemma behind_stops : match behind_search with Ret (_, Some (_, leaf)) => leaf = 2 | _ => False end.
Proof. vm_compute. reflexivity. Qed.

Lemma remove_misses_keys_witness : contents behind_entries !! [x61] = Some [x09] ∧
  ∃ σ1, BTreeRemove.remove (H := debug_4k) (H0 := mem_ops (H := debug_4k)) (H1 := mem_wops debug_4k) {| BTree.dt_id := 7 |} 10 10 [x61] behind
    = Ret (σ1, Some false) ∧ holds (H := debug_4k) (H0 := mem_ops (H := debug_4k)) σ1 behind_view.
Proof.
  split; [reflexivity|]. pose proof behind_stops as S. destruct behind_search as [[σ1 [[path leaf]|]]|] eqn:E; [|destruct S|destruct S]. subst leaf.
  destruct (remove_misses_keys (H := debug_4k) (H0 := mem_ops (H := debug_4k)) (H1 := mem_laws (H := debug_4k)) (H2 := mem_wops debug_4k) (H3 := mem_wlaws (H := debug_4k))
    {| BTree.dt_id := 7 |} behind_view 1 1 behind_leaves (contents behind_entries) [x61] 10 9 behind σ1 path 2
    behind_tree behind_holds eq_refl ltac:(cbn; lia) E) as (pre & es & post & Hls & _ & Hr).
  assert (es = []) as ->.
  { destruct pre as [|x [|y pre]]; [by injection Hls as <- <-|injection Hls as _ Hp _ _; done|].
    apply (f_equal length) in Hls. cbn in Hls. rewrite length_app in Hls. cbn in Hls. lia. }
  rewrite decide_True in Hr by done. destruct Hr as (Hr & Hh & _). exists σ1. split; [exact Hr|exact Hh].
Defined.

(** *** Runs on the pool in memory *)

Section runs.
Let ops : PoolOps := mem_ops (H := debug_4k).
Let self : BTree.t := {| BTree.dt_id := 7 |}.

Definition mem_insert (depth fuel : nat) (key value : list byte) (σ : MemPool.t) : outcome (MemPool.t * option bool) :=
  BTreeWrite.insert (H := debug_4k) (H0 := ops) (H1 := mem_wops debug_4k) self 10 depth 10 fuel key value σ.
Definition mem_remove (key : list byte) (σ : MemPool.t) : outcome (MemPool.t * option bool) :=
  BTreeRemove.remove (H := debug_4k) (H0 := ops) (H1 := mem_wops debug_4k) self 10 10 key σ.
Definition mem_lookup (key : list byte) (σ : MemPool.t) : outcome (MemPool.t * option (option (list byte))) :=
  BTreeRead.lookup (H := debug_4k) (H0 := ops) self 100 key σ.

(** The state a run ends in, and what it answers. *)
Definition state_of {A} (c : outcome (MemPool.t * option A)) : MemPool.t :=
  match c with
  | Ret (σ, _) => σ
  | Panic => {| MemPool.pages := ∅; MemPool.hot_root := false; MemPool.turns := [] |}
  end.
Definition answer_of {A} (c : outcome (MemPool.t * option A)) : option A :=
  match c with
  | Ret (_, o) => o
  | Panic => None
  end.

(** Two leaves of one entry each, whose sibling cannot be pinned when the
    first one gets empty. *)
Definition two_leaves : MemPool.t := {|
  MemPool.pages := {[ 1 := inner_of (H := debug_4k) [([x62], MemPool.frame_of 2)] (MemPool.frame_of 3);
    2 := leaf_of (H := debug_4k) 0 3 [([x61], [x01])]; 3 := leaf_of (H := debug_4k) 2 0 [([x64], [x04])] ]};
  MemPool.hot_root := true; MemPool.turns := replicate 6 Granted ++ [Refused] |}.

Definition emptied : MemPool.t := state_of (mem_remove [x61] two_leaves).
Definition refilled : MemPool.t := state_of (mem_insert 10 10 [x61] [x09] emptied).

(** [remove] leaves such a leaf behind when the sibling is not resident: the
    key is inserted again and found, but not removed. *)
Lemma remove_misses_run :
  answer_of (mem_remove [x61] two_leaves) = Some true ∧
  answer_of (mem_lookup [x61] emptied) = Some None ∧
  answer_of (mem_insert 10 10 [x61] [x09] emptied) = Some true ∧
  answer_of (mem_lookup [x61] refilled) = Some (Some [x09]) ∧
  answer_of (mem_remove [x61] refilled) = Some false ∧
  answer_of (mem_lookup [x61] (state_of (mem_remove [x61] refilled))) = Some (Some [x09]).
Proof. split_and!; vm_compute; reflexivity. Qed.

(** The same search misleads [insert] when it splits: with the neighbour of
    the empty leaf full, a larger key is put into the empty leaf, and the key
    that is in the neighbour is no longer found. *)
Definition crowded : MemPool.t := {|
  MemPool.pages := {[ 1 := inner_of (H := debug_4k) [([x6d], MemPool.frame_of 2)] (MemPool.frame_of 3);
    2 := leaf_of (H := debug_4k) 0 3 []; 3 := leaf_of (H := debug_4k) 2 0 [([x70], fill 1300 x04); ([x71], fill 1300 x04)] ]};
  MemPool.hot_root := true; MemPool.turns := [] |}.
Definition first_inserted : MemPool.t := state_of (mem_insert 10 10 [x62] (fill 1200 x01) crowded).
Definition second_inserted : MemPool.t := state_of (mem_insert 10 10 [x63] (fill 1200 x02) first_inserted).

Lemma insert_hides_run :
  answer_of (mem_insert 10 10 [x62] (fill 1200 x01) crowded) = Some true ∧
  answer_of (mem_lookup [x62] first_inserted) = Some (Some (fill 1200 x01)) ∧
  answer_of (mem_insert 10 10 [x63] (fill 1200 x02) first_inserted) = Some true ∧
  answer_of (mem_lookup [x63] second_inserted) = Some (Some (fill 1200 x02)) ∧
  answer_of (mem_lookup [x62] second_inserted) = Some None.
Proof. split_and!; vm_compute; reflexivity. Qed.

(** ** Long keys *)

Definition long_key (b : byte) : list byte := b :: fill 2039 x00.
Definition one_leaf : MemPool.t := {|
  MemPool.pages := {[ 1 := leaf_of (H := debug_4k) 0 0 [] ]}; MemPool.hot_root := true; MemPool.turns := [] |}.
(** After two insertions, and when the third one has split a leaf. *)
Definition two_keys : MemPool.t :=
  state_of (mem_insert 10 10 (long_key x62) [] (state_of (mem_insert 10 10 (long_key x61) [] one_leaf))).

Let publisher := list byte → Z → SplitChild.t → list Z → R (H := ops) (list Z).
Definition split_third (publish : publisher) : R (H := ops) (list Z * bool) :=
  split_node (H := debug_4k) (H0 := ops) (H1 := mem_wops debug_4k) self publish 2 [1]
    (Some {| PendingLeafEntry.key := long_key x63; PendingLeafEntry.value := [] |}) (Some 4) None.
Definition unpublished : MemPool.t :=
  state_of (split_third (λ _ _ _ path, R_ret path) (MemWrite.allocate (H := debug_4k) two_keys).1).
Let right : SplitChild.t := {| SplitChild.pid := 4; SplitChild.published := true |}.

Lemma bind_run `{PoolOps} {A B} (m : R A) (k : A → R B) σ σ' a r :
  m σ = Ret (σ', Some a) → k a σ' = r → R_bind m k σ = r.
Proof. unfold R_bind. by intros ->. Qed.

(** Every way to find the parent finds it full, does not split it, and leaves
    the pool as it was. *)
Lemma attempts_fail (publish : publisher) :
  try_publish_leaf_split_via_parent_path (H := debug_4k) (H0 := ops) (H1 := mem_wops debug_4k) self publish
    (long_key x62) 2 right [1] unpublished = Ret (unpublished, Some ([], false)) ∧
  try_publish_leaf_split_via_root_blocking (H := debug_4k) (H0 := ops) (H1 := mem_wops debug_4k) self publish
    (long_key x62) 2 right unpublished = Ret (unpublished, Some false) ∧
  try_publish_leaf_split_via_nonblocking_search (H := debug_4k) (H0 := ops) (H1 := mem_wops debug_4k) self publish 10
    (long_key x62) 2 right unpublished = Ret (unpublished, Some false) ∧
  try_publish_leaf_split_via_blocking_search (H := debug_4k) (H0 := ops) (H1 := mem_wops debug_4k) self publish 10
    (long_key x62) 2 right unpublished = Ret (unpublished, Some false).
Proof. split_and!; vm_compute; reflexivity. Qed.

Lemma never_published depth : ∀ attempts path, attempts = 0 ∧ path = [1] ∨ 0 < attempts →
  publish_leaf_split_to_parent (H := debug_4k) (H0 := ops) (H1 := mem_wops debug_4k) self depth 10 attempts
    (long_key x62) 2 right path unpublished = Panic.
Proof.
  induction depth as [|depth IH]; intros attempts path Hp; [done|]. cbn [publish_leaf_split_to_parent].
  pose proof (attempts_fail (publish_leaf_split_to_parent (H := debug_4k) (H0 := ops) (H1 := mem_wops debug_4k) self depth 10 0))
    as (H1 & H2 & H3 & H4).
  apply bind_run with (σ' := unpublished : pool (PoolOps := ops)) (a := (if attempts + 1 =? 1 then [] else path, false)).
  { destruct Hp as [[-> ->]|Hp]; [exact H1|]. rewrite (proj2 (Z.eqb_neq (attempts + 1) 1)) by lia. done. }
  cbn [fst snd]. eapply bind_run; [exact H2|]. eapply bind_run; [exact H3|]. eapply bind_run; [exact H4|].
  cbv beta iota. destruct (_ <=? _); [done|]. apply IH. right. lia.
Qed.

Lemma split_third_calls (publish : publisher) :
  split_third publish (MemWrite.allocate (H := debug_4k) two_keys).1 =
  R_bind (publish (long_key x62) 2 right [1]) (λ path, R_ret (path, true)) unpublished.
Proof. vm_compute. reflexivity. Qed.

Lemma third_leaf {A} (x y : A) :
  (if negb (BTreeNode.is_leaf (page_bytes (PoolOps := ops) two_keys 2)) then x else y) = y.
Proof.
  assert (E : BTreeNode.is_leaf (page_bytes (PoolOps := ops) two_keys 2) = true) by (vm_compute; reflexivity). by rewrite E.
Qed.

Lemma third_split_panics depth {A} (k : list Z * bool → R (H := ops) A) :
  R_bind (split_third (publish_leaf_split_to_parent (H := debug_4k) (H0 := ops) (H1 := mem_wops debug_4k) self depth 10 0)) k
    (MemWrite.allocate (H := debug_4k) two_keys).1 = Panic.
Proof. unfold R_bind at 1. rewrite split_third_calls. unfold R_bind. by rewrite never_published by auto. Qed.

(** C27: an insertion can be impossible to finish. Keys of about half a page
    fit in a leaf and as a separator in an inner node, but not two of them;
    the third such key splits a leaf whose parent has one separator, and a
    node with fewer than two separators is not split. The publication of the
    split tries again without an effect, until it panics: no number of
    attempts lets [insert] return. The panic is that of the last attempt, which
    in the model is running out of [fuel], here any number. *)
Theorem long_keys_stuck (depth fuel : nat) :
  answer_of (mem_insert 10 10 (long_key x62) [] (state_of (mem_insert 10 10 (long_key x61) [] one_leaf))) = Some true ∧
  mem_insert depth (S fuel) (long_key x63) [] two_keys = Panic.
Proof.
  split; [vm_compute; reflexivity|]. unfold mem_insert, BTreeWrite.insert. cbn [write_loop].
  set (allocated := (MemWrite.allocate (H := debug_4k) two_keys).1 : pool (PoolOps := ops)).
  refine (bind_run (H := ops) _ _ _ two_keys (Some 2) _ _ _); [vm_compute; reflexivity|]. cbv beta iota.
  refine (bind_run (H := ops) _ _ _ two_keys (NeedsSplit) _ _ _); [vm_compute; reflexivity|]. cbv beta iota.
  refine (bind_run (H := ops) _ _ _ _ _ _ eq_refl _). rewrite third_leaf.
  refine (bind_run (H := ops) _ _ _ two_keys (false) _ _ _); [vm_compute; reflexivity|]. cbv beta iota.
  refine (bind_run (H := ops) _ _ _ two_keys (NeedsSplit) _ _ _); [vm_compute; reflexivity|]. cbv beta iota.
  refine (bind_run (H := ops) _ _ _ allocated (4) _ _ _); [vm_compute; reflexivity|].
  refine (bind_run (H := ops) _ _ _ allocated (1) _ _ _); [vm_compute; reflexivity|].
  refine (bind_run (H := ops) _ _ _ allocated (None) _ _ _); [done|].
  refine (bind_run (H := ops) _ _ _ allocated (Some ([1], 2)) _ _ _); [vm_compute; reflexivity|]. cbv beta iota.
  refine (bind_run (H := ops) _ _ _ allocated (NeedsSplit) _ _ _); [vm_compute; reflexivity|]. cbv beta iota.
  apply third_split_panics.
Qed.
End runs.
