(* ===== verification/KvStore.v ===== *)
(** * The key-value store

    Models [src/crates/kvstore/src/lib.rs]: the options of a store and its
    operations, over the tree and what the store asks of the log, of the
    buffer pool and of the page store. Opening a store is not modelled.

    A session of puts, gets, scans, flushes and checkpoints answers as a
    finite map does, on a tree with no empty leaf; [del], which may leave one,
    is modelled and is not a command of a session. *)

From S2P Require Import Prelude Bytes FrameKernel SwipKernel PageHeader PageMutation Slotted SlottedInv SlottedOps SlottedSearch SlottedMutation SlottedSpec BufferFrame BTreeNode BTreeNodeInv BTreePages BTreeSplitSpec BTreeInnerSpec BTreeRoute BTreeNodeSpec BTreePool BTreeRead BTreeTree BTreeGrow BTreeReadSpec BTreeScan BTreeScanSpec BTreeTreeSpec BTreeWrite BTreeMerge BTreeRemove BTreeDescent BTreeWorld BTreePublish BTreeSearchParent BTreeWriteSpec.
#[local] Open Scope Z_scope.
Import SlottedHeader SlottedPage.

(** ** Options *)

Definition DEFAULT_POOL_BYTES : Z := 64 * 1024 * 1024.
Definition DEFAULT_POOL_FRAMES `{Build} : Z := DEFAULT_POOL_BYTES / PAGE_SIZE.
Definition DEFAULT_DOMAIN_ID : Z := 1.

Inductive SyncMode := Relaxed | Strict.
#[global] Instance SyncMode_eq_dec : EqDecision SyncMode.
Proof. solve_decision. Defined.
Inductive TreeBackend := BPlusTree.

Module KvStoreOptions.
Record t := { pool_frames : Z; domain_id : Z; sync_mode : SyncMode; tree_backend : TreeBackend }.

Definition default `{Build} : t := {|
  pool_frames := DEFAULT_POOL_FRAMES; domain_id := DEFAULT_DOMAIN_ID; sync_mode := Relaxed; tree_backend := BPlusTree |}.
Definition with_pool_frames (self : t) (n : Z) : t := {|
  pool_frames := n; domain_id := domain_id self; sync_mode := sync_mode self; tree_backend := tree_backend self |}.
Definition with_domain_id (self : t) (id : Z) : t := {|
  pool_frames := pool_frames self; domain_id := id; sync_mode := sync_mode self; tree_backend := tree_backend self |}.
Definition with_sync_mode (self : t) (mode : SyncMode) : t := {|
  pool_frames := pool_frames self; domain_id := domain_id self; sync_mode := mode; tree_backend := tree_backend self |}.
Definition with_tree_backend (self : t) (backend : TreeBackend) : t := {|
  pool_frames := pool_frames self; domain_id := domain_id self; sync_mode := sync_mode self; tree_backend := backend |}.
End KvStoreOptions.

(** [std::io::Result<()>]. *)
Inductive IoResult := IoOk | IoErr (code : Z).

(** ** What the store asks of the log, the pool and the page store *)

Class KvOps `{PoolOps} := {
  appended_lsn : pool → Z;
  durable_lsn : pool → Z;
  wal_flush : pool → pool * Z;
  wal_reset : pool → pool * IoResult;
  pool_flush : pool → pool * IoResult;
  tree_height : pool → Z;
  reachable_page_count : pool → option Z;
  set_user_meta_0 : pool → Z → pool;
  set_user_meta_1 : pool → Z → pool;
  set_user_meta_2 : pool → Z → pool;
  set_checkpoint_lsn : pool → Z → pool;
  store_sync : pool → pool * IoResult;
}.

(** A flush of the log makes what was appended durable. None of the calls
    changes a page, and the tree knows the number of its pages. *)
Class KvLaws `{Build} `{PoolOps} `{!PoolLaws} `{!KvOps} := {
  wal_flush_ok V σ : let '(σ', _) := wal_flush σ in
    keeps V σ σ' ∧ appended_lsn σ' = appended_lsn σ ∧ appended_lsn σ ≤ durable_lsn σ';
  wal_reset_ok V σ : keeps V σ (wal_reset σ).1;
  pool_flush_ok V σ : keeps V σ (pool_flush σ).1;
  page_count_ok σ : is_Some (reachable_page_count σ);
  user_meta_0_ok V σ v : keeps V σ (set_user_meta_0 σ v);
  user_meta_1_ok V σ v : keeps V σ (set_user_meta_1 σ v);
  user_meta_2_ok V σ v : keeps V σ (set_user_meta_2 σ v);
  checkpoint_lsn_ok V σ v : keeps V σ (set_checkpoint_lsn σ v);
  store_sync_ok V σ : keeps V σ (store_sync σ).1;
}.

(** ** The store *)

Module KvStore.
Record t := { tree : BTree.t; sync_mode : SyncMode }.

Section store.
Context `{Build} `{PoolOps} `{!WriteOps} `{!KvOps} (self : t).
#[local] Open Scope restart_scope.

(** The [?] operator. *)
Definition try (r : IoResult) (k : R IoResult) : R IoResult :=
  match r with
  | IoOk => k
  | IoErr code => R_ret (IoErr code)
  end.

Definition flush_wal : R unit := let! lsn := call wal_flush in R_ret tt.

Definition finish_mutation {A} (result : A) : R A :=
  (if decide (sync_mode self = Strict) then flush_wal else R_ret tt) ;! R_ret result.

(** [fuel] bounds every loop of the operation on the tree. *)
Definition put (fuel : nat) (key value : list byte) : R bool :=
  let! result := BTreeWrite.upsert (tree self) fuel fuel fuel fuel key value in finish_mutation result.
Definition get (fuel : nat) (key : list byte) : R (option (list byte)) := BTreeRead.lookup (tree self) fuel key.
Definition del (fuel : nat) (key : list byte) : R bool :=
  let! result := BTreeRemove.remove (tree self) fuel fuel key in finish_mutation result.

Definition scan_all {A} (fuel : nat) (f : A → list byte → list byte → A) (a : A) : R A := BTreeScan.scan (tree self) fuel fuel fuel f a.
Definition scan_range {A} (fuel : nat) (start stop : list byte) (f : A → list byte → list byte → A) (a : A) : R A :=
  BTreeScan.scan_range fuel (Included start) (Excluded stop) f a.

Definition sync : R IoResult :=
  let! lsn := call wal_flush in
  let! r := call pool_flush in
  try r (R_ret IoOk).

Definition checkpoint : R IoResult :=
  let! checkpoint_lsn := call wal_flush in
  let! r := call pool_flush in
  try r (
    let! root := root_page_id in
    update (λ σ, set_user_meta_0 σ root) ;!
    let! height := call (λ σ, (σ, tree_height σ)) in
    update (λ σ, set_user_meta_1 σ height) ;!
    let! count := call (λ σ, (σ, reachable_page_count σ)) in
    let! pages := lift (expect count) in
    update (λ σ, set_user_meta_2 σ pages) ;!
    update (λ σ, set_checkpoint_lsn σ checkpoint_lsn) ;!
    let! r := call store_sync in
    try r (
      let! r := call wal_reset in
      try r (R_ret IoOk))).

End store.
End KvStore.

(** ** Sessions *)

Inductive Command :=
  | Put (key value : list byte) | Get (key : list byte) | ScanAll | ScanRange (start stop : list byte)
  | FlushWal | Sync | Checkpoint.
Inductive Response := AnsBool (b : bool) | AnsValue (o : option (list byte)) | AnsEntries (es : list entry) | AnsIo (r : IoResult).

Section exec.
Context `{Build} `{PoolOps} `{!WriteOps} `{!KvOps} (self : KvStore.t) (fuel : nat).
#[local] Open Scope restart_scope.

Definition exec (c : Command) : R Response :=
  match c with
  | Put key value => let! b := KvStore.put self fuel key value in R_ret (AnsBool b)
  | Get key => let! o := KvStore.get self fuel key in R_ret (AnsValue o)
  | ScanAll => let! es := KvStore.scan_all self fuel log [] in R_ret (AnsEntries es)
  | ScanRange start stop => let! es := KvStore.scan_range fuel start stop log [] in R_ret (AnsEntries es)
  | FlushWal => KvStore.flush_wal ;! R_ret (AnsIo IoOk)
  | Sync => let! r := KvStore.sync in R_ret (AnsIo r)
  | Checkpoint => let! r := KvStore.checkpoint in R_ret (AnsIo r)
  end.

Fixpoint exec_all (cs : list Command) : R (list Response) :=
  match cs with
  | [] => R_ret []
  | c :: cs => let! r := exec c in let! rs := exec_all cs in R_ret (r :: rs)
  end.
End exec.

(** What a map answers. [d] counts the pins the pool has refused: a lookup
    may miss a value after 64 of them and a range scan after one. *)
Definition answers (d : nat) (m : gmap (list byte) (list byte)) (c : Command) (r : Response) (m' : gmap (list byte) (list byte)) : Prop :=
  match c with
  | Put key value => r = AnsBool (bool_decide (m !! key = None)) ∧ m' = <[key := value]> m
  | Get key => m' = m ∧ (r = AnsValue (m !! key) ∨ r = AnsValue None ∧ (64 ≤ d)%nat)
  | ScanAll => m' = m ∧ ∃ es, keys_sorted es ∧ contents es = m ∧ r = AnsEntries es
  | ScanRange start stop => m' = m ∧
      ((∃ es, keys_sorted es ∧ contents es = m ∧ r = AnsEntries (filter (in_range (Included start) (Excluded stop)) es)) ∨
       (r = AnsEntries [] ∧ (0 < d)%nat))
  | FlushWal | Sync | Checkpoint => m' = m ∧ ∃ io, r = AnsIo io
  end.

Inductive session : nat → gmap (list byte) (list byte) → list Command → list Response → gmap (list byte) (list byte) → Prop :=
  | session_end m : session 0 m [] [] m
  | session_step d d' m c r m1 cs rs m' :
      answers d m c r m1 → session d' m1 cs rs m' → session (d + d') m (c :: cs) (r :: rs) m'.

Definition command_small `{Build} (c : Command) : Prop :=
  match c with
  | Put key value => entry_small (key, value)
  | _ => True
  end.

(** ** How many entries there are *)

Lemma linked_weight ls : ∀ V l r, linked V l ls r → NoDup ls.*1 → (length (entries_of ls) ≤ length ls + weigh V)%nat.
Proof.
  induction ls as [|[pid es] ls IH]; intros V l r; [cbn; lia|]. cbn [linked]. intros (_ & HV & Hl) [Hn Hd]%NoDup_cons.
  rewrite entries_of_cons, length_app. cbn [length].
  assert (Hl' : linked (delete pid V) pid ls r).
  { eapply linked_ext; [exact Hl|]. intros x Hx. rewrite lookup_delete_ne; [done|]. by intros ->. }
  specialize (IH _ _ _ Hl' Hd). pose proof (weigh_fresh (delete pid V) pid (LeafView l (default r (fst <$> head ls)) es)) as E.
  rewrite insert_delete_id in E by done. rewrite lookup_delete_eq in E. specialize (E eq_refl). cbn in E. lia.
Qed.

Lemma entries_extent V root h ls m : tree V root h ls m → (length (entries_of ls) < extent V h ls)%nat.
Proof.
  intros T. pose proof (tree_chain _ _ _ _ _ T) as Hc. pose proof (chained_nodup _ _ Hc) as Hn. apply chained_linked in Hc.
  pose proof (linked_weight _ _ _ _ Hc Hn). unfold extent, cost. lia.
Qed.

Lemma log_all es : ∀ acc, foldl (λ a e, log a e.1 e.2) acc es = acc ++ es.
Proof. induction es as [|[k v] es IH]; intros acc; [by rewrite app_nil_r|]. cbn. rewrite IH. unfold log. by rewrite <-app_assoc. Qed.

Lemma deliver_log es : ∀ acc, (deliver (λ a k v, (log a k v, true)) es acc).1 = acc ++ es.
Proof. induction es as [|[k v] es IH]; intros acc; [by rewrite app_nil_r|]. cbn. rewrite IH. unfold log. by rewrite <-app_assoc. Qed.

Section serving.
Context `{Build} `{PoolOps} `{!PoolLaws} `{!WriteOps} `{!WriteLaws} `{!KvOps} `{!KvLaws} (self : KvStore.t).
Context (fuel B : nat) (HB : (B * B ≤ fuel)%nat) (root : Z).
Implicit Types (σ : pool) (V : gmap Z node_view).

Lemma store_keeps σ σ' V h ls m : keeps V σ σ' → store σ V root h ls m → store σ' V root h ls m.
Proof. intros K []. constructor; try done; [by eapply keeps_holds|]. destruct K as (_ & -> & _). done. Qed.

Definition reach σ V h ls : nat := (extent V h ls + credit σ + 16)%nat.

(** What a command leaves. *)
Record serves σ V h ls m (c : Command) (r : Response) σ' V' h' ls' m' : Prop := {
  sv_store : store σ' V' root h' ls' m';
  sv_answer : answers (credit σ - credit σ') m c r m';
  sv_credit : (credit σ' ≤ credit σ)%nat;
  sv_extent : (extent V' h' ls' ≤ extent V h ls + 2)%nat;
  sv_spare : spare σ - 3 * Z.of_nat B ≤ spare σ';
  sv_durable : KvStore.sync_mode self = Strict → (∃ k v, c = Put k v) → appended_lsn σ' ≤ durable_lsn σ';
}.

(** A command that leaves the tree as it is. *)
Lemma serves_same σ σ' V h ls m c r :
  store σ V root h ls m → keeps V σ σ' → answers (credit σ - credit σ') m c r m → (∀ k v, c ≠ Put k v) →
  serves σ V h ls m c r σ' V h ls m.
Proof.
  intros Hs K Ha Hc. constructor; [by eapply store_keeps|done| | | |]; [by destruct K as (_ & _ & ? & _)|lia| |].
  - destruct K as (_ & _ & _ & _ & _ & ?). lia.
  - intros _ (k & v & E). by destruct (Hc k v).
Qed.

Lemma does_reads {A} V σ (c : R A) (P : A → pool → Prop) (k : A → R Response) (Q : Response → pool → Prop) :
  steps V nowhere c σ P → (∀ a σ', keeps V σ σ' → P a σ' → does (k a) σ' Q) → does (R_bind c k) σ Q.
Proof. intros Hs HQ. apply does_then. eapply does_steps; [exact Hs|exact HQ]. Qed.

Lemma steps_flush_wal V σ : steps V nowhere KvStore.flush_wal σ (λ _ σ', appended_lsn σ' ≤ durable_lsn σ').
Proof.
  unfold steps, KvStore.flush_wal, R_bind, call, R_ret. pose proof (wal_flush_ok V σ) as E. destruct (wal_flush σ) as [σ' lsn].
  destruct E as (K & Ea & Hd). split; [done|]. cbn. lia.
Qed.

Lemma steps_io V (f : pool → pool * IoResult) (k : IoResult → R IoResult) σ :
  keeps V σ (f σ).1 → (∀ r σ', keeps V σ σ' → steps V nowhere (k r) σ' (λ _ _, True)) →
  steps V nowhere (let! r := call f in k r)%R σ (λ _ _, True).
Proof.
  intros K Hk. eapply (steps_bind _ _ _ _ _ (λ _ _, True)); [apply steps_call; by destruct (f σ)|]. intros r σ' K' _. by apply Hk.
Qed.

Lemma steps_try V r (k : R IoResult) σ :
  steps V nowhere k σ (λ _ _, True) → steps V nowhere (KvStore.try r k) σ (λ _ _, True).
Proof. intros Hk. destruct r; [done|]. by apply steps_ret. Qed.

Lemma steps_wal V σ : steps V nowhere (call wal_flush) σ (λ _ _, True).
Proof. apply steps_call. pose proof (wal_flush_ok V σ) as E. destruct (wal_flush σ). by destruct E as (? & _). Qed.

Lemma sync_served V σ : steps V nowhere KvStore.sync σ (λ _ _, True).
Proof.
  eapply steps_bind; [apply steps_wal|]. intros _ σ1 _ _. apply steps_io; [apply pool_flush_ok|]. intros r σ2 _. by apply steps_try, steps_ret.
Qed.

Lemma root_step V σ : holds σ V → is_Some (V !! root_pid σ) → steps V nowhere root_page_id σ (λ _ _, True).
Proof.
  intros Hh HV. pose proof (does_root_page_id V σ (λ _ σ', σ' = σ) Hh HV eq_refl) as Hd.
  unfold does, steps in *. destruct (root_page_id σ) as [[σ' [a|]]|]; [|done|done]. by subst.
Qed.

Lemma checkpoint_served V σ : holds σ V → is_Some (V !! root_pid σ) → steps V nowhere KvStore.checkpoint σ (λ _ _, True).
Proof.
  intros Hh HV. eapply steps_bind; [apply steps_wal|]. intros lsn σ1 K1 _. apply steps_io; [apply pool_flush_ok|]. intros r σ2 K2.
  apply steps_try. assert (K : keeps V σ σ2) by (by etrans). eapply steps_bind.
  { apply root_step; [by eapply keeps_holds|]. by destruct K as (_ & -> & _). }
  intros pid σ3 _ _. eapply (steps_bind _ _ _ _ _ (λ _ _, True)); [by apply steps_update; [apply user_meta_0_ok|]|]. intros _ σ4 _ _.
  eapply (steps_bind _ _ _ _ _ (λ _ _, True)); [by apply (steps_get _ _ tree_height)|]. intros hh σ5 _ _.
  eapply (steps_bind _ _ _ _ _ (λ _ _, True)); [by apply steps_update; [apply user_meta_1_ok|]|]. intros _ σ6 _ _.
  eapply (steps_bind _ _ _ _ _ (λ o _, is_Some o)); [apply (steps_get _ _ reachable_page_count), page_count_ok|]. intros o σ7 _ [n ->].
  eapply steps_lift_bind; [done|].
  eapply (steps_bind _ _ _ _ _ (λ _ _, True)); [by apply steps_update; [apply user_meta_2_ok|]|]. intros _ σ8 _ _.
  eapply (steps_bind _ _ _ _ _ (λ _ _, True)); [by apply steps_update; [apply checkpoint_lsn_ok|]|]. intros _ σ9 _ _.
  apply steps_io; [apply store_sync_ok|]. intros r' σ10 _. apply steps_try. apply steps_io; [apply wal_reset_ok|]. intros r'' σ11 _.
  by apply steps_try, steps_ret.
Qed.

Lemma put_served σ V h ls m key value :
  store σ V root h ls m → entry_small (key, value) → (reach σ V h ls ≤ B)%nat → 3 * Z.of_nat B ≤ spare σ →
  does (exec self fuel (Put key value)) σ (λ r σ', ∃ V' h' ls' m', serves σ V h ls m (Put key value) r σ' V' h' ls' m').
Proof.
  intros Hs He Hr Hsp. unfold reach in Hr. assert (Hc : (cost V ∅ < extent V h ls)%nat) by (unfold extent; lia).
  destruct (writes_refine (KvStore.tree self) upsert_leaf key value (λ m, <[key := value]> m) fuel fuel fuel fuel σ V root h ls m)
    as (σ1 & V1 & h1 & ls1 & E & Hs1 & [Uc Ue Ucr Usp]); [by apply upsert_leaf_acts|done| |].
  { unfold roomy, turns_of, pages_of, turns_of. split_and!; [nia|nia|nia|nia|lia]. }
  unfold pages_of, turns_of in Usp. apply does_then, does_then.
  change (BTreeWrite.upsert (KvStore.tree self) fuel fuel fuel fuel key value)
    with (write_loop (KvStore.tree self) upsert_leaf fuel fuel fuel fuel 0 key value).
  unfold does at 1. rewrite E. unfold KvStore.finish_mutation. apply does_then.
  assert (HQ : ∀ σ', keeps V1 σ1 σ' → (KvStore.sync_mode self = Strict → appended_lsn σ' ≤ durable_lsn σ') →
    does (R_ret (bool_decide (m !! key = None))) σ' (λ b σ'', does (R_ret (AnsBool b)) σ'' (λ r σ3,
      ∃ V' h' ls' m', serves σ V h ls m (Put key value) r σ3 V' h' ls' m'))).
  { intros σ' K Hd. apply does_ret, does_ret. exists V1, h1, ls1, (<[key := value]> m).
    pose proof K as (_ & _ & Hcr' & _ & _ & Hsp'). constructor; [by eapply store_keeps|done|lia|lia|lia|by auto]. }
  destruct (decide _) as [Hst|Hst].
  - eapply (does_steps V1); [apply steps_flush_wal|]. intros [] σ2 K2 Hd. by apply HQ.
  - apply does_ret, HQ; [reflexivity|done].
Qed.

Lemma get_served σ V h ls m key :
  store σ V root h ls m → (reach σ V h ls ≤ B)%nat →
  does (exec self fuel (Get key)) σ (λ r σ', serves σ V h ls m (Get key) r σ' V h ls m).
Proof.
  intros Hs Hr. pose proof Hs as [T Hh Hrt Hf Hm]. unfold reach, extent in Hr.
  assert (Hfu : (fuel_for h ls σ ≤ fuel)%nat) by (unfold fuel_for; nia).
  eapply (does_reads V).
  { apply (lookup_loop_spec (KvStore.tree self) V root h ls m T key read_optimistic (λ o, o) fuel); [apply read_optimistic_ok| |done|done|done].
    intros. by apply (lookup_fallback_spec V root h ls m T key). }
  intros o σ' K Ho. apply does_ret. apply serves_same; [done|done| |done]. split; [done|].
  destruct Ho as [->|[-> Hd]]; [by left|right]. split; [done|]. exact Hd.
Qed.

Lemma scan_all_served σ V h ls m :
  store σ V root h ls m → (reach σ V h ls ≤ B)%nat →
  does (exec self fuel ScanAll) σ (λ r σ', serves σ V h ls m ScanAll r σ' V h ls m).
Proof.
  intros Hs Hr. pose proof Hs as [T Hh Hrt Hf Hm]. pose proof (entries_extent _ _ _ _ _ T) as Hen. unfold reach in Hr.
  eapply (does_reads V).
  { apply (scan_spec (KvStore.tree self) V root h ls m T log fuel fuel fuel [] σ); [done|done|unfold deep, extent in *; nia|nia|nia]. }
  intros es σ' K ->. apply does_ret. apply serves_same; [done|done| |done]. split; [done|].
  exists (entries_of ls). split_and!; [apply T|symmetry; apply T|by rewrite log_all].
Qed.

Lemma scan_range_served σ V h ls m start stop :
  store σ V root h ls m → (reach σ V h ls ≤ B)%nat →
  does (exec self fuel (ScanRange start stop)) σ (λ r σ', serves σ V h ls m (ScanRange start stop) r σ' V h ls m).
Proof.
  intros Hs Hr. pose proof Hs as [T Hh Hrt Hf Hm]. unfold reach in Hr.
  eapply (does_reads V).
  { apply (scan_range_spec V root h ls m T (λ a k v, (log a k v, true)) fuel (Included start) (Excluded stop) [] σ); [done|done|].
    unfold deep, extent in *. nia. }
  intros es σ' K Hd. apply does_ret. apply serves_same; [done|done| |done]. split; [done|].
  destruct Hd as [->|[-> Hd]]; [left|right; split; [done|lia]].
  exists (entries_of ls). split_and!; [apply T|symmetry; apply T|]. by rewrite deliver_log.
Qed.

Lemma io_served σ V h ls m c (io : R IoResult) :
  store σ V root h ls m → steps V nowhere io σ (λ _ _, True) → c = FlushWal ∨ c = Sync ∨ c = Checkpoint →
  does (let! r := io in R_ret (AnsIo r))%R σ (λ r σ', serves σ V h ls m c r σ' V h ls m).
Proof.
  intros Hs Hio Hc. eapply (does_reads V); [exact Hio|]. intros r σ' K _. apply does_ret.
  apply serves_same; [done|done| |by destruct Hc as [-> |[-> | ->]]]. destruct Hc as [-> |[-> | ->]]; (split; [done|by eexists]).
Qed.

Lemma root_kept σ V h ls m : store σ V root h ls m → is_Some (V !! root_pid σ).
Proof.
  intros [T _ -> _ _]. pose proof (tree_nodes _ _ _ _ _ T) as Hn. destruct h; cbn in Hn.
  - destruct Hn as (l & r & es & -> & _). by eexists.
  - destruct Hn as (ks & cps & lss & -> & _). by eexists.
Qed.

Lemma exec_spec σ V h ls m c :
  store σ V root h ls m → command_small c → (reach σ V h ls ≤ B)%nat → 3 * Z.of_nat B ≤ spare σ →
  does (exec self fuel c) σ (λ r σ', ∃ V' h' ls' m', serves σ V h ls m c r σ' V' h' ls' m').
Proof.
  intros Hs Hc Hr Hsp. assert (Hsame : ∀ d, does d σ (λ r σ', serves σ V h ls m c r σ' V h ls m) →
    does d σ (λ r σ', ∃ V' h' ls' m', serves σ V h ls m c r σ' V' h' ls' m')).
  { intros d Hd. eapply does_mono; [exact Hd|]. intros r σ' Hsv. by exists V, h, ls, m. }
  destruct c as [key value|key| |start stop| | |]; [by apply put_served|apply Hsame..].
  - by apply get_served.
  - by apply scan_all_served.
  - by apply scan_range_served.
  - eapply (does_reads V); [apply steps_flush_wal|]. intros [] σ' K _. apply does_ret. apply serves_same; [done|done| |done].
    split; [done|by eexists].
  - apply io_served; [done|apply sync_served|auto].
  - apply io_served; [done| |auto]. apply checkpoint_served; [apply Hs|by eapply root_kept].
Qed.

(** Enough for a session: every command may add an entry. *)
Definition ample (cs : list Command) σ V h ls : Prop :=
  (reach σ V h ls + 2 * length cs ≤ B)%nat ∧ 3 * Z.of_nat B * Z.of_nat (length cs) ≤ spare σ.

Lemma exec_all_spec cs : ∀ σ V h ls m,
  store σ V root h ls m → Forall command_small cs → ample cs σ V h ls →
  does (exec_all self fuel cs) σ (λ rs σ', ∃ d V' h' ls' m', (d ≤ credit σ)%nat ∧ session d m cs rs m' ∧
    store σ' V' root h' ls' m' ∧
    (KvStore.sync_mode self = Strict → (∃ k v, last cs = Some (Put k v)) ∨ cs = [] ∧ appended_lsn σ ≤ durable_lsn σ →
      appended_lsn σ' ≤ durable_lsn σ')).
Proof.
  induction cs as [|c cs IH]; intros σ V h ls m Hs Hsm [Hb Hsp]; cbn [exec_all].
  { apply does_ret. exists 0%nat, V, h, ls, m. split_and!; [lia|constructor|done|]. by intros _ [(k & v & ?)|[_ ?]]. }
  apply Forall_cons in Hsm as [Hc Hsm]. cbn [length] in Hb, Hsp. apply does_then.
  eapply does_mono; [apply (exec_spec σ V h ls m c); [done|done|lia|nia]|].
  intros r σ1 (V1 & h1 & ls1 & m1 & [Hs1 Ha Hcr He Hsp1 Hdu]). apply does_then.
  eapply does_mono; [apply (IH σ1 V1 h1 ls1 m1 Hs1 Hsm)|].
  { split; [unfold reach in *; lia|nia]. }
  intros rs σ2 (d & V2 & h2 & ls2 & m2 & Hd & Hse & Hs2 & Hdu2). apply does_ret.
  exists (credit σ - credit σ1 + d)%nat, V2, h2, ls2, m2. split_and!; [lia|by econstructor|done|].
  intros Hst [(k & v & Hl)|[? _]]; [|done]. apply Hdu2; [done|]. destruct cs as [|c' cs]; [right|left; by eauto].
  injection Hl as ->. split; [done|]. apply Hdu; [done|by eauto].
Qed.
End serving.

(** C6: a session refines a finite map, on a store whose tree has no empty
    leaf (a lone root excepted), as a store that was only put to has and one
    that was deleted from need not have. Any sequence of puts of small entries,
    gets, scans, flushes and checkpoints returns, whatever the pool refuses,
    tears or evicts and whether or not the flushes fail; every put answers
    whether the key was absent, every get what the last put of the key bound
    it to, every scan the entries in key order, but for gets during which the
    pool has refused 64 pins and range scans during which it has refused one;
    and at the end the pool holds such a tree of the map. In strict mode every
    record appended to the log is durable when a put returns. *)
Theorem kv_sessions_refine `{Build} `{PoolOps} `{!PoolLaws} `{!WriteOps} `{!WriteLaws} `{!KvOps} `{!KvLaws}
    (self : KvStore.t) (fuel B : nat) root cs (σ : pool) V h ls m :
  store σ V root h ls m → Forall command_small cs → ample B cs σ V h ls → (B * B ≤ fuel)%nat →
  ∃ σ' rs d V' h' ls' m', exec_all self fuel cs σ = Ret (σ', Some rs) ∧ session d m cs rs m' ∧ (d ≤ credit σ)%nat ∧
    store σ' V' root h' ls' m' ∧
    (KvStore.sync_mode self = Strict → (∃ k v, last cs = Some (Put k v)) → appended_lsn σ' ≤ durable_lsn σ').
Proof.
  intros Hs Hc Ha HB. pose proof (exec_all_spec self fuel B HB root cs σ V h ls m Hs Hc Ha) as Hd. unfold does in Hd.
  destruct (exec_all self fuel cs σ) as [[σ' [rs|]]|]; [|done|done]. destruct Hd as (d & V' & h' & ls' & m' & Hd & Hse & Hs' & Hdu).
  exists σ', rs, d, V', h', ls', m'. split_and!; [done|done|done|done|]. intros Hst Hl. apply Hdu; [done|by left].
Qed.

(** ** A pool with a log

    Over any pool of pages: a log of the dirty marks, which a flush makes
    durable, and a file that never fails. *)

Module Logged.
Section logged.
Context `{Bd : Build} `{Po : PoolOps}.
Record t := { base : pool; appended : Z; durable : Z }.

Definition set_base (σ : t) (σ' : pool) : t := {| base := σ'; appended := appended σ; durable := durable σ |}.
Definition through {A} (f : pool → pool * A) (σ : t) : t * A := let '(σ', a) := f (base σ) in (set_base σ σ', a).
Definition append (σ : t) : t := {| base := base σ; appended := appended σ + 1; durable := durable σ |}.
Definition flush (σ : t) : t * Z := ({| base := base σ; appended := appended σ; durable := appended σ |}, appended σ).
End logged.
End Logged.

Section logged.
Context `{Bd : Build} `{Po : PoolOps} `{Pl : !PoolLaws} `{Wo : !WriteOps} `{Wl : !WriteLaws}.
Import Logged.
Implicit Types σ : Logged.t.

#[local] Instance logged_ops : PoolOps := {
  pool := Logged.t;
  page_bytes σ := page_bytes (base σ);
  word_target σ := word_target (base σ);
  meta_swip σ := meta_swip (base σ);
  hot_swip σ := hot_swip (base σ);
  contains_frame σ := contains_frame (base σ);
  logs_ranges σ := logs_ranges (base σ);
  fix_stable := through fix_stable;
  fix_orphan_frame σ pid := through (λ s, fix_orphan_frame s pid) σ;
  try_fix_orphan_frame σ pid := through (λ s, try_fix_orphan_frame s pid) σ;
  pin_child σ w := through (λ s, pin_child s w) σ;
  try_pin_child σ w := through (λ s, try_pin_child s w) σ;
  optimistic σ pid := through (λ s, optimistic s pid) σ;
  validate σ pid b := through (λ s, validate s pid b) σ;
  try_exclusive σ pid := through (λ s, try_exclusive s pid) σ;
  upgrade_to_shared σ pid b := through (λ s, upgrade_to_shared s pid b) σ;
  try_upgrade_to_exclusive σ pid b := through (λ s, try_upgrade_to_exclusive s pid b) σ;
  set_page σ pid p := set_base σ (set_page (base σ) pid p);
  set_parent_link σ pid l := set_base σ (set_parent_link (base σ) pid l);
}.

(** A call that goes through, by the law of the pool below. *)
#[local] Ltac below E := pose proof E as X; cbn; unfold through; match type of X with let '(_, _) := ?c in _ => destruct c end; exact X.

#[local] Instance logged_laws : PoolLaws (H0 := logged_ops).
Proof using Pl.
  refine (Build_PoolLaws Bd logged_ops (λ σ, root_pid (base σ)) (λ σ, credit (base σ)) (λ σ, spare (base σ))
    (λ σ, pinned (base σ)) (λ σ, frame_pin (base σ)) _ _ _ _ _ _ _ _ _ _ _ _ _ _ _ _).
  - intros σ. exact (word_target_ok (base σ)).
  - intros σ. exact (frame_pin_ok (base σ)).
  - intros σ. exact (hot_swip_ok (base σ)).
  - intros σ. exact (meta_swip_ok (base σ)).
  - intros V σ. below (fix_stable_ok V (base σ)).
  - intros V σ pid Hh HV. below (fix_orphan_ok V (base σ) pid Hh HV).
  - intros V σ pid Hh HV. below (try_fix_orphan_ok V (base σ) pid Hh HV).
  - intros V σ w. below (pin_child_ok V (base σ) w).
  - intros V σ w. below (try_pin_child_ok V (base σ) w).
  - intros V σ pid. below (optimistic_ok V (base σ) pid).
  - intros V σ pid b. below (validate_ok V (base σ) pid b).
  - intros V σ pid b. below (upgrade_to_shared_ok V (base σ) pid b).
  - intros V σ pid b. below (try_upgrade_ok V (base σ) pid b).
  - intros V σ pid. below (try_exclusive_ok V (base σ) pid).
  - intros V σ pid p. exact (set_page_ok V (base σ) pid p).
  - intros V σ pid l. exact (set_parent_link_ok V (base σ) pid l).
Defined.

#[local] Instance logged_wops : WriteOps (H := logged_ops) := @Build_WriteOps logged_ops
  (λ σ, frames_of (base σ)) (λ σ, frame_ref (base σ)) (λ σ pid b, through (λ s, upgrade_to_exclusive s pid b) σ)
  (through allocate_unlinked) (λ σ pid, set_base σ (drop_unlinked (base σ) pid)) (λ σ pid, set_base σ (finish_publication (base σ) pid))
  (λ σ pid d, append (set_base σ (mark_dirty (base σ) pid d))) (λ σ pid, set_base σ (clear_parent_link (base σ) pid))
  (λ σ d, set_base σ (add_height (base σ) d)) (λ σ d, set_base σ (add_reachable_pages (base σ) d)).

#[local] Instance logged_wlaws : WriteLaws (H0 := logged_ops).
Proof using Wl.
  constructor.
  - intros V σ. exact (held_ok V (base σ)).
  - intros σ. exact (frame_ref_ok (base σ)).
  - intros σ w w' q Hq. cbn. unfold through. pose proof (pin_targets (base σ) w w' q Hq) as X. destruct (try_pin_child (base σ) w). exact X.
  - intros V σ pid b. below (upgrade_ok V (base σ) pid b).
  - intros V σ Hh Hs. below (allocate_ok V (base σ) Hh Hs).
  - intros V σ pid. exact (drop_ok V (base σ) pid).
  - intros V σ pid. exact (finish_publication_ok V (base σ) pid).
  - intros V σ pid d. exact (mark_dirty_ok V (base σ) pid d).
  - intros V σ d. exact (add_height_ok V (base σ) d).
  - intros V σ d. exact (add_reachable_pages_ok V (base σ) d).
Qed.

#[local] Instance logged_kvops : KvOps (H := logged_ops) := @Build_KvOps logged_ops
  appended durable flush (λ σ, (σ, IoOk)) (λ σ, (σ, IoOk)) (λ _, 1) (λ _, Some 1)
  (λ σ _, σ) (λ σ _, σ) (λ σ _, σ) (λ σ _, σ) (λ σ, (σ, IoOk)).

Lemma keeps_base V σ σ' : base σ' = base σ → keeps (H0 := logged_ops) (PoolLaws := logged_laws) V σ σ'.
Proof. intros E. change (keeps V (base σ) (base σ')). rewrite E. reflexivity. Qed.

#[local] Instance logged_kvlaws : KvLaws (H0 := logged_ops).
Proof using Pl.
  constructor; intros; try by apply keeps_base.
  - cbn. split_and!; [by apply keeps_base|done|lia].
  - by eexists.
Qed.
End logged.

Definition sample_session : list Command :=
  [Put [x62] [x09]; Get [x62]; Put [x65] [x05]; ScanAll; ScanRange [x61] [x64]; Checkpoint; Put [x61] []].

Definition strict_store : KvStore.t := {| KvStore.tree := {| BTree.dt_id := 7 |}; KvStore.sync_mode := Strict |}.
Definition log_ops : PoolOps := logged_ops (Po := mem_ops (H := debug_4k)).
Definition log_laws : PoolLaws (H := debug_4k) (H0 := log_ops) := logged_laws (Bd := debug_4k) (Pl := mem_laws (H := debug_4k)).
Definition log_wops : WriteOps (H := log_ops) := logged_wops (Wo := mem_wops debug_4k).
Definition log_wlaws : WriteLaws (H := debug_4k) (H0 := log_ops) := logged_wlaws (Wl := mem_wlaws (H := debug_4k)).
Definition log_kvops : KvOps (H := log_ops) := logged_kvops.
Definition log_kvlaws : KvLaws (H := debug_4k) (H0 := log_ops) := logged_kvlaws (Pl := mem_laws (H := debug_4k)).

(** The sample tree, with two records of the log that are not durable. *)
Definition behind_log : Logged.t (Po := mem_ops (H := debug_4k)) :=
  Logged.Build_t (Po := mem_ops (H := debug_4k)) calm 9 7.

Lemma behind_log_store : store (H := debug_4k) (H0 := log_ops) (H1 := log_laws) behind_log sample_view 1 1 sample_leaves sample_map.
Proof. destruct calm_store as [T Hh Hr Hf Hm]. constructor; [exact T|exact Hh|exact Hr|exact Hf|exact Hm]. Qed.

Lemma strict_run :
  match exec_all (H := debug_4k) (H0 := log_ops) (H1 := log_wops) (H2 := log_kvops) strict_store 1600 sample_session behind_log with
  | Ret (σ', Some rs) => (Logged.appended σ', Logged.durable σ', length rs)
  | _ => (0, 0, 0%nat)
  end = (12, 12, 7%nat).
Proof. vm_compute. reflexivity. Qed.

Lemma kv_sessions_refine_witness :
  ∃ σ' rs d V' h' ls' m',
    exec_all (H := debug_4k) (H0 := log_ops) (H1 := log_wops) (H2 := log_kvops) strict_store 1600 sample_session behind_log = Ret (σ', Some rs) ∧
    session d sample_map sample_session rs m' ∧ (d ≤ 1)%nat ∧
    store (H := debug_4k) (H0 := log_ops) (H1 := log_laws) σ' V' 1 h' ls' m' ∧
    Logged.appended behind_log < Logged.appended σ' ∧ Logged.durable behind_log < Logged.appended behind_log ∧
    Logged.appended σ' ≤ Logged.durable σ'.
Proof.
  destruct (kv_sessions_refine (H := debug_4k) (H0 := log_ops) (H1 := log_laws) (H2 := log_wops) (H3 := log_wlaws)
    (H4 := log_kvops) (H5 := log_kvlaws) strict_store 1600 40 1 sample_session behind_log _ 1 sample_leaves _ behind_log_store)
    as (σ' & rs & d & V' & h' & ls' & m' & E & Hse & Hd & Hs & Hdu).
  - repeat apply Forall_cons_2; try exact I; try apply Forall_nil_2; refine (bool_decide_unpack _ _); vm_compute; exact I.
  - split; [apply Nat.leb_le; vm_compute; reflexivity|vm_compute; congruence].
  - apply Nat.leb_le. vm_compute. reflexivity.
  - exists σ', rs, d, V', h', ls', m'. split_and!; [exact E|exact Hse|exact Hd|exact Hs| |reflexivity|].
    + pose proof strict_run as Er. rewrite E in Er. injection Er as -> _ _. reflexivity.
    + apply Hdu; [reflexivity|]. exists [x61], []. reflexivity.
Defined.
