(* ===== verification/BTreeEvict.v ===== *)
(** * B-tree: eviction of a child

    Models [eviction_unswizzle] of [src/crates/btree/src/btree.rs], with which
    the buffer pool makes the tree forget a frame that it is about to evict,
    when the back link of the frame is stale: a walk from the root that looks
    for the edge to the frame and puts the page identifier in its place. *)

From S2P Require Import Prelude Bytes FrameKernel SwipKernel PageHeader PageMutation Slotted SlottedInv SlottedOps SlottedSearch SlottedMutation SlottedSpec BufferFrame BTreeNode BTreeNodeInv BTreePages BTreeSplitSpec BTreeInnerSpec BTreeRoute BTreeNodeSpec BTreePool BTreeRead BTreeTree BTreeGrow BTreeReadSpec BTreeScan BTreeScanSpec BTreeTreeSpec BTreeWrite BTreeMerge BTreeRemove BTreeDescent BTreeWorld BTreePublish BTreeSearchParent BTreeWriteSpec.
#[local] Open Scope Z_scope.
Import SlottedHeader SlottedPage.

Definition MAX_EVICTION_UNSWIZZLE_VISITS : Z := 262144.
Definition MAX_EVICTION_UNSWIZZLE_RESTARTS : Z := 64.

Class EvictOps `{PoolOps} := {
  (** [frame_ref().state() == FrameState::Resident]. *)
  frame_resident : pool → Z → bool;
  store_meta_swip : pool → Z → pool;
  mark_header_dirty : pool → Z → pool;
}.

(** [for_each_child_route]: the routes its callback is given before it ends,
    and whether it ends with [Some]. *)
Fixpoint visit_routes_loop `{Build} (b : page) (ids : list Z) : outcome (list RoutedChildRef.t * bool) :=
  match ids with
  | [] => Ret ([], true)
  | pos :: ids =>
      o ← try_get_value b pos;
      match o with
      | Some val =>
          if zlen val <? 8 then Ret ([], false) else
          raw ← slice val 0 8;
          r ← visit_routes_loop b ids;
          Ret ({| RoutedChildRef.swip := SwipWord.from_raw (of_le_bytes raw);
                  RoutedChildRef.edge := ParentEdge.Slot pos |} :: r.1, r.2)
      | None => Ret ([], false)
      end
  end.

Definition visit_routes `{Build} (b : page) : outcome (list RoutedChildRef.t * bool) :=
  let count := num_slots b in
  if PAGE_SIZE / 12 <? count then Ret ([], false) else
  r ← visit_routes_loop b (seqZ 0 count);
  Ret (if r.2 : bool
       then (r.1 ++ [{| RoutedChildRef.swip := BTreeNode.upper_swip b; RoutedChildRef.edge := ParentEdge.Upper |}], true)
       else r).

Section evict.
Context `{Build} `{PoolOps} `{!WriteOps} `{!EvictOps}.
#[local] Open Scope restart_scope.

(** The callback of the walk: the children it pushes, in order, and
    [has_evicted_target_edge]. *)
Fixpoint push_children (child_pid : Z) (routes : list RoutedChildRef.t) : R (list Z * bool) :=
  match routes with
  | [] => R_ret ([], false)
  | routed :: routes =>
      let! first :=
        (if RoutedChildRef.is_resident routed then
           let! o := try_pin_resident routed in
           R_ret (match o with Some child => [child] | None => [] end, false)
         else
           let! pid := lift (RoutedChildRef.evicted_page_id routed) in
           R_ret ([], pid =? child_pid)) in
      let! rest := push_children child_pid routes in
      R_ret (first.1 ++ rest.1, first.2 || rest.2)
  end.

(** What follows when the parent is found: [false] when it cannot be latched. *)
Definition correct_edge (child child_pid node : Z) (b : page) : R bool :=
  let! ok := call (λ σ, upgrade_to_exclusive σ node b) in
  if negb ok then R_ret false else
  let! p := latched node in
  let! o := lift (child_edge_for_evicting p child) in
  match o with
  | Some edge =>
      let! logs := get_logs in
      let! w := lift (SwipWord.evicted child_pid) in
      let! parent := lift (ExclusiveNode.set_child_edge_swip (ExclusiveNode.new logs p) edge w) in
      put_page node (ExclusiveNode.page parent) ;!
      update (λ σ, mark_header_dirty σ node) ;!
      R_ret true
  | None => R_ret true
  end.

(** The loop; the top of the stack comes first. *)
Fixpoint eviction_walk (fuel : nat) (child child_pid root_swip visited restarts : Z) (stack : list Z) : R bool :=
  match fuel with
  | O => λ _, Panic
  | S fuel =>
      match stack with
      | [] => R_ret false
      | node :: stack =>
          let visited := visited + 1 in
          if (MAX_EVICTION_UNSWIZZLE_VISITS <? visited) || (MAX_EVICTION_UNSWIZZLE_RESTARTS <? restarts) then R_ret false else
          let go := eviction_walk fuel child child_pid root_swip visited in
          let restart pin :=
            (let! o := pin in
             match o with
             | None => R_ret false
             | Some root => go (restarts + 1) [root]
             end) in
          let! resident := call (λ σ, (σ, frame_resident σ node)) in
          if negb resident then go restarts stack else
          let! o := call (λ σ, optimistic σ node) in
          match o with
          | None => go restarts stack
          | Some b =>
              if BTreeNode.is_leaf b then go restarts stack else
              let! edge := lift (child_edge_for_evicting b child) in
              if bool_decide (is_Some edge) then
                let! ok := call (λ σ, validate σ node b) in
                if negb ok then restart (call (λ σ, try_pin_child σ root_swip))
                else correct_edge child child_pid node b
              else
                let! routes := lift (visit_routes b) in
                let! pushed := push_children child_pid routes.1 in
                if pushed.2 : bool then
                  let! ok := call (λ σ, validate σ node b) in
                  if negb ok then restart (call (λ σ, try_pin_child σ root_swip))
                  else correct_edge child child_pid node b
                else if negb routes.2 then restart (call (λ σ, try_pin_child σ root_swip))
                else
                  let! ok := call (λ σ, validate σ node b) in
                  if negb ok then restart (call (λ σ, pin_child σ root_swip))
                  else go restarts (reverse pushed.1 ++ stack)
          end
      end
  end.

(** [child] is the frame and [child_pid] the page in it. *)
Definition eviction_unswizzle (fuel : nat) (child child_pid : Z) : R bool :=
  let! root_swip := call (λ σ, (σ, meta_swip σ)) in
  if negb (SwipWord.is_hot root_swip) then R_ret false else
  let! matches := lift (EvictingFrame.matches_swip child root_swip) in
  if matches then
    let! w := lift (SwipWord.evicted child_pid) in
    update (λ σ, store_meta_swip σ w) ;!
    R_ret true
  else
    let! o := call (λ σ, try_pin_child σ root_swip) in
    match o with
    | None => R_ret false
    | Some root => eviction_walk fuel child child_pid root_swip 0 0 [root]
    end.
End evict.

(** ** Routes *)

Section routes.
Context `{Build}.

Lemma visit_loop_total b ids : zlen b = PAGE_SIZE → ∃ r, visit_routes_loop b ids = Ret r.
Proof.
  intros Hb. induction ids as [|pos ids [r Er]]; [by eexists|]. cbn [visit_routes_loop].
  destruct (try_get_value_total Hb pos) as (o & ->). rewrite bind_Ret. destruct o as [val|]; [|by eexists].
  destruct (Z.ltb_spec (zlen val) 8); [by eexists|]. rewrite slice_Ret, bind_Ret, Er by lia. by eexists.
Qed.

Lemma visit_routes_total b : zlen b = PAGE_SIZE → ∃ r, visit_routes b = Ret r.
Proof.
  intros Hb. unfold visit_routes. destruct (_ <? _); [by eexists|].
  destruct (visit_loop_total b (seqZ 0 (num_slots b)) Hb) as (r & ->). by eexists.
Qed.

Lemma visit_loop_inner p cs u cs2 : ∀ cs1,
  inner_page p cs u → cs = cs1 ++ cs2 →
  visit_routes_loop p (seqZ (zlen cs1) (zlen cs2)) = Ret (slot_routes (zlen cs1) cs2, true).
Proof.
  induction cs2 as [|[k w] cs2 IH]; intros cs1 P E; [by rewrite seqZ_nil by (rewrite zlen_nil; lia)|].
  rewrite seqZ_zlen_cons, slot_routes_cons. cbn [visit_routes_loop].
  destruct (try_child_word p cs u (length cs1) k w P) as [Ev Ew]; [by rewrite E, list_lookup_middle|].
  assert (Ev' : try_get_value p (zlen cs1) = Ret (Some (le_bytes 8 w))) by exact Ev.
  rewrite Ev', bind_Ret. change (zlen (le_bytes 8 w) <? 8) with false.
  rewrite slice_word, bind_Ret. unfold SwipWord.from_raw. rewrite Ew.
  pose proof (IH (cs1 ++ [(k, w)]) P) as IH'. rewrite zlen_app in IH'. change (zlen [(k, w)]) with 1 in IH'.
  rewrite IH' by (by rewrite <-app_assoc). done.
Qed.

Lemma visit_routes_inner p cs u : inner_page p cs u → visit_routes p = Ret (routes cs u, true).
Proof.
  intros P. destruct (inner_count _ _ _ P) as [Hc _]. unfold visit_routes. rewrite Hc.
  pose proof (count_ok (inner_wf _ _ _ P)) as Ho. rewrite zlen_inner_entries in Ho. rewrite Ho.
  pose proof (visit_loop_inner p cs u cs [] P eq_refl) as El. rewrite zlen_nil in El. rewrite El, bind_Ret.
  cbn [fst snd]. rewrite (inner_upper _ _ _ P). by rewrite routes_slots.
Qed.

Lemma routes_words cs u rt : rt ∈ routes cs u → RoutedChildRef.swip rt ∈ children cs u.
Proof.
  unfold routes. intros (i & Hi)%list_elem_of_lookup. rewrite list_lookup_imap in Hi.
  destruct (children cs u !! i) as [w|] eqn:E; [|done]. injection Hi as <-. by eapply list_elem_of_lookup_2.
Qed.

Lemma evicted_id_total rt : RoutedChildRef.is_resident rt = false → ∃ pid, RoutedChildRef.evicted_page_id rt = Ret pid.
Proof.
  intros Hr. unfold RoutedChildRef.evicted_page_id. rewrite Hr. cbn [negb]. rewrite assert_true, bind_Ret by done.
  unfold SwipWord.as_page_id, SwipWord.page_id. rewrite debug_assert_true, bind_Ret; [by eexists|].
  unfold RoutedChildRef.is_resident, SwipWord.is_hot, SwipWord.is_cool, SwipWord.is_evicted, raw_is_hot in *.
  destruct (raw_is_evicted _); [done|]. cbn in Hr. destruct (raw_is_cool _); done.
Qed.

(** The word of a slot, read with bounds checks. *)
Definition try_word (b : page) (pos : Z) : option Z :=
  match try_get_value b pos with
  | Ret (Some val) => if zlen val <? 8 then None else Some (of_le_bytes (sub val 0 8))
  | _ => None
  end.

(** Without them, the same word or a panic. *)
Lemma child_swip_at_word b pos :
  zlen b = PAGE_SIZE → 0 ≤ pos < num_slots b →
  BTreeNode.child_swip_at b pos = match try_word b pos with Some w => Ret w | None => Panic end.
Proof.
  intros Hb Hp. unfold BTreeNode.child_swip_at, try_word, get_value, try_get_value, slot, try_slot_copy, read_slot, opt_bind.
  rewrite debug_assert_true, bind_Ret by lia. rewrite (proj2 (Z.leb_gt (num_slots b) pos)) by lia.
  rewrite Z.leb_antisym. destruct (PAGE_SIZE <? slot_off pos + SLOT_SIZE); cbn [negb]; [done|]. rewrite !bind_Ret.
  set (s := Slot.decode b (slot_off pos)). cbv iota beta.
  destruct (slice b _ _) as [v|] eqn:E.
  - apply slice_inv in E as (_ & Hle & _). rewrite !bind_Ret, (proj2 (Z.ltb_ge PAGE_SIZE _)) by lia. unfold slice.
    rewrite (Z.leb_antisym (zlen v) 8). by destruct (zlen v <? 8).
  - by destruct (PAGE_SIZE <? _).
Qed.

Lemma evicting_matches_total child w : ∃ m, EvictingFrame.matches_swip child w = Ret m.
Proof.
  unfold EvictingFrame.matches_swip, BufferFrameRef.from_hot_swip. destruct (SwipWord.is_hot w || SwipWord.is_cool w) eqn:E; cbn [negb]; [|by eexists].
  unfold SwipWord.as_ptr, SwipWord.pointer_bits. rewrite debug_assert_true; [rewrite !bind_Ret; destruct ((pointer_bits_of w <? PAGE_SIZE) || _); eexists; reflexivity|].
  unfold SwipWord.is_hot, SwipWord.is_cool, SwipWord.is_evicted, raw_is_hot, raw_is_cool in *. by destruct (raw_is_evicted w).
Qed.

(** A slot that cannot be read, before any that matches. *)
Definition unreadable (child : Z) (b : page) (ids : list Z) : Prop :=
  ∃ ids1 pos ids2, ids = ids1 ++ pos :: ids2 ∧ try_word b pos = None ∧
    ∀ i, i ∈ ids1 → ∃ w, try_word b i = Some w ∧ EvictingFrame.matches_swip child w = Ret false.

Lemma edge_loop_panics child b ids :
  zlen b = PAGE_SIZE → (∀ i, i ∈ ids → 0 ≤ i < num_slots b) →
  edge_loop (EvictingFrame.matches_swip child) b ids = Panic ↔ unreadable child b ids.
Proof.
  intros Hb. induction ids as [|pos ids IH]; intros Hi; cbn [edge_loop].
  { split; [done|]. by intros ([|? ?] & ? & ? & ? & _). }
  rewrite child_swip_at_word by (done || apply Hi; left). destruct (try_word b pos) as [w|] eqn:Ew.
  2: { split; [|done]. intros _. exists [], pos, ids. split_and!; [done|done|]. by intros i []%not_elem_of_nil. }
  rewrite bind_Ret. destruct (evicting_matches_total child w) as ([|] & Em); rewrite Em, bind_Ret.
  { split; [done|]. intros ([|y ids1] & x & ids2 & E & Ex & Hf); cbn in E; injection E as <- ->; [congruence|].
    destruct (Hf pos) as (w' & Ew' & Em'); [left|]. congruence. }
  rewrite IH by (intros; apply Hi; by right). split.
  - intros (ids1 & x & ids2 & -> & Ex & Hf). exists (pos :: ids1), x, ids2. split_and!; [done|done|].
    intros i [->|Hin]%elem_of_cons; [by exists w|by apply Hf].
  - intros ([|y ids1] & x & ids2 & E & Ex & Hf); cbn in E; injection E as <- ->; [congruence|].
    exists ids1, x, ids2. split_and!; [done|done|]. intros i Hin. apply Hf. by right.
Qed.

Lemma edges_panic child b :
  zlen b = PAGE_SIZE → child_edge_for_evicting b child = Panic ↔ unreadable child b (seqZ 0 (num_slots b)).
Proof.
  intros Hb. rewrite <-edge_loop_panics; [|done|intros i Hi%elem_of_seqZ; lia].
  unfold child_edge_for_evicting, find_edge. destruct (edge_loop _ _ _) as [[e|]|]; [done| |done].
  rewrite bind_Ret. destruct (evicting_matches_total child (BTreeNode.upper_swip b)) as (m & ->). by destruct m.
Qed.

Lemma edges_readable child b :
  zlen b = PAGE_SIZE → (∀ pos, 0 ≤ pos < num_slots b → is_Some (try_word b pos)) → ∃ o, child_edge_for_evicting b child = Ret o.
Proof.
  intros Hb Hr. destruct (child_edge_for_evicting b child) as [o|] eqn:E; [by eexists|]. exfalso.
  apply edges_panic in E as (ids1 & pos & ids2 & Ei & Ew & _); [|done]. destruct (Hr pos) as [w Hw]; [|congruence].
  assert (Hp : pos ∈ seqZ 0 (num_slots b)) by (rewrite Ei; set_solver). apply elem_of_seqZ in Hp. lia.
Qed.

Lemma inner_readable p cs u pos : inner_page p cs u → 0 ≤ pos < num_slots p → is_Some (try_word p pos).
Proof.
  intros P Hp. destruct (inner_count _ _ _ P) as [Hc _]. destruct (lookup_lt_is_Some_2 cs (Z.to_nat pos)) as [[k w] Ei].
  { rewrite Hc in Hp. unfold zlen in Hp. lia. }
  destruct (try_child_word p cs u (Z.to_nat pos) k w P Ei) as [Ev _]. rewrite Z2Nat.id in Ev by lia.
  unfold try_word. rewrite Ev. by eexists.
Qed.

Lemma visit_loop_ends b ids pos : zlen b = PAGE_SIZE → pos ∈ ids → try_word b pos = None →
  ∃ rts, visit_routes_loop b ids = Ret (rts, false).
Proof.
  intros Hb. induction ids as [|x ids IH]; intros Hin Hw; [by apply elem_of_nil in Hin|]. cbn [visit_routes_loop].
  unfold try_word in Hw. destruct (try_get_value_total Hb x) as (o & Eo). rewrite Eo, bind_Ret. destruct o as [val|]; [|by eexists].
  destruct (Z.ltb_spec (zlen val) 8); [by eexists|]. rewrite slice_Ret, bind_Ret by lia.
  apply elem_of_cons in Hin as [->|Hin]; [rewrite Eo, (proj2 (Z.ltb_ge _ _)) in Hw by lia; done|].
  destruct (IH Hin) as (rts & ->); [done|]. by eexists.
Qed.

Definition resident_word (w : Z) : bool := SwipWord.is_hot w || SwipWord.is_cool w.

Lemma resident_evicted q : swip_valid (EvictedPage q) → resident_word (encode (EvictedPage q)) = false.
Proof. intros Hv. destruct (is_encode _ (swip_valid_ok _ Hv)) as (Eh & Ec & _). unfold resident_word. by rewrite Eh, Ec. Qed.

Lemma evicting_matches child s :
  swip_valid s → EvictingFrame.matches_swip child (encode s) =
    Ret (match s with HotPtr a | CoolPtr a => a =? child | EvictedPage _ => false end).
Proof. intros Hv. unfold EvictingFrame.matches_swip. rewrite from_hot_swip_encode, bind_Ret by done. by destruct s. Qed.
End routes.

(** ** The walk *)

Class EvictLaws `{Build} `{PoolOps} `{!PoolLaws} `{!EvictOps} := {
  store_meta_ok V σ w : word_target σ w = Some (root_pid σ) → keeps V σ (store_meta_swip σ w);
  header_dirty_ok V σ pid : keeps V σ (mark_header_dirty σ pid) ∧ ∀ q, page_bytes (mark_header_dirty σ pid) q = page_bytes σ q;
}.

Section walk.
Context `{Build} `{PoolOps} `{!PoolLaws} `{!WriteOps} `{!WriteLaws} `{!EvictOps} `{!EvictLaws}.
Context (V : gmap Z node_view) (Ts : levels) (root : Z) (ls : list (Z * list entry)).
Context (W : tower V ∅ Ts root ls) (Hc : chained V ls) (child child_pid : Z).
Implicit Types (σ : pool) (b : page).

(** What holds while the callback runs: the frame that is evicted is the
    frame of the page, [w] refers to the root, and the slots of every snapshot
    of an inner node can be read. *)
Record evicting (w : Z) σ : Prop := {
  ev_frame : ∀ σ' s a q, keeps V σ σ' → swip_valid s → s = HotPtr a ∨ s = CoolPtr a → word_target σ' (encode s) = Some q →
    a = child ↔ q = child_pid;
  ev_root : ∀ σ', keeps V σ σ' → word_target σ' w = Some root;
  ev_slots : ∀ σ' h x b, keeps V σ σ' → placed Ts h x → (optimistic σ' x).2 = Some b → BTreeNode.is_leaf b = false →
    ∀ pos, 0 ≤ pos < num_slots b → is_Some (try_word b pos);
}.

Lemma evicting_keeps w σ σ' : keeps V σ σ' → evicting w σ → evicting w σ'.
Proof.
  intros K [E1 E2 E3]. constructor.
  - intros σ2 s a q K2. apply E1. by etrans.
  - intros σ2 K2. apply E2. by etrans.
  - intros σ2 h x b K2. apply (E3 σ2 h). by etrans.
Qed.

(** No node refers to the frame. *)
Definition forgotten σ : Prop := ∀ h G, placed Ts (S h) G → child_edge_for_evicting (page_bytes σ G) child = Ret None.

Lemma placed_top : placed Ts (pred (length Ts)) root.
Proof. pose proof (tw_top _ _ _ _ _ W) as Ht. rewrite last_lookup in Ht. exists [(root, ls)]. split; [done|left]. Qed.

(** The edges of a node. *)
Lemma evict_edge w σ p cps cs u :
  evicting w σ → inner_page p cs u → Forall2 (λ w c, word_target σ w = Some c) (children cs u) cps →
  ∃ f : Z → bool, child_edge_for_evicting p child = Ret (edge_at cs <$> first_at f (children cs u)) ∧
    (∀ x q, x ∈ children cs u → word_target σ x = Some q → f x = true → q = child_pid) ∧
    (∀ p, payload_ok p → f (encode (EvictedPage p)) = false) ∧
    (∀ x, word_target σ x = Some child_pid → resident_word x = true → f x = true).
Proof.
  intros Hev P Hf.
  exists (λ x, match EvictingFrame.matches_swip child x with Ret b => b | Panic => false end). split_and!.
  - apply find_edge_spec; [done|]. intros x (i & Hi)%list_elem_of_lookup. destruct (Forall2_lookup_l _ _ _ _ _ Hf Hi) as (q & _ & Hq).
    destruct (word_target_ok _ _ _ Hq) as (s & Hs & -> & _). by rewrite evicting_matches.
  - intros x q _ Hq Hx. destruct (word_target_ok _ _ _ Hq) as (s & Hs & -> & _). rewrite evicting_matches in Hx by done.
    destruct s as [a|a|?]; [| |done]; apply Z.eqb_eq in Hx;
      (apply (ev_frame _ _ Hev σ _ a q ltac:(reflexivity) Hs); [by auto|done|done]).
  - intros pid Hp. by rewrite (evicting_matches child (EvictedPage pid)).
  - intros x Hx Hr. destruct (word_target_ok _ _ _ Hx) as (s & Hs & -> & _). rewrite evicting_matches by done.
    destruct s as [a|a|q]; [| |by rewrite resident_evicted in Hr]; apply Z.eqb_eq; by apply (ev_frame _ _ Hev σ _ a child_pid ltac:(reflexivity) Hs); auto.
Qed.

(** An inner node of the tree. *)
Lemma inner_node_parts σ h G :
  holds σ V → placed Ts (S h) G → ∃ ks cps cs u, V !! G = Some (InnerView ks cps) ∧ inner_page (page_bytes σ G) cs u ∧ seps cs = ks ∧
    Forall2 (λ w c, word_target σ w = Some c) (children cs u) cps ∧ ∀ c, c ∈ cps → placed Ts h c.
Proof.
  intros Hh HG. destruct (tower_node _ _ _ _ _ _ _ W Hc HG) as (ks & cps & HV & _).
  destruct (holds_inner V σ G ks cps Hh HV) as (cs & u & P & Es & Hf). exists ks, cps, cs, u. split_and!; try done.
  intros c Hin. by eapply placed_child.
Qed.

Lemma level_over h G : placed Ts (S h) G → ∃ T T' Hs, Ts !! h = Some T ∧ Ts !! S h = Some T' ∧ G ∈ T'.*1 ∧ level V Hs T' ∧ NoDup Hs.*1 ∧ NoDup T'.*1.
Proof.
  intros (T' & HT' & HG). destruct (Ts !! h) as [T|] eqn:HT; [|apply lookup_ge_None in HT; apply lookup_lt_Some in HT'; lia].
  destruct (tw_step _ _ _ _ _ W h T T' HT HT') as (Hs & Hh & HL). exists T, T', Hs. split_and!; try done.
  - eapply hangs_nodup; [done|by eapply tower_level_nodup].
  - by eapply tower_level_nodup.
Qed.

Lemma siblings_differ h G ks cps : placed Ts (S h) G → V !! G = Some (InnerView ks cps) → NoDup cps.
Proof.
  intros HG HV. destruct (level_over h G HG) as (T & T' & Hs & _ & _ & HGT & HL & Hn & _). apply in_level in HGT as (A & l & B & ->).
  destruct (level_node V Hs A G l B HL) as (sA & seg & sB & ks' & EH & _ & _ & HV' & _). rewrite HV in HV'. injection HV' as <- ->.
  rewrite EH, !fmap_app in Hn. apply NoDup_app in Hn as (_ & _ & Hn). by apply NoDup_app in Hn as (Hn & _).
Qed.

(** A page has one parent. *)
Lemma one_parent h h' G G' ks cps ks' cps' c :
  placed Ts (S h) G → placed Ts (S h') G' → V !! G = Some (InnerView ks cps) → V !! G' = Some (InnerView ks' cps') →
  c ∈ cps → c ∈ cps' → G = G'.
Proof.
  intros HG HG' HV HV' Hi Hi'. assert (h = h') as <-.
  { eapply (placed_unique _ _ _ _ _ _ _ c W); by eapply placed_child. }
  destruct (level_over h G HG) as (T & T' & Hs & _ & HT' & HGT & HL & Hn & Hn'). destruct HG' as (T2 & HT2 & HG2).
  rewrite HT' in HT2. injection HT2 as <-. by eapply (hangs_children V Hs T' G G').
Qed.

Lemma others_clean w σ h G ks cps :
  holds σ V → evicting w σ → placed Ts (S h) G → V !! G = Some (InnerView ks cps) → child_pid ∉ cps →
  child_edge_for_evicting (page_bytes σ G) child = Ret None.
Proof.
  intros Hh Hev HG HV Hnot. destruct (inner_node_parts σ h G Hh HG) as (ks' & cps' & cs & u & HV' & P & Es & Hf & _).
  rewrite HV in HV'. injection HV' as <- <-. destruct (evict_edge w σ _ cps cs u Hev P Hf) as (f & -> & Hfx & _).
  destruct (first_at f (children cs u)) as [pos|] eqn:E; [|done]. exfalso. apply first_at_Some in E as (x & Hx & Hfx' & _).
  destruct (Forall2_lookup_l _ _ _ _ _ Hf Hx) as (q & Hq & Ht). apply Hnot.
  rewrite <-(Hfx x q); [by eapply list_elem_of_lookup_2|by eapply list_elem_of_lookup_2|done|done].
Qed.

Lemma forgotten_at w σ h G ks cps :
  holds σ V → evicting w σ → placed Ts (S h) G → V !! G = Some (InnerView ks cps) → child_pid ∈ cps →
  child_edge_for_evicting (page_bytes σ G) child = Ret None → forgotten σ.
Proof.
  intros Hh Hev HG HV Hin He h' G' HG'. destruct (decide (G' = G)) as [->|Hne]; [done|].
  destruct (tower_node _ _ _ _ _ _ _ W Hc HG') as (ks' & cps' & HV' & _). eapply others_clean; [done|done|exact HG'|exact HV'|].
  intros Hin'. apply Hne. by eapply (one_parent h' h G' G).
Qed.

(** The edge of the page, by its identifier. *)
Lemma clean_edges w σ p cs u cps (pos : nat) :
  evicting w σ → inner_page p cs u → Forall2 (λ w c, word_target σ w = Some c) (children cs u) cps → NoDup cps →
  cps !! pos = Some child_pid → children cs u !! pos = Some (encode (EvictedPage child_pid)) → payload_ok child_pid →
  child_edge_for_evicting p child = Ret None.
Proof.
  intros Hev P Hf Hn Hq Hx Hp. destruct (evict_edge w σ p cps cs u Hev P Hf) as (f & -> & Hfx & Hfe & _).
  destruct (first_at f (children cs u)) as [i|] eqn:E; [|done]. exfalso. apply first_at_Some in E as (x & Hi & Hfi & _).
  destruct (Forall2_lookup_l _ _ _ _ _ Hf Hi) as (q & Hqi & Ht).
  assert (q = child_pid) as -> by (eapply Hfx; [by eapply list_elem_of_lookup_2|done|done]).
  assert (i = pos) as -> by (by eapply NoDup_lookup). assert (x = encode (EvictedPage child_pid)) as -> by congruence. by rewrite Hfe in Hfi.
Qed.

Lemma correct_edge_spec w σ h G ks cps b :
  holds σ V → evicting w σ → placed Ts (S h) G → V !! G = Some (InnerView ks cps) → child_pid ∈ cps →
  steps V nowhere (correct_edge child child_pid G b) σ (λ r σ', r = (upgrade_to_exclusive σ G b).2 ∧ (r = true → forgotten σ')).
Proof.
  intros Hh Hev HG HV Hin. eapply (steps_bind _ _ _ _ _ (λ ok _, ok = (upgrade_to_exclusive σ G b).2)).
  { apply steps_call. pose proof (upgrade_ok V σ G b) as E. destruct (upgrade_to_exclusive σ G b). by destruct E. }
  intros ok σ1 K1 <-. destruct ok; [|by apply steps_ret]. assert (Hh1 : holds σ1 V) by (by eapply keeps_holds).
  assert (Hev1 : evicting w σ1) by (by eapply evicting_keeps).
  apply steps_latched_bind. destruct (inner_node_parts σ1 h G Hh1 HG) as (ks' & cps' & cs & u & HV' & P & Es & Hf & Hpl).
  rewrite HV in HV'. injection HV' as <- <-. destruct (evict_edge w σ1 _ cps cs u Hev1 P Hf) as (f & Ee & Hfx & _).
  eapply steps_lift_bind; [exact Ee|]. destruct (first_at f (children cs u)) as [pos|] eqn:E; cbn [fmap option_fmap option_map].
  2: { apply steps_ret. split; [done|]. intros _. eapply forgotten_at; [done|done|exact HG|exact HV|done|done]. }
  apply first_at_Some in E as (x & Hx & Hfx' & _). destruct (Forall2_lookup_l _ _ _ _ _ Hf Hx) as (q & Hq & Ht).
  assert (q = child_pid) as -> by (eapply Hfx; [by eapply list_elem_of_lookup_2|done|done]).
  eapply steps_bind; [by apply (steps_get _ _ logs_ranges _ (λ _ σ', σ' = σ1))|]. intros logs ? _ ->.
  destruct (held_ok V σ1 child_pid Hh1) as (_ & Hpay & Htw & _).
  { destruct (tower_shown _ _ _ _ _ child_pid W Hc) as (v & -> & _); [apply in_tower; exists h; by apply Hpl|by eexists]. }
  eapply steps_lift_bind; [by apply evicted_encode|].
  assert (Hpos : (pos ≤ length cs)%nat) by (apply lookup_lt_Some in Hx; rewrite length_children in Hx; lia).
  destruct (inner_count _ _ _ P) as [Hn _].
  destruct (replace_ref (page_bytes σ1 G) cs u pos (encode (EvictedPage child_pid)) (edge_at cs pos) P Hpos) with (logs := logs)
    as (nd & cs' & u' & Es' & P' & Hse & Hch); [by eapply target_word_ok|by rewrite Hn|].
  eapply steps_lift_bind; [exact Es'|].
  assert (Hf' : Forall2 (λ w c, word_target σ1 w = Some c) (children cs' u') cps).
  { rewrite Hch. rewrite <-(list_insert_id cps pos child_pid Hq). by apply Forall2_insert. }
  assert (K : keeps V σ1 (set_page σ1 G (ExclusiveNode.page nd))) by (eapply set_page_keeps; done).
  destruct (set_page_ok V σ1 G (ExclusiveNode.page nd) Hh1) as (Hp & _ & Hw & _); [by eexists|apply (wf_len _ _ _ (inner_wf _ _ _ P'))|].
  eapply (steps_bind _ _ _ _ _ (λ _ σ', σ' = set_page σ1 G (ExclusiveNode.page nd))); [by apply steps_update|]. intros _ ? _ ->.
  set (σ2 := set_page σ1 G (ExclusiveNode.page nd)) in *. destruct (header_dirty_ok V σ2 G) as [K2 Hb2].
  eapply (steps_bind _ _ _ _ _ (λ _ σ', σ' = mark_header_dirty σ2 G)); [by apply steps_update|]. intros _ ? _ ->.
  apply steps_ret. split; [done|]. intros _. set (σ3 := mark_header_dirty σ2 G) in *.
  assert (Hh3 : holds σ3 V) by (do 2 (eapply keeps_holds; [done|]); done).
  assert (Hev3 : evicting w σ3) by (do 2 (eapply evicting_keeps; [done|]); done).
  eapply forgotten_at; [done|done|exact HG|exact HV|done|]. rewrite Hb2, Hp.
  eapply (clean_edges w σ1 _ cs' u' cps pos); [done|done|done|by eapply siblings_differ|done| |done].
  rewrite Hch. apply list_lookup_insert_eq. by eapply lookup_lt_Some.
Qed.

Definition pushed_by (rts : list RoutedChildRef.t) (r : list Z * bool) σ' : Prop :=
  Forall (λ pid, ∃ rt, rt ∈ rts ∧ frame_pin σ' (RoutedChildRef.swip rt) pid) r.1 ∧
  (r.2 = true ↔ ∃ rt, rt ∈ rts ∧ RoutedChildRef.is_resident rt = false ∧ RoutedChildRef.evicted_page_id rt = Ret child_pid).

Lemma push_children_spec rts : ∀ σ, steps V nowhere (push_children child_pid rts) σ (pushed_by rts).
Proof.
  induction rts as [|rt rts IH]; intros σ; cbn [push_children].
  { apply steps_ret. split; [done|]. split; [done|]. by intros (? & []%not_elem_of_nil & _). }
  eapply (steps_bind _ _ _ _ _ (λ r σ', Forall (λ pid, frame_pin σ' (RoutedChildRef.swip rt) pid) r.1 ∧
    (r.2 = true ↔ RoutedChildRef.is_resident rt = false ∧ RoutedChildRef.evicted_page_id rt = Ret child_pid))).
  { destruct (RoutedChildRef.is_resident rt) eqn:Hr.
    - unfold try_pin_resident. rewrite Hr. cbn [negb]. eapply steps_bind; [apply steps_try_pin_child|]. intros o σ1 _ [_ Ho].
      apply steps_ret. split; [|cbn; naive_solver]. destruct o as [c|]; [|by constructor]. cbn. constructor; [apply Ho|done].
    - destruct (evicted_id_total rt Hr) as (pid & E). eapply steps_lift_bind; [exact E|]. apply steps_ret. split; [by constructor|].
      cbn. rewrite Z.eqb_eq, E. naive_solver. }
  intros [ps e] σ1 _ [Hps He]. eapply steps_bind; [apply IH|]. intros [qs e'] σ2 K2 [Hqs He']. apply steps_ret. cbn [fst snd] in *. split; cbn [fst snd].
  - apply Forall_app. split.
    + eapply Forall_impl; [exact Hps|]. intros pid Hp. exists rt. split; [left|]. destruct K2 as (_ & _ & _ & _ & Hk & _). by apply Hk.
    + eapply Forall_impl; [exact Hqs|]. intros pid (rt' & Hin & Hp). exists rt'. split; [by right|done].
  - rewrite orb_true_iff, He, He'. setoid_rewrite elem_of_cons. naive_solver.
Qed.

(** The children of a node that the walk goes on to. *)
Lemma pushed_placed σ h G cs u ks cps pids e :
  placed Ts (S h) G → V !! G = Some (InnerView ks cps) → Forall2 (λ w c, word_target σ w = Some c) (children cs u) cps →
  pushed_by (routes cs u) (pids, e) σ → Forall (λ x, ∃ j, placed Ts j x) pids ∧ (e = true → child_pid ∈ cps).
Proof.
  intros HG HV Hf [Hp [He _]]. cbn in Hp, He. split.
  - eapply Forall_impl; [exact Hp|]. intros pid (rt & Hin%routes_words & Hfp). apply list_elem_of_lookup in Hin as [i Hi].
    destruct (Forall2_lookup_l _ _ _ _ _ Hf Hi) as (c & Hci & Ht). destruct (frame_pin_ok _ _ _ Hfp) as [_ Hq].
    rewrite (Hq c Ht) in Hci. exists h. by eapply placed_child, list_elem_of_lookup_2.
  - intros Ht. destruct (He Ht) as (rt & Hin%routes_words & Hr & Eid). apply list_elem_of_lookup in Hin as [i Hi].
    destruct (Forall2_lookup_l _ _ _ _ _ Hf Hi) as (c & Hci & Htc). destruct (evicted_target σ rt c Htc Hr) as (E & _).
    rewrite E in Eid. injection Eid as ->. by eapply list_elem_of_lookup_2.
Qed.

(** A node whose snapshot does not look like a leaf, validated. *)
Lemma validated_inner σ h x b :
  holds σ V → placed Ts h x → page_bytes σ x = b → BTreeNode.is_leaf b = false →
  ∃ h' ks cps cs u, h = S h' ∧ V !! x = Some (InnerView ks cps) ∧ inner_page b cs u ∧ seps cs = ks ∧
    Forall2 (λ w c, word_target σ w = Some c) (children cs u) cps.
Proof.
  intros Hh Hx <- Hl. destruct h as [|h].
  { destruct (tower_node _ _ _ _ _ _ _ W Hc Hx) as (l & r & es & HV & _). by rewrite (leaf_bytes V σ x _ _ _ Hh HV) in Hl. }
  destruct (inner_node_parts σ h x Hh Hx) as (ks & cps & cs & u & HV & P & Es & Hf & _). by exists h, ks, cps, cs, u.
Qed.

Lemma validate_call σ x b : steps V nowhere (call (λ σ, validate σ x b)) σ (λ ok _, ok = true → page_bytes σ x = b).
Proof. apply steps_call. pose proof (validate_ok V σ x b) as E. destruct (validate σ x b) as [σ' ok]. destruct E as [K E]. split; [done|]. by intros ->. Qed.

Definition walks (m : R bool) σ : Prop := steps V nowhere m σ (λ r σ', r = true → forgotten σ').

(** The walk starts again at the root. *)
Lemma restart_spec w σ (pin : R (option Z)) (k : Z → R bool) :
  evicting w σ → steps V nowhere pin σ (λ o σ', pins V σ σ' o w) → (∀ σ', keeps V σ σ' → walks (k root) σ') →
  walks (let! o := pin in match o with None => R_ret false | Some r => k r end)%R σ.
Proof.
  intros Hev Hp Hk. eapply steps_bind; [exact Hp|]. intros o σ' K' [_ Ho]. destruct o as [r|]; [|by apply steps_ret].
  destruct Ho as [_ Hq]. rewrite <-(Hq root); [by apply Hk|]. by apply (ev_root _ _ Hev σ).
Qed.

(** The two ends at a parent. *)
Lemma found_spec w σ h x b (k : R bool) :
  holds σ V → evicting w σ → placed Ts h x → BTreeNode.is_leaf b = false →
  (page_bytes σ x = b → ∀ h' ks cps cs u, h = S h' → V !! x = Some (InnerView ks cps) → inner_page b cs u →
    Forall2 (λ w c, word_target σ w = Some c) (children cs u) cps → child_pid ∈ cps) →
  (∀ σ', keeps V σ σ' → walks k σ') →
  walks (let! ok := call (λ σ, validate σ x b) in if negb ok then k else correct_edge child child_pid x b)%R σ.
Proof.
  intros Hh Hev Hx Hl Hin Hk. eapply steps_bind; [apply validate_call|]. intros ok σ1 K1 Hok. destruct ok; cbn [negb]; [|by apply Hk].
  destruct (validated_inner σ h x b Hh Hx (Hok eq_refl) Hl) as (h' & ks & cps & cs & u & -> & HV & P & Es & Hf).
  eapply steps_mono; [eapply (correct_edge_spec w σ1 h' x ks cps b)|by intros r σ' _ [_ Hr]];
    [by eapply keeps_holds|by eapply evicting_keeps|done|done|exact (Hin (Hok eq_refl) h' ks cps cs u eq_refl HV P Hf)].
Qed.

Lemma eviction_walk_spec w fuel : ∀ visited restarts stack σ,
  holds σ V → evicting w σ → Forall (λ x, ∃ h, placed Ts h x) stack →
  visited ≤ MAX_EVICTION_UNSWIZZLE_VISITS → MAX_EVICTION_UNSWIZZLE_VISITS - visited < Z.of_nat fuel →
  walks (eviction_walk fuel child child_pid w visited restarts stack) σ.
Proof.
  induction fuel as [|fuel IH]; intros visited restarts stack σ Hh Hev Hst Hv Hf; [lia|]. cbn [eviction_walk].
  destruct stack as [|x stack]; [by apply steps_ret|]. apply Forall_cons in Hst as [[h Hx] Hst].
  destruct (_ || _) eqn:Hmax; [by apply steps_ret|]. apply orb_false_iff in Hmax as [Hmax _]. apply Z.ltb_ge in Hmax.
  set (go := eviction_walk fuel child child_pid w (visited + 1)).
  assert (Hgo : ∀ σ' restarts' stack', keeps V σ σ' → Forall (λ x, ∃ h, placed Ts h x) stack' → walks (go restarts' stack') σ').
  { intros σ' restarts' stack' K' Hs'. apply IH; [by eapply keeps_holds|by eapply evicting_keeps|done|lia|lia]. }
  assert (Hroot : Forall (λ x, ∃ h, placed Ts h x) [root]).
  { constructor; [eexists; apply placed_top|done]. }
  assert (Hre : ∀ σ' pin, keeps V σ σ' → (∀ σ2, steps V nowhere pin σ2 (λ o σ3, pins V σ2 σ3 o w)) →
    walks (let! o := pin in match o with None => R_ret false | Some r => go (restarts + 1) [r] end)%R σ').
  { intros σ' pin K' Hp. eapply (restart_spec w); [by eapply evicting_keeps|apply Hp|]. intros σ2 K2. apply Hgo; [by etrans|done]. }
  eapply steps_bind; [by apply (steps_get _ _ (λ σ, frame_resident σ x) σ (λ _ σ', σ' = σ))|]. intros resident ? _ ->.
  destruct resident; cbn [negb]; [|by apply Hgo].
  eapply (steps_bind _ _ _ _ _ (λ o σ', match o with Some b => zlen b = PAGE_SIZE ∧ (optimistic σ x).2 = Some b | None => True end)).
  { apply steps_call. pose proof (optimistic_ok V σ x) as E. destruct (optimistic σ x) as [σ1 [b|]]; [|done]. destruct E. done. }
  intros o σ1 K1 Ho. destruct o as [b|]; [|by apply Hgo]. destruct Ho as [Hb Hsn].
  destruct (BTreeNode.is_leaf b) eqn:Hl; [by apply Hgo|].
  destruct (edges_readable child b Hb) as (edge & Ee); [exact (ev_slots _ _ Hev σ h x b ltac:(reflexivity) Hx Hsn Hl)|]. eapply steps_lift_bind; [exact Ee|].
  assert (Hh1 : holds σ1 V) by (by eapply keeps_holds). assert (Hev1 : evicting w σ1) by (by eapply evicting_keeps).
  case_bool_decide as Hedge.
  - eapply (found_spec w σ1 h x b); [done|done|done|done| |].
    + intros _ h' ks cps cs u _ HV P Hfc. destruct (evict_edge w σ1 b cps cs u Hev1 P Hfc) as (f & Ef & Hfx & _).
      rewrite Ee in Ef. injection Ef as ->. destruct (first_at f (children cs u)) as [pos|] eqn:E; [|by destruct Hedge].
      apply first_at_Some in E as (y & Hy & Hfy & _). destruct (Forall2_lookup_l _ _ _ _ _ Hfc Hy) as (q & Hq & Ht).
      rewrite <-(Hfx y q); [by eapply list_elem_of_lookup_2|by eapply list_elem_of_lookup_2|done|done].
    + intros σ2 K2. apply Hre; [by etrans|]. intros σ3. apply steps_try_pin_child.
  - destruct (visit_routes_total b Hb) as ([rts rok] & Er). eapply steps_lift_bind; [exact Er|].
    eapply steps_bind; [apply push_children_spec|]. intros [pids e] σ2 K2 Hpu. cbn [fst snd] in *.
    assert (K02 : keeps V σ σ2) by (by etrans). assert (Hh2 : holds σ2 V) by (by eapply keeps_holds).
    assert (Hsub : ∀ h' ks cps cs u, h = S h' → V !! x = Some (InnerView ks cps) → inner_page b cs u →
      Forall2 (λ w c, word_target σ2 w = Some c) (children cs u) cps →
      Forall (λ x, ∃ j, placed Ts j x) pids ∧ (e = true → child_pid ∈ cps)).
    { intros h' ks cps cs u -> HV P Hfc. rewrite (visit_routes_inner b cs u P) in Er. injection Er as <- <-.
      by eapply (pushed_placed σ2 h' x cs u ks cps pids e). }
    destruct e; [|destruct rok; cbn [negb]].
    + eapply (found_spec w σ2 h x b); [done|by eapply evicting_keeps|done|done| |].
      * intros _ h' ks cps cs u Eh HV P Hfc. by apply (Hsub h' ks cps cs u Eh HV P Hfc).
      * intros σ3 K3. apply Hre; [by etrans|]. intros σ4. apply steps_try_pin_child.
    + eapply steps_bind; [apply validate_call|]. intros ok σ3 K3 Hok. destruct ok; cbn [negb].
      * destruct (validated_inner σ2 h x b Hh2 Hx (Hok eq_refl) Hl) as (h' & ks & cps & cs & u & Eh & HV & P & _ & Hfc).
        destruct (Hsub h' ks cps cs u Eh HV P Hfc) as [Hpl _]. apply Hgo; [by etrans|]. apply Forall_app. split; [by apply Forall_reverse|done].
      * apply Hre; [by etrans|]. intros σ4. apply steps_pin_child.
    + apply Hre; [done|]. intros σ3. apply steps_try_pin_child.
Qed.

(** The word of the root. *)
Lemma root_matches w σ :
  evicting w σ → ∃ b : bool, EvictingFrame.matches_swip child w = Ret b ∧ (b = true → root = child_pid) ∧
    (SwipWord.is_hot w = true → root = child_pid → b = true).
Proof.
  intros Hev. pose proof (ev_root _ _ Hev σ ltac:(reflexivity)) as Ht. destruct (word_target_ok _ _ _ Ht) as (s & Hs & -> & _).
  eexists. split; [by apply evicting_matches|]. destruct s as [a|a|q]; rewrite ?Z.eqb_eq.
  - split; [|intros _]; by apply (ev_frame _ _ Hev σ _ a root ltac:(reflexivity) Hs); auto.
  - split; [|intros _]; by apply (ev_frame _ _ Hev σ _ a root ltac:(reflexivity) Hs); auto.
  - split; [done|]. intros Hhot. pose proof (resident_evicted q Hs) as E. unfold resident_word in E. by rewrite Hhot in E.
Qed.

Lemma forget_root w σ :
  holds σ V → evicting w σ → root_pid σ = root → root = child_pid →
  steps V nowhere (let! w := lift (SwipWord.evicted child_pid) in update (λ σ, store_meta_swip σ w) ;! R_ret true)%R σ
    (λ r σ', r = true ∧ forgotten σ').
Proof.
  intros Hh Hev Hr Hrc. destruct (held_ok V σ root Hh) as (_ & Hpay & Htw & _).
  { destruct (tower_shown _ _ _ _ _ root W Hc) as (v & -> & _); [apply in_tower; by eexists; apply placed_top|by eexists]. }
  rewrite <-Hrc. eapply steps_lift_bind; [by apply evicted_encode|].
  assert (K : keeps V σ (store_meta_swip σ (encode (EvictedPage root)))) by (apply store_meta_ok; by rewrite Hr).
  eapply (steps_bind _ _ _ _ _ (λ _ _, True)); [by apply steps_update|]. intros _ σ1 K1 _. apply steps_ret. split; [done|]. intros h G HG.
  destruct (tower_node _ _ _ _ _ _ _ W Hc HG) as (ks & cps & HV & _).
  eapply others_clean; [by eapply keeps_holds|by eapply evicting_keeps|exact HG|exact HV|]. rewrite <-Hrc. intros Hin.
  pose proof (placed_child _ _ _ _ _ _ _ _ _ _ W HG HV Hin) as Hp. destruct HG as (T & HT & _). apply lookup_lt_Some in HT.
  pose proof (placed_unique _ _ _ _ _ _ _ _ W Hp placed_top). lia.
Qed.

Lemma eviction_unswizzle_spec fuel σ :
  holds σ V → root_pid σ = root → evicting (meta_swip σ) σ → MAX_EVICTION_UNSWIZZLE_VISITS < Z.of_nat fuel →
  walks (eviction_unswizzle fuel child child_pid) σ.
Proof.
  intros Hh Hr Hev Hf. eapply steps_bind; [by apply (steps_get _ _ meta_swip σ (λ a σ', a = meta_swip σ ∧ σ' = σ))|].
  intros ? ? _ [-> ->]. destruct (SwipWord.is_hot (meta_swip σ)); cbn [negb]; [|by apply steps_ret].
  destruct (root_matches _ σ Hev) as (b & Eb & Hb & _). eapply steps_lift_bind; [exact Eb|]. destruct b.
  - eapply steps_mono; [by eapply forget_root, Hb|]. by intros r σ' _ [_ ?].
  - eapply (restart_spec (meta_swip σ)); [done|apply steps_try_pin_child|]. intros σ1 K1.
    apply eviction_walk_spec; [by eapply keeps_holds|by eapply evicting_keeps| |done|lia].
    constructor; [eexists; apply placed_top|done].
Qed.

(** *** A pool that does not refuse

    The walk then finds the parent of a page, whatever its edge to the page
    is, when the nodes above are resident and the tree is within the bound. *)

Fixpoint nodes_under (h : nat) (x : Z) : nat :=
  match h with
  | O => 1
  | S h => match V !! x with
           | Some (InnerView _ cps) => S (sum_list (nodes_under h <$> cps))
           | _ => 1
           end
  end.

(** The page is below [x]. *)
Fixpoint under (h : nat) (x : Z) : Prop :=
  match h with
  | O => False
  | S h => ∃ ks cps, V !! x = Some (InnerView ks cps) ∧ (child_pid ∈ cps ∨ ∃ c, c ∈ cps ∧ under h c)
  end.

(** The states of [Q] hold the same pages, their inner nodes are resident and
    no call is refused in them. *)
Record steady (Q : pool → Prop) : Prop := {
  st_holds σ : Q σ → holds σ V;
  st_bytes σ σ' x : Q σ → Q σ' → page_bytes σ' x = page_bytes σ x;
  st_words σ σ' w : Q σ → Q σ' → word_target σ' w = word_target σ w;
  st_resident σ h x : Q σ → placed Ts (S h) x → frame_resident σ x = true;
  st_edges σ h x cs u w : Q σ → placed Ts (S (S h)) x → inner_page (page_bytes σ x) cs u → w ∈ children cs u → resident_word w = true;
  st_optimistic σ h x : Q σ → placed Ts h x → Q (optimistic σ x).1 ∧ (optimistic σ x).2 = Some (page_bytes σ x);
  st_validate σ x : Q σ → Q (validate σ x (page_bytes σ x)).1 ∧ (validate σ x (page_bytes σ x)).2 = true;
  st_pin σ w : Q σ → is_Some (word_target σ w) → Q (try_pin_child σ w).1 ∧ is_Some (try_pin_child σ w).2;
  st_upgrade σ x : Q σ → (upgrade_to_exclusive σ x (page_bytes σ x)).2 = true;
}.

Section steady.
Context (Q : pool → Prop) (HQ : steady Q) (w0 : Z).
Definition live σ : Prop := Q σ ∧ evicting w0 σ.
Definition finds (m : R bool) σ : Prop := steps V nowhere m σ (λ r σ', r = true ∧ forgotten σ').

Lemma steps_both {A} (m : R A) σ (P P' : A → pool → Prop) :
  steps V nowhere m σ P → steps V nowhere m σ P' → steps V nowhere m σ (λ a σ', P a σ' ∧ P' a σ').
Proof. unfold steps. destruct (m σ) as [[σ' [a|]]|]; naive_solver. Qed.

Lemma steps_live {A} (f : pool → pool * A) σ :
  live σ → keeps V σ (f σ).1 → Q (f σ).1 → steps V nowhere (call f) σ (λ a σ', a = (f σ).2 ∧ live σ').
Proof. intros [_ Hev] K Hq. split; [done|]. split; [done|]. split; [done|by eapply evicting_keeps]. Qed.

Lemma validate_live σ x : live σ → steps V nowhere (call (λ σ', validate σ' x (page_bytes σ x))) σ (λ ok σ', ok = true ∧ live σ').
Proof.
  intros Hl. destruct (st_validate _ HQ σ x) as [Hq Ho]; [apply Hl|]. eapply steps_mono.
  - apply steps_live; [done| |done]. pose proof (validate_ok V σ x (page_bytes σ x)) as E. destruct (validate _ _ _). apply E.
  - intros ok σ' _ [-> ?]. by split.
Qed.

Lemma optimistic_live σ h x :
  live σ → placed Ts h x → steps V nowhere (call (λ σ, optimistic σ x)) σ (λ o σ', o = Some (page_bytes σ' x) ∧ live σ').
Proof.
  intros Hl Hx. destruct (st_optimistic _ HQ σ h x) as [Hq Ho]; [apply Hl|done|]. eapply steps_mono.
  - apply steps_live; [done| |done]. pose proof (optimistic_ok V σ x) as E. destruct (optimistic _ _). apply E.
  - intros o σ' _ [-> [Hq' ?]]. split; [|done]. rewrite Ho. by rewrite (st_bytes _ HQ σ' σ) by (done || apply Hl).
Qed.

Lemma found_live σ h x ks cps (k : R bool) :
  live σ → placed Ts (S h) x → V !! x = Some (InnerView ks cps) → child_pid ∈ cps →
  finds (let! ok := call (λ σ', validate σ' x (page_bytes σ x)) in
         if negb ok then k else correct_edge child child_pid x (page_bytes σ x))%R σ.
Proof.
  intros Hl Hx HV Hin. eapply steps_bind; [by apply validate_live|]. intros ok σ1 _ [-> [Hq1 Hev1]]. cbn [negb].
  eapply steps_mono; [eapply (correct_edge_spec w0 σ1 h x ks cps); [by apply (st_holds _ HQ)|done..]|].
  intros r σ' _ [Hr Hf]. rewrite <-(st_bytes _ HQ σ σ1 x) in Hr by (done || apply Hl). rewrite (st_upgrade _ HQ) in Hr by done. by auto.
Qed.

Definition hot_targets σ (ws : list Z) : list Z := omap (λ w, if resident_word w then word_target σ w else None) ws.

Lemma hot_same σ σ' ws : Q σ → Q σ' → hot_targets σ' ws = hot_targets σ ws.
Proof.
  intros Hq Hq'. unfold hot_targets. induction ws as [|w ws IH]; [done|]. cbn. by rewrite IH, (st_words _ HQ σ σ' w).
Qed.

Lemma push_live rts : ∀ σ, live σ → Forall (λ rt, is_Some (word_target σ (RoutedChildRef.swip rt))) rts →
  steps V nowhere (push_children child_pid rts) σ (λ r σ', live σ' ∧ r.1 = hot_targets σ (RoutedChildRef.swip <$> rts)).
Proof.
  induction rts as [|rt rts IH]; intros σ Hl Hw; cbn [push_children]; [by apply steps_ret|]. apply Forall_cons in Hw as [[c Hc'] Hw].
  eapply (steps_bind _ _ _ _ _ (λ r σ', live σ' ∧ r.1 = hot_targets σ [RoutedChildRef.swip rt])).
  { unfold hot_targets. cbn [omap list_omap]. change (resident_word _) with (RoutedChildRef.is_resident rt).
    destruct (RoutedChildRef.is_resident rt) eqn:Hr.
    - unfold try_pin_resident. rewrite Hr, Hc'. cbn [negb]. destruct (st_pin _ HQ σ (RoutedChildRef.swip rt)) as [Hq [pid Hp]]; [apply Hl|by eexists|].
      pose proof (try_pin_child_ok V σ (RoutedChildRef.swip rt)) as E. eapply steps_bind; [apply steps_live; [done| |done]|].
      { destruct (try_pin_child _ _). apply E. }
      intros o σ1 _ [-> Hl1]. apply steps_ret. split; [done|]. rewrite Hp. destruct (try_pin_child _ _) as [? ?]. cbn in Hp. subst.
      destruct E as [_ [_ E]]. by rewrite (E c Hc').
    - destruct (evicted_id_total rt Hr) as (pid & E). eapply steps_lift_bind; [exact E|]. by apply steps_ret. }
  intros [ps e] σ1 _ [Hl1 Hps]. eapply steps_bind; [apply IH; [done|]|].
  { eapply Forall_impl; [exact Hw|]. intros rt' Hs. rewrite (st_words _ HQ σ σ1); [done|apply Hl|apply Hl1]. }
  intros [qs e'] σ2 _ [Hl2 Hqs]. apply steps_ret. split; [done|]. cbn [fst] in *. rewrite Hps, Hqs, (hot_same σ σ1) by (apply Hl || apply Hl1).
  unfold hot_targets. cbn. by destruct (if resident_word _ then _ else _).
Qed.

Lemma routes_swips cs u : RoutedChildRef.swip <$> routes cs u = children cs u.
Proof.
  apply list_eq. intros i. unfold routes. rewrite list_lookup_fmap, list_lookup_imap. by destruct (children cs u !! i).
Qed.

Lemma hot_sum σ (g : Z → nat) ws cps :
  Forall2 (λ w c, word_target σ w = Some c) ws cps → (sum_list (g <$> hot_targets σ ws) ≤ sum_list (g <$> cps))%nat.
Proof.
  induction 1 as [|w c ws cps Hw _ IH]; [done|]. unfold hot_targets in *. cbn. rewrite Hw. destruct (resident_word w); cbn; lia.
Qed.

Lemma hot_all σ ws cps :
  Forall2 (λ w c, word_target σ w = Some c) ws cps → Forall (λ w, resident_word w = true) ws → hot_targets σ ws = cps.
Proof.
  induction 1 as [|w c ws cps Hw _ IH]; [done|]. intros [Hr Hrs]%Forall_cons. unfold hot_targets in *. cbn. by rewrite Hr, Hw, IH.
Qed.

(** The children of a node that the walk pushes. *)
Definition pushes (h : nat) (cps L : list Z) : Prop :=
  Forall (placed Ts h) L ∧ (sum_list (nodes_under h <$> L) ≤ sum_list (nodes_under h <$> cps))%nat ∧
  (h ≠ 0%nat → ∀ c, c ∈ cps → c ∈ L).

Lemma hot_pushes σ h x ks cps cs u :
  live σ → placed Ts (S h) x → V !! x = Some (InnerView ks cps) → inner_page (page_bytes σ x) cs u →
  Forall2 (λ w c, word_target σ w = Some c) (children cs u) cps → pushes h cps (reverse (hot_targets σ (children cs u))).
Proof.
  intros Hl Hx HV P Hf. split_and!.
  - apply Forall_reverse. apply Forall_forall. intros c (w & Hw & Hc')%list_elem_of_omap. destruct (resident_word w); [|done].
    apply list_elem_of_lookup in Hw as [i Hi]. destruct (Forall2_lookup_l _ _ _ _ _ Hf Hi) as (c' & Hci & Ht).
    assert (c' = c) as -> by congruence. by eapply placed_child, list_elem_of_lookup_2.
  - rewrite (reverse_Permutation (hot_targets _ _)). by apply hot_sum.
  - intros Hh c Hc'. rewrite elem_of_reverse. destruct h as [|h]; [done|]. rewrite (hot_all σ _ cps); [done|done|].
    apply Forall_forall. intros w Hw. eapply (st_edges _ HQ σ h x cs u); [apply Hl|done|done|done].
Qed.

(** A node without an edge to the page, by its frame or its identifier. *)
Lemma no_edge σ σ' (f : Z → bool) cs u cps pids :
  Forall2 (λ w c, word_target σ w = Some c) (children cs u) cps → first_at f (children cs u) = None →
  (∀ x, word_target σ x = Some child_pid → resident_word x = true → f x = true) →
  pushed_by (routes cs u) (pids, false) σ' → child_pid ∉ cps.
Proof.
  intros Hf E Hfr [_ [_ Hpu]] (i & Hi)%list_elem_of_lookup. destruct (Forall2_lookup_r _ _ _ _ _ Hf Hi) as (w & Hw & Ht).
  pose proof (first_at_None f _ w E (list_elem_of_lookup_2 _ _ _ Hw)) as Hfw.
  destruct (resident_word w) eqn:Hr; [by rewrite Hfr in Hfw|].
  assert (∃ rt, rt ∈ routes cs u ∧ RoutedChildRef.swip rt = w) as (rt & Hrt & <-).
  { rewrite <-routes_swips, list_lookup_fmap in Hw. destruct (routes cs u !! i) as [rt|] eqn:Ei; [|done].
    exists rt. split; [by eapply list_elem_of_lookup_2|by injection Hw]. }
  destruct (evicted_target σ rt child_pid Ht Hr) as (Eid & _). discriminate Hpu. by exists rt.
Qed.

Lemma visit_live fuel visited stack σ h x ks cps :
  live σ → placed Ts (S h) x → V !! x = Some (InnerView ks cps) → visited < MAX_EVICTION_UNSWIZZLE_VISITS →
  (child_pid ∉ cps → ∀ σ' L, live σ' → pushes h cps L →
    finds (eviction_walk fuel child child_pid w0 (visited + 1) 0 (L ++ stack)) σ') →
  finds (eviction_walk (S fuel) child child_pid w0 visited 0 (x :: stack)) σ.
Proof.
  intros Hl Hx HV Hv Hk. cbn [eviction_walk]. rewrite (proj2 (Z.ltb_ge _ _)) by lia. cbn [orb].
  assert (Hh : holds σ V) by (apply (st_holds _ HQ), Hl).
  eapply steps_bind; [by apply (steps_get _ _ (λ σ, frame_resident σ x) σ (λ r σ', r = frame_resident σ x ∧ σ' = σ))|].
  intros r ? _ [-> ->]. rewrite (st_resident _ HQ σ h x) by (done || apply Hl). cbn [negb].
  eapply steps_bind; [by eapply optimistic_live|]. intros o σ1 K1 [-> Hl1]. assert (Hh1 : holds σ1 V) by (by eapply keeps_holds).
  clear dependent σ. rename σ1 into σ, Hl1 into Hl, Hh1 into Hh.
  destruct (inner_node_parts σ h x Hh Hx) as (ks' & cps' & cs & u & HV' & P & Es & Hf & Hpl).
  rewrite HV in HV'. injection HV' as <- <-. rewrite (inner_flag _ _ _ P).
  destruct (evict_edge w0 σ _ cps cs u (proj2 Hl) P Hf) as (f & Ee & Hfx & _ & Hfr). eapply steps_lift_bind; [exact Ee|].
  case_bool_decide as Hedge.
  { eapply found_live; [done|exact Hx|exact HV|]. destruct (first_at f (children cs u)) as [pos|] eqn:E; [|by destruct Hedge].
    apply first_at_Some in E as (y & Hy & Hfy & _). destruct (Forall2_lookup_l _ _ _ _ _ Hf Hy) as (q & Hqq & Ht).
    rewrite <-(Hfx y q); [by eapply list_elem_of_lookup_2|by eapply list_elem_of_lookup_2|done|done]. }
  eapply steps_lift_bind; [by apply visit_routes_inner|]. cbn [fst snd].
  eapply steps_bind; [apply steps_both; [apply push_children_spec|apply push_live; [done|]]|].
  { apply Forall_forall. intros rt Hrt%routes_words. apply list_elem_of_lookup in Hrt as [i Hi].
    destruct (Forall2_lookup_l _ _ _ _ _ Hf Hi) as (c & _ & Ht). by eexists. }
  intros [pids e] σ2 K2 [Hpu [Hl2 Hpids]]. cbn [fst snd] in *. rewrite routes_swips in Hpids.
  assert (Hf2 : Forall2 (λ w c, word_target σ2 w = Some c) (children cs u) cps).
  { eapply Forall2_impl; [exact Hf|]. intros w c Ht. by rewrite (st_words _ HQ σ σ2 w) by (apply Hl || apply Hl2). }
  destruct (pushed_placed σ2 h x cs u ks cps pids e Hx HV Hf2 Hpu) as [_ He].
  rewrite <-(st_bytes _ HQ σ σ2 x) in * by (apply Hl || apply Hl2).
  destruct e; [eapply found_live; [done|exact Hx|exact HV|by apply He]|]. cbn [negb].
  eapply steps_bind; [by apply validate_live|]. intros ok σ3 _ [-> Hl3]. cbn [negb]. 
  apply Hk; [|done|].
  - destruct (first_at f (children cs u)) as [pos|] eqn:E; [by destruct Hedge|]. exact (no_edge σ σ2 f cs u cps pids Hf E Hfr Hpu).
  - rewrite Hpids, <-(hot_same σ σ2) by (apply Hl || apply Hl2). by eapply hot_pushes.
Qed.

(** The walk of a subtree, and of subtrees on the stack. *)
Definition seeks (h : nat) : Prop := ∀ x fuel visited stack σ,
  live σ → placed Ts h x → (nodes_under h x ≤ fuel)%nat → visited + Z.of_nat (nodes_under h x) ≤ MAX_EVICTION_UNSWIZZLE_VISITS →
  (¬ under h x → ∀ n fuel' σ', (n ≤ nodes_under h x)%nat → fuel = (n + fuel')%nat → live σ' →
    finds (eviction_walk fuel' child child_pid w0 (visited + Z.of_nat n) 0 stack) σ') →
  finds (eviction_walk fuel child child_pid w0 visited 0 (x :: stack)) σ.

Lemma seeks_all h L : seeks h → ∀ fuel visited stack σ,
  live σ → Forall (placed Ts h) L → (sum_list (nodes_under h <$> L) ≤ fuel)%nat →
  visited + Z.of_nat (sum_list (nodes_under h <$> L)) ≤ MAX_EVICTION_UNSWIZZLE_VISITS →
  ((∀ c, c ∈ L → ¬ under h c) → ∀ n fuel' σ', (n ≤ sum_list (nodes_under h <$> L))%nat → fuel = (n + fuel')%nat → live σ' →
    finds (eviction_walk fuel' child child_pid w0 (visited + Z.of_nat n) 0 stack) σ') →
  finds (eviction_walk fuel child child_pid w0 visited 0 (L ++ stack)) σ.
Proof.
  intros Hs. induction L as [|x L IH]; intros fuel visited stack σ Hl Hp Hf Hv Hk; cbn [app].
  - replace visited with (visited + Z.of_nat 0) by lia. by apply Hk; [intros c []%not_elem_of_nil|cbn; lia|lia|].
  - apply Forall_cons in Hp as [Hx Hp]. change (sum_list (nodes_under h <$> x :: L)) with (nodes_under h x + sum_list (nodes_under h <$> L))%nat in *.
    apply Hs; [done|done|lia|lia|]. intros Hno n fuel' σ' Hn -> Hl'. apply IH; [done|done|lia|lia|].
    intros Hall n' fuel2 σ2 Hn' -> Hl2. rewrite <-Z.add_assoc, <-Nat2Z.inj_add. apply Hk; [|lia|lia|done].
    intros c [->|Hc']%elem_of_cons; [done|by apply Hall].
Qed.

Lemma seeks_leaf : seeks 0.
Proof.
  intros x fuel visited stack σ Hl Hx Hf Hv Hk. cbn [nodes_under] in *. destruct fuel as [|fuel]; [lia|]. cbn [eviction_walk].
  rewrite (proj2 (Z.ltb_ge _ _)) by lia. cbn [orb]. assert (Hgo : ∀ σ', live σ' → finds (eviction_walk fuel child child_pid w0 (visited + 1) 0 stack) σ').
  { intros σ' Hl'. by apply (Hk id 1%nat fuel σ'). }
  eapply steps_bind; [by apply (steps_get _ _ (λ σ, frame_resident σ x) σ (λ _ σ', σ' = σ))|]. intros r ? _ ->.
  destruct r; cbn [negb]; [|by apply Hgo]. eapply steps_bind; [by eapply optimistic_live|]. intros o σ1 _ [-> Hl1].
  destruct (tower_node _ _ _ _ _ _ _ W Hc Hx) as (l & r & es & HV & _).
  rewrite (leaf_bytes V σ1 x l r es (st_holds _ HQ _ (proj1 Hl1)) HV). by apply Hgo.
Qed.

Lemma seeks_tree h : seeks h.
Proof.
  induction h as [|h IH]; [apply seeks_leaf|]. intros x fuel visited stack σ Hl Hx Hf Hv Hk.
  destruct (tower_node _ _ _ _ _ _ _ W Hc Hx) as (ks & cps & HV & _). cbn [nodes_under under] in *. rewrite HV in *.
  destruct fuel as [|fuel]; [lia|]. eapply visit_live; [done|done|done|lia|]. intros Hno σ' L Hl' (HpL & HsL & HinL).
  apply seeks_all with (h := h); [done|done|done|lia|lia|]. intros Hall n fuel' σ2 Hn -> Hl2.
  replace (visited + 1 + Z.of_nat n) with (visited + Z.of_nat (S n)) by lia. apply Hk; [|lia|lia|done].
  intros (ks' & cps' & [= <- <-] & [Hin|(c & Hc' & Hu)]); [done|]. destruct h as [|h]; [done|].
  apply (Hall c); [by apply HinL|done].
Qed.

(** Every node but the root has a parent. *)
Lemma parent_of j y :
  placed Ts j y → (S j < length Ts)%nat → ∃ G ks cps, placed Ts (S j) G ∧ V !! G = Some (InnerView ks cps) ∧ y ∈ cps.
Proof.
  intros (T & HT & Hy) [T' HT']%lookup_lt_is_Some. destruct (tw_step _ _ _ _ _ W j T T' HT HT') as (Hs & Hh & segs & -> & Hf).
  rewrite <-(hangs_same_inv _ _ _ Hh) in Hy by done. apply list_elem_of_fmap in Hy as (t & -> & Ht).
  apply list_elem_of_In, in_concat in Ht as (seg & Hseg & Ht). apply list_elem_of_In in Ht.
  apply list_elem_of_In, list_elem_of_lookup in Hseg as [i Hi]. destruct (Forall2_lookup_r _ _ _ _ _ Hf Hi) as (P & HP & ks & HV & _).
  exists P.1, ks, seg.*1. split_and!; [|done|by apply list_elem_of_fmap_2]. exists T'. split; [done|].
  eapply list_elem_of_fmap_2, list_elem_of_lookup_2, HP.
Qed.

Lemma under_root j y : placed Ts j y → y = child_pid ∨ under j y → child_pid ≠ root → under (pred (length Ts)) root.
Proof.
  intros Hy Hu Hne. pose proof (tw_top _ _ _ _ _ W) as Ht. rewrite last_lookup in Ht.
  remember (pred (length Ts) - j)%nat as d eqn:Ed. revert j y Hy Hu Ed.
  induction d as [|d IH]; intros j y Hy Hu Ed; destruct Hy as (T & HT & Hin); pose proof (lookup_lt_Some _ _ _ HT) as Hlt.
  - assert (j = pred (length Ts)) as -> by lia. rewrite Ht in HT. injection HT as <-. apply list_elem_of_singleton in Hin as ->.
    by destruct Hu as [<-|Hu].
  - destruct (parent_of j y) as (G & ks & cps & HG & HV & Hyc); [by exists T|lia|].
    apply (IH (S j) G HG); [|lia]. right. exists ks, cps. split; [done|]. destruct Hu as [->|Hu]; [by left|right; by exists y].
Qed.

(** The whole walk. *)
Lemma eviction_unswizzle_live fuel σ :
  live σ → w0 = meta_swip σ → root_pid σ = root → SwipWord.is_hot w0 = true → child_pid ∈ (concat Ts).*1 →
  (nodes_under (pred (length Ts)) root ≤ fuel)%nat → Z.of_nat (nodes_under (pred (length Ts)) root) ≤ MAX_EVICTION_UNSWIZZLE_VISITS →
  finds (eviction_unswizzle fuel child child_pid) σ.
Proof.
  intros Hl Hw0 Hr Hhot Hin Hf Hn. eapply steps_bind; [by apply (steps_get _ _ meta_swip σ (λ a σ', a = w0 ∧ σ' = σ))|].
  intros ? ? _ [-> ->]. rewrite Hhot. cbn [negb]. destruct (root_matches w0 σ (proj2 Hl)) as (b & Eb & Hb & Hb').
  eapply steps_lift_bind; [exact Eb|]. destruct b; [eapply forget_root; [apply (st_holds _ HQ), Hl|apply Hl|done|by apply Hb]|].
  pose proof (ev_root _ _ (proj2 Hl) σ ltac:(reflexivity)) as Ht. destruct (st_pin _ HQ σ w0) as [Hq [pid Hp]]; [apply Hl|by eexists|].
  pose proof (try_pin_child_ok V σ w0) as E. eapply steps_bind; [apply steps_live; [done| |done]|].
  { destruct (try_pin_child _ _). apply E. }
  intros o σ1 _ [-> Hl1]. rewrite Hp. destruct (try_pin_child _ _) as [? ?]. cbn in Hp. subst o.
  destruct E as [_ [_ E]]. rewrite <-(E _ Ht). apply (seeks_tree (pred (length Ts))); [done|apply placed_top|done|lia|].
  intros Hno. exfalso. apply Hno. apply in_tower in Hin as [j Hj]. apply (under_root j child_pid Hj); [by left|].
  intros Ec. discriminate Hb'; [done|by symmetry].
Qed.
End steady.
End walk.

(** ** A pool in memory *)

#[global] Instance mem_evops (B : Build) : @EvictOps (@mem_ops B) := @Build_EvictOps (@mem_ops B)
  (λ σ pid, bool_decide (is_Some (MemPool.pages σ !! pid)))
  (λ σ w, {| MemPool.pages := MemPool.pages σ; MemPool.hot_root := w <? 2 ^ 63; MemPool.turns := MemPool.turns σ |})
  (λ σ _, σ).

Section mem_evictions.
Context `{Build}.
Import MemPool.
Implicit Types σ : MemPool.t.

#[global] Instance mem_evlaws : @EvictLaws _ mem_ops mem_laws (mem_evops _).
Proof. constructor; [done|]. intros V σ pid. split; [reflexivity|done]. Qed.

Lemma mem_evicting V Ts ls σ pid :
  tower V ∅ Ts 1 ls → chained V ls → holds (H0 := mem_ops) σ V → num_slots (fill PAGE_SIZE x00) = 0 →
  evicting (H0 := mem_ops) V Ts 1 (frame_of pid) pid (meta_swip σ) σ.
Proof.
  intros W Hc Hh Hz. constructor.
  - intros σ' s a q _ Hv Hs Ht. by eapply mem_frame_ref.
  - intros σ' _. cbn. by destruct (hot_root σ).
  - intros σ' h x b K Hx Hb Hl. cbn in Hb. unfold snapshot in Hb. pose proof (next_ok σ') as E. destruct (next σ') as [σ1 r].
    destruct E as [Ep _]. cbn in Hb. destruct r; [|done|injection Hb as <-; rewrite Hz; lia]. destruct (_ =? _); [|done]. injection Hb as <-.
    assert (Hh1 : holds (H0 := mem_ops) σ1 V) by (eapply keep_pages; [exact Ep|by apply K]).
    destruct h as [|h].
    + destruct (tower_node _ _ _ _ _ _ _ W Hc Hx) as (l & r & es & HV & _). pose proof (leaf_bytes (H0 := mem_ops) V σ1 x _ _ _ Hh1 HV) as Hl'. cbn in Hl'. by rewrite Hl' in Hl.
    + destruct (inner_node_parts (H0 := mem_ops) V Ts 1 ls W Hc σ1 h x Hh1 Hx) as (ks & cps & cs & u & _ & P & _ & Hf & _).
      intros pos. by apply (inner_readable _ cs u).
Qed.

(** The states of a pool that refuses nothing. *)
Definition unrefused (ps : gmap Z page) σ : Prop := pages σ = ps ∧ turns σ = [].

Lemma mem_steady V Ts ls ps :
  tower V ∅ Ts 1 ls → chained V ls → (∀ σ, unrefused ps σ → holds (H0 := mem_ops) σ V) →
  (∀ h x cs u w, placed Ts (S (S h)) x → inner_page (default [] (ps !! x)) cs u → w ∈ children cs u → resident_word w = true) →
  steady (H0 := mem_ops) V Ts (unrefused ps).
Proof.
  intros W Hc Hh Hw.
  assert (Hin : ∀ σ h x, unrefused ps σ → placed Ts h x → is_Some (V !! x)).
  { intros σ h x _ Hx. destruct (tower_shown V ∅ Ts 1 ls x W Hc) as (v & -> & _); [apply in_tower; by exists h|by eexists]. }
  assert (Hvalid : ∀ σ h x, unrefused ps σ → placed Ts h x → valid x = true).
  { intros σ h x Hu Hx. eapply holds_valid; [by apply (Hh σ)|by eapply Hin]. }
  assert (Hnext : ∀ σ, unrefused ps σ → next σ = (σ, Granted)) by (intros σ [_ Ht]; unfold next; by rewrite Ht).
  constructor.
  - done.
  - intros σ σ' x [E _] [E' _]. cbn. unfold bytes. by rewrite E, E'.
  - done.
  - intros σ h x Hu Hx. cbn. apply bool_decide_eq_true. eapply holds_some; [by apply Hh|by eapply Hin].
  - intros σ h x cs u w Hu Hx P Hin'. eapply Hw; [exact Hx| |exact Hin']. cbn in P. unfold bytes in P.
    rewrite (Hvalid σ (S (S h)) x Hu Hx) in P. by rewrite (proj1 Hu) in P.
  - intros σ h x Hu Hx. cbn. unfold snapshot. rewrite (Hnext σ Hu). cbn. split; [done|].
    assert (zlen (bytes σ x) = PAGE_SIZE) as ->; [|by rewrite Z.eqb_refl]. destruct (Hin σ h x Hu Hx) as [v HV].
    by apply (shown_len (H0 := mem_ops) σ (bytes σ x) v), Hh.
  - intros σ x Hu. cbn. unfold check, may. rewrite (Hnext σ Hu). cbn. split; [done|]. by apply bool_decide_eq_true.
  - intros σ w Hu Ht. cbn in *. unfold pin, may. destruct (target w); [|by destruct Ht]. rewrite (Hnext σ Hu). cbn. split; [done|by eexists].
  - intros σ x Hu. cbn. unfold check, may. rewrite (Hnext σ Hu). cbn. by apply bool_decide_eq_true.
Qed.
End mem_evictions.

(** ** Eviction *)

(** C14: the callback with which the pool evicts a frame returns whatever the
    pool refuses, within its bound of visits, and keeps the tree: it
    only changes what an edge says of the page it leads to. When it answers
    [true], no node of the tree refers to the frame any more. When nothing is
    refused, the inner nodes are resident and the tree has no more nodes than
    the bound, it does answer [true], for every page of the tree. All this
    under the condition that the slots of every snapshot of an inner node that
    the walk reads lie within the page ([evicting]); without it the search for
    the edge panics. *)
Theorem eviction_unswizzle_forgets `{Build} `{PoolOps} `{!PoolLaws} `{!WriteOps} `{!WriteLaws} `{!EvictOps} `{!EvictLaws}
    V Ts root ls child child_pid fuel (σ : pool) :
  tower V ∅ Ts root ls → chained V ls → holds σ V → root_pid σ = root →
  evicting V Ts root child child_pid (meta_swip σ) σ → MAX_EVICTION_UNSWIZZLE_VISITS < Z.of_nat fuel →
  returns V (eviction_unswizzle fuel child child_pid) σ (λ r σ',
    (r = true → forgotten Ts child σ') ∧
    (∀ Q, steady V Ts Q → Q σ → SwipWord.is_hot (meta_swip σ) = true → child_pid ∈ (concat Ts).*1 →
      Z.of_nat (nodes_under V (pred (length Ts)) root) ≤ MAX_EVICTION_UNSWIZZLE_VISITS → r = true)).
Proof.
  intros W Hc Hh Hr Hev Hf. apply steps_returns.
  pose proof (eviction_unswizzle_spec V Ts root ls W Hc child child_pid fuel σ Hh Hr Hev Hf) as Hw.
  assert (Hl : ∀ Q, steady V Ts Q → Q σ → SwipWord.is_hot (meta_swip σ) = true → child_pid ∈ (concat Ts).*1 →
    Z.of_nat (nodes_under V (pred (length Ts)) root) ≤ MAX_EVICTION_UNSWIZZLE_VISITS →
    finds V Ts child (eviction_unswizzle fuel child child_pid) σ).
  { intros Q HQ Hq Hhot Hin Hn. by apply (eviction_unswizzle_live V Ts root ls W Hc child child_pid Q HQ (meta_swip σ)); [split|..|lia|]. }
  unfold walks, finds, steps in *. destruct (eviction_unswizzle _ _ _ _) as [[σ' [r|]]|]; [|by destruct Hw as [_ []]|done].
  destruct Hw as [K Hw]. split; [done|]. split; [done|]. intros Q HQ Hq Hhot Hin Hn. by destruct (Hl Q HQ Hq Hhot Hin Hn) as (_ & -> & _).
Qed.

(** A tree of resident nodes. *)
Definition warm : MemPool.t := {|
  MemPool.pages := sample_pages (MemPool.frame_of 2) (MemPool.frame_of 3); MemPool.hot_root := true; MemPool.turns := [] |}.

Lemma warm_holds σ : unrefused (MemPool.pages warm) σ → holds (H := debug_4k) (H0 := mem_ops (H := debug_4k)) σ sample_view.
Proof. destruct σ as [ps hot rs]. intros [Ep Et]. cbn in Ep, Et. subst. by apply sample_holds. Qed.

Lemma eviction_unswizzle_forgets_witness :
  ∃ Ts σ', tower sample_view ∅ Ts 1 sample_leaves ∧
    eviction_unswizzle (H := debug_4k) (H0 := mem_ops (H := debug_4k)) (H1 := mem_wops debug_4k) (H2 := mem_evops debug_4k)
      (Z.to_nat 262145) (MemPool.frame_of 2) 2 warm = Ret (σ', Some true) ∧
    holds (H := debug_4k) (H0 := mem_ops (H := debug_4k)) σ' sample_view ∧
    forgotten (H := debug_4k) (H0 := mem_ops (H := debug_4k)) Ts (MemPool.frame_of 2) σ'.
Proof.
  pose proof sample_tree as T.
  destruct (tower_of_subtree sample_view 1 1 sample_leaves (tree_nodes _ _ _ _ _ T) (tree_chain _ _ _ _ _ T)) as (Ts & Hlen & W).
  pose proof (tree_chain _ _ _ _ _ T) as Hc. assert (Hh := warm_holds warm (conj eq_refl eq_refl)).
  destruct (eviction_unswizzle_forgets (H := debug_4k) (H0 := mem_ops (H := debug_4k)) (H1 := mem_laws (H := debug_4k)) (H2 := mem_wops debug_4k)
    (H3 := mem_wlaws (H := debug_4k)) (H4 := mem_evops debug_4k) (H5 := mem_evlaws (H := debug_4k))
    sample_view Ts 1 sample_leaves (MemPool.frame_of 2) 2 (Z.to_nat 262145) warm W Hc Hh eq_refl) as (σ' & r & E & K & Hf & Hl).
  - apply (mem_evicting (H := debug_4k) sample_view Ts sample_leaves); [done|done|done|]. vm_compute. reflexivity.
  - rewrite Z2Nat.id by lia. unfold MAX_EVICTION_UNSWIZZLE_VISITS. lia.
  - exists Ts, σ'. assert (r = true) as ->.
    { apply (Hl (unrefused (MemPool.pages warm))).
      - apply (mem_steady (H := debug_4k) sample_view Ts sample_leaves); [done|done|exact warm_holds|].
        intros h x cs u w (L & HL & _). apply lookup_lt_Some in HL. lia.
      - exact (conj eq_refl eq_refl).
      - vm_compute. reflexivity.
      - apply in_tower. exists 0%nat, (base sample_leaves). split; [apply W|]. rewrite base_pids. left.
      - rewrite Hlen. vm_compute. congruence. }
    split; [exact W|]. split; [exact E|]. split; [by apply K|by apply Hf].
Defined.

(** ** Torn nodes *)

(** C28: what the walk does not survive. On any snapshot of a page, with
    whatever bytes, [child_edge_for_evicting] panics exactly when a slot that
    it comes to, before any that refers to the frame, cannot be read: the slot
    or its value reaches beyond the page, or the value is too short. Then
    [for_each_child_route], which checks bounds, would have ended with [None]
    and the walk have started again; but the walk searches for the edge
    first, on a snapshot that is not validated. *)
Theorem unchecked_edges_panic `{Build} (b : page) (child : Z) :
  zlen b = PAGE_SIZE →
  (child_edge_for_evicting b child = Panic ↔ unreadable child b (seqZ 0 (num_slots b))) ∧
  (child_edge_for_evicting b child = Panic → ∃ rts, visit_routes b = Ret (rts, false)).
Proof.
  intros Hb. split; [by apply edges_panic|]. intros (ids1 & pos & ids2 & E & Ew & _)%edges_panic; [|done].
  unfold visit_routes. destruct (_ <? _); [by eexists|].
  destruct (visit_loop_ends b (seqZ 0 (num_slots b)) pos Hb) as (rts & ->); [rewrite E; set_solver|done|]. by eexists.
Qed.

(** Two versions of a node, with one separator and with two, and a snapshot
    that has the header of the latter and the slots of the former. *)
Definition one_separator : page := inner_of (H := debug_4k) [([x62], MemPool.frame_of 2)] (MemPool.frame_of 4).
Definition two_separators : page := inner_of (H := debug_4k) [([x62], MemPool.frame_of 2); ([x63], MemPool.frame_of 3)] (MemPool.frame_of 4).
Definition torn : page := take 24 two_separators ++ drop 24 one_separator.

Lemma unchecked_edges_panic_witness :
  inner_page (H := debug_4k) one_separator [([x62], MemPool.frame_of 2)] (MemPool.frame_of 4) ∧
  inner_page (H := debug_4k) two_separators [([x62], MemPool.frame_of 2); ([x63], MemPool.frame_of 3)] (MemPool.frame_of 4) ∧
  child_edge_for_evicting (H := debug_4k) torn (MemPool.frame_of 4) = Panic.
Proof.
  split_and!; [apply (inner_of_spec (H := debug_4k)); [vm_compute; congruence|by repeat constructor|done]..|].
  apply (unchecked_edges_panic (H := debug_4k) torn (MemPool.frame_of 4)); [vm_compute; reflexivity|].
  exists [0], 1, []. split_and!; [vm_compute; reflexivity|vm_compute; reflexivity|].
  intros i ->%list_elem_of_singleton. exists (MemPool.frame_of 2). split; vm_compute; reflexivity.
Defined.
