(* ===== verification/BufferPool.v ===== *)
(** * Buffer pool: frames, page table, free list and the pool's state

    Models the data of [src/crates/storage/src/buffer_pool.rs] and the stable
    edges of [buffer_frame.rs]: the arena of frames, the queue of free
    frames, the sharded page table, and the pool with its counters and
    registries, as an explicit state that one caller at a time changes.

    A frame pointer is the index of its slot, and becomes an address only
    where the source stores one in a swip. A latch is what its holders make
    of it: a blocking acquisition of a latch that another guard holds does
    not return. What the pool calls is a parameter: the page store and the
    log behind their traits ([PageStoreOps], [WalOps]), and the callbacks that
    data structures register ([Hooks]). *)

From S2P Require Import Prelude Bytes FrameKernel SwipKernel PageHeader PageMutation Slotted BufferFrame FreePages Posix PageStore.
From Stdlib.Strings Require Import Ascii.
From stdpp Require Import strings.
#[local] Open Scope Z_scope.
Import SlottedHeader SlottedPage.

Definition FRAME_CAPACITY_STALL_LIMIT : nat := 256.


(** ** Frames *)

(** Who holds a frame's [HybridLatch]. *)
Inductive latch_state := Unlatched | SharedBy (readers : positive) | ExclusiveHeld.
#[global] Instance latch_state_eq_dec : EqDecision latch_state.
Proof. solve_decision. Defined.

(** The latch, the header and the page of a frame; the state cell holds the
    tag of [state] ([FrameKernel]). *)
Module Frame.
Record t := {
  latch : latch_state;
  pin_count : Z;
  pid : PageId;
  dirty : bool;
  dirty_generation : Z;
  referenced : bool;
  state : FrameState;
  page_lsn : Z;
  has_page_image_base : bool;
  wal_buffer_epoch : Z;
  wal_buffer_offset : Z;
  generation : Z;
  parent_link : ParentLink;
  page : list byte;
}.

Definition with_latch (self : t) (v : latch_state) : t :=
  {| latch := v; pin_count := pin_count self; pid := pid self; dirty := dirty self; dirty_generation
     := dirty_generation self; referenced := referenced self; state := state self; page_lsn :=
     page_lsn self; has_page_image_base := has_page_image_base self; wal_buffer_epoch :=
     wal_buffer_epoch self; wal_buffer_offset := wal_buffer_offset self; generation := generation
     self; parent_link := parent_link self; page := page self; |}.
Definition with_pin_count (self : t) (v : Z) : t :=
  {| latch := latch self; pin_count := v; pid := pid self; dirty := dirty self; dirty_generation :=
     dirty_generation self; referenced := referenced self; state := state self; page_lsn := page_lsn
     self; has_page_image_base := has_page_image_base self; wal_buffer_epoch := wal_buffer_epoch
     self; wal_buffer_offset := wal_buffer_offset self; generation := generation self; parent_link
     := parent_link self; page := page self; |}.
Definition with_pid (self : t) (v : PageId) : t :=
  {| latch := latch self; pin_count := pin_count self; pid := v; dirty := dirty self;
     dirty_generation := dirty_generation self; referenced := referenced self; state := state self;
     page_lsn := page_lsn self; has_page_image_base := has_page_image_base self; wal_buffer_epoch :=
     wal_buffer_epoch self; wal_buffer_offset := wal_buffer_offset self; generation := generation
     self; parent_link := parent_link self; page := page self; |}.
Definition with_dirty (self : t) (v : bool) : t :=
  {| latch := latch self; pin_count := pin_count self; pid := pid self; dirty := v; dirty_generation
     := dirty_generation self; referenced := referenced self; state := state self; page_lsn :=
     page_lsn self; has_page_image_base := has_page_image_base self; wal_buffer_epoch :=
     wal_buffer_epoch self; wal_buffer_offset := wal_buffer_offset self; generation := generation
     self; parent_link := parent_link self; page := page self; |}.
Definition with_dirty_generation (self : t) (v : Z) : t :=
  {| latch := latch self; pin_count := pin_count self; pid := pid self; dirty := dirty self;
     dirty_generation := v; referenced := referenced self; state := state self; page_lsn := page_lsn
     self; has_page_image_base := has_page_image_base self; wal_buffer_epoch := wal_buffer_epoch
     self; wal_buffer_offset := wal_buffer_offset self; generation := generation self; parent_link
     := parent_link self; page := page self; |}.
Definition with_referenced (self : t) (v : bool) : t :=
  {| latch := latch self; pin_count := pin_count self; pid := pid self; dirty := dirty self;
     dirty_generation := dirty_generation self; referenced := v; state := state self; page_lsn :=
     page_lsn self; has_page_image_base := has_page_image_base self; wal_buffer_epoch :=
     wal_buffer_epoch self; wal_buffer_offset := wal_buffer_offset self; generation := generation
     self; parent_link := parent_link self; page := page self; |}.
Definition with_state (self : t) (v : FrameState) : t :=
  {| latch := latch self; pin_count := pin_count self; pid := pid self; dirty := dirty self;
     dirty_generation := dirty_generation self; referenced := referenced self; state := v; page_lsn
     := page_lsn self; has_page_image_base := has_page_image_base self; wal_buffer_epoch :=
     wal_buffer_epoch self; wal_buffer_offset := wal_buffer_offset self; generation := generation
     self; parent_link := parent_link self; page := page self; |}.
Definition with_page_lsn (self : t) (v : Z) : t :=
  {| latch := latch self; pin_count := pin_count self; pid := pid self; dirty := dirty self;
     dirty_generation := dirty_generation self; referenced := referenced self; state := state self;
     page_lsn := v; has_page_image_base := has_page_image_base self; wal_buffer_epoch :=
     wal_buffer_epoch self; wal_buffer_offset := wal_buffer_offset self; generation := generation
     self; parent_link := parent_link self; page := page self; |}.
Definition with_has_page_image_base (self : t) (v : bool) : t :=
  {| latch := latch self; pin_count := pin_count self; pid := pid self; dirty := dirty self;
     dirty_generation := dirty_generation self; referenced := referenced self; state := state self;
     page_lsn := page_lsn self; has_page_image_base := v; wal_buffer_epoch := wal_buffer_epoch self;
     wal_buffer_offset := wal_buffer_offset self; generation := generation self; parent_link :=
     parent_link self; page := page self; |}.
Definition with_wal_buffer_epoch (self : t) (v : Z) : t :=
  {| latch := latch self; pin_count := pin_count self; pid := pid self; dirty := dirty self;
     dirty_generation := dirty_generation self; referenced := referenced self; state := state self;
     page_lsn := page_lsn self; has_page_image_base := has_page_image_base self; wal_buffer_epoch :=
     v; wal_buffer_offset := wal_buffer_offset self; generation := generation self; parent_link :=
     parent_link self; page := page self; |}.
Definition with_wal_buffer_offset (self : t) (v : Z) : t :=
  {| latch := latch self; pin_count := pin_count self; pid := pid self; dirty := dirty self;
     dirty_generation := dirty_generation self; referenced := referenced self; state := state self;
     page_lsn := page_lsn self; has_page_image_base := has_page_image_base self; wal_buffer_epoch :=
     wal_buffer_epoch self; wal_buffer_offset := v; generation := generation self; parent_link :=
     parent_link self; page := page self; |}.
Definition with_generation (self : t) (v : Z) : t :=
  {| latch := latch self; pin_count := pin_count self; pid := pid self; dirty := dirty self;
     dirty_generation := dirty_generation self; referenced := referenced self; state := state self;
     page_lsn := page_lsn self; has_page_image_base := has_page_image_base self; wal_buffer_epoch :=
     wal_buffer_epoch self; wal_buffer_offset := wal_buffer_offset self; generation := v;
     parent_link := parent_link self; page := page self; |}.
Definition with_parent_link (self : t) (v : ParentLink) : t :=
  {| latch := latch self; pin_count := pin_count self; pid := pid self; dirty := dirty self;
     dirty_generation := dirty_generation self; referenced := referenced self; state := state self;
     page_lsn := page_lsn self; has_page_image_base := has_page_image_base self; wal_buffer_epoch :=
     wal_buffer_epoch self; wal_buffer_offset := wal_buffer_offset self; generation := generation
     self; parent_link := v; page := page self; |}.
Definition with_page (self : t) (v : list byte) : t :=
  {| latch := latch self; pin_count := pin_count self; pid := pid self; dirty := dirty self;
     dirty_generation := dirty_generation self; referenced := referenced self; state := state self;
     page_lsn := page_lsn self; has_page_image_base := has_page_image_base self; wal_buffer_epoch :=
     wal_buffer_epoch self; wal_buffer_offset := wal_buffer_offset self; generation := generation
     self; parent_link := parent_link self; page := v; |}.

(** [BufferFrame::new]. *)
Definition new `{Build} : t := {|
  latch := Unlatched; pin_count := 0; pid := 0; dirty := false; dirty_generation := 0; referenced := false;
  state := Free; page_lsn := 0; has_page_image_base := false; wal_buffer_epoch := 0; wal_buffer_offset := 0;
  generation := 0; parent_link := LinkNone; page := fill PAGE_SIZE x00;
|}.
End Frame.

(** ** [FreeList] *)

Module FreeList.
Record t := { frames : list nat; capacity : nat }.

Definition new (capacity : nat) : t := {| frames := []; capacity := capacity |}.

Definition push (self : t) (bf : nat) : outcome t :=
  _ ← assert (length (frames self) <? capacity self)%nat;
  Ret {| frames := frames self ++ [bf]; capacity := capacity self |}.

Definition try_pop (self : t) : option nat * t :=
  match frames self with
  | [] => (None, self)
  | bf :: rest => (Some bf, {| frames := rest; capacity := capacity self |})
  end.

Definition len (self : t) : Z := zlen (frames self).
End FreeList.

(** ** [PageTable] *)

Definition PAGE_TABLE_SHARDS : Z := 8.

Module PageTable.
Notation t := (list (gmap Z nat)) (only parsing).

Definition new : t := replicate (Z.to_nat PAGE_TABLE_SHARDS) ∅.

(** [shards[pid % PAGE_TABLE_SHARDS]], by index and by contents. *)
Definition shard_idx (pid : Z) : nat := Z.to_nat (pid mod PAGE_TABLE_SHARDS).
Definition shard (self : t) (pid : Z) : gmap Z nat := default ∅ (self !! shard_idx pid).

Definition lookup (self : t) (pid : Z) : option nat := shard self pid !! pid.

Definition insert (self : t) (pid : Z) (bf : nat) : t := <[shard_idx pid := <[pid := bf]> (shard self pid)]> self.

Definition try_insert (self : t) (pid : Z) (bf : nat) : bool * t :=
  if bool_decide (is_Some (shard self pid !! pid)) then (false, self) else (true, insert self pid bf).

Definition remove (self : t) (pid : Z) : t := <[shard_idx pid := delete pid (shard self pid)]> self.
End PageTable.

(** ** Stable edges ([buffer_frame.rs]) *)

Module StableSwipOwner.
Record t := { word : Z; page_id : PageId }.

Definition load (self : t) : Z := AtomicSwipWord.load (word self).
Definition store_evicted `{Build} (_self : t) (pid : PageId) : outcome t :=
  w ← SwipWord.evicted pid;
  Ret {| word := w; page_id := pid |}.
End StableSwipOwner.

(** ** What the pool calls *)

Class PageStoreOps := {
  ps : Type;
  store_read_page : PageId → list byte → IO ps (list byte * io_result bool);
  store_write_page : PageId → list byte → IO ps unit;
  store_allocate : PageId → IO ps unit;
  store_sync : IO ps unit;
  store_write_pages : list (PageId * list byte) → IO ps unit;
  store_write_pages_and_sync : list (PageId * list byte) → IO ps unit;
  store_next_page_id : ps → outcome PageId;
}.

Module BufferedWalRecord.
Record t := { epoch : Z; offset : Z; shard_idx : Z }.
End BufferedWalRecord.

(** The calls of [pagebox_wal::Wal], with the calling thread's shard part of
    the log's state. *)
Class WalOps := {
  wal_t : Type;
  log_claim_lsn : wal_t → outcome (Lsn * wal_t);
  log_append_page_image : Lsn → PageId → list byte → IO wal_t BufferedWalRecord.t;
  log_try_overwrite_page_image : BufferedWalRecord.t → Lsn → PageId → list byte → IO wal_t bool;
  log_append_page_patch_ranges : Lsn → PageId → list (Z * list byte) → IO wal_t (option Z);
  log_append_logical : Z → list byte → IO wal_t Lsn;
  log_flush_at_least : Lsn → wal_t → wal_t;
  log_flush : wal_t → wal_t;
  log_is_lsn_durable : wal_t → Lsn → bool;
}.

(** ** The pool *)

Inductive EvictionPolicy := BatchClock | RandomSecondChance.

(** [str::eq_ignore_ascii_case], and [str::trim] on spaces, tabs, line feeds
    and carriage returns. *)
Definition lower (a : ascii) : ascii :=
  let n := nat_of_ascii a in if (65 <=? n)%nat && (n <=? 90)%nat then ascii_of_nat (n + 32) else a.
Fixpoint eq_ignore_ascii_case (a b : string) : bool :=
  match a, b with
  | EmptyString, EmptyString => true
  | String x a, String y b => bool_decide (lower x = lower y) && eq_ignore_ascii_case a b
  | _, _ => false
  end.

Definition parse_eviction_policy (value : string) : option EvictionPolicy :=
  if eq_ignore_ascii_case value "batch_clock" || eq_ignore_ascii_case value "clock"
     || eq_ignore_ascii_case value "batch" then Some BatchClock else
  if eq_ignore_ascii_case value "random_second_chance" || eq_ignore_ascii_case value "random"
     || eq_ignore_ascii_case value "rsc" then Some RandomSecondChance else
  None.

(** The trimmed value of [PAGEBOX_EVICTION_POLICY], if it is set. *)
Definition eviction_policy_of (raw : option string) : EvictionPolicy :=
  match raw with
  | None => RandomSecondChance
  | Some raw => default RandomSecondChance (parse_eviction_policy raw)
  end.

Module BufferPool.
Section pool.
Context `{PageStoreOps} `{WalOps}.

(** [arena], [free_list] and the two hands are [PoolState]; [dt_registry],
    [page_reclaimers] and [page_writeback_preparers] hold the keys of the
    registered callbacks; [owners] are the live stable edges, by identity.
    [written] is not part of the program: it lists the pages handed to the
    page store, each with the log as it stood. *)
Record t := {
  arena : list Frame.t;
  free_list : FreeList.t;
  eviction_hand : Z;
  dirty_flush_hand : Z;
  page_table : PageTable.t;
  page_store : ps;
  next_page_id : PageId;
  free_page_allocator : FreePageAllocator.t;
  resident_base_pages : Z;
  resident_base_pages_available : Z;
  wal : option wal_t;
  prefetch_inflight : gset PageId;
  dt_registry : list Z;
  eviction_budget : Z;
  eviction_in_flight : Z;
  dirty_flush_inflight : gset PageId;
  page_reclaimers : gset PageId;
  page_writeback_preparers : list PageType;
  pending_reusable_extents : list FreeExtent.t;
  owners : gmap Z StableSwipOwner.t;
  written : list (PageId * list byte * option wal_t);
}.

Definition with_arena (self : t) (v : list Frame.t) : t :=
  {| arena := v; free_list := free_list self; eviction_hand := eviction_hand self; dirty_flush_hand
     := dirty_flush_hand self; page_table := page_table self; page_store := page_store self;
     next_page_id := next_page_id self; free_page_allocator := free_page_allocator self;
     resident_base_pages := resident_base_pages self; resident_base_pages_available :=
     resident_base_pages_available self; wal := wal self; prefetch_inflight := prefetch_inflight
     self; dt_registry := dt_registry self; eviction_budget := eviction_budget self;
     eviction_in_flight := eviction_in_flight self; dirty_flush_inflight := dirty_flush_inflight
     self; page_reclaimers := page_reclaimers self; page_writeback_preparers :=
     page_writeback_preparers self; pending_reusable_extents := pending_reusable_extents self;
     owners := owners self; written := written self; |}.
Definition with_free_list (self : t) (v : FreeList.t) : t :=
  {| arena := arena self; free_list := v; eviction_hand := eviction_hand self; dirty_flush_hand :=
     dirty_flush_hand self; page_table := page_table self; page_store := page_store self;
     next_page_id := next_page_id self; free_page_allocator := free_page_allocator self;
     resident_base_pages := resident_base_pages self; resident_base_pages_available :=
     resident_base_pages_available self; wal := wal self; prefetch_inflight := prefetch_inflight
     self; dt_registry := dt_registry self; eviction_budget := eviction_budget self;
     eviction_in_flight := eviction_in_flight self; dirty_flush_inflight := dirty_flush_inflight
     self; page_reclaimers := page_reclaimers self; page_writeback_preparers :=
     page_writeback_preparers self; pending_reusable_extents := pending_reusable_extents self;
     owners := owners self; written := written self; |}.
Definition with_eviction_hand (self : t) (v : Z) : t :=
  {| arena := arena self; free_list := free_list self; eviction_hand := v; dirty_flush_hand :=
     dirty_flush_hand self; page_table := page_table self; page_store := page_store self;
     next_page_id := next_page_id self; free_page_allocator := free_page_allocator self;
     resident_base_pages := resident_base_pages self; resident_base_pages_available :=
     resident_base_pages_available self; wal := wal self; prefetch_inflight := prefetch_inflight
     self; dt_registry := dt_registry self; eviction_budget := eviction_budget self;
     eviction_in_flight := eviction_in_flight self; dirty_flush_inflight := dirty_flush_inflight
     self; page_reclaimers := page_reclaimers self; page_writeback_preparers :=
     page_writeback_preparers self; pending_reusable_extents := pending_reusable_extents self;
     owners := owners self; written := written self; |}.
Definition with_dirty_flush_hand (self : t) (v : Z) : t :=
  {| arena := arena self; free_list := free_list self; eviction_hand := eviction_hand self;
     dirty_flush_hand := v; page_table := page_table self; page_store := page_store self;
     next_page_id := next_page_id self; free_page_allocator := free_page_allocator self;
     resident_base_pages := resident_base_pages self; resident_base_pages_available :=
     resident_base_pages_available self; wal := wal self; prefetch_inflight := prefetch_inflight
     self; dt_registry := dt_registry self; eviction_budget := eviction_budget self;
     eviction_in_flight := eviction_in_flight self; dirty_flush_inflight := dirty_flush_inflight
     self; page_reclaimers := page_reclaimers self; page_writeback_preparers :=
     page_writeback_preparers self; pending_reusable_extents := pending_reusable_extents self;
     owners := owners self; written := written self; |}.
Definition with_page_table (self : t) (v : PageTable.t) : t :=
  {| arena := arena self; free_list := free_list self; eviction_hand := eviction_hand self;
     dirty_flush_hand := dirty_flush_hand self; page_table := v; page_store := page_store self;
     next_page_id := next_page_id self; free_page_allocator := free_page_allocator self;
     resident_base_pages := resident_base_pages self; resident_base_pages_available :=
     resident_base_pages_available self; wal := wal self; prefetch_inflight := prefetch_inflight
     self; dt_registry := dt_registry self; eviction_budget := eviction_budget self;
     eviction_in_flight := eviction_in_flight self; dirty_flush_inflight := dirty_flush_inflight
     self; page_reclaimers := page_reclaimers self; page_writeback_preparers :=
     page_writeback_preparers self; pending_reusable_extents := pending_reusable_extents self;
     owners := owners self; written := written self; |}.
Definition with_page_store (self : t) (v : ps) : t :=
  {| arena := arena self; free_list := free_list self; eviction_hand := eviction_hand self;
     dirty_flush_hand := dirty_flush_hand self; page_table := page_table self; page_store := v;
     next_page_id := next_page_id self; free_page_allocator := free_page_allocator self;
     resident_base_pages := resident_base_pages self; resident_base_pages_available :=
     resident_base_pages_available self; wal := wal self; prefetch_inflight := prefetch_inflight
     self; dt_registry := dt_registry self; eviction_budget := eviction_budget self;
     eviction_in_flight := eviction_in_flight self; dirty_flush_inflight := dirty_flush_inflight
     self; page_reclaimers := page_reclaimers self; page_writeback_preparers :=
     page_writeback_preparers self; pending_reusable_extents := pending_reusable_extents self;
     owners := owners self; written := written self; |}.
Definition with_next_page_id (self : t) (v : PageId) : t :=
  {| arena := arena self; free_list := free_list self; eviction_hand := eviction_hand self;
     dirty_flush_hand := dirty_flush_hand self; page_table := page_table self; page_store :=
     page_store self; next_page_id := v; free_page_allocator := free_page_allocator self;
     resident_base_pages := resident_base_pages self; resident_base_pages_available :=
     resident_base_pages_available self; wal := wal self; prefetch_inflight := prefetch_inflight
     self; dt_registry := dt_registry self; eviction_budget := eviction_budget self;
     eviction_in_flight := eviction_in_flight self; dirty_flush_inflight := dirty_flush_inflight
     self; page_reclaimers := page_reclaimers self; page_writeback_preparers :=
     page_writeback_preparers self; pending_reusable_extents := pending_reusable_extents self;
     owners := owners self; written := written self; |}.
Definition with_free_page_allocator (self : t) (v : FreePageAllocator.t) : t :=
  {| arena := arena self; free_list := free_list self; eviction_hand := eviction_hand self;
     dirty_flush_hand := dirty_flush_hand self; page_table := page_table self; page_store :=
     page_store self; next_page_id := next_page_id self; free_page_allocator := v;
     resident_base_pages := resident_base_pages self; resident_base_pages_available :=
     resident_base_pages_available self; wal := wal self; prefetch_inflight := prefetch_inflight
     self; dt_registry := dt_registry self; eviction_budget := eviction_budget self;
     eviction_in_flight := eviction_in_flight self; dirty_flush_inflight := dirty_flush_inflight
     self; page_reclaimers := page_reclaimers self; page_writeback_preparers :=
     page_writeback_preparers self; pending_reusable_extents := pending_reusable_extents self;
     owners := owners self; written := written self; |}.
Definition with_resident_base_pages_available (self : t) (v : Z) : t :=
  {| arena := arena self; free_list := free_list self; eviction_hand := eviction_hand self;
     dirty_flush_hand := dirty_flush_hand self; page_table := page_table self; page_store :=
     page_store self; next_page_id := next_page_id self; free_page_allocator := free_page_allocator
     self; resident_base_pages := resident_base_pages self; resident_base_pages_available := v; wal
     := wal self; prefetch_inflight := prefetch_inflight self; dt_registry := dt_registry self;
     eviction_budget := eviction_budget self; eviction_in_flight := eviction_in_flight self;
     dirty_flush_inflight := dirty_flush_inflight self; page_reclaimers := page_reclaimers self;
     page_writeback_preparers := page_writeback_preparers self; pending_reusable_extents :=
     pending_reusable_extents self; owners := owners self; written := written self; |}.
Definition with_wal (self : t) (v : option wal_t) : t :=
  {| arena := arena self; free_list := free_list self; eviction_hand := eviction_hand self;
     dirty_flush_hand := dirty_flush_hand self; page_table := page_table self; page_store :=
     page_store self; next_page_id := next_page_id self; free_page_allocator := free_page_allocator
     self; resident_base_pages := resident_base_pages self; resident_base_pages_available :=
     resident_base_pages_available self; wal := v; prefetch_inflight := prefetch_inflight self;
     dt_registry := dt_registry self; eviction_budget := eviction_budget self; eviction_in_flight :=
     eviction_in_flight self; dirty_flush_inflight := dirty_flush_inflight self; page_reclaimers :=
     page_reclaimers self; page_writeback_preparers := page_writeback_preparers self;
     pending_reusable_extents := pending_reusable_extents self; owners := owners self; written :=
     written self; |}.
Definition with_prefetch_inflight (self : t) (v : gset PageId) : t :=
  {| arena := arena self; free_list := free_list self; eviction_hand := eviction_hand self;
     dirty_flush_hand := dirty_flush_hand self; page_table := page_table self; page_store :=
     page_store self; next_page_id := next_page_id self; free_page_allocator := free_page_allocator
     self; resident_base_pages := resident_base_pages self; resident_base_pages_available :=
     resident_base_pages_available self; wal := wal self; prefetch_inflight := v; dt_registry :=
     dt_registry self; eviction_budget := eviction_budget self; eviction_in_flight :=
     eviction_in_flight self; dirty_flush_inflight := dirty_flush_inflight self; page_reclaimers :=
     page_reclaimers self; page_writeback_preparers := page_writeback_preparers self;
     pending_reusable_extents := pending_reusable_extents self; owners := owners self; written :=
     written self; |}.
Definition with_dt_registry (self : t) (v : list Z) : t :=
  {| arena := arena self; free_list := free_list self; eviction_hand := eviction_hand self;
     dirty_flush_hand := dirty_flush_hand self; page_table := page_table self; page_store :=
     page_store self; next_page_id := next_page_id self; free_page_allocator := free_page_allocator
     self; resident_base_pages := resident_base_pages self; resident_base_pages_available :=
     resident_base_pages_available self; wal := wal self; prefetch_inflight := prefetch_inflight
     self; dt_registry := v; eviction_budget := eviction_budget self; eviction_in_flight :=
     eviction_in_flight self; dirty_flush_inflight := dirty_flush_inflight self; page_reclaimers :=
     page_reclaimers self; page_writeback_preparers := page_writeback_preparers self;
     pending_reusable_extents := pending_reusable_extents self; owners := owners self; written :=
     written self; |}.
Definition with_eviction_in_flight (self : t) (v : Z) : t :=
  {| arena := arena self; free_list := free_list self; eviction_hand := eviction_hand self;
     dirty_flush_hand := dirty_flush_hand self; page_table := page_table self; page_store :=
     page_store self; next_page_id := next_page_id self; free_page_allocator := free_page_allocator
     self; resident_base_pages := resident_base_pages self; resident_base_pages_available :=
     resident_base_pages_available self; wal := wal self; prefetch_inflight := prefetch_inflight
     self; dt_registry := dt_registry self; eviction_budget := eviction_budget self;
     eviction_in_flight := v; dirty_flush_inflight := dirty_flush_inflight self; page_reclaimers :=
     page_reclaimers self; page_writeback_preparers := page_writeback_preparers self;
     pending_reusable_extents := pending_reusable_extents self; owners := owners self; written :=
     written self; |}.
Definition with_dirty_flush_inflight (self : t) (v : gset PageId) : t :=
  {| arena := arena self; free_list := free_list self; eviction_hand := eviction_hand self;
     dirty_flush_hand := dirty_flush_hand self; page_table := page_table self; page_store :=
     page_store self; next_page_id := next_page_id self; free_page_allocator := free_page_allocator
     self; resident_base_pages := resident_base_pages self; resident_base_pages_available :=
     resident_base_pages_available self; wal := wal self; prefetch_inflight := prefetch_inflight
     self; dt_registry := dt_registry self; eviction_budget := eviction_budget self;
     eviction_in_flight := eviction_in_flight self; dirty_flush_inflight := v; page_reclaimers :=
     page_reclaimers self; page_writeback_preparers := page_writeback_preparers self;
     pending_reusable_extents := pending_reusable_extents self; owners := owners self; written :=
     written self; |}.
Definition with_page_reclaimers (self : t) (v : gset PageId) : t :=
  {| arena := arena self; free_list := free_list self; eviction_hand := eviction_hand self;
     dirty_flush_hand := dirty_flush_hand self; page_table := page_table self; page_store :=
     page_store self; next_page_id := next_page_id self; free_page_allocator := free_page_allocator
     self; resident_base_pages := resident_base_pages self; resident_base_pages_available :=
     resident_base_pages_available self; wal := wal self; prefetch_inflight := prefetch_inflight
     self; dt_registry := dt_registry self; eviction_budget := eviction_budget self;
     eviction_in_flight := eviction_in_flight self; dirty_flush_inflight := dirty_flush_inflight
     self; page_reclaimers := v; page_writeback_preparers := page_writeback_preparers self;
     pending_reusable_extents := pending_reusable_extents self; owners := owners self; written :=
     written self; |}.
Definition with_page_writeback_preparers (self : t) (v : list PageType) : t :=
  {| arena := arena self; free_list := free_list self; eviction_hand := eviction_hand self;
     dirty_flush_hand := dirty_flush_hand self; page_table := page_table self; page_store :=
     page_store self; next_page_id := next_page_id self; free_page_allocator := free_page_allocator
     self; resident_base_pages := resident_base_pages self; resident_base_pages_available :=
     resident_base_pages_available self; wal := wal self; prefetch_inflight := prefetch_inflight
     self; dt_registry := dt_registry self; eviction_budget := eviction_budget self;
     eviction_in_flight := eviction_in_flight self; dirty_flush_inflight := dirty_flush_inflight
     self; page_reclaimers := page_reclaimers self; page_writeback_preparers := v;
     pending_reusable_extents := pending_reusable_extents self; owners := owners self; written :=
     written self; |}.
Definition with_pending_reusable_extents (self : t) (v : list FreeExtent.t) : t :=
  {| arena := arena self; free_list := free_list self; eviction_hand := eviction_hand self;
     dirty_flush_hand := dirty_flush_hand self; page_table := page_table self; page_store :=
     page_store self; next_page_id := next_page_id self; free_page_allocator := free_page_allocator
     self; resident_base_pages := resident_base_pages self; resident_base_pages_available :=
     resident_base_pages_available self; wal := wal self; prefetch_inflight := prefetch_inflight
     self; dt_registry := dt_registry self; eviction_budget := eviction_budget self;
     eviction_in_flight := eviction_in_flight self; dirty_flush_inflight := dirty_flush_inflight
     self; page_reclaimers := page_reclaimers self; page_writeback_preparers :=
     page_writeback_preparers self; pending_reusable_extents := v; owners := owners self; written :=
     written self; |}.
Definition with_owners (self : t) (v : gmap Z StableSwipOwner.t) : t :=
  {| arena := arena self; free_list := free_list self; eviction_hand := eviction_hand self;
     dirty_flush_hand := dirty_flush_hand self; page_table := page_table self; page_store :=
     page_store self; next_page_id := next_page_id self; free_page_allocator := free_page_allocator
     self; resident_base_pages := resident_base_pages self; resident_base_pages_available :=
     resident_base_pages_available self; wal := wal self; prefetch_inflight := prefetch_inflight
     self; dt_registry := dt_registry self; eviction_budget := eviction_budget self;
     eviction_in_flight := eviction_in_flight self; dirty_flush_inflight := dirty_flush_inflight
     self; page_reclaimers := page_reclaimers self; page_writeback_preparers :=
     page_writeback_preparers self; pending_reusable_extents := pending_reusable_extents self;
     owners := v; written := written self; |}.
Definition with_written (self : t) (v : list (PageId * list byte * option wal_t)) : t :=
  {| arena := arena self; free_list := free_list self; eviction_hand := eviction_hand self;
     dirty_flush_hand := dirty_flush_hand self; page_table := page_table self; page_store :=
     page_store self; next_page_id := next_page_id self; free_page_allocator := free_page_allocator
     self; resident_base_pages := resident_base_pages self; resident_base_pages_available :=
     resident_base_pages_available self; wal := wal self; prefetch_inflight := prefetch_inflight
     self; dt_registry := dt_registry self; eviction_budget := eviction_budget self;
     eviction_in_flight := eviction_in_flight self; dirty_flush_inflight := dirty_flush_inflight
     self; page_reclaimers := page_reclaimers self; page_writeback_preparers :=
     page_writeback_preparers self; pending_reusable_extents := pending_reusable_extents self;
     owners := owners self; written := v; |}.
End pool.
End BufferPool.
Arguments BufferPool.t {_ _}.
