(* ===== verification/PoolBase.v ===== *)
(** * Buffer pool: computations on the pool, and their smallest steps

    The effects the methods of [src/crates/storage/src/buffer_pool.rs] are
    written in: they change the pool, panic (for a reason), or never return;
    then what they are made of: reads and writes of a frame's fields, latches
    and guards, frame addresses, calls of the page store and of the log, the
    registered callbacks, resident-budget tokens and eviction permits. *)

From S2P Require Import Prelude Bytes FrameKernel SwipKernel PageHeader PageMutation Slotted BufferFrame FreePages Posix PageStore BufferPool.
#[local] Open Scope Z_scope.

(** ** Effects *)

Inductive panic_reason :=
| Asserted        (* a failed assertion *)
| StoreFailed     (* the page store failed, or lost a page *)
| WalFailed       (* an append to the log failed *)
| LsnOver         (* the log's LSNs are used up *)
| Exhausted       (* [panic_pool_exhausted] *)
| GenerationOver. (* a slot was claimed 2^32 - 1 times *)

Inductive run (St A : Type) : Type :=
| Fin (a : A) (σ : St)
| Panics (why : panic_reason)
| Spins.
Arguments Fin {St A} a σ.
Arguments Panics {St A} why.
Arguments Spins {St A}.

Definition PM `{PageStoreOps} `{WalOps} (A : Type) : Type := BufferPool.t → run BufferPool.t A.

#[global] Instance PM_ret `{PageStoreOps} `{WalOps} : MRet PM := λ A a σ, Fin a σ.
#[global] Instance PM_bind `{PageStoreOps} `{WalOps} : MBind PM := λ A B k m σ,
  match m σ with
  | Fin a σ => k a σ
  | Panics why => Panics why
  | Spins => Spins
  end.

Section effects.
Context `{PageStoreOps} `{WalOps}.

Definition panic {A} (why : panic_reason) : PM A := λ _, Panics why.
Definition spin {A} : PM A := λ _, Spins.
Definition pget {A} (f : BufferPool.t → A) : PM A := λ σ, Fin (f σ) σ.
Definition pput (f : BufferPool.t → BufferPool.t) : PM unit := λ σ, Fin tt (f σ).
(** A computation that may panic, and why it does. *)
Definition orelse {A} (why : panic_reason) (o : outcome A) : PM A := λ σ,
  match o with
  | Ret a => Fin a σ
  | Panic => Panics why
  end.
Definition on_store {A} (m : IO ps A) : PM (io_result A) := λ σ,
  match m (BufferPool.page_store σ) with
  | Done r s => Fin r (BufferPool.with_page_store σ s)
  | Panicked => Panics Asserted
  | OutOfFuel => Spins
  end.
(** [.expect(..)] on an [io::Result]. *)
Definition expect_ok {A} (why : panic_reason) (r : io_result A) : PM A :=
  match r with
  | Ok a => mret a
  | Err _ => panic why
  end.
Definition on_wal {A} (w : wal_t) (m : IO wal_t A) : PM (io_result A) := λ σ,
  match m w with
  | Done r w => Fin r (BufferPool.with_wal σ (Some w))
  | Panicked => Panics Asserted
  | OutOfFuel => Spins
  end.

(** [for x in l { f(x) }], and the loop that stops at the first result. *)
Fixpoint each_do {A} (f : A → PM unit) (l : list A) : PM unit :=
  match l with
  | [] => mret tt
  | x :: l => _ ← f x; each_do f l
  end.
Fixpoint first_some {A B} (f : A → PM (option B)) (l : list A) : PM (option B) :=
  match l with
  | [] => mret None
  | x :: l =>
      o ← f x;
      match o with
      | Some b => mret (Some b)
      | None => first_some f l
      end
  end.
(** [loop { .. }] whose body [continue]s with [None]. *)
Fixpoint repeat_until {A} (fuel : nat) (body : PM (option A)) : PM A :=
  match fuel with
  | O => spin
  | S fuel =>
      o ← body;
      match o with
      | Some a => mret a
      | None => repeat_until fuel body
      end
  end.

(** ** Frames *)

Definition frame_at (bf : nat) : PM Frame.t := λ σ,
  match BufferPool.arena σ !! bf with
  | Some f => Fin f σ
  | None => Panics Asserted
  end.
Definition put_frame (bf : nat) (f : Frame.t) : PM unit :=
  pput (λ σ, BufferPool.with_arena σ (<[bf := f]> (BufferPool.arena σ))).
Definition fget {A} (field : Frame.t → A) (bf : nat) : PM A := f ← frame_at bf; mret (field f).
Definition fset {A} (with_field : Frame.t → A → Frame.t) (bf : nat) (v : A) : PM unit :=
  f ← frame_at bf; put_frame bf (with_field f v).

Definition pin (bf : nat) : PM unit :=
  n ← fget Frame.pin_count bf; fset Frame.with_pin_count bf (PaddedAtomicU32.fetch_add n 1).1.
Definition unpin (bf : nat) : PM unit :=
  n ← fget Frame.pin_count bf; fset Frame.with_pin_count bf (PaddedAtomicU32.fetch_sub n 1).1.

Context `{Build}.

Definition transition (bf : nat) (from to : FrameState) : PM unit :=
  _ ← orelse Asserted (debug_assert (is_valid_transition from to));
  fset Frame.with_state bf to.
(** [compare_exchange_transition(..).is_ok()]. *)
Definition compare_exchange_transition (bf : nat) (from to : FrameState) : PM bool :=
  _ ← orelse Asserted (debug_assert (is_valid_transition from to));
  s ← fget Frame.state bf;
  if bool_decide (s = from) then _ ← fset Frame.with_state bf to; mret true else mret false.

(** ** Latches *)

Definition try_lock_exclusive (bf : nat) : PM bool :=
  l ← fget Frame.latch bf;
  if bool_decide (l = Unlatched) then _ ← fset Frame.with_latch bf ExclusiveHeld; mret true else mret false.
Definition lock_exclusive (bf : nat) : PM unit :=
  ok ← try_lock_exclusive bf;
  if ok : bool then mret tt else spin.
Definition unlock_exclusive (bf : nat) : PM unit := fset Frame.with_latch bf Unlatched.
(** [optimistic_or_restart().is_ok()]. No other thread runs before the guard
    is validated or upgraded, so that validation succeeds and the upgrade
    fails only when a reader holds the latch. *)
Definition optimistic_or_restart (bf : nat) : PM bool :=
  l ← fget Frame.latch bf; mret (bool_decide (l ≠ ExclusiveHeld)).
Definition try_upgrade_to_exclusive (bf : nat) : PM bool := try_lock_exclusive bf.

(** The scope of a guard: [None] when it was not acquired. *)
Definition with_try_exclusive {A} (bf : nat) (body : PM A) : PM (option A) :=
  ok ← try_lock_exclusive bf;
  if ok : bool then a ← body; _ ← unlock_exclusive bf; mret (Some a) else mret None.
Definition with_exclusive {A} (bf : nat) (body : PM A) : PM A :=
  _ ← lock_exclusive bf;
  a ← body;
  _ ← unlock_exclusive bf;
  mret a.

(** ** Addresses *)

Definition FRAME_STRIDE : Z := 2 * PAGE_SIZE.

(** The process the pool runs in: where its arena was mapped, the policy in
    effect, and the allocation shard of the calling thread. *)
Class PoolEnv := {
  arena_base : Z;
  eviction_policy : EvictionPolicy;
  thread_alloc_shard_hint : nat;
}.
Context `{PoolEnv}.

Definition allocated_slots (σ : BufferPool.t) : nat := length (BufferPool.arena σ).

(** [raw_frame], as an address. *)
Definition frame_ptr (bf : nat) : Z := arena_base + Z.of_nat bf * FRAME_STRIDE.

Definition contains_frame_ptr (σ : BufferPool.t) (addr : Z) : bool :=
  let byte_len := saturating_mul 64 (Z.of_nat (allocated_slots σ)) FRAME_STRIDE in
  (arena_base <=? addr) && (addr <? saturating_add 64 arena_base byte_len)
  && ((addr - arena_base) mod FRAME_STRIDE =? 0).

(** The slot behind an address of the arena. *)
Definition slot_of (addr : Z) : nat := Z.to_nat ((addr - arena_base) / FRAME_STRIDE).

Definition contains_hot_or_cool_swip_frame (σ : BufferPool.t) (swip : Z) : outcome bool :=
  if negb (SwipWord.is_hot swip || SwipWord.is_cool swip) then Ret false else
  bf ← SwipWord.as_ptr swip;
  Ret (contains_frame_ptr σ bf).

Definition frame_id (bf : nat) : PM FrameId.t :=
  σ ← pget id;
  _ ← orelse Asserted (assert (contains_frame_ptr σ (frame_ptr bf)));
  g ← fget Frame.generation bf;
  mret (FrameId.new (wrap 32 (Z.of_nat bf)) g).

(** ** Budget, permits, free frames *)

Definition try_reserve_resident_budget : PM bool :=
  available ← pget BufferPool.resident_base_pages_available;
  if 1 <=? available then
    _ ← pput (λ σ, BufferPool.with_resident_base_pages_available σ (available - 1));
    mret true
  else mret false.

Definition release_resident_budget : PM unit :=
  pput (λ σ, BufferPool.with_resident_base_pages_available σ
    (wrap 64 (BufferPool.resident_base_pages_available σ + 1))).

Definition push_free (bf : nat) : PM unit :=
  fl ← pget BufferPool.free_list;
  fl ← orelse Asserted (FreeList.push fl bf);
  pput (λ σ, BufferPool.with_free_list σ fl).
Definition try_pop_free : PM (option nat) :=
  fl ← pget BufferPool.free_list;
  let '(o, fl) := FreeList.try_pop fl in
  _ ← pput (λ σ, BufferPool.with_free_list σ fl);
  mret o.

Definition claim_free_frame (bf : nat) : PM nat :=
  g ← fget Frame.generation bf;
  g ← orelse GenerationOver (expect (checked_add 32 g 1));
  _ ← fset Frame.with_generation bf g;
  mret bf.

Definition table_lookup (pid : PageId) : PM (option nat) := pget (λ σ, PageTable.lookup (BufferPool.page_table σ) pid).
Definition table_try_insert (pid : PageId) (bf : nat) : PM bool :=
  t ← pget BufferPool.page_table;
  let '(ok, t) := PageTable.try_insert t pid bf in
  _ ← pput (λ σ, BufferPool.with_page_table σ t);
  mret ok.
Definition table_insert (pid : PageId) (bf : nat) : PM unit :=
  pput (λ σ, BufferPool.with_page_table σ (PageTable.insert (BufferPool.page_table σ) pid bf)).
Definition table_remove (pid : PageId) : PM unit :=
  pput (λ σ, BufferPool.with_page_table σ (PageTable.remove (BufferPool.page_table σ) pid)).

(** [try_acquire_eviction_permit], and the permit's [drop]. *)
Definition try_acquire_eviction_permit : PM bool :=
  current ← pget BufferPool.eviction_in_flight;
  budget ← pget BufferPool.eviction_budget;
  if budget <=? current then mret false else
  _ ← pput (λ σ, BufferPool.with_eviction_in_flight σ (current + 1));
  mret true.
Definition drop_eviction_permit : PM unit :=
  pput (λ σ, BufferPool.with_eviction_in_flight σ (wrap 64 (BufferPool.eviction_in_flight σ - 1))).

Definition mark_referenced (bf : nat) : PM unit := fset Frame.with_referenced bf true.

(** ** Registered callbacks

    By the key they are registered under: parent finders by data structure,
    reclaimers by page, writeback preparers by page type. *)

Class Hooks := {
  find_and_unswizzle : Z → nat → PageId → BufferPool.t → bool * BufferPool.t;
  find_and_unswizzle_with_hint :
    Z → nat → PageId → PageId → Z → bool → BufferPool.t → option bool * BufferPool.t;
  hook_try_reclaim_before_evict : PageId → nat → BufferPool.t → BufferPool.t;
  hook_prepare_page_copy_for_writeback : PageType → list byte → BufferPool.t → list byte;
}.
Context `{Hooks}.

Definition register_dt (dt_id : Z) : PM unit :=
  pput (λ σ, BufferPool.with_dt_registry σ (dt_id :: filter (λ d, d ≠ dt_id) (BufferPool.dt_registry σ))).
Definition unregister_dt (dt_id : Z) : PM unit :=
  pput (λ σ, BufferPool.with_dt_registry σ (filter (λ d, d ≠ dt_id) (BufferPool.dt_registry σ))).
Definition has_registered_dt (σ : BufferPool.t) (dt_id : Z) : bool := bool_decide (dt_id ∈ BufferPool.dt_registry σ).
Definition register_page_reclaimer (page_pid : PageId) : PM unit :=
  pput (λ σ, BufferPool.with_page_reclaimers σ ({[page_pid]} ∪ BufferPool.page_reclaimers σ)).
Definition unregister_page_reclaimer (page_pid : PageId) : PM unit :=
  pput (λ σ, BufferPool.with_page_reclaimers σ (BufferPool.page_reclaimers σ ∖ {[page_pid]})).
Definition register_page_writeback_preparer (page_type : PageType) : PM unit :=
  pput (λ σ, BufferPool.with_page_writeback_preparers σ (page_type :: BufferPool.page_writeback_preparers σ)).

Definition try_reclaim_before_evict (page_pid : PageId) (page_bf : nat) : PM unit :=
  σ ← pget id;
  if bool_decide (page_pid ∈ BufferPool.page_reclaimers σ)
  then pput (hook_try_reclaim_before_evict page_pid page_bf) else mret tt.

(** The frames by address, as [convert_swips_in_buf] reads them. *)
Definition heap_of (σ : BufferPool.t) : gmap Z BufferFrame.t :=
  list_to_map (imap (λ bf f, (frame_ptr bf,
    {| BufferFrame.pid := Frame.pid f; BufferFrame.parent_link := Frame.parent_link f;
       BufferFrame.dirty := Frame.dirty f; BufferFrame.page := Frame.page f |})) (BufferPool.arena σ)).

Definition prepare_page_copy_for_writeback (page : list byte) : PM (list byte) :=
  σ ← pget id;
  let page_type := read_page_type page in
  if bool_decide (page_type ∈ BufferPool.page_writeback_preparers σ)
  then mret (hook_prepare_page_copy_for_writeback page_type page σ) else
  if negb (bool_decide (page_type = Index)) then mret page else
  orelse Asserted (convert_swips_in_buf (heap_of σ) (contains_frame_ptr σ) page).

End effects.
