(* ===== verification/PoolEvict.v ===== *)
(** * Buffer pool: eviction

    Models the eviction half of [src/crates/storage/src/buffer_pool.rs]: which
    frames may go, how the reference to a frame is taken back from its parent
    (a stable edge, a slot of an inner node, or a walk by a registered
    finder), and the two selection policies, one frame at a time and in
    batches. *)

From S2P Require Import Prelude Bytes FrameKernel SwipKernel PageHeader PageMutation Slotted BufferFrame FreePages Posix PageStore BufferPool PoolBase.
#[local] Open Scope Z_scope.
Import SlottedHeader SlottedPage.

(** ** The edge that leads to a child *)

Module ParentChildEdge.
Record t := { slot : Z; is_upper : bool }.
Definition new (slot : Z) (is_upper : bool) : t := {| slot := slot; is_upper := is_upper |}.

Definition read_raw `{Build} (self : t) (parent : page) : outcome (option Z) :=
  if is_upper self then
    let off := PAGE_SIZE - 8 in
    bytes ← slice parent off (off + 8);
    Ret (Some (of_le_bytes bytes))
  else
  if num_slots parent <=? slot self then Ret None else
  val ← get_value parent (slot self);
  if zlen val <? 8 then Ret None else
  bytes ← slice val 0 8;
  Ret (Some (of_le_bytes bytes)).

Definition write_evicted `{Build} (self : t) (parent : page) (child_pid : PageId) : outcome page :=
  raw ← SwipWord.evicted child_pid;
  let raw := le_bytes 8 (SwipWord.raw raw) in
  if is_upper self then
    let off := PAGE_SIZE - 8 in
    copy_from parent off (off + 8) raw
  else
  r ← update_value_if_same_length parent (slot self) raw;
  Ret r.1.
End ParentChildEdge.

Definition is_stable_index_root (page : list byte) (parent_link : ParentLink) : bool :=
  match parent_link with
  | Stable _ =>
      match read_page_type page with
      | Index | BeTreeInternal | BeTreeLeaf => true
      | _ => false
      end
  | _ => false
  end.

(** A frame selected by a batch. *)
Module Candidate.
Record t := { bf : nat; pid : PageId }.
End Candidate.

Section evict.
Context `{Build} `{PageStoreOps} `{WalOps} `{!PoolEnv} `{!Hooks}.

(** ** Frames that may go *)

Definition revert_frame_to_resident (bf : nat) : PM unit := transition bf Evicting Resident.

Definition clear_frame_dirty_metadata (bf : nat) : PM unit :=
  _ ← fset Frame.with_dirty bf false;
  _ ← fset Frame.with_has_page_image_base bf true;
  _ ← fset Frame.with_wal_buffer_epoch bf 0;
  fset Frame.with_wal_buffer_offset bf 0.

Definition frame_is_index_page (f : Frame.t) : bool := bool_decide (read_page_type (Frame.page f) = Index).

Definition frame_page_allows_eviction (f : Frame.t) : bool :=
  negb (is_inner_index_page (Frame.page f)) && negb (should_remain_resident (Frame.page f))
  && negb (is_stable_index_root (Frame.page f) (Frame.parent_link f)).

Definition parent_link_allows_free (f : Frame.t) (parent_updated : bool) : bool :=
  match Frame.parent_link f with
  | InnerNode _ => parent_updated
  | LinkNone => negb (frame_is_index_page f) || parent_updated
  | Stable _ | Unswizzled => true
  end.

Definition can_free_evicting_frame (f : Frame.t) : bool :=
  (Frame.pin_count f =? 0) && negb (Frame.dirty f) && bool_decide (Frame.state f = Evicting).

Definition free_evicting_frame (bf : nat) : PM unit :=
  pid ← fget Frame.pid bf;
  _ ← table_remove pid;
  _ ← fset Frame.with_parent_link bf LinkNone;
  _ ← transition bf Evicting Free;
  _ ← release_resident_budget;
  push_free bf.

(** ** Taking the reference back from the parent *)

(** The first slot of [positions] whose word leads to the child. *)
Fixpoint find_slot (parent : page) (expected evicted : Z) (positions : list Z) : outcome (option ParentChildEdge.t) :=
  match positions with
  | [] => Ret None
  | pos :: positions =>
      let edge := ParentChildEdge.new pos false in
      raw ← ParentChildEdge.read_raw edge parent;
      match raw with
      | Some raw => if (raw =? expected) || (raw =? evicted) then Ret (Some edge)
                    else find_slot parent expected evicted positions
      | None => find_slot parent expected evicted positions
      end
  end.

Definition find_child_pos_in_parent (parent : page) (child_bf : nat) (child_pid : PageId)
    (hinted_slot : Z) (hinted_upper : bool) : outcome (option ParentChildEdge.t) :=
  if negb (bool_decide (read_page_type parent = Index)) then Ret None else
  expected ← SwipWord.hot (frame_ptr child_bf);
  evicted ← SwipWord.evicted child_pid;
  let hinted_edge := ParentChildEdge.new hinted_slot hinted_upper in
  raw ← ParentChildEdge.read_raw hinted_edge parent;
  let is_child (raw : option Z) := match raw with Some raw => (raw =? expected) || (raw =? evicted) | None => false end in
  if is_child raw then Ret (Some hinted_edge) else
  let count := num_slots parent in
  found ← find_slot parent expected evicted (filter (λ pos, hinted_upper || negb (pos =? hinted_slot)) (seqZ 0 count));
  match found with
  | Some edge => Ret (Some edge)
  | None =>
      let upper_edge := ParentChildEdge.new count true in
      if hinted_upper then Ret None else
      raw ← ParentChildEdge.read_raw upper_edge parent;
      Ret (if is_child raw then Some upper_edge else None)
  end.

Definition unswizzle_parent_child_at (parent_bf : nat) (edge : ParentChildEdge.t) (child_pid : PageId) : PM unit :=
  p ← fget Frame.page parent_bf;
  p ← orelse Asserted (ParentChildEdge.write_evicted edge p child_pid);
  fset Frame.with_page parent_bf p.

Definition try_unswizzle_inner_node_fast_path (child : nat) (pid parent_pid : PageId) (slot_index : Z) (is_upper : bool)
    : PM (option bool) :=
  o ← table_lookup parent_pid;
  match o with
  | None => mret None
  | Some parent_bf =>
      r ← with_try_exclusive parent_bf (
        f ← frame_at parent_bf;
        if negb (bool_decide (Frame.state f = Resident)) || negb (Frame.pid f =? parent_pid) then mret None else
        edge ← orelse Asserted (find_child_pos_in_parent (Frame.page f) child pid slot_index is_upper);
        match edge with
        | None => mret None
        | Some edge =>
            _ ← unswizzle_parent_child_at parent_bf edge pid;
            _ ← fset Frame.with_dirty parent_bf true;
            mret (Some true)
        end);
      mret (default (Some false) r)
  end.

Definition call_finder (child : nat) (pid : PageId) (dt_id : Z) : PM bool := λ σ,
  let '(r, σ) := find_and_unswizzle dt_id child pid σ in Fin r σ.

(** [for finder in finders { if finder.find_and_unswizzle(..) { return true; } }]. *)
Definition any_finder (child : nat) (pid : PageId) (finders : list Z) : PM bool :=
  o ← first_some (λ dt_id, r ← call_finder child pid dt_id; mret (if r : bool then Some tt else None)) finders;
  mret (bool_decide (is_Some o)).

Definition find_and_unswizzle_with_registered_finders (child : nat) (pid : PageId) (dt_id : Z) : PM bool :=
  registered ← pget (λ σ, has_registered_dt σ dt_id);
  hinted ← (if registered : bool then call_finder child pid dt_id else mret false);
  if hinted : bool then mret true else
  fallback ← pget (λ σ, filter (λ candidate, candidate ≠ dt_id) (BufferPool.dt_registry σ));
  any_finder child pid fallback.

Definition find_and_unswizzle_with_all_registered_finders (child : nat) (pid : PageId) : PM bool :=
  finders ← pget BufferPool.dt_registry;
  any_finder child pid finders.

Definition try_unswizzle_inner_node (child : nat) (pid : PageId) (link : InnerParentLink.t) (allow_parent_discovery : bool)
    : PM bool :=
  fast ← try_unswizzle_inner_node_fast_path child pid (InnerParentLink.parent_pid link)
    (InnerParentLink.slot_index link) (InnerParentLink.is_upper link);
  match fast with
  | Some result => mret result
  | None =>
      registered ← pget (λ σ, has_registered_dt σ (InnerParentLink.dt_id link));
      hinted ← (if registered : bool then (λ σ,
        let '(r, σ) := find_and_unswizzle_with_hint (InnerParentLink.dt_id link) child pid
          (InnerParentLink.parent_pid link) (InnerParentLink.slot_index link) (InnerParentLink.is_upper link) σ in
        Fin r σ) else mret None);
      match hinted with
      | Some result => mret result
      | None =>
          if negb allow_parent_discovery then mret false else
          find_and_unswizzle_with_registered_finders child pid (InnerParentLink.dt_id link)
      end
  end.

Definition store_evicted (owner : Z) (pid : PageId) : PM unit :=
  ow ← pget (λ σ, BufferPool.owners σ !! owner);
  ow ← orelse Asserted (expect ow);
  ow ← orelse Asserted (StableSwipOwner.store_evicted ow pid);
  pput (λ σ, BufferPool.with_owners σ (<[owner := ow]> (BufferPool.owners σ))).

Definition unswizzle_parent_link (bf : nat) (pid : PageId) (link : ParentLink) (allow_parent_discovery : bool) : PM bool :=
  match link with
  | LinkNone =>
      f ← frame_at bf;
      if frame_is_index_page f then
        if negb allow_parent_discovery then mret false else
        find_and_unswizzle_with_all_registered_finders bf pid
      else mret true
  | Unswizzled => mret true
  | Stable edge => _ ← store_evicted edge pid; mret true
  | InnerNode link => try_unswizzle_inner_node bf pid link allow_parent_discovery
  end.

Definition unswizzle_parent (bf : nat) (pid : PageId) (allow_parent_discovery : bool) : PM bool :=
  link ← fget Frame.parent_link bf;
  unswizzle_parent_link bf pid link allow_parent_discovery.

(** The final window is entered under [eviction_mu], which no pin holds
    between two calls. *)
Definition unswizzle_and_free (bf : nat) (pid : PageId) (allow_parent_discovery : bool) : PM bool :=
  parent_updated ← unswizzle_parent bf pid allow_parent_discovery;
  f ← frame_at bf;
  if negb (parent_link_allows_free f parent_updated) then _ ← revert_frame_to_resident bf; mret false else
  if negb (can_free_evicting_frame f) then _ ← revert_frame_to_resident bf; mret false else
  _ ← free_evicting_frame bf;
  mret true.

Definition finish_latched_evicting_frame (bf : nat) (pid : PageId) (allow_parent_discovery : bool) : PM bool :=
  unswizzle_and_free bf pid allow_parent_discovery.

(** ** One frame at a time *)

(** Under the exclusive latch: the frame is selected ([Some]) or left. *)
Definition select_latched (bf : nat) : PM (option PageId) :=
  f ← frame_at bf;
  if negb (Frame.pin_count f =? 0) then mret None else
  _ ← fset Frame.with_referenced bf false;
  if Frame.referenced f then mret None else
  if Frame.dirty f then mret None else
  permit ← try_acquire_eviction_permit;
  if negb permit then mret None else
  swapped ← compare_exchange_transition bf Resident Evicting;
  if negb swapped then _ ← drop_eviction_permit; mret None else
  mret (Some (Frame.pid f)).

Definition with_single_evict_candidate {T} (bf : nat) (k : PageId → PM T) : PM (option T) :=
  f ← frame_at bf;
  if negb (bool_decide (Frame.state f = Resident)) then mret None else
  if negb (frame_page_allows_eviction f) then mret None else
  guard ← optimistic_or_restart bf;
  if negb guard then mret None else
  s ← fget Frame.state bf;
  if negb (bool_decide (s = Resident)) then mret None else
  upgraded ← try_upgrade_to_exclusive bf;
  if negb upgraded then mret None else
  selected ← select_latched bf;
  match selected with
  | None => _ ← unlock_exclusive bf; mret None
  | Some pid =>
      pins ← fget Frame.pin_count bf;
      if negb (pins =? 0) then
        _ ← revert_frame_to_resident bf;
        _ ← drop_eviction_permit;
        _ ← unlock_exclusive bf;
        mret None
      else
      p ← fget Frame.page bf;
      _ ← (if bool_decide (read_page_type p = Delta) then try_reclaim_before_evict pid bf else mret tt);
      r ← k pid;
      _ ← drop_eviction_permit;
      _ ← unlock_exclusive bf;
      mret (Some r)
  end.

(** [(start + offset) % num_slots] for [offset] in [0..num_slots]. *)
Definition sweep (start : Z) (num_slots : nat) : list nat :=
  map (λ offset, Z.to_nat ((start + Z.of_nat offset) mod Z.of_nat num_slots)) (seq 0 num_slots).

(** [hand.fetch_add(n) % num_slots]. *)
Definition advance_hand (hand : BufferPool.t → Z) (with_hand : BufferPool.t → Z → BufferPool.t) (n : Z) : PM Z :=
  start ← pget hand;
  _ ← pput (λ σ, with_hand σ (wrap 64 (start + n)));
  mret start.

Definition try_evict_one : PM bool :=
  num_slots ← pget allocated_slots;
  if (num_slots =? 0)%nat then mret false else
  start ← advance_hand BufferPool.eviction_hand BufferPool.with_eviction_hand 1;
  evicted ← first_some (λ allow_parent_discovery,
    first_some (λ bf,
      r ← with_single_evict_candidate bf (λ pid, finish_latched_evicting_frame bf pid allow_parent_discovery);
      mret (if bool_decide (r = Some true) then Some tt else None))
      (sweep (start mod Z.of_nat num_slots) num_slots))
    [false; false; true];
  mret (bool_decide (is_Some evicted)).

(** ** In batches *)

(** The candidate is released as soon as it is selected: its latch and its
    permit are dropped while the frame stays [Evicting]. *)
Definition try_select_evict_candidate (bf : nat) : PM (option Candidate.t) :=
  f ← frame_at bf;
  if negb (bool_decide (Frame.state f = Resident)) then mret None else
  if negb (frame_page_allows_eviction f) then mret None else
  selected ← with_try_exclusive bf (
    selected ← (
      s ← fget Frame.state bf;
      if negb (bool_decide (s = Resident)) then mret None else
      select_latched bf);
    match selected with
    | None => mret None
    | Some pid =>
        p ← fget Frame.page bf;
        _ ← (if bool_decide (read_page_type p = Delta) then try_reclaim_before_evict pid bf else mret tt);
        _ ← drop_eviction_permit;
        mret (Some {| Candidate.bf := bf; Candidate.pid := pid |})
    end);
  mret (match selected with Some o => o | None => None end).

Definition try_finalize_evicting_candidate (c : Candidate.t) : PM bool :=
  let bf := Candidate.bf c in
  r ← with_try_exclusive bf (
    f ← frame_at bf;
    if negb (bool_decide (Frame.state f = Evicting)) then mret false else
    if negb (Frame.pin_count f =? 0) || Frame.dirty f then _ ← revert_frame_to_resident bf; mret false else
    unswizzle_and_free bf (Candidate.pid c) true);
  match r with
  | Some evicted => mret evicted
  | None => _ ← revert_frame_to_resident bf; mret false
  end.

(** [for i in 0..num_slots], while fewer than [max_batch] were collected. *)
Fixpoint select_candidates (max_batch : nat) (slots : list nat) : PM (list Candidate.t) :=
  match max_batch, slots with
  | S rest, bf :: slots =>
      o ← try_select_evict_candidate bf;
      match o with
      | Some c => cs ← select_candidates rest slots; mret (c :: cs)
      | None => select_candidates max_batch slots
      end
  | _, _ => mret []
  end.

Fixpoint finalize_candidates (cs : list Candidate.t) : PM nat :=
  match cs with
  | [] => mret 0%nat
  | c :: cs =>
      ok ← try_finalize_evicting_candidate c;
      n ← finalize_candidates cs;
      mret (if ok : bool then S n else n)
  end.

Definition try_evict_batch (max_batch : nat) : PM nat :=
  num_slots ← pget allocated_slots;
  if (num_slots =? 0)%nat then mret 0%nat else
  start ← advance_hand BufferPool.eviction_hand BufferPool.with_eviction_hand (Z.of_nat max_batch * 2);
  candidates ← select_candidates max_batch (sweep (start mod Z.of_nat num_slots) num_slots);
  finalize_candidates candidates.

(** ** Policies *)

(** [for _ in 0..max_batch], until an attempt fails. *)
Fixpoint evict_ones (max_batch : nat) : PM nat :=
  match max_batch with
  | O => mret 0%nat
  | S rest =>
      ok ← try_evict_one;
      if ok : bool then n ← evict_ones rest; mret (S n) else mret 0%nat
  end.

Definition try_evict_policy (max_batch : nat) : PM nat :=
  match eviction_policy with
  | BatchClock =>
      evicted ← try_evict_batch max_batch;
      if (0 <? evicted)%nat then mret evicted else
      ok ← try_evict_one;
      mret (if ok : bool then 1%nat else 0%nat)
  | RandomSecondChance => evict_ones max_batch
  end.

Definition try_evict_any_policy (max_batch : nat) : PM nat := try_evict_policy max_batch.
Definition try_evict_any_batch (max_batch : nat) : PM nat := try_evict_batch max_batch.

End evict.
