(* ===== verification/PoolFlush.v ===== *)
(** * Buffer pool: dirty pages

    Models how [src/crates/storage/src/buffer_pool.rs] tracks and writes
    back changed pages: marking a frame dirty (with a full image, the changed
    ranges, or the caller's own record in the log), the cleaning of a batch
    of dirty frames, and the flush of all of them. *)

From S2P Require Import Prelude Bytes FrameKernel SwipKernel PageHeader PageMutation Slotted BufferFrame FreePages Posix PageStore BufferPool PoolBase PoolEvict.
#[local] Open Scope Z_scope.

Inductive DirtyFlushMode := Foreground | Background.
#[global] Instance DirtyFlushMode_eq_dec : EqDecision DirtyFlushMode.
Proof. solve_decision. Defined.

(** A dirty page of a batch, with its prepared copy. *)
Module DirtyPage.
Record t := { bf : nat; pid : PageId; page_lsn : Z; dirty_generation : Z; copy : list byte }.
End DirtyPage.

Section flush.
Context `{Build} `{PageStoreOps} `{WalOps} `{!PoolEnv} `{!Hooks}.

(** ** Marking *)

Definition set_wal_buffer (bf : nat) (epoch offset : Z) : PM unit :=
  _ ← fset Frame.with_wal_buffer_epoch bf epoch;
  fset Frame.with_wal_buffer_offset bf offset.

(** The record of the page that may still be in the log's buffer. *)
Definition buffered_record (f : Frame.t) (was_dirty : bool) : option BufferedWalRecord.t :=
  let raw := Frame.wal_buffer_epoch f in
  let prev_epoch := Z.land raw (2 ^ 48 - 1) in
  let prev_shard_idx := wrap 16 (Z.shiftr raw 48) in
  let prev_offset := Frame.wal_buffer_offset f in
  if was_dirty && negb (prev_epoch =? 0) && negb (prev_offset =? 0)
  then Some {| BufferedWalRecord.epoch := prev_epoch; BufferedWalRecord.offset := prev_offset;
               BufferedWalRecord.shard_idx := prev_shard_idx |}
  else None.

(** [self.wal.as_ref()], for a pool that has one. *)
Definition the_wal : PM wal_t := o ← pget BufferPool.wal; orelse Asserted (expect o).

Definition append_full_page_image_with_lsn (bf : nat) (was_dirty : bool) (lsn : Lsn) : PM unit :=
  f ← frame_at bf;
  _ ← orelse Asserted (assert (zlen (Frame.page f) =? PAGE_SIZE));
  let prev_record := buffered_record f was_dirty in
  _ ← fset Frame.with_page bf (write_page_lsn (Frame.page f) lsn);
  page ← fget Frame.page bf;
  scratch ← prepare_page_copy_for_writeback page;
  overwritten ← match prev_record with
    | Some prev_record =>
        w ← the_wal;
        r ← on_wal w (log_try_overwrite_page_image prev_record lsn (Frame.pid f) scratch);
        logged ← expect_ok WalFailed r;
        mret (if logged : bool then Some prev_record else None)
    | None => mret None
    end;
  record ← match overwritten with
    | Some record => mret record
    | None =>
        w ← the_wal;
        r ← on_wal w (log_append_page_image lsn (Frame.pid f) scratch);
        expect_ok WalFailed r
    end;
  _ ← fset Frame.with_page_lsn bf lsn;
  _ ← fset Frame.with_has_page_image_base bf true;
  set_wal_buffer bf
    (Z.lor (BufferedWalRecord.epoch record) (Z.shiftl (BufferedWalRecord.shard_idx record) 48))
    (BufferedWalRecord.offset record).

Definition finish_dirty_mark (bf : nat) : PM unit :=
  g ← fget Frame.dirty_generation bf;
  _ ← fset Frame.with_dirty_generation bf (wrap 64 (g + 1));
  fset Frame.with_dirty bf true.

Definition claim_next_lsn : PM Lsn :=
  w ← the_wal;
  r ← orelse LsnOver (log_claim_lsn w);
  _ ← pput (λ σ, BufferPool.with_wal σ (Some r.2));
  mret r.1.

Definition check_pinned (bf : nat) : PM unit :=
  n ← fget Frame.pin_count bf;
  orelse Asserted (debug_assert (0 <? n)).

Definition mark_dirty_raw (bf : nat) : PM unit :=
  _ ← check_pinned bf;
  was_dirty ← fget Frame.dirty bf;
  _ ← mark_referenced bf;
  w ← pget BufferPool.wal;
  _ ← (if w is Some _ then
         lsn ← claim_next_lsn;
         append_full_page_image_with_lsn bf was_dirty lsn
       else mret tt);
  finish_dirty_mark bf.

(** [(range.start, &source[range])]. *)
Fixpoint patch_ranges (source : list byte) (ranges : list PageMutationRange) : outcome (list (Z * list byte)) :=
  match ranges with
  | [] => Ret []
  | r :: ranges =>
      bytes ← slice source (rstart r) (rend r);
      rest ← patch_ranges source ranges;
      Ret ((rstart r, bytes) :: rest)
  end.

Definition mark_dirty_ranges_raw (bf : nat) (mutation : PageMutation.t) : PM unit :=
  _ ← orelse Asserted (assert (negb (PageMutation.is_empty mutation)));
  _ ← check_pinned bf;
  w ← pget BufferPool.wal;
  has_recovery_base ← fget Frame.has_page_image_base bf;
  if negb (bool_decide (is_Some w)) || PageMutation.uses_full_image mutation || negb has_recovery_base
  then mark_dirty_raw bf else
  was_dirty ← fget Frame.dirty bf;
  _ ← mark_referenced bf;
  pid ← fget Frame.pid bf;
  lsn ← claim_next_lsn;
  page ← fget Frame.page bf;
  let page := write_page_lsn page lsn in
  _ ← fset Frame.with_page bf page;
  preparers ← pget BufferPool.page_writeback_preparers;
  let needs_preparation := is_inner_index_page page || bool_decide (read_page_type page ∈ preparers) in
  source ← (if needs_preparation then prepare_page_copy_for_writeback page else mret page);
  ranges ← orelse Asserted (patch_ranges source (PageMutation.ranges mutation));
  w ← the_wal;
  r ← on_wal w (log_append_page_patch_ranges lsn pid ((0, le_bytes 8 lsn) :: ranges));
  encoded_bytes ← expect_ok WalFailed r;
  _ ← match encoded_bytes with
    | Some _ => _ ← fset Frame.with_page_lsn bf lsn; set_wal_buffer bf 0 0
    | None => append_full_page_image_with_lsn bf was_dirty lsn
    end;
  finish_dirty_mark bf.

Definition mark_dirty_with_lsn_raw (bf : nat) (lsn : Lsn) : PM unit :=
  _ ← check_pinned bf;
  _ ← mark_referenced bf;
  page ← fget Frame.page bf;
  _ ← fset Frame.with_page bf (write_page_lsn page lsn);
  _ ← fset Frame.with_page_lsn bf lsn;
  _ ← set_wal_buffer bf 0 0;
  finish_dirty_mark bf.

(** [append_logical_wal]: [None] when no log is attached. *)
Definition append_logical_wal (kind : Z) (payload : list byte) : PM (io_result (option Lsn)) :=
  w ← pget BufferPool.wal;
  match w with
  | None => mret (Ok None)
  | Some w =>
      r ← on_wal w (log_append_logical kind payload);
      mret (match r with Ok lsn => Ok (Some lsn) | Err e => Err e end)
  end.

(** ** Writing *)

(** What is handed to the page store, with the log as it stands. *)
Definition note_written (pages : list (PageId * list byte)) : PM unit :=
  pput (λ σ, BufferPool.with_written σ
    (BufferPool.written σ ++ map (λ '(pid, data), (pid, data, BufferPool.wal σ)) pages)).

Definition flush_wal_to (lsn : Lsn) : PM unit :=
  w ← pget BufferPool.wal;
  match w with
  | Some w => pput (λ σ, BufferPool.with_wal σ (Some (log_flush_at_least lsn w)))
  | None => mret tt
  end.

(** *** A batch *)

Definition try_copy_dirty_resident_page (bf : nat) (mode : DirtyFlushMode) : PM (option DirtyPage.t) :=
  f ← frame_at bf;
  if negb (bool_decide (Frame.state f = Resident)) then mret None else
  if negb (Frame.dirty f) then mret None else
  r ← with_try_exclusive bf (
    f ← frame_at bf;
    if negb (bool_decide (Frame.state f = Resident)) || negb (Frame.dirty f) then mret None else
    let pid := Frame.pid f in
    let page_lsn := Frame.page_lsn f in
    w ← pget BufferPool.wal;
    if bool_decide (mode = Background)
       && match w with Some w => negb (log_is_lsn_durable w page_lsn) | None => false end then mret None else
    inflight ← pget BufferPool.dirty_flush_inflight;
    if bool_decide (pid ∈ inflight) then mret None else
    _ ← pput (λ σ, BufferPool.with_dirty_flush_inflight σ ({[pid]} ∪ inflight));
    _ ← pin bf;
    copy ← prepare_page_copy_for_writeback (Frame.page f);
    mret (Some {| DirtyPage.bf := bf; DirtyPage.pid := pid; DirtyPage.page_lsn := page_lsn;
                  DirtyPage.dirty_generation := Frame.dirty_generation f; DirtyPage.copy := copy |}));
  mret (match r with Some o => o | None => None end).

(** The pages of a scan, and how many slots it visited. *)
Fixpoint collect_dirty (mode : DirtyFlushMode) (max_batch : nat) (slots : list nat) : PM (list DirtyPage.t * Z) :=
  match max_batch, slots with
  | S rest, bf :: slots =>
      o ← try_copy_dirty_resident_page bf mode;
      r ← match o with
        | Some page => r ← collect_dirty mode rest slots; mret (page :: r.1, r.2)
        | None => collect_dirty mode max_batch slots
        end;
      mret (r.1, r.2 + 1)
  | _, _ => mret ([], 0)
  end.

Definition max_lsn (pages : list DirtyPage.t) : Z := foldr (λ p, Z.max (DirtyPage.page_lsn p)) 0 pages.

(** Whether the frame was cleaned. *)
Definition clean_unchanged (page : DirtyPage.t) : PM bool :=
  let bf := DirtyPage.bf page in
  with_exclusive bf (
    f ← frame_at bf;
    if bool_decide (Frame.state f = Resident) && (Frame.pid f =? DirtyPage.pid page) && Frame.dirty f
       && (Frame.dirty_generation f =? DirtyPage.dirty_generation page)
    then _ ← clear_frame_dirty_metadata bf; mret true
    else mret false).

Fixpoint clean_all (pages : list DirtyPage.t) : PM Z :=
  match pages with
  | [] => mret 0
  | page :: pages =>
      ok ← clean_unchanged page;
      n ← clean_all pages;
      mret (if ok : bool then n + 1 else n)
  end.

(** [Drop] of a batch's claims and pins. *)
Definition drop_dirty_page (page : DirtyPage.t) : PM unit :=
  _ ← pput (λ σ, BufferPool.with_dirty_flush_inflight σ (BufferPool.dirty_flush_inflight σ ∖ {[DirtyPage.pid page]}));
  unpin (DirtyPage.bf page).

Definition write_batch (mode : DirtyFlushMode) (dirty_pages : list DirtyPage.t) : PM (io_result Z) :=
  _ ← (if bool_decide (mode = Foreground) && (0 <? max_lsn dirty_pages)
       then flush_wal_to (max_lsn dirty_pages) else mret tt);
  let pages := map (λ p, (DirtyPage.pid p, DirtyPage.copy p)) dirty_pages in
  _ ← note_written pages;
  r ← on_store (store_write_pages pages);
  match r with
  | Err e => mret (Err e)
  | Ok _ => cleaned ← clean_all dirty_pages; mret (Ok cleaned)
  end.

Definition try_flush_dirty_batch_inner (max_batch : nat) (mode : DirtyFlushMode) : PM (io_result Z) :=
  if (max_batch =? 0)%nat then mret (Ok 0) else
  num_slots ← pget allocated_slots;
  if (num_slots =? 0)%nat then mret (Ok 0) else
  start ← advance_hand BufferPool.dirty_flush_hand BufferPool.with_dirty_flush_hand 1;
  r ← collect_dirty mode max_batch (sweep (start mod Z.of_nat num_slots) num_slots);
  let '(dirty_pages, scanned) := r in
  _ ← advance_hand BufferPool.dirty_flush_hand BufferPool.with_dirty_flush_hand (saturating_sub scanned 1);
  if (length dirty_pages =? 0)%nat then mret (Ok 0) else
  r ← write_batch mode dirty_pages;
  _ ← each_do drop_dirty_page dirty_pages;
  mret r.

Definition try_flush_dirty_batch (max_batch : nat) : PM (io_result Z) := try_flush_dirty_batch_inner max_batch Foreground.
Definition try_flush_dirty_batch_for_provider (max_batch : nat) : PM (io_result Z) :=
  try_flush_dirty_batch_inner max_batch Background.

Definition has_dirty_resident_pages_for_provider (σ : BufferPool.t) : bool :=
  existsb (λ f, bool_decide (Frame.state f = Resident) && Frame.dirty f) (BufferPool.arena σ).

Definition flush_dirty_for_capacity (max_batch : nat) : PM Z :=
  r ← try_flush_dirty_batch max_batch;
  expect_ok StoreFailed r.

(** *** Everything *)

(** The dirty frames, latched, each with its record durable. *)
Fixpoint latch_dirty (slots : list nat) : PM (list nat) :=
  match slots with
  | [] => mret []
  | bf :: slots =>
      f ← frame_at bf;
      if bool_decide (Frame.state f = Free) || negb (Frame.dirty f) then latch_dirty slots else
      _ ← lock_exclusive bf;
      f ← frame_at bf;
      if negb (Frame.dirty f) then _ ← unlock_exclusive bf; latch_dirty slots else
      _ ← (if 0 <? Frame.page_lsn f then flush_wal_to (Frame.page_lsn f) else mret tt);
      rest ← latch_dirty slots;
      mret (bf :: rest)
  end.

Fixpoint page_copies (dirty : list nat) : PM (list (PageId * list byte)) :=
  match dirty with
  | [] => mret []
  | bf :: dirty =>
      f ← frame_at bf;
      copy ← prepare_page_copy_for_writeback (Frame.page f);
      rest ← page_copies dirty;
      mret ((Frame.pid f, copy) :: rest)
  end.

Definition promote_reusable_extent (e : FreeExtent.t) : PM unit :=
  a ← pget BufferPool.free_page_allocator;
  a ← orelse Asserted (FreePageAllocator.promote_reusable_extent a e);
  pput (λ σ, BufferPool.with_free_page_allocator σ a).

Definition promote_pending_reusable_extents : PM unit :=
  pending ← pget BufferPool.pending_reusable_extents;
  _ ← pput (λ σ, BufferPool.with_pending_reusable_extents σ []);
  each_do promote_reusable_extent pending.

Definition flush : PM (io_result unit) :=
  _ ← pput (λ σ, BufferPool.with_wal σ (log_flush <$> BufferPool.wal σ));
  slots ← pget (λ σ, seq 0 (allocated_slots σ));
  dirty ← latch_dirty slots;
  if (length dirty =? 0)%nat then _ ← promote_pending_reusable_extents; mret (Ok tt) else
  pages ← page_copies dirty;
  _ ← note_written pages;
  r ← on_store (store_write_pages_and_sync pages);
  match r with
  | Err e => _ ← each_do unlock_exclusive dirty; mret (Err e)
  | Ok _ =>
      _ ← each_do clear_frame_dirty_metadata dirty;
      _ ← promote_pending_reusable_extents;
      _ ← each_do unlock_exclusive dirty;
      mret (Ok tt)
  end.

End flush.
