(* ===== verification/PoolFix.v ===== *)
(** * Buffer pool: making pages resident

    Models the other half of [src/crates/storage/src/buffer_pool.rs]: waiting
    for capacity, loading a page into a free frame, the ways of pinning a
    page (through a stable edge, by its identifier, through a reference in an
    inner node, blocking or not), new pages, retired pages, and the prefetch
    worker. Loops run on [fuel]; two rounds are enough ([PoolFixSpec]). *)

From S2P Require Import Prelude Bytes FrameKernel SwipKernel PageHeader PageMutation Slotted BufferFrame FreePages Posix PageStore BufferPool PoolBase PoolEvict PoolFlush.
#[local] Open Scope Z_scope.

Section fix_pages.
Context `{Build} `{PageStoreOps} `{WalOps} `{!PoolEnv} `{!Hooks}.

(** ** Capacity *)

(** [self.try_evict_any_policy(1) > 0 || self.try_evict_any_batch(1) > 0]. *)
Definition evict_for_capacity : PM bool :=
  n ← try_evict_any_policy 1;
  if (0 <? n)%nat then mret true else
  n ← try_evict_any_batch 1;
  mret (0 <? n)%nat.

(** The rounds of [wait_for_resident_budget] that are left. *)
Fixpoint budget_rounds (rounds : nat) : PM unit :=
  available ← pget BufferPool.resident_base_pages_available;
  if 1 <=? available then mret tt else
  match rounds with
  | O => panic Exhausted
  | S rounds =>
      evicted ← evict_for_capacity;
      available ← pget BufferPool.resident_base_pages_available;
      if (evicted : bool) && (1 <=? available) then mret tt else
      _ ← flush_dirty_for_capacity 64;
      budget_rounds rounds
  end.

Definition wait_for_resident_budget : PM unit := budget_rounds (FRAME_CAPACITY_STALL_LIMIT - 1).

Definition reserve_resident_budget (fuel : nat) : PM unit :=
  repeat_until fuel (
    ok ← try_reserve_resident_budget;
    if ok : bool then mret (Some tt) else
    _ ← wait_for_resident_budget;
    mret None).

(** The rounds of [pop_free_frame] that are left. *)
Fixpoint pop_rounds (rounds : nat) : PM nat :=
  o ← try_pop_free;
  match o with
  | Some bf => claim_free_frame bf
  | None =>
      match rounds with
      | O => panic Exhausted
      | S rounds =>
          in_flight ← pget BufferPool.eviction_in_flight;
          budget ← pget BufferPool.eviction_budget;
          _ ← (if budget <=? in_flight then mret tt else
               evicted ← evict_for_capacity;
               if evicted : bool then mret tt else
               _ ← flush_dirty_for_capacity 64; mret tt);
          pop_rounds rounds
      end
  end.

Definition pop_free_frame : PM nat := pop_rounds (FRAME_CAPACITY_STALL_LIMIT - 1).

(** ** Loading *)

Definition install_loaded_frame_metadata (bf : nat) (pid : PageId) (parent_link : ParentLink) (pin_count : Z) : PM unit :=
  _ ← fset Frame.with_pid bf pid;
  _ ← fset Frame.with_parent_link bf parent_link;
  _ ← fset Frame.with_pin_count bf pin_count;
  _ ← fset Frame.with_referenced bf true;
  _ ← fset Frame.with_dirty bf false;
  page ← fget Frame.page bf;
  let on_disk_lsn := read_page_lsn page in
  _ ← fset Frame.with_page_lsn bf on_disk_lsn;
  _ ← fset Frame.with_has_page_image_base bf (negb (on_disk_lsn =? 0));
  set_wal_buffer bf 0 0.

(** [Drop] of a [LoadingFrameReservation] that was not disarmed. *)
Definition release_loading_frame (bf : nat) : PM unit :=
  pid ← fget Frame.pid bf;
  _ ← (if negb (pid =? 0) then table_remove pid else mret tt);
  _ ← fset Frame.with_pin_count bf 0;
  _ ← fset Frame.with_parent_link bf LinkNone;
  _ ← fset Frame.with_has_page_image_base bf false;
  _ ← fset Frame.with_state bf Free;
  _ ← release_resident_budget;
  push_free bf.

Definition prepare_orphan_loading_frame (bf : nat) (page_id : PageId) : PM unit :=
  _ ← fset Frame.with_pid bf page_id;
  _ ← fset Frame.with_parent_link bf LinkNone;
  _ ← fset Frame.with_referenced bf true;
  transition bf Free Loading.

(** [page_store.read_page] into the frame's page: whether the page was found;
    a failed read panics. *)
Definition read_into (bf : nat) (page_id : PageId) : PM bool :=
  page ← fget Frame.page bf;
  r ← on_store (store_read_page page_id page);
  r ← expect_ok StoreFailed r;
  _ ← fset Frame.with_page bf r.1;
  expect_ok StoreFailed r.2.

(** ** Pins *)

Definition unfix_raw (bf : nat) : PM unit :=
  old ← fget Frame.pin_count bf;
  _ ← unpin bf;
  orelse Asserted (debug_assert (0 <? old)).

(** No evictor waits while a call runs, so the hot-pin fence is granted. *)
Definition try_fix_resident_page (page_id : PageId) : PM (option nat) :=
  o ← table_lookup page_id;
  match o with
  | None => mret None
  | Some bf =>
      s ← fget Frame.state bf;
      if negb (bool_decide (s = Resident)) then mret None else
      guard ← optimistic_or_restart bf;
      if negb guard then mret None else
      _ ← pin bf;
      mret (Some bf)
  end.

Definition try_rescue_evicting_orphan (bf : nat) (page_id : PageId) : PM bool :=
  r ← with_try_exclusive bf (
    f ← frame_at bf;
    if negb (bool_decide (Frame.state f = Evicting)) then mret false else
    if negb (Frame.pin_count f =? 0) || negb (Frame.pid f =? page_id) then mret false else
    _ ← mark_referenced bf;
    _ ← transition bf Loading Resident;
    mret true);
  mret (default false r).

(** *** By identifier *)

Definition popped_or_existing (page_id : PageId) (pop : PM (option nat)) : PM (option (nat * bool)) :=
  o ← table_lookup page_id;
  match o with
  | Some existing => mret (Some (existing, false))
  | None => o ← pop; mret ((λ bf, (bf, true)) <$> o)
  end.

Definition give_back (popped : bool) (bf : nat) : PM unit := if popped then push_free bf else mret tt.

Inductive FixOrphanAction := Pinned (bf : nat) | Retry | YieldRetry | WaitLoading | WaitForBudget | Load.

(** The closure of [fix_orphan_raw] under the exclusive latch. *)
Definition fix_orphan_latched (bf : nat) (page_id : PageId) (popped : bool) : PM FixOrphanAction :=
  f ← frame_at bf;
  if bool_decide (Frame.state f = Resident) && (Frame.pid f =? page_id) then
    _ ← pin bf; _ ← mark_referenced bf; mret (Pinned bf)
  else
  match Frame.state f with
  | Resident => mret Retry
  | Loading => mret WaitLoading
  | Evicting =>
      (* the latch is held, so that the rescue cannot take it *)
      rescued ← try_rescue_evicting_orphan bf page_id;
      mret (if rescued : bool then Retry else YieldRetry)
  | Free =>
      if negb popped then mret Retry else
      inserted ← table_try_insert page_id bf;
      if negb inserted then mret Retry else
      reserved ← try_reserve_resident_budget;
      if negb reserved then _ ← table_remove page_id; mret WaitForBudget else
      _ ← prepare_orphan_loading_frame bf page_id;
      mret Load
  end.

(** The load that [fix_orphan_raw] and [try_fix_orphan_raw] end with. *)
Definition finish_orphan_load (bf : nat) (page_id : PageId) : PM unit :=
  _ ← install_loaded_frame_metadata bf page_id Unswizzled 1;
  transition bf Evicting Resident.

(** One round of the loop; [None] is [continue]. *)
Definition fix_orphan_round (page_id : PageId) : PM (option nat) :=
  o ← popped_or_existing page_id (bf ← pop_free_frame; mret (Some bf));
  r ← orelse Asserted (expect o);
  let '(bf, popped) := r in
  f ← frame_at bf;
  match Frame.state f with
  | Loading => spin
  | Evicting =>
      _ ← try_rescue_evicting_orphan bf page_id;
      _ ← give_back popped bf;
      mret None
  | _ =>
      if bool_decide (Frame.state f = Resident) && (Frame.pid f =? page_id) then
        _ ← pin bf; _ ← mark_referenced bf;
        _ ← give_back popped bf;
        mret (Some bf)
      else
      action ← with_exclusive bf (fix_orphan_latched bf page_id popped);
      match action with
      | Pinned bf => mret (Some bf)
      | Retry | YieldRetry => _ ← give_back popped bf; mret None
      | WaitLoading => spin
      | WaitForBudget => _ ← give_back popped bf; _ ← wait_for_resident_budget; mret None
      | Load =>
          found ← read_into bf page_id;
          _ ← orelse StoreFailed (assert found);
          _ ← finish_orphan_load bf page_id;
          mret (Some bf)
      end
  end.

Definition fix_orphan_raw (fuel : nat) (page_id : PageId) : PM nat := repeat_until fuel (fix_orphan_round page_id).

(** The frame is claimed or left, under the latch; [inl] is the result. *)
Definition try_fix_orphan_latched (bf : nat) (page_id : PageId) (popped : bool) : PM (option nat + unit) :=
  f ← frame_at bf;
  if bool_decide (Frame.state f = Resident) && (Frame.pid f =? page_id) then
    _ ← pin bf; _ ← mark_referenced bf; mret (inl (Some bf))
  else
  match Frame.state f with
  | Resident => _ ← orelse Asserted (debug_assert (negb popped)); mret (inl None)
  | Loading | Evicting => _ ← give_back popped bf; mret (inl None)
  | Free =>
      if negb popped then mret (inl None) else
      inserted ← table_try_insert page_id bf;
      if negb inserted then _ ← push_free bf; mret (inl None) else
      reserved ← try_reserve_resident_budget;
      if negb reserved then _ ← table_remove page_id; _ ← push_free bf; mret (inl None) else
      _ ← prepare_orphan_loading_frame bf page_id;
      mret (inr tt)
  end.

(** The free frame is popped without [claim_free_frame]. *)
Definition try_fix_orphan_raw (page_id : PageId) : PM (option nat) :=
  o ← popped_or_existing page_id try_pop_free;
  match o with
  | None => mret None
  | Some (bf, popped) =>
      f ← frame_at bf;
      if bool_decide (Frame.state f = Loading) then _ ← give_back popped bf; mret None else
      rescued ← (if bool_decide (Frame.state f = Evicting)
                 then try_rescue_evicting_orphan bf page_id else mret true);
      if negb rescued then _ ← give_back popped bf; mret None else
      f ← frame_at bf;
      if bool_decide (Frame.state f = Resident) && (Frame.pid f =? page_id) then
        _ ← pin bf; _ ← mark_referenced bf;
        mret (Some bf)
      else
      r ← with_try_exclusive bf (try_fix_orphan_latched bf page_id popped);
      match r with
      | None => _ ← give_back popped bf; mret None
      | Some (inl o) => mret o
      | Some (inr _) =>
          found ← read_into bf page_id;
          if negb found then _ ← release_loading_frame bf; mret None else
          _ ← finish_orphan_load bf page_id;
          mret (Some bf)
      end
  end.

(** *** Through a reference *)

Definition frame_of_swip (swip : Z) : PM (option nat) :=
  addr ← orelse Asserted (SwipWord.as_ptr swip);
  σ ← pget id;
  mret (if contains_frame_ptr σ addr then Some (slot_of addr) else None).

Definition try_pin_hot_or_cool_swip (swip : Z) : PM (option nat) :=
  o ← frame_of_swip swip;
  _ ← orelse Asserted (debug_assert (bool_decide (is_Some o)));
  match o with
  | None => mret None
  | Some bf =>
      _ ← pin bf;
      s ← fget Frame.state bf;
      if bool_decide (s = Resident) then mret (Some bf) else _ ← unpin bf; mret None
  end.

(** One round of the loop: [None] is [continue]. *)
Definition pin_hot_round (bf : nat) : PM (option (option nat)) :=
  _ ← pin bf;
  s ← fget Frame.state bf;
  if bool_decide (s = Resident) then mret (Some (Some bf)) else
  _ ← unpin bf;
  match s with
  | Evicting =>
      page_id ← fget Frame.pid bf;
      _ ← (if negb (page_id =? 0) then try_rescue_evicting_orphan bf page_id else mret false);
      mret None
  | Loading => spin
  | _ => mret (Some None)
  end.

Definition pin_hot_or_cool_child_swip (fuel : nat) (swip : Z) : PM (option nat) :=
  o ← frame_of_swip swip;
  match o with
  | None => mret None
  | Some bf => repeat_until fuel (pin_hot_round bf)
  end.

Definition pin_child (fuel : nat) (swip : Z) : PM (option nat) :=
  if SwipWord.raw swip =? 0 then mret None else
  if SwipWord.is_hot swip || SwipWord.is_cool swip then pin_hot_or_cool_child_swip fuel swip else
  page_id ← orelse Asserted (SwipWord.as_page_id swip);
  bf ← fix_orphan_raw fuel page_id;
  mret (Some bf).

Definition try_pin_child (swip : Z) : PM (option nat) :=
  if SwipWord.raw swip =? 0 then mret None else
  if SwipWord.is_hot swip || SwipWord.is_cool swip then try_pin_hot_or_cool_swip swip else
  page_id ← orelse Asserted (SwipWord.as_page_id swip);
  try_fix_orphan_raw page_id.

Definition try_pin_resident_child (swip : Z) : PM (option nat) :=
  if negb (SwipWord.is_hot swip || SwipWord.is_cool swip) then mret None else try_pin_hot_or_cool_swip swip.

(** *** Through a stable edge *)

Definition owner_at (owner : Z) : PM StableSwipOwner.t :=
  ow ← pget (λ σ, BufferPool.owners σ !! owner);
  orelse Asserted (expect ow).

(** [word.compare_exchange(expected, new).is_ok()] on an edge. *)
Definition owner_compare_exchange (owner expected new : Z) : PM bool :=
  ow ← owner_at owner;
  match AtomicSwipWord.compare_exchange (StableSwipOwner.word ow) expected new with
  | (w, inl _) =>
      _ ← pput (λ σ, BufferPool.with_owners σ (<[owner :=
        {| StableSwipOwner.word := w; StableSwipOwner.page_id := StableSwipOwner.page_id ow |}]> (BufferPool.owners σ)));
      mret true
  | (_, inr _) => mret false
  end.

Definition reswizzle_stable_resident_locked (owner expected : Z) (bf : nat) (page_id : PageId) : PM unit :=
  f ← frame_at bf;
  if negb (bool_decide (Frame.state f = Resident)) || negb (Frame.pid f =? page_id) then mret tt else
  let ours := match Frame.parent_link f with
    | LinkNone | Unswizzled => true
    | Stable edge => edge =? owner
    | InnerNode _ => false
    end in
  if negb ours then mret tt else
  hot ← orelse Asserted (SwipWord.hot (frame_ptr bf));
  ok ← owner_compare_exchange owner expected hot;
  if ok : bool then fset Frame.with_parent_link bf (Stable owner) else mret tt.

(** The part of [fix_raw] under the exclusive latch, up to the load: [inl]
    is how the round ends, [inr] that the frame is loading. *)
Inductive FixEnd := FixDone (bf : nat) | FixContinue (give_back : bool) | FixWait (give_back : bool).

Definition fix_latched (owner s : Z) (bf : nat) (page_id : PageId) (popped : bool) : PM (FixEnd + unit) :=
  f ← frame_at bf;
  if bool_decide (Frame.state f = Resident) && (Frame.pid f =? page_id) then
    _ ← pin bf; _ ← mark_referenced bf;
    _ ← reswizzle_stable_resident_locked owner s bf page_id;
    mret (inl (FixDone bf))
  else
  match Frame.state f with
  | Resident | Loading | Evicting => mret (inl (FixContinue false))
  | Free =>
      if negb popped then mret (inl (FixContinue false)) else
      inserted ← table_try_insert page_id bf;
      if negb inserted then mret (inl (FixContinue popped)) else
      reserved ← try_reserve_resident_budget;
      if negb reserved then _ ← table_remove page_id; mret (inl (FixWait popped)) else
      _ ← fset Frame.with_pid bf page_id;
      _ ← mark_referenced bf;
      _ ← transition bf Free Loading;
      mret (inr tt)
  end.

(** The load, still under the latch. *)
Definition fix_load (owner s : Z) (bf : nat) (page_id : PageId) : PM FixEnd :=
  found ← read_into bf page_id;
  _ ← orelse StoreFailed (assert found);
  _ ← install_loaded_frame_metadata bf page_id (Stable owner) 1;
  hot ← orelse Asserted (SwipWord.hot (frame_ptr bf));
  ok ← owner_compare_exchange owner s hot;
  if negb ok then _ ← release_loading_frame bf; mret (FixContinue false) else
  _ ← transition bf Loading Resident;
  mret (FixDone bf).

Definition fix_hot (s : Z) : PM (option nat) :=
  o ← frame_of_swip s;
  bf ← orelse Asserted (expect o);
  f ← frame_at bf;
  match Frame.state f with
  | Resident =>
      guard ← optimistic_or_restart bf;
      if negb guard then mret None else
      _ ← pin bf;
      _ ← mark_referenced bf;
      mret (Some bf)
  | Evicting => _ ← try_rescue_evicting_orphan bf (Frame.pid f); mret None
  | _ => mret None
  end.

Definition fix_round (owner : Z) : PM (option nat) :=
  ow ← owner_at owner;
  let s := StableSwipOwner.load ow in
  if SwipWord.is_hot s || SwipWord.is_cool s then fix_hot s else
  page_id ← orelse Asserted (SwipWord.as_page_id s);
  next_pid ← pget BufferPool.next_page_id;
  _ ← orelse Asserted (assert (0 <? page_id));
  _ ← orelse Asserted (assert ((0 <? physical_page_number page_id) && (physical_page_number page_id <? next_pid)));
  o ← popped_or_existing page_id (bf ← pop_free_frame; mret (Some bf));
  r ← orelse Asserted (expect o);
  let '(bf, popped) := r in
  end_ ← with_exclusive bf (
    r ← fix_latched owner s bf page_id popped;
    match r with
    | inl end_ => mret end_
    | inr _ => fix_load owner s bf page_id
    end);
  match end_ with
  | FixDone bf => mret (Some bf)
  | FixContinue back => _ ← give_back back bf; mret None
  | FixWait back => _ ← give_back back bf; _ ← wait_for_resident_budget; mret None
  end.

Definition fix_raw (fuel : nat) (owner : Z) : PM nat := repeat_until fuel (fix_round owner).

(** [try_repair_nonresident_hot_swip]. *)
Definition try_repair_nonresident_hot_swip (owner expected : Z) (bf : nat) (s : FrameState) : PM bool :=
  if negb (bool_decide (s = Free)) then mret false else
  page_id ← fget Frame.pid bf;
  if page_id =? 0 then mret false else
  new ← orelse Asserted (SwipWord.evicted page_id);
  owner_compare_exchange owner expected new.

Definition try_fix_stable_word (owner : Z) : PM (option nat) :=
  ow ← owner_at owner;
  let s := StableSwipOwner.load ow in
  if SwipWord.is_hot s || SwipWord.is_cool s then
    o ← frame_of_swip s;
    _ ← orelse Asserted (debug_assert (bool_decide (is_Some o)));
    match o with
    | None => mret None
    | Some bf =>
        pre_state ← fget Frame.state bf;
        if negb (bool_decide (pre_state = Resident)) then
          _ ← try_repair_nonresident_hot_swip owner s bf pre_state;
          mret None
        else
        _ ← pin bf;
        mret (Some bf)
    end
  else
  page_id ← orelse Asserted (SwipWord.as_page_id s);
  try_fix_resident_page page_id.

(** ** New pages *)

(** [StableSwip::new], under a fresh identity. *)
Definition new_owner (page_id : PageId) (word : Z) : PM Z :=
  owner ← pget (λ σ, fresh (dom (BufferPool.owners σ)));
  _ ← pput (λ σ, BufferPool.with_owners σ (<[owner :=
    {| StableSwipOwner.word := AtomicSwipWord.new word; StableSwipOwner.page_id := page_id |}]> (BufferPool.owners σ)));
  mret owner.

Definition allocate_page_id : PM PageId :=
  a ← pget BufferPool.free_page_allocator;
  let prior_next_page_number := FreePageAllocator.next_page_number a in
  r ← orelse Asserted (FreePageAllocator.allocate_page a thread_alloc_shard_hint);
  let '(pid, a) := r in
  _ ← pput (λ σ, BufferPool.with_free_page_allocator σ a);
  _ ← pput (λ σ, BufferPool.with_next_page_id σ
    (Z.max (BufferPool.next_page_id σ) (FreePageAllocator.next_page_number a)));
  r ← on_store (store_allocate pid);
  _ ← expect_ok StoreFailed r;
  _ ← (if physical_page_number pid <? prior_next_page_number then
         r ← on_store (store_write_page pid (fill PAGE_SIZE x00));
         expect_ok StoreFailed r
       else mret tt);
  mret pid.

(** A frame for the page, pinned, resident and zeroed. *)
Definition init_new_frame (bf : nat) (pid : PageId) : PM unit :=
  _ ← fset Frame.with_pid bf pid;
  _ ← fset Frame.with_parent_link bf LinkNone;
  _ ← fset Frame.with_page bf (fill PAGE_SIZE x00);
  _ ← fset Frame.with_pin_count bf 1;
  _ ← fset Frame.with_referenced bf true;
  _ ← fset Frame.with_dirty bf false;
  _ ← fset Frame.with_page_lsn bf 0;
  _ ← fset Frame.with_has_page_image_base bf false;
  _ ← set_wal_buffer bf 0 0;
  transition bf Free Resident.

Definition allocate_and_fix (fuel : nat) : PM (PageId * nat) :=
  pid ← allocate_page_id;
  _ ← reserve_resident_budget fuel;
  bf ← pop_free_frame;
  with_exclusive bf (
    _ ← init_new_frame bf pid;
    _ ← table_insert pid bf;
    mret (pid, bf)).

(** [allocate_page]: an evicted edge, no frame. *)
Definition allocate_page : PM Z :=
  page_id ← allocate_page_id;
  w ← orelse Asserted (SwipWord.evicted page_id);
  new_owner page_id w.

Definition stable_page (page_id : PageId) : PM Z :=
  let page_number := physical_page_number page_id in
  _ ← orelse Asserted (assert (0 <? page_number));
  next ← pget BufferPool.next_page_id;
  _ ← orelse Asserted (assert (page_number <? next));
  w ← orelse Asserted (SwipWord.evicted page_id);
  new_owner page_id w.

(** [stable_frame]: the edge of a frame whose latch the caller holds. *)
Definition stable_frame (bf : nat) : PM Z :=
  σ ← pget id;
  _ ← orelse Asserted (assert (contains_frame_ptr σ (frame_ptr bf)));
  pid ← fget Frame.pid bf;
  hot ← orelse Asserted (SwipWord.hot (frame_ptr bf));
  owner ← new_owner pid hot;
  _ ← fset Frame.with_parent_link bf (Stable owner);
  mret owner.

(** [allocate_stable]: the frame stays pinned and exclusively latched. *)
Definition allocate_stable (fuel : nat) : PM (Z * nat) :=
  r ← allocate_and_fix fuel;
  _ ← lock_exclusive r.2;
  owner ← stable_frame r.2;
  mret (owner, r.2).

Definition allocate_unlinked (fuel : nat) : PM nat := r ← allocate_and_fix fuel; mret r.2.

(** [drop] of an [ExclusiveFrame]: the pin, then the latch. *)
Definition drop_exclusive_frame (bf : nat) : PM unit :=
  _ ← unfix_raw bf;
  unlock_exclusive bf.

(** [NewStablePage::install] and [NewUnlinkedPage::finish_publication]. *)
Definition install (bf : nat) : PM unit := drop_exclusive_frame bf.

(** ** Retired pages *)

(** The frame becomes free while the caller still holds it. *)
Definition free_held_frame (bf : nat) (pid : PageId) : PM unit :=
  _ ← fset Frame.with_dirty bf false;
  _ ← fset Frame.with_referenced bf false;
  _ ← fset Frame.with_page_lsn bf 0;
  _ ← fset Frame.with_has_page_image_base bf false;
  _ ← set_wal_buffer bf 0 0;
  _ ← fset Frame.with_state bf Free;
  _ ← table_remove pid;
  _ ← release_resident_budget;
  _ ← push_free bf;
  drop_exclusive_frame bf.

(** Other pins would have to drain first, and no other thread runs. *)
Definition retire_unlinked_exclusive_frame (bf : nat) : PM PageId :=
  f ← frame_at bf;
  _ ← orelse Asserted (assert (match Frame.parent_link f with Stable _ => false | _ => true end));
  if negb (Frame.pin_count f =? 1) then spin else
  let pid := Frame.pid f in
  _ ← fset Frame.with_parent_link bf LinkNone;
  _ ← free_held_frame bf pid;
  e ← orelse Asserted (FreeExtent.new (physical_page_number pid) 1);
  _ ← pput (λ σ, BufferPool.with_pending_reusable_extents σ (BufferPool.pending_reusable_extents σ ++ [e]));
  mret pid.

Definition abort_unpublished_unlinked_frame (bf : nat) : PM unit :=
  f ← frame_at bf;
  _ ← orelse Asserted (assert (Frame.pin_count f =? 1));
  _ ← orelse Asserted (assert (bool_decide (Frame.parent_link f = LinkNone)));
  free_held_frame bf (Frame.pid f).

Definition drop_edge (owner : Z) : PM unit :=
  pput (λ σ, BufferPool.with_owners σ (delete owner (BufferPool.owners σ))).

Definition abort_unpublished_stable_frame (bf : nat) (edge : Z) : PM unit :=
  _ ← fset Frame.with_parent_link bf LinkNone;
  _ ← drop_edge edge;
  abort_unpublished_unlinked_frame bf.

Definition retire_stable (fuel : nat) (edge : Z) : PM PageId :=
  bf ← fix_raw fuel edge;
  _ ← lock_exclusive bf;
  _ ← fset Frame.with_parent_link bf LinkNone;
  _ ← drop_edge edge;
  retire_unlinked_exclusive_frame bf.

(** ** Prefetch *)

Definition try_claim_prefetch_frame (bf : nat) (pid : PageId) : PM bool :=
  s ← fget Frame.state bf;
  if negb (bool_decide (s = Free)) then mret false else
  reserved ← try_reserve_resident_budget;
  if negb reserved then mret false else
  _ ← transition bf Free Loading;
  _ ← fset Frame.with_pid bf pid;
  _ ← fset Frame.with_pin_count bf 0;
  _ ← fset Frame.with_dirty bf false;
  _ ← fset Frame.with_has_page_image_base bf false;
  _ ← fset Frame.with_parent_link bf LinkNone;
  mret true.

Definition read_prefetch_page (bf : nat) (pid : PageId) : PM bool := read_into bf pid.

(** [found = false] drops the reservation. *)
Definition finish_prefetch_frame (bf : nat) (found : bool) : PM unit :=
  if negb found then release_loading_frame bf else
  page ← fget Frame.page bf;
  let on_disk_lsn := read_page_lsn page in
  _ ← fset Frame.with_page_lsn bf on_disk_lsn;
  _ ← fset Frame.with_has_page_image_base bf (negb (on_disk_lsn =? 0));
  _ ← fset Frame.with_dirty bf false;
  _ ← fset Frame.with_pin_count bf 0;
  _ ← fset Frame.with_parent_link bf Unswizzled;
  transition bf Loading Resident.

(** [prefetch_pid_async] up to the queue: whether a request was queued. *)
Definition prefetch_pid_async (pid : PageId) : PM bool :=
  inflight ← pget BufferPool.prefetch_inflight;
  if bool_decide (pid ∈ inflight) then mret false else
  _ ← pput (λ σ, BufferPool.with_prefetch_inflight σ ({[pid]} ∪ inflight));
  mret true.

(** [prefetch_worker_loop] on one request. The frame popped for it is held
    by a local variable only. *)
Definition prefetch_request (pid : PageId) : PM unit :=
  o ← popped_or_existing pid try_pop_free;
  match o with
  | None => mret tt
  | Some (bf, _) =>
      inflight ← pget BufferPool.prefetch_inflight;
      if negb (bool_decide (pid ∈ inflight)) then mret tt else
      _ ← with_try_exclusive bf (
        claimed ← try_claim_prefetch_frame bf pid;
        if negb claimed then mret tt else
        found ← read_prefetch_page bf pid;
        finish_prefetch_frame bf found);
      pput (λ σ, BufferPool.with_prefetch_inflight σ (BufferPool.prefetch_inflight σ ∖ {[pid]}))
  end.

(** ** Construction *)

Definition with_store_from_start_pid (num_frames : nat) (num_cpus : Z) (store : ps) (start_pid : PageId) : outcome BufferPool.t :=
  let frame_count := (num_frames `max` 1)%nat in
  a ← FreePageAllocator.new start_pid (Z.max num_cpus 1);
  fl ← foldl (λ fl bf, fl ← fl; FreeList.push fl bf) (Ret (FreeList.new frame_count)) (seq 0 frame_count);
  Ret {|
    BufferPool.arena := replicate frame_count Frame.new;
    BufferPool.free_list := fl;
    BufferPool.eviction_hand := 0;
    BufferPool.dirty_flush_hand := 0;
    BufferPool.page_table := PageTable.new;
    BufferPool.page_store := store;
    BufferPool.next_page_id := start_pid;
    BufferPool.free_page_allocator := a;
    BufferPool.resident_base_pages := Z.of_nat num_frames;
    BufferPool.resident_base_pages_available := Z.of_nat num_frames;
    BufferPool.wal := None;
    BufferPool.prefetch_inflight := ∅;
    BufferPool.dt_registry := [];
    BufferPool.eviction_budget := Z.max (Z.of_nat num_frames / 4) 1;
    BufferPool.eviction_in_flight := 0;
    BufferPool.dirty_flush_inflight := ∅;
    BufferPool.page_reclaimers := ∅;
    BufferPool.page_writeback_preparers := [];
    BufferPool.pending_reusable_extents := [];
    BufferPool.owners := ∅;
    BufferPool.written := [];
  |}.

Definition with_store (num_frames : nat) (num_cpus : Z) (store : ps) : outcome BufferPool.t :=
  start_pid ← store_next_page_id store;
  with_store_from_start_pid num_frames num_cpus store start_pid.

Definition set_wal (w : wal_t) : PM unit := pput (λ σ, BufferPool.with_wal σ (Some w)).
Definition simulate_crash : PM unit := pput (λ σ, BufferPool.with_wal σ None).

End fix_pages.
