(* ===== verification/PoolInv.v ===== *)
(** * Buffer pool: its invariant

    What holds of a pool between two steps of its methods ([inv]), what every
    method leaves as it was ([steady]), what the pool relies on (the laws of
    the page store, of the log, of inner pages and of the callbacks), and the
    rule by which computations are followed ([ends]). *)

From S2P Require Import Prelude Bytes FrameKernel SwipKernel PageHeader PageMutation Slotted BufferFrame FreePages Posix PageStore BufferPool PoolBase PoolEvict PoolFlush PoolFix.
#[local] Open Scope Z_scope.
Import SlottedHeader SlottedPage.

(** ** What the pool relies on *)

(** A page store is a map from identifiers to pages. A failed write leaves
    the pages that were not written alone. *)
Class PageStoreLaws `{Build} `{PageStoreOps} := {
  ps_ok : ps → Prop;
  ps_pid_ok : PageId → Prop;
  ps_page : ps → PageId → option (list byte);
  ps_page_len s pid d : ps_ok s → ps_pid_ok pid → ps_page s pid = Some d → zlen d = PAGE_SIZE;
  store_read_page_ok s pid buf : ps_ok s → ps_pid_ok pid → zlen buf = PAGE_SIZE →
    ∃ buf' res s', store_read_page pid buf s = Done (Ok (buf', res)) s' ∧ ps_ok s' ∧ zlen buf' = PAGE_SIZE ∧
      (∀ q, ps_pid_ok q → ps_page s' q = ps_page s q) ∧
      match res with
      | Ok true => ps_page s pid = Some buf'
      | Ok false => ps_page s pid = None
      | Err _ => True
      end;
  writes_pages (m : list (PageId * list byte) → IO ps unit) : Prop :=
    ∀ s pages, ps_ok s → NoDup pages.*1 →
      Forall (λ '(pid, d), ps_pid_ok pid ∧ is_Some (ps_page s pid) ∧ zlen d = PAGE_SIZE) pages →
      ∃ res s', m pages s = Done res s' ∧ ps_ok s' ∧
        (∀ q, ps_pid_ok q → is_Some (ps_page s q) → is_Some (ps_page s' q)) ∧
        (∀ q, ps_pid_ok q → q ∉ pages.*1 → ps_page s' q = ps_page s q) ∧
        (res = Ok tt → ∀ pid d, (pid, d) ∈ pages → ps_page s' pid = Some d);
  store_write_pages_ok : writes_pages store_write_pages;
  store_write_pages_and_sync_ok : writes_pages store_write_pages_and_sync;
}.

(** What is durable stays durable; a flush makes its LSN durable. In an
    [ordered_log] it makes all earlier ones durable too. *)
Class LogLaws `{WalOps} := {
  ordered_log : Prop;
  durable_zero w : log_is_lsn_durable w 0 = true;
  flush_at_least_makes w lsn : log_is_lsn_durable (log_flush_at_least lsn w) lsn = true;
  flush_at_least_keeps w lsn l : log_is_lsn_durable w l = true → log_is_lsn_durable (log_flush_at_least lsn w) l = true;
  flush_keeps w l : log_is_lsn_durable w l = true → log_is_lsn_durable (log_flush w) l = true;
  flush_in_order w lsn l : ordered_log → 0 ≤ l ≤ lsn → log_is_lsn_durable (log_flush_at_least lsn w) l = true;
}.

(** Inner pages as their owner lays them out: their references can be read,
    taken back and converted. *)
Class InnerPages `{Build} `{PageStoreOps} `{WalOps} `{!PoolEnv} := {
  node_ok : list byte → Prop;
  node_converts heap contains p :
    node_ok p → zlen p = PAGE_SIZE →
    (∀ addr, contains addr = true → ∃ f, heap !! addr = Some f ∧ payload_ok (BufferFrame.pid f)) →
    ∃ p', convert_swips_in_buf heap contains p = Ret p' ∧ node_ok p' ∧ zlen p' = PAGE_SIZE ∧
      is_inner_index_page p' = true ∧ read_page_lsn p' = read_page_lsn p;
  node_finds p child pid slot upper :
    node_ok p → 0 ≤ slot → payload_ok (frame_ptr child) → payload_ok pid →
    ∃ o, find_child_pos_in_parent p child pid slot upper = Ret o;
  node_unswizzles p child pid slot upper edge :
    node_ok p → 0 ≤ slot → payload_ok (frame_ptr child) → payload_ok pid →
    find_child_pos_in_parent p child pid slot upper = Ret (Some edge) →
    ∃ p', ParentChildEdge.write_evicted edge p pid = Ret p' ∧ node_ok p' ∧ zlen p' = zlen p ∧
      is_inner_index_page p' = true ∧ read_page_lsn p' = read_page_lsn p;
  node_stamps p lsn : node_ok p → zlen p = PAGE_SIZE → 0 ≤ lsn < 2 ^ 64 → node_ok (write_page_lsn p lsn);
}.

(** ** Computations *)

(** [m] returns from [σ] with [Q], or panics for a reason in [E]. *)
Definition ends `{PageStoreOps} `{WalOps} {A} (E : panic_reason → Prop) (m : PM A) (σ : BufferPool.t)
    (Q : A → BufferPool.t → Prop) : Prop :=
  match m σ with
  | Fin a σ' => Q a σ'
  | Panics why => E why
  | Spins => False
  end.

Section ends.
Context `{PageStoreOps} `{WalOps} {E : panic_reason → Prop}.
Implicit Types σ : BufferPool.t.

Lemma ends_ret {A} (a : A) σ (Q : A → BufferPool.t → Prop) : Q a σ → ends E (mret a) σ Q.
Proof. done. Qed.
Lemma ends_bind {A B} (m : PM A) (k : A → PM B) σ Q :
  ends E m σ (λ a σ', ends E (k a) σ' Q) → ends E (m ≫= k) σ Q.
Proof. unfold ends, mbind, PM_bind. destruct (m σ); auto. Qed.
Lemma ends_mono {A} (m : PM A) σ (Q Q' : A → BufferPool.t → Prop) :
  ends E m σ Q → (∀ a σ', Q a σ' → Q' a σ') → ends E m σ Q'.
Proof. unfold ends. destruct (m σ); auto. Qed.
Lemma ends_step {A B} (m : PM A) (k : A → PM B) a σ σ' Q :
  m σ = Fin a σ' → ends E (k a) σ' Q → ends E (m ≫= k) σ Q.
Proof. intros Em. unfold ends at 2, mbind, PM_bind. by rewrite Em. Qed.
Lemma ends_Fin {A} (m : PM A) a σ σ' (Q : A → BufferPool.t → Prop) : m σ = Fin a σ' → Q a σ' → ends E m σ Q.
Proof. unfold ends. by intros ->. Qed.
Lemma bind_Fin {A B} (m : PM A) (k : A → PM B) a σ σ' : m σ = Fin a σ' → (m ≫= k) σ = k a σ'.
Proof. unfold mbind, PM_bind. by intros ->. Qed.
End ends.

Lemma ends_weaken `{PageStoreOps} `{WalOps} {A} (E E' : panic_reason → Prop) (m : PM A) σ Q :
  ends E m σ Q → (∀ w, E w → E' w) → ends E' m σ Q.
Proof. unfold ends. destruct (m σ); auto. Qed.

(** ** Frames in place *)

Section upd.
Context `{PageStoreOps} `{WalOps}.
Implicit Types σ : BufferPool.t.

Definition upd σ (bf : nat) (f : Frame.t) : BufferPool.t :=
  BufferPool.with_arena σ (<[bf := f]> (BufferPool.arena σ)).

Lemma frame_at_eq σ bf f : BufferPool.arena σ !! bf = Some f → frame_at bf σ = Fin f σ.
Proof. unfold frame_at. by intros ->. Qed.
Lemma frame_at_upd σ bf f g : BufferPool.arena σ !! bf = Some g → frame_at bf (upd σ bf f) = Fin f (upd σ bf f).
Proof. intros E. apply frame_at_eq. cbn. apply list_lookup_insert_eq. by eapply lookup_lt_Some. Qed.
Lemma upd_upd σ bf f g : upd (upd σ bf f) bf g = upd σ bf g.
Proof. unfold upd. cbn. by rewrite list_insert_insert_eq. Qed.
Lemma fget_eq {A} (field : Frame.t → A) σ bf f : BufferPool.arena σ !! bf = Some f → fget field bf σ = Fin (field f) σ.
Proof. intros E. unfold fget. by rewrite (bind_Fin _ _ _ _ _ (frame_at_eq _ _ _ E)). Qed.
Lemma fset_eq {A} (w : Frame.t → A → Frame.t) σ bf f v :
  BufferPool.arena σ !! bf = Some f → fset w bf v σ = Fin tt (upd σ bf (w f v)).
Proof. intros E. unfold fset. by rewrite (bind_Fin _ _ _ _ _ (frame_at_eq _ _ _ E)). Qed.
Lemma upd_lookup σ bf f g : BufferPool.arena σ !! bf = Some g → BufferPool.arena (upd σ bf f) !! bf = Some f.
Proof. intros E. cbn. apply list_lookup_insert_eq. by eapply lookup_lt_Some. Qed.
Lemma lookup_upd_ne σ bf s f : bf ≠ s → BufferPool.arena (upd σ bf f) !! s = BufferPool.arena σ !! s.
Proof. intros Hne. cbn. by rewrite list_lookup_insert_ne. Qed.
Lemma upd_same σ bf f : BufferPool.arena σ !! bf = Some f → upd σ bf f = σ.
Proof. intros E. unfold upd. rewrite list_insert_id by done. by destruct σ. Qed.
End upd.

(** ** The invariant *)

Definition live (f : Frame.t) : bool := negb (bool_decide (Frame.state f = Free)).

Section inv.
Context `{PageStoreLaws} `{LogLaws} `{!PoolEnv} `{!InnerPages} `{!Hooks}.
Implicit Types (σ : BufferPool.t) (f : Frame.t) (p : list byte) (h : list nat) (r : Z).

Definition table_at σ (pid : PageId) : option nat := PageTable.lookup (BufferPool.page_table σ) pid.
Definition disk σ (pid : PageId) : option (list byte) := ps_page (BufferPool.page_store σ) pid.

(** The bytes of a page: its frame's, or those in the page store. *)
Definition content σ (pid : PageId) : option (list byte) :=
  match table_at σ pid with
  | Some s => Frame.page <$> BufferPool.arena σ !! s
  | None => disk σ pid
  end.

(** Pages that are written as they are. *)
Definition plain σ p : Prop := is_inner_index_page p = false ∧ read_page_type p ∉ BufferPool.page_writeback_preparers σ.

(** Frame [child] holds page [pid]. *)
Definition holds σ (child : nat) (pid : PageId) : Prop :=
  ∃ f, BufferPool.arena σ !! child = Some f ∧ Frame.state f ≠ Free ∧ Frame.pid f = pid.

(** A reference of an inner page to a frame, or to the page it holds, becomes
    the page's identifier; nothing else of the page changes. *)
Definition taken (K : nat → PageId → Prop) p p' : Prop :=
  is_inner_index_page p = true ∧ is_inner_index_page p' = true ∧
  ∃ child pid slot upper edge, K child pid ∧ find_child_pos_in_parent p child pid slot upper = Ret (Some edge) ∧
    ParentChildEdge.write_evicted edge p pid = Ret p'.

(** A page of a type with a registered preparer, as it is written. *)
Definition prepares (types : list PageType) p p' : Prop :=
  is_inner_index_page p = false ∧ read_page_type p ∈ types ∧
  ∃ σ, p' = hook_prepare_page_copy_for_writeback (read_page_type p) p σ.

Definition page_step (K : nat → PageId → Prop) (types : list PageType) p p' : Prop := taken K p p' ∨ prepares types p p'.

Definition preparers σ : list PageType := BufferPool.page_writeback_preparers σ.

Definition valid_pid σ (pid : PageId) : Prop :=
  0 < pid < BufferPool.next_page_id σ ∧ BufferPool.next_page_id σ ≤ 2 ^ 62 ∧ ps_pid_ok pid.

(** A page that may be a parent: an index page only if it is an inner one. *)
Definition parent_kind p : Prop := read_page_type p = Index → is_inner_index_page p = true.

Record frame_local σ f : Prop := {
  fo_len : zlen (Frame.page f) = PAGE_SIZE;
  fo_pin : 0 ≤ Frame.pin_count f < 2 ^ 32;
  fo_gen : 0 ≤ Frame.generation f < 2 ^ 32;
  fo_pid : payload_ok (Frame.pid f);
  fo_state : Frame.state f ≠ Loading;
  fo_free : Frame.state f = Free →
    Frame.pin_count f = 0 ∧ Frame.dirty f = false ∧ Frame.parent_link f = LinkNone;
  fo_live : Frame.state f ≠ Free →
    valid_pid σ (Frame.pid f) ∧ is_Some (disk σ (Frame.pid f)) ∧
    Frame.page_lsn f = read_page_lsn (Frame.page f) ∧
    (is_inner_index_page (Frame.page f) = true → node_ok (Frame.page f));
  fo_clean : Frame.state f ≠ Free → Frame.dirty f = false → is_inner_index_page (Frame.page f) = false →
    ∃ d, disk σ (Frame.pid f) = Some d ∧ rtc (prepares (preparers σ)) (Frame.page f) d;
  fo_kind : ∀ d, Frame.state f ≠ Free → Frame.dirty f = false → disk σ (Frame.pid f) = Some d →
    parent_kind (Frame.page f) → parent_kind d;
  fo_disk : ∀ d, Frame.state f ≠ Free → Frame.dirty f = false → disk σ (Frame.pid f) = Some d →
    is_inner_index_page d = true → node_ok d;
  fo_slot : ∀ l, Frame.parent_link f = InnerNode l → 0 ≤ InnerParentLink.slot_index l;
}.

Record frame_ok σ f : Prop := {
  fo_local : frame_local σ f;
  fo_hint : ∀ l p, Frame.state f ≠ Free → Frame.parent_link f = InnerNode l →
    ps_pid_ok (InnerParentLink.parent_pid l) → content σ (InnerParentLink.parent_pid l) = Some p → parent_kind p;
  fo_stable : ∀ o, Frame.state f ≠ Free → Frame.parent_link f = Stable o →
    ∃ ow, BufferPool.owners σ !! o = Some ow ∧ StableSwipOwner.page_id ow = Frame.pid f;
}.

(** An edge leads to its page: by identifier, or to the frame that links back. *)
Definition owner_ok σ (o : Z) (ow : StableSwipOwner.t) : Prop :=
  valid_pid σ (StableSwipOwner.page_id ow) ∧
  (StableSwipOwner.word ow = encode (EvictedPage (StableSwipOwner.page_id ow)) ∨
   ∃ s f, StableSwipOwner.word ow = encode (HotPtr (frame_ptr s)) ∧ BufferPool.arena σ !! s = Some f ∧
     Frame.state f ≠ Free ∧ Frame.parent_link f = Stable o ∧ Frame.pid f = StableSwipOwner.page_id ow).

(** Frames in [h] are out of the free list, and [r] budget tokens are
    reserved, by the method that runs. *)
Record inv h r σ : Prop := {
  inv_shards : length (BufferPool.page_table σ) = 8%nat;
  inv_nodup : NoDup (FreeList.frames (BufferPool.free_list σ));
  inv_capacity : FreeList.capacity (BufferPool.free_list σ) = length (BufferPool.arena σ);
  inv_free s : s ∈ FreeList.frames (BufferPool.free_list σ) ↔
    s ∉ h ∧ ∃ f, BufferPool.arena σ !! s = Some f ∧ Frame.state f = Free;
  inv_held s : s ∈ h → ∃ f, BufferPool.arena σ !! s = Some f ∧ Frame.state f = Free;
  inv_table pid s : table_at σ pid = Some s ↔
    ∃ f, BufferPool.arena σ !! s = Some f ∧ Frame.state f ≠ Free ∧ Frame.pid f = pid;
  inv_budget : BufferPool.resident_base_pages_available σ + Z.of_nat (count live (BufferPool.arena σ)) + r
    = BufferPool.resident_base_pages σ;
  inv_available : 0 ≤ BufferPool.resident_base_pages_available σ;
  inv_size : BufferPool.resident_base_pages σ = zlen (BufferPool.arena σ) ∧ 1 ≤ BufferPool.resident_base_pages σ;
  inv_arena : PAGE_SIZE ≤ arena_base ∧ arena_base mod FRAME_ALIGN = 0 ∧
    arena_base + zlen (BufferPool.arena σ) * FRAME_STRIDE ≤ 2 ^ 62;
  inv_store : ps_ok (BufferPool.page_store σ);
  inv_disk q d : ps_pid_ok q → table_at σ q = None → disk σ q = Some d → is_inner_index_page d = true → node_ok d;
  inv_flight : 0 ≤ BufferPool.eviction_in_flight σ ≤ BufferPool.eviction_budget σ ∧ BufferPool.eviction_budget σ < 2 ^ 64;
  inv_frames s f : BufferPool.arena σ !! s = Some f → frame_ok σ f;
  inv_owners o ow : BufferPool.owners σ !! o = Some ow → owner_ok σ o ow;
}.

(** ** What every method leaves alone *)

(** A page after the methods ran: the bytes it had, except that references of
    an inner page were taken back from frames in [K], and that a page of a
    prepared type was written out and read again. *)
Definition keeps_page (K : nat → PageId → Prop) σ p (o : option (list byte)) : Prop :=
  ∃ p', o = Some p' ∧ rtc (page_step K (preparers σ)) p p'.

Definition anywhere (child : nat) (pid : PageId) : Prop := True.

(** Frames that are not up for eviction. *)
Definition stays_resident f : bool := negb (Frame.pin_count f =? 0) || negb (frame_page_allows_eviction f).

Definition same_page p p' : Prop := rtc (taken anywhere) p p'.

Record stays f f' : Prop := {
  st_state : Frame.state f' = Frame.state f;
  st_pid : Frame.pid f' = Frame.pid f;
  st_pin : Frame.pin_count f' = Frame.pin_count f;
  st_latch : Frame.latch f' = Frame.latch f;
  st_generation : Frame.generation f' = Frame.generation f;
  st_link : Frame.parent_link f' = Frame.parent_link f;
  st_page : same_page (Frame.page f) (Frame.page f');
}.

(** WAL before data: every page was handed to the store with its LSN durable. *)
Definition wal_rule σ : Prop :=
  Forall (λ '(_, d, ow), match ow with Some w => log_is_lsn_durable w (read_page_lsn d) = true | None => True end)
    (BufferPool.written σ).

Record steady σ σ' : Prop := {
  sd_size : length (BufferPool.arena σ') = length (BufferPool.arena σ);
  sd_base : BufferPool.resident_base_pages σ' = BufferPool.resident_base_pages σ;
  sd_next : BufferPool.next_page_id σ' = BufferPool.next_page_id σ;
  sd_preparers : BufferPool.page_writeback_preparers σ' = BufferPool.page_writeback_preparers σ;
  sd_allocator : BufferPool.free_page_allocator σ' = BufferPool.free_page_allocator σ;
  sd_pending : BufferPool.pending_reusable_extents σ' = BufferPool.pending_reusable_extents σ;
  sd_frames s f : BufferPool.arena σ !! s = Some f → Frame.state f ≠ Free → stays_resident f = true →
    ∃ f', BufferPool.arena σ' !! s = Some f' ∧ stays f f';
  sd_content pid p : ps_pid_ok pid → content σ pid = Some p → keeps_page anywhere σ p (content σ' pid);
  sd_owners o ow : BufferPool.owners σ !! o = Some ow → ∃ ow', BufferPool.owners σ' !! o = Some ow' ∧
    StableSwipOwner.page_id ow' = StableSwipOwner.page_id ow;
  sd_wal : BufferPool.wal σ = None ↔ BufferPool.wal σ' = None;
  sd_wal_rule : ordered_log → wal_rule σ → wal_rule σ';
}.

(** *** Both are kept by local changes *)

Lemma taken_mono (K1 K2 : nat → PageId → Prop) p p' : (∀ child pid, K1 child pid → K2 child pid) → taken K1 p p' → taken K2 p p'.
Proof. intros Hs (Hi & Hi' & child & pid & slot & upper & edge & Hh & ? & ?). split_and!; [done|done|]. exists child, pid, slot, upper, edge. auto. Qed.

Lemma page_step_mono (K1 K2 : nat → PageId → Prop) types p p' :
  (∀ child pid, K1 child pid → K2 child pid) → page_step K1 types p p' → page_step K2 types p p'.
Proof. intros Hs [Ht|?]; [left; by eapply taken_mono|by right]. Qed.

Lemma same_page_refl p : same_page p p.
Proof. apply rtc_refl. Qed.

Lemma same_page_inner p p' : same_page p p' → is_inner_index_page p' = is_inner_index_page p.
Proof. induction 1 as [|p1 p2 p3 (Hi & Hi' & _) _ IH]; [done|]. congruence. Qed.

Lemma same_page_cases p p' : same_page p p' → p' = p ∨ is_inner_index_page p = true ∧ is_inner_index_page p' = true.
Proof.
  intros Hs. destruct (is_inner_index_page p) eqn:Ei; [right; by rewrite (same_page_inner _ _ Hs)|left].
  inversion Hs as [|? ? ? (Hi & _)]; congruence.
Qed.

Lemma same_page_trans p1 p2 p3 : same_page p1 p2 → same_page p2 p3 → same_page p1 p3.
Proof. unfold same_page. apply transitivity. Qed.

Lemma keeps_page_same σ p p' : same_page p p' → keeps_page anywhere σ p (Some p').
Proof. intros Hs. exists p'. split; [done|]. eapply rtc_subrel; [|exact Hs]. intros. by left. Qed.

Lemma keeps_page_refl K σ p : keeps_page K σ p (Some p).
Proof. exists p. split; [done|apply rtc_refl]. Qed.

Lemma keeps_page_mono (K1 K2 : nat → PageId → Prop) σ p o :
  (∀ child pid, K1 child pid → K2 child pid) → keeps_page K1 σ p o → keeps_page K2 σ p o.
Proof. intros Hs (p' & -> & Hr). exists p'. split; [done|]. eapply rtc_subrel; [|exact Hr]. intros ??. by apply page_step_mono. Qed.

Lemma keeps_page_trans (K1 K2 : nat → PageId → Prop) σ1 σ2 p1 o2 o3 :
  preparers σ2 = preparers σ1 → (∀ child pid, K2 child pid → K1 child pid) →
  keeps_page K1 σ1 p1 o2 → (∀ p2, o2 = Some p2 → keeps_page K2 σ2 p2 o3) → keeps_page K1 σ1 p1 o3.
Proof.
  intros Hp Hs (p2 & -> & R12) H23. destruct (keeps_page_mono _ K1 _ _ _ Hs (H23 p2 eq_refl)) as (p3 & -> & R23).
  exists p3. split; [done|]. rewrite Hp in R23. by etrans.
Qed.

(** Pages that are written as they are keep their bytes. *)
Lemma keeps_page_plain K σ p o : plain σ p → keeps_page K σ p o → o = Some p.
Proof.
  intros [Hi Ht] (p' & -> & Hr). inversion Hr as [|? p2 ? Hstep _]; [done|]. subst.
  destruct Hstep as [(Hi' & _)|(_ & Ht' & _)]; [congruence|done].
Qed.

Lemma stays_refl f : stays f f.
Proof. split; try done. apply same_page_refl. Qed.

Lemma stays_trans f1 f2 f3 : stays f1 f2 → stays f2 f3 → stays f1 f3.
Proof. intros [] []. split; try congruence. by eapply same_page_trans. Qed.

Lemma stays_stays_resident f f' : stays f f' → stays_resident f' = stays_resident f.
Proof.
  intros [_ _ Hp _ _ Hl Hpg]. unfold stays_resident, frame_page_allows_eviction. rewrite Hp, Hl.
  destruct (same_page_cases _ _ Hpg) as [->|[Hi Hi']]; [done|]. by rewrite Hi, Hi'.
Qed.

#[global] Instance steady_preorder : PreOrder steady.
Proof.
  split.
  - intros σ. split; try done.
    + intros s f E _ _. exists f. split; [done|apply stays_refl].
    + intros pid p _ E. rewrite E. apply keeps_page_refl.
    + eauto.
  - intros σ1 σ2 σ3 S12 S23.
    split; try (etrans; [apply S23|apply S12]); try by rewrite (sd_wal _ _ S12), (sd_wal _ _ S23).
    + intros s f E Hf Hs. destruct (sd_frames _ _ S12 s f E Hf Hs) as (f2 & E2 & St).
      destruct (sd_frames _ _ S23 s f2 E2) as (f3 & E3 & St3).
      { by rewrite (st_state _ _ St). }
      { by rewrite (stays_stays_resident _ _ St). }
      exists f3. split; [done|by eapply stays_trans].
    + intros pid p Ho E. eapply keeps_page_trans; [apply S12|done|by apply (sd_content _ _ S12)|].
      intros p2 E2. by apply (sd_content _ _ S23).
    + intros o ow E. destruct (sd_owners _ _ S12 o ow E) as (ow2 & E2 & P2).
      destruct (sd_owners _ _ S23 o ow2 E2) as (ow3 & E3 & P3). exists ow3. split; [done|congruence].
    + intros Ho Hw. by apply (sd_wal_rule _ _ S23), (sd_wal_rule _ _ S12).
Qed.
End inv.
