(* ===== verification/PoolSteps.v ===== *)
(** * Buffer pool: the changes of state the methods are made of

    Each change that a method of the pool makes to a frame, to the free list
    and to the page table, with what it does to the invariant: a change in
    place, a frame popped and pushed, a page loaded or created in a popped
    frame, and a frame freed. *)

From S2P Require Import Prelude Bytes FrameKernel SwipKernel PageHeader PageMutation Slotted BufferFrame FreePages Posix PageStore BufferPool PoolBase PoolEvict PoolFlush PoolFix PoolInv.
#[local] Open Scope Z_scope.

(** ** Page table and free list *)

Section table.
Implicit Types t : list (gmap Z nat).

Lemma shard_idx_lt pid : (PageTable.shard_idx pid < 8)%nat.
Proof. unfold PageTable.shard_idx, PAGE_TABLE_SHARDS. pose proof (Z.mod_pos_bound pid 8 ltac:(lia)). lia. Qed.

Lemma lookup_shard_insert t pid q m :
  length t = 8%nat →
  PageTable.lookup (<[PageTable.shard_idx pid := m]> t) q =
    if decide (PageTable.shard_idx q = PageTable.shard_idx pid) then m !! q else PageTable.lookup t q.
Proof.
  intros Hl. unfold PageTable.lookup, PageTable.shard. pose proof (shard_idx_lt pid). case_decide as E.
  - rewrite E, list_lookup_insert_eq by lia. done.
  - by rewrite list_lookup_insert_ne by congruence.
Qed.

Lemma table_lookup_insert t pid s q :
  length t = 8%nat → PageTable.lookup (PageTable.insert t pid s) q = if decide (q = pid) then Some s else PageTable.lookup t q.
Proof.
  intros Hl. unfold PageTable.insert. rewrite lookup_shard_insert by done. unfold PageTable.lookup, PageTable.shard.
  destruct (decide (q = pid)) as [->|Hne]; [by rewrite decide_True, lookup_insert_eq by done|].
  case_decide as E; [|done]. by rewrite lookup_insert_ne, E by done.
Qed.

Lemma table_lookup_remove t pid q :
  length t = 8%nat → PageTable.lookup (PageTable.remove t pid) q = if decide (q = pid) then None else PageTable.lookup t q.
Proof.
  intros Hl. unfold PageTable.remove. rewrite lookup_shard_insert by done. unfold PageTable.lookup, PageTable.shard.
  destruct (decide (q = pid)) as [->|Hne]; [by rewrite decide_True, lookup_delete_eq by done|].
  case_decide as E; [|done]. by rewrite lookup_delete_ne, E by done.
Qed.

Lemma length_table_insert t pid s : length (PageTable.insert t pid s) = length t.
Proof. apply length_insert. Qed.
Lemma length_table_remove t pid : length (PageTable.remove t pid) = length t.
Proof. apply length_insert. Qed.

Lemma table_remove_insert t pid s : length t = 8%nat → PageTable.lookup t pid = None → PageTable.remove (PageTable.insert t pid s) pid = t.
Proof.
  intros Hl Hn. pose proof (shard_idx_lt pid) as Hlt. unfold PageTable.remove, PageTable.insert. rewrite list_insert_insert_eq.
  assert (Hs : ∀ m, PageTable.shard (<[PageTable.shard_idx pid := m]> t) pid = m).
  { intros m. unfold PageTable.shard. by rewrite list_lookup_insert_eq by lia. }
  rewrite Hs, delete_insert_id by done.
  unfold PageTable.shard. destruct (lookup_lt_is_Some_2 t (PageTable.shard_idx pid)) as [m Em]; [lia|]. rewrite Em. by apply list_insert_id.
Qed.

Lemma try_insert_None t pid s :
  PageTable.lookup t pid = None → PageTable.try_insert t pid s = (true, PageTable.insert t pid s).
Proof.
  unfold PageTable.lookup, PageTable.try_insert. intros ->. rewrite bool_decide_eq_false_2; [done|]. by intros [? ?].
Qed.

Lemma try_insert_Some t pid s s' : PageTable.lookup t pid = Some s' → PageTable.try_insert t pid s = (false, t).
Proof. unfold PageTable.lookup, PageTable.try_insert. intros ->. by rewrite bool_decide_eq_true_2. Qed.
End table.

Section steps.
Context `{PageStoreLaws} `{LogLaws} `{!PoolEnv} `{!InnerPages} `{!Hooks}.
Implicit Types (σ : BufferPool.t) (f : Frame.t) (p : list byte) (h : list nat) (r : Z).

(** ** What the invariant depends on *)

Lemma frame_local_ext σ σ' f :
  disk σ' (Frame.pid f) = disk σ (Frame.pid f) → BufferPool.page_writeback_preparers σ' = BufferPool.page_writeback_preparers σ →
  BufferPool.next_page_id σ' = BufferPool.next_page_id σ → frame_local σ f → frame_local σ' f.
Proof.
  intros Hd Hp Hn []. split; try done; unfold valid_pid, preparers; rewrite ?Hd, ?Hp, ?Hn; done.
Qed.

(** Changes of the other fields. *)
Lemma inv_ext h r σ σ' :
  inv h r σ →
  BufferPool.arena σ' = BufferPool.arena σ → BufferPool.free_list σ' = BufferPool.free_list σ →
  BufferPool.page_table σ' = BufferPool.page_table σ → BufferPool.page_store σ' = BufferPool.page_store σ →
  BufferPool.next_page_id σ' = BufferPool.next_page_id σ → BufferPool.owners σ' = BufferPool.owners σ →
  BufferPool.page_writeback_preparers σ' = BufferPool.page_writeback_preparers σ →
  BufferPool.resident_base_pages σ' = BufferPool.resident_base_pages σ →
  BufferPool.resident_base_pages_available σ' = BufferPool.resident_base_pages_available σ →
  BufferPool.eviction_budget σ' = BufferPool.eviction_budget σ →
  0 ≤ BufferPool.eviction_in_flight σ' ≤ BufferPool.eviction_budget σ →
  inv h r σ'.
Proof.
  intros [] Ea Ef Et Es En Eo Ep Eb Ev Eg Hf.
  assert (Hc : ∀ q, content σ' q = content σ q).
  { intros q. unfold content, table_at, disk. by rewrite Et, Ea, Es. }
  split; rewrite ?Ea, ?Ef, ?Et, ?Es, ?Eo, ?Eb, ?Ev, ?Eg; try done.
  - intros pid s. unfold table_at. rewrite Et. apply inv_table.
  - intros q d. unfold table_at, disk. rewrite Et, Es. apply inv_disk.
  - split; [done|apply inv_flight].
  - intros s f E. destruct (inv_frames s f E) as [Hl Hh Hs]. split.
    + eapply frame_local_ext, Hl; unfold disk; congruence.
    + intros l p. rewrite Hc. apply Hh.
    + rewrite Eo. apply Hs.
  - intros o ow E. destruct (inv_owners o ow E) as [Hv Hw]. split; [unfold valid_pid in *; by rewrite En|].
    by rewrite Ea.
Qed.

Lemma table_live h r σ pid s : inv h r σ → table_at σ pid = Some s →
  ∃ f, BufferPool.arena σ !! s = Some f ∧ Frame.state f ≠ Free ∧ Frame.pid f = pid.
Proof. intros I E. by apply (inv_table _ _ _ I). Qed.

Lemma live_table h r σ s f : inv h r σ → BufferPool.arena σ !! s = Some f → Frame.state f ≠ Free →
  table_at σ (Frame.pid f) = Some s.
Proof. intros I E Hf. apply (inv_table _ _ _ I). eauto. Qed.

(** A live frame's page. *)
Lemma content_live h r σ s f : inv h r σ → BufferPool.arena σ !! s = Some f → Frame.state f ≠ Free →
  content σ (Frame.pid f) = Some (Frame.page f).
Proof. intros I E Hf. unfold content. by rewrite (live_table _ _ _ _ _ I E Hf), E. Qed.

(** ** A change in place *)

Lemma content_upd h r σ bf f f' q : inv h r σ → BufferPool.arena σ !! bf = Some f →
  content (upd σ bf f') q =
    if decide (table_at σ q = Some bf) then Some (Frame.page f') else content σ q.
Proof.
  intros I E. unfold content. change (table_at (upd σ bf f') q) with (table_at σ q). case_decide as D.
  - rewrite D. by rewrite (upd_lookup _ _ _ _ E).
  - destruct (table_at σ q) as [s|]; [|done]. by rewrite lookup_upd_ne by congruence.
Qed.

Record in_place f f' : Prop := {
  ip_free : Frame.state f' = Free ↔ Frame.state f = Free;
  ip_pid : Frame.state f ≠ Free → Frame.pid f' = Frame.pid f;
  ip_page : Frame.state f ≠ Free → same_page (Frame.page f) (Frame.page f');
}.

Lemma parent_kind_same p p' : same_page p p' → parent_kind p → parent_kind p'.
Proof. intros [->|[_ Hi]]%same_page_cases Hk; [done|]. by intros _. Qed.

(** The frame holds the same page, which may have been rewritten. *)
Record in_slot f f' : Prop := {
  is_free : Frame.state f' = Free ↔ Frame.state f = Free;
  is_pid : Frame.state f ≠ Free → Frame.pid f' = Frame.pid f;
  is_kind : Frame.state f ≠ Free → parent_kind (Frame.page f) → parent_kind (Frame.page f');
}.

Lemma in_place_slot f f' : in_place f f' → in_slot f f'.
Proof. intros [Hf Hp Hpg]. split; [done|done|]. intros Hs. by apply parent_kind_same, Hpg. Qed.

Lemma live_in_slot f f' : in_slot f f' → live f' = live f.
Proof.
  intros [Hf _ _]. unfold live. f_equal. apply bool_decide_ext. done.
Qed.

Lemma inv_upd_link h r σ bf f f' :
  inv h r σ → BufferPool.arena σ !! bf = Some f → in_slot f f' →
  (∀ l p, Frame.state f ≠ Free → Frame.parent_link f' = InnerNode l → ps_pid_ok (InnerParentLink.parent_pid l) →
    content σ (InnerParentLink.parent_pid l) = Some p → parent_kind p) →
  (∀ o, Frame.state f ≠ Free → Frame.parent_link f' = Stable o →
    ∃ ow, BufferPool.owners σ !! o = Some ow ∧ StableSwipOwner.page_id ow = Frame.pid f) →
  (∀ o ow, BufferPool.owners σ !! o = Some ow → StableSwipOwner.word ow = encode (HotPtr (frame_ptr bf)) →
    Frame.parent_link f = Stable o → Frame.parent_link f' = Stable o) →
  frame_local σ f' → inv h r (upd σ bf f').
Proof.
  intros I E IP Hhint Hstab Hedge Hloc. pose proof IP as [Hfree Hpid Hpage].
  assert (Hlk : ∀ s g, BufferPool.arena (upd σ bf f') !! s = Some g → (s = bf ∧ g = f') ∨ (s ≠ bf ∧ BufferPool.arena σ !! s = Some g)).
  { intros s g. destruct (decide (bf = s)) as [<-|Hne]; [rewrite (upd_lookup _ _ _ _ E); intros [= <-]; by left|].
    rewrite lookup_upd_ne by done. right. done. }
  assert (Hkind : ∀ q p, content (upd σ bf f') q = Some p → ∃ p0, content σ q = Some p0 ∧ (parent_kind p0 → parent_kind p)).
  { intros q p. rewrite (content_upd _ _ _ _ _ _ _ I E). case_decide as D; [|eauto]. intros [= <-].
    destruct (table_live _ _ _ _ _ I D) as (g & Eg & Hg & <-). rewrite E in Eg. injection Eg as <-.
    exists (Frame.page f). split; [by eapply content_live|]. by apply Hpage. }
  split; try apply I.
  - cbn. rewrite length_insert. apply I.
  - intros s. rewrite (inv_free _ _ _ I s). apply and_iff_compat_l. split.
    + intros (g & Eg & Hg). destruct (decide (bf = s)) as [<-|Hne].
      * exists f'. rewrite (upd_lookup _ _ _ _ E). rewrite E in Eg. injection Eg as <-. split; [done|by apply Hfree].
      * exists g. by rewrite lookup_upd_ne.
    + intros (g & Eg & Hg). destruct (Hlk _ _ Eg) as [[-> ->]|[? ?]]; [|by eauto]. exists f. split; [done|by apply Hfree].
  - intros s Hs. destruct (inv_held _ _ _ I s Hs) as (g & Eg & Hg). destruct (decide (bf = s)) as [<-|Hne].
    + exists f'. rewrite (upd_lookup _ _ _ _ E). rewrite E in Eg. injection Eg as <-. split; [done|by apply Hfree].
    + exists g. by rewrite lookup_upd_ne.
  - intros pid s. change (table_at (upd σ bf f') pid) with (table_at σ pid). rewrite (inv_table _ _ _ I). split.
    + intros (g & Eg & Hg & Hp). destruct (decide (bf = s)) as [<-|Hne].
      * exists f'. rewrite (upd_lookup _ _ _ _ E). rewrite E in Eg. injection Eg as <-.
        split_and!; [done|by rewrite Hfree|by rewrite Hpid].
      * exists g. by rewrite lookup_upd_ne.
    + intros (g & Eg & Hg & Hp). destruct (Hlk _ _ Eg) as [[-> ->]|[? ?]]; [|by eauto]. exists f.
      rewrite Hfree in Hg. split_and!; [done|done|by rewrite <-Hpid].
  - pose proof (inv_budget _ _ _ I) as Hb. pose proof (count_insert live _ _ _ f' E) as Hc.
    rewrite (live_in_slot _ _ IP) in Hc. unfold upd.
    cbn [BufferPool.arena BufferPool.with_arena BufferPool.resident_base_pages BufferPool.resident_base_pages_available].
    destruct (live f); lia.
  - cbn. unfold zlen. rewrite length_insert. apply (inv_size _ _ _ I).
  - cbn. unfold zlen. rewrite length_insert. apply (inv_arena _ _ _ I).
  - intros s g Eg. destruct (Hlk _ _ Eg) as [[-> ->]|[Hne Eg']].
    + split.
      * by eapply frame_local_ext, Hloc.
      * intros l p Hst El Hok Ec. destruct (Hkind _ _ Ec) as (p0 & E0 & Hk). apply Hk. apply (Hhint l p0); [|done..].
        by rewrite <-Hfree.
      * intros o Hst. rewrite Hpid by (by rewrite <-Hfree). apply Hstab. by rewrite <-Hfree.
    + destruct (inv_frames _ _ _ I s g Eg') as [Hl Hh Hs]. split.
      * by eapply frame_local_ext, Hl.
      * intros l p Hst El Hok Ec. destruct (Hkind _ _ Ec) as (p0 & E0 & Hk). apply Hk. by apply (Hh l p0).
      * done.
  - intros o ow Eo. destruct (inv_owners _ _ _ I o ow Eo) as [Hv [Hw|(s & g & Hw & Eg & Hg & Hl & Hp)]]; (split; [done|]); [by left|].
    right. destruct (decide (bf = s)) as [<-|Hne].
    + rewrite E in Eg. injection Eg as <-. exists bf, f'. rewrite (upd_lookup _ _ _ _ E).
      split_and!; [done|done|by rewrite Hfree|by eapply Hedge|by rewrite Hpid].
    + exists s, g. by rewrite lookup_upd_ne.
Qed.

Lemma inv_upd h r σ bf f f' :
  inv h r σ → BufferPool.arena σ !! bf = Some f → in_place f f' → Frame.parent_link f' = Frame.parent_link f →
  frame_local σ f' → inv h r (upd σ bf f').
Proof.
  intros I E IP Hlink Hloc. destruct (inv_frames _ _ _ I bf f E) as [_ Hh Hs].
  eapply inv_upd_link; [done|done|by apply in_place_slot| | | |done]; by rewrite Hlink.
Qed.

Lemma steady_upd h r σ bf f f' :
  inv h r σ → BufferPool.arena σ !! bf = Some f → in_place f f' →
  (Frame.state f ≠ Free → stays_resident f = true → stays f f') → steady σ (upd σ bf f').
Proof.
  intros I E [Hfree Hpid Hpage] Hst. split; try done.
  - cbn. by rewrite length_insert.
  - intros s g Eg Hg Hs. destruct (decide (bf = s)) as [<-|Hne].
    + exists f'. rewrite (upd_lookup _ _ _ _ E). rewrite E in Eg. injection Eg as <-. split; [done|by apply Hst].
    + exists g. rewrite lookup_upd_ne by done. split; [done|apply stays_refl].
  - intros q p _ Ec. rewrite (content_upd _ _ _ _ _ _ _ I E). case_decide as D; [|rewrite Ec; apply keeps_page_refl].
    destruct (table_live _ _ _ _ _ I D) as (g & Eg & Hg & <-). rewrite E in Eg. injection Eg as <-.
    rewrite (content_live _ _ _ _ _ I E Hg) in Ec. injection Ec as <-. by apply keeps_page_same, Hpage.
  - eauto.
Qed.

(** ** Changes of other fields *)

Lemma steady_ext σ σ' :
  BufferPool.arena σ' = BufferPool.arena σ → BufferPool.page_table σ' = BufferPool.page_table σ →
  (∀ q, ps_pid_ok q → disk σ' q = disk σ q) → BufferPool.resident_base_pages σ' = BufferPool.resident_base_pages σ →
  BufferPool.next_page_id σ' = BufferPool.next_page_id σ →
  BufferPool.page_writeback_preparers σ' = BufferPool.page_writeback_preparers σ →
  BufferPool.free_page_allocator σ' = BufferPool.free_page_allocator σ →
  BufferPool.pending_reusable_extents σ' = BufferPool.pending_reusable_extents σ →
  (∀ o ow, BufferPool.owners σ !! o = Some ow → ∃ ow', BufferPool.owners σ' !! o = Some ow' ∧
    StableSwipOwner.page_id ow' = StableSwipOwner.page_id ow) →
  (BufferPool.wal σ = None ↔ BufferPool.wal σ' = None) → (ordered_log → wal_rule σ → wal_rule σ') → steady σ σ'.
Proof.
  intros Ea Et Ed Eb En Ep El Ex Eo Ew Er. split; try done.
  - by rewrite Ea.
  - intros s f E _ _. exists f. rewrite Ea. split; [done|apply stays_refl].
  - intros pid p Hok Ec. unfold content, table_at in *. rewrite Et, Ea.
    destruct (PageTable.lookup _ _); [|rewrite Ed by done]; rewrite Ec; apply keeps_page_refl.
Qed.

Lemma inv_store_ext h r σ s :
  inv h r σ → ps_ok s → (∀ q, ps_pid_ok q → ps_page s q = disk σ q) → inv h r (BufferPool.with_page_store σ s).
Proof.
  intros I Hs Hd. set (σ' := BufferPool.with_page_store σ s).
  assert (Hc : ∀ q, ps_pid_ok q → content σ' q = content σ q).
  { intros q Hq. unfold content. change (table_at σ' q) with (table_at σ q). destruct (table_at σ q); [done|by apply Hd]. }
  split; try apply I; [done| |].
  { intros q d Hq. unfold disk at 1. cbn. rewrite Hd by done. by apply (inv_disk _ _ _ I). }
  intros s0 f E. destruct (inv_frames _ _ _ I s0 f E) as [Hl Hh Ho]. split; [| |done].
  - destruct (decide (Frame.state f = Free)) as [Ef|Hf]; [destruct Hl; split; done|].
    eapply frame_local_ext, Hl; [|done|done]. apply Hd. by destruct (fo_live _ _ Hl Hf) as [(_ & _ & ?) _].
  - intros l p Hf El Hok Ec. rewrite Hc in Ec by done. by apply (Hh l p).
Qed.

(** ** Popped and pushed frames *)

Definition with_free σ (fs : list nat) : BufferPool.t :=
  BufferPool.with_free_list σ {| FreeList.frames := fs; FreeList.capacity := FreeList.capacity (BufferPool.free_list σ) |}.

Lemma inv_with_free h h' r σ fs :
  inv h r σ → NoDup fs →
  (∀ s, s ∈ fs ↔ s ∉ h' ∧ ∃ f, BufferPool.arena σ !! s = Some f ∧ Frame.state f = Free) →
  (∀ s, s ∈ h' → ∃ f, BufferPool.arena σ !! s = Some f ∧ Frame.state f = Free) →
  inv h' r (with_free σ fs).
Proof.
  intros I Hn Hf Hh. split; try apply I; try done.
  - intros s f E. destruct (inv_frames _ _ _ I s f E) as [Hl Hhint Ho]. split; [by eapply frame_local_ext, Hl|done|done].
Qed.

Lemma pop_eq σ : try_pop_free σ =
  match FreeList.frames (BufferPool.free_list σ) with
  | [] => Fin None σ
  | bf :: rest => Fin (Some bf) (with_free σ rest)
  end.
Proof.
  unfold try_pop_free, pget, pput, mbind, PM_bind, FreeList.try_pop.
  destruct (FreeList.frames (BufferPool.free_list σ)) eqn:E; [|done]. cbn. by destruct σ.
Qed.

Lemma inv_pop h r σ bf rest :
  inv h r σ → FreeList.frames (BufferPool.free_list σ) = bf :: rest →
  bf ∉ h ∧ inv (bf :: h) r (with_free σ rest).
Proof.
  intros I E. pose proof (inv_nodup _ _ _ I) as Hn. rewrite E in Hn. apply NoDup_cons in Hn as [Hni Hn].
  assert (Hb : bf ∈ FreeList.frames (BufferPool.free_list σ)) by (rewrite E; left).
  apply (inv_free _ _ _ I) in Hb as [Hbh Hbf]. split; [done|]. eapply inv_with_free; [done|done| |].
  - intros s. rewrite not_elem_of_cons. pose proof (inv_free _ _ _ I s) as Hs. rewrite E, elem_of_cons in Hs.
    split.
    + intros Hin. destruct (proj1 Hs (or_intror Hin)) as [? ?]. split; [split; [by intros ->|done]|done].
    + intros [[Hne Hnh] Hf]. by destruct (proj2 Hs (conj Hnh Hf)) as [?|?].
  - intros s [->|Hs]%elem_of_cons; [done|by apply (inv_held _ _ _ I)].
Qed.

Lemma push_fits h r σ bf : inv (bf :: h) r σ →
  (length (FreeList.frames (BufferPool.free_list σ)) < FreeList.capacity (BufferPool.free_list σ))%nat.
Proof.
  intros I. rewrite (inv_capacity _ _ _ I). set (fs := FreeList.frames _).
  assert (Hsub : bf :: fs ⊆+ seq 0 (length (BufferPool.arena σ))).
  { apply NoDup_submseteq.
    - apply NoDup_cons. split; [|apply I]. intros Hin%(inv_free _ _ _ I). apply Hin. left.
    - intros s Hs. apply elem_of_seq.
      assert (∃ f, BufferPool.arena σ !! s = Some f ∧ Frame.state f = Free) as (f & E & _).
      { apply elem_of_cons in Hs as [->|Hs]; [apply (inv_held _ _ _ I); left|destruct (proj1 (inv_free _ _ _ I s) Hs) as [_ ?]; done]. }
      apply lookup_lt_Some in E. lia. }
  apply submseteq_length in Hsub. rewrite length_seq in Hsub. simpl in Hsub. lia.
Qed.

Lemma push_eq h r σ bf : inv (bf :: h) r σ →
  push_free bf σ = Fin tt (with_free σ (FreeList.frames (BufferPool.free_list σ) ++ [bf])).
Proof.
  intros I. pose proof (push_fits _ _ _ _ I) as Hlt. unfold push_free, pget, pput, orelse, mbind, PM_bind, FreeList.push.
  by rewrite assert_true by (by apply Nat.ltb_lt).
Qed.

Lemma inv_push h r σ bf : inv (bf :: h) r σ → bf ∉ h →
  inv h r (with_free σ (FreeList.frames (BufferPool.free_list σ) ++ [bf])).
Proof.
  intros I Hb. destruct (inv_held _ _ _ I bf ltac:(left)) as (f & E & Hf).
  assert (Hbn : bf ∉ FreeList.frames (BufferPool.free_list σ)).
  { intros Hin%(inv_free _ _ _ I). apply Hin. left. }
  eapply inv_with_free; [done| | |].
  - apply NoDup_app. split_and!; [apply I| |apply NoDup_singleton]. by intros s Hs ->%list_elem_of_singleton.
  - intros s. rewrite elem_of_app, list_elem_of_singleton, (inv_free _ _ _ I), not_elem_of_cons. split.
    + intros [[[? ?] ?]| ->]; [done|]. by eauto.
    + intros [Hs Hex]. destruct (decide (s = bf)); [by right|by left].
  - intros s Hs. apply (inv_held _ _ _ I). by right.
Qed.

Lemma steady_with_free σ fs : steady σ (with_free σ fs).
Proof. apply steady_ext; try done. eauto. Qed.

(** ** Frames that change hands

    [moved σ σ' bf f']: the frame is now [f'], the page table and the budget
    are those of [σ'], and nothing else changed. *)

Record moved σ σ' (bf : nat) f' : Prop := {
  mv_arena : BufferPool.arena σ' = <[bf := f']> (BufferPool.arena σ);
  mv_free : BufferPool.free_list σ' = BufferPool.free_list σ;
  mv_store : BufferPool.page_store σ' = BufferPool.page_store σ;
  mv_next : BufferPool.next_page_id σ' = BufferPool.next_page_id σ;
  mv_owners : BufferPool.owners σ' = BufferPool.owners σ;
  mv_preparers : BufferPool.page_writeback_preparers σ' = BufferPool.page_writeback_preparers σ;
  mv_base : BufferPool.resident_base_pages σ' = BufferPool.resident_base_pages σ;
  mv_budget : BufferPool.eviction_budget σ' = BufferPool.eviction_budget σ;
  mv_flight : BufferPool.eviction_in_flight σ' = BufferPool.eviction_in_flight σ;
  mv_allocator : BufferPool.free_page_allocator σ' = BufferPool.free_page_allocator σ;
  mv_pending : BufferPool.pending_reusable_extents σ' = BufferPool.pending_reusable_extents σ;
  mv_wal : BufferPool.wal σ' = BufferPool.wal σ;
  mv_written : BufferPool.written σ' = BufferPool.written σ;
}.

Section moved.
Context (σ σ' : BufferPool.t) (bf : nat) (f f' : Frame.t) (h : list nat) (r : Z).
Context (M : moved σ σ' bf f') (E : BufferPool.arena σ !! bf = Some f).

Lemma moved_lookup : BufferPool.arena σ' !! bf = Some f'.
Proof using M E. rewrite (mv_arena _ _ _ _ M). apply list_lookup_insert_eq. by eapply lookup_lt_Some. Qed.
Lemma moved_lookup_ne s : s ≠ bf → BufferPool.arena σ' !! s = BufferPool.arena σ !! s.
Proof using M. intros Hne. by rewrite (mv_arena _ _ _ _ M), list_lookup_insert_ne. Qed.

Lemma moved_inv s g : BufferPool.arena σ' !! s = Some g → s = bf ∧ g = f' ∨ s ≠ bf ∧ BufferPool.arena σ !! s = Some g.
Proof using M E.
  destruct (decide (s = bf)) as [->|Hne]; [rewrite moved_lookup; intros [= <-]; by left|].
  rewrite moved_lookup_ne by done. by right.
Qed.

Lemma moved_disk q : disk σ' q = disk σ q.
Proof using M. unfold disk. by rewrite (mv_store _ _ _ _ M). Qed.

Lemma moved_local g : frame_local σ g → frame_local σ' g.
Proof using M. apply frame_local_ext; [apply moved_disk|apply M|apply M]. Qed.

Lemma moved_count :
  (count live (BufferPool.arena σ') + (if live f then 1 else 0) = count live (BufferPool.arena σ) + (if live f' then 1 else 0))%nat.
Proof using M E. rewrite (mv_arena _ _ _ _ M). by apply count_insert. Qed.

Lemma moved_zlen : zlen (BufferPool.arena σ') = zlen (BufferPool.arena σ).
Proof using M. rewrite (mv_arena _ _ _ _ M). unfold zlen. by rewrite length_insert. Qed.

Lemma moved_wal : (BufferPool.wal σ = None ↔ BufferPool.wal σ' = None) ∧ (wal_rule σ → wal_rule σ').
Proof using M. unfold wal_rule. by rewrite (mv_wal _ _ _ _ M), (mv_written _ _ _ _ M). Qed.

(** A live frame is freed, and held. *)
Lemma inv_freed :
  inv h r σ → bf ∉ h → Frame.state f ≠ Free → Frame.state f' = Free → frame_local σ f' →
  (∀ o ow, BufferPool.owners σ !! o = Some ow → StableSwipOwner.word ow ≠ encode (HotPtr (frame_ptr bf))) →
  (∀ d s g l, disk σ (Frame.pid f) = Some d → BufferPool.arena σ !! s = Some g → Frame.state g ≠ Free →
    Frame.parent_link g = InnerNode l → InnerParentLink.parent_pid l = Frame.pid f → parent_kind d) →
  (∀ d, disk σ (Frame.pid f) = Some d → is_inner_index_page d = true → node_ok d) →
  BufferPool.page_table σ' = PageTable.remove (BufferPool.page_table σ) (Frame.pid f) →
  BufferPool.resident_base_pages_available σ' = BufferPool.resident_base_pages_available σ + 1 →
  inv (bf :: h) r σ'.
Proof using M E.
  intros I Hbh Hf Hf' Hloc Hown Hkind Hnode Ht Hav.
  assert (Htab : ∀ q, table_at σ' q = if decide (q = Frame.pid f) then None else table_at σ q).
  { intros q. unfold table_at. rewrite Ht. apply table_lookup_remove, I. }
  assert (Hcon : ∀ q p, content σ' q = Some p → content σ q = Some p ∨ q = Frame.pid f ∧ disk σ q = Some p).
  { intros q p. unfold content. rewrite Htab, moved_disk. case_decide as D; [by right|]. intros Ec. left.
    destruct (table_at σ q) as [s|] eqn:Es; [|done]. rewrite moved_lookup_ne in Ec; [done|]. intros ->.
    destruct (table_live _ _ _ _ _ I Es) as (g & Eg & _ & <-). rewrite E in Eg. by injection Eg as <-. }
  pose proof moved_count as Hcnt. assert (live f = true) as Hlf by (unfold live; by rewrite bool_decide_eq_false_2).
  assert (live f' = false) as Hlf' by (unfold live; by rewrite bool_decide_eq_true_2). rewrite Hlf, Hlf' in Hcnt.
  split.
  - rewrite Ht, length_table_remove. apply I.
  - rewrite (mv_free _ _ _ _ M). apply I.
  - rewrite (mv_free _ _ _ _ M), (mv_arena _ _ _ _ M), length_insert. apply I.
  - intros s. rewrite (mv_free _ _ _ _ M), (inv_free _ _ _ I), not_elem_of_cons. split.
    + intros [Hs (g & Eg & Hg)]. assert (s ≠ bf) by (intros ->; rewrite E in Eg; by injection Eg as <-).
      split; [done|]. exists g. by rewrite moved_lookup_ne.
    + intros [[Hne Hs] (g & Eg & Hg)]. split; [done|]. exists g. by rewrite moved_lookup_ne in Eg.
  - intros s [->|Hs]%elem_of_cons; [exists f'; split; [apply moved_lookup|done]|].
    destruct (inv_held _ _ _ I s Hs) as (g & Eg & Hg). exists g. rewrite moved_lookup_ne; [done|]. by intros ->.
  - intros pid s. rewrite Htab. case_decide as D.
    + split; [done|]. intros (g & Eg & Hg & Hp). destruct (moved_inv _ _ Eg) as [[-> ->]|[Hne Eg']]; [done|].
      pose proof (live_table _ _ _ _ _ I Eg' Hg) as T1. pose proof (live_table _ _ _ _ _ I E Hf) as T2. congruence.
    + rewrite (inv_table _ _ _ I). split; intros (g & Eg & Hg & Hp).
      * exists g. rewrite moved_lookup_ne; [done|]. intros ->. rewrite E in Eg. injection Eg as <-. done.
      * destruct (moved_inv _ _ Eg) as [[-> ->]|[Hne Eg']]; [done|]. eauto.
  - pose proof (inv_budget _ _ _ I). rewrite Hav, (mv_base _ _ _ _ M). lia.
  - pose proof (inv_available _ _ _ I). lia.
  - rewrite (mv_base _ _ _ _ M), moved_zlen. apply I.
  - rewrite moved_zlen. apply (inv_arena _ _ _ I).
  - rewrite (mv_store _ _ _ _ M). apply I.
  - intros q d Hq. rewrite Htab, moved_disk. case_decide as D; [subst q; intros _; apply Hnode|by apply (inv_disk _ _ _ I)].
  - rewrite (mv_flight _ _ _ _ M), (mv_budget _ _ _ _ M). apply I.
  - intros s g Eg. destruct (moved_inv _ _ Eg) as [[-> ->]|[Hne Eg']]; [split; [by apply moved_local|done|done]|].
    destruct (inv_frames _ _ _ I s g Eg') as [Hl Hh Ho]. split.
    + by apply moved_local.
    + intros l p Hg El Hok [Ec|[Hq Ed]]%Hcon; [by apply (Hh l p)|]. rewrite Hq in Ed. by eapply Hkind.
    + by rewrite (mv_owners _ _ _ _ M).
  - intros o ow. rewrite (mv_owners _ _ _ _ M). intros Eo. destruct (inv_owners _ _ _ I o ow Eo) as [Hv Hw].
    split; [unfold valid_pid in *; by rewrite (mv_next _ _ _ _ M)|]. destruct Hw as [Hw|(s & g & Hw & Eg & ?)]; [by left|right].
    exists s, g. rewrite moved_lookup_ne; [done|]. intros ->. by eapply Hown.
Qed.

(** A page that is in the store becomes resident in a held frame. *)
Lemma inv_loaded r' :
  inv (bf :: h) r σ → bf ∉ h → Frame.state f' ≠ Free → frame_local σ f' →
  disk σ (Frame.pid f') = Some (Frame.page f') → table_at σ (Frame.pid f') = None →
  (∀ l, Frame.parent_link f' ≠ InnerNode l) →
  (∀ o, Frame.parent_link f' = Stable o → ∃ ow, BufferPool.owners σ !! o = Some ow ∧ StableSwipOwner.page_id ow = Frame.pid f') →
  BufferPool.page_table σ' = PageTable.insert (BufferPool.page_table σ) (Frame.pid f') bf →
  BufferPool.resident_base_pages_available σ' + 1 + r' = BufferPool.resident_base_pages_available σ + r →
  0 ≤ BufferPool.resident_base_pages_available σ' →
  inv h r' σ' ∧ ∀ q, content σ' q = content σ q.
Proof using M E.
  intros I Hbh Hf' Hloc Hdisk Hnone Hlk Hst Ht Hav Hav0.
  destruct (inv_held _ _ _ I bf ltac:(left)) as (f0 & E0 & Hf). rewrite E in E0. injection E0 as <-.
  assert (Htab : ∀ q, table_at σ' q = if decide (q = Frame.pid f') then Some bf else table_at σ q).
  { intros q. unfold table_at. rewrite Ht. apply table_lookup_insert, I. }
  assert (Hnb : ∀ q s, table_at σ q = Some s → s ≠ bf).
  { intros q s Es ->. destruct (table_live _ _ _ _ _ I Es) as (g & Eg & Hg & _). rewrite E in Eg. injection Eg as <-. done. }
  assert (Hcon : ∀ q, content σ' q = content σ q).
  { intros q. unfold content. rewrite Htab, moved_disk. case_decide as D.
    - subst q. rewrite moved_lookup, Hnone. by rewrite Hdisk.
    - destruct (table_at σ q) as [s|] eqn:Es; [|done]. rewrite moved_lookup_ne; [done|by eapply Hnb]. }
  split; [|done].
  pose proof moved_count as Hcnt. assert (live f = false) as Hlf by (unfold live; by rewrite bool_decide_eq_true_2).
  assert (live f' = true) as Hlf' by (unfold live; by rewrite bool_decide_eq_false_2). rewrite Hlf, Hlf' in Hcnt.
  split.
  - rewrite Ht, length_table_insert. apply I.
  - rewrite (mv_free _ _ _ _ M). apply I.
  - rewrite (mv_free _ _ _ _ M), (mv_arena _ _ _ _ M), length_insert. apply I.
  - intros s. rewrite (mv_free _ _ _ _ M), (inv_free _ _ _ I), not_elem_of_cons. split.
    + intros [[Hne Hs] (g & Eg & Hg)]. split; [done|]. exists g. by rewrite moved_lookup_ne.
    + intros [Hs (g & Eg & Hg)]. destruct (moved_inv _ _ Eg) as [[-> ->]|[Hne Eg']]; [done|]. eauto.
  - intros s Hs. destruct (inv_held _ _ _ I s ltac:(by right)) as (g & Eg & Hg). exists g.
    rewrite moved_lookup_ne; [done|]. by intros ->.
  - intros pid s. rewrite Htab. case_decide as D.
    + subst pid. split.
      * intros [= <-]. exists f'. split; [apply moved_lookup|done].
      * intros (g & Eg & Hg & Hp). destruct (moved_inv _ _ Eg) as [[-> ->]|[Hne Eg']]; [done|].
        pose proof (live_table _ _ _ _ _ I Eg' Hg). congruence.
    + rewrite (inv_table _ _ _ I). split; intros (g & Eg & Hg & Hp).
      * exists g. rewrite moved_lookup_ne; [done|]. intros ->. rewrite E in Eg. injection Eg as <-. done.
      * destruct (moved_inv _ _ Eg) as [[-> ->]|[Hne Eg']]; [done|]. eauto.
  - pose proof (inv_budget _ _ _ I). rewrite (mv_base _ _ _ _ M). lia.
  - done.
  - rewrite (mv_base _ _ _ _ M), moved_zlen. apply I.
  - rewrite moved_zlen. apply (inv_arena _ _ _ I).
  - rewrite (mv_store _ _ _ _ M). apply I.
  - intros q d Hq. rewrite Htab, moved_disk. case_decide; [done|]. by apply (inv_disk _ _ _ I).
  - rewrite (mv_flight _ _ _ _ M), (mv_budget _ _ _ _ M). apply I.
  - intros s g Eg. destruct (moved_inv _ _ Eg) as [[-> ->]|[Hne Eg']].
    + split; [by apply moved_local|by intros l p _ ?%Hlk|]. rewrite (mv_owners _ _ _ _ M). intros o _. apply Hst.
    + destruct (inv_frames _ _ _ I s g Eg') as [Hl Hh Ho]. split; [by apply moved_local| |by rewrite (mv_owners _ _ _ _ M)].
      intros l p. rewrite Hcon. apply Hh.
  - intros o ow. rewrite (mv_owners _ _ _ _ M). intros Eo. destruct (inv_owners _ _ _ I o ow Eo) as [Hv Hw].
    split; [unfold valid_pid in *; by rewrite (mv_next _ _ _ _ M)|]. destruct Hw as [Hw|(s & g & Hw & Eg & Hg & ?)]; [by left|right].
    exists s, g. rewrite moved_lookup_ne; [done|]. intros ->. rewrite E in Eg. injection Eg as <-. done.
Qed.

Lemma steady_moved :
  Frame.state f = Free ∨ stays_resident f = false →
  (∀ q p, ps_pid_ok q → content σ q = Some p → keeps_page anywhere σ p (content σ' q)) → steady σ σ'.
Proof using M E.
  intros Hf Hc. destruct moved_wal as [Hw Hr]. split; try apply M; try done.
  - rewrite (mv_arena _ _ _ _ M). by rewrite length_insert.
  - intros s g Eg Hg Hs. destruct (decide (s = bf)) as [->|Hne].
    + rewrite E in Eg. injection Eg as <-. destruct Hf; congruence.
    + exists g. rewrite moved_lookup_ne by done. split; [done|apply stays_refl].
  - intros o ow Eo. rewrite (mv_owners _ _ _ _ M). eauto.
Qed.
End moved.

(** ** Edges *)

Lemma frame_ptr_ok h r σ s f : inv h r σ → BufferPool.arena σ !! s = Some f →
  payload_ok (frame_ptr s) ∧ contains_frame_ptr σ (frame_ptr s) = true ∧ slot_of (frame_ptr s) = s.
Proof.
  intros I E%lookup_lt_Some. destruct (inv_arena _ _ _ I) as (Hb & _ & Hl). unfold zlen in Hl.
  assert (Hs : 0 < FRAME_STRIDE) by (unfold FRAME_STRIDE; page_lia).
  assert (Hlt : Z.of_nat s * FRAME_STRIDE + FRAME_STRIDE ≤ Z.of_nat (length (BufferPool.arena σ)) * FRAME_STRIDE) by nia.
  assert (Hm : (frame_ptr s - arena_base) = Z.of_nat s * FRAME_STRIDE) by (unfold frame_ptr; lia).
  assert (0 ≤ Z.of_nat s * FRAME_STRIDE) by nia. assert (Hb' : 0 < arena_base) by page_lia. split_and!.
  - unfold payload_ok. unfold frame_ptr. lia.
  - unfold contains_frame_ptr. rewrite Hm, Z.mod_mul by lia. unfold saturating_add, saturating_mul, allocated_slots.
    rewrite (Z.min_l (Z.of_nat (length _) * _)) by lia. rewrite Z.min_l by lia. unfold frame_ptr.
    rewrite (proj2 (Z.leb_le _ _)), (proj2 (Z.ltb_lt _ _)) by lia. done.
  - unfold slot_of. rewrite Hm, Z.div_mul by lia. apply Nat2Z.id.
Qed.

Lemma frame_ptr_inj s s' : frame_ptr s = frame_ptr s' → s = s'.
Proof. unfold frame_ptr. intros Hp. assert (0 < FRAME_STRIDE) by (unfold FRAME_STRIDE; page_lia). nia. Qed.

Lemma inv_with_owner h r σ o ow ow' :
  inv h r σ → BufferPool.owners σ !! o = Some ow → StableSwipOwner.page_id ow' = StableSwipOwner.page_id ow →
  owner_ok σ o ow' → inv h r (BufferPool.with_owners σ (<[o := ow']> (BufferPool.owners σ))).
Proof.
  intros I E Hp Ho. split; try apply I.
  - intros s f Ef. destruct (inv_frames _ _ _ I s f Ef) as [Hl Hh Hs]. split; [by eapply frame_local_ext, Hl|done|].
    intros o' Hf El. destruct (Hs o' Hf El) as (ow0 & E0 & Hp0). cbn. destruct (decide (o = o')) as [<-|Hne].
    + rewrite lookup_insert_eq. exists ow'. split; [done|]. congruence.
    + rewrite lookup_insert_ne by done. eauto.
  - intros o' ow0. cbn. destruct (decide (o = o')) as [<-|Hne].
    + rewrite lookup_insert_eq. by intros [= <-].
    + rewrite lookup_insert_ne by done. apply (inv_owners _ _ _ I).
Qed.

Lemma steady_with_owner σ o ow ow' :
  BufferPool.owners σ !! o = Some ow → StableSwipOwner.page_id ow' = StableSwipOwner.page_id ow →
  steady σ (BufferPool.with_owners σ (<[o := ow']> (BufferPool.owners σ))).
Proof.
  intros E Hp. apply steady_ext; try done. intros o' ow0 E0. cbn. destruct (decide (o = o')) as [<-|Hne].
  - rewrite lookup_insert_eq. exists ow'. split; [done|]. congruence.
  - rewrite lookup_insert_ne by done. eauto.
Qed.
End steps.

(** ** Following a computation *)

Section rules.
Context `{Build} `{PageStoreOps} `{WalOps} {E : panic_reason → Prop}.
Implicit Types (σ : BufferPool.t) (f : Frame.t).

Lemma ends_fget {A B} (fld : Frame.t → A) bf f (k : A → PM B) σ Q :
  BufferPool.arena σ !! bf = Some f → ends E (k (fld f)) σ Q → ends E (fget fld bf ≫= k) σ Q.
Proof. intros Hf. eapply ends_step. by apply fget_eq. Qed.
Lemma ends_frame_at {B} bf f (k : Frame.t → PM B) σ Q :
  BufferPool.arena σ !! bf = Some f → ends E (k f) σ Q → ends E (frame_at bf ≫= k) σ Q.
Proof. intros Hf. eapply ends_step. by apply frame_at_eq. Qed.
Lemma ends_fset {A B} (w : Frame.t → A → Frame.t) bf v f (k : unit → PM B) σ Q :
  BufferPool.arena σ !! bf = Some f → ends E (k tt) (upd σ bf (w f v)) Q → ends E (fset w bf v ≫= k) σ Q.
Proof. intros Hf. eapply ends_step. by apply fset_eq. Qed.
Lemma ends_pget {A B} (g : BufferPool.t → A) (k : A → PM B) σ Q : ends E (k (g σ)) σ Q → ends E (pget g ≫= k) σ Q.
Proof. done. Qed.
Lemma ends_pput {B} g (k : unit → PM B) σ Q : ends E (k tt) (g σ) Q → ends E (pput g ≫= k) σ Q.
Proof. done. Qed.
Lemma ends_orelse {A B} why (o : outcome A) a (k : A → PM B) σ Q :
  o = Ret a → ends E (k a) σ Q → ends E (orelse why o ≫= k) σ Q.
Proof. by intros ->. Qed.
Lemma ends_mret {A B} (a : A) (k : A → PM B) σ Q : ends E (k a) σ Q → ends E (mret a ≫= k) σ Q.
Proof. done. Qed.

Lemma transition_eq σ bf f from to :
  BufferPool.arena σ !! bf = Some f → is_valid_transition from to = true →
  transition bf from to σ = Fin tt (upd σ bf (Frame.with_state f to)).
Proof.
  intros Hf Hv. unfold transition. rewrite (bind_Fin _ _ tt σ σ); [by apply fset_eq|]. unfold orelse. by rewrite debug_assert_true.
Qed.

Lemma try_lock_eq σ bf f : BufferPool.arena σ !! bf = Some f →
  try_lock_exclusive bf σ = if decide (Frame.latch f = Unlatched)
    then Fin true (upd σ bf (Frame.with_latch f ExclusiveHeld)) else Fin false σ.
Proof.
  intros Hf. unfold try_lock_exclusive. rewrite (bind_Fin _ _ _ _ _ (fget_eq _ _ _ _ Hf)).
  case_bool_decide; case_decide; try done. by rewrite (bind_Fin _ _ _ _ _ (fset_eq _ _ _ _ _ Hf)).
Qed.

Lemma ends_with_try_exclusive {A} bf f (body : PM A) σ (Q : option A → BufferPool.t → Prop) :
  BufferPool.arena σ !! bf = Some f →
  (Frame.latch f ≠ Unlatched → Q None σ) →
  (Frame.latch f = Unlatched → ends E body (upd σ bf (Frame.with_latch f ExclusiveHeld))
     (λ a σ', ∃ f', BufferPool.arena σ' !! bf = Some f' ∧ Q (Some a) (upd σ' bf (Frame.with_latch f' Unlatched)))) →
  ends E (with_try_exclusive bf body) σ Q.
Proof.
  intros Hf Hno Hyes. unfold with_try_exclusive. pose proof (try_lock_eq σ bf f Hf) as Ht. case_decide as D.
  - eapply ends_step; [done|]. apply ends_bind. eapply ends_mono; [by apply Hyes|]. intros a σ' (f' & Hf' & Hq).
    eapply ends_step; [by apply fset_eq|]. by apply ends_ret.
  - eapply ends_step; [done|]. by apply ends_ret, Hno.
Qed.

Lemma ends_with_exclusive {A} bf f (body : PM A) σ (Q : A → BufferPool.t → Prop) :
  BufferPool.arena σ !! bf = Some f → Frame.latch f = Unlatched →
  ends E body (upd σ bf (Frame.with_latch f ExclusiveHeld))
     (λ a σ', ∃ f', BufferPool.arena σ' !! bf = Some f' ∧ Q a (upd σ' bf (Frame.with_latch f' Unlatched))) →
  ends E (with_exclusive bf body) σ Q.
Proof.
  intros Hf Hl Hyes. unfold with_exclusive, lock_exclusive. pose proof (try_lock_eq σ bf f Hf) as Ht. rewrite decide_True in Ht by done.
  apply ends_bind. eapply ends_step; [done|]. apply ends_ret. apply ends_bind. eapply ends_mono; [by apply Hyes|].
  intros a σ' (f' & Hf' & Hq). eapply ends_step; [by apply fset_eq|]. by apply ends_ret.
Qed.
End rules.

(** [frame_lookup] finds a frame of a state that changed others. *)
Ltac frame_lookup :=
  first [ eassumption
        | eapply upd_lookup; frame_lookup
        | rewrite lookup_upd_ne by (done || congruence); frame_lookup ].

(** [pstep] runs the next step of a computation. *)
Ltac pstep :=
  cbv beta iota;
  match goal with
  | |- ends _ (mbind _ (mbind _ _)) _ _ => apply ends_bind
  | |- ends _ (mbind _ (fget _ _)) _ _ => eapply ends_fget; [frame_lookup|]
  | |- ends _ (mbind _ (frame_at _)) _ _ => eapply ends_frame_at; [frame_lookup|]
  | |- ends _ (mbind _ (fset _ _ _)) _ _ => eapply ends_fset; [frame_lookup|]; rewrite ?upd_upd
  | |- ends _ (mbind _ (pget _)) _ _ => apply ends_pget
  | |- ends _ (mbind _ (pput _)) _ _ => apply ends_pput
  | |- ends _ (mbind _ (mret _)) _ _ => apply ends_mret
  | |- ends _ (mbind _ (transition _ _ _)) _ _ => eapply ends_step; [eapply transition_eq; [frame_lookup|done]|]; rewrite ?upd_upd
  | |- ends _ (mret _) _ _ => apply ends_ret
  | |- ends _ (fset _ _ _) _ _ => eapply ends_Fin; [eapply fset_eq; frame_lookup|]; rewrite ?upd_upd
  | |- ends _ (transition _ _ _) _ _ => eapply ends_Fin; [eapply transition_eq; [frame_lookup|done]|]; rewrite ?upd_upd
  end.
