(* ===== verification/PoolEvictSpec.v ===== *)
(** * Buffer pool: what eviction keeps

    Eviction changes no page and moves no frame that is pinned, that must
    stay resident or that someone else holds; it keeps the invariant whatever
    the registered callbacks answer, and ends without a panic. *)

From S2P Require Import Prelude Bytes FrameKernel SwipKernel PageHeader PageMutation Slotted BufferFrame FreePages Posix PageStore BufferPool PoolBase PoolEvict PoolFlush PoolFix PoolInv PoolSteps.
#[local] Open Scope Z_scope.

Section quiet.
Context `{PageStoreLaws} `{LogLaws} `{!PoolEnv} `{!InnerPages} `{!Hooks}.
Implicit Types (σ : BufferPool.t) (f : Frame.t) (h X : list nat) (r : Z).

(** A frame that is neither latched nor being evicted. *)
Definition calm σ (s : nat) : Prop := ∀ f, BufferPool.arena σ !! s = Some f → Frame.latch f = Unlatched ∧ Frame.state f ≠ Evicting.

(** Besides what [steady] says, the frames that are held, latched or being
    evicted are untouched, and the others are not left that way, those in [X]
    excepted; no frame is pinned, no page becomes resident, and the references
    that were taken back are those to frames that held the page before. *)
Record quiet X h σ σ' : Prop := {
  q_steady : steady σ σ';
  q_frames s f : BufferPool.arena σ !! s = Some f → s ∉ X →
    s ∈ h ∨ Frame.state f = Evicting ∨ Frame.latch f ≠ Unlatched → BufferPool.arena σ' !! s = Some f;
  q_calm s : s ∉ X → calm σ s → calm σ' s;
  q_pin s f f' : BufferPool.arena σ !! s = Some f → BufferPool.arena σ' !! s = Some f' → Frame.pin_count f' ≤ Frame.pin_count f;
  q_table q : table_at σ q = None → table_at σ' q = None;
  q_live s pid : holds σ' s pid → holds σ s pid;
  q_content pid p : ps_pid_ok pid → content σ pid = Some p → keeps_page (holds σ) σ p (content σ' pid);
  q_flight : BufferPool.eviction_in_flight σ' = BufferPool.eviction_in_flight σ;
  q_budget : BufferPool.eviction_budget σ' = BufferPool.eviction_budget σ;
  q_inflight : BufferPool.dirty_flush_inflight σ' = BufferPool.dirty_flush_inflight σ;
}.

#[global] Instance quiet_preorder X h : PreOrder (quiet X h).
Proof.
  split.
  { intros σ. split; try done.
    - intros s f f' E E'. rewrite E in E'. by injection E' as <-.
    - intros pid p _ ->. apply keeps_page_refl. }
  intros σ1 σ2 σ3 [] []. split; try congruence; [by etrans| | | | | |].
  - intros s f E Hx Hs. auto.
  - intros s Hx Hc. auto.
  - intros s f1 f3 E1 E3. destruct (lookup_lt_is_Some_2 (BufferPool.arena σ2) s) as [f2 E2].
    { rewrite (sd_size _ _ q_steady0). by eapply lookup_lt_Some. }
    etrans; eauto.
  - intros q Hq. auto.
  - auto.
  - intros pid p Hok E. eapply keeps_page_trans; [apply q_steady0|apply q_live0|by apply q_content0|]. intros p2 E2. by apply q_content1.
Qed.

Lemma quiet_sub X X' h σ σ' : quiet X h σ σ' → X ⊆ X' → quiet X' h σ σ'.
Proof.
  intros [] Hx. split; try done.
  - intros s f E Hs. apply q_frames0; [done|]. set_solver.
  - intros s Hs. apply q_calm0. set_solver.
Qed.

Lemma holds_upd σ bf f f' s pid :
  BufferPool.arena σ !! bf = Some f → (Frame.state f' = Free ↔ Frame.state f = Free) → (Frame.state f ≠ Free → Frame.pid f' = Frame.pid f) →
  holds (upd σ bf f') s pid → holds σ s pid.
Proof.
  intros E Hf Hp (g & Eg & Hg & <-). destruct (decide (bf = s)) as [<-|Hne]; [|rewrite lookup_upd_ne in Eg by done; by exists g].
  rewrite (upd_lookup _ _ _ _ E) in Eg. injection Eg as <-. exists f. rewrite Hf in Hg. split_and!; [done|done|by rewrite Hp].
Qed.

(** The page of a frame is rewritten by taking references back. *)
Lemma quiet_taken X h {h0} r σ bf f f' :
  inv h0 r σ → BufferPool.arena σ !! bf = Some f → in_place f f' →
  (Frame.state f ≠ Free → rtc (taken (holds σ)) (Frame.page f) (Frame.page f')) →
  (Frame.state f ≠ Free → stays_resident f = true → stays f f') →
  bf ∈ X ∨ bf ∉ h ∧ Frame.state f ≠ Evicting ∧ Frame.latch f = Unlatched ∧ Frame.latch f' = Unlatched ∧ Frame.state f' ≠ Evicting →
  Frame.pin_count f' ≤ Frame.pin_count f → quiet X h σ (upd σ bf f').
Proof.
  intros I E IP Htk Hst Hbf Hpin. split; try done; [by eapply steady_upd| | | | |].
  - intros s g Eg Hs Hg. rewrite lookup_upd_ne; [done|]. intros <-. rewrite E in Eg. injection Eg as <-.
    destruct Hbf as [?|(? & ? & ? & _)]; [done|]. naive_solver.
  - intros s Hs Hc g. destruct (decide (bf = s)) as [<-|Hne]; [|rewrite lookup_upd_ne by done; apply Hc].
    rewrite (upd_lookup _ _ _ _ E). intros [= <-]. by destruct Hbf as [?|(_ & _ & _ & ? & ?)].
  - intros s g g' Eg. destruct (decide (bf = s)) as [<-|Hne]; [|rewrite lookup_upd_ne, Eg by done; by intros [= <-]].
    rewrite (upd_lookup _ _ _ _ E). intros [= <-]. rewrite E in Eg. by injection Eg as <-.
  - intros s pid. eapply holds_upd; [done|apply IP|apply IP].
  - intros q p _ Ec. rewrite (content_upd _ _ _ _ _ _ _ I E). case_decide as D; [|rewrite Ec; apply keeps_page_refl].
    destruct (table_live _ _ _ _ _ I D) as (g & Eg & Hg & <-). rewrite E in Eg. injection Eg as <-.
    rewrite (content_live _ _ _ _ _ I E Hg) in Ec. injection Ec as <-. exists (Frame.page f'). split; [done|].
    eapply rtc_subrel; [|by apply Htk]. intros. by left.
Qed.

Lemma quiet_upd X h {h0} r σ bf f f' :
  inv h0 r σ → BufferPool.arena σ !! bf = Some f → in_place f f' →
  (Frame.state f ≠ Free → stays_resident f = true → stays f f') →
  bf ∈ X ∨ bf ∉ h ∧ Frame.state f ≠ Evicting ∧ Frame.latch f = Unlatched ∧ Frame.latch f' = Unlatched ∧ Frame.state f' ≠ Evicting →
  Frame.pin_count f' ≤ Frame.pin_count f → Frame.page f' = Frame.page f → quiet X h σ (upd σ bf f').
Proof. intros I E IP Hst Hbf Hpin Hpg. eapply quiet_taken; try done. intros _. rewrite Hpg. by left. Qed.

Lemma quiet_moved X h σ σ' bf f f' : moved σ σ' bf f' → steady σ σ' → bf ∈ X →
  BufferPool.arena σ !! bf = Some f → Frame.pin_count f' ≤ Frame.pin_count f →
  (∀ q, table_at σ q = None → table_at σ' q = None) →
  Frame.state f' = Free → (∀ q p, ps_pid_ok q → content σ q = Some p → keeps_page (holds σ) σ p (content σ' q)) →
  BufferPool.dirty_flush_inflight σ' = BufferPool.dirty_flush_inflight σ → quiet X h σ σ'.
Proof.
  intros M S Hx E0 Hpin Ht Hf Hc Hi. split; try apply M; try done.
  - intros s g Eg Hs _. rewrite (moved_lookup_ne σ σ' bf f' M); [done|]. by intros ->.
  - intros s Hs. unfold calm. rewrite (moved_lookup_ne σ σ' bf f' M); [done|]. by intros ->.
  - intros s g g' Eg Eg'. destruct (moved_inv σ σ' bf f f' M E0 _ _ Eg') as [[-> ->]|[_ Eg2]]; [congruence|].
    rewrite Eg in Eg2. by injection Eg2 as <-.
  - intros s pid (g & Eg & Hg & Hp). destruct (moved_inv σ σ' bf f f' M E0 _ _ Eg) as [[-> ->]|[_ Eg2]]; [done|by exists g].
Qed.

Lemma quiet_ext X h σ σ' : steady σ σ' → BufferPool.arena σ' = BufferPool.arena σ →
  BufferPool.page_table σ' = BufferPool.page_table σ → (∀ q, ps_pid_ok q → disk σ' q = disk σ q) →
  BufferPool.eviction_in_flight σ' = BufferPool.eviction_in_flight σ → BufferPool.eviction_budget σ' = BufferPool.eviction_budget σ →
  BufferPool.dirty_flush_inflight σ' = BufferPool.dirty_flush_inflight σ → quiet X h σ σ'.
Proof.
  intros S E Et Es ? ? ?. split; try done.
  - intros s f Ef _ _. by rewrite E.
  - intros s _. unfold calm. by rewrite E.
  - intros s f f'. rewrite E. intros Ef Ef'. rewrite Ef in Ef'. by injection Ef' as <-.
  - intros q. unfold table_at. by rewrite Et.
  - intros s pid. unfold holds. by rewrite E.
  - intros pid p Hok Ec. assert (content σ' pid = Some p) as -> by (rewrite <-Ec; unfold content, table_at; rewrite Et, E; case_match; auto).
    apply keeps_page_refl.
Qed.
End quiet.

(** ** What the callbacks promise

    They may take references back and change inner pages, but they load and
    lose no page and leave the frames of others alone. *)

Class HookLaws `{PageStoreLaws} `{LogLaws} `{!PoolEnv} `{!InnerPages} `{!Hooks} := {
  find_and_unswizzle_ok h r σ dt_id child pid : inv h r σ →
    let '(_, σ') := find_and_unswizzle dt_id child pid σ in inv h r σ' ∧ quiet [] h σ σ';
  find_and_unswizzle_with_hint_ok h r σ dt_id child pid parent slot upper : inv h r σ →
    let '(_, σ') := find_and_unswizzle_with_hint dt_id child pid parent slot upper σ in inv h r σ' ∧ quiet [] h σ σ';
  reclaim_ok h r σ pid bf : inv h r σ →
    inv h r (hook_try_reclaim_before_evict pid bf σ) ∧ quiet [] h σ (hook_try_reclaim_before_evict pid bf σ);
  prepare_ok σ pt p : zlen p = PAGE_SIZE →
    zlen (hook_prepare_page_copy_for_writeback pt p σ) = PAGE_SIZE ∧
    read_page_lsn (hook_prepare_page_copy_for_writeback pt p σ) = read_page_lsn p ∧
    (parent_kind p → parent_kind (hook_prepare_page_copy_for_writeback pt p σ)) ∧
    ((is_inner_index_page p = true → node_ok p) →
      is_inner_index_page (hook_prepare_page_copy_for_writeback pt p σ) = true → node_ok (hook_prepare_page_copy_for_writeback pt p σ));
}.

Section evict.
Context `{HookLaws}.
Implicit Types (σ : BufferPool.t) (f : Frame.t) (h X : list nat) (r : Z).

(** No step of eviction panics. *)
Definition never (why : panic_reason) : Prop := False.

(** A frame that is being evicted: nobody uses it, and its page may go. *)
Record evicting f : Prop := {
  ev_state : Frame.state f = Evicting;
  ev_pin : Frame.pin_count f = 0;
  ev_dirty : Frame.dirty f = false;
  ev_allowed : frame_page_allows_eviction f = true;
}.

(** ** The parent *)

Lemma evicted_word pid : payload_ok pid → SwipWord.evicted pid = Ret (encode (EvictedPage pid)).
Proof.
  intros Hp. unfold SwipWord.evicted, SwipWord.evicted_page. rewrite payload_land_state_mask by done.
  rewrite debug_assert_true by done. rewrite bind_Ret. f_equal. by apply payload_lor_evicted.
Qed.

Lemma hot_word ptr : payload_ok ptr → SwipWord.hot ptr = Ret (encode (HotPtr ptr)).
Proof.
  intros Hp. unfold SwipWord.hot, SwipWord.hot_ptr. rewrite payload_land_state_mask by done. by rewrite debug_assert_true.
Qed.

Lemma valid_payload σ pid : valid_pid σ pid → payload_ok pid.
Proof. intros (? & ? & _). unfold payload_ok. lia. Qed.

Lemma live_payload h r σ s f : inv h r σ → BufferPool.arena σ !! s = Some f → Frame.state f ≠ Free → payload_ok (Frame.pid f).
Proof. intros I E Hf. destruct (fo_live _ _ (fo_local _ _ (inv_frames _ _ _ I s f E)) Hf) as [Hv _]. by eapply valid_payload. Qed.

(** The cached hint: the parent's page is rewritten under its latch, or left. *)
Lemma fast_path_spec h r σ bf f l :
  inv h r σ → BufferPool.arena σ !! bf = Some f → Frame.state f ≠ Free → Frame.parent_link f = InnerNode l →
  ends never (try_unswizzle_inner_node_fast_path bf (Frame.pid f) (InnerParentLink.parent_pid l)
    (InnerParentLink.slot_index l) (InnerParentLink.is_upper l)) σ
    (λ _ σ', inv h r σ' ∧ quiet [] h σ σ').
Proof.
  intros I E Hf Hlink. unfold try_unswizzle_inner_node_fast_path, table_lookup. pstep.
  change (PageTable.lookup (BufferPool.page_table σ) (InnerParentLink.parent_pid l)) with (table_at σ (InnerParentLink.parent_pid l)).
  destruct (table_at σ (InnerParentLink.parent_pid l)) as [s|] eqn:Es; [|by pstep].
  destruct (table_live _ _ _ _ _ I Es) as (g & Eg & Hg & Hpg).
  pose proof (inv_frames _ _ _ I s g Eg) as [Hlg _ _].
  destruct (fo_live _ _ Hlg Hg) as (Hvg & Hdg & Hlsn & Hnode).
  apply ends_bind. eapply ends_with_try_exclusive; [done| |].
  { intros _. by pstep. }
  intros Hu. set (g1 := Frame.with_latch g ExclusiveHeld).
  (* leaving the parent as it is *)
  assert (Hleave : ∀ o : option (option bool), ∃ f', BufferPool.arena (upd σ s g1) !! s = Some f' ∧
    ends never (mret (default (Some false) o)) (upd (upd σ s g1) s (Frame.with_latch f' Unlatched))
      (λ _ σ', inv h r σ' ∧ quiet [] h σ σ')).
  { intros o. exists g1. split; [by eapply upd_lookup|]. rewrite upd_upd. apply ends_ret.
    replace (Frame.with_latch g1 Unlatched) with g by (unfold g1; rewrite <-Hu; by destruct g).
    by rewrite upd_same. }
  pstep. destruct (negb _ || negb _) eqn:Eb.
  { pstep. destruct (Hleave (Some None)) as (f' & ? & ?). exists f'. eauto. }
  apply orb_false_iff in Eb as [Eres _]. apply negb_false_iff, bool_decide_eq_true_1 in Eres. cbn in Eres.
  assert (Hk : parent_kind (Frame.page g)).
  { eapply (fo_hint _ _ (inv_frames _ _ _ I bf f E) l); [done|done| |].
    - rewrite <-Hpg. apply Hvg.
    - rewrite <-Hpg. by eapply content_live. }
  assert (Hpf : payload_ok (Frame.pid f)) by (by eapply live_payload).
  assert (Hptr : payload_ok (frame_ptr bf)) by (by eapply (frame_ptr_ok _ _ _ bf)).
  change (Frame.page g1) with (Frame.page g).
  destruct (decide (read_page_type (Frame.page g) = Index)) as [Hidx|Hnidx].
  2: { eapply ends_orelse.
    { unfold find_child_pos_in_parent. by rewrite bool_decide_eq_false_2. }
    pstep. destruct (Hleave (Some None)) as (f' & ? & ?). exists f'. eauto. }
  specialize (Hk Hidx). specialize (Hnode Hk). pose proof (fo_slot _ _ (fo_local _ _ (inv_frames _ _ _ I bf f E))) as Hlf.
  destruct (node_finds (Frame.page g) bf (Frame.pid f) (InnerParentLink.slot_index l) (InnerParentLink.is_upper l))
    as [o Eo]; [done|by apply Hlf|done..|]. eapply ends_orelse; [done|].
  destruct o as [edge|].
  2: { pstep. destruct (Hleave (Some None)) as (f' & ? & ?). exists f'. eauto. }
  destruct (node_unswizzles (Frame.page g) bf (Frame.pid f) (InnerParentLink.slot_index l) (InnerParentLink.is_upper l) edge)
    as (p' & Ep & Hn' & Hz & Hi' & Hl'); [done|by apply Hlf|done..|].
  unfold unswizzle_parent_child_at. pstep. pstep. eapply ends_orelse; [done|]. pstep. pstep. pstep. cbv beta.
  eexists. split; [by eapply upd_lookup|]. apply ends_ret. rewrite upd_upd.
  set (g' := Frame.with_latch _ Unlatched).
  assert (Htk : rtc (taken (holds σ)) (Frame.page g) (Frame.page g')).
  { apply rtc_once. split_and!; [done|done|]. exists bf, (Frame.pid f), (InnerParentLink.slot_index l), (InnerParentLink.is_upper l), edge.
    split_and!; [by exists f|done|done]. }
  assert (IP : in_place g g').
  { split; [done|done|]. intros _. eapply rtc_subrel; [|exact Htk]. intros ??. by apply taken_mono. }
  split.
  - eapply inv_upd; [done|done|done|done|]. destruct Hlg. split; try done; cbn.
    + by rewrite Hz.
    + intros _. split_and!; [done|done|by rewrite Hlsn|done].
  - eapply quiet_taken; [done|done|done|done| |right; split_and!; [|by rewrite Eres|done|done|by cbn; rewrite Eres]|done].
    { intros _ _. split; try done. by apply IP. }
    intros Hin. destruct (inv_held _ _ _ I s Hin) as (g0 & E0 & ?). rewrite Eg in E0. injection E0 as <-. done.
Qed.

(** Callbacks. *)
Lemma call_finder_spec h r σ child pid dt_id : inv h r σ →
  ends never (call_finder child pid dt_id) σ (λ _ σ', inv h r σ' ∧ quiet [] h σ σ').
Proof.
  intros I. unfold call_finder, ends. pose proof (find_and_unswizzle_ok h r σ dt_id child pid I) as Hl.
  by destruct (find_and_unswizzle dt_id child pid σ).
Qed.

(** A step, with what it keeps, before the next. *)
Lemma ends_quiet_bind {A B} {P : panic_reason → Prop} X h r (m : PM A) (k : A → PM B) σ (Q : B → BufferPool.t → Prop) :
  ends P m σ (λ _ σ', inv h r σ' ∧ quiet X h σ σ') →
  (∀ a σ', inv h r σ' → quiet X h σ σ' → ends P (k a) σ' Q) → ends P (m ≫= k) σ Q.
Proof. intros Hm Hk. apply ends_bind. eapply ends_mono; [done|]. intros a σ' [? ?]. auto. Qed.

Lemma any_finder_spec h r child pid finders σ : inv h r σ →
  ends never (any_finder child pid finders) σ (λ _ σ', inv h r σ' ∧ quiet [] h σ σ').
Proof.
  intros I. unfold any_finder. apply ends_bind.
  assert (Hf : ∀ fs σ0, inv h r σ0 → quiet [] h σ σ0 → ends never
    (first_some (λ dt_id, r ← call_finder child pid dt_id; mret (if r : bool then Some tt else None)) fs) σ0
    (λ _ σ', inv h r σ' ∧ quiet [] h σ σ')).
  { intros fs. induction fs as [|dt fs IH]; intros σ0 I0 Q0; cbn [first_some]; [by pstep|].
    apply ends_bind. eapply ends_quiet_bind; [by apply call_finder_spec|]. intros b σ1 I1 Q1.
    assert (quiet [] h σ σ1) by (by etrans). pstep. destruct b; [by pstep|by apply IH]. }
  eapply ends_mono; [by apply Hf|]. intros o σ' ?. by pstep.
Qed.

Lemma registered_finders_spec h r child pid dt_id σ : inv h r σ →
  ends never (find_and_unswizzle_with_registered_finders child pid dt_id) σ (λ _ σ', inv h r σ' ∧ quiet [] h σ σ').
Proof.
  intros I. unfold find_and_unswizzle_with_registered_finders. pstep.
  eapply (ends_quiet_bind [] h r).
  { destruct (has_registered_dt σ dt_id); [by apply call_finder_spec|by pstep]. }
  intros b σ1 I1 Q1. destruct b; [by pstep|]. pstep. eapply ends_mono; [by apply any_finder_spec|].
  intros b σ2 [I2 Q2]. split; [done|by etrans].
Qed.

Lemma inner_node_spec h r σ bf f l allow :
  inv h r σ → BufferPool.arena σ !! bf = Some f → Frame.state f ≠ Free → Frame.parent_link f = InnerNode l →
  ends never (try_unswizzle_inner_node bf (Frame.pid f) l allow) σ (λ _ σ', inv h r σ' ∧ quiet [] h σ σ').
Proof.
  intros I E Hf Hl. unfold try_unswizzle_inner_node. eapply (ends_quiet_bind [] h r); [by eapply fast_path_spec|].
  intros [b|] σ1 I1 Q1; [by pstep|]. pstep. eapply (ends_quiet_bind [] h r).
  { destruct (has_registered_dt σ1 _); [|by pstep]. unfold ends.
    pose proof (find_and_unswizzle_with_hint_ok h r σ1 (InnerParentLink.dt_id l) bf (Frame.pid f)
      (InnerParentLink.parent_pid l) (InnerParentLink.slot_index l) (InnerParentLink.is_upper l) I1) as Hh.
    by destruct (find_and_unswizzle_with_hint _ _ _ _ _ _ σ1). }
  intros [b|] σ2 I2 Q2; [pstep; split; [done|by etrans]|]. destruct (negb allow); [pstep; split; [done|by etrans]|].
  eapply ends_mono; [by apply registered_finders_spec|]. intros b σ3 [I3 Q3]. split; [done|]. by do 2 (etrans; [done|]).
Qed.

(** Afterwards no stable edge leads to the frame any more. *)
Lemma unswizzle_parent_spec h r σ bf f allow :
  inv h r σ → BufferPool.arena σ !! bf = Some f → Frame.state f = Evicting →
  ends never (unswizzle_parent bf (Frame.pid f) allow) σ (λ _ σ', inv h r σ' ∧ quiet [] h σ σ' ∧
    BufferPool.arena σ' !! bf = Some f ∧
    ∀ o ow, BufferPool.owners σ' !! o = Some ow → StableSwipOwner.word ow ≠ encode (HotPtr (frame_ptr bf))).
Proof.
  intros I E Hs. assert (Hf : Frame.state f ≠ Free) by (by rewrite Hs). unfold unswizzle_parent. pstep.
  (* a frame whose link is not stable has no stable edge *)
  assert (Hno : ∀ σ', inv h r σ' → quiet [] h σ σ' → (∀ o, Frame.parent_link f ≠ Stable o) →
    inv h r σ' ∧ quiet [] h σ σ' ∧ BufferPool.arena σ' !! bf = Some f ∧
    ∀ o ow, BufferPool.owners σ' !! o = Some ow → StableSwipOwner.word ow ≠ encode (HotPtr (frame_ptr bf))).
  { intros σ' I' Q' Hnl. assert (E' : BufferPool.arena σ' !! bf = Some f).
    { apply (q_frames _ _ _ _ Q'); [done|set_solver|right; by left]. }
    split_and!; try done. intros o ow Eo Ew. destruct (inv_owners _ _ _ I' o ow Eo) as [Hv [Hw|(s & g & Hw & Eg & Hg & Hl & _)]].
    - rewrite Ew in Hw. destruct (frame_ptr_ok _ _ _ _ _ I' E') as [Hp _]. apply valid_payload in Hv.
      unfold payload_ok, encode in *. lia.
    - rewrite Ew in Hw. unfold encode in Hw. apply frame_ptr_inj in Hw as <-. rewrite E' in Eg. injection Eg as <-. by eapply Hnl. }
  unfold unswizzle_parent_link. destruct (Frame.parent_link f) as [| |o|l] eqn:El.
  - pstep. destruct (frame_is_index_page f); [destruct (negb allow)|]; [by pstep; apply Hno| |by pstep; apply Hno].
    unfold find_and_unswizzle_with_all_registered_finders. pstep. eapply ends_mono; [by apply any_finder_spec|].
    intros b σ' [I' Q']. by apply Hno.
  - pstep. by apply Hno.
  - destruct (fo_stable _ _ (inv_frames _ _ _ I bf f E) o Hf El) as (ow & Eo & Hp). unfold store_evicted. pstep. pstep.
    eapply ends_orelse; [by rewrite Eo|]. assert (Hpay : payload_ok (Frame.pid f)) by (by eapply live_payload).
    eapply ends_orelse; [unfold StableSwipOwner.store_evicted; by rewrite evicted_word, bind_Ret|]. cbv beta.
    apply (ends_Fin _ tt _ (BufferPool.with_owners σ (<[o := {| StableSwipOwner.word := encode (EvictedPage (Frame.pid f));
      StableSwipOwner.page_id := Frame.pid f |}]> (BufferPool.owners σ)))); [done|]. pstep. split_and!; [| |done|].
    + eapply inv_with_owner; [done|done|by rewrite Hp|]. split; [|by left]. rewrite <-Hp. by apply (inv_owners _ _ _ I o ow).
    + apply quiet_ext; try done. by eapply steady_with_owner.
    + intros o' ow'. cbn. destruct (decide (o = o')) as [<-|Hne].
      * rewrite lookup_insert_eq. intros [= <-]. cbn. destruct (frame_ptr_ok _ _ _ _ _ I E) as [Hptr _]. unfold payload_ok in *. lia.
      * rewrite lookup_insert_ne by done. intros Eo' Ew. destruct (inv_owners _ _ _ I o' ow' Eo') as [Hv [Hw|(s & g & Hw & Eg & Hg & Hl & _)]].
        -- rewrite Ew in Hw. destruct (frame_ptr_ok _ _ _ _ _ I E) as [Hptr _]. apply valid_payload in Hv.
           unfold payload_ok, encode in *. lia.
        -- rewrite Ew in Hw. unfold encode in Hw. apply frame_ptr_inj in Hw as <-. rewrite E in Eg. injection Eg as <-. congruence.
  - eapply ends_mono; [by eapply inner_node_spec|]. intros b σ' [I' Q']. by apply Hno.
Qed.

(** ** Freeing the frame *)

Lemma evicting_leaves f : evicting f → stays_resident f = false.
Proof. intros [_ Hp _ Ha]. unfold stays_resident. by rewrite Hp, Ha. Qed.

Lemma allowed_not_inner f : frame_page_allows_eviction f = true → is_inner_index_page (Frame.page f) = false.
Proof. unfold frame_page_allows_eviction. rewrite !andb_true_iff, !negb_true_iff. by intros [[? _] _]. Qed.

Lemma available_bound h r σ : inv h r σ → 0 ≤ r → BufferPool.resident_base_pages_available σ + 1 < 2 ^ 64.
Proof.
  intros I Hr. pose proof (inv_budget _ _ _ I). destruct (inv_size _ _ _ I) as [Hz _]. destruct (inv_arena _ _ _ I) as (Hb & _ & Ha).
  pose proof (zlen_nonneg (BufferPool.arena σ)). assert (1 ≤ FRAME_STRIDE) by (unfold FRAME_STRIDE; page_lia).
  assert (0 < arena_base) by page_lia. nia.
Qed.

Definition freed_frame f : Frame.t := Frame.with_state (Frame.with_parent_link f LinkNone) Free.

Lemma free_evicting_frame_spec h r σ bf f :
  inv h r σ → 0 ≤ r → bf ∉ h → BufferPool.arena σ !! bf = Some f → evicting f →
  (∀ o ow, BufferPool.owners σ !! o = Some ow → StableSwipOwner.word ow ≠ encode (HotPtr (frame_ptr bf))) →
  ends never (free_evicting_frame bf) σ (λ _ σ', inv h r σ' ∧ quiet [bf] h σ σ' ∧
    BufferPool.arena σ' !! bf = Some (freed_frame f) ∧
    FreeList.frames (BufferPool.free_list σ') = FreeList.frames (BufferPool.free_list σ) ++ [bf]).
Proof.
  intros I Hr Hbh E Ev Hown. pose proof Ev as [Hs Hp Hd Ha]. assert (Hf : Frame.state f ≠ Free) by (by rewrite Hs).
  pose proof (inv_frames _ _ _ I bf f E) as [Hl _ _]. destruct (fo_live _ _ Hl Hf) as (Hv & Hdisk & _ & _).
  unfold free_evicting_frame, table_remove, release_resident_budget. do 5 pstep.
  match goal with |- ends _ _ ?st _ => set (σ3 := st) end.
  assert (M : moved σ σ3 bf (freed_frame f)) by done.
  assert (Hav : BufferPool.resident_base_pages_available σ3 = BufferPool.resident_base_pages_available σ + 1).
  { apply wrap_small. pose proof (available_bound _ _ _ I Hr). pose proof (inv_available _ _ _ I). lia. }
  assert (I3 : inv (bf :: h) r σ3).
  { eapply (inv_freed σ σ3 bf f); try done.
    - destruct Hl. split; try done.
    - intros d s g l Hd' Eg Hg El Hpl. apply (fo_kind _ _ Hl d Hf Hd Hd').
      assert (ps_pid_ok (InnerParentLink.parent_pid l)) by (rewrite Hpl; apply Hv).
      eapply (fo_hint _ _ (inv_frames _ _ _ I s g Eg) l); [done..|]. rewrite Hpl. by eapply content_live.
    - intros d Hd'. by apply (fo_disk _ _ Hl). }
  assert (C3 : ∀ q p, ps_pid_ok q → content σ q = Some p → keeps_page (holds σ) σ p (content σ3 q)).
  { intros q p _ Ec. assert (Ht : table_at σ3 q = if decide (q = Frame.pid f) then None else table_at σ q) by (apply table_lookup_remove, I).
    unfold content at 1. rewrite Ht. case_decide as D.
    - subst q. rewrite (content_live _ _ _ _ _ I E Hf) in Ec. injection Ec as <-.
      destruct (fo_clean _ _ Hl Hf Hd (allowed_not_inner _ Ha)) as (d & Ed & Hr'). exists d. split; [done|].
      eapply rtc_subrel; [|exact Hr']. intros. by right.
    - unfold content in Ec. destruct (table_at σ q) as [s|] eqn:Es.
      + rewrite (moved_lookup_ne σ σ3 bf _ M), Ec; [apply keeps_page_refl|]. intros ->.
        destruct (table_live _ _ _ _ _ I Es) as (g & Eg & _ & <-). rewrite E in Eg. by injection Eg as <-.
      + change (disk σ3 q) with (disk σ q). rewrite Ec. apply keeps_page_refl. }
  assert (S3 : steady σ σ3).
  { eapply (steady_moved σ σ3 bf f); [done|done|right; by apply evicting_leaves|]. intros q p Hq Ec.
    eapply keeps_page_mono; [|by apply C3]. done. }
  eapply ends_Fin; [by eapply push_eq|]. split_and!.
  - by apply inv_push.
  - etrans; [eapply (quiet_moved [bf] h σ σ3 bf f); [done|done|set_solver|done|done| |done|done|done]|].
    { intros q Hq. unfold table_at. cbn. rewrite table_lookup_remove by apply I. by case_decide. }
    apply quiet_ext; try done. apply steady_with_free.
  - apply (moved_lookup σ σ3 bf f _ M E).
  - done.
Qed.

Lemma evicting_can_free f : evicting f → can_free_evicting_frame f = true.
Proof. intros [Hs Hp Hd _]. unfold can_free_evicting_frame. rewrite Hs, Hp, Hd. done. Qed.

Definition resident_again f : Frame.t := Frame.with_state f Resident.

Lemma revert_spec h r σ bf f :
  inv h r σ → bf ∉ h → BufferPool.arena σ !! bf = Some f → Frame.state f = Evicting → stays_resident f = false →
  ends never (revert_frame_to_resident bf) σ (λ _ σ', σ' = upd σ bf (resident_again f) ∧ inv h r σ' ∧ quiet [bf] h σ σ').
Proof.
  intros I Hbh E Hs Hst. unfold revert_frame_to_resident. pstep. fold (resident_again f). split; [done|].
  assert (IP : in_place f (resident_again f)).
  { split; [by rewrite Hs|done|]. intros _. by left. }
  pose proof (inv_frames _ _ _ I bf f E) as [Hl _ _]. assert (Hf : Frame.state f ≠ Free) by (by rewrite Hs).
  split; [|eapply quiet_upd; [done|done|done| |left; set_solver|done|done]; intros _ ?; congruence].
  eapply inv_upd; [done..|]. destruct Hl. split; try done; cbn; intros; auto.
Qed.

(** What has become of an evicting frame: freed, or resident again. *)
Definition evicted_to σ (bf : nat) f (b : bool) : Prop :=
  BufferPool.arena σ !! bf = Some (if b then freed_frame f else resident_again f).

Lemma unswizzle_and_free_spec h r σ bf f allow :
  inv h r σ → 0 ≤ r → bf ∉ h → BufferPool.arena σ !! bf = Some f → evicting f →
  ends never (unswizzle_and_free bf (Frame.pid f) allow) σ
    (λ b σ', inv h r σ' ∧ quiet [bf] h σ σ' ∧ evicted_to σ' bf f b).
Proof.
  intros I Hr Hbh E Ev. unfold unswizzle_and_free. apply ends_bind.
  eapply ends_mono; [eapply unswizzle_parent_spec; [done|done|apply Ev]|]. intros b σ1 (I1 & Q1 & E1 & Hown).
  assert (Q1' : quiet [bf] h σ σ1) by (eapply quiet_sub; [done|set_solver]). pstep.
  destruct (negb (parent_link_allows_free f b)).
  { apply ends_bind. eapply ends_mono; [eapply revert_spec; [done|done|done|apply Ev|by apply evicting_leaves]|].
    intros [] σ2 (-> & I2 & Q2). pstep. split_and!; [done|by etrans|by eapply upd_lookup]. }
  rewrite (evicting_can_free _ Ev). cbn [negb]. apply ends_bind.
  eapply ends_mono; [by eapply free_evicting_frame_spec|]. intros [] σ2 (I2 & Q2 & E2 & _). pstep. split_and!; [done|by etrans|done].
Qed.

(** ** Selecting a frame *)

(** A change of a frame's flags that keeps who uses it. *)
Lemma inv_flags h r σ bf f f' :
  inv h r σ → BufferPool.arena σ !! bf = Some f →
  (Frame.state f' = Free ↔ Frame.state f = Free) → Frame.state f' ≠ Loading → Frame.pid f' = Frame.pid f →
  Frame.page f' = Frame.page f → Frame.parent_link f' = Frame.parent_link f → Frame.pin_count f' = Frame.pin_count f →
  Frame.dirty f' = Frame.dirty f → Frame.page_lsn f' = Frame.page_lsn f → Frame.generation f' = Frame.generation f →
  inv h r (upd σ bf f').
Proof.
  intros I E Hf Hs Hp Hpg Hl Hpin Hd Hlsn Hg. eapply inv_upd; [done|done| |done|].
  - split; [done|done|]. intros _. rewrite Hpg. by left.
  - pose proof (inv_frames _ _ _ I bf f E) as [Hloc _ _]. destruct Hloc.
    split; intros *; rewrite ?Hpg, ?Hpin, ?Hd, ?Hl, ?Hlsn, ?Hg, ?Hp, ?Hf; try done; apply fo_kind || apply fo_disk || apply fo_slot.
Qed.

Definition unreferenced f : Frame.t := Frame.with_referenced f false.
Definition selected_frame f : Frame.t := Frame.with_state (unreferenced f) Evicting.
Definition with_flight σ (n : Z) : BufferPool.t := BufferPool.with_eviction_in_flight σ n.

Lemma inv_with_flight h r σ n : inv h r σ → 0 ≤ n ≤ BufferPool.eviction_budget σ → inv h r (with_flight σ n).
Proof. intros I Hn. by eapply inv_ext. Qed.

Lemma steady_with_flight σ n : steady σ (with_flight σ n) ∧ steady (with_flight σ n) σ.
Proof. split; apply steady_ext; try done; eauto. Qed.

Lemma quiet_with_flight X h σ σ' n : quiet X h σ σ' → quiet X h (with_flight σ n) (with_flight σ' n).
Proof.
  intros Q. split; try apply Q; try done. etrans; [apply steady_with_flight|]. etrans; [apply Q|apply steady_with_flight].
Qed.

Lemma select_latched_spec h r σ bf f :
  inv h r σ → BufferPool.arena σ !! bf = Some f → Frame.state f = Resident →
  ends never (select_latched bf) σ (λ o σ', inv h r σ' ∧ match o with
    | Some pid => pid = Frame.pid f ∧ Frame.pin_count f = 0 ∧ Frame.dirty f = false ∧
        σ' = with_flight (upd σ bf (selected_frame f)) (BufferPool.eviction_in_flight σ + 1)
    | None => σ' = σ ∨ σ' = upd σ bf (unreferenced f)
    end).
Proof.
  intros I E Hs. assert (Iu : inv h r (upd σ bf (unreferenced f))).
  { eapply inv_flags; try done. cbn. by rewrite Hs. }
  unfold select_latched. pstep. destruct (Z.eqb_spec (Frame.pin_count f) 0) as [Hp|]; cbn [negb]; [|pstep; eauto].
  pstep. fold (unreferenced f). destruct (Frame.referenced f); [pstep; eauto|]. destruct (Frame.dirty f) eqn:Hd; [pstep; eauto|].
  unfold try_acquire_eviction_permit. pstep. pstep. pstep.
  destruct (Z.leb_spec (BufferPool.eviction_budget σ) (BufferPool.eviction_in_flight σ)) as [|Hlt];
    cbn [upd BufferPool.eviction_budget BufferPool.eviction_in_flight BufferPool.with_arena].
  { rewrite (proj2 (Z.leb_le _ _)) by done. pstep. cbn [negb]. pstep. eauto. }
  rewrite (proj2 (Z.leb_gt _ _)) by done. pstep. pstep. cbn [negb]. unfold compare_exchange_transition. pstep.
  eapply ends_orelse; [by rewrite debug_assert_true|]. pstep. cbn [Frame.state unreferenced Frame.with_referenced].
  rewrite bool_decide_eq_true_2 by done. do 2 pstep. cbn [negb]. pstep.
  match goal with |- context [upd (BufferPool.with_eviction_in_flight ?s ?n) bf ?g] =>
    change (upd (BufferPool.with_eviction_in_flight s n) bf g) with (with_flight (upd s bf g) n) end.
  rewrite upd_upd. split; [|done].
  apply inv_with_flight; [|cbn; destruct (inv_flight _ _ _ I); lia].
  eapply inv_flags; try done. cbn. by rewrite Hs.
Qed.

Lemma quiet_drop h σ σ' bf f :
  quiet [bf] h σ σ' → BufferPool.arena σ !! bf = Some f → bf ∉ h → Frame.state f ≠ Evicting → Frame.latch f = Unlatched →
  calm σ' bf → quiet [] h σ σ'.
Proof.
  intros [S Hf Hc ? ? ? ? ? ? ?] E Hh Hs Hl Hbf. split; try done.
  - intros s g Eg _ Hg. apply Hf; [done| |done].
    intros ->%list_elem_of_singleton. rewrite E in Eg. injection Eg as <-. naive_solver.
  - intros s _ Hs'. destruct (decide (s = bf)) as [->|Hne]; [done|]. apply Hc; [|done]. by intros ->%list_elem_of_singleton.
Qed.

Lemma with_flight_same σ : with_flight σ (BufferPool.eviction_in_flight σ) = σ.
Proof. by destruct σ. Qed.

Lemma resident_not_held h r σ bf f : inv h r σ → BufferPool.arena σ !! bf = Some f → Frame.state f ≠ Free → bf ∉ h.
Proof. intros I E Hs Hin. destruct (inv_held _ _ _ I bf Hin) as (g & Eg & Hg). rewrite E in Eg. injection Eg as <-. done. Qed.

(** A frame is latched and unlatched, its flags changed in between. *)
Lemma unlatch_spec h r σ bf f f' :
  inv h r σ → BufferPool.arena σ !! bf = Some f → Frame.state f = Resident → Frame.latch f = Unlatched →
  f' = f ∨ f' = unreferenced f → inv h r (upd σ bf f') ∧ quiet [] h σ (upd σ bf f').
Proof.
  intros I E Hs Hl Hf. assert (Hin : in_place f f') by (destruct Hf as [-> | ->]; split; try done; intros _; by left). split.
  - eapply inv_flags; try done; destruct Hf as [-> | ->]; try done; cbn; by rewrite Hs.
  - eapply quiet_upd; [done|done|done| | |by destruct Hf as [-> | ->]|by destruct Hf as [-> | ->]].
    + intros _ _. destruct Hf as [-> | ->]; split; try done; by left.
    + right. split_and!; [eapply resident_not_held; [done..|]; by rewrite Hs|by rewrite Hs|done|by destruct Hf as [-> | ->]|].
      destruct Hf as [-> | ->]; cbn; by rewrite Hs.
Qed.

(** Calls the reclaimer of a delta page, if it has one. *)
Lemma reclaim_spec h r σ pid bf (b : bool) : inv h r σ →
  ends never (if b then try_reclaim_before_evict pid bf else mret tt) σ (λ _ σ', inv h r σ' ∧ quiet [] h σ σ').
Proof.
  intros I. destruct b; [|by pstep]. unfold try_reclaim_before_evict. pstep. case_bool_decide; [|by pstep].
  unfold ends, pput. by apply reclaim_ok.
Qed.

Lemma drop_permit_eq h r σ : inv h r σ → 1 ≤ BufferPool.eviction_in_flight σ →
  drop_eviction_permit σ = Fin tt (with_flight σ (BufferPool.eviction_in_flight σ - 1)).
Proof.
  intros I Hn. unfold drop_eviction_permit, pput, with_flight. rewrite wrap_small; [done|]. destruct (inv_flight _ _ _ I). lia.
Qed.

(** The permit and the latch are given back. *)
Lemma release_spec h r σ0 σ bf f n :
  inv h r σ → BufferPool.arena σ !! bf = Some f → BufferPool.eviction_in_flight σ = n + 1 → 0 ≤ n →
  quiet [bf] h σ0 (with_flight σ n) → stays_resident f = false → Frame.state f ≠ Loading →
  let σ' := upd (with_flight σ n) bf (Frame.with_latch f Unlatched) in inv h r σ' ∧ quiet [bf] h σ0 σ'.
Proof.
  intros I E Hn Hn0 Q Hst Hld σ'. assert (In : inv h r (with_flight σ n)).
  { apply inv_with_flight; [done|]. destruct (inv_flight _ _ _ I). lia. }
  assert (IP : in_place f (Frame.with_latch f Unlatched)).
  { split; [done|done|]. intros _. by left. }
  split; [by eapply inv_flags|]. etrans; [done|].
  eapply quiet_upd; [done|done|done| |left; set_solver|done|done]. intros _ ?. congruence.
Qed.

Lemma evicted_leaves f (b : bool) : evicting f → stays_resident (if b then freed_frame f else resident_again f) = false.
Proof.
  intros Ev. destruct b; [|by apply (evicting_leaves f)]. destruct Ev as [_ Hp _ Ha].
  unfold stays_resident, frame_page_allows_eviction in *. cbn. rewrite Hp. apply andb_true_iff in Ha as [-> _]. done.
Qed.

(** Some frame is free. *)
Definition free_ready σ : Prop := FreeList.frames (BufferPool.free_list σ) ≠ [].

Lemma free_ready_at h r σ bf f : inv h r σ → bf ∉ h → BufferPool.arena σ !! bf = Some f → Frame.state f = Free → free_ready σ.
Proof.
  intros I Hh E Hs Hn. assert (Hin : bf ∈ FreeList.frames (BufferPool.free_list σ)) by (apply (inv_free _ _ _ I); eauto).
  rewrite Hn in Hin. by apply not_elem_of_nil in Hin.
Qed.

Lemma with_single_evict_candidate_spec h r σ bf (k : PageId → PM bool) :
  inv h r σ → (bf < length (BufferPool.arena σ))%nat →
  (∀ σ1 f1, inv h r σ1 → bf ∉ h → BufferPool.arena σ1 !! bf = Some f1 → evicting f1 →
    ends never (k (Frame.pid f1)) σ1 (λ b σ2, inv h r σ2 ∧ quiet [bf] h σ1 σ2 ∧ evicted_to σ2 bf f1 b)) →
  ends never (with_single_evict_candidate bf k) σ
    (λ o σ', inv h r σ' ∧ quiet [] h σ σ' ∧ (o = Some true → free_ready σ')).
Proof.
  intros I [f E]%lookup_lt_is_Some Hk. unfold with_single_evict_candidate. pstep.
  case_bool_decide as Hs; cbn [negb]; [|by pstep].
  destruct (frame_page_allows_eviction f) eqn:Ha; cbn [negb]; [|by pstep].
  assert (Hh : bf ∉ h) by (eapply resident_not_held; [done..|by rewrite Hs]).
  unfold optimistic_or_restart. pstep. pstep. pstep. case_bool_decide; cbn [negb]; [|by pstep]. pstep.
  rewrite bool_decide_eq_true_2 by done. cbn [negb]. unfold try_upgrade_to_exclusive.
  pose proof (try_lock_eq σ bf f E) as Ht. case_decide as Hl; (eapply ends_step; [exact Ht|]); cbn [negb]; [|by pstep].
  set (fl := Frame.with_latch f ExclusiveHeld). assert (I1 : inv h r (upd σ bf fl)).
  { eapply inv_flags; try done. cbn. by rewrite Hs. }
  apply ends_bind. eapply ends_mono; [eapply select_latched_spec; [exact I1|by eapply upd_lookup|done]|].
  intros [pid|] σ2 [I2 Hsel].
  2: { (* not selected *)
    assert (∃ g, σ2 = upd σ bf g ∧ (g = fl ∨ g = unreferenced fl)) as (g & -> & Hg).
    { destruct Hsel as [-> | ->]; [by exists fl; auto|]. exists (unreferenced fl). rewrite upd_upd. auto. }
    unfold unlock_exclusive. do 2 pstep.
    match goal with |- inv _ _ ?st ∧ _ => enough (inv h r st ∧ quiet [] h σ st) as [? ?] by (split_and!; done) end.
    eapply unlatch_spec; [done..|]. destruct Hg as [-> | ->]; [left|right]; unfold fl, unreferenced; cbn; rewrite <-Hl; by destruct f. }
  destruct Hsel as (-> & Hp & Hd & ->). rewrite upd_upd in I2 |- *. set (fs := selected_frame fl) in *.
  set (n := BufferPool.eviction_in_flight σ). change (BufferPool.eviction_in_flight (upd σ bf fl)) with n in I2 |- *.
  set (σ2 := with_flight (upd σ bf fs) (n + 1)) in *.
  assert (E2 : BufferPool.arena σ2 !! bf = Some fs) by (by eapply upd_lookup).
  pstep. assert (Hps : Frame.pin_count fs = 0) by exact Hp. rewrite Hps. cbn [Z.eqb negb]. pstep.
  eapply (ends_quiet_bind [] h r); [by apply reclaim_spec|]. intros _ σ3 I3 Q3.
  assert (E3 : BufferPool.arena σ3 !! bf = Some fs) by (eapply (q_frames _ _ _ _ Q3); [done|set_solver|right; by left]).
  assert (Ev : evicting fs) by (by split). apply ends_bind. eapply ends_mono; [by apply (Hk σ3 fs I3 Hh E3)|]. intros b σ4 (I4 & Q4 & E4). cbv beta. unfold evicted_to in E4.
  assert (Hn : BufferPool.eviction_in_flight σ4 = n + 1).
  { rewrite (q_flight _ _ _ _ Q4), (q_flight _ _ _ _ Q3). done. }
  destruct (inv_flight _ _ _ I) as [Hn0 _].
  eapply ends_step; [eapply drop_permit_eq; [done|lia]|]. rewrite Hn, Z.add_simpl_r.
  unfold unlock_exclusive. do 2 pstep. destruct (release_spec h r σ σ4 bf (if b then freed_frame fs else resident_again fs) n) as [I5 Q5];
    try done; [lia| |by apply evicted_leaves|by destruct b|].
  2: { split_and!; [done| |].
    { eapply quiet_drop; [exact Q5|done|done|by rewrite Hs|done|]. intros g. rewrite (upd_lookup (with_flight σ4 n) bf _ _ E4). intros [= <-]. by destruct b. }
    intros [= ->]. eapply (free_ready_at h r _ bf); [done|done|by eapply upd_lookup|done]. }
  etrans; [eapply (quiet_upd [bf] h r σ bf f fs); [done|done| | |left; set_solver|done|done]|].
  - split; [cbn; by rewrite Hs|done|]. intros _. by left.
  - intros _ Hst. exfalso. assert (Hpf : Frame.pin_count f = 0) by exact Hp. unfold stays_resident in Hst. by rewrite Hpf, Ha in Hst.
  - rewrite <-(with_flight_same (upd σ bf fs)). change (BufferPool.eviction_in_flight (upd σ bf fs)) with n.
    change (with_flight (upd σ bf fs) n) with (with_flight σ2 n). apply quiet_with_flight. etrans; [|done]. eapply quiet_sub; [done|set_solver].
Qed.

(** ** A sweep *)

Lemma sweep_lt start n : (0 < n)%nat → Forall (λ bf, (bf < n)%nat) (sweep start n).
Proof.
  intros Hn. apply Forall_forall. intros x. unfold sweep. rewrite list_elem_of_fmap. intros (o & -> & _).
  pose proof (Z.mod_pos_bound (start + Z.of_nat o) (Z.of_nat n) ltac:(lia)). lia.
Qed.

Lemma first_some_spec {A B} h r (f : A → PM (option B)) (l : list A) σ :
  (∀ x σ0, x ∈ l → inv h r σ0 → length (BufferPool.arena σ0) = length (BufferPool.arena σ) →
    ends never (f x) σ0 (λ o σ', inv h r σ' ∧ quiet [] h σ0 σ' ∧ (is_Some o → free_ready σ'))) →
  inv h r σ → ends never (first_some f l) σ (λ o σ', inv h r σ' ∧ quiet [] h σ σ' ∧ (is_Some o → free_ready σ')).
Proof.
  intros Hf. assert (Hgen : ∀ σ0, inv h r σ0 → quiet [] h σ σ0 →
    ends never (first_some f l) σ0 (λ o σ', inv h r σ' ∧ quiet [] h σ σ' ∧ (is_Some o → free_ready σ'))); [|by intros; apply Hgen].
  induction l as [|x l IH]; intros σ0 I0 Q0; cbn [first_some].
  { pstep. split_and!; [done|done|by intros [? ?]]. }
  apply ends_bind. eapply ends_mono; [apply Hf; [left|done|apply Q0]|]. intros [b|] σ1 (I1 & Q1 & Hr).
  - pstep. split_and!; [done|by etrans|by eauto].
  - apply IH; [|done|by etrans]. intros y σ2 Hy. apply Hf. by right.
Qed.

Lemma inv_hand h r σ n : inv h r σ → inv h r (BufferPool.with_eviction_hand σ n) ∧ quiet [] h σ (BufferPool.with_eviction_hand σ n).
Proof.
  intros I. split; [eapply inv_ext; try done; apply I|]. apply quiet_ext; try done. apply steady_ext; try done. eauto.
Qed.

Lemma try_evict_one_spec h r σ : inv h r σ → 0 ≤ r →
  ends never try_evict_one σ (λ b σ', inv h r σ' ∧ quiet [] h σ σ' ∧ (b = true → free_ready σ')).
Proof.
  intros I Hr. unfold try_evict_one. pstep. case_match eqn:En; [by pstep|]. apply Nat.eqb_neq in En.
  unfold advance_hand. do 4 pstep. set (start := BufferPool.eviction_hand σ mod _).
  destruct (inv_hand h r σ (wrap 64 (BufferPool.eviction_hand σ + 1)) I) as [I1 Q1].
  match goal with |- ends _ _ ?st _ => set (σ1 := st) in * end. apply ends_bind. eapply ends_mono.
  - apply (first_some_spec h r); [|exact I1]. intros allow σ2 _ I2 Hlen. apply (first_some_spec h r); [|done].
    intros bf σ3 Hbf I3 Hlen3. apply ends_bind.
    eapply ends_mono; [eapply with_single_evict_candidate_spec; [done| |]|].
    + rewrite Hlen3, Hlen. pose proof (sweep_lt start (allocated_slots σ) ltac:(unfold allocated_slots in *; lia)) as Hs.
      rewrite Forall_forall in Hs. by apply Hs.
    + intros σ4 f4 I4 Hh E4 Ev. by apply unswizzle_and_free_spec.
    + intros o σ4 (I4 & Q4 & Hfr). pstep. split_and!; [done|done|]. case_bool_decide; [auto|by intros [? ?]].
  - intros o σ2 (I2 & Q2 & Hfr). pstep. split_and!; [done|by etrans|]. intros ?%bool_decide_eq_true_1. auto.
Qed.

(** ** A batch *)

Lemma sweep_nodup start n : NoDup (sweep start n).
Proof.
  unfold sweep. apply NoDup_fmap_2_strong; [|apply NoDup_seq]. intros x y Hx%elem_of_seq Hy%elem_of_seq Heq.
  pose proof (Z.mod_pos_bound (start + Z.of_nat x) (Z.of_nat n) ltac:(lia)).
  pose proof (Z.mod_pos_bound (start + Z.of_nat y) (Z.of_nat n) ltac:(lia)).
  assert (Hm : (start + Z.of_nat x) mod Z.of_nat n = (start + Z.of_nat y) mod Z.of_nat n) by lia.
  pose proof (Z.div_mod (start + Z.of_nat x) (Z.of_nat n) ltac:(lia)) as Dx.
  pose proof (Z.div_mod (start + Z.of_nat y) (Z.of_nat n) ltac:(lia)) as Dy. rewrite Hm in Dx.
  assert (Hd : Z.of_nat n * ((start + Z.of_nat x) / Z.of_nat n - (start + Z.of_nat y) / Z.of_nat n) = Z.of_nat x - Z.of_nat y) by lia.
  assert ((start + Z.of_nat x) / Z.of_nat n - (start + Z.of_nat y) / Z.of_nat n = 0) by nia. nia.
Qed.

Lemma quiet_drop_all X h σ σ' :
  quiet X h σ σ' →
  (∀ s, s ∈ X → ∃ f, BufferPool.arena σ !! s = Some f ∧ s ∉ h ∧ Frame.state f ≠ Evicting ∧ Frame.latch f = Unlatched) →
  (∀ s, s ∈ X → calm σ' s) → quiet [] h σ σ'.
Proof.
  intros [S Hf Hc ? ? ? ? ? ? ?] Hx Hx'. split; try done.
  - intros s g Eg _ Hg. apply Hf; [done| |done].
    intros (f & E & Hh & Hs & Hl)%Hx. rewrite E in Eg. injection Eg as <-. naive_solver.
  - intros s _ Hs. destruct (decide (s ∈ X)); auto.
Qed.

(** A candidate: its frame is being evicted. *)
Definition candidate_ok h σ (c : Candidate.t) : Prop :=
  ∃ f, BufferPool.arena σ !! Candidate.bf c = Some f ∧ evicting f ∧ Candidate.pid c = Frame.pid f ∧ Candidate.bf c ∉ h ∧
    Frame.latch f = Unlatched.

Lemma candidate_kept X h σ σ' c : quiet X h σ σ' → Candidate.bf c ∉ X → candidate_ok h σ c → candidate_ok h σ' c.
Proof.
  intros Q Hx (f & E & Ev & Hp & Hh & Hl). exists f. split_and!; try done. eapply (q_frames _ _ _ _ Q); [done|done|].
  right. left. apply Ev.
Qed.

Lemma try_select_spec h r σ bf :
  inv h r σ → (bf < length (BufferPool.arena σ))%nat →
  ends never (try_select_evict_candidate bf) σ (λ o σ', inv h r σ' ∧ match o with
    | None => quiet [] h σ σ'
    | Some c => quiet [bf] h σ σ' ∧ Candidate.bf c = bf ∧ candidate_ok h σ' c ∧
        ∃ f, BufferPool.arena σ !! bf = Some f ∧ bf ∉ h ∧ Frame.state f ≠ Evicting ∧ Frame.latch f = Unlatched
    end).
Proof.
  intros I [f E]%lookup_lt_is_Some. unfold try_select_evict_candidate. pstep.
  case_bool_decide as Hs; cbn [negb]; [|by pstep].
  destruct (frame_page_allows_eviction f) eqn:Ha; cbn [negb]; [|by pstep].
  assert (Hh : bf ∉ h) by (eapply resident_not_held; [done..|by rewrite Hs]).
  apply ends_bind. eapply ends_with_try_exclusive; [done|by intros _; pstep|]. intros Hl.
  set (fl := Frame.with_latch f ExclusiveHeld). assert (I1 : inv h r (upd σ bf fl)).
  { eapply inv_flags; try done. cbn. by rewrite Hs. }
  pstep. pstep. change (Frame.state fl) with (Frame.state f). rewrite bool_decide_eq_true_2 by done. cbn [negb].
  eapply ends_mono; [eapply select_latched_spec; [exact I1|by eapply upd_lookup|done]|].
  intros [pid|] σ2 [I2 Hsel]; cbv beta.
  2: { assert (∃ g, σ2 = upd σ bf g ∧ (g = fl ∨ g = unreferenced fl)) as (g & -> & Hg).
    { destruct Hsel as [-> | ->]; [by exists fl; auto|]. exists (unreferenced fl). rewrite upd_upd. auto. }
    pstep. exists g. split; [by eapply upd_lookup|]. pstep. rewrite upd_upd.
    eapply unlatch_spec; [done..|].
    destruct Hg as [-> | ->]; [left|right]; unfold fl, unreferenced; cbn; rewrite <-Hl; by destruct f. }
  destruct Hsel as (-> & Hp & Hd & ->). rewrite upd_upd in I2 |- *. set (fs := selected_frame fl) in *.
  set (n := BufferPool.eviction_in_flight σ). change (BufferPool.eviction_in_flight (upd σ bf fl)) with n in I2 |- *.
  set (σ2 := with_flight (upd σ bf fs) (n + 1)) in *.
  assert (E2 : BufferPool.arena σ2 !! bf = Some fs) by (by eapply upd_lookup).
  assert (Ev : evicting fs) by (by split). pstep.
  eapply (ends_quiet_bind [] h r); [by apply reclaim_spec|]. intros _ σ3 I3 Q3.
  assert (E3 : BufferPool.arena σ3 !! bf = Some fs) by (eapply (q_frames _ _ _ _ Q3); [done|set_solver|right; by left]).
  assert (Hn : BufferPool.eviction_in_flight σ3 = n + 1) by (by rewrite (q_flight _ _ _ _ Q3)).
  destruct (inv_flight _ _ _ I) as [Hn0 _].
  eapply ends_step; [eapply drop_permit_eq; [done|lia]|]. rewrite Hn, Z.add_simpl_r. pstep.
  exists fs. split; [done|]. pstep.
  destruct (release_spec h r σ σ3 bf fs n) as [I5 Q5]; try done; [lia| |by apply evicting_leaves|].
  - etrans; [eapply (quiet_upd [bf] h r σ bf f fs); [done|done| | |left; set_solver|done|done]|].
    + split; [cbn; by rewrite Hs|done|]. intros _. by left.
    + intros _ Hst. assert (Hpf : Frame.pin_count f = 0) by exact Hp. unfold stays_resident in Hst. by rewrite Hpf, Ha in Hst.
    + rewrite <-(with_flight_same (upd σ bf fs)). change (BufferPool.eviction_in_flight (upd σ bf fs)) with n.
      change (with_flight (upd σ bf fs) n) with (with_flight σ2 n). apply quiet_with_flight. eapply quiet_sub; [done|set_solver].
  - split_and!; [done|done|done| |].
    + exists (Frame.with_latch fs Unlatched). split_and!; [by eapply upd_lookup| |done|done|done]. by destruct Ev.
    + exists f. split_and!; [done|done|by rewrite Hs|done].
Qed.

(** A frame nobody holds, seen through a quiet change. *)
Definition idle h σ (s : nat) : Prop :=
  ∃ f, BufferPool.arena σ !! s = Some f ∧ s ∉ h ∧ Frame.state f ≠ Evicting ∧ Frame.latch f = Unlatched.

Lemma idle_before X h σ σ' s : quiet X h σ σ' → s ∉ X → idle h σ' s → idle h σ s.
Proof.
  intros Q HX (f & E & Hh & Hs & Hl). pose proof (sd_size _ _ (q_steady _ _ _ _ Q)) as Hlen.
  assert (is_Some (BufferPool.arena σ !! s)) as [f0 E0].
  { apply lookup_lt_is_Some. rewrite <-Hlen. by eapply lookup_lt_Some. }
  exists f0. split_and!; [done|done| |].
  - intros Hs0. assert (E1 := q_frames _ _ _ _ Q s f0 E0 HX ltac:(right; by left)). congruence.
  - destruct (decide (Frame.latch f0 = Unlatched)) as [|Hl0]; [done|exfalso].
    assert (E1 := q_frames _ _ _ _ Q s f0 E0 HX ltac:(right; by right)). congruence.
Qed.

Lemma select_candidates_spec h r slots : ∀ max_batch σ,
  inv h r σ → Forall (λ bf, (bf < length (BufferPool.arena σ))%nat) slots → NoDup slots →
  ends never (select_candidates max_batch slots) σ (λ cs σ', inv h r σ' ∧ quiet (map Candidate.bf cs) h σ σ' ∧
    Forall (candidate_ok h σ') cs ∧ NoDup (map Candidate.bf cs) ∧ Forall (idle h σ) (map Candidate.bf cs) ∧
    map Candidate.bf cs ⊆ slots).
Proof.
  induction slots as [|bf slots IH]; intros max_batch σ I Hlt Hnd.
  { destruct max_batch; cbn [select_candidates]; pstep; split_and!; try done; constructor. }
  destruct max_batch as [|rest]; cbn [select_candidates].
  { pstep. split_and!; try done; try constructor. set_solver. }
  inversion Hlt as [|? ? Hbf Hlt']; subst. apply NoDup_cons in Hnd as [Hni Hnd].
  apply ends_bind. eapply ends_mono; [by apply try_select_spec|]. intros [c|] σ1 [I1 Ho].
  - destruct Ho as (Q1 & Hcb & Hok & Hidle). apply ends_bind.
    eapply ends_mono; [apply IH; [done|by rewrite (sd_size _ _ (q_steady _ _ _ _ Q1))|done]|].
    intros cs σ2 (I2 & Q2 & Hcs & Hnc & Hid & Hsub). pstep. cbn. rewrite Hcb.
    assert (Hnb : bf ∉ map Candidate.bf cs) by (intros Hin; by apply Hni, Hsub). split_and!; [done| | | | |set_solver].
    + etrans; (eapply quiet_sub; [done|set_solver]).
    + constructor; [|done]. eapply candidate_kept; [done|by rewrite Hcb|done].
    + by apply NoDup_cons.
    + constructor; [done|]. rewrite Forall_forall in Hid |- *. intros s Hs. eapply idle_before; [done| |by apply Hid].
      by intros ->%list_elem_of_singleton.
  - eapply ends_mono; [apply IH; [done|by rewrite (sd_size _ _ (q_steady _ _ _ _ Ho))|done]|].
    intros cs σ2 (I2 & Q2 & Hcs & Hnc & Hid & Hsub).
    split_and!; [done|etrans; [eapply quiet_sub; [exact Ho|set_solver]|done]|done|done| |set_solver].
    eapply Forall_impl; [done|]. intros s. apply (idle_before _ _ _ _ _ Ho). by apply not_elem_of_nil.
Qed.

Lemma finalize_spec h r σ c :
  inv h r σ → 0 ≤ r → candidate_ok h σ c →
  ends never (try_finalize_evicting_candidate c) σ (λ b σ', inv h r σ' ∧ quiet [Candidate.bf c] h σ σ' ∧ calm σ' (Candidate.bf c) ∧ (b = true → free_ready σ')).
Proof.
  intros I Hr (f & E & Ev & Hp & Hh & Hlt). unfold try_finalize_evicting_candidate. set (bf := Candidate.bf c) in *.
  apply ends_bind. eapply ends_with_try_exclusive; [done| |].
  - done.
  - intros Hl. set (fl := Frame.with_latch f ExclusiveHeld). assert (Evl : evicting fl) by (destruct Ev; by split).
    assert (I1 : inv h r (upd σ bf fl)).
    { eapply inv_flags; try done. cbn. by rewrite (ev_state _ Ev). }
    pstep. rewrite bool_decide_eq_true_2 by apply Evl. rewrite (ev_pin _ Evl), (ev_dirty _ Evl). cbn [Z.eqb negb orb].
    assert (Hpl : Candidate.pid c = Frame.pid fl) by done. rewrite Hpl.
    eapply ends_mono; [eapply unswizzle_and_free_spec; [done|done|done|by eapply upd_lookup|done]|].
    intros b σ2 (I2 & Q2 & E2). unfold evicted_to in E2. cbv beta. eexists. split; [exact E2|]. pstep.
    set (f2 := if b then freed_frame fl else resident_again fl) in *.
    assert (I3 : inv h r (upd σ2 bf (Frame.with_latch f2 Unlatched))).
    { eapply inv_flags; try done. destruct b; done. }
    split_and!; [done| | |].
    + etrans; [eapply (quiet_upd [bf] h r σ bf f fl); [done|done| | |left; set_solver|done|done]|].
      * split; [done|done|]. intros _. by left.
      * intros _ Hst. by rewrite (evicting_leaves _ Ev) in Hst.
      * etrans; [done|]. eapply quiet_upd; [done|done| | |left; set_solver|done|done].
        -- split; [done|done|]. intros _. by left.
        -- intros _ Hst. pose proof (evicted_leaves fl b Evl : stays_resident f2 = false). congruence.
    + intros g. rewrite (upd_lookup _ _ _ _ E2). intros [= <-]. unfold f2. by destruct b.
    + intros ->. eapply (free_ready_at h r _ bf); [done|done|by eapply upd_lookup|done].
Qed.

Lemma finalize_candidates_spec h r cs : ∀ σ,
  inv h r σ → 0 ≤ r → Forall (candidate_ok h σ) cs → NoDup (map Candidate.bf cs) →
  ends never (finalize_candidates cs) σ (λ n σ', inv h r σ' ∧ quiet (map Candidate.bf cs) h σ σ' ∧
    ∀ s, s ∈ map Candidate.bf cs → calm σ' s).
Proof.
  induction cs as [|c cs IH]; intros σ I Hr Hok Hnd; cbn [finalize_candidates].
  { pstep. split_and!; [done|done|]. by intros s ?%not_elem_of_nil. }
  inversion Hok as [|? ? Hc Hcs]; subst. cbn in Hnd. apply NoDup_cons in Hnd as [Hni Hnd].
  apply ends_bind. eapply ends_mono; [by apply finalize_spec|]. intros b σ1 (I1 & Q1 & Hcalm & _).
  apply ends_bind. eapply ends_mono; [apply IH; [done|done| |done]|].
  - rewrite Forall_forall in Hcs |- *. intros c' Hc'. eapply candidate_kept; [done| |by apply Hcs].
    intros Heq%list_elem_of_singleton. apply Hni. rewrite <-Heq. by apply list_elem_of_fmap_2.
  - intros n σ2 (I2 & Q2 & Hc2). pstep. cbn. split_and!; [done|etrans; (eapply quiet_sub; [done|set_solver])|].
    intros s [->|Hs]%elem_of_cons; [|by apply Hc2]. by apply (q_calm _ _ _ _ Q2).
Qed.

Lemma try_evict_batch_spec h r σ max_batch : inv h r σ → 0 ≤ r →
  ends never (try_evict_batch max_batch) σ (λ _ σ', inv h r σ' ∧ quiet [] h σ σ').
Proof.
  intros I Hr. unfold try_evict_batch. pstep. case_match eqn:En; [by pstep|]. apply Nat.eqb_neq in En.
  unfold advance_hand. do 4 pstep. set (start := BufferPool.eviction_hand σ mod _).
  destruct (inv_hand h r σ (wrap 64 (BufferPool.eviction_hand σ + Z.of_nat max_batch * 2)) I) as [I1 Q1].
  match goal with |- ends _ _ ?st _ => set (σ1 := st) in * end. apply ends_bind. eapply ends_mono.
  { apply (select_candidates_spec h r); [exact I1| |apply sweep_nodup]. apply sweep_lt. unfold allocated_slots in *. lia. }
  intros cs σ2 (I2 & Q2 & Hcs & Hnd & Hid & _). eapply ends_mono; [by eapply finalize_candidates_spec|].
  intros n σ3 (I3 & Q3 & Hc3). split; [done|]. etrans; [exact Q1|]. apply (quiet_drop_all (map Candidate.bf cs)); [by etrans| |done].
  rewrite Forall_forall in Hid. done.
Qed.

Lemma evict_ones_spec h r n : ∀ σ, inv h r σ → 0 ≤ r → ends never (evict_ones n) σ (λ _ σ', inv h r σ' ∧ quiet [] h σ σ').
Proof.
  induction n as [|n IH]; intros σ I Hr; cbn [evict_ones]; [by pstep|].
  apply ends_bind. eapply ends_mono; [by apply try_evict_one_spec|]. intros [] σ1 (I1 & Q1 & _); [|by pstep].
  apply ends_bind. eapply ends_mono; [by apply IH|]. intros k σ2 [I2 Q2]. pstep. split; [done|by etrans].
Qed.

Lemma try_evict_policy_spec h r σ n : inv h r σ → 0 ≤ r →
  ends never (try_evict_policy n) σ (λ _ σ', inv h r σ' ∧ quiet [] h σ σ').
Proof.
  intros I Hr. unfold try_evict_policy. destruct eviction_policy; [|by apply evict_ones_spec].
  eapply (ends_quiet_bind [] h r); [by apply try_evict_batch_spec|]. intros k σ1 I1 Q1. case_match; [by pstep|].
  apply ends_bind. eapply ends_mono; [by apply try_evict_one_spec|]. intros b σ2 (I2 & Q2 & _). pstep. split; [done|by etrans].
Qed.
End evict.
