(* ===== verification/PoolFlushSpec.v ===== *)
(** * Buffer pool: what writing back keeps

    A batch of dirty pages, and the flush of all of them, change no page and
    leave no frame pinned or latched; what they hand to the page store is
    what the frames hold, with its log record durable, and a frame becomes
    clean only when the store has its page. *)

From S2P Require Import Prelude Bytes FrameKernel SwipKernel PageHeader PageMutation Slotted BufferFrame FreePages FreePagesSpec Posix PageStore BufferPool PoolBase PoolEvict PoolFlush PoolFix PoolInv PoolSteps PoolEvictSpec.
#[local] Open Scope Z_scope.
Import SlottedHeader SlottedPage.

Section flush.
Context `{HookLaws}.
Implicit Types (σ : BufferPool.t) (f : Frame.t) (p d : list byte) (h : list nat) (r : Z).

(** ** Frames and pages that are retouched

    The frames keep their pages; the store may change pages that are in
    frames. *)

Record retouched σ σ' : Prop := {
  rt_free : BufferPool.free_list σ' = BufferPool.free_list σ;
  rt_table : BufferPool.page_table σ' = BufferPool.page_table σ;
  rt_next : BufferPool.next_page_id σ' = BufferPool.next_page_id σ;
  rt_owners : BufferPool.owners σ' = BufferPool.owners σ;
  rt_preparers : BufferPool.page_writeback_preparers σ' = BufferPool.page_writeback_preparers σ;
  rt_base : BufferPool.resident_base_pages σ' = BufferPool.resident_base_pages σ;
  rt_available : BufferPool.resident_base_pages_available σ' = BufferPool.resident_base_pages_available σ;
  rt_budget : BufferPool.eviction_budget σ' = BufferPool.eviction_budget σ;
  rt_flight : BufferPool.eviction_in_flight σ' = BufferPool.eviction_in_flight σ;
  rt_length : length (BufferPool.arena σ') = length (BufferPool.arena σ);
  rt_frames s f : BufferPool.arena σ !! s = Some f → ∃ f', BufferPool.arena σ' !! s = Some f' ∧
    Frame.state f' = Frame.state f ∧ Frame.pid f' = Frame.pid f ∧ Frame.page f' = Frame.page f ∧
    Frame.parent_link f' = Frame.parent_link f;
  rt_store q : ps_pid_ok q → table_at σ q = None → disk σ' q = disk σ q;
}.

Lemma retouched_back σ σ' s f' : retouched σ σ' → BufferPool.arena σ' !! s = Some f' →
  ∃ f, BufferPool.arena σ !! s = Some f ∧ Frame.state f' = Frame.state f ∧ Frame.pid f' = Frame.pid f ∧
    Frame.page f' = Frame.page f ∧ Frame.parent_link f' = Frame.parent_link f.
Proof.
  intros R E. destruct (BufferPool.arena σ !! s) as [f|] eqn:Ef.
  - exists f. split; [done|]. destruct (rt_frames _ _ R s f Ef) as (f2 & E2 & ?). rewrite E in E2. by injection E2 as ->.
  - apply lookup_lt_Some in E. apply lookup_ge_None in Ef. rewrite (rt_length _ _ R) in E. lia.
Qed.

Lemma retouched_live σ σ' : retouched σ σ' → count live (BufferPool.arena σ') = count live (BufferPool.arena σ).
Proof.
  intros R. enough (Hm : live <$> BufferPool.arena σ' = live <$> BufferPool.arena σ).
  { assert (∀ l : list Frame.t, count live l = count id (live <$> l)) as Hc; [|by rewrite !Hc, Hm].
    unfold count. induction l as [|f l IH]; [done|]. rewrite fmap_cons, !filter_cons. unfold id at 1.
    destruct (live f); [by apply (f_equal S)|exact IH]. }
  apply list_eq. intros s. rewrite !list_lookup_fmap. destruct (BufferPool.arena σ !! s) as [f|] eqn:Ef.
  - destruct (rt_frames _ _ R s f Ef) as (f' & -> & Hs & _). cbn. unfold live. by rewrite Hs.
  - destruct (BufferPool.arena σ' !! s) as [f'|] eqn:Ef'; [|done].
    destruct (retouched_back _ _ _ _ R Ef') as (f & ? & _). congruence.
Qed.

Lemma retouched_content h r σ σ' q : inv h r σ → retouched σ σ' → ps_pid_ok q → content σ' q = content σ q.
Proof.
  intros I R Hq. unfold content. unfold table_at at 1. rewrite (rt_table _ _ R). fold (table_at σ q).
  destruct (table_at σ q) as [s|] eqn:Es; [|by apply (rt_store _ _ R)].
  destruct (table_live _ _ _ _ _ I Es) as (f & Ef & _). destruct (rt_frames _ _ R s f Ef) as (f' & -> & _ & _ & Hp & _).
  rewrite Ef. cbn. by rewrite Hp.
Qed.

Lemma inv_retouched h r σ σ' :
  inv h r σ → retouched σ σ' → ps_ok (BufferPool.page_store σ') →
  (∀ s f', BufferPool.arena σ' !! s = Some f' → frame_local σ' f') → inv h r σ'.
Proof.
  intros I R Hps Hloc.
  assert (Hfree : ∀ s, (∃ f, BufferPool.arena σ' !! s = Some f ∧ Frame.state f = Free) ↔
                       (∃ f, BufferPool.arena σ !! s = Some f ∧ Frame.state f = Free)).
  { intros s. split.
    - intros (f' & E & Hs). destruct (retouched_back _ _ _ _ R E) as (f & Ef & Hst & _). exists f. split; [done|congruence].
    - intros (f & E & Hs). destruct (rt_frames _ _ R s f E) as (f' & Ef & Hst & _). exists f'. split; [done|congruence]. }
  split; rewrite ?(rt_table _ _ R), ?(rt_free _ _ R), ?(rt_length _ _ R), ?(rt_available _ _ R), ?(rt_base _ _ R), ?(rt_budget _ _ R),
    ?(rt_flight _ _ R); try apply I; try done.
  - intros s. rewrite Hfree. apply (inv_free _ _ _ I).
  - intros s. rewrite Hfree. apply (inv_held _ _ _ I).
  - intros pid s. unfold table_at. rewrite (rt_table _ _ R). fold (table_at σ pid). rewrite (inv_table _ _ _ I). split.
    + intros (f & E & Hs & Hp). destruct (rt_frames _ _ R s f E) as (f' & Ef & Hst & Hpid & _). exists f'.
      split_and!; [done|congruence|congruence].
    + intros (f' & E & Hs & Hp). destruct (retouched_back _ _ _ _ R E) as (f & Ef & Hst & Hpid & _). exists f.
      split_and!; [done|congruence|congruence].
  - rewrite (retouched_live _ _ R). apply I.
  - unfold zlen. rewrite (rt_length _ _ R). apply (inv_size _ _ _ I).
  - unfold zlen. rewrite (rt_length _ _ R). apply (inv_arena _ _ _ I).
  - intros q d Hq. unfold table_at. rewrite (rt_table _ _ R). intros Hn. rewrite (rt_store _ _ R) by done. by apply (inv_disk _ _ _ I).
  - intros s f' E. destruct (retouched_back _ _ _ _ R E) as (f & Ef & Hst & Hpid & Hpg & Hlk).
    destruct (inv_frames _ _ _ I s f Ef) as [_ Hh Ho]. split; [by eapply Hloc| |].
    + intros l p. rewrite Hst, Hlk. intros Hs El Hok. rewrite (retouched_content _ _ _ _ _ I R Hok). by apply Hh.
    + intros o. rewrite Hst, Hlk, Hpid, (rt_owners _ _ R). apply Ho.
  - intros o ow. rewrite (rt_owners _ _ R). intros Eo. destruct (inv_owners _ _ _ I o ow Eo) as [Hv Hw].
    split; [unfold valid_pid in *; by rewrite (rt_next _ _ R)|]. destruct Hw as [Hw|(s & f & Hw & Ef & Hs & Hl & Hp)]; [by left|right].
    destruct (rt_frames _ _ R s f Ef) as (f' & Ef' & Hst & Hpid & Hpg & Hlk). exists s, f'. split_and!; [done|done|congruence..].
Qed.

(** ** The copy of a page that is written *)

(** The bytes a page is written as: what its type's preparer makes of it, an
    inner index page with its references to frames turned into the
    identifiers of the pages they hold, any other page as it is. *)
Definition written_as σ p d : Prop :=
  if decide (read_page_type p ∈ preparers σ) then ∃ σ1, d = hook_prepare_page_copy_for_writeback (read_page_type p) p σ1
  else if is_inner_index_page p then convert_swips_in_buf (heap_of σ) (contains_frame_ptr σ) p = Ret d
  else d = p.

Record prepared σ p d : Prop := {
  pr_len : zlen d = PAGE_SIZE;
  pr_lsn : read_page_lsn d = read_page_lsn p;
  pr_copy : written_as σ p d;
  pr_kind : parent_kind p → parent_kind d;
  pr_node : is_inner_index_page d = true → node_ok d;
}.

Lemma written_prepares σ p d : written_as σ p d → is_inner_index_page p = false → rtc (prepares (preparers σ)) p d.
Proof.
  unfold written_as. intros Hw Hi. rewrite Hi in Hw. case_decide as Ht; [|subst; by left].
  apply rtc_once. by split_and!.
Qed.

Lemma written_plain σ p d : written_as σ p d → plain σ p → d = p.
Proof. unfold written_as. intros Hw [Hi Ht]. by rewrite decide_False, Hi in Hw. Qed.

(** Latches and pins do not change what is written. *)
Lemma written_ext σ σ' p d :
  preparers σ' = preparers σ → heap_of σ' = heap_of σ → length (BufferPool.arena σ') = length (BufferPool.arena σ) →
  written_as σ' p d → written_as σ p d.
Proof. unfold written_as, contains_frame_ptr, allocated_slots. by intros -> -> ->. Qed.

Lemma heap_upd σ bf f f' :
  BufferPool.arena σ !! bf = Some f → Frame.pid f' = Frame.pid f → Frame.parent_link f' = Frame.parent_link f →
  Frame.dirty f' = Frame.dirty f → Frame.page f' = Frame.page f → heap_of (upd σ bf f') = heap_of σ.
Proof.
  intros E Hp Hl Hd Hg. unfold heap_of. f_equal. apply list_eq. intros i. rewrite !list_lookup_imap. unfold upd. cbn.
  destruct (decide (bf = i)) as [<-|Hne]; [|by rewrite list_lookup_insert_ne].
  rewrite list_lookup_insert_eq, E by (by eapply lookup_lt_Some). cbn. by rewrite Hp, Hl, Hd, Hg.
Qed.

Lemma prepared_ext σ σ' p d :
  preparers σ' = preparers σ → heap_of σ' = heap_of σ → length (BufferPool.arena σ') = length (BufferPool.arena σ) →
  prepared σ' p d → prepared σ p d.
Proof. intros ? ? ? []. split; try done. by eapply written_ext. Qed.

Lemma contains_slot σ addr : 0 < arena_base → arena_base + zlen (BufferPool.arena σ) * FRAME_STRIDE ≤ 2 ^ 62 →
  contains_frame_ptr σ addr = true → ∃ s f, BufferPool.arena σ !! s = Some f ∧ addr = frame_ptr s.
Proof.
  intros Hb Hl Hc. assert (Hs : 0 < FRAME_STRIDE) by (unfold FRAME_STRIDE; page_lia).
  unfold contains_frame_ptr, saturating_add, saturating_mul, allocated_slots in Hc. fold (zlen (BufferPool.arena σ)) in Hc.
  pose proof (zlen_nonneg (BufferPool.arena σ)). assert (0 ≤ zlen (BufferPool.arena σ) * FRAME_STRIDE) by nia.
  rewrite (Z.min_l (zlen _ * _)) in Hc by lia. rewrite Z.min_l in Hc by lia.
  apply andb_true_iff in Hc as [[Hlo Hhi]%andb_true_iff Hm]. apply Z.leb_le in Hlo. apply Z.ltb_lt in Hhi. apply Z.eqb_eq in Hm.
  assert (Hn : FRAME_STRIDE ≠ 0) by lia. pose proof (Z.div_mod (addr - arena_base) _ Hn) as Hd. rewrite Hm in Hd.
  set (k := (addr - arena_base) / FRAME_STRIDE) in *. assert (0 ≤ k < zlen (BufferPool.arena σ)) by nia.
  destruct (lookup_lt_is_Some_2 (BufferPool.arena σ) (Z.to_nat k)) as [f Ef]; [unfold zlen in *; lia|].
  exists (Z.to_nat k), f. split; [done|]. unfold frame_ptr. lia.
Qed.

Lemma heap_of_lookup σ s f : BufferPool.arena σ !! s = Some f →
  heap_of σ !! frame_ptr s = Some {| BufferFrame.pid := Frame.pid f; BufferFrame.parent_link := Frame.parent_link f;
    BufferFrame.dirty := Frame.dirty f; BufferFrame.page := Frame.page f |}.
Proof.
  intros E. unfold heap_of. apply elem_of_list_to_map_1.
  - apply NoDup_alt. intros i j x. rewrite !list_lookup_fmap, !list_lookup_imap.
    destruct (BufferPool.arena σ !! i), (BufferPool.arena σ !! j); cbn; try done. intros [= <-] [= Hx]. by apply frame_ptr_inj.
  - apply elem_of_lookup_imap. eauto.
Qed.

Lemma inner_index_flag p : zlen p = PAGE_SIZE →
  is_inner_index_page p = bool_decide (read_page_type p = Index) && negb (has_custom_flag p 2).
Proof.
  intros Hl. assert (20 ≤ zlen p) by page_lia. rewrite read_page_type_get by done.
  unfold is_inner_index_page, FLAGS_OFF, has_custom_flag, INDEX_LEAF_FLAG. rewrite get_range_Some by lia.
  change (of_le_bytes (sub p 18 (18 + 2 - 18))) with (flags p). change (flags_of p) with (flags p). rewrite negb_involutive. f_equal.
  unfold page_type_tag, PageType.from_u8. destruct (Z.eqb_spec (type_bits (flags p)) 1) as [-> |Hne]; [done|].
  symmetry. apply bool_decide_eq_false_2. repeat case_match; congruence.
Qed.

Lemma prepare_page_spec σ p :
  0 < arena_base → arena_base + zlen (BufferPool.arena σ) * FRAME_STRIDE ≤ 2 ^ 62 →
  (∀ s f, BufferPool.arena σ !! s = Some f → payload_ok (Frame.pid f)) →
  zlen p = PAGE_SIZE → (is_inner_index_page p = true → node_ok p) →
  ∃ d, prepare_page_copy_for_writeback p σ = Fin d σ ∧ prepared σ p d.
Proof.
  intros Hb Hend Hpids Hlen Hnode. unfold prepare_page_copy_for_writeback, pget, mbind, PM_bind. cbv beta iota zeta. unfold id at 1 2 3.
  case_bool_decide as Hpt.
  { eexists. split; [done|]. destruct (prepare_ok σ (read_page_type p) p Hlen) as (? & ? & ? & ?).
    split; try done; [unfold written_as; rewrite decide_True by done; by exists σ|auto]. }
  assert (Hplain : is_inner_index_page p = false → prepared σ p p).
  { intros Hi. split; try done. unfold written_as. by rewrite decide_False, Hi. }
  case_bool_decide as Hidx; cbn [negb].
  2: { exists p. split; [done|]. apply Hplain. rewrite inner_index_flag by done. by rewrite bool_decide_eq_false_2. }
  destruct (is_inner_index_page p) eqn:Ei.
  - destruct (node_converts (heap_of σ) (contains_frame_ptr σ) p) as (d & Ed & Hn & Hd & Hi & Hlsn); [by apply Hnode|done| |].
    { intros addr (s & f & Ef & ->)%contains_slot; [|done|done]. eexists. split; [by apply heap_of_lookup|]. cbn. by eapply Hpids. }
    exists d. unfold id. unfold orelse. rewrite Ed. split; [done|]. split; [done|done| |by intros _ _|done]. unfold written_as. by rewrite decide_False, Ei.
  - exists p. split; [|by apply Hplain]. unfold orelse, convert_swips_in_buf, convert_page.
    rewrite bool_decide_eq_true_2 by done. cbn [negb].
    rewrite inner_index_flag, bool_decide_eq_true_2, andb_true_l in Ei by done. apply negb_false_iff in Ei. by rewrite Ei.
Qed.

Lemma prepare_spec h r σ s f :
  inv h r σ → BufferPool.arena σ !! s = Some f → Frame.state f ≠ Free →
  ∃ d, prepare_page_copy_for_writeback (Frame.page f) σ = Fin d σ ∧ prepared σ (Frame.page f) d.
Proof.
  intros I E Hf. pose proof (fo_local _ _ (inv_frames _ _ _ I s f E)) as Hl. destruct (inv_arena _ _ _ I) as (Hb & _ & Hend).
  apply prepare_page_spec; [page_lia|done| |apply Hl|by apply (fo_live _ _ Hl Hf)].
  intros s' f' E'. apply (fo_pid σ), (inv_frames _ _ _ I s' f' E').
Qed.

(** ** Some frames of the arena *)

(** [g] was applied to the frames of [l], and the others were left. *)
Definition changed_at (l : list nat) (g : Frame.t → Frame.t) (A A' : list Frame.t) : Prop :=
  ∀ s, A' !! s = (if decide (s ∈ l) then g else id) <$> A !! s.

Lemma changed_nil g A : changed_at [] g A A.
Proof. intros s. rewrite decide_False by apply not_elem_of_nil. by rewrite option_fmap_id. Qed.

Lemma changed_length l g A A' : changed_at l g A A' → length A' = length A.
Proof.
  intros C. apply Nat.le_antisymm; apply Nat.nlt_ge; intros [x Ex]%lookup_lt_is_Some_2.
  - pose proof (C (length A)) as Hc. rewrite Ex, lookup_ge_None_2 in Hc by done. done.
  - pose proof (C (length A')) as Hc. rewrite Ex, lookup_ge_None_2 in Hc by done. done.
Qed.

Lemma changed_cons s l g f A A1 A' :
  A !! s = Some f → s ∉ l → A1 = <[s := g f]> A → changed_at l g A1 A' → changed_at (s :: l) g A A'.
Proof.
  intros E Hs -> C s'. rewrite (C s'). destruct (decide (s' = s)) as [->|Hne].
  - rewrite (decide_False (P := s ∈ l)), (decide_True (P := s ∈ s :: l)) by (done || left).
    rewrite list_lookup_insert_eq, E by (by eapply lookup_lt_Some). done.
  - rewrite list_lookup_insert_ne by done. repeat case_decide; try done; exfalso; set_solver.
Qed.

Lemma changed_in l g A A' s f : changed_at l g A A' → A !! s = Some f → s ∈ l → A' !! s = Some (g f).
Proof. intros C E Hs. rewrite (C s), decide_True, E by done. done. Qed.
Lemma changed_out l g A A' s : changed_at l g A A' → s ∉ l → A' !! s = A !! s.
Proof. intros C Hs. rewrite (C s), decide_False by done. by rewrite option_fmap_id. Qed.

Lemma heap_changed σ σ' l g :
  changed_at l g (BufferPool.arena σ) (BufferPool.arena σ') →
  (∀ f, Frame.pid (g f) = Frame.pid f ∧ Frame.parent_link (g f) = Frame.parent_link f ∧ Frame.dirty (g f) = Frame.dirty f ∧
    Frame.page (g f) = Frame.page f) → heap_of σ' = heap_of σ.
Proof.
  intros C Hg. unfold heap_of. f_equal. apply list_eq. intros i. rewrite !list_lookup_imap, (C i).
  destruct (BufferPool.arena σ !! i) as [f|]; [|done]. cbn. case_decide; [|done]. by destruct (Hg f) as (-> & -> & -> & ->).
Qed.

Lemma changed_trans l g1 g2 A A1 A2 : changed_at l g1 A A1 → changed_at l g2 A1 A2 → changed_at l (g2 ∘ g1) A A2.
Proof. intros C1 C2 s. rewrite (C2 s), (C1 s), <-option_fmap_compose. by case_decide. Qed.

(** ** Pages handed to the store *)

Definition pinned f : Frame.t := Frame.with_pin_count f (wrap 32 (Frame.pin_count f + 1)).
Definition unpinned f : Frame.t := Frame.with_pin_count f (wrap 32 (Frame.pin_count f - 1)).
Definition cleaned f : Frame.t :=
  Frame.with_wal_buffer_offset (Frame.with_wal_buffer_epoch (Frame.with_has_page_image_base (Frame.with_dirty f false) true) 0) 0.

Lemma unpinned_pinned σ f : frame_local σ f → unpinned (pinned f) = f.
Proof.
  intros Hl. pose proof (fo_pin _ _ Hl) as Hp. unfold unpinned, pinned. cbn [Frame.pin_count Frame.with_pin_count]. unfold wrap.
  rewrite Zminus_mod_idemp_l. replace (Frame.pin_count f + 1 - 1) with (Frame.pin_count f) by lia.
  rewrite (Z.mod_small (Frame.pin_count f)) by exact Hp. by destruct f.
Qed.


(** From [σ] to [σ'] the pages [pages], those of the dirty frames [l], were
    handed to the store, which took them if [ok]; then the frames are clean. *)
Record wrote σ σ' (l : list nat) (pages : list (PageId * list byte)) (ok : bool) : Prop := {
  wr_free : BufferPool.free_list σ' = BufferPool.free_list σ;
  wr_table : BufferPool.page_table σ' = BufferPool.page_table σ;
  wr_next : BufferPool.next_page_id σ' = BufferPool.next_page_id σ;
  wr_owners : BufferPool.owners σ' = BufferPool.owners σ;
  wr_preparers : BufferPool.page_writeback_preparers σ' = BufferPool.page_writeback_preparers σ;
  wr_base : BufferPool.resident_base_pages σ' = BufferPool.resident_base_pages σ;
  wr_available : BufferPool.resident_base_pages_available σ' = BufferPool.resident_base_pages_available σ;
  wr_budget : BufferPool.eviction_budget σ' = BufferPool.eviction_budget σ;
  wr_flight : BufferPool.eviction_in_flight σ' = BufferPool.eviction_in_flight σ;
  wr_length : length (BufferPool.arena σ') = length (BufferPool.arena σ);
  wr_frames s f : BufferPool.arena σ !! s = Some f →
    BufferPool.arena σ' !! s = Some (if bool_decide (s ∈ l) && ok then cleaned f else f);
  wr_store : ps_ok (BufferPool.page_store σ');
  wr_keeps q : ps_pid_ok q → is_Some (disk σ q) → is_Some (disk σ' q);
  wr_other q : ps_pid_ok q → q ∉ pages.*1 → disk σ' q = disk σ q;
  wr_done pid d : ok = true → (pid, d) ∈ pages → disk σ' pid = Some d;
  wr_pages pid : pid ∈ pages.*1 → ∃ s f, s ∈ l ∧ BufferPool.arena σ !! s = Some f ∧ Frame.pid f = pid;
  wr_slots s : s ∈ l → ∃ f d, BufferPool.arena σ !! s = Some f ∧ Frame.state f ≠ Free ∧ Frame.dirty f = true ∧
    (Frame.pid f, d) ∈ pages ∧ prepared σ (Frame.page f) d;
}.

Lemma wrote_retouched h r σ σ' l pages ok : inv h r σ → wrote σ σ' l pages ok → retouched σ σ'.
Proof.
  intros I W. split; try apply W.
  - intros s f E. eexists. split; [by apply (wr_frames _ _ _ _ _ W)|]. by case_match.
  - intros q Hq Hn. apply (wr_other _ _ _ _ _ W); [done|]. intros (s & f & Hs & E & <-)%(wr_pages _ _ _ _ _ W).
    destruct (wr_slots _ _ _ _ _ W s Hs) as (f0 & d & E0 & Hf & _). rewrite E in E0. injection E0 as <-.
    rewrite (live_table _ _ _ _ _ I E Hf) in Hn. done.
Qed.

Lemma wrote_local h r σ σ' l pages ok s f :
  inv h r σ → wrote σ σ' l pages ok → BufferPool.arena σ !! s = Some f →
  frame_local σ' (if bool_decide (s ∈ l) && ok then cleaned f else f).
Proof.
  intros I W E. pose proof (fo_local _ _ (inv_frames _ _ _ I s f E)) as Hl.
  assert (Hv : ∀ q, valid_pid σ q → valid_pid σ' q) by (intros q; unfold valid_pid; by rewrite (wr_next _ _ _ _ _ W)).
  destruct (decide (s ∈ l)) as [Hs|Hs].
  - rewrite (bool_decide_eq_true_2 (s ∈ l)) by done. cbn [andb].
    destruct (wr_slots _ _ _ _ _ W s Hs) as (f0 & d & E0 & Hf & Hd & Hin & Hpr). rewrite E in E0. injection E0 as <-.
    destruct (fo_live _ _ Hl Hf) as (Hpid & Hsome & Hlsn & Hnode).
    assert (Hlive : valid_pid σ' (Frame.pid f) ∧ is_Some (disk σ' (Frame.pid f)) ∧
      Frame.page_lsn f = read_page_lsn (Frame.page f) ∧ (is_inner_index_page (Frame.page f) = true → node_ok (Frame.page f))).
    { split_and!; [by apply Hv| |done|done]. apply (wr_keeps _ _ _ _ _ W); [apply Hpid|done]. }
    destruct ok.
    + pose proof (wr_done _ _ _ _ _ W _ _ eq_refl Hin) as Hdisk. destruct Hl. split; try done.
      * intros _ _ Hi. exists d. split; [done|]. unfold preparers. rewrite (wr_preparers _ _ _ _ _ W). exact (written_prepares _ _ _ (pr_copy _ _ _ Hpr) Hi).
      * intros d' _ _ Hd' Hk. cbn in Hd'. rewrite Hdisk in Hd'. injection Hd' as <-. by apply (pr_kind _ _ _ Hpr).
      * intros d' _ _ Hd'. cbn in Hd'. rewrite Hdisk in Hd'. injection Hd' as <-. apply (pr_node _ _ _ Hpr).
    + destruct Hl. split; try done; intros; congruence.
  - rewrite (bool_decide_eq_false_2 (s ∈ l)) by done. cbn [andb]. destruct (decide (Frame.state f = Free)) as [Ef|Hf].
    { destruct Hl. by split. }
    eapply frame_local_ext, Hl; [|apply W|apply W]. apply (wr_other _ _ _ _ _ W); [by apply (fo_live _ _ Hl Hf)|].
    intros (s' & f' & Hs' & E' & Hp)%(wr_pages _ _ _ _ _ W).
    destruct (wr_slots _ _ _ _ _ W s' Hs') as (f0 & d & E0 & Hf' & _). rewrite E' in E0. injection E0 as <-.
    pose proof (live_table _ _ _ _ _ I E' Hf') as T'. rewrite Hp, (live_table _ _ _ _ _ I E Hf) in T'. congruence.
Qed.

Lemma inv_wrote h r σ σ' l pages ok : inv h r σ → wrote σ σ' l pages ok → inv h r σ'.
Proof.
  intros I W. pose proof (wrote_retouched _ _ _ _ _ _ _ I W) as R. eapply inv_retouched; [done|done|apply W|].
  intros s f' E'. destruct (retouched_back _ _ _ _ R E') as (f & E & _). pose proof (wr_frames _ _ _ _ _ W s f E) as Hf.
  rewrite E' in Hf. injection Hf as ->. by eapply wrote_local.
Qed.

Lemma steady_wrote h r σ σ' l pages ok :
  inv h r σ → wrote σ σ' l pages ok → BufferPool.free_page_allocator σ' = BufferPool.free_page_allocator σ →
  BufferPool.pending_reusable_extents σ' = BufferPool.pending_reusable_extents σ →
  (BufferPool.wal σ = None ↔ BufferPool.wal σ' = None) → (ordered_log → wal_rule σ → wal_rule σ') → steady σ σ'.
Proof.
  intros I W Ha Hp Hw Hr. pose proof (wrote_retouched _ _ _ _ _ _ _ I W) as R. split; try done; try apply W.
  - intros s f E Hf Hs. eexists. split; [by apply (wr_frames _ _ _ _ _ W)|].
    case_match; [|apply stays_refl]. split; try done. by left.
  - intros pid p Hok Ec. rewrite (retouched_content _ _ _ _ _ I R Hok), Ec. apply keeps_page_refl.
  - intros o ow. rewrite (wr_owners _ _ _ _ _ W). eauto.
Qed.

(** What was handed over is as the log allows, when the LSNs were durable. *)
Lemma wal_rule_note σ σ' pages :
  BufferPool.written σ' = BufferPool.written σ ++ map (λ '(pid, data), (pid, data, BufferPool.wal σ')) pages →
  (∀ w pid d, BufferPool.wal σ' = Some w → (pid, d) ∈ pages → log_is_lsn_durable w (read_page_lsn d) = true) →
  wal_rule σ → wal_rule σ'.
Proof.
  intros Hw Hd Hr. unfold wal_rule. rewrite Hw. apply Forall_app. split; [done|]. apply Forall_forall.
  intros [[pid d] ow] ([pid' d'] & [= -> -> ->] & Hin)%list_elem_of_fmap. destruct (BufferPool.wal σ') as [w|] eqn:Ew; [by eapply Hd|done].
Qed.

(** ** A batch *)

(** A page of a batch: that of a dirty frame, as it is written. *)
Record dirty_page_ok (mode : DirtyFlushMode) σ (pg : DirtyPage.t) f : Prop := {
  dp_frame : BufferPool.arena σ !! DirtyPage.bf pg = Some f;
  dp_state : Frame.state f = Resident;
  dp_dirty : Frame.dirty f = true;
  dp_latch : Frame.latch f = Unlatched;
  dp_pid : Frame.pid f = DirtyPage.pid pg;
  dp_lsn : Frame.page_lsn f = DirtyPage.page_lsn pg;
  dp_generation : Frame.dirty_generation f = DirtyPage.dirty_generation pg;
  dp_free : DirtyPage.pid pg ∉ BufferPool.dirty_flush_inflight σ;
  dp_copy : prepared σ (Frame.page f) (DirtyPage.copy pg);
  dp_durable w : mode = Background → BufferPool.wal σ = Some w → log_is_lsn_durable w (DirtyPage.page_lsn pg) = true;
}.

Definition slots (l : list DirtyPage.t) : list nat := DirtyPage.bf <$> l.
Definition pids (l : list DirtyPage.t) : gset PageId := list_to_set (DirtyPage.pid <$> l).

(** The pool with the pages of a batch claimed. *)
Definition claimed (l : list DirtyPage.t) σ (A : list Frame.t) : BufferPool.t :=
  BufferPool.with_dirty_flush_inflight (BufferPool.with_arena σ A) (pids l ∪ BufferPool.dirty_flush_inflight σ).

Lemma claimed_nil σ : claimed [] σ (BufferPool.arena σ) = σ.
Proof. unfold claimed, pids. cbn. rewrite (left_id_L ∅ (∪)). by destruct σ. Qed.

Lemma inv_pinned h r σ bf f (S : gset PageId) :
  inv h r σ → BufferPool.arena σ !! bf = Some f → Frame.state f ≠ Free →
  inv h r (BufferPool.with_dirty_flush_inflight (upd σ bf (pinned f)) S).
Proof.
  intros I E Hf. enough (I2 : inv h r (upd σ bf (pinned f))) by (eapply inv_ext; try done; apply I2).
  eapply inv_upd; [done|done| |done|].
  - split; [done|done|]. intros _. by left.
  - pose proof (fo_local _ _ (inv_frames _ _ _ I bf f E)) as []. split; try done. cbn. unfold wrap. apply Z.mod_pos_bound. lia.
Qed.

Lemma try_copy_spec h r σ bf mode :
  inv h r σ → (bf < length (BufferPool.arena σ))%nat →
  ends never (try_copy_dirty_resident_page bf mode) σ (λ o σ',
    match o with
    | None => σ' = σ
    | Some pg => ∃ f, dirty_page_ok mode σ pg f ∧ DirtyPage.bf pg = bf ∧ inv h r σ' ∧
        σ' = claimed [pg] σ (<[bf := pinned f]> (BufferPool.arena σ))
    end).
Proof.
  intros I [f E]%lookup_lt_is_Some_2. unfold try_copy_dirty_resident_page. pstep.
  case_bool_decide as Hst; cbn [negb]; [|by pstep]. destruct (Frame.dirty f) eqn:Hd; cbn [negb]; [|by pstep].
  assert (Hf : Frame.state f ≠ Free) by congruence.
  apply ends_bind. eapply ends_with_try_exclusive; [done|by intros _; pstep|]. intros Hu.
  set (fl := Frame.with_latch f ExclusiveHeld). pstep.
  change (Frame.state fl) with (Frame.state f). change (Frame.dirty fl) with (Frame.dirty f). rewrite Hd.
  rewrite bool_decide_eq_true_2 by done. cbn [negb orb].
  assert (Hback : Frame.with_latch fl Unlatched = f) by (unfold fl; rewrite <-Hu; by destruct f).
  assert (Hnone : ∃ f', BufferPool.arena (upd σ bf fl) !! bf = Some f' ∧ upd (upd σ bf fl) bf (Frame.with_latch f' Unlatched) = σ).
  { exists fl. split; [by eapply upd_lookup|]. by rewrite upd_upd, Hback, upd_same. }
  destruct Hnone as (fn & En & Hn). pstep. case_match eqn:Ebg; [pstep; exists fn; split; [done|]; by pstep|].
  pstep. destruct (bool_decide (Frame.pid fl ∈ _)) eqn:Hin; [pstep; exists fn; split; [done|]; by pstep|]. apply bool_decide_eq_false_1 in Hin. pstep.
  set (S := {[Frame.pid fl]} ∪ _). match goal with |- ends _ _ ?st _ => set (σ2 := st) end.
  assert (E2 : BufferPool.arena σ2 !! bf = Some fl) by (by eapply upd_lookup).
  assert (I1 : inv h r (upd σ bf fl)) by (eapply inv_flags; try done; apply (inv_frames _ _ _ I bf f E)).
  assert (I3 : inv h r (upd σ2 bf (pinned fl))).
  { change (upd σ2 bf (pinned fl)) with (BufferPool.with_dirty_flush_inflight (upd (upd σ bf fl) bf (pinned fl)) S).
    apply inv_pinned; [done|by eapply upd_lookup|done]. }
  destruct (prepare_spec h r (upd σ2 bf (pinned fl)) bf (pinned fl)) as (d & Ed & Hd'); [done|by eapply upd_lookup|done|].
  unfold pin. do 2 pstep. eapply ends_Fin; [by apply fset_eq|]. eapply ends_step; [exact Ed|]. pstep.
  exists (pinned fl). split; [by eapply upd_lookup|]. rewrite upd_upd. pstep.
  assert (Hpf : Frame.with_latch (pinned fl) Unlatched = pinned f) by (rewrite <-Hback; done). rewrite Hpf.
  exists f. split_and!.
  - split; try done.
    { eapply prepared_ext; [..|exact Hd']; [done| |].
      - rewrite (heap_upd σ2 bf fl) by done. change (heap_of (upd σ bf fl) = heap_of σ). by eapply heap_upd.
      - change (length (BufferPool.arena (upd σ2 bf (pinned fl)))) with (length (BufferPool.arena (upd (upd σ bf fl) bf (pinned fl)))).
        rewrite upd_upd. apply length_insert. }
    intros w -> Ew. cbn in Ebg. rewrite Ew in Ebg. by apply negb_false_iff in Ebg.
  - done.
  - change (upd σ2 bf (pinned f)) with (BufferPool.with_dirty_flush_inflight (upd (upd σ bf fl) bf (pinned f)) S).
    rewrite upd_upd. by apply inv_pinned.
  - unfold claimed, pids, upd, σ2, S, upd. cbn. by rewrite list_insert_insert_eq, (right_id_L ∅ (∪)).
Qed.
Lemma dirty_page_before mode σ pg f pg' f' :
  dirty_page_ok mode σ pg f →
  dirty_page_ok mode (claimed [pg] σ (<[DirtyPage.bf pg := pinned f]> (BufferPool.arena σ))) pg' f' →
  dirty_page_ok mode σ pg' f' ∧ DirtyPage.bf pg' ≠ DirtyPage.bf pg ∧ DirtyPage.pid pg' ≠ DirtyPage.pid pg.
Proof.
  intros D D'. pose proof (dp_free _ _ _ _ D') as Hin. unfold claimed, pids in Hin. cbn in Hin.
  assert (Hne : DirtyPage.pid pg' ≠ DirtyPage.pid pg) by set_solver.
  assert (Hbf : DirtyPage.bf pg' ≠ DirtyPage.bf pg).
  { intros Hbf. pose proof (dp_frame _ _ _ _ D') as E'. cbn in E'. rewrite Hbf, list_lookup_insert_eq in E'
      by (eapply lookup_lt_Some, (dp_frame _ _ _ _ D)). injection E' as <-.
    apply Hne. rewrite <-(dp_pid _ _ _ _ D'), <-(dp_pid _ _ _ _ D). done. }
  split_and!; [|done|done]. destruct D' as [E' ? ? ? ? ? ? ? Hp Hw]. cbn in E'. rewrite list_lookup_insert_ne in E' by done.
  split; try done; [set_solver|]. eapply prepared_ext; [..|exact Hp]; [done| |apply length_insert].
  change (heap_of (upd σ (DirtyPage.bf pg) (pinned f)) = heap_of σ). by eapply heap_upd; [apply D|..].
Qed.

Definition batch_ok mode σ (l : list DirtyPage.t) : Prop :=
  Forall (λ pg, ∃ f, dirty_page_ok mode σ pg f) l ∧ NoDup (slots l) ∧ NoDup (DirtyPage.pid <$> l).

Lemma collect_dirty_spec h r mode ss : ∀ n σ,
  inv h r σ → Forall (λ bf, (bf < length (BufferPool.arena σ))%nat) ss →
  ends never (collect_dirty mode n ss) σ (λ res σ', ∃ A, σ' = claimed res.1 σ A ∧ inv h r σ' ∧
    changed_at (slots res.1) pinned (BufferPool.arena σ) A ∧ batch_ok mode σ res.1).
Proof.
  assert (Hnil : ∀ σ : BufferPool.t, inv h r σ → ∃ A, σ = claimed [] σ A ∧ inv h r σ ∧
    changed_at (slots []) pinned (BufferPool.arena σ) A ∧ batch_ok mode σ []).
  { intros σ I. exists (BufferPool.arena σ). split_and!; [|done|apply changed_nil|].
    - by rewrite claimed_nil.
    - split; [done|split; apply NoDup_nil_2]. }
  induction ss as [|bf ss IH]; intros [|n] σ I Hss; try (apply ends_ret; by apply Hnil).
  apply Forall_cons in Hss as [Hbf Hss]. cbn [collect_dirty]. apply ends_bind.
  eapply ends_mono; [by eapply try_copy_spec|]. intros [pg|] σ1.
  - intros (f & D & <- & I1 & E1). apply ends_bind, ends_bind.
    assert (Hlen : length (BufferPool.arena σ1) = length (BufferPool.arena σ)) by (rewrite E1; apply length_insert).
    eapply ends_mono; [apply (IH n σ1 I1); by rewrite Hlen|]. intros [l k] σ2 (A & E2 & I2 & C2 & (Hall & Hn1 & Hn2)). cbn [fst snd] in *.
    apply ends_ret, ends_ret. exists A. cbn [fst].
    assert (Hall' : Forall (λ pg', (∃ f', dirty_page_ok mode σ pg' f') ∧ DirtyPage.bf pg' ≠ DirtyPage.bf pg ∧
      DirtyPage.pid pg' ≠ DirtyPage.pid pg) l).
    { eapply Forall_impl; [exact Hall|]. intros pg' (f' & D'). rewrite E1 in D'.
      destruct (dirty_page_before _ _ _ _ _ _ D D') as (? & ? & ?). eauto. }
    rewrite Forall_forall in Hall'.
    assert (Hnb : DirtyPage.bf pg ∉ slots l) by (intros (pg' & Hpg & Hl)%list_elem_of_fmap; by destruct (Hall' _ Hl) as (_ & ? & _)).
    split_and!; [|done| |split_and!].
    + rewrite E2, E1. unfold claimed, pids. cbn. f_equal. by rewrite (right_id_L ∅ (∪)), (assoc_L (∪)), (comm_L (∪) _ {[_]}).
    + rewrite E1 in C2. eapply changed_cons; [apply D|done|reflexivity|exact C2].
    + apply Forall_cons. split; [eauto|]. apply Forall_forall. intros pg' Hl. by destruct (Hall' _ Hl).
    + apply NoDup_cons. done.
    + apply NoDup_cons. split; [|done]. intros (pg' & Hpg & Hl)%list_elem_of_fmap. by destruct (Hall' _ Hl) as (_ & _ & ?).
  - intros ->. apply ends_bind. eapply ends_mono; [by apply (IH (S n))|]. intros [l k] σ2 Q. by apply ends_ret.
Qed.

(** The cleaning, and the release of the claims. *)
Lemma clear_eq σ bf f : BufferPool.arena σ !! bf = Some f → clear_frame_dirty_metadata bf σ = Fin tt (upd σ bf (cleaned f)).
Proof.
  intros E. unfold clear_frame_dirty_metadata.
  do 3 (erewrite bind_Fin; [|eapply fset_eq; frame_lookup]; rewrite ?upd_upd). erewrite fset_eq by frame_lookup. by rewrite upd_upd.
Qed.

Definition still_dirty σ (pg : DirtyPage.t) : Prop :=
  ∃ f, BufferPool.arena σ !! DirtyPage.bf pg = Some f ∧ Frame.state f = Resident ∧ Frame.pid f = DirtyPage.pid pg ∧
    Frame.dirty f = true ∧ Frame.dirty_generation f = DirtyPage.dirty_generation pg ∧ Frame.latch f = Unlatched.

Lemma clean_unchanged_spec σ pg : still_dirty σ pg →
  ∃ f, BufferPool.arena σ !! DirtyPage.bf pg = Some f ∧ clean_unchanged pg σ = Fin true (upd σ (DirtyPage.bf pg) (cleaned f)).
Proof.
  intros (f & E & Hs & Hp & Hd & Hg & Hu). exists f. split; [done|]. set (bf := DirtyPage.bf pg) in *.
  enough (Hends : ends never (clean_unchanged pg) σ (λ b σ', b = true ∧ σ' = upd σ bf (cleaned f))).
  { unfold ends in Hends. destruct (clean_unchanged pg σ); [by destruct Hends as [-> ->]|done|done]. }
  unfold clean_unchanged. fold bf. eapply ends_with_exclusive; [done|done|]. set (fl := Frame.with_latch f ExclusiveHeld). pstep.
  change (Frame.state fl) with (Frame.state f). change (Frame.pid fl) with (Frame.pid f). change (Frame.dirty fl) with (Frame.dirty f).
  change (Frame.dirty_generation fl) with (Frame.dirty_generation f).
  rewrite bool_decide_eq_true_2, Hp, Z.eqb_refl, Hd, Hg, Z.eqb_refl by done. cbn [andb].
  eapply ends_step; [eapply clear_eq, upd_lookup, E|]. rewrite upd_upd. pstep. exists (cleaned fl).
  split; [by eapply upd_lookup|]. rewrite upd_upd. split; [done|]. f_equal. unfold cleaned, fl. rewrite <-Hu. by destruct f.
Qed.

Lemma still_dirty_ne σ s f pg : still_dirty σ pg → s ≠ DirtyPage.bf pg → still_dirty (upd σ s f) pg.
Proof. intros (g & E & ?) Hne. exists g. by rewrite lookup_upd_ne. Qed.

Lemma clean_all_spec l : ∀ σ, Forall (still_dirty σ) l → NoDup (slots l) →
  ∃ A, clean_all l σ = Fin (zlen l) (BufferPool.with_arena σ A) ∧ changed_at (slots l) cleaned (BufferPool.arena σ) A.
Proof.
  induction l as [|pg l IH]; intros σ Hl Hn.
  - exists (BufferPool.arena σ). split; [by destruct σ|apply changed_nil].
  - apply Forall_cons in Hl as [Hpg Hl]. apply NoDup_cons in Hn as [Hni Hn].
    destruct (clean_unchanged_spec _ _ Hpg) as (f & E & Ec). destruct (IH (upd σ (DirtyPage.bf pg) (cleaned f))) as (A & EA & CA).
    { apply Forall_forall. intros pg' Hpg'. rewrite Forall_forall in Hl. apply still_dirty_ne; [by apply Hl|]. intros Heq. apply Hni.
      rewrite Heq. by apply list_elem_of_fmap_2. }
    { done. }
    exists A. split; [|by eapply changed_cons]. cbn [clean_all]. erewrite bind_Fin by done. erewrite bind_Fin by done.
    unfold zlen. cbn [length]. replace (Z.of_nat (S (length l))) with (Z.of_nat (length l) + 1) by lia. done.
Qed.

Lemma drops_spec l : ∀ σ, Forall (λ pg, is_Some (BufferPool.arena σ !! DirtyPage.bf pg)) l → NoDup (slots l) →
  ∃ A, each_do drop_dirty_page l σ =
    Fin tt (BufferPool.with_dirty_flush_inflight (BufferPool.with_arena σ A) (BufferPool.dirty_flush_inflight σ ∖ pids l)) ∧
    changed_at (slots l) unpinned (BufferPool.arena σ) A.
Proof.
  induction l as [|pg l IH]; intros σ Hl Hn.
  - exists (BufferPool.arena σ). split; [|apply changed_nil]. unfold pids. cbn. rewrite difference_empty_L. by destruct σ.
  - apply Forall_cons in Hl as [[f E] Hl]. apply NoDup_cons in Hn as [Hni Hn]. set (bf := DirtyPage.bf pg) in *.
    set (σ1 := BufferPool.with_dirty_flush_inflight σ (BufferPool.dirty_flush_inflight σ ∖ {[DirtyPage.pid pg]})).
    assert (E1 : BufferPool.arena σ1 !! bf = Some f) by done.
    assert (Ed : drop_dirty_page pg σ = Fin tt (upd σ1 bf (unpinned f))).
    { unfold drop_dirty_page, unpin. rewrite (bind_Fin _ _ tt σ σ1) by done. erewrite bind_Fin by (by apply fget_eq).
      by erewrite fset_eq. }
    destruct (IH (upd σ1 bf (unpinned f))) as (A & EA & CA); [|done|].
    { apply Forall_forall. intros pg' Hpg'. rewrite Forall_forall in Hl. rewrite lookup_upd_ne; [by apply Hl|].
      intros Heq. apply Hni. fold bf. rewrite Heq. by apply list_elem_of_fmap_2. }
    exists A. split; [|by eapply changed_cons]. cbn [each_do]. erewrite bind_Fin by done. rewrite EA. cbn. unfold pids. cbn.
    by rewrite difference_difference_l_L.
Qed.
(** The writing of a batch. *)
Definition batch_pages (l : list DirtyPage.t) : list (PageId * list byte) :=
  map (λ pg, (DirtyPage.pid pg, DirtyPage.copy pg)) l.

Definition flushed_for (mode : DirtyFlushMode) (l : list DirtyPage.t) (o : option wal_t) : option wal_t :=
  if bool_decide (mode = Foreground) && (0 <? max_lsn l) then log_flush_at_least (max_lsn l) <$> o else o.

Lemma flush_wal_eq σ lsn : flush_wal_to lsn σ = Fin tt (BufferPool.with_wal σ (log_flush_at_least lsn <$> BufferPool.wal σ)).
Proof.
  unfold flush_wal_to, pget, mbind, PM_bind. destruct (BufferPool.wal σ) eqn:E; [done|]. cbn. rewrite <-E. by destruct σ.
Qed.

(** The pool after the store was called with the log at [o]. *)
Definition handed (pages : list (PageId * list byte)) (o : option wal_t) (s : ps) σ : BufferPool.t :=
  BufferPool.with_page_store (BufferPool.with_written (BufferPool.with_wal σ o)
    (BufferPool.written σ ++ map (λ '(pid, data), (pid, data, o)) pages)) s.

Definition storable σ (pages : list (PageId * list byte)) : Prop :=
  NoDup pages.*1 ∧ Forall (λ '(pid, d), ps_pid_ok pid ∧ is_Some (disk σ pid) ∧ zlen d = PAGE_SIZE) pages.

Lemma batch_pages_fst l : (batch_pages l).*1 = DirtyPage.pid <$> l.
Proof. unfold batch_pages. change (map ?g l) with (g <$> l). by rewrite <-list_fmap_compose. Qed.

Lemma store_spec (m : list (PageId * list byte) → IO ps unit) σ pages o :
  writes_pages m → ps_ok (BufferPool.page_store σ) → storable σ pages →
  ∃ res s, (∀ A, BufferPool.wal σ = o → (_ ← note_written pages; on_store (m pages)) (BufferPool.with_arena σ A) =
      Fin res (BufferPool.with_arena (handed pages o s σ) A)) ∧
    ps_ok s ∧ (∀ q, ps_pid_ok q → is_Some (disk σ q) → is_Some (ps_page s q)) ∧
    (∀ q, ps_pid_ok q → q ∉ pages.*1 → ps_page s q = disk σ q) ∧
    (res = Ok tt → ∀ pid d, (pid, d) ∈ pages → ps_page s pid = Some d).
Proof.
  intros Hm Hok [Hn Hp]. destruct (Hm _ _ Hok Hn Hp) as (res & s & Es & Hs & Hk & Ho & Hd).
  exists res, s. split_and!; [|done|done|done|done]. intros A <-. unfold note_written, pput, on_store, mbind, PM_bind. cbn.
  rewrite Es. done.
Qed.

(** The two calls, as one step. *)
Lemma assoc_bind_store {B} pages (m : list (PageId * list byte) → IO ps unit) (k : io_result unit → PM B) σ :
  ((_ ← note_written pages; on_store (m pages)) ≫= k) σ = (_ ← note_written pages; r ← on_store (m pages); k r) σ.
Proof. unfold mbind, PM_bind. by destruct (note_written pages σ). Qed.

Lemma write_batch_spec mode l σ :
  ps_ok (BufferPool.page_store σ) → storable σ (batch_pages l) → Forall (still_dirty σ) l → NoDup (slots l) →
  ∃ res A s, write_batch mode l σ = Fin res (BufferPool.with_arena (handed (batch_pages l) (flushed_for mode l (BufferPool.wal σ)) s σ) A) ∧
    ps_ok s ∧ (∀ q, ps_pid_ok q → is_Some (disk σ q) → is_Some (ps_page s q)) ∧
    (∀ q, ps_pid_ok q → q ∉ (batch_pages l).*1 → ps_page s q = disk σ q) ∧
    match res with
    | Ok n => n = zlen l ∧ changed_at (slots l) cleaned (BufferPool.arena σ) A ∧
        ∀ pid d, (pid, d) ∈ batch_pages l → ps_page s pid = Some d
    | Err _ => A = BufferPool.arena σ
    end.
Proof.
  intros Hok Hst Hsd Hn. unfold write_batch. set (o := flushed_for mode l (BufferPool.wal σ)). set (σ1 := BufferPool.with_wal σ o).
  rewrite (bind_Fin _ _ tt σ σ1); cycle 1.
  { unfold σ1, o, flushed_for. case_match; [apply flush_wal_eq|]. by destruct σ. }
  fold (batch_pages l).
  destruct (store_spec store_write_pages σ1 (batch_pages l) o store_write_pages_ok Hok Hst) as (res & s & Es & Hs & Hk & Ho & Hd).
  specialize (Es (BufferPool.arena σ) eq_refl). change (BufferPool.with_arena σ1 (BufferPool.arena σ)) with σ1 in Es.
  set (σ2 := BufferPool.with_arena (handed (batch_pages l) o s σ1) (BufferPool.arena σ)) in Es.
  rewrite <-assoc_bind_store. erewrite bind_Fin by exact Es. destruct res as [[]|e].
  - destruct (clean_all_spec l σ2) as (A & EA & CA); [|done|].
    { eapply Forall_impl; [exact Hsd|]. done. }
    exists (Ok (zlen l)), A, s. split_and!; try done; [|by apply Hd]. by erewrite bind_Fin by done.
  - exists (Err e), (BufferPool.arena σ), s. split_and!; done.
Qed.

Lemma max_lsn_ge l pg : pg ∈ l → DirtyPage.page_lsn pg ≤ max_lsn l.
Proof. induction l as [|x l IH]; [by intros ?%not_elem_of_nil|]. intros [->|Hin]%elem_of_cons; cbn; [lia|]. specialize (IH Hin). unfold max_lsn in *. lia. Qed.

Lemma flushed_durable mode σ l pg f w :
  batch_ok mode σ l → pg ∈ l → dirty_page_ok mode σ pg f → 0 ≤ DirtyPage.page_lsn pg → mode = Background ∨ ordered_log →
  flushed_for mode l (BufferPool.wal σ) = Some w → log_is_lsn_durable w (DirtyPage.page_lsn pg) = true.
Proof.
  intros _ Hin D Hpos Hm. pose proof (max_lsn_ge _ _ Hin) as Hmax. unfold flushed_for. destruct mode; cbn.
  - destruct Hm as [?|Ho]; [done|]. destruct (Z.ltb_spec 0 (max_lsn l)).
    + destruct (BufferPool.wal σ) as [w0|]; [|done]. cbn. intros [= <-]. by apply flush_in_order.
    + intros _. replace (DirtyPage.page_lsn pg) with 0 by lia. apply durable_zero.
  - intros Hw. by eapply D.
Qed.
Lemma page_lsn_nonneg p : 0 ≤ read_page_lsn p.
Proof. unfold read_page_lsn. case_match; [|done]. apply of_le_bytes_range. Qed.

(** *** The whole batch *)

Lemma inv_dirty_hand h r σ n : inv h r σ → inv h r (BufferPool.with_dirty_flush_hand σ n).
Proof. intros I. eapply inv_ext; try done; apply I. Qed.

Lemma batch_storable h r mode σ l : inv h r σ → batch_ok mode σ l → storable σ (batch_pages l).
Proof.
  intros I (Hall & _ & Hn). split; [by rewrite batch_pages_fst|]. apply Forall_forall. intros [pid d] (pg & [= -> ->] & Hin)%list_elem_of_fmap.
  rewrite Forall_forall in Hall. destruct (Hall _ Hin) as (f & D). rewrite <-(dp_pid _ _ _ _ D).
  pose proof (fo_local _ _ (inv_frames _ _ _ I _ _ (dp_frame _ _ _ _ D))) as Hl.
  destruct (fo_live _ _ Hl) as ((_ & _ & ?) & ? & _); [rewrite (dp_state _ _ _ _ D); done|]. split_and!; [done|done|apply D].
Qed.

Lemma batch_still_dirty mode σ l A σ' : batch_ok mode σ l → changed_at (slots l) pinned (BufferPool.arena σ) A →
  BufferPool.arena σ' = A → Forall (still_dirty σ') l.
Proof.
  intros (Hall & _ & _) C EA. apply Forall_forall. intros pg Hin. rewrite Forall_forall in Hall. destruct (Hall _ Hin) as (f & []).
  exists (pinned f). rewrite EA. split_and!; try done. eapply changed_in; [done|done|]. by apply list_elem_of_fmap_2.
Qed.

(** Pinned, cleaned if written, and unpinned again. *)
Lemma batch_arena h r mode σ l A2 A3 A4 (ok : bool) s f :
  inv h r σ → batch_ok mode σ l → changed_at (slots l) pinned (BufferPool.arena σ) A2 →
  (if ok then changed_at (slots l) cleaned A2 A3 else A3 = A2) → changed_at (slots l) unpinned A3 A4 →
  BufferPool.arena σ !! s = Some f → A4 !! s = Some (if bool_decide (s ∈ slots l) && ok then cleaned f else f).
Proof.
  intros I B C2 C3 C4 E. pose proof (fo_local _ _ (inv_frames _ _ _ I s f E)) as Hl. case_bool_decide as Hs; cbn [andb].
  - pose proof (changed_in _ _ _ _ _ _ C2 E Hs) as E2. pose proof (unpinned_pinned _ _ Hl) as Hup. destruct ok.
    + pose proof (changed_in _ _ _ _ _ _ C3 E2 Hs) as E3. rewrite (changed_in _ _ _ _ _ _ C4 E3 Hs). f_equal.
      rewrite <-Hup at 2. done.
    + subst A3. by rewrite (changed_in _ _ _ _ _ _ C4 E2 Hs), Hup.
  - rewrite (changed_out _ _ _ _ _ C4 Hs). destruct ok.
    + by rewrite (changed_out _ _ _ _ _ C3 Hs), (changed_out _ _ _ _ _ C2 Hs).
    + subst A3. by rewrite (changed_out _ _ _ _ _ C2 Hs).
Qed.

Definition is_ok {A} (res : io_result A) : bool := if res is Ok _ then true else false.

(** What a batch did. *)
Record batched (mode : DirtyFlushMode) h r σ (res : io_result Z) σ' : Prop := {
  bt_inv : inv h r σ';
  bt_quiet : quiet [] h σ σ';
  bt_wal : mode = Background ∨ ordered_log → wal_rule σ → wal_rule σ';
  bt_wrote : ∃ l pages, wrote σ σ' l pages (is_ok res) ∧ ∀ n, res = Ok n → n = zlen l;
  bt_written : ∃ l, batch_ok mode σ l ∧ BufferPool.written σ' = BufferPool.written σ ++
    map (λ '(pid, d), (pid, d, flushed_for mode l (BufferPool.wal σ))) (batch_pages l);
}.

Lemma wrote_nothing h r σ σ' :
  inv h r σ → BufferPool.arena σ' = BufferPool.arena σ → BufferPool.page_store σ' = BufferPool.page_store σ →
  BufferPool.free_list σ' = BufferPool.free_list σ → BufferPool.page_table σ' = BufferPool.page_table σ →
  BufferPool.next_page_id σ' = BufferPool.next_page_id σ → BufferPool.owners σ' = BufferPool.owners σ →
  BufferPool.page_writeback_preparers σ' = BufferPool.page_writeback_preparers σ →
  BufferPool.resident_base_pages σ' = BufferPool.resident_base_pages σ →
  BufferPool.resident_base_pages_available σ' = BufferPool.resident_base_pages_available σ →
  BufferPool.eviction_budget σ' = BufferPool.eviction_budget σ → BufferPool.eviction_in_flight σ' = BufferPool.eviction_in_flight σ →
  wrote σ σ' [] [] true.
Proof.
  intros I Ea Es. intros. split; try done; unfold disk; rewrite ?Ea, ?Es; try done; try apply I.
  - by intros pid d _ ?%not_elem_of_nil.
  - by intros pid ?%not_elem_of_nil.
  - by intros s ?%not_elem_of_nil.
Qed.

Lemma batched_nothing mode h r σ σ' :
  inv h r σ → inv h r σ' → quiet [] h σ σ' → wrote σ σ' [] [] true → BufferPool.written σ' = BufferPool.written σ →
  batched mode h r σ (Ok 0) σ'.
Proof.
  intros I I' Q W Hw. split; [done|done| | |].
  - intros _. unfold wal_rule. by rewrite Hw.
  - exists [], []. split; [done|]. by intros n [= <-].
  - exists []. split; [split; [done|split; apply NoDup_nil_2]|]. by rewrite Hw, app_nil_r.
Qed.

Lemma batched_some mode h r σ σ' l s A (o : option wal_t) (res : io_result Z) :
  inv h r σ → batch_ok mode σ l → o = flushed_for mode l (BufferPool.wal σ) →
  σ' = BufferPool.with_dirty_flush_hand (BufferPool.with_arena (handed (batch_pages l) o s σ) A) (BufferPool.dirty_flush_hand σ') →
  length A = length (BufferPool.arena σ) →
  (∀ bf f, BufferPool.arena σ !! bf = Some f → A !! bf = Some (if bool_decide (bf ∈ slots l) && is_ok res then cleaned f else f)) →
  ps_ok s → (∀ q, ps_pid_ok q → is_Some (disk σ q) → is_Some (ps_page s q)) →
  (∀ q, ps_pid_ok q → q ∉ (batch_pages l).*1 → ps_page s q = disk σ q) →
  (is_ok res = true → res = Ok (zlen l) ∧ ∀ pid d, (pid, d) ∈ batch_pages l → ps_page s pid = Some d) →
  batched mode h r σ res σ'.
Proof.
  intros I B Eo E' HlA HA Hs Hk Ho Hd. pose proof B as (Hall & _ & _). rewrite Forall_forall in Hall.
  assert (W : wrote σ σ' (slots l) (batch_pages l) (is_ok res)).
  { rewrite E'. split; try done.
    - intros pid d Hok. by apply Hd.
    - intros pid. rewrite batch_pages_fst. intros (pg & -> & Hin)%list_elem_of_fmap. destruct (Hall _ Hin) as (f & D).
      exists (DirtyPage.bf pg), f. split_and!; [by apply list_elem_of_fmap_2|apply D|apply D].
    - intros bf (pg & -> & Hin)%list_elem_of_fmap. destruct (Hall _ Hin) as (f & D). exists f, (DirtyPage.copy pg).
      split_and!; [apply D|rewrite (dp_state _ _ _ _ D); done|apply D| |apply D]. rewrite (dp_pid _ _ _ _ D).
      by apply (list_elem_of_fmap_2 (λ pg, (DirtyPage.pid pg, DirtyPage.copy pg))). }
  assert (Hr : mode = Background ∨ ordered_log → wal_rule σ → wal_rule σ').
  { intros Hm. apply (wal_rule_note _ _ (batch_pages l)); [by rewrite E'|]. intros w pid d. rewrite E'. cbn.
    intros Ew (pg & [= -> ->] & Hin)%list_elem_of_fmap. destruct (Hall _ Hin) as (f & D). rewrite (pr_lsn _ _ _ (dp_copy _ _ _ _ D)).
    pose proof (fo_local _ _ (inv_frames _ _ _ I _ _ (dp_frame _ _ _ _ D))) as Hl.
    destruct (fo_live _ _ Hl) as (_ & _ & Hlsn & _); [rewrite (dp_state _ _ _ _ D); done|].
    rewrite <-Hlsn, (dp_lsn _ _ _ _ D). rewrite Eo in Ew. eapply flushed_durable; try done.
    rewrite <-(dp_lsn _ _ _ _ D), Hlsn. apply page_lsn_nonneg. }
  split; [by eapply inv_wrote| |done| |].
  - split; try (by rewrite E').
    + eapply steady_wrote; [done|done|by rewrite E'..| |by auto]. rewrite E'. cbn. rewrite Eo. unfold flushed_for. case_match; [|done].
      by destruct (BufferPool.wal σ).
    + intros bf f E Hx [Hbf|Hbf]; rewrite E'; cbn; rewrite (HA bf f E); f_equal; case_bool_decide as Hin; try done;
        apply list_elem_of_fmap in Hin as (pg & -> & Hin); destruct (Hall _ Hin) as (f0 & D);
        pose proof (dp_frame _ _ _ _ D) as E0; rewrite E in E0; injection E0 as <-.
      * destruct (inv_held _ _ _ I _ Hbf) as (f1 & E1 & Hf1). rewrite E in E1. injection E1 as <-. by rewrite (dp_state _ _ _ _ D) in Hf1.
      * rewrite (dp_state _ _ _ _ D), (dp_latch _ _ _ _ D) in Hbf. by destruct Hbf.
    + intros bf _ Hc g Eg. destruct (retouched_back σ σ' bf g (wrote_retouched _ _ _ _ _ _ _ I W) Eg) as (f & E & _).
      rewrite (wr_frames _ _ _ _ _ W bf f E) in Eg. injection Eg as <-. case_match; cbn; by apply Hc.
    + intros bf f g E Eg. rewrite (wr_frames _ _ _ _ _ W bf f E) in Eg. injection Eg as <-. by case_match.
    + intros bf pid (g & Eg & Hg & <-). destruct (retouched_back σ σ' bf g (wrote_retouched _ _ _ _ _ _ _ I W) Eg) as (f & E & Hst & Hp & _).
      exists f. split_and!; [done|congruence|done].
    + intros pid p Hok Ec. rewrite (retouched_content _ _ _ _ _ I (wrote_retouched _ _ _ _ _ _ _ I W) Hok), Ec. apply keeps_page_refl.
  - exists (slots l), (batch_pages l). split; [done|]. intros n ->. destruct (Hd eq_refl) as [[= ->] _]. unfold zlen, slots. by rewrite length_fmap.
  - exists l. split; [done|]. by rewrite E', Eo.
Qed.
Lemma batched_hand mode h r σ n res σ' :
  batched mode h r (BufferPool.with_dirty_flush_hand σ n) res σ' → batched mode h r σ res σ'.
Proof.
  intros [I Q Hw (l & pages & W & Hn) (l' & (Hall & Hb) & Hwr)]. split; [done| |done| |].
  - etrans; [|exact Q]. apply quiet_ext; try done. apply steady_ext; try done. eauto.
  - exists l, pages. split; [|done]. destruct W. split; try done. intros s Hs.
    destruct (wr_slots0 s Hs) as (f & d & ? & ? & ? & ? & []). exists f, d. by split_and!.
  - exists l'. split; [|done]. split; [|done]. eapply Forall_impl; [exact Hall|]. intros pg (f & []). exists f. split; try done.
    by eapply prepared_ext; [..|exact dp_copy0].
Qed.

Lemma claims_released l σ (S : gset PageId) : batch_ok Foreground σ l ∨ batch_ok Background σ l →
  S = pids l ∪ BufferPool.dirty_flush_inflight σ → S ∖ pids l = BufferPool.dirty_flush_inflight σ.
Proof.
  intros B ->. enough (Hd : pids l ## BufferPool.dirty_flush_inflight σ) by set_solver. intros x Hx Hin.
  apply elem_of_list_to_set, list_elem_of_fmap in Hx as (pg & -> & Hpg).
  destruct B as [(Hall & _)|(Hall & _)]; rewrite Forall_forall in Hall; destruct (Hall _ Hpg) as (f & D); by apply (dp_free _ _ _ _ D).
Qed.

Lemma try_flush_dirty_batch_inner_spec h r σ n mode :
  inv h r σ → ends never (try_flush_dirty_batch_inner n mode) σ (batched mode h r σ).
Proof.
  intros I. assert (Hno : batched mode h r σ (Ok 0) σ) by (apply batched_nothing; try done; by eapply wrote_nothing).
  unfold try_flush_dirty_batch_inner. case_match eqn:En; [by pstep|]. pstep. case_match eqn:Es; [by pstep|].
  unfold advance_hand. do 4 pstep. set (σ1 := BufferPool.with_dirty_flush_hand σ _).
  assert (I1 : inv h r σ1) by (by apply inv_dirty_hand). eapply ends_mono; [|intros; by eapply batched_hand]. fold σ1. clear Hno.
  apply ends_bind. eapply ends_mono; [apply (collect_dirty_spec h r); [done|]|].
  { apply sweep_lt. apply Nat.eqb_neq in Es. unfold allocated_slots in *. lia. }
  intros [l k] σ2 (A2 & E2 & I2 & C2 & B). cbn [fst] in *. do 4 pstep.
  match goal with |- ends _ _ ?st _ => set (σ3 := st) end. case_match eqn:El.
  - pstep. apply Nat.eqb_eq, nil_length_inv in El. subst l σ3 σ2.
    assert (HA : A2 = BufferPool.arena σ1) by (apply list_eq; intros s; by apply (changed_out _ _ _ _ _ C2), not_elem_of_nil).
    rewrite HA, claimed_nil. apply batched_nothing; try done.
    + by apply inv_dirty_hand.
    + apply quiet_ext; try done. apply steady_ext; try done. eauto.
    + by eapply wrote_nothing.
  - assert (I3 : inv h r σ3) by (by apply inv_dirty_hand). subst σ2.
    destruct (write_batch_spec mode l σ3) as (res & A3 & s & Ew & Hs & Hk & Ho & Hres); [apply I3|exact (batch_storable h r mode σ1 l I1 B)| | |].
    { by eapply batch_still_dirty. } { apply B. }
    eapply ends_step; [exact Ew|]. set (σ4 := BufferPool.with_arena _ A3) in *.
    assert (C3 : if is_ok res then changed_at (slots l) cleaned A2 A3 else A3 = A2) by (destruct res; [apply Hres|done]).
    assert (Hl3 : length A3 = length A2) by (destruct (is_ok res); [by eapply changed_length|by rewrite C3]).
    destruct (drops_spec l σ4) as (A4 & E4 & C4); [|apply B|].
    { apply Forall_forall. intros pg Hpg. apply lookup_lt_is_Some. cbn. rewrite Hl3, (changed_length _ _ _ _ C2).
      destruct B as (Hall & _). rewrite Forall_forall in Hall. destruct (Hall _ Hpg) as (f & D). eapply lookup_lt_Some, D. }
    eapply ends_step; [exact E4|]. pstep.
    eapply (batched_some _ _ _ _ _ l s A4); [done|done|reflexivity| | | |done|done|done|].
    + rewrite (claims_released l σ1 (BufferPool.dirty_flush_inflight σ4)); [done|destruct mode; auto|done].
    + rewrite (changed_length _ _ _ _ C4). cbn. by rewrite Hl3, (changed_length _ _ _ _ C2).
    + intros bf f E. by apply (batch_arena h r mode σ1 l A2 A3 A4 (is_ok res)).
    + intros Hok. destruct res; [|done]. destruct Hres as (-> & _ & Hd). done.
Qed.
(** ** The flush of all dirty pages *)

Definition latched f : Frame.t := Frame.with_latch f ExclusiveHeld.
Definition unlatched f : Frame.t := Frame.with_latch f Unlatched.
Definition no_latches σ : Prop := ∀ s f, BufferPool.arena σ !! s = Some f → Frame.latch f = Unlatched.

(** The log moved on: what was durable is. *)
Definition log_after (o o' : option wal_t) : Prop :=
  match o, o' with
  | None, None => True
  | Some w, Some w' => ∀ lsn, log_is_lsn_durable w lsn = true → log_is_lsn_durable w' lsn = true
  | _, _ => False
  end.

Lemma log_after_refl o : log_after o o.
Proof. destruct o; cbn; auto. Qed.
Lemma log_after_trans o1 o2 o3 : log_after o1 o2 → log_after o2 o3 → log_after o1 o3.
Proof. destruct o1, o2, o3; cbn; naive_solver. Qed.
Lemma log_after_flush_at_least o lsn : log_after o (log_flush_at_least lsn <$> o).
Proof. destruct o; cbn; [|done]. intros l. apply flush_at_least_keeps. Qed.
Lemma log_after_flush o : log_after o (log_flush <$> o).
Proof. destruct o; cbn; [|done]. intros l. apply flush_keeps. Qed.
Lemma log_after_None o o' : log_after o o' → (o = None ↔ o' = None).
Proof. by destruct o, o'. Qed.

(** A loop that changes each frame of a list. *)
Lemma each_do_changed (m : nat → PM unit) g l : ∀ σ,
  (∀ σ s f, BufferPool.arena σ !! s = Some f → m s σ = Fin tt (upd σ s (g f))) →
  Forall (λ s, (s < length (BufferPool.arena σ))%nat) l → NoDup l →
  ∃ A, each_do m l σ = Fin tt (BufferPool.with_arena σ A) ∧ changed_at l g (BufferPool.arena σ) A.
Proof.
  induction l as [|s l IH]; intros σ Hm Hl Hn.
  - exists (BufferPool.arena σ). split; [by destruct σ|apply changed_nil].
  - apply Forall_cons in Hl as [[f E]%lookup_lt_is_Some_2 Hl]. apply NoDup_cons in Hn as [Hni Hn].
    destruct (IH (upd σ s (g f))) as (A & EA & CA); [done|cbn; by rewrite length_insert|done|].
    exists A. split; [|by eapply changed_cons]. cbn [each_do]. erewrite bind_Fin by (by apply Hm). done.
Qed.

Lemma inv_relatched h r σ l v A o : inv h r σ → changed_at l (λ f, Frame.with_latch f v) (BufferPool.arena σ) A →
  inv h r (BufferPool.with_wal (BufferPool.with_arena σ A) o).
Proof.
  intros I C. eapply inv_retouched; [done| |apply I|].
  - split; try done; [by eapply changed_length|]. intros s f E. cbn. rewrite (C s), E. eexists. split; [done|]. by case_decide.
  - intros s f'. cbn. rewrite (C s). intros (f & E & ->)%fmap_Some.
    pose proof (fo_local _ _ (inv_frames _ _ _ I s f E)) as []. case_decide; by split.
Qed.

Definition dirty_slot σ (s : nat) : Prop :=
  ∃ f, BufferPool.arena σ !! s = Some f ∧ Frame.state f ≠ Free ∧ Frame.dirty f = true.

Lemma dirty_slot_ne σ σ' s : BufferPool.arena σ' !! s = BufferPool.arena σ !! s → dirty_slot σ' s ↔ dirty_slot σ s.
Proof. unfold dirty_slot. by intros ->. Qed.

Lemma latch_dirty_spec ss : ∀ σ,
  Forall (λ s, ∃ f, BufferPool.arena σ !! s = Some f ∧ Frame.latch f = Unlatched ∧ (Frame.state f ≠ Free → 0 ≤ Frame.page_lsn f)) ss → NoDup ss →
  ∃ l A o, latch_dirty ss σ = Fin l (BufferPool.with_wal (BufferPool.with_arena σ A) o) ∧
    changed_at l latched (BufferPool.arena σ) A ∧ NoDup l ∧ (∀ s, s ∈ l ↔ s ∈ ss ∧ dirty_slot σ s) ∧
    log_after (BufferPool.wal σ) o ∧
    (∀ w s f, o = Some w → s ∈ l → BufferPool.arena σ !! s = Some f → log_is_lsn_durable w (Frame.page_lsn f) = true).
Proof.
  induction ss as [|s ss IH]; intros σ Hss Hn.
  { exists [], (BufferPool.arena σ), (BufferPool.wal σ). split_and!; [by destruct σ|apply changed_nil|apply NoDup_nil_2| |apply log_after_refl|].
    - intros s. split; [by intros ?%not_elem_of_nil|by intros [?%not_elem_of_nil _]].
    - by intros w s f _ ?%not_elem_of_nil. }
  apply Forall_cons in Hss as [(f & E & Hu & Hlsn) Hss]. apply NoDup_cons in Hn as [Hni Hn]. cbn [latch_dirty].
  erewrite bind_Fin by (by apply frame_at_eq). destruct (bool_decide _ || negb _) eqn:Ed.
  { destruct (IH σ Hss Hn) as (l & A & o & El & C & Hnl & Hl & Ho & Hd). exists l, A, o. split_and!; try done. intros s'. rewrite Hl, elem_of_cons.
    split; [intros [? ?]; split; [by right|done]|]. intros [[->|?] (f' & E' & Hf & Hdf)]; [|split; [done|by exists f']].
    rewrite E in E'. injection E' as <-. apply orb_true_iff in Ed as [?%bool_decide_eq_true_1|?%negb_true_iff]; congruence. }
  apply orb_false_iff in Ed as [Hf%bool_decide_eq_false_1 Hdf%negb_false_iff].
  set (σ1 := upd σ s (latched f)). assert (E1 : BufferPool.arena σ1 !! s = Some (latched f)) by (by eapply upd_lookup).
  rewrite (bind_Fin _ _ tt σ σ1); cycle 1.
  { unfold lock_exclusive. erewrite bind_Fin by (by rewrite (try_lock_eq _ _ _ E), decide_True). done. }
  erewrite bind_Fin by (by apply frame_at_eq). change (Frame.dirty (latched f)) with (Frame.dirty f). rewrite Hdf. cbn [negb].
  change (Frame.page_lsn (latched f)) with (Frame.page_lsn f).
  set (o1 := if 0 <? Frame.page_lsn f then log_flush_at_least (Frame.page_lsn f) <$> BufferPool.wal σ else BufferPool.wal σ).
  rewrite (bind_Fin _ _ tt σ1 (BufferPool.with_wal σ1 o1)); cycle 1.
  { unfold o1. case_match; [exact (flush_wal_eq σ1 _)|]. done. }
  destruct (IH (BufferPool.with_wal σ1 o1)) as (l & A & o & El & C & Hnl & Hl & Ho & Hd); [|done|].
  { apply Forall_forall. intros s' Hs'. rewrite Forall_forall in Hss. destruct (Hss _ Hs') as (f' & E' & ?). exists f'. split; [|done].
    change (BufferPool.arena σ1 !! s' = Some f'). unfold σ1. rewrite lookup_upd_ne; [done|]. by intros <-. }
  assert (Hsl : s ∉ l) by (intros [? _]%Hl; done).
  exists (s :: l), A, o. split_and!.
  - erewrite bind_Fin by done. done.
  - eapply changed_cons; [done|done|reflexivity|exact C].
  - by apply NoDup_cons.
  - intros s'. rewrite !elem_of_cons, Hl. destruct (decide (s' = s)) as [->|Hne].
    + split; [|by left]. intros _. split; [by left|]. by exists f.
    + rewrite (dirty_slot_ne σ (BufferPool.with_wal σ1 o1)) by (by apply lookup_upd_ne). naive_solver.
  - eapply log_after_trans; [|exact Ho]. cbn. unfold o1. case_match; [apply log_after_flush_at_least|apply log_after_refl].
  - intros w s' f' Hw [->|Hs']%elem_of_cons E'.
    + rewrite E in E'. injection E' as <-. subst o. cbn in Ho. unfold o1 in Ho. destruct (BufferPool.wal σ) as [w0|]; [|by case_match].
      destruct (Z.ltb_spec 0 (Frame.page_lsn f)); cbn in Ho; [apply Ho, flush_at_least_makes|].
      specialize (Hlsn Hf). replace (Frame.page_lsn f) with 0 by lia. apply Ho, durable_zero.
    + eapply Hd; [done|done|]. change (BufferPool.arena σ1 !! s' = Some f'). unfold σ1. rewrite lookup_upd_ne; [done|]. by intros <-.
Qed.

Lemma page_copies_spec h r σ l : inv h r σ → Forall (dirty_slot σ) l →
  ∃ pages, page_copies l σ = Fin pages σ ∧
    Forall2 (λ s '(pid, d), ∃ f, BufferPool.arena σ !! s = Some f ∧ Frame.state f ≠ Free ∧ Frame.dirty f = true ∧
      Frame.pid f = pid ∧ prepared σ (Frame.page f) d) l pages.
Proof.
  intros I. induction l as [|s l IH]; intros Hl; [by exists []|]. apply Forall_cons in Hl as [(f & E & Hf & Hd) Hl].
  destruct (IH Hl) as (pages & Ep & Hp). destruct (prepare_spec _ _ _ _ _ I E Hf) as (d & Ed & Hpr).
  exists ((Frame.pid f, d) :: pages). split; [|constructor; [by exists f|done]]. cbn [page_copies].
  erewrite bind_Fin by (by apply frame_at_eq). erewrite bind_Fin by done. by erewrite bind_Fin by done.
Qed.
(** Extents that wait for a flush go back to the allocator. *)
Definition after_promotion σ (a : FreePageAllocator.t) : BufferPool.t :=
  BufferPool.with_free_page_allocator (BufferPool.with_pending_reusable_extents σ []) a.

Lemma promote_pending_spec σ :
  FreePagesSpec.inv (BufferPool.free_page_allocator σ) (BufferPool.pending_reusable_extents σ) →
  ∃ a, promote_pending_reusable_extents σ = Fin tt (after_promotion σ a) ∧
    FreePagesSpec.conserves (BufferPool.free_page_allocator σ) (BufferPool.pending_reusable_extents σ) a [].
Proof.
  unfold promote_pending_reusable_extents, pget, pput, mbind, PM_bind. cbn [BufferPool.free_page_allocator].
  generalize (BufferPool.pending_reusable_extents σ) as es. intros es.
  set (σ1 := BufferPool.with_pending_reusable_extents σ []). change (BufferPool.free_page_allocator σ) with (BufferPool.free_page_allocator σ1).
  assert (Hσ1 : ∀ a, after_promotion σ a = BufferPool.with_free_page_allocator σ1 a) by done. setoid_rewrite Hσ1. clear Hσ1.
  generalize σ1. clear σ1. induction es as [|e es IH]; intros σ1 Hi.
  - exists (BufferPool.free_page_allocator σ1). split; [by destruct σ1|by apply FreePagesSpec.conserves_refl].
  - destruct (FreePagesSpec.promote_ok _ _ _ Hi) as (a1 & E1 & C1). pose proof C1 as (Hi1 & _).
    destruct (IH (BufferPool.with_free_page_allocator σ1 a1) Hi1) as (a & Ea & Ca).
    exists a. split; [|by eapply FreePagesSpec.conserves_trans]. cbn [each_do].
    assert (Ep : promote_reusable_extent e σ1 = Fin tt (BufferPool.with_free_page_allocator σ1 a1)).
    { unfold promote_reusable_extent, pget, pput, orelse, mbind, PM_bind. by rewrite E1. }
    erewrite bind_Fin by exact Ep. exact Ea.
Qed.

(** What a flush did: every dirty frame was written and is clean, or, when
    the store failed, all are as they were. *)
Record flushed h r σ (res : io_result unit) σ' : Prop := {
  fl_inv : inv h r σ';
  fl_wal_rule : wal_rule σ → wal_rule σ';
  fl_log : log_after (BufferPool.wal σ) (BufferPool.wal σ');
  fl_wrote : ∃ l pages, wrote σ σ' l pages (is_ok res) ∧ ∀ s, s ∈ l ↔ dirty_slot σ s;
  fl_extents : if is_ok res
    then FreePagesSpec.conserves (BufferPool.free_page_allocator σ) (BufferPool.pending_reusable_extents σ)
           (BufferPool.free_page_allocator σ') [] ∧ BufferPool.pending_reusable_extents σ' = []
    else BufferPool.free_page_allocator σ' = BufferPool.free_page_allocator σ ∧
         BufferPool.pending_reusable_extents σ' = BufferPool.pending_reusable_extents σ;
}.

Lemma relatched f : Frame.latch f = Unlatched → unlatched (latched f) = f ∧ unlatched (cleaned (latched f)) = cleaned f.
Proof. intros Hu. unfold unlatched, latched, cleaned. rewrite <-Hu. by destruct f. Qed.

(** The pages of the latched frames, as the store is called with them. *)
Lemma copies_storable h r σ l pages :
  inv h r σ → NoDup l →
  Forall2 (λ s '(pid, d), ∃ f, BufferPool.arena σ !! s = Some f ∧ Frame.state f ≠ Free ∧ Frame.dirty f = true ∧
      Frame.pid f = pid ∧ prepared σ (Frame.page f) d) l pages → storable σ pages.
Proof.
  intros I Hn Hp. split.
  - apply NoDup_alt. intros i j pid. rewrite !list_lookup_fmap. intros ([pid1 d1] & Ei & ->)%fmap_Some ([pid2 d2] & Ej & Hpid)%fmap_Some.
    cbn in Hpid. subst pid2. destruct (Forall2_lookup_r _ _ _ _ _ Hp Ei) as (si & Hsi & fi & Efi & Hfi & _ & Hpi & _).
    destruct (Forall2_lookup_r _ _ _ _ _ Hp Ej) as (sj & Hsj & fj & Efj & Hfj & _ & Hpj & _).
    pose proof (live_table _ _ _ _ _ I Efi Hfi) as Ti. pose proof (live_table _ _ _ _ _ I Efj Hfj) as Tj.
    assert (si = sj) as <- by congruence. by eapply NoDup_lookup.
  - apply Forall_forall. intros [pid d] (i & Ei)%list_elem_of_lookup.
    destruct (Forall2_lookup_r _ _ _ _ _ Hp Ei) as (s & Hs & f & Ef & Hf & _ & <- & Hpr).
    destruct (fo_live _ _ (fo_local _ _ (inv_frames _ _ _ I s f Ef)) Hf) as ((_ & _ & ?) & ? & _). split_and!; [done|done|apply Hpr].
Qed.

Lemma inv_page_lsn h r σ s f : inv h r σ → BufferPool.arena σ !! s = Some f → Frame.state f ≠ Free → 0 ≤ Frame.page_lsn f.
Proof.
  intros I E Hf. destruct (fo_live _ _ (fo_local _ _ (inv_frames _ _ _ I s f E)) Hf) as (_ & _ & -> & _). apply page_lsn_nonneg.
Qed.

Lemma inv_latched h r σ l A o : inv h r σ → changed_at l latched (BufferPool.arena σ) A →
  inv h r (BufferPool.with_wal (BufferPool.with_arena σ A) o).
Proof. apply inv_relatched. Qed.

(** The last part of [flush], on the frames [l] it latched: their pages are
    handed over with the log at [o], and the store is now [st]. *)
Section last_part.
Context (h : list nat) (r : Z) (σ : BufferPool.t) (l : list nat) (pages : list (PageId * list byte)).
Context (A : list Frame.t) (o : option wal_t) (st : ps) (res : io_result unit).
Context (I : inv h r σ) (Hnl : no_latches σ) (Hn : NoDup l) (Hl : ∀ s, s ∈ l ↔ dirty_slot σ s).
Context (Ho : log_after (BufferPool.wal σ) o) (C : changed_at l latched (BufferPool.arena σ) A).
Context (Hfp : FreePagesSpec.inv (BufferPool.free_page_allocator σ) (BufferPool.pending_reusable_extents σ)).
Context (Hdur : ∀ w s f, o = Some w → s ∈ l → BufferPool.arena σ !! s = Some f → log_is_lsn_durable w (Frame.page_lsn f) = true).
Context (Hp : Forall2 (λ s '(pid, d), ∃ f, BufferPool.arena σ !! s = Some f ∧ Frame.state f ≠ Free ∧ Frame.dirty f = true ∧
  Frame.pid f = pid ∧ prepared σ (Frame.page f) d) l pages).
Context (Hs : ps_ok st) (Hk : ∀ q, ps_pid_ok q → is_Some (disk σ q) → is_Some (ps_page st q)).
Context (Hoth : ∀ q, ps_pid_ok q → q ∉ pages.*1 → ps_page st q = disk σ q).
Context (Hd : res = Ok tt → ∀ pid d, (pid, d) ∈ pages → ps_page st pid = Some d).

Lemma latched_in (A' : list Frame.t) : length A' = length A → Forall (λ s, (s < length A')%nat) l.
Proof using Hl C.
  intros Hlen. apply Forall_forall. intros s (f & E & _)%Hl. rewrite Hlen, (changed_length _ _ _ _ C). by eapply lookup_lt_Some.
Qed.

Lemma relatched_arena A2 A3 s f :
  (if is_ok res then changed_at l cleaned A A2 else A2 = A) → changed_at l unlatched A2 A3 → BufferPool.arena σ !! s = Some f →
  A3 !! s = Some (if bool_decide (s ∈ l) && is_ok res then cleaned f else f).
Proof using Hnl C.
  intros C2 C3 E. destruct (relatched f (Hnl _ _ E)) as [R1 R2]. case_bool_decide as Hb; cbn [andb].
  - pose proof (changed_in _ _ _ _ _ _ C E Hb) as E1. destruct (is_ok res).
    + rewrite (changed_in _ _ _ _ _ _ C3 (changed_in _ _ _ _ _ _ C2 E1 Hb) Hb). by rewrite R2.
    + subst A2. by rewrite (changed_in _ _ _ _ _ _ C3 E1 Hb), R1.
  - rewrite (changed_out _ _ _ _ _ C3 Hb).
    destruct (is_ok res); [rewrite (changed_out _ _ _ _ _ C2 Hb)|subst A2]; by rewrite (changed_out _ _ _ _ _ C Hb).
Qed.

Lemma last_wrote A2 A3 :
  (if is_ok res then changed_at l cleaned A A2 else A2 = A) → changed_at l unlatched A2 A3 →
  wrote σ (BufferPool.with_arena (handed pages o st σ) A3) l pages (is_ok res).
Proof using Hnl C Hp Hs Hk Hoth Hd.
  intros C2 C3. split; try done.
  - cbn. rewrite (changed_length _ _ _ _ C3), <-(changed_length _ _ _ _ C).
    destruct (is_ok res); [by eapply changed_length|by subst].
  - intros s f. by apply (relatched_arena A2).
  - intros pid d Hok. destruct res as [[]|]; [|done]. by apply Hd.
  - intros pid ([pid' d] & -> & (i & Ei)%list_elem_of_lookup)%list_elem_of_fmap.
    destruct (Forall2_lookup_r _ _ _ _ _ Hp Ei) as (s & Hs' & f & E & _ & _ & Hpid & _). exists s, f.
    split_and!; [by eapply list_elem_of_lookup_2|done|done].
  - intros s (i & Ei)%list_elem_of_lookup. destruct (Forall2_lookup_l _ _ _ _ _ Hp Ei) as ([pid d] & Ej & f & E & Hf & Hdf & <- & Hpr).
    exists f, d. split_and!; try done. by eapply list_elem_of_lookup_2.
Qed.

Lemma last_wal_rule A3 : wal_rule σ → wal_rule (BufferPool.with_arena (handed pages o st σ) A3).
Proof using I Hdur Hp.
  apply (wal_rule_note _ _ pages); [done|]. cbn. intros w pid d Hw (i & Ei)%list_elem_of_lookup.
  destruct (Forall2_lookup_r _ _ _ _ _ Hp Ei) as (s & Hs' & f & E & Hf & _ & _ & Hpr). rewrite (pr_lsn _ _ _ Hpr).
  destruct (fo_live _ _ (fo_local _ _ (inv_frames _ _ _ I s f E)) Hf) as (_ & _ & <- & _).
  eapply Hdur; [done|by eapply list_elem_of_lookup_2|done].
Qed.

Lemma last_part_spec :
  ends never (match res with
    | Err e => _ ← each_do unlock_exclusive l; mret (Err e)
    | Ok _ =>
        _ ← each_do clear_frame_dirty_metadata l;
        _ ← promote_pending_reusable_extents;
        _ ← each_do unlock_exclusive l;
        mret (Ok tt)
    end) (BufferPool.with_arena (handed pages o st σ) A) (flushed h r σ).
Proof using All.
  set (σ1 := BufferPool.with_arena (handed pages o st σ) A). pose proof last_wrote as HW. pose proof last_wal_rule as HR.
  assert (Hun : ∀ σ0 s0 f0, BufferPool.arena σ0 !! s0 = Some f0 → unlock_exclusive s0 σ0 = Fin tt (upd σ0 s0 (unlatched f0))).
  { intros σ0 s0 f0 E0. by apply fset_eq. }
  destruct res as [[]|e].
  - destruct (each_do_changed clear_frame_dirty_metadata cleaned l σ1 clear_eq) as (A2 & E2 & C2); [by apply latched_in|done|].
    eapply ends_step; [exact E2|].
    destruct (promote_pending_spec (BufferPool.with_arena σ1 A2)) as (a & Ea & Ca); [done|]. eapply ends_step; [exact Ea|].
    destruct (each_do_changed unlock_exclusive unlatched l (after_promotion (BufferPool.with_arena σ1 A2) a) Hun) as (A3 & E3 & C3);
      [apply latched_in; cbn; by rewrite (changed_length _ _ _ _ C2)|done|].
    eapply ends_step; [exact E3|]. pstep. pose proof (HW A2 A3 C2 C3) as W.
    assert (W' : wrote σ (BufferPool.with_arena (after_promotion (BufferPool.with_arena σ1 A2) a) A3) l pages true) by (destruct W; by split).
    split; [by eapply inv_wrote|exact (HR A3)|done|by eauto|done].
  - destruct (each_do_changed unlock_exclusive unlatched l σ1 Hun) as (A3 & E3 & C3); [by apply latched_in|done|].
    eapply ends_step; [exact E3|]. pstep. pose proof (HW A A3 eq_refl C3) as W.
    split; [by eapply inv_wrote|exact (HR A3)|done|by eauto|done].
Qed.
End last_part.

Lemma flush_spec h r σ :
  inv h r σ → no_latches σ → FreePagesSpec.inv (BufferPool.free_page_allocator σ) (BufferPool.pending_reusable_extents σ) →
  ends never flush σ (flushed h r σ).
Proof.
  intros I Hnl Hfp. unfold flush. do 2 pstep. set (σ1 := BufferPool.with_wal σ _).
  destruct (latch_dirty_spec (seq 0 (allocated_slots σ1)) σ1) as (l & A & o & El & C & Hn & Hl & Ho & Hdur).
  { apply Forall_forall. intros s [_ Hs]%elem_of_seq. destruct (lookup_lt_is_Some_2 (BufferPool.arena σ) s) as [f E]; [done|].
    exists f. split_and!; [done|by eapply Hnl|]. by eapply inv_page_lsn. }
  { apply NoDup_seq. }
  assert (Hl' : ∀ s, s ∈ l ↔ dirty_slot σ s).
  { intros s. rewrite Hl, elem_of_seq. split; [by intros [_ ?]|]. intros D. split; [|done]. destruct D as (f & E%lookup_lt_Some & _). cbn. split; [lia|done]. }
  assert (Ho' : log_after (BufferPool.wal σ) o) by (eapply log_after_trans, Ho; apply log_after_flush).
  eapply ends_step; [exact El|]. case_match eqn:Eempty.
  - apply Nat.eqb_eq, nil_length_inv in Eempty. subst l.
    assert (HA : A = BufferPool.arena σ) by (apply list_eq; intros s; by apply (changed_out _ _ _ _ _ C), not_elem_of_nil).
    destruct (promote_pending_spec (BufferPool.with_wal (BufferPool.with_arena σ1 A) o)) as (a & Ea & Ca); [done|].
    eapply ends_step; [exact Ea|]. pstep. subst A.
    assert (W : wrote σ (after_promotion (BufferPool.with_wal (BufferPool.with_arena σ1 (BufferPool.arena σ)) o) a) [] [] true)
      by (by eapply wrote_nothing).
    split; [by eapply inv_wrote|done|done|by exists [], []|done].
  - set (σ2 := BufferPool.with_wal (BufferPool.with_arena σ1 A) o). assert (I2 : inv h r σ2) by (by eapply (inv_latched _ _ σ)).
    destruct (page_copies_spec h r σ2 l) as (pages & Ep & Hp); [done| |].
    { apply Forall_forall. intros s Hs. pose proof Hs as (f & E & Hf & Hdf)%Hl'. exists (latched f). split; [|done].
      by apply (changed_in _ _ _ _ _ _ C). }
    eapply ends_step; [exact Ep|].
    assert (Hp' : Forall2 (λ s '(pid, d), ∃ f, BufferPool.arena σ !! s = Some f ∧ Frame.state f ≠ Free ∧ Frame.dirty f = true ∧
      Frame.pid f = pid ∧ prepared σ (Frame.page f) d) l pages).
    { eapply Forall2_impl; [exact Hp|]. intros s [pid d] (f & E & ? & ? & ? & Hpr).
      assert (Hpr' : prepared σ (Frame.page f) d).
      { apply (prepared_ext σ σ2); [done| |exact (changed_length _ _ _ _ C)|exact Hpr]. by apply (heap_changed σ σ2 l latched C). }
      cbn in E. rewrite (C s) in E. apply fmap_Some in E as (f0 & E0 & ->). exists f0. case_decide; by split_and!. }
    pose proof (copies_storable _ _ _ _ _ I Hn Hp') as Hst.
    destruct (store_spec store_write_pages_and_sync (BufferPool.with_wal σ o) pages o store_write_pages_and_sync_ok
      (inv_store _ _ _ I) Hst) as (res & st & Est & Hs & Hk & Hoth & Hd). specialize (Est A eq_refl).
    unfold ends at 1. rewrite <-assoc_bind_store. eapply ends_step; [exact Est|].
    apply (last_part_spec h r σ l pages A o st res); try done.
Qed.
End flush.
