(* ===== verification/PoolFixSpec.v ===== *)
(** * Buffer pool: what pinning a page gives

    A page is made resident in at most two rounds, whatever has to be evicted
    and written back for it; the frame holds the page's bytes, and no other
    page changes. *)

From S2P Require Import Prelude Bytes FrameKernel SwipKernel PageHeader PageMutation Slotted BufferFrame FreePages Posix PageStore BufferPool PoolBase PoolEvict PoolFlush PoolFix PoolInv PoolSteps PoolEvictSpec PoolFlushSpec.
#[local] Open Scope Z_scope.

Section fix_spec.
Context `{HookLaws}.
Implicit Types (σ : BufferPool.t) (f : Frame.t) (p d : list byte) (h : list nat) (r : Z).

(** Why a pin may panic: the store failed, nothing can be evicted, or a slot
    was reused 2^32 - 1 times. *)
Definition fixing (why : panic_reason) : Prop := why = StoreFailed ∨ why = Exhausted ∨ why = GenerationOver.

Definition storing (why : panic_reason) : Prop := why = StoreFailed.

Lemma storing_fixing {A} (m : PM A) σ Q : ends storing m σ Q → ends fixing m σ Q.
Proof. intros Hm. eapply ends_weaken; [done|]. by left. Qed.
Lemma never_storing {A} (m : PM A) σ Q : ends never m σ Q → ends storing m σ Q.
Proof. intros Hm. by eapply ends_weaken. Qed.
Lemma never_fixing {A} (m : PM A) σ Q : ends never m σ Q → ends fixing m σ Q.
Proof. intros Hm. by eapply ends_weaken. Qed.

(** ** Capacity *)

Definition keeps h r σ σ' : Prop := inv h r σ' ∧ quiet [] h σ σ'.

Lemma keeps_refl h r σ : inv h r σ → keeps h r σ σ.
Proof. by split. Qed.
Lemma keeps_trans h r σ1 σ2 σ3 : keeps h r σ1 σ2 → keeps h r σ2 σ3 → keeps h r σ1 σ3.
Proof. intros [_ Q1] [I2 Q2]. split; [done|by etrans]. Qed.

Lemma evict_for_capacity_spec h r σ : inv h r σ → 0 ≤ r → ends never evict_for_capacity σ (λ _ σ', keeps h r σ σ').
Proof.
  intros I Hr. unfold evict_for_capacity. apply ends_bind. eapply ends_mono; [by apply try_evict_policy_spec|].
  intros n σ1 [I1 Q1]. case_match; [by pstep|]. apply ends_bind. eapply ends_mono; [by apply try_evict_batch_spec|].
  intros n2 σ2 [I2 Q2]. pstep. split; [done|by etrans].
Qed.

Lemma flush_for_capacity_spec h r σ n : inv h r σ → ends fixing (flush_dirty_for_capacity n) σ (λ _ σ', keeps h r σ σ').
Proof.
  intros I. unfold flush_dirty_for_capacity, try_flush_dirty_batch. apply ends_bind.
  eapply ends_mono; [by apply never_fixing, try_flush_dirty_batch_inner_spec|]. intros [k|e] σ1 B.
  - split; apply B.
  - by left.
Qed.

Lemma budget_rounds_spec h r n : ∀ σ, inv h r σ → 0 ≤ r →
  ends fixing (budget_rounds n) σ (λ _ σ', keeps h r σ σ' ∧ 1 ≤ BufferPool.resident_base_pages_available σ').
Proof.
  induction n as [|n IH]; intros σ I Hr; cbn [budget_rounds]; pstep;
    (destruct (Z.leb_spec 1 (BufferPool.resident_base_pages_available σ)); [pstep; split; [by apply keeps_refl|done]|]).
  - right. by left.
  - apply ends_bind. eapply ends_mono; [by apply never_fixing, evict_for_capacity_spec|]. intros b σ1 K1. pstep.
    destruct (b && _) eqn:Eb.
    { pstep. split; [done|]. apply andb_true_iff in Eb as [_ Hb]. by apply Z.leb_le. }
    apply ends_bind. eapply ends_mono; [apply flush_for_capacity_spec, K1|]. intros k σ2 K2.
    eapply ends_mono; [apply IH; [apply K2|done]|]. intros _ σ3 [K3 Ha]. split; [|done]. eapply keeps_trans; [exact K1|]. eapply keeps_trans; [exact K2|exact K3].
Qed.

Lemma inv_reserve h r σ : inv h r σ → 1 ≤ BufferPool.resident_base_pages_available σ →
  inv h (r + 1) (BufferPool.with_resident_base_pages_available σ (BufferPool.resident_base_pages_available σ - 1)).
Proof.
  intros I Ha. pose proof (inv_budget _ _ _ I). split; try apply I;
    cbn [BufferPool.with_resident_base_pages_available BufferPool.resident_base_pages_available BufferPool.resident_base_pages BufferPool.arena];
    [lia|lia|].
  intros s f E. destruct (inv_frames _ _ _ I s f E) as [Hl Hh Ho]. split; [by eapply frame_local_ext, Hl|done|done].
Qed.

Lemma try_reserve_eq σ : try_reserve_resident_budget σ =
  if 1 <=? BufferPool.resident_base_pages_available σ
  then Fin true (BufferPool.with_resident_base_pages_available σ (BufferPool.resident_base_pages_available σ - 1)) else Fin false σ.
Proof. unfold try_reserve_resident_budget, pget, mbind, PM_bind. by case_match. Qed.

Lemma quiet_available X h σ n : quiet X h σ (BufferPool.with_resident_base_pages_available σ n).
Proof. apply quiet_ext; try done. apply steady_ext; try done. eauto. Qed.

Lemma reserve_budget_spec h r σ : inv h r σ → 0 ≤ r →
  ends fixing (reserve_resident_budget 2) σ (λ _ σ', inv h (r + 1) σ' ∧ quiet [] h σ σ').
Proof.
  intros I Hr. unfold reserve_resident_budget. cbn [repeat_until].
  assert (Hyes : ∀ σ (k : option unit → PM unit) Q, 1 ≤ BufferPool.resident_base_pages_available σ →
    ends fixing (k (Some tt)) (BufferPool.with_resident_base_pages_available σ (BufferPool.resident_base_pages_available σ - 1)) Q →
    ends fixing ((ok ← try_reserve_resident_budget;
      if ok : bool then mret (Some tt) else _ ← wait_for_resident_budget; mret None) ≫= k) σ Q).
  { intros σ0 k Q Ha Hk. apply ends_bind. eapply ends_step; [rewrite try_reserve_eq, (proj2 (Z.leb_le _ _)) by done; reflexivity|]. by pstep. }
  destruct (Z.le_gt_cases 1 (BufferPool.resident_base_pages_available σ)) as [Ha|Ha].
  - apply Hyes; [done|]. pstep. split; [by apply inv_reserve|apply quiet_available].
  - apply ends_bind. eapply ends_step; [rewrite try_reserve_eq, (proj2 (Z.leb_gt _ _)) by done; reflexivity|]. cbv iota.
    apply ends_bind. eapply ends_mono; [by apply budget_rounds_spec|]. intros _ σ1 [[I1 Q1] Ha1]. pstep.
    apply Hyes; [done|]. pstep. split; [by apply inv_reserve|]. etrans; [exact Q1|apply quiet_available].
Qed.
(** ** A free frame *)

Definition all_calm σ : Prop := ∀ s, calm σ s.

Lemma quiet_all_calm h σ σ' : quiet [] h σ σ' → all_calm σ → all_calm σ'.
Proof. intros Q Hc s. apply (q_calm _ _ _ _ Q); [apply not_elem_of_nil|done]. Qed.

Lemma count_lt_length {A} (g : A → bool) l : (count g l < length l)%nat → ∃ i x, l !! i = Some x ∧ g x = false.
Proof.
  induction l as [|x l IH]; unfold count; cbn [length]; [lia|]. rewrite filter_cons. destruct (g x) eqn:Eg.
  - rewrite decide_True by done. cbn [length]. intros Hlt. destruct IH as (i & y & Ei & Hy); [unfold count; lia|]. by exists (S i), y.
  - intros _. by exists 0%nat, x.
Qed.

Lemma count_lt_not {A} (g : A → bool) l i x : l !! i = Some x → g x = false → (count g l < length l)%nat.
Proof.
  revert i. induction l as [|y l IH]; intros [|i] E Hx; unfold count; cbn [length]; simplify_eq/=; rewrite filter_cons.
  - case_decide as Hd; [by rewrite Hx in Hd|]. pose proof (length_filter g l). lia.
  - specialize (IH i E Hx). unfold count in IH. case_decide; cbn [length]; lia.
Qed.

(** Room in the budget means that a frame is free. *)
Lemma room_is_free r σ : inv [] r σ → 1 ≤ BufferPool.resident_base_pages_available σ + r → free_ready σ.
Proof.
  intros I Ha. destruct (count_lt_length live (BufferPool.arena σ)) as (s & f & E & Hl).
  { pose proof (inv_budget _ _ _ I). destruct (inv_size _ _ _ I) as [Hz _]. unfold zlen in Hz. lia. }
  eapply (free_ready_at _ _ σ s f I); [apply not_elem_of_nil|done|]. unfold live in Hl. by apply negb_false_iff, bool_decide_eq_true_1 in Hl.
Qed.

Definition claimed_frame f : Frame.t := Frame.with_generation f (Frame.generation f + 1).

(** What a popped frame is. *)
Definition popped h r σ (bf : nat) σ' : Prop :=
  bf ∉ h ∧ inv (bf :: h) r σ' ∧ quiet [] h σ σ' ∧ ∃ f, BufferPool.arena σ' !! bf = Some f ∧ Frame.state f = Free.

Lemma quiet_with_free h σ fs : quiet [] h σ (with_free σ fs).
Proof. apply quiet_ext; try done. apply steady_with_free. Qed.

Lemma inv_pop_frame h r σ bf rest : inv h r σ → FreeList.frames (BufferPool.free_list σ) = bf :: rest →
  popped h r σ bf (with_free σ rest).
Proof.
  intros I E. destruct (inv_pop _ _ _ _ _ I E) as [Hb I1].
  split_and!; [done|done|apply quiet_with_free|]. apply (inv_held _ _ _ I1). left.
Qed.

Lemma claim_spec h r σ bf f :
  inv (bf :: h) r σ → bf ∉ h → all_calm σ → BufferPool.arena σ !! bf = Some f → Frame.state f = Free →
  ends fixing (claim_free_frame bf) σ (λ bf' σ', bf' = bf ∧ popped h r σ bf σ' ∧
    BufferPool.resident_base_pages_available σ' = BufferPool.resident_base_pages_available σ).
Proof.
  intros I Hb Hc E Hf. pose proof (fo_local _ _ (inv_frames _ _ _ I bf f E)) as Hl. unfold claim_free_frame. pstep.
  unfold checked_add. destruct (in_width 32 (Frame.generation f + 1)) eqn:Hg.
  2: { right. by right. }
  apply andb_true_iff in Hg as [_ Hg%Z.ltb_lt].
  eapply ends_orelse; [done|]. do 2 pstep. split; [done|]. split; [|done]. destruct (Hc bf f E) as [Hu Hev].
  assert (IP : in_place f (claimed_frame f)) by (split; [done|done|intros _; by left]). split_and!; [done| | |].
  - eapply inv_upd; [done|done|done|done|]. pose proof (fo_gen _ _ Hl). destruct Hl. split; try done. cbn. lia.
  - eapply quiet_upd; [done|done|done|by rewrite Hf|right; by split_and!|done|done].
  - exists (claimed_frame f). split; [by eapply upd_lookup|done].
Qed.

Lemma pop_rounds_spec h r n : ∀ σ, inv h r σ → 0 ≤ r → all_calm σ →
  ends fixing (pop_rounds n) σ (λ bf σ', popped h r σ bf σ' ∧
    (free_ready σ → BufferPool.resident_base_pages_available σ' = BufferPool.resident_base_pages_available σ)).
Proof.
  assert (Hpop : ∀ σ bf rest, inv h r σ → all_calm σ → FreeList.frames (BufferPool.free_list σ) = bf :: rest →
    ends fixing (claim_free_frame bf) (with_free σ rest) (λ bf σ', popped h r σ bf σ' ∧
      (free_ready σ → BufferPool.resident_base_pages_available σ' = BufferPool.resident_base_pages_available σ))).
  { intros σ bf rest I Hc E. destruct (inv_pop_frame _ _ _ _ _ I E) as (Hb & I1 & Q1 & f & E1 & Hf).
    eapply ends_mono; [eapply claim_spec; try done; by eapply quiet_all_calm|]. intros bf' σ' (-> & (? & ? & Q2 & ?) & Ha).
    split; [|done]. split_and!; [done|done| |done]. by etrans. }
  induction n as [|n IH]; intros σ I Hr Hc; cbn [pop_rounds];
    (destruct (FreeList.frames (BufferPool.free_list σ)) as [|bf rest] eqn:Ef;
      [eapply ends_step; [by rewrite pop_eq, Ef|]|eapply ends_step; [by rewrite pop_eq, Ef|]; by apply Hpop]); cbv iota.
  - right. by left.
  - do 2 pstep. apply ends_bind. eapply ends_mono with (Q := λ _ σ', keeps h r σ σ').
    + case_match; [pstep; by apply keeps_refl|]. apply ends_bind.
      eapply ends_mono; [by apply never_fixing, evict_for_capacity_spec|]. intros [] σ1 K1; [by pstep|].
      apply ends_bind. eapply ends_mono; [apply flush_for_capacity_spec, K1|]. intros k σ2 K2. pstep.
      eapply keeps_trans; [exact K1|exact K2].
    + intros _ σ1 [I1 Q1]. eapply ends_mono; [apply IH; [done|done|by eapply quiet_all_calm]|].
      intros bf σ2 [(Hb & I2 & Q2 & Hf) _]. split; [|unfold free_ready; by rewrite Ef]. split_and!; [done|done| |done]. by etrans.
Qed.
(** ** A pinned page *)

Definition released (bf : nat) σ : BufferPool.t :=
  match BufferPool.arena σ !! bf with
  | Some f => upd σ bf (unpinned f)
  | None => σ
  end.

(** [bf] holds page [pid], with one pin more than before, or one if the page
    was not resident; but for that pin nothing changed. *)
Record fixed σ (pid : PageId) (bf : nat) σ' : Prop := {
  fx_inv : inv [] 0 σ';
  fx_calm : all_calm σ';
  fx_frame : ∃ f, BufferPool.arena σ' !! bf = Some f ∧ Frame.state f = Resident ∧ Frame.pid f = pid ∧
    match table_at σ pid with
    | Some s => s = bf ∧ ∃ f0, BufferPool.arena σ !! bf = Some f0 ∧ Frame.pin_count f = wrap 32 (Frame.pin_count f0 + 1) ∧
        Frame.page f = Frame.page f0
    | None => Frame.pin_count f = 1
    end;
  fx_pins s g g' : s ≠ bf → BufferPool.arena σ !! s = Some g → BufferPool.arena σ' !! s = Some g' →
    Frame.pin_count g' ≤ Frame.pin_count g;
  fx_steady : steady σ (released bf σ');
}.

Lemma released_eq σ bf f : BufferPool.arena σ !! bf = Some f → released bf σ = upd σ bf (unpinned f).
Proof. unfold released. by intros ->. Qed.

Lemma calm_resident σ s f : inv [] 0 σ → all_calm σ → BufferPool.arena σ !! s = Some f → Frame.state f ≠ Free →
  Frame.state f = Resident ∧ Frame.latch f = Unlatched.
Proof.
  intros I Hc E Hf. destruct (Hc s f E) as [Hu He]. split; [|done].
  pose proof (fo_state _ _ (fo_local _ _ (inv_frames _ _ _ I s f E))) as Hl. by destruct (Frame.state f).
Qed.

Lemma all_calm_upd σ bf f f' : all_calm σ → BufferPool.arena σ !! bf = Some f → Frame.latch f' = Unlatched → Frame.state f' ≠ Evicting →
  all_calm (upd σ bf f').
Proof.
  intros Hc E Hl Hs s g. destruct (decide (bf = s)) as [<-|Hne]; [|rewrite lookup_upd_ne by done; apply Hc].
  rewrite (upd_lookup _ _ _ _ E). by intros [= <-].
Qed.

(** A frame as a pin of its page leaves it. *)
Definition touched (b : bool) f : Frame.t := Frame.with_referenced (pinned f) b.

Lemma fixed_resident σ bf f b :
  inv [] 0 σ → all_calm σ → BufferPool.arena σ !! bf = Some f → Frame.state f = Resident →
  fixed σ (Frame.pid f) bf (upd σ bf (touched b f)).
Proof.
  intros I Hc E Hs. assert (Hf : Frame.state f ≠ Free) by (by rewrite Hs).
  pose proof (fo_local _ _ (inv_frames _ _ _ I bf f E)) as Hl. destruct (Hc bf f E) as [Hu He].
  assert (E' : BufferPool.arena (upd σ bf (touched b f)) !! bf = Some (touched b f)) by (by eapply upd_lookup). split.
  - eapply inv_upd; [done|done|split; [done|done|intros _; by left]|done|]. destruct Hl. split; try done. cbn.
    unfold wrap. apply Z.mod_pos_bound. lia.
  - by eapply all_calm_upd.
  - exists (touched b f). split_and!; [done|done|done|]. rewrite (live_table _ _ _ _ _ I E Hf). split; [done|]. by exists f.
  - intros s g g' Hne Eg. rewrite lookup_upd_ne, Eg by done. by intros [= <-].
  - rewrite (released_eq _ _ _ E'), upd_upd.
    assert (Hback : unpinned (touched b f) = Frame.with_referenced f b).
    { rewrite <-(unpinned_pinned _ _ Hl) at 2. done. }
    rewrite Hback. eapply steady_upd; [done|done|split; [done|done|intros _; by left]|]. intros _ _. split; try done. by left.
Qed.

Lemma pin_eq σ bf f : BufferPool.arena σ !! bf = Some f → pin bf σ = Fin tt (upd σ bf (pinned f)).
Proof. intros E. unfold pin. erewrite bind_Fin by (by apply fget_eq). by erewrite fset_eq. Qed.
Lemma unpin_eq σ bf f : BufferPool.arena σ !! bf = Some f → unpin bf σ = Fin tt (upd σ bf (unpinned f)).
Proof. intros E. unfold unpin. erewrite bind_Fin by (by apply fget_eq). by erewrite fset_eq. Qed.

(** A later state of the pool in between. *)
Lemma quiet_pins X h σ σ1 σ' s g g' :
  quiet X h σ σ1 → (∀ g1, BufferPool.arena σ1 !! s = Some g1 → BufferPool.arena σ' !! s = Some g' → Frame.pin_count g' ≤ Frame.pin_count g1) →
  BufferPool.arena σ !! s = Some g → BufferPool.arena σ' !! s = Some g' → Frame.pin_count g' ≤ Frame.pin_count g.
Proof.
  intros Q Hs Eg Eg'. destruct (lookup_lt_is_Some_2 (BufferPool.arena σ1) s) as [g1 E1].
  { rewrite (sd_size _ _ (q_steady _ _ _ _ Q)). by eapply lookup_lt_Some. }
  etrans; [by apply Hs|]. by eapply (q_pin _ _ _ _ Q).
Qed.

Lemma fixed_after σ σ1 pid bf σ' :
  keeps [] 0 σ σ1 → table_at σ pid = None → fixed σ1 pid bf σ' → fixed σ pid bf σ'.
Proof.
  intros [I1 Q1] Ht [I Hc (f & E & Hs & Hp & Hpin) Hpins S]. split; [done|done| | |etrans; [apply Q1|done]].
  - exists f. rewrite (q_table _ _ _ _ Q1 _ Ht) in Hpin. by rewrite Ht.
  - intros s g g' Hne Eg Eg'. eapply quiet_pins; [exact Q1| |exact Eg|exact Eg']. intros g1 E1. by apply Hpins.
Qed.

(** ** A loaded page *)

Definition loaded_frame f (pid : PageId) (link : ParentLink) p (s : FrameState) : Frame.t :=
  {| Frame.latch := Frame.latch f; Frame.pin_count := 1; Frame.pid := pid; Frame.dirty := false;
     Frame.dirty_generation := Frame.dirty_generation f; Frame.referenced := true; Frame.state := s;
     Frame.page_lsn := read_page_lsn p; Frame.has_page_image_base := negb (read_page_lsn p =? 0);
     Frame.wal_buffer_epoch := 0; Frame.wal_buffer_offset := 0; Frame.generation := Frame.generation f;
     Frame.parent_link := link; Frame.page := p |}.

Lemma loaded_local h r σ bf f pid link p :
  inv (bf :: h) r σ → BufferPool.arena σ !! bf = Some f → valid_pid σ pid → table_at σ pid = None → disk σ pid = Some p →
  (∀ l, link ≠ InnerNode l) → frame_local σ (loaded_frame f pid link p Resident).
Proof.
  intros I E Hv Ht Hd Hlk. pose proof (fo_local _ _ (inv_frames _ _ _ I bf f E)) as Hl. pose proof Hv as (_ & _ & Hok). split; cbn; try done.
  - by eapply ps_page_len; [apply I| |].
  - apply Hl.
  - by eapply valid_payload.
  - intros _. split_and!; [done|by eexists|done|]. by eapply (inv_disk _ _ _ I).
  - intros _ _ _. exists p. split; [done|apply rtc_refl].
  - intros d _ _. rewrite Hd. by intros [= <-].
  - intros d _ _ Hd'. by eapply (inv_disk _ _ _ I).
  - intros l Hl'. by destruct (Hlk l).
Qed.

Lemma load_spec h r r' σ st bf f pid link p σ' :
  inv (bf :: h) r σ → bf ∉ h → BufferPool.arena σ !! bf = Some f → valid_pid σ pid → table_at σ pid = None →
  ps_ok st → (∀ q, ps_pid_ok q → ps_page st q = disk σ q) → ps_page st pid = Some p →
  (∀ l, link ≠ InnerNode l) →
  (∀ o, link = Stable o → ∃ ow, BufferPool.owners σ !! o = Some ow ∧ StableSwipOwner.page_id ow = pid) →
  moved (BufferPool.with_page_store σ st) σ' bf (loaded_frame f pid link p Resident) →
  BufferPool.page_table σ' = PageTable.insert (BufferPool.page_table σ) pid bf →
  BufferPool.resident_base_pages_available σ' + 1 + r' = BufferPool.resident_base_pages_available σ + r →
  0 ≤ BufferPool.resident_base_pages_available σ' →
  inv h r' σ' ∧ steady σ σ' ∧ steady σ (released bf σ').
Proof.
  intros I Hb E Hv Ht Hst Hpages Hp Hlk Hso M Htab Hav Hav0. set (σ1 := BufferPool.with_page_store σ st) in *.
  assert (I1 : inv (bf :: h) r σ1) by (by apply inv_store_ext). assert (E1 : BufferPool.arena σ1 !! bf = Some f) by done.
  assert (Hd : disk σ1 pid = Some p) by done. destruct (inv_held _ _ _ I bf ltac:(left)) as (f0 & E0 & Hf). rewrite E in E0. injection E0 as <-.
  destruct (inv_loaded σ1 σ' bf f (loaded_frame f pid link p Resident) h r M E1 r') as [I' Hc]; try done.
  { by eapply loaded_local. }
  assert (S01 : steady σ σ1) by (apply steady_ext; try done; eauto).
  assert (S1 : steady σ1 σ').
  { eapply (steady_moved σ1 σ' bf f _ M E1); [by left|]. intros q p0 _ Hq. rewrite Hc, Hq. apply keeps_page_refl. }
  split_and!; [done|by etrans|]. etrans; [exact S01|].
  assert (E' : BufferPool.arena σ' !! bf = Some (loaded_frame f pid link p Resident)) by apply (moved_lookup σ1 σ' bf f _ M E1).
  rewrite (released_eq _ _ _ E').
  assert (M' : moved σ1 (upd σ' bf (unpinned (loaded_frame f pid link p Resident))) bf (unpinned (loaded_frame f pid link p Resident))).
  { destruct M. split; try done. cbn. by rewrite mv_arena, list_insert_insert_eq. }
  eapply (steady_moved σ1 _ bf f _ M' E1); [by left|]. intros q p0 _ Hq.
  assert (Hcq : content (upd σ' bf (unpinned (loaded_frame f pid link p Resident))) q = content σ' q).
  { rewrite (content_upd _ _ _ _ _ _ _ I' E'). case_decide as D; [|done]. unfold content. by rewrite D, E'. }
  rewrite Hcq, Hc, Hq. apply keeps_page_refl.
Qed.
(** The store is read into a frame that is loading. *)
Lemma read_into_spec σ bf f pid :
  ps_ok (BufferPool.page_store σ) → ps_pid_ok pid → BufferPool.arena σ !! bf = Some f → zlen (Frame.page f) = PAGE_SIZE →
  ends storing (read_into bf pid) σ (λ found σ', ∃ st p, ps_ok st ∧ zlen p = PAGE_SIZE ∧ (∀ q, ps_pid_ok q → ps_page st q = disk σ q) ∧
    σ' = upd (BufferPool.with_page_store σ st) bf (Frame.with_page f p) ∧
    if found : bool then ps_page st pid = Some p else ps_page st pid = None).
Proof.
  intros Hok Hpid E Hlen. unfold read_into. pstep.
  destruct (store_read_page_ok (BufferPool.page_store σ) pid (Frame.page f)) as (p & res & st & Er & Hst & Hp & Hpages & Hres); [done..|].
  eapply ends_step; [unfold on_store; rewrite Er; reflexivity|].
  eapply ends_step; [reflexivity|]. eapply ends_step; [by apply fset_eq|]. cbn [fst snd].
  destruct res as [[]|e]; [| |done]; apply ends_ret; exists st, p; (split_and!; [done|done|done|done|]); by rewrite Hpages.
Qed.

(** *** By identifier *)

Lemma finish_orphan_load_eq σ bf f pid :
  BufferPool.arena σ !! bf = Some f →
  finish_orphan_load bf pid σ = Fin tt (upd σ bf (loaded_frame f pid Unswizzled (Frame.page f) Resident)).
Proof.
  intros E. enough (Hends : ends never (finish_orphan_load bf pid) σ
    (λ _ σ', σ' = upd σ bf (loaded_frame f pid Unswizzled (Frame.page f) Resident))).
  { unfold ends in Hends. destruct (finish_orphan_load bf pid σ) as [[]| |]; [by rewrite Hends|done|done]. }
  unfold finish_orphan_load, install_loaded_frame_metadata, set_wal_buffer. repeat pstep. done.
Qed.
(** The pool with the page's entry and a token taken. *)
Definition entered (pid : PageId) (bf : nat) σ : BufferPool.t :=
  BufferPool.with_resident_base_pages_available
    (BufferPool.with_page_table σ (PageTable.insert (BufferPool.page_table σ) pid bf))
    (BufferPool.resident_base_pages_available σ - 1).

Definition loading_frame f (pid : PageId) : Frame.t :=
  Frame.with_state (Frame.with_referenced (Frame.with_parent_link (Frame.with_pid f pid) LinkNone) true) Loading.

Lemma try_insert_eq σ pid bf : table_at σ pid = None →
  table_try_insert pid bf σ = Fin true (BufferPool.with_page_table σ (PageTable.insert (BufferPool.page_table σ) pid bf)).
Proof. intros Ht. unfold table_try_insert, pget, pput, mbind, PM_bind. by rewrite (try_insert_None _ _ _ Ht). Qed.

(** A token is taken, or the entry is taken back. *)
Lemma enter_spec {A} E (dup full yes : PM A) σ pid bf (Q : A → BufferPool.t → Prop) :
  length (BufferPool.page_table σ) = 8%nat → table_at σ pid = None →
  (if 1 <=? BufferPool.resident_base_pages_available σ then ends E yes (entered pid bf σ) Q else ends E full σ Q) →
  ends E (inserted ← table_try_insert pid bf;
    if negb inserted then dup else
    reserved ← try_reserve_resident_budget;
    if negb reserved then _ ← table_remove pid; full else yes) σ Q.
Proof.
  intros Hl Ht Hk. eapply ends_step; [by apply try_insert_eq|]. cbn [negb].
  set (σ1 := BufferPool.with_page_table σ _). pose proof (try_reserve_eq σ1) as Er.
  change (BufferPool.resident_base_pages_available σ1) with (BufferPool.resident_base_pages_available σ) in Er.
  destruct (1 <=? BufferPool.resident_base_pages_available σ); (eapply ends_step; [exact Er|]); cbn [negb]; [done|].
  unfold table_remove. pstep. unfold σ1. cbn [BufferPool.page_table BufferPool.with_page_table].
  rewrite table_remove_insert by done. by destruct σ.
Qed.

Lemma fix_orphan_claim σ bf f pid :
  length (BufferPool.page_table σ) = 8%nat → table_at σ pid = None →
  BufferPool.arena σ !! bf = Some f → Frame.state f = Free → Frame.latch f = Unlatched →
  ends never (with_exclusive bf (fix_orphan_latched bf pid true)) σ (λ act σ',
    if 1 <=? BufferPool.resident_base_pages_available σ
    then act = Load ∧ σ' = upd (entered pid bf σ) bf (loading_frame f pid) else act = WaitForBudget ∧ σ' = σ).
Proof.
  intros Hl Ht E Hf Hu. eapply ends_with_exclusive; [done|done|]. set (fl := Frame.with_latch f ExclusiveHeld). set (σ1 := upd σ bf fl).
  assert (E1 : BufferPool.arena σ1 !! bf = Some fl) by (by eapply upd_lookup). unfold fix_orphan_latched. pstep.
  assert (Hs : Frame.state fl = Free) by done. rewrite Hs. rewrite bool_decide_eq_false_2 by done. cbn [andb negb].
  apply enter_spec; [done|done|]. change (BufferPool.resident_base_pages_available σ1) with (BufferPool.resident_base_pages_available σ).
  assert (Hback : ∀ g, Frame.latch g = Unlatched → Frame.with_latch (Frame.with_latch g ExclusiveHeld) Unlatched = g).
  { intros g Hg. rewrite <-Hg. by destruct g. }
  destruct (1 <=? BufferPool.resident_base_pages_available σ).
  - assert (E2 : BufferPool.arena (entered pid bf σ1) !! bf = Some fl) by done. unfold prepare_orphan_loading_frame. repeat pstep.
    eexists. split; [by eapply upd_lookup|]. split; [done|]. rewrite upd_upd. unfold σ1, upd, entered, loading_frame. cbn.
    rewrite list_insert_insert_eq. f_equal. f_equal. unfold Frame.with_latch. cbn. rewrite <-Hu. by destruct f.
  - pstep. exists fl. split; [done|]. split; [done|]. unfold σ1. rewrite upd_upd. unfold fl. rewrite Hback by done. by apply upd_same.
Qed.
(** The load into a frame whose page was entered. *)
Lemma orphan_load_spec h r σ bf f pid :
  inv (bf :: h) r σ → bf ∉ h → BufferPool.arena σ !! bf = Some f → valid_pid σ pid → table_at σ pid = None →
  1 ≤ BufferPool.resident_base_pages_available σ →
  ends storing (read_into bf pid) (upd (entered pid bf σ) bf (loading_frame f pid)) (λ found σ1,
    if found : bool then ends never (finish_orphan_load bf pid) σ1 (λ _ σ', ∃ p st, disk σ pid = Some p ∧
      σ' = upd (BufferPool.with_page_store (entered pid bf σ) st) bf (loaded_frame f pid Unswizzled p Resident) ∧
      inv h r σ' ∧ steady σ (released bf σ'))
    else disk σ pid = None ∧ ∃ p st, ps_ok st ∧ zlen p = PAGE_SIZE ∧ (∀ q, ps_pid_ok q → ps_page st q = disk σ q) ∧
      σ1 = upd (BufferPool.with_page_store (entered pid bf σ) st) bf (Frame.with_page (loading_frame f pid) p)).
Proof.
  intros I Hb E Hv Ht Ha. pose proof (fo_local _ _ (inv_frames _ _ _ I bf f E)) as Hl. pose proof Hv as (_ & _ & Hok).
  assert (EL : BufferPool.arena (upd (entered pid bf σ) bf (loading_frame f pid)) !! bf = Some (loading_frame f pid)) by (by eapply upd_lookup).
  eapply ends_mono; [eapply read_into_spec; [apply I|done|exact EL|apply Hl]|].
  intros found σ1 (st & p & Hst & Hlen & Hpages & -> & Hp).
  assert (Hpd : ps_page st pid = disk σ pid) by exact (Hpages pid Hok).
  match goal with |- context [upd ?s bf (Frame.with_page _ _)] =>
    change s with (upd (BufferPool.with_page_store (entered pid bf σ) st) bf (loading_frame f pid)) end. rewrite upd_upd. destruct found.
  - eapply ends_Fin; [eapply finish_orphan_load_eq, upd_lookup; exact E|]. rewrite upd_upd. exists p, st.
    assert (Hd : disk σ pid = Some p) by (rewrite <-Hpd; exact Hp). split_and!; [done|done| |].
    all: eapply (load_spec h r r σ st bf f pid Unswizzled p); try done; cbn; lia.
  - split; [rewrite <-Hpd; exact Hp|]. by exists p, st.
Qed.

Lemma give_back_spec σ bf : inv [bf] 0 σ →
  push_free bf σ = Fin tt (with_free σ (FreeList.frames (BufferPool.free_list σ) ++ [bf])) ∧
  keeps [] 0 σ (with_free σ (FreeList.frames (BufferPool.free_list σ) ++ [bf])).
Proof.
  intros I. split; [by eapply push_eq|]. split; [apply inv_push; [done|apply not_elem_of_nil]|apply quiet_with_free].
Qed.

Lemma popped_quiet r σ bf σ' : popped [] r σ bf σ' → quiet [] [] σ σ'.
Proof. by intros (_ & _ & ? & _). Qed.

Lemma valid_pid_quiet X h σ σ' pid : quiet X h σ σ' → valid_pid σ pid → valid_pid σ' pid.
Proof. intros Q. unfold valid_pid. by rewrite (sd_next _ _ (q_steady _ _ _ _ Q)). Qed.

Lemma fix_orphan_round_spec σ pid :
  inv [] 0 σ → all_calm σ → valid_pid σ pid →
  ends fixing (fix_orphan_round pid) σ (λ o σ', match o with
    | Some bf => fixed σ pid bf σ'
    | None => table_at σ pid = None ∧ BufferPool.resident_base_pages_available σ < 1 ∧ keeps [] 0 σ σ' ∧
        1 ≤ BufferPool.resident_base_pages_available σ'
    end).
Proof.
  intros I Hc Hv. unfold fix_orphan_round, popped_or_existing, table_lookup. do 2 pstep.
  change (PageTable.lookup (BufferPool.page_table σ) pid) with (table_at σ pid). destruct (table_at σ pid) as [s|] eqn:Ht.
  - (* resident *)
    destruct (table_live _ _ _ _ _ I Ht) as (f & E & Hf & Hp). destruct (calm_resident _ _ _ I Hc E Hf) as [Hs Hu].
    pstep. eapply ends_orelse; [done|]. pstep. rewrite Hs, Hp, Z.eqb_refl. rewrite bool_decide_eq_true_2 by done. cbn [andb].
    eapply ends_step; [by eapply pin_eq|]. unfold mark_referenced. pstep. cbn [give_back]. do 2 pstep.
    rewrite <-Hp. by apply (fixed_resident σ s f true).
  - do 2 apply ends_bind. eapply ends_mono; [by apply (pop_rounds_spec [] 0)|]. intros bf σ1 [(Hb & I1 & Q1 & f & E & Hf) Hav].
    do 2 pstep. cbn [fmap option_fmap option_map]. eapply ends_orelse; [done|]. pstep. rewrite Hf. rewrite bool_decide_eq_false_2 by done. cbn [andb].
    pose proof (quiet_all_calm _ _ _ Q1 Hc) as Hc1. destruct (Hc1 bf f E) as [Hu _]. pose proof (q_table _ _ _ _ Q1 _ Ht) as Ht1.
    apply ends_bind. eapply ends_mono; [apply never_fixing, fix_orphan_claim; [apply I1|done|done|done|done]|].
    intros act σ2. destruct (Z.leb_spec 1 (BufferPool.resident_base_pages_available σ1)) as [Ha|Ha]; intros [-> ->].
    + (* loaded *)
      apply ends_bind. eapply ends_mono; [eapply storing_fixing, orphan_load_spec; [done|done|done|by eapply valid_pid_quiet|done|done]|].
      intros [] σ2; [|intros [_ _]; by left]. intros Hload. eapply ends_orelse; [by rewrite assert_true|]. apply ends_bind.
      eapply ends_mono; [by apply never_fixing|]. intros _ σ3 (p & st & Hd & -> & I3 & S3). pstep. split; [done| | | |].
      * apply (all_calm_upd _ _ f); [|done|done|done]. intros s'. apply Hc1.
      * eexists. split; [by eapply upd_lookup|]. rewrite Ht. done.
      * intros s' g g' Hne Eg Eg'. eapply quiet_pins; [exact Q1| |done|exact Eg']. intros g1 E1. rewrite lookup_upd_ne by done.
        intros E2. change (BufferPool.arena σ1 !! s' = Some g') in E2. rewrite E1 in E2. by injection E2 as <-.
      * etrans; [apply Q1|done].
    + (* no token *)
      cbn [give_back]. destruct (give_back_spec _ _ I1) as [Ep K2]. eapply ends_step; [exact Ep|]. destruct K2 as [I2 Q2]. apply ends_bind.
      eapply ends_mono; [apply budget_rounds_spec; [exact I2|done]|]. intros _ σ3 [[I3 Q3] Ha3]. pstep. split_and!; [done| | |done].
      * apply Z.nle_gt. intros Ha0. rewrite Hav in Ha; [lia|]. apply (room_is_free 0); [done|lia].
      * split; [done|]. etrans; [exact Q1|]. by etrans.
Qed.

Lemma fix_orphan_raw_spec σ pid :
  inv [] 0 σ → all_calm σ → valid_pid σ pid → ends fixing (fix_orphan_raw 2 pid) σ (fixed σ pid).
Proof.
  intros I Hc Hv. unfold fix_orphan_raw. cbn [repeat_until]. apply ends_bind. eapply ends_mono; [by apply fix_orphan_round_spec|].
  intros [bf|] σ1; [intros; by pstep|]. intros (Ht & _ & [I1 Q1] & Ha). apply ends_bind.
  eapply ends_mono; [apply fix_orphan_round_spec; [done|by eapply quiet_all_calm|by eapply valid_pid_quiet]|].
  intros [bf|] σ2; [|lia]. intros Hfx. pstep. by eapply fixed_after.
Qed.
(** The same without waiting. *)

Lemma try_fix_orphan_claim σ bf f pid :
  length (BufferPool.page_table σ) = 8%nat → table_at σ pid = None → 1 ≤ BufferPool.resident_base_pages_available σ →
  BufferPool.arena σ !! bf = Some f → Frame.state f = Free → Frame.latch f = Unlatched →
  ends never (with_try_exclusive bf (try_fix_orphan_latched bf pid true)) σ (λ o σ',
    o = Some (inr tt) ∧ σ' = upd (entered pid bf σ) bf (loading_frame f pid)).
Proof.
  intros Hl Ht Ha E Hf Hu. eapply ends_with_try_exclusive; [done|by intros []|]. intros _. set (fl := Frame.with_latch f ExclusiveHeld). set (σ1 := upd σ bf fl).
  assert (E1 : BufferPool.arena σ1 !! bf = Some fl) by (by eapply upd_lookup). unfold try_fix_orphan_latched. pstep.
  assert (Hs : Frame.state fl = Free) by done. rewrite Hs. rewrite bool_decide_eq_false_2 by done. cbn [andb negb].
  apply enter_spec; [done|done|]. change (BufferPool.resident_base_pages_available σ1) with (BufferPool.resident_base_pages_available σ).
  rewrite (proj2 (Z.leb_le _ _)) by done. assert (E2 : BufferPool.arena (entered pid bf σ1) !! bf = Some fl) by done.
  unfold prepare_orphan_loading_frame. repeat pstep. eexists. split; [by eapply upd_lookup|]. split; [done|]. rewrite upd_upd.
  unfold σ1, upd, entered, loading_frame. cbn. rewrite list_insert_insert_eq. f_equal. f_equal. unfold Frame.with_latch. cbn.
  rewrite <-Hu. by destruct f.
Qed.

Definition given_up f (pid : PageId) p : Frame.t :=
  Frame.with_state (Frame.with_has_page_image_base (Frame.with_parent_link (Frame.with_pin_count
    (Frame.with_page (loading_frame f pid) p) 0) LinkNone) false) Free.

Lemma release_loading_spec σ bf f pid st p :
  inv [bf] 0 σ → all_calm σ → BufferPool.arena σ !! bf = Some f → Frame.state f = Free → valid_pid σ pid → table_at σ pid = None →
  1 ≤ BufferPool.resident_base_pages_available σ → ps_ok st → zlen p = PAGE_SIZE → (∀ q, ps_pid_ok q → ps_page st q = disk σ q) →
  ends never (release_loading_frame bf) (upd (BufferPool.with_page_store (entered pid bf σ) st) bf (Frame.with_page (loading_frame f pid) p))
    (λ _ σ', keeps [] 0 σ σ').
Proof.
  intros I Hc E Hf Hv Ht Ha Hst Hlen Hpages. pose proof (fo_local _ _ (inv_frames _ _ _ I bf f E)) as Hl.
  pose proof Hv as ((Hpos & _) & _ & Hok). destruct (Hc bf f E) as [Hu _]. destruct (fo_free _ _ Hl Hf) as (_ & Hd0 & Hk0).
  set (σ1 := BufferPool.with_page_store σ st). assert (I1 : inv [bf] 0 σ1) by (by apply inv_store_ext).
  assert (IP : in_place f (given_up f pid p)) by (by split). assert (Hlf : frame_local σ1 (given_up f pid p)).
  { destruct Hl. split; try done; by eapply valid_payload. }
  assert (I2 : inv [bf] 0 (upd σ1 bf (given_up f pid p))).
  { eapply inv_upd; [exact I1|exact E|exact IP| |exact Hlf]. by rewrite Hk0. }
  destruct (give_back_spec _ _ I2) as [Ep [I3 Q3]].
  unfold release_loading_frame. pstep. cbn [Frame.pid Frame.with_page loading_frame Frame.with_state Frame.with_referenced Frame.with_parent_link Frame.with_pid].
  destruct (Z.eqb_spec pid 0); [lia|]. cbn [negb]. unfold table_remove, release_resident_budget. repeat pstep.
  assert (Hav : wrap 64 (BufferPool.resident_base_pages_available σ - 1 + 1) = BufferPool.resident_base_pages_available σ).
  { rewrite Z.sub_simpl_r. apply wrap_small. pose proof (available_bound _ _ _ I ltac:(lia)). lia. }
  match goal with |- ends _ _ ?x _ => assert (Ex : x = upd σ1 bf (given_up f pid p)) end.
  { unfold σ1, upd, entered, given_up. cbn -[wrap]. rewrite list_insert_insert_eq, table_remove_insert, Hav by (apply I || done). by destruct σ. }
  rewrite Ex. eapply ends_Fin; [exact Ep|]. split; [done|]. etrans; [|exact Q3]. transitivity σ1.
  - apply quiet_ext; try done. apply steady_ext; try done. eauto.
  - eapply quiet_taken; [exact I1|exact E|exact IP|by rewrite Hf|by rewrite Hf| |apply (fo_pin _ _ Hl)].
    right. split_and!; try done; [apply not_elem_of_nil|by rewrite Hf].
Qed.

Lemma try_fix_orphan_raw_spec σ pid :
  inv [] 0 σ → all_calm σ → valid_pid σ pid →
  ends storing (try_fix_orphan_raw pid) σ (λ o σ', match o with
    | Some bf => fixed σ pid bf σ' ∧ (table_at σ pid = None → ∃ rest f f', FreeList.frames (BufferPool.free_list σ) = bf :: rest ∧
        BufferPool.arena σ !! bf = Some f ∧ BufferPool.arena σ' !! bf = Some f' ∧ Frame.generation f' = Frame.generation f)
    | None => keeps [] 0 σ σ' ∧ table_at σ pid = None ∧ (BufferPool.resident_base_pages_available σ = 0 ∨ disk σ pid = None)
    end).
Proof.
  intros I Hc Hv. unfold try_fix_orphan_raw, popped_or_existing, table_lookup. do 2 pstep.
  change (PageTable.lookup (BufferPool.page_table σ) pid) with (table_at σ pid). destruct (table_at σ pid) as [s|] eqn:Ht.
  - destruct (table_live _ _ _ _ _ I Ht) as (f & E & Hf & Hp). destruct (calm_resident _ _ _ I Hc E Hf) as [Hs Hu].
    do 2 pstep. rewrite !bool_decide_eq_false_2 by (by rewrite Hs). pstep. cbn [negb]. pstep. rewrite Hs, Hp, Z.eqb_refl.
    rewrite bool_decide_eq_true_2 by done. cbn [andb].
    eapply ends_step; [by eapply pin_eq|]. unfold mark_referenced. do 2 pstep. rewrite <-Hp. split; [by apply (fixed_resident σ s f true)|]. done.
  - destruct (FreeList.frames (BufferPool.free_list σ)) as [|bf rest] eqn:Ef.
    { eapply ends_step; [by rewrite pop_eq, Ef|]. pstep. apply ends_ret. split_and!; [by apply keeps_refl|done|]. left.
      pose proof (inv_available _ _ _ I). destruct (decide (BufferPool.resident_base_pages_available σ = 0)); [done|exfalso].
      by apply (room_is_free 0 σ I ltac:(lia)). }
    eapply ends_step; [by rewrite pop_eq, Ef|]. pstep. change ((λ bf0, (bf0, true)) <$> Some bf) with (Some (bf, true)).
    set (σ1 := with_free σ rest).
    destruct (inv_pop_frame _ _ _ _ _ I Ef) as (Hb & I1 & Q1 & f & E & Hf). fold σ1 in I1, Q1, E.
    pose proof (quiet_all_calm _ _ _ Q1 Hc) as Hc1. destruct (Hc1 bf f E) as [Hu _].
    assert (Ha : 1 ≤ BufferPool.resident_base_pages_available σ1).
    { pose proof (inv_budget _ _ _ I) as Hbud. destruct (inv_size _ _ _ I) as [Hz _].
      assert (count live (BufferPool.arena σ) < length (BufferPool.arena σ))%nat; [|unfold zlen in Hz; change (BufferPool.resident_base_pages_available σ1) with (BufferPool.resident_base_pages_available σ); lia].
      apply (count_lt_not live _ bf f E). unfold live. by rewrite bool_decide_eq_true_2. }
    pstep. rewrite !bool_decide_eq_false_2 by (by rewrite Hf). pstep. cbn [negb]. pstep. rewrite bool_decide_eq_false_2 by (by rewrite Hf). cbn [andb].
    apply ends_bind. eapply ends_mono; [eapply never_storing, try_fix_orphan_claim; [apply I1|done|done|done|done|done]|]. intros o σ2 [-> ->].
    apply ends_bind. eapply ends_mono; [eapply orphan_load_spec; [done|done|done|by eapply valid_pid_quiet|done|done]|]. intros [] σ2.
    + intros Hload. cbn [negb]. apply ends_bind. eapply ends_mono; [by apply never_storing|]. intros _ σ3 (p & st & Hd & -> & I3 & S3).
      pstep. split; [|intros _; exists rest, f; eexists; split_and!; [done|exact E|by eapply upd_lookup|done]]. split; [done| | | |].
      * apply (all_calm_upd _ _ f); [|done|done|done]. intros s'. apply Hc1.
      * eexists. split; [by eapply upd_lookup|]. rewrite Ht. done.
      * intros s' g g' Hne Eg Eg'. eapply quiet_pins; [exact Q1| |done|exact Eg']. intros g1 E1. rewrite lookup_upd_ne by done.
        intros E2. change (BufferPool.arena σ1 !! s' = Some g') in E2. rewrite E1 in E2. by injection E2 as <-.
      * etrans; [apply Q1|done].
    + intros (Hd & p & st & Hst & Hlen & Hpages & ->). cbn [negb]. apply ends_bind.
      eapply ends_mono; [eapply never_storing, release_loading_spec; try done; by eapply valid_pid_quiet|]. intros _ σ3 [I3 Q3]. pstep.
      split_and!; [split; [done|by etrans]|done|by right].
Qed.
End fix_spec.

(** * Buffer pool: pinning a page through a stable edge

    [fix_raw] and [try_fix_stable_word]: whatever state the edge is in, the
    frame they pin holds the page the edge was made for. *)

#[local] Open Scope Z_scope.

Section edge.
Context `{HookLaws}.
Implicit Types (σ : BufferPool.t) (f : Frame.t) (p d : list byte) (h : list nat) (r : Z).

(** What a pin by any route gives: the page, in a frame of its own; other
    frames in use are left, and no page changes. *)
Record held_page σ (pid : PageId) (bf : nat) σ' : Prop := {
  hp_inv : inv [] 0 σ';
  hp_calm : all_calm σ';
  hp_frame : ∃ f, BufferPool.arena σ' !! bf = Some f ∧ Frame.state f = Resident ∧ Frame.pid f = pid ∧
    match table_at σ pid with
    | Some s => s = bf ∧ ∃ f0, BufferPool.arena σ !! bf = Some f0 ∧ Frame.pin_count f = wrap 32 (Frame.pin_count f0 + 1) ∧
        Frame.page f = Frame.page f0
    | None => Frame.pin_count f = 1
    end;
  hp_others s f : s ≠ bf → BufferPool.arena σ !! s = Some f → Frame.state f ≠ Free → stays_resident f = true →
    ∃ f', BufferPool.arena σ' !! s = Some f' ∧ stays f f';
  hp_content q p : ps_pid_ok q → content σ q = Some p → keeps_page anywhere σ p (content σ' q);
  hp_next : BufferPool.next_page_id σ' = BufferPool.next_page_id σ;
  hp_owners o ow : BufferPool.owners σ !! o = Some ow → ∃ ow', BufferPool.owners σ' !! o = Some ow' ∧
    StableSwipOwner.page_id ow' = StableSwipOwner.page_id ow;
  hp_wal_rule : ordered_log → wal_rule σ → wal_rule σ';
}.

Lemma content_released σ bf q : inv [] 0 σ → content (released bf σ) q = content σ q.
Proof.
  intros I. unfold released. destruct (BufferPool.arena σ !! bf) as [f|] eqn:E; [|done].
  rewrite (content_upd _ _ _ _ _ _ _ I E). case_decide as D; [|done]. unfold content. by rewrite D, E.
Qed.

Lemma released_others σ bf s : s ≠ bf → BufferPool.arena (released bf σ) !! s = BufferPool.arena σ !! s.
Proof. intros Hne. unfold released. case_match; [|done]. by rewrite lookup_upd_ne. Qed.

Lemma released_rest σ bf : BufferPool.owners (released bf σ) = BufferPool.owners σ ∧ BufferPool.written (released bf σ) = BufferPool.written σ ∧
  BufferPool.next_page_id (released bf σ) = BufferPool.next_page_id σ.
Proof. unfold released. by case_match. Qed.

Lemma fixed_held σ pid bf σ' : fixed σ pid bf σ' → held_page σ pid bf σ'.
Proof.
  intros [I Hc Hf _ S]. destruct (released_rest σ' bf) as (Ho & Hw & Hn). split; try done.
  - intros s f Hne E Hs Hst. destruct (sd_frames _ _ S s f E Hs Hst) as (f' & E' & Hst'). exists f'. by rewrite released_others in E'.
  - intros q p Hq Ec. rewrite <-(content_released σ' bf q I). by apply (sd_content _ _ S).
  - rewrite <-Hn. apply (sd_next _ _ S).
  - intros o ow Eo. rewrite <-Ho. by apply (sd_owners _ _ S).
  - intros Ho' Hr. pose proof (sd_wal_rule _ _ S Ho' Hr) as Hr'. unfold wal_rule in *. by rewrite Hw in Hr'.
Qed.

Lemma held_after σ σ1 pid bf σ' :
  quiet [] [] σ σ1 → table_at σ pid = None → held_page σ1 pid bf σ' → held_page σ pid bf σ'.
Proof.
  intros Q1 Ht [I Hc (f & E & Hs & Hp & Hpin) Hoth Hcon Hn Hown Hw]. pose proof (q_steady _ _ _ _ Q1) as S1.
  rewrite (q_table _ _ _ _ Q1 _ Ht) in Hpin. split; [done|done| | | | | |].
  - exists f. by rewrite Ht.
  - intros s g Hne Eg Hg Hst. destruct (sd_frames _ _ S1 s g Eg Hg Hst) as (g1 & E1 & St1).
    destruct (Hoth s g1 Hne E1) as (g2 & E2 & St2); [by rewrite (st_state _ _ St1)|by rewrite (stays_stays_resident _ _ St1)|].
    exists g2. split; [done|by eapply stays_trans].
  - intros q p Hq Ec. eapply keeps_page_trans; [apply S1|done|by apply (sd_content _ _ S1)|]. intros p1 E1. by apply Hcon.
  - by rewrite Hn, (sd_next _ _ S1).
  - intros o ow Eo. destruct (sd_owners _ _ S1 o ow Eo) as (ow1 & E1 & P1). destruct (Hown o ow1 E1) as (ow2 & E2 & P2).
    exists ow2. split; [done|congruence].
  - intros Ho Hr. apply Hw; [done|]. by apply (sd_wal_rule _ _ S1).
Qed.

(** The frame behind a reference. *)
Lemma frame_of_hot h r σ s f : inv h r σ → BufferPool.arena σ !! s = Some f →
  frame_of_swip (encode (HotPtr (frame_ptr s))) σ = Fin (Some s) σ.
Proof.
  intros I E. destruct (frame_ptr_ok _ _ _ _ _ I E) as (Hp & Hc & Hs). unfold frame_of_swip.
  assert (Ha : SwipWord.as_ptr (encode (HotPtr (frame_ptr s))) = Ret (frame_ptr s)).
  { destruct (is_encode (HotPtr (frame_ptr s)) Hp) as (_ & _ & He). unfold SwipWord.as_ptr, SwipWord.pointer_bits. rewrite He.
    rewrite debug_assert_true by done. rewrite bind_Ret. f_equal. by apply pointer_bits_of_encode. }
  rewrite Ha. unfold orelse, pget, mbind, PM_bind. unfold id. by rewrite Hc, Hs.
Qed.

Lemma as_page_id_evicted pid : payload_ok pid → SwipWord.as_page_id (encode (EvictedPage pid)) = Ret pid.
Proof.
  intros Hp. destruct (is_encode (EvictedPage pid) Hp) as (_ & _ & He). unfold SwipWord.as_page_id, SwipWord.page_id. rewrite He.
  rewrite debug_assert_true by done. rewrite bind_Ret. f_equal. by apply page_id_of_encode.
Qed.

(** *** An edge that is hot *)

Lemma fix_hot_spec σ s f :
  inv [] 0 σ → all_calm σ → BufferPool.arena σ !! s = Some f → Frame.state f ≠ Free →
  ends never (fix_hot (encode (HotPtr (frame_ptr s)))) σ (λ o σ', o = Some s ∧ fixed σ (Frame.pid f) s σ').
Proof.
  intros I Hc E Hf. destruct (calm_resident _ _ _ I Hc E Hf) as [Hs Hu]. unfold fix_hot.
  eapply ends_step; [by eapply frame_of_hot|]. eapply ends_orelse; [done|]. pstep. rewrite Hs. unfold optimistic_or_restart.
  do 3 pstep. rewrite Hu, bool_decide_eq_true_2 by done. cbn [negb]. eapply ends_step; [by eapply pin_eq|]. unfold mark_referenced. do 2 pstep.
  split; [done|]. by apply (fixed_resident σ s f true).
Qed.

(** *** An edge that names a resident page *)

Definition hot_owner (s : nat) (ow : StableSwipOwner.t) : StableSwipOwner.t :=
  {| StableSwipOwner.word := encode (HotPtr (frame_ptr s)); StableSwipOwner.page_id := StableSwipOwner.page_id ow |}.

Definition with_hot σ (owner : Z) (s : nat) (ow : StableSwipOwner.t) : BufferPool.t :=
  BufferPool.with_owners σ (<[owner := hot_owner s ow]> (BufferPool.owners σ)).

(** The frame's link is free to become the edge's. *)
Definition ours (owner : Z) (link : ParentLink) : bool :=
  match link with
  | LinkNone | Unswizzled => true
  | Stable edge => edge =? owner
  | InnerNode _ => false
  end.

Lemma inv_reswizzle h r σ s f owner ow :
  inv h r σ → BufferPool.arena σ !! s = Some f → Frame.state f ≠ Free → BufferPool.owners σ !! owner = Some ow →
  StableSwipOwner.page_id ow = Frame.pid f → ours owner (Frame.parent_link f) = true →
  inv h r (upd (with_hot σ owner s ow) s (Frame.with_parent_link f (Stable owner))).
Proof.
  intros I E Hf Eo Hp Hours. set (f' := Frame.with_parent_link f (Stable owner)).
  pose proof (fo_local _ _ (inv_frames _ _ _ I s f E)) as Hl.
  assert (I1 : inv h r (upd σ s f')).
  { eapply inv_upd_link; [done|done|by split|done| | |].
    - intros o _ [= <-]. by exists ow.
    - intros o ow' Eo' _ Hlk. rewrite Hlk in Hours. cbn in Hours. apply Z.eqb_eq in Hours. by subst o.
    - destruct Hl. by split. }
  change (upd (with_hot σ owner s ow) s f') with (with_hot (upd σ s f') owner s ow). eapply inv_with_owner; [done|done|done|].
  split; [change (valid_pid σ (StableSwipOwner.page_id ow)); rewrite Hp; by apply (fo_live _ _ Hl Hf)|]. right. exists s, f'. split_and!; try done. by eapply upd_lookup.
Qed.

Lemma owner_at_eq σ owner ow : BufferPool.owners σ !! owner = Some ow → owner_at owner σ = Fin ow σ.
Proof. intros Eo. unfold owner_at, pget, orelse, mbind, PM_bind. by rewrite Eo. Qed.

Lemma owner_cas_eq σ owner ow s : BufferPool.owners σ !! owner = Some ow →
  owner_compare_exchange owner (StableSwipOwner.word ow) (encode (HotPtr (frame_ptr s))) σ = Fin true (with_hot σ owner s ow).
Proof.
  intros Eo. unfold owner_compare_exchange. erewrite bind_Fin by (by apply owner_at_eq).
  unfold AtomicSwipWord.compare_exchange, SwipWord.raw. by rewrite Z.eqb_refl.
Qed.

(** The frame [f] of the page, pinned, with the edge that names it made hot
    when the link allows. *)
Definition relinked σ owner ow s f : BufferPool.t :=
  if ours owner (Frame.parent_link f)
  then upd (with_hot σ owner s ow) s (Frame.with_parent_link f (Stable owner)) else upd σ s f.

Lemma held_relinked σ owner ow s f :
  inv [] 0 σ → all_calm σ → BufferPool.arena σ !! s = Some f → Frame.state f = Resident → BufferPool.owners σ !! owner = Some ow →
  StableSwipOwner.page_id ow = Frame.pid f → held_page σ (Frame.pid f) s (relinked σ owner ow s (touched true f)).
Proof.
  intros I Hc E Hs Eo Hp. pose proof (fixed_resident σ s f true I Hc E Hs) as Hfx. pose proof (fixed_held _ _ _ _ Hfx) as Hh.
  unfold relinked. change (Frame.parent_link (touched true f)) with (Frame.parent_link f).
  destruct (ours owner (Frame.parent_link f)) eqn:Hours; [|done]. set (f' := Frame.with_parent_link (touched true f) (Stable owner)).
  assert (E1 : BufferPool.arena (upd σ s (touched true f)) !! s = Some (touched true f)) by (by eapply upd_lookup).
  assert (I2 : inv [] 0 (upd (with_hot σ owner s ow) s f')).
  { assert (Hup : upd (with_hot σ owner s ow) s f' = upd (with_hot (upd σ s (touched true f)) owner s ow) s f')
      by (unfold with_hot, upd; cbn; by rewrite list_insert_insert_eq).
    rewrite Hup. apply inv_reswizzle; try done; [apply Hfx|cbn; by rewrite Hs]. }
  destruct Hh as [_ _ (g & Eg & Hg & Hpg & Hpin) Hoth Hcon Hn Hown Hw]. rewrite E1 in Eg. injection Eg as <-. split; try done.
  - apply (all_calm_upd _ _ f); [exact Hc|done|by apply (Hc s f)|cbn; by rewrite Hs].
  - exists f'. split_and!; [by eapply upd_lookup|done|done|done].
  - intros s' g Hne. intros Eg' Hg' Hst. exists g. rewrite lookup_upd_ne by done. split; [done|apply stays_refl].
  - intros q p Hq Ec. specialize (Hcon q p Hq Ec).
    enough (Heq : content (upd (with_hot σ owner s ow) s f') q = content (upd σ s (touched true f)) q) by (by rewrite Heq).
    unfold content. change (table_at (upd (with_hot σ owner s ow) s f') q) with (table_at σ q).
    change (table_at (upd σ s (touched true f)) q) with (table_at σ q). destruct (table_at σ q) as [s'|]; [|done].
    destruct (decide (s = s')) as [<-|Hne]; [|by rewrite !lookup_upd_ne]. rewrite E1. by erewrite upd_lookup.
  - intros o ow0 E0. cbn. destruct (decide (owner = o)) as [<-|Hne].
    + rewrite lookup_insert_eq. rewrite Eo in E0. injection E0 as <-. by eexists.
    + rewrite lookup_insert_ne by done. eauto.
Qed.
Lemma reswizzle_eq h r σ owner ow bf f :
  inv h r σ → BufferPool.arena σ !! bf = Some f → Frame.state f = Resident → BufferPool.owners σ !! owner = Some ow →
  reswizzle_stable_resident_locked owner (StableSwipOwner.word ow) bf (Frame.pid f) σ = Fin tt (relinked σ owner ow bf f).
Proof.
  intros I E Hs Eo. unfold reswizzle_stable_resident_locked, relinked. erewrite bind_Fin by (by apply frame_at_eq).
  rewrite bool_decide_eq_true_2, Z.eqb_refl by done. cbn [negb orb]. fold (ours owner (Frame.parent_link f)).
  destruct (ours owner (Frame.parent_link f)) eqn:Hours; cbn [negb]; [|by rewrite upd_same].
  destruct (frame_ptr_ok _ _ _ _ _ I E) as (Hp & _ & _). rewrite (hot_word _ Hp).
  erewrite bind_Fin by reflexivity. erewrite bind_Fin by (by apply owner_cas_eq). by apply fset_eq.
Qed.

(** The page is resident: [fix_latched] pins it. *)
Lemma fix_latched_resident σ owner ow bf f :
  inv [] 0 σ → all_calm σ → BufferPool.arena σ !! bf = Some f → Frame.state f = Resident → BufferPool.owners σ !! owner = Some ow →
  StableSwipOwner.page_id ow = Frame.pid f →
  ends never (with_exclusive bf (
    res ← fix_latched owner (StableSwipOwner.word ow) bf (Frame.pid f) false;
    match res with
    | inl end_ => mret end_
    | inr _ => fix_load owner (StableSwipOwner.word ow) bf (Frame.pid f)
    end)) σ (λ e σ', e = FixDone bf ∧ held_page σ (Frame.pid f) bf σ').
Proof.
  intros I Hc E Hs Eo Hp. destruct (Hc bf f E) as [Hu _]. assert (Hf : Frame.state f ≠ Free) by (by rewrite Hs).
  eapply ends_with_exclusive; [done|done|]. set (fl := Frame.with_latch f ExclusiveHeld). set (σ1 := upd σ bf fl).
  assert (E1 : BufferPool.arena σ1 !! bf = Some fl) by (by eapply upd_lookup). unfold fix_latched. do 2 pstep.
  assert (Hsl : Frame.state fl = Resident) by done. assert (Hpl : Frame.pid fl = Frame.pid f) by done.
  rewrite Hsl, Hpl, Z.eqb_refl. rewrite bool_decide_eq_true_2 by done. cbn [andb].
  eapply ends_step; [by eapply pin_eq|]. unfold mark_referenced. pstep. fold (touched true fl).
  set (σ2 := upd σ1 bf (touched true fl)). assert (E2 : BufferPool.arena σ2 !! bf = Some (touched true fl)) by (by eapply upd_lookup).
  assert (I2 : inv [] 0 σ2).
  { unfold σ2, σ1. rewrite upd_upd. pose proof (fo_local _ _ (inv_frames _ _ _ I bf f E)) as Hl.
    eapply inv_upd; [done|done|split; [done|done|intros _; by left]|done|]. destruct Hl. split; try done. cbn. unfold wrap.
    apply Z.mod_pos_bound. lia. }
  eapply ends_step; [exact (reswizzle_eq [] 0 σ2 owner ow bf (touched true fl) I2 E2 Hs Eo)|]. do 2 pstep.
  assert (Hlen : (bf < length (BufferPool.arena σ))%nat) by (by eapply lookup_lt_Some).
  assert (Hend : ∃ f', BufferPool.arena (relinked σ2 owner ow bf (touched true fl)) !! bf = Some f' ∧
    upd (relinked σ2 owner ow bf (touched true fl)) bf (Frame.with_latch f' Unlatched) = relinked σ owner ow bf (touched true f)).
  { unfold relinked. change (Frame.parent_link (touched true fl)) with (Frame.parent_link f).
    change (Frame.parent_link (touched true f)) with (Frame.parent_link f).
    destruct (ours owner (Frame.parent_link f)); eexists; (split; [by eapply upd_lookup|]); rewrite upd_upd.
    - unfold with_hot, σ2, σ1, upd. cbn. rewrite !list_insert_insert_eq. f_equal. f_equal.
      unfold touched, pinned, fl, Frame.with_parent_link, Frame.with_latch, Frame.with_referenced, Frame.with_pin_count. cbn. by rewrite Hu.
    - unfold σ2, σ1. rewrite !upd_upd. f_equal.
      unfold touched, pinned, fl, Frame.with_latch, Frame.with_referenced, Frame.with_pin_count. cbn. by rewrite Hu. }
  destruct Hend as (f' & E' & Heq). exists f'. split; [done|]. rewrite Heq. split; [done|]. by apply held_relinked.
Qed.
(** The page is loaded into a free frame, under its latch. *)
Lemma install_loaded_eq σ bf f pid link :
  BufferPool.arena σ !! bf = Some f →
  install_loaded_frame_metadata bf pid link 1 σ = Fin tt (upd σ bf (loaded_frame f pid link (Frame.page f) (Frame.state f))).
Proof.
  intros E. enough (Hends : ends never (install_loaded_frame_metadata bf pid link 1) σ
    (λ _ σ', σ' = upd σ bf (loaded_frame f pid link (Frame.page f) (Frame.state f)))).
  { unfold ends in Hends. destruct (install_loaded_frame_metadata bf pid link 1 σ) as [[]| |]; [by rewrite Hends|done|done]. }
  unfold install_loaded_frame_metadata, set_wal_buffer. repeat pstep. done.
Qed.

Lemma all_calm_same σ σ' : BufferPool.arena σ' = BufferPool.arena σ → all_calm σ → all_calm σ'.
Proof. intros Ea Hc s f. rewrite Ea. apply Hc. Qed.

(** A loaded page, with its edge made hot. *)
Definition edge_loaded σ owner ow bf f p st : BufferPool.t :=
  upd (with_hot (BufferPool.with_page_store (entered (StableSwipOwner.page_id ow) bf σ) st) owner bf ow) bf
    (loaded_frame f (StableSwipOwner.page_id ow) (Stable owner) p Resident).

Lemma held_loaded σ owner ow bf f p st :
  inv [bf] 0 σ → all_calm σ → BufferPool.arena σ !! bf = Some f → Frame.latch f = Unlatched →
  BufferPool.owners σ !! owner = Some ow → table_at σ (StableSwipOwner.page_id ow) = None →
  1 ≤ BufferPool.resident_base_pages_available σ → ps_ok st → (∀ q, ps_pid_ok q → ps_page st q = disk σ q) →
  ps_page st (StableSwipOwner.page_id ow) = Some p →
  held_page σ (StableSwipOwner.page_id ow) bf (edge_loaded σ owner ow bf f p st).
Proof.
  intros I Hc E Hu Eo Ht Ha Hst Hpages Hp. set (pid := StableSwipOwner.page_id ow) in *.
  destruct (inv_owners _ _ _ I owner ow Eo) as [Hv _]. set (f' := loaded_frame f pid (Stable owner) p Resident).
  set (σ1 := upd (BufferPool.with_page_store (entered pid bf σ) st) bf f').
  destruct (load_spec [] 0 0 σ st bf f pid (Stable owner) p σ1) as (I1 & S1 & S1'); try done; try (cbn; lia).
  { apply not_elem_of_nil. }
  { intros o [= <-]. by exists ow. }
  assert (E1 : BufferPool.arena σ1 !! bf = Some f') by (by eapply upd_lookup).
  change (edge_loaded σ owner ow bf f p st) with (with_hot σ1 owner bf ow).
  assert (I2 : inv [] 0 (with_hot σ1 owner bf ow)).
  { eapply inv_with_owner; [done|done|done|]. split; [done|]. right. by exists bf, f'. }
  split; try done.
  - apply (all_calm_same σ1); [done|]. by apply (all_calm_upd _ _ f).
  - exists f'. by rewrite Ht.
  - intros s g Hne Eg _ _. exists g. split; [|apply stays_refl]. change (BufferPool.arena σ1 !! s = Some g). unfold σ1. by rewrite lookup_upd_ne.
  - intros q p0 Hq Ec. exact (sd_content _ _ S1 q p0 Hq Ec).
  - intros o ow0 E0. cbn. destruct (decide (owner = o)) as [<-|Hne].
    + rewrite lookup_insert_eq. rewrite Eo in E0. injection E0 as <-. by eexists.
    + rewrite lookup_insert_ne by done. eauto.
Qed.

Lemma fix_latched_free σ owner ow bf f :
  inv [bf] 0 σ → all_calm σ → BufferPool.arena σ !! bf = Some f → Frame.state f = Free →
  BufferPool.owners σ !! owner = Some ow → table_at σ (StableSwipOwner.page_id ow) = None →
  ends storing (with_exclusive bf (
    res ← fix_latched owner (StableSwipOwner.word ow) bf (StableSwipOwner.page_id ow) true;
    match res with
    | inl end_ => mret end_
    | inr _ => fix_load owner (StableSwipOwner.word ow) bf (StableSwipOwner.page_id ow)
    end)) σ (λ e σ', if 1 <=? BufferPool.resident_base_pages_available σ
      then e = FixDone bf ∧ held_page σ (StableSwipOwner.page_id ow) bf σ' else e = FixWait true ∧ σ' = σ).
Proof.
  intros I Hc E Hf Eo Ht. destruct (Hc bf f E) as [Hu _]. set (pid := StableSwipOwner.page_id ow) in *.
  destruct (inv_owners _ _ _ I owner ow Eo) as [Hv _]. pose proof Hv as (_ & _ & Hok).
  pose proof (fo_local _ _ (inv_frames _ _ _ I bf f E)) as Hl.
  eapply ends_with_exclusive; [done|done|]. set (fl := Frame.with_latch f ExclusiveHeld). set (σ1 := upd σ bf fl).
  assert (E1 : BufferPool.arena σ1 !! bf = Some fl) by (by eapply upd_lookup). unfold fix_latched. do 2 pstep.
  assert (Hsl : Frame.state fl = Free) by done. rewrite Hsl. rewrite bool_decide_eq_false_2 by done. cbn [andb negb].
  apply enter_spec; [apply I|done|]. change (BufferPool.resident_base_pages_available σ1) with (BufferPool.resident_base_pages_available σ).
  destruct (Z.leb_spec 1 (BufferPool.resident_base_pages_available σ)) as [Ha|Ha].
  2: { pstep. apply ends_ret. exists fl. split; [done|]. split; [done|]. unfold σ1. rewrite upd_upd.
       rewrite (proj1 (relatched f Hu) : Frame.with_latch fl Unlatched = f). by apply upd_same. }
  assert (E2 : BufferPool.arena (entered pid bf σ1) !! bf = Some fl) by done. unfold mark_referenced. do 4 pstep.
  set (fd := Frame.with_state _ Loading). set (σ2 := upd _ bf fd).
  assert (Ed : BufferPool.arena σ2 !! bf = Some fd) by (by eapply upd_lookup).
  unfold fix_load. apply ends_bind. eapply ends_mono; [eapply read_into_spec; [apply (inv_store _ _ _ I)|done|exact Ed|apply Hl]|].
  intros found σ3 (st & p & Hst & Hlen & Hpages & -> & Hp). destruct found; [|done]. eapply ends_orelse; [by rewrite assert_true|].
  set (σ3 := upd (BufferPool.with_page_store σ2 st) bf (Frame.with_page fd p)).
  assert (E3 : BufferPool.arena σ3 !! bf = Some (Frame.with_page fd p)) by (by eapply upd_lookup).
  eapply ends_step; [by apply install_loaded_eq|]. destruct (frame_ptr_ok _ _ _ _ _ I E) as (Hptr & _ & _).
  eapply ends_orelse; [by apply hot_word|]. eapply ends_step; [by apply owner_cas_eq|]. cbn [negb].
  pose proof (upd_lookup _ _ (loaded_frame (Frame.with_page fd p) pid (Stable owner) p Loading) _ E3) as E4.
  eapply ends_step; [eapply transition_eq; [exact E4|done]|]. pstep.
  eexists. split; [eapply upd_lookup; exact E4|]. rewrite upd_upd. split; [done|].
  match goal with |- held_page _ _ _ ?x => assert (Ex : x = edge_loaded σ owner ow bf f p st) end.
  { unfold edge_loaded, with_hot, σ3, σ2, σ1, upd, entered. cbn. rewrite !list_insert_insert_eq. f_equal. f_equal.
    unfold loaded_frame, fd, fl. cbn. by rewrite Hu. }
  rewrite Ex. by apply held_loaded.
Qed.
Lemma keeps_owner h r σ σ' o ow : keeps h r σ σ' → BufferPool.owners σ !! o = Some ow →
  ∃ ow', BufferPool.owners σ' !! o = Some ow' ∧ StableSwipOwner.page_id ow' = StableSwipOwner.page_id ow.
Proof. intros [_ Q]. apply (sd_owners _ _ (q_steady _ _ _ _ Q)). Qed.

(** Popping a frame leaves the edges of pages that are not resident alone. *)
Lemma evicted_edge h r σ o ow : inv h r σ → BufferPool.owners σ !! o = Some ow → table_at σ (StableSwipOwner.page_id ow) = None →
  StableSwipOwner.word ow = encode (EvictedPage (StableSwipOwner.page_id ow)).
Proof.
  intros I Eo Ht. destruct (inv_owners _ _ _ I o ow Eo) as [_ [Hw|(s & f & _ & E & Hf & _ & Hp)]]; [done|].
  rewrite <-Hp, (live_table _ _ _ _ _ I E Hf) in Ht. done.
Qed.

Lemma fix_round_spec σ owner ow :
  inv [] 0 σ → all_calm σ → BufferPool.owners σ !! owner = Some ow →
  ends fixing (fix_round owner) σ (λ o σ', match o with
    | Some bf => held_page σ (StableSwipOwner.page_id ow) bf σ'
    | None => table_at σ (StableSwipOwner.page_id ow) = None ∧ BufferPool.resident_base_pages_available σ < 1 ∧ keeps [] 0 σ σ' ∧
        1 ≤ BufferPool.resident_base_pages_available σ'
    end).
Proof.
  intros I Hc Eo. set (pid := StableSwipOwner.page_id ow). destruct (inv_owners _ _ _ I owner ow Eo) as [Hv Hword].
  fold pid in Hv, Hword. pose proof (valid_payload _ _ Hv) as Hpay. unfold fix_round.
  eapply ends_step; [by apply owner_at_eq|]. change (StableSwipOwner.load ow) with (StableSwipOwner.word ow).
  destruct Hword as [Hw|(s & f & Hw & E & Hf & Hlk & Hp)].
  2: { (* hot *)
    destruct (frame_ptr_ok _ _ _ _ _ I E) as (Hptr & _ & _). destruct (is_encode (HotPtr (frame_ptr s)) Hptr) as (Hh & _ & _).
    rewrite Hw, Hh. rewrite bool_decide_eq_true_2 by done. cbn [orb]. rewrite <-Hp.
    eapply ends_mono; [by apply never_fixing, (fix_hot_spec σ s f)|]. intros o σ' [-> Hfx]. by apply fixed_held. }
  destruct (is_encode (EvictedPage pid) Hpay) as (Hh & Hcool & _). rewrite Hw at 1 2. rewrite Hh, Hcool.
  rewrite !bool_decide_eq_false_2 by done. cbn [orb].
  eapply ends_orelse; [rewrite Hw; by apply as_page_id_evicted|]. pstep. destruct Hv as (Hv1 & Hv2 & Hv3).
  eapply ends_orelse; [apply assert_true, Z.ltb_lt; lia|].
  eapply ends_orelse; [apply assert_true, andb_true_iff; unfold physical_page_number; split; apply Z.ltb_lt; lia|].
  unfold popped_or_existing, table_lookup. do 2 pstep.
  change (PageTable.lookup (BufferPool.page_table σ) pid) with (table_at σ pid). destruct (table_at σ pid) as [s|] eqn:Ht.
  - (* resident *)
    destruct (table_live _ _ _ _ _ I Ht) as (f & E & Hf & Hp). destruct (calm_resident _ _ _ I Hc E Hf) as [Hs Hu].
    pstep. eapply ends_orelse; [done|]. cbv iota. apply ends_bind. rewrite <-Hp.
    eapply ends_mono; [by apply never_fixing, fix_latched_resident|]. intros e σ1 [-> Hh1]. by pstep.
  - do 2 apply ends_bind. eapply ends_mono; [by apply (pop_rounds_spec [] 0)|]. intros bf σ1 [(Hb & I1 & Q1 & f & E & Hf) Hav].
    do 2 pstep. cbn [fmap option_fmap option_map]. eapply ends_orelse; [done|]. cbv iota.
    pose proof (quiet_all_calm _ _ _ Q1 Hc) as Hc1. pose proof (q_table _ _ _ _ Q1 _ Ht) as Ht1.
    destruct (sd_owners _ _ (q_steady _ _ _ _ Q1) owner ow Eo) as (ow1 & Eo1 & Hp1). fold pid in Hp1.
    assert (Hw1 : StableSwipOwner.word ow1 = StableSwipOwner.word ow).
    { rewrite Hw, <-Hp1. eapply evicted_edge; [exact I1|done|by rewrite Hp1]. }
    rewrite <-Hp1, <-Hw1. rewrite <-Hp1 in Ht1. apply ends_bind.
    eapply ends_mono; [by eapply storing_fixing, fix_latched_free|]. intros e σ2.
    destruct (Z.leb_spec 1 (BufferPool.resident_base_pages_available σ1)) as [Ha|Ha].
    + intros [-> Hh1]. pstep. eapply held_after; [exact Q1|by rewrite Hp1|done].
    + intros [-> ->]. cbn [give_back]. destruct (give_back_spec _ _ I1) as [Ep [I2 Q2]]. eapply ends_step; [exact Ep|]. apply ends_bind.
      eapply ends_mono; [apply budget_rounds_spec; [exact I2|done]|]. intros _ σ3 [[I3 Q3] Ha3]. pstep. split_and!; [done| | |done].
      * apply Z.nle_gt. intros Ha0. rewrite Hav in Ha; [lia|]. apply (room_is_free 0); [done|lia].
      * split; [done|]. etrans; [exact Q1|]. by etrans.
Qed.

Lemma fix_raw_spec σ owner ow :
  inv [] 0 σ → all_calm σ → BufferPool.owners σ !! owner = Some ow →
  ends fixing (fix_raw 2 owner) σ (held_page σ (StableSwipOwner.page_id ow)).
Proof.
  intros I Hc Eo. unfold fix_raw. cbn [repeat_until]. apply ends_bind. eapply ends_mono; [by apply fix_round_spec|].
  intros [bf|] σ1; [intros; by pstep|]. intros (Ht & _ & K1 & Ha). destruct (keeps_owner _ _ _ _ _ _ K1 Eo) as (ow1 & Eo1 & Hp1).
  apply ends_bind. eapply ends_mono; [apply (fix_round_spec σ1 owner ow1); [apply K1|eapply quiet_all_calm; [apply K1|done]|done]|].
  rewrite Hp1. intros [bf|] σ2; [|lia]. intros Hh. pstep. eapply held_after; [apply K1|done|done].
Qed.

(** Without waiting: the page if it is resident; nothing is loaded. *)
Lemma try_fix_stable_word_spec σ owner ow :
  inv [] 0 σ → all_calm σ → BufferPool.owners σ !! owner = Some ow →
  ends never (try_fix_stable_word owner) σ (λ o σ', match o with
    | Some bf => fixed σ (StableSwipOwner.page_id ow) bf σ'
    | None => σ' = σ ∧ table_at σ (StableSwipOwner.page_id ow) = None
    end).
Proof.
  intros I Hc Eo. set (pid := StableSwipOwner.page_id ow). destruct (inv_owners _ _ _ I owner ow Eo) as [Hv Hword].
  fold pid in Hv, Hword. pose proof (valid_payload _ _ Hv) as Hpay. unfold try_fix_stable_word.
  eapply ends_step; [by apply owner_at_eq|]. change (StableSwipOwner.load ow) with (StableSwipOwner.word ow).
  destruct Hword as [Hw|(s & f & Hw & E & Hf & Hlk & Hp)].
  2: { destruct (frame_ptr_ok _ _ _ _ _ I E) as (Hptr & _ & _). destruct (is_encode (HotPtr (frame_ptr s)) Hptr) as (Hh & _ & _).
    destruct (calm_resident _ _ _ I Hc E Hf) as [Hs Hu]. rewrite Hw, Hh. rewrite bool_decide_eq_true_2 by done. cbn [orb].
    eapply ends_step; [by eapply frame_of_hot|]. eapply ends_orelse; [by rewrite debug_assert_true|]. pstep. rewrite Hs.
    rewrite bool_decide_eq_true_2 by done. cbn [negb]. eapply ends_step; [by eapply pin_eq|]. pstep. rewrite <-Hp.
    by apply (fixed_resident σ s f (Frame.referenced f)). }
  destruct (is_encode (EvictedPage pid) Hpay) as (Hh & Hcool & _). rewrite Hw, Hh, Hcool.
  rewrite !bool_decide_eq_false_2 by done. cbn [orb]. eapply ends_orelse; [by apply as_page_id_evicted|].
  unfold try_fix_resident_page, table_lookup. pstep.
  change (PageTable.lookup (BufferPool.page_table σ) pid) with (table_at σ pid). destruct (table_at σ pid) as [s|] eqn:Ht; [|by pstep].
  destruct (table_live _ _ _ _ _ I Ht) as (f & E & Hf & Hp). destruct (calm_resident _ _ _ I Hc E Hf) as [Hs Hu].
  pstep. rewrite Hs. rewrite bool_decide_eq_true_2 by done. cbn [negb]. unfold optimistic_or_restart. do 3 pstep.
  rewrite Hu, bool_decide_eq_true_2 by done. cbn [negb]. eapply ends_step; [by eapply pin_eq|]. pstep. rewrite <-Hp.
  by apply (fixed_resident σ s f (Frame.referenced f)).
Qed.
End edge.
