(* ===== verification/PoolDirtySpec.v ===== *)
(** * Buffer pool: what marking a page dirty does

    A page that was changed in its frame is marked: its image is in the log
    under a new LSN, which the page and its frame carry, and the frame is
    dirty. Nothing else changes. *)

From S2P Require Import Prelude Bytes FrameKernel SwipKernel PageHeader PageMutation Slotted BufferFrame FreePages Posix PageStore BufferPool PoolBase PoolEvict PoolFlush PoolFix PoolInv PoolSteps PoolEvictSpec PoolFlushSpec PoolFixSpec.
#[local] Open Scope Z_scope.

(** Appending to the log returns, with an LSN that fits; what was durable
    stays durable. *)
Class LogAppends `{LogLaws} := {
  claims_lsn w lsn w' : log_claim_lsn w = Ret (lsn, w') → 0 ≤ lsn < 2 ^ 64;
  appends_image w lsn pid d : ∃ res w', log_append_page_image lsn pid d w = Done res w';
  overwrites_image w rec lsn pid d : ∃ res w', log_try_overwrite_page_image rec lsn pid d w = Done res w';
}.

Section dirty.
Context `{HookLaws} `{!LogAppends}.
Implicit Types (σ : BufferPool.t) (f : Frame.t) (p d : list byte) (h : list nat) (r : Z).

(** Why a mark may panic: an append failed, or the LSNs are used up. *)
Definition marking (why : panic_reason) : Prop := why = WalFailed ∨ why = LsnOver.

(** [f'] is [f] with the page [p], marked. *)
Record marked f p f' : Prop := {
  mk_dirty : Frame.dirty f' = true;
  mk_page : Frame.page f' = p;
  mk_lsn : Frame.page_lsn f' = read_page_lsn p;
  mk_state : Frame.state f' = Frame.state f;
  mk_pid : Frame.pid f' = Frame.pid f;
  mk_pin : Frame.pin_count f' = Frame.pin_count f;
  mk_latch : Frame.latch f' = Frame.latch f;
  mk_generation : Frame.generation f' = Frame.generation f;
  mk_link : Frame.parent_link f' = Frame.parent_link f;
}.

(** A page that may replace the page of a frame. *)
Record writable f p : Prop := {
  wt_len : zlen p = PAGE_SIZE;
  wt_kind : parent_kind (Frame.page f) → parent_kind p;
  wt_node : is_inner_index_page p = true → node_ok p;
}.

Lemma inv_marked h r σ bf f p f' :
  inv h r σ → BufferPool.arena σ !! bf = Some f → Frame.state f ≠ Free → writable f p → marked f p f' → inv h r (upd σ bf f').
Proof.
  intros I E Hf [Hlen Hk Hn] M. pose proof (inv_frames _ _ _ I bf f E) as [Hl Hh Ho].
  eapply inv_upd_link; [done|done| | | | |].
  - split; [by rewrite (mk_state _ _ _ M)|by rewrite (mk_pid _ _ _ M)|by rewrite (mk_page _ _ _ M)].
  - rewrite (mk_link _ _ _ M). apply Hh.
  - rewrite (mk_link _ _ _ M). apply Ho.
  - by rewrite (mk_link _ _ _ M).
  - destruct (fo_live _ _ Hl Hf) as (Hv & Hd & _). destruct Hl.
    split; rewrite ?(mk_page _ _ _ M), ?(mk_pin _ _ _ M), ?(mk_generation _ _ _ M), ?(mk_pid _ _ _ M), ?(mk_state _ _ _ M); try done.
    1: intros _; split_and!; [done|done|apply M|done].
    1-3: by rewrite (mk_dirty _ _ _ M).
    by rewrite (mk_link _ _ _ M).
Qed.

Lemma content_marked h r σ bf f p f' q :
  inv h r σ → BufferPool.arena σ !! bf = Some f → Frame.state f ≠ Free → marked f p f' →
  content (upd σ bf f') q = if decide (q = Frame.pid f) then Some p else content σ q.
Proof.
  intros I E Hf M. rewrite (content_upd _ _ _ _ _ _ _ I E), (mk_page _ _ _ M). pose proof (live_table _ _ _ _ _ I E Hf) as Ht.
  case_decide as D; case_decide as D'; try done.
  - destruct (table_live _ _ _ _ _ I D) as (g & Eg & _ & Hp). rewrite E in Eg. injection Eg as <-. done.
  - subst q. done.
Qed.

(** ** The stamp *)

Lemma stamp_facts p lsn : zlen p = PAGE_SIZE → 0 ≤ lsn < 2 ^ 64 →
  zlen (write_page_lsn p lsn) = PAGE_SIZE ∧ read_page_lsn (write_page_lsn p lsn) = lsn ∧
  is_inner_index_page (write_page_lsn p lsn) = is_inner_index_page p ∧ read_page_type (write_page_lsn p lsn) = read_page_type p.
Proof.
  intros Hl Hlsn. assert (20 ≤ zlen p) by page_lia. rewrite write_page_lsn_set by lia.
  assert (Hz : zlen (set_le 8 p 0 lsn) = zlen p) by (apply zlen_set_le; lia).
  assert (Hfl : flags_of (set_le 8 p 0 lsn) = flags_of p) by (apply get_set_le_ne; unfold FLAGS_OFF; lia).
  split_and!; [by rewrite Hz| | |].
  - rewrite read_page_lsn_get by lia. rewrite get_set_le_eq by lia. by apply wrap_small.
  - unfold is_inner_index_page. unfold FLAGS_OFF. rewrite !get_range_Some by lia.
    change (of_le_bytes (sub ?x 18 (18 + 2 - 18))) with (flags_of x). by rewrite Hfl.
  - rewrite !read_page_type_get by lia. by rewrite Hfl.
Qed.

Lemma writable_stamp f p lsn : writable f p → 0 ≤ lsn < 2 ^ 64 → writable f (write_page_lsn p lsn).
Proof.
  intros [Hlen Hk Hn] Hlsn. destruct (stamp_facts p lsn Hlen Hlsn) as (Hz & _ & Hi & Ht). split; [done| |].
  - intros Hkf. unfold parent_kind. rewrite Ht, Hi. by apply Hk.
  - rewrite Hi. intros Hin. by apply node_stamps; [apply Hn| |].
Qed.

(** ** Appending a full image *)

Lemma the_wal_eq σ w : BufferPool.wal σ = Some w → the_wal σ = Fin w σ.
Proof. intros Ew. unfold the_wal, pget, orelse, mbind, PM_bind. by rewrite Ew. Qed.

(** One call of the log. *)
Lemma ends_on_wal {A B} w (m : IO wal_t A) (k : A → PM B) σ Q :
  (∃ res w', m w = Done res w') → (∀ a w', ends marking (k a) (BufferPool.with_wal σ (Some w')) Q) →
  ends marking (r ← on_wal w m; a ← expect_ok WalFailed r; k a) σ Q.
Proof.
  intros (res & w' & Em) Hk. eapply ends_step; [unfold on_wal; rewrite Em; reflexivity|]. destruct res as [a|e]; [|by left].
  eapply ends_step; [reflexivity|]. apply Hk.
Qed.

Definition imaged f p lsn (epoch offset : Z) : Frame.t :=
  Frame.with_wal_buffer_offset (Frame.with_wal_buffer_epoch (Frame.with_has_page_image_base
    (Frame.with_page_lsn (Frame.with_page f (write_page_lsn p lsn)) lsn) true) epoch) offset.

Lemma with_wal_upd σ o bf f : BufferPool.with_wal (upd σ bf f) o = upd (BufferPool.with_wal σ o) bf f.
Proof. done. Qed.

Lemma append_image_spec σ bf f was_dirty lsn :
  0 < arena_base → arena_base + zlen (BufferPool.arena σ) * FRAME_STRIDE ≤ 2 ^ 62 →
  (∀ s f, BufferPool.arena σ !! s = Some f → payload_ok (Frame.pid f)) →
  BufferPool.arena σ !! bf = Some f → is_Some (BufferPool.wal σ) → zlen (Frame.page f) = PAGE_SIZE →
  (is_inner_index_page (Frame.page f) = true → node_ok (Frame.page f)) → 0 ≤ lsn < 2 ^ 64 →
  ends marking (append_full_page_image_with_lsn bf was_dirty lsn) σ (λ _ σ', ∃ w epoch offset,
    σ' = upd (BufferPool.with_wal σ (Some w)) bf (imaged f (Frame.page f) lsn epoch offset)).
Proof.
  intros Hb Hend Hpids E [w Ew] Hlen Hnode Hlsn. destruct (stamp_facts _ lsn Hlen Hlsn) as (Hz & _ & Hi & _).
  unfold append_full_page_image_with_lsn. pstep. eapply ends_orelse; [apply assert_true; by apply Z.eqb_eq|]. do 2 pstep.
  set (f1 := Frame.with_page f (write_page_lsn (Frame.page f) lsn)). set (σ1 := upd σ bf f1).
  assert (E1 : BufferPool.arena σ1 !! bf = Some f1) by (by eapply upd_lookup).
  destruct (prepare_page_spec σ1 (Frame.page f1)) as (scratch & Esc & _); [done| | |done| |].
  { unfold σ1, upd, zlen. cbn. by rewrite length_insert. }
  { intros s g Eg. destruct (decide (bf = s)) as [<-|Hne]; [rewrite E1 in Eg; injection Eg as <-; exact (Hpids bf f E)|].
    unfold σ1 in Eg. rewrite lookup_upd_ne in Eg by done. by eapply Hpids. }
  { cbn. rewrite Hi. intros Hin. by apply node_stamps; [apply Hnode| |]. }
  eapply ends_step; [exact Esc|].
  apply ends_bind. eapply ends_mono with (Q := λ _ σ2, ∃ w2, σ2 = BufferPool.with_wal σ1 (Some w2)).
  { destruct (buffered_record f was_dirty) as [rec|].
    - eapply ends_step; [by apply the_wal_eq|]. apply ends_on_wal; [apply overwrites_image|]. intros b w'. pstep. eauto.
    - pstep. exists w. rewrite <-Ew. by destruct σ. }
  intros o σ2 (w2 & ->). apply ends_bind. eapply ends_mono with (Q := λ _ σ3, ∃ w3, σ3 = BufferPool.with_wal σ1 (Some w3)).
  { destruct o as [rec|]; [pstep; eauto|]. eapply ends_step; [by apply the_wal_eq|].
    destruct (appends_image w2 lsn (Frame.pid f) scratch) as (res & w' & Em).
    eapply ends_step; [unfold on_wal; rewrite Em; reflexivity|]. destruct res as [a|e]; [|by left]. apply ends_ret. eauto. }
  intros rec σ3 (w3 & ->). assert (E3 : BufferPool.arena (BufferPool.with_wal σ1 (Some w3)) !! bf = Some f1) by done.
  unfold set_wal_buffer. repeat pstep. eexists _, _, _. unfold σ1. rewrite with_wal_upd, upd_upd. done.
Qed.
(** ** Marking *)

(** The page a mark leaves: as it is without a log, stamped with the claimed
    LSN with one. *)
Definition stamped (o : option wal_t) p p' : Prop :=
  match o with
  | None => p' = p
  | Some w => ∃ lsn w', log_claim_lsn w = Ret (lsn, w') ∧ p' = write_page_lsn p lsn
  end.

(** What a mark did to the pool. *)
Definition marks σ (bf : nat) f p σ' : Prop :=
  ∃ o p' f', σ' = upd (BufferPool.with_wal σ o) bf f' ∧ marked f p' f' ∧ writable f p' ∧ stamped (BufferPool.wal σ) p p' ∧
    (BufferPool.wal σ = None ↔ o = None).

Lemma check_pinned_eq σ bf f : BufferPool.arena σ !! bf = Some f → 0 < Frame.pin_count f → check_pinned bf σ = Fin tt σ.
Proof.
  intros E Hp. unfold check_pinned. erewrite bind_Fin by (by apply fget_eq). unfold orelse.
  by rewrite debug_assert_true by (by apply Z.ltb_lt).
Qed.

Definition finished f : Frame.t := Frame.with_dirty (Frame.with_dirty_generation f (wrap 64 (Frame.dirty_generation f + 1))) true.

Lemma finish_eq σ bf f : BufferPool.arena σ !! bf = Some f → finish_dirty_mark bf σ = Fin tt (upd σ bf (finished f)).
Proof.
  intros E. unfold finish_dirty_mark. erewrite bind_Fin by (by apply fget_eq). erewrite bind_Fin by (by apply fset_eq).
  erewrite fset_eq by (by eapply upd_lookup). by rewrite upd_upd.
Qed.

Lemma mark_dirty_raw_spec h r σ bf f p :
  inv h r σ → BufferPool.arena σ !! bf = Some f → Frame.state f ≠ Free → 0 < Frame.pin_count f → writable f p →
  (BufferPool.wal σ = None → read_page_lsn p = Frame.page_lsn f) →
  ends marking (mark_dirty_raw bf) (upd σ bf (Frame.with_page f p)) (λ _ σ', marks σ bf f p σ').
Proof.
  intros I E Hf Hpin Hwr Hlsn. set (f1 := Frame.with_page f p). assert (E1 : BufferPool.arena (upd σ bf f1) !! bf = Some f1) by (by eapply upd_lookup).
  unfold mark_dirty_raw. eapply ends_step; [by eapply check_pinned_eq|]. unfold mark_referenced. do 3 pstep.
  set (f2 := Frame.with_referenced f1 true). set (σ2 := upd σ bf f2).
  assert (E2 : BufferPool.arena σ2 !! bf = Some f2) by (by eapply upd_lookup). change (BufferPool.wal σ2) with (BufferPool.wal σ).
  destruct (BufferPool.wal σ) as [w|] eqn:Ew.
  - unfold claim_next_lsn. apply ends_bind. apply ends_bind. eapply ends_step; [by apply the_wal_eq|].
    destruct (log_claim_lsn w) as [[lsn w1]|] eqn:Ec; [|by right]. eapply ends_orelse; [done|]. do 2 pstep. cbn [fst snd].
    pose proof (claims_lsn _ _ _ Ec) as Hr. destruct (inv_arena _ _ _ I) as (Hb & _ & Hend).
    set (σ3 := BufferPool.with_wal σ2 (Some w1)). eapply ends_mono; [eapply (append_image_spec σ3 bf f2); try done|].
    + page_lia.
    + unfold σ3, σ2, upd, zlen. cbn. by rewrite length_insert.
    + intros s g Eg. change (BufferPool.arena σ2 !! s = Some g) in Eg. destruct (decide (bf = s)) as [<-|Hne].
      * rewrite E2 in Eg. injection Eg as <-. apply (fo_pid σ f), (inv_frames _ _ _ I bf f E).
      * unfold σ2 in Eg. rewrite lookup_upd_ne in Eg by done. apply (fo_pid σ), (inv_frames _ _ _ I s g Eg).
    + apply Hwr.
    + apply Hwr.
    + intros _ σ4 (w4 & epoch & offset & ->). eapply ends_Fin; [eapply finish_eq, upd_lookup; exact E2|]. rewrite upd_upd.
      exists (Some w4), (write_page_lsn p lsn), (finished (imaged f2 p lsn epoch offset)). split_and!; try done.
      * unfold σ3, σ2, upd. cbn. by rewrite list_insert_insert_eq.
      * destruct (stamp_facts p lsn (wt_len _ _ Hwr) Hr) as (_ & Hrl & _). by split.
      * by apply writable_stamp.
      * rewrite Ew. by exists lsn, w1.
      * by rewrite Ew.
  - pstep. eapply ends_Fin; [by apply finish_eq|]. unfold σ2. rewrite upd_upd.
    exists None, p, (finished f2). split_and!; try done.
    + rewrite <-Ew. by destruct σ.
    + split; try done. cbn. by rewrite Hlsn.
    + by rewrite Ew.
Qed.

(** The caller logged the change itself. *)
Lemma mark_dirty_with_lsn_spec h r σ bf f p lsn :
  inv h r σ → BufferPool.arena σ !! bf = Some f → Frame.state f ≠ Free → 0 < Frame.pin_count f → writable f p → 0 ≤ lsn < 2 ^ 64 →
  ends never (mark_dirty_with_lsn_raw bf lsn) (upd σ bf (Frame.with_page f p)) (λ _ σ', ∃ f', σ' = upd σ bf f' ∧
    marked f (write_page_lsn p lsn) f' ∧ writable f (write_page_lsn p lsn)).
Proof.
  intros I E Hf Hpin Hwr Hlsn. destruct (stamp_facts p lsn (wt_len _ _ Hwr) Hlsn) as (_ & Hr & _).
  unfold mark_dirty_with_lsn_raw. eapply ends_step; [eapply check_pinned_eq; [by eapply upd_lookup|done]|]. unfold mark_referenced, set_wal_buffer.
  repeat pstep. eapply ends_Fin; [eapply finish_eq; by eapply upd_lookup|]. rewrite upd_upd.
  eexists. split_and!; [done| |by apply writable_stamp]. by split.
Qed.
End dirty.
