(* ===== verification/PoolServe.v ===== *)
(** * Buffer pool: a map from page identifiers to pages

    The pool as its clients see it: pages are read and changed in pinned
    frames, while frames are evicted and written back in between. It behaves
    as a map of pages, whatever is resident. *)

From S2P Require Import Prelude Bytes FrameKernel SwipKernel PageHeader PageMutation Slotted BufferFrame FreePages FreePagesInv FreePagesSpec Posix PageStore BufferPool PoolBase PoolEvict PoolFlush PoolFix PoolInv PoolSteps PoolEvictSpec PoolFlushSpec PoolFixSpec PoolDirtySpec.
#[local] Open Scope Z_scope.

(** What a client asks for: a page, a change of a page, or maintenance. *)
Inductive request :=
| Get (pid : PageId)
| Update (pid : PageId) (edit : list byte → list byte)
| Evict (n : nat)
| FlushSome (n : nat) (mode : DirtyFlushMode)
| FlushAll.

Section serve.
Context `{Build} `{PageStoreOps} `{WalOps} `{!PoolEnv} `{!Hooks}.

(** A page, read in a pinned frame. *)
Definition get_page (pid : PageId) : PM (list byte) :=
  bf ← fix_orphan_raw 2 pid;
  p ← fget Frame.page bf;
  _ ← unfix_raw bf;
  mret p.

(** A page, changed and marked under the exclusive latch of its frame. *)
Definition update_page (pid : PageId) (edit : list byte → list byte) : PM (list byte) :=
  bf ← fix_orphan_raw 2 pid;
  _ ← with_exclusive bf (
    p ← fget Frame.page bf;
    _ ← fset Frame.with_page bf (edit p);
    mark_dirty_raw bf);
  p ← fget Frame.page bf;
  _ ← unfix_raw bf;
  mret p.

Definition serve_one (rq : request) : PM (option (list byte)) :=
  match rq with
  | Get pid => p ← get_page pid; mret (Some p)
  | Update pid edit => p ← update_page pid edit; mret (Some p)
  | Evict n => _ ← try_evict_policy n; mret None
  | FlushSome n mode => _ ← try_flush_dirty_batch_inner n mode; mret None
  | FlushAll => _ ← flush; mret None
  end.

Fixpoint serve_all (rqs : list request) : PM (list (option (list byte))) :=
  match rqs with
  | [] => mret []
  | rq :: rqs =>
      a ← serve_one rq;
      rest ← serve_all rqs;
      mret (a :: rest)
  end.
End serve.

(** ** The specification *)

(** A page as the log stamps it. *)
Definition same_but_lsn (p p' : list byte) : Prop := p' = p ∨ ∃ lsn, 0 ≤ lsn < 2 ^ 64 ∧ p' = write_page_lsn p lsn.

Section spec.
Context `{HookLaws} `{!LogAppends}.
Implicit Types (σ : BufferPool.t) (f : Frame.t) (p : list byte) (M : gmap PageId (list byte)).

(** What may be read of a page that was written as [p]: references of an inner
    page may have been replaced by identifiers, and a page of a prepared type
    may have been written out and loaded again. Any other page is [p]. *)
Definition reads (types : list PageType) p p' : Prop := rtc (page_step anywhere types) p p'.

(** The answers a map of the pages last written gives, and the map it becomes. *)
Inductive answers (types : list PageType) :
  gmap PageId (list byte) → list request → list (option (list byte)) → gmap PageId (list byte) → Prop :=
| answers_nil M : answers types M [] [] M
| answers_get M pid p q rqs a M' :
    M !! pid = Some p → reads types p q → answers types M rqs a M' → answers types M (Get pid :: rqs) (Some q :: a) M'
| answers_update M pid edit p q p' rqs a M' :
    M !! pid = Some p → reads types p q → same_but_lsn (edit q) p' → answers types (<[pid := p']> M) rqs a M' →
    answers types M (Update pid edit :: rqs) (Some p' :: a) M'
| answers_evict M n rqs a M' : answers types M rqs a M' → answers types M (Evict n :: rqs) (None :: a) M'
| answers_flush_some M n mode rqs a M' :
    answers types M rqs a M' → answers types M (FlushSome n mode :: rqs) (None :: a) M'
| answers_flush_all M rqs a M' : answers types M rqs a M' → answers types M (FlushAll :: rqs) (None :: a) M'.

(** Why a request may panic; no assertion is among the reasons. *)
Definition serving (why : panic_reason) : Prop := fixing why ∨ marking why.

Definition pins_below (n : Z) σ : Prop := ∀ s f, BufferPool.arena σ !! s = Some f → Frame.pin_count f ≤ n.

(** A pool between two requests; its clients hold at most [n] pins of a frame. *)
Record pool_ok (n : Z) σ : Prop := {
  po_inv : inv [] 0 σ;
  po_calm : all_calm σ;
  po_pins : pins_below n σ;
  po_extents : FreePagesSpec.inv (BufferPool.free_page_allocator σ) (BufferPool.pending_reusable_extents σ);
}.

(** The map holds pages of the pool as they were last written. *)
Definition tracks M σ : Prop := ∀ pid p, M !! pid = Some p → valid_pid σ pid ∧ ∃ q, content σ pid = Some q ∧ reads (preparers σ) p q.

(** A change keeps the page's size and its LSN field, makes no index leaf of a
    page that was none, and leaves an inner page well formed. *)
Record edit_ok (edit : list byte → list byte) : Prop := {
  ed_len p : zlen p = PAGE_SIZE → zlen (edit p) = PAGE_SIZE;
  ed_lsn p : zlen p = PAGE_SIZE → read_page_lsn (edit p) = read_page_lsn p;
  ed_kind p : zlen p = PAGE_SIZE → parent_kind p → parent_kind (edit p);
  ed_node p : zlen p = PAGE_SIZE → (is_inner_index_page p = true → node_ok p) → is_inner_index_page (edit p) = true → node_ok (edit p);
}.

Definition request_ok M (rq : request) : Prop :=
  match rq with
  | Get pid => is_Some (M !! pid)
  | Update pid edit => is_Some (M !! pid) ∧ edit_ok edit
  | _ => True
  end.

Lemma reads_plain σ p q : plain σ p → reads (preparers σ) p q → q = p.
Proof.
  intros Hp Hr. assert (Hk : Some q = Some p) by (apply (keeps_page_plain anywhere σ); [done|by exists q]). by injection Hk.
Qed.

Lemma request_ok_keeps M M' rq : dom M' = dom M → request_ok M rq → request_ok M' rq.
Proof.
  intros Hd. destruct rq as [pid|pid edit| | |]; try done; cbn.
  - by rewrite <-!elem_of_dom, Hd.
  - intros [Hm He]. split; [by rewrite <-elem_of_dom, Hd, elem_of_dom|done].
Qed.

Lemma answers_dom types M rqs a M' : answers types M rqs a M' → dom M' = dom M.
Proof.
  induction 1 as [| |M pid edit p q p' rqs a M' Em Hq Hs Ha IH| | |]; try done. rewrite IH, dom_insert_L. apply elem_of_dom_2 in Em. set_solver.
Qed.

(** ** Each request *)

Lemma pins_quiet n X h σ σ' : quiet X h σ σ' → pins_below n σ → pins_below n σ'.
Proof.
  intros Q Hn s f' E'. destruct (lookup_lt_is_Some_2 (BufferPool.arena σ) s) as [f E].
  { rewrite <-(sd_size _ _ (q_steady _ _ _ _ Q)). by eapply lookup_lt_Some. }
  etrans; [by eapply (q_pin _ _ _ _ Q)|by eapply Hn].
Qed.

Lemma tracks_steady M σ σ' : tracks M σ → steady σ σ' → tracks M σ'.
Proof.
  intros T S pid p Em. destruct (T pid p Em) as (Hv & q & Hc & Hr). split.
  - unfold valid_pid in *. by rewrite (sd_next _ _ S).
  - destruct (sd_content _ _ S pid q (proj2 (proj2 Hv)) Hc) as (q' & Hc' & Hr'). exists q'. split; [done|].
    unfold reads, preparers in *. rewrite (sd_preparers _ _ S). by etrans.
Qed.

Lemma pool_ok_quiet n σ σ' : pool_ok n σ → inv [] 0 σ' → quiet [] [] σ σ' → pool_ok n σ'.
Proof.
  intros [I Hc Hn Hx] I' Q. pose proof (q_steady _ _ _ _ Q) as S. split; [done|by eapply quiet_all_calm|by eapply pins_quiet|].
  by rewrite (sd_allocator _ _ S), (sd_pending _ _ S).
Qed.

(** The frame a pin gave, and what its release leaves. *)
Lemma fixed_frame n σ pid bf σ' :
  pool_ok n σ → 0 ≤ n < 2 ^ 32 - 1 → fixed σ pid bf σ' →
  ∃ f, BufferPool.arena σ' !! bf = Some f ∧ Frame.state f = Resident ∧ Frame.latch f = Unlatched ∧ Frame.pid f = pid ∧
    0 < Frame.pin_count f ≤ n + 1 ∧ Frame.pin_count (unpinned f) = Frame.pin_count f - 1.
Proof.
  intros Hok Hn Hfx. destruct (fx_frame _ _ _ _ Hfx) as (f & E & Hs & Hp & Hpin). exists f.
  assert (Hr : 0 < Frame.pin_count f ≤ n + 1).
  { destruct (table_at σ pid) as [s|]; [|lia]. destruct Hpin as (-> & f0 & E0 & -> & _). pose proof (po_pins _ _ Hok bf f0 E0).
    pose proof (fo_pin _ _ (fo_local _ _ (inv_frames _ _ _ (po_inv _ _ Hok) bf f0 E0))). rewrite wrap_small by lia. lia. }
  split_and!; [done|done|by apply (fx_calm _ _ _ _ Hfx bf)|done|lia|lia|]. cbn. apply wrap_small. lia.
Qed.

Lemma unfix_eq σ bf f : BufferPool.arena σ !! bf = Some f → 0 < Frame.pin_count f → unfix_raw bf σ = Fin tt (upd σ bf (unpinned f)).
Proof.
  intros E Hp. unfold unfix_raw. erewrite bind_Fin by (by apply fget_eq). erewrite bind_Fin by (by eapply unpin_eq). unfold orelse.
  by rewrite debug_assert_true by (by apply Z.ltb_lt).
Qed.

Lemma inv_unpinned σ bf f : inv [] 0 σ → BufferPool.arena σ !! bf = Some f → Frame.state f ≠ Free → inv [] 0 (upd σ bf (unpinned f)).
Proof.
  intros I E Hf. eapply inv_upd; [done|done|split; [done|done|intros _; by left]|done|].
  pose proof (fo_local _ _ (inv_frames _ _ _ I bf f E)) as []. split; try done. cbn. unfold wrap. apply Z.mod_pos_bound. lia.
Qed.

Lemma get_spec n M σ pid p :
  pool_ok n σ → 0 ≤ n < 2 ^ 32 - 1 → tracks M σ → M !! pid = Some p →
  ends serving (get_page pid) σ (λ q σ', reads (preparers σ) p q ∧ pool_ok n σ' ∧ steady σ σ').
Proof.
  intros Hok Hn T Em. destruct (T pid p Em) as (Hv & p0 & Hc & Hrd). unfold get_page. apply ends_bind.
  eapply ends_mono; [eapply ends_weaken; [apply fix_orphan_raw_spec; [apply Hok|apply Hok|done]|by left]|]. intros bf σ1 Hfx.
  destruct (fixed_frame _ _ _ _ _ Hok Hn Hfx) as (f & E & Hs & Hu & Hp & Hpin & Hpin'). pose proof (fx_steady _ _ _ _ Hfx) as S.
  rewrite (released_eq _ _ _ E) in S. pose proof (fx_inv _ _ _ _ Hfx) as I1. assert (Hf : Frame.state f ≠ Free) by (by rewrite Hs).
  pstep. eapply ends_step; [apply unfix_eq; [done|lia]|]. pstep.
  assert (I2 : inv [] 0 (upd σ1 bf (unpinned f))) by (by apply inv_unpinned). split_and!; [| |done].
  - destruct (sd_content _ _ S pid p0 (proj2 (proj2 Hv)) Hc) as (q & Hc2 & Hq).
    rewrite <-Hp in Hc2. pose proof (content_live _ _ _ bf (unpinned f) I2 ltac:(by eapply upd_lookup) Hf) as Hc3.
    change (Frame.pid (unpinned f)) with (Frame.pid f) in Hc3. rewrite Hc2 in Hc3. injection Hc3 as ->. unfold reads in *. by etrans.
  - split; [done|apply (all_calm_upd _ _ f); [apply Hfx|done|done|cbn; by rewrite Hs]| |].
    + intros s g. destruct (decide (bf = s)) as [<-|Hne]; [rewrite (upd_lookup _ _ _ _ E); intros [= <-]; lia|].
      rewrite lookup_upd_ne by done. intros Eg. destruct (lookup_lt_is_Some_2 (BufferPool.arena σ) s) as [g0 E0].
      { rewrite <-(sd_size _ _ S). unfold upd. cbn. rewrite length_insert. by eapply lookup_lt_Some. }
      etrans; [eapply (fx_pins _ _ _ _ Hfx s); done|]. by eapply (po_pins _ _ Hok).
    + rewrite (sd_allocator _ _ S), (sd_pending _ _ S). apply Hok.
Qed.
(** The change of a page in its pinned frame. *)
Lemma edit_marked σ bf f edit :
  inv [] 0 σ → BufferPool.arena σ !! bf = Some f → Frame.state f = Resident → Frame.latch f = Unlatched → 0 < Frame.pin_count f →
  edit_ok edit →
  ends marking (with_exclusive bf (
    p ← fget Frame.page bf;
    _ ← fset Frame.with_page bf (edit p);
    mark_dirty_raw bf)) σ (λ _ σ', ∃ o p' f', σ' = upd (BufferPool.with_wal σ o) bf f' ∧ marked f p' f' ∧
      same_but_lsn (edit (Frame.page f)) p' ∧ (BufferPool.wal σ = None ↔ o = None) ∧ inv [] 0 σ').
Proof.
  intros I E Hs Hu Hpin [Elen Elsn Ekind Enode]. assert (Hf : Frame.state f ≠ Free) by (by rewrite Hs).
  pose proof (fo_local _ _ (inv_frames _ _ _ I bf f E)) as Hl. pose proof (fo_len _ _ Hl) as Hlen.
  destruct (fo_live _ _ Hl Hf) as (_ & _ & Hlsn & Hnode). eapply ends_with_exclusive; [done|done|].
  fold (latched f). set (σ1 := upd σ bf (latched f)). assert (E1 : BufferPool.arena σ1 !! bf = Some (latched f)) by (by eapply upd_lookup).
  assert (I1 : inv [] 0 σ1) by (eapply inv_flags; try done; cbn; by rewrite Hs).
  assert (W : writable (latched f) (edit (Frame.page f))).
  { split; [by apply Elen|by apply Ekind|by apply Enode]. }
  do 2 pstep. eapply ends_mono; [eapply (mark_dirty_raw_spec [] 0 σ1 bf (latched f)); try done|].
  { intros _. cbn. by rewrite Hlsn, Elsn. }
  intros _ σ2 (o & p' & f' & -> & Mk & Wk & Hst & Ho).
  assert (I2 : inv [] 0 (upd (BufferPool.with_wal σ1 o) bf f')).
  { eapply inv_marked; [|exact E1|done|done|done]. eapply inv_ext; try done; apply I1. }
  exists f'. split; [by eapply upd_lookup|]. rewrite upd_upd.
  assert (Hsame : same_but_lsn (edit (Frame.page f)) p').
  { unfold stamped in Hst. destruct (BufferPool.wal σ1); [|by left]. destruct Hst as (lsn & w' & Ec & ->). right. exists lsn.
    split; [by eapply claims_lsn|done]. }
  exists o, p', (unlatched f'). split_and!; try done.
  - unfold σ1, upd. cbn. by rewrite list_insert_insert_eq.
  - destruct Mk. by split.
  - pose proof (inv_flags [] 0 (upd (BufferPool.with_wal σ1 o) bf f') bf f' (unlatched f') I2) as I3. rewrite upd_upd in I3.
    apply I3; try done; [by eapply upd_lookup|]. cbn. rewrite (mk_state _ _ _ Mk). cbn. by rewrite Hs.
Qed.

(** A page that was fixed, changed and released. *)
Section updated.
Context (n : Z) (M : gmap PageId (list byte)) (σ σ1 : BufferPool.t) (pid : PageId) (bf : nat) (f f' : Frame.t) (p' : list byte) (o : option wal_t).
Context (Hok : pool_ok n σ) (Hn : 0 ≤ n < 2 ^ 32 - 1) (Hfx : fixed σ pid bf σ1) (E : BufferPool.arena σ1 !! bf = Some f).
Context (Hs : Frame.state f = Resident) (Hu : Frame.latch f = Unlatched) (Hp : Frame.pid f = pid).
Context (Hpin : 0 < Frame.pin_count f ≤ n + 1) (Hpin' : Frame.pin_count (unpinned f) = Frame.pin_count f - 1).
Context (Mk : marked f p' f').

Definition written_page : BufferPool.t := upd (BufferPool.with_wal σ1 o) bf f'.
Definition released_page : BufferPool.t := upd written_page bf (unpinned f').

Lemma fix_steady : steady σ (upd σ1 bf (unpinned f)).
Proof using Hfx E. rewrite <-(released_eq _ _ _ E). apply Hfx. Qed.

Lemma fix_content q : content (upd σ1 bf (unpinned f)) q = content σ1 q.
Proof using Hfx E.
  rewrite (content_upd _ _ _ _ _ _ _ (fx_inv _ _ _ _ Hfx) E). case_decide as D; [|done]. unfold content. by rewrite D, E.
Qed.

Lemma written_lookup : BufferPool.arena written_page !! bf = Some f'.
Proof using E. by eapply upd_lookup. Qed.

Lemma released_pool_ok : inv [] 0 written_page → pool_ok n released_page.
Proof using Hok Hn Hfx E Hs Hu Hpin Hpin' Mk.
  intros I2. pose proof written_lookup as E2. pose proof fix_steady as S. split.
  - apply inv_unpinned; [done|done|]. by rewrite (mk_state _ _ _ Mk), Hs.
  - apply (all_calm_upd _ _ f'); [|done|cbn; by rewrite (mk_latch _ _ _ Mk)|cbn; by rewrite (mk_state _ _ _ Mk), Hs].
    apply (all_calm_upd (BufferPool.with_wal σ1 o) _ f); [exact (fx_calm _ _ _ _ Hfx)|done|by rewrite (mk_latch _ _ _ Mk)|by rewrite (mk_state _ _ _ Mk), Hs].
  - intros s g. unfold released_page. destruct (decide (bf = s)) as [<-|Hne].
    + rewrite (upd_lookup _ _ _ _ E2). intros [= <-]. cbn. rewrite (mk_pin _ _ _ Mk). change (Frame.pin_count (unpinned f) ≤ n). lia.
    + rewrite lookup_upd_ne by done. unfold written_page. rewrite lookup_upd_ne by done. intros Eg. change (BufferPool.arena σ1 !! s = Some g) in Eg.
      destruct (lookup_lt_is_Some_2 (BufferPool.arena σ) s) as [g0 E0].
      { rewrite <-(sd_size _ _ S). unfold upd. cbn. rewrite length_insert. by eapply lookup_lt_Some. }
      etrans; [eapply (fx_pins _ _ _ _ Hfx s); done|]. by eapply (po_pins _ _ Hok).
  - change (FreePagesSpec.inv (BufferPool.free_page_allocator (upd σ1 bf (unpinned f))) (BufferPool.pending_reusable_extents (upd σ1 bf (unpinned f)))).
    rewrite (sd_allocator _ _ S), (sd_pending _ _ S). apply Hok.
Qed.

Lemma released_content q : inv [] 0 written_page → content released_page q = if decide (q = pid) then Some p' else content σ1 q.
Proof using Hfx E Hs Hp Mk.
  intros I2. pose proof (fx_inv _ _ _ _ Hfx) as I1. assert (Hf : Frame.state f ≠ Free) by (by rewrite Hs).
  unfold released_page. rewrite (content_upd _ _ _ _ _ _ _ I2 written_lookup).
  change (Frame.page (unpinned f')) with (Frame.page f'). rewrite (mk_page _ _ _ Mk), <-Hp.
  rewrite <-(content_marked [] 0 σ1 bf f p' f' q I1 E Hf Mk), (content_upd _ _ _ _ _ _ _ I1 E), (mk_page _ _ _ Mk).
  change (table_at written_page q) with (table_at σ1 q). case_decide as D; [done|].
  unfold content. change (table_at written_page q) with (table_at σ1 q). destruct (table_at σ1 q) as [s|]; [|done].
  unfold written_page. by rewrite lookup_upd_ne by congruence.
Qed.

Lemma released_tracks p : inv [] 0 written_page → tracks M σ → M !! pid = Some p → tracks (<[pid := p']> M) released_page.
Proof using Hfx E Hs Hp Mk.
  intros I2 T Em q p0 Hq. pose proof fix_steady as S. rewrite (released_content q I2).
  assert (Hvq : ∀ x, valid_pid σ x → valid_pid released_page x).
  { intros x. unfold valid_pid. change (BufferPool.next_page_id released_page) with (BufferPool.next_page_id (upd σ1 bf (unpinned f))).
    by rewrite (sd_next _ _ S). }
  destruct (decide (q = pid)) as [->|Hne].
  - rewrite lookup_insert_eq in Hq. injection Hq as <-. destruct (T pid p Em) as (Hv & _). split; [by apply Hvq|].
    exists p'. split; [done|apply rtc_refl].
  - rewrite lookup_insert_ne in Hq by done. destruct (T q p0 Hq) as (Hvq0 & q0 & Hcq0 & Hrq). split; [by apply Hvq|].
    rewrite <-fix_content. destruct (sd_content _ _ S q q0 (proj2 (proj2 Hvq0)) Hcq0) as (q1 & Hc1 & Hr1). exists q1. split; [done|].
    unfold reads, preparers in *. change (BufferPool.page_writeback_preparers released_page) with (BufferPool.page_writeback_preparers (upd σ1 bf (unpinned f))).
    rewrite (sd_preparers _ _ S). by etrans.
Qed.
End updated.

Lemma update_spec n M σ pid p edit :
  pool_ok n σ → 0 ≤ n < 2 ^ 32 - 1 → tracks M σ → M !! pid = Some p → edit_ok edit →
  ends serving (update_page pid edit) σ (λ p' σ', (∃ q, reads (preparers σ) p q ∧ same_but_lsn (edit q) p') ∧ pool_ok n σ' ∧ tracks (<[pid := p']> M) σ' ∧
    BufferPool.page_writeback_preparers σ' = BufferPool.page_writeback_preparers σ ∧ (ordered_log → wal_rule σ → wal_rule σ')).
Proof.
  intros Hok Hn T Em Hed. destruct (T pid p Em) as (Hv & p0 & Hc & Hrd). unfold update_page. apply ends_bind.
  eapply ends_mono; [eapply ends_weaken; [apply fix_orphan_raw_spec; [apply Hok|apply Hok|done]|by left]|]. intros bf σ1 Hfx.
  destruct (fixed_frame _ _ _ _ _ Hok Hn Hfx) as (f & E & Hs & Hu & Hp & Hpin & Hpin'). pose proof (fix_steady _ _ _ _ _ Hfx E) as S.
  pose proof (fx_inv _ _ _ _ Hfx) as I1. assert (Hf : Frame.state f ≠ Free) by (by rewrite Hs).
  assert (Hprep : BufferPool.page_writeback_preparers σ1 = BufferPool.page_writeback_preparers σ) by apply (sd_preparers _ _ S).
  assert (Hpage : reads (preparers σ) p (Frame.page f)).
  { destruct (sd_content _ _ S pid p0 (proj2 (proj2 Hv)) Hc) as (q & Hc2 & Hq).
    rewrite (fix_content _ _ _ _ _ Hfx E), <-Hp, (content_live _ _ _ _ _ I1 E Hf) in Hc2. injection Hc2 as ->. unfold reads in *. by etrans. }
  apply ends_bind. eapply ends_mono; [eapply ends_weaken; [eapply (edit_marked σ1 bf f); try done; lia|by right]|].
  intros _ σ2 (o & p' & f' & -> & Mk & Hsame & Ho & I2). fold (written_page σ1 bf f' o) in I2 |- *.
  pose proof (written_lookup σ1 bf f f' o E) as E2.
  pstep. eapply ends_step; [apply unfix_eq; [done|rewrite (mk_pin _ _ _ Mk); lia]|]. pstep. rewrite (mk_page _ _ _ Mk).
  split_and!; [by eexists|by eapply (released_pool_ok n σ σ1 pid bf f)|by eapply (released_tracks M σ σ1 pid bf f)|exact Hprep|].
  intros Hord Hr. exact (sd_wal_rule _ _ S Hord Hr).
Qed.

(** What maintenance keeps. *)
Definition maintained n M σ σ' : Prop :=
  pool_ok n σ' ∧ tracks M σ' ∧ BufferPool.page_writeback_preparers σ' = BufferPool.page_writeback_preparers σ ∧
  (ordered_log → wal_rule σ → wal_rule σ').

Lemma maintained_quiet n M σ σ' : pool_ok n σ → tracks M σ → inv [] 0 σ' → quiet [] [] σ σ' → maintained n M σ σ'.
Proof.
  intros Hok T I' Q. pose proof (q_steady _ _ _ _ Q) as S.
  split_and!; [by eapply pool_ok_quiet|by eapply tracks_steady|apply S|apply S].
Qed.

Lemma maintained_flush n M σ res σ' : pool_ok n σ → tracks M σ → flushed [] 0 σ res σ' → maintained n M σ σ'.
Proof.
  intros Hok T [I' Hr _ (l & pages & W & _) Hx]. pose proof (po_inv _ _ Hok) as I. pose proof (wrote_retouched _ _ _ _ _ _ _ I W) as R.
  assert (Hfr : ∀ s f', BufferPool.arena σ' !! s = Some f' → ∃ f, BufferPool.arena σ !! s = Some f ∧ Frame.latch f' = Frame.latch f ∧
    Frame.state f' = Frame.state f ∧ Frame.pin_count f' = Frame.pin_count f).
  { intros s f' E'. destruct (retouched_back _ _ _ _ R E') as (f & E & _). exists f. split; [done|].
    rewrite (wr_frames _ _ _ _ _ W s f E) in E'. injection E' as <-. by destruct (bool_decide (s ∈ l) && is_ok res). }
  unfold maintained. split_and!; [split; [done| | |]| |apply W|intros _; exact Hr].
  - intros s f' E'. destruct (Hfr s f' E') as (f & E & -> & -> & _). by apply (po_calm _ _ Hok s).
  - intros s f' E'. destruct (Hfr s f' E') as (f & E & _ & _ & ->). by apply (po_pins _ _ Hok s).
  - destruct (is_ok res); [destruct Hx as [(? & _) ->]; done|destruct Hx as [-> ->]; apply Hok].
  - intros pid p Em. destruct (T pid p Em) as (Hv & q & Hc & Hq). split.
    + unfold valid_pid in *. by rewrite (wr_next _ _ _ _ _ W).
    + exists q. rewrite (retouched_content _ _ _ _ _ I R (proj2 (proj2 Hv))). unfold preparers. by rewrite (wr_preparers _ _ _ _ _ W).
Qed.

(** One request: the answer a map of pages gives. *)
Lemma serve_one_spec n M σ rq :
  pool_ok n σ → 0 ≤ n < 2 ^ 32 - 1 → tracks M σ → request_ok M rq →
  ends serving (serve_one rq) σ (λ a σ', ∃ M', maintained n M' σ σ' ∧ dom M' = dom M ∧
    ∀ rqs as_ M'', answers (preparers σ) M' rqs as_ M'' → answers (preparers σ) M (rq :: rqs) (a :: as_) M'').
Proof.
  intros Hok Hn T Hrq. destruct rq as [pid|pid edit|k|k mode|]; cbn [serve_one]; apply ends_bind.
  - destruct Hrq as [p Em]. eapply ends_mono; [by eapply get_spec|]. intros q σ1 (Hq & Hok1 & S). pstep. exists M. split_and!; [|done|].
    + split_and!; [done|by eapply tracks_steady|apply S|apply S].
    + intros. by econstructor.
  - destruct Hrq as [[p Em] Hed]. eapply ends_mono; [by eapply update_spec|]. intros p' σ1 ((q & Hq & Hsame) & Hok1 & T1 & Hprep & Hr). pstep.
    exists (<[pid := p']> M). split_and!; [done| |].
    + rewrite dom_insert_L. apply elem_of_dom_2 in Em. set_solver.
    + intros. by econstructor.
  - eapply ends_mono; [eapply ends_weaken; [apply try_evict_policy_spec; [apply Hok|done]|done]|]. intros m σ1 [I1 Q1]. pstep. exists M.
    split_and!; [by apply maintained_quiet|done|]. intros. by constructor.
  - eapply ends_mono; [eapply ends_weaken; [apply try_flush_dirty_batch_inner_spec, Hok|done]|]. intros res σ1 B. pstep. exists M.
    split_and!; [by eapply maintained_quiet; [| |apply B|apply B]|done|]. intros. by constructor.
  - eapply ends_mono; [eapply ends_weaken; [apply (flush_spec [] 0); [apply Hok| |apply Hok]|done]|].
    { intros s f E. by apply (po_calm _ _ Hok s). }
    intros res σ1 Fl. pstep. exists M. split_and!; [by eapply maintained_flush|done|]. intros. by constructor.
Qed.

Lemma serve_all_spec n rqs : ∀ M σ,
  pool_ok n σ → 0 ≤ n < 2 ^ 32 - 1 → tracks M σ → Forall (request_ok M) rqs →
  ends serving (serve_all rqs) σ (λ a σ', ∃ M', answers (preparers σ) M rqs a M' ∧ maintained n M' σ σ').
Proof.
  induction rqs as [|rq rqs IH]; intros M σ Hok Hn T Hrqs; cbn [serve_all].
  { pstep. exists M. split; [constructor|]. by split_and!. }
  apply Forall_cons in Hrqs as [Hrq Hrqs]. apply ends_bind. eapply ends_mono; [by apply (serve_one_spec n M)|].
  intros a σ1 (M1 & (Hok1 & T1 & Hp1 & Hr1) & Hdom & Hans). apply ends_bind. eapply ends_mono; [apply (IH M1); try done|].
  - eapply Forall_impl; [exact Hrqs|]. intros rq'. by apply request_ok_keeps.
  - intros as_ σ2 (M2 & Ha & (Hok2 & T2 & Hp2 & Hr2)). pstep. exists M2. split; [apply Hans; unfold preparers in *; by rewrite <-Hp1|]. split_and!; [done|done|congruence|auto].
Qed.
End spec.
