(* ===== verification/PoolStores.v ===== *)
(** * Buffer pool: a pool to run

    What the buffer pool calls, instantiated: the two page stores of
    [src/crates/storage/src/page_store.rs], a log of several shards that
    records nothing but its marks, callbacks that find nothing, and an arena
    at a fixed address. *)

From S2P Require Import Prelude Bytes FrameKernel SwipKernel PageHeader PageMutation Slotted BufferFrame FreePages FreePagesInv FreePagesSpec Posix PageStore PageStoreInv WalFormat WalCodec WalCodecSpec WalRecovery WalReplay WalShard WalApi BufferPool PoolBase PoolEvict PoolFlush PoolFix PoolInv PoolSteps PoolEvictSpec PoolFlushSpec PoolFixSpec PoolDirtySpec PoolServe.
#[local] Open Scope Z_scope.

#[export] Instance memory_pages `{Build} : PageStoreOps := {|
  ps := InMemoryPageStore.t;
  store_read_page := InMemoryPageStore.read_page;
  store_write_page := InMemoryPageStore.write_page;
  store_allocate := InMemoryPageStore.allocate;
  store_sync := InMemoryPageStore.sync;
  store_write_pages := write_pages InMemoryPageStore.write_page;
  store_write_pages_and_sync := write_pages_and_sync InMemoryPageStore.write_page InMemoryPageStore.sync;
  store_next_page_id := InMemoryPageStore.next_page_id;
|}.

Definition file_pages `{Build} `{PosixFile} : PageStoreOps := {|
  ps := FilePageStore.t;
  store_read_page := FilePageStore.read_page;
  store_write_page := FilePageStore.write_page;
  store_allocate := FilePageStore.allocate;
  store_sync := FilePageStore.sync;
  store_write_pages := FilePageStore.write_pages;
  store_write_pages_and_sync := FilePageStore.write_pages_and_sync;
  store_next_page_id := FilePageStore.next_page_id;
|}.

#[export] Instance low_arena : PoolEnv :=
  {| arena_base := 2 ^ 20; eviction_policy := RandomSecondChance; thread_alloc_shard_hint := 0 |}.

#[export] Instance no_hooks `{PageStoreOps} `{WalOps} : Hooks := {|
  find_and_unswizzle _ _ _ σ := (false, σ);
  find_and_unswizzle_with_hint _ _ _ _ _ _ σ := (None, σ);
  hook_try_reclaim_before_evict _ _ σ := σ;
  hook_prepare_page_copy_for_writeback _ page _ := page;
|}.

(** * Buffer pool: what it runs on

    The two page stores of [src/crates/storage/src/page_store.rs] keep the
    promises the pool relies on: each is a map from identifiers to pages, and
    a failed write leaves the other pages alone. A log of one shard keeps
    those of an ordered log, and the absence of callbacks those of callbacks.
    A pool that was just made satisfies the pool's invariant. *)

#[local] Open Scope Z_scope.

Lemma IO_bind_Err {St A B} (m : IO St A) (k : A → IO St B) s e s1 :
  m s = Done (Err e) s1 → (m ≫= k) s = Done (Err e) s1.
Proof. unfold mbind, IO_bind. by intros ->. Qed.

(** ** Batches, from single writes *)

Section batch.
Context `{Build} {St : Type} (ok : St → Prop) (pid_ok : PageId → Prop) (page : St → PageId → option (list byte)).

(** A write of a page that exists: all or nothing on success, and nothing but
    that page in any case. *)
Definition writes_page (m : PageId → list byte → IO St unit) : Prop :=
  ∀ s pid d, ok s → pid_ok pid → is_Some (page s pid) → zlen d = PAGE_SIZE →
    ∃ res s', m pid d s = Done res s' ∧ ok s' ∧ is_Some (page s' pid) ∧
      (∀ q, pid_ok q → q ≠ pid → page s' q = page s q) ∧ (res = Ok tt → page s' pid = Some d).

Lemma for_each_writes m pages : writes_page m → ∀ s, ok s → NoDup pages.*1 →
  Forall (λ '(pid, d), pid_ok pid ∧ is_Some (page s pid) ∧ zlen d = PAGE_SIZE) pages →
  ∃ res s', for_each (λ '(pid, d), m pid d) pages s = Done res s' ∧ ok s' ∧
    (∀ q, pid_ok q → is_Some (page s q) → is_Some (page s' q)) ∧
    (∀ q, pid_ok q → q ∉ pages.*1 → page s' q = page s q) ∧
    (res = Ok tt → ∀ pid d, (pid, d) ∈ pages → page s' pid = Some d).
Proof.
  intros Hm. induction pages as [|[pid d] pages IH]; intros s Hs Hnd Hp; cbn [for_each].
  { exists (Ok tt), s. split_and!; try done. by intros _ ? ? ?%elem_of_nil. }
  cbn in Hnd. apply NoDup_cons in Hnd as [Hni Hnd]. apply Forall_cons in Hp as [(Hpid & Hex & Hd) Hp].
  destruct (Hm s pid d Hs Hpid Hex Hd) as (res & s1 & E & Hs1 & Hex1 & Hq & Hok).
  assert (Hkeep : ∀ q, pid_ok q → is_Some (page s q) → is_Some (page s1 q)).
  { intros q Hqok Hqs. destruct (decide (q = pid)) as [->|Hne]; [done|]. by rewrite Hq. }
  destruct res as [[]|e].
  2: { exists (Err e), s1. unfold mbind, IO_bind. rewrite E. split_and!; try done.
       intros q Hqok Hnq. apply Hq; [done|]. intros ->. apply Hnq. by left. }
  erewrite IO_bind_Ok by done. destruct (IH s1 Hs1 Hnd) as (res & s2 & E2 & Hs2 & Hk2 & Hq2 & Hok2).
  { eapply Forall_impl; [exact Hp|]. intros [q dq] (Hqok & Hqs & Hqd). by split_and!; [|apply Hkeep|]. }
  exists res, s2. split_and!; [done|done|by intros; apply Hk2; [|apply Hkeep]| |].
  - intros q Hqok (Hne & Hnin)%not_elem_of_cons. rewrite Hq2 by done. by apply Hq.
  - intros -> q dq [[= -> ->]|Hin]%elem_of_cons; [|by apply Hok2].
    rewrite Hq2 by done. by apply Hok.
Qed.
End batch.

(** ** The store in memory *)

Section memory.
Context `{Build}.

Lemma upd_all (p d : list byte) : zlen d = zlen p → Bytes.upd p 0 d = d.
Proof.
  intros Hz. apply list_eq. intros i. pose proof (zlen_nonneg p). rewrite Bytes.lookup_upd by lia. unfold zlen in *. case_decide.
  - f_equal. lia.
  - rewrite !lookup_ge_None_2 by lia. done.
Qed.

Definition memory_ok (s : gmap PageId (list byte)) : Prop := map_Forall (λ _ d, zlen d = PAGE_SIZE) s.
Definition memory_page (s : gmap PageId (list byte)) (pid : PageId) : option (list byte) := s !! pid.

Lemma memory_writes : writes_page memory_ok (λ _, True) memory_page InMemoryPageStore.write_page.
Proof.
  intros s pid d Hs _ _ Hd. unfold InMemoryPageStore.write_page, validate_page_buf_len, page_size. rewrite Hd, Z.eqb_refl.
  exists (Ok tt), (<[pid := d]> s : gmap PageId (list byte)). unfold memory_page, memory_ok in *.
  rewrite lookup_insert_eq. split_and!; [done|by apply map_Forall_insert_2|done| |done].
  intros q _ Hq. by rewrite lookup_insert_ne.
Qed.

#[export] Instance memory_laws : PageStoreLaws (H0 := memory_pages).
Proof.
  refine (Build_PageStoreLaws _ memory_pages memory_ok (λ _, True) memory_page _ _ _ _).
  - intros s pid d Hs _ E. by eapply (map_Forall_lookup_1 _ _ _ _ Hs).
  - intros s pid buf Hs _ Hb. cbn. unfold InMemoryPageStore.read_page, validate_page_buf_len, page_size. rewrite Hb, Z.eqb_refl.
    erewrite IO_bind_Ok by done. change (s !! pid) with (memory_page s pid). destruct (memory_page s pid) as [d|] eqn:E; [|by exists buf, (Ok false), s].
    pose proof (map_Forall_lookup_1 _ _ _ _ Hs E) as Hd. cbn in Hd. rewrite copy_from_Ret by page_lia.
    exists (Bytes.upd buf 0 d), (Ok true), s. split_and!; try done; rewrite upd_all by lia; done.
  - intros s pages Hs Hnd Hp. by apply (for_each_writes _ _ _ _ _ memory_writes).
  - intros s pages Hs Hnd Hp. destruct (for_each_writes _ _ _ _ pages memory_writes s Hs Hnd Hp) as (res & s' & E & Hr).
    destruct res as [[]|e]; eexists _, s'; (split; [|exact Hr]).
    + exact (IO_bind_Ok _ (λ _, InMemoryPageStore.sync) _ _ _ E).
    + exact (IO_bind_Err _ (λ _, InMemoryPageStore.sync) _ _ _ E).
Defined.
End memory.

(** ** The store in a file *)

Section file.
Context `{Build} `{PosixFile}.

(** Page 0 holds the header. *)
Definition file_pid_ok (pid : PageId) : Prop := 1 ≤ pid ∧ PageStoreInv.valid_pid pid.
Definition file_page (s : FilePageStore.t) (pid : PageId) : option (list byte) := page_at (file s) pid.

(** A write inside the file, or to the header, leaves the other pages. *)
Lemma page_at_write_other p pid q data :
  0 ≤ pid → 1 ≤ q → q ≠ pid → zlen data ≤ PAGE_SIZE → pid = 0 ∨ is_Some (page_at p pid) →
  page_at (write_at p (pid * PAGE_SIZE) data) q = page_at p q.
Proof.
  intros Hp Hq Hne Hz Hin. destruct (page_at p q) as [d|] eqn:E; [apply page_at_write_at_ne; try done; lia|].
  destruct (decide (zlen data = 0)) as [->%zlen_0_nil|Hz0]; [by rewrite write_at_nil|]. revert E Hin. unfold page_at.
  rewrite zlen_write_at by page_lia. destruct (Z.leb_spec ((q + 1) * PAGE_SIZE) (zlen p)) as [|Hlt]; [done|]. intros _ Hin.
  assert (pid * PAGE_SIZE + PAGE_SIZE ≤ zlen p ∨ pid = 0) as Hin'.
  { destruct Hin as [->|[d Hd]]; [by right|left]. destruct (Z.leb_spec ((pid + 1) * PAGE_SIZE) (zlen p)); [page_lia|done]. }
  rewrite (proj2 (Z.leb_gt _ _)); [done|]. destruct Hin' as [?| ->]; page_lia.
Qed.

Lemma file_writes purpose : writes_page (λ _, True) file_pid_ok file_page (λ pid d, FilePageStore.write_page_for_purpose pid d purpose).
Proof.
  intros s pid d _ [Hp Hv] Hex Hd. destruct (write_page_spec pid d purpose s Hv Hd) as (n & res & s' & E & Ef & Hn & _ & Hres).
  assert (Hz : zlen (sub d 0 n) = n) by (apply zlen_sub; lia). exists res, s'. unfold file_page in *. rewrite Ef. split_and!; [done|done| | |].
  - unfold page_at in *. destruct (decide (n = 0)) as [->|Hn0].
    { assert (sub d 0 0 = []) as -> by (by apply zlen_0_nil). by rewrite write_at_nil. }
    rewrite zlen_write_at by (rewrite ?Hz; page_lia). destruct (Z.leb_spec ((pid + 1) * PAGE_SIZE) (zlen (file s))); [|by destruct Hex].
    rewrite (proj2 (Z.leb_le _ _)) by lia. by eexists.
  - intros q [Hq _] Hne. apply page_at_write_other; try done; [lia|rewrite Hz; lia|by right].
  - intros ->. subst n. assert (sub d 0 PAGE_SIZE = d) as -> by (by rewrite <-Hd, sub_all). apply page_at_write_at; [lia|done].
Qed.

Lemma read_page_len pid buf purpose self buf' res self' :
  PageStoreInv.valid_pid pid → zlen buf = PAGE_SIZE →
  FilePageStore.read_page_for_purpose pid buf purpose self = Done (Ok (buf', res)) self' → zlen buf' = PAGE_SIZE.
Proof.
  intros Hv Hb. pose proof Hv as [Hp Hlim]. unfold FilePageStore.read_page_for_purpose, validate_page_buf_len, page_size.
  rewrite Hb, Z.eqb_refl, page_offset_ok by done. erewrite IO_bind_Ok by done.
  destruct (pread_exact_for_spec buf (pid * PAGE_SIZE) purpose self)
    as (d & r & f' & c & E & _ & _ & Hd & Hz & _); [page_lia|page_lia|done|].
  erewrite IO_bind_Ok by done. assert (Hl : zlen (Bytes.upd buf 0 (sub (file self) (pid * PAGE_SIZE) d)) = PAGE_SIZE) by (rewrite zlen_upd; lia).
  destruct r as [[]|[]]; intros [= <- _ _]; done.
Qed.

(** Batches count themselves, then write. *)
Lemma batch_writes purpose s pages (k : IO FilePageStore.t unit) :
  NoDup pages.*1 → Forall (λ '(pid, d), file_pid_ok pid ∧ is_Some (file_page s pid) ∧ zlen d = PAGE_SIZE) pages →
  (∀ s, ∃ res s', k s = Done res s' ∧ ∀ q, file_pid_ok q → file_page s' q = file_page s q) →
  ∃ res s', (_ ← FilePageStore.record_batch pages; _ ← for_each (λ '(pid, d), FilePageStore.write_page_for_purpose pid d purpose) pages; k) s
      = Done res s' ∧ True ∧
    (∀ q, file_pid_ok q → is_Some (file_page s q) → is_Some (file_page s' q)) ∧
    (∀ q, file_pid_ok q → q ∉ pages.*1 → file_page s' q = file_page s q) ∧
    (res = Ok tt → ∀ pid d, (pid, d) ∈ pages → file_page s' pid = Some d).
Proof.
  intros Hnd Hp Hk. erewrite IO_bind_Ok by done.
  set (s1 := FilePageStore.with_counters s _).
  assert (Hs1 : ∀ q, file_page s1 q = file_page s q) by done.
  destruct (for_each_writes _ _ _ _ pages (file_writes purpose) s1 I Hnd) as (res & s2 & E & _ & H1 & H2 & H3).
  { eapply Forall_impl; [exact Hp|]. by intros [pid d]. }
  destruct res as [[]|e].
  2: { exists (Err e), s2. split; [exact (IO_bind_Err _ (λ _, k) _ _ _ E)|]. by split_and!. }
  destruct (Hk s2) as (res & s3 & Ek & Hq). exists res, s3. split; [by rewrite (IO_bind_Ok _ (λ _, k) _ _ _ E)|].
  split_and!; [done| | |].
  - intros q Hok Hs. rewrite Hq by done. by apply H1.
  - intros q Hok Hn. rewrite Hq by done. by apply H2.
  - intros _ pid d Hin. rewrite Hq; [by apply H3|]. by apply (proj1 (Forall_forall _ _) Hp _ Hin).
Qed.

Lemma file_laws : PageStoreLaws (H0 := file_pages).
Proof.
  refine (Build_PageStoreLaws _ file_pages (λ _, True) file_pid_ok file_page _ _ _ _).
  - intros s pid d _ [Hp _] E. by eapply page_at_zlen; [|exact E]; lia.
  - intros s pid buf _ [Hp Hv] Hb. destruct (read_page_spec pid buf ForegroundRead s Hv Hb) as (buf' & res & s' & E & Ef & _ & Hres).
    exists buf', res, s'. split_and!; [exact E|done|by eapply read_page_len| |by destruct res as [[]|]].
    intros q _. unfold file_page. by rewrite Ef.
  - intros s pages _ Hnd Hp. destruct (batch_writes BackgroundWrite s pages (mret tt) Hnd Hp) as (res & s' & E & Hr).
    { intros s0. by exists (Ok tt), s0. }
    exists res, s'. split; [|done]. refine (eq_trans _ E).
    change (FilePageStore.write_pages pages s = (_ ← FilePageStore.record_batch pages; _ ← for_each (λ '(pid, d),
      FilePageStore.write_page_for_purpose pid d BackgroundWrite) pages; mret tt) s). unfold FilePageStore.write_pages, mbind, IO_bind.
    destruct (FilePageStore.record_batch pages s) as [[]| |]; try done. by destruct (for_each _ _ _) as [[[]|]| |].
  - intros s pages _ Hnd Hp. apply (batch_writes CheckpointWrite s pages (FilePageStore.sync_for CheckpointWrite) Hnd Hp).
    intros s0. destruct (sync_spec CheckpointWrite s0) as (d & res & s1 & E & Ef & Hd & _). exists res, s1. split; [done|].
    intros q [Hq _]. unfold file_page. rewrite Ef.
    apply (page_at_write_other (file s0) 0 q (sub (header_of s0) 0 d)); [done|lia|lia| |by left].
    pose proof (zlen_build_header (FilePageStore.page_count s0) (FilePageStore.checkpoint_lsn s0) (FilePageStore.user_meta_0 s0)
      (FilePageStore.user_meta_1 s0) (FilePageStore.user_meta_2 s0)). rewrite zlen_sub; unfold header_of; lia.
Defined.
End file.

(** ** A log of a fixed number of shards *)

Section log.
Context `{Build} (extra : nat).

(** A log of [1 + extra] shards. *)
Definition sharded (w : Wal.t) : Prop := length (Wal.shards w) = S extra ∧ 0 ≤ Wal.next_lsn w < 2 ^ 64.
Definition shard_log : Type := { w : Wal.t | sharded w }.

(** A log that keeps its shards, by construction. *)
Definition as_shards (d : shard_log) (w : Wal.t) : shard_log :=
  match decide (sharded w) with
  | left Hw => exist _ w Hw
  | right _ => d
  end.

Lemma as_shards_eq d w : sharded w → proj1_sig (as_shards d w) = w.
Proof. intros Hw. unfold as_shards. by destruct (decide (sharded w)). Qed.

Definition shards_log : WalOps := {|
  wal_t := shard_log;
  log_claim_lsn w := r ← Wal.claim (proj1_sig w); Ret (r.1, as_shards w r.2);
  log_append_page_image lsn _ _ := λ w, Done (Ok {| BufferedWalRecord.epoch := 0; BufferedWalRecord.offset := 0;
    BufferedWalRecord.shard_idx := shard_idx_for_lsn (Wal.shard_count (proj1_sig w)) lsn |})
    (as_shards w (Wal.note_appended (proj1_sig w) lsn));
  log_try_overwrite_page_image _ _ _ _ := λ w, Done (Ok false) w;
  log_append_page_patch_ranges lsn _ ranges := λ w, Done (Ok (Some (zlen ranges))) (as_shards w (Wal.note_appended (proj1_sig w) lsn));
  log_append_logical _ _ := λ w, match Wal.claim (proj1_sig w) with
    | Ret (lsn, w') => Done (Ok lsn) (as_shards w (Wal.note_appended w' lsn))
    | Panic => Panicked
    end;
  log_flush_at_least lsn w := as_shards w (Wal.flush_at_least id (proj1_sig w) lsn).1;
  log_flush w := as_shards w (Wal.flush id (proj1_sig w)).1;
  log_is_lsn_durable w := Wal.is_lsn_durable (proj1_sig w);
|}.

Lemma sharded_lookup w lsn : sharded w → ∃ s, Wal.shards w !! Wal.inner_idx_for_lsn w lsn = Some s.
Proof.
  intros [Hl _]. apply lookup_lt_is_Some. unfold Wal.inner_idx_for_lsn, Wal.shard_count, shard_idx_for_lsn, zlen. rewrite Hl.
  case_match; [lia|]. pose proof (Z.mod_pos_bound (Z.max (lsn - 1) 0) (Z.of_nat (S extra)) ltac:(lia)). lia.
Qed.

Lemma sharded_flush_at_least w lsn : sharded w → sharded (Wal.flush_at_least id w lsn).1.
Proof.
  intros Hw. destruct (sharded_lookup w lsn Hw) as (s & Es). unfold Wal.flush_at_least, Wal.on_inner. rewrite Es. cbn [fst].
  destruct Hw as [Hl Hn]. split; [|done]. cbn. by rewrite length_insert.
Qed.

Lemma sharded_flush w : sharded w → sharded (Wal.flush id w).1.
Proof. intros [Hl Hn]. split; [|done]. cbn. by rewrite length_map. Qed.

Lemma sharded_appended w lsn : sharded w → sharded (Wal.note_appended w lsn).
Proof. intros [Hl Hn]. split; [|done]. cbn. by rewrite length_alter. Qed.

(** The shard an LSN belongs to. *)
Definition shard_of (w : shard_log) (lsn : Z) : nat := Wal.inner_idx_for_lsn (proj1_sig w) lsn.

Lemma waits_for_all : ∀ t : Z, t ≤ id t.
Proof. intros. unfold id. lia. Qed.

Lemma flush_other_shard w lsn l : shard_of w l ≠ shard_of w lsn →
  Wal.is_lsn_durable (Wal.flush_at_least id (proj1_sig w) lsn).1 l = Wal.is_lsn_durable (proj1_sig w) l.
Proof.
  intros Hne. destruct w as [w Hw]. cbn in *. unfold shard_of in Hne. cbn in Hne. destruct (sharded_lookup w lsn Hw) as (s & Es).
  pose proof (proj2 (Wal.flush_at_least_durable id waits_for_all w lsn s Es) _ Hne) as Hsame.
  unfold Wal.is_lsn_durable, Wal.inner_for_lsn. f_equal.
  replace (Wal.inner_idx_for_lsn (Wal.flush_at_least id w lsn).1 l) with (Wal.inner_idx_for_lsn w l); [by rewrite Hsame|].
  unfold Wal.inner_idx_for_lsn, Wal.shard_count, zlen. by rewrite (proj1 Hw), (proj1 (sharded_flush_at_least w lsn Hw)).
Qed.

Lemma flush_same_shard w lsn l : shard_of w l = shard_of w lsn → l ≤ lsn →
  Wal.is_lsn_durable (Wal.flush_at_least id (proj1_sig w) lsn).1 l = true.
Proof.
  intros Heq Hle. destruct w as [w Hw]. unfold shard_of in Heq. cbn in *. destruct (sharded_lookup w lsn Hw) as (s & Es).
  unfold Wal.is_lsn_durable, Wal.inner_for_lsn. apply orb_true_iff. right.
  replace (Wal.inner_idx_for_lsn (Wal.flush_at_least id w lsn).1 l) with (Wal.inner_idx_for_lsn w l).
  2: { unfold Wal.inner_idx_for_lsn, Wal.shard_count, zlen. by rewrite (proj1 Hw), (proj1 (sharded_flush_at_least w lsn Hw)). }
  unfold Wal.flush_at_least, Wal.on_inner. rewrite Es, Heq. cbn [fst Wal.with_shards Wal.shards].
  rewrite list_lookup_insert_eq by (by eapply lookup_lt_Some). cbn. apply Z.leb_le.
  pose proof (Wal.strict_flush_durable id waits_for_all s lsn). lia.
Qed.

(** A log of one shard is ordered. *)
Lemma shards_laws : LogLaws (H := shards_log).
Proof.
  refine (Build_LogLaws shards_log (extra = 0%nat) _ _ _ _ _).
  - done.
  - intros [w Hw] lsn. cbn. rewrite as_shards_eq by (by apply sharded_flush_at_least).
    exact (flush_same_shard (exist _ w Hw) lsn lsn eq_refl (Z.le_refl _)).
  - intros [w Hw] lsn l. cbn. rewrite as_shards_eq by (by apply sharded_flush_at_least). apply Wal.flush_at_least_mono, waits_for_all.
  - intros [w Hw] l. cbn. rewrite as_shards_eq by (by apply sharded_flush). apply Wal.flush_mono, waits_for_all.
  - intros w lsn l Ho Hl. cbn. destruct w as [w Hw]. rewrite as_shards_eq by (by apply sharded_flush_at_least).
    apply (flush_same_shard (exist _ w Hw)); [|lia]. unfold shard_of, Wal.inner_idx_for_lsn, Wal.shard_count, shard_idx_for_lsn, zlen.
    cbn. by rewrite (proj1 Hw), Ho.
Defined.

Lemma uadd_range a b c : uadd 64 a b = Ret c → 0 ≤ a + b → 0 ≤ c < 2 ^ 64.
Proof.
  unfold uadd, in_width. destruct (_ && _) eqn:E; [intros [= <-] _; apply andb_true_iff in E as [?%Z.leb_le ?%Z.ltb_lt]; lia|].
  destruct debug_assertions; [done|]. intros [= <-] _. unfold wrap. apply Z.mod_pos_bound. lia.
Qed.

Lemma sharded_claim w lsn w' : sharded w → Wal.claim w = Ret (lsn, w') → 0 ≤ lsn < 2 ^ 64 ∧ sharded w'.
Proof.
  intros [Hl Hn]. unfold Wal.claim, claim_lsn, Wal.shard_count, zlen. rewrite Hl. case_match eqn:E1.
  - cbn. intros [= <- <-]. split; [done|]. split; [done|]. cbn. unfold wrap. apply Z.mod_pos_bound. lia.
  - destruct (align_lsn_to_shard _ _ _) as [l|] eqn:Ea; [|done]. rewrite !bind_Ret. destruct (uadd 64 l 1) as [nx|] eqn:En; [|done].
    rewrite !bind_Ret. intros [= <- <-]. assert (Hr : 0 ≤ l < 2 ^ 64).
    { unfold align_lsn_to_shard in Ea. destruct (debug_assert _); [|done]. rewrite bind_Ret in Ea. eapply uadd_range; [exact Ea|].
      pose proof (Z.mod_pos_bound (Wal.thread_shard w + Z.of_nat (S extra) - (Z.max (Wal.next_lsn w) 1 - 1) mod Z.of_nat (S extra))
        (Z.of_nat (S extra)) ltac:(lia)). lia. }
    split; [done|]. split; [done|]. cbn. eapply uadd_range; [exact En|lia].
Qed.

Lemma shards_appends : LogAppends (H := shards_log) (H0 := shards_laws).
Proof.
  split; [|by intros; eexists _, _..].
  intros [w Hw] lsn w'. cbn. destruct (Wal.claim w) as [[l w1]|] eqn:E; [|done]. rewrite bind_Ret. intros [= <- _].
  by eapply sharded_claim.
Qed.
End log.

(** *** One shard *)

Definition one_shard_log `{Build} : WalOps := shards_log 0.
#[export] Instance one_shard_laws `{Build} : LogLaws (H := one_shard_log) := shards_laws 0.
#[export] Instance one_shard_appends `{Build} : LogAppends (H := one_shard_log) := shards_appends 0.

(** ** No callbacks *)

#[export] Instance no_hooks_laws `{PageStoreLaws} `{LogLaws} `{!PoolEnv} `{!InnerPages} : HookLaws (H6 := no_hooks).
Proof.
  assert (Hq : ∀ h (σ : BufferPool.t), quiet [] h σ σ) by reflexivity.
  split; cbn; intros; by split_and!.
Qed.

(** ** A new pool *)

Section new_pool.
Context `{PageStoreLaws} `{LogLaws} `{!PoolEnv} `{!InnerPages}.

(** The frames of a new pool fit the address space. *)
Definition arena_ok (frames : nat) : Prop :=
  PAGE_SIZE ≤ arena_base ∧ arena_base mod FRAME_ALIGN = 0 ∧ arena_base + Z.of_nat frames * FRAME_STRIDE ≤ 2 ^ 62.

Lemma push_all_free (n k : nat) fl :
  FreeList.frames fl = seq 0 k → (k + n ≤ FreeList.capacity fl)%nat →
  foldl (λ fl bf, fl ← fl; FreeList.push fl bf) (Ret fl) (seq k n) =
    Ret {| FreeList.frames := seq 0 (k + n); FreeList.capacity := FreeList.capacity fl |}.
Proof.
  revert k fl. induction n as [|n IH]; intros k [fr cap] Hf Hc; cbn in *; subst fr.
  { by rewrite Nat.add_0_r. }
  unfold FreeList.push at 2. cbn. rewrite length_seq, assert_true, bind_Ret by (apply Nat.ltb_lt; lia).
  rewrite (IH (S k)); cbn [FreeList.frames FreeList.capacity]; [|by rewrite seq_S|lia].
  by replace (S k + n)%nat with (k + S n)%nat by lia.
Qed.

Lemma new_frame_ok σ : frame_ok σ Frame.new.
Proof. split; [|done|done]. split; cbn; try done. apply zlen_fill. page_lia. Qed.

Lemma new_table_None pid : PageTable.lookup PageTable.new pid = None.
Proof.
  unfold PageTable.lookup, PageTable.shard, PageTable.new. destruct (replicate _ _ !! _) as [m|] eqn:E; [|done].
  by apply lookup_replicate in E as [-> _].
Qed.

Lemma count_replicate_false {A} (g : A → bool) n x : g x = false → count g (replicate n x) = 0%nat.
Proof. intros Hx. induction n as [|n IH]; cbn; [done|]. by rewrite Hx. Qed.

Lemma new_pool n cpus store start :
  (1 ≤ n)%nat → 0 < start < 2 ^ 64 → arena_ok n → ps_ok store →
  (∀ pid d, ps_pid_ok pid → ps_page store pid = Some d → is_inner_index_page d = true → node_ok d) →
  ∃ σ, with_store_from_start_pid n cpus store start = Ret σ ∧ pool_ok 0 σ ∧ wal_rule σ ∧
    BufferPool.next_page_id σ = start ∧ BufferPool.page_writeback_preparers σ = [] ∧ BufferPool.wal σ = None ∧
    BufferPool.owners σ = ∅ ∧ ∀ pid, content σ pid = ps_page store pid.
Proof.
  intros Hn Hst Har Hok Hnodes. unfold with_store_from_start_pid. destruct (FreePagesSpec.new_inv start (Z.max cpus 1) Hst) as (a & -> & Ia & _ & _).
  rewrite bind_Ret. rewrite (push_all_free (n `max` 1) 0); [|done|cbn; lia]. rewrite bind_Ret. eexists. split; [done|].
  replace (n `max` 1)%nat with n by lia. cbn. set (σ := {| BufferPool.arena := _ |}).
  assert (Hlen : length (BufferPool.arena σ) = n) by apply length_replicate.
  assert (Hfr : ∀ s f, BufferPool.arena σ !! s = Some f → f = Frame.new) by (intros s f E; by apply lookup_replicate in E as [-> _]).
  assert (Hnone : ∀ pid, table_at σ pid = None) by apply new_table_None.
  split_and!; [|by apply Forall_nil|done|done|done|done|by intros; unfold content; rewrite Hnone].
  split.
  - constructor; try done.
    + apply NoDup_seq.
    + intros s. cbn. rewrite elem_of_seq. split.
      * intros Hs. split; [apply not_elem_of_nil|]. exists Frame.new. by rewrite lookup_replicate_2 by lia.
      * intros (_ & f & E & _). apply lookup_lt_Some in E. rewrite length_replicate in E. lia.
    + by intros s ?%elem_of_nil.
    + intros pid s. rewrite Hnone. split; [done|]. intros (f & E & Hf & _). apply Hfr in E as ->. done.
    + change (BufferPool.arena σ) with (replicate n Frame.new). rewrite count_replicate_false by done. cbn. lia.
    + cbn. lia.
    + unfold zlen. rewrite Hlen. cbn. lia.
    + unfold zlen. rewrite Hlen. exact Har.
    + intros q d Hq _ Hd. by apply (Hnodes q).
    + cbn. assert (Z.of_nat n < 2 ^ 62).
      { destruct Har as (H1' & _ & H2'). unfold FRAME_STRIDE in H2'. page_lia. }
      assert (Z.of_nat n / 4 ≤ Z.of_nat n) by (apply Z.div_le_upper_bound; lia). lia.
    + intros s f E. apply Hfr in E as ->. apply new_frame_ok.
  - intros s f E. by apply Hfr in E as ->.
  - intros s f E. by apply Hfr in E as ->.
  - exact Ia.
Qed.
End new_pool.
