(* ===== verification/PoolInner.v ===== *)
(** * Buffer pool: inner B-tree pages

    What the pool does to the inner nodes of a B-tree without knowing the
    tree: it looks for the reference to a frame, writes a page identifier in
    its place, and converts the references of a copy that is written back.
    Each leaves an inner node whose references can be decoded: the nodes of
    [src/crates/btree/src/node.rs] satisfy what the pool relies on. *)

From S2P Require Import Prelude Bytes FrameKernel SwipKernel PageHeader PageMutation Slotted SlottedInv SlottedOps SlottedSearch SlottedMutation SlottedSpec BufferFrame BTreeNode BTreeNodeInv BTreePages BTreeInnerSpec BTreeRoute BTreeNodeSpec FreePages Posix PageStore BufferPool PoolBase PoolEvict PoolFlush PoolFix PoolInv PoolSteps PoolEvictSpec PoolFlushSpec.
#[local] Open Scope Z_scope.
Import SlottedHeader SlottedPage.

(** A page of a tree: an inner node with references the pool made. *)
Definition tree_node `{Build} (p : list byte) : Prop :=
  ∃ cs u ss, inner_page p cs u ∧ decoded (children cs u) ss.

Section inner.
Context `{Build}.
Implicit Types (p q : list byte) (cs : list (list byte * Z)).

Lemma tree_node_len p : tree_node p → zlen p = PAGE_SIZE.
Proof. intros (cs & u & ss & P & _). apply (wf_len _ _ _ (inner_wf _ _ _ P)). Qed.

Lemma tree_node_inner p : tree_node p → is_inner_index_page p = true.
Proof.
  intros T. rewrite inner_index_flag by (by apply tree_node_len). destruct T as (cs & u & ss & P & _).
  rewrite (inner_type _ _ _ P), bool_decide_eq_true_2 by done. change (has_custom_flag p 2) with (BTreeNode.is_leaf p).
  by rewrite (inner_flag _ _ _ P).
Qed.

Lemma lsn_kept p q : zlen p = PAGE_SIZE → zlen q = PAGE_SIZE → sub q 0 8 = sub p 0 8 → read_page_lsn q = read_page_lsn p.
Proof.
  intros Hp Hq E. rewrite !read_page_lsn_get by page_lia. unfold get_le. change (Z.of_nat 8) with 8. by rewrite E.
Qed.

(** ** Conversion *)

Lemma convert_loop_kept prepare ids : ∀ p es p', wf p 8 es → Forall (λ i, 0 ≤ i < zlen es) ids →
  convert_loop prepare p ids = Ret p' → (∃ es', wf p' 8 es') ∧ sub p' 0 8 = sub p 0 8.
Proof.
  induction ids as [|i ids IH]; intros p es p' W Hi; cbn [convert_loop]; [intros [= <-]; eauto|].
  apply Forall_cons in Hi as [Hi Hids]. destruct (lookup_lt_is_Some_2 es (Z.to_nat i)) as [[k v] Ev]; [unfold zlen in Hi; lia|].
  pose proof (get_value_wf _ _ _ _ _ W Ev) as Eg. rewrite Z2Nat.id in Eg by lia. rewrite Eg, bind_Ret. cbn [snd].
  destruct (8 <=? zlen v); [|rewrite bind_Ret; by eapply IH].
  destruct (slice v 0 8) as [raw|]; [|done]. rewrite bind_Ret. destruct (prepare _) as [[w|]|]; [|rewrite !bind_Ret; by eapply IH|done].
  rewrite bind_Ret. destruct (update_value_wf p 8 es (Z.to_nat i) k v (le_bytes 8 (SwipWord.raw w)) W Ev) as (q & Eu & Hy & Hn).
  rewrite Z2Nat.id in Eu by lia. rewrite Eu, !bind_Ret. cbn [fst]. destruct (decide (zlen (le_bytes 8 (SwipWord.raw w)) = zlen v)) as [D|D].
  - destruct (Hy D) as (Wq & (Fl & _) & _). intros Hl. destruct (IH q _ p' Wq) as [Hw Hs]; [|done|].
    { eapply Forall_impl; [exact Hids|]. cbn. intros j. unfold zlen. rewrite length_insert. done. }
    split; [done|]. by rewrite Hs.
  - rewrite (Hn D). by eapply IH.
Qed.

Lemma convert_page_kept prepare p cs u p' :
  inner_page p cs u → convert_page prepare p = Ret p' → sub p' 0 8 = sub p 0 8.
Proof.
  intros P. unfold convert_page. rewrite (inner_type _ _ _ P), bool_decide_eq_true_2 by done. cbn [negb].
  change (has_custom_flag p 2) with (BTreeNode.is_leaf p). rewrite (inner_flag _ _ _ P).
  destruct (convert_loop _ _ _) as [q|] eqn:El; [|done]. rewrite bind_Ret.
  destruct (convert_loop_kept prepare (seqZ 0 (num_slots p)) p _ q (inner_wf _ _ _ P)) as [(es' & Wq) Hs]; [|done|].
  { destruct (inner_count _ _ _ P) as [-> _]. apply Forall_forall. intros i Hi%elem_of_seqZ. rewrite zlen_inner_entries. lia. }
  pose proof (wf_len _ _ _ Wq) as Hq. pose proof PAGE_SIZE_bounds.
  rewrite Hq, slice_Ret, bind_Ret by lia. destruct (prepare _) as [[w|]|]; [| |done]; rewrite bind_Ret.
  - pose proof (zlen_le_bytes 8 (SwipWord.raw w)) as Hb. revert Hb. generalize (le_bytes 8 (SwipWord.raw w)). intros bs Hb.
    rewrite copy_from_Ret by lia. intros [= <-]. by rewrite sub_upd_ne by lia.
  - intros [= <-]. done.
Qed.

Lemma written_ref_valid heap owned s :
  (∀ a, owned a = true → ∃ f, heap !! a = Some f ∧ payload_ok (BufferFrame.pid f)) → swip_valid s → swip_valid (written_ref heap owned s).
Proof.
  intros Hh Hv. destruct s as [a|a|pid]; cbn; [| |done]; destruct (owned a) eqn:Ho; try done;
    destruct (Hh a Ho) as (f & -> & Hp); done.
Qed.

Lemma tree_node_converts heap owned p :
  tree_node p → (∀ a, owned a = true → ∃ f, heap !! a = Some f ∧ payload_ok (BufferFrame.pid f)) →
  ∃ p', convert_swips_in_buf heap owned p = Ret p' ∧ tree_node p' ∧ read_page_lsn p' = read_page_lsn p.
Proof.
  intros T Hh. pose proof (tree_node_len _ T) as Hl. destruct T as (cs & u & ss & P & Hd). pose proof Hd as [_ Hv].
  destruct (convert_decoded (owned_to_evicted heap owned) (written_ref heap owned) p cs u ss P Hd) as (p' & cs' & u' & E & P' & _ & Hch).
  { intros s Hs. apply prepared_owned; [eauto|]. by apply (proj1 (Forall_forall _ _) Hv). }
  exists p'. split_and!; [done| |].
  - exists cs', u', (written_ref heap owned <$> ss). split; [done|]. split; [done|]. apply Forall_fmap.
    eapply Forall_impl; [exact Hv|]. intros s. by apply written_ref_valid.
  - apply lsn_kept; [done|apply P'|]. by eapply convert_page_kept.
Qed.

(** ** Taking a reference back *)

(** A position of a node: a slot, or the rightmost reference. *)
Definition edge_in (cs : list (list byte * Z)) (e : ParentChildEdge.t) : Prop :=
  if ParentChildEdge.is_upper e then True else 0 ≤ ParentChildEdge.slot e < zlen cs.

Lemma read_raw_spec p cs u e : inner_page p cs u → 0 ≤ ParentChildEdge.slot e →
  ∃ o, ParentChildEdge.read_raw e p = Ret o ∧ (is_Some o → edge_in cs e).
Proof.
  intros P He. pose proof (wf_len _ _ _ (inner_wf _ _ _ P)) as Hl. pose proof PAGE_SIZE_bounds. unfold ParentChildEdge.read_raw, edge_in.
  destruct (ParentChildEdge.is_upper e).
  { rewrite slice_Ret, bind_Ret by lia. eauto. }
  destruct (inner_count _ _ _ P) as [-> _]. destruct (Z.leb_spec (zlen cs) (ParentChildEdge.slot e)) as [Hge|Hlt]; [exists None; split; [done|by intros [? ?]]|].
  destruct (lookup_lt_is_Some_2 (inner_entries cs) (Z.to_nat (ParentChildEdge.slot e))) as [[k v] Ev].
  { unfold inner_entries. rewrite length_fmap. unfold zlen in *. lia. }
  pose proof (get_value_wf _ _ _ _ _ (inner_wf _ _ _ P) Ev) as Eg. rewrite Z2Nat.id in Eg by lia. rewrite Eg, bind_Ret. cbn [snd].
  destruct (Z.ltb_spec (zlen v) 8); [eauto|]. rewrite slice_Ret, bind_Ret by lia. eauto.
Qed.

Lemma find_slot_spec p cs u a b ids : inner_page p cs u → Forall (λ i, 0 ≤ i) ids →
  ∃ o, find_slot p a b ids = Ret o ∧ ∀ e, o = Some e → 0 ≤ ParentChildEdge.slot e ∧ edge_in cs e.
Proof.
  intros P. induction ids as [|i ids IH]; intros Hi; cbn [find_slot]; [eexists; split; [done|]; by intros|].
  apply Forall_cons in Hi as [Hi Hids]. destruct (read_raw_spec p cs u (ParentChildEdge.new i false) P Hi) as (o & -> & Ho). rewrite bind_Ret.
  destruct o as [raw|]; [|by apply IH]. destruct (_ || _); [|by apply IH]. eexists. split; [done|]. intros e [= <-]. split; [done|]. by apply Ho.
Qed.

Lemma find_child_spec `{!PoolEnv} p cs u child pid slot upper :
  inner_page p cs u → 0 ≤ slot → payload_ok (frame_ptr child) → payload_ok pid →
  ∃ o, find_child_pos_in_parent p child pid slot upper = Ret o ∧ ∀ e, o = Some e → 0 ≤ ParentChildEdge.slot e ∧ edge_in cs e.
Proof.
  intros P Hs Hc Hp. unfold find_child_pos_in_parent. rewrite (inner_type _ _ _ P), bool_decide_eq_true_2 by done. cbn [negb].
  rewrite hot_word, bind_Ret by done. rewrite evicted_encode, bind_Ret by done.
  destruct (read_raw_spec p cs u (ParentChildEdge.new slot upper) P Hs) as (o & -> & Ho). rewrite bind_Ret.
  set (is_child := λ raw : option Z, match raw with
    | Some raw => (raw =? encode (HotPtr (frame_ptr child))) || (raw =? encode (EvictedPage pid)) | None => false end).
  change (match o with Some raw => _ | None => false end) with (is_child o).
  assert (Hsome : ∀ o', is_child o' = true → is_Some o') by (by intros [?|]).
  destruct (is_child o) eqn:Ec; [eexists; split; [done|]; intros e [= <-]; split; [done|by apply Ho, Hsome]|].
  destruct (find_slot_spec p cs u (encode (HotPtr (frame_ptr child))) (encode (EvictedPage pid))
    (filter (λ pos, upper || negb (pos =? slot)) (seqZ 0 (num_slots p))) P) as (o2 & -> & Ho2).
  { apply Forall_forall. intros i [_ Hi%elem_of_seqZ]%list_elem_of_filter. lia. }
  rewrite bind_Ret. destruct o2 as [e|]; [eauto|]. destruct upper; [eexists; split; [done|]; by intros|].
  destruct (inner_count _ _ _ P) as [Hn _].
  destruct (read_raw_spec p cs u (ParentChildEdge.new (num_slots p) true) P) as (o3 & -> & Ho3); [cbn; rewrite Hn; apply zlen_nonneg|].
  rewrite bind_Ret. change (match o3 with Some raw => _ | None => false end) with (is_child o3).
  eexists. split; [done|]. intros e. destruct (is_child o3); [|done]. intros [= <-]. split; [|done].
  cbn. rewrite Hn. apply zlen_nonneg.
Qed.

Lemma decoded_insert cs u ss (i : nat) k w s :
  decoded (children cs u) ss → cs !! i = Some (k, w) → swip_valid s →
  decoded (children (<[i := (k, encode s)]> cs) u) (<[i := s]> ss).
Proof.
  intros [Hd Hv] Hi Hs. pose proof (lookup_lt_Some _ _ _ Hi) as Hlt. split; [|by apply Forall_insert].
  rewrite list_fmap_insert, <-Hd. unfold children. rewrite list_fmap_insert. cbn.
  by rewrite insert_app_l by (by rewrite length_fmap).
Qed.

Lemma decoded_last cs u ss s :
  decoded (children cs u) ss → swip_valid s → ∃ ss', decoded (children cs (encode s)) ss'.
Proof.
  intros [Hd Hv] Hs. exists (take (length cs) ss ++ [s]). split; [|apply Forall_app; split; [by apply Forall_take|by constructor]].
  rewrite fmap_app, fmap_take, <-Hd. unfold children. rewrite take_app_le by (by rewrite length_fmap).
  by rewrite take_ge by (by rewrite length_fmap).
Qed.

Lemma write_evicted_spec p e pid cs u ss :
  inner_page p cs u → decoded (children cs u) ss → 0 ≤ ParentChildEdge.slot e → edge_in cs e → payload_ok pid →
  ∃ p', ParentChildEdge.write_evicted e p pid = Ret p' ∧ tree_node p' ∧ sub p' 0 8 = sub p 0 8.
Proof.
  intros P Hd He Hin Hp. pose proof (wf_len _ _ _ (inner_wf _ _ _ P)) as Hl. pose proof PAGE_SIZE_bounds.
  assert (Hw : word_ok (encode (EvictedPage pid))) by (by apply encode_word_ok).
  unfold ParentChildEdge.write_evicted, edge_in in *. rewrite evicted_encode, bind_Ret by done.
  destruct (ParentChildEdge.is_upper e).
  - rewrite copy_from_Ret by (rewrite ?zlen_le_bytes; lia). eexists. split; [done|].
    split; [|rewrite sub_upd_ne; [done|..]; rewrite ?zlen_le_bytes; lia].
    destruct (decoded_last cs u ss (EvictedPage pid) Hd Hp) as [ss' Hd'].
    exists cs, (encode (EvictedPage pid)), ss'. split; [|done]. by apply (inner_page_set_upper p cs u).
  - destruct (lookup_lt_is_Some_2 cs (Z.to_nat (ParentChildEdge.slot e))) as [[k w] Ei]; [unfold zlen in *; lia|].
    set (w' := encode (EvictedPage pid)).
    destruct (update_value_wf p 8 _ _ k (le_bytes 8 w) (le_bytes 8 w') (inner_wf _ _ _ P) (inner_lookup _ _ _ _ Ei)) as (p' & E & Hy & _).
    rewrite Z2Nat.id in E by lia. unfold SwipWord.raw. rewrite E, bind_Ret. exists p'. split; [done|].
    destruct Hy as (W' & F' & Fl'); [by rewrite !zlen_le_bytes|]. split; [|apply F'].
    exists (<[Z.to_nat (ParentChildEdge.slot e) := (k, w')]> cs), u, (<[Z.to_nat (ParentChildEdge.slot e) := EvictedPage pid]> ss).
    split; [|by eapply decoded_insert].
    eapply inner_kept; [exact P| |done|intros ? _; by rewrite Fl'|].
    + unfold inner_entries in *. by rewrite list_fmap_insert.
    + apply Forall_insert; [apply P|done].
Qed.

Lemma tree_node_stamps p lsn : tree_node p → 0 ≤ lsn < 2 ^ 64 → tree_node (write_page_lsn p lsn).
Proof.
  intros (cs & u & ss & P & Hd) Hlsn. exists cs, u, ss. split; [|done]. pose proof PAGE_SIZE_bounds.
  pose proof (wf_len _ _ _ (inner_wf _ _ _ P)) as Hl. rewrite write_page_lsn_set by lia.
  assert (Hz : zlen (set_le 8 p 0 lsn) = PAGE_SIZE) by (rewrite zlen_set_le; lia).
  assert (Hf : flags (set_le 8 p 0 lsn) = flags p) by (apply get_set_le_ne; lia).
  destruct P as [W Fl Ty Up Wo]. constructor; [| | | |done].
  - apply (wf_ext p); [done|done|by rewrite sub_set_le_ne by lia|]. intros. by rewrite sub_set_le_ne by lia.
  - by rewrite is_leaf_bit, Hf, <-is_leaf_bit.
  - rewrite <-Ty. apply page_type_flags; [lia|lia|]. intros. by rewrite Hf.
  - rewrite <-Up. unfold BTreeNode.upper_swip, UPPER_OFFSET. by rewrite get_set_le_ne by lia.
Qed.
End inner.

#[export] Instance btree_pages `{Build} `{PageStoreOps} `{WalOps} `{!PoolEnv} : InnerPages.
Proof.
  refine {| node_ok := tree_node |}.
  - intros heap contains p T _ Hh. destruct (tree_node_converts heap contains p T Hh) as (p' & E & T' & Hl). exists p'.
    split_and!; [done|done|by apply tree_node_len|by apply tree_node_inner|done].
  - intros p child pid slot upper (cs & u & ss & P & _) Hs Hc Hp.
    destruct (find_child_spec p cs u child pid slot upper P Hs Hc Hp) as (o & -> & _). eauto.
  - intros p child pid slot upper edge T Hs Hc Hp Ef. pose proof (tree_node_len _ T) as Hl. destruct T as (cs & u & ss & P & Hd).
    destruct (find_child_spec p cs u child pid slot upper P Hs Hc Hp) as (o & Eo & Ho). rewrite Ef in Eo. injection Eo as <-.
    destruct (Ho edge eq_refl) as [He Hin]. destruct (write_evicted_spec p edge pid cs u ss P Hd He Hin Hp) as (p' & E & T' & Hk).
    pose proof (tree_node_len _ T') as Hl'. exists p'. split_and!; [done|done|lia|by apply tree_node_inner|by apply lsn_kept].
  - intros p lsn T _ Hlsn. by apply tree_node_stamps.
Defined.
