(* ===== verification/PoolSpec.v ===== *)
(** * Buffer pool: its properties

    What the pool promises to the code above it, each with a run of a small
    pool over the in-memory store. *)

From S2P Require Import Prelude Bytes FrameKernel SwipKernel PageHeader PageMutation Slotted BufferFrame FreePages FreePagesInv FreePagesSpec Posix PageStore WalFormat WalCodec WalCodecSpec WalRecovery WalReplay WalShard WalApi BufferPool PoolBase PoolEvict PoolFlush PoolFix PoolInv PoolSteps PoolEvictSpec PoolFlushSpec PoolFixSpec PoolDirtySpec PoolServe PoolStores PoolInner.
#[local] Open Scope Z_scope.

(** ** Small pools *)

Module Sample.
#[export] Existing Instance debug_4k.
#[export] Existing Instance one_shard_log.

(** A data page with a mark, and a store of three. *)
Definition data_page (b : byte) : list byte := Bytes.upd (fill 4096 x00) 100 [b].
Definition store : gmap PageId (list byte) := <[1 := data_page x01]> (<[2 := data_page x02]> {[3 := data_page x03]}).
Definition write_mark (b : byte) (p : list byte) : list byte := if is_inner_index_page p then p else Bytes.upd p 100 [b].
Definition first_wal : Wal.t :=
  {| Wal.next_lsn := 1; Wal.shards := [WalMarks.new 0]; Wal.commit_mode := Strict; Wal.thread_shard := 0; Wal.thread_last_lsn := 0 |}.
Lemma first_wal_ok : sharded 0 first_wal.
Proof. done. Qed.
Definition first_log : shard_log 0 := exist (sharded 0) first_wal first_wal_ok.

(** Two frames for the three pages, with and without a log. *)
Definition made : outcome BufferPool.t := with_store_from_start_pid (H0 := memory_pages) 2 1 store 4.
Definition logged (σ : BufferPool.t) : BufferPool.t := BufferPool.with_wal σ (Some first_log).
End Sample.

Section samples.
Import Sample.

Lemma data_page_len b : zlen (data_page b) = 4096.
Proof. unfold data_page. rewrite zlen_upd; [by rewrite zlen_fill|lia|rewrite zlen_fill by lia; vm_compute; congruence]. Qed.

Lemma store_ok : memory_ok store.
Proof.
  unfold memory_ok, store. repeat (apply map_Forall_insert_2; [apply data_page_len|]). done.
Qed.

Lemma store_page pid d : store !! pid = Some d → ∃ b, b ∈ [x01; x02; x03] ∧ d = data_page b.
Proof.
  unfold store. rewrite !lookup_insert_Some, lookup_singleton_Some. intros [[_ <-]|[_ [[_ <-]|[_ [_ <-]]]]]; eexists; (split; [|done]); set_solver.
Qed.

Lemma data_page_plain b : b ∈ [x01; x02; x03] → is_inner_index_page (data_page b) = false ∧ read_page_type (data_page b) ≠ Index.
Proof. intros Hb. repeat (apply elem_of_cons in Hb as [-> | Hb]; [by vm_compute|]). by apply elem_of_nil in Hb. Qed.

(** The pool of the three pages, over any log. *)
Lemma new_sample {W : WalOps} {L : LogLaws} : ∃ σ, with_store_from_start_pid (H0 := memory_pages) 2 1 store 4 = Ret σ ∧
  (∀ o, pool_ok 0 (BufferPool.with_wal σ o) ∧ tracks store (BufferPool.with_wal σ o)) ∧
  BufferPool.wal σ = None ∧ wal_rule σ ∧ BufferPool.owners σ = ∅.
Proof.
  destruct (new_pool (H0 := memory_pages) 2 1 store 4) as (σ & E & Hok & Hr & Hn & Hp & Hw & Ho & Hc); [lia|lia| |apply store_ok| |].
  - unfold arena_ok, FRAME_STRIDE. vm_compute. split_and!; congruence.
  - intros pid d _ Hd. change (store !! pid = Some d) in Hd. apply store_page in Hd as (b & Hb & ->). by destruct (data_page_plain b Hb) as [-> _].
  - exists σ. assert (T : tracks store σ).
    { intros pid d Hd. rewrite Hc. pose proof (store_page _ _ Hd) as (b & Hb & ->). split; [|exists (data_page b); split; [done|apply rtc_refl]].
      unfold valid_pid. rewrite Hn. split_and!; [| |lia|done]; revert Hd; unfold store;
        rewrite !lookup_insert_Some, lookup_singleton_Some; lia. }
    split_and!; [done| |done|done|done]. intros o. split; [|done]. destruct Hok as [I ? ? ?]. split; try done.
    eapply inv_ext; [exact I|try done..]. apply I.
Qed.

Lemma made_ok : ∃ σ, made = Ret σ ∧ pool_ok 0 σ ∧ pool_ok 0 (logged σ) ∧ wal_rule σ ∧ tracks store σ ∧ tracks store (logged σ) ∧
  BufferPool.owners σ = ∅.
Proof.
  destruct new_sample as (σ & E & Hok & Hw & Hr & Ho). exists σ. destruct (Hok None) as [H1 T1]. destruct (Hok (Some first_log)) as [H2 T2].
  assert (Hs : BufferPool.with_wal σ None = σ) by (rewrite <-Hw; by destruct σ). rewrite Hs in H1, T1. by split_and!.
Qed.
End samples.

(** ** A map of pages *)

(** C5: the pool is a map from page identifiers to pages. Pages are read and
    changed in pinned frames while clean frames are evicted and dirty ones
    written back in between, in any order: every read answers with the page
    last written under that identifier (stamped with its LSN when a log is
    attached), whatever is resident. For an inner index page, references to
    frames may have been replaced by page identifiers since, and a page of a
    type with a registered preparer may have been written out as the preparer
    makes it and loaded again; every other page is read exactly as it was
    written. A change may not touch the page's LSN field, make an index leaf
    of a page that was none or break the layout of an inner page. Nothing but
    a failed or lost read of the store, a full pool, a frame that was claimed
    2^32 - 1 times, a failed append or the end of the LSNs makes a request
    panic, every request returns, the pool is well formed afterwards, and no
    page is handed to the store before its log record is durable when one
    flush of the log covers all smaller LSNs. *)
Theorem pool_serves_pages `{HookLaws} `{!LogAppends} n M σ rqs :
  pool_ok n σ → 0 ≤ n < 2 ^ 32 - 1 → tracks M σ → Forall (request_ok M) rqs →
  ends serving (serve_all rqs) σ (λ a σ', ∃ M', answers (preparers σ) M rqs a M' ∧ pool_ok n σ' ∧ tracks M' σ' ∧
    (∀ p q, plain σ p → reads (preparers σ) p q → q = p) ∧ (ordered_log → wal_rule σ → wal_rule σ')).
Proof.
  intros Hok Hn T Hr. eapply ends_mono; [by apply serve_all_spec|]. intros a σ' (M' & Ha & Hok' & T' & _ & Hw).
  exists M'. split_and!; [done|done|done|apply reads_plain|done].
Qed.

Section sample_requests.
Import Sample.

Definition sample_requests : list request :=
  [Update 1 (write_mark x0a); Update 2 (write_mark x0b); FlushSome 1 Foreground; Get 3; Update 1 (write_mark x0c); Evict 2;
   Update 3 (write_mark x0d); FlushAll; Evict 2; Get 2; Get 1].

Lemma write_mark_ok {W : WalOps} b : edit_ok (write_mark b).
Proof.
  assert (Hf : ∀ p n o, zlen p = PAGE_SIZE → o + Z.of_nat n ≤ 100 → 0 ≤ o → get_le n (write_mark b p) o = get_le n p o).
  { intros p n o Hp Ho H0'. unfold write_mark. case_match; [done|]. apply get_upd_ne; change (zlen [b]) with 1; page_lia. }
  assert (Hz : ∀ p, zlen p = PAGE_SIZE → zlen (write_mark b p) = PAGE_SIZE).
  { intros p Hp. unfold write_mark. case_match; [done|]. rewrite zlen_upd; [done|lia|change (zlen [b]) with 1; page_lia]. }
  assert (Ht : ∀ p, zlen p = PAGE_SIZE → read_page_type (write_mark b p) = read_page_type p).
  { intros p Hp. pose proof (Hz p Hp). rewrite !read_page_type_get by page_lia. unfold flags_of. by rewrite Hf by (unfold FLAGS_OFF; lia). }
  assert (Hi : ∀ p, zlen p = PAGE_SIZE → is_inner_index_page (write_mark b p) = is_inner_index_page p).
  { intros p Hp. rewrite !inner_index_flag by auto. rewrite Ht by done. unfold SlottedPage.has_custom_flag, SlottedHeader.flags. by rewrite Hf by (try done; lia). }
  split; [done| | |]; intros p Hp.
  - pose proof (Hz p Hp). rewrite !read_page_lsn_get by page_lia. by apply Hf.
  - unfold parent_kind. by rewrite Hi, Ht.
  - rewrite Hi by done. intros Hn Hin. unfold write_mark. rewrite Hin. auto.
Qed.

Lemma sample_requests_ok : Forall (request_ok store) sample_requests.
Proof. repeat (apply Forall_cons; split; [first [split; [by eexists|apply write_mark_ok]|by eexists|exact I]|]); done. Qed.

(** The run ends, and its reads answer what was written. *)
Lemma sample_run :
  match made with
  | Ret σ =>
      match serve_all sample_requests (logged σ) with
      | Fin a _ => match reverse a with Some p1 :: Some p2 :: _ => (p1 !! 100%nat, p2 !! 100%nat) = (Some x0c, Some x0b) | _ => False end
      | _ => False
      end
  | Panic => False
  end.
Proof. vm_compute. reflexivity. Qed.

Lemma pool_serves_pages_witness : ∃ σ, made = Ret σ ∧
  ends serving (serve_all sample_requests) (logged σ) (λ a σ', ∃ M', answers (preparers σ) store sample_requests a M' ∧ pool_ok 0 σ' ∧
    tracks M' σ' ∧ (∀ p q, plain σ p → reads (preparers σ) p q → q = p) ∧ (ordered_log → wal_rule (logged σ) → wal_rule σ')).
Proof.
  destruct made_ok as (σ & E & _ & Hok & _ & _ & T & _). exists σ. split; [exact E|].
  refine (pool_serves_pages 0 store (logged σ) sample_requests Hok _ T sample_requests_ok). lia.
Defined.
End sample_requests.

(** ** Eviction *)

(** C13: eviction loses nothing. Whichever policy selects frames, an attempt
    to evict returns without a panic and leaves a well-formed pool in which
    every page still reads: an inner index page as it was, except that
    references to frames were replaced by the identifiers of the pages those
    frames held; a page of a type with a registered preparer as it was or as
    the preparer made it for the store; every other page with the very same
    bytes. Pinned frames and frames whose page must stay are untouched in
    place, no frame is left latched or half evicted, nothing becomes
    resident, and no page was handed to the store before its log record was
    durable. The callbacks are taken to change pages only by taking
    references back. *)
Theorem eviction_keeps_pages `{HookLaws} σ n :
  inv [] 0 σ → all_calm σ →
  ends never (try_evict_policy n) σ (λ _ σ', inv [] 0 σ' ∧ all_calm σ' ∧
    (∀ pid p, ps_pid_ok pid → content σ pid = Some p → keeps_page (holds σ) σ p (content σ' pid)) ∧
    (∀ pid p, ps_pid_ok pid → content σ pid = Some p → plain σ p → content σ' pid = Some p) ∧
    (∀ s f, BufferPool.arena σ !! s = Some f → Frame.state f ≠ Free → stays_resident f = true →
      ∃ f', BufferPool.arena σ' !! s = Some f' ∧ stays f f') ∧
    (∀ pid, table_at σ pid = None → table_at σ' pid = None) ∧
    (ordered_log → wal_rule σ → wal_rule σ')).
Proof.
  intros I Hc. eapply ends_mono; [by apply try_evict_policy_spec|]. intros _ σ' [I' Q]. pose proof (q_steady _ _ _ _ Q) as S.
  split_and!; [done|by eapply quiet_all_calm|apply Q| |apply S|apply Q|apply S].
  intros pid p Hp Ec Hpl. eapply keeps_page_plain; [done|]. by apply (q_content _ _ _ _ Q).
Qed.

Section eviction_keeps_pages_sample.
Import Sample.

(** Two pages are read, so that both frames are taken; a sweep then evicts both. *)
Definition reading : list request := [Get 1; Get 2].

Lemma reading_run :
  match made with
  | Ret σ =>
      match serve_all reading σ with
      | Fin _ σ1 =>
          match try_evict_policy 2 σ1 with
          | Fin _ σ2 => (count live (BufferPool.arena σ1), count live (BufferPool.arena σ2)) = (2%nat, 0%nat)
          | _ => False
          end
      | _ => False
      end
  | Panic => False
  end.
Proof. vm_compute. reflexivity. Qed.

Lemma eviction_keeps_pages_witness : ∃ σ a σ1, made = Ret σ ∧ serve_all reading σ = Fin a σ1 ∧ count live (BufferPool.arena σ1) = 2%nat ∧
  ends never (try_evict_policy 2) σ1 (λ _ σ', count live (BufferPool.arena σ') = 0%nat ∧ inv [] 0 σ' ∧
    ∀ pid p, content σ1 pid = Some p → keeps_page (holds σ1) σ1 p (content σ' pid)).
Proof.
  destruct made_ok as (σ & E & Hok & _ & _ & T & _). pose proof reading_run as R. rewrite E in R.
  assert (Hr : Forall (request_ok store) reading) by (repeat (apply Forall_cons; split; [by eexists|]); done).
  pose proof (serve_all_spec 0 reading store σ Hok ltac:(lia) T Hr) as Sp. unfold ends in Sp.
  destruct (serve_all reading σ) as [a σ1|w|] eqn:Er; [|done|done]. exists σ, a, σ1. split; [exact E|]. split; [exact Er|].
  destruct Sp as (M' & _ & Hok1 & _).
  pose proof (eviction_keeps_pages σ1 2 (po_inv _ _ Hok1) (po_calm _ _ Hok1)) as Hev. unfold ends in *.
  destruct (try_evict_policy 2 σ1) as [k σ2|w|]; [|done|done]. injection R as R1 R2. destruct Hev as (I2 & _ & Hc & _).
  split; [exact R1|]. split; [exact R2|]. split; [exact I2|]. intros pid p. by apply Hc.
Defined.
End eviction_keeps_pages_sample.

(** ** Checkpoints *)

Section checkpoint.
Context `{HookLaws}.

(** What a batch leaves in the store for each frame. *)
Lemma wrote_disk h r σ σ' l pages s f :
  inv h r σ → wrote σ σ' l pages true → BufferPool.arena σ !! s = Some f → Frame.state f ≠ Free →
  if decide (s ∈ l) then ∃ d, disk σ' (Frame.pid f) = Some d ∧ written_as σ (Frame.page f) d
  else disk σ' (Frame.pid f) = disk σ (Frame.pid f).
Proof.
  intros I W E Hf. case_decide as Hs.
  - destruct (wr_slots _ _ _ _ _ W s Hs) as (f0 & d & E0 & _ & _ & Hin & Hpr). rewrite E in E0. injection E0 as <-.
    exists d. split; [by apply (wr_done _ _ _ _ _ W)|apply Hpr].
  - apply (wr_other _ _ _ _ _ W); [by apply (fo_live _ _ (fo_local _ _ (inv_frames _ _ _ I s f E)) Hf)|].
    intros (s' & f' & Hs' & E' & Hp)%(wr_pages _ _ _ _ _ W). destruct (wr_slots _ _ _ _ _ W s' Hs') as (f0 & d & E0 & Hf' & _).
    rewrite E' in E0. injection E0 as <-. pose proof (live_table _ _ _ _ _ I E' Hf') as T'.
    rewrite Hp, (live_table _ _ _ _ _ I E Hf) in T'. congruence.
Qed.

(** A page that is written as it is and whose frame is clean is in the store. *)
Lemma clean_plain h r σ s f :
  inv h r σ → BufferPool.arena σ !! s = Some f → Frame.state f ≠ Free → Frame.dirty f = false → plain σ (Frame.page f) →
  disk σ (Frame.pid f) = Some (Frame.page f).
Proof.
  intros I E Hf Hd Hpl. destruct (fo_clean _ _ (fo_local _ _ (inv_frames _ _ _ I s f E)) Hf Hd (proj1 Hpl)) as (d & -> & Hr).
  f_equal. eapply (reads_plain σ); [done|]. eapply rtc_subrel; [|exact Hr]. intros. by right.
Qed.
End checkpoint.

(** C15: a flush makes the pool durable. It returns, whatever the store
    answers, with the pool well formed, the same pages and every log record
    of a page durable before the page is handed over. When it succeeds the
    store holds, for every dirty frame, the page as it is written: as its
    type's preparer makes it if one is registered, an inner index page with
    its references to frames turned into the identifiers of the pages these
    hold, and any other page byte for byte; what the store holds for clean
    frames is unchanged, which for pages written as they are is the page
    itself; no frame is dirty, and the retired extents are available again.
    When the store fails, the frames stay dirty and the extents pending. *)
Theorem flush_persists `{HookLaws} n σ :
  pool_ok n σ →
  ends never flush σ (λ res σ', pool_ok n σ' ∧ (wal_rule σ → wal_rule σ') ∧
    (∀ pid, ps_pid_ok pid → content σ' pid = content σ pid) ∧
    if is_ok res then
      (∀ s f, BufferPool.arena σ !! s = Some f → Frame.state f ≠ Free →
        if Frame.dirty f then ∃ d, disk σ' (Frame.pid f) = Some d ∧ written_as σ (Frame.page f) d
        else disk σ' (Frame.pid f) = disk σ (Frame.pid f)) ∧
      (∀ pid p, ps_pid_ok pid → content σ pid = Some p → plain σ p → disk σ' pid = Some p) ∧
      (∀ s f, BufferPool.arena σ' !! s = Some f → Frame.state f ≠ Free → Frame.dirty f = false) ∧
      BufferPool.pending_reusable_extents σ' = []
    else BufferPool.arena σ' = BufferPool.arena σ ∧
      BufferPool.pending_reusable_extents σ' = BufferPool.pending_reusable_extents σ).
Proof.
  intros Hok. pose proof (po_inv _ _ Hok) as I. eapply ends_mono; [apply (flush_spec [] 0); [done| |apply Hok]|].
  { intros s f E. by apply (po_calm _ _ Hok s). }
  intros res σ' Fl. pose proof (maintained_flush n ∅ σ res σ' Hok) as (Hok' & _); [by intros ? ? ?|done|].
  destruct Fl as [I' Hr _ (l & pages & W & Hl) Hx]. pose proof (wrote_retouched _ _ _ _ _ _ _ I W) as R.
  assert (Hc : ∀ pid, ps_pid_ok pid → content σ' pid = content σ pid) by (intros; by eapply retouched_content).
  split_and!; [done|done|done|]. destruct (is_ok res) eqn:Er.
  - assert (Hclean : ∀ s f, BufferPool.arena σ' !! s = Some f → Frame.state f ≠ Free → Frame.dirty f = false).
    { intros s f' E' Hf. destruct (lookup_lt_is_Some_2 (BufferPool.arena σ) s) as [f E].
      { rewrite <-(wr_length _ _ _ _ _ W). by eapply lookup_lt_Some. }
      rewrite (wr_frames _ _ _ _ _ W s f E), andb_true_r in E'. case_bool_decide as D; injection E' as <-; [done|].
      destruct (Frame.dirty f) eqn:Ed; [|done]. destruct D. apply Hl. by exists f. }
    split_and!; [| |done|apply Hx].
    + intros s f E Hf. pose proof (wrote_disk _ _ _ _ _ _ _ _ I W E Hf) as Hd. destruct (Frame.dirty f) eqn:Ed; case_decide as Hs; try done.
      * destruct Hs. apply Hl. by exists f.
      * apply Hl in Hs as (f0 & E0 & _ & Hd0). rewrite E in E0. injection E0 as <-. congruence.
    + intros pid p Hp Hpc Hpl. rewrite <-Hc in Hpc by done. unfold content in Hpc.
      destruct (table_at σ' pid) as [s|] eqn:Et; [|done]. destruct (table_live _ _ _ _ _ I' Et) as (f & E & Hf & Hpid).
      rewrite E in Hpc. injection Hpc as <-. rewrite <-Hpid. eapply clean_plain; [done|done|done|by eapply Hclean|].
      unfold plain. by rewrite (wr_preparers _ _ _ _ _ W).
  - split; [|apply Hx]. apply list_eq. intros s. destruct (BufferPool.arena σ !! s) as [f|] eqn:E.
    + by rewrite (wr_frames _ _ _ _ _ W s f E), andb_false_r.
    + apply lookup_ge_None. rewrite (wr_length _ _ _ _ _ W). by apply lookup_ge_None.
Qed.

Section flush_persists_sample.
Import Sample.

(** Two pages are changed, and both frames are dirty. *)
Definition changing : list request := [Update 1 (write_mark x0a); Update 2 (write_mark x0b)].

Lemma changing_run :
  match made with
  | Ret σ =>
      match serve_all changing (logged σ) with
      | Fin _ σ1 => match flush σ1 with
          | Fin res σ2 => (count Frame.dirty (BufferPool.arena σ1), res, count Frame.dirty (BufferPool.arena σ2)) = (2%nat, Ok tt, 0%nat)
          | _ => False
          end
      | _ => False
      end
  | Panic => False
  end.
Proof. vm_compute. reflexivity. Qed.

Lemma flush_persists_witness : ∃ σ a σ1, made = Ret σ ∧ serve_all changing (logged σ) = Fin a σ1 ∧
  count Frame.dirty (BufferPool.arena σ1) = 2%nat ∧
  ends never flush σ1 (λ res σ', res = Ok tt ∧ pool_ok 0 σ' ∧ ∀ s f, BufferPool.arena σ1 !! s = Some f → Frame.state f ≠ Free →
    Frame.dirty f = true → ∃ d, disk σ' (Frame.pid f) = Some d ∧ written_as σ1 (Frame.page f) d).
Proof.
  destruct made_ok as (σ & E & _ & Hok & _ & _ & T & _). pose proof changing_run as R. rewrite E in R.
  assert (Hr : Forall (request_ok store) changing)
    by (repeat (apply Forall_cons; split; [split; [by eexists|apply write_mark_ok]|]); done).
  pose proof (serve_all_spec 0 changing store (logged σ) Hok ltac:(lia) T Hr) as Sp. unfold ends in Sp.
  destruct (serve_all changing (logged σ)) as [a σ1|w|] eqn:Er; [|done|done]. exists σ, a, σ1. split; [exact E|]. split; [exact Er|].
  destruct Sp as (M' & _ & Hok1 & _). pose proof (flush_persists 0 σ1 Hok1) as Hfl. unfold ends in *.
  destruct (flush σ1) as [res σ2|w|]; [|done|done]. injection R as R1 -> R3. destruct Hfl as (Hok2 & _ & _ & Hd & _).
  split; [exact R1|]. split; [done|]. split; [exact Hok2|]. intros s f Ef Hf Hdf. specialize (Hd s f Ef Hf). by rewrite Hdf in Hd.
Defined.
End flush_persists_sample.

(** ** Fixing *)

Section edges.
Context `{PageStoreLaws} `{LogLaws} `{!PoolEnv} `{!InnerPages}.

(** A fresh edge to a page, by its identifier. *)
Lemma inv_new_owner h r σ o pid :
  inv h r σ → BufferPool.owners σ !! o = None → valid_pid σ pid →
  inv h r (BufferPool.with_owners σ (<[o := {| StableSwipOwner.word := encode (EvictedPage pid); StableSwipOwner.page_id := pid |}]>
    (BufferPool.owners σ))).
Proof.
  intros I Ho Hv. destruct I. split; try done.
  - intros s f E. destruct (inv_frames s f E) as [Hl Hh Hs]. split; [by destruct Hl|done|].
    intros o' Hf Hlk. destruct (Hs o' Hf Hlk) as (ow & Eo & Hp). exists ow. split; [|done]. cbn. rewrite lookup_insert_ne by congruence. done.
  - intros o' ow. cbn. rewrite lookup_insert_Some. intros [[<- <-]|[_ Eo]]; [split; [done|by left]|]. exact (inv_owners o' ow Eo).
Qed.
End edges.

(** C16: fixing a page ends. In a pool no other thread works on, two rounds
    of the loop of [fix_orphan] and of [fix] are enough: the page is found
    resident or loaded, after evictions when no frame is free, and comes back
    in a frame that is resident, carries its identifier and holds one more
    pin; every other page reads as before and pinned frames are untouched.
    The only panics are a failed read, a page the store does not have, a pool
    with no frame to free, and a slot that was claimed 2^32 - 1 times. *)
Theorem fixing_ends `{HookLaws} σ :
  inv [] 0 σ → all_calm σ →
  (∀ pid, valid_pid σ pid → ends fixing (fix_orphan_raw 2 pid) σ (fixed σ pid)) ∧
  (∀ owner ow, BufferPool.owners σ !! owner = Some ow →
    ends fixing (PoolFix.fix_raw 2 owner) σ (held_page σ (StableSwipOwner.page_id ow))).
Proof. intros I Hc. split; intros; [by apply fix_orphan_raw_spec|by apply fix_raw_spec]. Qed.

Section fixing_sample.
Import Sample.

(** An edge to page 2. *)
Definition with_edge (σ : BufferPool.t) : BufferPool.t :=
  BufferPool.with_owners σ (<[7 := {| StableSwipOwner.word := encode (EvictedPage 2); StableSwipOwner.page_id := 2 |}]> (BufferPool.owners σ)).

Lemma fixing_ends_witness : ∃ σ, made = Ret σ ∧
  ends fixing (fix_orphan_raw 2 3) (with_edge σ) (fixed (with_edge σ) 3) ∧
  ends fixing (PoolFix.fix_raw 2 7) (with_edge σ) (held_page (with_edge σ) 2).
Proof.
  destruct made_ok as (σ & E & Hok & _ & _ & T & _ & Hno). assert (Ho : BufferPool.owners σ !! 7 = None) by (by rewrite Hno).
  destruct (T 2 (data_page x02)) as (Hv & _); [done|]. destruct (T 3 (data_page x03)) as (Hv3 & _); [done|]. exists σ. split; [exact E|].
  destruct (fixing_ends (with_edge σ) (inv_new_owner [] 0 σ 7 2 (po_inv _ _ Hok) Ho Hv) (po_calm _ _ Hok)) as [F1 F2].
  split; [exact (F1 3 Hv3)|]. refine (F2 7 {| StableSwipOwner.word := encode (EvictedPage 2); StableSwipOwner.page_id := 2 |} _).
  unfold with_edge. cbn. by rewrite lookup_insert_eq.
Defined.
End fixing_sample.

(** ** What does not hold *)

Section batch_rule.
Context `{HookLaws}.
Implicit Types σ : BufferPool.t.

(** A foreground batch flushes the log once, up to its largest LSN. *)
Definition batch_log (l : list DirtyPage.t) (w : wal_t) : wal_t := if 0 <? max_lsn l then log_flush_at_least (max_lsn l) w else w.

Lemma foreground_batch_rule σ n w :
  inv [] 0 σ → BufferPool.wal σ = Some w →
  ends never (try_flush_dirty_batch n) σ (λ _ σ', ∃ l, batch_ok Foreground σ l ∧
    BufferPool.written σ' = BufferPool.written σ ++ map (λ pg, (DirtyPage.pid pg, DirtyPage.copy pg, Some (batch_log l w))) l ∧
    Forall (λ pg, 0 ≤ DirtyPage.page_lsn pg) l ∧
    (wal_rule σ → wal_rule σ' ↔ Forall (λ pg, log_is_lsn_durable (batch_log l w) (DirtyPage.page_lsn pg) = true) l)).
Proof.
  intros I Hw. eapply ends_mono; [by apply (try_flush_dirty_batch_inner_spec [] 0)|]. intros res σ' B.
  destruct (bt_written _ _ _ _ _ _ B) as (l & Hb & Hwr). exists l. rewrite Hw in Hwr.
  assert (Hl : flushed_for Foreground l (Some w) = Some (batch_log l w)) by (unfold flushed_for, batch_log; cbn; by destruct (0 <? max_lsn l)).
  assert (Hlsn : ∀ pg, pg ∈ l → read_page_lsn (DirtyPage.copy pg) = DirtyPage.page_lsn pg).
  { intros pg Hin. destruct Hb as (Hall & _). rewrite Forall_forall in Hall. destruct (Hall _ Hin) as (f & D).
    rewrite (pr_lsn _ _ _ (dp_copy _ _ _ _ D)), <-(dp_lsn _ _ _ _ D). symmetry.
    apply (fo_live _ _ (fo_local _ _ (inv_frames _ _ _ I _ _ (dp_frame _ _ _ _ D)))). by rewrite (dp_state _ _ _ _ D). }
  rewrite Hl in Hwr. unfold batch_pages in Hwr. rewrite map_map in Hwr. split_and!; [done|done| |].
  - apply Forall_forall. intros pg Hin. rewrite <-(Hlsn pg Hin). apply page_lsn_nonneg.
  - intros Hr. unfold wal_rule. rewrite Hwr, Forall_app, Forall_map, !Forall_forall. split.
    + intros [_ Hall] pg Hin. rewrite <-(Hlsn pg Hin). exact (Hall pg Hin).
    + intros Hall. split; [by apply Forall_forall|]. intros pg Hin. cbn. rewrite (Hlsn pg Hin). by apply Hall.
Qed.
End batch_rule.

Section sharded_batch.
Context `{B : Build} {PO : PageStoreOps} {PL : PageStoreLaws} (extra : nat).
#[local] Instance sharded_log : WalOps := shards_log extra.
#[local] Instance sharded_laws : LogLaws := shards_laws extra.
Context {PE : PoolEnv} {IP : InnerPages} {Hk : Hooks} {HL : HookLaws}.

(** C39: a foreground batch can write a page before its log record. The batch
    flushes the log up to the largest LSN of its pages, which makes durable
    only the shard that LSN belongs to. So the rule that a page is handed to
    the store only with its record durable survives the batch exactly when
    every page of the batch belongs to that shard or had its record durable
    already; with several shards a page of another shard is handed over
    early. *)
Theorem foreground_batch_outruns_log (σ : BufferPool.t) n (w : shard_log extra) :
  inv [] 0 σ → BufferPool.wal σ = Some w →
  ends never (try_flush_dirty_batch n) σ (λ _ σ', ∃ l, batch_ok Foreground σ l ∧
    BufferPool.written σ' = BufferPool.written σ ++ map (λ pg, (DirtyPage.pid pg, DirtyPage.copy pg, Some (batch_log l w))) l ∧
    (wal_rule σ → wal_rule σ' ↔ ∀ pg, pg ∈ l →
      shard_of extra w (DirtyPage.page_lsn pg) = shard_of extra w (max_lsn l) ∨
      Wal.is_lsn_durable (proj1_sig w) (DirtyPage.page_lsn pg) = true)).
Proof.
  intros I Hw. eapply ends_mono; [by apply foreground_batch_rule|]. intros _ σ' (l & Hb & Hwr & Hpos & Hr). exists l.
  split_and!; [done|done|]. intros Hr0. rewrite (Hr Hr0), Forall_forall. apply forall_proper. intros pg.
  apply forall_proper. intros Hin. rewrite Forall_forall in Hpos. specialize (Hpos pg Hin). pose proof (max_lsn_ge l pg Hin) as Hmax.
  unfold batch_log. destruct (Z.ltb_spec 0 (max_lsn l)).
  - cbn. rewrite as_shards_eq by (apply sharded_flush_at_least, proj2_sig).
    destruct (decide (shard_of extra w (DirtyPage.page_lsn pg) = shard_of extra w (max_lsn l))) as [Heq|Hne].
    + rewrite (flush_same_shard extra w) by done. naive_solver.
    + rewrite (flush_other_shard extra w) by done. naive_solver.
  - replace (DirtyPage.page_lsn pg) with 0 by lia. replace (max_lsn l) with 0 by lia. cbn. naive_solver.
Qed.
End sharded_batch.

(** Two threads of different shards each change a page; one batch writes both. *)
Module Shards.
#[export] Existing Instance debug_4k.
#[export] Instance two_log : WalOps := shards_log 1.
#[export] Instance two_laws : LogLaws := shards_laws 1.
#[export] Instance two_appends : LogAppends := shards_appends 1.

Definition two_shards : Wal.t :=
  {| Wal.next_lsn := 1; Wal.shards := [WalMarks.new 0; WalMarks.new 0]; Wal.commit_mode := Strict; Wal.thread_shard := 0;
     Wal.thread_last_lsn := 0 |}.
Lemma two_shards_ok : sharded 1 two_shards.
Proof. done. Qed.
Definition first_two : shard_log 1 := exist (sharded 1) two_shards two_shards_ok.

(** Another thread runs. *)
Definition on_shard (i : Z) (w : shard_log 1) : shard_log 1 :=
  exist (sharded 1) {| Wal.next_lsn := Wal.next_lsn (proj1_sig w); Wal.shards := Wal.shards (proj1_sig w);
    Wal.commit_mode := Wal.commit_mode (proj1_sig w); Wal.thread_shard := i; Wal.thread_last_lsn := 0 |} (proj2_sig w).
Definition switch (σ : BufferPool.t) : BufferPool.t := BufferPool.with_wal σ (on_shard 1 <$> BufferPool.wal σ).

Definition start : outcome BufferPool.t := with_store_from_start_pid (H0 := memory_pages) 2 1 Sample.store 4.
Definition first_writer : list request := [Update 1 (Sample.write_mark x0a)].
Definition second_writer : list request := [Update 2 (Sample.write_mark x0b)].

(** The pages handed to the store, each with its LSN and whether the log had
    it then. *)
Definition handed_over (σ : BufferPool.t) : list (PageId * Lsn * bool) :=
  map (λ '(pid, d, w), (pid, read_page_lsn d, match w with Some w => log_is_lsn_durable w (read_page_lsn d) | None => true end))
    (BufferPool.written σ).

Lemma two_writers_run :
  match start with
  | Ret σ =>
      match serve_all first_writer (BufferPool.with_wal σ (Some first_two)) with
      | Fin _ σ1 =>
          match serve_all second_writer (switch σ1) with
          | Fin _ σ2 =>
              match BufferPool.wal σ2, try_flush_dirty_batch 2 σ2 with
              | Some _, Fin r σ3 => (handed_over σ2, handed_over σ3) = ([], [(1, 1, false); (2, 2, true)])
              | _, _ => False
              end
          | _ => False
          end
      | _ => False
      end
  | Panic => False
  end.
Proof. vm_compute. reflexivity. Qed.

Lemma handed_rule σ : wal_rule σ ↔ Forall (λ '(_, b), b = true) (handed_over σ).
Proof.
  unfold wal_rule, handed_over. rewrite Forall_map. apply Forall_proper; [|done]. intros [[pid d] [w|]]; cbn; [done|]. by split.
Qed.

Lemma pool_switch n σ : pool_ok n σ → pool_ok n (switch σ).
Proof. intros [I ? ? ?]. split; try done. eapply inv_ext; [exact I|try done..]. apply I. Qed.
End Shards.

Section foreground_sample.
Import Sample Shards.

Lemma foreground_batch_outruns_log_witness : ∃ σ w, pool_ok 0 σ ∧ BufferPool.wal σ = Some w ∧ wal_rule σ ∧
  ends never (try_flush_dirty_batch 2) σ (λ _ σ', ¬ wal_rule σ' ∧ ∃ l, batch_ok Foreground σ l ∧
    ¬ ∀ pg, pg ∈ l → shard_of 1 w (DirtyPage.page_lsn pg) = shard_of 1 w (max_lsn l) ∨
      Wal.is_lsn_durable (proj1_sig w) (DirtyPage.page_lsn pg) = true).
Proof.
  destruct new_sample as (σ & E & Hok & _). pose proof two_writers_run as R. unfold start in R. rewrite E in R.
  destruct (Hok (Some first_two)) as [Hok0 T0].
  assert (Hr1 : Forall (request_ok store) first_writer) by (apply Forall_cons; split; [split; [by eexists|apply write_mark_ok]|done]).
  pose proof (serve_all_spec 0 first_writer store _ Hok0 ltac:(lia) T0 Hr1) as Sp. unfold ends in Sp.
  destruct (serve_all first_writer _) as [a1 σ1|w1|]; [|done|done]. destruct Sp as (M1 & Ha1 & Hok1 & T1 & _).
  assert (Hr2 : Forall (request_ok M1) second_writer).
  { apply Forall_cons; split; [|done]. apply (request_ok_keeps store); [by eapply answers_dom|]. split; [by eexists|apply write_mark_ok]. }
  pose proof (serve_all_spec 0 second_writer M1 (switch σ1) (pool_switch _ _ Hok1) ltac:(lia) T1 Hr2) as Sp2. unfold ends in Sp2.
  destruct (serve_all second_writer (switch σ1)) as [a2 σ2|w2|]; [|done|done]. destruct Sp2 as (M2 & _ & Hok2 & _).
  destruct (BufferPool.wal σ2) as [w|] eqn:Ew; [|done]. pose proof (foreground_batch_outruns_log 1 σ2 2 w (po_inv _ _ Hok2) Ew) as Hb.
  change (ends never (try_flush_dirty_batch 2) σ2 (λ _ σ', ∃ l, batch_ok Foreground σ2 l ∧
    BufferPool.written σ' = BufferPool.written σ2 ++ map (λ pg, (DirtyPage.pid pg, DirtyPage.copy pg, Some (batch_log l w))) l ∧
    (wal_rule σ2 → wal_rule σ' ↔ ∀ pg, pg ∈ l → shard_of 1 w (DirtyPage.page_lsn pg) = shard_of 1 w (max_lsn l) ∨
      Wal.is_lsn_durable (proj1_sig w) (DirtyPage.page_lsn pg) = true))) in Hb.
  exists σ2, w. unfold ends in *. destruct (try_flush_dirty_batch 2 σ2) as [r σ3|w3|]; [|done|done]. injection R as R2 R3.
  assert (Hrule : wal_rule σ2) by (apply handed_rule; by rewrite R2).
  assert (Hno : ¬ wal_rule σ3) by (rewrite handed_rule, R3; by intros [? _]%Forall_cons).
  destruct Hb as (l & Hbl & _ & Hiff). split; [exact Hok2|]. split; [done|]. split; [exact Hrule|]. split; [exact Hno|].
  exists l. split; [exact Hbl|]. intros Hall. apply Hno, Hiff; done.
Defined.
End foreground_sample.

(** ** Frame identities *)

Lemma frame_id_eq `{PageStoreLaws} `{LogLaws} `{!PoolEnv} `{!InnerPages} `{!Hooks} h r σ bf f :
  inv h r σ → BufferPool.arena σ !! bf = Some f → frame_id bf σ = Fin (FrameId.new (wrap 32 (Z.of_nat bf)) (Frame.generation f)) σ.
Proof.
  intros I E. destruct (frame_ptr_ok _ _ _ _ _ I E) as (_ & Hc & _). unfold frame_id, pget, orelse, mbind, PM_bind. cbv beta. unfold id at 1.
  rewrite assert_true by done. by erewrite fget_eq.
Qed.

(** C40: a frame identity can name two pages. A page that is not resident is
    loaded by [try_fix_orphan] into the first free frame without changing
    that frame's generation, so that the identity of the frame afterwards is
    the one it had for the page that was evicted from it last; a client that
    kept that identity cannot tell the pages apart. *)
Theorem frame_identity_repeats `{HookLaws} σ pid :
  inv [] 0 σ → all_calm σ → valid_pid σ pid → table_at σ pid = None →
  ends storing (try_fix_orphan_raw pid) σ (λ o σ', ∀ bf, o = Some bf →
    ∃ i f f', BufferPool.arena σ !! bf = Some f ∧ Frame.state f = Free ∧ frame_id bf σ = Fin i σ ∧
      BufferPool.arena σ' !! bf = Some f' ∧ Frame.state f' = Resident ∧ Frame.pid f' = pid ∧ frame_id bf σ' = Fin i σ').
Proof.
  intros I Hc Hv Ht. eapply ends_mono; [by apply try_fix_orphan_raw_spec|]. intros o σ' Ho bf ->. destruct Ho as [Hfx Hfree].
  destruct (Hfree Ht) as (rest & f & f' & Efl & E & E' & Hg). destruct (fx_frame _ _ _ _ Hfx) as (g & Eg & Hs & Hp & _).
  rewrite E' in Eg. injection Eg as <-. eexists _, f, f'.
  assert (Hin : bf ∈ FreeList.frames (BufferPool.free_list σ)) by (rewrite Efl; left). apply (inv_free _ _ _ I) in Hin as (_ & f0 & E0 & Hf).
  rewrite E in E0. injection E0 as <-. split_and!; [done|done|by eapply frame_id_eq|done|done|done|].
  rewrite (frame_id_eq [] 0 σ' bf f' (fx_inv _ _ _ _ Hfx) E'). by rewrite Hg.
Qed.

Section identity_sample.
Import Sample.

Definition identity (bf : nat) (σ : BufferPool.t) : option (FrameId.t * PageId) :=
  match frame_id bf σ, BufferPool.arena σ !! bf with Fin i _, Some f => Some (i, Frame.pid f) | _, _ => None end.

(** Pages 1 and 2 are read and evicted; page 3 is then loaded where page 1 was. *)
Lemma identity_run :
  match made with
  | Ret σ =>
      match serve_all reading σ with
      | Fin _ σ1 =>
          match serve_all [Evict 2] σ1 with
          | Fin _ σ2 =>
              match try_fix_orphan_raw 3 σ2 with
              | Fin (Some bf) σ3 => ∃ i, (table_at σ2 3, identity bf σ1, identity bf σ3) = (None, Some (i, 1), Some (i, 3))
              | _ => False
              end
          | _ => False
          end
      | _ => False
      end
  | Panic => False
  end.
Proof. vm_compute. eexists. reflexivity. Qed.

Lemma frame_identity_repeats_witness : ∃ σ, pool_ok 0 σ ∧
  ends storing (try_fix_orphan_raw 3) σ (λ o σ', ∃ bf i f', o = Some bf ∧ frame_id bf σ = Fin i σ ∧
    BufferPool.arena σ' !! bf = Some f' ∧ Frame.pid f' = 3 ∧ frame_id bf σ' = Fin i σ').
Proof.
  destruct made_ok as (σ & E & Hok & _ & _ & T & _). pose proof identity_run as R. rewrite E in R.
  assert (Hr : Forall (request_ok store) reading) by (repeat (apply Forall_cons; split; [by eexists|]); done).
  pose proof (serve_all_spec 0 reading store σ Hok ltac:(lia) T Hr) as Sp. unfold ends in Sp.
  destruct (serve_all reading σ) as [a1 σ1|w|]; [|done|done]. destruct Sp as (M1 & Ha & Hok1 & T1 & _).
  pose proof (serve_all_spec 0 [Evict 2] M1 σ1 Hok1 ltac:(lia) T1 ltac:(by repeat constructor)) as Sp2. unfold ends in Sp2.
  destruct (serve_all [Evict 2] σ1) as [a2 σ2|w|]; [|done|done]. destruct Sp2 as (M2 & Ha2 & Hok2 & T2 & _). exists σ2. split; [exact Hok2|].
  assert (Hd : is_Some (M2 !! 3)).
  { rewrite <-elem_of_dom, (answers_dom _ _ _ _ _ Ha2), (answers_dom _ _ _ _ _ Ha), elem_of_dom. by eexists. }
  destruct Hd as [p3 E3]. destruct (T2 3 p3 E3) as [Hv _].
  pose proof (frame_identity_repeats σ2 3 (po_inv _ _ Hok2) (po_calm _ _ Hok2) Hv) as Hi. unfold ends in *.
  destruct (try_fix_orphan_raw 3 σ2) as [[bf|] σ3|w|]; [|done|done|done]. destruct R as (i & R). injection R as R1 R2 R3.
  destruct (Hi R1 bf eq_refl) as (j & f & f' & _ & _ & Hj & E' & _ & Hp & Hj').
  exists bf, j, f'. by split_and!.
Defined.
End identity_sample.
