(* ===== verification/PageProvider.v ===== *)
(** * Page provider

    Models [src/crates/storage/src/page_provider.rs]: the policy of the
    background thread that writes dirty pages before the workers need clean
    frames, the handle that starts and stops it, and its loop over the buffer
    pool, with what clients ask of the pool while it waits. *)

From S2P Require Import Prelude Bytes FrameKernel SwipKernel PageHeader PageMutation Slotted BufferFrame FreePages FreePagesInv FreePagesSpec Posix PageStore BufferPool PoolBase PoolEvict PoolFlush PoolFix PoolInv PoolSteps PoolEvictSpec PoolFlushSpec PoolFixSpec PoolDirtySpec PoolServe PoolStores PoolInner PoolSpec.
#[local] Open Scope Z_scope.

(** ** Policy *)

(** A [Duration], in nanoseconds. *)
Module Duration.
Definition MAX : Z := (2 ^ 64 - 1) * 10 ^ 9 + 999999999.
Definition from_millis (ms : Z) : Z := ms * 10 ^ 6.
Definition saturating_mul (d k : Z) : Z := Z.min (d * k) MAX.
End Duration.

Definition MIN_IDLE_WAIT : Z := Duration.from_millis 1.
Definition MAX_IDLE_WAIT : Z := Duration.from_millis 100.
Definition DIRTY_BATCH_SIZE : Z := 64.

Module Policy.
Definition target_free_frames (num_frames : Z) : Z := Z.min (Z.max (num_frames / 10) 16) num_frames.
End Policy.

Module DirtyCleanerConfig.
Record t := { target_free_frames : Z; batch_size : Z; min_idle_wait : Z; max_idle_wait : Z }.

Definition for_pool (num_frames : Z) : t := {|
  target_free_frames := Policy.target_free_frames num_frames;
  batch_size := DIRTY_BATCH_SIZE;
  min_idle_wait := MIN_IDLE_WAIT;
  max_idle_wait := MAX_IDLE_WAIT;
|}.

Definition validate_for_pool (self : t) (num_frames : Z) : outcome t :=
  _ ← assert (0 <? num_frames);
  _ ← assert (0 <? target_free_frames self);
  _ ← assert (0 <? batch_size self);
  _ ← assert (negb (min_idle_wait self =? 0));
  _ ← assert (min_idle_wait self <=? max_idle_wait self);
  Ret {| target_free_frames := Z.min (target_free_frames self) num_frames; batch_size := batch_size self;
         min_idle_wait := min_idle_wait self; max_idle_wait := max_idle_wait self |}.
End DirtyCleanerConfig.

(** ** The handle

    [upgrade] of the pool gives its number of frames while it is there. *)

Module PageProviderHandle.
Record provider := { config : DirtyCleanerConfig.t; finished : bool }.
Record t := { thread : option provider; shutdown : bool }.

Definition new : t := {| thread := None; shutdown := false |}.
Definition is_running (self : t) : bool := match thread self with Some p => negb (finished p) | None => false end.

Definition start_with_config (self : t) (pool : option Z) (config : DirtyCleanerConfig.t) : outcome t :=
  if is_running self then Ret self else
  match pool with
  | None => Ret self
  | Some num_frames =>
      config ← DirtyCleanerConfig.validate_for_pool config num_frames;
      Ret {| thread := Some {| config := config; finished := false |}; shutdown := false |}
  end.

(** The pool may go away between the two times it is looked for. *)
Definition start (self : t) (pool pool' : option Z) : outcome t :=
  match pool with
  | None => Ret self
  | Some num_frames => start_with_config self pool' (DirtyCleanerConfig.for_pool num_frames)
  end.

Definition stop (self : t) : t := {| thread := None; shutdown := true |}.
End PageProviderHandle.

(** ** The loop *)

(** How a turn ends: a wait that a worker may cut short, or a sleep. *)
Inductive pause := Waited (d : Z) | Slept (d : Z).

(** What the thread finds when it looks, and what clients ask of the pool
    during the pause that follows. *)
Record moment := { stopped : bool; gone : bool; meanwhile : list request }.

Section loop.
Context `{Build} `{PageStoreOps} `{WalOps} `{!PoolEnv} `{!Hooks} (config : DirtyCleanerConfig.t).
Import DirtyCleanerConfig.

Definition back_off (idle_wait : Z) : Z := Z.min (Duration.saturating_mul idle_wait 2) (max_idle_wait config).

(** One turn, with the next wait when there is nothing to do. *)
Definition turn (idle_wait : Z) : PM (Z * pause) :=
  available ← pget BufferPool.resident_base_pages_available;
  if DirtyCleanerConfig.target_free_frames config <=? available
  then mret (min_idle_wait config, Waited (Duration.from_millis 10)) else
  dirty ← pget has_dirty_resident_pages_for_provider;
  if negb dirty then mret (back_off idle_wait, Waited idle_wait) else
  r ← try_flush_dirty_batch_for_provider (Z.to_nat (batch_size config));
  cleaned ← expect_ok StoreFailed r;
  if cleaned =? 0 then mret (back_off idle_wait, Waited idle_wait)
  else mret (min_idle_wait config, Slept (min_idle_wait config)).

Fixpoint run_loop (idle_wait : Z) (ms : list moment) : PM (list pause * list (option (list byte))) :=
  match ms with
  | [] => mret ([], [])
  | m :: ms =>
      if stopped m then mret ([], []) else
      if gone m then mret ([], []) else
      t ← turn idle_wait;
      a ← serve_all (meanwhile m);
      r ← run_loop t.1 ms;
      mret (t.2 :: r.1, a ++ r.2)
  end.

Definition run : list moment → PM (list pause * list (option (list byte))) := run_loop (min_idle_wait config).
End loop.

(** The turns before the thread ends, and what clients ask during them. *)
Fixpoint turns (ms : list moment) : list moment :=
  match ms with
  | [] => []
  | m :: ms => if stopped m || gone m then [] else m :: turns ms
  end.
Definition asked (ms : list moment) : list request := concat (meanwhile <$> turns ms).

(** ** Lemmas *)

Lemma answers_app `{HookLaws} types M rqs a M1 rqs' a' M2 :
  answers types M rqs a M1 → answers types M1 rqs' a' M2 → answers types M (rqs ++ rqs') (a ++ a') M2.
Proof. induction 1; cbn; eauto using answers. Qed.

Lemma ends_eq `{PageStoreOps} `{WalOps} {A} E (m : PM A) σ Q : ends E m σ Q → ends E m σ (λ a σ', m σ = Fin a σ' ∧ Q a σ').
Proof. unfold ends. by destruct (m σ). Qed.

(** ** What a turn does, and when the next one comes *)

Section pace.
Context `{HookLaws} (config : DirtyCleanerConfig.t).
Import DirtyCleanerConfig.

(** [paced σ σ' idle next p]: a turn that starts in [σ] with the wait [idle]
    leaves [σ'], pauses for [p] and hands [next] to the turn after it. With
    enough frames it waits 10 milliseconds and forgets the wait; when it can
    write no page, because none is dirty or the log is not there yet, it
    waits and doubles the wait up to the longest; when it has written pages
    it sleeps for the shortest wait and starts over. *)
Inductive paced (σ σ' : BufferPool.t) (idle : Z) : Z → pause → Prop :=
| paced_enough :
    DirtyCleanerConfig.target_free_frames config ≤ BufferPool.resident_base_pages_available σ → σ' = σ →
    paced σ σ' idle (min_idle_wait config) (Waited (Duration.from_millis 10))
| paced_clean :
    BufferPool.resident_base_pages_available σ < DirtyCleanerConfig.target_free_frames config →
    (∀ s f, BufferPool.arena σ !! s = Some f → Frame.state f = Resident → Frame.dirty f = false) → σ' = σ →
    paced σ σ' idle (Z.min (2 * idle) (max_idle_wait config)) (Waited idle)
| paced_behind pages :
    BufferPool.resident_base_pages_available σ < DirtyCleanerConfig.target_free_frames config →
    (∃ s f, BufferPool.arena σ !! s = Some f ∧ Frame.state f = Resident ∧ Frame.dirty f = true) → wrote σ σ' [] pages true →
    paced σ σ' idle (Z.min (2 * idle) (max_idle_wait config)) (Waited idle)
| paced_wrote l pages :
    BufferPool.resident_base_pages_available σ < DirtyCleanerConfig.target_free_frames config → l ≠ [] → wrote σ σ' l pages true →
    paced σ σ' idle (min_idle_wait config) (Slept (min_idle_wait config)).

(** The turns until the thread is stopped or the pool is gone, each followed
    by the requests of its moment. *)
Inductive schedule : Z → BufferPool.t → list moment → list pause → BufferPool.t → Prop :=
| schedule_out idle σ : schedule idle σ [] [] σ
| schedule_end idle σ m ms : stopped m || gone m = true → schedule idle σ (m :: ms) [] σ
| schedule_turn idle next p ps σ σ1 σ2 σ3 a m ms :
    stopped m || gone m = false → paced σ σ1 idle next p → serve_all (meanwhile m) σ1 = Fin a σ2 →
    schedule next σ2 ms ps σ3 → schedule idle σ (m :: ms) (p :: ps) σ3.
End pace.

Section lemmas.
Context `{HookLaws} `{!LogAppends} (config : DirtyCleanerConfig.t).
Context (Hmax : DirtyCleanerConfig.max_idle_wait config ≤ Duration.MAX).
Import DirtyCleanerConfig.

Lemma back_off_doubles idle : back_off config idle = Z.min (2 * idle) (max_idle_wait config).
Proof using Hmax. unfold back_off, Duration.saturating_mul. lia. Qed.

Lemma has_dirty_spec (σ : BufferPool.t) : has_dirty_resident_pages_for_provider σ = true ↔
  ∃ s f, BufferPool.arena σ !! s = Some f ∧ Frame.state f = Resident ∧ Frame.dirty f = true.
Proof.
  unfold has_dirty_resident_pages_for_provider. rewrite existsb_exists. split.
  - intros (f & [s E]%list_elem_of_In%list_elem_of_lookup & [Hs%bool_decide_eq_true_1 Hd]%andb_true_iff). by exists s, f.
  - intros (s & f & E & Hs & Hd). exists f. split; [by eapply list_elem_of_In, list_elem_of_lookup_2|]. by rewrite bool_decide_eq_true_2, Hd.
Qed.

Lemma turn_spec n M σ idle :
  pool_ok n σ → tracks M σ →
  ends serving (turn config idle) σ (λ t σ', maintained n M σ σ' ∧ (wal_rule σ → wal_rule σ') ∧ paced config σ σ' idle t.1 t.2).
Proof using All.
  intros Hok T. assert (Hm : maintained n M σ σ) by (by split_and!).
  unfold turn. rewrite back_off_doubles. pstep. destruct (Z.leb_spec (DirtyCleanerConfig.target_free_frames config) (BufferPool.resident_base_pages_available σ)).
  { pstep. split_and!; [done|done|by apply paced_enough]. }
  pstep. destruct (has_dirty_resident_pages_for_provider σ) eqn:Ed; cbn [negb].
  2: { pstep. split_and!; [done|done|]. apply paced_clean; [done| |done]. intros s f E Hs. destruct (Frame.dirty f) eqn:Hd; [|done].
    enough (has_dirty_resident_pages_for_provider σ = true) by congruence. apply has_dirty_spec. by exists s, f. }
  apply ends_bind. eapply ends_mono; [eapply ends_weaken; [apply try_flush_dirty_batch_inner_spec, Hok|done]|].
  intros res σ1 B. assert (Hm1 : maintained n M σ σ1) by (by eapply maintained_quiet; [| |apply B|apply B]).
  assert (Hw1 : wal_rule σ → wal_rule σ1) by (apply (bt_wal _ _ _ _ _ _ B); by left).
  destruct (bt_wrote _ _ _ _ _ _ B) as (l & pages & W & Hl).
  destruct res as [cleaned|e]; cbn [expect_ok]; [|by left; left]. pstep. specialize (Hl cleaned eq_refl). subst cleaned.
  destruct l as [|s l]; [change (zlen (@nil nat) =? 0) with true|rewrite (proj2 (Z.eqb_neq (zlen (s :: l)) 0)) by (unfold zlen; cbn; lia)];
    pstep; (split_and!; [done|done|]); [eapply paced_behind; [done|exact (proj1 (has_dirty_spec σ) Ed)|exact W]|eapply (paced_wrote _ _ _ _ (s :: l) pages); done].
Qed.

(** Where no one asks, nothing changes. *)
Lemma serve_idle_spec n rqs M σ :
  pool_ok n σ → 0 ≤ n < 2 ^ 32 - 1 → tracks M σ → Forall (request_ok M) rqs →
  ends serving (serve_all rqs) σ (λ a σ', (∃ M', answers (preparers σ) M rqs a M' ∧ maintained n M' σ σ') ∧ (rqs = [] → σ' = σ)).
Proof.
  intros Hok Hn T Hr. destruct rqs as [|rq rqs]; [cbn [serve_all]; pstep; split; [|done]; exists M; split; [constructor|by split_and!]|].
  eapply ends_mono; [by apply (serve_all_spec n _ M)|]. by intros a σ' ?.
Qed.

Lemma run_loop_spec n ms : ∀ M σ idle,
  pool_ok n σ → 0 ≤ n < 2 ^ 32 - 1 → tracks M σ → Forall (request_ok M) (asked ms) →
  ends serving (run_loop config idle ms) σ (λ r σ', (∃ M', answers (preparers σ) M (asked ms) r.2 M' ∧ maintained n M' σ σ') ∧
    (asked ms = [] → wal_rule σ → wal_rule σ') ∧ schedule config idle σ ms r.1 σ').
Proof using All.
  induction ms as [|m ms IH]; intros M σ idle Hok Hn T Hr; cbn [run_loop].
  { pstep. split_and!; [|done|constructor]. exists M. split; [constructor|by split_and!]. }
  unfold asked in *. cbn [turns] in *. destruct (stopped m) eqn:Es; [|destruct (gone m) eqn:Eg]; cbn [orb] in *.
  1,2: pstep; (split_and!; [|done|apply schedule_end; by rewrite Es, ?Eg]); exists M; (split; [constructor|by split_and!]).
  cbn [fmap list_fmap concat] in *. apply Forall_app in Hr as [Hr1 Hr2].
  apply ends_bind. eapply ends_mono; [by apply (turn_spec n M)|]. intros t σ1 ((Hok1 & T1 & Hp1 & Hw1) & Hb1 & Hpa).
  apply ends_bind. eapply ends_mono; [by apply ends_eq, (serve_idle_spec n (meanwhile m) M σ1)|].
  intros a σ2 (Ea & (M2 & Ha & Hok2 & T2 & Hp2 & Hw2) & Hidle). apply ends_bind. eapply ends_mono; [apply (IH M2 σ2); try done|].
  { eapply Forall_impl; [exact Hr2|]. intros rq. apply request_ok_keeps. by eapply answers_dom. }
  intros r σ3 ((M3 & Ha3 & Hok3 & T3 & Hp3 & Hw3) & Hb3 & Hs3). pstep. cbn [fst snd length].
  assert (Ht1 : preparers σ1 = preparers σ) by exact Hp1. assert (Ht2 : preparers σ2 = preparers σ1) by exact Hp2.
  rewrite Ht2, Ht1 in Ha3. rewrite Ht1 in Ha. split_and!.
  - exists M3. split; [by eapply answers_app|]. split_and!; [done|done|congruence|by auto].
  - intros [E1 E2]%app_nil Hwr. apply Hb3; [done|]. rewrite Hidle by done. by apply Hb1.
  - eapply schedule_turn; [by rewrite Es, Eg|done|done|done].
Qed.
End lemmas.

(** ** Cleaning behind the clients *)

(** C17: the page provider does not disturb the pool's clients, and keeps its
    pace. For every policy that passes validation, and through turns in any
    number with any requests between them, the clients are answered as by a
    map of pages (as the pool answers them without the thread); the thread
    panics for no reason but those for which a request may, and ends when it
    is told to stop or the pool is gone. Each turn with enough free frames
    waits 10 milliseconds; each turn that writes pages sleeps for the shortest
    wait; after both the next idle wait is the shortest one. Each turn that
    finds no dirty page, or none it may write, waits for the idle wait and
    doubles it, up to the longest. The pages it writes itself have their log
    records durable whatever the log; with clients at work the same holds of
    all writes when one flush of the log covers all smaller LSNs. *)
Theorem provider_serves_pages `{HookLaws} `{!LogAppends} n M σ c frames config ms :
  DirtyCleanerConfig.validate_for_pool c frames = Ret config → DirtyCleanerConfig.max_idle_wait c ≤ Duration.MAX →
  pool_ok n σ → 0 ≤ n < 2 ^ 32 - 1 → tracks M σ → Forall (request_ok M) (asked ms) →
  ends serving (run config ms) σ (λ r σ', ∃ M', answers (preparers σ) M (asked ms) r.2 M' ∧ pool_ok n σ' ∧ tracks M' σ' ∧
    (ordered_log ∨ asked ms = [] → wal_rule σ → wal_rule σ') ∧
    schedule config (DirtyCleanerConfig.min_idle_wait config) σ ms r.1 σ').
Proof.
  intros Hv Hmax Hok Hn T Hr.
  assert (Hm : DirtyCleanerConfig.max_idle_wait config ≤ Duration.MAX).
  { unfold DirtyCleanerConfig.validate_for_pool in Hv. do 5 (apply bind_Ret_inv in Hv as (? & _ & Hv)). by injection Hv as <-. }
  eapply ends_mono; [by apply (run_loop_spec config Hm n ms M σ)|].
  intros r σ' ((M' & Ha & Hok' & T' & _ & Hw) & Hb & Hs). exists M'. split_and!; try done. intros [Ho|Ho]; auto.
Qed.

Section sample.
Import Sample.

(** A turn with enough frames, one that finds nothing, two that write, and
    the end. *)
Definition sample_config : DirtyCleanerConfig.t := {|
  DirtyCleanerConfig.target_free_frames := 64; DirtyCleanerConfig.batch_size := 1;
  DirtyCleanerConfig.min_idle_wait := Duration.from_millis 1; DirtyCleanerConfig.max_idle_wait := Duration.from_millis 3 |}.
Definition quiet_moment (rqs : list request) : moment := {| stopped := false; gone := false; meanwhile := rqs |}.
Definition sample_moments : list moment :=
  [quiet_moment [Get 1]; quiet_moment []; quiet_moment [Update 1 (write_mark x0a); Update 2 (write_mark x0b)];
   quiet_moment []; quiet_moment [Get 1]; quiet_moment [Evict 2]; quiet_moment [Get 3; Get 2];
   {| stopped := true; gone := false; meanwhile := [Get 1] |}].
Definition sample_validated : DirtyCleanerConfig.t := {|
  DirtyCleanerConfig.target_free_frames := 2; DirtyCleanerConfig.batch_size := 1;
  DirtyCleanerConfig.min_idle_wait := Duration.from_millis 1; DirtyCleanerConfig.max_idle_wait := Duration.from_millis 3 |}.

Definition mark_of (o : option (list byte)) : option byte := p ← o; p !! 100%nat.
Definition sample_outcome : option (list pause * list (option byte)) :=
  match made with
  | Ret σ => match run sample_validated sample_moments σ with Fin r _ => Some (r.1, map mark_of r.2) | _ => None end
  | Panic => None
  end.

(** The wait doubles while nothing is dirty; one page is written in a turn. *)
Lemma sample_provider_run :
  sample_outcome = Some ([Waited (Duration.from_millis 10); Waited (Duration.from_millis 1); Waited (Duration.from_millis 2);
      Slept (Duration.from_millis 1); Slept (Duration.from_millis 1); Waited (Duration.from_millis 1); Waited (Duration.from_millis 10)],
    [Some x01; Some x0a; Some x0b; Some x0a; None; Some x03; Some x0b]).
Proof. vm_compute. reflexivity. Qed.

Lemma provider_serves_pages_witness : ∃ σ, made = Ret σ ∧
  ends serving (run sample_validated sample_moments) σ (λ r σ', ∃ M', answers (preparers σ) store (asked sample_moments) r.2 M' ∧ pool_ok 0 σ' ∧
    tracks M' σ' ∧ (ordered_log ∨ asked sample_moments = [] → wal_rule σ → wal_rule σ') ∧
    schedule sample_validated (Duration.from_millis 1) σ sample_moments r.1 σ').
Proof.
  destruct made_ok as (σ & E & Hok & _ & _ & T & _). exists σ. split; [exact E|].
  refine (provider_serves_pages 0 store σ sample_config 2 sample_validated sample_moments eq_refl _ Hok _ T _);
    [vm_compute; congruence|lia|].
  cbn. repeat (apply Forall_cons; split; [first [split; [by eexists|apply write_mark_ok]|by eexists|exact I]|]); done.
Defined.
End sample.
